(* ===== verification/_CoqProject ===== *)
-Q . S2P
Prelude.v
Numbers.v
Paths.v
Roster.v
RosterInvariant.v
ParallelIter.v
Marking.v
MarkingSpec.v
RosterDelta.v
RosterDeltaRoundtrip.v
Hex.v
BasicIo.v
Cset.v
CsetApply.v
CsetRoster.v
CsetIo.v
Adler.v
Xdelta.v
XdeltaRoundtrip.v
XdeltaPieces.v
XdeltaInverse.v
RevHeight.v
Graph.v
UncommonAncestors.v
ReconstructionPath.v
Toposort.v
MergeRoster.v
MergeMoves.v
MergeInvariant.v
MergeFill.v
MergeCorrect.v
MergeForward.v
Netio.v
MerkleTree.v
MerkleIo.v
MerkleTrie.v
Refiner.v
RefinerIndex.v
RefinerStep.v
RefinerCorrect.v
Refinement.v
Globish.v
GlobishSpec.v
GlobishCompile.v
Netcmd.v
NetcmdPayload.v
NetcmdStream.v
Dates.v
DatesCorrect.v
DatesText.v
DfsIter.v
DfsCorrect.v
DfsSane.v
RosterIo.v
RosterText.v
RosterRead.v
RosterRebuild.v
RosterRoundtrip.v
Revision.v
RevisionIo.v
Lcs.v
LcsDistance.v
LcsCompare.v
LcsSplit.v
LcsRange.v
LcsCorrect.v
LcsOrder.v
Merge3way.v
Merge3wayExtents.v
Merge3wayCorrect.v
Merge3wayRename.v
Merge3wayLines.v
StringQueue.v
Enumerator.v
EnumeratorFiles.v
EnumeratorCorrect.v
Restrictions.v
RestrictionsCorrect.v
RestrictionsNodes.v
RestrictedRoster.v
