(* ===== verification/Prelude.v ===== *)
(** * Verification of the core of monotone

    monotone is a distributed version control system written in C++ (under
    src/src/).  A revision names a manifest, held in memory as a _roster_: a
    tree of nodes with stable identities, and beside it a _marking map_ that
    records, for every versioned scalar (birth, name, content, each
    attribute), the revisions that last set it.  Rosters are changed by
    _changesets_, stored as deltas against each other, and merged by the
    mark-merge algorithm; file texts are stored as _xdeltas_ against each
    other, and a text is rebuilt along a path of deltas.  This development
    translates those parts into executable definitions and proves what makes
    them correct.

    ** Conventions

    A function that can fail returns a [result]: [I(...)], [E(...)] and the
    [safe_] container operations become failures that carry their origin;
    exceptions of the standard library and undefined behaviour (the erasure of
    an end iterator, say) are failures of their own.  A function that changes
    an object returns the changed object.  [std::map] and [std::set] are
    [gmap] and [gset], and where the code iterates, [map_iter] and [set_iter]
    list them in the order of the key's [operator<].  Machine integers are [Z]
    with the wrap-around written out ([u8], [u16], [u32], [u64]).  A byte
    string is a list of [ascii].  Loops whose end is not visible in their
    arguments take fuel; the theorem about such a loop says how much is
    enough, and that the loop then returns.

    ** The files

    - [Prelude]: failures, the monad and its lemmas, ordered iteration, safe
      containers (safe_map.hh, sanity.hh), bit and list lemmas, tactics and
      hints.
    - [Numbers]: numeric_vocab.hh and the conversions of numbers to text.
    - [Paths] (paths.cc, paths.hh): validity, normalisation, splitting and
      joining of paths and their order.  The order is the component-wise
      lexicographic order; joining and splitting are inverse; normalisation
      yields relative, normal paths and is idempotent.
    - [Roster] (roster.cc, roster.hh): nodes, [roster_t] and every operation
      that edits it; [RosterInvariant]: the representation invariant [rwf]
      that the operations rely on and keep, lookup against naming, and the
      behaviour of detaching and attaching on the branches that refuse.
    - [ParallelIter] (parallel_iter.hh): the iterator over two maps at once,
      against a key-wise specification.
    - [Marking] (roster.cc): marking of the result of a merge;
      [MarkingSpec]: mark_merge_roster computes the marking that the
      declarative mark-merge rules assign to each scalar, whichever parent is
      the left one.
    - [RosterDelta] (roster_delta.cc): making and applying roster deltas;
      [RosterDeltaRoundtrip]: applying the delta between two rosters with
      their markings to the first yields the second.
    - [Hex], [BasicIo] (transforms.cc, vocab.cc, basic_io.cc, basic_io.hh):
      hexadecimal coding and the stanza format, its tokenizer, parser and
      printer.
    - [Cset] (cset.cc): changesets, their normalisation check, application to
      an editable tree, text form and parser; [CsetApply]: what apply_to does,
      in which order, against any [EditableTree]; [CsetRoster] (roster.cc):
      make_cset and the roster as an editable tree, and that applying any
      changeset to a complete roster fails or gives a complete roster;
      [CsetIo]: the text of a changeset parses to it.
    - [Adler] (adler32.hh): rolling the checksum equals computing it afresh.
    - [Xdelta] (xdelta.cc): computing deltas and applying them, whole or
      piecewise or inverted; [XdeltaRoundtrip], [XdeltaPieces],
      [XdeltaInverse]: the delta between two strings rebuilds the second from
      the first, a chain of deltas applied to pieces of texts equals applying
      the deltas to the texts, and an inverted delta leads back.
    - [RevHeight] (rev_height.cc): heights, their encoding, order and
      distance.
    - [Graph] (graph.cc, graph.hh): the graph interfaces and algorithms;
      [UncommonAncestors]: two revisions' uncommon ancestors are found
      exactly; [ReconstructionPath]: a shortest path of deltas is found;
      [Toposort]: an ancestry graph is sorted topologically.
    - [MergeRoster] (merge_roster.cc, merge_roster.hh): the merge of two
      rosters: the lifecycle of nodes, the merge of names, contents and
      attributes, the conflicts; [MergeMoves], [MergeInvariant], [MergeFill]:
      what each phase does to the result; [MergeCorrect]: every node of the
      result carries the merged scalars or a conflict says why not, and a
      clean merge is a complete roster; [MergeForward]: merging a revision
      with its ancestor gives the revision, and two inputs on which the code
      goes wrong.
    - [Netio] (netio.hh): the wire encodings of integers and strings.
    - [MerkleTree] (merkle_tree.cc, merkle_tree.hh): trie nodes, their text
      form and the trie in its table; [MerkleIo]: an instance of the
      library functions that are parameters, and a node written and read; [MerkleTrie]: the table represents a set of identifiers.
    - [Refiner] (refiner.cc, refiner.hh): the refinement of two tries;
      [RefinerIndex]: what an indexed refiner holds; [RefinerStep]: what one
      slot of a comparison does; [RefinerCorrect]: two peers as a transition
      system and the meaning of the commands under way; [Refinement]: every
      exchange ends and finds exactly what each side has to send.
    - [Globish] (globish.cc, globish.hh): compiling, printing and matching
      glob patterns; [GlobishSpec]: the grammar and language of patterns, and
      what the matcher accepts; [GlobishCompile]: what the compiler accepts is
      in the grammar, printed patterns compile to themselves, and where
      matching departs from the language.
    - [Netcmd] (netcmd.cc, netcmd.hh, hmac.cc): network commands, their
      payloads, the envelope and its chained checksum; [NetcmdPayload]: every
      payload is read back; [NetcmdStream]: streams of commands are read back,
      also in pieces, nothing unauthentic is accepted, and payloads the
      readers do not cope with.
    - [Dates] (dates.cc): the calendar, ISO 8601 and date arithmetic;
      [DatesCorrect]: the two conversions are inverse to each other;
      [DatesText]: a printed date is read back, and texts the reader should
      have turned down.
    - [DfsIter] (roster.cc): the iterator over a roster, and the checks and
      comparisons that use it; [DfsCorrect]: the list of nodes it visits;
      [DfsSane]: what [check_sane] and [operator==] decide.
    - [RosterIo] (roster.cc): rosters and markings as text; [RosterText]: the
      tokens of the text; [RosterRead]: a stanza read back; [RosterRebuild]:
      adding nodes in the order of the iterator; [RosterRoundtrip]: the text
      is read back.
    - [Revision] (revision.cc): making, checking, writing and reading
      revisions; [RevisionIo]: the text of a revision is read back, and texts
      that are read as the revision of another text.
    - [Lcs] (lcs.cc): edit scripts and longest common subsequences;
      [LcsDistance]: the textbook definition they are judged by; [LcsCompare]:
      the sweep of the diagonals; [LcsSplit] and [LcsRange]: the split of a
      problem in two; [LcsCorrect]: the divide and conquer; [LcsOrder]: the
      ordering of the edits, and that scripts are shortest.
    - [Merge3way] (merge_3way.cc, interner.hh): the three-way merge of lines;
      [Merge3wayExtents]: its extents account for every line;
      [Merge3wayCorrect]: the merge of numbered lines; [Merge3wayRename]: the
      numbering does not matter; [Merge3wayLines]: the laws of the merge.
    - [StringQueue] (string_queue.hh): the byte queue of a session, which
      behaves as the string it holds.
    - [Enumerator] (enumerator.cc): which files, revisions and certificates a
      session is handed, and when; [EnumeratorFiles]: the files that go with
      a revision; [EnumeratorCorrect]: every revision is visited once, after
      its parents.
    - [Restrictions] (restrictions.cc): narrowing a command to some paths;
      [RestrictionsCorrect]: what a restriction of paths lets through, and
      where that is what the manual says; [RestrictionsNodes]: for nodes,
      that parents come along, and where two rosters break it.
    - [RestrictedRoster] (make_restricted_roster of roster.cc): the roster
      with the included changes only; it is the one made of the chosen nodes,
      if they make one; where they form a circle the code does not end.  Both loops have fuel, and as much as there are
      nodes in the two rosters is enough.

    ** Interfaces

    [EditableTree] is what a changeset needs of the tree it is applied to; the
    roster implements it.  [DeltaApplicator] is what the reader of a delta
    needs of its consumer; the string applicator and the piece table implement
    it.  [reconstruction_graph] and [rev_graph] are what the graph algorithms
    need of the database, [revision_source] what the enumerator needs of it,
    and [enumerator_callbacks] what the enumerator needs of a session.
    The clients' theorems are proved against the classes.

    ** Fuel

    The breadth-first search takes a round per step to the nearest base, the
    topological sort one per revision, the search for uncommon ancestors one
    per pair of a revision and a colour, the tokenizer and the parsers one per
    byte of the input, the path walks one per component.  Each theorem states
    its bound.

    ** Not modelled

    The copy-on-write sharing of nodes between rosters (cow_trie.hh and
    the reference counts): a roster is a value here, which is what the
    sharing implements.  Messages: a failure carries its origin and not its
    text, so line and column counting of basic_io is left out, as is logging.
    The database (SQLite), the network sessions (Netxx sockets, Botan
    cryptography), the Lua hooks, the workspace on disk, the command line and
    its output, importers and exporters, the key store.  Everything under
    src/Attic/ is third-party or obsolete code.

    ** Left for later

    The text form of roster deltas and the marking of a revision with one
    parent. *)

From Stdlib Require Export ZArith Lia Ascii.
From stdpp Require Export prelude gmap strings list fin_maps sorting.

(** ** Scopes and notations of the development *)

Declare Scope mtn_scope.
Delimit Scope mtn_scope with mtn.
#[global] Open Scope Z_scope.

(** A C++ [std::string] is a sequence of bytes. *)
Abbreviation bytes := (list ascii).

(** A string literal of the source. *)
Definition lit (s : string) : bytes := String.list_ascii_of_string s.
Arguments lit s%_string_scope.

(** The value of a byte read as [unsigned char], and back with wrap-around. *)
Definition byte_val (c : ascii) : Z := Z.of_N (N_of_ascii c).
Definition byte_of (z : Z) : ascii := ascii_of_N (Z.to_N (z mod 256)).

(** ** Failures

    [origin::type] of [origin_type.hh]; an [I(...)] or [E(...)] that does not
    hold and a [safe_insert]/[safe_get]/[safe_erase] on the wrong key call
    [sanity::generic_failure], which throws a failure that carries its origin,
    recoverable or not depending on that origin.  [I(...)] and the [safe_]
    operations have the origin [internal].  [StdException] is an exception of
    the standard library itself: [std::out_of_range] or [std::length_error].
    [BadDecode] is the exception of the network decoders.
    [UndefinedBehaviour] is no exception: the code has left the language, for
    example by erasing the end iterator of a vector. *)
Inductive origin_type :=
  | internal | network | database | workspace | system | user | no_fault.

Inductive failure :=
  | Recoverable (caused_by : origin_type)
  | Unrecoverable (caused_by : origin_type)
  | StdException
  | BadDecode
  | UndefinedBehaviour.

Definition generic_failure (caused_by : origin_type) : failure :=
  match caused_by with
  | database | internal => Unrecoverable caused_by
  | _ => Recoverable caused_by
  end.

(** A violated invariant. *)
Abbreviation invariant_failure := (Unrecoverable internal).

Inductive result (A : Type) : Type :=
  | Ok (a : A)
  | Err (e : failure).
Arguments Ok {A} a.
Arguments Err {A} e.

#[export] Instance origin_eq_dec : EqDecision origin_type.
Proof. solve_decision. Defined.
#[export] Instance failure_eq_dec : EqDecision failure.
Proof. solve_decision. Defined.
#[export] Instance result_eq_dec {A} `{EqDecision A} : EqDecision (result A).
Proof. solve_decision. Defined.

#[export] Instance result_ret : MRet result := @Ok.
#[export] Instance result_bind : MBind result := λ A B f m,
  match m with Ok a => f a | Err e => Err e end.
#[export] Instance result_fmap : FMap result := λ A B f m,
  match m with Ok a => Ok (f a) | Err e => Err e end.

(** [I(e)] and [E(e, origin, message)] of [sanity.hh]. *)
Definition I_ (b : bool) : result unit := if b then Ok tt else Err invariant_failure.
Definition E_ (b : bool) (o : origin_type) : result unit :=
  if b then Ok tt else Err (generic_failure o).
Definition of_option {A} (o : option A) : result A :=
  match o with Some a => Ok a | None => Err invariant_failure end.

Definition is_ok {A} (m : result A) : bool :=
  match m with Ok _ => true | Err _ => false end.

(** A [for] loop whose body may fail. *)
Fixpoint foldM {A S} (f : S → A → result S) (l : list A) (s : S) : result S :=
  match l with
  | [] => Ok s
  | x :: l => s' ← f s x; foldM f l s'
  end.

Create HintDb mtn.

Section result_lemmas.
Context {A B S : Type}.

Lemma bind_Ok_inv (m : result A) (f : A → result B) b :
  m ≫= f = Ok b → ∃ a, m = Ok a ∧ f a = Ok b.
Proof. destruct m; [eauto | done]. Qed.

Lemma I_Ok_inv b u : I_ b = Ok u → b = true.
Proof. by destruct b. Qed.

Lemma E_Ok_inv b o u : E_ b o = Ok u → b = true.
Proof. by destruct b. Qed.

Lemma of_option_Ok_inv (o : option A) a : of_option o = Ok a → o = Some a.
Proof. destruct o; simpl; congruence. Qed.

Lemma foldM_app (f : S → A → result S) l1 l2 s :
  foldM f (l1 ++ l2) s = s' ← foldM f l1 s; foldM f l2 s'.
Proof.
  revert s; induction l1 as [|x l1 IH]; intros s; [done|].
  simpl. destruct (f s x); [apply IH | done].
Qed.

(** The loop rule: an invariant indexed by the processed prefix. *)
Lemma foldM_ok (P : list A → S → Prop) (f : S → A → result S) l s :
  P [] s →
  (∀ l1 x l2 s, l = l1 ++ x :: l2 → P l1 s →
     ∃ s', f s x = Ok s' ∧ P (l1 ++ [x]) s') →
  ∃ s', foldM f l s = Ok s' ∧ P l s'.
Proof.
  intros H0 Hstep.
  enough (∀ l2 l1 s, l = l1 ++ l2 → P l1 s →
            ∃ s', foldM f l2 s = Ok s' ∧ P l s') as H by (by eapply (H l [])).
  induction l2 as [|x l2 IH]; intros l1 s1 Hl HP.
  - rewrite app_nil_r in Hl. subst. eauto.
  - destruct (Hstep l1 x l2 s1 Hl HP) as (s2 & Hf & HP2).
    simpl. rewrite Hf. simpl.
    apply (IH (l1 ++ [x]) s2); [by rewrite <- app_assoc | done].
Qed.

(** Partial correctness of a loop: an invariant of the body. *)
Lemma foldM_inv (P : S → Prop) (f : S → A → result S) l s s' :
  P s → (∀ s x s', x ∈ l → P s → f s x = Ok s' → P s') →
  foldM f l s = Ok s' → P s'.
Proof.
  revert s; induction l as [|x l IH]; simpl; intros s HP Hstep Hf.
  - by simplify_eq.
  - destruct (f s x) as [s1|] eqn:Hx; [simpl in Hf | done].
    eapply IH; [eapply Hstep, Hx; [set_solver | done] | | done].
    intros; eapply Hstep; eauto; set_solver.
Qed.

(** The same, with an invariant indexed by the processed prefix. *)
Lemma foldM_prefix (P : list A → S → Prop) (f : S → A → result S) l s s' :
  P [] s →
  (∀ l1 x l2 s s', l = l1 ++ x :: l2 → P l1 s → f s x = Ok s' → P (l1 ++ [x]) s') →
  foldM f l s = Ok s' → P l s'.
Proof.
  intros H0 Hstep.
  enough (∀ l2 l1 s, l = l1 ++ l2 → P l1 s → foldM f l2 s = Ok s' → P l s') as H by (by apply (H l [])).
  induction l2 as [|x l2 IH]; intros l1 s1 Hl HP Hf.
  - rewrite app_nil_r in Hl. simpl in Hf. congruence.
  - simpl in Hf. destruct (f s1 x) as [s2|] eqn:Hx; [simpl in Hf|done].
    apply (IH (l1 ++ [x]) s2); [by rewrite <- app_assoc| |done]. by eapply Hstep.
Qed.
End result_lemmas.

(** Decompose the hypotheses that say a monadic computation succeeded. *)
Ltac inv_ok :=
  repeat match goal with
  | H : mbind _ _ = Ok _ |- _ =>
      let x := fresh "v" in let E := fresh "E" in
      apply bind_Ok_inv in H as (x & E & H)
  | H : I_ _ = Ok _ |- _ => apply I_Ok_inv in H
  | H : E_ _ _ = Ok _ |- _ => apply E_Ok_inv in H
  | H : of_option _ = Ok _ |- _ => apply of_option_Ok_inv in H
  | H : Ok _ = Ok _ |- _ => injection H as H
  | H : Err _ = Ok _ |- _ => discriminate H
  | H : mret _ = Ok _ |- _ => unfold mret, result_ret in H
  | H : bool_decide _ = true |- _ => apply bool_decide_eq_true in H
  | H : negb _ = true |- _ => apply negb_true_iff in H
  | H : _ && _ = true |- _ => apply andb_true_iff in H as [? ?]
  end.

(** ** [safe_map.hh]: container operations that fail on the wrong key *)

Section safe_map.
Context `{Countable K} {V : Type}.

Definition safe_insert (m : gmap K V) (k : K) (v : V) : result (gmap K V) :=
  match m !! k with Some _ => Err invariant_failure | None => Ok (<[k:=v]> m) end.

Definition safe_erase (m : gmap K V) (k : K) : result (gmap K V) :=
  match m !! k with Some _ => Ok (delete k m) | None => Err invariant_failure end.

Definition safe_get (m : gmap K V) (k : K) : result V := of_option (m !! k).

Definition safe_insert_set (X : gset K) (k : K) : result (gset K) :=
  if decide (k ∈ X) then Err invariant_failure else Ok ({[k]} ∪ X).

Lemma safe_insert_Ok_inv m k v m' :
  safe_insert m k v = Ok m' → m !! k = None ∧ m' = <[k:=v]> m.
Proof. unfold safe_insert. destruct (m !! k); naive_solver. Qed.

Lemma safe_insert_fresh m k v : m !! k = None → safe_insert m k v = Ok (<[k:=v]> m).
Proof. unfold safe_insert. by intros ->. Qed.

Lemma safe_erase_Ok_inv m k m' :
  safe_erase m k = Ok m' → is_Some (m !! k) ∧ m' = delete k m.
Proof. unfold safe_erase. destruct (m !! k); naive_solver. Qed.

(** An insertion under a fresh key, seen as adding one pair. *)
Lemma lookup_insert_fresh (m : gmap K V) k v k' v' :
  m !! k = None → <[k:=v]> m !! k' = Some v' ↔ m !! k' = Some v' ∨ (k' = k ∧ v' = v).
Proof. intros. rewrite lookup_insert_Some. naive_solver. Qed.

Lemma safe_insert_set_fresh (X : gset K) k :
  k ∉ X → safe_insert_set X k = Ok ({[k]} ∪ X).
Proof. intros. unfold safe_insert_set. by rewrite decide_False. Qed.

Lemma safe_get_Ok_inv (m : gmap K V) k v : safe_get m k = Ok v → m !! k = Some v.
Proof. apply of_option_Ok_inv. Qed.
End safe_map.

(** ** Ordered keys

    [std::set] and [std::map] iterate in increasing key order.  The model
    keeps them as [gset]/[gmap] and recovers the iteration with [set_iter]
    and [map_iter], which sort by the key's [operator<]. *)
Class Ordered (K : Type) := {
  klt : K → K → bool;
  klt_irrefl x : klt x x = false;
  klt_trans x y z : klt x y = true → klt y z = true → klt x z = true;
  klt_total x y : klt x y = true ∨ x = y ∨ klt y x = true
}.

Definition kle `{Ordered K} (x y : K) : Prop := klt y x = false.
#[export] Instance kle_dec `{Ordered K} : RelDecision kle.
Proof. intros x y. unfold kle. apply _. Defined.

Section ordered.
Context `{Ordered K}.

Lemma klt_asym x y : klt x y = true → klt y x = false.
Proof.
  intros Hxy. destruct (klt y x) eqn:Hyx; [|done].
  by rewrite <- (klt_irrefl x), (klt_trans x y x).
Qed.

#[export] Instance kle_total : Total kle.
Proof.
  intros x y. unfold kle.
  destruct (klt_total x y) as [?|[->|?]];
    [left | left | right]; auto using klt_asym, klt_irrefl.
Qed.

#[export] Instance kle_trans : Transitive kle.
Proof.
  intros x y z. unfold kle. intros Hyx Hzy.
  destruct (klt z x) eqn:Hzx; [|done]. exfalso.
  destruct (klt_total y z) as [Hyz|[->|?]]; [|congruence|congruence].
  rewrite (klt_trans y z x) in Hyx; congruence.
Qed.

Lemma kle_antisym x y : kle x y → kle y x → x = y.
Proof.
  unfold kle. intros. destruct (klt_total x y) as [?|[?|?]]; congruence.
Qed.
End ordered.

Definition set_iter `{Countable K, !Ordered K} (X : gset K) : list K :=
  merge_sort kle (elements X).

Definition key_le `{Ordered K} {V} (p q : K * V) : Prop := kle p.1 q.1.
#[export] Instance key_le_dec `{Ordered K} {V} : RelDecision (key_le (V:=V)).
Proof. intros p q. unfold key_le. apply _. Defined.

Definition map_iter `{Countable K, !Ordered K} {V} (m : gmap K V) : list (K * V) :=
  merge_sort key_le (map_to_list m).

Section iteration.
Context `{Countable K, !Ordered K}.

#[export] Instance key_le_total {V} : Total (key_le (K:=K) (V:=V)).
Proof. intros p q. apply kle_total. Qed.
#[export] Instance key_le_trans {V} : Transitive (key_le (K:=K) (V:=V)).
Proof. intros p q r. apply kle_trans. Qed.

Lemma elem_of_set_iter (X : gset K) x : x ∈ set_iter X ↔ x ∈ X.
Proof. unfold set_iter. by rewrite merge_sort_Permutation, elem_of_elements. Qed.

Lemma NoDup_set_iter (X : gset K) : NoDup (set_iter X).
Proof. unfold set_iter. rewrite merge_sort_Permutation. apply NoDup_elements. Qed.

Lemma list_to_set_set_iter (X : gset K) : list_to_set (set_iter X) = X.
Proof. apply set_eq. intros x. by rewrite elem_of_list_to_set, elem_of_set_iter. Qed.

Lemma elem_of_map_iter {V} (m : gmap K V) k v :
  (k, v) ∈ map_iter m ↔ m !! k = Some v.
Proof. unfold map_iter. by rewrite merge_sort_Permutation, elem_of_map_to_list. Qed.

Lemma NoDup_fst_map_iter {V} (m : gmap K V) : NoDup (map_iter m).*1.
Proof.
  unfold map_iter. rewrite merge_sort_Permutation. apply NoDup_fst_map_to_list.
Qed.

Lemma NoDup_map_iter {V} (m : gmap K V) : NoDup (map_iter m).
Proof. eapply NoDup_fmap_1, NoDup_fst_map_iter. Qed.

(** Iteration is strictly increasing. *)
Lemma map_iter_sorted {V} (m : gmap K V) :
  StronglySorted (λ p q, klt p.1 q.1 = true) (map_iter m).
Proof.
  pose proof (StronglySorted_merge_sort key_le (map_to_list m)) as Hs.
  fold (map_iter m) in Hs. pose proof (NoDup_fst_map_iter m) as Hnd. revert Hs Hnd.
  induction (map_iter m) as [|p l IH]; intros Hs Hnd; [constructor|].
  apply StronglySorted_inv in Hs as [Hs Hp]. rewrite fmap_cons, NoDup_cons in Hnd.
  destruct Hnd as [Hnin Hnd]. constructor; [auto|].
  rewrite Forall_forall in Hp |- *. intros q Hq.
  destruct (klt_total p.1 q.1) as [?|[E|E]]; [done| |].
  - exfalso. apply Hnin. rewrite E. by apply list_elem_of_fmap_2.
  - specialize (Hp q Hq). unfold key_le, kle in Hp. congruence.
Qed.

Lemma map_keys_sorted {V} (m : gmap K V) :
  StronglySorted (λ x y, klt x y = true) (map_iter m).*1.
Proof.
  pose proof (map_iter_sorted m) as Hs. induction Hs as [|a l _ IH Ha]; [constructor|].
  rewrite fmap_cons. constructor; [done|]. by apply Forall_fmap.
Qed.

Lemma elem_of_map_keys {V} (m : gmap K V) k : k ∈ (map_iter m).*1 ↔ is_Some (m !! k).
Proof.
  rewrite list_elem_of_fmap. split.
  - intros ([k' v] & -> & Hin). apply elem_of_map_iter in Hin. by exists v.
  - intros [v Hv]. exists (k, v). split; [done|]. by apply elem_of_map_iter.
Qed.

Lemma set_iter_sorted (X : gset K) : StronglySorted (λ x y, klt x y = true) (set_iter X).
Proof.
  pose proof (StronglySorted_merge_sort kle (elements X)) as Hs. fold (set_iter X) in Hs.
  pose proof (NoDup_set_iter X) as Hnd. revert Hs Hnd.
  induction (set_iter X) as [|x l IH]; intros Hs Hnd; [constructor|].
  apply StronglySorted_inv in Hs as [Hs Hx]. apply NoDup_cons in Hnd as [Hnin Hnd].
  constructor; [auto|]. rewrite Forall_forall in Hx |- *. intros y Hy.
  destruct (klt_total x y) as [?|[->|E]]; [done..|].
  specialize (Hx y Hy). unfold kle in Hx. congruence.
Qed.

Lemma list_to_map_iter {V} (m : gmap K V) : list_to_map (map_iter m) = m.
Proof.
  rewrite <- (list_to_map_to_list m) at 2. apply list_to_map_proper;
    [apply NoDup_fst_map_iter | apply merge_sort_Permutation].
Qed.

Lemma length_map_iter {V} (m : gmap K V) : length (map_iter m) = size m.
Proof. unfold map_iter. rewrite merge_sort_Permutation. apply length_map_to_list. Qed.
End iteration.

#[export] Hint Resolve NoDup_set_iter NoDup_fst_map_iter NoDup_map_iter : mtn.

(** *** The orders of the key types *)

#[export] Program Instance Z_ordered : Ordered Z := {| klt := Z.ltb |}.
Next Obligation. intros x. apply Z.ltb_irrefl. Qed.
Next Obligation. intros x y z. rewrite !Z.ltb_lt. lia. Qed.
Next Obligation. intros x y. rewrite !Z.ltb_lt. lia. Qed.

(** Lexicographic comparison of numeric sequences. *)
Fixpoint zlex (a b : list Z) : bool :=
  match a, b with
  | _, [] => false
  | [], _ :: _ => true
  | x :: a, y :: b => (x <? y) || ((x =? y) && zlex a b)
  end.

Lemma zlex_irrefl a : zlex a a = false.
Proof. induction a as [|x a IH]; [done|]. simpl. rewrite IH. lia. Qed.

Lemma zlex_trans a b c : zlex a b = true → zlex b c = true → zlex a c = true.
Proof.
  revert b c. induction a as [|x a IH]; intros [|y b] [|z c]; simpl; try done.
  intros H1 H2. specialize (IH b c).
  destruct (zlex a b), (zlex b c), (zlex a c); try lia; naive_solver lia.
Qed.

Lemma zlex_total a b : zlex a b = true ∨ a = b ∨ zlex b a = true.
Proof.
  revert b. induction a as [|x a IH]; intros [|y b]; simpl; auto.
  destruct (Z.lt_trichotomy x y) as [?|[->|?]].
  - left. lia.
  - destruct (IH b) as [->|[->| ->]]; [left; lia | auto | right; right; lia].
  - right; right. lia.
Qed.

Lemma zlex_app_r a b : b ≠ [] → zlex a (a ++ b) = true.
Proof.
  intros Hb. induction a as [|x a IH]; simpl; [by destruct b|].
  rewrite IH. lia.
Qed.

Lemma zlex_app_l a b c : zlex (a ++ b) (a ++ c) = zlex b c.
Proof.
  induction a as [|x a IH]; simpl; [done|].
  rewrite IH, Z.ltb_irrefl, Z.eqb_refl. done.
Qed.

(** An order pulled back along an injective map to numeric sequences. *)
Program Definition lex_ordered {A} (rank : A → list Z) (Hinj : Inj (=) (=) rank) :
  Ordered A := {| klt x y := zlex (rank x) (rank y) |}.
Next Obligation. intros A rank ? x. apply zlex_irrefl. Qed.
Next Obligation. intros A rank ? x y z H1 H2. exact (zlex_trans _ _ _ H1 H2). Qed.
Next Obligation.
  intros A rank Hinj x y. destruct (zlex_total (rank x) (rank y)) as [?|[?|?]]; auto.
Qed.

(** [std::pair]'s [operator<]. *)
#[export] Program Instance pair_ordered `{Ordered A, Ordered B} : Ordered (A * B) := {|
  klt p q := klt p.1 q.1 || (negb (klt q.1 p.1) && klt p.2 q.2)
|}.
Next Obligation. intros ???? [a b]. simpl. by rewrite !klt_irrefl. Qed.
Next Obligation.
  intros A HA B HB [a1 b1] [a2 b2] [a3 b3]; simpl; intros H1 H2.
  destruct (klt_total a1 a2) as [L12|[->|G12]].
  - destruct (klt_total a2 a3) as [L23|[->|G23]].
    + by rewrite (klt_trans a1 a2 a3).
    + by rewrite L12.
    + rewrite G23, (klt_asym _ _ G23) in H2. done.
  - rewrite klt_irrefl in H1. simpl in H1.
    destruct (klt a2 a3) eqn:E; [done|]. simpl in *.
    destruct (klt a3 a2); [done|]. simpl in *. by eapply klt_trans.
  - rewrite G12, (klt_asym _ _ G12) in H1. done.
Qed.
Next Obligation.
  intros A HA B HB [a1 b1] [a2 b2]; simpl.
  destruct (klt_total a1 a2) as [L|[->|G]].
  - rewrite L. auto.
  - rewrite klt_irrefl. simpl.
    destruct (klt_total b1 b2) as [->|[->| ->]]; auto.
  - rewrite G. auto.
Qed.

(** [alter] seen from the looked-up index. *)
Lemma lookup_alter_at `{Countable K} {V} (f : V → V) (m : gmap K V) k i :
  alter f k m !! i = (if decide (k = i) then f else id) <$> m !! i.
Proof.
  destruct (decide (k = i)) as [->|Hne].
  - by rewrite lookup_alter_eq.
  - rewrite lookup_alter_ne by done. by destruct (m !! i).
Qed.

Lemma last_replicate_S {A} n (x : A) : last (replicate (S n) x) = Some x.
Proof. by rewrite replicate_S_end, last_snoc. Qed.

(** ** Bytes *)

Lemma byte_val_range c : 0 ≤ byte_val c < 256.
Proof.
  unfold byte_val. pose proof (N_ascii_bounded c). lia.
Qed.

Lemma byte_of_val c : byte_of (byte_val c) = c.
Proof.
  unfold byte_of. rewrite Z.mod_small by apply byte_val_range.
  unfold byte_val. rewrite N2Z.id. apply ascii_N_embedding.
Qed.

Lemma byte_val_of z : byte_val (byte_of z) = z mod 256.
Proof.
  unfold byte_val, byte_of. pose proof (Z.mod_pos_bound z 256 ltac:(lia)).
  rewrite N_ascii_embedding by lia. lia.
Qed.

#[export] Instance byte_val_inj : Inj (=) (=) byte_val.
Proof. intros a b E. by rewrite <- (byte_of_val a), E, byte_of_val. Qed.

(** [std::string]'s [operator<]: lexicographic on unsigned bytes. *)
#[export] Instance bytes_ordered : Ordered bytes := lex_ordered (fmap byte_val) _.

#[export] Hint Resolve byte_val_range : mtn.
#[export] Hint Rewrite byte_of_val byte_val_of : mtn.
