(* ===== verification/Numbers.v ===== *)
(** * Machine integers, decimal numerals and slices of strings

    The fixed-width unsigned types of [numeric_vocab.hh], the decimal numerals
    that [operator<<] writes and hand-written loops such as [read_num] of
    [xdelta.cc] read back, and the byte ranges a position and a length select. *)

From S2P Require Import Prelude.

(** ** Unsigned wrap-around *)

Definition u8 (z : Z) : Z := z mod 2 ^ 8.
Definition u16 (z : Z) : Z := z mod 2 ^ 16.
Definition u32 (z : Z) : Z := z mod 2 ^ 32.
Definition u64 (z : Z) : Z := z mod 2 ^ 64.

Lemma u32_small z : 0 ≤ z < 2 ^ 32 → u32 z = z.
Proof. apply Z.mod_small. Qed.
Lemma u64_small z : 0 ≤ z < 2 ^ 64 → u64 z = z.
Proof. apply Z.mod_small. Qed.
Lemma u32_range z : 0 ≤ u32 z < 2 ^ 32.
Proof. by apply Z.mod_pos_bound. Qed.
Lemma u64_range z : 0 ≤ u64 z < 2 ^ 64.
Proof. by apply Z.mod_pos_bound. Qed.

(** ** Decimal numerals *)

Definition digit_char (d : Z) : ascii := byte_of (48 + d).
Definition is_decimal (c : ascii) : bool := (48 <=? byte_val c) && (byte_val c <=? 57).
Definition digit_val (c : ascii) : Z := byte_val c - 48.

Fixpoint print_digits (fuel : nat) (n : Z) (acc : bytes) : bytes :=
  match fuel with
  | O => acc
  | S fuel =>
      let acc := digit_char (n mod 10) :: acc in
      if n <? 10 then acc else print_digits fuel (n / 10) acc
  end.

(** [ost << n] for an unsigned [n]. *)
Definition print_num (n : Z) : bytes := print_digits (S (Z.to_nat (Z.log2 n))) n [].

(** The value of a numeral appended to a prefix of value [v]. *)
Definition numeral (v : Z) (ds : bytes) : Z := foldl (λ v c, v * 10 + digit_val c) v ds.

Lemma digit_char_val d : 0 ≤ d < 10 → byte_val (digit_char d) = 48 + d.
Proof. intros H. unfold digit_char. rewrite byte_val_of. apply Z.mod_small. lia. Qed.

Lemma digit_char_decimal d : 0 ≤ d < 10 → is_decimal (digit_char d) = true ∧ digit_val (digit_char d) = d.
Proof. intros H. unfold is_decimal, digit_val. rewrite digit_char_val by done. split; lia. Qed.

Lemma print_digits_spec fuel n acc :
  0 ≤ n < 2 ^ Z.of_nat fuel → fuel ≠ 0%nat →
  ∃ c ds, print_digits fuel n acc = (c :: ds) ++ acc ∧ forallb is_decimal (c :: ds) = true ∧
    (∀ v, 0 ≤ v → numeral v (c :: ds) = v * 10 ^ Z.of_nat (length (c :: ds)) + n).
Proof.
  revert n acc. induction fuel as [|fuel IH]; intros n acc Hn Hf; [done|]. cbn [print_digits].
  pose proof (Z.mod_pos_bound n 10 ltac:(lia)) as Hm.
  destruct (digit_char_decimal (n mod 10) Hm) as [Hd Hv].
  destruct (Z.ltb_spec n 10) as [Hlt|Hge].
  - exists (digit_char (n mod 10)), []. split_and!; [done| |].
    + cbn [forallb]. by rewrite Hd.
    + intros v _. unfold numeral. cbn [foldl]. rewrite Hv, Z.mod_small by lia.
      cbn [length]. change (Z.of_nat 1) with 1. lia.
  - assert (0 ≤ n / 10 < 2 ^ Z.of_nat fuel ∧ fuel ≠ 0%nat) as [Hdiv Hf'].
    { rewrite Nat2Z.inj_succ, Z.pow_succ_r in Hn by lia. split.
      - split; [apply Z.div_pos; lia|]. apply Z.div_lt_upper_bound; lia.
      - intros ->. simpl in Hn. lia. }
    destruct (IH (n / 10) (digit_char (n mod 10) :: acc) Hdiv Hf') as (c & ds & -> & Hall & Hnum).
    exists c, (ds ++ [digit_char (n mod 10)]). split_and!.
    + cbn [app]. by rewrite <- app_assoc.
    + change (c :: ds ++ [digit_char (n mod 10)]) with ((c :: ds) ++ [digit_char (n mod 10)]).
      rewrite forallb_app, Hall. cbn [forallb]. by rewrite Hd.
    + intros v Hv0. change (c :: ds ++ [digit_char (n mod 10)]) with ((c :: ds) ++ [digit_char (n mod 10)]).
      unfold numeral in *. rewrite foldl_app, Hnum by done. cbn [foldl]. rewrite Hv, length_app.
      cbn [length]. rewrite Nat2Z.inj_add. change (Z.of_nat 1) with 1. rewrite Z.pow_add_r by lia.
      pose proof (Z.div_mod n 10 ltac:(lia)). lia.
Qed.

Lemma print_num_spec n :
  0 ≤ n → ∃ c ds, print_num n = c :: ds ∧ forallb is_decimal (c :: ds) = true ∧ numeral 0 (c :: ds) = n.
Proof.
  intros Hn. unfold print_num.
  destruct (print_digits_spec (S (Z.to_nat (Z.log2 n))) n []) as (c & ds & -> & Hall & Hnum); [|done|].
  - split; [done|]. rewrite Nat2Z.inj_succ, Z2Nat.id by apply Z.log2_nonneg.
    destruct (decide (n = 0)) as [->|]; [done|]. apply Z.log2_spec. lia.
  - exists c, ds. rewrite app_nil_r. split_and!; [done..|]. by rewrite Hnum.
Qed.

Lemma numeral_mono v ds : 0 ≤ v → forallb is_decimal ds = true → v ≤ numeral v ds.
Proof.
  revert v. induction ds as [|c ds IH]; intros v Hv Hall; [done|]. cbn [forallb] in Hall.
  apply andb_true_iff in Hall as [Hc Hall]. unfold is_decimal in Hc.
  unfold numeral in *. cbn [foldl]. assert (0 ≤ digit_val c) by (unfold digit_val; lia).
  etrans; [|apply IH; [lia|done]]. lia.
Qed.

(** ** Byte ranges *)

Definition len (s : bytes) : Z := Z.of_nat (length s).
Definition slice (s : bytes) (pos n : Z) : bytes := take (Z.to_nat n) (drop (Z.to_nat pos) s).

Lemma len_app s t : len (s ++ t) = len s + len t.
Proof. unfold len. rewrite length_app. lia. Qed.
Lemma len_nonneg s : 0 ≤ len s.
Proof. unfold len. lia. Qed.
Lemma len_nil : len [] = 0.
Proof. done. Qed.
Lemma len_cons c s : len (c :: s) = 1 + len s.
Proof. unfold len. cbn [length]. lia. Qed.
Lemma len_0 s : len s = 0 ↔ s = [].
Proof. unfold len. destruct s; simpl; split; try done; lia. Qed.

Lemma len_slice s pos n : 0 ≤ pos → 0 ≤ n → pos + n ≤ len s → len (slice s pos n) = n.
Proof. unfold len, slice. intros. rewrite length_take, length_drop. lia. Qed.

Lemma slice_full s : slice s 0 (len s) = s.
Proof. unfold slice, len. rewrite Nat2Z.id. simpl. apply take_ge. lia. Qed.
Lemma slice_0 s pos : slice s pos 0 = [].
Proof. unfold slice. apply take_0. Qed.

Lemma slice_split s pos n m :
  0 ≤ pos → 0 ≤ n → 0 ≤ m → slice s pos (n + m) = slice s pos n ++ slice s (pos + n) m.
Proof.
  intros. unfold slice. rewrite !Z2Nat.inj_add by lia.
  by rewrite <- (drop_drop s), take_take_drop.
Qed.

Lemma slice_app_l s t pos n : 0 ≤ pos → 0 ≤ n → pos + n ≤ len s → slice (s ++ t) pos n = slice s pos n.
Proof.
  unfold slice, len. intros. rewrite drop_app_le by lia. apply take_app_le. rewrite length_drop. lia.
Qed.
Lemma slice_app_r s t n : 0 ≤ n → slice (s ++ t) (len s) n = slice t 0 n.
Proof. unfold slice, len. intros. rewrite Nat2Z.id. by rewrite drop_app_length. Qed.
Lemma slice_app_all s t : slice (s ++ t) (len s) (len t) = t.
Proof. rewrite slice_app_r by apply len_nonneg. apply slice_full. Qed.

Lemma lookup_slice s pos n i :
  0 ≤ pos → 0 ≤ i < n → slice s pos n !! Z.to_nat i = s !! Z.to_nat (pos + i).
Proof.
  intros. unfold slice. rewrite lookup_take_lt by lia. rewrite lookup_drop.
  f_equal. lia.
Qed.

Lemma slice_cons s pos n c :
  0 ≤ pos → 0 < n → s !! Z.to_nat pos = Some c → slice s pos n = c :: slice s (pos + 1) (n - 1).
Proof.
  intros Hp Hn Hc. unfold slice. apply drop_S in Hc. rewrite Hc.
  replace (Z.to_nat n) with (S (Z.to_nat (n - 1))) by lia. cbn [take].
  by replace (Z.to_nat (pos + 1)) with (S (Z.to_nat pos)) by lia.
Qed.

Lemma slice_snoc s pos n c :
  0 ≤ pos → 0 < n → s !! Z.to_nat (pos + n - 1) = Some c → slice s pos n = slice s pos (n - 1) ++ [c].
Proof.
  intros Hp Hn Hc. replace n with ((n - 1) + 1) at 1 by lia. rewrite slice_split by lia. f_equal.
  rewrite (slice_cons _ _ _ c); [by rewrite slice_0|lia|lia|].
  by replace (pos + (n - 1)) with (pos + n - 1) by lia.
Qed.
