(* ===== verification/Paths.v ===== *)
(** * Paths inside a workspace ([src/src/paths.cc], [src/src/paths.hh])

    The validity predicates on internal paths, normalisation of external
    ones, taking paths apart and joining them, and the order on [file_path]
    that [std::set<file_path>] and [std::map<file_path, _>] iterate in.
    The POSIX build is modelled (the [_WIN32] branches are not compiled).
    A [path_component] is its byte string; a [file_path] wraps its byte string,
    because its [operator<] is not that of strings.  [utf8_validate] belongs to
    charset.cc and is a parameter of the validating constructors. *)

From S2P Require Import Prelude.

Definition slash : ascii := "/"%char.

Abbreviation path_component := (list ascii) (only parsing).
Record file_path := FilePath { data : bytes }.

#[export] Instance file_path_eq_dec : EqDecision file_path.
Proof. solve_decision. Defined.
#[export] Program Instance file_path_countable : Countable file_path :=
  inj_countable' data FilePath _.
Next Obligation. by intros []. Qed.

(** ** Splitting on [/]: the [find('/', start)] loops of the source *)

Fixpoint split_slash (s : bytes) : list bytes :=
  match s with
  | [] => [[]]
  | c :: s =>
      if decide (c = slash) then [] :: split_slash s
      else match split_slash s with
           | [] => [[c]]
           | w :: ws => (c :: w) :: ws
           end
  end.

(** Components joined with [/], as [roster_t::get_name] and [normalize_path] do. *)
Fixpoint join_slash (l : list bytes) : bytes :=
  match l with
  | [] => []
  | [w] => w
  | w :: l => w ++ slash :: join_slash l
  end.

(** [s.rfind('/')] *)
Fixpoint rfind_slash (s : bytes) : option nat :=
  match s with
  | [] => None
  | c :: s =>
      match rfind_slash s with
      | Some i => Some (S i)
      | None => if decide (c = slash) then Some 0%nat else None
      end
  end.

(** ** Validity of internal paths *)

Definition bad_component (component : bytes) : bool :=
  bool_decide (component = []) || bool_decide (component = lit ".")
  || bool_decide (component = lit "..").

Definition bad_char (c : ascii) : bool :=
  let x := byte_val c in (x <=? 31) || (x =? 92) || (x =? 127).
Definition has_bad_chars (path : bytes) : bool := existsb bad_char path.

Definition bad_component_char (c : ascii) : bool :=
  let x := byte_val c in (x <=? 31) || (x =? 47) || (x =? 92) || (x =? 127).
Definition has_bad_component_chars (pc : bytes) : bool := existsb bad_component_char pc.

Definition is_absolute_here (path : bytes) : bool :=
  match path with [] => false | c :: _ => bool_decide (c = slash) end.

Definition second_is_colon (path : bytes) : bool :=
  match path with _ :: c :: _ => bool_decide (c = ":"%char) | _ => false end.

Definition is_absolute_somewhere (path : bytes) : bool :=
  match path with
  | [] => false
  | c :: _ => bool_decide (c = slash) || bool_decide (c = "\"%char) || second_is_colon path
  end.

Definition fully_normalized_path (path : bytes) : bool :=
  match path with
  | [] => true
  | _ =>
      if second_is_colon path then false
      else if has_bad_chars path then false
      else forallb (λ s, negb (bad_component s)) (split_slash path)
  end.

Definition in_bookkeeping_dir (path : bytes) : bool :=
  match path with
  | c0 :: c1 :: c2 :: c3 :: rest =>
      bool_decide (c0 = "_"%char)
      && (bool_decide (c1 = "M"%char) || bool_decide (c1 = "m"%char))
      && (bool_decide (c2 = "T"%char) || bool_decide (c2 = "t"%char))
      && (bool_decide (c3 = "N"%char) || bool_decide (c3 = "n"%char))
      && match rest with [] => true | c4 :: _ => bool_decide (c4 = slash) end
  | _ => false
  end.

Definition is_valid_internal (path : bytes) : bool :=
  fully_normalized_path path && negb (in_bookkeeping_dir path).

(** ** Normalisation *)

Fixpoint span_elt (s : bytes) : bytes * bytes :=
  match s with
  | [] => ([], [])
  | c :: s' =>
      if decide (c = slash) then ([], s)
      else let '(elt, tail) := span_elt s' in (c :: elt, tail)
  end.

Fixpoint skip_slashes (s : bytes) : bytes :=
  match s with
  | [] => []
  | c :: s' => if decide (c = slash) then skip_slashes s' else s
  end.

Definition normalize_step (stack : list bytes) (elt : bytes) : list bytes :=
  if decide (elt = lit ".") then stack
  else if decide (elt = lit ".." ∧ stack ≠ [] ∧ last stack ≠ Some (lit "..")) then
    take (length stack - 1)%nat stack
  else stack ++ [elt].

(** The [head]/[tail] loop; each round consumes at least one byte. *)
Fixpoint normalize_loop (fuel : nat) (inT : bytes) (stack : list bytes) : list bytes :=
  match fuel, inT with
  | O, _ | _, [] => stack
  | S fuel, _ =>
      let '(elt, tail) := span_elt inT in
      normalize_loop fuel (skip_slashes tail) (normalize_step stack elt)
  end.

(** The leading slashes: exactly two are preserved, three or more are one. *)
Definition normalize_leader (inT : bytes) : bytes * bytes :=
  match inT with
  | c :: inT' =>
      if decide (c = slash) then
        if is_absolute_here inT' then
          let rest := skip_slashes inT' in
          let f := (length inT' - length rest)%nat in
          (if decide (f = 1%nat) then lit "//" else lit "/", rest)
        else (lit "/", inT')
      else ([], inT)
  | [] => ([], [])
  end.

Definition normalize_path (inp : bytes) : bytes :=
  let '(leader, inT) := normalize_leader inp in
  leader ++ join_slash (normalize_loop (length inT) inT []).

(** [normalize_external_path]; [initial_rel_path] is [None] outside a workspace. *)
Definition normalize_external_path (initial_rel_path : option bytes)
    (path : bytes) (to_workspace_root : bool) : result bytes :=
  match initial_rel_path with
  | None => E_ (is_valid_internal path) user ;; Ok path
  | Some rel =>
      E_ (negb (is_absolute_here path)) user ;;
      let base := if to_workspace_root then [] else rel in
      let normalized :=
        if decide (base = []) then normalize_path path
        else normalize_path (base ++ slash :: path) in
      let normalized := if decide (normalized = lit ".") then [] else normalized in
      E_ (fully_normalized_path normalized) user ;;
      Ok normalized
  end.

(** ** Constructors, taking apart and joining *)

Section constructors.
Context (utf8_validate : bytes → bool).

Definition make_path_component (d : bytes) : result path_component :=
  I_ (utf8_validate d && negb (has_bad_component_chars d)
      && negb (bool_decide (d = lit ".")) && negb (bool_decide (d = lit ".."))) ;;
  Ok d.

Definition file_path_internal (path : bytes) : result file_path :=
  I_ (utf8_validate path) ;;
  I_ (is_valid_internal path) ;;
  Ok (FilePath path).

Definition file_path_external (initial_rel_path : option bytes)
    (path : bytes) (to_workspace_root : bool) (made_from : origin_type) :
    result file_path :=
  E_ (utf8_validate path) made_from ;;
  normalized ← normalize_external_path initial_rel_path path to_workspace_root;
  E_ (negb (in_bookkeeping_dir normalized)) user ;;
  I_ (is_valid_internal normalized) ;;
  Ok (FilePath normalized).
End constructors.

Definition fp_empty (p : file_path) : bool := bool_decide (data p = []).

Definition dirname (p : file_path) : file_path :=
  match rfind_slash (data p) with
  | None => FilePath []
  | Some sep => FilePath (take sep (data p))
  end.

Definition dirname_basename (p : file_path) : result (file_path * path_component) :=
  let s := data p in
  match rfind_slash s with
  | None => Ok (FilePath [], s)
  | Some sep =>
      I_ (bool_decide (sep < length s - 1)%nat) ;;
      Ok (FilePath (take sep s), drop (sep + 1) s)
  end.

(** [file_path::operator/(path_component)] and [operator/(file_path)] *)
Definition with_sep (d : bytes) : bytes :=
  if decide (last d = Some slash) then d else d ++ [slash].

Definition path_append (p : file_path) (to_append : path_component) : result file_path :=
  I_ (negb (bool_decide (to_append = []))) ;;
  if fp_empty p then
    I_ (negb (is_absolute_somewhere to_append) && negb (in_bookkeeping_dir to_append)) ;;
    Ok (FilePath to_append)
  else Ok (FilePath (with_sep (data p) ++ to_append)).

Definition path_append_path (p to_append : file_path) : result file_path :=
  I_ (negb (fp_empty to_append)) ;;
  if fp_empty p then Ok to_append
  else Ok (FilePath (with_sep (data p) ++ data to_append)).

(** The [basedir] loop of [is_beneath_of]: every [dirname] is shorter. *)
Fixpoint beneath_loop (fuel : nat) (basedir other : file_path) : bool :=
  match fuel with
  | O => false
  | S fuel =>
      if fp_empty basedir then false
      else if decide (basedir = other) then true
      else beneath_loop fuel (dirname basedir) other
  end.

Definition is_beneath_of (p other : file_path) : bool :=
  if fp_empty other then true
  else beneath_loop (S (length (data p))) (dirname p) other.

Definition depth (p : file_path) : nat :=
  if fp_empty p then 0
  else foldl (λ n c, if decide (c = slash) then S n else n) 1%nat (data p).

(** [file_path::operator<] *)
Fixpoint path_ltb (p q : bytes) : bool :=
  match p, q with
  | [], [] => false
  | [], _ => true
  | _, [] => false
  | a :: p, b :: q =>
      if decide (a = b) then path_ltb p q
      else if decide (a = slash) then true
      else if decide (b = slash) then false
      else byte_val a <? byte_val b
  end.

(** ** Lemmas on splitting and joining *)

Definition no_slash (w : bytes) : Prop := slash ∉ w.

Lemma split_slash_nonnil s : split_slash s ≠ [].
Proof. destruct s as [|c s]; simpl; [done|]. case_decide; [done|]. by destruct (split_slash s). Qed.

Lemma split_slash_app a b :
  split_slash (a ++ slash :: b) = split_slash a ++ split_slash b.
Proof.
  induction a as [|c a IH]; [done|]. simpl. rewrite IH.
  case_decide; [done|]. destruct (split_slash a) eqn:E; [by apply split_slash_nonnil in E|].
  done.
Qed.

Lemma split_slash_single w : no_slash w → split_slash w = [w].
Proof.
  induction w as [|c w IH]; intros Hw; [done|]. simpl.
  apply not_elem_of_cons in Hw as [? Hw].
  rewrite decide_False by done. by rewrite (IH Hw).
Qed.

Lemma split_slash_no_slash s : Forall no_slash (split_slash s).
Proof.
  induction s as [|c s IH]; simpl.
  { constructor; [unfold no_slash; set_solver | constructor]. }
  case_decide; [constructor; [unfold no_slash; set_solver | done]|].
  pose proof (split_slash_nonnil s). destruct (split_slash s) as [|w ws]; [done|].
  apply Forall_cons in IH as [Hw Hws]. constructor; [|done].
  unfold no_slash in *. set_solver.
Qed.

Lemma join_split s : join_slash (split_slash s) = s.
Proof.
  induction s as [|c s IH]; [done|]. simpl.
  pose proof (split_slash_nonnil s). case_decide as Hc.
  - subst. destruct (split_slash s) eqn:E; [done|]. rewrite <- E in *. simpl.
    rewrite E. rewrite <- E. by rewrite IH.
  - destruct (split_slash s) as [|w [|v ws]]; simpl in *; congruence.
Qed.

Lemma split_join l : l ≠ [] → Forall no_slash l → split_slash (join_slash l) = l.
Proof.
  induction l as [|w [|v l] IH]; intros Hne Hl; [done| |].
  - inversion Hl; subst. by apply split_slash_single.
  - inversion Hl; subst. change (join_slash (w :: v :: l)) with (w ++ slash :: join_slash (v :: l)).
    rewrite split_slash_app, split_slash_single by done. simpl. f_equal. by apply IH.
Qed.

Lemma rfind_slash_None s : rfind_slash s = None ↔ no_slash s.
Proof.
  induction s as [|c s IH]; simpl; [unfold no_slash; set_solver|].
  unfold no_slash in *. rewrite not_elem_of_cons.
  destruct (rfind_slash s); [naive_solver|]. case_decide; naive_solver.
Qed.

Lemma rfind_slash_Some s i :
  rfind_slash s = Some i →
  s = take i s ++ slash :: drop (i + 1) s ∧ no_slash (drop (i + 1) s).
Proof.
  revert i. induction s as [|c s IH]; simpl; intros i Hi; [done|].
  destruct (rfind_slash s) as [j|] eqn:E.
  - simplify_eq. simpl. destruct (IH j eq_refl) as [H1 H2]. split; [by f_equal | done].
  - apply rfind_slash_None in E. case_decide; [simplify_eq | done].
    simpl. rewrite drop_0. done.
Qed.

(** ** The order on [file_path] *)

Definition path_rank (c : ascii) : Z := if decide (c = slash) then 0 else 1 + byte_val c.

#[export] Instance path_rank_inj : Inj (=) (=) path_rank.
Proof.
  intros a b. unfold path_rank.
  pose proof (byte_val_range a). pose proof (byte_val_range b).
  repeat case_decide; intros; subst; try lia; try done.
  apply (inj byte_val). lia.
Qed.

Lemma path_ltb_rank p q : path_ltb p q = zlex (path_rank <$> p) (path_rank <$> q).
Proof.
  revert q. induction p as [|a p IH]; intros [|b q]; simpl; try done.
  pose proof (byte_val_range a). pose proof (byte_val_range b).
  destruct (decide (a = b)) as [->|Hab].
  - rewrite IH, Z.ltb_irrefl, Z.eqb_refl. done.
  - assert (path_rank a ≠ path_rank b) as Hr by (intros E; by apply Hab, (inj path_rank)).
    rewrite (proj2 (Z.eqb_neq _ _) Hr), orb_false_r. clear Hr.
    unfold path_rank. repeat case_decide; subst; try done; lia.
Qed.

#[export] Program Instance file_path_ordered : Ordered file_path :=
  {| klt p q := path_ltb (data p) (data q) |}.
Next Obligation. intros x. cbn beta. rewrite path_ltb_rank. apply zlex_irrefl. Qed.
Next Obligation. intros x y z. cbn beta. rewrite !path_ltb_rank. apply zlex_trans. Qed.
Next Obligation.
  intros [x] [y]. simpl. rewrite !path_ltb_rank.
  destruct (zlex_total (path_rank <$> x) (path_rank <$> y)) as [?|[?|?]]; auto.
  right; left. f_equal. by eapply (inj (fmap path_rank)).
Qed.

(** Lexicographic order on lists of components. *)
Fixpoint components_ltb (a b : list bytes) : bool :=
  match a, b with
  | _, [] => false
  | [], _ :: _ => true
  | x :: a, y :: b => klt x y || (bool_decide (x = y) && components_ltb a b)
  end.

Lemma klt_bytes_cons (a b : ascii) (p q : bytes) :
  klt (a :: p) (b :: q) = (byte_val a <? byte_val b) || (bool_decide (a = b) && klt p q).
Proof.
  cbn. destruct (decide (a = b)) as [->|Hab].
  - rewrite Z.eqb_refl, bool_decide_true by done. done.
  - rewrite bool_decide_false by done.
    destruct (Z.eqb_spec (byte_val a) (byte_val b)) as [E|]; [|done].
    by apply (inj byte_val) in E.
Qed.

Lemma path_ltb_components p q :
  path_ltb p q = components_ltb (split_slash p) (split_slash q).
Proof.
  revert q. induction p as [|a p IH]; intros [|b q].
  - done.
  - cbn [split_slash path_ltb]. case_decide; [|by destruct (split_slash q)].
    cbn [components_ltb]. rewrite klt_irrefl, bool_decide_true by done.
    pose proof (split_slash_nonnil q). by destruct (split_slash q).
  - cbn [split_slash path_ltb]. case_decide.
    + cbn [components_ltb]. rewrite klt_irrefl, bool_decide_true by done.
      pose proof (split_slash_nonnil p). by destruct (split_slash p).
    + by destruct (split_slash p).
  - cbn [split_slash path_ltb]. destruct (decide (a = b)) as [->|Hab].
    + rewrite IH. case_decide.
      { cbn [components_ltb]. by rewrite klt_irrefl, bool_decide_true. }
      pose proof (split_slash_nonnil p). pose proof (split_slash_nonnil q).
      destruct (split_slash p) as [|w ws], (split_slash q) as [|v vs]; try done.
      cbn [components_ltb]. rewrite klt_bytes_cons, Z.ltb_irrefl, (bool_decide_true (b = b)) by done.
      cbn [orb andb]. f_equal. f_equal. apply bool_decide_ext. naive_solver.
    + destruct (decide (a = slash)) as [->|Ha].
      { rewrite decide_False by done. by destruct (split_slash q). }
      destruct (decide (b = slash)) as [->|Hb].
      { destruct (split_slash p); cbn; by rewrite bool_decide_false. }
      pose proof (split_slash_nonnil p). pose proof (split_slash_nonnil q).
      destruct (split_slash p) as [|w ws], (split_slash q) as [|v vs]; try done.
      cbn [components_ltb]. rewrite klt_bytes_cons, !bool_decide_false by congruence.
      cbn [andb]. by rewrite !orb_false_r.
Qed.

(** ** Validity, by components *)

Lemma in_bookkeeping_dir_app p q :
  p ≠ [] → last p ≠ Some slash →
  in_bookkeeping_dir (p ++ slash :: q) = in_bookkeeping_dir p.
Proof.
  intros Hne Hl.
  destruct p as [|c0 [|c1 [|c2 [|c3 [|c4 rest]]]]]; try done; simpl in *.
  - destruct q as [|? [|? q]]; try done. by rewrite andb_false_r.
  - destruct q as [|? q]; try done. by rewrite andb_false_r.
  - by rewrite andb_false_r.
Qed.

Lemma second_is_colon_app p q :
  p ≠ [] → second_is_colon (p ++ slash :: q) = second_is_colon p.
Proof. destruct p as [|a [|b p]]; done. Qed.

Lemma has_bad_chars_app p q : has_bad_chars (p ++ q) = has_bad_chars p || has_bad_chars q.
Proof. unfold has_bad_chars. by rewrite existsb_app. Qed.

Lemma bad_component_chars_spec pc :
  has_bad_component_chars pc = false ↔ has_bad_chars pc = false ∧ no_slash pc.
Proof.
  induction pc as [|c pc IH]; simpl; [unfold no_slash; set_solver|].
  rewrite !orb_false_iff, IH. unfold no_slash. rewrite not_elem_of_cons.
  unfold bad_component_char, bad_char.
  assert (byte_val c = 47 ↔ slash = c) as Hs.
  { split; [intros E; apply (inj byte_val); by rewrite E | by intros <-]. }
  rewrite !orb_false_iff, !Z.eqb_neq, !Z.leb_gt. naive_solver.
Qed.

Lemma fully_normalized_spec p :
  p ≠ [] →
  fully_normalized_path p = true ↔
  second_is_colon p = false ∧ has_bad_chars p = false ∧
  Forall (λ s, bad_component s = false) (split_slash p).
Proof.
  intros Hp. unfold fully_normalized_path. destruct p as [|c p]; [done|].
  destruct (second_is_colon (c :: p)); [naive_solver|].
  destruct (has_bad_chars (c :: p)); [naive_solver|].
  rewrite <- Is_true_true, Is_true_true.
  rewrite forallb_forall, Forall_forall.
  split; [intros H; split_and!; try done | intros (_ & _ & H)]; intros w Hw.
  - apply negb_true_iff, H. by apply list_elem_of_In.
  - apply negb_true_iff, H. by apply list_elem_of_In.
Qed.

Lemma valid_last_not_slash p :
  p ≠ [] → fully_normalized_path p = true → last p ≠ Some slash.
Proof.
  intros Hp Hn Hl. apply fully_normalized_spec in Hn as (_ & _ & Hn); [|done].
  apply last_Some in Hl as [p' ->].
  rewrite split_slash_app in Hn. apply Forall_app in Hn as [_ Hn].
  by inversion Hn.
Qed.

Lemma with_sep_valid p :
  p ≠ [] → fully_normalized_path p = true → with_sep p = p ++ [slash].
Proof. intros. unfold with_sep. by rewrite decide_False by (by apply valid_last_not_slash). Qed.

Lemma fully_normalized_app p q :
  p ≠ [] → q ≠ [] →
  fully_normalized_path (p ++ slash :: q) = true ↔
  fully_normalized_path p = true ∧ has_bad_chars q = false ∧
  Forall (λ s, bad_component s = false) (split_slash q).
Proof.
  intros Hp Hq. rewrite !fully_normalized_spec by (destruct p; done).
  rewrite second_is_colon_app, split_slash_app, has_bad_chars_app, Forall_app by done.
  simpl. rewrite orb_false_iff. change (bad_char slash) with false. simpl. tauto.
Qed.

(** A component whose constructor's checks passed. *)
Definition valid_component (pc : path_component) : Prop :=
  pc ≠ [] ∧ has_bad_component_chars pc = false ∧ pc ≠ lit "." ∧ pc ≠ lit "..".

Lemma valid_component_spec pc :
  valid_component pc ↔
  has_bad_chars pc = false ∧ no_slash pc ∧ bad_component pc = false.
Proof.
  unfold valid_component, bad_component. rewrite bad_component_chars_spec.
  rewrite !orb_false_iff, !bool_decide_eq_false. tauto.
Qed.

(** C37: joining a valid path and a component whose constructor's checks passed
    gives a valid path: [file_path::operator/] never leaves the set of valid
    internal paths. *)
Theorem path_append_valid p pc q :
  is_valid_internal (data p) = true → valid_component pc →
  path_append p pc = Ok q → is_valid_internal (data q) = true.
Proof.
  intros Hp Hpc Hq. apply valid_component_spec in Hpc as (Hbad & Hns & Hbc).
  unfold path_append in Hq. inv_ok. case_bool_decide; [done|].
  unfold is_valid_internal in *. apply andb_true_iff in Hp as [Hn Hbk].
  unfold fp_empty in Hq. case_bool_decide as He; inv_ok.
  - match goal with
    | Ha : is_absolute_somewhere pc = false, Hb : in_bookkeeping_dir pc = false |- _ =>
        rename Ha into Habs, Hb into Hpc
    end.
    subst q. simpl. rewrite Hpc, andb_true_r.
    apply fully_normalized_spec; [done|].
    rewrite split_slash_single by done. split_and!; [|done|by repeat constructor].
    destruct pc; [done|]. simpl in Habs. by rewrite !orb_false_iff in Habs; destruct Habs.
  - subst q. simpl. rewrite with_sep_valid, <- app_assoc by done. simpl.
    rewrite in_bookkeeping_dir_app, Hbk, andb_true_r by (by try apply valid_last_not_slash).
    apply fully_normalized_app; [done..|].
    rewrite split_slash_single by done. by repeat constructor.
Qed.

(** Taking a valid non-root path apart always succeeds, the directory part
    is valid again, the base name is a valid component, and joining the two
    gives the path back. *)
Theorem dirname_basename_append p :
  is_valid_internal (data p) = true → data p ≠ [] →
  ∃ d b, dirname_basename p = Ok (d, b) ∧ is_valid_internal (data d) = true ∧
         valid_component b ∧ path_append d b = Ok p ∧ dirname p = d.
Proof.
  destruct p as [s]. simpl. intros Hv Hne.
  apply andb_true_iff in Hv as [Hn Hbk]. apply negb_true_iff in Hbk.
  unfold dirname_basename, dirname; simpl.
  destruct (rfind_slash s) as [i|] eqn:E.
  - destruct (rfind_slash_Some _ _ E) as [Hs Hns].
    set (b := drop (i + 1) s) in *. set (d := take i s) in *.
    assert (d ≠ [] ∧ b ≠ []) as [Hd Hb].
    { rewrite Hs in Hn. apply fully_normalized_spec in Hn as (_ & _ & Hn); [|by destruct d].
      rewrite split_slash_app in Hn. apply Forall_app in Hn as [Hn1 Hn2].
      split; intros ->; [by inversion Hn1 | by inversion Hn2]. }
    rewrite Hs in Hn. apply fully_normalized_app in Hn as (Hnd & Hbc & Hbb); [|done..].
    rewrite split_slash_single in Hbb by done. rewrite Forall_singleton in Hbb.
    assert ((i < length s - 1)%nat) as Hi.
    { assert (length b ≠ 0%nat) by (by destruct b). subst b. rewrite length_drop in *. lia. }
    rewrite bool_decide_true by done. simpl.
    eexists (FilePath d), b. split_and!; [done | | by apply valid_component_spec | | done].
    + simpl. unfold is_valid_internal. rewrite Hnd. simpl. rewrite Hs in Hbk.
      by rewrite in_bookkeeping_dir_app in Hbk by (by try apply valid_last_not_slash); rewrite Hbk.
    + unfold path_append, fp_empty. simpl. rewrite !bool_decide_false by done. simpl.
      rewrite with_sep_valid, <- app_assoc by done. cbn [app]. by rewrite <- Hs.
  - apply rfind_slash_None in E. eexists (FilePath []), s.
    apply fully_normalized_spec in Hn as (Hc & Hbad & Hcs); [|done].
    rewrite split_slash_single in Hcs by done. rewrite Forall_singleton in Hcs.
    split_and!; [done | done | by apply valid_component_spec | | done].
    unfold path_append, fp_empty. rewrite (bool_decide_false (s = [])) by done. simpl.
    rewrite Hbk, andb_true_r.
    assert (is_absolute_somewhere s = false) as ->; [|done].
    destruct s as [|c s]; [done|]. simpl in *. rewrite Hc, orb_false_r.
    unfold no_slash in E. apply not_elem_of_cons in E as [? _].
    rewrite bool_decide_false by done. simpl. apply bool_decide_eq_false. intros ->. done.
Qed.

(** ** Normalisation *)

(** The elements the [head]/[tail] loop extracts, when the text does not start
    with a slash: the non-empty components. *)
Definition elements_of (s : bytes) : list bytes := filter (λ w, w ≠ []) (split_slash s).

Lemma span_elt_spec s elt tail :
  span_elt s = (elt, tail) →
  s = elt ++ tail ∧ no_slash elt ∧ (tail = [] ∨ ∃ t, tail = slash :: t).
Proof.
  revert elt tail. induction s as [|c s IH]; simpl; intros elt tail E.
  - simplify_eq. unfold no_slash. split_and!; auto. set_solver.
  - case_decide; simplify_eq; [unfold no_slash; split_and!; eauto; set_solver|].
    destruct (span_elt s) as [e t] eqn:Es. simplify_eq.
    destruct (IH _ _ eq_refl) as (-> & ? & ?).
    unfold no_slash in *. split_and!; auto. set_solver.
Qed.

Lemma skip_slashes_spec s :
  ∃ n, s = replicate n slash ++ skip_slashes s ∧ is_absolute_here (skip_slashes s) = false.
Proof.
  induction s as [|c s (n & IH & Ha)]; simpl; [by exists 0%nat|].
  case_decide; subst.
  - exists (S n). simpl. split; [by f_equal | done].
  - exists 0%nat. simpl. by rewrite bool_decide_false.
Qed.

Lemma elements_of_slashes n s : elements_of (replicate n slash ++ s) = elements_of s.
Proof. induction n as [|n IH]; [done|]. rewrite <- IH. done. Qed.

Lemma elements_of_app a b :
  elements_of (a ++ slash :: b) = elements_of a ++ elements_of b.
Proof. unfold elements_of. by rewrite split_slash_app, filter_app. Qed.

Lemma normalize_loop_elements fuel s stack :
  (length s ≤ fuel)%nat → is_absolute_here s = false →
  normalize_loop fuel s stack = foldl normalize_step stack (elements_of s).
Proof.
  revert s stack. induction fuel as [|fuel IH]; intros [|c s] stack Hlen Ha;
    try done; [simpl in *; lia|].
  simpl in Ha. apply bool_decide_eq_false in Ha.
  cbn [normalize_loop]. destruct (span_elt (c :: s)) as [elt tail] eqn:E.
  assert (elt ≠ []) as Helt.
  { simpl in E. rewrite decide_False in E by done.
    destruct (span_elt s). by simplify_eq. }
  apply span_elt_spec in E as (Es & Hns & Htail). rewrite Es in Hlen |- *.
  destruct (skip_slashes_spec tail) as (n & Et & Hat).
  pose proof (f_equal length Et) as Hl. rewrite length_app, length_replicate in Hl.
  rewrite length_app in Hlen.
  rewrite IH; [|destruct elt; simpl in *; [done|lia] | done].
  assert (elements_of (elt ++ tail) = elt :: elements_of (skip_slashes tail)) as ->; [|done].
  assert (elements_of elt = [elt]) as Hse.
  { unfold elements_of. by rewrite split_slash_single, filter_cons_True. }
  destruct Htail as [->|[t ->]]; [by rewrite app_nil_r|].
  rewrite elements_of_app, Hse. simpl. f_equal.
  destruct (skip_slashes_spec t) as (m & -> & _). rewrite elements_of_slashes.
  assert (skip_slashes (replicate m slash ++ skip_slashes t) = skip_slashes t) as ->; [|done].
  clear. destruct (skip_slashes_spec t) as (k & Ht & Ha).
  induction m as [|m IHm]; simpl.
  - destruct (skip_slashes t) as [|c t']; [done|]. simpl in *.
    apply bool_decide_eq_false in Ha. by rewrite decide_False.
  - done.
Qed.

(** The stack of [normalize_path]: a run of [..], then proper components. *)
Definition normal_stack (st : list bytes) : Prop :=
  ∃ n L, st = replicate n (lit "..") ++ L ∧
         Forall (λ w, no_slash w ∧ bad_component w = false) L.

Lemma bad_component_false w :
  bad_component w = false ↔ w ≠ [] ∧ w ≠ lit "." ∧ w ≠ lit "..".
Proof.
  unfold bad_component. rewrite !orb_false_iff, !bool_decide_eq_false. tauto.
Qed.

Lemma normalize_step_normal st w :
  normal_stack st → w ≠ [] → no_slash w → normal_stack (normalize_step st w).
Proof.
  intros (n & L & -> & HL) Hw Hns. unfold normalize_step.
  case_decide as H1; [by exists n, L|].
  case_decide as H2.
  - destruct H2 as (-> & Hne & Hlast).
    destruct L as [|w' L'] using rev_ind.
    + rewrite app_nil_r in *. destruct n as [|n]; [done|].
      by rewrite last_replicate_S in Hlast.
    + exists n, L'. apply Forall_app in HL as [HL _]. split; [|done].
      rewrite app_assoc, length_app. simpl.
      by rewrite Nat.add_sub, take_app_length.
  - destruct (decide (w = lit "..")) as [->|Hdd].
    + destruct L as [|w' L' _] using rev_ind.
      * exists (S n), []. split; [|done]. rewrite !app_nil_r. by rewrite <- replicate_S_end.
      * apply Forall_app in HL as [_ HL]. apply Forall_singleton in HL as [_ HL].
        apply bad_component_false in HL as (? & ? & ?).
        exfalso. apply H2. split_and!; [done | by destruct (replicate n (lit "..")), L'|].
        rewrite app_assoc, last_snoc. congruence.
    + exists n, (L ++ [w]). rewrite app_assoc. split; [done|].
      apply Forall_app. split; [done|]. constructor; [|done].
      by rewrite bad_component_false.
Qed.

Lemma elements_of_Forall s : Forall (λ w, w ≠ [] ∧ no_slash w) (elements_of s).
Proof.
  apply Forall_forall. intros w. unfold elements_of. rewrite list_elem_of_filter.
  intros [? Hw]. split; [done|].
  by apply (proj1 (Forall_forall _ _) (split_slash_no_slash s)).
Qed.

Lemma normalize_steps_normal st l :
  normal_stack st → Forall (λ w, w ≠ [] ∧ no_slash w) l →
  normal_stack (foldl normalize_step st l).
Proof.
  intros Hst Hl. revert st Hst. induction Hl as [|w l [? ?] _ IH]; simpl; auto.
  intros. by apply IH, normalize_step_normal.
Qed.

(** Pushing the components of a normal stack rebuilds it. *)
Lemma normalize_steps_id n L :
  Forall (λ w, no_slash w ∧ bad_component w = false) L →
  foldl normalize_step [] (replicate n (lit "..") ++ L) = replicate n (lit "..") ++ L.
Proof.
  intros HL. rewrite foldl_app.
  assert (foldl normalize_step [] (replicate n (lit "..")) = replicate n (lit "..")) as ->.
  { induction n as [|n IH]; [done|]. rewrite replicate_S_end, foldl_app, IH. simpl.
    unfold normalize_step. rewrite decide_False by done. rewrite decide_False; [done|].
    intros (_ & Hne & Hl). destruct n; [done|]. by rewrite last_replicate_S in Hl. }
  generalize (replicate n (lit "..")). induction HL as [|w L [_ Hw] _ IH]; intros st; simpl.
  - by rewrite app_nil_r.
  - apply bad_component_false in Hw as (? & ? & ?).
    unfold normalize_step at 2. rewrite decide_False by done. rewrite decide_False by tauto.
    by rewrite IH, <- app_assoc.
Qed.

Lemma normal_stack_elements n L :
  Forall (λ w, no_slash w ∧ bad_component w = false) L →
  let st := replicate n (lit "..") ++ L in
  elements_of (join_slash st) = st ∧ is_absolute_here (join_slash st) = false ∧
  (st ≠ [] → split_slash (join_slash st) = st).
Proof.
  intros HL st.
  assert (Forall (λ w, no_slash w ∧ w ≠ []) st) as Hst.
  { apply Forall_app. split.
    - apply Forall_replicate. split; [|done]. unfold no_slash, lit. simpl. set_solver.
    - eapply Forall_impl; [exact HL|]. intros w [? Hw].
      apply bad_component_false in Hw. tauto. }
  destruct (decide (st = [])) as [->|Hne]; [done|].
  assert (split_slash (join_slash st) = st) as Hs.
  { apply split_join; [done|]. eapply Forall_impl; [exact Hst|]. naive_solver. }
  split_and!; [| |done].
  - unfold elements_of. rewrite Hs. clear Hs Hne.
    induction Hst as [|w l [_ ?] _ IH]; [done|]. by rewrite filter_cons_True, IH.
  - destruct st as [|w l]; [done|]. apply Forall_cons in Hst as [[Hns Hw] _].
    destruct w as [|c w]; [done|]. apply not_elem_of_cons in Hns as [Hns _].
    by destruct l; simpl; rewrite bool_decide_false by done.
Qed.

Lemma normalize_leader_spec s leader inT :
  normalize_leader s = (leader, inT) →
  is_absolute_here inT = false ∧ (is_absolute_here s = false → leader = []) ∧
  (leader = [] ∨ leader = lit "/" ∨ leader = lit "//").
Proof.
  destruct s as [|c s]; simpl; intros E; [by simplify_eq; auto|].
  case_decide; subst.
  - rewrite bool_decide_true by done.
    destruct (is_absolute_here s) eqn:Ha; simplify_eq; [|by naive_solver].
    destruct (skip_slashes_spec s) as (n & _ & Hs). split; [done|]. case_decide; naive_solver.
  - simplify_eq. simpl. rewrite bool_decide_false by done. auto.
Qed.

Lemma normalize_leader_app leader j :
  leader = lit "/" ∨ leader = lit "//" → is_absolute_here j = false →
  normalize_leader (leader ++ j) = (leader, j).
Proof.
  intros [->| ->] Hj; simpl; [by rewrite Hj|].
  destruct j as [|c j]; [done|]. simpl in *. apply bool_decide_eq_false in Hj.
  destruct (decide (c = slash)); [done|]. simpl.
  rewrite decide_True; [done|]. lia.
Qed.

(** What [normalize_path] computes, on every input. *)
Lemma normalize_path_spec s :
  ∃ leader n L,
    normalize_path s = leader ++ join_slash (replicate n (lit "..") ++ L) ∧
    Forall (λ w, no_slash w ∧ bad_component w = false) L ∧
    (is_absolute_here s = false → leader = []) ∧
    (leader = [] ∨ leader = lit "/" ∨ leader = lit "//").
Proof.
  unfold normalize_path. destruct (normalize_leader s) as [leader inT] eqn:E.
  apply normalize_leader_spec in E as (Ha & Hl & Hl').
  rewrite normalize_loop_elements by done.
  destruct (normalize_steps_normal [] (elements_of inT)) as (n & L & -> & HL).
  { by exists 0%nat, []. } { apply elements_of_Forall. }
  by exists leader, n, L.
Qed.

(** [normalize_path] is idempotent, for relative and absolute paths. *)
Theorem normalize_path_idempotent s :
  normalize_path (normalize_path s) = normalize_path s.
Proof.
  destruct (normalize_path_spec s) as (leader & n & L & -> & HL & _ & Hlead).
  destruct (normal_stack_elements n L HL) as (He & Ha & _).
  unfold normalize_path.
  assert (normalize_leader (leader ++ join_slash (replicate n (lit "..") ++ L)) =
          (leader, join_slash (replicate n (lit "..") ++ L))) as ->.
  { destruct Hlead as [->|Hlead]; [|by apply normalize_leader_app].
    simpl. destruct (join_slash _) as [|c j]; [done|]. simpl in *.
    apply bool_decide_eq_false in Ha. by rewrite decide_False. }
  by rewrite normalize_loop_elements, He, normalize_steps_id.
Qed.

(** Normalising a relative path leaves no empty component, no [.], and [..]
    only as a leading run; so a non-empty result is fully normalized exactly
    when it has no forbidden byte, no drive letter and does not climb out. *)
Theorem normalize_path_relative s :
  is_absolute_here s = false → normalize_path s ≠ [] →
  ∃ n L, split_slash (normalize_path s) = replicate n (lit "..") ++ L ∧
         Forall (λ w, bad_component w = false) L ∧
         (fully_normalized_path (normalize_path s) = true ↔
          second_is_colon (normalize_path s) = false ∧
          has_bad_chars (normalize_path s) = false ∧ n = 0%nat).
Proof.
  intros Hrel Hne.
  destruct (normalize_path_spec s) as (leader & n & L & E & HL & Hlead & _).
  rewrite (Hlead Hrel) in E. clear Hlead.
  rewrite app_nil_l in E. rewrite E in Hne |- *.
  destruct (normal_stack_elements n L HL) as (_ & _ & Hs).
  assert (replicate n (lit "..") ++ L ≠ []) as Hst by (intros H; rewrite H in Hne; done).
  exists n, L. split_and!; [by apply Hs | by eapply Forall_impl; [exact HL|]; naive_solver |].
  rewrite fully_normalized_spec, (Hs Hst), Forall_app by done.
  split; [intros (? & ? & Hn & _) | intros (? & ? & ->)]; split_and!; try done.
  - destruct n; [done|]. by inversion Hn.
  - eapply Forall_impl; [exact HL|]. naive_solver.
Qed.

(** The order of [file_path]s is the component-wise one, and a directory
    precedes everything below it: what the top-down attaches and bottom-up
    detaches of [cset::apply_to] rely on. *)
Theorem path_order_componentwise p q c :
  klt p q = components_ltb (split_slash (data p)) (split_slash (data q)) ∧
  (path_append p c = Ok q → klt p q = true).
Proof.
  split; [apply path_ltb_components|].
  intros Hq. unfold path_append in Hq. inv_ok. case_bool_decide; [done|].
  simpl. rewrite path_ltb_rank.
  destruct (fp_empty p) eqn:Hp; unfold fp_empty in Hp.
  - apply bool_decide_eq_true in Hp. inv_ok. subst q. rewrite Hp. simpl. by destruct c.
  - inv_ok. subst q. simpl. unfold with_sep.
    case_decide; [|rewrite <- app_assoc]; rewrite fmap_app; apply zlex_app_r.
    + by destruct c.
    + done.
Qed.

(** ** The claims at concrete paths *)

Lemma path_append_valid_witness : is_valid_internal (lit "src/lib") = true.
Proof.
  apply (path_append_valid (FilePath (lit "src")) (lit "lib") (FilePath (lit "src/lib"))).
  - reflexivity.
  - repeat split; done.
  - reflexivity.
Defined.

Lemma dirname_basename_append_witness :
  ∃ d b, dirname_basename (FilePath (lit "src/lib/a.c")) = Ok (d, b) ∧
    is_valid_internal (data d) = true ∧ valid_component b ∧
    path_append d b = Ok (FilePath (lit "src/lib/a.c")) ∧
    dirname (FilePath (lit "src/lib/a.c")) = d.
Proof. apply (dirname_basename_append (FilePath (lit "src/lib/a.c"))); [reflexivity|done]. Defined.

Lemma normalize_path_relative_witness :
  normalize_path (lit "a/.././../b//c/") = lit "../b/c" ∧
  ∃ n L, split_slash (normalize_path (lit "a/.././../b//c/")) = replicate n (lit "..") ++ L ∧
         Forall (λ w, bad_component w = false) L ∧
         (fully_normalized_path (normalize_path (lit "a/.././../b//c/")) = true ↔
          second_is_colon (normalize_path (lit "a/.././../b//c/")) = false ∧
          has_bad_chars (normalize_path (lit "a/.././../b//c/")) = false ∧ n = 0%nat).
Proof.
  split; [reflexivity|]. apply (normalize_path_relative (lit "a/.././../b//c/")); [reflexivity|done].
Defined.

Lemma path_order_componentwise_witness :
  path_append (FilePath (lit "src")) (lit "a.c") = Ok (FilePath (lit "src/a.c")) ∧
  klt (FilePath (lit "src")) (FilePath (lit "src/a.c")) = true.
Proof.
  split; [reflexivity|].
  apply (path_order_componentwise (FilePath (lit "src")) (FilePath (lit "src/a.c")) (lit "a.c")). reflexivity.
Defined.
