(* ===== verification/Roster.v ===== *)
(** * Rosters ([src/src/roster.cc], [src/src/roster.hh])

    A roster is a tree of file and directory nodes with attributes.  The code
    reaches nodes through shared pointers; inside one roster every pointer to a
    node is the object stored in [nodes] under the node's id
    ([roster_t::check_sane] asserts [n == get_node(n->self)]), so the model
    writes a pointer as that id and [nodes] is the store the pointers index.
    The copy-on-write versions that let two rosters share node objects are not
    modelled: [unshare] is the identity on the contents of one roster. *)

From S2P Require Import Prelude Paths.

(** ** Data *)

Abbreviation node_id := Z (only parsing).
Abbreviation file_id := (list ascii) (only parsing).
Abbreviation attr_key := (list ascii) (only parsing).
Abbreviation attr_value := (list ascii) (only parsing).

Definition the_null_node : node_id := 0.
Definition null_node (n : node_id) : bool := n =? the_null_node.

(** [node_id] is a [u32]; the top bit marks the temporary ids. *)
Definition first_temp_node : node_id := 2 ^ 31.
Definition temp_node (n : node_id) : bool := negb (Z.land n first_temp_node =? 0).

Inductive node_body :=
  | FileBody (content : file_id)
  | DirBody (children : gmap bytes node_id).

Record node := Node {
  self : node_id;
  parent : node_id;
  name : path_component;
  attrs : gmap bytes (bool * attr_value);
  body : node_body
}.

Record roster := Roster {
  root_dir : option node_id;
  nodes : gmap Z node;
  old_locations : gmap Z (node_id * path_component)
}.

#[export] Instance node_body_eq_dec : EqDecision node_body.
Proof. solve_decision. Defined.
#[export] Instance node_eq_dec : EqDecision node.
Proof. solve_decision. Defined.
#[export] Instance roster_eq_dec : EqDecision roster.
Proof. solve_decision. Defined.

Definition empty_roster : roster := Roster None ∅ ∅.

Definition is_dir_t (n : node) : bool :=
  match body n with DirBody _ => true | FileBody _ => false end.
Definition is_file_t (n : node) : bool :=
  match body n with FileBody _ => true | DirBody _ => false end.

Definition downcast_to_dir_t (n : node) : result (gmap bytes node_id) :=
  match body n with DirBody ch => Ok ch | FileBody _ => Err invariant_failure end.
Definition downcast_to_file_t (n : node) : result file_id :=
  match body n with FileBody f => Ok f | DirBody _ => Err invariant_failure end.

(** Field updates through a pointer. *)
Definition with_loc (p : node_id) (nm : path_component) (n : node) : node :=
  Node (self n) p nm (attrs n) (body n).
Definition with_attrs (a : gmap bytes (bool * attr_value)) (n : node) : node :=
  Node (self n) (parent n) (name n) a (body n).
Definition with_body (b : node_body) (n : node) : node :=
  Node (self n) (parent n) (name n) (attrs n) b.
Definition with_children (f : gmap bytes node_id → gmap bytes node_id) (n : node) : node :=
  match body n with
  | DirBody ch => with_body (DirBody (f ch)) n
  | FileBody _ => n
  end.

Definition set_nodes (r : roster) (m : gmap Z node) : roster :=
  Roster (root_dir r) m (old_locations r).
Definition set_root (r : roster) (o : option node_id) : roster :=
  Roster o (nodes r) (old_locations r).
Definition set_old (r : roster) (ol : gmap Z (node_id * path_component)) : roster :=
  Roster (root_dir r) (nodes r) ol.

(** ** Lookups *)

Definition has_root (r : roster) : bool := bool_decide (is_Some (root_dir r)).
Definition has_node (r : roster) (nid : node_id) : bool := bool_decide (is_Some (nodes r !! nid)).
Definition is_root (r : roster) (nid : node_id) : bool := bool_decide (root_dir r = Some nid).
Definition get_node (r : roster) (nid : node_id) : result node := of_option (nodes r !! nid).

Definition is_attached (r : roster) (nid : node_id) : bool :=
  match root_dir r with
  | None => false
  | Some root =>
      (nid =? root) ||
      match nodes r !! nid with
      | None => false
      | Some n => negb (null_node (parent n))
      end
  end.

(** The component loop of [get_node_internal]: one child lookup per component,
    a downcast to a directory before each further one. *)
Fixpoint walk (r : roster) (nd : node_id) (comps : list bytes) : result node_id :=
  match comps with
  | [] => Ok nd
  | pc :: comps =>
      n ← get_node r nd;
      ch ← downcast_to_dir_t n;
      c ← of_option (ch !! pc);
      walk r c comps
  end.

Definition get_node_internal (r : roster) (p : file_path) : result node_id :=
  root ← of_option (root_dir r);
  if fp_empty p then Ok root else walk r root (split_slash (data p)).

Definition get_node_path (r : roster) (p : file_path) : result node :=
  nid ← get_node_internal r p; get_node r nid.

(** [has_node(file_path)]: the same loop with [false] for every failure. *)
Definition has_node_path (r : roster) (p : file_path) : bool :=
  is_ok (get_node_internal r p).

(** The parent chain of [get_name]; [fuel] bounds its length by the node count.
    A cycle of parents, which no well-formed roster has above an attached node,
    is a failure here and an endless loop in the code. *)
Fixpoint name_chain (fuel : nat) (r : roster) (root nid : node_id) : result (list bytes) :=
  if nid =? root then Ok []
  else match fuel with
       | O => Err invariant_failure
       | S fuel =>
           n ← get_node r nid;
           up ← name_chain fuel r root (parent n);
           Ok (up ++ [name n])
       end.

Definition get_name (r : roster) (nid : node_id) : result file_path :=
  I_ (negb (null_node nid)) ;;
  root ← of_option (root_dir r);
  comps ← name_chain (size (nodes r)) r root nid;
  match comps with
  | [] => Ok (FilePath [])
  | top :: _ =>
      I_ (negb (in_bookkeeping_dir top)) ;;
      Ok (FilePath (join_slash comps))
  end.

(** ** Editing operations *)

(** [dir_node::attach_child] and [dir_node::detach_child] *)
Definition attach_child (r : roster) (dir : node_id) (pc : path_component)
    (child : node_id) : result roster :=
  c ← get_node r child;
  d ← get_node r dir;
  ch ← downcast_to_dir_t d;
  I_ (null_node (parent c)) ;;
  I_ (bool_decide (name c = [])) ;;
  _ ← safe_insert ch pc child;
  let m := alter (with_children (<[pc := child]>)) dir (nodes r) in
  Ok (set_nodes r (alter (with_loc dir pc) child m)).

Definition detach_child (r : roster) (dir : node_id) (pc : path_component) :
    result (roster * node_id) :=
  d ← get_node r dir;
  ch ← downcast_to_dir_t d;
  c ← safe_get ch pc;
  let m := alter (with_loc the_null_node []) c (nodes r) in
  _ ← safe_erase ch pc;
  Ok (set_nodes r (alter (with_children (delete pc)) dir m), c).

(** [roster_t::detach_node(file_path)] *)
Definition detach_node (r : roster) (p : file_path) : result (roster * node_id) :=
  '(dir, base) ← dirname_basename p;
  root ← of_option (root_dir r);
  if decide (base = []) then
    I_ (fp_empty dir) ;;
    n ← get_node r root;
    ol ← safe_insert (old_locations r) root (parent n, name n);
    Ok (set_root (set_old r ol) None, root)
  else
    pp ← get_node_internal r dir;
    '(r', nid) ← detach_child r pp base;
    ol ← safe_insert (old_locations r') nid (pp, base);
    I_ (negb (null_node nid)) ;;
    Ok (set_old r' ol, nid).

(** [roster_t::detach_node(node_id)].  Note that [old_locations] receives
    [n->parent] as it is after [detach_child] has reset it. *)
Definition detach_node_id (r : roster) (nid : node_id) : result roster :=
  n ← get_node r nid;
  if null_node (parent n) then
    I_ (bool_decide (name n = [])) ;;
    ol ← safe_insert (old_locations r) nid (parent n, name n);
    Ok (set_root (set_old r ol) None)
  else
    '(r', c) ← detach_child r (parent n) (name n);
    I_ (c =? nid) ;;
    n' ← get_node r' nid;
    ol ← safe_insert (old_locations r') nid (parent n', name n);
    Ok (set_old r' ol).

Definition drop_detached_node (r : roster) (nid : node_id) : result roster :=
  n ← get_node r nid;
  I_ (null_node (parent n)) ;;
  I_ (bool_decide (name n = [])) ;;
  I_ (match body n with DirBody ch => bool_decide (ch = ∅) | FileBody _ => true end) ;;
  Ok (Roster (root_dir r) (delete nid (nodes r)) (delete nid (old_locations r))).

Definition create_dir_node (r : roster) (nid : node_id) : roster :=
  set_nodes r (<[nid := Node nid the_null_node [] ∅ (DirBody ∅)]> (nodes r)).

Definition create_file_node (r : roster) (content : file_id) (nid : node_id) : roster :=
  set_nodes r (<[nid := Node nid the_null_node [] ∅ (FileBody content)]> (nodes r)).

(** [roster_t::attach_node(node_id, node_id, path_component)] *)
Definition attach_node_at (r : roster) (nid par : node_id) (nm : path_component) :
    result roster :=
  n ← get_node r nid;
  I_ (negb (null_node (self n))) ;;
  I_ (null_node (parent n)) ;;
  I_ (bool_decide (name n = [])) ;;
  let old := old_locations r !! nid in
  r' ←
    (if null_node par || bool_decide (nm = []) then
       I_ (null_node par && bool_decide (nm = [])) ;;
       I_ (negb (has_root r)) ;;
       _ ← downcast_to_dir_t n;
       I_ (bool_decide (old ≠ Some (parent n, name n))) ;;
       Ok (set_root r (Some nid))
     else
       r' ← attach_child r par nm nid;
       n' ← get_node r' nid;
       I_ (bool_decide (old ≠ Some (parent n', name n'))) ;;
       Ok r');
  Ok (set_old r' (delete nid (old_locations r'))).

(** [roster_t::attach_node(node_id, file_path)] *)
Definition attach_node (r : roster) (nid : node_id) (p : file_path) : result roster :=
  if fp_empty p then attach_node_at r nid the_null_node []
  else
    '(dir, base) ← dirname_basename p;
    d ← get_node_path r dir;
    attach_node_at r nid (self d) base.

Definition apply_delta (r : roster) (pth : file_path) (old_id new_id : file_id) :
    result roster :=
  nid ← get_node_internal r pth;
  n ← get_node r nid;
  f ← downcast_to_file_t n;
  I_ (bool_decide (f = old_id)) ;;
  I_ (negb (null_node (self n))) ;;
  I_ (negb (bool_decide (f = new_id))) ;;
  Ok (set_nodes r (alter (with_body (FileBody new_id)) nid (nodes r))).

Definition set_content (r : roster) (nid : node_id) (new_id : file_id) : result roster :=
  n ← get_node r nid;
  f ← downcast_to_file_t n;
  I_ (negb (bool_decide (f = new_id))) ;;
  Ok (set_nodes r (alter (with_body (FileBody new_id)) nid (nodes r))).

Definition erase_attr (r : roster) (nid : node_id) (key : attr_key) : result roster :=
  n ← get_node r nid;
  a ← safe_erase (attrs n) key;
  Ok (set_nodes r (alter (with_attrs a) nid (nodes r))).

(** [set_attr(file_path, attr_key, pair<bool, attr_value>)]: an unknown
    attribute counts as dead, and setting the current value is an error. *)
Definition set_attr_pair (r : roster) (pth : file_path) (key : attr_key)
    (val : bool * attr_value) : result roster :=
  nid ← get_node_internal r pth;
  n ← get_node r nid;
  I_ (val.1 || bool_decide (val.2 = [])) ;;
  I_ (negb (null_node (self n))) ;;
  let cur := default (false, []) (attrs n !! key) in
  I_ (negb (bool_decide (cur = val))) ;;
  Ok (set_nodes r (alter (with_attrs (<[key := val]> (attrs n))) nid (nodes r))).

Definition clear_attr (r : roster) (pth : file_path) (key : attr_key) : result roster :=
  set_attr_pair r pth key (false, []).
Definition set_attr (r : roster) (pth : file_path) (key : attr_key) (val : attr_value) :
    result roster :=
  set_attr_pair r pth key (true, val).

Definition set_attr_unknown_to_dead_ok (r : roster) (nid : node_id) (key : attr_key)
    (val : bool * attr_value) : result roster :=
  n ← get_node r nid;
  I_ (val.1 || bool_decide (val.2 = [])) ;;
  I_ (negb (bool_decide (attrs n !! key = Some val))) ;;
  Ok (set_nodes r (alter (with_attrs (<[key := val]> (attrs n))) nid (nodes r))).

Definition get_attr (r : roster) (pth : file_path) (key : attr_key) :
    result (option attr_value) :=
  I_ (has_node_path r pth) ;;
  n ← get_node_path r pth;
  match attrs n !! key with
  | Some (true, v) => Ok (Some v)
  | _ => Ok None
  end.

(** [replace_node_id]: pointers to the node keep pointing at it, so in the
    model every stored occurrence of its id as a pointer is renamed. *)
Definition rename_ptr (from to : node_id) (i : node_id) : node_id :=
  if decide (i = from) then to else i.

Definition rename_in_node (from to : node_id) (n : node) : node :=
  with_children (fmap (rename_ptr from to)) n.

Definition reparent (from to : node_id) (l : list node_id) (m : gmap Z node) :
    result (gmap Z node) :=
  foldM (λ m c,
    cn ← of_option (m !! c);
    I_ (parent cn =? from) ;;
    Ok (alter (with_loc to (name cn)) c m)) l m.

Definition replace_node_id (r : roster) (from to : node_id) : result roster :=
  I_ (negb (null_node from)) ;;
  I_ (negb (null_node to)) ;;
  n ← get_node r from;
  let m := delete from (nodes r) in
  I_ (bool_decide (m !! to = None)) ;;
  let m := <[to := Node to (parent n) (name n) (attrs n) (body n)]> m in
  let m := rename_in_node from to <$> m in
  m ← match body n with
      | DirBody ch => reparent from to (rename_ptr from to <$> (map_iter ch).*2) m
      | FileBody _ => Ok m
      end;
  Ok (Roster (rename_ptr from to <$> root_dir r) m (old_locations r)).

(** ** Comparing nodes *)

Definition same_type (a b : node) : bool := Bool.eqb (is_file_t a) (is_file_t b).

Fixpoint same_children (a b : list (bytes * Z)) : result bool :=
  match a, b with
  | (k, i) :: a, (k', j) :: b =>
      if decide (k ≠ k') then Ok false
      else if negb (i =? j) then Ok false
      else same_children a b
  | a, b => I_ (bool_decide (a = []) && bool_decide (b = [])) ;; Ok true
  end.

Definition shallow_equal (a b : node) (shallow_compare_dir_children compare_file_contents : bool) :
    result bool :=
  if negb (self a =? self b) then Ok false
  else if negb (parent a =? parent b) then Ok false
  else if decide (name a ≠ name b) then Ok false
  else if decide (attrs a ≠ attrs b) then Ok false
  else if negb (same_type a b) then Ok false
  else if is_file_t a then
    if compare_file_contents then
      fa ← downcast_to_file_t a;
      fb ← downcast_to_file_t b;
      Ok (bool_decide (fa = fb))
    else Ok true
  else
    da ← downcast_to_dir_t a;
    db ← downcast_to_dir_t b;
    if shallow_compare_dir_children then
      if negb (size da =? size db)%nat then Ok false
      else same_children (map_iter da) (map_iter db)
    else Ok true.

(** ** The structural invariant

    It holds of a roster in the middle of an edit too: nodes may be detached
    (no parent and no name), and the root may be missing. *)
Record rwf (r : roster) : Prop := {
  wf_self i n : nodes r !! i = Some n → self n = i ∧ i ≠ the_null_node;
  wf_child i n ch pc c :
    nodes r !! i = Some n → body n = DirBody ch → ch !! pc = Some c →
    pc ≠ [] ∧ ∃ cn, nodes r !! c = Some cn ∧ parent cn = i ∧ name cn = pc;
  wf_parent i n :
    nodes r !! i = Some n → parent n ≠ the_null_node →
    ∃ p ch, nodes r !! parent n = Some p ∧ body p = DirBody ch ∧ ch !! name n = Some i;
  wf_null i n : nodes r !! i = Some n → parent n = the_null_node → name n = [];
  wf_root i :
    root_dir r = Some i →
    ∃ n, nodes r !! i = Some n ∧ is_dir_t n = true ∧ parent n = the_null_node
}.

(** Nothing is detached and no edit is pending: what [check_sane] asks for. *)
Record complete (r : roster) : Prop := {
  complete_wf : rwf r;
  complete_root i n :
    nodes r !! i = Some n → parent n = the_null_node → root_dir r = Some i;
  complete_has_root : is_Some (root_dir r);
  complete_old : old_locations r = ∅
}.

(** A dead attribute has no value. *)
Definition attrs_sane (r : roster) : Prop :=
  ∀ i n a v, nodes r !! i = Some n → attrs n !! a = Some v → v.1 || bool_decide (v.2 = []) = true.

(** A node id never changes between file and directory. *)
Definition same_kinds (r1 r2 : roster) : Prop :=
  ∀ i n n', nodes r1 !! i = Some n → nodes r2 !! i = Some n' → is_file_t n = is_file_t n'.

Lemma wf_parent_name r i n :
  rwf r → nodes r !! i = Some n → parent n ≠ the_null_node → name n ≠ [].
Proof.
  intros Hwf Hi Hp. destruct (wf_parent r Hwf i n Hi Hp) as (p & ch & Hpn & Hb & Hc).
  by destruct (wf_child r Hwf _ _ _ _ _ Hpn Hb Hc).
Qed.

(** In a well-formed roster a node is a child of exactly its parent, under
    exactly its name. *)
Lemma child_unique r i n ch pc c cn :
  rwf r → nodes r !! i = Some n → body n = DirBody ch → ch !! pc = Some c →
  nodes r !! c = Some cn → parent cn = i ∧ name cn = pc.
Proof.
  intros Hwf Hi Hb Hc Hcn.
  destruct (wf_child r Hwf _ _ _ _ _ Hi Hb Hc) as (_ & cn' & ? & ? & ?). by simplify_eq.
Qed.

(** ** Detaching a set of nodes

    [detached X r ol] is [r] with every node of [X] taken out of its
    directory, and [ol] as the record of old locations. *)
Definition keep (X : gset Z) (ch : gmap bytes node_id) : gmap bytes node_id :=
  filter (λ p, p.2 ∉ X) ch.

Definition strip (X : gset Z) (i : node_id) (n : node) : node :=
  let n := with_children (keep X) n in
  if decide (i ∈ X) then with_loc the_null_node [] n else n.

Definition stripped (X : gset Z) (m : gmap Z node) : gmap Z node :=
  map_imap (λ i n, Some (strip X i n)) m.

Definition detached (X : gset Z) (r : roster) (ol : gmap Z (node_id * path_component)) :
    roster :=
  Roster (root_dir r ≫= λ i, if decide (i ∈ X) then None else Some i)
    (stripped X (nodes r)) ol.

Lemma lookup_stripped X m i : stripped X m !! i = strip X i <$> m !! i.
Proof. unfold stripped. rewrite map_lookup_imap. by destruct (m !! i). Qed.

Lemma keep_lookup X ch pc c : keep X ch !! pc = Some c ↔ ch !! pc = Some c ∧ c ∉ X.
Proof. unfold keep. rewrite map_lookup_filter_Some. done. Qed.

Lemma keep_empty ch : keep ∅ ch = ch.
Proof. unfold keep. apply map_filter_id. intros. simpl. set_solver. Qed.

Lemma with_children_id n : with_children (keep ∅) n = n.
Proof.
  unfold with_children, with_body. destruct n as [s p nm a [|ch]]; simpl; [done|].
  by rewrite keep_empty.
Qed.

Lemma detached_empty r : detached ∅ r (old_locations r) = r.
Proof.
  unfold detached. destruct r as [ro m ol]; simpl. f_equal.
  - by destruct ro.
  - apply map_eq. intros i. rewrite lookup_stripped. destruct (m !! i); simpl; [|done].
    unfold strip. by rewrite decide_False, with_children_id by set_solver.
Qed.

Lemma self_strip X i n : self (strip X i n) = self n.
Proof. unfold strip, with_children. destruct n as [????[]]; simpl; by case_decide. Qed.
Lemma attrs_strip X i n : attrs (strip X i n) = attrs n.
Proof. unfold strip, with_children. destruct n as [????[]]; simpl; by case_decide. Qed.
Lemma parent_strip X i n : parent (strip X i n) = if decide (i ∈ X) then the_null_node else parent n.
Proof. unfold strip, with_children. destruct n as [????[]]; simpl; by case_decide. Qed.
Lemma name_strip X i n : name (strip X i n) = if decide (i ∈ X) then [] else name n.
Proof. unfold strip, with_children. destruct n as [????[]]; simpl; by case_decide. Qed.
Lemma body_strip X i n :
  body (strip X i n) =
  match body n with FileBody f => FileBody f | DirBody ch => DirBody (keep X ch) end.
Proof. unfold strip, with_children. destruct n as [????[]]; simpl; by case_decide. Qed.

Lemma node_eq n1 n2 :
  self n1 = self n2 → parent n1 = parent n2 → name n1 = name n2 →
  attrs n1 = attrs n2 → body n1 = body n2 → n1 = n2.
Proof. destruct n1, n2; simpl; congruence. Qed.

(** Taking one more node out of its directory, on the children maps. *)
Lemma keep_union r X x n i p ch :
  rwf r → nodes r !! x = Some n → x ∉ X → nodes r !! i = Some p → body p = DirBody ch →
  keep ({[x]} ∪ X) ch = if decide (i = parent n) then delete (name n) (keep X ch) else keep X ch.
Proof.
  intros Hwf Hx HX Hi Hb. apply map_eq. intros pc. apply option_eq. intros c.
  assert (ch !! pc = Some c → c = x → i = parent n ∧ pc = name n) as Huniq.
  { intros Hc ->. destruct (child_unique _ _ _ _ _ _ _ Hwf Hi Hb Hc Hx). naive_solver. }
  case_decide as Hd; [rewrite lookup_delete_Some|]; rewrite !keep_lookup.
  - split; [|rewrite not_elem_of_union, not_elem_of_singleton; naive_solver].
    rewrite not_elem_of_union, not_elem_of_singleton.
    intros (Hc & Hn & Hn'). split_and!; [|done..].
    intros <-. subst i. destruct (decide (parent n = the_null_node)) as [E|E].
    { destruct (wf_self r Hwf _ _ Hi) as [_ ?]. congruence. }
    destruct (wf_parent r Hwf _ _ Hx E) as (p' & ch' & Hp' & Hb' & Hc').
    congruence.
  - split; [set_solver|]. intros [Hc Hn]. split; [done|].
    rewrite not_elem_of_union, not_elem_of_singleton. naive_solver.
Qed.

Lemma stripped_detach r X x n :
  rwf r → nodes r !! x = Some n → x ∉ X → parent n ≠ the_null_node →
  stripped ({[x]} ∪ X) (nodes r) =
  alter (with_children (delete (name n))) (parent n)
    (alter (with_loc the_null_node []) x (stripped X (nodes r))).
Proof.
  intros Hwf Hx HX Hp. apply map_eq. intros i.
  rewrite !lookup_alter_at, !lookup_stripped.
  destruct (nodes r !! i) as [p|] eqn:Hi; [|done]. simpl. f_equal.
  assert (∀ ch, body p = DirBody ch →
    keep ({[x]} ∪ X) ch = if decide (i = parent n) then delete (name n) (keep X ch) else keep X ch)
    as Hk by (intros; by eapply keep_union).
  unfold strip, with_children, with_loc, with_body.
  destruct p as [s pa nm a [f|ch]]; simpl in *; [|rewrite (Hk _ eq_refl)]; clear Hk.
  all: assert (i ∈ {[x]} ∪ X ↔ x = i ∨ i ∈ X) as Hiff
    by (rewrite elem_of_union, elem_of_singleton; intuition congruence).
  all: rewrite (decide_ext _ _ _ _ Hiff).
  all: destruct (decide (x = i ∨ i ∈ X)) as [Hor|Hor].
  all: destruct (decide (x = i)) as [Hxi|Hxi].
  all: destruct (decide (i ∈ X)) as [HiX|HiX].
  all: try (exfalso; subst; tauto).
  all: destruct (decide (parent n = i)) as [Hpi|Hpi].
  all: try rewrite (decide_True (P := i = parent n)) by congruence.
  all: try rewrite (decide_False (P := i = parent n)) by congruence.
  all: done.
Qed.

Lemma stripped_detach_root r X x n :
  rwf r → nodes r !! x = Some n → x ∉ X → parent n = the_null_node →
  stripped ({[x]} ∪ X) (nodes r) = stripped X (nodes r).
Proof.
  intros Hwf Hx HX Hp. apply map_eq. intros i. rewrite !lookup_stripped.
  destruct (nodes r !! i) as [p|] eqn:Hi; [|done]. simpl. f_equal.
  assert (∀ ch, body p = DirBody ch → keep ({[x]} ∪ X) ch = keep X ch) as Hk.
  { intros ch Hb. rewrite (keep_union r X x n i p ch) by done.
    rewrite decide_False; [done|]. intros ->.
    destruct (wf_self r Hwf _ _ Hi). congruence. }
  apply node_eq; rewrite ?self_strip, ?attrs_strip, ?parent_strip, ?name_strip, ?body_strip; try done.
  - destruct (decide (i ∈ X)), (decide (i ∈ {[x]} ∪ X)); set_solver.
  - destruct (decide (i ∈ X)), (decide (i ∈ {[x]} ∪ X)); [done | set_solver | | done].
    assert (i = x) as -> by set_solver. simplify_eq. symmetry. by eapply wf_null.
  - destruct (body p) eqn:Hb; [done|]. by rewrite Hk.
Qed.

Lemma get_node_detached X r ol x n :
  nodes r !! x = Some n → get_node (detached X r ol) x = Ok (strip X x n).
Proof. intros Hx. unfold get_node. simpl. by rewrite lookup_stripped, Hx. Qed.

Lemma null_node_true i : null_node i = true ↔ i = the_null_node.
Proof. apply Z.eqb_eq. Qed.
Lemma null_node_false i : null_node i = false ↔ i ≠ the_null_node.
Proof. apply Z.eqb_neq. Qed.

(** One [detach_node(node_id)] takes the node out of its directory. *)
Lemma detach_node_id_step r X x n ol :
  rwf r → nodes r !! x = Some n → x ∉ X →
  (parent n = the_null_node → root_dir r = Some x) → ol !! x = None →
  detach_node_id (detached X r ol) x =
  Ok (detached ({[x]} ∪ X) r (<[x := (the_null_node, name n)]> ol)).
Proof.
  intros Hwf Hx HX Hroot Hol. unfold detach_node_id.
  rewrite (get_node_detached _ _ _ _ _ Hx). simpl.
  rewrite parent_strip, name_strip, !(decide_False (P := x ∈ X)) by done.
  destruct (null_node (parent n)) eqn:Hp.
  - apply null_node_true in Hp. rewrite Hp.
    rewrite (wf_null r Hwf _ _ Hx Hp), bool_decide_true by done. simpl.
    rewrite safe_insert_fresh by done. simpl. unfold detached, set_root, set_old. simpl.
    rewrite (stripped_detach_root r X x n), (Hroot Hp) by done. simpl.
    by rewrite decide_True by set_solver.
  - apply null_node_false in Hp.
    destruct (wf_parent r Hwf _ _ Hx Hp) as (p & ch & Hpn & Hb & Hc).
    unfold detach_child. rewrite (get_node_detached _ _ _ _ _ Hpn). simpl.
    unfold downcast_to_dir_t. rewrite body_strip, Hb. simpl.
    assert (keep X ch !! name n = Some x) as Hk by (by apply keep_lookup).
    unfold safe_get, safe_erase. rewrite Hk. simpl. rewrite Z.eqb_refl. simpl.
    rewrite <- (stripped_detach r X x n) by done.
    unfold get_node, set_nodes. simpl. rewrite lookup_stripped, Hx. simpl.
    rewrite parent_strip, decide_True by set_solver.
    rewrite safe_insert_fresh by done. simpl. unfold detached, set_old. simpl. do 2 f_equal.
    destruct (root_dir r) as [i|] eqn:Hr; [|done]. simpl.
    assert (i ≠ x) as Hix.
    { intros ->. destruct (wf_root r Hwf _ Hr) as (n' & ? & _ & ?). by simplify_eq. }
    destruct (decide (i ∈ X)), (decide (i ∈ {[x]} ∪ X)); try done; set_solver.
Qed.

Lemma stripped_attach r X x n :
  rwf r → nodes r !! x = Some n → x ∉ X → parent n ≠ the_null_node →
  stripped X (nodes r) =
  alter (with_loc (parent n) (name n)) x
    (alter (with_children (<[name n := x]>)) (parent n) (stripped ({[x]} ∪ X) (nodes r))).
Proof.
  intros Hwf Hx HX Hp. rewrite (stripped_detach r X x n) by done.
  destruct (wf_parent r Hwf _ _ Hx Hp) as (p & ch & Hpn & Hb & Hc).
  apply map_eq. intros i. rewrite !lookup_alter_at, lookup_stripped.
  destruct (nodes r !! i) as [q|] eqn:Hi; [|done]. simpl. f_equal.
  assert (i = parent n → <[name n := x]> (delete (name n) (keep X ch)) = keep X ch) as Hk.
  { intros _. rewrite insert_delete_eq. apply insert_id. by apply keep_lookup. }
  assert (i = parent n → body q = DirBody ch) as Hq by (intros ->; congruence).
  assert (i = x → q = n) as Hqn by (intros ->; congruence).
  unfold strip, with_children, with_loc, with_body.
  destruct q as [s pa nm a [f|ch']]; simpl in *;
    destruct (decide (x = i)) as [->|Hxi].
  - specialize (Hqn eq_refl). subst n. simpl in *. rewrite (decide_False (P := i ∈ X)) by done.
    case_decide; simpl; done.
  - repeat case_decide; simpl; done.
  - specialize (Hqn eq_refl). subst n. simpl in *. rewrite (decide_False (P := i ∈ X)) by done.
    case_decide as Hd; simpl; [|done]. rewrite <- Hd in *.
    specialize (Hq eq_refl). simplify_eq. by rewrite Hk.
  - destruct (decide (parent n = i)) as [Hd|]; [|by repeat case_decide]. rewrite <- Hd in *.
    specialize (Hq eq_refl). simplify_eq.
    case_decide; simpl; by rewrite Hk.
Qed.

(** One [attach_node] puts a detached node back where [r] has it. *)
Lemma attach_node_at_step r X x n ol :
  complete r → nodes r !! x = Some n → x ∉ X →
  ol !! x ≠ Some (parent n, name n) →
  attach_node_at (detached ({[x]} ∪ X) r ol) x (parent n) (name n) =
  Ok (detached X r (delete x ol)).
Proof.
  intros Hcp Hx HX Hol. destruct Hcp as [Hwf Hroot _ _].
  unfold attach_node_at. rewrite (get_node_detached _ _ _ _ _ Hx). simpl.
  destruct (wf_self r Hwf _ _ Hx) as [Hself Hx0].
  rewrite self_strip, Hself, (proj2 (null_node_false x)) by done. simpl.
  rewrite parent_strip, name_strip, !decide_True by set_solver. simpl.
  destruct (decide (parent n = the_null_node)) as [Hp|Hp].
  - rewrite Hp, (wf_null r Hwf _ _ Hx Hp) in *. simpl.
    pose proof (Hroot _ _ Hx Hp) as Hr.
    unfold has_root. simpl. rewrite Hr. simpl.
    rewrite decide_True, (bool_decide_false (is_Some (@None Z))) by (set_solver || apply is_Some_None). simpl.
    destruct (wf_root r Hwf _ Hr) as (n' & Hn' & Hd & _).
    assert (n' = n) as -> by congruence. clear Hn'.
    unfold downcast_to_dir_t. rewrite body_strip. unfold is_dir_t in Hd.
    destruct (body n) as [|ch]; [done|]. simpl.
    rewrite bool_decide_true by done. simpl.
    unfold detached, set_old, set_root. simpl. rewrite Hr. simpl.
    rewrite (decide_False (P := x ∈ X)) by done.
    by rewrite (stripped_detach_root r X x n).
  - pose proof (wf_parent_name _ _ _ Hwf Hx Hp) as Hnm.
    rewrite (proj2 (null_node_false (parent n))), bool_decide_false by done. simpl.
    destruct (wf_parent r Hwf _ _ Hx Hp) as (p & ch & Hpn & Hb & Hc).
    unfold attach_child. rewrite (get_node_detached _ _ _ _ _ Hx). simpl.
    rewrite (get_node_detached _ _ _ _ _ Hpn). simpl.
    unfold downcast_to_dir_t. rewrite body_strip, Hb. simpl.
    rewrite parent_strip, name_strip, !decide_True by set_solver. simpl.
    rewrite safe_insert_fresh.
    2:{ apply eq_None_not_Some. intros [c Hk]. apply keep_lookup in Hk as [??]. set_solver. }
    simpl. rewrite <- (stripped_attach r X x n) by done.
    unfold get_node, set_nodes. simpl. rewrite lookup_stripped, Hx. simpl.
    rewrite parent_strip, name_strip, !(decide_False (P := x ∈ X)) by done.
    rewrite bool_decide_true by done. simpl. unfold detached, set_old. simpl. do 2 f_equal.
    destruct (root_dir r) as [i|] eqn:Hr; [|done]. simpl.
    assert (i ≠ x) as Hix.
    { intros ->. destruct (wf_root r Hwf _ Hr) as (n' & ? & _ & ?). by simplify_eq. }
    destruct (decide (i ∈ X)), (decide (i ∈ {[x]} ∪ X)); try done; set_solver.
Qed.

(** ** A decision procedure for completeness, for concrete rosters *)

Definition all_pairs {K V} `{Countable K} (f : K → V → bool) (m : gmap K V) : bool :=
  forallb (λ p, f p.1 p.2) (map_to_list m).

Lemma all_pairs_spec {K V} `{Countable K} (f : K → V → bool) (m : gmap K V) k v :
  all_pairs f m = true → m !! k = Some v → f k v = true.
Proof.
  unfold all_pairs. rewrite forallb_forall. intros Hf Hk.
  apply (Hf (k, v)). by apply list_elem_of_In, elem_of_map_to_list.
Qed.

Definition child_ok (r : roster) (i : Z) (pc : bytes) (c : Z) : bool :=
  negb (bool_decide (pc = [])) &&
  match nodes r !! c with
  | Some cn => (parent cn =? i) && bool_decide (name cn = pc)
  | None => false
  end.

Definition node_ok (r : roster) (i : Z) (n : node) : bool :=
  (self n =? i) && negb (i =? the_null_node) &&
  match body n with DirBody ch => all_pairs (child_ok r i) ch | FileBody _ => true end &&
  (if parent n =? the_null_node
   then bool_decide (name n = []) && bool_decide (root_dir r = Some i)
   else match nodes r !! parent n with
        | Some p => match body p with
                    | DirBody ch => bool_decide (ch !! name n = Some i)
                    | FileBody _ => false
                    end
        | None => false
        end).

Definition complete_b (r : roster) : bool :=
  all_pairs (node_ok r) (nodes r) && bool_decide (old_locations r = ∅) &&
  match root_dir r with
  | Some i => match nodes r !! i with
              | Some n => is_dir_t n && (parent n =? the_null_node)
              | None => false
              end
  | None => false
  end.

Lemma complete_b_sound r : complete_b r = true → complete r.
Proof.
  unfold complete_b. rewrite !andb_true_iff. intros [[Hn Ho] Hr].
  assert (∀ i n, nodes r !! i = Some n → node_ok r i n = true) as Hok
    by (intros; by eapply all_pairs_spec).
  clear Hn. assert (∀ i n (P : Prop), nodes r !! i = Some n →
    (node_ok r i n = true → P) → P) as Hok' by auto. clear Hok.
  split; [split| | |by apply bool_decide_eq_true in Ho].
  - intros i n Hi. apply (Hok' i n _ Hi). unfold node_ok. rewrite !andb_true_iff. intros [[[? ?] _] _]. unfold the_null_node in *. lia.
  - intros i n ch pc c Hi Hb Hc. apply (Hok' i n _ Hi). unfold node_ok. rewrite !andb_true_iff. intros [[_ Hd] _]. rewrite Hb in Hd.
    pose proof (all_pairs_spec _ _ _ _ Hd Hc) as Hch. unfold child_ok in Hch.
    apply andb_true_iff in Hch as [?%negb_true_iff%bool_decide_eq_false Hch]. split; [done|].
    destruct (nodes r !! c) as [cn|]; [|done]. exists cn.
    apply andb_true_iff in Hch as [? ?%bool_decide_eq_true]. split_and!; [done|lia|done].
  - intros i n Hi Hp. apply (Hok' i n _ Hi). unfold node_ok. rewrite !andb_true_iff. intros [_ H]. rewrite (proj2 (Z.eqb_neq _ _) Hp) in H.
    destruct (nodes r !! parent n) as [p|] eqn:Ep; [|done].
    destruct (body p) as [|ch] eqn:Eb; [done|]. exists p, ch. by rewrite bool_decide_eq_true in H.
  - intros i n Hi Hp. apply (Hok' i n _ Hi). unfold node_ok. rewrite !andb_true_iff. intros [_ H]. rewrite Hp in H. simpl in H.
    by apply andb_true_iff in H as [?%bool_decide_eq_true _].
  - intros i Hi. rewrite Hi in Hr. destruct (nodes r !! i) as [n|]; [|done]. exists n.
    apply andb_true_iff in Hr as [? ?%Z.eqb_eq]. done.
  - intros i n Hi Hp. apply (Hok' i n _ Hi). unfold node_ok. rewrite !andb_true_iff. intros [_ H]. rewrite Hp in H. simpl in H.
    by apply andb_true_iff in H as [_ ?%bool_decide_eq_true].
  - by destruct (root_dir r).
Qed.

(** ** [shallow_equal] with both flags is equality *)

Lemma same_children_spec a b :
  length a = length b → same_children a b = Ok (bool_decide (a = b)).
Proof.
  revert b. induction a as [|[k i] a IH]; intros [|[k' j] b] Hlen; try done.
  cbn [same_children]. case_decide as Hk.
  { rewrite bool_decide_false; [done|]. congruence. }
  destruct (i =? j) eqn:Hij; simpl negb; cbv iota.
  - rewrite IH by (simpl in Hlen; lia). f_equal. apply bool_decide_ext.
    apply Z.eqb_eq in Hij. subst. split; congruence.
  - rewrite bool_decide_false; [done|]. intros [= _ ? _]. lia.
Qed.

Lemma map_iter_inj {V} (m1 m2 : gmap bytes V) : map_iter m1 = map_iter m2 → m1 = m2.
Proof. intros E. by rewrite <- (list_to_map_iter m1), E, list_to_map_iter. Qed.

Lemma shallow_equal_full a b : shallow_equal a b true true = Ok (bool_decide (a = b)).
Proof.
  unfold shallow_equal.
  destruct (self a =? self b) eqn:E1; simpl negb; cbv iota;
    [apply Z.eqb_eq in E1 | rewrite bool_decide_false; [done|]; intros ->; lia].
  destruct (parent a =? parent b) eqn:E2; simpl negb; cbv iota;
    [apply Z.eqb_eq in E2 | rewrite bool_decide_false; [done|]; intros ->; lia].
  case_decide as E3; [rewrite bool_decide_false; [done|]; congruence|].
  case_decide as E4; [rewrite bool_decide_false; [done|]; congruence|].
  unfold same_type, is_file_t, downcast_to_file_t, downcast_to_dir_t.
  destruct (body a) as [fa|da] eqn:Ba, (body b) as [fb|db] eqn:Bb; simpl;
    [| rewrite bool_decide_false; [done|]; congruence
     | rewrite bool_decide_false; [done|]; congruence |].
  - f_equal. apply bool_decide_ext. split; [|congruence]. intros ->. apply node_eq; congruence.
  - destruct (size da =? size db)%nat eqn:Es; simpl.
    + apply Nat.eqb_eq in Es. rewrite same_children_spec by (by rewrite !length_map_iter).
      f_equal. apply bool_decide_ext. split; [|congruence].
      intros E%map_iter_inj. apply node_eq; congruence.
    + apply Nat.eqb_neq in Es. rewrite bool_decide_false; [done|]. congruence.
Qed.
