(* ===== verification/RosterInvariant.v ===== *)
(** * Rosters: the invariant, old locations, paths and node ids

    Theorems on the operations of [Roster.v]: every editing operation keeps the
    roster structurally well formed, the record of old locations does (and for
    [detach_node(node_id)] does not) what it is for, and looking a node up by
    path is the inverse of computing its path. *)

From S2P Require Import Prelude Paths Roster.

(** ** Preservation of [rwf] *)

Lemma rwf_set_old r ol : rwf r → rwf (set_old r ol).
Proof. intros [H1 H2 H3 H4 H5]. by split. Qed.

Lemma rwf_no_root r : rwf r → rwf (set_root r None).
Proof. intros [H1 H2 H3 H4 H5]. by split. Qed.

Lemma rwf_detached X r ol : rwf r → rwf (detached X r ol).
Proof.
  intros Hwf. split; simpl; setoid_rewrite lookup_stripped.
  - intros i n (m & Hm & ->)%fmap_Some. rewrite self_strip. by apply (wf_self r).
  - intros i n ch pc c (m & Hm & ->)%fmap_Some. rewrite body_strip.
    destruct (body m) as [|ch0] eqn:Hb; intros [= <-] Hc. apply keep_lookup in Hc as [Hc HX].
    destruct (wf_child r Hwf _ _ _ _ _ Hm Hb Hc) as (? & cn & Hcn & ? & ?). split; [done|].
    exists (strip X c cn). rewrite Hcn, parent_strip, name_strip, !decide_False by done. done.
  - intros i n (m & Hm & ->)%fmap_Some. rewrite parent_strip, name_strip.
    case_decide as Hi; intros Hp; [done|].
    destruct (wf_parent r Hwf _ _ Hm Hp) as (p & ch & Hpn & Hb & Hc).
    exists (strip X (parent m) p), (keep X ch). rewrite Hpn, body_strip, Hb, keep_lookup. done.
  - intros i n (m & Hm & ->)%fmap_Some. rewrite parent_strip, name_strip.
    case_decide; [done|]. by apply (wf_null r Hwf i).
  - intros i Hi. destruct (root_dir r) as [j|] eqn:Hr; simpl in Hi; [|done].
    case_decide as HX; [done|]. injection Hi as ->.
    destruct (wf_root r Hwf _ Hr) as (n & Hn & Hd & Hp). exists (strip X i n).
    rewrite Hn, parent_strip, decide_False by done. split_and!; [done| |done].
    unfold is_dir_t in *. rewrite body_strip. by destruct (body n).
Qed.

Lemma rwf_detach_id r x r' : rwf r → detach_node_id r x = Ok r' → rwf r'.
Proof.
  intros Hwf H. destruct (nodes r !! x) as [n|] eqn:Hx.
  2:{ unfold detach_node_id, get_node in H. by rewrite Hx in H. }
  destruct (decide (parent n = the_null_node)) as [Hp|Hp].
  - unfold detach_node_id, get_node in H. rewrite Hx in H. simpl in H.
    rewrite (proj2 (null_node_true _) Hp) in H. inv_ok. subst.
    by apply rwf_no_root, rwf_set_old.
  - destruct (old_locations r !! x) as [l|] eqn:Hol.
    + unfold detach_node_id in H. exfalso. inv_ok. unfold get_node in E. rewrite Hx in E.
      injection E as <-. rewrite (proj2 (null_node_false _) Hp) in H.
      destruct (detach_child r (parent n) (name n)) as [[r1 c]|] eqn:Hdc; [|done]. cbn in H.
      inv_ok. apply safe_insert_Ok_inv in E1 as [E1 _].
      unfold detach_child in Hdc. inv_ok. simplify_eq. simpl in *. congruence.
    + rewrite <- (detached_empty r) in H.
      rewrite (detach_node_id_step r ∅ x n) in H; [|done|done|set_solver|done|done].
      injection H as <-. by apply rwf_detached.
Qed.

(** [detach_child] of a well-formed roster takes out the child it names. *)
Lemma detach_child_spec r dir pc r' c :
  rwf r → detach_child r dir pc = Ok (r', c) →
  ∃ n, nodes r !! c = Some n ∧ parent n = dir ∧ name n = pc ∧ dir ≠ the_null_node ∧
    r' = set_nodes r (stripped {[c]} (nodes r)).
Proof.
  intros Hwf H. unfold detach_child in H. inv_ok. simplify_eq.
  unfold get_node in E. inv_ok. unfold downcast_to_dir_t in E0.
  destruct (body v) as [|ch] eqn:Hb; inv_ok; simplify_eq.
  apply safe_get_Ok_inv in E1.
  destruct (wf_child r Hwf _ _ _ _ _ E Hb E1) as (_ & n & Hn & <- & <-).
  assert (parent n ≠ the_null_node) as Hp by (by destruct (wf_self r Hwf _ _ E)).
  exists n. split_and!; [done..|].
  replace ({[c]} : gset Z) with ({[c]} ∪ ∅ : gset Z) by set_solver.
  rewrite (stripped_detach r ∅ c n) by (done || set_solver).
  replace (stripped ∅ (nodes r)) with (nodes (detached ∅ r (old_locations r))) by done.
  by rewrite detached_empty.
Qed.

Lemma rwf_detach r p r' nid : rwf r → detach_node r p = Ok (r', nid) → rwf r'.
Proof.
  intros Hwf H. unfold detach_node in H. inv_ok. destruct v as [dir base]. inv_ok.
  case_decide.
  - inv_ok. simplify_eq. by apply rwf_no_root, rwf_set_old.
  - inv_ok. destruct v1 as [r1 c]. inv_ok. simplify_eq. apply rwf_set_old.
    destruct (detach_child_spec _ _ _ _ _ Hwf E2) as (n & Hn & Hp & _ & Hp0 & ->).
    pose proof (rwf_detached {[nid]} r (old_locations r) Hwf) as Hd.
    destruct Hd as [D1 D2 D3 D4 _]. split; [done..|]. simpl. intros i Hi.
    destruct (wf_root r Hwf i Hi) as (m & Hm & Hdir & Hpm). exists (strip {[nid]} i m).
    assert (i ≠ nid) by (intros ->; congruence).
    rewrite lookup_stripped, Hm, parent_strip, decide_False by set_solver.
    split_and!; [done| |done]. unfold is_dir_t in *. rewrite body_strip. by destruct (body m).
Qed.

(** Edits that leave the shape of a node alone. *)
Lemma rwf_alter r x f :
  rwf r →
  (∀ n, nodes r !! x = Some n → self (f n) = self n ∧ parent (f n) = parent n ∧ name (f n) = name n ∧
    ∀ ch, body (f n) = DirBody ch ↔ body n = DirBody ch) →
  rwf (set_nodes r (alter f x (nodes r))).
Proof.
  intros Hwf Hf.
  set (g i := if decide (x = i) then f else id).
  assert (∀ i n, nodes r !! i = Some n → self (g i n) = self n ∧ parent (g i n) = parent n ∧
    name (g i n) = name n ∧ ∀ ch, body (g i n) = DirBody ch ↔ body n = DirBody ch) as Hg.
  { intros i n Hn. unfold g. case_decide as Hi; [subst; auto|done]. }
  assert (∀ i, nodes (set_nodes r (alter f x (nodes r))) !! i = g i <$> nodes r !! i) as Hl
    by (intros; apply lookup_alter_at).
  clearbody g. clear Hf.
  split; simpl in *; setoid_rewrite Hl.
  - intros i n (m & Hm & ->)%fmap_Some. destruct (Hg i m Hm) as (-> & _). by apply (wf_self r).
  - intros i n ch pc c (m & Hm & ->)%fmap_Some Hb Hc. apply (Hg i m Hm) in Hb.
    destruct (wf_child r Hwf _ _ _ _ _ Hm Hb Hc) as (? & cn & Hcn & ? & ?). split; [done|].
    exists (g c cn). destruct (Hg c cn Hcn) as (_ & -> & -> & _). by rewrite Hcn.
  - intros i n (m & Hm & ->)%fmap_Some. destruct (Hg i m Hm) as (_ & -> & -> & _). intros Hp.
    destruct (wf_parent r Hwf _ _ Hm Hp) as (p & ch & Hpn & Hb & Hc).
    exists (g (parent m) p), ch. rewrite Hpn. split_and!; [done| |done].
    by apply (Hg (parent m) p Hpn).
  - intros i n (m & Hm & ->)%fmap_Some. destruct (Hg i m Hm) as (_ & -> & -> & _).
    by apply (wf_null r Hwf i).
  - intros i Hi. destruct (wf_root r Hwf i Hi) as (n & Hn & Hd & Hp). exists (g i n).
    destruct (Hg i n Hn) as (_ & -> & _ & Hb). rewrite Hn. split_and!; [done| |done].
    unfold is_dir_t in *. destruct (body n) as [|ch]; [done|]. by rewrite (proj2 (Hb ch) eq_refl).
Qed.

Lemma rwf_drop r x r' :
  rwf r → root_dir r ≠ Some x → drop_detached_node r x = Ok r' → rwf r'.
Proof.
  intros Hwf Hr H. unfold drop_detached_node, get_node in H. inv_ok. subst r'.
  apply null_node_true in E0.
  assert (∀ c cn, nodes r !! c = Some cn → parent cn ≠ x) as Hpar.
  { intros c cn Hc Hp. destruct (wf_self r Hwf _ _ E) as [_ Hx].
    destruct (wf_parent r Hwf _ _ Hc) as (p & ch & Hpn & Hb & Hcc); [congruence|].
    rewrite Hp, E in Hpn. injection Hpn as <-. rewrite Hb in E2.
    apply bool_decide_eq_true in E2. by subst ch. }
  split; simpl.
  - intros i n [_ Hn]%lookup_delete_Some. by apply (wf_self r).
  - intros i n ch pc c [_ Hn]%lookup_delete_Some Hb Hc.
    destruct (wf_child r Hwf _ _ _ _ _ Hn Hb Hc) as (? & cn & Hcn & Hp & ?). split; [done|].
    exists cn. rewrite lookup_delete_ne; [done|]. intros <-.
    destruct (wf_self r Hwf _ _ Hn). congruence.
  - intros i n [_ Hn]%lookup_delete_Some Hp.
    destruct (wf_parent r Hwf _ _ Hn Hp) as (p & ch & Hpn & Hb & Hc). exists p, ch.
    rewrite lookup_delete_ne; [done|]. intros E'. by apply (Hpar i n Hn).
  - intros i n [_ Hn]%lookup_delete_Some. by apply (wf_null r Hwf i).
  - intros i Hi. destruct (wf_root r Hwf i Hi) as (n & Hn & ?). exists n.
    rewrite lookup_delete_ne by congruence. done.
Qed.

Lemma rwf_create r x b :
  rwf r → nodes r !! x = None → x ≠ the_null_node → b = DirBody ∅ ∨ (∃ c, b = FileBody c) →
  rwf (set_nodes r (<[x := Node x the_null_node [] ∅ b]> (nodes r))).
Proof.
  intros Hwf Hx Hx0 Hb0. split; simpl.
  - intros i n [[-> <-]|[_ Hn]]%lookup_insert_Some; [done|]. by apply (wf_self r).
  - intros i n ch pc c [[-> <-]|[_ Hn]]%lookup_insert_Some Hb Hc.
    { simpl in Hb. destruct Hb0 as [-> |[? ->]]; [|done]. injection Hb as <-.
      by rewrite lookup_empty in Hc. }
    destruct (wf_child r Hwf _ _ _ _ _ Hn Hb Hc) as (? & cn & Hcn & ?). split; [done|].
    exists cn. by rewrite lookup_insert_ne by congruence.
  - intros i n [[-> <-]|[_ Hn]]%lookup_insert_Some Hp; [done|].
    destruct (wf_parent r Hwf _ _ Hn Hp) as (p & ch & Hpn & ?). exists p, ch.
    by rewrite lookup_insert_ne by congruence.
  - intros i n [[-> <-]|[_ Hn]]%lookup_insert_Some; [done|]. by apply (wf_null r Hwf i).
  - intros i Hi. destruct (wf_root r Hwf i Hi) as (n & Hn & ?). exists n.
    by rewrite lookup_insert_ne by congruence.
Qed.

Lemma rwf_attach_child r dir pc x r' :
  rwf r → root_dir r ≠ Some x → pc ≠ [] → dir ≠ the_null_node →
  attach_child r dir pc x = Ok r' → rwf r'.
Proof.
  intros Hwf Hroot Hpc Hdir H. unfold attach_child, get_node, downcast_to_dir_t in H. inv_ok.
  destruct (body v0) as [|?] eqn:Hb; inv_ok. subst.
  apply null_node_true in E2. apply safe_insert_Ok_inv in E4 as [Hfresh _].
  rename v into cn, v0 into d, E into Hcn, E0 into Hd. rename v1 into ch.
  set (g i := λ n, (if decide (x = i) then with_loc dir pc else id)
                ((if decide (dir = i) then with_children (<[pc := x]>) else id) n)).
  assert (∀ i, alter (with_loc dir pc) x (alter (with_children (<[pc:=x]>)) dir (nodes r)) !! i =
    g i <$> nodes r !! i) as Hl.
  { intros i. rewrite !lookup_alter_at. by destruct (nodes r !! i). }
  assert (∀ i n, parent (g i n) = if decide (x = i) then dir else parent n) as Gp.
  { intros i [???? []]; unfold g; repeat case_decide; done. }
  assert (∀ i n, name (g i n) = if decide (x = i) then pc else name n) as Gn.
  { intros i [???? []]; unfold g; repeat case_decide; done. }
  assert (∀ i n, self (g i n) = self n) as Gs.
  { intros i [???? []]; unfold g; repeat case_decide; done. }
  assert (∀ i n, body (g i n) = match body n with
    | DirBody ch => DirBody (if decide (dir = i) then <[pc := x]> ch else ch) | b => b end) as Gb.
  { intros i [???? []]; unfold g; repeat case_decide; done. }
  clearbody g.
  assert (∀ i n ch pc', nodes r !! i = Some n → body n = DirBody ch → ch !! pc' ≠ Some x) as Hnotin.
  { intros i n ch0 pc' Hi Hb0 Hc.
    destruct (wf_child r Hwf _ _ _ _ _ Hi Hb0 Hc) as (_ & cn' & Hcn' & Hp' & _).
    destruct (wf_self r Hwf _ _ Hi). congruence. }
  split; simpl; setoid_rewrite Hl.
  - intros i n (m & Hm & ->)%fmap_Some. rewrite Gs. by apply (wf_self r).
  - intros i n ch0 pc' c (m & Hm & ->)%fmap_Some. rewrite Gb.
    destruct (body m) as [|ch1] eqn:Hbm; [done|]. intros [= <-] Hc.
    assert (pc' = pc ∧ c = x ∧ dir = i ∨ ch1 !! pc' = Some c) as [(-> & -> & ->)|Hc'].
    { case_decide; [|auto]. apply lookup_insert_Some in Hc as [[<- <-]|[_ ?]]; auto. }
    + split; [done|]. exists (g x cn). by rewrite Hcn, Gp, Gn, !decide_True.
    + destruct (wf_child r Hwf _ _ _ _ _ Hm Hbm Hc') as (? & cn' & Hcn' & ? & ?). split; [done|].
      exists (g c cn'). assert (x ≠ c) by (intros <-; by apply (Hnotin i m ch1 pc')).
      by rewrite Hcn', Gp, Gn, !decide_False.
  - intros i n (m & Hm & ->)%fmap_Some. rewrite Gp, Gn. case_decide as Hi; intros Hp.
    + exists (g dir d). eexists. rewrite Hd, Gb, Hb, decide_True by done.
      split_and!; [done..|]. subst i. apply lookup_insert_eq.
    + destruct (wf_parent r Hwf _ _ Hm Hp) as (p & ch0 & Hpn & Hb0 & Hc).
      exists (g (parent m) p). eexists. rewrite Hpn, Gb, Hb0. split_and!; [done..|].
      case_decide as Hdp; [|done]. rewrite lookup_insert_ne; [done|]. intros E.
      rewrite <- Hdp, Hd in Hpn. injection Hpn as <-. rewrite Hb in Hb0. injection Hb0 as <-.
      rewrite E in Hfresh. congruence.
  - intros i n (m & Hm & ->)%fmap_Some. rewrite Gp, Gn. case_decide; [done|].
    by apply (wf_null r Hwf i).
  - intros i Hi. destruct (wf_root r Hwf i Hi) as (n & Hn & Hdn & Hp). exists (g i n).
    rewrite Hn, Gp, decide_False by congruence. split_and!; [done| |done].
    unfold is_dir_t in *. rewrite Gb. by destruct (body n).
Qed.

Lemma rwf_attach r x par nm r' :
  rwf r → root_dir r ≠ Some x → attach_node_at r x par nm = Ok r' → rwf r'.
Proof.
  intros Hwf Hroot H. unfold attach_node_at in H. inv_ok. subst r'.
  apply rwf_set_old. unfold get_node in E. inv_ok.
  destruct (null_node par || bool_decide (nm = [])) eqn:Hn.
  - inv_ok. subst. destruct Hwf as [H1 H2 H3 H4 H5]. split; [done..|]. simpl. intros i [= <-].
    exists v. split_and!; [done| |by apply null_node_true].
    unfold downcast_to_dir_t in *. unfold is_dir_t. by destruct (body v).
  - apply orb_false_iff in Hn as [Hn1%null_node_false Hn2%bool_decide_eq_false].
    inv_ok. subst. by eapply rwf_attach_child.
Qed.

(** What a successful [attach_node] did. *)
Lemma attach_node_at_inv r x par nm r' :
  attach_node_at r x par nm = Ok r' →
  (root_dir r = None ∧ r' = Roster (Some x) (nodes r) (delete x (old_locations r))) ∨
  (par ≠ the_null_node ∧
   r' = Roster (root_dir r)
     (alter (with_loc par nm) x (alter (with_children (<[nm := x]>)) par (nodes r)))
     (delete x (old_locations r))).
Proof.
  unfold attach_node_at. intros H. inv_ok. subst.
  destruct (null_node par || bool_decide (nm = [])) eqn:Hn.
  - inv_ok. subst. left. split; [|done]. unfold has_root in *.
    destruct (root_dir r); [|done]. by rewrite bool_decide_true in *.
  - apply orb_false_iff in Hn as [Hn%null_node_false _]. unfold attach_child in *.
    inv_ok. subst. by right.
Qed.

Lemma parent_with_children f n : parent (with_children f n) = parent n.
Proof. by destruct n as [????[]]. Qed.

(** ** Renaming a node *)

(** What [replace_node_id] makes of a node. *)
Definition renamed (from to : Z) (n : node) : node :=
  rename_in_node from to (Node (rename_ptr from to (self n)) (rename_ptr from to (parent n)) (name n) (attrs n) (body n)).

Lemma rename_ptr_ne from to i : i ≠ from → rename_ptr from to i = i.
Proof. intros Hi. unfold rename_ptr. by rewrite decide_False. Qed.

Lemma rename_ptr_eq from to : rename_ptr from to from = to.
Proof. unfold rename_ptr. by rewrite decide_True. Qed.

Lemma renamed_fields from to n :
  self (renamed from to n) = rename_ptr from to (self n) ∧ parent (renamed from to n) = rename_ptr from to (parent n) ∧
  name (renamed from to n) = name n ∧ attrs (renamed from to n) = attrs n ∧
  body (renamed from to n) = match body n with DirBody ch => DirBody (rename_ptr from to <$> ch) | FileBody f => FileBody f end.
Proof. unfold renamed, rename_in_node, with_children. destruct n as [? ? ? ? []]; done. Qed.

Lemma reparent_lookup from to l m m' j :
  reparent from to l m = Ok m' → m' !! j = if decide (j ∈ l) then (λ n, with_loc to (name n) n) <$> m !! j else m !! j.
Proof.
  unfold reparent. revert m. induction l as [|c l IH]; intros m Hr; cbn [foldM] in Hr; [by injection Hr as <-|].
  inv_ok. subst. rewrite (IH _ Hr). destruct (decide (j = c)) as [->|Hne].
  - rewrite (decide_True (P := c ∈ c :: l)) by (by left). rewrite lookup_alter_eq.
    match goal with E : m !! c = Some _ |- _ => rewrite E end. cbn. by destruct (decide (c ∈ l)).
  - rewrite lookup_alter_ne by done. destruct (decide (j ∈ l)) as [Hl|Hl].
    + by rewrite decide_True by (by right).
    + rewrite decide_False; [done|]. by intros [|]%elem_of_cons.
Qed.

(** The renaming does to the nodes what it should, pointers included. *)
Lemma replace_node_id_nodes r from to r' :
  rwf r → replace_node_id r from to = Ok r' →
  from ≠ the_null_node ∧ to ≠ the_null_node ∧ (∀ i n, nodes r !! i = Some n → i ≠ from → i ≠ to) ∧
  root_dir r' = rename_ptr from to <$> root_dir r ∧
  (∀ i n, nodes r !! i = Some n → nodes r' !! rename_ptr from to i = Some (renamed from to n)) ∧
  (∀ j n', nodes r' !! j = Some n' → ∃ i n, j = rename_ptr from to i ∧ nodes r !! i = Some n ∧ n' = renamed from to n).
Proof.
  intros Hwf Hr. unfold replace_node_id, get_node in Hr. inv_ok. subst. cbn [root_dir nodes].
  match goal with E : nodes r !! from = Some ?x |- _ => rename x into n0; rename E into Hn0 end.
  match goal with E : delete from (nodes r) !! to = None |- _ => rename E into Hto end.
  match goal with E : _ = Ok ?x |- context [Roster _ ?x _] => rename x into m'; rename E into Hm | E : _ = Ok ?x |- _ => rename x into m'; rename E into Hm end.
  repeat match goal with E : null_node _ = false |- _ => apply null_node_false in E end.
  set (ρ := rename_ptr from to) in *.
  assert (∀ i n, nodes r !! i = Some n → i ≠ from → i ≠ to) as Hfresh.
  { intros i n Hi Hne ->. by rewrite lookup_delete_ne, Hi in Hto. }
  set (m0 := rename_in_node from to <$> <[to := Node to (parent n0) (name n0) (attrs n0) (body n0)]> (delete from (nodes r))) in *.
  assert (∀ i n, nodes r !! i = Some n → m0 !! ρ i = Some (rename_in_node from to (Node (ρ (self n)) (parent n) (name n) (attrs n) (body n)))) as Hm0.
  { intros i n Hi. unfold m0. rewrite lookup_fmap. destruct (wf_self r Hwf _ _ Hi) as [Hs _]. destruct (decide (i = from)) as [->|Hne].
    - unfold ρ at 1. rewrite rename_ptr_eq, lookup_insert_eq. assert (n0 = n) as -> by congruence. cbn. unfold ρ. by rewrite Hs, rename_ptr_eq.
    - unfold ρ at 1. rewrite rename_ptr_ne, lookup_insert_ne, lookup_delete_ne, Hi by (done || (symmetry; by eapply Hfresh)). cbn.
      unfold ρ. rewrite Hs, rename_ptr_ne by done. rewrite <- Hs. by destruct n. }
  assert (∀ j n', m0 !! j = Some n' → ∃ i n, j = ρ i ∧ nodes r !! i = Some n) as Hm0'.
  { intros j n' Hj. unfold m0 in Hj. rewrite lookup_fmap in Hj. destruct (decide (j = to)) as [->|Hne].
    - exists from, n0. split; [|done]. unfold ρ. by rewrite rename_ptr_eq.
    - rewrite lookup_insert_ne in Hj by done. apply fmap_Some in Hj as (n & [Hne' Hn]%lookup_delete_Some & _). exists j, n. split; [|done].
      unfold ρ. by rewrite rename_ptr_ne. }
  assert (∀ i n, nodes r !! i = Some n → m' !! ρ i = Some (renamed from to n)) as Hall.
  { intros i n Hi. destruct (wf_self r Hwf _ _ Hi) as [Hs _].
    assert (∀ b : bool, (if b then parent n = from else parent n ≠ from) →
      Some (renamed from to n) = if b then (λ n, with_loc to (name n) n) <$> m0 !! ρ i else m0 !! ρ i) as Hrn.
    { intros b Hb. rewrite (Hm0 _ _ Hi). unfold renamed. fold ρ. destruct b; cbn.
      - f_equal. unfold ρ. rewrite Hb, rename_ptr_eq. unfold rename_in_node, with_children, with_loc. by destruct n as [? ? ? ? []].
      - unfold ρ. by rewrite (rename_ptr_ne _ _ (parent n)). }
    destruct (body n0) as [f|ch] eqn:Hb0.
    - injection Hm as <-. rewrite <- (Hrn false); [done|]. intros Hp. assert (parent n ≠ the_null_node) as Hnn by congruence.
      destruct (wf_parent r Hwf _ _ Hi Hnn) as (p & ch & Hp' & Hb & _). rewrite Hp in Hp'. congruence.
    - rewrite (reparent_lookup _ _ _ _ _ (ρ i) Hm). destruct (decide (ρ i ∈ ρ <$> (map_iter ch).*2)) as [Hin|Hin].
      + symmetry. apply (Hrn true). apply list_elem_of_fmap in Hin as (c & Hc & Hin). apply list_elem_of_fmap in Hin as ([pc c'] & Ec & Hin). cbn in Ec. subst c'.
        apply elem_of_map_iter in Hin. destruct (wf_child r Hwf _ _ _ _ _ Hn0 Hb0 Hin) as (_ & cn & Hcn & Hpar & _).
        assert (c = i) as ->; [|congruence]. destruct (decide (i = from)) as [->|Hif], (decide (c = from)) as [->|Hcf]; [done|..].
        * exfalso. unfold ρ in Hc. rewrite rename_ptr_eq, rename_ptr_ne in Hc by done. by apply (Hfresh _ _ Hcn).
        * exfalso. unfold ρ in Hc. rewrite rename_ptr_eq, rename_ptr_ne in Hc by done. by apply (Hfresh _ _ Hi).
        * unfold ρ in Hc. by rewrite !rename_ptr_ne in Hc by done.
      + symmetry. apply (Hrn false). intros Hp. apply Hin. assert (parent n ≠ the_null_node) as Hnn by congruence.
        destruct (wf_parent r Hwf _ _ Hi Hnn) as (p & ch' & Hp' & Hb & Hc). rewrite Hp in Hp'. assert (ch' = ch) as -> by congruence.
        apply list_elem_of_fmap. exists i. split; [done|]. apply list_elem_of_fmap. exists (name n, i). split; [done|]. by apply elem_of_map_iter. }
  split_and!; [done..|]. intros j n' Hj. assert (is_Some (m0 !! j)) as [n1 Hn1].
  { destruct (body n0); [injection Hm as <-; eauto|]. rewrite (reparent_lookup _ _ _ _ _ j Hm) in Hj. destruct (decide _); [|eauto].
    apply fmap_Some in Hj as (n1 & Hn1 & _). eauto. }
  destruct (Hm0' _ _ Hn1) as (i & n & -> & Hi). exists i, n. split_and!; [done..|]. rewrite (Hall _ _ Hi) in Hj. congruence.
Qed.

Lemma rwf_replace r from to r' : rwf r → replace_node_id r from to = Ok r' → rwf r'.
Proof.
  intros Hwf Hr. destruct (replace_node_id_nodes r from to r' Hwf Hr) as (Hf0 & Ht0 & Hfresh & Hroot & Hfw & Hbw). set (ρ := rename_ptr from to) in *.
  assert (∀ i, ρ i = the_null_node ↔ i = the_null_node) as Hnull.
  { intros i. unfold ρ, rename_ptr. case_decide; split; congruence. }
  assert (∀ n, parent (renamed from to n) = ρ (parent n) ∧ name (renamed from to n) = name n) as Hpn.
  { intros n. by destruct (renamed_fields from to n) as (_ & -> & -> & _). }
  assert (∀ n, body (renamed from to n) = match body n with DirBody ch => DirBody (ρ <$> ch) | FileBody f => FileBody f end) as Hb.
  { intros n. by destruct (renamed_fields from to n) as (_ & _ & _ & _ & ->). }
  split.
  - intros j n' (i & n & -> & Hi & ->)%Hbw. destruct (wf_self r Hwf _ _ Hi) as [Hs Hi0]. split; [|by rewrite Hnull].
    destruct (renamed_fields from to n) as (-> & _). by rewrite Hs.
  - intros j n' ch' pc c' (i & n & -> & Hi & ->)%Hbw. rewrite Hb. destruct (body n) as [|ch] eqn:Hbn; intros [= <-] Hc. rewrite lookup_fmap in Hc.
    apply fmap_Some in Hc as (c & Hc & ->). destruct (wf_child r Hwf _ _ _ _ _ Hi Hbn Hc) as (Hpc & cn & Hcn & Hpar & Hnm). split; [done|].
    exists (renamed from to cn). destruct (Hpn cn) as [-> ->]. rewrite Hpar. split_and!; [by apply Hfw|done..].
  - intros j n' (i & n & -> & Hi & ->)%Hbw. destruct (Hpn n) as [-> ->]. rewrite Hnull. intros Hp. destruct (wf_parent r Hwf _ _ Hi Hp) as (p & ch & Hp' & Hbp & Hc).
    exists (renamed from to p), (ρ <$> ch). rewrite Hb, Hbp, lookup_fmap, Hc. split_and!; [by apply Hfw|done..].
  - intros j n' (i & n & -> & Hi & ->)%Hbw. destruct (Hpn n) as [-> ->]. rewrite Hnull. by apply (wf_null r Hwf i).
  - intros j. rewrite Hroot. intros (i & Hi & ->)%fmap_Some. destruct (wf_root r Hwf _ Hi) as (n & Hn & Hd & Hp). exists (renamed from to n).
    split_and!; [by apply Hfw| |destruct (Hpn n) as [-> _]; by apply Hnull]. unfold is_dir_t in *. rewrite Hb. by destruct (body n).
Qed.

(** ** Edit scripts

    One call of an editing operation on a roster.  [drop_detached_node] and
    [attach_node] check that the node is detached "as best one can" (the root
    looks detached too), and [create_dir_node]/[create_file_node] rely on a
    fresh id from the node id source: those are the callers' obligations. *)
Inductive edit : roster → roster → Prop :=
  | edit_detach r p r' nid : detach_node r p = Ok (r', nid) → edit r r'
  | edit_detach_id r nid r' : detach_node_id r nid = Ok r' → edit r r'
  | edit_drop r nid r' :
      root_dir r ≠ Some nid → drop_detached_node r nid = Ok r' → edit r r'
  | edit_create_dir r nid :
      nodes r !! nid = None → nid ≠ the_null_node → edit r (create_dir_node r nid)
  | edit_create_file r content nid :
      nodes r !! nid = None → nid ≠ the_null_node → edit r (create_file_node r content nid)
  | edit_attach_at r nid par nm r' :
      root_dir r ≠ Some nid → attach_node_at r nid par nm = Ok r' → edit r r'
  | edit_attach r nid p r' :
      root_dir r ≠ Some nid → attach_node r nid p = Ok r' → edit r r'
  | edit_delta r p old_id new_id r' : apply_delta r p old_id new_id = Ok r' → edit r r'
  | edit_content r nid new_id r' : set_content r nid new_id = Ok r' → edit r r'
  | edit_erase_attr r nid key r' : erase_attr r nid key = Ok r' → edit r r'
  | edit_clear_attr r p key r' : clear_attr r p key = Ok r' → edit r r'
  | edit_set_attr r p key val r' : set_attr r p key val = Ok r' → edit r r'
  | edit_set_attr_any r nid key val r' :
      set_attr_unknown_to_dead_ok r nid key val = Ok r' → edit r r'
  | edit_replace r from to r' : replace_node_id r from to = Ok r' → edit r r'.

Lemma rwf_set_content r x c f :
  rwf r → (n ← get_node r x; downcast_to_file_t n) = Ok f →
  rwf (set_nodes r (alter (with_body (FileBody c)) x (nodes r))).
Proof.
  intros Hwf H. unfold get_node, downcast_to_file_t in H. inv_ok. apply rwf_alter; [done|].
  intros n Hn. split_and!; [done..|]. intros ch. simpl.
  assert (n = v) as -> by congruence. by destruct (body v).
Qed.

Lemma rwf_with_attrs r x a : rwf r → rwf (set_nodes r (alter (with_attrs a) x (nodes r))).
Proof. intros Hwf. by apply rwf_alter. Qed.

Lemma rwf_attach_path r x p r' :
  rwf r → root_dir r ≠ Some x → attach_node r x p = Ok r' → rwf r'.
Proof.
  intros Hwf Hr H. unfold attach_node in H. destruct (fp_empty p); [by eapply rwf_attach|].
  inv_ok. destruct v as [dir base]. inv_ok. by eapply rwf_attach.
Qed.

Lemma set_attr_pair_Ok r p key val r' :
  set_attr_pair r p key val = Ok r' →
  ∃ nid n, nodes r !! nid = Some n ∧ val.1 || bool_decide (val.2 = []) = true ∧
    r' = set_nodes r (alter (with_attrs (<[key := val]> (attrs n))) nid (nodes r)).
Proof. unfold set_attr_pair, get_node. intros H. inv_ok. eauto. Qed.

Lemma edit_rwf r r' : edit r r' → rwf r → rwf r'.
Proof.
  destruct 1; intros Hwf.
  - by eapply rwf_detach.
  - by eapply rwf_detach_id.
  - by eapply rwf_drop.
  - by apply rwf_create; auto.
  - apply rwf_create; eauto.
  - by eapply rwf_attach.
  - by eapply rwf_attach_path.
  - unfold apply_delta in H. inv_ok. subst. eapply rwf_set_content; [done|]. by rewrite E0.
  - unfold set_content in H. inv_ok. subst. eapply rwf_set_content; [done|]. by rewrite E.
  - unfold erase_attr in H. inv_ok. subst. by apply rwf_with_attrs.
  - apply set_attr_pair_Ok in H as (? & ? & _ & _ & ->). by apply rwf_with_attrs.
  - apply set_attr_pair_Ok in H as (? & ? & _ & _ & ->). by apply rwf_with_attrs.
  - unfold set_attr_unknown_to_dead_ok in H. inv_ok. subst. by apply rwf_with_attrs.
  - by eapply rwf_replace.
Qed.

Lemma rwf_empty : rwf empty_roster.
Proof. by split. Qed.

(** Dead attributes keep having no value. *)
Definition sane_attrs (a : gmap bytes (bool * bytes)) : Prop :=
  ∀ k v, a !! k = Some v → v.1 || bool_decide (v.2 = []) = true.

Lemma attrs_sane_iff r :
  attrs_sane r ↔ ∀ i n, nodes r !! i = Some n → sane_attrs (attrs n).
Proof. unfold attrs_sane, sane_attrs. split; eauto. Qed.

Lemma attrs_sane_alter f (x : Z) (m : gmap Z node) :
  (∀ n, m !! x = Some n → sane_attrs (attrs n) → sane_attrs (attrs (f n))) →
  (∀ i n, m !! i = Some n → sane_attrs (attrs n)) →
  ∀ i n, alter f x m !! i = Some n → sane_attrs (attrs n).
Proof.
  intros Hf Hm i n. rewrite lookup_alter_at. intros (n0 & Hn0 & ->)%fmap_Some.
  case_decide as Hi; [subst; eauto|]. by eapply Hm.
Qed.

Lemma sane_attrs_insert a k v :
  v.1 || bool_decide (v.2 = []) = true → sane_attrs a → sane_attrs (<[k := v]> a).
Proof. intros Hv Ha k' v' [[-> <-]|[_ ?]]%lookup_insert_Some; [done|]. by eapply Ha. Qed.

Lemma sane_attrs_delete a k : sane_attrs a → sane_attrs (delete k a).
Proof. intros Ha k' v' [_ ?]%lookup_delete_Some. by eapply Ha. Qed.

Lemma attrs_with_children f n : attrs (with_children f n) = attrs n.
Proof. by destruct n as [????[]]. Qed.

#[local] Hint Resolve sane_attrs_insert sane_attrs_delete : mtn.

(** Close a goal about a roster whose nodes were only altered or deleted. *)
Ltac attrs_edit Hs :=
  rewrite attrs_sane_iff in *; simpl in *; repeat (eapply attrs_sane_alter;
    [simpl; intros; rewrite ?attrs_with_children; eauto with mtn|]);
  try (intros ? ? [_ ?]%lookup_delete_Some); try exact Hs; eauto.

Lemma detach_child_attrs r dir pc r' c :
  detach_child r dir pc = Ok (r', c) → attrs_sane r → attrs_sane r'.
Proof.
  unfold detach_child. intros H Hs. inv_ok. simplify_eq. attrs_edit Hs.
Qed.

Lemma attach_node_at_attrs r x par nm r' :
  attach_node_at r x par nm = Ok r' → attrs_sane r → attrs_sane r'.
Proof.
  unfold attach_node_at. intros H Hs. inv_ok. subst.
  destruct (null_node par || bool_decide (nm = [])).
  - inv_ok. by subst.
  - unfold attach_child in *. inv_ok. subst. attrs_edit Hs.
Qed.

Lemma create_attrs r x b :
  attrs_sane r → attrs_sane (set_nodes r (<[x := Node x the_null_node [] ∅ b]> (nodes r))).
Proof. intros Hs i n a v. simpl. intros [[_ <-]|[_ Hn]]%lookup_insert_Some; [done|]. by eapply Hs. Qed.

Lemma edit_attrs_sane r r' : edit r r' → rwf r → attrs_sane r → attrs_sane r'.
Proof.
  destruct 1; intros Hwf Hs.
  - unfold detach_node in H. inv_ok. destruct v as [dir base]. inv_ok. case_decide; inv_ok.
    + by simplify_eq.
    + destruct v1 as [r1 c]. inv_ok. simplify_eq. by eapply detach_child_attrs in E2.
  - unfold detach_node_id in H. inv_ok. destruct (null_node (parent v)); inv_ok; [by subst|].
    destruct v0 as [r1 c]. inv_ok. subst. by eapply detach_child_attrs in E0.
  - unfold drop_detached_node in H0. inv_ok. subst. intros i n a w. simpl.
    intros [_ Hn]%lookup_delete_Some. by eapply Hs.
  - by apply create_attrs.
  - by apply create_attrs.
  - by eapply attach_node_at_attrs.
  - unfold attach_node in H0. destruct (fp_empty p); [by eapply attach_node_at_attrs|].
    inv_ok. destruct v as [dir base]. inv_ok. by eapply attach_node_at_attrs.
  - unfold apply_delta in H. inv_ok. subst. attrs_edit Hs.
  - unfold set_content in H. inv_ok. subst. attrs_edit Hs.
  - unfold erase_attr, get_node in H. inv_ok. apply safe_erase_Ok_inv in E0 as [_ ->]. subst.
    assert (sane_attrs (attrs v)) by (intros ???; by eapply Hs).
    attrs_edit Hs.
  - apply set_attr_pair_Ok in H as (nid & n0 & Hn0 & ? & ->).
    assert (sane_attrs (attrs n0)) by (intros ???; by eapply Hs).
    attrs_edit Hs.
  - apply set_attr_pair_Ok in H as (nid & n0 & Hn0 & ? & ->).
    assert (sane_attrs (attrs n0)) by (intros ???; by eapply Hs).
    attrs_edit Hs.
  - unfold set_attr_unknown_to_dead_ok, get_node in H. inv_ok. subst.
    assert (sane_attrs (attrs v)) by (intros ???; by eapply Hs).
    attrs_edit Hs.
  - destruct (replace_node_id_nodes _ _ _ _ Hwf H) as (_ & _ & _ & _ & _ & Hbw). intros j n' a v (i & n & -> & Hi & ->)%Hbw.
    destruct (renamed_fields from to n) as (_ & _ & _ & -> & _).
    by eapply Hs.
Qed.

(** C29: every sequence of editing operations (by path or by node id, renumbering
    a node included, through any intermediate state with detached nodes and no
    root) leaves a structurally well-formed roster well formed, and keeps dead
    attributes valueless, provided that the current root is neither dropped
    nor attached again and that new nodes get fresh ids; in particular
    whatever is built from the empty roster in this way is. *)
Theorem edits_preserve_invariant r r' :
  rtc edit r r' → rwf r ∧ attrs_sane r → rwf r' ∧ attrs_sane r'.
Proof.
  induction 1 as [|r1 r2 r3 H12 _ IH]; [done|]. intros [? ?]. apply IH.
  split; [by eapply edit_rwf | by eapply edit_attrs_sane].
Qed.

(** Building a two-node roster, then renaming its file. *)
Definition or_else (m : result roster) (r : roster) : roster :=
  match m with Ok r' => r' | Err _ => r end.
Definition ex_b1 : roster := create_dir_node empty_roster 1.
Definition ex_b2 : roster := or_else (attach_node ex_b1 1 (FilePath [])) ex_b1.
Definition ex_b3 : roster := create_file_node ex_b2 (lit "c0") 2.
Definition ex_b4 : roster := or_else (attach_node ex_b3 2 (FilePath (lit "a"))) ex_b3.
Definition ex_b5 : roster := or_else (set_attr ex_b4 (FilePath (lit "a")) (lit "k") (lit "v")) ex_b4.
Definition ex_b6 : roster := or_else (detach_node_id ex_b5 2) ex_b5.
Definition ex_b7 : roster := or_else (attach_node ex_b6 2 (FilePath (lit "b"))) ex_b6.

Lemma edits_preserve_invariant_witness :
  get_name ex_b7 2 = Ok (FilePath (lit "b")) ∧ rwf ex_b7 ∧ attrs_sane ex_b7.
Proof.
  split; [vm_compute; reflexivity|].
  apply (edits_preserve_invariant empty_roster ex_b7); [|split; [apply rwf_empty | done]].
  eapply (rtc_l _ _ ex_b1); [by apply edit_create_dir|].
  eapply (rtc_l _ _ ex_b2); [by eapply (edit_attach _ 1 (FilePath [])); vm_compute|].
  eapply (rtc_l _ _ ex_b3); [by apply edit_create_file|].
  eapply (rtc_l _ _ ex_b4); [by eapply (edit_attach _ 2 (FilePath (lit "a"))); vm_compute|].
  eapply (rtc_l _ _ ex_b5);
    [by eapply (edit_set_attr _ (FilePath (lit "a")) (lit "k") (lit "v")); vm_compute|].
  eapply (rtc_l _ _ ex_b6); [by eapply (edit_detach_id _ 2); vm_compute|].
  eapply (rtc_l _ _ ex_b7); [by eapply (edit_attach _ 2 (FilePath (lit "b"))); vm_compute|].
  apply rtc_refl.
Defined.

(** Without the proviso it is false: the root looks detached.  A root without children can be dropped, and
    the roster then has a root that is not a node; and it can be attached below a directory. *)
Example root_looks_detached :
  (r ← drop_detached_node ex_b2 1; Ok (root_dir r, nodes r !! 1)) = Ok (Some 1, None) ∧
  (r ← attach_node_at (create_dir_node ex_b2 2) 1 2 (lit "d"); n ← get_node r 1; Ok (root_dir r, parent n)) = Ok (Some 1, 2).
Proof. split; vm_compute; reflexivity. Qed.

(** ** Old locations *)

Lemma attach_at_old_location r x par nm :
  old_locations r !! x = Some (par, nm) → attach_node_at r x par nm = Err invariant_failure.
Proof.
  intros Hol. unfold attach_node_at, get_node. rewrite Hol.
  destruct (nodes r !! x) as [n|] eqn:Hn; [|done]. simpl.
  destruct (null_node (self n)); [done|]. simpl.
  destruct (null_node (parent n)) eqn:Hp; [|done]. apply null_node_true in Hp. simpl.
  destruct (bool_decide (name n = [])) eqn:Hnm; [|done]. apply bool_decide_eq_true in Hnm. simpl.
  destruct (null_node par || bool_decide (nm = [])) eqn:E.
  - destruct (null_node par && bool_decide (nm = [])) eqn:E2; [|done]. simpl.
    apply andb_true_iff in E2 as [->%null_node_true ->%bool_decide_eq_true].
    destruct (negb (has_root r)); [|done]. simpl.
    unfold downcast_to_dir_t. destruct (body n); [done|]. simpl.
    rewrite Hp, Hnm, (bool_decide_false (Some (the_null_node, []) ≠ _)); [done|]. auto.
  - destruct (attach_child r par nm x) as [r'|e] eqn:Ha.
    2:{ unfold attach_child, get_node, downcast_to_dir_t, safe_insert in Ha. rewrite Hn in Ha.
        simpl in Ha. rewrite Hp, Hnm in Ha.
        destruct (nodes r !! par); simpl in *; [|congruence].
        destruct (body _); simpl in *; [congruence|].
        destruct (_ !! nm); simpl in *; congruence. }
    simpl. unfold attach_child in Ha. inv_ok. subst r'. simpl.
    unfold get_node. simpl. rewrite !lookup_alter_at, Hn, !decide_True by done. simpl.
    rewrite (bool_decide_false (Some (par, nm) ≠ _)); [done|]. auto.
Qed.

(** [roster_t::detach_node(file_path)] records where the node was, so that
    putting the same node back at the same place trips the invariant check of
    [attach_node] (a csets's rename must move the node). *)
Theorem detach_by_path_blocks_reattach r p r' nid dir base pp :
  rwf r → detach_node r p = Ok (r', nid) →
  dirname_basename p = Ok (dir, base) → base ≠ [] → get_node_internal r dir = Ok pp →
  old_locations r' !! nid = Some (pp, base) ∧ attach_node_at r' nid pp base = Err invariant_failure.
Proof.
  intros Hwf H Hdb Hbase Hpp. unfold detach_node in H. rewrite Hdb in H. simpl in H. inv_ok.
  rewrite decide_False in H by done. rewrite Hpp in H. simpl in H. inv_ok.
  destruct v0 as [r1 c]. inv_ok. simplify_eq.
  apply safe_insert_Ok_inv in E1 as [_ ->].
  assert (old_locations (set_old r1 (<[nid:=(pp, base)]> (old_locations r1))) !! nid = Some (pp, base))
    as Hol by apply lookup_insert_eq.
  split; [done|]. by apply attach_at_old_location.
Qed.

(** [roster_t::detach_node(node_id)] does not have that effect: it
    records the parent after [detach_child] has cleared it, so the recorded
    location is never the real one, and putting the node back where it was
    goes through and restores the roster. *)
Theorem detach_by_id_forgets_parent r x n :
  complete r → nodes r !! x = Some n → parent n ≠ the_null_node →
  ∃ r', detach_node_id r x = Ok r' ∧ old_locations r' !! x = Some (the_null_node, name n) ∧
    attach_node_at r' x (parent n) (name n) = Ok r.
Proof.
  intros Hc Hx Hp. pose proof Hc as [Hwf Hroot _ Hold].
  pose proof (detach_node_id_step r ∅ x n (old_locations r) Hwf Hx) as Hd.
  rewrite detached_empty in Hd. rewrite Hd; [|set_solver|done|by rewrite Hold].
  eexists. split; [done|]. split; [apply lookup_insert_eq|].
  rewrite (attach_node_at_step r ∅ x n); [|done|done|set_solver|].
  - rewrite delete_insert_id by (by rewrite Hold). by rewrite detached_empty.
  - rewrite lookup_insert_eq. intros [= E]. by destruct Hp.
Qed.

Lemma detach_by_path_blocks_reattach_witness :
  ∃ r', detach_node ex_b5 (FilePath (lit "a")) = Ok (r', 2) ∧
    old_locations r' !! 2 = Some (1, lit "a") ∧ attach_node_at r' 2 1 (lit "a") = Err invariant_failure.
Proof.
  eexists. split; [vm_compute; reflexivity|].
  eapply (detach_by_path_blocks_reattach ex_b5 (FilePath (lit "a")) _ 2 (FilePath []) (lit "a") 1).
  - apply complete_wf, complete_b_sound. vm_compute. reflexivity.
  - vm_compute. reflexivity.
  - vm_compute. reflexivity.
  - done.
  - vm_compute. reflexivity.
Defined.

Lemma detach_by_id_forgets_parent_witness :
  ∃ r', detach_node_id ex_b5 2 = Ok r' ∧ old_locations r' !! 2 = Some (the_null_node, lit "a") ∧
    attach_node_at r' 2 1 (lit "a") = Ok ex_b5.
Proof.
  apply (detach_by_id_forgets_parent ex_b5 2
    (Node 2 1 (lit "a") {[lit "k" := (true, lit "v")]} (FileBody (lit "c0")))).
  - apply complete_b_sound. vm_compute. reflexivity.
  - vm_compute. reflexivity.
  - done.
Defined.

(** A node that was created and never attached can be dropped, which undoes
    the creation exactly, although the states described in [roster.hh]
    say that such a node may not be deleted. *)
Theorem drop_created_node r x content :
  nodes r !! x = None → old_locations r !! x = None →
  drop_detached_node (create_dir_node r x) x = Ok r ∧
  drop_detached_node (create_file_node r content x) x = Ok r.
Proof.
  intros Hn Ho.
  assert (∀ b, drop_detached_node (set_nodes r (<[x := Node x the_null_node [] ∅ b]> (nodes r))) x =
    if match b with DirBody ch => bool_decide (ch = ∅) | FileBody _ => true end then Ok r
    else Err invariant_failure) as H.
  { intros b. unfold drop_detached_node, get_node. simpl. rewrite lookup_insert_eq. simpl.
    assert (Roster (root_dir r) (delete x (<[x := Node x the_null_node [] ∅ b]> (nodes r)))
      (delete x (old_locations r)) = r) as Hr
      by (rewrite delete_insert_id, delete_id by done; by destruct r).
    destruct b as [c|ch]; simpl; [by rewrite Hr|]. destruct (bool_decide (ch = ∅)); [|done]. simpl. by rewrite Hr. }
  split; [unfold create_dir_node; rewrite H | unfold create_file_node; rewrite H]; done.
Qed.

Lemma drop_created_node_witness :
  drop_detached_node (create_dir_node ex_b5 7) 7 = Ok ex_b5 ∧
  drop_detached_node (create_file_node ex_b5 (lit "c1") 7) 7 = Ok ex_b5.
Proof. apply (drop_created_node ex_b5 7 (lit "c1")); vm_compute; reflexivity. Defined.

(** ** Paths and node ids *)

Lemma walk_app r nd l1 l2 : walk r nd (l1 ++ l2) = m ← walk r nd l1; walk r m l2.
Proof.
  revert nd. induction l1 as [|pc l1 IH]; intros nd; [done|]. simpl.
  destruct (get_node r nd) as [n|]; [|done]. simpl.
  destruct (downcast_to_dir_t n) as [ch|]; [|done]. simpl.
  destruct (ch !! pc); [|done]. simpl. apply IH.
Qed.

Section names.
Context (r : roster) (root : Z).
Context (Hwf : rwf r) (Hroot : root_dir r = Some root).

Lemma walk_child nd pc c :
  walk r nd [pc] = Ok c → ∃ n, nodes r !! c = Some n ∧ parent n = nd ∧ name n = pc ∧ c ≠ root.
Proof.
  simpl. unfold get_node, downcast_to_dir_t. intros H. inv_ok. subst.
  destruct (body v) as [|ch] eqn:Hb; inv_ok. simplify_eq.
  destruct (wf_child r Hwf _ _ _ _ _ E Hb E1) as (_ & n & Hn & Hp & Hnm).
  exists n. split_and!; [done..|]. intros ->.
  destruct (wf_root r Hwf _ Hroot) as (n' & Hn' & _ & Hp'). simplify_eq.
  destruct (wf_self r Hwf _ _ E). congruence.
Qed.

Lemma walk_exists comps nid : walk r root comps = Ok nid → is_Some (nodes r !! nid).
Proof.
  destruct comps as [|pc comps _] using rev_ind.
  - intros [= <-]. destruct (wf_root r Hwf _ Hroot) as (? & ? & _). eauto.
  - rewrite walk_app. intros Hw. inv_ok. destruct (walk_child _ _ _ Hw) as (? & ? & _). eauto.
Qed.

(** The path walked down is the one the parent chain spells. *)
Lemma walk_chain comps nid fuel :
  walk r root comps = Ok nid → (length comps ≤ fuel)%nat →
  name_chain fuel r root nid = Ok comps.
Proof.
  revert nid fuel. induction comps as [|pc comps IH] using rev_ind; intros nid fuel H Hf.
  - simpl in H. injection H as <-. destruct fuel; simpl; by rewrite Z.eqb_refl.
  - rewrite walk_app in H. inv_ok. destruct (walk_child _ _ _ H) as (n & Hn & Hp & Hnm & Hne).
    rewrite length_app in Hf. simpl in Hf. destruct fuel as [|fuel]; [lia|]. cbn [name_chain].
    rewrite (proj2 (Z.eqb_neq nid root)) by done. unfold get_node. rewrite Hn. simpl.
    rewrite Hp, (IH v fuel E) by lia. simpl. by rewrite Hnm.
Qed.

Lemma chain_walk comps nid fuel :
  name_chain fuel r root nid = Ok comps → walk r root comps = Ok nid.
Proof.
  revert comps nid. induction fuel as [|fuel IH]; intros comps nid; cbn [name_chain].
  - destruct (nid =? root) eqn:E; intros; inv_ok; subst; simpl; f_equal; lia.
  - destruct (nid =? root) eqn:E; [intros; inv_ok; subst; simpl; f_equal; lia|].
    intros H. inv_ok. subst. unfold get_node in E0. inv_ok. rewrite walk_app, (IH _ _ E1). simpl.
    destruct (decide (parent v = the_null_node)) as [Hp|Hp].
    { exfalso. rewrite Hp in E1. apply IH in E1.
      apply walk_exists in E1 as [n0 Hn0]. by destruct (wf_self r Hwf _ _ Hn0). }
    destruct (wf_parent r Hwf _ _ E0 Hp) as (p & ch & Hpn & Hb & Hc).
    unfold get_node, downcast_to_dir_t. by rewrite Hpn; simpl; rewrite Hb; simpl; rewrite Hc.
Qed.

(** A node has one path only, so the nodes along a path are distinct and a
    path is shorter than the roster is large. *)
Lemma walk_length comps nid :
  walk r root comps = Ok nid → (length comps < size (nodes r))%nat.
Proof.
  intros H.
  set (f i := match walk r root (take i comps) with Ok n => n | Err _ => 0 end).
  assert (∀ i, walk r root (take i comps) = Ok (f i)) as Hf.
  { intros i. unfold f. rewrite <- (take_drop i comps), walk_app in H. inv_ok. by rewrite E. }
  assert (NoDup (f <$> seq 0 (S (length comps)))) as Hnd.
  { apply NoDup_fmap_2_strong; [|apply NoDup_seq].
    intros i j Hi%elem_of_seq Hj%elem_of_seq E.
    pose proof (walk_chain _ _ (length comps) (Hf i)) as C1.
    pose proof (walk_chain _ _ (length comps) (Hf j)) as C2. rewrite E in C1.
    rewrite !length_take in *. rewrite C2 in C1 by lia.
    assert (take i comps = take j comps) as Et by (symmetry; injection C1; auto with lia).
    apply (f_equal length) in Et. rewrite !length_take in Et. lia. }
  assert (f <$> seq 0 (S (length comps)) ⊆ elements (dom (nodes r))) as Hsub.
  { intros x (i & -> & _)%list_elem_of_fmap. apply elem_of_elements, elem_of_dom.
    eapply walk_exists, Hf. }
  pose proof (submseteq_length _ _ (NoDup_submseteq _ _ Hnd Hsub)) as Hlen.
  rewrite length_fmap, length_seq in Hlen.
  rewrite <- size_dom. unfold size, set_size. simpl. lia.
Qed.
End names.

(** The bookkeeping test looks at the first component only. *)
Lemma in_bookkeeping_first s w ws :
  split_slash s = w :: ws → w ≠ [] → in_bookkeeping_dir s = in_bookkeeping_dir w.
Proof.
  intros Hs Hw. pose proof (split_slash_no_slash s) as Hn. rewrite Hs in Hn.
  rewrite <- (join_split s), Hs. destruct ws as [|v ws]; [done|].
  change (join_slash (w :: v :: ws)) with (w ++ slash :: join_slash (v :: ws)).
  apply in_bookkeeping_dir_app; [done|]. inversion Hn as [|?? Hw' _]; subst.
  intros [l' ->]%last_Some. apply Hw'. apply elem_of_app. right. by left.
Qed.

Lemma walk_names r root comps nid :
  rwf r → root_dir r = Some root → walk r root comps = Ok nid →
  Forall (λ pc, pc ≠ [] ∧ ∃ i n, nodes r !! i = Some n ∧ name n = pc) comps.
Proof.
  intros Hwf Hroot. revert nid. induction comps as [|pc comps IH] using rev_ind; intros nid H.
  - constructor.
  - rewrite walk_app in H. inv_ok. apply Forall_app. split; [by eapply IH|].
    destruct (walk_child _ _ Hwf Hroot _ _ _ H) as (n & Hn & Hp & <- & Hne).
    apply Forall_singleton. split; [|eauto]. eapply wf_parent_name; [done..|].
    destruct (walk_exists _ _ Hwf Hroot _ _ E) as [m Hm]. rewrite Hp.
    by destruct (wf_self r Hwf _ _ Hm).
Qed.

Lemma join_slash_nonempty w ws : w ≠ [] → join_slash (w :: ws) ≠ [].
Proof. intros Hw. destruct w; [done|]. by destruct ws. Qed.

(** [roster_t::get_name] and [roster_t::get_node(file_path)] are inverse
    to each other: in a well-formed roster whose names contain no slash, and
    for a path outside the bookkeeping directory, the path of a node is [p]
    exactly when [p] leads to that node.  In particular the upward walk of
    [get_name] terminates for every node the root reaches. *)
Theorem get_name_iff_get_node r nid p :
  rwf r → (∀ i n, nodes r !! i = Some n → no_slash (name n)) →
  in_bookkeeping_dir (data p) = false →
  get_name r nid = Ok p ↔ get_node_internal r p = Ok nid.
Proof.
  intros Hwf Hns Hbk. destruct p as [s]. simpl in Hbk.
  unfold get_name, get_node_internal, fp_empty. simpl.
  destruct (root_dir r) as [root|] eqn:Hroot; [|by destruct (negb (null_node nid))]. simpl.
  split.
  - intros H. inv_ok. pose proof (chain_walk _ _ Hwf Hroot _ _ _ E0) as Hw.
    destruct v0 as [|top rest]; [by simplify_eq|].
    assert (join_slash (top :: rest) = s) as <-
      by (destruct (negb (in_bookkeeping_dir top)); cbn [I_ mbind result_bind] in H; congruence).
    pose proof (walk_names _ _ _ _ Hwf Hroot Hw) as Hn.
    rewrite bool_decide_false by (apply join_slash_nonempty; by inversion Hn as [|?? [? _]]).
    rewrite split_join; [done..|]. eapply Forall_impl; [exact Hn|].
    intros pc (_ & i & n & Hi & <-). by eapply Hns.
  - intros H.
    assert (∃ comps, walk r root comps = Ok nid ∧ join_slash comps = s ∧
      (comps = [] ∨ ∃ top, head comps = Some top ∧ in_bookkeeping_dir top = false)) as (comps & Hw & <- & Htop).
    { destruct (bool_decide (s = [])) eqn:Es.
      - apply bool_decide_eq_true in Es. exists []. auto.
      - exists (split_slash s). rewrite join_split. split_and!; [done..|]. right.
        pose proof (walk_names _ _ _ _ Hwf Hroot H) as Hn.
        pose proof (split_slash_nonnil s). destruct (split_slash s) as [|w ws] eqn:Ew; [done|].
        exists w. split; [done|]. inversion Hn as [|?? [Hw0 _]]; subst.
        by rewrite <- (in_bookkeeping_first s w ws). }
    destruct (walk_exists _ _ Hwf Hroot _ _ Hw) as [n Hn].
    rewrite (proj2 (null_node_false nid)) by (by destruct (wf_self r Hwf _ _ Hn)). simpl.
    pose proof (walk_length _ _ Hwf Hroot _ _ Hw).
    rewrite (walk_chain _ _ Hwf Hroot comps nid) by (done || lia). simpl.
    destruct comps as [|top comps]; [done|]. destruct Htop as [|(? & [= ->] & Hbt)]; [done|].
    by rewrite Hbt.
Qed.

Lemma get_name_iff_get_node_witness :
  get_name ex_b5 2 = Ok (FilePath (lit "a")) ↔
  get_node_internal ex_b5 (FilePath (lit "a")) = Ok 2.
Proof.
  apply get_name_iff_get_node.
  - apply complete_wf, complete_b_sound. vm_compute. reflexivity.
  - intros i n Hi. assert (all_pairs (λ _ n, bool_decide (no_slash (name n))) (nodes ex_b5) = true) as H
      by (vm_compute; reflexivity).
    pose proof (all_pairs_spec _ _ _ _ H Hi) as H1. by apply bool_decide_eq_true in H1.
  - reflexivity.
Defined.
