(* ===== verification/ParallelIter.v ===== *)
(** * Walking two maps in step ([src/src/parallel_iter.hh])

    [parallel::iter] visits the union of the keys of two maps in increasing
    order and says of each key which of the maps holds it.  The iterator object
    is modelled with its flags and its two positions (a position is what is left
    of the sorted map); [items] is what a client's [while (i.next())] loop sees. *)

From S2P Require Import Prelude.

Inductive state_t := in_left | in_right | in_both | invalid.
#[export] Instance state_t_eq_dec : EqDecision state_t.
Proof. solve_decision. Defined.

(** What a client reads off the iterator in each state. *)
Inductive item (V : Type) := Left (v : V) | Right (w : V) | Both (v w : V).
Arguments Left {V} v.
Arguments Right {V} w.
Arguments Both {V} v w.

Section iter.
Context `{Countable K, !Ordered K} {V : Type}.

Record iter := Iter {
  left_map : gmap K V;
  right_map : gmap K V;
  state_ : state_t;
  started_ : bool;
  finished_ : bool;
  left_ : list (K * V);
  right_ : list (K * V)
}.

Definition iter_init (l r : gmap K V) : iter := Iter l r invalid false false [] [].

(** The new state, once the positions are past the last item returned. *)
Definition classify_heads (l r : list (K * V)) : result state_t :=
  match l, r with
  | [], [] => Ok invalid
  | [], _ => Ok in_right
  | _, [] => Ok in_left
  | (k1, _) :: _, (k2, _) :: _ =>
      if klt k1 k2 then Ok in_left
      else if klt k2 k1 then Ok in_right
      else I_ (bool_decide (k1 = k2)) ;; Ok in_both
  end.

Definition advance (i : iter) : result (list (K * V) * list (K * V)) :=
  if started_ i then
    I_ (negb (bool_decide (state_ i = invalid))) ;;
    Ok (if decide (state_ i = in_left ∨ state_ i = in_both) then tail (left_ i) else left_ i,
        if decide (state_ i = in_right ∨ state_ i = in_both) then tail (right_ i) else right_ i)
  else Ok (map_iter (left_map i), map_iter (right_map i)).

Definition next (i : iter) : result (iter * bool) :=
  I_ (negb (finished_ i)) ;;
  '(l, r) ← advance i;
  st ← classify_heads l r;
  let fin := bool_decide (st = invalid) in
  Ok (Iter (left_map i) (right_map i) st true fin l r, negb fin).

Definition left_value (i : iter) : result (K * V) :=
  I_ (bool_decide (state_ i = in_left ∨ state_ i = in_both)) ;; of_option (head (left_ i)).
Definition right_value (i : iter) : result (K * V) :=
  I_ (bool_decide (state_ i = in_right ∨ state_ i = in_both)) ;; of_option (head (right_ i)).

Definition current (i : iter) : result (K * item V) :=
  match state_ i with
  | invalid => Err invariant_failure
  | in_left => '(k, v) ← left_value i; Ok (k, Left v)
  | in_right => '(k, w) ← right_value i; Ok (k, Right w)
  | in_both => '(k, v) ← left_value i; '(_, w) ← right_value i; Ok (k, Both v w)
  end.

(** A client's [while (i.next()) ...]; every round visits one key. *)
Fixpoint drain (fuel : nat) (i : iter) : result (list (K * item V)) :=
  match fuel with
  | O => Err invariant_failure
  | S fuel =>
      '(i', more) ← next i;
      if more : bool then it ← current i'; rest ← drain fuel i'; Ok (it :: rest)
      else Ok []
  end.

Definition items (l r : gmap K V) : result (list (K * item V)) :=
  drain (S (size l + size r)) (iter_init l r).

(** ** Specification *)

Definition classify (v w : option V) : option (item V) :=
  match v, w with
  | Some v, None => Some (Left v)
  | None, Some w => Some (Right w)
  | Some v, Some w => Some (Both v w)
  | None, None => None
  end.

(** The sorted merge the loop computes. *)
Fixpoint merge_items (fuel : nat) (l r : list (K * V)) : list (K * item V) :=
  match fuel with
  | O => []
  | S fuel =>
      match l, r with
      | [], [] => []
      | [], (k, w) :: r => (k, Right w) :: merge_items fuel [] r
      | (k, v) :: l, [] => (k, Left v) :: merge_items fuel l []
      | (k1, v) :: l', (k2, w) :: r' =>
          if klt k1 k2 then (k1, Left v) :: merge_items fuel l' r
          else if klt k2 k1 then (k2, Right w) :: merge_items fuel l r'
          else (k1, Both v w) :: merge_items fuel l' r'
      end
  end.

(** Positions after the first [next]. *)
Definition at_heads (i : iter) (l r : list (K * V)) : Prop :=
  finished_ i = false ∧ advance i = Ok (l, r).

Lemma drain_merge fuel i l r :
  at_heads i l r → (length l + length r < fuel)%nat →
  drain fuel i = Ok (merge_items fuel l r).
Proof.
  revert i l r. induction fuel as [|fuel IH]; intros i l r [Hf Ha] Hlen; [lia|].
  cbn [drain merge_items]. unfold next. rewrite Hf, Ha. simpl.
  destruct l as [|[k1 v] l], r as [|[k2 w] r]; simpl.
  - done.
  - rewrite (IH _ [] r); [done | done | simpl in *; lia].
  - rewrite (IH _ l []); [done | done | simpl in *; lia].
  - destruct (klt k1 k2) eqn:H12; simpl.
    { rewrite (IH _ l ((k2, w) :: r)); [done | done | simpl in *; lia]. }
    destruct (klt k2 k1) eqn:H21; simpl.
    { rewrite (IH _ ((k1, v) :: l) r); [done | done | simpl in *; lia]. }
    rewrite bool_decide_true by (by apply kle_antisym). simpl.
    rewrite (IH _ l r); [done | done | simpl in *; lia].
Qed.

Abbreviation sorted_keys := (StronglySorted (λ p q : K * V, klt p.1 q.1 = true)).
Abbreviation above k := (Forall (λ p : K * V, klt k p.1 = true)).

Lemma above_lookup k l : above k l → (list_to_map l : gmap K V) !! k = None.
Proof.
  intros Hl. apply not_elem_of_list_to_map_1. intros Hk.
  apply list_elem_of_fmap in Hk as (p & -> & Hp).
  rewrite Forall_forall in Hl. specialize (Hl p Hp). by rewrite klt_irrefl in Hl.
Qed.

Lemma above_trans k1 k2 l : klt k1 k2 = true → above k2 l → above k1 l.
Proof. intros Hk Hl. eapply Forall_impl; [exact Hl|]. intros p. by apply klt_trans. Qed.

Lemma merge_items_above fuel k l r :
  above k l → above k r → Forall (λ p, klt k p.1 = true) (merge_items fuel l r).
Proof.
  revert l r. induction fuel as [|fuel IH]; intros l r Hl Hr; [constructor|].
  cbn [merge_items]. destruct l as [|[k1 v] l], r as [|[k2 w] r]; [done| | |].
  - apply Forall_cons in Hr as [??]. constructor; auto.
  - apply Forall_cons in Hl as [??]. constructor; auto.
  - pose proof Hl as Hl'. pose proof Hr as Hr'.
    apply Forall_cons in Hr as [??]. apply Forall_cons in Hl as [??].
    destruct (klt k1 k2); [|destruct (klt k2 k1)]; constructor; auto.
Qed.

Lemma merge_items_sorted fuel l r :
  sorted_keys l → sorted_keys r →
  StronglySorted (λ p q : K * item V, klt p.1 q.1 = true) (merge_items fuel l r).
Proof.
  revert l r. induction fuel as [|fuel IH]; intros l r Hl Hr; [constructor|].
  cbn [merge_items]. destruct l as [|[k1 v] l], r as [|[k2 w] r]; [constructor| | |].
  - apply StronglySorted_inv in Hr as [??].
    constructor; [apply IH; [constructor|done] | by apply merge_items_above].
  - apply StronglySorted_inv in Hl as [??].
    constructor; [apply IH; [done|constructor] | by apply merge_items_above].
  - pose proof Hl as Hl'. pose proof Hr as Hr'.
    apply StronglySorted_inv in Hr as [Hr Hk2]. apply StronglySorted_inv in Hl as [Hl Hk1].
    destruct (klt k1 k2) eqn:H12.
    + constructor; [by apply IH|]. apply merge_items_above; [done|].
      constructor; [done | by eapply above_trans].
    + destruct (klt k2 k1) eqn:H21.
      * constructor; [by apply IH|]. apply merge_items_above; [|done].
        constructor; [done | by eapply above_trans].
      * assert (k1 = k2) as -> by (by apply kle_antisym).
        constructor; [by apply IH | by apply merge_items_above].
Qed.

(** The head item, and the rest for the other keys. *)
Lemma elem_of_item_cons (k k0 : K) (it it0 : item V) L (o o' : option (item V)) :
  ((k, it) ∈ L ↔ o' = Some it) →
  (k = k0 → o = Some it0 ∧ o' = None) → (k ≠ k0 → o = o') →
  (k, it) ∈ (k0, it0) :: L ↔ o = Some it.
Proof.
  intros HL Heq Hne. rewrite elem_of_cons, HL. destruct (decide (k = k0)); naive_solver.
Qed.

Lemma elem_of_merge_items fuel l r k it :
  (length l + length r < fuel)%nat → sorted_keys l → sorted_keys r →
  (k, it) ∈ merge_items fuel l r ↔
  classify ((list_to_map l : gmap K V) !! k) ((list_to_map r : gmap K V) !! k) = Some it.
Proof.
  revert l r it. induction fuel as [|fuel IH]; intros l r it Hlen Hl Hr; [lia|].
  cbn [merge_items].
  destruct l as [|[k1 v] l], r as [|[k2 w] r]; simpl in Hlen.
  - simpl. rewrite !lookup_empty, elem_of_nil. done.
  - apply StronglySorted_inv in Hr as [Hr Hk2]. simpl in Hk2.
    eapply elem_of_item_cons; [apply IH; [simpl; lia | constructor | done] | |]; simpl.
    + intros ->. by rewrite lookup_insert_eq, (above_lookup _ _ Hk2), lookup_empty.
    + intros. by rewrite lookup_insert_ne.
  - apply StronglySorted_inv in Hl as [Hl Hk1]. simpl in Hk1.
    eapply elem_of_item_cons; [apply IH; [simpl; lia | done | constructor] | |]; simpl.
    + intros ->. by rewrite lookup_insert_eq, (above_lookup _ _ Hk1), lookup_empty.
    + intros. by rewrite lookup_insert_ne.
  - pose proof Hl as Hl'. pose proof Hr as Hr'.
    apply StronglySorted_inv in Hr as [Hr Hk2]. apply StronglySorted_inv in Hl as [Hl Hk1].
    simpl in Hk1, Hk2.
    destruct (klt k1 k2) eqn:H12; [|destruct (klt k2 k1) eqn:H21].
    + assert (above k1 ((k2, w) :: r)) as Hab
        by (constructor; [done | by eapply above_trans]).
      eapply elem_of_item_cons; [apply IH; [simpl; lia | done | done] | |].
      * intros ->. rewrite (above_lookup _ _ Hk1), (above_lookup _ _ Hab). simpl.
        by rewrite lookup_insert_eq.
      * intros. simpl. by rewrite (lookup_insert_ne _ k1) by done.
    + assert (above k2 ((k1, v) :: l)) as Hab
        by (constructor; [done | by eapply above_trans]).
      eapply elem_of_item_cons; [apply IH; [simpl; lia | done | done] | |].
      * intros ->. rewrite (above_lookup _ _ Hk2), (above_lookup _ _ Hab). simpl.
        by rewrite lookup_insert_eq.
      * intros. simpl. by rewrite (lookup_insert_ne _ k2) by done.
    + assert (k1 = k2) as -> by (by apply kle_antisym).
      eapply elem_of_item_cons; [apply IH; [simpl; lia | done | done] | |].
      * intros ->. rewrite (above_lookup _ _ Hk2), (above_lookup _ _ Hk1). simpl.
        by rewrite !lookup_insert_eq.
      * intros. simpl. by rewrite !lookup_insert_ne by done.
Qed.

(** The loop over [parallel::iter] terminates, never trips an assertion, and
    visits every key of either map once, in increasing order, classified by
    the maps that hold it. *)
Lemma items_spec l r :
  ∃ L, items l r = Ok L ∧
       StronglySorted (λ p q : K * item V, klt p.1 q.1 = true) L ∧
       ∀ k it, (k, it) ∈ L ↔ classify (l !! k) (r !! k) = Some it.
Proof.
  unfold items. eexists. split; [|split].
  - apply (drain_merge _ _ (map_iter l) (map_iter r)); [done|]. rewrite !length_map_iter. lia.
  - apply merge_items_sorted; apply map_iter_sorted.
  - intros k it. rewrite elem_of_merge_items, !list_to_map_iter; [done|..].
    + rewrite !length_map_iter. lia.
    + apply map_iter_sorted.
    + apply map_iter_sorted.
Qed.
End iter.

Lemma sorted_items_NoDup `{Countable K, !Ordered K} {V} (L : list (K * item V)) :
  StronglySorted (λ p q : K * item V, klt p.1 q.1 = true) L → NoDup L.*1.
Proof.
  induction L as [|p L IH]; intros Hs; [constructor|].
  apply StronglySorted_inv in Hs as [Hs Hp]. rewrite fmap_cons. constructor; [|auto].
  intros Hin. apply list_elem_of_fmap in Hin as (q & E & Hq).
  rewrite Forall_forall in Hp. specialize (Hp q Hq). rewrite E, klt_irrefl in Hp. done.
Qed.

(** The loop over [parallel::iter] terminates, never trips an assertion, and
    visits every key of either map exactly once, in increasing order, with the
    state and values the two maps give it. *)
Theorem parallel_iter_correct `{Countable K, !Ordered K} {V} (l r : gmap K V) :
  ∃ L, items l r = Ok L ∧
       StronglySorted (λ p q : K * item V, klt p.1 q.1 = true) L ∧
       ∀ k it, (k, it) ∈ L ↔ classify (l !! k) (r !! k) = Some it.
Proof. apply items_spec. Qed.
