(* ===== verification/Marking.v ===== *)
(** * Markings ([src/src/roster.cc], the marking half)

    Every node of a roster carries, for each of its scalars (its location, its
    content, each attribute), the set of revisions that last set it: the input
    of mark-merge.  This file models [marking], [marking_map] and the functions
    that compute the markings of a new revision from those of its parents.
    Sharing of marking objects between maps (copy-on-write) is not modelled. *)

From S2P Require Import Prelude Paths Roster.

Abbreviation revision_id := (list ascii) (only parsing).

Record marking := Marking {
  birth_revision : revision_id;
  parent_name : gset bytes;
  file_content : gset bytes;
  attr_marks : gmap bytes (gset bytes)
}.

#[export] Instance marking_eq_dec : EqDecision marking.
Proof. solve_decision. Defined.

Definition empty_marking : marking := Marking [] ∅ ∅ ∅.

(** ** [marking_map] *)

Abbreviation marking_map := (gmap Z marking).

Definition get_marking (mm : marking_map) (nid : node_id) : result marking :=
  of_option (mm !! nid).
Definition contains (mm : marking_map) (nid : node_id) : bool :=
  bool_decide (is_Some (mm !! nid)).
Definition put_marking (mm : marking_map) (nid : node_id) (m : marking) : result marking_map :=
  I_ (bool_decide (mm !! nid = None)) ;; Ok (<[nid := m]> mm).
Definition put_or_replace_marking (mm : marking_map) (nid : node_id) (m : marking) :
    marking_map := <[nid := m]> mm.
Definition remove_marking (mm : marking_map) (nid : node_id) : result marking_map :=
  let mm' := delete nid mm in
  I_ (Z.of_nat (size mm') =? Z.of_nat (size mm) - 1) ;; Ok mm'.

Lemma remove_marking_Ok mm nid m :
  mm !! nid = Some m → remove_marking mm nid = Ok (delete nid mm).
Proof.
  intros Hm. unfold remove_marking.
  rewrite map_size_delete_Some by eauto.
  assert (size mm ≠ 0%nat) by (apply map_size_ne_0_lookup; eauto).
  destruct (size mm) as [|k]; [done|]. simpl pred.
  by rewrite (proj2 (Z.eqb_eq _ _)) by lia.
Qed.

Lemma remove_loop l (mm : marking_map) :
  NoDup l → (∀ x, x ∈ l → is_Some (mm !! x)) →
  ∃ mm', foldM remove_marking l mm = Ok mm' ∧
    ∀ i, mm' !! i = if decide (i ∈ l) then None else mm !! i.
Proof.
  intros Hnd. revert mm. induction Hnd as [|x l Hx Hnd IH]; intros mm Hl.
  - exists mm. split; [done|]. intros i. by rewrite decide_False by apply not_elem_of_nil.
  - destruct (Hl x) as [m Hm]; [by left|]. cbn [foldM]. rewrite (remove_marking_Ok _ _ _ Hm).
    cbn [mbind result_bind]. destruct (IH (delete x mm)) as (mm' & -> & H).
    { intros y Hy. rewrite lookup_delete_ne by (intros ->; done). apply Hl. by right. }
    exists mm'. split; [done|]. intros i. rewrite H.
    destruct (decide (i = x)) as [->|Hne].
    + rewrite (decide_True (P := x ∈ x :: l)), lookup_delete_eq by left. by case_decide.
    + rewrite lookup_delete_ne by done. apply decide_ext. rewrite elem_of_cons. tauto.
Qed.

(** ** Marking one scalar *)

Section scalars.
Context {T : Type} `{!EqDecision T}.

Definition mark_unmerged_scalar (parent_marks : gset bytes) (parent_val : T)
    (new_rid : revision_id) (new_val : T) (new_marks : gset bytes) : result (gset bytes) :=
  I_ (bool_decide (new_marks = ∅)) ;;
  if decide (parent_val = new_val) then Ok parent_marks else Ok ({[new_rid]} ∪ new_marks).

(** The loop over [a_marks], with its early return. *)
Fixpoint won_loop (l : list bytes) (a_uncommon_ancestors b1_marks : gset bytes)
    (new_rid : revision_id) : gset bytes :=
  match l with
  | [] => b1_marks
  | i :: l =>
      if decide (i ∈ a_uncommon_ancestors) then {[new_rid]}
      else won_loop l a_uncommon_ancestors b1_marks new_rid
  end.

Definition mark_won_merge (a_marks a_uncommon_ancestors b1_marks : gset bytes)
    (new_rid : revision_id) : gset bytes :=
  won_loop (set_iter a_marks) a_uncommon_ancestors b1_marks new_rid.

Definition mark_merged_scalar (left_marks left_uncommon_ancestors : gset bytes) (left_val : T)
    (right_marks right_uncommon_ancestors : gset bytes) (right_val : T)
    (new_rid : revision_id) (new_val : T) (new_marks : gset bytes) : result (gset bytes) :=
  I_ (bool_decide (new_marks = ∅)) ;;
  let diff_from_left := negb (bool_decide (new_val = left_val)) in
  let diff_from_right := negb (bool_decide (new_val = right_val)) in
  I_ (forallb (λ i, bool_decide (i ∉ right_uncommon_ancestors)) (set_iter left_marks)) ;;
  I_ (forallb (λ i, bool_decide (i ∉ left_uncommon_ancestors)) (set_iter right_marks)) ;;
  if diff_from_left && diff_from_right then Ok ({[new_rid]} ∪ new_marks)
  else if diff_from_left && negb diff_from_right then
    Ok (mark_won_merge left_marks left_uncommon_ancestors right_marks new_rid)
  else if negb diff_from_left && diff_from_right then
    Ok (mark_won_merge right_marks right_uncommon_ancestors left_marks new_rid)
  else Ok (left_marks ∪ right_marks).
End scalars.

(** ** Marking one node *)

Definition location_of (n : node) : node_id * path_component := (parent n, name n).

Definition mark_new_node (new_rid : revision_id) (n : node) (mm : marking_map) :
    result marking_map :=
  put_marking mm (self n)
    (Marking new_rid {[new_rid]} (if is_file_t n then {[new_rid]} else ∅)
       ((λ _, {[new_rid]}) <$> attrs n)).

(** [for] loop over the attributes of the new node, filling the [attrs] of the
    new marking. *)
Definition mark_attrs (f : bytes → bool * bytes → result (gset bytes)) (n : node) :
    result (gmap bytes (gset bytes)) :=
  foldM (λ acc i, s ← f i.1 i.2; Ok (<[i.1 := s]> acc)) (map_iter (attrs n)) ∅.

Definition unmerged_attr (parent_marking : marking) (parent_n : node) (new_rid : revision_id)
    (k : bytes) (v : bool * bytes) : result (gset bytes) :=
  match attrs parent_n !! k with
  | None => Ok {[new_rid]}
  | Some v' => ms ← safe_get (attr_marks parent_marking) k;
               mark_unmerged_scalar ms v' new_rid v ∅
  end.

Definition mark_unmerged_node (parent_marking : marking) (parent_n : node)
    (new_rid : revision_id) (n : node) (mm : marking_map) : result marking_map :=
  eq ← shallow_equal n parent_n true true;
  if eq : bool then
    if contains mm (self n) then Ok mm else put_marking mm (self n) parent_marking
  else
    I_ (same_type parent_n n && (self parent_n =? self n)) ;;
    pn ← mark_unmerged_scalar (parent_name parent_marking) (location_of parent_n)
           new_rid (location_of n) ∅;
    fc ← (if is_file_t n then
            c0 ← downcast_to_file_t parent_n;
            c ← downcast_to_file_t n;
            mark_unmerged_scalar (file_content parent_marking) c0 new_rid c ∅
          else Ok ∅);
    am ← mark_attrs (unmerged_attr parent_marking parent_n new_rid) n;
    Ok (put_or_replace_marking mm (self n)
          (Marking (birth_revision parent_marking) pn fc am)).

Definition merged_attr (left_marking : marking) (left_uncommon : gset bytes) (ln : node)
    (right_marking : marking) (right_uncommon : gset bytes) (rn : node)
    (new_rid : revision_id) (k : bytes) (v : bool * bytes) : result (gset bytes) :=
  match attrs ln !! k, attrs rn !! k with
  | None, None => safe_insert_set ∅ new_rid
  | Some lv, None => ms ← safe_get (attr_marks left_marking) k;
                     mark_unmerged_scalar ms lv new_rid v ∅
  | None, Some rv => ms ← safe_get (attr_marks right_marking) k;
                     mark_unmerged_scalar ms rv new_rid v ∅
  | Some lv, Some rv =>
      lms ← safe_get (attr_marks left_marking) k;
      rms ← safe_get (attr_marks right_marking) k;
      mark_merged_scalar lms left_uncommon lv rms right_uncommon rv new_rid v ∅
  end.

Definition keeps_attrs (old n : node) : bool :=
  forallb (λ i, bool_decide (is_Some (attrs n !! i.1))) (map_iter (attrs old)).

Definition mark_merged_node (left_marking : marking) (left_uncommon : gset bytes) (ln : node)
    (right_marking : marking) (right_uncommon : gset bytes) (rn : node)
    (new_rid : revision_id) (n : node) (mm : marking_map) : result marking_map :=
  eq1 ← shallow_equal ln rn true true;
  eq2 ← (if eq1 : bool then shallow_equal ln n true true else Ok false);
  if (eq2 : bool) && bool_decide (left_marking = right_marking) then Ok mm
  else
    I_ (same_type ln n && same_type rn n) ;;
    I_ (bool_decide (birth_revision left_marking = birth_revision right_marking)) ;;
    old ← get_marking mm (self n);
    pn ← mark_merged_scalar (parent_name left_marking) left_uncommon (location_of ln)
           (parent_name right_marking) right_uncommon (location_of rn)
           new_rid (location_of n) ∅;
    fc ← (if is_file_t n then
            f ← downcast_to_file_t n;
            lf ← downcast_to_file_t ln;
            rf ← downcast_to_file_t rn;
            mark_merged_scalar (file_content left_marking) left_uncommon lf
              (file_content right_marking) right_uncommon rf new_rid f ∅
          else Ok (file_content old));
    am ← mark_attrs (merged_attr left_marking left_uncommon ln right_marking right_uncommon rn new_rid) n;
    I_ (keeps_attrs ln n) ;;
    I_ (keeps_attrs rn n) ;;
    Ok (<[self n := Marking (birth_revision left_marking) pn fc am]> mm).

(** ** Markings that outlived their node *)

Fixpoint extra_loop (mi ri : list Z) (to_drop : gset Z) : result (gset Z) :=
  match mi with
  | [] => Ok to_drop
  | k :: mi =>
      match ri with
      | [] => extra_loop mi [] ({[k]} ∪ to_drop)
      | r :: ri' =>
          let ri := if r <? k then ri' else ri in
          I_ (match ri with [] => true | r :: _ => k <=? r end) ;;
          extra_loop mi ri
            (if match ri with [] => true | r :: _ => k <? r end then {[k]} ∪ to_drop else to_drop)
      end
  end.

Definition drop_extra_markings (ros : roster) (mm : marking_map) : result marking_map :=
  mm ← (if (size (nodes ros) <? size mm)%nat then
          to_drop ← extra_loop (map_iter mm).*1 (map_iter (nodes ros)).*1 ∅;
          foldM remove_marking (set_iter to_drop) mm
        else Ok mm);
  I_ (size mm =? size (nodes ros))%nat ;;
  Ok mm.

(** ** [mark_merge_roster] *)

(** Two's-complement [int] arithmetic. *)
Definition int32 (z : Z) : Z := (z + 2 ^ 31) mod 2 ^ 32 - 2 ^ 31.

Definition closest_markings (left_markings right_markings : marking_map) (merge : roster) :
    marking_map :=
  let left_err := int32 (Z.of_nat (size left_markings) - Z.of_nat (size (nodes merge))) in
  let right_err := int32 (Z.of_nat (size right_markings) - Z.of_nat (size (nodes merge))) in
  if int32 (right_err * right_err) <? int32 (left_err * left_err)
  then right_markings else left_markings.

Definition mark_merge_node (left_roster : roster) (left_markings : marking_map)
    (left_uncommon : gset bytes) (right_roster : roster) (right_markings : marking_map)
    (right_uncommon : gset bytes) (new_rid : revision_id) (mm : marking_map)
    (i : Z * node) : result marking_map :=
  let n := i.2 in
  match nodes left_roster !! i.1, nodes right_roster !! i.1 with
  | None, None => mark_new_node new_rid n mm
  | None, Some right_node =>
      right_marking ← get_marking right_markings (self n);
      I_ (bool_decide (birth_revision right_marking ∈ right_uncommon)) ;;
      mark_unmerged_node right_marking right_node new_rid n mm
  | Some left_node, None =>
      left_marking ← get_marking left_markings (self n);
      I_ (bool_decide (birth_revision left_marking ∈ left_uncommon)) ;;
      mark_unmerged_node left_marking left_node new_rid n mm
  | Some left_node, Some right_node =>
      left_marking ← get_marking left_markings (self n);
      right_marking ← get_marking right_markings (self n);
      mark_merged_node left_marking left_uncommon left_node
        right_marking right_uncommon right_node new_rid n mm
  end.

Definition mark_merge_roster (left_roster : roster) (left_markings : marking_map)
    (left_uncommon : gset bytes) (right_roster : roster) (right_markings : marking_map)
    (right_uncommon : gset bytes) (new_rid : revision_id) (merge : roster) : result marking_map :=
  mm ← foldM (mark_merge_node left_roster left_markings left_uncommon
                right_roster right_markings right_uncommon new_rid)
         (map_iter (nodes merge)) (closest_markings left_markings right_markings merge);
  drop_extra_markings merge mm.
