(* ===== verification/MarkingSpec.v ===== *)
(** * Mark-merge, specified node by node

    [mark_merge_roster] copies one parent's markings, skips nodes that look
    unchanged, updates the rest in place and drops what is left over.  Here it
    is shown to compute, for every node of the merged roster and nothing else,
    the marking a direct definition gives; and that the two parents are
    treated alike. *)

From S2P Require Import Prelude Paths Roster Marking.

(** ** The reference definition *)

Section spec_scalars.
Context {T : Type} `{!EqDecision T}.

(** One parent: the old marks if the value is unchanged. *)
Definition unmerged_marks (ms : gset bytes) (old : T) (rid : bytes) (v : T) : gset bytes :=
  if decide (old = v) then ms else {[rid]}.

(** Two parents: both changed, one won, or both agree. *)
Definition merged_marks (lm lu : gset bytes) (lv : T) (rm ru : gset bytes) (rv : T)
    (rid : bytes) (v : T) : gset bytes :=
  if decide (v = lv) then
    if decide (v = rv) then lm ∪ rm
    else if decide (rm ## ru) then lm else {[rid]}
  else
    if decide (v = rv) then (if decide (lm ## lu) then rm else {[rid]}) else {[rid]}.

(** No mark of one side is an uncommon ancestor of the other. *)
Definition marks_sane (lm lu rm ru : gset bytes) : Prop := lm ## ru ∧ rm ## lu.

Lemma mark_unmerged_scalar_eq ms old rid v :
  mark_unmerged_scalar ms old rid v ∅ = Ok (unmerged_marks ms old rid v).
Proof.
  unfold mark_unmerged_scalar, unmerged_marks. rewrite bool_decide_true by done. simpl.
  case_decide; [done|]. by rewrite (right_id_L ∅ (∪)).
Qed.

Lemma won_loop_eq l unc b rid :
  won_loop l unc b rid = if decide (Forall (λ x, x ∉ unc) l) then b else {[rid]}.
Proof.
  induction l as [|x l IH]; cbn [won_loop].
  - by rewrite decide_True by constructor.
  - destruct (decide (x ∈ unc)) as [Hx|Hx].
    + rewrite decide_False; [done|]. by rewrite Forall_cons; intros [? _].
    + rewrite IH. apply decide_ext. rewrite Forall_cons. tauto.
Qed.

Lemma mark_won_merge_eq a unc b rid :
  mark_won_merge a unc b rid = if decide (a ## unc) then b else {[rid]}.
Proof.
  unfold mark_won_merge. rewrite won_loop_eq. apply decide_ext. rewrite Forall_forall.
  setoid_rewrite elem_of_set_iter. set_solver.
Qed.

Lemma forallb_disjoint (a u : gset bytes) :
  forallb (λ i, bool_decide (i ∉ u)) (set_iter a) = true ↔ a ## u.
Proof.
  rewrite forallb_forall. setoid_rewrite <- list_elem_of_In. setoid_rewrite elem_of_set_iter.
  setoid_rewrite bool_decide_eq_true. set_solver.
Qed.

Lemma mark_merged_scalar_eq lm lu lv rm ru rv rid v ms :
  mark_merged_scalar lm lu lv rm ru rv rid v ∅ = Ok ms ↔
  marks_sane lm lu rm ru ∧ ms = merged_marks lm lu lv rm ru rv rid v.
Proof.
  unfold mark_merged_scalar, marks_sane. rewrite <- !forallb_disjoint.
  rewrite (bool_decide_true ((∅ : gset bytes) = ∅)) by done. simpl.
  destruct (forallb _ (set_iter lm)); simpl; [|naive_solver].
  destruct (forallb _ (set_iter rm)); simpl; [|naive_solver].
  unfold merged_marks. rewrite <- !mark_won_merge_eq.
  destruct (decide (v = lv)) as [Hl|Hl];
    [rewrite (bool_decide_true (v = lv)) by done | rewrite (bool_decide_false (v = lv)) by done];
  (destruct (decide (v = rv)) as [Hr|Hr];
    [rewrite (bool_decide_true (v = rv)) by done | rewrite (bool_decide_false (v = rv)) by done]);
  simpl; rewrite ?(right_id_L ∅ (∪)); naive_solver.
Qed.

Lemma merged_marks_sym lm lu lv rm ru rv rid v :
  merged_marks lm lu lv rm ru rv rid v = merged_marks rm ru rv lm lu lv rid v.
Proof. unfold merged_marks. repeat case_decide; try done. by rewrite (comm_L (∪)). Qed.

Lemma marks_sane_sym lm lu rm ru : marks_sane lm lu rm ru ↔ marks_sane rm ru lm lu.
Proof. unfold marks_sane. tauto. Qed.
End spec_scalars.

Definition content_of (n : node) : bytes := match body n with FileBody c => c | DirBody _ => [] end.
Definition attr_mark (m : marking) (k : bytes) : gset bytes := default ∅ (attr_marks m !! k).

Definition new_marking (rid : bytes) (n : node) : marking :=
  Marking rid {[rid]} (if is_file_t n then {[rid]} else ∅) ((λ _, {[rid]}) <$> attrs n).

Definition unmerged_attr_marks (pm : marking) (pn : node) (rid k : bytes) (v : bool * bytes) :=
  match attrs pn !! k with
  | None => {[rid]}
  | Some v' => unmerged_marks (attr_mark pm k) v' rid v
  end.

Definition unmerged_marking (pm : marking) (pn : node) (rid : bytes) (n : node) : marking :=
  Marking (birth_revision pm)
    (unmerged_marks (parent_name pm) (location_of pn) rid (location_of n))
    (if is_file_t n then unmerged_marks (file_content pm) (content_of pn) rid (content_of n) else ∅)
    (map_imap (λ k v, Some (unmerged_attr_marks pm pn rid k v)) (attrs n)).

Definition merged_attr_marks (lm : marking) (lu : gset bytes) (ln : node) (rm : marking)
    (ru : gset bytes) (rn : node) (rid k : bytes) (v : bool * bytes) : gset bytes :=
  match attrs ln !! k, attrs rn !! k with
  | None, None => {[rid]}
  | Some lv, None => unmerged_marks (attr_mark lm k) lv rid v
  | None, Some rv => unmerged_marks (attr_mark rm k) rv rid v
  | Some lv, Some rv => merged_marks (attr_mark lm k) lu lv (attr_mark rm k) ru rv rid v
  end.

Definition merged_marking (lm : marking) (lu : gset bytes) (ln : node) (rm : marking)
    (ru : gset bytes) (rn : node) (rid : bytes) (n : node) : marking :=
  Marking (birth_revision lm)
    (merged_marks (parent_name lm) lu (location_of ln) (parent_name rm) ru (location_of rn)
       rid (location_of n))
    (if is_file_t n then
       merged_marks (file_content lm) lu (content_of ln) (file_content rm) ru (content_of rn)
         rid (content_of n)
     else ∅)
    (map_imap (λ k v, Some (merged_attr_marks lm lu ln rm ru rn rid k v)) (attrs n)).

(** A marking fits its node: what [check_sane_against] asks for. *)
Definition marking_fits (n : node) (m : marking) : Prop :=
  dom (attr_marks m) = dom (attrs n) ∧ (is_file_t n = false → file_content m = ∅).

Definition markings_fit (r : roster) (mm : marking_map) : Prop :=
  dom mm = dom (nodes r) ∧
  (∀ i n, nodes r !! i = Some n → self n = i) ∧
  (∀ i n m, nodes r !! i = Some n → mm !! i = Some m → marking_fits n m).

(** ** The attribute loops *)

Lemma mark_attrs_Ok f n am :
  mark_attrs f n = Ok am ↔
  ∃ g, (∀ k v, attrs n !! k = Some v → f k v = Ok (g k v)) ∧
    am = map_imap (λ k v, Some (g k v)) (attrs n).
Proof.
  unfold mark_attrs. split.
  - intros H.
    assert (∀ l acc, foldM (λ acc i, s ← f i.1 i.2; Ok (<[i.1 := s]> acc)) l acc = Ok am → NoDup l.*1 →
      (∀ k v, (k, v) ∈ l → ∃ s, f k v = Ok s ∧ am !! k = Some s) ∧
      (∀ k, k ∉ l.*1 → am !! k = acc !! k)) as Hloop.
    { clear H. induction l as [|[k v] l IH]; intros acc H Hnd.
      - simpl in H. injection H as ->. split; [by intros ? ? ?%not_elem_of_nil | done].
      - cbn [foldM fst snd] in H. inv_ok. rewrite fmap_cons in Hnd. apply NoDup_cons in Hnd as [Hk Hnd].
        subst v0. destruct (IH _ H Hnd) as [H1 H2]. split.
        + intros k' v' [[= -> ->]|Hin]%elem_of_cons; [|auto].
          eexists. split; [done|]. rewrite H2 by done. apply lookup_insert_eq.
        + intros k' [Hne Hnin]%not_elem_of_cons. rewrite H2 by done. by apply lookup_insert_ne. }
    destruct (Hloop _ _ H (NoDup_fst_map_iter _)) as [H1 H2].
    exists (λ k v, match f k v with Ok s => s | Err _ => ∅ end). split.
    + intros k v Hk. apply elem_of_map_iter in Hk. destruct (H1 k v Hk) as (s & -> & _). done.
    + apply map_eq. intros k. rewrite map_lookup_imap. destruct (attrs n !! k) as [v|] eqn:Hk; simpl.
      * apply elem_of_map_iter in Hk. destruct (H1 k v Hk) as (s & -> & ->). done.
      * rewrite H2; [done|]. intros ([k' v] & -> & Hin%elem_of_map_iter)%list_elem_of_fmap. simpl in *. congruence.
  - intros (g & Hg & ->).
    destruct (foldM_ok (λ l1 (acc : gmap bytes (gset bytes)), acc = list_to_map ((λ i, (i.1, g i.1 i.2)) <$> l1))
      (λ acc i, s ← f i.1 i.2; Ok (<[i.1 := s]> acc)) (map_iter (attrs n)) ∅) as (am & -> & ->).
    + done.
    + intros l1 [k v] l2 acc Hl ->. cbn [fst snd].
      assert ((k, v) ∈ map_iter (attrs n)) as Hin by (rewrite Hl; apply elem_of_app; right; by left).
      apply elem_of_map_iter in Hin. rewrite (Hg k v Hin). eexists. split; [done|].
      rewrite fmap_app. cbn [fmap list_fmap]. rewrite list_to_map_snoc; [done|].
      pose proof (NoDup_fst_map_iter (attrs n)) as Hnd. rewrite Hl, fmap_app, fmap_cons in Hnd.
      apply NoDup_app in Hnd as (_ & Hnd & _). rewrite <- list_fmap_compose. intros Hk.
      apply (Hnd k); [|by left]. exact Hk.
    + f_equal. apply map_eq. intros k. rewrite map_lookup_imap. apply option_eq. intros s.
      rewrite <- elem_of_list_to_map.
      2:{ rewrite <- list_fmap_compose. apply NoDup_fst_map_iter. }
      rewrite list_elem_of_fmap. split.
      * intros ([k' v] & [= -> ->] & Hin%elem_of_map_iter). by rewrite Hin.
      * intros H. destruct (attrs n !! k) as [v|] eqn:Hk; simpl in H; [|done]. injection H as <-.
        exists (k, v). split; [done|]. by apply elem_of_map_iter.
Qed.

(** ** Unchanged nodes: skipping them is harmless *)

Lemma fits_lookup n m k : marking_fits n m → is_Some (attr_marks m !! k) ↔ is_Some (attrs n !! k).
Proof. intros [Hd _]. rewrite <- !elem_of_dom, Hd. done. Qed.

Lemma fits_imap n m g :
  marking_fits n m → (∀ k v, attrs n !! k = Some v → g k v = attr_mark m k) →
  map_imap (λ k v, Some (g k v)) (attrs n) = attr_marks m.
Proof.
  intros Hf Hg. apply map_eq. intros k. rewrite map_lookup_imap.
  pose proof (fits_lookup n m k Hf) as Hk.
  destruct (attrs n !! k) as [v|] eqn:Hv; simpl.
  - rewrite (Hg k v Hv). unfold attr_mark. destruct (attr_marks m !! k); [done|].
    by destruct (proj2 Hk ltac:(eauto)).
  - destruct (attr_marks m !! k); [|done]. by destruct (proj1 Hk ltac:(eauto)).
Qed.

Lemma unmerged_same n m rid : marking_fits n m → unmerged_marking m n rid n = m.
Proof.
  intros Hf. unfold unmerged_marking.
  rewrite (fits_imap n m) by (done || (intros k v Hk; unfold unmerged_attr_marks, unmerged_marks;
    rewrite Hk; by rewrite decide_True)).
  unfold unmerged_marks. rewrite !decide_True by done. destruct Hf as [_ Hd].
  destruct (is_file_t n); [by destruct m|]. rewrite <- (Hd eq_refl). by destruct m.
Qed.

Lemma merged_same n m lu ru rid : marking_fits n m → merged_marking m lu n m ru n rid n = m.
Proof.
  intros Hf. unfold merged_marking.
  assert (∀ T `{EqDecision T} ms (v : T), merged_marks ms lu v ms ru v rid v = ms) as Hsame.
  { intros. unfold merged_marks. rewrite !decide_True by done. set_solver. }
  rewrite (fits_imap n m) by (done || (intros k v Hk; unfold merged_attr_marks; rewrite Hk; apply Hsame)).
  rewrite !Hsame. destruct Hf as [_ Hd].
  destruct (is_file_t n); [by destruct m|]. rewrite <- (Hd eq_refl). by destruct m.
Qed.

(** ** One node *)

Lemma safe_get_attr n m k v :
  marking_fits n m → attrs n !! k = Some v → safe_get (attr_marks m) k = Ok (attr_mark m k).
Proof.
  intros Hf Hk. unfold safe_get, attr_mark.
  destruct (proj2 (fits_lookup n m k Hf) ltac:(eauto)) as [s ->]. done.
Qed.

Lemma unmerged_attr_eq pm pn rid k v :
  marking_fits pn pm → unmerged_attr pm pn rid k v = Ok (unmerged_attr_marks pm pn rid k v).
Proof.
  intros Hf. unfold unmerged_attr, unmerged_attr_marks. destruct (attrs pn !! k) as [v'|] eqn:Hk; [|done].
  rewrite (safe_get_attr _ _ _ _ Hf Hk). simpl. apply mark_unmerged_scalar_eq.
Qed.

Lemma same_type_file a b : same_type a b = true → is_file_t a = is_file_t b.
Proof. apply Bool.eqb_prop. Qed.

Lemma downcast_content n : is_file_t n = true → downcast_to_file_t n = Ok (content_of n).
Proof. unfold is_file_t, downcast_to_file_t, content_of. by destruct (body n). Qed.

Lemma mark_unmerged_node_eq pm pn rid n mm mm' :
  marking_fits pn pm → self pn = self n → (contains mm (self n) = true → mm !! self n = Some pm) →
  mark_unmerged_node pm pn rid n mm = Ok mm' ↔
  (n = pn ∨ same_type pn n = true) ∧ mm' = <[self n := unmerged_marking pm pn rid n]> mm.
Proof.
  intros Hf Hself Hmm. unfold mark_unmerged_node. rewrite shallow_equal_full. simpl.
  case_bool_decide as Heq.
  - subst pn. rewrite unmerged_same by done. destruct (contains mm (self n)) eqn:Hc.
    + rewrite insert_id by auto. naive_solver.
    + unfold contains in Hc. apply bool_decide_eq_false in Hc. rewrite <- eq_None_not_Some in Hc.
      unfold put_marking. rewrite bool_decide_true by done. simpl. naive_solver.
  - rewrite Hself, Z.eqb_refl, andb_true_r.
    destruct (same_type pn n) eqn:Ht; simpl; [|naive_solver].
    rewrite mark_unmerged_scalar_eq. simpl. apply same_type_file in Ht.
    assert ((if is_file_t n then
        c0 ← downcast_to_file_t pn; c ← downcast_to_file_t n;
        mark_unmerged_scalar (file_content pm) c0 rid c ∅ else Ok ∅) =
      Ok (if is_file_t n then unmerged_marks (file_content pm) (content_of pn) rid (content_of n) else ∅)) as ->.
    { destruct (is_file_t n) eqn:Hfile; [|done]. rewrite !downcast_content by done. simpl.
      apply mark_unmerged_scalar_eq. }
    simpl.
    assert (mark_attrs (unmerged_attr pm pn rid) n =
      Ok (map_imap (λ k v, Some (unmerged_attr_marks pm pn rid k v)) (attrs n))) as ->.
    { apply mark_attrs_Ok. exists (unmerged_attr_marks pm pn rid). split; [|done].
      intros. by apply unmerged_attr_eq. }
    simpl. unfold put_or_replace_marking. fold (unmerged_marking pm pn rid n). naive_solver.
Qed.

(** What the sanity checks of [mark_merged_node] ask of a node in both parents. *)
Record merge_ok (lm : marking) (lu : gset bytes) (ln : node) (rm : marking) (ru : gset bytes)
    (rn : node) (n : node) : Prop := {
  mo_left : same_type ln n = true;
  mo_right : same_type rn n = true;
  mo_birth : birth_revision lm = birth_revision rm;
  mo_name : marks_sane (parent_name lm) lu (parent_name rm) ru;
  mo_content : is_file_t n = true → marks_sane (file_content lm) lu (file_content rm) ru;
  mo_attr k v lv rv :
    attrs n !! k = Some v → attrs ln !! k = Some lv → attrs rn !! k = Some rv →
    marks_sane (attr_mark lm k) lu (attr_mark rm k) ru;
  mo_left_attrs k : is_Some (attrs ln !! k) → is_Some (attrs n !! k);
  mo_right_attrs k : is_Some (attrs rn !! k) → is_Some (attrs n !! k)
}.

Lemma keeps_attrs_spec old n :
  keeps_attrs old n = true ↔ ∀ k, is_Some (attrs old !! k) → is_Some (attrs n !! k).
Proof.
  unfold keeps_attrs. rewrite forallb_forall. setoid_rewrite <- list_elem_of_In. split.
  - intros H k [v Hv]. apply elem_of_map_iter, H in Hv. by apply bool_decide_eq_true in Hv.
  - intros H [k v] Hin%elem_of_map_iter. apply bool_decide_eq_true. apply H. eauto.
Qed.

Section merged_node.
Context (lm : marking) (lu : gset bytes) (ln : node) (rm : marking) (ru : gset bytes) (rn : node).
Context (Hlf : marking_fits ln lm) (Hrf : marking_fits rn rm).

Lemma merged_attr_eq rid k v s :
  merged_attr lm lu ln rm ru rn rid k v = Ok s ↔
  (∀ lv rv, attrs ln !! k = Some lv → attrs rn !! k = Some rv →
     marks_sane (attr_mark lm k) lu (attr_mark rm k) ru) ∧
  s = merged_attr_marks lm lu ln rm ru rn rid k v.
Proof.
  unfold merged_attr, merged_attr_marks.
  destruct (attrs ln !! k) as [lv|] eqn:Hl, (attrs rn !! k) as [rv|] eqn:Hr;
    rewrite ?(safe_get_attr _ _ _ _ Hlf Hl), ?(safe_get_attr _ _ _ _ Hrf Hr); cbn [mbind result_bind].
  - rewrite mark_merged_scalar_eq. naive_solver.
  - rewrite mark_unmerged_scalar_eq. naive_solver.
  - rewrite mark_unmerged_scalar_eq. naive_solver.
  - rewrite safe_insert_set_fresh by set_solver. rewrite (right_id_L ∅ (∪)). naive_solver.
Qed.

Lemma merged_attrs_eq rid n am :
  mark_attrs (merged_attr lm lu ln rm ru rn rid) n = Ok am ↔
  (∀ k v lv rv, attrs n !! k = Some v → attrs ln !! k = Some lv → attrs rn !! k = Some rv →
     marks_sane (attr_mark lm k) lu (attr_mark rm k) ru) ∧
  am = map_imap (λ k v, Some (merged_attr_marks lm lu ln rm ru rn rid k v)) (attrs n).
Proof.
  rewrite mark_attrs_Ok. split.
  - intros (g & Hg & ->). split.
    + intros k v lv rv Hk Hl Hr. apply Hg in Hk. apply merged_attr_eq in Hk as [Hs _]. eauto.
    + apply map_eq. intros k. rewrite !map_lookup_imap.
      destruct (attrs n !! k) as [v|] eqn:Hk; [|done]. simpl. apply Hg in Hk.
      apply merged_attr_eq in Hk as [_ ->]. done.
  - intros [Hs ->]. exists (merged_attr_marks lm lu ln rm ru rn rid). split; [|done].
    intros k v Hk. apply merged_attr_eq. eauto.
Qed.

(** The content marks, for a file and for a directory. *)
Lemma merged_content_eq rid n old fc :
  is_file_t ln = is_file_t n → is_file_t rn = is_file_t n →
  (is_file_t n = false → file_content old = ∅) →
  (if is_file_t n then
     f ← downcast_to_file_t n; lf ← downcast_to_file_t ln; rf ← downcast_to_file_t rn;
     mark_merged_scalar (file_content lm) lu lf (file_content rm) ru rf rid f ∅
   else Ok (file_content old)) = Ok fc ↔
  (is_file_t n = true → marks_sane (file_content lm) lu (file_content rm) ru) ∧
  fc = if is_file_t n then
         merged_marks (file_content lm) lu (content_of ln) (file_content rm) ru (content_of rn)
           rid (content_of n)
       else ∅.
Proof.
  intros Hl Hr Hold. destruct (is_file_t n) eqn:Hfile.
  - rewrite !downcast_content by done. cbn [mbind result_bind].
    rewrite mark_merged_scalar_eq. naive_solver.
  - rewrite (Hold eq_refl). naive_solver.
Qed.

(** The full computation, after the shortcut. *)
Definition merge_body (rid : bytes) (n : node) (old : marking) (mm : marking_map) :
    result marking_map :=
  pn ← mark_merged_scalar (parent_name lm) lu (location_of ln) (parent_name rm) ru
         (location_of rn) rid (location_of n) ∅;
  fc ← (if is_file_t n then
     f ← downcast_to_file_t n; lf ← downcast_to_file_t ln; rf ← downcast_to_file_t rn;
     mark_merged_scalar (file_content lm) lu lf (file_content rm) ru rf rid f ∅
   else Ok (file_content old));
  am ← mark_attrs (merged_attr lm lu ln rm ru rn rid) n;
  I_ (keeps_attrs ln n) ;; I_ (keeps_attrs rn n) ;;
  Ok (<[self n := Marking (birth_revision lm) pn fc am]> mm).

Lemma merge_body_eq rid n old mm mm' :
  same_type ln n = true → same_type rn n = true → birth_revision lm = birth_revision rm →
  (is_file_t n = false → file_content old = ∅) →
  merge_body rid n old mm = Ok mm' ↔
  merge_ok lm lu ln rm ru rn n ∧ mm' = <[self n := merged_marking lm lu ln rm ru rn rid n]> mm.
Proof.
  intros Htl Htr Hb Hold. pose proof (same_type_file _ _ Htl) as Hl.
  pose proof (same_type_file _ _ Htr) as Hr. unfold merge_body. split.
  - intros H. inv_ok. apply mark_merged_scalar_eq in E as [Hname ->].
    apply merged_content_eq in E0 as [Hcont ->]; [|done..].
    apply merged_attrs_eq in E1 as [Hattr ->].
    rewrite keeps_attrs_spec in E2, E3. subst. split; [by split|done].
  - intros [[? ? ? Hname Hcont Hattr Hla Hra] ->].
    rewrite (proj2 (mark_merged_scalar_eq _ _ _ _ _ _ _ _ _) (conj Hname eq_refl)). cbn [mbind result_bind].
    rewrite (proj2 (merged_content_eq rid n old _ Hl Hr Hold) (conj Hcont eq_refl)). cbn [mbind result_bind].
    rewrite (proj2 (merged_attrs_eq _ _ _) (conj Hattr eq_refl)). cbn [mbind result_bind].
    rewrite (proj2 (keeps_attrs_spec ln n) Hla), (proj2 (keeps_attrs_spec rn n) Hra). done.
Qed.

Lemma mark_merged_node_eq rid n mm mm' :
  mm !! self n = Some lm ∨ mm !! self n = Some rm →
  mark_merged_node lm lu ln rm ru rn rid n mm = Ok mm' ↔
  ((ln = n ∧ rn = n ∧ lm = rm) ∨ merge_ok lm lu ln rm ru rn n) ∧
  mm' = <[self n := merged_marking lm lu ln rm ru rn rid n]> mm.
Proof.
  intros Hmm. unfold mark_merged_node. rewrite !shallow_equal_full. cbn [mbind result_bind].
  assert ((if bool_decide (ln = rn) then Ok (bool_decide (ln = n)) else Ok false) =
    Ok (bool_decide (ln = rn ∧ ln = n))) as ->.
  { repeat case_bool_decide; naive_solver. }
  cbn [mbind result_bind].
  destruct (bool_decide (ln = rn ∧ ln = n) && bool_decide (lm = rm)) eqn:Hskip.
  - apply andb_true_iff in Hskip as [[E1 E2]%bool_decide_eq_true E3%bool_decide_eq_true].
    rewrite <- E1, <- E2, <- E3. rewrite merged_same by done.
    rewrite <- E2, <- E3 in Hmm. rewrite insert_id by tauto. split; [|naive_solver].
    intros [= ->]. naive_solver.
  - assert (¬ (ln = n ∧ rn = n ∧ lm = rm)) as Hns.
    { intros (E1 & E2 & E3). apply andb_false_iff in Hskip as [H|H];
        apply bool_decide_eq_false in H; apply H; [split; congruence | done]. }
    clear Hskip.
    destruct (same_type ln n) eqn:Htl; [|split; [done|]; intros [[?|[]] _]; [done|congruence]].
    destruct (same_type rn n) eqn:Htr; [|split; [done|]; intros [[?|[]] _]; [done|congruence]].
    cbn [andb I_ mbind result_bind].
    case_bool_decide as Hb; [|split; [done|]; intros [[?|[]] _]; [done|congruence]].
    cbn [I_ mbind result_bind].
    assert (∃ old, get_marking mm (self n) = Ok old ∧ (is_file_t n = false → file_content old = ∅))
      as (old & -> & Hold).
    { unfold get_marking. apply same_type_file in Htl, Htr.
      destruct Hmm as [-> | ->]; eexists; (split; [done|]); intros Hd;
        [apply (proj2 Hlf) | apply (proj2 Hrf)]; congruence. }
    cbn [mbind result_bind]. etrans; [apply (merge_body_eq rid n old mm mm'); done|]. tauto.
Qed.
End merged_node.

(** ** [drop_extra_markings] *)

(** Where [ri] stands once it has caught up with the key [k]. *)
Lemma extra_advance k mi r ri :
  (∀ x, x ∈ mi → k < x) → StronglySorted Z.lt (r :: ri) →
  (∀ x, x ∈ r :: ri → x ∈ k :: mi ∨ (Some r = Some x ∧ ∀ j, j ∈ k :: mi → x < j)) →
  let ri2 := if r <? k then ri else r :: ri in
  StronglySorted Z.lt ri2 ∧ (∀ x, x ∈ ri2 → x ∈ k :: mi) ∧
  (∀ x, x ∈ k :: mi → x ∈ ri2 ↔ x ∈ r :: ri).
Proof.
  intros Hk Hs Hsub. pose proof Hs as [Hri Hr]%StronglySorted_inv. rewrite Forall_forall in Hr.
  cbv zeta. destruct (r <? k) eqn:Erk; (split; [done|]); (split; [|try done]).
  - intros x Hx. destruct (Hsub x) as [?|[[= ->] _]]; [by right|done|]. specialize (Hr x Hx). lia.
  - intros x Hx. rewrite (elem_of_cons ri). split; [by right|]. intros [->|?]; [|done].
    apply elem_of_cons in Hx as [->|Hx]; [lia|]. specialize (Hk r Hx). lia.
  - intros x Hx. destruct (Hsub x Hx) as [?|[[= ->] Hlt]]; [done|].
    specialize (Hlt k ltac:(by left)). lia.
Qed.

(** What the head of [ri] then says about [k]. *)
Lemma extra_head k mi ri :
  (∀ x, x ∈ mi → k < x) → StronglySorted Z.lt ri → (∀ x, x ∈ ri → x ∈ k :: mi) →
  match ri with [] => true | r :: _ => k <=? r end = true ∧
  (match ri with [] => true | r :: _ => k <? r end = true ↔ k ∉ ri) ∧
  (∀ x, x ∈ ri → x ∈ mi ∨ (head ri = Some x ∧ ∀ j, j ∈ mi → x < j)).
Proof.
  intros Hk Hs Hsub. destruct ri as [|r ri].
  { split_and!; [done| |by intros ? ?%not_elem_of_nil].
    split; [by intros _ ?%not_elem_of_nil | done]. }
  apply StronglySorted_inv in Hs as [_ Hr]. rewrite Forall_forall in Hr.
  assert (r = k ∨ r ∈ mi ∧ k < r) as Hin.
  { pose proof (Hsub r ltac:(by left)) as Hin. apply elem_of_cons in Hin as [?|?]; auto. }
  split_and!; [lia| |].
  - rewrite elem_of_cons. split.
    + intros Hlt [->|Hk']; [lia|]. specialize (Hr k Hk'). lia.
    + intros Hn. destruct Hin as [->|?]; [naive_solver|lia].
  - intros x Hx. pose proof (Hsub x Hx) as Hxk. apply elem_of_cons in Hxk as [->|?]; [right|by left].
    apply elem_of_cons in Hx as [->|Hx]; [done|]. specialize (Hr k Hx). lia.
Qed.

(** The loop collects the marked ids that are not nodes. *)
Lemma extra_loop_spec mi ri acc :
  StronglySorted Z.lt mi → StronglySorted Z.lt ri →
  (∀ r, r ∈ ri → r ∈ mi ∨ (head ri = Some r ∧ ∀ k, k ∈ mi → r < k)) →
  ∃ D, extra_loop mi ri acc = Ok D ∧ ∀ k, k ∈ D ↔ k ∈ acc ∨ (k ∈ mi ∧ k ∉ ri).
Proof.
  intros Hmi. revert ri acc. induction Hmi as [|k mi Hmi IH Hk]; intros ri acc Hri Hsub.
  - exists acc. split; [done|]. set_solver.
  - rewrite Forall_forall in Hk. destruct ri as [|r ri]; cbn [extra_loop].
    + destruct (IH [] ({[k]} ∪ acc)) as (D & -> & HD);
        [constructor|by intros ? ?%not_elem_of_nil|].
      exists D. split; [done|]. intros x. rewrite HD. set_solver.
    + destruct (extra_advance k mi r ri Hk Hri Hsub) as (Hs2 & Hsub2 & Hsame).
      set (ri2 := if r <? k then ri else r :: ri) in *.
      destruct (extra_head k mi ri2 Hk Hs2 Hsub2) as (-> & Hdrop & Hnext).
      cbn [I_ mbind result_bind]. edestruct (IH ri2) as (D & -> & HD); [done..|].
      exists D. split; [done|]. intros x. rewrite HD.
      assert (∀ y, y ∈ mi → y ∉ ri2 ↔ y ∉ r :: ri) as Hmi2
        by (intros y Hy; rewrite (Hsame y ltac:(by right)); done).
      rewrite (Hsame k ltac:(by left)) in Hdrop. rewrite elem_of_cons.
      destruct (match ri2 with [] => true | r :: _ => k <? r end).
      * rewrite elem_of_union, elem_of_singleton. specialize (Hmi2 x).
        destruct (decide (x = k)) as [->|]; [assert (k ∉ r :: ri) by (by apply Hdrop)|]; tauto.
      * specialize (Hmi2 x). destruct (decide (x = k)) as [->|]; [|tauto].
        assert (¬ (k ∉ r :: ri)) as Hn by (rewrite <- Hdrop; done).
        assert (k ∉ mi) by (intros Hin; specialize (Hk k Hin); lia). tauto.
Qed.

Lemma Z_keys_sorted {V} (m : gmap Z V) : StronglySorted Z.lt (map_iter m).*1.
Proof.
  pose proof (map_keys_sorted m) as Hs. induction Hs as [|x l _ IH Hx]; constructor; [done|].
  eapply Forall_impl; [exact Hx|]. intros y. by apply Z.ltb_lt.
Qed.

Lemma elem_of_Z_keys {V} (m : gmap Z V) k : k ∈ (map_iter m).*1 ↔ k ∈ dom m.
Proof.
  rewrite list_elem_of_fmap, elem_of_dom. split.
  - intros ([k' v] & -> & Hin%elem_of_map_iter). by exists v.
  - intros [v Hv]. exists (k, v). split; [done|]. by apply elem_of_map_iter.
Qed.

(** The markings of [mm] for the nodes of [r]. *)
Definition restrict_markings (r : roster) (mm : marking_map) : marking_map :=
  filter (λ p, p.1 ∈ dom (nodes r)) mm.

Lemma lookup_restrict r mm i :
  restrict_markings r mm !! i = if decide (i ∈ dom (nodes r)) then mm !! i else None.
Proof.
  unfold restrict_markings. apply option_eq. intros m. rewrite map_lookup_filter_Some. simpl.
  case_decide; naive_solver.
Qed.

Lemma drop_extra_markings_eq ros mm :
  dom (nodes ros) ⊆ dom mm → drop_extra_markings ros mm = Ok (restrict_markings ros mm).
Proof.
  intros Hsub.
  assert (size (restrict_markings ros mm) = size (nodes ros)) as Hsize.
  { rewrite <- !size_dom. f_equal. apply set_eq. intros i.
    rewrite elem_of_dom, lookup_restrict. case_decide as Hi; [|split; [by intros []|done]].
    split; [done|]. intros _. apply elem_of_dom. set_solver. }
  unfold drop_extra_markings. destruct (Nat.ltb_spec (size (nodes ros)) (size mm)) as [Hlt|Hge].
  - destruct (extra_loop_spec (map_iter mm).*1 (map_iter (nodes ros)).*1 ∅) as (D & -> & HD).
    { apply Z_keys_sorted. } { apply Z_keys_sorted. }
    { intros r Hr. left. rewrite elem_of_Z_keys in Hr. apply elem_of_Z_keys. by apply Hsub. }
    cbn [mbind result_bind].
    assert (∀ k, k ∈ D ↔ k ∈ dom mm ∧ k ∉ dom (nodes ros)) as HD'.
    { intros k. rewrite HD, !elem_of_Z_keys. rewrite elem_of_empty. tauto. }
    destruct (remove_loop (set_iter D) mm) as (mm' & -> & Hmm').
    { apply NoDup_set_iter. }
    { intros k Hk. rewrite elem_of_set_iter in Hk. apply elem_of_dom. by apply HD' in Hk as [? _]. }
    cbn [mbind result_bind].
    assert (mm' = restrict_markings ros mm) as ->.
    { apply map_eq. intros i. rewrite Hmm', lookup_restrict.
      destruct (decide (i ∈ set_iter D)) as [Hi|Hi]; rewrite elem_of_set_iter, HD' in Hi.
      - by rewrite decide_False by tauto.
      - case_decide as Hn; [done|]. apply not_elem_of_dom. tauto. }
    by rewrite Hsize, Nat.eqb_refl.
  - cbn [mbind result_bind].
    assert (dom mm = dom (nodes ros)) as Hdom.
    { symmetry. apply set_subseteq_size_eq; [done|]. by rewrite !size_dom. }
    assert (restrict_markings ros mm = mm) as Hid.
    { apply map_eq. intros i. rewrite lookup_restrict. case_decide as Hi; [done|].
      symmetry. apply not_elem_of_dom. by rewrite Hdom. }
    rewrite <- Hsize, Hid, Nat.eqb_refl. done.
Qed.

(** ** The whole roster *)

Section merge.
Context (L : roster) (LM : marking_map) (lu : gset bytes).
Context (R : roster) (RM : marking_map) (ru : gset bytes) (rid : bytes).

Definition marking_at (mm : marking_map) (i : Z) : marking := default empty_marking (mm !! i).

(** The marking of node [n] in the merge. *)
Definition node_marking (i : Z) (n : node) : marking :=
  match nodes L !! i, nodes R !! i with
  | None, None => new_marking rid n
  | None, Some rn => unmerged_marking (marking_at RM i) rn rid n
  | Some ln, None => unmerged_marking (marking_at LM i) ln rid n
  | Some ln, Some rn => merged_marking (marking_at LM i) lu ln (marking_at RM i) ru rn rid n
  end.

(** What the ancestry invariants ask of it. *)
Definition node_mergeable (i : Z) (n : node) : Prop :=
  match nodes L !! i, nodes R !! i with
  | None, None => True
  | None, Some rn =>
      birth_revision (marking_at RM i) ∈ ru ∧ (n = rn ∨ same_type rn n = true)
  | Some ln, None =>
      birth_revision (marking_at LM i) ∈ lu ∧ (n = ln ∨ same_type ln n = true)
  | Some ln, Some rn =>
      (ln = n ∧ rn = n ∧ marking_at LM i = marking_at RM i) ∨
      merge_ok (marking_at LM i) lu ln (marking_at RM i) ru rn n
  end.

Context (HL : markings_fit L LM) (HR : markings_fit R RM).

Lemma fit_lookup r mm i n :
  markings_fit r mm → nodes r !! i = Some n →
  mm !! i = Some (marking_at mm i) ∧ marking_fits n (marking_at mm i) ∧ self n = i.
Proof.
  intros (Hdom & Hself & Hfit) Hn.
  assert (is_Some (mm !! i)) as [m Hm] by (apply elem_of_dom; rewrite Hdom; apply elem_of_dom; eauto).
  unfold marking_at. rewrite Hm. simpl. eauto.
Qed.

Lemma fit_none r mm i : markings_fit r mm → nodes r !! i = None → mm !! i = None.
Proof.
  intros (Hdom & _) Hn. apply not_elem_of_dom. rewrite Hdom. by apply not_elem_of_dom.
Qed.

Lemma contains_Some mm i : contains mm i = true → is_Some (mm !! i).
Proof. apply bool_decide_eq_true. Qed.

Lemma mark_merge_node_eq mm i n mm' :
  self n = i → mm !! i = LM !! i ∨ mm !! i = RM !! i →
  mark_merge_node L LM lu R RM ru rid mm (i, n) = Ok mm' ↔
  node_mergeable i n ∧ mm' = <[i := node_marking i n]> mm.
Proof.
  intros Hself Hmm. unfold mark_merge_node, node_mergeable, node_marking. cbn [fst snd].
  destruct (nodes L !! i) as [ln|] eqn:Hl, (nodes R !! i) as [rn|] eqn:Hr.
  - destruct (fit_lookup L LM i ln HL Hl) as (El & Fl & Sl).
    destruct (fit_lookup R RM i rn HR Hr) as (Er & Fr & Sr).
    unfold get_marking. rewrite Hself, El, Er. cbn [of_option mbind result_bind].
    rewrite (mark_merged_node_eq _ lu ln _ ru rn Fl Fr) by (rewrite Hself; destruct Hmm; [left|right]; congruence).
    by rewrite Hself.
  - destruct (fit_lookup L LM i ln HL Hl) as (El & Fl & Sl).
    pose proof (fit_none R RM i HR Hr) as Er.
    unfold get_marking. rewrite Hself, El. cbn [of_option mbind result_bind].
    case_bool_decide as Hb; cbn [I_ mbind result_bind]; [|naive_solver].
    rewrite mark_unmerged_node_eq; [|done|congruence|].
    + rewrite Hself. tauto.
    + rewrite Hself. intros [m Hm]%contains_Some. destruct Hmm; congruence.
  - destruct (fit_lookup R RM i rn HR Hr) as (Er & Fr & Sr).
    pose proof (fit_none L LM i HL Hl) as El.
    unfold get_marking. rewrite Hself, Er. cbn [of_option mbind result_bind].
    case_bool_decide as Hb; cbn [I_ mbind result_bind]; [|naive_solver].
    rewrite mark_unmerged_node_eq; [|done|congruence|].
    + rewrite Hself. tauto.
    + rewrite Hself. intros [m Hm]%contains_Some. destruct Hmm; congruence.
  - pose proof (fit_none L LM i HL Hl) as El. pose proof (fit_none R RM i HR Hr) as Er.
    unfold mark_new_node, put_marking. rewrite Hself, bool_decide_true by (destruct Hmm; congruence).
    cbn [I_ mbind result_bind]. unfold new_marking. naive_solver.
Qed.

Lemma merge_loop l mm mm' :
  NoDup l.*1 → (∀ i n, (i, n) ∈ l → self n = i ∧ (mm !! i = LM !! i ∨ mm !! i = RM !! i)) →
  foldM (mark_merge_node L LM lu R RM ru rid) l mm = Ok mm' ↔
  (∀ i n, (i, n) ∈ l → node_mergeable i n) ∧
  mm' = foldl (λ mm i, <[i.1 := node_marking i.1 i.2]> mm) mm l.
Proof.
  revert mm. induction l as [|[i n] l IH]; intros mm Hnd Hl.
  - simpl. split; [intros [= ->]|intros [_ ->]; done]. split; [by intros ? ? ?%not_elem_of_nil|done].
  - rewrite fmap_cons in Hnd. apply NoDup_cons in Hnd as [Hi Hnd]. cbn [fst] in Hi.
    destruct (Hl i n) as [Hself Hmm]; [by left|].
    assert (∀ j m, (j, m) ∈ l → self m = j ∧
      (<[i := node_marking i n]> mm !! j = LM !! j ∨ <[i := node_marking i n]> mm !! j = RM !! j)) as Hl'.
    { intros j m Hj. rewrite lookup_insert_ne; [apply Hl; by right|]. intros ->.
      apply Hi. by apply (list_elem_of_fmap_2 fst _ (j, m)). }
    cbn [foldM foldl fst snd]. specialize (IH _ Hnd Hl').
    destruct (mark_merge_node L LM lu R RM ru rid mm (i, n)) as [mm1|e] eqn:E; cbn [mbind result_bind].
    + apply mark_merge_node_eq in E as [Hok ->]; [|done..]. rewrite IH.
      setoid_rewrite elem_of_cons. naive_solver.
    + split; [done|]. intros [Hall _]. exfalso.
      assert (mark_merge_node L LM lu R RM ru rid mm (i, n) = Ok (<[i := node_marking i n]> mm)) as E'.
      { apply mark_merge_node_eq; [done..|]. split; [|done]. apply Hall. by left. }
      congruence.
Qed.

Lemma foldl_insert_lookup (l : list (Z * node)) (mm : marking_map) j :
  NoDup l.*1 →
  foldl (λ mm i, <[i.1 := node_marking i.1 i.2]> mm) mm l !! j =
  match list_to_map (M := gmap Z node) l !! j with Some n => Some (node_marking j n) | None => mm !! j end.
Proof.
  revert mm. induction l as [|[i n] l IH]; intros mm Hnd; [done|].
  rewrite fmap_cons in Hnd. apply NoDup_cons in Hnd as [Hi Hnd]. cbn [fst] in Hi.
  cbn [foldl fst snd list_to_map foldr]. rewrite IH by done.
  destruct (decide (i = j)) as [->|Hne].
  - rewrite lookup_insert_eq, lookup_insert_eq.
    assert (list_to_map (M := gmap Z node) l !! j = None) as -> by (by apply not_elem_of_list_to_map_1).
    done.
  - by rewrite !lookup_insert_ne.
Qed.

(** [mark_merge_roster] succeeds exactly when every node of the merge
    satisfies the ancestry invariants, and its result is the reference one. *)
Lemma mark_merge_roster_eq M mm :
  (∀ i n, nodes M !! i = Some n → self n = i) →
  mark_merge_roster L LM lu R RM ru rid M = Ok mm ↔
  (∀ i n, nodes M !! i = Some n → node_mergeable i n) ∧
  mm = map_imap (λ i n, Some (node_marking i n)) (nodes M).
Proof.
  intros Hself. unfold mark_merge_roster. set (start := closest_markings LM RM M).
  assert (∀ i, start !! i = LM !! i ∨ start !! i = RM !! i) as Hstart.
  { intros i. unfold start, closest_markings. destruct (_ <? _); auto. }
  clearbody start.
  assert (∀ i n, (i, n) ∈ map_iter (nodes M) → self n = i ∧ (start !! i = LM !! i ∨ start !! i = RM !! i))
    as Hl by (intros i n Hin%elem_of_map_iter; auto).
  pose proof (merge_loop (map_iter (nodes M)) start) as Hloop.
  set (mm1 := foldl (λ mm i, <[i.1 := node_marking i.1 i.2]> mm) start (map_iter (nodes M))) in *.
  assert (∀ j, mm1 !! j = match nodes M !! j with Some n => Some (node_marking j n) | None => start !! j end)
    as Hmm1.
  { intros j. unfold mm1. rewrite foldl_insert_lookup by apply NoDup_fst_map_iter.
    by rewrite list_to_map_iter. }
  assert (drop_extra_markings M mm1 = Ok (map_imap (λ i n, Some (node_marking i n)) (nodes M))) as Hdrop.
  { rewrite drop_extra_markings_eq.
    - f_equal. apply map_eq. intros j. rewrite lookup_restrict, map_lookup_imap, Hmm1.
      case_decide as Hj; rewrite elem_of_dom in Hj; destruct (nodes M !! j); try done; naive_solver.
    - intros j. rewrite !elem_of_dom, Hmm1. intros [n ->]. eauto. }
  assert (∀ P : Prop, P ↔ P) as Hrefl by tauto.
  setoid_rewrite <- elem_of_map_iter. clearbody mm1.
  destruct (foldM _ _ start) as [mm2|e]; cbn [mbind result_bind].
  - destruct (proj1 (Hloop mm2 (NoDup_fst_map_iter _) Hl) eq_refl) as [Hall ->].
    rewrite Hdrop. naive_solver.
  - split; [done|]. intros [Hall _].
    by pose proof (proj2 (Hloop mm1 (NoDup_fst_map_iter _) Hl) (conj Hall eq_refl)).
Qed.
End merge.

(** ** The two parents are interchangeable *)

Lemma merge_ok_sym lm lu ln rm ru rn n :
  merge_ok lm lu ln rm ru rn n → merge_ok rm ru rn lm lu ln n.
Proof.
  intros [Ht1 Ht2 Hb Hn Hc Ha Hl Hr]. constructor; try done.
  - by apply marks_sane_sym.
  - intros Hf. apply marks_sane_sym. auto.
  - intros k v lv rv Hk H1 H2. apply marks_sane_sym. eauto.
Qed.

Lemma merged_marking_sym lm lu ln rm ru rn rid n :
  birth_revision lm = birth_revision rm →
  merged_marking lm lu ln rm ru rn rid n = merged_marking rm ru rn lm lu ln rid n.
Proof.
  intros Hb. unfold merged_marking. rewrite Hb. f_equal.
  - apply merged_marks_sym.
  - destruct (is_file_t n); [apply merged_marks_sym|done].
  - apply map_eq. intros k. rewrite !map_lookup_imap. destruct (attrs n !! k) as [v|]; [|done]. simpl.
    f_equal. unfold merged_attr_marks.
    destruct (attrs ln !! k), (attrs rn !! k); try done. apply merged_marks_sym.
Qed.

Lemma node_mergeable_sym L LM lu R RM ru i n :
  node_mergeable L LM lu R RM ru i n → node_mergeable R RM ru L LM lu i n.
Proof.
  unfold node_mergeable. destruct (nodes L !! i), (nodes R !! i); try done.
  intros [(? & ? & ?)|H]; [left; auto|right]. by apply merge_ok_sym.
Qed.

Lemma node_marking_sym L LM lu R RM ru rid i n :
  node_mergeable L LM lu R RM ru i n →
  node_marking L LM lu R RM ru rid i n = node_marking R RM ru L LM lu rid i n.
Proof.
  unfold node_mergeable, node_marking. destruct (nodes L !! i), (nodes R !! i); try done.
  intros H. apply merged_marking_sym. destruct H as [(_ & _ & ->)|H]; [done|]. apply (mo_birth _ _ _ _ _ _ _ H).
Qed.

Lemma mark_merge_roster_swap L LM lu R RM ru rid M mm :
  markings_fit L LM → markings_fit R RM → (∀ i n, nodes M !! i = Some n → self n = i) →
  mark_merge_roster L LM lu R RM ru rid M = Ok mm →
  mark_merge_roster R RM ru L LM lu rid M = Ok mm.
Proof.
  intros HL HR Hself H. apply mark_merge_roster_eq in H as [Hok ->]; [|done..].
  apply mark_merge_roster_eq; [done..|]. split; [intros i n Hi; by apply node_mergeable_sym, Hok|].
  apply map_eq. intros i. rewrite !map_lookup_imap. destruct (nodes M !! i) as [n|] eqn:Hi; [|done].
  simpl. f_equal. by apply node_marking_sym, Hok.
Qed.

(** C2: mark-merge refines its node-by-node definition.  When each parent's
    markings fit its roster, [mark_merge_roster] succeeds exactly when every
    node of the merged roster satisfies the ancestry invariants, and then
    assigns to every node of the merge, and to nothing else, the marking of
    the direct definition: untouched scalars keep their parent's marks, a
    scalar on which both parents agree takes the union of theirs, a scalar won
    by one side keeps that side's marks unless the loser had a mark among its
    uncommon ancestors, and any other scalar is marked with the new revision. *)
Theorem mark_merge_roster_refines L LM lu R RM ru rid M mm :
  markings_fit L LM → markings_fit R RM → (∀ i n, nodes M !! i = Some n → self n = i) →
  mark_merge_roster L LM lu R RM ru rid M = Ok mm ↔
  (∀ i n, nodes M !! i = Some n → node_mergeable L LM lu R RM ru i n) ∧
  mm = map_imap (λ i n, Some (node_marking L LM lu R RM ru rid i n)) (nodes M).
Proof. intros. by apply mark_merge_roster_eq. Qed.

(** Swapping the parents of a merge, with their markings and uncommon
    ancestors, does not change the markings of the result: the choice of the
    parent whose markings are loaded first, and the order of the tests in
    [mark_merged_scalar] and [mark_merged_node], are not observable. *)
Theorem mark_merge_symmetric L LM lu R RM ru rid M mm :
  markings_fit L LM → markings_fit R RM → (∀ i n, nodes M !! i = Some n → self n = i) →
  mark_merge_roster L LM lu R RM ru rid M = Ok mm ↔
  mark_merge_roster R RM ru L LM lu rid M = Ok mm.
Proof. intros. split; by apply mark_merge_roster_swap. Qed.

(** ** A merge *)

(** File 2 was edited on the left and left alone on the right; file 3 exists
    only on the left; the attribute [k] is new in the merge. *)
Section example.
Let dir (ch : gmap bytes Z) : node := Node 1 0 [] ∅ (DirBody ch).
Let file i nm c a : node := Node i 1 (lit nm) a (FileBody (lit c)).

Definition ex_left : roster :=
  Roster (Some 1) {[1 := dir {[lit "a" := 2; lit "b" := 3]}; 2 := file 2 "a" "new" ∅; 3 := file 3 "b" "c" ∅]} ∅.
Definition ex_right : roster :=
  Roster (Some 1) {[1 := dir {[lit "a" := 2]}; 2 := file 2 "a" "old" ∅]} ∅.
Definition ex_merge : roster :=
  Roster (Some 1) {[1 := dir {[lit "a" := 2; lit "b" := 3]};
    2 := file 2 "a" "new" {[lit "k" := (true, lit "v")]}; 3 := file 3 "b" "c" ∅]} ∅.
Definition ex_left_markings : marking_map :=
  {[1 := Marking (lit "r0") {[lit "r0"]} ∅ ∅; 2 := Marking (lit "r0") {[lit "r0"]} {[lit "l"]} ∅;
    3 := Marking (lit "l") {[lit "l"]} {[lit "l"]} ∅]}.
Definition ex_right_markings : marking_map :=
  {[1 := Marking (lit "r0") {[lit "r0"]} ∅ ∅; 2 := Marking (lit "r0") {[lit "r0"]} {[lit "r0"]} ∅]}.
Definition ex_new_markings : marking_map :=
  {[1 := Marking (lit "r0") {[lit "r0"]} ∅ ∅;
    2 := Marking (lit "r0") {[lit "r0"]} {[lit "l"]} {[lit "k" := {[lit "m"]}]};
    3 := Marking (lit "l") {[lit "l"]} {[lit "l"]} ∅]}.
End example.

Definition markings_fit_b (r : roster) (mm : marking_map) : bool :=
  bool_decide (dom mm = dom (nodes r)) && all_pairs (λ i n, self n =? i) (nodes r) &&
  all_pairs (λ i n, match mm !! i with
    | Some m => bool_decide (dom (attr_marks m) = dom (attrs n)) &&
                (is_file_t n || bool_decide (file_content m = ∅))
    | None => true end) (nodes r).

Lemma markings_fit_b_sound r mm : markings_fit_b r mm = true → markings_fit r mm.
Proof.
  unfold markings_fit_b. intros [[H1 H2]%andb_true_iff H3]%andb_true_iff.
  apply bool_decide_eq_true in H1. split_and!; [done| |].
  - intros i n Hi. pose proof (all_pairs_spec _ _ _ _ H2 Hi) as E. by apply Z.eqb_eq in E.
  - intros i n m Hi Hm. pose proof (all_pairs_spec _ _ _ _ H3 Hi) as E. simpl in E. rewrite Hm in E.
    apply andb_true_iff in E as [E1%bool_decide_eq_true E2]. split; [done|]. intros Hf.
    rewrite Hf in E2. by apply bool_decide_eq_true in E2.
Qed.

Lemma selfs_b_sound r :
  all_pairs (λ i n, self n =? i) (nodes r) = true → ∀ i n, nodes r !! i = Some n → self n = i.
Proof. intros H i n Hi. pose proof (all_pairs_spec _ _ _ _ H Hi) as E. by apply Z.eqb_eq in E. Qed.

Lemma mark_merge_roster_refines_witness :
  mark_merge_roster ex_left ex_left_markings {[lit "l"]} ex_right ex_right_markings {[lit "r"]}
    (lit "m") ex_merge = Ok ex_new_markings ∧
  node_mergeable ex_left ex_left_markings {[lit "l"]} ex_right ex_right_markings {[lit "r"]} 3
    (Node 3 1 (lit "b") ∅ (FileBody (lit "c"))) ∧
  ex_new_markings = map_imap (λ i n, Some (node_marking ex_left ex_left_markings {[lit "l"]}
    ex_right ex_right_markings {[lit "r"]} (lit "m") i n)) (nodes ex_merge).
Proof.
  assert (mark_merge_roster ex_left ex_left_markings {[lit "l"]} ex_right ex_right_markings {[lit "r"]}
    (lit "m") ex_merge = Ok ex_new_markings) as H by (vm_compute; reflexivity).
  split; [exact H|].
  destruct (proj1 (mark_merge_roster_refines ex_left ex_left_markings {[lit "l"]} ex_right ex_right_markings
    {[lit "r"]} (lit "m") ex_merge ex_new_markings
    (markings_fit_b_sound ex_left ex_left_markings ltac:(vm_compute; reflexivity))
    (markings_fit_b_sound ex_right ex_right_markings ltac:(vm_compute; reflexivity))
    (selfs_b_sound ex_merge ltac:(vm_compute; reflexivity))) H) as [Hok Hmm].
  split; [apply Hok; vm_compute; reflexivity | exact Hmm].
Defined.

Lemma mark_merge_symmetric_witness :
  mark_merge_roster ex_right ex_right_markings {[lit "r"]} ex_left ex_left_markings {[lit "l"]}
    (lit "m") ex_merge = Ok ex_new_markings.
Proof.
  refine (proj1 (mark_merge_symmetric ex_left ex_left_markings {[lit "l"]} ex_right ex_right_markings
    {[lit "r"]} (lit "m") ex_merge ex_new_markings _ _ _) _).
  - apply markings_fit_b_sound. vm_compute. reflexivity.
  - apply markings_fit_b_sound. vm_compute. reflexivity.
  - apply selfs_b_sound. vm_compute. reflexivity.
  - vm_compute. reflexivity.
Defined.
