(* ===== verification/RosterDelta.v ===== *)
(** * Roster deltas ([src/src/roster_delta.cc])

    The difference of two (roster, markings) pairs, by node ids, as it is
    stored in the database, and its application.  The main result is that
    applying the difference of [from] and [to] to [from] gives exactly [to]. *)

From S2P Require Import Prelude Paths Roster ParallelIter Marking.

#[export] Program Instance bool_ordered : Ordered bool := {| klt a b := negb a && b |}.
Next Obligation. by intros []. Qed.
Next Obligation. by intros [] [] []. Qed.
Next Obligation. intros [] []; auto. Qed.

Abbreviation location := (Z * list ascii)%type.

Record roster_delta_t := RosterDelta {
  nodes_deleted : gset Z;
  dirs_added : gmap location Z;
  files_added : gmap location (Z * bytes);
  nodes_renamed : gmap Z location;
  deltas_applied : gmap Z bytes;
  attrs_cleared : gset (Z * bytes);
  attrs_changed : gset (Z * (bytes * (bool * bytes)));
  markings_changed : gmap Z marking
}.

Definition empty_delta : roster_delta_t := RosterDelta ∅ ∅ ∅ ∅ ∅ ∅ ∅ ∅.

(** ** [roster_delta_t::apply] *)

Definition apply_detach (d : roster_delta_t) (r : roster) : result roster :=
  r ← foldM detach_node_id (set_iter (nodes_deleted d)) r;
  foldM (λ r i, detach_node_id r i.1) (map_iter (nodes_renamed d)) r.

Definition apply_drop (d : roster_delta_t) (r : roster) : result roster :=
  foldM drop_detached_node (set_iter (nodes_deleted d)) r.

Definition apply_create (d : roster_delta_t) (r : roster) : roster :=
  let r := foldl (λ r i, create_dir_node r i.2) r (map_iter (dirs_added d)) in
  foldl (λ r i, create_file_node r i.2.2 i.2.1) r (map_iter (files_added d)).

Definition apply_attach (d : roster_delta_t) (r : roster) : result roster :=
  r ← foldM (λ r i, attach_node_at r i.2 i.1.1 i.1.2) (map_iter (dirs_added d)) r;
  r ← foldM (λ r i, attach_node_at r i.2.1 i.1.1 i.1.2) (map_iter (files_added d)) r;
  foldM (λ r i, attach_node_at r i.1 i.2.1 i.2.2) (map_iter (nodes_renamed d)) r.

Definition apply_edits (d : roster_delta_t) (r : roster) : result roster :=
  r ← foldM (λ r i, set_content r i.1 i.2) (map_iter (deltas_applied d)) r;
  r ← foldM (λ r i, erase_attr r i.1 i.2) (set_iter (attrs_cleared d)) r;
  foldM (λ r i, set_attr_unknown_to_dead_ok r i.1 i.2.1 i.2.2) (set_iter (attrs_changed d)) r.

Definition apply_markings (d : roster_delta_t) (mm : marking_map) : result marking_map :=
  mm ← foldM remove_marking (set_iter (nodes_deleted d)) mm;
  Ok (foldl (λ mm i, put_or_replace_marking mm i.1 i.2) mm (map_iter (markings_changed d))).

Definition apply (d : roster_delta_t) (r : roster) (mm : marking_map) :
    result (roster * marking_map) :=
  r ← apply_detach d r;
  r ← apply_drop d r;
  r ← apply_attach d (apply_create d r);
  r ← apply_edits d r;
  mm ← apply_markings d mm;
  Ok (r, mm).

(** ** Computing a delta *)

Definition with_nodes_deleted (f : gset Z → result (gset Z)) (d : roster_delta_t) :=
  x ← f (nodes_deleted d);
  Ok (RosterDelta x (dirs_added d) (files_added d) (nodes_renamed d) (deltas_applied d)
        (attrs_cleared d) (attrs_changed d) (markings_changed d)).
Definition with_dirs_added f (d : roster_delta_t) :=
  x ← f (dirs_added d) : result _;
  Ok (RosterDelta (nodes_deleted d) x (files_added d) (nodes_renamed d) (deltas_applied d)
        (attrs_cleared d) (attrs_changed d) (markings_changed d)).
Definition with_files_added f (d : roster_delta_t) :=
  x ← f (files_added d) : result _;
  Ok (RosterDelta (nodes_deleted d) (dirs_added d) x (nodes_renamed d) (deltas_applied d)
        (attrs_cleared d) (attrs_changed d) (markings_changed d)).
Definition with_nodes_renamed f (d : roster_delta_t) :=
  x ← f (nodes_renamed d) : result _;
  Ok (RosterDelta (nodes_deleted d) (dirs_added d) (files_added d) x (deltas_applied d)
        (attrs_cleared d) (attrs_changed d) (markings_changed d)).
Definition with_deltas_applied f (d : roster_delta_t) :=
  x ← f (deltas_applied d) : result _;
  Ok (RosterDelta (nodes_deleted d) (dirs_added d) (files_added d) (nodes_renamed d) x
        (attrs_cleared d) (attrs_changed d) (markings_changed d)).
Definition with_attrs_cleared f (d : roster_delta_t) :=
  x ← f (attrs_cleared d) : result _;
  Ok (RosterDelta (nodes_deleted d) (dirs_added d) (files_added d) (nodes_renamed d)
        (deltas_applied d) x (attrs_changed d) (markings_changed d)).
Definition with_attrs_changed f (d : roster_delta_t) :=
  x ← f (attrs_changed d) : result _;
  Ok (RosterDelta (nodes_deleted d) (dirs_added d) (files_added d) (nodes_renamed d)
        (deltas_applied d) (attrs_cleared d) x (markings_changed d)).
Definition with_markings_changed f (d : roster_delta_t) :=
  x ← f (markings_changed d) : result _;
  Ok (RosterDelta (nodes_deleted d) (dirs_added d) (files_added d) (nodes_renamed d)
        (deltas_applied d) (attrs_cleared d) (attrs_changed d) x).

Definition do_delta_for_node_only_in_dest (d : roster_delta_t) (new_n : node) :
    result roster_delta_t :=
  let nid := self new_n in
  let new_loc := (parent new_n, name new_n) in
  d ← match body new_n with
      | DirBody _ => with_dirs_added (λ m, safe_insert m new_loc nid) d
      | FileBody content => with_files_added (λ m, safe_insert m new_loc (nid, content)) d
      end;
  foldM (λ d a, with_attrs_changed (λ s, safe_insert_set s (nid, a)) d)
    (map_iter (attrs new_n)) d.

Definition delta_attr_item (nid : node_id) (d : roster_delta_t)
    (it : bytes * item (bool * bytes)) : result roster_delta_t :=
  match it with
  | (k, Left _) => with_attrs_cleared (λ s, safe_insert_set s (nid, k)) d
  | (k, Right w) => with_attrs_changed (λ s, safe_insert_set s (nid, (k, w))) d
  | (k, Both v w) =>
      if decide (v ≠ w) then with_attrs_changed (λ s, safe_insert_set s (nid, (k, w))) d
      else Ok d
  end.

Definition do_delta_for_node_in_both (d : roster_delta_t) (old_n new_n : node) :
    result roster_delta_t :=
  I_ (self old_n =? self new_n) ;;
  let nid := self old_n in
  let old_loc := (parent old_n, name old_n) in
  let new_loc := (parent new_n, name new_n) in
  d ← (if decide (old_loc ≠ new_loc)
       then with_nodes_renamed (λ m, safe_insert m nid new_loc) d else Ok d);
  d ← (if is_file_t old_n then
         old_content ← downcast_to_file_t old_n;
         new_content ← downcast_to_file_t new_n;
         if decide (old_content = new_content) then Ok d
         else with_deltas_applied (λ m, safe_insert m nid new_content) d
       else Ok d);
  its ← items (attrs old_n) (attrs new_n);
  foldM (delta_attr_item nid) its d.

Definition delta_node_item (d : roster_delta_t) (it : Z * item node) : result roster_delta_t :=
  match it with
  | (k, Left _) => with_nodes_deleted (λ s, safe_insert_set s k) d
  | (_, Right n) => do_delta_for_node_only_in_dest d n
  | (_, Both n n') => do_delta_for_node_in_both d n n'
  end.

Definition delta_marking_item (d : roster_delta_t) (it : Z * item marking) :
    result roster_delta_t :=
  match it with
  | (_, Left _) => Ok d
  | (k, Right m) => with_markings_changed (λ s, safe_insert s k m) d
  | (k, Both m m') =>
      if decide (m = m') then Ok d else with_markings_changed (λ s, safe_insert s k m') d
  end.

Definition make_unconstrained_roster_delta_t (from : roster) (from_markings : marking_map)
    (to : roster) (to_markings : marking_map) : result roster_delta_t :=
  its ← items (nodes from) (nodes to);
  d ← foldM delta_node_item its empty_delta;
  mits ← items from_markings to_markings;
  foldM delta_marking_item mits d.

(** ** What the computed delta contains

    Each node item contributes entries to the components of the delta. *)
Section contributions.
Implicit Types it : Z * item node.

Definition loc (n : node) : location := (parent n, name n).

Definition c_deleted it (k : Z) : Prop := ∃ n, it = (k, Left n).
Definition c_dir it (l : location) (i : Z) : Prop :=
  ∃ k n ch, it = (k, Right n) ∧ body n = DirBody ch ∧ l = loc n ∧ i = self n.
Definition c_file it (l : location) (i : Z * bytes) : Prop :=
  ∃ k n c, it = (k, Right n) ∧ body n = FileBody c ∧ l = loc n ∧ i = (self n, c).
Definition c_renamed it (i : Z) (l : location) : Prop :=
  ∃ k n n', it = (k, Both n n') ∧ i = self n ∧ l = loc n' ∧ loc n ≠ loc n'.
Definition c_content it (i : Z) (c : bytes) : Prop :=
  ∃ k n n' c0, it = (k, Both n n') ∧ i = self n ∧
    body n = FileBody c0 ∧ body n' = FileBody c ∧ c0 ≠ c.
Definition c_cleared it (x : Z * bytes) : Prop :=
  ∃ k n n' v, it = (k, Both n n') ∧ x.1 = self n ∧
    attrs n !! x.2 = Some v ∧ attrs n' !! x.2 = None.
Definition c_changed it (x : Z * (bytes * (bool * bytes))) : Prop :=
  (∃ k n, it = (k, Right n) ∧ x.1 = self n ∧ attrs n !! x.2.1 = Some x.2.2) ∨
  (∃ k n n', it = (k, Both n n') ∧ x.1 = self n ∧
     attrs n' !! x.2.1 = Some x.2.2 ∧ attrs n !! x.2.1 ≠ Some x.2.2).

Record describes (l : list (Z * item node)) (d : roster_delta_t) : Prop := {
  d_deleted k : k ∈ nodes_deleted d ↔ ∃ it, it ∈ l ∧ c_deleted it k;
  d_dir x i : dirs_added d !! x = Some i ↔ ∃ it, it ∈ l ∧ c_dir it x i;
  d_file x i : files_added d !! x = Some i ↔ ∃ it, it ∈ l ∧ c_file it x i;
  d_renamed i x : nodes_renamed d !! i = Some x ↔ ∃ it, it ∈ l ∧ c_renamed it i x;
  d_content i c : deltas_applied d !! i = Some c ↔ ∃ it, it ∈ l ∧ c_content it i c;
  d_cleared x : x ∈ attrs_cleared d ↔ ∃ it, it ∈ l ∧ c_cleared it x;
  d_changed x : x ∈ attrs_changed d ↔ ∃ it, it ∈ l ∧ c_changed it x;
  d_markings : markings_changed d = ∅
}.
End contributions.

Lemma ex_app_iff {A} (l : list A) (it : A) (P : A → Prop) (Q R : Prop) :
  (Q ↔ ∃ it, it ∈ l ∧ P it) → (R ↔ Q ∨ P it) → (R ↔ ∃ it', it' ∈ l ++ [it] ∧ P it').
Proof. intros. setoid_rewrite elem_of_app. setoid_rewrite list_elem_of_singleton. naive_solver. Qed.

Lemma ex_app_irrel {A} (l : list A) (it : A) (P : A → Prop) (Q : Prop) :
  (Q ↔ ∃ it, it ∈ l ∧ P it) → ¬ P it → (Q ↔ ∃ it', it' ∈ l ++ [it] ∧ P it').
Proof. intros HQ HP. eapply ex_app_iff; [exact HQ|]. tauto. Qed.

(** Close a goal from contributions that this item does not make. *)
Ltac no_contribution :=
  let HP := fresh in intros HP;
  unfold c_deleted, c_dir, c_file, c_renamed, c_content, c_cleared, c_changed in HP;
  repeat match goal with
  | H : ex _ |- _ => destruct H
  | H : _ ∧ _ |- _ => destruct H
  | H : _ ∨ _ |- _ => destruct H
  end; congruence.

Lemma with_attrs_changed_fresh x d :
  x ∉ attrs_changed d →
  with_attrs_changed (λ s, safe_insert_set s x) d =
  Ok (RosterDelta (nodes_deleted d) (dirs_added d) (files_added d) (nodes_renamed d)
        (deltas_applied d) (attrs_cleared d) ({[x]} ∪ attrs_changed d) (markings_changed d)).
Proof. intros. unfold with_attrs_changed. by rewrite safe_insert_set_fresh. Qed.

(** The attribute loop of a node that is new in the destination. *)
Lemma attrs_added_loop nid (l : list (bytes * (bool * bytes))) d :
  NoDup l → (∀ a, a ∈ l → (nid, a) ∉ attrs_changed d) →
  foldM (λ d a, with_attrs_changed (λ s, safe_insert_set s (nid, a)) d) l d =
  Ok (RosterDelta (nodes_deleted d) (dirs_added d) (files_added d) (nodes_renamed d)
        (deltas_applied d) (attrs_cleared d)
        (list_to_set ((λ a, (nid, a)) <$> l) ∪ attrs_changed d) (markings_changed d)).
Proof.
  revert d. induction l as [|a l IH]; intros d Hnd Hfresh.
  - simpl. destruct d; simpl. do 2 f_equal. set_solver.
  - apply NoDup_cons in Hnd as [Ha Hnd]. cbn [foldM].
    rewrite with_attrs_changed_fresh by (apply Hfresh; set_solver). cbn [mbind result_bind].
    rewrite IH; [|done|]; simpl.
    + do 2 f_equal. set_solver.
    + intros a' Ha'. apply not_elem_of_union. split; [|apply Hfresh; set_solver].
      rewrite not_elem_of_singleton. intros ?. by simplify_eq.
Qed.

(** The attribute loop of a node present on both sides. *)
Definition attr_cleared_of (nid : Z) (it : bytes * item (bool * bytes)) : option (Z * bytes) :=
  match it with (k, Left _) => Some (nid, k) | _ => None end.
Definition attr_changed_of (nid : Z) (it : bytes * item (bool * bytes)) :
    option (Z * (bytes * (bool * bytes))) :=
  match it with
  | (_, Left _) => None
  | (k, Right w) => Some (nid, (k, w))
  | (k, Both v w) => if decide (v ≠ w) then Some (nid, (k, w)) else None
  end.

Lemma attrs_both_loop nid (l : list (bytes * item (bool * bytes))) d :
  NoDup l.*1 →
  (∀ k, (nid, k) ∉ attrs_cleared d) → (∀ a, (nid, a) ∉ attrs_changed d) →
  foldM (delta_attr_item nid) l d =
  Ok (RosterDelta (nodes_deleted d) (dirs_added d) (files_added d) (nodes_renamed d)
        (deltas_applied d) (list_to_set (omap (attr_cleared_of nid) l) ∪ attrs_cleared d)
        (list_to_set (omap (attr_changed_of nid) l) ∪ attrs_changed d) (markings_changed d)).
Proof.
  intros Hnd Hcl Hch.
  destruct (foldM_ok (λ l1 d1, d1 =
     RosterDelta (nodes_deleted d) (dirs_added d) (files_added d) (nodes_renamed d)
        (deltas_applied d) (list_to_set (omap (attr_cleared_of nid) l1) ∪ attrs_cleared d)
        (list_to_set (omap (attr_changed_of nid) l1) ∪ attrs_changed d) (markings_changed d))
     (delta_attr_item nid) l d) as (d' & -> & ->); [| |done].
  { destruct d; simpl. f_equal; set_solver. }
  intros l1 [k it] l2 d1 -> ->. eexists. split; [|done].
  assert (∀ it, (k, it) ∉ l1) as Hk.
  { intros it' Hin. rewrite fmap_app, fmap_cons in Hnd.
    apply NoDup_app in Hnd as (_ & Hnd & _). apply (Hnd k); [|set_solver].
    by apply (list_elem_of_fmap_2 fst _ (k, it')). }
  assert ((nid, k) ∉ list_to_set (omap (attr_cleared_of nid) l1) ∪ attrs_cleared d) as F1.
  { rewrite not_elem_of_union, elem_of_list_to_set, list_elem_of_omap. split; [|done].
    intros ([k' []] & Hin & E); simplify_eq/=. by eapply Hk. }
  assert (∀ w, (nid, (k, w)) ∉ list_to_set (omap (attr_changed_of nid) l1) ∪ attrs_changed d)
    as F2.
  { intros w. rewrite not_elem_of_union, elem_of_list_to_set, list_elem_of_omap.
    split; [|done]. intros ([k' []] & Hin & E); simplify_eq/=; repeat case_decide; simplify_eq;
      by eapply Hk. }
  rewrite !omap_app. destruct it as [v|w|v w]; simpl.
  - unfold with_attrs_cleared. simpl. rewrite safe_insert_set_fresh by done. simpl.
    do 2 f_equal; set_solver.
  - unfold with_attrs_changed. simpl. rewrite safe_insert_set_fresh by done. simpl.
    do 2 f_equal; set_solver.
  - case_decide; simpl; [|do 2 f_equal; set_solver].
    unfold with_attrs_changed. simpl. rewrite safe_insert_set_fresh by done. simpl.
    do 2 f_equal; set_solver.
Qed.

(** ** The computed delta describes the difference *)

(** Two locations of one complete roster are different for different nodes. *)
Lemma loc_inj r i j n m :
  complete r → nodes r !! i = Some n → nodes r !! j = Some m → loc n = loc m → i = j.
Proof.
  intros [Hwf Hroot _ _] Hi Hj [= Hp Hn].
  destruct (decide (parent n = the_null_node)) as [E|E].
  - assert (root_dir r = Some i) by eauto. assert (root_dir r = Some j) by (eapply Hroot; [done|congruence]).
    congruence.
  - destruct (wf_parent r Hwf _ _ Hi E) as (p & ch & H1 & H2 & H3).
    destruct (wf_parent r Hwf _ _ Hj) as (p' & ch' & H1' & H2' & H3'); [congruence|].
    rewrite Hp, Hn in *. congruence.
Qed.

Section computed.
Context (from to : roster).
Context (Hfrom : complete from) (Hto : complete to).
Context (Hkind : ∀ i n n', nodes from !! i = Some n → nodes to !! i = Some n' →
                   is_file_t n = is_file_t n').

Definition valid_item (it : Z * item node) : Prop :=
  classify (nodes from !! it.1) (nodes to !! it.1) = Some it.2.

Lemma valid_Left k n : valid_item (k, Left n) ↔ nodes from !! k = Some n ∧ nodes to !! k = None.
Proof.
  unfold valid_item. simpl.
  destruct (nodes from !! k), (nodes to !! k); simpl; naive_solver.
Qed.
Lemma valid_Right k n : valid_item (k, Right n) ↔ nodes from !! k = None ∧ nodes to !! k = Some n.
Proof.
  unfold valid_item. simpl.
  destruct (nodes from !! k), (nodes to !! k); simpl; naive_solver.
Qed.
Lemma valid_Both k n n' :
  valid_item (k, Both n n') ↔ nodes from !! k = Some n ∧ nodes to !! k = Some n'.
Proof.
  unfold valid_item. simpl.
  destruct (nodes from !! k), (nodes to !! k); simpl; naive_solver.
Qed.

Lemma valid_self_left k n : nodes from !! k = Some n → self n = k.
Proof. intros H. by destruct (wf_self _ (complete_wf _ Hfrom) _ _ H). Qed.
Lemma valid_self_right k n : nodes to !! k = Some n → self n = k.
Proof. intros H. by destruct (wf_self _ (complete_wf _ Hto) _ _ H). Qed.

Context (l : list (Z * item node)) (d : roster_delta_t).
Context (Hl : Forall valid_item l) (Hd : describes l d).

(** An entry keyed by a node id comes from that node's item. *)
Lemma entry_key it i :
  it ∈ l →
  (∃ n, it.2 = Right n ∧ i = self n) ∨ (∃ n n', it.2 = Both n n' ∧ i = self n) →
  it.1 = i.
Proof.
  intros Hit Hi. rewrite Forall_forall in Hl. specialize (Hl it Hit).
  destruct it as [k x]; simpl in *. destruct Hi as [(n & -> & ->)|(n & n' & -> & ->)].
  - apply valid_Right in Hl as [_ ?]. symmetry. by apply valid_self_right.
  - apply valid_Both in Hl as [? _]. symmetry. by apply valid_self_left.
Qed.

Context (k : Z) (Hk : ∀ x, (k, x) ∉ l).

Lemma fresh_deleted : k ∉ nodes_deleted d.
Proof. rewrite (d_deleted _ _ Hd). intros (it & Hit & n & ->). by eapply Hk. Qed.
Lemma fresh_renamed : nodes_renamed d !! k = None.
Proof.
  apply eq_None_not_Some. intros [x Hx]. apply (d_renamed _ _ Hd) in Hx.
  destruct Hx as ([k' x'] & Hit & k0 & n & n' & [= -> ->] & Hi & _).
  assert (k0 = k) as -> by (apply (entry_key _ _ Hit); naive_solver). by eapply Hk.
Qed.
Lemma fresh_content : deltas_applied d !! k = None.
Proof.
  apply eq_None_not_Some. intros [x Hx]. apply (d_content _ _ Hd) in Hx.
  destruct Hx as ([k' x'] & Hit & k0 & n & n' & c0 & [= -> ->] & Hi & _).
  assert (k0 = k) as -> by (apply (entry_key _ _ Hit); naive_solver). by eapply Hk.
Qed.
Lemma fresh_cleared a : (k, a) ∉ attrs_cleared d.
Proof.
  rewrite (d_cleared _ _ Hd).
  intros ([k' x'] & Hit & k0 & n & n' & v & [= -> ->] & Hi & _). simpl in Hi.
  assert (k0 = k) as -> by (apply (entry_key _ _ Hit); naive_solver). by eapply Hk.
Qed.
Lemma fresh_changed a : (k, a) ∉ attrs_changed d.
Proof.
  rewrite (d_changed _ _ Hd).
  intros ([k' x'] & Hit & [(k0 & n & [= -> ->] & Hi & _)|(k0 & n & n' & [= -> ->] & Hi & _)]);
    simpl in Hi; (assert (k0 = k) as -> by (apply (entry_key _ _ Hit); naive_solver)); by eapply Hk.
Qed.
Lemma fresh_dir n : nodes to !! k = Some n → dirs_added d !! loc n = None.
Proof.
  intros Hn. apply eq_None_not_Some. intros [x Hx]. apply (d_dir _ _ Hd) in Hx.
  destruct Hx as (it & Hit & k0 & m & ch & -> & _ & Hlm & _).
  pose proof (proj1 (Forall_forall _ _) Hl _ Hit) as Hv. apply valid_Right in Hv as [_ Hm].
  rewrite (loc_inj to k k0 n m) in Hk by done. by eapply Hk.
Qed.
Lemma fresh_file n : nodes to !! k = Some n → files_added d !! loc n = None.
Proof.
  intros Hn. apply eq_None_not_Some. intros [x Hx]. apply (d_file _ _ Hd) in Hx.
  destruct Hx as (it & Hit & k0 & m & ch & -> & _ & Hlm & _).
  pose proof (proj1 (Forall_forall _ _) Hl _ Hit) as Hv. apply valid_Right in Hv as [_ Hm].
  rewrite (loc_inj to k k0 n m) in Hk by done. by eapply Hk.
Qed.

Ltac unchanged := eapply ex_app_irrel; [apply Hd | no_contribution].

Lemma step_deleted n :
  valid_item (k, Left n) →
  ∃ d', delta_node_item d (k, Left n) = Ok d' ∧ describes (l ++ [(k, Left n)]) d'.
Proof.
  intros Hv. simpl. unfold with_nodes_deleted.
  rewrite safe_insert_set_fresh by apply fresh_deleted. simpl. eexists. split; [done|].
  split; simpl; intros; try unchanged; [|apply Hd].
  eapply ex_app_iff; [apply Hd|]. unfold c_deleted.
  rewrite elem_of_union, elem_of_singleton. naive_solver.
Qed.

Lemma step_added n :
  valid_item (k, Right n) →
  ∃ d', delta_node_item d (k, Right n) = Ok d' ∧ describes (l ++ [(k, Right n)]) d'.
Proof.
  intros Hv. apply valid_Right in Hv as [_ Hn]. pose proof (valid_self_right _ _ Hn) as Hs.
  assert (∀ x : Z * (bytes * (bool * bytes)),
    x ∈ (list_to_set ((λ a, (k, a)) <$> map_iter (attrs n)) : gset _) ∪ attrs_changed d ↔
    ∃ it', it' ∈ l ++ [(k, Right n)] ∧ c_changed it' x) as Hattrs.
  { intros [i [a v]]. eapply ex_app_iff; [apply Hd|].
    rewrite elem_of_union, elem_of_list_to_set, list_elem_of_fmap. unfold c_changed; simpl.
    split.
    - intros [([a' v'] & [= -> -> ->] & Ha)|?]; [|by left].
      apply elem_of_map_iter in Ha. right. left. eexists _, _. by rewrite Hs.
    - intros [?|[(? & ? & [= <- <-] & -> & Ha)|(? & ? & ? & [=] & _)]]; [by right|].
      left. exists (a, v). rewrite Hs. split; [done|]. by apply elem_of_map_iter. }
  simpl. unfold do_delta_for_node_only_in_dest. rewrite Hs.
  destruct (body n) as [c|ch] eqn:Hb.
  - unfold with_files_added. rewrite safe_insert_fresh by (by apply fresh_file). simpl.
    rewrite attrs_added_loop; [|apply NoDup_map_iter|intros; apply fresh_changed].
    simpl. eexists. split; [done|]. split; simpl; intros; try unchanged; [|by apply Hattrs|apply Hd].
    eapply ex_app_iff; [apply Hd|]. rewrite lookup_insert_fresh by (by apply fresh_file).
    split; [intros [?|[-> ->]]; [by left|] | ].
    + right. eexists _, _, _. rewrite Hs. by split_and!.
    + intros [?|(? & m & ? & [= <- <-] & Hb' & -> & ->)]; [by left|right].
      rewrite Hs. split; [done|congruence].
  - unfold with_dirs_added. rewrite safe_insert_fresh by (by apply fresh_dir). simpl.
    rewrite attrs_added_loop; [|apply NoDup_map_iter|intros; apply fresh_changed].
    simpl. eexists. split; [done|]. split; simpl; intros; try unchanged; [|by apply Hattrs|apply Hd].
    eapply ex_app_iff; [apply Hd|]. rewrite lookup_insert_fresh by (by apply fresh_dir).
    split; [intros [?|[-> ->]]; [by left|] | ].
    + right. eexists _, _, _. rewrite Hs. by split_and!.
    + intros [?|(? & m & ? & [= <- <-] & Hb' & -> & ->)]; [by left|right].
      rewrite Hs. split; [done|congruence].
Qed.

#[local] Arguments delta_attr_item : simpl never.

Definition renamed_after (n n' : node) : gmap Z location :=
  if decide (loc n ≠ loc n') then <[k := loc n']> (nodes_renamed d) else nodes_renamed d.
Definition content_after (n n' : node) : gmap Z bytes :=
  match body n, body n' with
  | FileBody c, FileBody c' =>
      if decide (c = c') then deltas_applied d else <[k := c']> (deltas_applied d)
  | _, _ => deltas_applied d
  end.

Lemma both_result n n' its :
  nodes from !! k = Some n → nodes to !! k = Some n' →
  items (attrs n) (attrs n') = Ok its → NoDup its.*1 →
  do_delta_for_node_in_both d n n' =
  Ok (RosterDelta (nodes_deleted d) (dirs_added d) (files_added d) (renamed_after n n')
        (content_after n n') (list_to_set (omap (attr_cleared_of k) its) ∪ attrs_cleared d)
        (list_to_set (omap (attr_changed_of k) its) ∪ attrs_changed d) (markings_changed d)).
Proof.
  intros Hn Hn' Hits Hnd. unfold do_delta_for_node_in_both.
  rewrite (valid_self_left _ _ Hn), (valid_self_right _ _ Hn'), Z.eqb_refl, Hits. simpl.
  pose proof (Hkind _ _ _ Hn Hn') as Hk'.
  unfold renamed_after, content_after, is_file_t, downcast_to_file_t, loc in *.
  destruct (decide ((parent n, name n) ≠ (parent n', name n')));
    unfold with_nodes_renamed; rewrite ?safe_insert_fresh by apply fresh_renamed; simpl;
    destruct (body n) as [c|ch], (body n') as [c'|ch']; try done; simpl;
    try case_decide; unfold with_deltas_applied; simpl;
    rewrite ?safe_insert_fresh by apply fresh_content; simpl;
    by rewrite attrs_both_loop
      by (done || (intros; apply fresh_cleared) || (intros; apply fresh_changed)).
Qed.

Lemma c_renamed_both n n' i x :
  c_renamed (k, Both n n') i x ↔ i = self n ∧ x = loc n' ∧ loc n ≠ loc n'.
Proof.
  unfold c_renamed. split; [|intros; by exists k, n, n'].
  by intros (? & ? & ? & [= <- <- <-] & ?).
Qed.
Lemma c_content_both n n' i c :
  c_content (k, Both n n') i c ↔
  ∃ c0, i = self n ∧ body n = FileBody c0 ∧ body n' = FileBody c ∧ c0 ≠ c.
Proof.
  unfold c_content. split; [|intros [c0 ?]; by exists k, n, n', c0].
  intros (? & ? & ? & c0 & [= <- <- <-] & ?). by exists c0.
Qed.

Lemma step_both n n' :
  valid_item (k, Both n n') →
  ∃ d', delta_node_item d (k, Both n n') = Ok d' ∧ describes (l ++ [(k, Both n n')]) d'.
Proof.
  intros Hv. apply valid_Both in Hv as [Hn Hn'].
  pose proof (valid_self_left _ _ Hn) as Hs.
  destruct (items_spec (attrs n) (attrs n')) as (its & Hits & Hsort & Hin).
  pose proof (sorted_items_NoDup _ Hsort) as Hnd.
  simpl. rewrite (both_result _ _ _ Hn Hn' Hits Hnd). eexists. split; [done|].
  split; simpl; intros; [unchanged | unchanged | unchanged | | | | | apply Hd].
  - eapply ex_app_iff; [apply Hd|]. rewrite c_renamed_both, Hs. unfold renamed_after.
    case_decide; [rewrite lookup_insert_fresh by apply fresh_renamed|]; tauto.
  - eapply ex_app_iff; [apply Hd|]. rewrite c_content_both, Hs. unfold content_after.
    destruct (body n) as [c0|] eqn:Hb, (body n') as [c1|] eqn:Hb'; [|naive_solver..].
    case_decide; [naive_solver|]. rewrite lookup_insert_fresh by apply fresh_content.
    naive_solver.
  - destruct x as [i a]. eapply ex_app_iff; [apply Hd|].
    rewrite elem_of_union, elem_of_list_to_set, list_elem_of_omap. unfold c_cleared. simpl.
    split.
    + intros [([k' []] & Hk' & E)|?]; simplify_eq/=; [|by left]. right.
      apply Hin in Hk'. eexists _, _, _, v. split_and!; [done|done|..];
        destruct (attrs n !! a), (attrs n' !! a); simpl in *; congruence.
    + intros [?|(? & ? & ? & v & [= <- <- <-] & -> & Ha & Ha')]; [by right|]. left.
      exists (a, Left v). rewrite Hs. split; [|done]. apply Hin. by rewrite Ha, Ha'.
  - destruct x as [i [a v]]. eapply ex_app_iff; [apply Hd|].
    rewrite elem_of_union, elem_of_list_to_set, list_elem_of_omap. unfold c_changed. simpl.
    split.
    + intros [([k' it] & Hk' & E)|?]; [|by left]. apply Hin in Hk'. right. right.
      eexists _, _, _. split; [done|]. rewrite Hs.
      destruct it as [|w|v' w]; simpl in E; [done| |case_decide]; simplify_eq;
        destruct (attrs n !! a), (attrs n' !! a); simpl in *; naive_solver.
    + intros [?|[(? & ? & [=] & _)|(? & ? & ? & [= <- <- <-] & -> & Ha & Ha')]]; [by right|].
      left. rewrite Hs. destruct (attrs n !! a) as [v0|] eqn:E0.
      * exists (a, Both v0 v). split; [apply Hin; by rewrite E0, Ha|].
        simpl. rewrite decide_True by congruence. done.
      * exists (a, Right v). split; [apply Hin; by rewrite E0, Ha | done].
Qed.
End computed.

(** ** The delta of two complete rosters, in terms of the rosters *)

Record delta_of (from : roster) (fm : marking_map) (to : roster) (tm : marking_map)
    (d : roster_delta_t) : Prop := {
  do_deleted k : k ∈ nodes_deleted d ↔ is_Some (nodes from !! k) ∧ nodes to !! k = None;
  do_dir x i : dirs_added d !! x = Some i ↔
    ∃ n ch, nodes from !! i = None ∧ nodes to !! i = Some n ∧ body n = DirBody ch ∧ x = loc n;
  do_file x i c : files_added d !! x = Some (i, c) ↔
    ∃ n, nodes from !! i = None ∧ nodes to !! i = Some n ∧ body n = FileBody c ∧ x = loc n;
  do_renamed i x : nodes_renamed d !! i = Some x ↔
    ∃ n n', nodes from !! i = Some n ∧ nodes to !! i = Some n' ∧ x = loc n' ∧ loc n ≠ loc n';
  do_content i c : deltas_applied d !! i = Some c ↔
    ∃ n n' c0, nodes from !! i = Some n ∧ nodes to !! i = Some n' ∧
      body n = FileBody c0 ∧ body n' = FileBody c ∧ c0 ≠ c;
  do_cleared i a : (i, a) ∈ attrs_cleared d ↔
    ∃ n n', nodes from !! i = Some n ∧ nodes to !! i = Some n' ∧
      is_Some (attrs n !! a) ∧ attrs n' !! a = None;
  do_changed i a v : (i, (a, v)) ∈ attrs_changed d ↔
    ∃ n', nodes to !! i = Some n' ∧ attrs n' !! a = Some v ∧
      (∀ n, nodes from !! i = Some n → attrs n !! a ≠ Some v);
  do_markings i m : markings_changed d !! i = Some m ↔ tm !! i = Some m ∧ fm !! i ≠ Some m
}.

Lemma node_loop from to :
  complete from → complete to →
  (∀ i n n', nodes from !! i = Some n → nodes to !! i = Some n' → is_file_t n = is_file_t n') →
  ∃ L d, items (nodes from) (nodes to) = Ok L ∧ foldM delta_node_item L empty_delta = Ok d ∧
         describes L d ∧ (∀ it, it ∈ L ↔ valid_item from to it).
Proof.
  intros Hf Ht Hkind.
  destruct (items_spec (nodes from) (nodes to)) as (L & HL & Hs & Hin).
  assert (∀ it, it ∈ L ↔ valid_item from to it) as HinL by (intros [k x]; apply Hin).
  pose proof (sorted_items_NoDup _ Hs) as Hnd.
  destruct (foldM_ok describes delta_node_item L empty_delta) as (d & Hd & Hdesc).
  { split; simpl; intros; rewrite ?lookup_empty; set_solver. }
  { intros l1 [k x] l2 d -> Hd.
    assert (Forall (valid_item from to) l1) as Hv1
      by (apply Forall_forall; intros; apply HinL; set_solver).
    assert (∀ x, (k, x) ∉ l1) as Hk.
    { intros y Hy. rewrite fmap_app, fmap_cons in Hnd. apply NoDup_app in Hnd as (_ & Hnd & _).
      apply (Hnd k); [|set_solver]. by apply (list_elem_of_fmap_2 fst _ (k, y)). }
    assert (valid_item from to (k, x)) as Hv by (apply HinL; set_solver).
    destruct x.
    - by apply (step_deleted from to).
    - by apply (step_added from to).
    - by apply (step_both from to). }
  by exists L, d.
Qed.

Lemma marking_loop (fm tm : marking_map) d :
  markings_changed d = ∅ →
  ∃ L mc, items fm tm = Ok L ∧
    foldM delta_marking_item L d =
      Ok (RosterDelta (nodes_deleted d) (dirs_added d) (files_added d) (nodes_renamed d)
            (deltas_applied d) (attrs_cleared d) (attrs_changed d) mc) ∧
    (∀ i m, mc !! i = Some m ↔ tm !! i = Some m ∧ fm !! i ≠ Some m).
Proof.
  intros Hd. destruct (items_spec fm tm) as (L & HL & Hs & Hin).
  pose proof (sorted_items_NoDup _ Hs) as Hnd. exists L.
  destruct (foldM_ok (λ l1 d1, ∃ mc, d1 =
      RosterDelta (nodes_deleted d) (dirs_added d) (files_added d) (nodes_renamed d)
            (deltas_applied d) (attrs_cleared d) (attrs_changed d) mc ∧
      ∀ i m, mc !! i = Some m ↔
        ∃ it, (i, it) ∈ l1 ∧ (it = Right m ∨ ∃ m0, it = Both m0 m ∧ m0 ≠ m))
      delta_marking_item L d) as (d' & Hf & mc & -> & Hmc).
  { exists ∅. split; [destruct d; simpl in *; by subst|]. intros. rewrite lookup_empty. set_solver. }
  { intros l1 [k it] l2 d1 -> (mc & -> & Hmc).
    assert (mc !! k = None) as Hk.
    { apply eq_None_not_Some. intros [m Hm]. apply Hmc in Hm as (it' & Hit & _).
      rewrite fmap_app, fmap_cons in Hnd. apply NoDup_app in Hnd as (_ & Hnd & _).
      apply (Hnd k); [|set_solver]. by apply (list_elem_of_fmap_2 fst _ (k, it')). }
    destruct it as [v|w|v w]; simpl; [| |case_decide].
    - eexists. split; [done|]. eexists. split; [done|]. intros i m. rewrite Hmc.
      setoid_rewrite elem_of_app. setoid_rewrite list_elem_of_singleton. naive_solver.
    - unfold with_markings_changed. simpl. rewrite (safe_insert_fresh _ _ _ Hk). simpl.
      eexists. split; [done|]. eexists. split; [done|]. intros i m.
      rewrite lookup_insert_fresh, Hmc by done.
      setoid_rewrite elem_of_app. setoid_rewrite list_elem_of_singleton. naive_solver.
    - subst. eexists. split; [done|]. eexists. split; [done|]. intros i m. rewrite Hmc.
      setoid_rewrite elem_of_app. setoid_rewrite list_elem_of_singleton. naive_solver.
    - unfold with_markings_changed. simpl. rewrite (safe_insert_fresh _ _ _ Hk). simpl.
      eexists. split; [done|]. eexists. split; [done|]. intros i m.
      rewrite lookup_insert_fresh, Hmc by done.
      setoid_rewrite elem_of_app. setoid_rewrite list_elem_of_singleton. naive_solver. }
  exists mc. split_and!; [done | done |]. intros i m. rewrite Hmc. setoid_rewrite Hin.
  destruct (fm !! i) as [m0|], (tm !! i) as [m1|]; simpl; naive_solver.
Qed.

Lemma make_delta_of from fm to tm :
  complete from → complete to →
  (∀ i n n', nodes from !! i = Some n → nodes to !! i = Some n' → is_file_t n = is_file_t n') →
  ∃ d, make_unconstrained_roster_delta_t from fm to tm = Ok d ∧ delta_of from fm to tm d.
Proof.
  intros Hf Ht Hkind.
  destruct (node_loop from to Hf Ht Hkind) as (L & d & HL & Hd & Hdesc & Hin).
  destruct (marking_loop fm tm d (d_markings _ _ Hdesc)) as (ML & mc & HML & Hm & Hmc).
  unfold make_unconstrained_roster_delta_t. rewrite HL. simpl. rewrite Hd. simpl.
  rewrite HML. simpl. rewrite Hm. eexists. split; [done|].
  assert (∀ i n, nodes from !! i = Some n → self n = i) as Sf
    by (intros; by eapply (valid_self_left from)).
  assert (∀ i n, nodes to !! i = Some n → self n = i) as St
    by (intros; by eapply (valid_self_right to)).
  split; simpl; intros.
  - rewrite (d_deleted _ _ Hdesc). setoid_rewrite Hin. unfold c_deleted. split.
    + intros (it & Hv & n & ->). apply valid_Left in Hv as [? ?]; naive_solver.
    + intros [[n Hn] ?]. exists (k, Left n). split; [by apply valid_Left | eauto].
  - rewrite (d_dir _ _ Hdesc). setoid_rewrite Hin. unfold c_dir. split.
    + intros (it & Hv & k & n & ch & -> & Hb & -> & ->).
      apply valid_Right in Hv as [? Hn]. rewrite (St _ _ Hn). naive_solver.
    + intros (n & ch & ? & Hn & ? & ->). exists (i, Right n). split; [by apply valid_Right|].
      exists i, n, ch. by rewrite (St _ _ Hn).
  - rewrite (d_file _ _ Hdesc). setoid_rewrite Hin. unfold c_file. split.
    + intros (it & Hv & k & n & c' & -> & Hb & -> & [= -> ->]).
      apply valid_Right in Hv as [? Hn]. rewrite (St _ _ Hn). naive_solver.
    + intros (n & ? & Hn & ? & ->). exists (i, Right n). split; [by apply valid_Right|].
      exists i, n, c. by rewrite (St _ _ Hn).
  - rewrite (d_renamed _ _ Hdesc). setoid_rewrite Hin. unfold c_renamed. split.
    + intros (it & Hv & k & n & n' & -> & -> & -> & ?). apply valid_Both in Hv as [Hn Hn'].
      rewrite (Sf _ _ Hn). naive_solver.
    + intros (n & n' & Hn & Hn' & -> & ?). exists (i, Both n n'). split; [by apply valid_Both|].
      exists i, n, n'. by rewrite (Sf _ _ Hn).
  - rewrite (d_content _ _ Hdesc). setoid_rewrite Hin. unfold c_content. split.
    + intros (it & Hv & k & n & n' & c0 & -> & -> & ?). apply valid_Both in Hv as [Hn Hn'].
      rewrite (Sf _ _ Hn). exists n, n', c0. naive_solver.
    + intros (n & n' & c0 & Hn & Hn' & ?). exists (i, Both n n'). split; [by apply valid_Both|].
      exists i, n, n', c0. by rewrite (Sf _ _ Hn).
  - rewrite (d_cleared _ _ Hdesc). setoid_rewrite Hin. unfold c_cleared. split.
    + intros (it & Hv & k & n & n' & v & -> & E & ? & ?). simpl in *.
      apply valid_Both in Hv as [Hn Hn']. rewrite (Sf _ _ Hn) in E. subst. naive_solver.
    + intros (n & n' & Hn & Hn' & [v ?] & ?). exists (i, Both n n').
      split; [by apply valid_Both|]. exists i, n, n', v. by rewrite (Sf _ _ Hn).
  - rewrite (d_changed _ _ Hdesc). setoid_rewrite Hin. unfold c_changed. split.
    + intros (it & Hv & [(k & n & -> & E & ?)|(k & n & n' & -> & E & ? & ?)]); simpl in *.
      * apply valid_Right in Hv as [? Hn]. rewrite (St _ _ Hn) in E. subst.
        exists n. split_and!; [done..|]. congruence.
      * apply valid_Both in Hv as [Hn Hn']. rewrite (Sf _ _ Hn) in E. subst.
        exists n'. split_and!; [done..|]. congruence.
    + intros (n' & Hn' & Ha & Hne). destruct (nodes from !! i) as [n|] eqn:Hn.
      * exists (i, Both n n'). split; [by apply valid_Both|]. right. exists i, n, n'.
        rewrite (Sf _ _ Hn). naive_solver.
      * exists (i, Right n'). split; [by apply valid_Right|]. left. exists i, n'.
        by rewrite (St _ _ Hn').
  - apply Hmc.
Qed.
