(* ===== verification/RosterDeltaRoundtrip.v ===== *)
(** * Applying a roster delta rebuilds the destination

    [roster_delta_t::apply] works in phases: detach, drop, create, attach, edit.
    Each phase is characterised here, and the phases compose to the round trip
    [apply (delta from to) from = to]. *)

From S2P Require Import Prelude Paths Roster ParallelIter Marking RosterDelta.

Lemma foldM_fmap {A B S} (f : S → B → result S) (g : A → B) l s :
  foldM (λ s a, f s (g a)) l s = foldM f (g <$> l) s.
Proof. revert s. induction l as [|a l IH]; intros s; [done|]. simpl. destruct (f s (g a)); [apply IH|done]. Qed.

(** ** Detach phase *)

(** The old locations recorded for a set of detached nodes. *)
Definition old_map (X : gset Z) (r : roster) : gmap Z location :=
  (λ n, (the_null_node, name n)) <$> filter (λ p, p.1 ∈ X) (nodes r).

Lemma lookup_old_map X r i :
  old_map X r !! i =
  if decide (i ∈ X) then (λ n, (the_null_node, name n)) <$> nodes r !! i else None.
Proof.
  unfold old_map. rewrite lookup_fmap.
  case_decide as Hi.
  - destruct (nodes r !! i) as [n|] eqn:E.
    + by rewrite (map_lookup_filter_Some_2 _ _ i n).
    + by rewrite map_lookup_filter_None_2 by auto.
  - rewrite map_lookup_filter_None_2; [done|]. right. naive_solver.
Qed.

Lemma old_map_insert X r x n :
  nodes r !! x = Some n →
  <[x := (the_null_node, name n)]> (old_map X r) = old_map ({[x]} ∪ X) r.
Proof.
  intros Hx. apply map_eq. intros i. rewrite lookup_old_map.
  destruct (decide (i = x)) as [->|Hne].
  - by rewrite lookup_insert_eq, decide_True, Hx by set_solver.
  - rewrite lookup_insert_ne, lookup_old_map by done.
    destruct (decide (i ∈ X)), (decide (i ∈ {[x]} ∪ X)); set_solver.
Qed.

Lemma detach_loop r l X :
  complete r → NoDup l → (∀ x, x ∈ l → is_Some (nodes r !! x) ∧ x ∉ X) →
  foldM detach_node_id l (detached X r (old_map X r)) =
  Ok (detached (list_to_set l ∪ X) r (old_map (list_to_set l ∪ X) r)).
Proof.
  intros Hc Hnd Hl. destruct Hc as [Hwf Hroot _ _].
  revert X Hl. induction Hnd as [|x l Hx Hnd IH]; intros X Hl.
  - simpl. by rewrite (left_id_L ∅ (∪)).
  - destruct (Hl x) as [[n Hn] HxX]; [set_solver|].
    cbn [foldM]. rewrite (detach_node_id_step r X x n);
      [|done|done|done|eauto|by rewrite lookup_old_map, decide_False].
    cbn [mbind result_bind]. rewrite old_map_insert, IH by
      (done || (intros y Hy; destruct (Hl y); [set_solver|]; split; [done|]; set_solver)).
    assert (list_to_set l ∪ ({[x]} ∪ X) = list_to_set (x :: l) ∪ X) as -> by set_solver.
    done.
Qed.

(** ** Drop phase *)

Lemma drop_step r x n :
  nodes r !! x = Some n → parent n = the_null_node → name n = [] →
  match body n with DirBody ch => ch = ∅ | FileBody _ => True end →
  drop_detached_node r x =
  Ok (Roster (root_dir r) (delete x (nodes r)) (delete x (old_locations r))).
Proof.
  intros Hn Hp Hnm Hb. unfold drop_detached_node, get_node. rewrite Hn. simpl.
  rewrite Hp, Hnm. simpl. destruct (body n) as [|ch]; [done|]. by rewrite bool_decide_true.
Qed.

Lemma drop_loop r l :
  NoDup l →
  (∀ x, x ∈ l → ∃ n, nodes r !! x = Some n ∧ parent n = the_null_node ∧ name n = [] ∧
     match body n with DirBody ch => ch = ∅ | FileBody _ => True end) →
  ∃ r', foldM drop_detached_node l r = Ok r' ∧ root_dir r' = root_dir r ∧
    (∀ i, nodes r' !! i = if decide (i ∈ l) then None else nodes r !! i) ∧
    (∀ i, old_locations r' !! i = if decide (i ∈ l) then None else old_locations r !! i).
Proof.
  intros Hnd. revert r. induction Hnd as [|x l Hx Hnd IH]; intros r Hl.
  - exists r. split_and!; [done..| |]; intros; by rewrite decide_False by set_solver.
  - destruct (Hl x) as (n & Hn & Hp & Hnm & Hb); [set_solver|].
    cbn [foldM]. rewrite (drop_step r x n) by done.
    simpl. destruct (IH (Roster (root_dir r) (delete x (nodes r)) (delete x (old_locations r))))
      as (r' & -> & Hr & Hn' & Ho').
    { intros y Hy. simpl. rewrite lookup_delete_ne by set_solver. apply Hl. set_solver. }
    exists r'. split_and!; [done|done| |]; intros i; rewrite ?Hn', ?Ho'; simpl;
      (destruct (decide (i = x)) as [->|Hi];
       [rewrite lookup_delete_eq, (decide_True (P := x ∈ x :: l)) by set_solver; by case_decide
       |rewrite lookup_delete_ne by done;
        destruct (decide (i ∈ l)), (decide (i ∈ x :: l)); set_solver]).
Qed.

(** ** Create phase *)

Lemma create_dir_loop (l : list (location * Z)) r :
  let r' := foldl (λ r i, create_dir_node r i.2) r l in
  root_dir r' = root_dir r ∧ old_locations r' = old_locations r ∧
  (∀ i, i ∈ l.*2 → nodes r' !! i = Some (Node i the_null_node [] ∅ (DirBody ∅))) ∧
  (∀ i, i ∉ l.*2 → nodes r' !! i = nodes r !! i).
Proof.
  revert r. induction l as [|[x y] l IH]; intros r; simpl.
  - split_and!; [done..|set_solver|done].
  - destruct (IH (create_dir_node r y)) as (-> & -> & H1 & H2). split_and!; [done..| |].
    + intros i Hi. destruct (decide (i ∈ l.*2)); [auto|].
      assert (i = y) as -> by set_solver. rewrite H2 by done. apply lookup_insert_eq.
    + intros i [Hi Hl]%not_elem_of_cons. rewrite H2 by done. by apply lookup_insert_ne.
Qed.

Lemma create_file_loop (l : list (location * (Z * bytes))) r :
  NoDup ((λ a, a.2.1) <$> l) →
  let r' := foldl (λ r i, create_file_node r i.2.2 i.2.1) r l in
  root_dir r' = root_dir r ∧ old_locations r' = old_locations r ∧
  (∀ x i c, (x, (i, c)) ∈ l → nodes r' !! i = Some (Node i the_null_node [] ∅ (FileBody c))) ∧
  (∀ i, (∀ x c, (x, (i, c)) ∉ l) → nodes r' !! i = nodes r !! i).
Proof.
  revert r. induction l as [|[x [y c]] l IH]; intros r Hnd; simpl.
  - split_and!; try done. set_solver.
  - rewrite fmap_cons in Hnd. apply NoDup_cons in Hnd as [Hy Hnd]. simpl in Hy.
    destruct (IH (create_file_node r c y)) as (-> & -> & H1 & H2); [done|].
    assert (∀ x c, (x, (y, c)) ∉ l) as Hy'.
    { intros x' c' Hin. apply Hy. by apply (list_elem_of_fmap_2 (λ a, a.2.1) _ (x', (y, c'))). }
    split_and!; [done..| |].
    + intros x' i c' [E|Hin]%elem_of_cons; [|by eapply H1].
      injection E as -> -> ->. rewrite H2 by done. simpl. by rewrite lookup_insert_eq.
    + intros i Hi. rewrite H2 by (intros; set_solver). simpl.
      rewrite lookup_insert_ne; [done|]. intros ->. apply (Hi x c). set_solver.
Qed.

(** ** Attach phase *)

Section attach_loop.
Context {A : Type} (id_of : A → Z) (loc_of : A → location) (r : roster).
Context (Hc : complete r).

Lemma attach_loop l X ol :
  NoDup (id_of <$> l) →
  (∀ a, a ∈ l → ∃ n, nodes r !! id_of a = Some n ∧ loc n = loc_of a ∧
     id_of a ∉ X ∧ ol !! id_of a ≠ Some (loc n)) →
  foldM (λ r a, attach_node_at r (id_of a) (loc_of a).1 (loc_of a).2) l
    (detached (list_to_set (id_of <$> l) ∪ X) r ol) =
  Ok (detached X r (filter (λ p, p.1 ∉ id_of <$> l) ol)).
Proof.
  revert ol. induction l as [|a l IH]; intros ol Hnd Hl.
  - simpl. rewrite (left_id_L ∅ (∪)), map_filter_id; [done|]. intros; set_solver.
  - rewrite fmap_cons in Hnd. apply NoDup_cons in Hnd as [Ha Hnd].
    destruct (Hl a) as (n & Hn & Hloc & HX & Hol); [set_solver|].
    cbn [foldM]. rewrite <- Hloc at 1 2.
    assert (list_to_set (id_of <$> a :: l) ∪ X =
            {[id_of a]} ∪ (list_to_set (id_of <$> l) ∪ X)) as -> by set_solver.
    simpl. rewrite (attach_node_at_step r _ (id_of a) n); [|done|done| |done].
    2:{ rewrite not_elem_of_union, elem_of_list_to_set. done. }
    cbn [mbind result_bind]. rewrite IH; [|done|].
    + do 2 f_equal. apply map_eq. intros i. apply option_eq. intros x.
      rewrite !map_lookup_filter_Some, lookup_delete_Some. simpl. set_solver.
    + intros b Hb. destruct (Hl b) as (m & Hm & ? & ? & ?); [set_solver|].
      exists m. split_and!; [done..|]. rewrite lookup_delete_ne; [done|].
      intros E. apply Ha. rewrite E. by apply list_elem_of_fmap_2.
Qed.
End attach_loop.

(** ** Edit phase *)

Lemma set_content_step r x n c0 c :
  nodes r !! x = Some n → body n = FileBody c0 → c0 ≠ c →
  set_content r x c = Ok (set_nodes r (alter (with_body (FileBody c)) x (nodes r))).
Proof.
  intros Hn Hb Hne. unfold set_content, get_node, downcast_to_file_t. rewrite Hn. simpl.
  rewrite Hb. simpl. by rewrite bool_decide_false.
Qed.

Lemma erase_attr_step r x n a v :
  nodes r !! x = Some n → attrs n !! a = Some v →
  erase_attr r x a = Ok (set_nodes r (alter (with_attrs (delete a (attrs n))) x (nodes r))).
Proof.
  intros Hn Hv. unfold erase_attr, get_node, safe_erase. rewrite Hn. simpl. by rewrite Hv.
Qed.

Lemma set_attr_step r x n a v :
  nodes r !! x = Some n → v.1 || bool_decide (v.2 = []) = true → attrs n !! a ≠ Some v →
  set_attr_unknown_to_dead_ok r x a v =
  Ok (set_nodes r (alter (with_attrs (<[a:=v]> (attrs n))) x (nodes r))).
Proof.
  intros Hn Hok Hne. unfold set_attr_unknown_to_dead_ok, get_node. rewrite Hn. simpl.
  rewrite Hok. simpl. by rewrite bool_decide_false.
Qed.

Lemma content_loop (l : list (Z * bytes)) r :
  NoDup l.*1 →
  (∀ i c, (i, c) ∈ l → ∃ n c0, nodes r !! i = Some n ∧ body n = FileBody c0 ∧ c0 ≠ c) →
  ∃ r', foldM (λ r i, set_content r i.1 i.2) l r = Ok r' ∧
    root_dir r' = root_dir r ∧ old_locations r' = old_locations r ∧
    (∀ i c, (i, c) ∈ l → nodes r' !! i = with_body (FileBody c) <$> nodes r !! i) ∧
    (∀ i, i ∉ l.*1 → nodes r' !! i = nodes r !! i).
Proof.
  revert r. induction l as [|[x c] l IH]; intros r Hnd Hl.
  - exists r. split_and!; try done; by intros ? ? ?%not_elem_of_nil.
  - rewrite fmap_cons in Hnd. apply NoDup_cons in Hnd as [Hx Hnd]. simpl in Hx.
    destruct (Hl x c) as (n & c0 & Hn & Hb & Hne); [by left|].
    cbn [foldM fst snd]. rewrite (set_content_step _ _ _ _ _ Hn Hb Hne). cbn [mbind result_bind].
    destruct (IH (set_nodes r (alter (with_body (FileBody c)) x (nodes r))))
      as (r' & -> & Hr & Ho & H1 & H2); [done| |].
    { intros i c' Hi. simpl. rewrite lookup_alter_ne; [apply Hl; by right|].
      intros <-. apply Hx. by apply (list_elem_of_fmap_2 fst _ (x, c')). }
    exists r'. split_and!; [done..| |].
    + intros i c' [[= -> ->]|Hi]%elem_of_cons.
      * rewrite H2 by done. simpl. by rewrite lookup_alter_eq.
      * rewrite (H1 i c') by done. simpl. rewrite lookup_alter_ne; [done|].
        intros <-. apply Hx. by apply (list_elem_of_fmap_2 fst _ (x, c')).
    + intros i [Hi Hil]%not_elem_of_cons. rewrite H2 by done. simpl.
      by rewrite lookup_alter_ne.
Qed.

Definition node_attr (r : roster) (i : Z) (a : bytes) : option (bool * bytes) :=
  nodes r !! i ≫= λ n, attrs n !! a.
Definition bare (r : roster) (i : Z) : option node := with_attrs ∅ <$> nodes r !! i.

(** [r'] is [r] up to the attributes of its nodes. *)
Definition same_bare (r r' : roster) : Prop :=
  root_dir r' = root_dir r ∧ old_locations r' = old_locations r ∧ ∀ i, bare r' i = bare r i.

Lemma alter_attrs_bare r x n a :
  nodes r !! x = Some n → same_bare r (set_nodes r (alter (with_attrs a) x (nodes r))).
Proof.
  intros Hn. split_and!; [done..|]. intros i. unfold bare. simpl. rewrite lookup_alter_at.
  destruct (nodes r !! i); simpl; [|done]. by case_decide.
Qed.

Lemma same_bare_trans r1 r2 r3 : same_bare r1 r2 → same_bare r2 r3 → same_bare r1 r3.
Proof.
  intros (?&?&E) (?&?&F). unfold same_bare. split; [congruence|]. split; [congruence|]. intros i. by rewrite F, E. Qed.

Lemma same_bare_is_Some r r' i :
  same_bare r r' → is_Some (nodes r !! i) → is_Some (nodes r' !! i).
Proof.
  intros (_&_&E) [n Hn]. specialize (E i). unfold bare in E. rewrite Hn in E.
  destruct (nodes r' !! i); [eauto|done].
Qed.

Lemma cleared_loop (l : list (Z * bytes)) r :
  NoDup l → (∀ i a, (i, a) ∈ l → is_Some (node_attr r i a)) →
  ∃ r', foldM (λ r i, erase_attr r i.1 i.2) l r = Ok r' ∧ same_bare r r' ∧
    (∀ i a, (i, a) ∈ l → node_attr r' i a = None) ∧
    (∀ i a, (i, a) ∉ l → node_attr r' i a = node_attr r i a).
Proof.
  intros Hnd. revert r. induction Hnd as [|[x a] l Hx Hnd IH]; intros r Hl.
  - exists r. split_and!; try done; by intros ? ? ?%not_elem_of_nil.
  - destruct (Hl x a) as [v Hv]; [by left|]. unfold node_attr in Hv.
    destruct (nodes r !! x) as [n|] eqn:Hn; simpl in Hv; [|done].
    cbn [foldM fst snd]. rewrite (erase_attr_step _ _ _ _ _ Hn Hv). cbn [mbind result_bind].
    set (r1 := set_nodes r (alter (with_attrs (delete a (attrs n))) x (nodes r))).
    assert (∀ i b, node_attr r1 i b = if decide (i = x ∧ b = a) then None else node_attr r i b) as H1.
    { intros i b. unfold node_attr. simpl. rewrite lookup_alter_at.
      destruct (decide (x = i)) as [->|Hi]; simpl.
      - rewrite Hn. simpl. rewrite lookup_delete.
        destruct (decide (a = b)), (decide (i = i ∧ b = a)); naive_solver.
      - rewrite decide_False by naive_solver. by destruct (nodes r !! i). }
    destruct (IH r1) as (r' & -> & Hsb & H2 & H3).
    { intros i b Hi. rewrite H1, decide_False; [apply Hl; by right|].
      intros [-> ->]. done. }
    exists r'. split_and!; [done| | |].
    + eapply same_bare_trans; [by apply (alter_attrs_bare r x n)|done].
    + intros i b [[= -> ->]|Hi]%elem_of_cons; [|by apply H2].
      rewrite H3, H1 by done. by rewrite decide_True.
    + intros i b [Hi Hil]%not_elem_of_cons. rewrite H3, H1 by done.
      rewrite decide_False; [done|]. naive_solver.
Qed.

Lemma changed_loop (l : list (Z * (bytes * (bool * bytes)))) r :
  NoDup ((λ x, (x.1, x.2.1)) <$> l) →
  (∀ i a v, (i, (a, v)) ∈ l →
     is_Some (nodes r !! i) ∧ v.1 || bool_decide (v.2 = []) = true ∧ node_attr r i a ≠ Some v) →
  ∃ r', foldM (λ r i, set_attr_unknown_to_dead_ok r i.1 i.2.1 i.2.2) l r = Ok r' ∧
    same_bare r r' ∧
    (∀ i a v, (i, (a, v)) ∈ l → node_attr r' i a = Some v) ∧
    (∀ i a, (∀ v, (i, (a, v)) ∉ l) → node_attr r' i a = node_attr r i a).
Proof.
  revert r. induction l as [|[x [a v]] l IH]; intros r Hnd Hl.
  - exists r. split_and!; try done; by intros ? ? ? ?%not_elem_of_nil.
  - rewrite fmap_cons in Hnd. apply NoDup_cons in Hnd as [Hx Hnd]. simpl in Hx.
    assert (∀ v, (x, (a, v)) ∉ l) as Hx'.
    { intros w Hw. apply Hx. by apply (list_elem_of_fmap_2 (λ x, (x.1, x.2.1)) _ (x, (a, w))). }
    destruct (Hl x a v) as ([n Hn] & Hok & Hne); [by left|].
    unfold node_attr in Hne. rewrite Hn in Hne. simpl in Hne.
    cbn [foldM fst snd]. rewrite (set_attr_step _ _ _ _ _ Hn Hok Hne). cbn [mbind result_bind].
    set (r1 := set_nodes r (alter (with_attrs (<[a:=v]> (attrs n))) x (nodes r))).
    assert (∀ i b, node_attr r1 i b = if decide (i = x ∧ b = a) then Some v else node_attr r i b) as H1.
    { intros i b. unfold node_attr. simpl. rewrite lookup_alter_at.
      destruct (decide (x = i)) as [->|Hi]; simpl.
      - rewrite Hn. simpl. rewrite lookup_insert.
        destruct (decide (a = b)), (decide (i = i ∧ b = a)); naive_solver.
      - rewrite decide_False by naive_solver. by destruct (nodes r !! i). }
    assert (same_bare r r1) as Hsb1 by (by apply (alter_attrs_bare r x n)).
    destruct (IH r1) as (r' & -> & Hsb & H2 & H3); [done| |].
    { intros i b w Hi. destruct (Hl i b w) as (Hs & ? & ?); [by right|].
      split_and!; [by eapply same_bare_is_Some | done |].
      rewrite H1, decide_False; [done|]. intros [-> ->]. by eapply Hx'. }
    exists r'. split_and!; [done | by eapply same_bare_trans | |].
    + intros i b w [[= -> -> ->]|Hi]%elem_of_cons; [|by apply H2].
      rewrite H3, H1 by done. by rewrite decide_True.
    + intros i b Hi. rewrite H3 by (intros w Hw; apply (Hi w); set_solver). rewrite H1.
      rewrite decide_False; [done|]. intros [-> ->]. apply (Hi v). by left.
Qed.

(** Two rosters with the same shape and the same attributes are equal. *)
Lemma same_bare_eq r r' :
  same_bare r r' → (∀ i a, node_attr r' i a = node_attr r i a) → r' = r.
Proof.
  intros (Hr & Ho & Hb) Ha. destruct r as [ro m ol], r' as [ro' m' ol']; simpl in *. subst.
  f_equal. apply map_eq. intros i. specialize (Hb i). specialize (Ha i).
  unfold bare, node_attr in *. simpl in *.
  destruct (m' !! i) as [n'|], (m !! i) as [n|]; simpl in *; try done. f_equal.
  destruct n, n'; unfold with_attrs in Hb; simpl in *. simplify_eq. f_equal.
  by apply map_eq.
Qed.

(** ** The roster between the structural phases and the edits

    The shape of [to], with the attributes and the file contents of [from]
    where the node is in both. *)
Definition mid_node (o : option node) (n' : node) : node :=
  match o with
  | None => with_attrs ∅ n'
  | Some n =>
      with_attrs (attrs n)
        match body n, body n' with
        | FileBody c, FileBody _ => with_body (FileBody c) n'
        | _, _ => n'
        end
  end.

#[local] Arguments mid_node : simpl never.

Definition mid (from to : roster) : roster :=
  Roster (root_dir to) (map_imap (λ i n', Some (mid_node (nodes from !! i) n')) (nodes to)) ∅.

Lemma lookup_mid from to i : nodes (mid from to) !! i = mid_node (nodes from !! i) <$> nodes to !! i.
Proof. simpl. rewrite map_lookup_imap. by destruct (nodes to !! i). Qed.

Lemma self_mid o n : self (mid_node o n) = self n.
Proof. destruct o as [[????[]]|], n as [????[]]; done. Qed.
Lemma parent_mid o n : parent (mid_node o n) = parent n.
Proof. destruct o as [[????[]]|], n as [????[]]; done. Qed.
Lemma name_mid o n : name (mid_node o n) = name n.
Proof. destruct o as [[????[]]|], n as [????[]]; done. Qed.
Lemma dir_mid o n ch : body (mid_node o n) = DirBody ch ↔ body n = DirBody ch.
Proof. destruct o as [[????[]]|], n as [????[]]; done. Qed.
Lemma attrs_mid o n : attrs (mid_node o n) = from_option attrs ∅ o.
Proof. destruct o as [[????[]]|], n as [????[]]; done. Qed.

Lemma mid_Some from to i m :
  nodes (mid from to) !! i = Some m ↔ ∃ n, nodes to !! i = Some n ∧ m = mid_node (nodes from !! i) n.
Proof. rewrite lookup_mid, fmap_Some. done. Qed.

Lemma mid_complete from to : complete to → complete (mid from to).
Proof.
  intros [Hwf Hroot Hhas _]. split; [split| |done|done].
  - intros i m (n & Hn & ->)%mid_Some. rewrite self_mid. by apply (wf_self to Hwf).
  - intros i m ch pc c (n & Hn & ->)%mid_Some Hb Hc. rewrite dir_mid in Hb.
    destruct (wf_child to Hwf _ _ _ _ _ Hn Hb Hc) as (? & cn & Hcn & <- & <-).
    split; [done|]. exists (mid_node (nodes from !! c) cn).
    rewrite mid_Some, parent_mid, name_mid. eauto.
  - intros i m (n & Hn & ->)%mid_Some. rewrite parent_mid, name_mid. intros Hp.
    destruct (wf_parent to Hwf _ _ Hn Hp) as (p & ch & Hpn & Hb & Hc).
    exists (mid_node (nodes from !! parent n) p), ch. rewrite mid_Some, dir_mid. eauto.
  - intros i m (n & Hn & ->)%mid_Some. rewrite parent_mid, name_mid. by apply (wf_null to Hwf i).
  - intros i Hi. destruct (wf_root to Hwf i Hi) as (n & Hn & Hd & Hp).
    exists (mid_node (nodes from !! i) n). rewrite mid_Some, parent_mid. split_and!; [eauto| |done].
    unfold is_dir_t in *. destruct (body n) eqn:Hb; [done|].
    assert (body (mid_node (nodes from !! i) n) = DirBody children) as -> by (by apply dir_mid). done.
  - intros i m (n & Hn & ->)%mid_Some. rewrite parent_mid. by apply (Hroot i).
Qed.

Section roundtrip.
Context (from to : roster) (fm tm : marking_map) (d : roster_delta_t).
Context (Hf : complete from) (Ht : complete to) (Hkind : same_kinds from to).
Context (Hd : delta_of from fm to tm d).

Definition ids_deleted : gset Z := nodes_deleted d.
Definition ids_renamed : gset Z := list_to_set (map_iter (nodes_renamed d)).*1.
Definition ids_dirs : gset Z := list_to_set (map_iter (dirs_added d)).*2.
Definition ids_files : gset Z := list_to_set ((λ a, a.2.1) <$> map_iter (files_added d)).

Lemma in_deleted i : i ∈ ids_deleted ↔ is_Some (nodes from !! i) ∧ nodes to !! i = None.
Proof. apply (do_deleted _ _ _ _ _ Hd). Qed.

Lemma in_renamed i : i ∈ ids_renamed ↔
  ∃ n n', nodes from !! i = Some n ∧ nodes to !! i = Some n' ∧ loc n ≠ loc n'.
Proof.
  unfold ids_renamed. rewrite elem_of_list_to_set, list_elem_of_fmap. split.
  - intros ([j x] & -> & Hj). apply elem_of_map_iter, (do_renamed _ _ _ _ _ Hd) in Hj.
    naive_solver.
  - intros (n & n' & Hn & Hn' & Hne). exists (i, loc n'). split; [done|].
    apply elem_of_map_iter, (do_renamed _ _ _ _ _ Hd). eauto 10.
Qed.

Lemma in_dirs i : i ∈ ids_dirs ↔
  nodes from !! i = None ∧ ∃ n ch, nodes to !! i = Some n ∧ body n = DirBody ch.
Proof.
  unfold ids_dirs. rewrite elem_of_list_to_set, list_elem_of_fmap. split.
  - intros ([x j] & -> & Hj). apply elem_of_map_iter, (do_dir _ _ _ _ _ Hd) in Hj.
    naive_solver.
  - intros (Hn & n' & ch & Hn' & Hb). exists (loc n', i). split; [done|].
    apply elem_of_map_iter, (do_dir _ _ _ _ _ Hd). eauto 10.
Qed.

Lemma in_files i : i ∈ ids_files ↔
  nodes from !! i = None ∧ ∃ n c, nodes to !! i = Some n ∧ body n = FileBody c.
Proof.
  unfold ids_files. rewrite elem_of_list_to_set, list_elem_of_fmap. split.
  - intros ([x [j c]] & -> & Hj). apply elem_of_map_iter, (do_file _ _ _ _ _ Hd) in Hj.
    naive_solver.
  - intros (Hn & n' & c & Hn' & Hb). exists (loc n', (i, c)). split; [done|].
    apply elem_of_map_iter, (do_file _ _ _ _ _ Hd). eauto 10.
Qed.

(** A node that stays is neither deleted nor renamed, and sits at the same place. *)
Lemma stays i n :
  nodes from !! i = Some n → i ∉ ids_deleted ∪ ids_renamed →
  ∃ n', nodes to !! i = Some n' ∧ loc n = loc n'.
Proof.
  intros Hn [H1 H2]%not_elem_of_union. rewrite in_deleted in H1. rewrite in_renamed in H2.
  destruct (nodes to !! i) as [n'|]; [|naive_solver].
  exists n'. split; [done|]. destruct (decide (loc n = loc n')); [done|naive_solver].
Qed.

Lemma not_new i n :
  nodes from !! i = Some n → i ∉ ids_dirs ∪ (ids_files ∪ ids_renamed) ↔ i ∉ ids_renamed.
Proof.
  intros Hn. rewrite !not_elem_of_union, in_dirs, in_files. naive_solver.
Qed.

Lemma not_old i n :
  nodes to !! i = Some n → i ∉ ids_deleted ∪ ids_renamed ↔ i ∉ ids_renamed.
Proof. intros Hn. rewrite !not_elem_of_union, in_deleted. naive_solver. Qed.

Lemma new_in i n' :
  nodes from !! i = None → nodes to !! i = Some n' → i ∈ ids_dirs ∪ (ids_files ∪ ids_renamed).
Proof.
  intros Hn Hn'. rewrite !elem_of_union, in_dirs, in_files.
  destruct (body n') as [c|ch] eqn:Hb; [right; left | left]; eauto.
Qed.

(** A child stays put in [from] exactly when it stays put in [to]. *)
Lemma keep_both i n n' ch ch' :
  nodes from !! i = Some n → nodes to !! i = Some n' →
  body n = DirBody ch → body n' = DirBody ch' →
  keep (ids_deleted ∪ ids_renamed) ch = keep (ids_dirs ∪ (ids_files ∪ ids_renamed)) ch'.
Proof.
  intros Hn Hn' Hb Hb'. apply map_eq. intros pc. apply option_eq. intros c.
  rewrite !keep_lookup. pose proof (complete_wf _ Hf) as Wf. pose proof (complete_wf _ Ht) as Wt.
  split.
  - intros [Hc Hs]. destruct (wf_child _ Wf _ _ _ _ _ Hn Hb Hc) as (_ & cn & Hcn & Hp & Hnm).
    destruct (stays _ _ Hcn Hs) as (cn' & Hcn' & [= E1 E2]).
    rewrite (not_new _ _ Hcn). rewrite (not_old _ _ Hcn') in Hs. split; [|done].
    destruct (wf_parent _ Wt _ _ Hcn') as (p & ch0 & Hp0 & Hb0 & Hc0).
    { rewrite <- E1, Hp. by destruct (wf_self _ Wf _ _ Hn). }
    rewrite <- E1, Hp in Hp0. rewrite <- E2, Hnm in Hc0. congruence.
  - intros [Hc Hs]. destruct (wf_child _ Wt _ _ _ _ _ Hn' Hb' Hc) as (_ & cn' & Hcn' & Hp & Hnm).
    destruct (nodes from !! c) as [cn|] eqn:Hcn.
    2:{ by destruct Hs; eapply new_in. }
    rewrite (not_new _ _ Hcn) in Hs. rewrite (not_old _ _ Hcn'). split; [|done].
    destruct (stays c cn Hcn) as (cn0 & Hcn0 & [= E1 E2]); [by rewrite (not_old _ _ Hcn')|].
    assert (cn0 = cn') as -> by congruence.
    destruct (wf_parent _ Wf _ _ Hcn) as (p & ch0 & Hp0 & Hb0 & Hc0).
    { rewrite E1, Hp. by destruct (wf_self _ Wt _ _ Hn'). }
    rewrite E1, Hp in Hp0. rewrite E2, Hnm in Hc0. congruence.
Qed.

(** Everything in a new directory is new there. *)
Lemma keep_new i n' ch :
  nodes from !! i = None → nodes to !! i = Some n' → body n' = DirBody ch →
  keep (ids_dirs ∪ (ids_files ∪ ids_renamed)) ch = ∅.
Proof.
  intros Hn Hn' Hb. apply map_empty. intros pc. apply eq_None_not_Some. intros [c Hc].
  apply keep_lookup in Hc as [Hc Hs].
  destruct (wf_child _ (complete_wf _ Ht) _ _ _ _ _ Hn' Hb Hc) as (_ & cn' & Hcn' & Hp & Hnm).
  destruct (nodes from !! c) as [cn|] eqn:Hcn.
  2:{ by destruct Hs; eapply new_in. }
  rewrite (not_new _ _ Hcn) in Hs.
  destruct (stays c cn Hcn) as (cn0 & Hcn0 & [= E1 E2]); [by rewrite (not_old _ _ Hcn')|].
  assert (cn0 = cn') as -> by congruence.
  destruct (wf_parent _ (complete_wf _ Hf) _ _ Hcn) as (p & ch0 & Hp0 & _).
  { rewrite E1, Hp. by destruct (wf_self _ (complete_wf _ Ht) _ _ Hn'). }
  rewrite E1, Hp in Hp0. congruence.
Qed.

(** Everything in a deleted directory leaves it. *)
Lemma keep_deleted i n ch :
  nodes from !! i = Some n → nodes to !! i = None → body n = DirBody ch →
  keep (ids_deleted ∪ ids_renamed) ch = ∅.
Proof.
  intros Hn Hn' Hb. apply map_empty. intros pc. apply eq_None_not_Some. intros [c Hc].
  apply keep_lookup in Hc as [Hc Hs].
  destruct (wf_child _ (complete_wf _ Hf) _ _ _ _ _ Hn Hb Hc) as (_ & cn & Hcn & Hp & Hnm).
  destruct (stays c cn Hcn Hs) as (cn' & Hcn' & [= E1 E2]).
  destruct (wf_parent _ (complete_wf _ Ht) _ _ Hcn') as (p & ch0 & Hp0 & _).
  { rewrite <- E1, Hp. by destruct (wf_self _ (complete_wf _ Hf) _ _ Hn). }
  rewrite <- E1, Hp in Hp0. congruence.
Qed.

Lemma root_middle :
  root_dir (detached (ids_deleted ∪ ids_renamed) from ∅) =
  root_dir (detached (ids_dirs ∪ (ids_files ∪ ids_renamed)) (mid from to) ∅).
Proof.
  simpl. destruct (complete_has_root _ Hf) as [a Ha], (complete_has_root _ Ht) as [b Hb].
  rewrite Ha, Hb. simpl.
  destruct (wf_root _ (complete_wf _ Hf) _ Ha) as (n & Hn & _ & Hp).
  destruct (wf_root _ (complete_wf _ Ht) _ Hb) as (m & Hm & _ & Hq).
  assert (loc n = (the_null_node, [])) as Ln
    by (unfold loc; by rewrite Hp, (wf_null _ (complete_wf _ Hf) _ _ Hn Hp)).
  assert (loc m = (the_null_node, [])) as Lm
    by (unfold loc; by rewrite Hq, (wf_null _ (complete_wf _ Ht) _ _ Hm Hq)).
  destruct (decide (a ∈ ids_deleted ∪ ids_renamed)) as [Da|Da].
  - rewrite decide_True; [done|].
    destruct (nodes from !! b) as [n2|] eqn:Hb2; [|by eapply new_in].
    rewrite !elem_of_union, in_renamed. right; right. exists n2, m. split_and!; [done..|]. intros E.
    assert (a = b) as <- by (apply (loc_inj from a b n n2 Hf Hn Hb2); congruence).
    rewrite elem_of_union, in_deleted, in_renamed in Da.
    destruct Da as [[_ ?]|(? & ? & ? & ? & ?)]; congruence.
  - destruct (stays a n Hn Da) as (n' & Hn' & E).
    assert (a = b) as <- by (apply (loc_inj to a b n' m Ht Hn' Hm); congruence).
    rewrite decide_False; [done|]. rewrite (not_new a n Hn). by rewrite <- (not_old a n' Hn').
Qed.

(** The state after the detach, drop and create phases. *)
Lemma middle_state r1 r2 r3 :
  root_dir r1 = root_dir (detached (ids_deleted ∪ ids_renamed) from ∅) →
  (∀ i, nodes r1 !! i = if decide (i ∈ ids_deleted) then None
                        else strip (ids_deleted ∪ ids_renamed) i <$> nodes from !! i) →
  root_dir r2 = root_dir r1 →
  (∀ i, i ∈ ids_dirs → nodes r2 !! i = Some (Node i the_null_node [] ∅ (DirBody ∅))) →
  (∀ i, i ∉ ids_dirs → nodes r2 !! i = nodes r1 !! i) →
  root_dir r3 = root_dir r2 →
  (∀ i n c, nodes from !! i = None → nodes to !! i = Some n → body n = FileBody c →
     nodes r3 !! i = Some (Node i the_null_node [] ∅ (FileBody c))) →
  (∀ i, i ∉ ids_files → nodes r3 !! i = nodes r2 !! i) →
  r3 = detached (ids_dirs ∪ (ids_files ∪ ids_renamed)) (mid from to) (old_locations r3).
Proof.
  intros R1 N1 R2 D2 N2 R3 F3 N3.
  rewrite R2, R1, root_middle in R3. destruct r3 as [ro m ol]; simpl in *.
  unfold detached. simpl. f_equal; [done|]. apply map_eq. intros i.
  rewrite lookup_stripped, map_lookup_imap.
  destruct (nodes to !! i) as [n'|] eqn:Hn'; simpl.
  2:{ rewrite N3, N2, N1 by (rewrite ?in_files, ?in_dirs; naive_solver).
      case_decide as Hdel; [done|]. rewrite in_deleted in Hdel.
      destruct (nodes from !! i); simpl; naive_solver. }
  destruct (wf_self _ (complete_wf _ Ht) _ _ Hn') as [Hself _].
  destruct (nodes from !! i) as [n|] eqn:Hn.
  - rewrite N3, N2, N1 by (rewrite ?in_files, ?in_dirs; naive_solver).
    rewrite decide_False by (rewrite in_deleted; naive_solver). rewrite Hn. simpl. f_equal.
    destruct (wf_self _ (complete_wf _ Hf) _ _ Hn) as [Hself' _].
    assert (i ∈ ids_deleted ∪ ids_renamed ↔ i ∈ ids_dirs ∪ (ids_files ∪ ids_renamed)) as Hiff.
    { pose proof (not_new i n Hn). pose proof (not_old i n' Hn').
      destruct (decide (i ∈ ids_deleted ∪ ids_renamed)),
        (decide (i ∈ ids_dirs ∪ (ids_files ∪ ids_renamed))); tauto. }
    assert (i ∉ ids_dirs ∪ (ids_files ∪ ids_renamed) → loc n = loc n') as Hloc.
    { rewrite <- Hiff. intros Hs. destruct (stays i n Hn Hs) as (? & ? & ?). congruence. }
    pose proof (Hkind i n n' Hn Hn') as Hk. unfold is_file_t in Hk.
    apply node_eq; rewrite ?self_strip, ?attrs_strip, ?parent_strip, ?name_strip, ?body_strip.
    + by rewrite (self_mid (Some n)), Hself, Hself'.
    + rewrite (parent_mid (Some n)), (decide_ext _ _ _ _ Hiff).
      case_decide as Hi; [done|]. by injection (Hloc Hi).
    + rewrite (name_mid (Some n)), (decide_ext _ _ _ _ Hiff).
      case_decide as Hi; [done|]. by injection (Hloc Hi).
    + by rewrite (attrs_mid (Some n)).
    + unfold mid_node. destruct (body n) as [c|ch] eqn:Hb, (body n') as [c'|ch'] eqn:Hb'; try done; simpl.
      rewrite Hb'. by rewrite (keep_both i n n' ch ch').
  - assert (i ∈ ids_dirs ∪ (ids_files ∪ ids_renamed)) as Hi by (by eapply new_in).
    destruct (body n') as [c|ch] eqn:Hb.
    + rewrite (F3 i n' c) by done. f_equal. unfold strip. rewrite decide_True by done.
      destruct n'; simpl in *; by subst.
    + rewrite N3 by (rewrite in_files; intros (_ & ? & ? & ? & ?); congruence).
      rewrite D2 by (rewrite in_dirs; eauto). f_equal.
      unfold strip. rewrite decide_True by done. pose proof (keep_new i n' ch Hn Hn' Hb) as Hk.
      destruct n'; simpl in *; subst. unfold with_loc; simpl. by rewrite Hk.
Qed.

Lemma detach_phase :
  apply_detach d from =
  Ok (detached (ids_deleted ∪ ids_renamed) from (old_map (ids_deleted ∪ ids_renamed) from)).
Proof.
  unfold apply_detach.
  assert (from = detached ∅ from (old_map ∅ from)) as E.
  { rewrite <- (detached_empty from) at 1. f_equal. rewrite (complete_old _ Hf). symmetry.
    apply map_empty. intros i. by rewrite lookup_old_map, decide_False by set_solver. }
  rewrite E at 1. rewrite (detach_loop from (set_iter (nodes_deleted d)) ∅);
    [|done|apply NoDup_set_iter|].
  2:{ intros x Hx. rewrite elem_of_set_iter in Hx.
      split; [by apply in_deleted in Hx as [? _]|set_solver]. }
  cbn [mbind result_bind]. rewrite (foldM_fmap detach_node_id fst).
  rewrite list_to_set_set_iter, (right_id_L ∅ (∪)).
  rewrite (detach_loop from); [|done|apply NoDup_fst_map_iter|].
  - fold ids_renamed. by rewrite (comm_L (∪)).
  - intros x Hx. assert (x ∈ ids_renamed) as Hr by (by apply elem_of_list_to_set).
    rewrite in_renamed in Hr. destruct Hr as (n & n' & Hn & Hn' & _).
    split; [by eexists|]. fold ids_deleted. rewrite in_deleted. intros [_ ?]. congruence.
Qed.

Lemma drop_phase r0 :
  r0 = detached (ids_deleted ∪ ids_renamed) from (old_map (ids_deleted ∪ ids_renamed) from) →
  ∃ r1, apply_drop d r0 = Ok r1 ∧
    root_dir r1 = root_dir (detached (ids_deleted ∪ ids_renamed) from ∅) ∧
    (∀ i, nodes r1 !! i = if decide (i ∈ ids_deleted) then None
                          else strip (ids_deleted ∪ ids_renamed) i <$> nodes from !! i) ∧
    old_locations r1 = old_map ids_renamed from.
Proof.
  intros ->. unfold apply_drop.
  destruct (drop_loop
    (detached (ids_deleted ∪ ids_renamed) from (old_map (ids_deleted ∪ ids_renamed) from)) (set_iter (nodes_deleted d))) as (r1 & E1 & R1 & N1 & O1);
    [apply NoDup_set_iter| |exists r1; split; [exact E1|]].
  - intros x Hx. rewrite elem_of_set_iter in Hx. assert (x ∈ ids_deleted) as Hx' by done.
    apply in_deleted in Hx as [[n Hn] Hn']. simpl. rewrite lookup_stripped, Hn.
    eexists. split; [done|]. rewrite parent_strip, name_strip, body_strip, !decide_True by set_solver.
    split_and!; [done..|]. destruct (body n) eqn:Hb; [done|]. by eapply keep_deleted.
  - split_and!; [done| |].
    + intros i. rewrite N1. rewrite (decide_ext (i ∈ set_iter (nodes_deleted d)) (i ∈ ids_deleted))
        by apply elem_of_set_iter. simpl. by rewrite lookup_stripped.
    + apply map_eq. intros i. rewrite O1. simpl. rewrite !lookup_old_map.
      destruct (decide (i ∈ set_iter (nodes_deleted d))) as [Hi|Hi].
      * rewrite elem_of_set_iter in Hi. apply in_deleted in Hi as [_ Hi].
        rewrite decide_False; [done|]. rewrite in_renamed. intros (? & ? & ? & ? & ?). congruence.
      * rewrite elem_of_set_iter in Hi. apply decide_ext. unfold ids_deleted. set_solver.
Qed.

(** Each id is added once. *)
Lemma NoDup_ids_files : NoDup ((λ a, a.2.1) <$> map_iter (files_added d)).
Proof.
  apply NoDup_fmap_2_strong; [|apply NoDup_map_iter].
  intros [x [i c]] [y [j e]] Hx Hy. simpl. intros ->.
  apply elem_of_map_iter, (do_file _ _ _ _ _ Hd) in Hx as (n & _ & ? & ? & ->).
  apply elem_of_map_iter, (do_file _ _ _ _ _ Hd) in Hy as (m & _ & ? & ? & ->).
  assert (n = m) as -> by congruence. congruence.
Qed.

Lemma NoDup_ids_dirs : NoDup (map_iter (dirs_added d)).*2.
Proof.
  apply NoDup_fmap_2_strong; [|apply NoDup_map_iter].
  intros [x i] [y j] Hx Hy. simpl. intros ->.
  apply elem_of_map_iter, (do_dir _ _ _ _ _ Hd) in Hx as (n & _ & _ & ? & _ & ->).
  apply elem_of_map_iter, (do_dir _ _ _ _ _ Hd) in Hy as (m & _ & _ & ? & _ & ->).
  assert (n = m) as -> by congruence. done.
Qed.

Lemma create_phase r1 :
  root_dir r1 = root_dir (detached (ids_deleted ∪ ids_renamed) from ∅) →
  (∀ i, nodes r1 !! i = if decide (i ∈ ids_deleted) then None
                        else strip (ids_deleted ∪ ids_renamed) i <$> nodes from !! i) →
  apply_create d r1 =
  detached (ids_dirs ∪ (ids_files ∪ ids_renamed)) (mid from to) (old_locations r1).
Proof.
  intros R1 N1. unfold apply_create.
  destruct (create_dir_loop (map_iter (dirs_added d)) r1) as (R2 & O2 & D2 & N2).
  set (r2 := foldl (λ r i, create_dir_node r i.2) r1 (map_iter (dirs_added d))) in *.
  destruct (create_file_loop (map_iter (files_added d)) r2) as (R3 & O3 & F3 & N3).
  { apply NoDup_ids_files. }
  set (r3 := foldl (λ r i, create_file_node r i.2.2 i.2.1) r2 (map_iter (files_added d))) in *.
  rewrite <- O2, <- O3. apply (middle_state r1 r2 r3); try done.
  - intros i Hi. apply D2. by apply elem_of_list_to_set in Hi.
  - intros i Hi. apply N2. intros Hin. apply Hi. by apply elem_of_list_to_set.
  - intros i n c Hn Hn' Hb. apply (F3 (loc n)).
    apply elem_of_map_iter, (do_file _ _ _ _ _ Hd). eauto.
  - intros i Hi. apply N3. intros x c Hin. apply Hi. apply elem_of_list_to_set.
    by apply (list_elem_of_fmap_2 (λ a, a.2.1) _ (x, (i, c))).
Qed.

(** A renamed node's recorded location is never its new one. *)
Lemma old_map_fresh i n' :
  nodes to !! i = Some n' → old_map ids_renamed from !! i ≠ Some (loc n').
Proof.
  intros Hn'. rewrite lookup_old_map. case_decide as Hi; [|done].
  rewrite in_renamed in Hi. destruct Hi as (n & n2 & Hn & Hn2 & Hne).
  assert (n2 = n') as -> by congruence. rewrite Hn. simpl. intros [= E1 E2].
  apply Hne. unfold loc. rewrite <- E1, E2.
  rewrite (wf_null _ (complete_wf _ Ht) _ _ Hn') in E2 by done.
  destruct (decide (parent n = the_null_node)) as [->|Hp].
  - by rewrite (wf_null _ (complete_wf _ Ht) _ _ Hn').
  - by destruct (wf_parent_name _ _ _ (complete_wf _ Hf) Hn Hp).
Qed.

Lemma attach_phase :
  apply_attach d (detached (ids_dirs ∪ (ids_files ∪ ids_renamed)) (mid from to)
                    (old_map ids_renamed from)) = Ok (mid from to).
Proof.
  unfold apply_attach. pose proof (mid_complete from to Ht) as Hm.
  assert (∀ i n' ol, nodes to !! i = Some n' → ol ⊆ old_map ids_renamed from →
    ∃ m, nodes (mid from to) !! i = Some m ∧ loc m = loc n' ∧ ol !! i ≠ Some (loc m)) as Hgen.
  { intros i n' ol Hn' Hol. exists (mid_node (nodes from !! i) n').
    assert (loc (mid_node (nodes from !! i) n') = loc n') as E
      by (unfold loc; by rewrite parent_mid, name_mid).
    split_and!; [rewrite mid_Some; eauto|done|]. rewrite E. intros F.
    eapply old_map_fresh; [done|]. by eapply lookup_weaken. }
  unfold ids_dirs. rewrite (attach_loop snd fst); [|done|apply NoDup_ids_dirs|].
  2:{ intros [x i] Hin. pose proof Hin as Hid.
      apply (list_elem_of_fmap_2 snd), (elem_of_list_to_set (C := gset Z)) in Hid.
      fold ids_dirs in Hid. simpl in Hid. rewrite in_dirs in Hid.
      apply elem_of_map_iter, (do_dir _ _ _ _ _ Hd) in Hin as (n & ch & Hn & Hn' & Hb & ->).
      destruct (Hgen i n (old_map ids_renamed from)) as (m & ? & ? & ?); [done..|].
      exists m. split_and!; try done. simpl. rewrite not_elem_of_union, in_files, in_renamed.
      split; [intros (_ & ? & ? & ? & ?); congruence | intros (? & ? & ? & _); congruence]. }
  cbn [mbind result_bind]. unfold ids_files.
  rewrite (attach_loop (λ a, a.2.1) fst); [|done|apply NoDup_ids_files|].
  2:{ intros [x [i c]] Hin.
      apply elem_of_map_iter, (do_file _ _ _ _ _ Hd) in Hin as (n & Hn & Hn' & Hb & ->).
      destruct (Hgen i n (filter (λ p, p.1 ∉ (map_iter (dirs_added d)).*2) (old_map ids_renamed from)))
        as (m & ? & ? & ?); [done|apply map_filter_subseteq|].
      exists m. split_and!; try done. simpl. rewrite in_renamed. intros (? & ? & ? & _); congruence. }
  cbn [mbind result_bind]. rewrite <- (right_id_L ∅ (∪) ids_renamed) at 1.
  unfold ids_renamed at 1. rewrite (attach_loop fst snd); [|done|apply NoDup_fst_map_iter|].
  2:{ intros [i x] Hin.
      apply elem_of_map_iter, (do_renamed _ _ _ _ _ Hd) in Hin as (n & n' & Hn & Hn' & -> & _).
      edestruct (Hgen i n') as (m & ? & ? & ?); [done| |exists m; split_and!; try done; set_solver].
      etrans; [apply map_filter_subseteq|]. apply map_filter_subseteq. }
  rewrite <- (detached_empty (mid from to)) at 2. do 2 f_equal. simpl.
  apply map_empty. intros i. apply eq_None_not_Some. intros [x Hx].
  rewrite !map_lookup_filter_Some in Hx. destruct Hx as [[[Hx _] _] Hi]. simpl in Hi.
  rewrite lookup_old_map in Hx. case_decide as Hr; [|done].
  apply Hi. by apply elem_of_list_to_set in Hr.
Qed.

(** After the content edits only the attributes are still those of [from]. *)
Lemma content_phase :
  ∃ r1, foldM (λ r i, set_content r i.1 i.2) (map_iter (deltas_applied d)) (mid from to) = Ok r1 ∧
    root_dir r1 = root_dir to ∧ old_locations r1 = ∅ ∧
    ∀ i, nodes r1 !! i = with_attrs (from_option attrs ∅ (nodes from !! i)) <$> nodes to !! i.
Proof.
  destruct (content_loop (map_iter (deltas_applied d)) (mid from to)) as (r1 & E1 & R1 & O1 & C1 & N1).
  - apply NoDup_fst_map_iter.
  - intros i c Hin.
    apply elem_of_map_iter, (do_content _ _ _ _ _ Hd) in Hin as (n & n' & c0 & Hn & Hn' & Hb & Hb' & Hne).
    exists (mid_node (Some n) n'), c0. rewrite lookup_mid, Hn, Hn'. split_and!; [done| |done].
    unfold mid_node. by rewrite Hb, Hb'.
  - exists r1. split_and!; [done..|]. intros i.
    destruct (nodes to !! i) as [n'|] eqn:Hn'.
    2:{ rewrite N1, lookup_mid, Hn'; [done|]. intros Hin.
        apply list_elem_of_fmap in Hin as ([j c] & -> & Hin).
        apply elem_of_map_iter, (do_content _ _ _ _ _ Hd) in Hin as (? & ? & ? & _ & ? & _).
        simpl in *. congruence. }
    destruct (decide (is_Some (deltas_applied d !! i))) as [[c Hc]|Hc].
    + rewrite (C1 i c) by (by apply elem_of_map_iter). rewrite lookup_mid, Hn'. simpl. f_equal.
      apply (do_content _ _ _ _ _ Hd) in Hc as (n & n2 & c0 & Hn & Hn2 & Hb & Hb' & _).
      assert (n2 = n') as -> by congruence. rewrite Hn. unfold mid_node. rewrite Hb, Hb'.
      destruct n'; simpl in *. by subst.
    + rewrite N1, lookup_mid, Hn'.
      2:{ intros ([j c] & -> & Hin)%list_elem_of_fmap. apply Hc. exists c.
          by apply elem_of_map_iter. }
      simpl. f_equal. destruct (nodes from !! i) as [n|] eqn:Hn; [|done]. unfold mid_node. simpl.
      destruct (body n) as [c0|ch] eqn:Hb; [|done]. destruct (body n') as [c|ch] eqn:Hb'; [|done].
      destruct (decide (c0 = c)) as [->|Hne].
      * destruct n'; simpl in *. by subst.
      * destruct Hc. exists c. apply (do_content _ _ _ _ _ Hd). eauto 10.
Qed.

(** The attributes after the two attribute loops. *)
Lemma edits_attr r1 r2 r3 i a :
  (∀ i a, node_attr r1 i a = nodes to !! i ≫= λ _, nodes from !! i ≫= λ n, attrs n !! a) →
  (∀ i a, (i, a) ∈ set_iter (attrs_cleared d) → node_attr r2 i a = None) →
  (∀ i a, (i, a) ∉ set_iter (attrs_cleared d) → node_attr r2 i a = node_attr r1 i a) →
  (∀ i a v, (i, (a, v)) ∈ set_iter (attrs_changed d) → node_attr r3 i a = Some v) →
  (∀ i a, (∀ v, (i, (a, v)) ∉ set_iter (attrs_changed d)) → node_attr r3 i a = node_attr r2 i a) →
  node_attr r3 i a = node_attr to i a.
Proof.
  intros A1 C2 K2 C3 K3.
  destruct (nodes to !! i) as [n'|] eqn:Hn'.
  2:{ assert (node_attr to i a = None) as -> by (unfold node_attr; by rewrite Hn').
      rewrite K3, K2, A1, Hn'; [done| |].
      - rewrite elem_of_set_iter, (do_cleared _ _ _ _ _ Hd). intros (? & ? & _ & ? & _). congruence.
      - intros v. rewrite elem_of_set_iter, (do_changed _ _ _ _ _ Hd). intros (? & ? & _). congruence. }
  assert (node_attr to i a = attrs n' !! a) as -> by (unfold node_attr; by rewrite Hn').
  destruct (attrs n' !! a) as [v|] eqn:Ha.
  - destruct (decide ((i, (a, v)) ∈ set_iter (attrs_changed d))) as [Hc|Hc]; [by apply C3|].
    assert (nodes from !! i ≫= (λ n, attrs n !! a) = Some v) as Hfr.
    { rewrite elem_of_set_iter, (do_changed _ _ _ _ _ Hd) in Hc.
      destruct (nodes from !! i) as [n|]; simpl.
      - destruct (decide (attrs n !! a = Some v)); [done|]. destruct Hc. exists n'.
        split_and!; [done..|]. intros. congruence.
      - destruct Hc. exists n'. by split_and!. }
    rewrite K3, K2, A1, Hn'; [done| |].
    + rewrite elem_of_set_iter, (do_cleared _ _ _ _ _ Hd). intros (? & ? & _ & ? & _ & ?). congruence.
    + intros w. intros Hw. pose proof Hw as Hw'. rewrite elem_of_set_iter, (do_changed _ _ _ _ _ Hd) in Hw.
      destruct Hw as (? & ? & ? & _). assert (w = v) as -> by congruence. done.
  - rewrite K3.
    2:{ intros w. rewrite elem_of_set_iter, (do_changed _ _ _ _ _ Hd). intros (? & ? & ? & _). congruence. }
    destruct (decide ((i, a) ∈ set_iter (attrs_cleared d))) as [Hc|Hc]; [by apply C2|].
    rewrite K2, A1, Hn' by done. simpl. rewrite elem_of_set_iter, (do_cleared _ _ _ _ _ Hd) in Hc.
    destruct (nodes from !! i) as [n|]; simpl; [|done]. apply eq_None_not_Some. intros Hs.
    destruct Hc. eauto 10.
Qed.

Lemma edits_phase : attrs_sane to → apply_edits d (mid from to) = Ok to.
Proof.
  intros Hsane. unfold apply_edits. destruct content_phase as (r1 & -> & R1 & O1 & N1).
  cbn [mbind result_bind].
  assert (same_bare to r1) as B1.
  { split_and!; [done|by rewrite (complete_old _ Ht)|]. intros i. unfold bare.
    rewrite N1. by destruct (nodes to !! i). }
  assert (∀ i a, node_attr r1 i a = nodes to !! i ≫= λ _, nodes from !! i ≫= λ n, attrs n !! a) as A1.
  { intros i a. unfold node_attr. rewrite N1. destruct (nodes to !! i); [|done]. simpl.
    destruct (nodes from !! i); simpl; [done|]. apply lookup_empty. }
  destruct (cleared_loop (set_iter (attrs_cleared d)) r1) as (r2 & -> & B2 & C2 & K2).
  { apply NoDup_set_iter. }
  { intros i a Hin. rewrite elem_of_set_iter in Hin.
    apply (do_cleared _ _ _ _ _ Hd) in Hin as (n & n' & Hn & Hn' & ? & _).
    by rewrite A1, Hn, Hn'. }
  cbn [mbind result_bind].
  destruct (changed_loop (set_iter (attrs_changed d)) r2) as (r3 & -> & B3 & C3 & K3).
  { apply NoDup_fmap_2_strong; [|apply NoDup_set_iter].
    intros [i [a v]] [j [b w]] Hi Hj [= -> ->]. rewrite elem_of_set_iter in Hi, Hj.
    apply (do_changed _ _ _ _ _ Hd) in Hi as (n & ? & ? & _).
    apply (do_changed _ _ _ _ _ Hd) in Hj as (m & ? & ? & _). congruence. }
  { intros i a v Hin. rewrite elem_of_set_iter in Hin.
    apply (do_changed _ _ _ _ _ Hd) in Hin as (n' & Hn' & Ha & Hne). split_and!.
    - eapply same_bare_is_Some; [exact B2|]. eapply same_bare_is_Some; [exact B1|]. eauto.
    - by eapply Hsane.
    - destruct (decide ((i, a) ∈ set_iter (attrs_cleared d))) as [Hc|Hc]; [by rewrite C2|].
      rewrite K2, A1, Hn' by done. simpl. destruct (nodes from !! i) as [n|]; simpl; auto. }
  f_equal. apply same_bare_eq; [eauto using same_bare_trans|]. intros i a.
  by eapply edits_attr.
Qed.
End roundtrip.

(** ** Markings *)

Lemma replace_loop (l : list (Z * marking)) mm :
  NoDup l.*1 →
  let mm' := foldl (λ mm i, put_or_replace_marking mm i.1 i.2) mm l in
  (∀ i m, (i, m) ∈ l → mm' !! i = Some m) ∧ (∀ i, i ∉ l.*1 → mm' !! i = mm !! i).
Proof.
  revert mm. induction l as [|[x m] l IH]; intros mm Hnd; simpl.
  - split; [by intros ? ? ?%not_elem_of_nil | done].
  - rewrite fmap_cons in Hnd. apply NoDup_cons in Hnd as [Hx Hnd].
    destruct (IH (put_or_replace_marking mm x m) Hnd) as [H1 H2]. split.
    + intros i m' [[= -> ->]|Hin]%elem_of_cons; [|auto]. rewrite H2 by done. apply lookup_insert_eq.
    + intros i [Hi Hl]%not_elem_of_cons. rewrite H2 by done. by apply lookup_insert_ne.
Qed.

Lemma markings_phase from fm to tm d :
  delta_of from fm to tm d → dom fm = dom (nodes from) → dom tm = dom (nodes to) →
  apply_markings d fm = Ok tm.
Proof.
  intros Hd Hfm Htm. unfold apply_markings.
  destruct (remove_loop (set_iter (nodes_deleted d)) fm) as (mm & -> & Hmm).
  { apply NoDup_set_iter. }
  { intros x Hx. rewrite elem_of_set_iter, (do_deleted _ _ _ _ _ Hd) in Hx.
    apply elem_of_dom. rewrite Hfm. apply elem_of_dom. tauto. }
  cbn [mbind result_bind]. f_equal.
  destruct (replace_loop (map_iter (markings_changed d)) mm) as [H1 H2]; [apply NoDup_fst_map_iter|].
  apply map_eq. intros i. destruct (markings_changed d !! i) as [m|] eqn:Hm.
  - rewrite (H1 i m) by (by apply elem_of_map_iter).
    apply (do_markings _ _ _ _ _ Hd) in Hm as [? _]. done.
  - rewrite H2.
    2:{ intros ([j m] & -> & Hin)%list_elem_of_fmap. apply elem_of_map_iter in Hin. simpl in *. congruence. }
    rewrite Hmm. case_decide as Hi; rewrite elem_of_set_iter, (do_deleted _ _ _ _ _ Hd) in Hi.
    + symmetry. apply not_elem_of_dom. rewrite Htm. apply not_elem_of_dom. tauto.
    + destruct (tm !! i) as [m|] eqn:Htmi.
      * destruct (decide (fm !! i = Some m)) as [|Hne]; [done|].
        assert (markings_changed d !! i = Some m) by (apply (do_markings _ _ _ _ _ Hd); auto).
        congruence.
      * apply not_elem_of_dom. rewrite Hfm. apply not_elem_of_dom. apply eq_None_not_Some.
        intros Hs. apply Hi. split; [done|]. apply not_elem_of_dom. rewrite <- Htm.
        by apply not_elem_of_dom.
Qed.

(** ** The round trip *)

(** C1: computing the delta between two complete rosters (with markings for
    exactly their nodes, and no node id changing between file and directory)
    never fails an invariant check, and [roster_delta_t::apply]ing it to the
    source gives exactly the destination roster and markings, through every
    detach, drop, create, attach, content, attribute and marking phase. *)
Theorem roster_delta_roundtrip from fm to tm :
  complete from → complete to → attrs_sane to → same_kinds from to →
  dom fm = dom (nodes from) → dom tm = dom (nodes to) →
  ∃ d, make_unconstrained_roster_delta_t from fm to tm = Ok d ∧ apply d from fm = Ok (to, tm).
Proof.
  intros Hf Ht Hsane Hkind Hfm Htm.
  destruct (make_delta_of from fm to tm Hf Ht Hkind) as (d & Hmake & Hd).
  exists d. split; [done|]. unfold apply.
  rewrite (detach_phase from to fm tm d) by done. cbn [mbind result_bind].
  edestruct (drop_phase from to fm tm d) as (r1 & -> & R1 & N1 & O1); [done..|].
  cbn [mbind result_bind].
  rewrite (create_phase from to fm tm d Hf Ht Hkind Hd r1 R1 N1), O1.
  rewrite (attach_phase from to fm tm d) by done. cbn [mbind result_bind].
  rewrite (edits_phase from to fm tm d) by done. cbn [mbind result_bind].
  by rewrite (markings_phase from fm to tm d).
Qed.

(** A rename into another directory, a deletion, an addition, an edit and
    attribute changes between two rosters. *)
Definition ex_from : roster :=
  Roster (Some 1)
    (list_to_map [
      (1, Node 1 0 [] ∅ (DirBody (list_to_map [(lit "a", 2); (lit "d", 3)])));
      (2, Node 2 1 (lit "a") {[lit "k" := (true, lit "v"); lit "gone" := (true, lit "1")]}
            (FileBody (lit "c0")));
      (3, Node 3 1 (lit "d") ∅ (DirBody (list_to_map [(lit "x", 4)])));
      (4, Node 4 3 (lit "x") ∅ (FileBody (lit "c1")))]) ∅.
Definition ex_to : roster :=
  Roster (Some 1)
    (list_to_map [
      (1, Node 1 0 [] ∅ (DirBody (list_to_map [(lit "d", 3); (lit "e", 6)])));
      (2, Node 2 3 (lit "b") {[lit "k" := (false, [])]} (FileBody (lit "c2")));
      (3, Node 3 1 (lit "d") ∅ (DirBody (list_to_map [(lit "b", 2)])));
      (5, Node 5 6 (lit "x") {[lit "n" := (true, lit "w")]} (FileBody (lit "c1")));
      (6, Node 6 1 (lit "e") ∅ (DirBody (list_to_map [(lit "x", 5)])))]) ∅.
Definition ex_marks (rev : bytes) (r : roster) : marking_map :=
  (λ _, Marking rev {[rev]} ∅ ∅) <$> nodes r.

Lemma all_pairs_attrs r :
  all_pairs (λ _ n, all_pairs (λ _ v, v.1 || bool_decide (v.2 = [])) (attrs n)) (nodes r) = true →
  attrs_sane r.
Proof.
  intros H i n a v Hn Ha. pose proof (all_pairs_spec _ _ _ _ H Hn) as H1.
  exact (all_pairs_spec _ _ _ _ H1 Ha).
Qed.

Lemma all_pairs_kinds r1 r2 :
  all_pairs (λ i n, match nodes r2 !! i with
                    | Some n' => Bool.eqb (is_file_t n) (is_file_t n') | None => true end) (nodes r1) = true →
  same_kinds r1 r2.
Proof.
  intros H i n n' Hn Hn'. pose proof (all_pairs_spec _ _ _ _ H Hn) as H1. cbn beta in H1.
  rewrite Hn' in H1. by apply Bool.eqb_prop.
Qed.

Lemma roster_delta_roundtrip_witness :
  ∃ d, make_unconstrained_roster_delta_t ex_from (ex_marks (lit "r0") ex_from)
         ex_to (ex_marks (lit "r1") ex_to) = Ok d ∧
       apply d ex_from (ex_marks (lit "r0") ex_from) = Ok (ex_to, ex_marks (lit "r1") ex_to).
Proof.
  apply roster_delta_roundtrip.
  - apply complete_b_sound. vm_compute. reflexivity.
  - apply complete_b_sound. vm_compute. reflexivity.
  - apply all_pairs_attrs. vm_compute. reflexivity.
  - apply all_pairs_kinds. vm_compute. reflexivity.
  - apply dom_fmap_L.
  - apply dom_fmap_L.
Defined.
