(* ===== verification/Hex.v ===== *)
(** * Character classes, hexadecimal and identifier vocabulary

    [src/src/char_classifiers.hh], the hex coder of [src/src/transforms.cc] and
    the verifiers of [src/src/vocab.cc] that the text formats rely on. *)

From S2P Require Import Prelude.

(** ** [char_classifiers.hh]

    The arguments are [char]s; a byte of 128 or more is a negative [char] and
    in none of the classes, so the unsigned value gives the same answers. *)
Definition in_range (lo hi : Z) (x : Z) : bool := (lo <=? x) && (x <=? hi).

Definition is_digit (x : Z) : bool := in_range 48 57 x.
Definition is_xdigit (x : Z) : bool := in_range 48 57 x || in_range 97 102 x.
Definition is_alpha (x : Z) : bool := in_range 97 122 x || in_range 65 90 x.
Definition is_alnum (x : Z) : bool :=
  in_range 48 57 x || in_range 97 122 x || in_range 65 90 x.
Definition is_space (x : Z) : bool :=
  (x =? 32) || (x =? 10) || (x =? 9) || (x =? 13) || (x =? 11) || (x =? 12).
Definition is_upper (x : Z) : bool := in_range 65 90 x.
Definition is_lower (x : Z) : bool := in_range 97 122 x.
Definition to_upper (x : Z) : Z := if is_lower x then x - 97 + 65 else x.
Definition to_lower (x : Z) : Z := if is_upper x then x - 65 + 97 else x.

(** ** [xform<Botan::Hex_Encoder>] *)
Definition hex_digit (h : Z) : ascii := byte_of (if h <? 10 then h + 48 else h + 97 - 10).

Definition hex_encode (s : bytes) : bytes :=
  flat_map (λ c, [hex_digit (Z.land (Z.shiftr (byte_val c) 4) 15);
                  hex_digit (Z.land (byte_val c) 15)]) s.

(** ** [xform<Botan::Hex_Decoder>]

    [high] tells whether the next digit is the high one, [o] is the byte
    under construction; blanks are skipped, and a last digit without a partner
    is dropped. *)
Definition hex_value (c : Z) : option Z :=
  if in_range 48 57 c then Some (c - 48)
  else if in_range 97 102 c then Some (c - 97 + 10)
  else if in_range 65 70 c then Some (c - 65 + 10)
  else None.

Fixpoint hex_decode_loop (made_from : origin_type) (s : bytes) (high : bool) (o : Z)
    (out : bytes) : result bytes :=
  match s with
  | [] => Ok out
  | ch :: s =>
      let c := byte_val ch in
      match hex_value c with
      | Some d =>
          let o := o + d in
          if high then hex_decode_loop made_from s false (Z.shiftl o 4) out
          else hex_decode_loop made_from s true 0 (out ++ [byte_of o])
      | None =>
          if (c =? 32) || (c =? 9) || (c =? 13) || (c =? 10)
          then hex_decode_loop made_from s high o out
          else Err (generic_failure made_from)
      end
  end.

Definition hex_decode (made_from : origin_type) (s : bytes) : result bytes :=
  hex_decode_loop made_from s true 0 [].

(** ** [vocab.cc]: verifiers run by the constructors *)

Definition idlen : nat := 40.
Definition idlen_bytes : nat := 20.

(** [verify(hexenc<id>)] *)
Definition verify_hexenc_id (made_from : origin_type) (val : bytes) : result bytes :=
  if decide (val = []) then Ok val
  else
    E_ (bool_decide (length val = idlen)) made_from ;;
    E_ (forallb (λ c, is_xdigit (byte_val c)) val) made_from ;;
    Ok val.

(** [verify(id)] *)
Definition verify_id (made_from : origin_type) (val : bytes) : result bytes :=
  if decide (val = []) then Ok val
  else E_ (bool_decide (length val = idlen_bytes)) made_from ;; Ok val.

(** [verify(symbol)] *)
Definition verify_symbol (made_from : origin_type) (val : bytes) : result bytes :=
  E_ (forallb (λ c, is_alnum (byte_val c) || (byte_val c =? 95)) val) made_from ;; Ok val.

(** [decode_hexenc_as<T>] for an identifier type: decode, then construct. *)
Definition decode_hexenc_as_id (made_from : origin_type) (s : bytes) : result bytes :=
  b ← hex_decode made_from s; verify_id made_from b.

(** ** Correctness *)

(** A statement about bytes that holds of the 256 values. *)
Lemma all_bytes (P : ascii → bool) :
  forallb (λ n, P (ascii_of_nat n)) (seq 0 256) = true → ∀ c, P c = true.
Proof.
  intros H c. rewrite forallb_forall in H. rewrite <- (ascii_nat_embedding c). apply H.
  apply in_seq. pose proof (nat_ascii_bounded c). lia.
Qed.

Lemma hex_pair c :
  let h := hex_digit (Z.land (Z.shiftr (byte_val c) 4) 15) in
  let l := hex_digit (Z.land (byte_val c) 15) in
  is_xdigit (byte_val h) = true ∧ is_xdigit (byte_val l) = true ∧
  ∃ x y, hex_value (byte_val h) = Some x ∧ hex_value (byte_val l) = Some y ∧
    byte_of (Z.shiftl (0 + x) 4 + y) = c.
Proof.
  set (P c :=
    let h := hex_digit (Z.land (Z.shiftr (byte_val c) 4) 15) in
    let l := hex_digit (Z.land (byte_val c) 15) in
    is_xdigit (byte_val h) && is_xdigit (byte_val l) &&
    match hex_value (byte_val h), hex_value (byte_val l) with
    | Some x, Some y => bool_decide (byte_of (Z.shiftl (0 + x) 4 + y) = c)
    | _, _ => false
    end).
  assert (P c = true) as H by (apply all_bytes; vm_compute; reflexivity).
  unfold P in H. cbv zeta in *. apply andb_true_iff in H as [H1 H].
  apply andb_true_iff in H1 as [H1 H2].
  split_and!; [done..|]. do 2 (destruct (hex_value _); [|done]).
  apply bool_decide_eq_true in H. eauto.
Qed.

Lemma hex_decode_encode_loop o s rest out :
  hex_decode_loop o (hex_encode s ++ rest) true 0 out = hex_decode_loop o rest true 0 (out ++ s).
Proof.
  revert out. induction s as [|c s IH]; intros out; [by rewrite app_nil_r|].
  destruct (hex_pair c) as (_ & _ & x & y & Hx & Hy & Hc).
  cbn [hex_encode flat_map app]. cbn [hex_decode_loop]. rewrite Hx. cbn [hex_decode_loop].
  rewrite Hy. rewrite Hc. fold (hex_encode s). rewrite IH. by rewrite <- app_assoc.
Qed.

Lemma hex_encode_xdigits s : Forall (λ c, is_xdigit (byte_val c) = true) (hex_encode s).
Proof.
  induction s as [|c s IH]; [constructor|]. destruct (hex_pair c) as (Hh & Hl & _).
  by repeat constructor.
Qed.

Lemma length_hex_encode s : length (hex_encode s) = (2 * length s)%nat.
Proof. induction s as [|c s IH]; simpl; lia. Qed.

(** The hex decoder inverts the hex encoder on every byte string, the
    encoding is made of lower-case digits only and is twice as long; a stray
    last digit is silently dropped by the decoder. *)
Theorem hex_roundtrip o s d :
  hex_decode o (hex_encode s) = Ok s ∧
  Forall (λ c, is_xdigit (byte_val c) = true) (hex_encode s) ∧
  length (hex_encode s) = (2 * length s)%nat ∧
  (is_xdigit (byte_val d) = true → hex_decode o (hex_encode s ++ [d]) = Ok s).
Proof.
  unfold hex_decode. split_and!.
  - rewrite <- (app_nil_r (hex_encode s)). by rewrite hex_decode_encode_loop.
  - apply hex_encode_xdigits.
  - apply length_hex_encode.
  - intros Hd. rewrite hex_decode_encode_loop. cbn [hex_decode_loop].
    unfold is_xdigit in Hd. unfold hex_value.
    destruct (in_range 48 57 (byte_val d)); [done|]. simpl in Hd. by rewrite Hd.
Qed.

Lemma decode_hexenc_as_id_encode o s :
  length s = idlen_bytes → decode_hexenc_as_id o (hex_encode s) = Ok s.
Proof.
  intros Hs. unfold decode_hexenc_as_id, hex_decode.
  rewrite <- (app_nil_r (hex_encode s)), hex_decode_encode_loop. simpl. unfold verify_id.
  case_decide; [done|]. by rewrite bool_decide_true.
Qed.

Lemma hex_roundtrip_witness : hex_decode network (hex_encode (lit "mtn") ++ ["a"%char]) = Ok (lit "mtn").
Proof. apply (hex_roundtrip network (lit "mtn") "a"%char). vm_compute. reflexivity. Defined.
