(* ===== verification/BasicIo.v ===== *)
(** * The basic_io text format ([src/src/basic_io.hh], [src/src/basic_io.cc])

    Tokenizer, parser and printer of the stanza format in which csets,
    revisions and rosters are written.  The input position is the rest of the
    input; line and column numbers only feed messages and are left out.  The
    results: a printed stanza lexes back to its tokens, whatever bytes its
    strings hold. *)

From S2P Require Import Prelude Hex.

(** ** Tokens and the input source *)

Inductive token_type := TOK_SYMBOL | TOK_STRING | TOK_HEX | TOK_NONE.

#[export] Instance token_type_eq_dec : EqDecision token_type.
Proof. solve_decision. Defined.

(** [input_source::peek]: the value of the next byte as an [unsigned int], or [EOF]. *)
Definition EOF : Z := -1.
Definition peek (s : bytes) : Z := match s with [] => EOF | c :: _ => byte_val c end.

(** [static_cast<char>(lookahead)], as an unsigned value. *)
Definition as_char (la : Z) : Z := la mod 256.

Definition quote : Z := 34.
Definition backslash : Z := 92.

(** ** [tokenizer::get_token] *)

Fixpoint skip_space (s : bytes) : bytes :=
  match s with
  | [] => []
  | _ :: s' => if is_space (as_char (peek s)) then skip_space s' else s
  end.

Fixpoint scan_symbol (s acc : bytes) : bytes * bytes :=
  match s with
  | c :: s' =>
      if is_alnum (as_char (peek s)) || (peek s =? 95) then scan_symbol s' (acc ++ [c])
      else (acc, s)
  | [] => (acc, s)
  end.

Section scan.
Context (made_from : origin_type).

(** [in.err(...)] *)
Definition err {A} : result A := Err (generic_failure made_from).

Fixpoint scan_hex (s acc : bytes) : result (bytes * bytes) :=
  match s with
  | [] => err
  | c :: s' =>
      if as_char (peek s) =? 93 then Ok (acc, s')
      else if negb (is_xdigit (as_char (peek s))) then err
      else scan_hex s' (acc ++ [c])
  end.

(** The loop for the remainder of a string after its first escape. *)
Fixpoint scan_slow (s val : bytes) : result (bytes * bytes) :=
  match s with
  | [] => err
  | c :: s' =>
      if as_char (peek s) =? quote then Ok (val, s')
      else if as_char (peek s) =? backslash then
        match s' with
        | e :: s'' =>
            if (as_char (peek s') =? quote) || (as_char (peek s') =? backslash)
            then scan_slow s'' (val ++ [e])
            else err
        | [] => err
        end
      else scan_slow s' (val ++ [c])
  end.

(** The loop that marks and stores, up to the first escape. *)
Fixpoint scan_string (s acc : bytes) : result (bytes * bytes) :=
  match s with
  | [] => err
  | c :: s' =>
      if as_char (peek s) =? quote then Ok (acc, s')
      else if as_char (peek s) =? backslash then
        match s' with
        | e :: s'' =>
            if (as_char (peek s') =? quote) || (as_char (peek s') =? backslash)
            then scan_slow s'' (acc ++ [e])
            else err
        | [] => err
        end
      else scan_string s' (acc ++ [c])
  end.

(** [val] keeps its value when there is no token. *)
Definition get_token (s val : bytes) : result (token_type * bytes * bytes) :=
  let s := skip_space s in
  if peek s =? EOF then Ok (TOK_NONE, val, s)
  else if is_alpha (as_char (peek s)) then
    let '(val, s) := scan_symbol s [] in Ok (TOK_SYMBOL, val, s)
  else if peek s =? 91 then
    '(val, s) ← scan_hex (tail s) []; Ok (TOK_HEX, val, s)
  else if peek s =? quote then
    '(val, s) ← scan_string (tail s) []; Ok (TOK_STRING, val, s)
  else Ok (TOK_NONE, val, s).

(** ** The parser *)

Record parser := Parser {
  src : bytes;
  token : bytes;
  ttype : token_type
}.

Definition advance (p : parser) : result parser :=
  '(t, v, s) ← get_token (src p) (token p); Ok (Parser s v t).

Definition new_parser (s : bytes) : result parser := advance (Parser s [] TOK_NONE).

Definition eat (want : token_type) (p : parser) : result parser :=
  if decide (ttype p ≠ want) then err else advance p.

Definition str (p : parser) : result (bytes * parser) :=
  p' ← eat TOK_STRING p; Ok (token p, p').
Definition sym (p : parser) : result (bytes * parser) :=
  p' ← eat TOK_SYMBOL p; Ok (token p, p').
Definition hex (p : parser) : result (bytes * parser) :=
  p' ← eat TOK_HEX p; Ok (token p, p').

Definition symp_any (p : parser) : bool := bool_decide (ttype p = TOK_SYMBOL).
Definition symp (val : bytes) (p : parser) : bool :=
  bool_decide (ttype p = TOK_SYMBOL) && bool_decide (token p = val).

Definition esym (val : bytes) (p : parser) : result parser :=
  if negb (bool_decide (ttype p = TOK_SYMBOL) && bool_decide (token p = val)) then err
  else advance p.
End scan.

(** ** Printing *)

Definition needs_escape (c : ascii) : bool :=
  (byte_val c =? backslash) || (byte_val c =? quote).

Definition quote_char : ascii := ascii_of_nat 34.
Definition backslash_char : ascii := ascii_of_nat 92.

Definition escape (s : bytes) : bytes :=
  [quote_char] ++
  flat_map (λ c, if needs_escape c then [backslash_char; c] else [c]) s ++ [quote_char].

Record stanza := Stanza {
  indent : nat;
  entries : list (bytes * bytes)
}.

Definition new_stanza : stanza := Stanza 0 [].

(** Every [push_*] appends an entry and widens the indent to the longest key. *)
Definition push_entry (st : stanza) (k val : bytes) : stanza :=
  Stanza (if decide (indent st < length k)%nat then length k else indent st)
    (entries st ++ [(k, val)]).

Definition push_symbol (st : stanza) (k : bytes) : stanza := push_entry st k [].
Definition push_hex_pair (st : stanza) (k v : bytes) : stanza :=
  push_entry st k (["["%char] ++ v ++ ["]"%char]).
Definition push_binary_pair (made_from : origin_type) (st : stanza) (k v : bytes) :
    result stanza :=
  h ← verify_hexenc_id made_from (hex_encode v); Ok (push_hex_pair st k h).
Definition push_binary_triple (st : stanza) (k n v : bytes) : stanza :=
  push_entry st k (escape n ++ [" "%char] ++ ["["%char] ++ hex_encode v ++ ["]"%char]).
Definition push_str_pair (st : stanza) (k v : bytes) : stanza := push_entry st k (escape v).
Definition push_sym_pair (st : stanza) (k v : bytes) : stanza := push_entry st k v.
Definition push_str_triple (st : stanza) (k n v : bytes) : stanza :=
  push_entry st k (escape n ++ [" "%char] ++ escape v).

Fixpoint multi_val (first : bool) (v : list bytes) : bytes :=
  match v with
  | [] => []
  | x :: v => (if first then [] else [" "%char]) ++ escape x ++ multi_val false v
  end.
Definition push_str_multi (st : stanza) (k : bytes) (v : list bytes) : stanza :=
  push_entry st k (multi_val true v).
Definition push_str_multi2 (st : stanza) (k1 k2 : bytes) (v : list bytes) : stanza :=
  push_entry st k1 (k2 ++ flat_map (λ x, [" "%char] ++ escape x) v).

Definition newline : ascii := "010"%char.

Definition print_entry (ind : nat) (e : bytes * bytes) : bytes :=
  replicate (ind - length e.1) " "%char ++ e.1 ++ [" "%char] ++ e.2 ++ [newline].

(** [printer::print_stanza] on the printer's buffer. *)
Definition print_stanza (buf : bytes) (st : stanza) : bytes :=
  (match buf with [] => [] | _ => buf ++ [newline] end) ++
  flat_map (print_entry (indent st)) (entries st).

(** ** Lexing

    [lexes s ts]: tokenizing [s] gives [ts], then the end of the input.
    [spells s ts]: [s] contributes the tokens [ts] in front of any text. *)
Section lexing.
Context (made_from : origin_type).

Inductive lexes : bytes → list (token_type * bytes) → Prop :=
  | lexes_end s :
      (∀ v, get_token made_from s v = Ok (TOK_NONE, v, [])) → lexes s []
  | lexes_token s t v s' ts :
      t ≠ TOK_NONE → (∀ v0, get_token made_from s v0 = Ok (t, v, s')) → lexes s' ts →
      lexes s ((t, v) :: ts).

Definition spells (s : bytes) (ts : list (token_type * bytes)) : Prop :=
  ∀ rest ts', lexes rest ts' → lexes (s ++ rest) (ts ++ ts').

Lemma lexes_nil : lexes [] [].
Proof. by constructor. Qed.

Lemma spells_lexes s ts : spells s ts → lexes s ts.
Proof. intros H. rewrite <- (app_nil_r s), <- (app_nil_r ts). apply H, lexes_nil. Qed.

Lemma spells_nil : spells [] [].
Proof. by intros rest ts H. Qed.

Lemma spells_app s1 ts1 s2 ts2 : spells s1 ts1 → spells s2 ts2 → spells (s1 ++ s2) (ts1 ++ ts2).
Proof. intros H1 H2 rest ts H. rewrite <- !app_assoc. auto. Qed.

Lemma as_char_byte c : as_char (byte_val c) = byte_val c.
Proof. apply Z.mod_small, byte_val_range. Qed.

Lemma byte_not_EOF c : (byte_val c =? EOF) = false.
Proof. pose proof (byte_val_range c). unfold EOF. lia. Qed.

Lemma get_token_space c s v :
  is_space (byte_val c) = true → get_token made_from (c :: s) v = get_token made_from s v.
Proof. intros Hc. unfold get_token. cbn [skip_space peek]. by rewrite as_char_byte, Hc. Qed.

Lemma spells_space c : is_space (byte_val c) = true → spells [c] [].
Proof.
  intros Hc rest ts H. simpl. inversion H; subst.
  - constructor. intros v. by rewrite get_token_space.
  - econstructor; [done| |done]. intros v0. by rewrite get_token_space.
Qed.

Lemma spells_spaces n : spells (replicate n " "%char) [].
Proof.
  induction n as [|n IH]; [apply spells_nil|].
  change (replicate (S n) " "%char) with ([" "%char] ++ replicate n " "%char).
  change (@nil (token_type * bytes)) with (@nil (token_type * bytes) ++ []).
  by apply spells_app; [apply spells_space|].
Qed.

(** *** Symbols *)

Definition symbol_char (c : ascii) : bool := is_alnum (byte_val c) || (byte_val c =? 95).
Definition symbol_ok (k : bytes) : bool :=
  match k with [] => false | c :: _ => is_alpha (byte_val c) && forallb symbol_char k end.

Lemma scan_symbol_spec k c rest acc :
  forallb symbol_char k = true → symbol_char c = false →
  scan_symbol (k ++ c :: rest) acc = (acc ++ k, c :: rest).
Proof.
  intros Hk Hc. revert acc. induction k as [|x k IH]; intros acc.
  - cbn [app scan_symbol peek]. rewrite as_char_byte. unfold symbol_char in Hc.
    by rewrite Hc, app_nil_r.
  - cbn [forallb] in Hk. apply andb_true_iff in Hk as [Hx Hk].
    cbn [app scan_symbol peek]. rewrite as_char_byte. unfold symbol_char in Hx. rewrite Hx.
    rewrite IH by done. by rewrite <- app_assoc.
Qed.

Lemma space_not_symbol c : is_space (byte_val c) = true → symbol_char c = false.
Proof. unfold is_space, symbol_char, is_alnum, in_range. lia. Qed.

Lemma alpha_facts z :
  is_alpha z = true → is_space z = false ∧ (z =? 91) = false ∧ (z =? quote) = false.
Proof. unfold is_alpha, is_space, in_range, quote. lia. Qed.

Lemma spells_symbol k c :
  symbol_ok k = true → is_space (byte_val c) = true →
  spells (k ++ [c]) [(TOK_SYMBOL, k)].
Proof.
  intros Hk Hc rest ts H. rewrite <- app_assoc. cbn [app].
  destruct k as [|x k]; [done|]. cbn [symbol_ok] in Hk. apply andb_true_iff in Hk as [Hx Hk].
  destruct (alpha_facts _ Hx) as (Hsp & _ & _).
  apply (lexes_token _ TOK_SYMBOL _ (c :: rest)); [done| |].
  - intros v0. unfold get_token.
    assert (skip_space ((x :: k) ++ c :: rest) = (x :: k) ++ c :: rest) as ->.
    { cbn [app skip_space peek]. by rewrite as_char_byte, Hsp. }
    assert (peek ((x :: k) ++ c :: rest) = byte_val x) as -> by done.
    rewrite byte_not_EOF, as_char_byte, Hx.
    rewrite scan_symbol_spec by (done || by apply space_not_symbol). done.
  - apply (spells_space c Hc rest ts H).
Qed.

(** *** Hexadecimal strings *)

Lemma scan_hex_spec h rest acc :
  Forall (λ c, is_xdigit (byte_val c) = true) h →
  scan_hex made_from (h ++ "]"%char :: rest) acc = Ok (acc ++ h, rest).
Proof.
  intros Hh. revert acc. induction Hh as [|x h Hx Hh IH]; intros acc.
  - cbn [app scan_hex peek]. rewrite as_char_byte. by rewrite app_nil_r.
  - cbn [app scan_hex peek]. rewrite as_char_byte, Hx.
    rewrite (proj2 (Z.eqb_neq _ _)) by (unfold is_xdigit, in_range in Hx; lia).
    cbn [negb]. rewrite IH. by rewrite <- app_assoc.
Qed.

Lemma spells_hex h :
  Forall (λ c, is_xdigit (byte_val c) = true) h →
  spells (["["%char] ++ h ++ ["]"%char]) [(TOK_HEX, h)].
Proof.
  intros Hh rest ts H. rewrite <- !app_assoc. cbn [app].
  apply (lexes_token _ TOK_HEX _ rest); [done| |done].
  intros v0. unfold get_token. cbn [skip_space peek tail]. rewrite as_char_byte.
  change (is_space (byte_val "["%char)) with false. cbv iota. cbn [peek tail].
  rewrite byte_not_EOF, as_char_byte. change (is_alpha (byte_val "["%char)) with false.
  change (byte_val "["%char =? 91) with true. cbv iota. by rewrite scan_hex_spec.
Qed.

(** *** Strings *)

(** The two loops read the same language; the first only avoids copying. *)
Lemma scan_string_slow s acc : scan_string made_from s acc = scan_slow made_from s acc.
Proof.
  revert acc. induction s as [|c s IH]; intros acc; [done|]. cbn [scan_string scan_slow].
  destruct (as_char (peek (c :: s)) =? quote); [done|].
  destruct (as_char (peek (c :: s)) =? backslash); [done|]. apply IH.
Qed.

Definition escaped (s : bytes) : bytes :=
  flat_map (λ c, if needs_escape c then [backslash_char; c] else [c]) s.

Lemma scan_slow_spec s rest acc :
  scan_slow made_from (escaped s ++ quote_char :: rest) acc = Ok (acc ++ s, rest).
Proof.
  revert acc. induction s as [|c s IH]; intros acc.
  - cbn [escaped flat_map app scan_slow peek]. rewrite as_char_byte.
    change (byte_val quote_char =? quote) with true. cbv iota. by rewrite app_nil_r.
  - unfold escaped. cbn [flat_map]. fold (escaped s). unfold needs_escape.
    destruct ((byte_val c =? backslash) || (byte_val c =? quote)) eqn:Hc.
    + cbn [app scan_slow peek]. rewrite as_char_byte.
      change (byte_val backslash_char =? quote) with false.
      change (byte_val backslash_char =? backslash) with true. cbv iota.
      rewrite as_char_byte, (orb_comm (byte_val c =? quote)), Hc, IH.
      by rewrite <- app_assoc.
    + apply orb_false_iff in Hc as [H1 H2]. cbn [app scan_slow peek].
      rewrite as_char_byte, H1, H2, IH. by rewrite <- app_assoc.
Qed.

Lemma get_token_escape v rest v0 :
  get_token made_from (escape v ++ rest) v0 = Ok (TOK_STRING, v, rest).
Proof.
  unfold escape. rewrite <- !app_assoc. cbn [app].
  unfold get_token. cbn [skip_space peek tail]. rewrite as_char_byte.
  change (is_space (byte_val quote_char)) with false. cbv iota. cbn [peek tail].
  rewrite byte_not_EOF, as_char_byte. change (is_alpha (byte_val quote_char)) with false.
  change (byte_val quote_char =? 91) with false.
  change (byte_val quote_char =? quote) with true. cbv iota.
  fold (escaped v). by rewrite scan_string_slow, scan_slow_spec.
Qed.

Lemma spells_escape v : spells (escape v) [(TOK_STRING, v)].
Proof. intros rest ts H. apply (lexes_token _ TOK_STRING _ rest); [done| |done]. apply get_token_escape. Qed.

(** *** Entries and stanzas *)

Lemma spells_entry ind k val ts :
  symbol_ok k = true → spells val ts →
  spells (print_entry ind (k, val)) ((TOK_SYMBOL, k) :: ts).
Proof.
  intros Hk Hv. unfold print_entry. cbn [fst snd].
  change ((TOK_SYMBOL, k) :: ts) with ([] ++ [(TOK_SYMBOL, k)] ++ ts).
  apply spells_app; [apply spells_spaces|].
  rewrite (app_assoc k). apply spells_app; [by apply spells_symbol|].
  rewrite <- (app_nil_r ts). apply spells_app; [done|]. by apply spells_space.
Qed.

(** An entry and the tokens it stands for. *)
Definition entry_tokens (e : bytes * bytes) (ts : list (token_type * bytes)) : Prop :=
  symbol_ok e.1 = true ∧ ∃ vts, ts = (TOK_SYMBOL, e.1) :: vts ∧ spells e.2 vts.

Lemma spells_entries ind es tss :
  Forall2 entry_tokens es tss → spells (flat_map (print_entry ind) es) (concat tss).
Proof.
  induction 1 as [|[k v] ts es tss (Hk & vts & -> & Hv) _ IH]; [apply spells_nil|].
  cbn [flat_map concat]. apply spells_app; [by apply spells_entry|done].
Qed.

Lemma spells_stanza buf ts0 st tss :
  spells buf ts0 → Forall2 entry_tokens (entries st) tss →
  spells (print_stanza buf st) (ts0 ++ concat tss).
Proof.
  intros Hb Hes. unfold print_stanza.
  apply spells_app; [|by apply spells_entries]. destruct buf as [|c buf]; [done|].
  rewrite <- (app_nil_r ts0). apply spells_app; [done|]. by apply spells_space.
Qed.
End lexing.

(** ** Parsing a known token sequence *)

Section parsing.
Context (made_from : origin_type).

(** The parser's current token and what it will read after it. *)
Definition at_tokens (p : parser) (ts : list (token_type * bytes)) : Prop :=
  match ts with
  | [] => ttype p = TOK_NONE ∧ src p = []
  | (t, v) :: ts' => t ≠ TOK_NONE ∧ ttype p = t ∧ token p = v ∧ lexes made_from (src p) ts'
  end.

Lemma at_advance p ts :
  lexes made_from (src p) ts → ∃ p', advance made_from p = Ok p' ∧ at_tokens p' ts.
Proof.
  unfold advance. intros H. inversion H; subst.
  - rewrite H0. simpl. by eexists.
  - rewrite H1. simpl. by eexists.
Qed.

Lemma at_new s ts : lexes made_from s ts → ∃ p, new_parser made_from s = Ok p ∧ at_tokens p ts.
Proof. exact (at_advance (Parser s [] TOK_NONE) ts). Qed.

Lemma at_sym p v ts :
  at_tokens p ((TOK_SYMBOL, v) :: ts) → ∃ p', sym made_from p = Ok (v, p') ∧ at_tokens p' ts.
Proof.
  intros (_ & Ht & <- & Hl). unfold sym, eat. rewrite decide_False by auto.
  destruct (at_advance p ts Hl) as (p' & -> & ?). by exists p'.
Qed.

Lemma at_str p v ts :
  at_tokens p ((TOK_STRING, v) :: ts) → ∃ p', str made_from p = Ok (v, p') ∧ at_tokens p' ts.
Proof.
  intros (_ & Ht & <- & Hl). unfold str, eat. rewrite decide_False by auto.
  destruct (at_advance p ts Hl) as (p' & -> & ?). by exists p'.
Qed.

Lemma at_hex p v ts :
  at_tokens p ((TOK_HEX, v) :: ts) → ∃ p', hex made_from p = Ok (v, p') ∧ at_tokens p' ts.
Proof.
  intros (_ & Ht & <- & Hl). unfold hex, eat. rewrite decide_False by auto.
  destruct (at_advance p ts Hl) as (p' & -> & ?). by exists p'.
Qed.

Lemma at_esym p v ts :
  at_tokens p ((TOK_SYMBOL, v) :: ts) → ∃ p', esym made_from v p = Ok p' ∧ at_tokens p' ts.
Proof.
  intros (_ & Ht & <- & Hl). unfold esym. rewrite !bool_decide_true by done. simpl.
  by apply at_advance.
Qed.

Lemma at_symp p v ts : at_tokens p ((TOK_SYMBOL, v) :: ts) → symp v p = true.
Proof. intros (_ & Ht & Hv & _). unfold symp. by rewrite !bool_decide_true. Qed.

(** The next token is not the symbol [key]. *)
Definition other_key (key : bytes) (ts : list (token_type * bytes)) : Prop :=
  match ts with (TOK_SYMBOL, v) :: _ => v ≠ key | _ => True end.

Lemma at_not_symp p key ts : at_tokens p ts → other_key key ts → symp key p = false.
Proof.
  intros Hp Ho. unfold symp. apply andb_false_iff.
  destruct (bool_decide (ttype p = TOK_SYMBOL)) eqn:Ht; [right|by left].
  apply bool_decide_eq_true in Ht. apply bool_decide_eq_false.
  destruct ts as [|[t v] ts].
  - destruct Hp. congruence.
  - destruct Hp as (_ & <- & <- & _). by rewrite Ht in Ho.
Qed.

Lemma length_scan_symbol s acc v s' :
  scan_symbol s acc = (v, s') → (length s' ≤ length s)%nat.
Proof.
  revert acc. induction s as [|c s IH]; intros acc; cbn [scan_symbol].
  - intros [= <- <-]. done.
  - destruct (_ || _); [|intros [= <- <-]; done]. intros H%IH. simpl. lia.
Qed.

Lemma length_skip_space s : (length (skip_space s) ≤ length s)%nat.
Proof. induction s as [|c s IH]; cbn [skip_space]; [done|]. destruct (is_space _); simpl; lia. Qed.

Lemma length_scan_hex s acc v s' :
  scan_hex made_from s acc = Ok (v, s') → (length s' ≤ length s)%nat.
Proof.
  revert acc. induction s as [|c s IH]; intros acc; cbn [scan_hex]; [done|].
  destruct (_ =? _); [intros [= <- <-]; simpl; lia|].
  destruct (negb _); [done|]. intros H%IH. simpl. lia.
Qed.

Lemma length_scan_slow s acc v s' :
  scan_slow made_from s acc = Ok (v, s') → (length s' ≤ length s)%nat.
Proof.
  revert acc. induction s as [s IH] using (induction_ltof1 _ length). unfold ltof in IH.
  intros acc. destruct s as [|c s]; cbn [scan_slow]; [done|].
  destruct (_ =? _); [intros [= <- <-]; simpl; lia|].
  destruct (_ =? _).
  - destruct s as [|e s]; [done|]. destruct (_ || _); [|done].
    intros H%IH; simpl in *; lia.
  - intros H%IH; simpl in *; lia.
Qed.

(** Every token takes at least one byte of the input. *)
Lemma get_token_consumes s v0 t v s' :
  get_token made_from s v0 = Ok (t, v, s') → t ≠ TOK_NONE → (length s' < length s)%nat.
Proof.
  unfold get_token. pose proof (length_skip_space s) as Hs.
  destruct (skip_space s) as [|c r] eqn:Er; [intros [= <-]; done|].
  cbn [peek tail]. rewrite byte_not_EOF. destruct (is_alpha _) eqn:Ha.
  - cbn [scan_symbol peek]. assert (is_alnum (as_char (byte_val c)) = true) as ->.
    { revert Ha. unfold is_alpha, is_alnum, in_range. lia. }
    cbn [orb app]. destruct (scan_symbol r [c]) as [v1 s1] eqn:E. cbv iota beta.
    intros H _; simplify_eq. apply length_scan_symbol in E. simpl in Hs. lia.
  - destruct (_ =? 91).
    + intros H Ht. inv_ok. destruct v1 as [v1 s1]. simplify_eq.
      apply length_scan_hex in E. simpl in Hs. lia.
    + destruct (_ =? quote); [|intros [= <-]; done].
      intros H Ht. inv_ok. destruct v1 as [v1 s1]. simplify_eq.
      rewrite scan_string_slow in E. apply length_scan_slow in E. simpl in Hs. lia.
Qed.

Lemma lexes_length s ts : lexes made_from s ts → (length ts ≤ length s)%nat.
Proof.
  induction 1 as [|s t v s' ts Ht Hg _ IH]; simpl; [lia|].
  pose proof (get_token_consumes _ _ _ _ _ (Hg []) Ht). lia.
Qed.

Lemma at_length p ts : at_tokens p ts → (length ts ≤ S (length (src p)))%nat.
Proof.
  destruct ts as [|[t v] ts]; simpl; [lia|]. intros (_ & _ & _ & Hl).
  apply lexes_length in Hl. lia.
Qed.
End parsing.

(** ** Loops over stanzas: [while (parser.symp(key)) body] *)

Section while_sym.
Context {St : Type} (key : bytes) (body : St → parser → result (St * parser)).

Fixpoint while_sym (fuel : nat) (st : St) (p : parser) : result (St * parser) :=
  match fuel with
  | O => Err invariant_failure
  | S fuel =>
      if symp key p then '(st, p) ← body st p; while_sym fuel st p else Ok (st, p)
  end.

(** The input bounds the number of rounds, since each takes a token of it. *)
Definition while_sym_all (st : St) (p : parser) : result (St * parser) :=
  while_sym (S (length (src p))) st p.

Lemma while_sym_fuel n1 n2 st p :
  (∀ st p st' p', symp key p = true → body st p = Ok (st', p') →
     (length (src p') < length (src p))%nat) →
  (length (src p) < n1)%nat → (length (src p) < n2)%nat →
  while_sym n1 st p = while_sym n2 st p.
Proof.
  intros Hdec. revert n2 st p. induction n1 as [|n1 IH]; intros n2 st p H1 H2; [lia|].
  destruct n2 as [|n2]; [lia|]. cbn [while_sym]. destruct (symp key p) eqn:Hs; [|done].
  destruct (body st p) as [[st' p']|] eqn:Hb; [|done]. simpl.
  pose proof (Hdec _ _ _ _ Hs Hb). apply IH; lia.
Qed.

(** A loop that meets the stanzas of the items of [l], in order. *)
Lemma while_sym_tail {A} made_from (toks : A → list (token_type * bytes))
    (P : list A → St → Prop) (l : list A) ts st p :
  (∀ a, (2 ≤ length (toks a))%nat) →
  (∀ a, ∃ ts', toks a = (TOK_SYMBOL, key) :: ts') →
  (∀ l1 a l2 st p, l = l1 ++ a :: l2 → P l1 st →
     at_tokens made_from p (toks a ++ concat (toks <$> l2) ++ ts) →
     ∃ st' p', body st p = Ok (st', p') ∧ P (l1 ++ [a]) st' ∧ at_tokens made_from p' (concat (toks <$> l2) ++ ts)) →
  other_key key ts → at_tokens made_from p (concat (toks <$> l) ++ ts) → P [] st →
  ∃ st' p', while_sym_all st p = Ok (st', p') ∧ P l st' ∧ at_tokens made_from p' ts.
Proof.
  intros Hlen Hkey Hbody Hother Hp HP. unfold while_sym_all.
  assert (length l < S (length (src p)))%nat as Hfuel.
  { apply at_length in Hp. rewrite length_app in Hp.
    assert (2 * length l ≤ length (concat (toks <$> l)))%nat.
    { clear - Hlen. induction l as [|a l IH]; [simpl; lia|]. rewrite fmap_cons.
      cbn [concat length]. rewrite length_app. specialize (Hlen a). lia. }
    lia. }
  enough (∀ l2 l1 fuel st p, l = l1 ++ l2 → (length l2 < fuel)%nat → P l1 st →
    at_tokens made_from p (concat (toks <$> l2) ++ ts) →
    ∃ st' p', while_sym fuel st p = Ok (st', p') ∧ P l st' ∧ at_tokens made_from p' ts) as H
    by (by eapply (H l [])).
  clear Hp HP Hfuel st p. induction l2 as [|a l2 IH]; intros l1 fuel st p Hl Hf HP Hp.
  - destruct fuel as [|fuel]; [simpl in Hf; lia|]. cbn [while_sym]. simpl in Hp.
    rewrite (at_not_symp _ _ _ _ Hp Hother). rewrite app_nil_r in Hl. subst. eauto.
  - destruct fuel as [|fuel]; [simpl in Hf; lia|]. simpl in Hf. cbn [while_sym].
    rewrite fmap_cons in Hp. cbn [concat] in Hp. rewrite <- app_assoc in Hp.
    destruct (Hkey a) as [ts' Ha].
    assert (symp key p = true) as -> by (rewrite Ha in Hp; by eapply at_symp).
    destruct (Hbody l1 a l2 st p Hl HP Hp) as (st' & p' & -> & HP' & Hp').
    simpl. apply (IH (l1 ++ [a])); [by rewrite <- app_assoc | lia | done..].
Qed.

(** The same, when the body does not depend on what follows its stanza. *)
Lemma while_sym_items {A} made_from (toks : A → list (token_type * bytes))
    (P : list A → St → Prop) (l : list A) ts st p :
  (∀ a, (2 ≤ length (toks a))%nat) →
  (∀ a, ∃ ts', toks a = (TOK_SYMBOL, key) :: ts') →
  (∀ l1 a l2 st p ts, l = l1 ++ a :: l2 → P l1 st → at_tokens made_from p (toks a ++ ts) →
     ∃ st' p', body st p = Ok (st', p') ∧ P (l1 ++ [a]) st' ∧ at_tokens made_from p' ts) →
  other_key key ts → at_tokens made_from p (concat (toks <$> l) ++ ts) → P [] st →
  ∃ st' p', while_sym_all st p = Ok (st', p') ∧ P l st' ∧ at_tokens made_from p' ts.
Proof. intros Hlen Hkey Hbody. apply while_sym_tail; [done..|]. intros l1 a l2 st0 p0 Hl. by apply Hbody with (l2 := l2). Qed.
End while_sym.

(** Whatever bytes a string holds, quotes and backslashes included, the
    tokenizer reads [escape]'s output back as one string token with exactly
    those bytes and stops right behind it, whatever follows. *)
Theorem escape_token_roundtrip made_from s rest v0 :
  get_token made_from (escape s ++ rest) v0 = Ok (TOK_STRING, s, rest).
Proof. apply get_token_escape. Qed.
