(* ===== verification/Cset.v ===== *)
(** * Change sets ([src/src/cset.cc], [src/src/cset.hh])

    A cset describes the difference of two trees by paths.  It is applied
    through the [editable_tree] interface: a class of operations here, whose
    laws are stated next to it, proved for the roster in [CsetRoster.v], and
    used for the client [apply_to] without looking at the tree behind it. *)

From S2P Require Import Prelude Paths Hex BasicIo Roster ParallelIter.

(** ** [class editable_tree] *)
Class EditableTree (T : Type) := {
  et_detach_node : T → file_path → result (T * node_id);
  et_drop_detached_node : T → node_id → result T;
  et_create_dir_node : T → result (T * node_id);
  et_create_file_node : T → file_id → result (T * node_id);
  et_attach_node : T → node_id → file_path → result T;
  et_apply_delta : T → file_path → file_id → file_id → result T;
  et_clear_attr : T → file_path → attr_key → result T;
  et_set_attr : T → file_path → attr_key → attr_value → result T;
  et_commit : T → result T
}.

(** ** [class cset] *)
Record cset := Cset {
  nodes_deleted : gset file_path;
  dirs_added : gset file_path;
  files_added : gmap file_path bytes;
  nodes_renamed : gmap file_path file_path;
  deltas_applied : gmap file_path (bytes * bytes);
  attrs_cleared : gset (file_path * bytes);
  attrs_set : gmap (file_path * bytes) bytes
}.

#[export] Instance cset_eq_dec : EqDecision cset.
Proof. solve_decision. Defined.

Definition empty_cset : cset := Cset ∅ ∅ ∅ ∅ ∅ ∅ ∅.

(** [cset::empty] *)
Definition cset_empty (cs : cset) : bool :=
  bool_decide (nodes_deleted cs = ∅) && bool_decide (dirs_added cs = ∅)
  && bool_decide (files_added cs = ∅) && bool_decide (nodes_renamed cs = ∅)
  && bool_decide (deltas_applied cs = ∅) && bool_decide (attrs_cleared cs = ∅)
  && bool_decide (attrs_set cs = ∅).

(** [cset::clear] *)
Definition cset_clear (cs : cset) : cset := empty_cset.

(** ** [check_normalized] *)

(** Two iterators walk two ordered containers; meeting at a key is an error. *)
Fixpoint check_disjoint `{Ordered K} (a : list K) : list K → result unit :=
  fix go d :=
    match a, d with
    | x :: a', y :: d' =>
        if klt x y then check_disjoint a' d
        else if klt y x then go d'
        else I_ false
    | _, _ => Ok tt
    end.

Definition check_normalized (cs : cset) : result unit :=
  check_disjoint (map_iter (files_added cs)).*1 (map_iter (deltas_applied cs)).*1 ;;
  check_disjoint (set_iter (attrs_cleared cs)) (map_iter (attrs_set cs)).*1.

(** ** [cset::apply_to]

    [set<attach>] and [set<detach>] compare elements by their path only (in
    decreasing order for [detach]): maps keyed by that path. *)
Section apply_to.
Context {T : Type} `{!EditableTree T}.

(** Attachments: the path, and the node to put there. *)
Abbreviation attaches := (gmap file_path Z).
(** Detachments: the source path, and the destination when reattaching. *)
Abbreviation detaches := (gmap file_path (option file_path)).

Definition add_dirs (t : T) (cs : cset) (at_ : attaches) : result (T * attaches) :=
  foldM (λ '(t, a) p, '(t, n) ← et_create_dir_node t; a ← safe_insert a p n; Ok (t, a))
    (set_iter (dirs_added cs)) (t, at_).

Definition add_files (t : T) (cs : cset) (at_ : attaches) : result (T * attaches) :=
  foldM (λ '(t, a) i, '(t, n) ← et_create_file_node t i.2; a ← safe_insert a i.1 n; Ok (t, a))
    (map_iter (files_added cs)) (t, at_).

Definition collect_detaches (cs : cset) : result detaches :=
  d ← foldM (λ d p, safe_insert d p None) (set_iter (nodes_deleted cs)) ∅;
  foldM (λ d i, safe_insert d i.1 (Some i.2)) (map_iter (nodes_renamed cs)) d.

(** The order of [set<detach>] (bottom-up) and of [set<attach>] (top-down). *)
Definition detach_order (d : detaches) : list (file_path * option file_path) :=
  reverse (map_iter d).
Definition attach_order (a : attaches) : list (file_path * Z) := map_iter a.

Definition run_detaches (t : T) (d : detaches) (at_ : attaches) :
    result (T * attaches * gset Z) :=
  foldM (λ '(t, a, drops) i,
      '(t, n) ← et_detach_node t i.1;
      match i.2 with
      | Some dst => a ← safe_insert a dst n; Ok (t, a, drops)
      | None => drops ← safe_insert_set drops n; Ok (t, a, drops)
      end)
    (detach_order d) (t, at_, ∅).

Definition run_attaches (t : T) (at_ : attaches) : result T :=
  foldM (λ t i, et_attach_node t i.2 i.1) (attach_order at_) t.

Definition run_drops (t : T) (drops : gset Z) : result T :=
  foldM et_drop_detached_node (set_iter drops) t.

Definition run_edits (t : T) (cs : cset) : result T :=
  t ← foldM (λ t i, et_apply_delta t i.1 i.2.1 i.2.2) (map_iter (deltas_applied cs)) t;
  t ← foldM (λ t i, et_clear_attr t i.1 i.2) (set_iter (attrs_cleared cs)) t;
  foldM (λ t i, et_set_attr t i.1.1 i.1.2 i.2) (map_iter (attrs_set cs)) t.

Definition apply_to (cs : cset) (t : T) : result T :=
  check_normalized cs ;;
  '(t, a) ← add_dirs t cs ∅;
  '(t, a) ← add_files t cs a;
  d ← collect_detaches cs;
  '(t, a, drops) ← run_detaches t d a;
  t ← run_attaches t a;
  t ← run_drops t drops;
  t ← run_edits t cs;
  et_commit t.
End apply_to.

(** ** Calculation of a cset ([cset::cset(from, to, ignore_detached)], in [roster.cc]) *)

Definition set_nodes_deleted (cs : cset) x :=
  Cset x (dirs_added cs) (files_added cs) (nodes_renamed cs) (deltas_applied cs) (attrs_cleared cs) (attrs_set cs).
Definition set_dirs_added (cs : cset) x :=
  Cset (nodes_deleted cs) x (files_added cs) (nodes_renamed cs) (deltas_applied cs) (attrs_cleared cs) (attrs_set cs).
Definition set_files_added (cs : cset) x :=
  Cset (nodes_deleted cs) (dirs_added cs) x (nodes_renamed cs) (deltas_applied cs) (attrs_cleared cs) (attrs_set cs).
Definition set_nodes_renamed (cs : cset) x :=
  Cset (nodes_deleted cs) (dirs_added cs) (files_added cs) x (deltas_applied cs) (attrs_cleared cs) (attrs_set cs).
Definition set_deltas_applied (cs : cset) x :=
  Cset (nodes_deleted cs) (dirs_added cs) (files_added cs) (nodes_renamed cs) x (attrs_cleared cs) (attrs_set cs).
Definition set_attrs_cleared (cs : cset) x :=
  Cset (nodes_deleted cs) (dirs_added cs) (files_added cs) (nodes_renamed cs) (deltas_applied cs) x (attrs_set cs).
Definition set_attrs_set (cs : cset) x :=
  Cset (nodes_deleted cs) (dirs_added cs) (files_added cs) (nodes_renamed cs) (deltas_applied cs) (attrs_cleared cs) x.

Definition delta_only_in_from (from : roster) (nid : node_id) (cs : cset) : result cset :=
  pth ← get_name from nid;
  x ← safe_insert_set (nodes_deleted cs) pth;
  Ok (set_nodes_deleted cs x).

Definition delta_only_in_to (to : roster) (nid : node_id) (n : node) (cs : cset) : result cset :=
  pth ← get_name to nid;
  cs ← match body n with
       | FileBody content => x ← safe_insert (files_added cs) pth content; Ok (set_files_added cs x)
       | DirBody _ => x ← safe_insert_set (dirs_added cs) pth; Ok (set_dirs_added cs x)
       end;
  foldM (λ cs i,
      if i.2.1 : bool
      then x ← safe_insert (attrs_set cs) (pth, i.1) i.2.2; Ok (set_attrs_set cs x)
      else Ok cs)
    (map_iter (attrs n)) cs.

(** One round of the attribute loop of [delta_in_both]. *)
Definition delta_attr (to_p : file_path) (cs : cset) (it : bytes * item (bool * bytes)) :
    result cset :=
  let k := it.1 in
  let clear := x ← safe_insert_set (attrs_cleared cs) (to_p, k); Ok (set_attrs_cleared cs x) in
  let set_to v := x ← safe_insert (attrs_set cs) (to_p, k) v; Ok (set_attrs_set cs x) in
  match it.2 with
  | Left l => if l.1 : bool then clear else Ok cs
  | Right r => if r.1 : bool then set_to r.2 else Ok cs
  | Both l r =>
      if negb r.1 && l.1 then clear
      else if negb l.1 && r.1 then set_to r.2
      else if r.1 && l.1 && bool_decide (r.2 ≠ l.2) then set_to r.2
      else Ok cs
  end.

Definition delta_in_both (nid : node_id) (from : roster) (from_n : node) (to : roster)
    (to_n : node) (cs : cset) (ignore_detached : bool) : result cset :=
  I_ (same_type from_n to_n) ;;
  I_ (self from_n =? self to_n) ;;
  eq ← shallow_equal from_n to_n false true;
  if eq : bool then Ok cs
  else if ignore_detached && (negb (is_attached from nid) || negb (is_attached to nid)) then Ok cs
  else
    from_p ← get_name from nid;
    to_p ← get_name to nid;
    cs ← (if bool_decide (name from_n ≠ name to_n) || negb (parent from_n =? parent to_n)
          then x ← safe_insert (nodes_renamed cs) from_p to_p; Ok (set_nodes_renamed cs x)
          else Ok cs);
    cs ← (if is_file_t from_n then
            from_c ← downcast_to_file_t from_n;
            to_c ← downcast_to_file_t to_n;
            if decide (from_c = to_c) then Ok cs
            else x ← safe_insert (deltas_applied cs) to_p (from_c, to_c); Ok (set_deltas_applied cs x)
          else Ok cs);
    its ← items (attrs from_n) (attrs to_n);
    foldM (delta_attr to_p) its cs.

Definition make_cset (from to : roster) (ignore_detached : bool) : result cset :=
  its ← items (nodes from) (nodes to);
  foldM (λ cs it,
      match it with
      | (k, Left _) => delta_only_in_from from k cs
      | (k, Right n) => delta_only_in_to to k n cs
      | (k, Both n n') => delta_in_both k from n to n' cs ignore_detached
      end) its empty_cset.

(** ** I/O *)

Module syms.
Definition delete_node := lit "delete".
Definition rename_node := lit "rename".
Definition content := lit "content".
Definition add_file := lit "add_file".
Definition add_dir := lit "add_dir".
Definition patch := lit "patch".
Definition from := lit "from".
Definition to := lit "to".
Definition clear := lit "clear".
Definition set := lit "set".
Definition attr := lit "attr".
Definition value := lit "value".
End syms.

(** [stanza::push_file_pair] *)
Definition push_file_pair (st : stanza) (k : bytes) (v : file_path) : stanza :=
  push_str_pair st k (data v).

(** The stanzas of [print_cset], one function per loop. *)
Definition st_deleted (p : file_path) : result stanza :=
  Ok (push_file_pair new_stanza syms.delete_node p).
Definition st_renamed (i : file_path * file_path) : result stanza :=
  Ok (push_file_pair (push_file_pair new_stanza syms.rename_node i.1) syms.to i.2).
Definition st_dir (p : file_path) : result stanza :=
  Ok (push_file_pair new_stanza syms.add_dir p).
Definition st_file (i : file_path * bytes) : result stanza :=
  push_binary_pair internal (push_file_pair new_stanza syms.add_file i.1) syms.content i.2.
Definition st_patch (i : file_path * (bytes * bytes)) : result stanza :=
  st ← push_binary_pair internal (push_file_pair new_stanza syms.patch i.1) syms.from i.2.1;
  push_binary_pair internal st syms.to i.2.2.
Definition st_cleared (i : file_path * bytes) : result stanza :=
  Ok (push_str_pair (push_file_pair new_stanza syms.clear i.1) syms.attr i.2).
Definition st_set (i : file_path * bytes * bytes) : result stanza :=
  Ok (push_str_pair (push_str_pair (push_file_pair new_stanza syms.set i.1.1)
        syms.attr i.1.2) syms.value i.2).

Definition print_all {A} (f : A → result stanza) (l : list A) (buf : bytes) : result bytes :=
  foldM (λ buf a, st ← f a; Ok (print_stanza buf st)) l buf.

Definition print_cset (buf : bytes) (cs : cset) : result bytes :=
  buf ← print_all st_deleted (set_iter (nodes_deleted cs)) buf;
  buf ← print_all st_renamed (map_iter (nodes_renamed cs)) buf;
  buf ← print_all st_dir (set_iter (dirs_added cs)) buf;
  buf ← print_all st_file (map_iter (files_added cs)) buf;
  buf ← print_all st_patch (map_iter (deltas_applied cs)) buf;
  buf ← print_all st_cleared (set_iter (attrs_cleared cs)) buf;
  print_all st_set (map_iter (attrs_set cs)) buf.

Definition write_cset (cs : cset) : result bytes := print_cset [] cs.

Section parse.
Context (utf8_validate : bytes → bool) (made_from : origin_type).

Definition parse_path (p : parser) : result (file_path * parser) :=
  '(s, p) ← str made_from p;
  fp ← file_path_internal utf8_validate s;
  Ok (fp, p).

(** [I(prev_path.empty() || prev_path < p1)] *)
Definition in_order (prev p1 : file_path) : result unit := I_ (fp_empty prev || klt prev p1).
(** [I(prev_pair.first.empty() || new_pair > prev_pair)] *)
Definition pair_in_order (prev p1 : file_path * bytes) : result unit :=
  I_ (fp_empty prev.1 || klt prev p1).

Definition no_path : file_path := FilePath [].

Definition parse_deleted (st : file_path * gset file_path) (p : parser) :
    result (file_path * gset file_path * parser) :=
  '(_, p) ← sym made_from p;
  '(p1, p) ← parse_path p;
  in_order st.1 p1 ;;
  x ← safe_insert_set st.2 p1;
  Ok (p1, x, p).

Definition parse_renamed (st : file_path * gmap file_path file_path) (p : parser) :
    result (file_path * gmap file_path file_path * parser) :=
  '(_, p) ← sym made_from p;
  '(p1, p) ← parse_path p;
  in_order st.1 p1 ;;
  p ← esym made_from syms.to p;
  '(p2, p) ← parse_path p;
  x ← safe_insert st.2 p1 p2;
  Ok (p1, x, p).

Definition parse_file (st : file_path * gmap file_path bytes) (p : parser) :
    result (file_path * gmap file_path bytes * parser) :=
  '(_, p) ← sym made_from p;
  '(p1, p) ← parse_path p;
  in_order st.1 p1 ;;
  p ← esym made_from syms.content p;
  '(t1, p) ← hex made_from p;
  f ← decode_hexenc_as_id made_from t1;
  x ← safe_insert st.2 p1 f;
  Ok (p1, x, p).

Definition parse_patch (st : file_path * gmap file_path (bytes * bytes)) (p : parser) :
    result (file_path * gmap file_path (bytes * bytes) * parser) :=
  '(_, p) ← sym made_from p;
  '(p1, p) ← parse_path p;
  in_order st.1 p1 ;;
  p ← esym made_from syms.from p;
  '(t1, p) ← hex made_from p;
  p ← esym made_from syms.to p;
  '(t2, p) ← hex made_from p;
  f1 ← decode_hexenc_as_id made_from t1;
  f2 ← decode_hexenc_as_id made_from t2;
  x ← safe_insert st.2 p1 (f1, f2);
  Ok (p1, x, p).

Definition parse_cleared (st : (file_path * bytes) * gset (file_path * bytes)) (p : parser) :
    result ((file_path * bytes) * gset (file_path * bytes) * parser) :=
  '(_, p) ← sym made_from p;
  '(p1, p) ← parse_path p;
  p ← esym made_from syms.attr p;
  '(t1, p) ← str made_from p;
  pair_in_order st.1 (p1, t1) ;;
  x ← safe_insert_set st.2 (p1, t1);
  Ok ((p1, t1), x, p).

Definition parse_set (st : (file_path * bytes) * gmap (file_path * bytes) bytes) (p : parser) :
    result ((file_path * bytes) * gmap (file_path * bytes) bytes * parser) :=
  '(_, p) ← sym made_from p;
  '(p1, p) ← parse_path p;
  p ← esym made_from syms.attr p;
  '(t1, p) ← str made_from p;
  pair_in_order st.1 (p1, t1) ;;
  p ← esym made_from syms.value p;
  '(t2, p) ← str made_from p;
  x ← safe_insert st.2 (p1, t1) t2;
  Ok ((p1, t1), x, p).

(** [prev_pair.second] is not reset between the loops, and not looked at
    while [prev_pair.first] is empty. *)
Definition parse_cset (p : parser) : result (cset * parser) :=
  '((_, del), p) ← while_sym_all syms.delete_node parse_deleted (no_path, ∅) p;
  '((_, ren), p) ← while_sym_all syms.rename_node parse_renamed (no_path, ∅) p;
  '((_, dirs), p) ← while_sym_all syms.add_dir parse_deleted (no_path, ∅) p;
  '((_, files), p) ← while_sym_all syms.add_file parse_file (no_path, ∅) p;
  '((_, deltas), p) ← while_sym_all syms.patch parse_patch (no_path, ∅) p;
  '((_, cl), p) ← while_sym_all syms.clear parse_cleared (no_path, [], ∅) p;
  '((_, se), p) ← while_sym_all syms.set parse_set (no_path, [], ∅) p;
  Ok (Cset del dirs files ren deltas cl se, p).

End parse.

(** [read_cset]: the whole input has to be consumed; an [input_source] made
    without an origin is [internal]. *)
Definition read_cset (utf8_validate : bytes → bool) (dat : bytes) : result cset :=
  p ← new_parser internal dat;
  '(cs, p) ← parse_cset utf8_validate internal p;
  I_ (peek (src p) =? EOF) ;;
  Ok cs.
