(* ===== verification/CsetApply.v ===== *)
(** * Applying a cset: the client side of [editable_tree]

    [cset::apply_to] against the interface only: its normalization check, the
    order of its attaches and detaches, and that it leaves nothing detached. *)

From S2P Require Import Prelude Paths Hex BasicIo Roster ParallelIter Cset.

(** ** [check_normalized] *)

Lemma check_disjoint_spec `{Ordered K} (a d : list K) :
  StronglySorted (λ x y, klt x y = true) a → StronglySorted (λ x y, klt x y = true) d →
  check_disjoint a d = Ok tt ↔ ∀ x, x ∈ a → x ∈ d → False.
Proof.
  intros Ha. revert d. induction Ha as [|x a Ha IHa Hx]; intros d Hd.
  - destruct d; cbn; split; try done; by intros _ ? ?%not_elem_of_nil.
  - induction Hd as [|y d Hd IHd Hy].
    + cbn. split; [|done]. by intros _ ? _ ?%not_elem_of_nil.
    + rewrite Forall_forall in Hx, Hy. cbn [check_disjoint].
      destruct (klt x y) eqn:Exy; [|destruct (klt y x) eqn:Eyx].
      * rewrite IHa by (constructor; [done|by apply Forall_forall]).
        setoid_rewrite elem_of_cons. split; [|naive_solver].
        intros Hno z [->|Hz] [->|Hz']; eauto.
        -- by rewrite klt_irrefl in Exy.
        -- pose proof (klt_trans _ _ _ Exy (Hy _ Hz')) as E. by rewrite klt_irrefl in E.
      * change ((fix go d := match d with
          | [] => Ok tt
          | y0 :: d' => if klt x y0 then check_disjoint a (y0 :: d')
                        else if klt y0 x then go d' else I_ false end) d)
          with (check_disjoint (x :: a) d).
        rewrite IHd. setoid_rewrite elem_of_cons. split; [|naive_solver].
        intros Hno z [->|Hz] [->|Hz']; eauto.
        -- by rewrite klt_irrefl in Eyx.
        -- pose proof (klt_trans _ _ _ Eyx (Hx _ Hz)) as E. by rewrite klt_irrefl in E.
      * destruct (klt_total x y) as [?|[->|?]]; [congruence| |congruence].
        split; [done|]. intros Hno. exfalso. apply (Hno y); by left.
Qed.

(** [check_normalized] accepts exactly the csets in which no file is both
    added and patched and no attribute is both cleared and set: the merge-like
    double loops miss no common key. *)
Theorem check_normalized_iff cs :
  check_normalized cs = Ok tt ↔
  (∀ p, is_Some (files_added cs !! p) → deltas_applied cs !! p = None) ∧
  (∀ x, x ∈ attrs_cleared cs → attrs_set cs !! x = None).
Proof.
  unfold check_normalized.
  pose proof (check_disjoint_spec (map_iter (files_added cs)).*1 (map_iter (deltas_applied cs)).*1
    (map_keys_sorted _) (map_keys_sorted _)) as H1.
  pose proof (check_disjoint_spec (set_iter (attrs_cleared cs)) (map_iter (attrs_set cs)).*1
    (set_iter_sorted _) (map_keys_sorted _)) as H2.
  setoid_rewrite elem_of_map_keys in H1. setoid_rewrite elem_of_map_keys in H2.
  setoid_rewrite elem_of_set_iter in H2. setoid_rewrite eq_None_not_Some.
  destruct (check_disjoint (map_iter (files_added cs)).*1 (map_iter (deltas_applied cs)).*1)
    as [[]|e]; simpl.
  - rewrite H2. split; [intros H; split; [exact (proj1 H1 eq_refl)|exact H] | by intros [_ H]].
  - split; [done|]. intros [H _]. discriminate (proj2 H1 H).
Qed.

(** ** The order of attaches and detaches *)

Lemma dirname_lt p : fp_empty p = false → klt (dirname p) p = true.
Proof.
  unfold fp_empty. intros Hp%bool_decide_eq_false. destruct p as [s]. simpl in *.
  unfold dirname. simpl. rewrite path_ltb_rank. destruct (rfind_slash s) as [i|] eqn:E; simpl.
  - apply rfind_slash_Some in E as [E _]. rewrite E at 2. rewrite fmap_app. by apply zlex_app_r.
  - by destruct s.
Qed.

Lemma beneath_loop_lt fuel basedir other p :
  klt basedir p = true → beneath_loop fuel basedir other = true → klt other p = true.
Proof.
  revert basedir. induction fuel as [|fuel IH]; intros basedir Hlt; [done|]. cbn [beneath_loop].
  destruct (fp_empty basedir) eqn:Hb; [done|]. case_decide; [by subst|].
  apply IH. eapply klt_trans; [by apply dirname_lt|done].
Qed.

(** Everything below a directory comes after it. *)
Lemma beneath_lt p q : is_beneath_of p q = true → p ≠ q → klt q p = true.
Proof.
  unfold is_beneath_of. intros H Hne. destruct (fp_empty q) eqn:Hq.
  - unfold fp_empty in Hq. apply bool_decide_eq_true in Hq. destruct p as [[|c s]], q as [s']; simpl in *; by subst.
  - destruct (fp_empty p) eqn:Hp.
    + exfalso. revert H. unfold fp_empty in Hp. apply bool_decide_eq_true in Hp. destruct p; simpl in *; by subst.
    + eapply beneath_loop_lt; [by apply dirname_lt|done].
Qed.

Lemma sorted_before `{Ordered K} {V} (l1 l2 l3 : list (K * V)) x y :
  StronglySorted (λ x y, klt x y = true) (l1 ++ x :: l2 ++ y :: l3).*1 → klt x.1 y.1 = true.
Proof.
  induction l1 as [|z l1 IH]; intros Hs; apply StronglySorted_inv in Hs as [Hs Hx].
  - rewrite Forall_forall in Hx. apply Hx. apply (list_elem_of_fmap_2 fst), elem_of_app.
    right. by left.
  - by apply IH.
Qed.

(** [apply_to] executes its attaches top-down and its detaches bottom-up:
    no path is attached before a directory it lies beneath, and no directory
    is detached before a path beneath it. *)
Theorem apply_to_order (a : gmap file_path Z) (d : gmap file_path (option file_path)) :
  (∀ l1 x l2 y l3, attach_order a = l1 ++ x :: l2 ++ y :: l3 → is_beneath_of x.1 y.1 = false) ∧
  (∀ l1 x l2 y l3, detach_order d = l1 ++ x :: l2 ++ y :: l3 → is_beneath_of y.1 x.1 = false).
Proof.
  assert (∀ p q : file_path, klt p q = true → is_beneath_of p q = false) as Hlt.
  { intros p q Hpq. destruct (is_beneath_of p q) eqn:E; [|done]. exfalso.
    assert (p ≠ q) as Hne by (intros ->; by rewrite klt_irrefl in Hpq).
    pose proof (beneath_lt p q E Hne) as Hqp. by rewrite (klt_asym _ _ Hpq) in Hqp. }
  split; intros l1 x l2 y l3 E.
  - apply Hlt. pose proof (map_keys_sorted a) as Hs. unfold attach_order in E. rewrite E in Hs.
    by eapply sorted_before.
  - apply Hlt. pose proof (map_keys_sorted d) as Hs. unfold detach_order in E.
    apply (f_equal reverse) in E. rewrite reverse_involutive, reverse_app, !reverse_cons, reverse_app,
      reverse_cons, <- !app_assoc in E. rewrite E in Hs. simpl in Hs. by eapply sorted_before.
Qed.

Lemma apply_to_order_witness :
  let a : gmap file_path Z := {[FilePath (lit "d/f") := 2; FilePath (lit "d") := 1]} in
  let d : gmap file_path (option file_path) :=
    {[FilePath (lit "x") := None; FilePath (lit "x/y") := Some (FilePath (lit "z"))]} in
  is_beneath_of (FilePath (lit "d")) (FilePath (lit "d/f")) = false ∧
  is_beneath_of (FilePath (lit "x")) (FilePath (lit "x/y")) = false.
Proof.
  intros a d. split.
  - apply (proj1 (apply_to_order a d) [] (FilePath (lit "d"), 1) [] (FilePath (lit "d/f"), 2) []).
    vm_compute. reflexivity.
  - apply (proj2 (apply_to_order a d) [] (FilePath (lit "x/y"), Some (FilePath (lit "z"))) []
      (FilePath (lit "x"), None) []).
    vm_compute. reflexivity.
Defined.

(** ** What [editable_tree] promises

    [ok t D]: the tree is sound and [D] are exactly its detached nodes.  The
    operations move nodes into and out of [D]; [apply_to] needs no more. *)
Class EditableTreeLaws (T : Type) `{!EditableTree T} (ok : T → gset Z → Prop) := {
  law_detach t D p t' n :
    ok t D → et_detach_node t p = Ok (t', n) → n ∉ D ∧ ok t' ({[n]} ∪ D);
  law_create_dir t D t' n :
    ok t D → et_create_dir_node t = Ok (t', n) → n ∉ D ∧ ok t' ({[n]} ∪ D);
  law_create_file t D f t' n :
    ok t D → et_create_file_node t f = Ok (t', n) → n ∉ D ∧ ok t' ({[n]} ∪ D);
  law_attach t D n p t' :
    ok t D → n ∈ D → et_attach_node t n p = Ok t' → ok t' (D ∖ {[n]});
  law_drop t D n t' :
    ok t D → n ∈ D → et_drop_detached_node t n = Ok t' → ok t' (D ∖ {[n]});
  law_apply_delta t D p f1 f2 t' : ok t D → et_apply_delta t p f1 f2 = Ok t' → ok t' D;
  law_clear_attr t D p k t' : ok t D → et_clear_attr t p k = Ok t' → ok t' D;
  law_set_attr t D p k v t' : ok t D → et_set_attr t p k v = Ok t' → ok t' D;
  law_commit t D t' : ok t D → et_commit t = Ok t' → ok t' D
}.

Section balanced.
Context {T : Type} `{!EditableTree T} (ok : T → gset Z → Prop) `{!EditableTreeLaws T ok}.

(** The pending attaches and drops account for every detached node, once. *)
Record pending (t : T) (a : gmap file_path Z) (X : gset Z) : Prop := {
  pend_ok : ok t (map_img a ∪ X);
  pend_inj p q n : a !! p = Some n → a !! q = Some n → p = q;
  pend_disj p n : a !! p = Some n → n ∉ X
}.

Lemma pending_attach t a X p n t' a' :
  pending t a X → n ∉ map_img a ∪ X → ok t' ({[n]} ∪ (map_img a ∪ X)) →
  safe_insert a p n = Ok a' → pending t' a' X.
Proof.
  intros [Hok Hinj Hdis] Hn Hok' [Hp ->]%safe_insert_Ok_inv.
  apply not_elem_of_union in Hn as [Hna HnX].
  assert (∀ q, a !! q ≠ Some n) as Hfr by (intros q Hq; apply Hna; by apply (elem_of_map_img_2 _ q)).
  split.
  - rewrite (leibniz_equiv _ _ (map_img_insert_notin (SA := gset Z) a p n Hp)).
    by rewrite <- (assoc_L (∪)).
  - intros q1 q2 m. rewrite !lookup_insert_Some. naive_solver.
  - intros q m. rewrite lookup_insert_Some. naive_solver.
Qed.

Lemma pending_drop t a X n t' X' :
  pending t a X → n ∉ map_img a ∪ X → ok t' ({[n]} ∪ (map_img a ∪ X)) →
  safe_insert_set X n = Ok X' → pending t' a X'.
Proof.
  intros [Hok Hinj Hdis] Hn Hok' HX. unfold safe_insert_set in HX. case_decide; [done|].
  injection HX as <-. apply not_elem_of_union in Hn as [Hna HnX]. split; [|done|].
  - replace (map_img a ∪ ({[n]} ∪ X)) with ({[n]} ∪ (map_img a ∪ X)) by set_solver. done.
  - intros q m Hq. rewrite not_elem_of_union, not_elem_of_singleton. split; [|by eapply Hdis].
    intros ->. apply Hna. by apply (elem_of_map_img_2 _ q).
Qed.

Lemma add_dirs_pending t cs a t' a' :
  pending t a ∅ → add_dirs t cs a = Ok (t', a') → pending t' a' ∅.
Proof.
  intros Hp H. unfold add_dirs in H.
  eapply (foldM_inv (λ s, pending s.1 s.2 ∅)) in H; [done|done|].
  intros [t1 a1] p [t2 a2] _ Hp1 E. simpl in *. inv_ok. destruct v as [t3 n]. inv_ok. simplify_eq.
  destruct (law_create_dir _ _ _ _ (pend_ok _ _ _ Hp1) E0) as [? ?]. by eapply pending_attach.
Qed.

Lemma add_files_pending t cs a t' a' :
  pending t a ∅ → add_files t cs a = Ok (t', a') → pending t' a' ∅.
Proof.
  intros Hp H. unfold add_files in H.
  eapply (foldM_inv (λ s, pending s.1 s.2 ∅)) in H; [done|done|].
  intros [t1 a1] p [t2 a2] _ Hp1 E. simpl in *. inv_ok. destruct v as [t3 n]. inv_ok. simplify_eq.
  destruct (law_create_file _ _ _ _ _ (pend_ok _ _ _ Hp1) E0) as [? ?]. by eapply pending_attach.
Qed.

Lemma run_detaches_pending t d a t' a' X :
  pending t a ∅ → run_detaches t d a = Ok (t', a', X) → pending t' a' X.
Proof.
  intros Hp H. unfold run_detaches in H.
  eapply (foldM_inv (λ s, pending s.1.1 s.1.2 s.2)) in H; [done|done|].
  intros [[t1 a1] X1] [p o] [[t2 a2] X2] _ Hp1 E. simpl in *. inv_ok. destruct v as [t3 n].
  destruct (law_detach _ _ _ _ _ (pend_ok _ _ _ Hp1) E0) as [? ?].
  destruct o as [dst|]; inv_ok; simplify_eq; [by eapply pending_attach | by eapply pending_drop].
Qed.

(** Taking out the nodes of a list one by one. *)
Lemma take_out {A} (f : T → A → result T) (id_of : A → Z) l t D t' :
  NoDup (id_of <$> l) →
  (∀ t D x t', ok t D → id_of x ∈ D → f t x = Ok t' → ok t' (D ∖ {[id_of x]})) →
  ok t (list_to_set (id_of <$> l) ∪ D) → (∀ x, x ∈ l → id_of x ∉ D) →
  foldM f l t = Ok t' → ok t' D.
Proof.
  intros Hnd Hf. revert t. induction l as [|x l IH]; intros t Hok Hdis H.
  - simpl in H. injection H as <-. rewrite fmap_nil, list_to_set_nil in Hok.
    by rewrite (left_id_L ∅ (∪)) in Hok.
  - rewrite fmap_cons in Hnd. apply NoDup_cons in Hnd as [Hx Hnd]. cbn [foldM] in H. inv_ok.
    apply (IH Hnd v); [|intros; apply Hdis; by right|done].
    assert (list_to_set (id_of <$> l) ∪ D =
      (list_to_set (id_of <$> x :: l) ∪ D) ∖ {[id_of x]}) as ->.
    { assert (id_of x ∉ D) by (apply Hdis; by left). rewrite fmap_cons, list_to_set_cons. set_solver. }
    eapply Hf; [done| |done]. rewrite fmap_cons, list_to_set_cons. set_solver.
Qed.

Lemma attach_ids t a X :
  pending t a X →
  NoDup (snd <$> attach_order a) ∧ list_to_set (snd <$> attach_order a) = map_img (SA := gset Z) a.
Proof.
  intros [_ Hinj _]. unfold attach_order. split.
  - apply NoDup_fmap_2_strong; [|apply NoDup_map_iter].
    intros [p n] [q m] Hp%elem_of_map_iter Hq%elem_of_map_iter. simpl. intros ->.
    by rewrite (Hinj p q m Hp Hq).
  - apply set_eq. intros n. rewrite elem_of_list_to_set, elem_of_map_img, list_elem_of_fmap. split.
    + intros ([p m] & -> & Hin%elem_of_map_iter). eauto.
    + intros [p Hp]. exists (p, n). split; [done|]. by apply elem_of_map_iter.
Qed.

Lemma run_attaches_pending t a X t' :
  pending t a X → run_attaches t a = Ok t' → ok t' X.
Proof.
  intros Hp H. destruct (attach_ids t a X Hp) as [Hnd Hids]. unfold run_attaches in H.
  eapply (take_out _ snd _ t X) in H; [done|done| | |].
  - intros t1 D [p n] t2 Ho Hin Hf. by eapply law_attach.
  - rewrite Hids. by apply pend_ok.
  - intros [p n] Hin%elem_of_map_iter. by eapply pend_disj.
Qed.

Lemma run_drops_pending t X t' : ok t X → run_drops t X = Ok t' → ok t' ∅.
Proof.
  intros Ho H. unfold run_drops in H.
  eapply (take_out _ id _ t ∅) in H; [done| | | |].
  - rewrite list_fmap_id. apply NoDup_set_iter.
  - intros t1 D n t2 Ho1 Hin Hf. by eapply law_drop.
  - by rewrite list_fmap_id, list_to_set_set_iter, (right_id_L ∅ (∪)).
  - set_solver.
Qed.

Lemma run_edits_ok t cs D t' : ok t D → run_edits t cs = Ok t' → ok t' D.
Proof.
  intros Ho H. unfold run_edits in H. inv_ok.
  eapply (foldM_inv (λ t, ok t D)) in E; [|done|intros; by eapply law_apply_delta].
  eapply (foldM_inv (λ t, ok t D)) in E0; [|done|intros; by eapply law_clear_attr].
  eapply (foldM_inv (λ t, ok t D)) in H; [done|done|intros; by eapply law_set_attr].
Qed.

(** Whatever the cset, the tree ends with no detached node. *)
Lemma apply_to_balanced cs t t' : ok t ∅ → apply_to cs t = Ok t' → ok t' ∅.
Proof.
  intros Ho H. unfold apply_to in H. inv_ok. destruct v0 as [t1 a1]. inv_ok. destruct v0 as [t2 a2].
  inv_ok. destruct v1 as [[t3 a3] X]. inv_ok.
  assert (pending t ∅ ∅) as P0.
  { split; [by rewrite (leibniz_equiv _ _ map_img_empty), (left_id_L ∅ (∪)) | set_solver..]. }
  eapply add_dirs_pending in P0; [|done]. eapply add_files_pending in P0; [|done].
  eapply run_detaches_pending in P0; [|done]. eapply run_attaches_pending in P0; [|done].
  eapply run_drops_pending in P0; [|done]. eapply run_edits_ok in P0; [|done].
  by eapply law_commit.
Qed.
End balanced.
