(* ===== verification/CsetRoster.v ===== *)
(** * The roster as an [editable_tree] ([editable_roster_base], [roster.cc])

    The operations forward to the roster's; new nodes take their ids from a
    [temp_node_id_source].  The roster discharges the laws of the interface,
    so that applying any cset to a complete roster leaves a complete one. *)

From S2P Require Import Prelude Paths Hex BasicIo Roster RosterInvariant ParallelIter Cset CsetApply.

(** [temp_node_id_source]: a [u32] counter that starts at the first
    temporary id and fails an invariant once it has wrapped around. *)
Definition temp_node_id_source_next (curr : Z) : result (node_id * Z) :=
  I_ (temp_node curr) ;; Ok (curr, (curr + 1) mod 2 ^ 32).

Record editable_roster_base := EditableRoster {
  er_roster : roster;
  er_nis : Z
}.

Definition er_lift (t : editable_roster_base) (m : result roster) : result editable_roster_base :=
  r ← m; Ok (EditableRoster r (er_nis t)).

#[export] Instance roster_editable : EditableTree editable_roster_base := {|
  et_detach_node t src :=
    '(r, n) ← detach_node (er_roster t) src; Ok (EditableRoster r (er_nis t), n);
  et_drop_detached_node t nid := er_lift t (drop_detached_node (er_roster t) nid);
  et_create_dir_node t :=
    '(nid, c) ← temp_node_id_source_next (er_nis t);
    Ok (EditableRoster (create_dir_node (er_roster t) nid) c, nid);
  et_create_file_node t content :=
    '(nid, c) ← temp_node_id_source_next (er_nis t);
    Ok (EditableRoster (create_file_node (er_roster t) content nid) c, nid);
  et_attach_node t nid dst := er_lift t (attach_node (er_roster t) nid dst);
  et_apply_delta t pth old_id new_id := er_lift t (apply_delta (er_roster t) pth old_id new_id);
  et_clear_attr t path key := er_lift t (clear_attr (er_roster t) path key);
  et_set_attr t path key val := er_lift t (set_attr (er_roster t) path key val);
  et_commit t := Ok t
|}.

(** ** The laws *)

(** The source has not given out, and the roster does not hold, anything from
    [c] on; after the last id the counter is 0 and the source is exhausted. *)
Definition source_ok (c : Z) (r : roster) : Prop :=
  c = 0 ∨ (first_temp_node ≤ c < 2 ^ 32 ∧ ∀ i, c ≤ i → nodes r !! i = None).

Record roster_ok (t : editable_roster_base) (D : gset Z) : Prop := {
  ro_wf : rwf (er_roster t);
  ro_attrs : attrs_sane (er_roster t);
  ro_detached i n : nodes (er_roster t) !! i = Some n →
    i ∈ D ↔ parent n = the_null_node ∧ root_dir (er_roster t) ≠ Some i;
  ro_dom i : i ∈ D → is_Some (nodes (er_roster t) !! i);
  ro_old i : is_Some (old_locations (er_roster t) !! i) → i ∈ D;
  ro_source : source_ok (er_nis t) (er_roster t)
}.

Lemma source_ok_same c r r' :
  source_ok c r → (∀ i, nodes r !! i = None → nodes r' !! i = None) → source_ok c r'.
Proof. intros [->|[? H]] Hs; [by left|right]. split; [done|]. auto. Qed.

(** Operations that change neither the shape nor the set of nodes. *)
Lemma roster_ok_alter t D x f r' :
  roster_ok t D → edit (er_roster t) r' →
  (∀ n, parent (f n) = parent n) →
  r' = set_nodes (er_roster t) (alter f x (nodes (er_roster t))) →
  roster_ok (EditableRoster r' (er_nis t)) D.
Proof.
  intros [Hwf Ha Hdet Hdom Hold Hsrc] He Hf Hr. split; simpl.
  - by eapply edit_rwf.
  - by eapply edit_attrs_sane.
  - subst r'. simpl. intros i n. rewrite lookup_alter_at. intros (m & Hm & ->)%fmap_Some.
    rewrite (Hdet i m Hm). case_decide; [by rewrite Hf|done].
  - subst r'. simpl. intros i Hi. rewrite lookup_alter_at. by apply fmap_is_Some, Hdom.
  - by subst r'.
  - eapply source_ok_same; [done|]. subst r'. simpl. intros i Hi. by rewrite lookup_alter_at, Hi.
Qed.

Lemma roster_ok_attach_at t D x par nm r' :
  roster_ok t D → x ∈ D → attach_node_at (er_roster t) x par nm = Ok r' →
  roster_ok (EditableRoster r' (er_nis t)) (D ∖ {[x]}).
Proof.
  intros [Hwf Ha Hdet Hdom Hold Hsrc] Hx H. destruct t as [r c]; simpl in *.
  destruct (Hdom x Hx) as [n Hn].
  assert (root_dir r ≠ Some x) as Hroot by (by apply (Hdet x n Hn)).
  assert (edit r r') as He by (by eapply edit_attach_at).
  apply attach_node_at_inv in H as [[Hnone Hr]|[Hpar Hr]].
  - split; simpl; [by eapply edit_rwf | by eapply edit_attrs_sane | ..]; subst r'; simpl.
    + intros i m Hm. rewrite elem_of_difference, elem_of_singleton, (Hdet i m Hm). intuition congruence.
    + intros i [Hi _]%elem_of_difference. auto.
    + intros i [l [Hne Hl]%lookup_delete_Some]. apply elem_of_difference. set_solver.
    + done.
  - split; simpl; [by eapply edit_rwf | by eapply edit_attrs_sane | ..]; subst r'; simpl.
    + intros i m. rewrite !lookup_alter_at. intros (m1 & (m0 & Hm & ->)%fmap_Some & ->)%fmap_Some.
      rewrite elem_of_difference, elem_of_singleton, (Hdet i m0 Hm).
      destruct (decide (x = i)) as [->|Hne]; simpl; [intuition congruence|].
      case_decide; [rewrite parent_with_children|]; simpl; intuition congruence.
    + intros i [Hi _]%elem_of_difference. rewrite !lookup_alter_at, !fmap_is_Some. auto.
    + intros i [l [Hne Hl]%lookup_delete_Some]. apply elem_of_difference. set_solver.
    + eapply source_ok_same; [done|]. simpl. intros i Hi. by rewrite !lookup_alter_at, Hi.
Qed.

Lemma roster_ok_drop t D x r' :
  roster_ok t D → x ∈ D → drop_detached_node (er_roster t) x = Ok r' →
  roster_ok (EditableRoster r' (er_nis t)) (D ∖ {[x]}).
Proof.
  intros [Hwf Ha Hdet Hdom Hold Hsrc] Hx H. destruct t as [r c]; simpl in *.
  destruct (Hdom x Hx) as [n Hn].
  assert (root_dir r ≠ Some x) as Hroot by (by apply (Hdet x n Hn)).
  assert (edit r r') as He by (by eapply edit_drop).
  unfold drop_detached_node in H. inv_ok.
  split; simpl; [by eapply edit_rwf | by eapply edit_attrs_sane | ..]; subst r'; simpl.
  - intros i m [Hne Hm]%lookup_delete_Some.
    rewrite elem_of_difference, elem_of_singleton, (Hdet i m Hm). intuition congruence.
  - intros i [Hi Hne]%elem_of_difference. rewrite lookup_delete_ne by set_solver. auto.
  - intros i [l [Hne Hl]%lookup_delete_Some]. apply elem_of_difference. set_solver.
  - eapply source_ok_same; [done|]. simpl. intros i Hi. apply lookup_delete_None. by right.
Qed.

Lemma roster_ok_create t D nid c b r' :
  roster_ok t D → temp_node_id_source_next (er_nis t) = Ok (nid, c) →
  (b = DirBody ∅ ∨ ∃ f, b = FileBody f) →
  r' = set_nodes (er_roster t) (<[nid := Node nid the_null_node [] ∅ b]> (nodes (er_roster t))) →
  nid ∉ D ∧ roster_ok (EditableRoster r' c) ({[nid]} ∪ D).
Proof.
  intros [Hwf Ha Hdet Hdom Hold Hsrc] H Hb ->. destruct t as [r c0]; simpl in *.
  unfold temp_node_id_source_next in H. inv_ok. simplify_eq.
  destruct Hsrc as [->|[Hc Hfree]]; [done|].
  assert (nodes r !! nid = None) as Hnone by (by apply Hfree).
  assert (nid ∉ D) as HnD by (intros Hin; apply Hdom in Hin as [? ?]; congruence).
  assert (nid ≠ the_null_node) by (unfold first_temp_node, the_null_node in *; lia).
  split; [done|]. split; simpl.
  - by apply rwf_create.
  - by apply create_attrs.
  - intros i m [[<- <-]|[Hne Hm]]%lookup_insert_Some; simpl.
    + split; [|set_solver]. intros _. split; [done|]. intros Hr.
      destruct (wf_root r Hwf _ Hr) as (? & ? & _). congruence.
    + rewrite elem_of_union, elem_of_singleton, (Hdet i m Hm). intuition congruence.
  - intros i [->%elem_of_singleton|Hi]%elem_of_union; [rewrite lookup_insert_eq; eauto|].
    rewrite lookup_insert_ne by (intros ->; done). auto.
  - intros i Hi. apply elem_of_union. right. auto.
  - unfold source_ok, first_temp_node in *.
    change (2 ^ 32) with 4294967296 in *. change (2 ^ 31) with 2147483648 in *.
    destruct (decide (nid = 4294967296 - 1)) as [->|Hlast]; [by left|right].
    rewrite Z.mod_small by lia. split; [lia|]. intros i Hi. simpl.
    rewrite lookup_insert_ne by lia. apply Hfree. lia.
Qed.

Lemma roster_ok_detach t D p r' x :
  roster_ok t D → detach_node (er_roster t) p = Ok (r', x) →
  x ∉ D ∧ roster_ok (EditableRoster r' (er_nis t)) ({[x]} ∪ D).
Proof.
  intros [Hwf Ha Hdet Hdom Hold Hsrc] H. destruct t as [r c]; simpl in *.
  assert (edit r r') as He by (by eapply edit_detach).
  unfold detach_node in H. inv_ok. destruct v as [dir base]. inv_ok. case_decide.
  - inv_ok. simplify_eq. rename x into root.
    destruct (wf_root r Hwf root) as (n & Hn & _ & Hp); [done|].
    assert (root ∉ D) as HnD by (rewrite (Hdet root n Hn); tauto).
    split; [done|]. split; simpl; [by eapply edit_rwf | by eapply edit_attrs_sane | ..].
    + intros i m Hm. rewrite elem_of_union, elem_of_singleton, (Hdet i m Hm).
      destruct (decide (i = root)) as [->|]; [|intuition congruence].
      split; [|by left]. intros _. split; [congruence|done].
    + intros i [->%elem_of_singleton|Hi]%elem_of_union; [eauto|auto].
    + apply safe_insert_Ok_inv in E3 as [_ ->]. intros i [l Hl].
      apply lookup_insert_Some in Hl as [[<- _]|[_ Hl]]; [set_solver|].
      apply elem_of_union. right. apply Hold. eauto.
    + done.
  - inv_ok. destruct v1 as [r1 x1]. inv_ok. simplify_eq.
    destruct (detach_child_spec _ _ _ _ _ Hwf E2) as (n & Hn & Hp & Hnm & Hd0 & ->).
    assert (x ∉ D) as HnD by (rewrite (Hdet x n Hn); intros [? _]; congruence).
    split; [done|]. split; simpl; [by eapply edit_rwf | by eapply edit_attrs_sane | ..].
    + intros i m. rewrite lookup_stripped. intros (m0 & Hm & ->)%fmap_Some.
      rewrite parent_strip, elem_of_union, (Hdet i m0 Hm).
      destruct (decide (i ∈ {[x]})) as [->%elem_of_singleton|Hi]; [|tauto].
      split; [|by rewrite elem_of_singleton; auto]. intros _. split; [done|]. intros Hr.
      destruct (wf_root r Hwf _ Hr) as (? & ? & _ & ?). congruence.
    + intros i Hi. rewrite lookup_stripped, fmap_is_Some.
      apply elem_of_union in Hi as [->%elem_of_singleton|Hi]; [eauto|auto].
    + apply safe_insert_Ok_inv in E3 as [_ ->]. intros i [l Hl].
      apply lookup_insert_Some in Hl as [[<- _]|[_ Hl]]; [set_solver|].
      apply elem_of_union. right. apply Hold. eauto.
    + eapply source_ok_same; [done|]. simpl. intros i Hi. by rewrite lookup_stripped, Hi.
Qed.

#[export] Instance roster_editable_laws : EditableTreeLaws editable_roster_base roster_ok.
Proof.
  split; simpl; unfold er_lift.
  - intros t D p t' n Ho H. inv_ok. destruct v as [r' x]. simplify_eq. by eapply roster_ok_detach.
  - intros t D t' n Ho H. inv_ok. destruct v as [nid c]. simplify_eq.
    eapply roster_ok_create; [done..| |done]. by left.
  - intros t D f t' n Ho H. inv_ok. destruct v as [nid c]. simplify_eq.
    eapply roster_ok_create; [done..| |done]. eauto.
  - intros t D n p t' Ho Hn H. inv_ok. subst. unfold attach_node in E.
    destruct (fp_empty p); [by eapply roster_ok_attach_at|].
    inv_ok. destruct v0 as [dir base]. inv_ok. by eapply roster_ok_attach_at.
  - intros t D n t' Ho Hn H. inv_ok. subst. by eapply roster_ok_drop.
  - intros t D p f1 f2 t' Ho H. inv_ok. subst. pose proof (edit_delta _ _ _ _ _ E).
    unfold apply_delta in E. inv_ok. subst. eapply roster_ok_alter; [done..| |reflexivity]. done.
  - intros t D p k t' Ho H. inv_ok. subst. pose proof (edit_clear_attr _ _ _ _ E).
    apply set_attr_pair_Ok in E as (? & ? & _ & _ & ->).
    eapply roster_ok_alter; [done..| |reflexivity]. done.
  - intros t D p k v t' Ho H. inv_ok. subst. pose proof (edit_set_attr _ _ _ _ _ E).
    apply set_attr_pair_Ok in E as (? & ? & _ & _ & ->).
    eapply roster_ok_alter; [done..| |reflexivity]. done.
  - intros t D t' Ho H. by simplify_eq.
Qed.

(** C30: applying any cset to a complete roster either fails an invariant check
    or, as long as the result has a root, gives a complete roster again: every
    node is attached, no pending old location is left, parents and children
    agree, and dead attributes have no value. *)
Theorem apply_cset_complete cs r r' c' :
  complete r → attrs_sane r → (∀ i, is_Some (nodes r !! i) → i < first_temp_node) →
  apply_to cs (EditableRoster r first_temp_node) = Ok (EditableRoster r' c') →
  is_Some (root_dir r') → complete r' ∧ attrs_sane r'.
Proof.
  intros [Hwf Hroot _ Hold] Ha Hids H Hr'.
  assert (roster_ok (EditableRoster r first_temp_node) ∅) as H0.
  { split; simpl; try done.
    - intros i n Hn. split; [set_solver|]. intros [Hp Hne]. destruct Hne. by eapply Hroot.
    - intros i [l Hl]. by rewrite Hold in Hl.
    - right. split; [done|]. intros i Hi. apply eq_None_not_Some. intros Hs%Hids. lia. }
  destruct (apply_to_balanced roster_ok _ _ _ H0 H) as [Hwf' Ha' Hdet Hdom Hold' _]. simpl in *.
  split; [|done]. split; [done| |done|].
  - intros i n Hn Hp. destruct (decide (root_dir r' = Some i)) as [|Hne]; [done|].
    assert (i ∈ (∅ : gset Z)) as Hin by (by apply (Hdet i n)). set_solver.
  - apply map_empty. intros i. apply eq_None_not_Some. intros Hs%Hold'. set_solver.
Qed.

Definition ex_change : cset :=
  Cset ∅ {[FilePath (lit "d")]} {[FilePath (lit "d/f") := repeat "007"%char 20]}
    {[FilePath (lit "a") := FilePath (lit "d/b")]} ∅
    {[(FilePath (lit "d/b"), lit "k")]} {[(FilePath (lit "d"), lit "x") := lit "y"]}.

Definition ex_changed : editable_roster_base :=
  match apply_to ex_change (EditableRoster ex_b5 first_temp_node) with
  | Ok t => t
  | Err _ => EditableRoster ex_b5 first_temp_node
  end.

Lemma apply_cset_complete_witness :
  get_name (er_roster ex_changed) 2 = Ok (FilePath (lit "d/b")) ∧
  complete (er_roster ex_changed) ∧ attrs_sane (er_roster ex_changed).
Proof.
  split; [vm_compute; reflexivity|].
  apply (apply_cset_complete ex_change ex_b5 (er_roster ex_changed) (er_nis ex_changed)).
  - apply complete_b_sound. vm_compute. reflexivity.
  - apply attrs_sane_iff. intros i n Hi a v Ha.
    assert (all_pairs (λ _ n, all_pairs (λ _ v, v.1 || bool_decide (v.2 = [])) (attrs n))
      (nodes ex_b5) = true) as H by (vm_compute; reflexivity).
    exact (all_pairs_spec _ _ _ _ (all_pairs_spec _ _ _ _ H Hi) Ha).
  - intros i [n Hi].
    assert (all_pairs (λ i _, i <? first_temp_node) (nodes ex_b5) = true) as H
      by (vm_compute; reflexivity).
    apply Z.ltb_lt. exact (all_pairs_spec _ _ _ _ H Hi).
  - vm_compute. reflexivity.
  - vm_compute. eauto.
Defined.
