(* ===== verification/CsetIo.v ===== *)
(** * Reading back a written cset

    [read_cset (write_cset cs) = cs]: the tokens a printed cset lexes to are
    exactly those the loops of [parse_cset] expect, in the order they check. *)

From S2P Require Import Prelude Paths Hex BasicIo Roster Cset.

Abbreviation tok := (token_type * list ascii)%type.

Definition tsym (v : bytes) : tok := (TOK_SYMBOL, v).
Definition tstr (v : bytes) : tok := (TOK_STRING, v).
Definition thex (v : bytes) : tok := (TOK_HEX, hex_encode v).

Definition toks_deleted (p : file_path) : list tok := [tsym syms.delete_node; tstr (data p)].
Definition toks_renamed (i : file_path * file_path) : list tok :=
  [tsym syms.rename_node; tstr (data i.1); tsym syms.to; tstr (data i.2)].
Definition toks_dir (p : file_path) : list tok := [tsym syms.add_dir; tstr (data p)].
Definition toks_file (i : file_path * bytes) : list tok :=
  [tsym syms.add_file; tstr (data i.1); tsym syms.content; thex i.2].
Definition toks_patch (i : file_path * (bytes * bytes)) : list tok :=
  [tsym syms.patch; tstr (data i.1); tsym syms.from; thex i.2.1; tsym syms.to; thex i.2.2].
Definition toks_cleared (i : file_path * bytes) : list tok :=
  [tsym syms.clear; tstr (data i.1); tsym syms.attr; tstr i.2].
Definition toks_set (i : file_path * bytes * bytes) : list tok :=
  [tsym syms.set; tstr (data i.1.1); tsym syms.attr; tstr i.1.2; tsym syms.value; tstr i.2].

(** An identifier is empty or has the length of a hash. *)
Definition id_ok (v : bytes) : Prop := v = [] ∨ length v = idlen_bytes.

Lemma id_ok_verify v : id_ok v → verify_hexenc_id internal (hex_encode v) = Ok (hex_encode v).
Proof.
  intros Hv. unfold verify_hexenc_id. case_decide; [done|].
  destruct Hv as [-> |Hv]; [done|].
  rewrite length_hex_encode, Hv, bool_decide_true by done. simpl.
  assert (forallb (λ c, is_xdigit (byte_val c)) (hex_encode v) = true) as ->; [|done].
  apply forallb_forall. intros c Hc. pose proof (hex_encode_xdigits v) as Hx.
  rewrite Forall_forall in Hx. apply Hx. by apply list_elem_of_In.
Qed.

Lemma id_ok_decode o v : id_ok v → decode_hexenc_as_id o (hex_encode v) = Ok v.
Proof. intros [-> |Hv]; [done|]. by apply decode_hexenc_as_id_encode. Qed.

(** ** The printed text *)

Section printing.
Context (mf : origin_type).

Lemma entry_str k v : symbol_ok k = true → entry_tokens mf (k, escape v) [tsym k; tstr v].
Proof. intros Hk. split; [done|]. exists [tstr v]. split; [done|]. apply spells_escape. Qed.

Lemma entry_hex k v :
  symbol_ok k = true →
  entry_tokens mf (k, ["["%char] ++ hex_encode v ++ ["]"%char]) [tsym k; thex v].
Proof.
  intros Hk. split; [done|]. exists [thex v]. split; [done|]. apply spells_hex, hex_encode_xdigits.
Qed.

Lemma print_all_spells {A} (f : A → result stanza) (toks : A → list tok) l buf ts :
  (∀ a, a ∈ l → ∃ st tss, f a = Ok st ∧ Forall2 (entry_tokens mf) (entries st) tss ∧
     concat tss = toks a) →
  spells mf buf ts →
  ∃ buf', print_all f l buf = Ok buf' ∧ spells mf buf' (ts ++ concat (toks <$> l)).
Proof.
  revert buf ts. induction l as [|a l IH]; intros buf ts Hf Hb.
  - exists buf. split; [done|]. by rewrite app_nil_r.
  - destruct (Hf a) as (st & tss & Ha & Hes & Htoks); [by left|].
    destruct (IH (print_stanza buf st) (ts ++ toks a)) as (buf' & Hp & Hs).
    { intros b Hb'. apply Hf. by right. }
    { rewrite <- Htoks. by apply spells_stanza. }
    exists buf'. split.
    + unfold print_all in *. cbn [foldM]. rewrite Ha. exact Hp.
    + rewrite fmap_cons. cbn [concat]. by rewrite app_assoc.
Qed.
End printing.

Definition cset_tokens (cs : cset) : list tok :=
  concat (toks_deleted <$> set_iter (nodes_deleted cs)) ++
  concat (toks_renamed <$> map_iter (nodes_renamed cs)) ++
  concat (toks_dir <$> set_iter (dirs_added cs)) ++
  concat (toks_file <$> map_iter (files_added cs)) ++
  concat (toks_patch <$> map_iter (deltas_applied cs)) ++
  concat (toks_cleared <$> set_iter (attrs_cleared cs)) ++
  concat (toks_set <$> map_iter (attrs_set cs)).

(** What the cset of a sane tree satisfies: paths are valid, ids are hashes. *)
Record cset_ok (path_ok : file_path → Prop) (cs : cset) : Prop := {
  ok_deleted p : p ∈ nodes_deleted cs → path_ok p;
  ok_renamed p q : nodes_renamed cs !! p = Some q → path_ok p ∧ path_ok q;
  ok_dirs p : p ∈ dirs_added cs → path_ok p;
  ok_files p f : files_added cs !! p = Some f → path_ok p ∧ id_ok f;
  ok_deltas p d : deltas_applied cs !! p = Some d → path_ok p ∧ id_ok d.1 ∧ id_ok d.2;
  ok_cleared x : x ∈ attrs_cleared cs → path_ok x.1;
  ok_set x v : attrs_set cs !! x = Some v → path_ok x.1
}.

(** Solve the side conditions of one kind of stanza. *)
Ltac stanza_entries :=
  eexists; eexists; split; [reflexivity|]; split;
  [cbn; repeat (eapply List.Forall2_cons;
     [first [apply entry_str; reflexivity | apply entry_hex; reflexivity]|]);
   apply List.Forall2_nil
  |reflexivity].

Lemma st_file_ok mf i :
  id_ok i.2 → ∃ st tss, st_file i = Ok st ∧
    Forall2 (entry_tokens mf) (entries st) tss ∧ concat tss = toks_file i.
Proof.
  intros Hi. unfold st_file, push_binary_pair. rewrite id_ok_verify by done. cbn [mbind result_bind].
  stanza_entries.
Qed.

Lemma st_patch_ok mf i :
  id_ok i.2.1 → id_ok i.2.2 → ∃ st tss, st_patch i = Ok st ∧
    Forall2 (entry_tokens mf) (entries st) tss ∧ concat tss = toks_patch i.
Proof.
  intros H1 H2. unfold st_patch, push_binary_pair. rewrite !id_ok_verify by done.
  cbn [mbind result_bind]. stanza_entries.
Qed.

Lemma print_cset_spells mf path_ok cs buf ts :
  cset_ok path_ok cs → spells mf buf ts → ∃ dat, print_cset buf cs = Ok dat ∧ spells mf dat (ts ++ cset_tokens cs).
Proof.
  intros Hok Hbuf. unfold print_cset, cset_tokens.
  destruct (print_all_spells mf st_deleted toks_deleted (set_iter (nodes_deleted cs)) buf ts)
    as (b1 & -> & H1); [intros; stanza_entries | done|]. cbn [mbind result_bind].
  destruct (print_all_spells mf st_renamed toks_renamed (map_iter (nodes_renamed cs)) b1 _
    ltac:(intros; stanza_entries) H1) as (b2 & -> & H2). cbn [mbind result_bind].
  destruct (print_all_spells mf st_dir toks_dir (set_iter (dirs_added cs)) b2 _
    ltac:(intros; stanza_entries) H2) as (b3 & -> & H3). cbn [mbind result_bind].
  destruct (print_all_spells mf st_file toks_file (map_iter (files_added cs)) b3) with (2 := H3)
    as (b4 & -> & H4).
  { intros [p f] Hin%elem_of_map_iter. apply st_file_ok. by eapply ok_files. }
  cbn [mbind result_bind].
  destruct (print_all_spells mf st_patch toks_patch (map_iter (deltas_applied cs)) b4) with (2 := H4)
    as (b5 & -> & H5).
  { intros [p d] Hin%elem_of_map_iter. eapply ok_deltas in Hin as (_ & ? & ?); [|done].
    by apply st_patch_ok. }
  cbn [mbind result_bind].
  destruct (print_all_spells mf st_cleared toks_cleared (set_iter (attrs_cleared cs)) b5 _
    ltac:(intros; stanza_entries) H5) as (b6 & -> & H6). cbn [mbind result_bind].
  destruct (print_all_spells mf st_set toks_set (map_iter (attrs_set cs)) b6 _
    ltac:(intros; stanza_entries) H6) as (b7 & -> & H7).
  exists b7. split; [done|]. rewrite <- !app_assoc in H7. exact H7.
Qed.

Lemma write_cset_spells mf path_ok cs :
  cset_ok path_ok cs → ∃ dat, write_cset cs = Ok dat ∧ spells mf dat (cset_tokens cs).
Proof. intros Hok. apply (print_cset_spells mf path_ok cs [] [] Hok). apply spells_nil. Qed.

(** ** Parsing the tokens *)

Section parsing.
Context (utf8_validate : bytes → bool) (mf : origin_type).

Definition valid_path (p : file_path) : Prop :=
  file_path_internal utf8_validate (data p) = Ok p.

Lemma at_path p fp ts :
  valid_path fp → at_tokens mf p (tstr (data fp) :: ts) →
  ∃ p', parse_path utf8_validate mf p = Ok (fp, p') ∧ at_tokens mf p' ts.
Proof.
  intros Hv Hp. destruct (at_str _ _ _ _ Hp) as (p' & E & Hp'). exists p'. split; [|done].
  unfold parse_path. rewrite E. cbn [mbind result_bind]. by rewrite Hv.
Qed.

(** Items in increasing order: the next one passes the order check, and is new. *)
Lemma sorted_next `{Ordered K} (l1 l2 : list K) k :
  StronglySorted (λ x y, klt x y = true) (l1 ++ k :: l2) →
  k ∉ l1 ∧ ∀ q, last l1 = Some q → klt q k = true.
Proof.
  intros Hs.
  assert (∀ x, x ∈ l1 → klt x k = true) as Hlt.
  { induction l1 as [|y l1 IH]; intros x Hx; [by apply not_elem_of_nil in Hx|].
    apply StronglySorted_inv in Hs as [Hs Hy]. rewrite Forall_forall in Hy.
    apply elem_of_cons in Hx as [-> |Hx]; [apply Hy; set_solver | by apply IH]. }
  split.
  - intros Hk. pose proof (Hlt k Hk) as E. by rewrite klt_irrefl in E.
  - intros q (l' & ->)%last_Some. apply Hlt. apply elem_of_app. right. by left.
Qed.

(** Where a loop stands after the items [l1]. *)
Definition set_inv (l1 : list file_path) (st : file_path * gset file_path) : Prop :=
  st = (default no_path (last l1), list_to_set l1).
Definition map_inv {V} (l1 : list (file_path * V)) (st : file_path * gmap file_path V) : Prop :=
  st = (default no_path (last l1.*1), list_to_map l1).
Definition pair_set_inv (l1 : list (file_path * bytes))
    (st : (file_path * bytes) * gset (file_path * bytes)) : Prop :=
  st = (default (no_path, []) (last l1), list_to_set l1).
Definition pair_map_inv {V} (l1 : list (file_path * bytes * V))
    (st : (file_path * bytes) * gmap (file_path * bytes) V) : Prop :=
  st = (default (no_path, []) (last l1.*1), list_to_map l1).

Lemma last_fst_snoc {K V} (l : list (K * V)) k v : last (l ++ [(k, v)]).*1 = Some k.
Proof. rewrite fmap_app. apply last_snoc. Qed.

Lemma in_order_ok (l1 l2 : list file_path) k :
  StronglySorted (λ x y, klt x y = true) (l1 ++ k :: l2) →
  in_order (default no_path (last l1)) k = Ok tt.
Proof.
  intros [_ Hl]%sorted_next. unfold in_order. destruct (last l1) as [q|]; [|done].
  change (default no_path (Some q)) with q. rewrite (Hl q eq_refl). by rewrite orb_true_r.
Qed.

Lemma pair_in_order_ok (l1 l2 : list (file_path * bytes)) k :
  StronglySorted (λ x y, klt x y = true) (l1 ++ k :: l2) →
  pair_in_order (default (no_path, []) (last l1)) k = Ok tt.
Proof.
  intros [_ Hl]%sorted_next. unfold pair_in_order. destruct (last l1) as [q|] eqn:E; [|done].
  change (default (no_path, []) (Some q)) with q.
  rewrite (Hl q eq_refl). by rewrite orb_true_r.
Qed.

Lemma insert_set_next `{Countable K, !Ordered K} (l1 l2 : list K) k :
  StronglySorted (λ x y, klt x y = true) (l1 ++ k :: l2) →
  safe_insert_set (list_to_set l1 : gset K) k = Ok (list_to_set (l1 ++ [k])).
Proof.
  intros [Hk _]%sorted_next. rewrite safe_insert_set_fresh by (by rewrite elem_of_list_to_set).
  f_equal. rewrite list_to_set_app_L. set_solver.
Qed.

Lemma insert_map_next `{Countable K, !Ordered K} {V} (l1 l2 : list (K * V)) k v :
  StronglySorted (λ x y, klt x y = true) (l1 ++ (k, v) :: l2).*1 →
  safe_insert (list_to_map l1 : gmap K V) k v = Ok (list_to_map (l1 ++ [(k, v)])).
Proof.
  rewrite fmap_app, fmap_cons. intros [Hk _]%sorted_next.
  rewrite safe_insert_fresh by (by apply not_elem_of_list_to_map_1).
  by rewrite list_to_map_snoc.
Qed.

(** Follow the parser through the tokens it is known to meet. *)
Ltac parse_tokens :=
  repeat match goal with
  | Hp : at_tokens mf ?p (tsym ?v :: ?ts) |- context [sym mf ?p] =>
      destruct (at_sym mf p v ts Hp) as (? & -> & ?); clear Hp; cbn [mbind result_bind]
  | Hp : at_tokens mf ?p (tsym ?v :: ?ts) |- context [esym mf ?v ?p] =>
      destruct (at_esym mf p v ts Hp) as (? & -> & ?); clear Hp; cbn [mbind result_bind]
  | Hv : valid_path ?fp, Hp : at_tokens mf ?p (tstr (data ?fp) :: ?ts)
      |- context [parse_path utf8_validate mf ?p] =>
      destruct (at_path p fp ts Hv Hp) as (? & -> & ?); clear Hp; cbn [mbind result_bind]
  | Hp : at_tokens mf ?p (tstr ?v :: ?ts) |- context [str mf ?p] =>
      destruct (at_str mf p v ts Hp) as (? & -> & ?); clear Hp; cbn [mbind result_bind]
  | Hp : at_tokens mf ?p (thex ?v :: ?ts) |- context [hex mf ?p] =>
      destruct (at_hex mf p (hex_encode v) ts Hp) as (? & -> & ?); clear Hp; cbn [mbind result_bind]
  | Hv : id_ok ?v |- context [decode_hexenc_as_id mf (hex_encode ?v)] =>
      rewrite (id_ok_decode mf v Hv); cbn [mbind result_bind]
  end.

Lemma step_set key k l1 l2 st p ts :
  StronglySorted (λ x y, klt x y = true) (l1 ++ k :: l2) → valid_path k → set_inv l1 st →
  at_tokens mf p ([tsym key; tstr (data k)] ++ ts) →
  ∃ st' p', parse_deleted utf8_validate mf st p = Ok (st', p') ∧
    set_inv (l1 ++ [k]) st' ∧ at_tokens mf p' ts.
Proof.
  intros Hs Hv -> Hp. cbn [app] in Hp. unfold parse_deleted. cbn [fst snd]. parse_tokens.
  rewrite (in_order_ok _ _ _ Hs), (insert_set_next _ _ _ Hs). cbn [mbind result_bind].
  do 2 eexists. split; [done|]. split; [|done]. unfold set_inv. by rewrite last_snoc.
Qed.

Lemma step_renamed i l1 l2 st p ts :
  StronglySorted (λ x y, klt x y = true) (l1 ++ i :: l2).*1 →
  valid_path i.1 → valid_path i.2 → map_inv l1 st →
  at_tokens mf p (toks_renamed i ++ ts) →
  ∃ st' p', parse_renamed utf8_validate mf st p = Ok (st', p') ∧
    map_inv (l1 ++ [i]) st' ∧ at_tokens mf p' ts.
Proof.
  destruct i as [k v]. intros Hs Hv1 Hv2 -> Hp. simpl in Hv1, Hv2.
  unfold toks_renamed in Hp. cbn [app fst snd] in Hp. unfold parse_renamed. cbn [fst snd].
  pose proof (insert_map_next _ _ _ _ Hs) as Hi. rewrite fmap_app, fmap_cons in Hs. cbn [fst] in Hs. parse_tokens.
  rewrite (in_order_ok _ _ _ Hs). cbn [mbind result_bind]. parse_tokens.
  rewrite Hi. cbn [mbind result_bind].
  do 2 eexists. split; [done|]. split; [|done]. unfold map_inv. by rewrite last_fst_snoc.
Qed.

Lemma step_file i l1 l2 st p ts :
  StronglySorted (λ x y, klt x y = true) (l1 ++ i :: l2).*1 →
  valid_path i.1 → id_ok i.2 → map_inv l1 st →
  at_tokens mf p (toks_file i ++ ts) →
  ∃ st' p', parse_file utf8_validate mf st p = Ok (st', p') ∧
    map_inv (l1 ++ [i]) st' ∧ at_tokens mf p' ts.
Proof.
  destruct i as [k v]. intros Hs Hv1 Hv2 -> Hp. simpl in Hv1, Hv2.
  unfold toks_file in Hp. cbn [app fst snd] in Hp. unfold parse_file. cbn [fst snd].
  pose proof (insert_map_next _ _ _ _ Hs) as Hi. rewrite fmap_app, fmap_cons in Hs. cbn [fst] in Hs. parse_tokens.
  rewrite (in_order_ok _ _ _ Hs). cbn [mbind result_bind]. parse_tokens.
  rewrite Hi. cbn [mbind result_bind].
  do 2 eexists. split; [done|]. split; [|done]. unfold map_inv. by rewrite last_fst_snoc.
Qed.

Lemma step_patch i l1 l2 st p ts :
  StronglySorted (λ x y, klt x y = true) (l1 ++ i :: l2).*1 →
  valid_path i.1 → id_ok i.2.1 → id_ok i.2.2 → map_inv l1 st →
  at_tokens mf p (toks_patch i ++ ts) →
  ∃ st' p', parse_patch utf8_validate mf st p = Ok (st', p') ∧
    map_inv (l1 ++ [i]) st' ∧ at_tokens mf p' ts.
Proof.
  destruct i as [k [v w]]. intros Hs Hv1 Hv2 Hv3 -> Hp. simpl in Hv1, Hv2, Hv3.
  unfold toks_patch in Hp. cbn [app fst snd] in Hp. unfold parse_patch. cbn [fst snd].
  pose proof (insert_map_next _ _ _ _ Hs) as Hi. rewrite fmap_app, fmap_cons in Hs. cbn [fst] in Hs. parse_tokens.
  rewrite (in_order_ok _ _ _ Hs). cbn [mbind result_bind]. parse_tokens.
  rewrite Hi. cbn [mbind result_bind].
  do 2 eexists. split; [done|]. split; [|done]. unfold map_inv. by rewrite last_fst_snoc.
Qed.

Lemma step_cleared i l1 l2 st p ts :
  StronglySorted (λ x y, klt x y = true) (l1 ++ i :: l2) → valid_path i.1 → pair_set_inv l1 st →
  at_tokens mf p (toks_cleared i ++ ts) →
  ∃ st' p', parse_cleared utf8_validate mf st p = Ok (st', p') ∧
    pair_set_inv (l1 ++ [i]) st' ∧ at_tokens mf p' ts.
Proof.
  destruct i as [k a]. intros Hs Hv -> Hp. simpl in Hv.
  unfold toks_cleared in Hp. cbn [app fst snd] in Hp. unfold parse_cleared.
  pose proof (insert_set_next _ _ _ Hs) as Hi. parse_tokens. cbn [fst snd].
  rewrite (pair_in_order_ok _ _ _ Hs). cbn [mbind result_bind].
  rewrite Hi. cbn [mbind result_bind].
  do 2 eexists. split; [done|]. split; [|done]. unfold pair_set_inv. by rewrite last_snoc.
Qed.

Lemma step_attr_set i l1 l2 st p ts :
  StronglySorted (λ x y, klt x y = true) (l1 ++ i :: l2).*1 → valid_path i.1.1 →
  pair_map_inv l1 st → at_tokens mf p (toks_set i ++ ts) →
  ∃ st' p', parse_set utf8_validate mf st p = Ok (st', p') ∧
    pair_map_inv (l1 ++ [i]) st' ∧ at_tokens mf p' ts.
Proof.
  destruct i as [[k a] v]. intros Hs Hv -> Hp. simpl in Hv.
  unfold toks_set in Hp. cbn [app fst snd] in Hp. unfold parse_set.
  pose proof (insert_map_next _ _ _ _ Hs) as Hi. rewrite fmap_app, fmap_cons in Hs.
  parse_tokens. cbn [fst snd]. cbn [fst] in Hs.
  rewrite (pair_in_order_ok _ _ _ Hs). cbn [mbind result_bind]. parse_tokens.
  rewrite Hi. cbn [mbind result_bind].
  do 2 eexists. split; [done|]. split; [|done]. unfold pair_map_inv. by rewrite last_fst_snoc.
Qed.
End parsing.

Lemma other_key_concat {A} key k' (toks : A → list tok) l ts :
  (∀ a, ∃ t, toks a = tsym k' :: t) → k' ≠ key → other_key key ts →
  other_key key (concat (toks <$> l) ++ ts).
Proof.
  intros Ht Hk Ho. destruct l as [|a l]; [done|]. rewrite fmap_cons. cbn [concat].
  destruct (Ht a) as [t ->]. done.
Qed.

Section read.
Context (utf8_validate : bytes → bool) (mf : origin_type).

(** A loop over the stanzas of an ordered set, and of an ordered map. *)
Lemma loop_set {K} `{Countable K, !Ordered K} {St} key body toks (inv : list K → St → Prop)
    (X : gset K) st0 p ts :
  (∀ a, (2 ≤ length (toks a))%nat) → (∀ a, ∃ t, toks a = tsym key :: t) →
  (∀ k l1 l2 st p ts, k ∈ X →
     StronglySorted (λ x y, klt x y = true) (l1 ++ k :: l2) → inv l1 st →
     at_tokens mf p (toks k ++ ts) →
     ∃ st' p', body st p = Ok (st', p') ∧ inv (l1 ++ [k]) st' ∧ at_tokens mf p' ts) →
  inv [] st0 → other_key key ts → at_tokens mf p (concat (toks <$> set_iter X) ++ ts) →
  ∃ st' p', while_sym_all key body st0 p = Ok (st', p') ∧ inv (set_iter X) st' ∧
    at_tokens mf p' ts.
Proof.
  intros Hlen Hkey Hstep H0 Ho Hp. eapply (while_sym_items key body mf toks inv); try done.
  intros l1 a l2 st q ts' Hl HP Hq. pose proof (set_iter_sorted X) as Hs. rewrite Hl in Hs.
  eapply Hstep; [|done..]. apply elem_of_set_iter. rewrite Hl. apply elem_of_app. right. by left.
Qed.

Lemma loop_map {K} `{Countable K, !Ordered K} {V St} key body toks (inv : list (K * V) → St → Prop)
    (m : gmap K V) st0 p ts :
  (∀ a, (2 ≤ length (toks a))%nat) → (∀ a, ∃ t, toks a = tsym key :: t) →
  (∀ i l1 l2 st p ts, m !! i.1 = Some i.2 →
     StronglySorted (λ x y, klt x y = true) (l1 ++ i :: l2).*1 → inv l1 st →
     at_tokens mf p (toks i ++ ts) →
     ∃ st' p', body st p = Ok (st', p') ∧ inv (l1 ++ [i]) st' ∧ at_tokens mf p' ts) →
  inv [] st0 → other_key key ts → at_tokens mf p (concat (toks <$> map_iter m) ++ ts) →
  ∃ st' p', while_sym_all key body st0 p = Ok (st', p') ∧ inv (map_iter m) st' ∧
    at_tokens mf p' ts.
Proof.
  intros Hlen Hkey Hstep H0 Ho Hp. eapply (while_sym_items key body mf toks inv); try done.
  intros l1 [k v] l2 st q ts' Hl HP Hq. pose proof (map_keys_sorted m) as Hs. rewrite Hl in Hs.
  eapply Hstep; [|done..]. apply elem_of_map_iter. rewrite Hl. apply elem_of_app. right. by left.
Qed.

(** The later loops start with a symbol the current one does not take. *)
Ltac other_keys :=
  repeat (eapply other_key_concat; [intros; eexists; reflexivity | done |]); try done.

(** What may follow a cset: the end, or a symbol none of its loops takes. *)
Definition cset_end (ts : list tok) : Prop :=
  Forall (λ key, other_key key ts) [syms.delete_node; syms.rename_node; syms.add_dir; syms.add_file; syms.patch; syms.clear; syms.set].

Lemma parse_cset_tokens cs p ts :
  cset_ok (valid_path utf8_validate) cs → at_tokens mf p (cset_tokens cs ++ ts) → cset_end ts →
  ∃ p', parse_cset utf8_validate mf p = Ok (cs, p') ∧ at_tokens mf p' ts.
Proof.
  intros Hok Hp Hend. unfold cset_end in Hend. rewrite !Forall_cons in Hend. destruct Hend as (? & ? & ? & ? & ? & ? & ? & _).
  unfold parse_cset, cset_tokens in *. rewrite <- !app_assoc in Hp.
  edestruct (loop_set syms.delete_node (parse_deleted utf8_validate mf) toks_deleted set_inv
    (nodes_deleted cs)) with (6 := Hp) as (? & p1 & -> & -> & Hp1);
    [by intros; simpl; lia | by intros; eexists | | done | other_keys |].
  { intros. eapply step_set; try eassumption; by eapply ok_deleted. }
  cbn [mbind result_bind].
  edestruct (loop_map syms.rename_node (parse_renamed utf8_validate mf) toks_renamed map_inv
    (nodes_renamed cs)) with (6 := Hp1) as (? & p2 & -> & -> & Hp2);
    [by intros; simpl; lia | by intros; eexists | | done | other_keys |].
  { intros. edestruct (ok_renamed _ _ Hok) as [? ?]; [eassumption|]. eapply step_renamed; eassumption. }
  cbn [mbind result_bind].
  edestruct (loop_set syms.add_dir (parse_deleted utf8_validate mf) toks_dir set_inv
    (dirs_added cs)) with (6 := Hp2) as (? & p3 & -> & -> & Hp3);
    [by intros; simpl; lia | by intros; eexists | | done | other_keys |].
  { intros. eapply step_set; try eassumption; by eapply ok_dirs. }
  cbn [mbind result_bind].
  edestruct (loop_map syms.add_file (parse_file utf8_validate mf) toks_file map_inv
    (files_added cs)) with (6 := Hp3) as (? & p4 & -> & -> & Hp4);
    [by intros; simpl; lia | by intros; eexists | | done | other_keys |].
  { intros. edestruct (ok_files _ _ Hok) as [? ?]; [eassumption|]. eapply step_file; eassumption. }
  cbn [mbind result_bind].
  edestruct (loop_map syms.patch (parse_patch utf8_validate mf) toks_patch map_inv
    (deltas_applied cs)) with (6 := Hp4) as (? & p5 & -> & -> & Hp5);
    [by intros; simpl; lia | by intros; eexists | | done | other_keys |].
  { intros. edestruct (ok_deltas _ _ Hok) as (? & ? & ?); [eassumption|]. eapply step_patch; eassumption. }
  cbn [mbind result_bind].
  edestruct (loop_set syms.clear (parse_cleared utf8_validate mf) toks_cleared pair_set_inv
    (attrs_cleared cs)) with (6 := Hp5) as (? & p6 & -> & -> & Hp6);
    [by intros; simpl; lia | by intros; eexists | | done | other_keys |].
  { intros. eapply step_cleared; try eassumption; by eapply ok_cleared. }
  cbn [mbind result_bind].
  edestruct (loop_map syms.set (parse_set utf8_validate mf) toks_set pair_map_inv
    (attrs_set cs)) with (6 := Hp6) as (? & p7 & -> & -> & Hp7);
    [by intros; simpl; lia | by intros; eexists | | done | done |].
  { intros. eapply step_attr_set; try eassumption; by eapply ok_set. }
  cbn [mbind result_bind]. exists p7. split; [|done].
  rewrite !list_to_set_set_iter, !list_to_map_iter. by destruct cs.
Qed.
End read.

(** A cset whose paths are valid and whose file ids are hashes (or null)
    is written without error, and reading the written text gives back exactly
    that cset: quoting, hex, stanza layout, the order checks of the parser and
    the end-of-input check all agree, for every attribute key and value. *)
Theorem cset_roundtrip utf8_validate cs :
  cset_ok (valid_path utf8_validate) cs →
  ∃ dat, write_cset cs = Ok dat ∧ read_cset utf8_validate dat = Ok cs.
Proof.
  intros Hok. destruct (write_cset_spells internal _ _ Hok) as (dat & Hw & Hs).
  exists dat. split; [done|]. unfold read_cset.
  destruct (at_new internal dat _ (spells_lexes _ _ _ Hs)) as (p & -> & Hp).
  cbn [mbind result_bind].
  destruct (parse_cset_tokens utf8_validate internal cs p [] Hok) as (p' & -> & _ & Hsrc); [by rewrite app_nil_r|repeat constructor|].
  cbn [mbind result_bind]. by rewrite Hsrc.
Qed.

Definition ex_cset : cset :=
  Cset {[FilePath (lit "old")]} {[FilePath (lit "d")]}
    {[FilePath (lit "d/f") := repeat "007"%char 20]}
    {[FilePath (lit "a") := FilePath (lit "b")]}
    {[FilePath (lit "b") := (repeat "001"%char 20, repeat "255"%char 20)]}
    {[(FilePath (lit "b"), lit "mtn:execute")]}
    {[(FilePath (lit "d"), [quote_char; backslash_char]) := [newline; quote_char]]}.

Lemma cset_roundtrip_witness :
  ∃ dat, write_cset ex_cset = Ok dat ∧ read_cset (λ _, true) dat = Ok ex_cset.
Proof.
  apply cset_roundtrip. split; simpl.
  - intros p ->%elem_of_singleton. reflexivity.
  - intros p q [<- <-]%lookup_singleton_Some. split; reflexivity.
  - intros p ->%elem_of_singleton. reflexivity.
  - intros p f [<- <-]%lookup_singleton_Some. split; [reflexivity | by right].
  - intros p f [<- <-]%lookup_singleton_Some. split; [reflexivity | split; by right].
  - intros p ->%elem_of_singleton. reflexivity.
  - intros p v [<- <-]%lookup_singleton_Some. reflexivity.
Defined.

(** The text of a small cset. *)
Example write_cset_text :
  write_cset (Cset {[FilePath (lit "x")]} ∅ ∅ {[FilePath (lit "a") := FilePath (lit "b")]} ∅ ∅ ∅) =
  Ok (lit "delete " ++ escape (lit "x") ++ [newline; newline] ++
      lit "rename " ++ escape (lit "a") ++ [newline] ++
      lit "    to " ++ escape (lit "b") ++ [newline]).
Proof. vm_compute. reflexivity. Qed.
