(* ===== verification/Adler.v ===== *)
(** * The rolling checksum ([src/src/adler32.hh])

    A pseudo-adler32 over [u32] words.  [replace_with] recomputes the checksum
    of a block without masking until the end; [in] and [out] slide a window by
    one byte.  All of them are shown to compute the two sums of one reference
    definition modulo [2^16]. *)

From S2P Require Import Prelude Numbers.

Record adler32 := Adler { s1 : Z; s2 : Z; alen : Z }.

Definition mask : Z := 0xffff.

Definition new_adler32 : adler32 := Adler 1 0 0.

Definition sum (st : adler32) : Z := Z.lor (u32 (Z.shiftl (s2 st) 16)) (s1 st).

Definition in_ (st : adler32) (c : ascii) : adler32 :=
  let s1' := Z.land (u32 (s1 st + byte_val c)) mask in
  Adler s1' (Z.land (u32 (s2 st + s1')) mask) (u32 (alen st + 1)).

Definition out (st : adler32) (c : ascii) : adler32 :=
  Adler (Z.land (u32 (s1 st - byte_val c)) mask)
        (Z.land (u32 (s2 st - u32 (u32 (alen st * byte_val c) + 1))) mask)
        (u32 (alen st - 1)).

(** The loop of [replace_with]: no masking inside. *)
Fixpoint replace_loop (ch : bytes) (a b : Z) : Z * Z :=
  match ch with
  | [] => (a, b)
  | c :: ch => let a' := u32 (a + byte_val c) in replace_loop ch a' (u32 (b + a'))
  end.

(** [ch] is the block the pointer and [count] select. *)
Definition replace_with (ch : bytes) : result adler32 :=
  I_ (len ch <? 255) ;;
  let '(a, b) := replace_loop ch 1 0 in
  Ok (Adler (Z.land a mask) (Z.land b mask) (u32 (len ch))).

(** ** The two sums *)

Fixpoint bytes_sum (w : bytes) : Z :=
  match w with [] => 0 | c :: w => byte_val c + bytes_sum w end.

(** The sum of the running sums, each starting from 1. *)
Fixpoint running_sum (acc : Z) (w : bytes) : Z :=
  match w with [] => 0 | c :: w => (acc + byte_val c) + running_sum (acc + byte_val c) w end.

Definition checksum (w : bytes) : adler32 :=
  Adler ((1 + bytes_sum w) mod 2 ^ 16) (running_sum 1 w mod 2 ^ 16) (len w).

Lemma mask_mod z : Z.land z mask = z mod 2 ^ 16.
Proof. exact (Z.land_ones z 16 ltac:(lia)). Qed.

Lemma u32_mod16 z : u32 z mod 2 ^ 16 = z mod 2 ^ 16.
Proof.
  unfold u32. change (2 ^ 32) with (2 ^ 16 * 2 ^ 16).
  rewrite Z.rem_mul_r by lia. rewrite Z.mul_comm, Z.mod_add, Z.mod_mod by lia. done.
Qed.

Lemma bytes_sum_app w v : bytes_sum (w ++ v) = bytes_sum w + bytes_sum v.
Proof. induction w as [|c w IH]; cbn [app bytes_sum]; lia. Qed.

Lemma running_sum_app acc w v :
  running_sum acc (w ++ v) = running_sum acc w + running_sum (acc + bytes_sum w) v.
Proof.
  revert acc. induction w as [|c w IH]; intros acc; cbn [app running_sum bytes_sum].
  - by rewrite Z.add_0_r.
  - rewrite IH. replace (acc + byte_val c + bytes_sum w) with (acc + (byte_val c + bytes_sum w)) by lia. lia.
Qed.

Lemma running_sum_shift acc d w : running_sum (acc + d) w = running_sum acc w + len w * d.
Proof.
  revert acc. induction w as [|c w IH]; intros acc; [by rewrite len_nil|].
  cbn [running_sum]. rewrite len_cons.
  replace (acc + d + byte_val c) with ((acc + byte_val c) + d) by lia. rewrite IH. lia.
Qed.

Lemma bytes_sum_bound w : 0 ≤ bytes_sum w ≤ 255 * len w.
Proof.
  induction w as [|c w IH]; [done|]. cbn [bytes_sum]. rewrite len_cons.
  pose proof (byte_val_range c). lia.
Qed.

Lemma replace_loop_spec w a b :
  0 ≤ a → 0 ≤ b → a + bytes_sum w < 2 ^ 32 → b + running_sum a w < 2 ^ 32 →
  replace_loop w a b = (a + bytes_sum w, b + running_sum a w).
Proof.
  revert a b. induction w as [|c w IH]; intros a b Ha Hb H1 H2; [cbn; by rewrite !Z.add_0_r|].
  cbn [replace_loop bytes_sum running_sum] in *. pose proof (byte_val_range c). pose proof (bytes_sum_bound w).
  assert (0 ≤ running_sum (a + byte_val c) w) as Hr.
  { assert (∀ v acc, 0 ≤ acc → 0 ≤ running_sum acc v) as Hpos; [|apply Hpos; lia].
    induction v as [|x v IHv]; intros acc Hacc; [done|]. cbn [running_sum].
    pose proof (byte_val_range x). pose proof (IHv (acc + byte_val x) ltac:(lia)). lia. }
  pose proof (len_nonneg w). rewrite (u32_small (a + _)) by lia. rewrite u32_small by lia.
  rewrite IH by lia. f_equal; lia.
Qed.

Lemma running_sum_bound acc w : 0 ≤ acc → running_sum acc w ≤ len w * (acc + 255 * len w).
Proof.
  revert acc. induction w as [|c w IH]; intros acc Hacc; [rewrite len_nil; done|]. cbn [running_sum]. rewrite len_cons.
  pose proof (byte_val_range c). specialize (IH (acc + byte_val c) ltac:(lia)). pose proof (len_nonneg w). nia.
Qed.

(** [replace_with] masks only at the end, and still computes the two sums
    modulo [2^16]: its comment's claim that nothing overflows. *)
Lemma replace_with_spec w : len w < 255 → replace_with w = Ok (checksum w).
Proof.
  intros Hw. unfold replace_with. rewrite (proj2 (Z.ltb_lt _ _) Hw). cbn [I_ mbind result_bind].
  pose proof (bytes_sum_bound w). pose proof (running_sum_bound 1 w ltac:(lia)). pose proof (len_nonneg w).
  rewrite replace_loop_spec; [|lia..|nia]. rewrite !mask_mod, u32_small by lia. done.
Qed.

Lemma in_checksum w c : len w + 1 < 2 ^ 32 → in_ (checksum w) c = checksum (w ++ [c]).
Proof.
  intros Hw. pose proof (len_nonneg w). unfold in_, checksum. cbn [s1 s2 alen].
  rewrite !mask_mod, !u32_mod16, len_app, bytes_sum_app, running_sum_app. cbn [bytes_sum running_sum].
  rewrite !Z.add_0_r. f_equal.
  - rewrite Zplus_mod_idemp_l. f_equal. lia.
  - rewrite Zplus_mod_idemp_l, Zplus_mod_idemp_r, Z.add_comm, <- (Z.add_assoc _ (byte_val c)).
    rewrite <- Zplus_mod_idemp_l, Z.mod_mod, Zplus_mod_idemp_l by lia. f_equal. lia.
  - apply u32_small. rewrite len_cons, len_nil. lia.
Qed.

Lemma out_checksum c w : len w + 1 < 2 ^ 32 → out (checksum (c :: w)) c = checksum w.
Proof.
  intros Hw. pose proof (len_nonneg w). unfold out, checksum. cbn [s1 s2 alen].
  rewrite !mask_mod, !u32_mod16, len_cons. cbn [bytes_sum running_sum]. f_equal.
  - rewrite Zminus_mod_idemp_l. f_equal. lia.
  - rewrite Zminus_mod_idemp_l, <- Zminus_mod_idemp_r, u32_mod16, <- Zplus_mod_idemp_l, u32_mod16,
      Zplus_mod_idemp_l, Zminus_mod_idemp_r. rewrite running_sum_shift. f_equal. lia.
  - rewrite u32_small; lia.
Qed.

(** The rolling checksum is exact.  Sliding a window of up to 254 bytes
    with [out] and [in] gives the same state, and so the same [sum], as
    recomputing it with [replace_with] on the new window; [out] alone is right
    for a window that shrinks at the end of the data, as in
    [compute_delta_insns]. *)
Theorem adler_rolls c w d :
  len w < 254 →
  ∃ st, replace_with (c :: w) = Ok st ∧ replace_with w = Ok (out st c) ∧
        replace_with (w ++ [d]) = Ok (in_ (out st c) d).
Proof.
  intros Hw. pose proof (len_nonneg w). exists (checksum (c :: w)).
  rewrite out_checksum, in_checksum by lia.
  rewrite !replace_with_spec; rewrite ?len_app, ?len_cons, ?len_nil; [done|lia..].
Qed.

Lemma adler_rolls_witness :
  ∃ st, replace_with (lit "abc") = Ok st ∧ replace_with (lit "bc") = Ok (out st "a") ∧
        replace_with (lit "bcd") = Ok (in_ (out st "a") "d").
Proof. apply (adler_rolls "a" (lit "bc") "d"). reflexivity. Defined.
