(* ===== verification/Xdelta.v ===== *)
(** * Binary deltas: computing and applying them ([src/src/xdelta.cc])

    [compute_delta] finds blocks of [a] in [b] with a rolling checksum and
    writes a stream of copy and insert instructions; [apply_delta] parses such
    a stream and drives a [delta_applicator].

    Positions and lengths are [size_t] values, [u32] where the source stores
    them in a [u32].  A [vector<insn>] that is only touched at its back is a
    list whose head is the back.  [find_match] compares memory through raw
    pointers: [mem] is what follows the terminating NUL of [b] in memory. *)

From S2P Require Import Prelude Numbers Adler.

Definition nl : ascii := ascii_of_nat 10.
Definition NUL : ascii := ascii_of_nat 0.

Inductive insn := Insert (payload : bytes) | Copy (pos n : Z).

Definition print_insn (i : insn) : bytes :=
  match i with
  | Insert payload => lit "I " ++ print_num (len payload) ++ [nl] ++ payload ++ [nl]
  | Copy pos n => lit "C " ++ print_num pos ++ lit " " ++ print_num n ++ [nl]
  end.

(** [s[i]]; the NUL is at [s.size()]. *)
Definition char_at (s : bytes) (i : Z) : ascii := default NUL (s !! Z.to_nat i).

Definition blocksz : Z := 64.

(** ** The match table *)

Abbreviation match_table := (gmap Z (Z * Z)).

Fixpoint init_loop (fuel : nat) (a : bytes) (i : Z) (tab : match_table) : result match_table :=
  if i <? len a then
    match fuel with
    | O => Err invariant_failure
    | S fuel =>
        let step := if len a <=? i + blocksz then len a - i else blocksz in
        st ← replace_with (slice a i step);
        init_loop fuel a (i + blocksz)
          (match tab !! sum st with None => <[sum st := (i, step)]> tab | Some _ => tab end)
    end
  else Ok tab.

Definition init_match_table (a : bytes) : result match_table := init_loop (length a) a 0 ∅.

(** ** Instructions *)

Definition insert_insn (delta : list insn) (c : ascii) : list insn :=
  match delta with
  | Insert payload :: delta => Insert (payload ++ [c]) :: delta
  | _ => Insert [c] :: delta
  end.

Definition copy_insn (delta : list insn) (i matchlen : Z) : list insn :=
  Copy (u32 i) (u32 matchlen) :: delta.

Section compute.
Context (mem : nat → ascii) (a b : bytes).

(** [b.data()[i]], beyond the end of [b] too. *)
Definition raw (i : Z) : ascii :=
  if i <=? len b then char_at b i else mem (Z.to_nat (i - len b - 1)).

(** [memcmp(a.data() + apos, b.data() + bpos, n) == 0] *)
Definition memcmp_eq (apos bpos n : Z) : bool :=
  forallb (λ j, bool_decide (char_at a (apos + j) = raw (bpos + j))) (seqZ 0 n).

(** The forward extension: [ai] runs over the rest of [a]. *)
Fixpoint extend_forward (ai : bytes) (bi tlen : Z) : Z :=
  match ai with
  | [] => tlen
  | c :: ai =>
      if negb (bi =? len b) && bool_decide (c = raw bi)
      then extend_forward ai (bi + 1) (tlen + 1) else tlen
  end.

(** The backward extension into the insert at the back, payload reversed. *)
Fixpoint extend_back (payload : bytes) (apos bpos n : Z) : result (bytes * Z * Z * Z) :=
  match payload with
  | [] => Ok ([], apos, bpos, n)
  | c :: payload' =>
      if (0 <? apos) && (0 <? bpos) && bool_decide (char_at a (apos - 1) = char_at b (bpos - 1)) then
        I_ (bool_decide (char_at a (apos - 1) = c)) ;;
        extend_back payload' (apos - 1) (bpos - 1) (n + 1)
      else Ok (payload, apos, bpos, n)
  end.

Definition extend_into_insert (delta : list insn) (apos bpos n : Z) :
    result (list insn * Z * Z * Z) :=
  match delta with
  | Insert payload :: rest =>
      '(rp, apos, bpos, n) ← extend_back (reverse payload) apos bpos n;
      Ok (if decide (rp = []) then rest else Insert (reverse rp) :: rest, apos, bpos, n)
  | _ => Ok (delta, apos, bpos, n)
  end.

(** The new instructions, [apos], [alen] and [badvance]; [None] for false. *)
Definition find_match (matches : match_table) (delta : list insn) (rolling : adler32) (bpos : Z) :
    result (option (list insn * Z * Z * Z)) :=
  match matches !! sum rolling with
  | None => Ok None
  | Some (tpos, tlen) =>
      I_ (tpos <? len a) ;;
      I_ (tpos + tlen <=? len a) ;;
      if memcmp_eq tpos bpos tlen then
        let tlen := extend_forward (drop (Z.to_nat (tpos + tlen)) a) (bpos + tlen) tlen in
        '(delta, apos, bpos, n) ← extend_into_insert delta tpos bpos tlen;
        I_ (memcmp_eq apos bpos n) ;;
        Ok (Some (delta, apos, n, tlen))
      else Ok None
  end.

(** [n] rounds of the incremental advance. *)
Fixpoint roll (n : nat) (next : Z) (rolling : adler32) : Z * adler32 :=
  match n with
  | O => (next, rolling)
  | S n =>
      let r := out rolling (char_at b next) in
      let r := if next + blocksz <? len b then in_ r (char_at b (next + blocksz)) else r in
      roll n (next + 1) r
  end.

Definition advance_small (lo badvance : Z) (rolling : adler32) : result (Z * adler32) :=
  if badvance <=? blocksz then
    I_ ((lo <? len b) && (lo + badvance - 1 <? len b)) ;;
    Ok (roll (Z.to_nat badvance) lo rolling)
  else Ok (lo, rolling).

Definition advance_skip (save_lo badvance lo : Z) (rolling : adler32) : result (Z * adler32) :=
  if blocksz / 2 <=? badvance then
    let new_lo := u32 (save_lo + badvance) in
    let new_hi := u32 (new_lo + blocksz) in
    let new_hi := if len b <? new_hi then u32 (len b) else new_hi in
    I_ (new_lo <=? new_hi) ;;
    rolling ← replace_with (slice b new_lo (new_hi - new_lo));
    Ok (new_lo, rolling)
  else Ok (lo, rolling).

Definition delta_step (matches : match_table) (lo : Z) (rolling : adler32) (delta : list insn) :
    result (Z * adler32 * list insn) :=
  m ← find_match matches delta rolling lo;
  match m with
  | Some (delta, apos, n, badvance) =>
      let delta := copy_insn delta apos n in
      let save_lo := u32 lo in
      '(lo, rolling) ← advance_small lo badvance rolling;
      '(lo, rolling) ← advance_skip save_lo badvance lo rolling;
      Ok (lo, rolling, delta)
  | None =>
      I_ (0 + 1 <=? len a) ;;
      I_ (1 <? blocksz) ;;
      I_ (lo <? len b) ;;
      let delta := insert_insn delta (char_at b lo) in
      let rolling := out rolling (char_at b lo) in
      let rolling := if lo + blocksz <? len b then in_ rolling (char_at b (lo + blocksz)) else rolling in
      Ok (lo + 1, rolling, delta)
  end.

Fixpoint delta_loop (fuel : nat) (matches : match_table) (lo : Z) (rolling : adler32)
    (delta : list insn) : result (list insn) :=
  if lo <? len b then
    match fuel with
    | O => Err invariant_failure
    | S fuel =>
        '(lo, rolling, delta) ← delta_step matches lo rolling delta;
        delta_loop fuel matches lo rolling delta
    end
  else Ok delta.

Definition compute_delta_insns : result (list insn) :=
  matches ← init_match_table a;
  if len b <? blocksz then Ok (reverse (foldl insert_insn [] b))
  else
    rolling ← replace_with (slice b 0 blocksz);
    delta ← delta_loop (length b) matches 0 rolling [];
    Ok (reverse delta).
End compute.

Definition write_delta_insns (delta_insns : list insn) : bytes := flat_map print_insn delta_insns.

Definition compute_delta (mem : nat → ascii) (a b : bytes) : result bytes :=
  insns ← (if bool_decide (a = []) && negb (bool_decide (b = [])) then Ok [Insert b]
           else if negb (bool_decide (a = [])) && bool_decide (b = []) then Ok [Copy 0 0]
           else if bool_decide (a = b) then Ok [Copy 0 (u32 (len a))]
           else
             I_ (negb (bool_decide (a = []))) ;;
             I_ (negb (bool_decide (b = []))) ;;
             compute_delta_insns mem a b);
  Ok (write_delta_insns insns).

(** ** Applying *)

(** [delta_applicator] of [xdelta.hh]. *)
Class DeltaApplicator (D : Type) := {
  da_begin : D → bytes → D;
  da_next : D → D;
  da_finish : D → result bytes;
  da_copy : D → Z → Z → result D;
  da_insert : D → bytes → result D
}.

Fixpoint skip_blanks (i : bytes) : bytes :=
  match i with
  | c :: i' => if bool_decide (c = " "%char) then skip_blanks i' else i
  | [] => []
  end.

Fixpoint read_digits (n : Z) (i : bytes) : Z * bytes :=
  match i with
  | c :: i' =>
      if (48 <=? byte_val c) && (byte_val c <=? 57)
      then read_digits (u64 (u64 (n * 10) + (byte_val c - 48))) i' else (n, i)
  | [] => (n, [])
  end.

Definition read_num (i : bytes) : Z * bytes := read_digits 0 (skip_blanks i).

(** [I(i != delta.end()); I( *i == '\n'); ++i] *)
Definition expect_nl (i : bytes) : result bytes :=
  match i with
  | c :: i => I_ (bool_decide (c = nl)) ;; Ok i
  | [] => Err invariant_failure
  end.

Definition not_end (i : bytes) : result unit := I_ (negb (bool_decide (i = []))).

Section apply.
Context {D : Type} `{!DeltaApplicator D}.

(** The body of an insert; [string tmp(i, i+len)] throws when the range is
    not inside the string. *)
Definition apply_insert_insn (total : Z) (i : bytes) (da : D) : result (bytes * D) :=
  not_end i ;;
  let '(n, i) := read_num i in
  i ← expect_nl i;
  not_end i ;;
  I_ (u64 ((total - len i) + n) <=? total) ;;
  da ← (if 0 <? n then
          if n <=? len i then da_insert da (slice i 0 n) else Err StdException
        else Ok da);
  Ok (drop (Z.to_nat n) i, da).

Definition apply_copy_insn (i : bytes) (da : D) : result (bytes * D) :=
  not_end i ;;
  let '(pos, i) := read_num i in
  not_end i ;;
  let '(n, i) := read_num i in
  da ← (if negb (n =? 0) then da_copy da pos n else Ok da);
  Ok (i, da).

(** One round per instruction. *)
Fixpoint apply_loop (fuel : nat) (total : Z) (i : bytes) (da : D) : result D :=
  match i with
  | [] => Ok da
  | c :: i' =>
      if bool_decide (c = "I"%char) || bool_decide (c = "C"%char) then
        match fuel with
        | O => Err invariant_failure
        | S fuel =>
            '(i, da) ← (if bool_decide (c = "I"%char) then apply_insert_insn total i' da
                        else apply_copy_insn i' da);
            i ← expect_nl i;
            apply_loop fuel total i da
        end
      else Err invariant_failure
  end.

Definition apply_delta_to (da : D) (delta : bytes) : result D :=
  apply_loop (length delta) (len delta) delta da.
End apply.

(** ** [simple_applicator] *)

Record simple_applicator := SimpleApplicator { src : bytes; dst : bytes }.

(** [s.append(t, pos, n)] *)
Definition append_sub (s t : bytes) (pos n : Z) : result bytes :=
  if len t <? pos then Err StdException else Ok (s ++ slice t pos (Z.min n (len t - pos))).

#[export] Instance simple_delta_applicator : DeltaApplicator simple_applicator := {|
  da_begin _ base := SimpleApplicator base [];
  da_next d := SimpleApplicator (dst d) [];
  da_finish d := Ok (src d);
  da_copy d pos n := x ← append_sub (dst d) (src d) pos n; Ok (SimpleApplicator (src d) x);
  da_insert d str := Ok (SimpleApplicator (src d) (dst d ++ str))
|}.

Definition apply_delta (a delta : bytes) : result bytes :=
  let da := da_begin (SimpleApplicator [] []) a in
  da ← apply_delta_to da delta;
  da_finish (da_next da).

(** ** [diff] and [patch] *)

Definition diff (mem : nat → ascii) (olddata newdata : bytes) : result bytes :=
  compute_delta mem olddata newdata.

Definition patch (olddata del : bytes) : result bytes := apply_delta olddata del.
