(* ===== verification/XdeltaRoundtrip.v ===== *)
(** * Deltas reproduce their target

    [apply_delta] of what [compute_delta] writes gives the target back.  The
    proof goes through the instructions a delta denotes: the text written for
    them is read back instruction by instruction, and the search loop keeps
    the invariant that the instructions so far produce the scanned prefix. *)

From S2P Require Import Prelude Numbers Adler Xdelta.

(** ** Reading back what was written *)

Section read_back.
Lemma skip_blanks_digit c i : is_decimal c = true → skip_blanks (c :: i) = c :: i.
Proof. intros Hc. cbn [skip_blanks]. rewrite bool_decide_false; [done|]. intros ->. done. Qed.

Lemma read_digits_spec ds v rest :
  forallb is_decimal ds = true → 0 ≤ v → numeral v ds < 2 ^ 64 →
  match rest with c :: _ => is_decimal c = false | [] => True end →
  read_digits v (ds ++ rest) = (numeral v ds, rest).
Proof.
  revert v. induction ds as [|c ds IH]; intros v Hall Hv Hlt Hrest.
  - cbn [app numeral foldl]. destruct rest as [|c rest]; [done|]. cbn [read_digits].
    unfold is_decimal in Hrest. by rewrite Hrest.
  - cbn [forallb] in Hall. apply andb_true_iff in Hall as [Hc Hall].
    pose proof Hc as Hc'. unfold is_decimal in Hc'. cbn [app read_digits]. rewrite Hc'.
    unfold numeral in *. cbn [foldl] in *.
    assert (v * 10 + digit_val c ≤ numeral (v * 10 + digit_val c) ds) as Hm
      by (apply numeral_mono; [unfold digit_val; lia|done]).
    unfold numeral, digit_val in *. rewrite (u64_small (v * 10)) by lia. rewrite u64_small by lia.
    apply IH; [done|lia|done..].
Qed.

Lemma read_num_print n rest :
  0 ≤ n < 2 ^ 64 → match rest with c :: _ => is_decimal c = false | [] => True end →
  read_num (print_num n ++ rest) = (n, rest).
Proof.
  intros Hn Hrest. destruct (print_num_spec n) as (c & ds & E & Hall & Hnum); [lia|].
  unfold read_num. rewrite E.
  assert (is_decimal c = true) as Hc by (cbn [forallb] in Hall; by apply andb_true_iff in Hall as [? _]).
  cbn [app]. rewrite skip_blanks_digit by done. change (c :: ds ++ rest) with ((c :: ds) ++ rest).
  rewrite read_digits_spec by (done || lia). by rewrite Hnum.
Qed.

Lemma read_num_blank i : read_num (" "%char :: i) = read_num i.
Proof. done. Qed.
End read_back.

(** What one instruction makes an applicator do. *)
Section run.
Context {D : Type} `{!DeltaApplicator D}.

Definition run_insn (da : D) (i : insn) : result D :=
  match i with
  | Insert p => if decide (p = []) then Ok da else da_insert da p
  | Copy pos n => if decide (n = 0) then Ok da else da_copy da pos n
  end.

Definition insn_fits (i : insn) : Prop :=
  match i with
  | Insert p => len p < 2 ^ 64
  | Copy pos n => 0 ≤ pos < 2 ^ 64 ∧ 0 ≤ n < 2 ^ 64
  end.

Lemma not_end_cons c i : not_end (c :: i) = Ok tt.
Proof. done. Qed.

Lemma not_end_print n rest : 0 ≤ n → not_end (print_num n ++ rest) = Ok tt.
Proof. intros Hn. destruct (print_num_spec n Hn) as (c & ds & -> & _). done. Qed.

Lemma apply_insert_write total p rest da :
  len p < 2 ^ 64 → len (print_num (len p) ++ [nl] ++ p ++ nl :: rest) ≤ total →
  apply_insert_insn total (" "%char :: print_num (len p) ++ [nl] ++ p ++ nl :: rest) da =
    da ← run_insn da (Insert p); Ok (nl :: rest, da).
Proof.
  intros Hp Ht. unfold apply_insert_insn. rewrite not_end_cons. cbn [mbind result_bind]. rewrite read_num_blank, read_num_print;
    [|pose proof (len_nonneg p); lia|done]. cbn [app expect_nl].
  rewrite (bool_decide_true (nl = nl)) by done. cbn [I_ mbind result_bind].
  assert (not_end (p ++ nl :: rest) = Ok tt) as -> by (by destruct p). cbn [mbind result_bind].
  rewrite !len_app, len_cons in Ht. cbn [app] in Ht. rewrite len_nil in Ht.
  assert (u64 (total - len (p ++ nl :: rest) + len p) ≤ total) as Hu.
  { rewrite len_app, len_cons in *. pose proof (len_nonneg (print_num (len p))). pose proof (len_nonneg p).
    pose proof (len_nonneg rest). unfold u64.
    etrans; [apply Z.mod_le; lia|]. lia. }
  rewrite (proj2 (Z.leb_le _ _) Hu). cbn [I_ mbind result_bind run_insn].
  assert (drop (Z.to_nat (len p)) (p ++ nl :: rest) = nl :: rest) as ->
    by (unfold len; by rewrite Nat2Z.id, drop_app_length).
  destruct (decide (p = [])) as [->|Hne].
  - done.
  - assert (0 < len p) by (pose proof (len_nonneg p); rewrite <- len_0 in Hne; lia).
    rewrite (proj2 (Z.ltb_lt _ _)) by done. rewrite (proj2 (Z.leb_le _ _)).
    2:{ rewrite len_app. pose proof (len_nonneg (nl :: rest)). lia. }
    rewrite slice_app_l by (pose proof (len_nonneg p); lia). by rewrite slice_full.
Qed.

Lemma apply_copy_write pos n rest da :
  insn_fits (Copy pos n) →
  apply_copy_insn (" "%char :: print_num pos ++ " "%char :: print_num n ++ nl :: rest) da =
    da ← run_insn da (Copy pos n); Ok (nl :: rest, da).
Proof.
  intros [Hp Hn]. unfold apply_copy_insn. rewrite not_end_cons. cbn [mbind result_bind]. rewrite read_num_blank, read_num_print by done.
  rewrite not_end_cons. cbn [mbind result_bind].
  rewrite read_num_blank, read_num_print by done. cbn [run_insn].
  destruct (decide (n = 0)) as [->|Hne]; [done|].
  rewrite (proj2 (Z.eqb_neq n 0)) by done. done.
Qed.

Lemma expect_nl_nl i : expect_nl (nl :: i) = Ok i.
Proof. done. Qed.

Lemma print_insert_app p rest :
  print_insn (Insert p) ++ rest =
    "I"%char :: " "%char :: print_num (len p) ++ [nl] ++ p ++ nl :: rest.
Proof. cbn [print_insn]. rewrite <- !app_assoc. done. Qed.

Lemma print_copy_app pos n rest :
  print_insn (Copy pos n) ++ rest =
    "C"%char :: " "%char :: print_num pos ++ " "%char :: print_num n ++ nl :: rest.
Proof. cbn [print_insn]. rewrite <- !app_assoc. done. Qed.

(** Parsing what [operator<<] wrote replays the instructions. *)
Lemma apply_loop_write l fuel total da :
  Forall insn_fits l → (length (write_delta_insns l) ≤ fuel)%nat → len (write_delta_insns l) ≤ total →
  apply_loop fuel total (write_delta_insns l) da = foldM run_insn l da.
Proof.
  revert fuel da. induction l as [|i l IH]; intros fuel da Hfit Hfuel Ht; [by destruct fuel|].
  apply Forall_cons in Hfit as [Hi Hfit]. unfold write_delta_insns in *. cbn [flat_map] in *.
  rewrite length_app in Hfuel. rewrite len_app in Ht. pose proof (len_nonneg (print_insn i)).
  cbn [foldM]. set (rest := flat_map print_insn l) in *.
  destruct i as [p|pos n].
  - rewrite print_insert_app. destruct fuel as [|fuel]; [simpl in Hfuel; lia|]. cbn [apply_loop].
    rewrite (bool_decide_true ("I"%char = "I"%char)) by done. cbn [orb].
    rewrite apply_insert_write; [|done|].
    2:{ rewrite <- len_app, print_insert_app, !len_cons in Ht. cbn [app] in *. lia. }
    destruct (run_insn da (Insert p)) as [da'|e]; cbn [mbind result_bind]; [|done].
    rewrite expect_nl_nl. cbn [mbind result_bind]. apply IH; [done|simpl in Hfuel; lia|lia].
  - rewrite print_copy_app. destruct fuel as [|fuel]; [simpl in Hfuel; lia|]. cbn [apply_loop].
    rewrite (bool_decide_false ("C"%char = "I"%char)), (bool_decide_true ("C"%char = "C"%char)) by done.
    cbn [orb]. rewrite apply_copy_write by done.
    destruct (run_insn da (Copy pos n)) as [da'|e]; cbn [mbind result_bind]; [|done].
    rewrite expect_nl_nl. cbn [mbind result_bind]. apply IH; [done|simpl in Hfuel; lia|lia].
Qed.

Lemma apply_delta_to_write l da :
  Forall insn_fits l → apply_delta_to da (write_delta_insns l) = foldM run_insn l da.
Proof. intros. by apply apply_loop_write. Qed.
End run.

(** ** What instructions produce *)

Definition insn_text (a : bytes) (i : insn) : bytes :=
  match i with Insert p => p | Copy pos n => slice a pos n end.
Definition produce (a : bytes) (l : list insn) : bytes := flat_map (insn_text a) l.

(** Copies stay inside a source of [n] bytes. *)
Definition in_source (n : Z) (i : insn) : Prop :=
  match i with Insert _ => True | Copy pos m => 0 ≤ pos ∧ 0 ≤ m ∧ pos + m ≤ n end.

Lemma produce_app a l1 l2 : produce a (l1 ++ l2) = produce a l1 ++ produce a l2.
Proof. apply flat_map_app. Qed.

Lemma append_sub_slice s t pos n :
  0 ≤ pos → 0 ≤ n → pos + n ≤ len t → append_sub s t pos n = Ok (s ++ slice t pos n).
Proof.
  intros. unfold append_sub. destruct (Z.ltb_spec (len t) pos); [lia|]. by rewrite Z.min_l by lia.
Qed.

Lemma simple_runs a l d :
  Forall (in_source (len a)) l →
  foldM run_insn l (SimpleApplicator a d) = Ok (SimpleApplicator a (d ++ produce a l)).
Proof.
  revert d. induction l as [|i l IH]; intros d Hl; [by cbn; rewrite app_nil_r|].
  apply Forall_cons in Hl as [Hi Hl]. cbn [foldM].
  assert (run_insn (SimpleApplicator a d) i = Ok (SimpleApplicator a (d ++ insn_text a i))) as ->.
  { destruct i as [p|pos n]; cbn [run_insn insn_text].
    - case_decide; [by subst; rewrite app_nil_r|done].
    - destruct Hi as (? & ? & ?). case_decide; [by subst; rewrite slice_0, app_nil_r|].
      cbn [da_copy simple_delta_applicator src dst]. by rewrite append_sub_slice. }
  cbn [mbind result_bind]. rewrite IH by done. cbn [produce flat_map]. by rewrite <- app_assoc.
Qed.

Lemma apply_delta_write a l :
  Forall insn_fits l → Forall (in_source (len a)) l →
  apply_delta a (write_delta_insns l) = Ok (produce a l).
Proof.
  intros Hf Hs. unfold apply_delta. cbn [da_begin simple_delta_applicator].
  rewrite apply_delta_to_write by done. rewrite simple_runs by done. done.
Qed.

Lemma produce_insert_len a l p : Insert p ∈ l → len p ≤ len (produce a l).
Proof.
  induction l as [|i l IH]; intros Hin; [by apply not_elem_of_nil in Hin|].
  cbn [produce flat_map]. rewrite len_app. pose proof (len_nonneg (insn_text a i)).
  apply elem_of_cons in Hin as [<-|Hin].
  - cbn [insn_text]. pose proof (len_nonneg (flat_map (insn_text a) l)). lia.
  - specialize (IH Hin). unfold produce in IH. lia.
Qed.

(** ** The search *)

Lemma char_at_lookup s i c : s !! Z.to_nat i = Some c → char_at s i = c.
Proof. intros H. unfold char_at. by rewrite H. Qed.

Lemma lookup_char_at s i : 0 ≤ i < len s → s !! Z.to_nat i = Some (char_at s i).
Proof.
  intros Hi. unfold len in Hi. destruct (lookup_lt_is_Some_2 s (Z.to_nat i)) as [c Hc]; [lia|].
  by rewrite (char_at_lookup _ _ _ Hc).
Qed.

Section search.
Context (mem : nat → ascii) (a b : bytes).

Definition table_ok (tab : match_table) : Prop :=
  ∀ k tpos tlen, tab !! k = Some (tpos, tlen) → 0 ≤ tpos ∧ 0 < tlen ∧ tpos + tlen ≤ len a.

Lemma init_loop_ok fuel i tab :
  0 ≤ i → len a - i ≤ Z.of_nat fuel → table_ok tab →
  ∃ tab', init_loop fuel a i tab = Ok tab' ∧ table_ok tab'.
Proof.
  revert i tab. induction fuel as [|fuel IH]; intros i tab Hi Hf Ht; cbn [init_loop];
    (destruct (Z.ltb_spec i (len a)); [|by eauto]); [lia|].
  set (step := if len a <=? i + blocksz then len a - i else blocksz).
  assert (0 < step ≤ 64 ∧ i + step ≤ len a) as [Hs Hb]
    by (unfold step, blocksz; destruct (Z.leb_spec (len a) (i + 64)); lia).
  rewrite replace_with_spec by (rewrite len_slice; lia). cbn [mbind result_bind].
  apply IH; [unfold blocksz; lia..|]. destruct (tab !! _) eqn:E; [done|].
  intros k tpos tlen. destruct (decide (k = sum (checksum (slice a i step)))) as [->|Hne].
  - rewrite lookup_insert_eq. intros [= <- <-]. lia.
  - rewrite lookup_insert_ne by done. apply Ht.
Qed.

(** [a] from [apos] and the memory of [b] from [bpos] agree on [n] bytes. *)
Definition agrees (apos bpos n : Z) : Prop :=
  ∀ j, 0 ≤ j < n → char_at a (apos + j) = raw mem b (bpos + j).

Lemma memcmp_eq_spec apos bpos n : memcmp_eq mem a b apos bpos n = true ↔ agrees apos bpos n.
Proof.
  unfold memcmp_eq, agrees. rewrite forallb_forall. setoid_rewrite <- list_elem_of_In.
  setoid_rewrite elem_of_seqZ. setoid_rewrite bool_decide_eq_true.
  split; intros H j Hj; apply H; lia.
Qed.

Lemma raw_in i : i < len b → raw mem b i = char_at b i.
Proof. intros. unfold raw. by rewrite (proj2 (Z.leb_le _ _)) by lia. Qed.
Lemma raw_end : raw mem b (len b) = NUL.
Proof.
  unfold raw. rewrite Z.leb_refl. unfold char_at, len. rewrite Nat2Z.id.
  by rewrite (proj2 (lookup_ge_None b _)).
Qed.

Lemma agrees_slice apos bpos n :
  0 ≤ apos → 0 ≤ bpos → 0 ≤ n → apos + n ≤ len a → bpos + n ≤ len b →
  agrees apos bpos n → slice a apos n = slice b bpos n.
Proof.
  intros Ha Hb Hn Hea Heb H.
  apply (list_eq_same_length _ _ (Z.to_nat n)).
  - pose proof (len_slice b bpos n). unfold len in *. lia.
  - pose proof (len_slice a apos n). unfold len in *. lia.
  - intros i x y Hi Hx Hy. replace i with (Z.to_nat (Z.of_nat i)) in Hx, Hy by lia.
    rewrite lookup_slice in Hx, Hy by lia. rewrite lookup_char_at in Hx, Hy by lia.
    injection Hx as <-. injection Hy as <-. rewrite H by lia. apply raw_in. lia.
Qed.

(** Agreeing past the end of [b] means [a] has a NUL where [b] ends. *)
Lemma overread_nul apos bpos n :
  0 ≤ apos → 0 ≤ bpos < len b → apos + n ≤ len a → len b < bpos + n → agrees apos bpos n → NUL ∈ a.
Proof.
  intros Ha Hb Hea Hover H. specialize (H (len b - bpos) ltac:(lia)).
  replace (bpos + (len b - bpos)) with (len b) in H by lia. rewrite raw_end in H.
  apply list_elem_of_lookup. exists (Z.to_nat (apos + (len b - bpos))).
  rewrite lookup_char_at by lia. by rewrite H.
Qed.

Lemma extend_forward_spec ai bi tlen :
  tlen ≤ extend_forward mem b ai bi tlen ≤ tlen + len ai ∧
  (∀ j, 0 ≤ j < extend_forward mem b ai bi tlen - tlen → char_at ai j = raw mem b (bi + j)).
Proof.
  revert bi tlen. induction ai as [|c ai IH]; intros bi tlen; cbn [extend_forward].
  - rewrite len_nil. split; [lia|]. intros; lia.
  - rewrite len_cons. pose proof (len_nonneg ai).
    destruct (negb (bi =? len b) && bool_decide (c = raw mem b bi)) eqn:E; [|split; [lia|intros; lia]].
    apply andb_true_iff in E as [_ E%bool_decide_eq_true].
    destruct (IH (bi + 1) (tlen + 1)) as [H1 H2]. split; [lia|]. intros j Hj.
    destruct (decide (j = 0)) as [->|Hj0]; [by rewrite Z.add_0_r|].
    specialize (H2 (j - 1) ltac:(lia)). replace (bi + 1 + (j - 1)) with (bi + j) in H2 by lia.
    rewrite <- H2. unfold char_at. by replace (Z.to_nat j) with (S (Z.to_nat (j - 1))) by lia.
Qed.

Lemma extend_forward_agrees apos bpos n :
  0 ≤ apos → 0 ≤ n → apos + n ≤ len a → agrees apos bpos n →
  let n' := extend_forward mem b (drop (Z.to_nat (apos + n)) a) (bpos + n) n in
  n ≤ n' ∧ apos + n' ≤ len a ∧ agrees apos bpos n'.
Proof.
  intros Ha Hn Hea H n'.
  destruct (extend_forward_spec (drop (Z.to_nat (apos + n)) a) (bpos + n) n) as [H1 H2].
  fold n' in H1, H2. unfold len in H1 at 1. rewrite length_drop in H1. split; [lia|].
  split; [unfold len in *; lia|]. intros j Hj. destruct (decide (j < n)); [apply H; lia|].
  specialize (H2 (j - n) ltac:(lia)). replace (bpos + n + (j - n)) with (bpos + j) in H2 by lia.
  rewrite <- H2. unfold char_at. rewrite lookup_drop. do 2 f_equal. lia.
Qed.

Lemma extend_back_spec rp apos bpos n :
  0 ≤ apos → 0 ≤ bpos - len rp → bpos ≤ len b → slice b (bpos - len rp) (len rp) = reverse rp →
  agrees apos bpos n →
  ∃ rp' k, extend_back a b rp apos bpos n = Ok (rp', apos - k, bpos - k, n + k) ∧
    0 ≤ k ∧ 0 ≤ apos - k ∧ len rp' = len rp - k ∧
    slice b (bpos - len rp) (len rp') = reverse rp' ∧ agrees (apos - k) (bpos - k) (n + k).
Proof.
  revert apos bpos n. induction rp as [|c rp IH]; intros apos bpos n Ha Hb Hbl Hsl Hag; cbn [extend_back].
  { exists [], 0. rewrite !Z.sub_0_r, !Z.add_0_r. rewrite len_nil in *. rewrite slice_0. done. }
  rewrite len_cons in *. pose proof (len_nonneg rp). rewrite reverse_cons in Hsl.
  assert (b !! Z.to_nat (bpos - 1) = Some (char_at b (bpos - 1))) as Hlast by (apply lookup_char_at; lia).
  rewrite (slice_snoc _ _ _ (char_at b (bpos - 1))) in Hsl;
    [|lia|lia|by replace (bpos - (1 + len rp) + (1 + len rp) - 1) with (bpos - 1) by lia].
  apply app_inj_2 in Hsl as [Hsl [= Hc]]; [|done].
  replace (1 + len rp - 1) with (len rp) in Hsl by lia.
  destruct ((0 <? apos) && (0 <? bpos) && bool_decide (char_at a (apos - 1) = char_at b (bpos - 1))) eqn:E.
  - apply andb_true_iff in E as [[E1 E2]%andb_true_iff E3%bool_decide_eq_true].
    rewrite (bool_decide_true (char_at a (apos - 1) = c)) by congruence. cbn [I_ mbind result_bind].
    destruct (IH (apos - 1) (bpos - 1) (n + 1)) as (rp' & k & E & Hk & Hk2 & Hl & Hs & Hag'); [lia|lia|lia| | |].
    + by replace (bpos - 1 - len rp) with (bpos - (1 + len rp)) by lia.
    + intros j Hj. destruct (decide (j = 0)) as [->|].
      * rewrite !Z.add_0_r, raw_in by lia. done.
      * specialize (Hag (j - 1) ltac:(lia)). replace (apos - 1 + j) with (apos + (j - 1)) by lia.
        rewrite Hag. f_equal. lia.
    + exists rp', (k + 1). rewrite E.
      replace (apos - 1 - k) with (apos - (k + 1)) in * by lia. replace (bpos - 1 - k) with (bpos - (k + 1)) in * by lia.
      replace (n + 1 + k) with (n + (k + 1)) in * by lia.
      replace (bpos - 1 - len rp) with (bpos - (1 + len rp)) in Hs by lia.
      split_and!; [done|lia|lia|lia|done|done].
  - exists (c :: rp), 0. rewrite !Z.sub_0_r, !Z.add_0_r, len_cons. split_and!; [done|lia|lia|lia| |done].
    rewrite reverse_cons, (slice_snoc _ _ _ (char_at b (bpos - 1))), Hc;
      [|lia|lia|by replace (bpos - (1 + len rp) + (1 + len rp) - 1) with (bpos - 1) by lia].
    replace (1 + len rp - 1) with (len rp) by lia. by rewrite Hsl.
Qed.

(** The instructions so far (last first) produce the first [lo] bytes. *)
Definition built (delta : list insn) (lo : Z) : Prop :=
  Forall (in_source (len a)) delta ∧ produce a (reverse delta) = slice b 0 lo.

Lemma extend_into_insert_spec delta apos bpos n :
  0 ≤ apos → 0 ≤ bpos ≤ len b → agrees apos bpos n → built delta bpos →
  ∃ delta' k, extend_into_insert a b delta apos bpos n = Ok (delta', apos - k, bpos - k, n + k) ∧
    0 ≤ k ≤ bpos ∧ 0 ≤ apos - k ∧ agrees (apos - k) (bpos - k) (n + k) ∧ built delta' (bpos - k).
Proof.
  intros Ha Hb Hag [Hok Hp].
  assert (∃ delta' k, Ok (delta, apos, bpos, n) = Ok (delta', apos - k, bpos - k, n + k) ∧
    0 ≤ k ≤ bpos ∧ 0 ≤ apos - k ∧ agrees (apos - k) (bpos - k) (n + k) ∧ built delta' (bpos - k)) as Hsame.
  { exists delta, 0. rewrite !Z.sub_0_r, !Z.add_0_r. split_and!; [done|lia..|done|done|done]. }
  unfold extend_into_insert. destruct delta as [|[p|pos m] rest]; [done| |done]. clear Hsame.
  apply Forall_cons in Hok as [_ Hok]. rewrite reverse_cons, produce_app in Hp.
  cbn [produce flat_map insn_text] in Hp. rewrite app_nil_r in Hp.
  assert (len (produce a (reverse rest)) = bpos - len p) as Hlen.
  { apply (f_equal len) in Hp. rewrite len_app, len_slice in Hp by lia. unfold produce in *. lia. }
  assert (produce a (reverse rest) = slice b 0 (bpos - len p) ∧ slice b (bpos - len p) (len p) = p) as [Hp1 Hp2].
  { pose proof (len_nonneg p). pose proof (len_nonneg (produce a (reverse rest))).
    replace bpos with ((bpos - len p) + len p) in Hp by lia. rewrite slice_split in Hp by lia.
    rewrite Z.add_0_l in Hp. apply app_inj_1 in Hp as [? ?]; [done|].
    pose proof (len_slice b 0 (bpos - len p)). unfold len in *. unfold produce in *. lia. }
  pose proof (len_nonneg (produce a (reverse rest))). pose proof (len_nonneg p).
  assert (len (reverse p) = len p) as Hrev by (unfold len; by rewrite length_reverse).
  destruct (extend_back_spec (reverse p) apos bpos n) as (rp' & k & -> & Hk & Hk2 & Hl & Hs & Hag').
  { done. } { rewrite Hrev. lia. } { lia. } { by rewrite Hrev, reverse_involutive. } { done. }
  cbn [mbind result_bind]. rewrite Hrev in *. pose proof (len_nonneg rp').
  exists (if decide (rp' = []) then rest else Insert (reverse rp') :: rest), k.
  split_and!; [done|lia|lia|lia|done|]. split.
  - case_decide; [done|]. by constructor.
  - case_decide as Hnil.
    + subst rp'. rewrite len_nil in Hl. rewrite Hp1. f_equal. lia.
    + rewrite reverse_cons, produce_app, Hp1. cbn [produce flat_map insn_text]. rewrite app_nil_r, <- Hs.
      replace (bpos - k) with ((bpos - len p) + len rp') by lia. rewrite slice_split by lia.
      by rewrite Z.add_0_l.
Qed.

Lemma find_match_spec tab delta rolling lo :
  table_ok tab → 0 ≤ lo < len b → built delta lo →
  find_match mem a b tab delta rolling lo = Ok None ∨
  ∃ delta' apos n badvance tpos,
    find_match mem a b tab delta rolling lo = Ok (Some (delta', apos, n, badvance)) ∧
    0 < badvance ∧ 0 ≤ tpos ∧ tpos + badvance ≤ len a ∧ agrees tpos lo badvance ∧
    (lo + badvance ≤ len b → built (Copy apos n :: delta') (lo + badvance)) ∧
    0 ≤ apos ∧ 0 ≤ n ∧ apos + n ≤ len a.
Proof.
  intros Htab Hlo Hbuilt. unfold find_match. destruct (tab !! sum rolling) as [[tpos tlen]|] eqn:E; [|by left].
  destruct (Htab _ _ _ E) as (Ht & Htl & Hta).
  rewrite (proj2 (Z.ltb_lt tpos (len a))) by lia. rewrite (proj2 (Z.leb_le (tpos + tlen) (len a))) by lia.
  cbn [I_ mbind result_bind]. destruct (memcmp_eq mem a b tpos lo tlen) eqn:Em; [right|by left].
  apply memcmp_eq_spec in Em. destruct (extend_forward_agrees tpos lo tlen) as (Hn & Hna & Hag); [lia..|done|].
  set (badv := extend_forward mem b (drop (Z.to_nat (tpos + tlen)) a) (lo + tlen) tlen) in *.
  destruct (extend_into_insert_spec delta tpos lo badv) as (delta' & k & -> & Hk & Hk2 & Hag' & Hbuilt'); [lia|lia|done|done|].
  cbn [mbind result_bind]. rewrite (proj2 (memcmp_eq_spec _ _ _) Hag'). cbn [I_ mbind result_bind].
  exists delta', (tpos - k), (badv + k), badv, tpos. split_and!; [done|lia|lia|lia|done| |lia..].
  intros Hend. destruct Hbuilt' as [Hok Hp]. split.
  - constructor; [|done]. cbn [in_source]. lia.
  - rewrite reverse_cons, produce_app, Hp. cbn [produce flat_map insn_text]. rewrite app_nil_r.
    rewrite (agrees_slice (tpos - k) (lo - k) (badv + k)) by (done || lia).
    replace (lo + badv) with ((lo - k) + (badv + k)) by lia.
    rewrite (slice_split b 0 (lo - k)) by lia. by rewrite Z.add_0_l.
Qed.

Context (Hsize : len a + len b + 64 < 2 ^ 32).

Definition advance (lo badvance : Z) (rolling : adler32) : result (Z * adler32) :=
  '(lo', rolling) ← advance_small b lo badvance rolling;
  advance_skip b (u32 lo) badvance lo' rolling.

Lemma fst_roll n next rolling : (roll b n next rolling).1 = next + Z.of_nat n.
Proof.
  revert next rolling. induction n as [|n IH]; intros next rolling; cbn [roll]; [simpl; lia|].
  rewrite IH. lia.
Qed.

Lemma advance_ok lo badvance rolling :
  0 ≤ lo < len b → 0 < badvance → lo + badvance ≤ len b →
  ∃ rolling', advance lo badvance rolling = Ok (lo + badvance, rolling').
Proof.
  intros Hlo Hb Hend. unfold advance, advance_small, advance_skip, blocksz.
  change (64 / 2) with 32. pose proof (len_nonneg a).
  rewrite (u32_small lo) by lia. rewrite (u32_small (lo + badvance)) by lia.
  rewrite (u32_small (lo + badvance + 64)) by lia. rewrite (u32_small (len b)) by lia.
  set (hi := if len b <? lo + badvance + 64 then len b else lo + badvance + 64).
  assert (lo + badvance ≤ hi ≤ lo + badvance + 64 ∧ hi ≤ len b) as [Hhi Hhi']
    by (unfold hi; destruct (Z.ltb_spec (len b) (lo + badvance + 64)); lia).
  rewrite (proj2 (Z.leb_le (lo + badvance) hi)) by lia. cbn [I_ mbind result_bind].
  rewrite replace_with_spec by (rewrite len_slice; lia). cbn [mbind result_bind].
  destruct (Z.leb_spec badvance 64).
  - rewrite (proj2 (Z.ltb_lt lo (len b))), (proj2 (Z.ltb_lt (lo + badvance - 1) (len b))) by lia.
    cbn [andb I_ mbind result_bind]. destruct (roll b (Z.to_nat badvance) lo rolling) as [next r] eqn:E.
    pose proof (fst_roll (Z.to_nat badvance) lo rolling) as Hn. rewrite E in Hn. simpl in Hn.
    destruct (32 <=? badvance); [eauto|]. exists r. f_equal. f_equal. lia.
  - cbn [mbind result_bind]. rewrite (proj2 (Z.leb_le 32 badvance)) by lia. eauto.
Qed.

(** A match past the end of [b] does not go unnoticed. *)
Lemma advance_overread lo badvance rolling :
  0 ≤ lo < len b → badvance ≤ len a → len b < lo + badvance →
  advance lo badvance rolling = Err invariant_failure.
Proof.
  intros Hlo Hb Hend. unfold advance, advance_small, advance_skip, blocksz.
  change (64 / 2) with 32. destruct (Z.leb_spec badvance 64).
  - rewrite (proj2 (Z.ltb_ge (lo + badvance - 1) (len b))) by lia. by rewrite andb_false_r.
  - cbn [mbind result_bind]. rewrite (proj2 (Z.leb_le 32 badvance)) by lia. pose proof (len_nonneg a).
    rewrite (u32_small lo) by lia. rewrite (u32_small (lo + badvance)) by lia.
    rewrite (u32_small (lo + badvance + 64)) by lia. rewrite (u32_small (len b)) by lia.
    rewrite (proj2 (Z.ltb_lt (len b) _)) by lia. by rewrite (proj2 (Z.leb_gt _ _)) by lia.
Qed.

Lemma delta_step_eq tab lo rolling delta :
  delta_step mem a b tab lo rolling delta =
  m ← find_match mem a b tab delta rolling lo;
  match m with
  | Some (delta, apos, n, badvance) =>
      '(lo, rolling) ← advance lo badvance rolling; Ok (lo, rolling, copy_insn delta apos n)
  | None =>
      I_ (0 + 1 <=? len a) ;; I_ (1 <? blocksz) ;; I_ (lo <? len b) ;;
      let r := out rolling (char_at b lo) in
      let r := if lo + blocksz <? len b then in_ r (char_at b (lo + blocksz)) else r in
      Ok (lo + 1, r, insert_insn delta (char_at b lo))
  end.
Proof.
  unfold delta_step, advance.
  destruct (find_match mem a b tab delta rolling lo) as [[[[[d p] n] v]|]|]; [|done|done].
  cbn [mbind result_bind]. destruct (advance_small b lo v rolling) as [[l r]|]; [|done].
  done.
Qed.

Lemma built_insert delta lo :
  0 ≤ lo < len b → built delta lo → built (insert_insn delta (char_at b lo)) (lo + 1).
Proof.
  intros Hlo [Hok Hp].
  assert (slice b 0 (lo + 1) = slice b 0 lo ++ [char_at b lo]) as Hs.
  { rewrite (slice_snoc b 0 (lo + 1) (char_at b lo)); [|lia|lia|].
    - by replace (lo + 1 - 1) with lo by lia.
    - replace (0 + (lo + 1) - 1) with lo by lia. by apply lookup_char_at. }
  rewrite <- Hp in Hs. unfold built. rewrite Hs.
  assert (Forall (in_source (len a)) (Insert [char_at b lo] :: delta) ∧
    produce a (reverse (Insert [char_at b lo] :: delta)) = produce a (reverse delta) ++ [char_at b lo]) as Hnew.
  { split; [by constructor|]. by rewrite reverse_cons, produce_app. }
  destruct delta as [|[p|pos n] rest]; cbn [insert_insn]; [done| |done].
  apply Forall_cons in Hok as [_ Hok]. split; [by constructor|].
  rewrite !reverse_cons, !produce_app. cbn [produce flat_map insn_text].
  by rewrite !app_nil_r, app_assoc.
Qed.

Lemma delta_step_spec tab lo rolling delta :
  len a ≠ 0 → table_ok tab → 0 ≤ lo < len b → built delta lo →
  (delta_step mem a b tab lo rolling delta = Err invariant_failure ∧ NUL ∈ a) ∨
  ∃ lo' rolling' delta', delta_step mem a b tab lo rolling delta = Ok (lo', rolling', delta') ∧
    lo < lo' ≤ len b ∧ built delta' lo'.
Proof.
  intros Hna Htab Hlo Hbuilt. rewrite delta_step_eq. pose proof (len_nonneg a).
  destruct (find_match_spec tab delta rolling lo Htab Hlo Hbuilt)
    as [-> | (delta' & apos & n & badv & tpos & -> & Hb & Ht & Hta & Hag & Hbuilt' & Hap & Hn & Hapn)];
    cbn [mbind result_bind].
  - right. rewrite (proj2 (Z.leb_le (0 + 1) (len a))), (proj2 (Z.ltb_lt lo (len b))) by lia.
    cbn [I_ mbind result_bind]. change (1 <? blocksz) with true. cbn [I_ mbind result_bind].
    eexists _, _, _. split; [done|]. split; [lia|]. by apply built_insert.
  - destruct (Z.le_gt_cases (lo + badv) (len b)) as [Hend|Hend].
    + right. destruct (advance_ok lo badv rolling) as [r ->]; [done..|]. cbn [mbind result_bind].
      eexists _, _, _. split; [done|]. split; [lia|]. unfold copy_insn.
      rewrite (u32_small apos), (u32_small n) by lia. by apply Hbuilt'.
    + left. rewrite advance_overread by lia. split; [done|]. by eapply overread_nul; [..|exact Hag].
Qed.

Lemma delta_loop_spec fuel tab lo rolling delta :
  len a ≠ 0 → table_ok tab → 0 ≤ lo ≤ len b → len b - lo ≤ Z.of_nat fuel → built delta lo →
  (delta_loop mem a b fuel tab lo rolling delta = Err invariant_failure ∧ NUL ∈ a) ∨
  ∃ delta', delta_loop mem a b fuel tab lo rolling delta = Ok delta' ∧ built delta' (len b).
Proof.
  intros Hna Htab. revert lo rolling delta. induction fuel as [|fuel IH]; intros lo rolling delta Hlo Hf Hbuilt;
    cbn [delta_loop]; (destruct (Z.ltb_spec lo (len b));
      [|right; exists delta; split; [done|]; by replace (len b) with lo by lia]); [lia|].
  destruct (delta_step_spec tab lo rolling delta) as [[-> ?]|(lo' & r' & d' & -> & Hlo' & Hb')]; [done|done|lia|done|by left|].
  cbn [mbind result_bind]. apply IH; [lia|lia|done].
Qed.

Lemma inserts_built s delta lo :
  0 ≤ lo → lo + len s = len b → slice b lo (len s) = s → built delta lo →
  built (foldl insert_insn delta s) (len b).
Proof.
  revert delta lo. induction s as [|c s IH]; intros delta lo Hlo Hl Hs Hb; cbn [foldl].
  - rewrite len_nil in Hl. by replace (len b) with lo by lia.
  - rewrite len_cons in *. pose proof (len_nonneg s).
    rewrite (slice_cons b lo (1 + len s) (char_at b lo)) in Hs by (lia || (apply lookup_char_at; lia)).
    injection Hs as <- Hs. replace (1 + len s - 1) with (len s) in Hs by lia.
    apply (IH _ (lo + 1)); [lia|lia|done|]. apply built_insert; [lia|done].
Qed.

Lemma compute_delta_insns_spec :
  len a ≠ 0 →
  (compute_delta_insns mem a b = Err invariant_failure ∧ NUL ∈ a ∧ 64 ≤ len b) ∨
  ∃ l, compute_delta_insns mem a b = Ok l ∧ Forall (in_source (len a)) l ∧ produce a l = b.
Proof.
  intros Hna. unfold compute_delta_insns, init_match_table.
  destruct (init_loop_ok (length a) 0 ∅) as (tab & -> & Htab); [lia|unfold len; lia|by intros ??? ?|].
  cbn [mbind result_bind].
  assert (built [] 0) as Hnil by (split; [done|]; by rewrite slice_0).
  assert (∀ delta, built delta (len b) → ∃ l, Ok (reverse delta) = Ok l ∧ Forall (in_source (len a)) l ∧ produce a l = b)
    as Hfin.
  { intros delta [Hok Hp]. exists (reverse delta). split; [done|]. split.
    - by apply Forall_reverse.
    - rewrite Hp. apply slice_full. }
  unfold blocksz. destruct (Z.ltb_spec (len b) 64) as [Hs|Hs].
  - right. apply Hfin, (inserts_built b [] 0); [lia|lia|apply slice_full|done].
  - rewrite replace_with_spec by (rewrite len_slice; lia). cbn [mbind result_bind].
    destruct (delta_loop_spec (length b) tab 0 (checksum (slice b 0 64)) []) as [[-> ?]|(d & -> & Hd)];
      [done|done|lia|unfold len; lia|done|by left|].
    right. by apply Hfin.
Qed.
End search.

(** ** The round trip *)

Lemma compute_delta_spec mem a b :
  len a + len b + 64 < 2 ^ 32 →
  (compute_delta mem a b = Err invariant_failure ∧ NUL ∈ a ∧ 64 ≤ len b) ∨
  ∃ l, compute_delta mem a b = Ok (write_delta_insns l) ∧
    Forall insn_fits l ∧ Forall (in_source (len a)) l ∧ produce a l = b.
Proof.
  intros Hsize. pose proof (len_nonneg a). pose proof (len_nonneg b).
  assert (∀ l, Forall (in_source (len a)) l → produce a l = b → Forall insn_fits l) as Hfits.
  { intros l Hl Hp. apply Forall_forall. intros [p|pos n] Hin; cbn [insn_fits].
    - pose proof (produce_insert_len a l p Hin) as Hlen. rewrite Hp in Hlen. lia.
    - rewrite Forall_forall in Hl. specialize (Hl _ Hin). cbn [in_source] in Hl. lia. }
  assert (∀ l, Forall (in_source (len a)) l → produce a l = b →
    ∃ l', Ok (write_delta_insns l) = Ok (write_delta_insns l') ∧
      Forall insn_fits l' ∧ Forall (in_source (len a)) l' ∧ produce a l' = b) as Hdone by eauto 6.
  unfold compute_delta. destruct (bool_decide (a = [])) eqn:Ha; cbn [andb negb mbind result_bind].
  - apply bool_decide_eq_true in Ha. subst a. case_bool_decide as Hb; cbn [andb negb mbind result_bind].
    + subst b. right. apply Hdone; [|done]. constructor; [|constructor]. done.
    + right. apply Hdone; [by repeat constructor|]. cbn. apply app_nil_r.
  - apply bool_decide_eq_false in Ha. destruct (bool_decide (b = [])) eqn:Hb; cbn [andb negb mbind result_bind].
    + apply bool_decide_eq_true in Hb. subst b. right. apply Hdone; [|done].
      constructor; [|constructor]. cbn. lia.
    + apply bool_decide_eq_false in Hb. case_bool_decide as Hab; cbn [mbind result_bind I_].
      * subst b. right. rewrite u32_small by lia. apply Hdone; [constructor; [cbn [in_source]; lia|constructor]|].
        cbn [produce flat_map insn_text]. by rewrite app_nil_r, slice_full.
      * destruct (compute_delta_insns_spec mem a b Hsize) as [(-> & ? & ?)|(l & -> & Hl & Hp)];
          [by rewrite len_0|by left|right]. by apply Hdone.
Qed.

(** C28: a delta reproduces its target.  For inputs small enough for the [u32]
    positions, whatever lies in memory behind [b]: if [diff] returns a delta,
    [patch] of it onto [a] gives exactly [b]; and it does return one, within
    the loop bounds of the model, unless [b] has at least a block and [a]
    contains a NUL byte. *)
Theorem xdelta_roundtrip mem a b :
  len a + len b + 64 < 2 ^ 32 →
  (∀ del, diff mem a b = Ok del → patch a del = Ok b) ∧
  (NUL ∉ a ∨ len b < 64 → ∃ del, diff mem a b = Ok del).
Proof.
  intros Hsize. unfold diff, patch.
  destruct (compute_delta_spec mem a b Hsize) as [(-> & Hnul & Hlen)|(l & -> & Hf & Hs & Hp)].
  - split; [done|]. intros [?|?]; [done|lia].
  - split; [|eauto]. intros del [= <-]. rewrite apply_delta_write by done. by rewrite Hp.
Qed.

Definition ex_old : bytes := lit "the quick brown fox jumps over the lazy dog and then goes to sleep in the shade".
Definition ex_new : bytes := lit "Now: the quick brown fox jumps over the lazy dog and then goes to sleep in the sun".

Lemma xdelta_roundtrip_witness :
  ∃ del, diff (λ _, NUL) ex_old ex_new = Ok del ∧ patch ex_old del = Ok ex_new.
Proof.
  destruct (xdelta_roundtrip (λ _, NUL) ex_old ex_new) as [Hsound Htotal]; [vm_compute; reflexivity|].
  destruct Htotal as [del Hdel].
  - left. assert (bool_decide (NUL ∈ ex_old) = false) as H by (vm_compute; reflexivity).
    by apply bool_decide_eq_false in H.
  - exists del. split; [exact Hdel|]. apply Hsound, Hdel.
Defined.

(** ** Reading past the end of the new text *)

(** A 64-byte block of [a] that extends the last 32 bytes of [b] by NULs and
    has the checksum of those 32 bytes. *)
Definition ex_tail : bytes := replicate 31 "@"%char ++ ["?"%char].
Definition ex_block : bytes := ex_tail ++ replicate 32 NUL.
Definition ex_text : bytes := replicate 64 "A"%char ++ ex_tail.

(** The comparison in [find_match] can run past the end of [b].  There is a
    text without any NUL byte, and an old text, for which the outcome of
    [diff] depends on the memory behind the new text: zeros there make it fail
    an invariant, other bytes let it succeed.  The checksum of the shrinking
    window at the end of [b] can equal that of a longer block of [a], whose
    full length [memcmp] then compares. *)
Example find_match_overread :
  NUL ∉ ex_text ∧
  diff (λ _, NUL) ex_block ex_text = Err invariant_failure ∧
  (del ← diff (λ _, "!"%char) ex_block ex_text; patch ex_block del) = Ok ex_text.
Proof.
  split; [|split].
  - assert (bool_decide (NUL ∈ ex_text) = false) as H by (vm_compute; reflexivity).
    by apply bool_decide_eq_false in H.
  - vm_compute. reflexivity.
  - vm_compute. reflexivity.
Qed.
