(* ===== verification/XdeltaPieces.v ===== *)
(** * The piecewise applicator ([src/src/xdelta.cc], second part)

    [piecewise_applicator] follows a chain of deltas without building the
    intermediate texts: a version is a list of chunks of pieces, and copies
    only move chunks.  It is shown to simulate [simple_applicator]. *)

From S2P Require Import Prelude Numbers Xdelta XdeltaRoundtrip.

Record chunk := Chunk { clen : Z; piece : Z; vpos : Z; ppos : Z }.

Definition subchunk (c : chunk) (vp ln offset : Z) : result chunk :=
  I_ (ppos c <=? u64 (ppos c + offset)) ;;
  I_ (u64 (ppos c + offset + ln) <=? u64 (ppos c + clen c)) ;;
  Ok (Chunk ln (piece c) vp (u64 (ppos c + offset))).

Abbreviation version_spec := (list chunk).
Abbreviation piece_table := (list bytes).

Definition pt_insert (pt : piece_table) (p : bytes) : piece_table * Z :=
  (pt ++ [p], Z.of_nat (length pt)).

Definition pt_append (pt : piece_table) (targ : bytes) (p pp ln : Z) : result bytes :=
  I_ (p <? Z.of_nat (length pt)) ;;
  append_sub targ (default [] (pt !! Z.to_nat p)) pp ln.

(** [piece_table::build]; the sum of the lengths is only used to reserve space. *)
Definition build (pt : piece_table) (spec : version_spec) : result bytes :=
  foldM (λ out i, pt_append pt out (piece i) (ppos i) (clen i)) spec [].

(** Where the next chunk of [out] goes. *)
Definition next_vpos (out : version_spec) : Z :=
  match last out with Some c => u64 (vpos c + clen c) | None => 0 end.

Definition apply_insert (pt : piece_table) (out : version_spec) (str : bytes) :
    piece_table * version_spec :=
  let '(pt, p) := pt_insert pt str in
  (pt, out ++ [Chunk (len str) p (next_vpos out) 0]).

Definition chunk_less_than (ch1 ch2 : chunk) : bool := u64 (vpos ch1 + clen ch1 - 1) <? vpos ch2.

(** [std::lower_bound]: a binary search over [n] elements from [first]. *)
Fixpoint lower_bound (fuel : nat) (l : version_spec) (first n : nat) (v : chunk) : nat :=
  match fuel with
  | O => first
  | S fuel =>
      if (n =? 0)%nat then first
      else
        let half := (n / 2)%nat in
        match l !! (first + half)%nat with
        | Some c =>
            if chunk_less_than c v then lower_bound fuel l (S (first + half)) (n - half - 1) v
            else lower_bound fuel l first half v
        | None => first
        end
  end.

(** The loop of [apply_copy], from the chunk [lo] on. *)
Fixpoint copy_chunks (lo : version_spec) (out : version_spec) (src_vpos dst_vpos src_len : Z) :
    result (version_spec * Z * Z * Z) :=
  if 0 <? src_len then
    match lo with
    | [] => Err invariant_failure
    | c :: lo =>
        let src_end := Z.min (u64 (src_vpos + src_len)) (u64 (vpos c + clen c)) in
        let offset := u64 (src_vpos - vpos c) in
        let seglen := u64 (src_end - src_vpos) in
        I_ (0 <? seglen) ;;
        I_ (vpos c <=? src_vpos) ;;
        I_ (u64 (src_vpos + seglen) <=? u64 (vpos c + clen c)) ;;
        sub ← subchunk c dst_vpos seglen offset;
        let out := out ++ [sub] in
        let src_vpos := u64 (src_vpos + seglen) in
        let dst_vpos := u64 (dst_vpos + seglen) in
        I_ (seglen <=? src_len) ;;
        I_ (u64 (vpos sub + clen sub) =? dst_vpos) ;;
        copy_chunks lo out src_vpos dst_vpos (src_len - seglen)
    end
  else Ok (out, src_vpos, dst_vpos, src_len).

Definition apply_copy (in_ out : version_spec) (src_vpos src_len : Z) : result version_spec :=
  let src_final := u64 (src_vpos + src_len) in
  let dst_vpos := next_vpos out in
  let dst_final := u64 (dst_vpos + src_len) in
  let lo := lower_bound (length in_) in_ 0 (length in_) (Chunk 0 0 src_vpos 0) in
  '(out, src_vpos, dst_vpos, src_len) ← copy_chunks (drop lo in_) out src_vpos dst_vpos src_len;
  I_ (src_vpos =? src_final) ;;
  I_ (dst_vpos =? dst_final) ;;
  I_ (src_len =? 0) ;;
  Ok out.

Record piecewise_applicator := Piecewise {
  pt : piece_table;
  psrc : version_spec;
  pdst : version_spec
}.

#[export] Instance piecewise_delta_applicator : DeltaApplicator piecewise_applicator := {|
  da_begin _ base :=
    let '(pt, p) := pt_insert [] base in Piecewise pt [Chunk (len base) p 0 0] [];
  da_next d := Piecewise (pt d) (pdst d) [];
  da_finish d := build (pt d) (psrc d);
  da_copy d pos n := x ← apply_copy (psrc d) (pdst d) pos n; Ok (Piecewise (pt d) (psrc d) x);
  da_insert d str := let '(pt, x) := apply_insert (pt d) (pdst d) str in Ok (Piecewise pt (psrc d) x)
|}.

(** ** The text of a version *)

Definition chunk_text (pt : piece_table) (c : chunk) : bytes :=
  slice (default [] (pt !! Z.to_nat (piece c))) (ppos c) (clen c).
Definition text (pt : piece_table) (spec : version_spec) : bytes := flat_map (chunk_text pt) spec.

Definition chunk_ok (pt : piece_table) (c : chunk) : Prop :=
  0 ≤ clen c ∧ 0 ≤ ppos c ∧ 0 ≤ piece c ∧
  ∃ p, pt !! Z.to_nat (piece c) = Some p ∧ ppos c + clen c ≤ len p ∧ len p < 2 ^ 63.

(** The chunks lie one after the other from [start]. *)
Fixpoint contiguous (pt : piece_table) (start : Z) (spec : version_spec) : Prop :=
  match spec with
  | [] => True
  | c :: spec => vpos c = start ∧ chunk_ok pt c ∧ contiguous pt (start + clen c) spec
  end.

Lemma len_chunk_text pt c : chunk_ok pt c → len (chunk_text pt c) = clen c.
Proof.
  intros (Hc & Hp & _ & p & E & Hl & _). unfold chunk_text. rewrite E. simpl. apply len_slice; lia.
Qed.

Lemma text_app pt l1 l2 : text pt (l1 ++ l2) = text pt l1 ++ text pt l2.
Proof. apply flat_map_app. Qed.

Lemma contiguous_app pt start l1 l2 :
  contiguous pt start (l1 ++ l2) ↔ contiguous pt start l1 ∧ contiguous pt (start + len (text pt l1)) l2.
Proof.
  revert start. induction l1 as [|c l1 IH]; intros start; cbn [app contiguous].
  - cbn. rewrite Z.add_0_r. tauto.
  - rewrite IH. cbn [text flat_map]. rewrite len_app. split.
    + intros (? & Hc & ? & Hr). rewrite len_chunk_text by done.
      by replace (start + (clen c + len (flat_map (chunk_text pt) l1)))
        with (start + clen c + len (text pt l1)) by (unfold text; lia).
    + intros ((? & Hc & ?) & Hr). rewrite len_chunk_text in Hr by done.
      by replace (start + (clen c + len (flat_map (chunk_text pt) l1)))
        with (start + clen c + len (text pt l1)) in Hr by (unfold text; lia).
Qed.

Lemma contiguous_ok pt start l c : contiguous pt start l → c ∈ l → chunk_ok pt c.
Proof.
  revert start. induction l as [|x l IH]; intros start Hl Hin; [by apply not_elem_of_nil in Hin|].
  destruct Hl as (_ & Hx & Hl). apply elem_of_cons in Hin as [->|Hin]; eauto.
Qed.

Lemma build_text pt spec start :
  contiguous pt start spec → build pt spec = Ok (text pt spec).
Proof.
  unfold build.
  enough (∀ out, contiguous pt start spec →
    foldM (λ out i, pt_append pt out (piece i) (ppos i) (clen i)) spec out = Ok (out ++ text pt spec)) as H
    by (intros; by rewrite H).
  revert start. induction spec as [|c spec IH]; intros start out Hc; [by cbn; rewrite app_nil_r|].
  destruct Hc as (_ & (H1 & H2 & H3 & p & E & Hl & _) & Hc). cbn [foldM text flat_map].
  unfold pt_append. pose proof (lookup_lt_Some _ _ _ E).
  rewrite (proj2 (Z.ltb_lt (piece c) (Z.of_nat (length pt)))) by lia. cbn [I_ mbind result_bind].
  rewrite E. change (default [] (Some p)) with p. rewrite append_sub_slice by lia. cbn [mbind result_bind].
  rewrite (IH _ _ Hc), <- app_assoc. do 3 f_equal. unfold chunk_text. by rewrite E.
Qed.

Lemma chunk_ok_grow pt p c : chunk_ok pt c → chunk_ok (pt ++ [p]) c.
Proof.
  intros (H1 & H2 & H3 & q & E & Hl & Hb). split_and!; [done..|]. exists q.
  split_and!; [|done..]. by apply lookup_app_l_Some.
Qed.

Lemma contiguous_grow pt p start spec : contiguous pt start spec → contiguous (pt ++ [p]) start spec.
Proof.
  revert start. induction spec as [|c spec IH]; intros start; [done|].
  intros (? & ? & ?). cbn [contiguous]. auto using chunk_ok_grow.
Qed.

Lemma text_grow pt p start spec : contiguous pt start spec → text (pt ++ [p]) spec = text pt spec.
Proof.
  revert start. induction spec as [|c spec IH]; intros start; [done|].
  intros (_ & (_ & _ & _ & q & E & _) & Hc). cbn [text flat_map]. fold (text (pt ++ [p]) spec).
  rewrite (IH _ Hc). f_equal. unfold chunk_text.
  by rewrite E, (lookup_app_l_Some _ _ _ _ E).
Qed.

Lemma next_vpos_text pt out :
  contiguous pt 0 out → len (text pt out) < 2 ^ 63 → next_vpos out = len (text pt out).
Proof.
  intros Hc Hb. unfold next_vpos. destruct out as [|c out _] using rev_ind; [done|].
  rewrite last_snoc. apply contiguous_app in Hc as [_ (Hv & Hok & _)].
  rewrite text_app, len_app in *. cbn [text flat_map] in *. rewrite app_nil_r in *.
  rewrite len_chunk_text in * by done. pose proof (len_nonneg (flat_map (chunk_text pt) out)).
  destruct Hok as (? & _). rewrite Hv. apply u64_small. unfold text in *. lia.
Qed.

(** ** Finding the chunk that holds a position *)

Definition positive (spec : version_spec) : Prop := Forall (λ c, 0 < clen c) spec.

Lemma lower_bound_split fuel l1 l2 v first n :
  (∀ c, c ∈ l1 → chunk_less_than c v = true) → (∀ c, c ∈ l2 → chunk_less_than c v = false) →
  (first ≤ length l1 ≤ first + n)%nat → (first + n ≤ length (l1 ++ l2))%nat → (n ≤ fuel)%nat →
  lower_bound fuel (l1 ++ l2) first n v = length l1.
Proof.
  intros H1 H2. revert first n. induction fuel as [|fuel IH]; intros first n Hl Hn Hf; cbn [lower_bound]; [lia|].
  destruct (Nat.eqb_spec n 0) as [->|Hn0]; [lia|].
  assert (n / 2 < n)%nat as Hhalf by (apply Nat.div_lt; lia).
  destruct (lookup_lt_is_Some_2 (l1 ++ l2) (first + n / 2)) as [c Hc]; [lia|]. rewrite Hc.
  apply lookup_app_Some in Hc as [Hc|[Hge Hc]].
  - pose proof (lookup_lt_Some _ _ _ Hc). rewrite H1 by (by eapply list_elem_of_lookup_2). apply IH; lia.
  - rewrite H2 by (by eapply list_elem_of_lookup_2). apply IH; lia.
Qed.

Lemma find_chunk pt start l v :
  contiguous pt start l → positive l → start ≤ v < start + len (text pt l) →
  ∃ l1 c l2, l = l1 ++ c :: l2 ∧ vpos c ≤ v < vpos c + clen c ∧
    (∀ x, x ∈ l1 → vpos x + clen x ≤ v) ∧ (∀ x, x ∈ c :: l2 → v < vpos x + clen x).
Proof.
  revert start. induction l as [|c l IH]; intros start Hc Hp Hv; [cbn [text flat_map] in Hv; rewrite len_nil in Hv; lia|].
  destruct Hc as (Hs & Hok & Hc). apply Forall_cons in Hp as [Hc0 Hp].
  cbn [text flat_map] in Hv. rewrite len_app, len_chunk_text in Hv by done.
  destruct (decide (v < start + clen c)) as [Hlt|Hge].
  - exists [], c, l. split_and!; [done|lia|lia|by intros ? ?%not_elem_of_nil|].
    intros x [->|Hx]%elem_of_cons; [lia|].
    enough (∀ s, contiguous pt s l → x ∈ l → s < vpos x + clen x) as Hlater by (specialize (Hlater _ Hc Hx); lia).
    clear - Hp. induction l as [|y l IH]; intros s Hs Hx; [by apply not_elem_of_nil in Hx|].
    destruct Hs as (<- & Hy & Hs). apply Forall_cons in Hp as [Hy0 Hp].
    apply elem_of_cons in Hx as [->|Hx]; [lia|]. specialize (IH Hp _ Hs Hx). lia.
  - destruct (IH (start + clen c) Hc Hp) as (l1 & c' & l2 & -> & Hv' & H1 & H2); [unfold text in *; lia|].
    exists (c :: l1), c', l2. split_and!; [done|lia|lia| |done].
    intros x [->|Hx]%elem_of_cons; [lia|auto].
Qed.

Lemma contiguous_bounds pt start l c :
  contiguous pt start l → 0 ≤ start → c ∈ l → 0 ≤ vpos c ∧ vpos c + clen c ≤ start + len (text pt l).
Proof.
  revert start. induction l as [|y l IH]; intros start Hc Hs Hin; [by apply not_elem_of_nil in Hin|].
  destruct Hc as (Hv & Hok & Hc). cbn [text flat_map]. rewrite len_app, len_chunk_text by done.
  pose proof (len_nonneg (flat_map (chunk_text pt) l)). destruct Hok as (Hcl & _).
  apply elem_of_cons in Hin as [->|Hin]; [lia|]. destruct (IH _ Hc ltac:(lia) Hin). unfold text in *. lia.
Qed.

Lemma chunk_less_spec c v :
  0 ≤ vpos c → 0 < clen c → vpos c + clen c < 2 ^ 63 →
  chunk_less_than c (Chunk 0 0 v 0) = bool_decide (vpos c + clen c ≤ v).
Proof.
  intros. unfold chunk_less_than. cbn [vpos]. rewrite u64_small by lia.
  case_bool_decide; [apply Z.ltb_lt; lia|apply Z.ltb_ge; lia].
Qed.

Lemma lower_bound_find pt l v :
  contiguous pt 0 l → positive l → len (text pt l) < 2 ^ 63 → 0 ≤ v < len (text pt l) →
  ∃ l1 c l2, l = l1 ++ c :: l2 ∧ vpos c ≤ v < vpos c + clen c ∧
    drop (lower_bound (length l) l 0 (length l) (Chunk 0 0 v 0)) l = c :: l2.
Proof.
  intros Hc Hp Hb Hv. destruct (find_chunk pt 0 l v) as (l1 & c & l2 & E & Hvc & H1 & H2); [done|done|lia|].
  exists l1, c, l2. split; [done|]. split; [done|].
  assert (∀ x, x ∈ l → chunk_less_than x (Chunk 0 0 v 0) = bool_decide (vpos x + clen x ≤ v)) as Hless.
  { intros x Hx. destruct (contiguous_bounds pt 0 l x) as [? ?]; [done..|].
    apply chunk_less_spec; [lia| |lia]. unfold positive in Hp. rewrite Forall_forall in Hp. by apply Hp. }
  subst l. rewrite lower_bound_split; [by rewrite drop_app_length| | |rewrite ?length_app; lia..].
  - intros x Hx. rewrite Hless by (apply elem_of_app; by left). by apply bool_decide_eq_true, H1.
  - intros x Hx. rewrite Hless by (apply elem_of_app; by right). apply bool_decide_eq_false. specialize (H2 x Hx). lia.
Qed.

(** ** Copying *)

Definition sub_of (c : chunk) (vp ln offset : Z) : chunk := Chunk ln (piece c) vp (ppos c + offset).

Lemma subchunk_Ok pt c vp ln offset :
  chunk_ok pt c → 0 ≤ offset → 0 ≤ ln → offset + ln ≤ clen c →
  subchunk c vp ln offset = Ok (sub_of c vp ln offset) ∧ chunk_ok pt (sub_of c vp ln offset) ∧
  chunk_text pt (sub_of c vp ln offset) = slice (chunk_text pt c) offset ln.
Proof.
  intros (H1 & H2 & H3 & p & E & Hl & Hb) Ho Hln Hle. unfold subchunk, sub_of.
  rewrite !u64_small by lia.
  rewrite (proj2 (Z.leb_le (ppos c) _)), (proj2 (Z.leb_le (ppos c + offset + ln) _)) by lia.
  split; [done|]. split.
  - split_and!; cbn [clen ppos piece]; [lia..|]. exists p. split_and!; [done|lia|done].
  - unfold chunk_text. cbn [clen ppos piece]. rewrite E. change (default [] (Some p)) with p.
    unfold slice. rewrite Z2Nat.inj_add by lia. rewrite <- drop_drop, skipn_firstn_comm, firstn_firstn. f_equal. lia.
Qed.

Lemma slice_across s t off n :
  0 ≤ off → off ≤ len s → 0 ≤ n →
  slice (s ++ t) off ((len s - off) + n) = slice s off (len s - off) ++ slice t 0 n.
Proof.
  intros. rewrite slice_split by lia. f_equal; [apply slice_app_l; lia|].
  replace (off + (len s - off)) with (len s) by lia. by apply slice_app_r.
Qed.

Lemma copy_chunks_spec pt lo out start src_vpos src_len :
  contiguous pt start lo → positive lo → 0 ≤ start → start + len (text pt lo) < 2 ^ 63 →
  contiguous pt 0 out → len (text pt out) + src_len < 2 ^ 63 → 0 ≤ src_len → 0 ≤ src_vpos < 2 ^ 63 →
  (0 < src_len → start ≤ src_vpos ∧ src_vpos + src_len ≤ start + len (text pt lo) ∧
     match lo with c :: _ => src_vpos < start + clen c | [] => False end) →
  ∃ new, copy_chunks lo out src_vpos (len (text pt out)) src_len =
      Ok (out ++ new, src_vpos + src_len, len (text pt out) + src_len, 0) ∧
    contiguous pt 0 (out ++ new) ∧ positive new ∧
    text pt new = slice (text pt lo) (src_vpos - start) src_len.
Proof.
  revert out start src_vpos src_len.
  induction lo as [|c lo IH]; intros out start src_vpos src_len Hc Hp Hs Hb Hout Hob Hl Hv Hpre;
    cbn [copy_chunks]; (destruct (Z.ltb_spec 0 src_len) as [Hpos|Hz];
    [|assert (src_len = 0) as -> by lia; exists []; rewrite !Z.add_0_r, app_nil_r, slice_0; split_and!; [done|done|constructor|done]]).
  { destruct (Hpre Hpos) as (_ & _ & []). }
  destruct (Hpre Hpos) as (H1 & H2 & H3). clear Hpre. destruct Hc as (Hvc & Hok & Hc).
  apply Forall_cons in Hp as [Hc0 Hp]. cbn [text flat_map] in *. fold (text pt lo) in *.
  rewrite len_app, len_chunk_text in * by done. pose proof (len_nonneg (text pt lo)).
  pose proof (len_nonneg (text pt out)). rewrite Hvc.
  rewrite (u64_small (src_vpos + src_len)), (u64_small (start + clen c)), (u64_small (src_vpos - start)) by lia.
  set (seg := Z.min (src_vpos + src_len) (start + clen c) - src_vpos).
  assert (0 < seg ∧ seg ≤ src_len ∧ src_vpos - start + seg ≤ clen c) as (Hseg & Hsegl & Hsegc) by (unfold seg; lia).
  rewrite (u64_small seg) by lia. rewrite !(u64_small (src_vpos + seg)) by lia.
  rewrite (proj2 (Z.ltb_lt 0 seg)), (proj2 (Z.leb_le start src_vpos)), (proj2 (Z.leb_le (src_vpos + seg) _)) by lia.
  cbn [I_ mbind result_bind].
  destruct (subchunk_Ok pt c (len (text pt out)) seg (src_vpos - start)) as (-> & Hsok & Hst); [done|lia..|].
  set (sub := sub_of c (len (text pt out)) seg (src_vpos - start)) in *.
  change (clen sub) with seg. change (vpos sub) with (len (text pt out)).
  cbn [mbind result_bind]. rewrite (proj2 (Z.leb_le seg src_len)) by lia. cbn [I_ mbind result_bind].
  change (clen sub) with seg. change (vpos sub) with (len (text pt out)).
  rewrite Z.eqb_refl. cbn [I_ mbind result_bind].
  rewrite (u64_small (len (text pt out) + seg)) by lia.
  assert (len (text pt (out ++ [sub])) = len (text pt out) + seg) as Hout1.
  { rewrite text_app, len_app. cbn [text flat_map]. rewrite app_nil_r. by rewrite (len_chunk_text pt sub). }
  rewrite <- Hout1.
  destruct (IH (out ++ [sub]) (start + clen c) (src_vpos + seg) (src_len - seg))
    as (new & E & Hcn & Hpn & Htn); [done|done|lia|lia| |lia|lia|lia| |].
  { apply contiguous_app. split; [done|]. cbn [contiguous]. rewrite Z.add_0_l. done. }
  { intros Hrem. assert (src_vpos + seg = start + clen c) by (unfold seg in *; lia). split_and!; [lia|lia|].
    destruct lo as [|d lo]; [cbn [text flat_map] in *; rewrite len_nil in *; lia|]. apply Forall_cons in Hp as [? _]. lia. }
  exists (sub :: new). rewrite E. rewrite <- app_assoc in *. cbn [app] in *. split_and!.
  - replace (src_vpos + seg + (src_len - seg)) with (src_vpos + src_len) by lia.
    by replace (len (text pt (out ++ [sub])) + (src_len - seg)) with (len (text pt out) + src_len) by lia.
  - done.
  - by constructor.
  - cbn [text flat_map]. fold (text pt new). rewrite Htn, Hst.
    destruct (decide (src_len = seg)) as [Heq|Hne].
    + rewrite Heq, Z.sub_diag, slice_0, app_nil_r. rewrite slice_app_l; [done|lia|lia|]. rewrite len_chunk_text by done. lia.
    + assert (src_vpos + seg = start + clen c) by (unfold seg in *; lia).
      replace (src_vpos + seg - (start + clen c)) with 0 by lia.
      replace src_len with ((len (chunk_text pt c) - (src_vpos - start)) + (src_len - seg)) at 2
        by (rewrite len_chunk_text by done; lia).
      rewrite slice_across by (rewrite ?len_chunk_text by done; lia). do 2 f_equal.
      rewrite len_chunk_text by done. lia.
Qed.

Lemma apply_copy_spec pt in_ out pos n :
  contiguous pt 0 in_ → positive in_ → len (text pt in_) < 2 ^ 63 →
  contiguous pt 0 out → len (text pt out) + n < 2 ^ 63 →
  0 ≤ pos → 0 < n → pos + n ≤ len (text pt in_) →
  ∃ new, apply_copy in_ out pos n = Ok (out ++ new) ∧ contiguous pt 0 (out ++ new) ∧ positive new ∧
    text pt new = slice (text pt in_) pos n.
Proof.
  intros Hin Hp Hb Hout Hob Hpos Hn Hle. pose proof (len_nonneg (text pt out)). unfold apply_copy.
  rewrite (next_vpos_text pt) by (done || lia). rewrite (u64_small (pos + n)), (u64_small (len _ + n)) by lia.
  destruct (lower_bound_find pt in_ pos) as (l1 & c & l2 & E & Hv & ->); [done|done|done|lia|].
  pose proof Hin as Hin'. rewrite E in Hin'. apply contiguous_app in Hin' as [Hl1 Hl2]. rewrite Z.add_0_l in Hl2.
  assert (vpos c = len (text pt l1)) as Hvc by (by destruct Hl2).
  unfold positive in Hp. rewrite E in Hp. apply Forall_app in Hp as [_ Hp].
  assert (len (text pt in_) = len (text pt l1) + len (text pt (c :: l2))) as Hlen by (by rewrite E, text_app, len_app).
  pose proof (len_nonneg (text pt l1)).
  destruct (copy_chunks_spec pt (c :: l2) out (len (text pt l1)) pos n) as (new & -> & Hcn & Hpn & Htn);
    [done|done|lia|lia|done|lia|lia|lia|lia|].
  cbn [mbind result_bind]. rewrite !Z.eqb_refl. cbn [I_ mbind result_bind].
  exists new. split_and!; [done..|]. rewrite Htn. rewrite E at 1. rewrite text_app.
  unfold slice. f_equal. replace (Z.to_nat pos) with (length (text pt l1) + Z.to_nat (pos - len (text pt l1)))%nat
    by (unfold len in *; lia). by rewrite <- drop_drop, drop_app_length.
Qed.

(** ** The simulation *)

Record sim (pw : piecewise_applicator) (sa : simple_applicator) : Prop := {
  sim_src : contiguous (pt pw) 0 (psrc pw);
  sim_src_text : text (pt pw) (psrc pw) = src sa;
  sim_src_pos : src sa ≠ [] → positive (psrc pw);
  sim_src_len : len (src sa) < 2 ^ 63;
  sim_dst : contiguous (pt pw) 0 (pdst pw);
  sim_dst_text : text (pt pw) (pdst pw) = dst sa;
  sim_dst_pos : positive (pdst pw)
}.

Lemma sim_begin pw sa base : len base < 2 ^ 63 → sim (da_begin pw base) (da_begin sa base).
Proof.
  intros Hb. pose proof (len_nonneg base).
  assert (chunk_ok [base] (Chunk (len base) 0 0 0)) as Hok.
  { split_and!; cbn [clen ppos piece]; [lia..|]. exists base. split_and!; [done|lia|done]. }
  constructor; cbn -[len text Z.pow]; try done.
  - unfold text. cbn [flat_map chunk_text]. rewrite app_nil_r. unfold chunk_text. cbn. apply slice_full.
  - intros Hne. constructor; [|constructor]. cbn [clen]. rewrite <- len_0 in Hne. lia.
  - constructor.
Qed.

Lemma sim_next pw sa : sim pw sa → len (dst sa) < 2 ^ 63 → sim (da_next pw) (da_next sa).
Proof. intros [] Hb. constructor; cbn; try done. constructor. Qed.

Lemma sim_finish pw sa : sim pw sa → da_finish pw = da_finish sa.
Proof. intros H. cbn. rewrite (build_text _ _ 0) by apply H. by rewrite (sim_src_text _ _ H). Qed.

Lemma sim_insert pw sa str :
  sim pw sa → str ≠ [] → len (dst sa) + len str < 2 ^ 63 →
  ∃ pw', da_insert pw str = Ok pw' ∧ sim pw' (SimpleApplicator (src sa) (dst sa ++ str)).
Proof.
  intros [H1 H2 H3 H4 H5 H6 H7] Hne Hb. pose proof (len_nonneg str). pose proof (len_nonneg (dst sa)).
  eexists. split; [done|].
  assert (chunk_ok (pt pw ++ [str]) (Chunk (len str) (Z.of_nat (length (pt pw))) (next_vpos (pdst pw)) 0)) as Hok.
  { split_and!; cbn [clen ppos piece]; [lia..|]. exists str. rewrite Nat2Z.id, list_lookup_middle by done.
    split_and!; [done|lia|lia]. }
  constructor; cbn [pt psrc pdst src dst].
  - by apply contiguous_grow.
  - by rewrite (text_grow _ _ 0).
  - done.
  - done.
  - apply contiguous_app. split; [by apply contiguous_grow|]. rewrite (text_grow _ _ 0), H6 by done.
    cbn [contiguous]. rewrite (next_vpos_text (pt pw)) in * by (rewrite ?H6; done || lia). rewrite H6 in *.
    split_and!; [done|done|done].
  - rewrite text_app, (text_grow _ _ 0), H6 by done. f_equal. cbn [text flat_map].
    rewrite app_nil_r. unfold chunk_text. cbn [piece ppos clen].
    rewrite Nat2Z.id, list_lookup_middle by done. apply slice_full.
  - apply Forall_app. split; [done|]. constructor; [|constructor]. cbn [clen]. rewrite <- len_0 in Hne. lia.
Qed.

Lemma sim_copy pw sa pos n :
  sim pw sa → 0 ≤ pos → 0 < n → pos + n ≤ len (src sa) → len (dst sa) + n < 2 ^ 63 →
  ∃ pw', da_copy pw pos n = Ok pw' ∧ sim pw' (SimpleApplicator (src sa) (dst sa ++ slice (src sa) pos n)).
Proof.
  intros [H1 H2 H3 H4 H5 H6 H7] Hpos Hn Hle Hb.
  assert (src sa ≠ []) as Hne by (rewrite <- len_0; lia).
  destruct (apply_copy_spec (pt pw) (psrc pw) (pdst pw) pos n) as (new & E & Hc & Hp & Ht);
    rewrite ?H2, ?H6; auto. cbn [da_copy piecewise_delta_applicator]. rewrite E. eexists. split; [done|].
  constructor; cbn [pt psrc pdst src dst]; try done.
  - rewrite text_app, H6, Ht. by rewrite H2.
  - apply Forall_app. by split.
Qed.

Lemma sim_run l pw a d :
  sim pw (SimpleApplicator a d) → Forall (in_source (len a)) l → len (d ++ produce a l) < 2 ^ 63 →
  ∃ pw', foldM run_insn l pw = Ok pw' ∧ sim pw' (SimpleApplicator a (d ++ produce a l)).
Proof.
  revert pw d. induction l as [|i l IH]; intros pw d Hsim Hl Hb.
  { exists pw. split; [done|]. by rewrite app_nil_r. }
  apply Forall_cons in Hl as [Hi Hl]. cbn [foldM produce flat_map] in *. fold (produce a l) in *.
  assert (∃ pw', run_insn pw i = Ok pw' ∧ sim pw' (SimpleApplicator a (d ++ insn_text a i))) as (pw' & -> & Hsim').
  { rewrite !len_app in Hb. pose proof (len_nonneg (produce a l)).
    destruct i as [p|pos n]; cbn [run_insn insn_text in_source] in *.
    - case_decide; [subst; rewrite app_nil_r; eauto|].
      destruct (sim_insert pw _ p Hsim) as (pw' & E & Hs); [done|cbn [dst]; lia|eauto].
    - case_decide; [subst; rewrite slice_0, app_nil_r; eauto|]. destruct Hi as (? & ? & ?).
      rewrite len_slice in Hb by lia.
      destruct (sim_copy pw _ pos n Hsim) as (pw' & E & Hs); [done|lia|done|cbn [dst]; lia|eauto]. }
  cbn [mbind result_bind]. rewrite app_assoc in *. by apply IH.
Qed.

(** ** Chains of deltas

    What [database_impl::get_version] does with its applicator: start from a
    stored text and follow the deltas one by one. *)

Definition apply_chain {D} `{!DeltaApplicator D} (d0 : D) (base : bytes) (deltas : list bytes) :
    result bytes :=
  da ← foldM (λ da del, da ← apply_delta_to da del; Ok (da_next da)) deltas (da_begin d0 base);
  da_finish da.

Lemma last_cons_default {A} (l : list A) x y : List.last (x :: l) y = List.last l x.
Proof. revert x. induction l as [|z l IH]; intros x; [done|]. cbn [List.last]. destruct l; [done|]. apply IH. Qed.

(** [deltas] are [diff]s between consecutive versions. *)
Fixpoint delta_chain (mem : nat → ascii) (v : bytes) (versions deltas : list bytes) : Prop :=
  match versions, deltas with
  | [], [] => True
  | w :: versions, del :: deltas => diff mem v w = Ok del ∧ delta_chain mem w versions deltas
  | _, _ => False
  end.

(** The simple applicator builds every version of the chain. *)
Lemma chain_simple mem v versions deltas :
  delta_chain mem v versions deltas → Forall (λ w, len w < 2 ^ 30) (v :: versions) →
  foldM (λ da del, da ← apply_delta_to da del; Ok (da_next da)) deltas (SimpleApplicator v []) =
    Ok (SimpleApplicator (List.last versions v) []).
Proof.
  revert v deltas. induction versions as [|w versions IH]; intros v [|del deltas] Hc Hb; try done.
  destruct Hc as [Hd Hc]. apply Forall_cons in Hb as [Hv Hb]. pose proof Hb as [Hw _]%Forall_cons.
  destruct (compute_delta_spec mem v w) as [(E & _)|(l & E & Hf & Hs & Hp)];
    [lia|unfold diff in Hd; congruence|]. unfold diff in Hd. rewrite E in Hd. injection Hd as <-.
  cbn [foldM]. rewrite apply_delta_to_write, simple_runs by done. cbn [mbind result_bind app].
  change (da_next (SimpleApplicator v (produce v l))) with (SimpleApplicator (produce v l) []).
  by rewrite Hp, (IH w deltas Hc Hb), last_cons_default.
Qed.

Lemma chain_sim mem v versions deltas pw :
  delta_chain mem v versions deltas → Forall (λ w, len w < 2 ^ 30) (v :: versions) →
  sim pw (SimpleApplicator v []) →
  ∃ pw', foldM (λ da del, da ← apply_delta_to da del; Ok (da_next da)) deltas pw = Ok pw' ∧
    sim pw' (SimpleApplicator (List.last versions v) []).
Proof.
  revert v deltas pw. induction versions as [|w versions IH]; intros v [|del deltas] pw Hc Hb Hsim; try done.
  { by exists pw. }
  destruct Hc as [Hd Hc]. apply Forall_cons in Hb as [Hv Hb]. pose proof Hb as [Hw _]%Forall_cons.
  destruct (compute_delta_spec mem v w) as [(E & _)|(l & E & Hf & Hs & Hp)];
    [lia|unfold diff in Hd; congruence|]. unfold diff in Hd. rewrite E in Hd. injection Hd as <-.
  cbn [foldM]. rewrite apply_delta_to_write by done.
  destruct (sim_run l pw v []) as (pw' & -> & Hsim'); [done|done|cbn [app]; rewrite Hp; lia|].
  cbn [app mbind result_bind] in *. rewrite Hp in Hsim'. apply sim_next in Hsim'; [|cbn [dst]; lia].
  destruct (IH w deltas (da_next pw') Hc Hb Hsim') as (pw2 & -> & Hs2). exists pw2. split; [done|].
  by rewrite last_cons_default.
Qed.

(** C32: reconstruction through pieces is exact.  Following a chain of deltas
    that [diff] made between consecutive versions, each of them smaller than
    1 GiB, with a [piecewise_applicator], as [get_version] does, yields the
    last version, byte for byte, although no intermediate version is ever
    built: chunk splitting, the binary search for the first chunk and all the
    bounds asserted in [apply_copy] are right.  The simple applicator, which
    builds every version, yields the same. *)
Theorem piecewise_chain_exact mem d0 v versions deltas :
  delta_chain mem v versions deltas → Forall (λ w, len w < 2 ^ 30) (v :: versions) →
  apply_chain (D := piecewise_applicator) d0 v deltas = Ok (List.last versions v) ∧
  apply_chain (D := simple_applicator) (SimpleApplicator [] []) v deltas = Ok (List.last versions v).
Proof.
  intros Hc Hb. unfold apply_chain. split; [|cbn [da_begin simple_delta_applicator]; by rewrite (chain_simple mem v versions deltas Hc Hb)].
  destruct (chain_sim mem v versions deltas (da_begin d0 v) Hc Hb) as (pw & -> & Hsim).
  - apply (sim_begin d0 (SimpleApplicator [] [])). apply Forall_cons in Hb as [? _]. lia.
  - cbn [mbind result_bind]. by rewrite (sim_finish _ _ Hsim).
Qed.

Definition ex_v1 : bytes := ex_new ++ ex_old.
Definition ex_v2 : bytes := ex_old ++ lit "; later: " ++ ex_new.
Definition ex_delta (u v : bytes) : bytes := match diff (λ _, NUL) u v with Ok d => d | Err _ => [] end.

Lemma piecewise_chain_exact_witness :
  apply_chain (Piecewise [] [] []) ex_old [ex_delta ex_old ex_v1; ex_delta ex_v1 ex_v2] = Ok ex_v2 ∧
  apply_chain (SimpleApplicator [] []) ex_old [ex_delta ex_old ex_v1; ex_delta ex_v1 ex_v2] = Ok ex_v2.
Proof.
  apply (piecewise_chain_exact (λ _, NUL) (Piecewise [] [] []) ex_old [ex_v1; ex_v2]
    [ex_delta ex_old ex_v1; ex_delta ex_v1 ex_v2]).
  - split; [vm_compute; reflexivity|]. split; [vm_compute; reflexivity|]. exact I.
  - repeat constructor.
Defined.
