(* ===== verification/XdeltaInverse.v ===== *)
(** * Inverting a delta ([src/src/xdelta.cc], third part)

    [invert_xdelta] turns a delta from [old] to [new] into one from [new] to
    [old] without seeing [new]: it runs the delta on an applicator that only
    records which extents of [old] were copied where, then writes copies for
    those extents and inserts for the gaps. *)

From S2P Require Import Prelude Numbers Xdelta XdeltaRoundtrip.

Record copied_extent := Extent { old_pos : Z; enew_pos : Z; elen : Z }.

Definition extent_ltb (x y : copied_extent) : bool :=
  (old_pos x <? old_pos y) || ((old_pos x =? old_pos y) && (elen y <? elen x)).

(** [set<copied_extent>::insert] *)
Fixpoint extent_insert (e : copied_extent) (l : list copied_extent) : list copied_extent :=
  match l with
  | [] => [e]
  | x :: l' =>
      if extent_ltb e x then e :: l
      else if extent_ltb x e then x :: extent_insert e l' else l
  end.

Record inverse_applicator := Inverse {
  old : bytes;
  copied_extents : list copied_extent;
  new_pos : Z
}.

(** [n] rounds of [insert_insn(delta_insns, old.at(old_pos++))]; [checked] for
    the loop that asserts the position first. *)
Fixpoint pad (checked : bool) (n : nat) (old : bytes) (pos : Z) (delta : list insn) :
    result (Z * list insn) :=
  match n with
  | O => Ok (pos, delta)
  | S n =>
      I_ (negb checked || (pos <? len old)) ;;
      match old !! Z.to_nat pos with
      | None => Err StdException
      | Some c => pad checked n old (pos + 1) (insert_insn delta c)
      end
  end.

Fixpoint invert_loop (old : bytes) (exts : list copied_extent) (pos : Z) (delta : list insn) :
    result (Z * list insn) :=
  match exts with
  | [] => Ok (pos, delta)
  | i :: exts =>
      '(pos, delta) ← pad true (Z.to_nat (old_pos i - pos)) old pos delta;
      let overlap := if old_pos i <? pos then pos - old_pos i else 0 in
      if elen i <=? overlap then invert_loop old exts pos delta
      else
        I_ (overlap <? elen i) ;;
        invert_loop old exts (pos + (elen i - overlap))
          (copy_insn delta (enew_pos i + overlap) (elen i - overlap))
  end.

Definition inverse_finish (d : inverse_applicator) : result bytes :=
  '(pos, delta) ← invert_loop (old d) (copied_extents d) 0 [];
  '(_, delta) ← pad false (Z.to_nat (len (old d) - pos)) (old d) pos delta;
  Ok (write_delta_insns (reverse delta)).

#[export] Instance inverse_delta_applicator : DeltaApplicator inverse_applicator := {|
  da_begin d _ := d;
  da_next d := d;
  da_finish d := inverse_finish d;
  da_copy d pos n :=
    I_ (pos <? len (old d)) ;;
    Ok (Inverse (old d) (extent_insert (Extent pos (new_pos d) n) (copied_extents d)) (u64 (new_pos d + n)));
  da_insert d str := Ok (Inverse (old d) (copied_extents d) (u64 (new_pos d + len str)))
|}.

Definition invert_xdelta (old_str delta : bytes) : result bytes :=
  da ← apply_delta_to (Inverse old_str [] 0) delta;
  da_finish da.

(** ** The recorded extents *)

(** The extent's bytes are the same in both texts. *)
Definition extent_ok (a b : bytes) (e : copied_extent) : Prop :=
  0 ≤ old_pos e ∧ 0 < elen e ∧ old_pos e + elen e ≤ len a ∧
  0 ≤ enew_pos e ∧ enew_pos e + elen e ≤ len b ∧
  slice a (old_pos e) (elen e) = slice b (enew_pos e) (elen e).

Lemma extent_ok_grow a b s e : extent_ok a b e → extent_ok a (b ++ s) e.
Proof.
  intros (H1 & H2 & H3 & H4 & H5 & H6). pose proof (len_nonneg s).
  split_and!; [done..|rewrite len_app; lia|]. by rewrite slice_app_l by lia.
Qed.

Lemma extent_insert_ok P e l : P e → Forall P l → Forall P (extent_insert e l).
Proof.
  intros He Hl. induction Hl as [|x l Hx Hl IH]; cbn [extent_insert]; [by repeat constructor|].
  destruct (extent_ltb e x); [by repeat constructor|]. destruct (extent_ltb x e); by constructor.
Qed.

Definition recorded (a b : bytes) (d : inverse_applicator) : Prop :=
  old d = a ∧ new_pos d = len b ∧ Forall (extent_ok a b) (copied_extents d).

Lemma recorded_run a l d b :
  recorded a b d → Forall (in_source (len a)) l → len (b ++ produce a l) < 2 ^ 64 →
  ∃ d', foldM run_insn l d = Ok d' ∧ recorded a (b ++ produce a l) d'.
Proof.
  revert d b. induction l as [|i l IH]; intros d b Hrec Hl Hb.
  { exists d. split; [done|]. by rewrite app_nil_r. }
  apply Forall_cons in Hl as [Hi Hl]. cbn [foldM produce flat_map] in *. fold (produce a l) in *.
  assert (∃ d', run_insn d i = Ok d' ∧ recorded a (b ++ insn_text a i) d') as (d' & -> & Hrec').
  { destruct Hrec as (Ho & Hn & He). rewrite !len_app in Hb. pose proof (len_nonneg (produce a l)).
    pose proof (len_nonneg b). pose proof (len_nonneg (insn_text a i)).
    assert (Forall (extent_ok a (b ++ insn_text a i)) (copied_extents d)) as He'
      by (eapply Forall_impl; [exact He|]; intros; by apply extent_ok_grow).
    destruct i as [p|pos n]; cbn [run_insn insn_text in_source] in *.
    - case_decide; [subst p; rewrite app_nil_r in *; exists d; by repeat split|].
      eexists. split; [done|]. split_and!; [done| |done]. cbn [new_pos].
      rewrite Hn, u64_small, len_app by lia. done.
    - destruct Hi as (? & ? & ?). case_decide; [subst n; rewrite slice_0, app_nil_r in *; exists d; by repeat split|].
      rewrite len_slice in * by lia. cbn [da_copy inverse_delta_applicator]. rewrite Ho.
      rewrite (proj2 (Z.ltb_lt pos (len a))) by lia. cbn [I_ mbind result_bind].
      eexists. split; [done|]. split_and!; cbn [old new_pos copied_extents]; [done| |].
      + rewrite Hn, u64_small, len_app, len_slice by lia. done.
      + apply extent_insert_ok; [|done]. rewrite Hn. unfold extent_ok. cbn [old_pos enew_pos elen].
        split_and!; [lia..|rewrite len_app, len_slice; lia|].
        rewrite <- (len_slice a pos n) at 3 by lia. by rewrite slice_app_all. }
  cbn [mbind result_bind]. rewrite app_assoc in *. by apply IH.
Qed.

(** ** Writing the inverse *)

Section write_inverse.
Context (a b : bytes) (Hsize : len a + len b < 2 ^ 32).

(** The instructions so far rebuild the first [pos] bytes of [a] from [b]. *)
Abbreviation rebuilt := (built b a).

Lemma pad_spec checked n pos delta :
  0 ≤ pos → pos + Z.of_nat n ≤ len a → rebuilt delta pos →
  ∃ delta', pad checked n a pos delta = Ok (pos + Z.of_nat n, delta') ∧ rebuilt delta' (pos + Z.of_nat n).
Proof.
  revert pos delta. induction n as [|n IH]; intros pos delta Hp Hn Hr; cbn [pad].
  - rewrite Z.add_0_r. eauto.
  - rewrite (proj2 (Z.ltb_lt pos (len a))) by lia. rewrite orb_true_r. cbn [I_ mbind result_bind].
    rewrite lookup_char_at by lia.
    destruct (IH (pos + 1) (insert_insn delta (char_at a pos))) as (d' & -> & Hd'); [lia|lia| |].
    + apply built_insert; [lia|done].
    + replace (pos + Z.of_nat (S n)) with (pos + 1 + Z.of_nat n) by lia. eauto.
Qed.

Lemma invert_loop_spec exts pos delta :
  Forall (extent_ok a b) exts → 0 ≤ pos ≤ len a → rebuilt delta pos →
  ∃ pos' delta', invert_loop a exts pos delta = Ok (pos', delta') ∧ 0 ≤ pos' ≤ len a ∧ rebuilt delta' pos'.
Proof.
  revert pos delta. induction exts as [|i exts IH]; intros pos delta He Hp Hr; cbn [invert_loop]; [by eauto|].
  apply Forall_cons in He as [(H1 & H2 & H3 & H4 & H5 & H6) He].
  destruct (pad_spec true (Z.to_nat (old_pos i - pos)) pos delta) as (d1 & -> & Hr1); [lia|lia|done|].
  cbn [mbind result_bind]. set (p1 := pos + Z.of_nat (Z.to_nat (old_pos i - pos))) in *.
  assert (old_pos i ≤ p1 ≤ len a) as Hp1 by (unfold p1; lia).
  set (overlap := if old_pos i <? p1 then p1 - old_pos i else 0).
  assert (overlap = p1 - old_pos i) as Hov
    by (unfold overlap; destruct (Z.ltb_spec (old_pos i) p1); lia).
  clearbody overlap p1. destruct (Z.leb_spec (elen i) overlap); [apply IH; [done|lia|done]|].
  rewrite (proj2 (Z.ltb_lt overlap (elen i))) by lia. cbn [I_ mbind result_bind].
  apply IH; [done|lia|]. destruct Hr1 as [Hok Hr1]. pose proof (len_nonneg a).
  unfold copy_insn. rewrite !u32_small by lia. split; [constructor; [cbn [in_source]; lia|done]|].
  rewrite reverse_cons, produce_app, Hr1. cbn [produce flat_map insn_text]. rewrite app_nil_r.
  rewrite slice_split by lia. rewrite Z.add_0_l. f_equal.
  replace (elen i) with (overlap + (elen i - overlap)) in H6 by lia. rewrite !slice_split in H6 by lia.
  apply app_inj_1 in H6 as [_ H6].
  - rewrite <- H6. f_equal. lia.
  - pose proof (len_slice a (old_pos i) overlap). pose proof (len_slice b (enew_pos i) overlap).
    unfold len in *. lia.
Qed.
End write_inverse.

Lemma invert_write a l :
  Forall insn_fits l → Forall (in_source (len a)) l → len a + len (produce a l) < 2 ^ 32 →
  ∃ inv, invert_xdelta a (write_delta_insns l) = Ok inv ∧ apply_delta (produce a l) inv = Ok a.
Proof.
  intros Hf Hs Hb. set (b := produce a l) in *. pose proof (len_nonneg a). pose proof (len_nonneg b).
  unfold invert_xdelta. rewrite apply_delta_to_write by done.
  destruct (recorded_run a l (Inverse a [] 0) []) as (d & -> & Ho & Hn & He).
  { by repeat split. } { done. } { cbn [app]. fold b. lia. }
  cbn [app mbind result_bind] in *. fold b in He. cbn [da_finish inverse_delta_applicator].
  unfold inverse_finish. rewrite Ho.
  destruct (invert_loop_spec a b Hb (copied_extents d) 0 []) as (pos & d1 & -> & Hp & Hr); [done|lia| |].
  { split; [constructor|]. by rewrite slice_0. }
  cbn [mbind result_bind].
  destruct (pad_spec a b false (Z.to_nat (len a - pos)) pos d1) as (d2 & -> & Hok & Hr2); [lia|lia|done|].
  cbn [mbind result_bind]. eexists. split; [done|].
  replace (pos + Z.of_nat (Z.to_nat (len a - pos))) with (len a) in Hr2 by lia. rewrite slice_full in Hr2.
  rewrite apply_delta_write; [by rewrite Hr2| |by apply Forall_reverse].
  apply Forall_reverse, Forall_forall. rewrite Forall_forall in Hok.
  intros [p|q n] Hin; cbn [insn_fits].
  - assert (Insert p ∈ reverse d2) as Hin' by (by apply elem_of_reverse).
    apply (produce_insert_len b) in Hin'. rewrite Hr2 in Hin'. lia.
  - specialize (Hok _ Hin). cbn [in_source] in Hok. lia.
Qed.

(** C33: inverting a delta inverts the patch.  For texts that are together small
    enough for the [u32] positions, if [diff] gives a delta from [a] to [b], [invert_xdelta] of it, which never sees [b], succeeds and its
    result patches [b] back to [a]; overlapping and repeated copies of the
    same part of [a] included. *)
Theorem invert_xdelta_roundtrip mem a b del :
  len a + len b + 64 < 2 ^ 32 → diff mem a b = Ok del →
  ∃ inv, invert_xdelta a del = Ok inv ∧ patch b inv = Ok a.
Proof.
  intros Hb Hd. unfold diff, patch in *.
  destruct (compute_delta_spec mem a b Hb) as [(E & _)|(l & E & Hf & Hs & Hp)]; [congruence|].
  rewrite E in Hd. injection Hd as <-. destruct (invert_write a l Hf Hs) as (inv & Hi & Ha); [rewrite Hp; lia|].
  rewrite Hp in Ha. eauto.
Qed.

Lemma invert_xdelta_roundtrip_witness :
  ∃ inv, invert_xdelta ex_old (match diff (λ _, NUL) ex_old ex_new with Ok d => d | Err _ => [] end) = Ok inv ∧
    patch ex_new inv = Ok ex_old.
Proof.
  apply (invert_xdelta_roundtrip (λ _, NUL) ex_old ex_new); [vm_compute; reflexivity|].
  vm_compute. reflexivity.
Defined.
