(* ===== verification/RevHeight.v ===== *)
(** * Revision heights ([src/src/rev_height.cc], [rev_height.hh])

    A height is a string of big-endian [u32] words, compared as bytes.  The
    words at even positions count revisions along a branch, those at odd
    positions number the branches.  The operations index the raw string, so
    [string::at] may throw. *)

From S2P Require Import Prelude Numbers.

Definition width : Z := 4.

(** The body of [read_at]'s loop, for at most [n] rounds. *)
Fixpoint read_loop (n : nat) (d : bytes) (i stop value : Z) : result Z :=
  match n with
  | O => Ok value
  | S n =>
      if i <? stop then
        match d !! Z.to_nat i with
        | None => Err StdException
        | Some c => read_loop n d (i + 1) stop (u32 (u32 (Z.shiftl value 8) + Z.land (byte_val c) 0xff))
        end
      else Ok value
  end.

Definition read_at (d : bytes) (pos : Z) : result Z :=
  let first := u64 (width * pos) in
  read_loop 4 d first (u64 (first + width)) 0.

Fixpoint write_loop (n : nat) (d : bytes) (i first value : Z) : result bytes :=
  match n with
  | O => Ok d
  | S n =>
      if first <? i then
        match d !! Z.to_nat (i - 1) with
        | None => Err StdException
        | Some _ =>
            write_loop n (<[Z.to_nat (i - 1) := byte_of (Z.land value 0xff)]> d) (i - 1) first (Z.shiftr value 8)
        end
      else Ok d
  end.

Definition write_at (d : bytes) (pos value : Z) : result bytes :=
  let first := u64 (width * pos) in
  write_loop 4 d (u64 (first + width)) first value.

Definition append (d : bytes) (value : Z) : result bytes :=
  let d := d ++ replicate 4 (ascii_of_nat 0) in
  write_at d (u64 (len d / width - 1)) value.

Definition child_height (d : bytes) (nr : Z) : result bytes :=
  if nr =? 0 then
    let pos := u64 (len d / width - 1) in
    tmp ← read_at d pos;
    I_ (tmp <? 2 ^ 32 - 1) ;;
    write_at d pos (tmp + 1)
  else
    d ← append d (u32 (nr - 1));
    append d 0.

Definition root_height : result bytes := append [] 0.

Definition valid (d : bytes) : bool := negb (bool_decide (d = [])).

(** [s64] arithmetic; the terms stay far below its range. *)
Fixpoint diff_add_rest (fuel : nat) (d : bytes) (pos sum : Z) : result Z :=
  if pos <? len d / width then
    match fuel with
    | O => Err invariant_failure
    | S fuel => w ← read_at d pos; diff_add_rest fuel d (pos + 2) (sum + u32 (w + 1))
    end
  else Ok sum.

Fixpoint distance_loop (fuel : nat) (d rhs : bytes) (i : Z) : result (bool * Z) :=
  let l_size := len d / width in
  let r_size := len rhs / width in
  let rest d p := diff_add_rest (length d) d p 0 in
  match fuel with
  | O => Err invariant_failure
  | S fuel =>
      let l_cont := i <? l_size in
      let r_cont := i <? r_size in
      if negb l_cont && negb r_cont then Ok (true, 0)
      else if l_cont && r_cont then
        left ← read_at d i;
        right ← read_at rhs i;
        if left =? right then distance_loop fuel d rhs (i + 2)
        else if right <? left then
          if i + 2 <? r_size then Ok (false, 0)
          else r ← rest d (i + 2); Ok (true, (left - right) + r)
        else
          if i + 2 <? l_size then Ok (false, 0)
          else r ← rest rhs (i + 2); Ok (true, - ((right - left) + r))
      else if negb r_cont then r ← rest d i; Ok (true, r)
      else r ← rest rhs i; Ok (true, - r)
  end.

Definition distance_to (d rhs : bytes) : result (bool * Z) :=
  I_ (width <=? len d) ;;
  I_ (width <=? len rhs) ;;
  I_ (len d mod (2 * width) =? width) ;;
  I_ (len rhs mod (2 * width) =? width) ;;
  distance_loop (S (length d + length rhs)) d rhs 0.

(** ** Heights as lists of words *)

Definition be32 (v : Z) : bytes :=
  [byte_of (v / 2 ^ 24); byte_of (v / 2 ^ 16); byte_of (v / 2 ^ 8); byte_of v].
Definition encode (ws : list Z) : bytes := flat_map be32 ws.

Definition word (v : Z) : Prop := 0 ≤ v < 2 ^ 32.

Lemma length_encode ws : length (encode ws) = (4 * length ws)%nat.
Proof. induction ws as [|w ws IH]; cbn [encode flat_map length]; [done|]. rewrite length_app. cbn [be32 length]. fold (encode ws). lia. Qed.

Lemma len_encode ws : len (encode ws) = 4 * Z.of_nat (length ws).
Proof. unfold len. rewrite length_encode. lia. Qed.

Lemma encode_app a b : encode (a ++ b) = encode a ++ encode b.
Proof. apply flat_map_app. Qed.

Lemma be32_value v : word v →
  ((byte_val (byte_of (v / 2 ^ 24)) * 256 + byte_val (byte_of (v / 2 ^ 16))) * 256
    + byte_val (byte_of (v / 2 ^ 8))) * 256 + byte_val (byte_of v) = v.
Proof.
  unfold word. intros Hv. rewrite !byte_val_of.
  change (2 ^ 24) with 16777216. change (2 ^ 16) with 65536. change (2 ^ 8) with 256.
  change (2 ^ 32) with 4294967296 in Hv.
  Z.to_euclidean_division_equations. lia.
Qed.

Lemma read_loop_byte n d i stop v c :
  i < stop → d !! Z.to_nat i = Some c → 0 ≤ v → v * 256 + byte_val c < 2 ^ 32 →
  read_loop (S n) d i stop v = read_loop n d (i + 1) stop (v * 256 + byte_val c).
Proof.
  intros Hi Hc Hv Hb. cbn [read_loop]. rewrite (proj2 (Z.ltb_lt i stop)), Hc by done.
  pose proof (byte_val_range c) as Hr. rewrite Z.shiftl_mul_pow2 by lia. change (2 ^ 8) with 256.
  change 0xff with (Z.ones 8). rewrite Z.land_ones by lia. change (2 ^ 8) with 256.
  rewrite (Z.mod_small (byte_val c)) by lia. rewrite (u32_small (v * 256)) by lia. by rewrite u32_small by lia.
Qed.

(** The four bytes at the word position [pos]. *)
Lemma word_bytes X l Y pos j c :
  len X = 4 * pos → (j < length l)%nat → l !! j = Some c →
  (X ++ l ++ Y) !! Z.to_nat (4 * pos + Z.of_nat j) = Some c.
Proof.
  intros HX Hj Hc. unfold len in HX. rewrite lookup_app_r by lia.
  replace (Z.to_nat (4 * pos + Z.of_nat j) - length X)%nat with j by lia. by apply lookup_app_l_Some.
Qed.

Lemma read_at_word X v Y pos :
  0 ≤ pos → len X = 4 * pos → 4 * pos + 4 < 2 ^ 64 → word v → read_at (X ++ be32 v ++ Y) pos = Ok v.
Proof.
  intros Hp HX Hb Hv. unfold read_at, width. rewrite (u64_small (4 * pos)), (u64_small (4 * pos + 4)) by lia.
  pose proof (λ j c, word_bytes X (be32 v) Y pos j c HX) as Hat.
  pose proof (be32_value v Hv) as Hval. unfold word in Hv.
  pose proof (byte_val_range (byte_of (v / 2 ^ 24))). pose proof (byte_val_range (byte_of (v / 2 ^ 16))).
  pose proof (byte_val_range (byte_of (v / 2 ^ 8))). pose proof (byte_val_range (byte_of v)).
  assert (∀ k, 0 ≤ k < 4 → 4 * pos + k = 4 * pos + Z.of_nat (Z.to_nat k)) as Hk by lia.
  erewrite read_loop_byte; [|lia|rewrite <- (Z.add_0_r (4 * pos)); apply (Hat 0%nat); [cbn; lia|done]|lia|lia].
  erewrite read_loop_byte; [|lia|apply (Hat 1%nat); [cbn; lia|done]|lia|lia].
  erewrite read_loop_byte; [|lia|replace (4 * pos + 1 + 1) with (4 * pos + Z.of_nat 2) by lia; apply (Hat 2%nat); [cbn; lia|done]|lia|lia].
  erewrite read_loop_byte; [|lia|replace (4 * pos + 1 + 1 + 1) with (4 * pos + Z.of_nat 3) by lia; apply (Hat 3%nat); [cbn; lia|done]|lia|lia].
  cbn [read_loop]. f_equal. lia.
Qed.

Lemma write_at_word X l Y pos v :
  0 ≤ pos → len X = 4 * pos → 4 * pos + 4 < 2 ^ 64 → length l = 4%nat → word v →
  write_at (X ++ l ++ Y) pos v = Ok (X ++ be32 v ++ Y).
Proof.
  intros Hp HX Hb Hl Hv. destruct l as [|x0 [|x1 [|x2 [|x3 [|]]]]]; try done. clear Hl.
  unfold write_at, width. rewrite (u64_small (4 * pos)), (u64_small (4 * pos + 4)) by lia.
  assert (∀ n l i v' j c, i = 4 * pos + Z.of_nat (S j) → l !! j = Some c →
    write_loop (S n) (X ++ l ++ Y) i (4 * pos) v' =
    write_loop n (X ++ <[j := byte_of v']> l ++ Y) (4 * pos + Z.of_nat j) (4 * pos) (v' / 256)) as Hstep.
  { intros n l i v' j c -> Hc. cbn [write_loop]. rewrite (proj2 (Z.ltb_lt (4 * pos) _)) by lia.
    replace (4 * pos + Z.of_nat (S j) - 1) with (4 * pos + Z.of_nat j) by lia.
    rewrite (word_bytes X l Y pos j c) by (done || by eapply lookup_lt_Some).
    unfold len in HX. rewrite insert_app_r_alt by lia.
    replace (Z.to_nat (4 * pos + Z.of_nat j) - length X)%nat with j by lia.
    rewrite insert_app_l by (by eapply lookup_lt_Some).
    assert (byte_of (Z.land v' 255) = byte_of v') as ->.
    { change 255 with (Z.ones 8). rewrite Z.land_ones by lia. unfold byte_of. change (2 ^ 8) with 256.
      by rewrite Z.mod_mod. }
    by rewrite Z.shiftr_div_pow2 by lia. }
  rewrite (Hstep _ _ _ _ 3%nat x3) by (done || lia). cbn [insert list_insert].
  rewrite (Hstep _ _ _ _ 2%nat x2) by (done || lia). cbn [insert list_insert].
  rewrite (Hstep _ _ _ _ 1%nat x1) by (done || lia). cbn [insert list_insert].
  rewrite (Hstep _ _ _ _ 0%nat x0) by (done || lia). cbn [insert list_insert write_loop].
  rewrite !Z.div_div by lia. done.
Qed.

Lemma append_word ws v :
  word v → 4 * Z.of_nat (length ws) + 8 < 2 ^ 64 → append (encode ws) v = Ok (encode (ws ++ [v])).
Proof.
  intros Hv Hb. unfold append. set (z := replicate 4 (ascii_of_nat 0)).
  assert (len (encode ws ++ z) / width - 1 = Z.of_nat (length ws)) as ->.
  { rewrite len_app, len_encode. unfold width. change (len z) with 4.
    replace (4 * Z.of_nat (length ws) + 4) with ((Z.of_nat (length ws) + 1) * 4) by lia.
    rewrite Z.div_mul by lia. lia. }
  rewrite u64_small by lia. rewrite <- (app_nil_r z).
  rewrite write_at_word; [|lia|apply len_encode|lia|done|done]. rewrite encode_app. cbn [encode flat_map].
  by rewrite !app_nil_r.
Qed.

Lemma child_height_next p w :
  word w → 4 * Z.of_nat (length p) + 8 < 2 ^ 64 →
  child_height (encode (p ++ [w])) 0 =
    if w <? 2 ^ 32 - 1 then Ok (encode (p ++ [w + 1])) else Err invariant_failure.
Proof.
  intros Hw Hb. unfold child_height. change (0 =? 0) with true. cbv iota.
  assert (len (encode (p ++ [w])) / width - 1 = Z.of_nat (length p)) as ->.
  { rewrite len_encode, length_app. unfold width. cbn [length].
    replace (4 * Z.of_nat (length p + 1)) with ((Z.of_nat (length p) + 1) * 4) by lia.
    rewrite Z.div_mul by lia. lia. }
  rewrite u64_small by lia. rewrite !encode_app. cbn [encode flat_map].
  rewrite read_at_word; [|lia|apply len_encode|lia|done]. cbn [mbind result_bind].
  destruct (Z.ltb_spec w (2 ^ 32 - 1)); [|done]. cbn [I_ mbind result_bind].
  unfold word in Hw. by rewrite write_at_word; [|lia|apply len_encode|lia|done|unfold word; lia].
Qed.

Lemma child_height_branch ws nr :
  0 < nr < 2 ^ 32 → 4 * Z.of_nat (length ws) + 16 < 2 ^ 64 →
  child_height (encode ws) nr = Ok (encode (ws ++ [nr - 1; 0])).
Proof.
  intros Hn Hb. unfold child_height. rewrite (proj2 (Z.eqb_neq nr 0)) by lia.
  rewrite (u32_small (nr - 1)) by lia. rewrite append_word by (unfold word; lia). cbn [mbind result_bind].
  rewrite append_word; [by rewrite <- app_assoc|unfold word; lia|]. rewrite length_app. cbn [length]. lia.
Qed.

(** ** The byte order is the order of the words *)

Lemma be32_order v w x y :
  word v → word w →
  zlex (byte_val <$> be32 v ++ x) (byte_val <$> be32 w ++ y) =
  (v <? w) || ((v =? w) && zlex (byte_val <$> x) (byte_val <$> y)).
Proof.
  intros Hv Hw. pose proof (be32_value v Hv) as Ev. pose proof (be32_value w Hw) as Ew.
  cbn [be32 app fmap list_fmap zlex].
  repeat match goal with |- context [byte_of ?z] =>
    pose proof (byte_val_range (byte_of z)); generalize dependent (byte_val (byte_of z)); intros end.
  repeat match goal with |- context [?a <? ?b] => destruct (Z.ltb_spec a b) | |- context [?a =? ?b] => destruct (Z.eqb_spec a b) end;
    cbn [orb andb]; try done; try (exfalso; lia).
Qed.

Lemma encode_order a b : Forall word a → Forall word b → klt (encode a) (encode b) = zlex a b.
Proof.
  intros Ha. revert b. induction Ha as [|v a Hv Ha IH]; intros b Hb.
  - destruct Hb as [|w b Hw Hb]; [done|]. done.
  - destruct Hb as [|w b Hw Hb]; [done|]. cbn [encode flat_map]. fold (encode a) (encode b).
    change (klt (be32 v ++ encode a) (be32 w ++ encode b))
      with (zlex (byte_val <$> be32 v ++ encode a) (byte_val <$> be32 w ++ encode b)).
    rewrite be32_order by done. cbn [zlex]. f_equal. f_equal. by apply IH.
Qed.

(** ** Descendants *)

(** A well-formed height: an odd number of words. *)
Definition height_ok (d : bytes) : Prop :=
  ∃ p w, d = encode (p ++ [w]) ∧ Forall word (p ++ [w]) ∧ Nat.Even (length p).

Lemma encode_inj a b : Forall word a → Forall word b → encode a = encode b → a = b.
Proof.
  intros Ha Hb E. destruct (zlex_total a b) as [H|[H|H]]; [|done|].
  - rewrite <- encode_order, E, klt_irrefl in H by done. done.
  - rewrite <- encode_order, E, klt_irrefl in H by done. done.
Qed.

Lemma Forall_word_snoc p w : Forall word (p ++ [w]) ↔ Forall word p ∧ word w.
Proof. rewrite Forall_app, Forall_singleton. done. Qed.

Lemma zlex_snoc p v w x : v < w → zlex (p ++ [v]) (p ++ w :: x) = true.
Proof. intros. rewrite zlex_app_l. cbn [zlex]. by rewrite (proj2 (Z.ltb_lt v w)). Qed.

(** C36: every child of a revision is strictly higher.  For a well-formed
    height, [child_height] succeeds for every child number except, for the
    number 0, where the last counter is [2 ^ 32 - 1] and its assertion fails;
    the child's height is well formed and strictly
    greater in the byte order that the database and [get_uncommon_ancestors]
    compare with, and different child numbers give different heights. *)
Theorem child_height_increases d nr d' :
  height_ok d → len d + 16 < 2 ^ 64 → 0 ≤ nr < 2 ^ 32 →
  (child_height d nr = Ok d' → height_ok d' ∧ klt d d' = true) ∧
  (child_height d nr = Ok d' → ∀ nr', 0 ≤ nr' < 2 ^ 32 → child_height d nr' = Ok d' → nr' = nr) ∧
  ((∃ x, child_height d nr = Ok x) ∨
   (child_height d nr = Err invariant_failure ∧ nr = 0 ∧ ∃ p, d = encode (p ++ [2 ^ 32 - 1]))).
Proof.
  intros (p & w & -> & Hf & Heven) Hlen Hnr. pose proof Hf as [Hp Hw]%Forall_word_snoc.
  rewrite len_encode, length_app in Hlen. cbn [length] in Hlen.
  assert (∀ n x, 0 ≤ n < 2 ^ 32 → child_height (encode (p ++ [w])) n = Ok x →
    (n = 0 ∧ w < 2 ^ 32 - 1 ∧ x = encode (p ++ [w + 1])) ∨
    (0 < n ∧ x = encode (p ++ [w; n - 1; 0]))) as Hcases.
  { intros n x Hn Hx. destruct (decide (n = 0)) as [->|Hn0].
    - rewrite child_height_next in Hx by (done || lia). left.
      destruct (Z.ltb_spec w (2 ^ 32 - 1)); [|done]. by injection Hx as <-.
    - rewrite child_height_branch in Hx; [|lia|rewrite length_app; cbn [length]; lia]. right.
      injection Hx as <-. rewrite <- app_assoc. split; [lia|done]. }
  assert (∀ n, 0 < n < 2 ^ 32 → Forall word (p ++ [w; n - 1; 0])) as Hbr.
  { intros n Hn. apply Forall_app. split; [done|]. unfold word in *. repeat constructor; lia. }
  assert (w < 2 ^ 32 - 1 → Forall word (p ++ [w + 1])) as Hnx.
  { intros. apply Forall_word_snoc. unfold word in *. split; [done|lia]. }
  split_and!.
  - intros Hd. destruct (Hcases _ _ Hnr Hd) as [(-> & Hw' & ->)|(Hn & ->)]; split.
    + exists p, (w + 1). auto.
    + rewrite encode_order by auto. apply zlex_snoc. lia.
    + exists (p ++ [w; nr - 1]), 0. rewrite <- app_assoc. split; [done|]. split; [apply Hbr; lia|].
      rewrite length_app. cbn [length]. destruct Heven as [k ->]. exists (S k). lia.
    + rewrite encode_order; [|done|apply Hbr; lia].
      replace (p ++ [w; nr - 1; 0]) with ((p ++ [w]) ++ [nr - 1; 0]) by (by rewrite <- app_assoc).
      by apply zlex_app_r.
  - intros Hd nr' Hnr' Hd'.
    destruct (Hcases _ _ Hnr Hd) as [(-> & Hw1 & ->)|(Hn & ->)];
    destruct (Hcases _ _ Hnr' Hd') as [(-> & Hw2 & E)|(Hn' & E)]; try done;
    apply encode_inj in E; auto; try (by apply Hbr; lia); apply app_inv_head in E; try done.
    injection E as E. lia.
  - destruct (decide (nr = 0)) as [->|Hn0].
    + rewrite child_height_next by (done || lia). destruct (Z.ltb_spec w (2 ^ 32 - 1)); [left; eauto|right].
      assert (w = 2 ^ 32 - 1) as -> by (unfold word in Hw; lia). eauto.
    + left. rewrite child_height_branch; [eauto|lia|rewrite length_app; cbn [length]; lia].
Qed.

Lemma child_height_increases_witness :
  height_ok (encode [3; 1; 0]) ∧ klt (encode [3; 0; 1]) (encode [3; 0; 2]) = true.
Proof.
  assert (height_ok (encode [3])) as H3.
  { exists [], 3. split; [done|]. split; [repeat constructor; unfold word; lia|by exists 0%nat]. }
  assert (height_ok (encode [3; 0; 1])) as H301.
  { exists [3; 0], 1. split; [done|]. split; [repeat constructor; unfold word; lia|by exists 1%nat]. }
  split.
  - apply (child_height_increases (encode [3]) 2 (encode [3; 1; 0])); [done|vm_compute; reflexivity|lia|].
    vm_compute. reflexivity.
  - apply (child_height_increases (encode [3; 0; 1]) 0 (encode [3; 0; 2])); [done|vm_compute; reflexivity|lia|].
    vm_compute. reflexivity.
Defined.

(** ** Distances *)

(** [n] steps from a revision to a child. *)
Inductive descends : nat → bytes → bytes → Prop :=
  | descends_refl d : descends 0 d d
  | descends_step n d d' nr d'' :
      descends n d d' → 0 ≤ nr < 2 ^ 32 → child_height d' nr = Ok d'' → descends (S n) d d''.

Definition branches (l : list (Z * Z)) : list Z := flat_map (λ b, [b.1; b.2]) l.
Definition count (l : list (Z * Z)) : Z := foldr (λ b s, b.2 + 1 + s) 0 l.

Lemma branches_app a b : branches (a ++ b) = branches a ++ branches b.
Proof. apply flat_map_app. Qed.
Lemma count_nil : count [] = 0.
Proof. done. Qed.
Lemma count_cons b l : count (b :: l) = b.2 + 1 + count l.
Proof. done. Qed.
Lemma count_app a b : count (a ++ b) = count a + count b.
Proof. induction a as [|x a IH]; [done|]. cbn [app]. rewrite !count_cons, IH. lia. Qed.
Lemma length_branches l : length (branches l) = (2 * length l)%nat.
Proof. induction l as [|b l IH]; [done|]. cbn [branches flat_map app length]. fold (branches l). lia. Qed.

(** After [n] steps the last counter has grown by [j], and branches follow,
    each counting one more than its own counter. *)
Definition descendant_shape (n : Z) (p : list Z) (w : Z) (d : bytes) : Prop :=
  ∃ j l, d = encode (p ++ [w + j] ++ branches l) ∧ 0 ≤ j ∧ w + j < 2 ^ 32 ∧
    Forall (λ b, word b.1 ∧ 0 ≤ b.2 < n) l ∧ j + count l = n.

Lemma descends_shape n p w d :
  Forall word p → word w → 4 * Z.of_nat (length p) + 12 * Z.of_nat n + 32 < 2 ^ 64 →
  Z.of_nat n < 2 ^ 32 → descends n (encode (p ++ [w])) d → descendant_shape (Z.of_nat n) p w d.
Proof.
  intros Hp Hw Hlen Hn Hd. remember (encode (p ++ [w])) as d0 eqn:E0. revert Hlen Hn.
  induction Hd as [d0|n d0 d' nr d'' Hd IH Hnr Hc]; intros Hlen Hn.
  { subst d0. exists 0, []. unfold word in Hw. rewrite Z.add_0_r. split_and!; [done|lia|lia|constructor|done]. }
  destruct (IH E0) as (j & l & -> & Hj & Hwj & Hl & Hsum); [lia|lia|]. clear IH Hd.
  assert (0 ≤ count l ∧ Z.of_nat (length l) ≤ count l) as [Hcount Hll].
  { clear - Hl. induction Hl as [|b l [_ Hb] _ IH]; [done|]. rewrite count_cons. cbn [length]. lia. }
  assert (Forall (λ b, word b.1 ∧ 0 ≤ b.2 < Z.of_nat (S n)) l) as Hl'
    by (eapply Forall_impl; [exact Hl|]; intros b [? ?]; split; [done|lia]).
  destruct (decide (nr = 0)) as [->|Hn0].
  - destruct l as [|[x c] l _] using rev_ind.
    + cbn [branches flat_map] in Hc. rewrite app_nil_r in Hc. rewrite child_height_next in Hc by (unfold word in *; lia).
      destruct (Z.ltb_spec (w + j) (2 ^ 32 - 1)); [|done]. injection Hc as <-.
      exists (j + 1), []. rewrite Z.add_assoc. split_and!; [done|lia|lia|constructor|rewrite count_nil in *; lia].
    + assert (∀ c, p ++ [w + j] ++ branches (l ++ [(x, c)]) = (p ++ [w + j] ++ branches l ++ [x]) ++ [c]) as Eq
        by (intros; rewrite branches_app, <- !app_assoc; done).
      rewrite Eq in Hc.
      apply Forall_app in Hl as [Hl0 [[Hx Hcn] _]%Forall_cons]. cbn [fst snd] in *.
      rewrite count_app, count_cons, count_nil in *. cbn [snd] in *.
      rewrite length_app in Hll. cbn [length] in Hll.
      rewrite child_height_next in Hc; [|unfold word; lia|].
      2:{ rewrite !length_app, length_branches. cbn [length]. lia. }
      destruct (Z.ltb_spec c (2 ^ 32 - 1)); [|done]. injection Hc as <-.
      exists j, (l ++ [(x, c + 1)]). split_and!; [|lia|lia| |].
      * by rewrite Eq.
      * apply Forall_app in Hl' as [Hl1 _]. apply Forall_app. split; [done|]. apply Forall_singleton. cbn [fst snd]. split; [done|lia].
      * rewrite count_app, count_cons, count_nil. cbn [snd]. lia.
  - rewrite child_height_branch in Hc; [|lia|].
    2:{ rewrite !length_app, length_branches. cbn [length]. lia. }
    injection Hc as <-. exists j, (l ++ [(nr - 1, 0)]). split_and!; [|lia|lia| |].
    + rewrite branches_app. cbn [branches flat_map app fst snd]. f_equal. by rewrite <- !app_assoc.
    + apply Forall_app. split; [done|]. apply Forall_singleton. cbn [fst snd]. unfold word. lia.
    + rewrite count_app, count_cons, count_nil. cbn [snd]. lia.
Qed.

Lemma read_at_encode ws i v :
  ws !! i = Some v → word v → 4 * Z.of_nat (length ws) < 2 ^ 64 - 4 →
  read_at (encode ws) (Z.of_nat i) = Ok v.
Proof.
  intros Hi Hv Hb. pose proof (lookup_lt_Some _ _ _ Hi). rewrite <- (take_drop_middle ws i v Hi), encode_app.
  change (encode (v :: drop (S i) ws)) with (be32 v ++ encode (drop (S i) ws)).
  apply read_at_word; [lia| |lia|done]. rewrite len_encode, length_take. lia.
Qed.

Lemma words_encode ws : len (encode ws) / width = Z.of_nat (length ws).
Proof. rewrite len_encode. unfold width. rewrite Z.mul_comm. apply Z.div_mul. lia. Qed.

(** The counters after the position [length q] add up to the steps they stand for. *)
Lemma diff_add_rest_spec q l fuel s :
  Forall (λ b, word b.1 ∧ 0 ≤ b.2 < 2 ^ 32 - 1) l → (length l ≤ fuel)%nat →
  4 * Z.of_nat (length (q ++ branches l)) < 2 ^ 64 - 4 →
  diff_add_rest fuel (encode (q ++ branches l)) (Z.of_nat (length q) + 1) s = Ok (s + count l).
Proof.
  intros Hl. revert q fuel s. induction Hl as [|[x c] l [Hx Hc] Hl IH]; intros q fuel s Hf Hb.
  - rewrite count_nil, Z.add_0_r. destruct fuel; cbn [diff_add_rest]; rewrite words_encode, length_app;
      cbn [branches flat_map length]; by rewrite (proj2 (Z.ltb_ge _ _)) by lia.
  - destruct fuel as [|fuel]; [simpl in Hf; lia|]. cbn [fst snd] in *.
    assert (q ++ branches ((x, c) :: l) = (q ++ [x; c]) ++ branches l) as E by (by rewrite <- app_assoc).
    cbn [diff_add_rest]. rewrite words_encode. rewrite (proj2 (Z.ltb_lt _ _)).
    2:{ rewrite length_app, length_branches. cbn [length]. lia. }
    replace (Z.of_nat (length q) + 1) with (Z.of_nat (S (length q))) by lia.
    rewrite (read_at_encode _ (S (length q)) c); [|by rewrite lookup_app_r, Nat.sub_succ_l, Nat.sub_diag by lia|unfold word; lia|done].
    cbn [mbind result_bind]. rewrite u32_small by lia. rewrite E in *.
    replace (Z.of_nat (S (length q)) + 2) with (Z.of_nat (length (q ++ [x; c])) + 1) by (rewrite length_app; cbn [length]; lia).
    rewrite IH; [|simpl in Hf; lia|done]. rewrite count_cons. cbn [snd]. f_equal. lia.
Qed.

Section distance.
Context (p : list Z) (w j : Z) (l : list (Z * Z)).
Context (Hp : Forall word p) (Hw : 0 ≤ w) (Hj : 0 ≤ j) (Hwj : w + j < 2 ^ 32).
Context (Hl : Forall (λ b, word b.1 ∧ 0 ≤ b.2 < 2 ^ 32 - 1) l).
Let da : list Z := p ++ [w + j] ++ branches l.
Let an : list Z := p ++ [w].
Context (Hb : 4 * Z.of_nat (length da) < 2 ^ 64 - 4).

Lemma length_da : length da = (length p + 1 + 2 * length l)%nat.
Proof. unfold da. rewrite !length_app, length_branches. cbn [length]. lia. Qed.
Lemma length_an : length an = (length p + 1)%nat.
Proof. unfold an. rewrite length_app. done. Qed.

Lemma rest_spec : diff_add_rest (length (encode da)) (encode da) (Z.of_nat (length p) + 2) 0 = Ok (count l).
Proof.
  pose proof (diff_add_rest_spec (p ++ [w + j]) l (length (encode da)) 0 Hl) as H.
  rewrite <- app_assoc in H. fold da in H. rewrite length_app in H. cbn [length] in H.
  replace (Z.of_nat (length p + 1) + 1) with (Z.of_nat (length p) + 2) in H by lia.
  apply H; [|done]. rewrite length_encode, length_da. lia.
Qed.

(** The end of the ancestor's height. *)
Lemma distance_end fuel :
  (2 ≤ fuel)%nat → distance_loop fuel (encode da) (encode an) (Z.of_nat (length p)) = Ok (true, j + count l).
Proof.
  intros Hf. destruct fuel as [|[|fuel]]; [lia..|].
  assert (da !! length p = Some (w + j)) as Hda by (unfold da; by rewrite lookup_app_r, Nat.sub_diag by lia).
  assert (an !! length p = Some w) as Han by (unfold an; by rewrite lookup_app_r, Nat.sub_diag by lia).
  cbn [distance_loop]. rewrite !words_encode, !length_da, !length_an.
  rewrite !(proj2 (Z.ltb_lt (Z.of_nat (length p)) _)) by lia. cbn [negb andb].
  pose proof Hb as Hb'. rewrite length_da in Hb'.
  rewrite (read_at_encode _ _ _ Hda), (read_at_encode _ _ _ Han)
    by (rewrite ?length_da, ?length_an; unfold word; lia). cbn [mbind result_bind].
  rewrite (proj2 (Z.ltb_ge (Z.of_nat (length p) + 2) (Z.of_nat (length p + 1)))) by lia.
  rewrite rest_spec. cbn [mbind result_bind negb]. rewrite andb_true_r, andb_false_r.
  destruct (Z.eqb_spec (w + j) w) as [E|E].
  - assert (j = 0) as -> by lia.
    destruct (Z.ltb_spec (Z.of_nat (length p) + 2) (Z.of_nat (length p + 1 + 2 * length l))); cbn [negb]; [done|].
    assert (l = []) as -> by (destruct l; [done|]; simpl in *; lia). done.
  - rewrite (proj2 (Z.ltb_lt w (w + j))) by lia. f_equal. f_equal. lia.
Qed.

(** The common words before it. *)
Lemma distance_common p1 p2 k fuel :
  p = p1 ++ p2 → length p2 = (2 * k)%nat → (k + 2 ≤ fuel)%nat →
  distance_loop fuel (encode da) (encode an) (Z.of_nat (length p1)) = Ok (true, j + count l).
Proof.
  revert p1 p2 fuel. induction k as [|k IH]; intros p1 p2 fuel E Hk Hf.
  { destruct p2; [|simpl in Hk; lia]. rewrite app_nil_r in E. rewrite <- E. by apply distance_end. }
  destruct p2 as [|x [|y p2]]; [simpl in Hk; lia..|]. destruct fuel as [|fuel]; [lia|].
  assert (da !! length p1 = Some x ∧ an !! length p1 = Some x) as [Hda Han].
  { unfold da, an. rewrite E, <- !app_assoc.
    split; (rewrite lookup_app_r by lia); by rewrite Nat.sub_diag. }
  assert (word x) as Hx by (pose proof Hp as Hp'; rewrite E in Hp'; by apply Forall_app in Hp' as [_ [? _]%Forall_cons]).
  pose proof (length_da) as Lda. pose proof (length_an) as Lan. rewrite E, length_app in Lda, Lan. cbn [length] in Lda, Lan.
  cbn [distance_loop]. rewrite !words_encode. rewrite !(proj2 (Z.ltb_lt (Z.of_nat (length p1)) _)) by lia.
  cbn [negb andb]. rewrite (read_at_encode _ _ _ Hda), (read_at_encode _ _ _ Han) by (done || lia).
  cbn [mbind result_bind]. rewrite Z.eqb_refl.
  replace (Z.of_nat (length p1) + 2) with (Z.of_nat (length (p1 ++ [x; y]))) by (rewrite length_app; cbn [length]; lia).
  apply (IH _ p2); [by rewrite E, <- app_assoc|simpl in Hk; lia|lia].
Qed.
End distance.

Lemma distance_loop_anti fuel d rhs i b n :
  distance_loop fuel d rhs i = Ok (b, n) → distance_loop fuel rhs d i = Ok (b, - n).
Proof.
  revert i. induction fuel as [|fuel IH]; intros i; cbn [distance_loop]; [done|].
  destruct (i <? len d / width), (i <? len rhs / width); cbn [negb andb].
  - destruct (read_at d i) as [x|]; cbn [mbind result_bind]; [|done].
    destruct (read_at rhs i) as [y|]; cbn [mbind result_bind]; [|done].
    rewrite (Z.eqb_sym y x). destruct (Z.eqb_spec x y) as [->|Hne]; [apply IH|].
    destruct (Z.ltb_spec y x), (Z.ltb_spec x y); try lia.
    + destruct (_ <? _); [by intros [= <- <-]|]. intros H'. inv_ok. rewrite E. cbn [mbind result_bind]. naive_solver.
    + destruct (_ <? _); [by intros [= <- <-]|]. intros H'. inv_ok. rewrite E. cbn [mbind result_bind].
      simplify_eq. by rewrite Z.opp_involutive.
  - intros H'. inv_ok. rewrite E. cbn [mbind result_bind]. by simplify_eq.
  - intros H'. inv_ok. rewrite E. cbn [mbind result_bind]. simplify_eq. by rewrite Z.opp_involutive.
  - by intros [= <- <-].
Qed.

Lemma len_mod_odd (p ws : list Z) : Nat.Even (length p) → length ws = (length p + 1)%nat →
  len (encode ws) mod (2 * width) =? width = true ∧ width <=? len (encode ws) = true.
Proof.
  intros [k Hk] E. rewrite len_encode, E. unfold width. split; [|apply Z.leb_le; lia].
  replace (4 * Z.of_nat (length p + 1)) with (4 + Z.of_nat k * (2 * 4)) by lia. by rewrite Z.mod_add.
Qed.

(** [distance_to] counts revisions.  If one height is reached from another
    by [n] steps to a child, whichever branches they open, [distance_to] finds
    the distance directly, as [n] one way and [-n] the other. *)
Theorem distance_counts_steps n d d' :
  height_ok d → descends n d d' → len d + 12 * Z.of_nat n + 32 < 2 ^ 64 → Z.of_nat n < 2 ^ 32 - 1 →
  distance_to d' d = Ok (true, Z.of_nat n) ∧ distance_to d d' = Ok (true, - Z.of_nat n).
Proof.
  intros (p & w & -> & [Hp Hw]%Forall_word_snoc & Heven) Hd Hlen Hn.
  rewrite len_encode, length_app in Hlen. cbn [length] in Hlen.
  destruct (descends_shape n p w d' Hp Hw) as (j & l & -> & Hj & Hwj & Hl & Hsum); [lia|lia|done|].
  assert (Forall (λ b, word b.1 ∧ 0 ≤ b.2 < 2 ^ 32 - 1) l) as Hl'
    by (eapply Forall_impl; [exact Hl|]; intros b [? ?]; split; [done|lia]).
  assert (Z.of_nat (length l) ≤ count l) as Hll.
  { clear - Hl. induction Hl as [|b l [_ Hb] _ IH]; [done|]. rewrite count_cons. cbn [length]. lia. }
  set (da := p ++ [w + j] ++ branches l). set (an := p ++ [w]).
  assert (4 * Z.of_nat (length da) < 2 ^ 64 - 4) as Hb.
  { unfold da. rewrite !length_app, length_branches. cbn [length]. lia. }
  pose proof Heven as [k Hk].
  destruct (len_mod_odd p an Heven) as [A1 A2]; [unfold an; rewrite length_app; done|].
  destruct (len_mod_odd (p ++ branches l) da) as [D1 D2].
  { rewrite length_app, length_branches. exists (k + length l)%nat. lia. }
  { unfold da. rewrite !length_app. cbn [length]. lia. }
  assert (∀ fuel, (k + 2 ≤ fuel)%nat → distance_loop fuel (encode da) (encode an) 0 = Ok (true, Z.of_nat n)) as Hdist.
  { intros fuel Hf. rewrite <- Hsum. unfold word in Hw.
    apply (distance_common p w j l Hp ltac:(lia) Hj Hwj Hl' Hb [] p k fuel); [done|lia|done]. }
  unfold distance_to. rewrite A1, A2, D1, D2. cbn [I_ mbind result_bind].
  assert (k + 2 ≤ S (length (encode da) + length (encode an)))%nat as Hf.
  { rewrite !length_encode. unfold da, an. rewrite !length_app. cbn [length]. lia. }
  split; [by apply Hdist|]. apply distance_loop_anti. rewrite (Nat.add_comm (length (encode an))). by apply Hdist.
Qed.

Lemma distance_counts_steps_witness :
  distance_to (encode [3; 0; 1]) (encode [2]) = Ok (true, 3) ∧
  distance_to (encode [2]) (encode [3; 0; 1]) = Ok (true, -3).
Proof.
  apply (distance_counts_steps 3 (encode [2]) (encode [3; 0; 1])).
  - exists [], 2. split; [done|]. split; [repeat constructor; unfold word; lia|by exists 0%nat].
  - apply (descends_step 2 _ (encode [3; 0; 0]) 0); [|lia|vm_compute; reflexivity].
    apply (descends_step 1 _ (encode [3]) 1); [|lia|vm_compute; reflexivity].
    apply (descends_step 0 _ (encode [2]) 0); [|lia|vm_compute; reflexivity].
    apply descends_refl.
  - vm_compute. reflexivity.
  - lia.
Defined.
