(* ===== verification/Graph.v ===== *)
(** * Revision graphs ([src/src/graph.cc], [graph.hh])

    [get_reconstruction_path]: a breadth-first search from a node to the
    nearest full text.  [toposort_rev_ancestry]: a topological sort of an
    ancestry map.

    [get_uncommon_ancestors]: three frontiers, one for each of the two
    revisions and one for what both have reached, are advanced in descending
    height order until the first two are empty or equal.  The graph is the
    abstract [rev_graph] of [graph.hh]. *)

From S2P Require Import Prelude.

(** ** Reconstruction paths *)

Class reconstruction_graph := {
  is_base : bytes → bool;
  get_next : bytes → gset bytes
}.

Section reconstruction.
Context `{!reconstruction_graph}.

(** The loop over [next].  [pth] is the shared path object: the first
    extension appends to it in place, the others copy it and take the last
    element off again. *)
Fixpoint extend_path (next : list bytes) (pth : list bytes) (first : bool)
    (next_paths : list (list bytes)) (seen_nodes : gset bytes) :
    result (list (list bytes) * gset bytes) :=
  match next with
  | [] => Ok (next_paths, seen_nodes)
  | j :: next =>
      if bool_decide (j ∈ seen_nodes) then extend_path next pth first next_paths seen_nodes
      else
        pthN ← (if first then Ok pth else I_ (negb (bool_decide (pth = []))) ;; Ok (take (length pth - 1) pth));
        I_ (forallb (λ k, negb (bool_decide (k = j))) pthN) ;;
        let pthN := pthN ++ [j] in
        extend_path next (if first then pthN else pth) false (next_paths ++ [pthN]) ({[j]} ∪ seen_nodes)
  end.

(** The [for] loop over the live paths: the selected path, if any, and the
    next paths. *)
Fixpoint extend_paths (live_paths next_paths : list (list bytes)) (seen_nodes : gset bytes) :
    result (option (list bytes) * list (list bytes) * gset bytes) :=
  match live_paths with
  | [] => Ok (None, next_paths, seen_nodes)
  | pth :: live_paths =>
      tip ← of_option (last pth);
      if is_base tip then Ok (Some pth, next_paths, seen_nodes)
      else
        I_ (negb (bool_decide (get_next tip = ∅))) ;;
        '(next_paths, seen_nodes) ← extend_path (set_iter (get_next tip)) pth true next_paths seen_nodes;
        extend_paths live_paths next_paths seen_nodes
  end.

Fixpoint reconstruction_loop (fuel : nat) (live_paths : list (list bytes)) (seen_nodes : gset bytes) :
    result (list bytes) :=
  match fuel with
  | O => Err UndefinedBehaviour
  | S fuel =>
      I_ (negb (bool_decide (live_paths = []))) ;;
      '(selected_path, next_paths, seen_nodes) ← extend_paths live_paths [] seen_nodes;
      I_ (bool_decide (is_Some selected_path) || negb (bool_decide (next_paths = []))) ;;
      match selected_path with
      | Some p => Ok p
      | None => reconstruction_loop fuel next_paths seen_nodes
      end
  end.

Definition get_reconstruction_path (fuel : nat) (start : bytes) : result (list bytes) :=
  reconstruction_loop fuel [[start]] {[start]}.
End reconstruction.

(** ** Topological sorting *)

(** A [multimap<revision_id, revision_id>] from parents to children: its
    entries in key order. *)
Abbreviation rev_ancestry_map := (list (bytes * bytes)).

Abbreviation null_id x := (bool_decide (x = ([] : bytes))).

(** The number of parents of each revision, as a counter per revision. *)
Definition count_parents (graph : rev_ancestry_map) : gmap bytes Z :=
  let pcount := foldl (λ m i, match m !! i.1 with Some _ => m | None => <[i.1 := 0]> m end) ∅ graph in
  foldl (λ m i, <[i.2 := default 0 (m !! i.2) + 1]> m) pcount graph.

(** The children of [cur] have one parent less. *)
Definition drop_parent (st : gmap bytes Z * list bytes) (child : bytes) : gmap bytes Z * list bytes :=
  let '(pcount, roots) := st in
  let c := default 0 (pcount !! child) - 1 in
  (<[child := c]> pcount, if c =? 0 then roots ++ [child] else roots).

Definition equal_range (graph : rev_ancestry_map) (cur : bytes) : list bytes :=
  (filter (λ i, i.1 = cur) graph).*2.

Fixpoint toposort_loop (fuel : nat) (graph : rev_ancestry_map) (pcount : gmap bytes Z)
    (roots revisions : list bytes) : result (list bytes) :=
  match roots with
  | [] => Ok revisions
  | cur :: roots =>
      match fuel with
      | O => Err UndefinedBehaviour
      | S fuel =>
          let revisions := if null_id cur then revisions else revisions ++ [cur] in
          let '(pcount, roots) := foldl drop_parent (pcount, roots) (equal_range graph cur) in
          toposort_loop fuel graph pcount roots revisions
      end
  end.

Definition toposort_rev_ancestry (fuel : nat) (graph : rev_ancestry_map) : result (list bytes) :=
  let pcount := count_parents graph in
  let roots := (filter (λ i, i.2 = 0) (map_iter pcount)).*1 in
  toposort_loop fuel graph pcount roots [].

(** ** Uncommon ancestors *)

(** [rev_graph]: what the algorithms ask of the ancestry. *)
Class rev_graph := {
  get_parents : bytes → gset bytes;
  get_children : bytes → gset bytes;
  get_height : bytes → bytes
}.

Abbreviation frontier := (gset (bytes * bytes)).

(** [*frontier.rbegin()] *)
Definition rbegin (f : frontier) : option (bytes * bytes) := last (set_iter f).

(** The height a frontier stands at; the default height when it is empty. *)
Definition top_height (f : frontier) : bytes :=
  match rbegin f with Some (h, _) => h | None => [] end.

Section uncommon.
Context `{!rev_graph}.

Definition visit_parent (st : frontier * gset bytes) (r : bytes) : frontier * gset bytes :=
  let '(f, seen) := st in
  if decide (r ∈ seen) then st else ({[(get_height r, r)]} ∪ f, {[r]} ∪ seen).

Definition advance_frontier (f : frontier) (seen : gset bytes) : result (frontier * gset bytes) :=
  h_node ← of_option (rbegin f);
  Ok (foldl visit_parent (f ∖ {[h_node]}, seen) (set_iter (get_parents h_node.2))).

Record uncommon_state := Uncommon {
  a_frontier : frontier; b_frontier : frontier; common_frontier : frontier;
  a_seen : gset bytes; b_seen : gset bytes; common_seen : gset bytes;
  a_uncommon_ancs : gset bytes; b_uncommon_ancs : gset bytes
}.

(** One round of the loop; [None] is the [break]. *)
Definition uncommon_step (s : uncommon_state) : result (option uncommon_state) :=
  let '(Uncommon fa fb fc sa sb sc ua ub) := s in
  let a_height := top_height fa in
  let b_height := top_height fb in
  let common_height := top_height fc in
  if klt b_height a_height && klt common_height a_height then
    x ← of_option (rbegin fa);
    '(fa, sa) ← advance_frontier fa sa;
    Ok (Some (Uncommon fa fb fc sa sb sc ({[x.2]} ∪ ua) ub))
  else if klt a_height b_height && klt common_height b_height then
    x ← of_option (rbegin fb);
    '(fb, sb) ← advance_frontier fb sb;
    Ok (Some (Uncommon fa fb fc sa sb sc ua ({[x.2]} ∪ ub)))
  else if klt a_height common_height && klt b_height common_height then
    '(fc, sc) ← advance_frontier fc sc;
    Ok (Some (Uncommon fa fb fc sa sb sc ua ub))
  else if bool_decide (a_height = b_height) then
    if bool_decide (fa = fb) then Ok None
    else
      x ← of_option (rbegin fa);
      y ← of_option (rbegin fb);
      Ok (Some (Uncommon (fa ∖ {[x]}) (fb ∖ {[y]}) ({[x]} ∪ fc) sa sb sc ua ub))
  else if bool_decide (a_height = common_height) then
    x ← of_option (rbegin fa);
    Ok (Some (Uncommon (fa ∖ {[x]}) fb fc sa sb sc ua ub))
  else if bool_decide (b_height = common_height) then
    y ← of_option (rbegin fb);
    Ok (Some (Uncommon fa (fb ∖ {[y]}) fc sa sb sc ua ub))
  else Err invariant_failure.

Fixpoint uncommon_loop (fuel : nat) (s : uncommon_state) : result (gset bytes * gset bytes) :=
  if bool_decide (a_frontier s = ∅) && bool_decide (b_frontier s = ∅)
  then Ok (a_uncommon_ancs s, b_uncommon_ancs s)
  else
    match fuel with
    | O => Err invariant_failure
    | S fuel =>
        o ← uncommon_step s;
        match o with
        | None => Ok (a_uncommon_ancs s, b_uncommon_ancs s)
        | Some s => uncommon_loop fuel s
        end
    end.

Definition get_uncommon_ancestors (fuel : nat) (a b : bytes) : result (gset bytes * gset bytes) :=
  uncommon_loop fuel
    (Uncommon {[(get_height a, a)]} {[(get_height b, b)]} ∅ {[a]} {[b]} ∅ ∅ ∅).
End uncommon.
