(* ===== verification/UncommonAncestors.v ===== *)
(** * [get_uncommon_ancestors] is exact

    Against any [rev_graph] whose heights strictly decrease towards parents
    and tell revisions apart, the two result sets are exactly the ancestors of
    one revision that are not ancestors of the other. *)

From S2P Require Import Prelude Graph.

(** What an ancestry promises: on the revisions [U], closed under parents,
    heights are non-empty, unique and increase from parent to child. *)
Class RevGraphLaws (rg : rev_graph) (U : gset bytes) := {
  rg_closed x r : x ∈ U → r ∈ get_parents x → r ∈ U;
  rg_valid x : x ∈ U → get_height x ≠ [];
  rg_unique x y : x ∈ U → y ∈ U → get_height x = get_height y → x = y;
  rg_increases x r : x ∈ U → r ∈ get_parents x → klt (get_height r) (get_height x) = true
}.

(** [y] is [x] or one of its ancestors. *)
Definition ancestor `{!rev_graph} : bytes → bytes → Prop := rtc (λ x r, r ∈ get_parents x).

(** ** The top of a frontier *)

Lemma sorted_last {A} (R : A → A → Prop) (l : list A) x y :
  StronglySorted R l → last l = Some x → y ∈ l → y = x ∨ R y x.
Proof.
  induction 1 as [|z l Hs IH Hz]; intros Hl Hy; [done|].
  destruct l as [|w l]; [simpl in Hl; apply elem_of_cons in Hy as [->|Hy]; [left; congruence|by apply not_elem_of_nil in Hy]|].
  rewrite last_cons_cons in Hl. apply elem_of_cons in Hy as [->|Hy]; [|auto].
  right. rewrite Forall_forall in Hz. apply Hz. by eapply last_Some_elem_of.
Qed.

Lemma rbegin_Some f x : rbegin f = Some x → x ∈ f ∧ ∀ y, y ∈ f → y = x ∨ klt y x = true.
Proof.
  unfold rbegin. intros H. split.
  - apply elem_of_set_iter. by eapply last_Some_elem_of.
  - intros y Hy. apply (sorted_last _ _ _ _ (set_iter_sorted f) H). by apply elem_of_set_iter.
Qed.

Lemma rbegin_None f : rbegin f = None → f = ∅.
Proof.
  unfold rbegin. intros H%last_None. apply set_eq. intros x. rewrite <- (elem_of_set_iter f), H. set_solver.
Qed.

Lemma pair_klt_le (p q : bytes * bytes) : klt p q = true → klt q.1 p.1 = false.
Proof.
  destruct p as [a1 b1], q as [a2 b2].
  change (klt (a1, b1) (a2, b2)) with (klt a1 a2 || (negb (klt a2 a1) && klt b1 b2)). cbn [fst].
  destruct (klt a2 a1) eqn:E; [|done]. by rewrite (klt_asym _ _ E).
Qed.

Lemma klt_empty (h : bytes) : h ≠ [] → klt [] h = true.
Proof. by destruct h. Qed.

Lemma size_list_to_set_le `{Countable A} (l : list A) : (size (list_to_set (C := gset A) l) ≤ length l)%nat.
Proof.
  induction l as [|x l IH]; [done|]. cbn [list_to_set length].
  rewrite size_union_alt, size_singleton.
  pose proof (subseteq_size (list_to_set l ∖ {[x]} : gset A) (list_to_set l) ltac:(set_solver)). lia.
Qed.

Lemma size_set_map_le `{Countable A, Countable B} (f : A → B) (X : gset A) :
  (size (set_map (D := gset B) f X) ≤ size X)%nat.
Proof. unfold set_map. etrans; [apply size_list_to_set_le|]. by rewrite length_fmap. Qed.

Lemma size_erase `{Countable A} (f : gset A) p : p ∈ f → (size (f ∖ {[p]}) < size f)%nat.
Proof.
  intros Hp. rewrite size_difference, size_singleton by set_solver.
  assert (size f ≠ 0)%nat by (intros E%size_empty_inv; set_solver). lia.
Qed.

Lemma size_add (f : frontier) p : (size ({[p]} ∪ f) ≤ S (size f))%nat.
Proof.
  rewrite size_union_alt, size_singleton.
  pose proof (subseteq_size (f ∖ {[p]}) f ltac:(set_solver)). lia.
Qed.

Section proof.
Context `{!rev_graph} (U : gset bytes) `{!RevGraphLaws _ U} (a b : bytes) (Ha : a ∈ U) (Hb : b ∈ U).

Abbreviation h := get_height.

(** The revisions of a frontier. *)
Definition on (f : frontier) (x : bytes) : Prop := (h x, x) ∈ f.
(** A frontier pairs revisions of [U] with their heights. *)
Definition proper (f : frontier) : Prop := ∀ p, p ∈ f → p.1 = h p.2 ∧ p.2 ∈ U.

Lemma ancestor_U x y : x ∈ U → ancestor x y → y ∈ U.
Proof. intros Hx Hxy. revert Hx. induction Hxy; intros; [done|]. eauto using rg_closed. Qed.

Lemma ancestor_height x y : x ∈ U → ancestor x y → y = x ∨ klt (h y) (h x) = true.
Proof.
  intros Hx Hxy. revert Hx. induction Hxy as [x|x r y Hr _ IH]; intros Hx; [by left|]. right.
  pose proof (rg_increases x r Hx Hr). destruct (IH (rg_closed x r Hx Hr)) as [->|?]; [done|].
  by eapply klt_trans.
Qed.

Lemma top_spec f :
  proper f → (f = ∅ ∧ top_height f = [] ∧ rbegin f = None) ∨
  ∃ x, rbegin f = Some (h x, x) ∧ top_height f = h x ∧ on f x ∧ x ∈ U ∧
    (∀ y, on f y → y = x ∨ klt (h y) (h x) = true).
Proof.
  intros Hp. unfold top_height. destruct (rbegin f) as [[hx x]|] eqn:E.
  - right. destruct (rbegin_Some _ _ E) as [Hin Hmax]. destruct (Hp _ Hin) as [Hh HU]. cbn [fst snd] in Hh, HU. subst hx.
    exists x. split_and!; [done..|]. intros y Hy. destruct (Hp _ Hy) as [_ HyU]. simpl in HyU.
    destruct (Hmax _ Hy) as [[=]|Hlt]; [by left|]. apply pair_klt_le in Hlt. cbn [fst] in Hlt.
    destruct (klt_total (h y) (h x)) as [?|[?|?]]; [by right| |congruence]. left. by apply rg_unique.
  - left. split_and!; [by apply rbegin_None|done|done].
Qed.

Lemma visit_parents l f seen :
  foldl visit_parent (f, seen) l =
  (set_map (D := frontier) (λ r, (h r, r)) (list_to_set l ∖ seen : gset bytes) ∪ f, list_to_set l ∪ seen).
Proof.
  revert f seen. induction l as [|r l IH]; intros f seen; cbn [foldl visit_parent list_to_set].
  - f_equal; set_solver.
  - case_decide as Hr; rewrite IH; f_equal; [set_solver|set_solver| |set_solver].
    apply set_eq. intros p. rewrite !elem_of_union, !elem_of_map. split.
    + intros [(x & -> & Hx)|[Hp|Hp]]; [left; exists x; set_solver|left; exists r; set_solver|by right].
    + intros [(x & -> & Hx)|Hp]; [|right; by right].
      destruct (decide (x = r)) as [->|]; [right; left; set_solver|left; exists x; set_solver].
Qed.

Lemma advance_size (f : frontier) seen x :
  (h x, x) ∈ f → x ∈ U →
  (size (set_map (D := frontier) (λ r, (h r, r)) (get_parents x ∖ seen) ∪ f ∖ {[(h x, x)]})
     + size (U ∖ (get_parents x ∪ seen)) < size f + size (U ∖ seen))%nat.
Proof.
  intros Hin HxU. set (P := get_parents x ∖ seen).
  pose proof (size_set_map_le (λ r, (h r, r)) P) as H1.
  assert (size f = 1 + size (f ∖ {[(h x, x)]}))%nat as H2.
  { rewrite size_difference, size_singleton by set_solver.
    assert (size f ≠ 0)%nat by (rewrite size_non_empty_iff_L || (intros E%size_empty_inv; set_solver)). lia. }
  assert (size (U ∖ seen) = size P + size (U ∖ (get_parents x ∪ seen)))%nat as H3.
  { rewrite <- size_union by set_solver. f_equal. apply set_eq. intros y.
    pose proof (rg_closed x y HxU). unfold P. destruct (decide (y ∈ get_parents x)); set_solver. }
  rewrite size_union_alt. pose proof (subseteq_size ((f ∖ {[(h x, x)]}) ∖ set_map (λ r, (h r, r)) P)
    (f ∖ {[(h x, x)]}) ltac:(set_solver)). lia.
Qed.

(** [advance_frontier] replaces the top by its unseen parents. *)
Lemma advance_spec f seen x :
  rbegin f = Some (h x, x) →
  ∃ f' seen', advance_frontier f seen = Ok (f', seen') ∧ seen' = get_parents x ∪ seen ∧
    (∀ p, p ∈ f' ↔ (p ∈ f ∧ p ≠ (h x, x)) ∨ (p.1 = h p.2 ∧ p.2 ∈ get_parents x ∧ p.2 ∉ seen)) ∧
    (x ∈ U → size f' + size (U ∖ seen') < size f + size (U ∖ seen))%nat.
Proof.
  intros E. unfold advance_frontier. rewrite E. cbn [of_option mbind result_bind snd].
  rewrite visit_parents, list_to_set_set_iter. eexists _, _. split; [done|]. split; [done|].
  split; [|intros HxU; apply (advance_size f seen x); [by apply rbegin_Some in E as [? _]|done]].
  intros [hy y]. rewrite elem_of_union, elem_of_map, elem_of_difference, elem_of_singleton. simpl. split.
  - intros [(z & [= -> ->] & Hz)|?]; [right; set_solver|by left].
  - intros [?|(-> & ? & ?)]; [by right|left; exists y; set_solver].
Qed.

(** ** The invariant

    [K] are the revisions already advanced in the common frontier. *)
Record side (root : bytes) (f fc : frontier) (seen unc K : gset bytes) : Prop := {
  sd_proper : proper f;
  sd_root : root ∈ seen;
  sd_on x : on f x → x ∈ seen;
  sd_anc x : x ∈ seen → ancestor root x;
  sd_cover x : x ∈ seen → on f x ∨ x ∈ unc ∨ on fc x ∨ x ∈ K;
  sd_unc x : x ∈ unc → x ∈ seen ∧ get_parents x ⊆ seen
}.

Record common (fc : frontier) (sc K : gset bytes) : Prop := {
  cm_proper : proper fc;
  cm_anc x : on fc x ∨ x ∈ K → ancestor a x ∧ ancestor b x;
  cm_closed x r : x ∈ K → r ∈ get_parents x → on fc r ∨ r ∈ K;
  cm_seen x : x ∈ sc → on fc x ∨ x ∈ K
}.

Record inv (s : uncommon_state) (K : gset bytes) : Prop := {
  i_a : side a (a_frontier s) (common_frontier s) (a_seen s) (a_uncommon_ancs s) K;
  i_b : side b (b_frontier s) (common_frontier s) (b_seen s) (b_uncommon_ancs s) K;
  i_c : common (common_frontier s) (common_seen s) K;
  i_done p x : p ∈ a_uncommon_ancs s ∨ p ∈ b_uncommon_ancs s ∨ p ∈ K →
    on (a_frontier s) x ∨ on (b_frontier s) x ∨ on (common_frontier s) x → klt (h x) (h p) = true;
  i_ua x : x ∈ a_uncommon_ancs s → ¬ ancestor b x;
  i_ub x : x ∈ b_uncommon_ancs s → ¬ ancestor a x
}.

(** Every ancestor is accounted for. *)
Lemma covered root f fc seen unc sc K x :
  side root f fc seen unc K → common fc sc K → ancestor root x →
  x ∈ unc ∨ x ∈ K ∨ ∃ y, (on f y ∨ on fc y) ∧ ancestor y x.
Proof.
  intros Hs Hc Hx.
  assert (∀ s x, ancestor s x → s ∈ seen ∨ on fc s ∨ s ∈ K →
    x ∈ unc ∨ x ∈ K ∨ ∃ y, (on f y ∨ on fc y) ∧ ancestor y x) as Hgen; [|by apply (Hgen root x Hx); left; apply Hs].
  clear x Hx. intros s x Hsx. induction Hsx as [s|s r x Hr Hrx IH]; intros Hcase.
  - destruct Hcase as [Hin|[?|?]]; [|right; right; exists s; split; [by right|apply rtc_refl]|auto].
    destruct (sd_cover _ _ _ _ _ _ Hs s Hin) as [?|[?|[?|?]]]; [|auto| |auto];
      right; right; exists s; (split; [auto|apply rtc_refl]).
  - destruct Hcase as [Hin|[?|HK]]; [|right; right; exists s; split; [by right|by eapply rtc_l]|].
    + destruct (sd_cover _ _ _ _ _ _ Hs s Hin) as [?|[Hu|[?|HK]]].
      * right; right; exists s; split; [by left|by eapply rtc_l].
      * apply IH. left. by apply (sd_unc _ _ _ _ _ _ Hs s Hu).
      * right; right; exists s; split; [by right|by eapply rtc_l].
      * apply IH. right. by apply (cm_closed _ _ _ Hc s r HK).
    + apply IH. right. by apply (cm_closed _ _ _ Hc s r HK).
Qed.

(** A revision above everything the other side has pending is not its ancestor. *)
Lemma above_not_ancestor root f fc seen unc sc K x :
  side root f fc seen unc K → common fc sc K →
  (∀ p, p ∈ unc ∨ p ∈ K → p ≠ x) → (∀ y, on f y ∨ on fc y → klt (h y) (h x) = true) →
  ¬ ancestor root x.
Proof.
  intros Hs Hc Hdone Hlt Hx. destruct (covered _ _ _ _ _ _ _ x Hs Hc Hx) as [?|[?|(y & Hy & Hyx)]].
  - by eapply Hdone; [left|].
  - by eapply Hdone; [right|].
  - assert (y ∈ U) as HyU.
    { destruct Hy as [Hy|Hy]; [by apply (sd_proper _ _ _ _ _ _ Hs) in Hy as [_ ?]|by apply (cm_proper _ _ _ Hc) in Hy as [_ ?]]. }
    pose proof (Hlt y Hy) as Hyx2. destruct (ancestor_height y x HyU Hyx) as [->|Hxy].
    + by rewrite klt_irrefl in Hyx2.
    + by rewrite (klt_asym _ _ Hxy) in Hyx2.
Qed.

(** ** Moves of one side *)

Lemma on_erase f x y : on (f ∖ {[(h x, x)]}) y ↔ on f y ∧ y ≠ x.
Proof. unfold on. rewrite elem_of_difference, elem_of_singleton. naive_solver. Qed.

Lemma proper_erase f p : proper f → proper (f ∖ {[p]}).
Proof. intros Hf q [Hq _]%elem_of_difference. auto. Qed.

Lemma side_grow root f fc fc' seen unc K K' :
  side root f fc seen unc K → (∀ x, on fc x ∨ x ∈ K → on fc' x ∨ x ∈ K') → side root f fc' seen unc K'.
Proof.
  intros [H1 H2 H3 H4 H5 H6] Hg. constructor; try done.
  intros x Hx. destruct (H5 x Hx) as [?|[?|?]]; [auto..|]. right; right. auto.
Qed.

Lemma side_erase root f fc seen unc K x :
  side root f fc seen unc K → on fc x ∨ x ∈ K → side root (f ∖ {[(h x, x)]}) fc seen unc K.
Proof.
  intros [H1 H2 H3 H4 H5 H6] Hx. constructor; try done.
  - by apply proper_erase.
  - intros y [? _]%on_erase. auto.
  - intros y Hy. rewrite on_erase. destruct (decide (y = x)) as [->|]; [tauto|].
    destruct (H5 y Hy) as [?|[?|?]]; auto.
Qed.

Lemma side_advance root f fc seen unc K x f' :
  side root f fc seen unc K → on f x → x ∈ U →
  (∀ p, p ∈ f' ↔ (p ∈ f ∧ p ≠ (h x, x)) ∨ (p.1 = h p.2 ∧ p.2 ∈ get_parents x ∧ p.2 ∉ seen)) →
  side root f' fc (get_parents x ∪ seen) ({[x]} ∪ unc) K.
Proof.
  intros [H1 H2 H3 H4 H5 H6] Hon HxU Hf'.
  assert (∀ y, on f' y ↔ (on f y ∧ y ≠ x) ∨ (y ∈ get_parents x ∧ y ∉ seen)) as Hon'.
  { intros y. unfold on. rewrite Hf'. cbn [fst snd]. naive_solver. }
  constructor.
  - intros p [[? _]|(? & Hp & _)]%Hf'; [auto|]. split; [done|]. by eapply rg_closed.
  - set_solver.
  - intros y [[? _]|[? _]]%Hon'; set_solver.
  - intros y [Hy|Hy]%elem_of_union; [|auto]. eapply rtc_r; [apply H4, (H3 x Hon)|done].
  - intros y Hy. rewrite Hon'. destruct (decide (y = x)) as [->|Hne]; [right; left; set_solver|].
    destruct (decide (y ∈ seen)) as [Hs|Hs]; [|left; right; set_solver].
    destruct (H5 y Hs) as [?|[?|?]]; [left; left; auto|right; left; set_solver|right; right; done].
  - intros y [Hy|Hy]%elem_of_union.
    + apply elem_of_singleton in Hy as ->. split; [|set_solver]. specialize (H3 x Hon). set_solver.
    + destruct (H6 y Hy). set_solver.
Qed.

Lemma above_of g x : proper g → klt (top_height g) (h x) = true → ∀ y, on g y → klt (h y) (h x) = true.
Proof.
  intros Hg Hlt y Hy. destruct (top_spec g Hg) as [(-> & _)|(z & _ & E & _ & _ & Hmax)]; [by unfold on in Hy; apply elem_of_empty in Hy|].
  rewrite E in Hlt. destruct (Hmax y Hy) as [->|?]; [done|]. by eapply klt_trans.
Qed.

(** A frontier that stands above something is not empty. *)
Lemma top_above f k :
  proper f → klt k (top_height f) = true →
  ∃ x, rbegin f = Some (h x, x) ∧ top_height f = h x ∧ on f x ∧ x ∈ U ∧
    (∀ y, on f y → y = x ∨ klt (h y) (h x) = true).
Proof.
  intros Hf Hlt. destruct (top_spec f Hf) as [(_ & E & _)|?]; [|done]. rewrite E in Hlt. by destruct k.
Qed.

Definition measure (s : uncommon_state) : nat :=
  size (a_frontier s) + size (U ∖ a_seen s) + (size (b_frontier s) + size (U ∖ b_seen s)) +
  (size (common_frontier s) + size (U ∖ common_seen s)).

(** The parents that replace [x] stay below everything already done. *)
Lemma done_advance (x : bytes) (f f' : frontier) (seen : gset bytes) (others : bytes → Prop) (done_ : bytes → Prop) :
  x ∈ U → on f x → (∀ y, on f y → y = x ∨ klt (h y) (h x) = true) →
  (∀ y, others y → klt (h y) (h x) = true) →
  (∀ p, p ∈ f' ↔ (p ∈ f ∧ p ≠ (h x, x)) ∨ (p.1 = h p.2 ∧ p.2 ∈ get_parents x ∧ p.2 ∉ seen)) →
  (∀ p y, done_ p → on f y ∨ others y → klt (h y) (h p) = true) →
  ∀ p y, p = x ∨ done_ p → on f' y ∨ others y → klt (h y) (h p) = true.
Proof.
  intros HxU Hon Hmax Hoth Hf' Hdone p y Hp Hy.
  assert (klt (h y) (h x) = true ∧ (on f y ∨ others y) ∨ klt (h y) (h x) = true ∧ y ∈ get_parents x) as Hcases.
  { destruct Hy as [Hy|Hy]; [|left; auto]. unfold on in Hy. apply Hf' in Hy as [[Hy Hne]|(_ & Hy & _)].
    - left. destruct (Hmax y Hy) as [->|?]; [done|]. auto.
    - right. split; [|done]. by apply rg_increases. }
  destruct Hp as [->|Hp]; [tauto|]. destruct Hcases as [[_ ?]|[Hlt _]]; [auto|].
  eapply klt_trans; [exact Hlt|]. auto.
Qed.

Lemma same_top f g x y :
  x ∈ U → y ∈ U → top_height f = h x → top_height g = h y → top_height f = top_height g → x = y.
Proof. intros. apply rg_unique; [done..|]. congruence. Qed.

Lemma step_a fa fb fc sa sb sc ua ub K :
  inv (Uncommon fa fb fc sa sb sc ua ub) K →
  klt (top_height fb) (top_height fa) = true → klt (top_height fc) (top_height fa) = true →
  ∃ x fa' sa', rbegin fa = Some (h x, x) ∧ advance_frontier fa sa = Ok (fa', sa') ∧
    inv (Uncommon fa' fb fc sa' sb sc ({[x]} ∪ ua) ub) K ∧
    (size fa' + size (U ∖ sa') < size fa + size (U ∖ sa))%nat.
Proof.
  intros [Ia Ib Ic Idone Iua Iub] Hba Hca. cbn in *.
  destruct (top_above fa _ (sd_proper _ _ _ _ _ _ Ia) Hba) as (x & Er & Et & Hon & HxU & Hmax).
  rewrite Et in Hba, Hca.
  pose proof (above_of fb x (sd_proper _ _ _ _ _ _ Ib) Hba) as Hb'.
  pose proof (above_of fc x (cm_proper _ _ _ Ic) Hca) as Hc'.
  destruct (advance_spec fa sa x Er) as (fa' & sa' & -> & -> & Hf' & Hsize).
  exists x, fa', (get_parents x ∪ sa). split_and!; [done|done| |auto].
  constructor; cbn; [|done|done| | |done].
  - by eapply side_advance.
  - intros p y Hp Hy.
    apply (done_advance x fa fa' sa (λ y, on fb y ∨ on fc y) (λ p, p ∈ ua ∨ p ∈ ub ∨ p ∈ K)); try done;
      [naive_solver|set_solver].
  - intros y [->%elem_of_singleton|Hy]%elem_of_union; [|auto].
    eapply (above_not_ancestor b fb fc sb ub sc K x); [done|done| |naive_solver].
    intros p Hp ->. assert (klt (h x) (h x) = true) as E by (apply Idone; tauto). by rewrite klt_irrefl in E.
Qed.

Lemma step_c fa fb fc sa sb sc ua ub K :
  inv (Uncommon fa fb fc sa sb sc ua ub) K →
  klt (top_height fa) (top_height fc) = true → klt (top_height fb) (top_height fc) = true →
  ∃ x fc' sc', advance_frontier fc sc = Ok (fc', sc') ∧
    inv (Uncommon fa fb fc' sa sb sc' ua ub) ({[x]} ∪ K) ∧
    (size fc' + size (U ∖ sc') < size fc + size (U ∖ sc))%nat.
Proof.
  intros [Ia Ib Ic Idone Iua Iub] Hac Hbc. cbn in *.
  destruct (top_above fc _ (cm_proper _ _ _ Ic) Hac) as (x & Er & Et & Hon & HxU & Hmax).
  rewrite Et in Hac, Hbc.
  pose proof (above_of fa x (sd_proper _ _ _ _ _ _ Ia) Hac) as Ha'.
  pose proof (above_of fb x (sd_proper _ _ _ _ _ _ Ib) Hbc) as Hb'.
  destruct (advance_spec fc sc x Er) as (fc' & sc' & -> & -> & Hf' & Hsize).
  assert (∀ y, on fc' y ↔ (on fc y ∧ y ≠ x) ∨ (y ∈ get_parents x ∧ y ∉ sc)) as Hon'.
  { intros y. unfold on. rewrite Hf'. cbn [fst snd]. naive_solver. }
  assert (∀ y, on fc y ∨ y ∈ K → on fc' y ∨ y ∈ {[x]} ∪ K) as Hgrow.
  { intros y Hy. rewrite Hon'. destruct (decide (y = x)) as [->|]; set_solver. }
  exists x, fc', (get_parents x ∪ sc). split_and!; [done| |auto].
  constructor; cbn; [by eapply side_grow|by eapply side_grow| | |done|done].
  - destruct Ic as [C1 C2 C3 C4].
    assert (∀ y, y ∈ get_parents x → ancestor a y ∧ ancestor b y) as Hpar.
    { intros y Hy. destruct (C2 x (or_introl Hon)). split; by eapply rtc_r. }
    assert (∀ y, y ∈ get_parents x → on fc' y ∨ y ∈ {[x]} ∪ K) as Hpk.
    { intros y Hy. destruct (decide (y ∈ sc)) as [Hs|Hs]; [apply Hgrow, C4, Hs|left; apply Hon'; auto]. }
    constructor.
    + intros q [[? _]|(? & Hq & _)]%Hf'; [auto|]. split; [done|]. by eapply rg_closed.
    + intros y. rewrite Hon', elem_of_union, elem_of_singleton. intros [[[Hy _]|[Hy _]]|[->|Hy]]; auto.
    + intros y r [->%elem_of_singleton|Hy]%elem_of_union Hr; [auto|]. apply Hgrow. eauto.
    + intros y [Hy|Hy]%elem_of_union; auto.
  - intros p y Hp Hy. rewrite elem_of_union, elem_of_singleton in Hp.
    apply (done_advance x fc fc' sc (λ y, on fa y ∨ on fb y) (λ p, p ∈ ua ∨ p ∈ ub ∨ p ∈ K)); try done.
    + intros z [?|?]; auto.
    + intros q z Hq Hz. apply Idone; tauto.
    + tauto.
    + tauto.
Qed.

(** Forgetting a revision that the common frontier holds. *)
Lemma step_erase fa fb fc sa sb sc ua ub K x :
  inv (Uncommon fa fb fc sa sb sc ua ub) K → on fc x →
  inv (Uncommon (fa ∖ {[(h x, x)]}) fb fc sa sb sc ua ub) K.
Proof.
  intros [Ia Ib Ic Idone Iua Iub] Hx. constructor; cbn in *; try done.
  - apply side_erase; [done|by left].
  - intros p y Hp Hy. apply Idone; [done|]. rewrite on_erase in Hy. tauto.
Qed.

(** Both sides have reached [x]. *)
Lemma step_common fa fb fc sa sb sc ua ub K x :
  inv (Uncommon fa fb fc sa sb sc ua ub) K → on fa x → on fb x → x ∈ U →
  inv (Uncommon fa fb ({[(h x, x)]} ∪ fc) sa sb sc ua ub) K.
Proof.
  intros [Ia Ib Ic Idone Iua Iub] Hxa Hxb HxU.
  assert (∀ y, on ({[(h x, x)]} ∪ fc) y ↔ y = x ∨ on fc y) as Hon'.
  { intros y. unfold on. rewrite elem_of_union, elem_of_singleton. naive_solver. }
  constructor; cbn in *; [| | | |done|done].
  - eapply side_grow; [done|]. intros y. rewrite Hon'. tauto.
  - eapply side_grow; [done|]. intros y. rewrite Hon'. tauto.
  - destruct Ic as [C1 C2 C3 C4]. constructor.
    + intros p [->%elem_of_singleton|Hp]%elem_of_union; auto.
    + intros y. rewrite Hon'. intros [[->|?]|?]; auto. split.
      * apply (sd_anc _ _ _ _ _ _ Ia), (sd_on _ _ _ _ _ _ Ia), Hxa.
      * apply (sd_anc _ _ _ _ _ _ Ib), (sd_on _ _ _ _ _ _ Ib), Hxb.
    + intros y r Hy Hr. rewrite Hon'. destruct (C3 y r Hy Hr); auto.
    + intros y Hy. rewrite Hon'. destruct (C4 y Hy); auto.
  - intros p y Hp Hy. apply Idone; [done|]. rewrite Hon' in Hy. destruct Hy as [?|[?|[->|?]]]; auto.
Qed.

Lemma inv_init :
  inv (Uncommon {[(h a, a)]} {[(h b, b)]} ∅ {[a]} {[b]} ∅ ∅ ∅) ∅.
Proof.
  assert (∀ c x, on {[(h c, c)]} x ↔ x = c) as Hon.
  { intros c x. unfold on. rewrite elem_of_singleton. naive_solver. }
  assert (∀ x, ¬ on ∅ x) as Hemp by (intros x; unfold on; set_solver).
  assert (∀ c, c ∈ U → side c {[(h c, c)]} ∅ {[c]} ∅ ∅) as Hside.
  { intros c Hc. constructor.
    - by intros p ->%elem_of_singleton.
    - set_solver.
    - intros x ->%Hon. set_solver.
    - intros x ->%elem_of_singleton. apply rtc_refl.
    - intros x ->%elem_of_singleton. left. by apply Hon.
    - set_solver. }
  constructor; cbn; [auto|auto| |set_solver|set_solver|set_solver].
  constructor; [by intros p ?%elem_of_empty|..].
  - intros x [Hx|Hx]; [by destruct (Hemp x)|set_solver].
  - set_solver.
  - set_solver.
Qed.

(** When the loop ends the sets are complete. *)
Lemma inv_complete s K x :
  inv s K → (∀ y, on (a_frontier s) y → on (b_frontier s) y) →
  x ∈ a_uncommon_ancs s ↔ ancestor a x ∧ ¬ ancestor b x.
Proof.
  intros [Ia Ib Ic Idone Iua Iub] Hend. split.
  - intros Hx. split; [|by apply Iua]. apply (sd_anc _ _ _ _ _ _ Ia). by destruct (sd_unc _ _ _ _ _ _ Ia x Hx).
  - intros [Hax Hbx].
    destruct (covered _ _ _ _ _ _ _ x Ia Ic Hax) as [?|[HK|(y & [Hy|Hy] & Hyx)]]; [done|exfalso..]; apply Hbx.
    + apply (cm_anc _ _ _ Ic). by right.
    + etrans; [|exact Hyx]. apply (sd_anc _ _ _ _ _ _ Ib), (sd_on _ _ _ _ _ _ Ib), Hend, Hy.
    + etrans; [|exact Hyx]. apply (cm_anc _ _ _ Ic). by left.
Qed.
End proof.

Lemma inv_sym `{!rev_graph} U a b fa fb fc sa sb sc ua ub K :
  inv U a b (Uncommon fa fb fc sa sb sc ua ub) K → inv U b a (Uncommon fb fa fc sb sa sc ub ua) K.
Proof.
  intros [Ia Ib [C1 C2 C3 C4] Idone Iua Iub]. constructor; cbn in *; try done.
  - split; [exact C1| |exact C3|exact C4]. intros x Hx. destruct (C2 x Hx). done.
  - intros p x Hp Hx. apply Idone; tauto.
Qed.

Section loop.
Context `{!rev_graph} (U : gset bytes) `{!RevGraphLaws _ U} (a b : bytes) (Ha : a ∈ U) (Hb : b ∈ U).

(** At equal heights both frontiers have the same revision on top. *)
Lemma equal_tops (f g : frontier) :
  proper U f → proper U g → f ≠ ∅ ∨ g ≠ ∅ → top_height f = top_height g →
  ∃ x, rbegin f = Some (get_height x, x) ∧ rbegin g = Some (get_height x, x) ∧
    on f x ∧ on g x ∧ x ∈ U ∧ top_height f = get_height x.
Proof.
  intros Hf Hg Hne E.
  destruct (top_spec U f Hf) as [(-> & E1 & _)|(x & Er & Et & Hon & HxU & _)];
  destruct (top_spec U g Hg) as [(-> & E2 & _)|(y & Er' & Et' & Hon' & HyU & _)].
  - by destruct Hne.
  - pose proof (rg_valid y HyU). congruence.
  - pose proof (rg_valid x HxU). congruence.
  - assert (x = y) as <- by (by eapply (same_top U f g)). exists x. by split_and!.
Qed.

Lemma uncommon_step_spec s K :
  inv U a b s K → a_frontier s ≠ ∅ ∨ b_frontier s ≠ ∅ →
  (uncommon_step s = Ok None ∧ a_frontier s = b_frontier s) ∨
  ∃ s' K', uncommon_step s = Ok (Some s') ∧ inv U a b s' K' ∧ (measure U s' < measure U s)%nat.
Proof.
  intros I Hne. destruct s as [fa fb fc sa sb sc ua ub].
  pose proof (sd_proper _ _ _ _ _ _ _ (i_a _ _ _ _ _ I)) as Pa.
  pose proof (sd_proper _ _ _ _ _ _ _ (i_b _ _ _ _ _ I)) as Pb.
  pose proof (cm_proper _ _ _ _ _ _ (i_c _ _ _ _ _ I)) as Pc.
  cbn [a_frontier b_frontier common_frontier] in *. unfold uncommon_step, measure.
  cbn [a_frontier b_frontier common_frontier a_seen b_seen common_seen].
  destruct (klt (top_height fb) (top_height fa) && klt (top_height fc) (top_height fa)) eqn:C1.
  { apply andb_true_iff in C1 as [H1 H2]. right.
    destruct (step_a U a b Ha Hb _ _ _ _ _ _ _ _ _ I H1 H2) as (x & fa' & sa' & -> & -> & I' & Hm).
    eexists _, _. split; [done|]. split; [exact I'|]. cbn. lia. }
  destruct (klt (top_height fa) (top_height fb) && klt (top_height fc) (top_height fb)) eqn:C2.
  { apply andb_true_iff in C2 as [H1 H2]. right.
    destruct (step_a U b a Hb Ha _ _ _ _ _ _ _ _ _ (inv_sym _ _ _ _ _ _ _ _ _ _ _ _ I) H1 H2)
      as (x & fb' & sb' & -> & -> & I' & Hm).
    eexists _, _. split; [done|]. split; [exact (inv_sym _ _ _ _ _ _ _ _ _ _ _ _ I')|]. cbn. lia. }
  destruct (klt (top_height fa) (top_height fc) && klt (top_height fb) (top_height fc)) eqn:C3.
  { apply andb_true_iff in C3 as [H1 H2]. right.
    destruct (step_c U a b Ha Hb _ _ _ _ _ _ _ _ _ I H1 H2) as (x & fc' & sc' & -> & I' & Hm).
    eexists _, _. split; [done|]. split; [exact I'|]. cbn. lia. }
  destruct (decide (top_height fa = top_height fb)) as [E|Ene];
    [rewrite bool_decide_true by done|rewrite bool_decide_false by done].
  { destruct (equal_tops fa fb Pa Pb Hne E) as (x & Ea & Eb & Hxa & Hxb & HxU & _).
    destruct (decide (fa = fb)) as [Eq|Hdiff]; [rewrite bool_decide_true by done; by left|].
    rewrite bool_decide_false by done. right. rewrite Ea, Eb.
    eexists _, K. split; [done|]. split.
    - assert (on ({[(get_height x, x)]} ∪ fc) x) as Hxc by (unfold on; set_solver).
      pose proof (step_common U a b _ _ _ _ _ _ _ _ _ _ I Hxa Hxb HxU) as I1.
      pose proof (step_erase U a b _ _ _ _ _ _ _ _ _ _ I1 Hxc) as I2.
      exact (inv_sym _ _ _ _ _ _ _ _ _ _ _ _
        (step_erase U b a _ _ _ _ _ _ _ _ _ _ (inv_sym _ _ _ _ _ _ _ _ _ _ _ _ I2) Hxc)).
    - cbn. pose proof (size_erase fa _ Hxa). pose proof (size_erase fb _ Hxb).
      pose proof (size_add fc (get_height x, x)). lia. }
  assert (∀ f, f ≠ ∅ ∨ fc ≠ ∅ → proper U f → top_height f = top_height fc →
    ∃ x, rbegin f = Some (get_height x, x) ∧ on f x ∧ on fc x) as Htie.
  { intros f Hf Pf E. destruct (equal_tops f fc Pf Pc Hf E) as (x & ? & _ & ? & ? & _). eauto. }
  destruct (decide (top_height fa = top_height fc)) as [E|Ene2];
    [rewrite bool_decide_true by done|rewrite bool_decide_false by done].
  { destruct (decide (fa = ∅ ∧ fc = ∅)) as [[-> ->]|Hn].
    - exfalso. destruct Hne as [?|Hfb]; [done|]. apply andb_false_iff in C2.
      destruct (top_spec U fb Pb) as [(? & _)|(y & _ & Et & _ & HyU & _)]; [done|].
      assert (klt (top_height ∅) (top_height fb) = true) as Hk
        by (rewrite Et; apply klt_empty, rg_valid, HyU). destruct C2; congruence.
    - destruct (Htie fa) as (x & Er & Hxa & Hxc); [|done|done|].
      { destruct (decide (fa = ∅)); [right|by left]. intros ->. by apply Hn. }
      rewrite Er. right. eexists _, K. split; [done|]. split; [by apply (step_erase U a b)|].
      cbn. pose proof (size_erase fa _ Hxa). lia. }
  destruct (decide (top_height fb = top_height fc)) as [E|Ene3];
    [rewrite bool_decide_true by done|rewrite bool_decide_false by done].
  { destruct (decide (fb = ∅ ∧ fc = ∅)) as [[-> ->]|Hn].
    - exfalso. destruct Hne as [Hfa|?]; [|done]. apply andb_false_iff in C1.
      destruct (top_spec U fa Pa) as [(? & _)|(y & _ & Et & _ & HyU & _)]; [done|].
      assert (klt (top_height ∅) (top_height fa) = true) as Hk
        by (rewrite Et; apply klt_empty, rg_valid, HyU). destruct C1; congruence.
    - destruct (Htie fb) as (x & Er & Hxb & Hxc); [|done|done|].
      { destruct (decide (fb = ∅)); [right|by left]. intros ->. by apply Hn. }
      rewrite Er. right. eexists _, K. split; [done|]. split.
      + exact (inv_sym _ _ _ _ _ _ _ _ _ _ _ _
          (step_erase U b a _ _ _ _ _ _ _ _ _ _ (inv_sym _ _ _ _ _ _ _ _ _ _ _ _ I) Hxc)).
      + cbn. pose proof (size_erase fb _ Hxb). lia. }
  exfalso. destruct (klt_total (top_height fa) (top_height fb)) as [H1|[H1|H1]]; [|done|].
  - destruct (klt_total (top_height fb) (top_height fc)) as [H2|[H2|H2]]; [|done|by rewrite H1, H2 in C2].
    rewrite (klt_trans _ _ _ H1 H2), H2 in C3. done.
  - destruct (klt_total (top_height fa) (top_height fc)) as [H2|[H2|H2]]; [|done|by rewrite H1, H2 in C1].
    rewrite H2, (klt_trans _ _ _ H1 H2) in C3. done.
Qed.

Lemma uncommon_loop_spec fuel s K :
  inv U a b s K → (measure U s ≤ fuel)%nat →
  ∃ ua ub, uncommon_loop fuel s = Ok (ua, ub) ∧
    (∀ x, x ∈ ua ↔ ancestor a x ∧ ¬ ancestor b x) ∧ (∀ x, x ∈ ub ↔ ancestor b x ∧ ¬ ancestor a x).
Proof.
  assert (∀ s K, inv U a b s K → a_frontier s = b_frontier s →
    (∀ x, x ∈ a_uncommon_ancs s ↔ ancestor a x ∧ ¬ ancestor b x) ∧
    (∀ x, x ∈ b_uncommon_ancs s ↔ ancestor b x ∧ ¬ ancestor a x)) as Hend.
  { clear. intros [fa fb fc sa sb sc ua ub] K I. cbn. intros <-. split; intros x.
    - apply (inv_complete U a b _ K x I). done.
    - apply (inv_complete U b a _ K x (inv_sym _ _ _ _ _ _ _ _ _ _ _ _ I)). done. }
  revert s K. induction fuel as [|fuel IH]; intros s K I Hm; cbn [uncommon_loop].
  all: destruct (decide (a_frontier s = ∅ ∧ b_frontier s = ∅)) as [[E1 E2]|Hne];
    [rewrite !bool_decide_true by done; cbn [andb]; eexists _, _; split; [done|];
     apply (Hend s K I); congruence|].
  all: assert (a_frontier s ≠ ∅ ∨ b_frontier s ≠ ∅) as Hne'
    by (destruct (decide (a_frontier s = ∅)); [right; intros ?; by apply Hne|by left]).
  all: assert (bool_decide (a_frontier s = ∅) && bool_decide (b_frontier s = ∅) = false) as ->
    by (apply andb_false_iff; rewrite !bool_decide_eq_false; tauto).
  - exfalso. unfold measure in Hm.
    destruct Hne' as [Hn|Hn]; apply Hn, leibniz_equiv, size_empty_inv; lia.
  - destruct (uncommon_step_spec s K I Hne') as [[-> E]|(s' & K' & -> & I' & Hlt)]; cbn [mbind result_bind].
    + eexists _, _. split; [done|]. by apply (Hend s K I).
    + apply (IH s' K' I'). lia.
Qed.
End loop.

(** C27: [get_uncommon_ancestors] terminates within three steps per revision of
    the ancestry, never trips its [I(false)], and returns exactly the
    ancestors of [a] that are not ancestors of [b] and the ancestors of [b]
    that are not ancestors of [a] (a revision counts as its own ancestor). *)
Theorem uncommon_ancestors_exact `{!rev_graph} (U : gset bytes) `{!RevGraphLaws _ U} (a b : bytes) (fuel : nat) :
  a ∈ U → b ∈ U → (3 * size U ≤ fuel)%nat →
  ∃ ua ub, get_uncommon_ancestors fuel a b = Ok (ua, ub) ∧
    (∀ x, x ∈ ua ↔ ancestor a x ∧ ¬ ancestor b x) ∧ (∀ x, x ∈ ub ↔ ancestor b x ∧ ¬ ancestor a x).
Proof.
  intros Ha Hb Hf. apply (uncommon_loop_spec U a b Ha Hb fuel _ ∅ (inv_init U a b Ha Hb)).
  assert (∀ c, c ∈ U → size U = S (size (U ∖ {[c]}))) as Hs.
  { intros c Hc. pose proof (size_erase U c Hc). rewrite size_difference, size_singleton in * by set_solver. lia. }
  unfold measure. cbn. rewrite !size_singleton. pose proof (Hs a Ha). pose proof (Hs b Hb).
  assert (size (U ∖ ∅) = size U) as -> by (f_equal; set_solver). change (size (∅ : frontier)) with 0%nat. lia.
Qed.

(** A diamond with a tail: 0 is the root, 1 and 2 its children, 3 merges
    them and 4 is a second child of 2. *)
Module Diamond.
Definition rev (n : Z) : bytes := [byte_of n].

#[global] Instance graph : rev_graph := {|
  get_parents x :=
    if bool_decide (x = rev 1) then {[rev 0]} else if bool_decide (x = rev 2) then {[rev 0]}
    else if bool_decide (x = rev 3) then {[rev 1; rev 2]} else if bool_decide (x = rev 4) then {[rev 2]}
    else ∅;
  get_children x :=
    if bool_decide (x = rev 0) then {[rev 1; rev 2]} else if bool_decide (x = rev 1) then {[rev 3]}
    else if bool_decide (x = rev 2) then {[rev 3; rev 4]} else ∅;
  get_height x := byte_of 0 :: x
|}.

Definition U : gset bytes := list_to_set (map rev [0; 1; 2; 3; 4]).

#[global] Instance laws : RevGraphLaws graph U.
Proof.
  assert (∀ x, x ∈ U → set_Forall (λ r, r ∈ U ∧ klt (get_height r) (get_height x) = true) (get_parents x)) as H.
  { change (set_Forall (λ x, set_Forall (λ r, r ∈ U ∧ klt (get_height r) (get_height x) = true) (get_parents x)) U).
    apply (bool_decide_unpack _). by vm_compute. }
  split.
  - intros x r Hx Hr. by apply (H x Hx r Hr).
  - done.
  - intros x y _ _ [=]. congruence.
  - intros x r Hx Hr. by apply (H x Hx r Hr).
Qed.
End Diamond.

Lemma uncommon_ancestors_exact_witness :
  get_uncommon_ancestors 15 (Diamond.rev 3) (Diamond.rev 4) =
    Ok ({[Diamond.rev 1; Diamond.rev 3]}, {[Diamond.rev 4]}) ∧
  ∃ ua ub, get_uncommon_ancestors 15 (Diamond.rev 3) (Diamond.rev 4) = Ok (ua, ub) ∧
    (∀ x, x ∈ ua ↔ ancestor (Diamond.rev 3) x ∧ ¬ ancestor (Diamond.rev 4) x) ∧
    (∀ x, x ∈ ub ↔ ancestor (Diamond.rev 4) x ∧ ¬ ancestor (Diamond.rev 3) x).
Proof.
  split; [by vm_compute|].
  refine (uncommon_ancestors_exact Diamond.U (Diamond.rev 3) (Diamond.rev 4) 15 _ _ _).
  - apply (bool_decide_unpack _). by vm_compute.
  - apply (bool_decide_unpack _). by vm_compute.
  - vm_compute. lia.
Defined.
