(* ===== verification/ReconstructionPath.v ===== *)
(** * [get_reconstruction_path] finds a shortest path

    The breadth-first search visits the nodes by their distance from the
    start: after [d] rounds the live paths end in exactly the nodes at
    distance [d], and the nodes seen are those at most [d] steps away. *)

From S2P Require Import Prelude Graph.

Lemma filter_iff_in {A} (P Q : A → Prop) `{!∀ x, Decision (P x), !∀ x, Decision (Q x)} (l : list A) :
  (∀ x, x ∈ l → P x ↔ Q x) → filter P l = filter Q l.
Proof.
  induction l as [|x l IH]; intros Hl; [done|]. rewrite !filter_cons, IH by (intros; apply Hl; by right).
  destruct (Hl x) as [H1 H2]; [by left|]. destruct (decide (P x)), (decide (Q x)); tauto || done.
Qed.

Section search.
Context `{!reconstruction_graph} (start : bytes).

Definition edge (x y : bytes) : Prop := y ∈ get_next x.

(** A path along the edges that begins at [start]. *)
Inductive walk : list bytes → Prop :=
  | walk_start : walk [start]
  | walk_step p t j : walk p → last p = Some t → edge t j → walk (p ++ [j]).

(** ** One live path *)

Lemma extend_path_spec next p pth first next_paths seen :
  NoDup next → (∀ x, x ∈ p → x ∈ seen) →
  (if first : bool then pth = p else ∃ j0, pth = p ++ [j0]) →
  extend_path next pth first next_paths seen =
  Ok (next_paths ++ ((λ j, p ++ [j]) <$> filter (λ j, j ∉ seen) next), list_to_set next ∪ seen).
Proof.
  intros Hnd. revert pth first next_paths seen.
  induction Hnd as [|j next Hj Hnd IH]; intros pth first next_paths seen Hp Hpth; cbn [extend_path].
  { rewrite app_nil_r. do 2 f_equal. set_solver. }
  case_bool_decide as Hs.
  - rewrite IH by done. rewrite filter_cons_False by (intros Hn; by apply Hn). do 2 f_equal. set_solver.
  - assert ((if first then Ok pth else I_ (negb (bool_decide (pth = []))) ;; Ok (take (length pth - 1) pth)) = Ok p) as ->.
    { destruct first; [by subst|]. destruct Hpth as [j0 ->].
      rewrite bool_decide_false by (intros E; by apply app_nil in E as [_ ?]). cbn [negb I_ mbind result_bind].
      f_equal. apply take_app_length'. rewrite length_app. cbn. lia. }
    cbn [mbind result_bind].
    assert (forallb (λ k, negb (bool_decide (k = j))) p = true) as ->.
    { apply forallb_forall. intros k Hk. apply list_elem_of_In in Hk. rewrite bool_decide_false; [done|].
      intros ->. by apply Hs, Hp. }
    cbn [I_ mbind result_bind]. rewrite filter_cons_True, fmap_cons by done.
    rewrite (IH _ false).
    + f_equal. rewrite <- app_assoc. f_equal; [|set_solver]. do 3 f_equal. apply filter_iff_in. intros x Hx.
      rewrite not_elem_of_union, not_elem_of_singleton. split; [tauto|]. intros ?. split; [|done]. by intros ->.
    + intros x Hx. apply elem_of_union_r. auto.
    + destruct first; [by exists j|done].
Qed.

(** ** One round *)

(** What the loop over the live paths needs of them. *)
Definition live_ok (seen : gset bytes) (p : list bytes) : Prop :=
  (∀ x, x ∈ p → x ∈ seen) ∧ ∃ t, last p = Some t ∧ (is_base t = true ∨ get_next t ≠ ∅).

(** [j] is a successor of the tip of [p]. *)
Definition extends (p : list bytes) (j : bytes) : Prop := ∃ t, last p = Some t ∧ edge t j.

Lemma extend_paths_spec live next_paths seen :
  Forall (live_ok seen) live →
  ∃ sel np seen', extend_paths live next_paths seen = Ok (sel, np, seen') ∧
    match sel with
    | Some p => p ∈ live ∧ ∃ t, last p = Some t ∧ is_base t = true
    | None =>
        (∀ p t, p ∈ live → last p = Some t → is_base t = false) ∧
        (∀ x, x ∈ seen' ↔ x ∈ seen ∨ ∃ p, p ∈ live ∧ extends p x) ∧
        (∀ q, q ∈ np → q ∈ next_paths ∨ ∃ p j, p ∈ live ∧ extends p j ∧ j ∉ seen ∧ q = p ++ [j]) ∧
        (∀ q, q ∈ next_paths → q ∈ np) ∧
        (∀ p j, p ∈ live → extends p j → j ∉ seen → ∃ q, q ∈ np ∧ last q = Some j)
    end.
Proof.
  intros Hl. revert next_paths seen Hl. induction live as [|p live IH]; intros next_paths seen Hl; cbn [extend_paths].
  { exists None, next_paths, seen. split; [done|]. split_and!.
    - by intros ?? ?%not_elem_of_nil.
    - intros x. split; [by left|]. intros [?|(p & ?%not_elem_of_nil & _)]; done.
    - by left.
    - done.
    - by intros ?? ?%not_elem_of_nil. }
  apply Forall_cons in Hl as [[Hp (t & Ht & Hbn)] Hl]. rewrite Ht. cbn [of_option mbind result_bind].
  destruct (is_base t) eqn:Hb.
  { exists (Some p), next_paths, seen. split; [done|]. split; [by left|eauto]. }
  destruct Hbn as [?|Hne]; [done|]. rewrite bool_decide_false by done. cbn [negb I_ mbind result_bind].
  rewrite (extend_path_spec _ p) by (done || apply NoDup_set_iter). cbn [mbind result_bind].
  rewrite list_to_set_set_iter.
  set (new := (λ j, p ++ [j]) <$> filter (λ j, j ∉ seen) (set_iter (get_next t))).
  assert (∀ q, q ∈ new ↔ ∃ j, edge t j ∧ j ∉ seen ∧ q = p ++ [j]) as Hnew.
  { intros q. unfold new. rewrite list_elem_of_fmap. setoid_rewrite list_elem_of_filter.
    setoid_rewrite elem_of_set_iter. unfold edge. naive_solver. }
  destruct (IH (next_paths ++ new) (get_next t ∪ seen)) as (sel & np & seen' & E & Hrec).
  { eapply Forall_impl; [exact Hl|]. intros q [Hq ?]. split; [|done]. intros x Hx. apply elem_of_union_r. auto. }
  exists sel, np, seen'. split; [done|]. destruct sel as [q|].
  { destruct Hrec as [? ?]. split; [by right|done]. }
  destruct Hrec as (H1 & H2 & H3 & H4 & H5). split_and!.
  - intros q t' [->|Hq]%elem_of_cons Ht'; [|by eapply H1]. congruence.
  - intros x. rewrite H2, elem_of_union. setoid_rewrite elem_of_cons. unfold extends, edge. naive_solver.
  - intros q [Hq|(p' & j & ? & ? & Hj & ->)]%H3.
    + apply elem_of_app in Hq as [?|(j & ? & ? & ->)%Hnew]; [by left|]. right. exists p, j.
      split_and!; [by left|by exists t|done|done].
    + right. exists p', j. split_and!; [by right|done| |done]. intros ?. apply Hj. by apply elem_of_union_r.
  - intros q Hq. apply H4, elem_of_app. by left.
  - intros p' j [->|Hp']%elem_of_cons [t' [Ht' Ej]] Hj.
    + assert (t' = t) as -> by congruence. exists (p ++ [j]). split; [|apply last_snoc].
      apply H4, elem_of_app. right. apply Hnew. eauto.
    + destruct (decide (j ∈ get_next t)) as [Htj|Htj].
      * exists (p ++ [j]). split; [|apply last_snoc]. apply H4, elem_of_app. right. apply Hnew. eauto.
      * apply (H5 p' j Hp'); [by exists t'|]. rewrite not_elem_of_union. done.
Qed.

(** ** The levels *)

Record level (d : nat) (live : list (list bytes)) (seen : gset bytes) : Prop := {
  lv_walk p : p ∈ live → walk p ∧ length p = S d ∧ (∀ x, x ∈ p → x ∈ seen);
  lv_tip p t : p ∈ live → last p = Some t → nsteps edge d start t;
  lv_reach x : nsteps edge d start x → (∃ p, p ∈ live ∧ last p = Some x) ∨ ∃ m, (m < d)%nat ∧ nsteps edge m start x;
  lv_seen x : x ∈ seen ↔ ∃ m, (m ≤ d)%nat ∧ nsteps edge m start x
}.

Lemma walk_last p : walk p → ∃ t, last p = Some t.
Proof. destruct 1; [by exists start|]. eexists. apply last_snoc. Qed.

Lemma level_start : level 0 [[start]] {[start]}.
Proof.
  split.
  - intros p ->%list_elem_of_singleton. split_and!; [constructor|done|]. intros x ->%list_elem_of_singleton. set_solver.
  - intros p t ->%list_elem_of_singleton [= <-]. constructor.
  - intros x Hx. inversion Hx; subst. left. exists [x]. split; [by left|done].
  - intros x. rewrite elem_of_singleton. split.
    + intros ->. exists 0%nat. split; [done|constructor].
    + intros (m & Hm & Hx). assert (m = 0)%nat as -> by lia. by inversion Hx.
Qed.

Lemma level_next d live seen np seen' :
  level d live seen →
  (∀ x, x ∈ seen' ↔ x ∈ seen ∨ ∃ p, p ∈ live ∧ extends p x) →
  (∀ q, q ∈ np → ∃ p j, p ∈ live ∧ extends p j ∧ j ∉ seen ∧ q = p ++ [j]) →
  (∀ p j, p ∈ live → extends p j → j ∉ seen → ∃ q, q ∈ np ∧ last q = Some j) →
  level (S d) np seen'.
Proof.
  intros [W T R S] Hseen Hnp Hall.
  assert (∀ x, nsteps edge (Datatypes.S d) start x → x ∈ seen ∨ ∃ p, p ∈ live ∧ extends p x) as Hstep.
  { intros x (y & Hy & Hyx)%nsteps_inv_r. destruct (R y Hy) as [(p & Hp & Hl)|(m & Hm & Hmy)].
    - right. exists p. split; [done|]. by exists y.
    - left. apply S. exists (Datatypes.S m). split; [lia|]. by eapply nsteps_r. }
  split.
  - intros q (p & j & Hp & (t & Ht & Hj) & Hns & ->)%Hnp. destruct (W p Hp) as (Hw & Hlen & Hin).
    split_and!; [by eapply walk_step|rewrite length_app, Hlen; cbn; lia|].
    intros x [Hx| ->%list_elem_of_singleton]%elem_of_app; apply Hseen; [left; auto|]. right. exists p.
    split; [done|]. by exists t.
  - intros q t (p & j & Hp & (t' & Ht' & Hj) & _ & ->)%Hnp Ht. rewrite last_snoc in Ht. injection Ht as <-.
    eapply nsteps_r; [by eapply T|done].
  - intros x Hx. destruct (Hstep x Hx) as [Hs|(p & Hp & He)].
    + right. apply S in Hs as (m & Hm & ?). exists m. split; [lia|done].
    + destruct (decide (x ∈ seen)) as [Hs|Hs].
      * right. apply S in Hs as (m & Hm & ?). exists m. split; [lia|done].
      * left. by eapply Hall.
  - intros x. rewrite Hseen. split.
    + intros [(m & Hm & Hx)%S|(p & Hp & t & Ht & He)]; [exists m; split; [lia|done]|].
      exists (Datatypes.S d). split; [lia|]. eapply nsteps_r; [by eapply T|done].
    + intros (m & Hm & Hx). destruct (decide (m = Datatypes.S d)) as [->|Hne]; [by apply Hstep|].
      left. apply S. exists m. split; [lia|done].
Qed.

(** When no path can be extended everything reachable has been seen. *)
Lemma level_closed d live seen x :
  level d live seen → (∀ p j, p ∈ live → extends p j → j ∈ seen) → rtc edge start x → x ∈ seen.
Proof.
  intros [W T R S] Hcl Hx. assert (∀ y w, rtc edge y w → y ∈ seen → w ∈ seen) as Hgen.
  { induction 1 as [|y z w Hyz _ IH]; [done|]. intros Hy. apply IH. apply S in Hy as (m & Hm & Hy).
    assert (nsteps edge (Datatypes.S m) start z) as Hz by (by eapply nsteps_r).
    destruct (decide (m = d)) as [->|Hne]; [|apply S; exists (Datatypes.S m); split; [lia|done]].
    destruct (R y Hy) as [(p & Hp & Hl)|(m' & Hm' & Hy')].
    - apply (Hcl p z Hp). by exists y.
    - apply S. exists (Datatypes.S m'). split; [lia|]. by eapply nsteps_r. }
  apply (Hgen start x Hx), S. exists 0%nat. split; [lia|constructor].
Qed.

Context (Hnext : ∀ x, rtc edge start x → is_base x = false → get_next x ≠ ∅).

Lemma reconstruction_loop_spec n b fuel d live seen :
  nsteps edge n start b → is_base b = true → level d live seen →
  (∀ m x, (m < d)%nat → nsteps edge m start x → is_base x = false) → (d + fuel > n)%nat → live ≠ [] →
  ∃ p, reconstruction_loop fuel live seen = Ok p ∧ walk p ∧ (∃ t, last p = Some t ∧ is_base t = true) ∧
    ∀ m x, nsteps edge m start x → is_base x = true → (length p ≤ S m)%nat.
Proof.
  intros Hb Hbase. revert d live seen. induction fuel as [|fuel IH]; intros d live seen Hlv Hlow Hf Hne.
  { exfalso. rewrite (Hlow n b) in Hbase; [done|lia|done]. }
  cbn [reconstruction_loop]. rewrite bool_decide_false by done. cbn [negb I_ mbind result_bind].
  destruct (extend_paths_spec live [] seen) as (sel & np & seen' & -> & Hsel).
  { apply Forall_forall. intros p Hp. destruct (lv_walk _ _ _ Hlv p Hp) as (Hw & _ & Hin). split; [done|].
    destruct (walk_last p Hw) as [t Ht]. exists t. split; [done|]. destruct (is_base t) eqn:E; [by left|right].
    apply Hnext; [|done]. eapply rtc_nsteps_2, (lv_tip _ _ _ Hlv); done. }
  cbn [mbind result_bind]. destruct sel as [p|].
  - rewrite bool_decide_true by eauto. cbn [orb I_ mbind result_bind]. destruct Hsel as [Hp Ht].
    destruct (lv_walk _ _ _ Hlv p Hp) as (Hw & Hlen & _). exists p. split_and!; [done|done|done|].
    intros m x Hm Hx. rewrite Hlen. destruct (decide (m < d)%nat); [|lia].
    rewrite (Hlow m x) in Hx by done. done.
  - destruct Hsel as (H1 & H2 & H3 & _ & H5).
    assert (level (S d) np seen') as Hlv'.
    { eapply level_next; [exact Hlv|done| |done]. intros q [?%not_elem_of_nil|?]%H3; done. }
    assert (∀ m x, (m < S d)%nat → nsteps edge m start x → is_base x = false) as Hlow'.
    { intros m x Hm Hx. destruct (decide (m < d)%nat); [by eapply Hlow|]. assert (m = d) as -> by lia.
      destruct (lv_reach _ _ _ Hlv x Hx) as [(p & Hp & Hl)|(m & ? & ?)]; [by eapply H1|by eapply Hlow]. }
    assert (np ≠ []) as Hnp.
    { intros ->. assert (b ∈ seen) as (m & Hm & Hmb)%(lv_seen _ _ _ Hlv).
      { apply (level_closed d live); [done| |by eapply rtc_nsteps_2]. intros p j Hp He.
        destruct (decide (j ∈ seen)); [done|]. destruct (H5 p j Hp He) as (q & ?%not_elem_of_nil & _); done. }
      rewrite (Hlow' m b) in Hbase by (done || lia). done. }
    rewrite (bool_decide_false (np = [])) by done. rewrite bool_decide_false by (by intros [? ?]).
    cbn [negb orb I_ mbind result_bind]. apply (IH (S d)); [done|done|lia|done].
Qed.
End search.

(** C34: [get_reconstruction_path] returns a shortest path.  If a base version
    can be reached and no node on the way is a dead end, the search ends after
    as many rounds as the nearest base is steps away, trips none of its
    assertions, and returns a path along the graph from the start to a base;
    no base is nearer.  The graph need not be acyclic: although the comment in
    the source says that a cycle makes the search fault, a path is only ever extended by a
    node no path has been to, so that the check for a cycle cannot fail. *)
Theorem reconstruction_path_shortest `{!reconstruction_graph} (start b : bytes) (n fuel : nat) :
  (∀ x, rtc edge start x → is_base x = false → get_next x ≠ ∅) →
  nsteps edge n start b → is_base b = true → (n < fuel)%nat →
  ∃ p, get_reconstruction_path fuel start = Ok p ∧ walk start p ∧ (∃ t, last p = Some t ∧ is_base t = true) ∧
    ∀ m x, nsteps edge m start x → is_base x = true → (length p ≤ S m)%nat.
Proof.
  intros Hnext Hb Hbase Hf. apply (reconstruction_loop_spec start Hnext n b fuel 0); [done|done|apply level_start| |lia|done].
  intros m x Hm. lia.
Qed.

(** Four versions: 0 is stored as deltas against 1 and 2, which are stored
    against 3, a full text. *)
Module Versions.
Definition ver (n : Z) : bytes := [byte_of n].
#[global] Instance graph : reconstruction_graph := {|
  is_base x := bool_decide (x = ver 3);
  get_next x := if bool_decide (x = ver 0) then {[ver 1; ver 2]} else {[ver 3]}
|}.
End Versions.

Lemma reconstruction_path_shortest_witness :
  get_reconstruction_path 3 (Versions.ver 0) = Ok [Versions.ver 0; Versions.ver 1; Versions.ver 3] ∧
  ∃ p, get_reconstruction_path 3 (Versions.ver 0) = Ok p ∧ walk (Versions.ver 0) p ∧
    (∃ t, last p = Some t ∧ is_base t = true) ∧
    ∀ m x, nsteps edge m (Versions.ver 0) x → is_base x = true → (length p ≤ S m)%nat.
Proof.
  split; [by vm_compute|].
  refine (reconstruction_path_shortest (Versions.ver 0) (Versions.ver 3) 2 3 _ _ _ _).
  - intros x _ _. cbn. destruct (bool_decide (x = Versions.ver 0)); set_solver.
  - apply (nsteps_l _ _ (Versions.ver 0) (Versions.ver 1) (Versions.ver 3)); [|apply nsteps_once];
      unfold edge; apply (bool_decide_unpack _); by vm_compute.
  - by vm_compute.
  - lia.
Defined.
