(* ===== verification/Toposort.v ===== *)
(** * [toposort_rev_ancestry] sorts the ancestry graph

    The loop keeps, for every revision, the number of edges into it from
    revisions not yet taken off the queue; the queue holds the revisions for
    which that number is zero.  On an acyclic graph every revision is
    emitted, once, and after all its parents. *)

From S2P Require Import Prelude Graph.

(** The revisions the graph mentions. *)
Definition nodes (graph : rev_ancestry_map) : gset bytes := list_to_set (graph.*1 ++ graph.*2).

(** How often [n] occurs in [cs]. *)
Definition occurrences (n : bytes) (cs : list bytes) : Z := Z.of_nat (length (filter (λ x, x = n) cs)).

(** The edges into [n] from revisions that are not [done]. *)
Definition parents_left (graph : rev_ancestry_map) (don : list bytes) (n : bytes) : Z :=
  Z.of_nat (length (filter (λ e, e.2 = n ∧ e.1 ∉ don) graph)).

(** ** Counting *)

Lemma occurrences_cons n c cs : occurrences n (c :: cs) = (if decide (c = n) then 1 else 0) + occurrences n cs.
Proof. unfold occurrences. rewrite filter_cons. case_decide; cbn [length]; lia. Qed.

Lemma occurrences_0 n cs : occurrences n cs = 0 ↔ n ∉ cs.
Proof.
  induction cs as [|c cs IH]; [split; [by intros _ ?%not_elem_of_nil|done]|].
  rewrite occurrences_cons, not_elem_of_cons, <- IH. unfold occurrences in *. case_decide; naive_solver lia.
Qed.

Lemma occurrences_nonneg n cs : 0 ≤ occurrences n cs.
Proof. unfold occurrences. lia. Qed.

Lemma parents_left_nil g n : parents_left g [] n = occurrences n g.*2.
Proof.
  unfold parents_left, occurrences. induction g as [|e g IH]; [done|]. rewrite fmap_cons, !filter_cons.
  destruct (decide (e.2 = n)); [rewrite decide_True by (split; [done|apply not_elem_of_nil])|rewrite decide_False by naive_solver];
    cbn [length]; lia.
Qed.

Lemma parents_left_snoc g don cur n :
  cur ∉ don → parents_left g (don ++ [cur]) n = parents_left g don n - occurrences n (equal_range g cur).
Proof.
  intros Hc. unfold parents_left, occurrences, equal_range. induction g as [|e g IH]; [done|].
  assert (e.1 ∉ don ++ [cur] ↔ e.1 ∉ don ∧ e.1 ≠ cur) as Hin.
  { by rewrite not_elem_of_app, list_elem_of_singleton. }
  rewrite !filter_cons. destruct (decide (e.1 = cur)) as [He|He].
  - rewrite fmap_cons, filter_cons, (decide_False (P := _ ∧ _ ∉ _ ++ _)) by tauto.
    destruct (decide (e.2 = n)).
    + rewrite decide_True by (by rewrite He). cbn [length]. lia.
    + rewrite decide_False by tauto. lia.
  - destruct (decide (e.2 = n ∧ e.1 ∉ don)).
    + rewrite decide_True by tauto. cbn [length]. lia.
    + rewrite decide_False by tauto. lia.
Qed.

Lemma parents_left_0 g don n : parents_left g don n = 0 ↔ ∀ p, (p, n) ∈ g → p ∈ don.
Proof.
  unfold parents_left. induction g as [|e g IH]; [split; [by intros _ ? ?%not_elem_of_nil|done]|].
  rewrite filter_cons. setoid_rewrite elem_of_cons. destruct e as [p c]. cbn [fst snd]. case_decide as Hd.
  - cbn [length]. split; [lia|]. intros Hall. destruct Hd as [-> Hd]. exfalso. apply Hd, Hall. by left.
  - rewrite IH. split.
    + intros Hall q [[= -> ->]|?]; [|by apply Hall]. destruct (decide (p ∈ don)); naive_solver.
    + intros Hall q Hq. apply Hall. by right.
Qed.

(** ** The parent counters *)

Lemma counters_lookup (g : rev_ancestry_map) (m : gmap bytes Z) n :
  foldl (λ m i, <[i.2 := default 0 (m !! i.2) + 1]> m) m g !! n =
  if decide (n ∈ g.*2) then Some (default 0 (m !! n) + occurrences n g.*2) else m !! n.
Proof.
  revert m. induction g as [|[p c] g IH]; intros m; [done|]. cbn [foldl fst snd]. rewrite IH, fmap_cons. cbn [snd].
  destruct (decide (c = n)) as [->|Hc].
  - rewrite lookup_insert_eq, (decide_True (P := n ∈ n :: _)) by (by left).
    rewrite occurrences_cons, (decide_True (P := n = n)) by done. case_decide as Hn; cbn [from_option id]; unfold id; f_equal; [lia|].
    apply occurrences_0 in Hn. lia.
  - rewrite lookup_insert_ne by done. rewrite occurrences_cons, (decide_False (P := c = n)) by done.
    destruct (decide (n ∈ g.*2)) as [Hn|Hn].
    + rewrite decide_True by (by right). done.
    + rewrite decide_False by (rewrite elem_of_cons; naive_solver). done.
Qed.

Lemma zeroes_lookup (g : rev_ancestry_map) (m : gmap bytes Z) n :
  foldl (λ m i, match m !! i.1 with Some _ => m | None => <[i.1 := 0]> m end) m g !! n =
  match m !! n with Some z => Some z | None => if decide (n ∈ g.*1) then Some 0 else None end.
Proof.
  revert m. induction g as [|[p c] g IH]; intros m; [cbn [foldl]; rewrite decide_False by apply not_elem_of_nil; by destruct (m !! n)|]. cbn [foldl fst snd]. rewrite IH, fmap_cons.
  cbn [fst]. destruct (decide (p = n)) as [->|Hp].
  - rewrite (decide_True (P := n ∈ n :: _)) by (by left). destruct (m !! n) eqn:E; [by rewrite E|].
    by rewrite lookup_insert_eq.
  - assert (match m !! p with Some _ => m | None => <[p := 0]> m end !! n = m !! n) as ->.
    { destruct (m !! p); [done|]. by apply lookup_insert_ne. }
    destruct (m !! n); [done|]. destruct (decide (n ∈ g.*1)) as [Hn|Hn].
    + rewrite decide_True by (by right). done.
    + rewrite decide_False by (rewrite elem_of_cons; naive_solver). done.
Qed.

Lemma count_parents_lookup g n :
  count_parents g !! n = if decide (n ∈ nodes g) then Some (parents_left g [] n) else None.
Proof.
  unfold count_parents. rewrite counters_lookup, zeroes_lookup, lookup_empty, parents_left_nil.
  unfold nodes. destruct (decide (n ∈ g.*2)) as [H2|H2].
  - rewrite (decide_True (P := n ∈ list_to_set _)) by (apply elem_of_list_to_set, elem_of_app; by right).
    f_equal. by destruct (decide (n ∈ g.*1)).
  - rewrite (proj2 (occurrences_0 _ _) H2). destruct (decide (n ∈ g.*1)) as [H1|H1].
    + by rewrite decide_True by (apply elem_of_list_to_set, elem_of_app; by left).
    + rewrite decide_False; [done|]. by rewrite elem_of_list_to_set, elem_of_app; intros [?|?].
Qed.

(** ** One revision taken off the queue *)

Lemma drop_parents_spec cs pcount roots :
  (∀ n, n ∈ cs → occurrences n cs ≤ default 0 (pcount !! n)) →
  ∃ pcount' new, foldl drop_parent (pcount, roots) cs = (pcount', roots ++ new) ∧ NoDup new ∧
    (∀ n, pcount' !! n = if decide (n ∈ cs) then Some (default 0 (pcount !! n) - occurrences n cs) else pcount !! n) ∧
    (∀ n, n ∈ new ↔ n ∈ cs ∧ default 0 (pcount !! n) = occurrences n cs).
Proof.
  revert pcount roots. induction cs as [|c cs IH]; intros pcount roots Hle.
  { exists pcount, []. rewrite app_nil_r. split_and!; [done|constructor|done|]. intros n.
    split; [by intros ?%not_elem_of_nil|by intros [?%not_elem_of_nil _]]. }
  cbn [foldl drop_parent]. set (k := default 0 (pcount !! c) - 1).
  assert (∀ n, default 0 (<[c := k]> pcount !! n) = default 0 (pcount !! n) - if decide (c = n) then 1 else 0) as Hk.
  { intros n. case_decide; subst; [by rewrite lookup_insert_eq|]. rewrite lookup_insert_ne by done. lia. }
  destruct (IH (<[c := k]> pcount) (if k =? 0 then roots ++ [c] else roots)) as (pc' & new & -> & Hnd & Hpc & Hnew).
  { intros n Hn. specialize (Hle n). rewrite occurrences_cons in Hle. rewrite Hk.
    enough (n ∈ c :: cs) as ?%Hle by lia. by right. }
  assert (k = 0 → c ∉ cs) as Hk0.
  { intros E. apply occurrences_0. specialize (Hle c ltac:(by left)). pose proof (occurrences_nonneg c cs).
    rewrite occurrences_cons, decide_True in Hle by done. lia. }
  exists pc', ((if k =? 0 then [c] else []) ++ new). split_and!.
  - rewrite app_assoc. by destruct (k =? 0); rewrite ?app_nil_r.
  - destruct (Z.eqb_spec k 0) as [E|E]; [|done]. constructor; [|done]. rewrite Hnew. naive_solver.
  - intros n. rewrite Hpc, Hk, occurrences_cons. destruct (decide (c = n)) as [->|Hc].
    + rewrite (decide_True (P := n ∈ n :: _)) by (by left). rewrite lookup_insert_eq. case_decide as Hn; f_equal; [lia|].
      apply occurrences_0 in Hn. lia.
    + rewrite lookup_insert_ne by done. destruct (decide (n ∈ cs)) as [Hn|Hn].
      * rewrite decide_True by (by right). f_equal. lia.
      * rewrite decide_False by (rewrite elem_of_cons; naive_solver). done.
  - intros n. rewrite elem_of_app, Hnew, Hk, occurrences_cons, elem_of_cons. destruct (decide (c = n)) as [->|Hc].
    + destruct (Z.eqb_spec k 0) as [E|E].
      * rewrite list_elem_of_singleton. pose proof (proj2 (occurrences_0 _ _) (Hk0 E)) as E'. unfold k in E. split; [|by left].
        intros _. split; [by left|lia].
      * rewrite elem_of_nil. destruct (decide (n ∈ cs)) as [Hn|Hn]; [naive_solver lia|].
        apply occurrences_0 in Hn as Hn'. unfold k in E. naive_solver lia.
    + destruct (k =? 0); rewrite ?list_elem_of_singleton, ?elem_of_nil; naive_solver lia.
Qed.

(** ** The loop *)

(** The state of the loop once the revisions [don] have been taken off the
    queue. *)
Record sorting (g : rev_ancestry_map) (don : list bytes) (pcount : gmap bytes Z) (roots revisions : list bytes) : Prop := {
  so_count n : n ∈ nodes g → pcount !! n = Some (parents_left g don n);
  so_nodup : NoDup (don ++ roots);
  so_ready n : n ∈ don ++ roots ↔ n ∈ nodes g ∧ parents_left g don n = 0;
  so_revs n : n ∈ revisions ↔ n ∈ don ∧ n ≠ [];
  so_revs_nodup : NoDup revisions;
  so_order l1 c l2 p : revisions = l1 ++ c :: l2 → (p, c) ∈ g → p ≠ [] → p ∈ l1
}.

Lemma equal_range_nodes g cur n : n ∈ equal_range g cur → n ∈ nodes g ∧ (cur, n) ∈ g.
Proof.
  unfold equal_range, nodes. intros ([p c] & -> & [E He]%list_elem_of_filter)%list_elem_of_fmap. cbn in *. subst p.
  split; [|done]. apply elem_of_list_to_set, elem_of_app. right. by apply (list_elem_of_fmap_2 snd) in He.
Qed.

Lemma occurrences_le g don cur n :
  cur ∉ don → occurrences n (equal_range g cur) ≤ parents_left g don n.
Proof. intros Hc. pose proof (parents_left_snoc g don cur n Hc) as E. unfold parents_left in *. lia. Qed.

(** The list of revisions once [cur] has been taken off the queue. *)
Lemma sorting_revisions g don pcount cur roots revisions :
  sorting g don pcount (cur :: roots) revisions →
  let revisions' := if null_id cur then revisions else revisions ++ [cur] in
  (∀ n, n ∈ revisions' ↔ n ∈ don ++ [cur] ∧ n ≠ []) ∧ NoDup revisions' ∧
  (∀ l1 c l2 p, revisions' = l1 ++ c :: l2 → (p, c) ∈ g → p ≠ [] → p ∈ l1).
Proof.
  intros [C N R V VN O]. assert (cur ∉ don) as Hcur.
  { apply NoDup_app in N as (_ & N & _). intros ?. eapply N; [done|by left]. }
  case_bool_decide as Hnull; cbn zeta.
  { subst cur. split_and!; [|done|exact O]. intros n. rewrite V, elem_of_app, list_elem_of_singleton. tauto. }
  split_and!.
  - intros n. rewrite !elem_of_app, V, list_elem_of_singleton. naive_solver.
  - apply NoDup_app. split_and!; [done| |apply NoDup_singleton]. intros n [Hn _]%V ->%list_elem_of_singleton. done.
  - intros l1 c l2 p E Hpc Hp. destruct l2 as [|x l2 _] using rev_ind.
    + apply app_inj_tail in E as [<- <-]. apply V. split; [|done].
      destruct (R cur) as [[_ Hz] _]; [apply elem_of_app; right; by left|]. by eapply parents_left_0.
    + rewrite app_comm_cons, app_assoc in E. apply app_inj_tail in E as [E _]. by eapply O.
Qed.

Lemma sorting_step g don pcount cur roots revisions :
  sorting g don pcount (cur :: roots) revisions →
  let '(pcount', roots') := foldl drop_parent (pcount, roots) (equal_range g cur) in
  sorting g (don ++ [cur]) pcount' roots' (if null_id cur then revisions else revisions ++ [cur]).
Proof.
  intros Hs. destruct (sorting_revisions _ _ _ _ _ _ Hs) as (V' & VN' & O'). destruct Hs as [C N R _ _ _].
  assert (cur ∉ don) as Hcur.
  { apply NoDup_app in N as (_ & N & _). intros ?. eapply N; [done|by left]. }
  assert (∀ n, n ∈ equal_range g cur → default 0 (pcount !! n) = parents_left g don n) as Hd.
  { intros n [Hn _]%equal_range_nodes. by rewrite (C n Hn). }
  destruct (drop_parents_spec (equal_range g cur) pcount roots) as (pc' & new & -> & Hnd & Hpc & Hnew).
  { intros n Hn. rewrite Hd by done. by apply occurrences_le. }
  assert (∀ n, n ∈ new → n ∉ don ++ cur :: roots) as Hfresh.
  { intros n [Hn E]%Hnew [_ Hz]%R. rewrite Hd, Hz in E by done. by apply (occurrences_0 n (equal_range g cur)). }
  split; [| | |exact V'|exact VN'|exact O'].
  - intros n Hn. rewrite Hpc, parents_left_snoc, (C n Hn) by done. case_decide as Hin; [done|].
    apply occurrences_0 in Hin. f_equal. lia.
  - replace ((don ++ [cur]) ++ roots ++ new) with ((don ++ cur :: roots) ++ new) by (by rewrite <- !app_assoc).
    apply NoDup_app. split_and!; [done| |done]. intros n Hn Hn'. by eapply Hfresh.
  - intros n. replace ((don ++ [cur]) ++ roots ++ new) with ((don ++ cur :: roots) ++ new) by (by rewrite <- !app_assoc).
    rewrite elem_of_app, R, Hnew, parents_left_snoc by done. pose proof (occurrences_le g don cur n Hcur).
    pose proof (occurrences_nonneg n (equal_range g cur)).
    destruct (decide (n ∈ equal_range g cur)) as [Hin|Hin].
    + rewrite Hd by done. apply equal_range_nodes in Hin as Hn. naive_solver lia.
    + apply occurrences_0 in Hin as Hz. naive_solver lia.
Qed.

Lemma sorting_start g :
  sorting g [] (count_parents g) (filter (λ i, i.2 = 0) (map_iter (count_parents g))).*1 [].
Proof.
  split; cbn [app].
  - intros n Hn. by rewrite count_parents_lookup, decide_True.
  - apply NoDup_fmap_fst; [|apply NoDup_filter, NoDup_map_iter].
    intros x y1 y2 [_ ?%elem_of_map_iter]%list_elem_of_filter [_ ?%elem_of_map_iter]%list_elem_of_filter. congruence.
  - intros n. rewrite list_elem_of_fmap. setoid_rewrite list_elem_of_filter. split.
    + intros ([n' z] & -> & Hz & Hin%elem_of_map_iter). rewrite count_parents_lookup in Hin. cbn in *. case_decide; naive_solver.
    + intros [Hn Hz]. exists (n, 0). split_and!; [done|done|]. apply elem_of_map_iter.
      by rewrite count_parents_lookup, decide_True, Hz.
  - intros n. rewrite !elem_of_nil. tauto.
  - constructor.
  - intros l1 c l2 p E. by destruct l1.
Qed.

Lemma toposort_loop_spec g fuel don pcount roots revisions :
  sorting g don pcount roots revisions → (size (nodes g) ≤ length don + fuel)%nat →
  ∃ don' pcount' revs, toposort_loop fuel g pcount roots revisions = Ok revs ∧ sorting g don' pcount' [] revs.
Proof.
  revert don pcount roots revisions. induction fuel as [|fuel IH]; intros don pcount roots revisions Hs Hf;
    (destruct roots as [|cur roots]; [by eexists _, _, _|]); cbn [toposort_loop].
  - assert (length (don ++ cur :: roots) ≤ size (nodes g))%nat as Hl.
    { rewrite <- (size_list_to_set (C := gset bytes)) by apply Hs. apply subseteq_size. intros n.
      rewrite elem_of_list_to_set, (so_ready _ _ _ _ _ Hs). by intros [? _]. }
    rewrite length_app in Hl. cbn in Hl. lia.
  - pose proof (sorting_step _ _ _ _ _ _ Hs) as Hs'.
    destruct (foldl drop_parent (pcount, roots) (equal_range g cur)) as [pc' roots'].
    eapply IH; [exact Hs'|]. rewrite length_app. cbn. lia.
Qed.

(** [p] is a parent of [c]. *)
Definition child_of (g : rev_ancestry_map) (c p : bytes) : Prop := (p, c) ∈ g.

(** When the queue is empty every revision below no cycle is done. *)
Lemma sorting_all g don pcount revisions n :
  sorting g don pcount [] revisions → (∀ x, ¬ tc (child_of g) x x) → n ∈ nodes g → n ∈ don.
Proof.
  intros [C N R _ _ _] Hac. assert (∀ c p, child_of g c p → p ∈ nodes g) as Hp.
  { intros c p Hcp. apply elem_of_list_to_set, elem_of_app. left. by apply (list_elem_of_fmap_2 fst) in Hcp. }
  assert (sn (child_of g) n) as Hsn.
  { apply tc_finite_sn; [exact Hac|]. exists (elements (nodes g)). intros x Hx. apply elem_of_elements.
    induction Hx as [c p|c p q _ _ IH]; [by eapply Hp|done]. }
  induction Hsn as [c _ IH]. intros Hc. rewrite app_nil_r in R. apply R. split; [done|].
  apply parents_left_0. intros p Hcp. apply (IH p Hcp). by eapply Hp.
Qed.

(** C35: [toposort_rev_ancestry] sorts an acyclic ancestry graph topologically.
    The loop takes at most one round per revision; it returns every non-null
    revision of the graph, none twice, and each after all its non-null
    parents. *)
Theorem toposort_sorts (graph : rev_ancestry_map) (fuel : nat) :
  (∀ n, ¬ tc (child_of graph) n n) → (size (nodes graph) ≤ fuel)%nat →
  ∃ revisions, toposort_rev_ancestry fuel graph = Ok revisions ∧ NoDup revisions ∧
    (∀ n, n ∈ revisions ↔ n ∈ nodes graph ∧ n ≠ []) ∧
    ∀ l1 c l2 p, revisions = l1 ++ c :: l2 → (p, c) ∈ graph → p ≠ [] → p ∈ l1.
Proof.
  intros Hac Hf. destruct (toposort_loop_spec graph fuel [] _ _ _ (sorting_start graph)) as (don & pc & revs & E & Hs); [done|].
  exists revs. split_and!; [done|apply Hs| |apply Hs]. intros n. rewrite (so_revs _ _ _ _ _ Hs). split.
  - intros [Hn ?]. split; [|done]. apply (so_ready _ _ _ _ _ Hs). by rewrite app_nil_r.
  - intros [Hn ?]. split; [|done]. by eapply sorting_all.
Qed.

(** The null revision, its child 1, two children of 1 and their merge 4. *)
Definition diamond : rev_ancestry_map :=
  [([], [byte_of 1]); ([byte_of 1], [byte_of 2]); ([byte_of 1], [byte_of 3]);
   ([byte_of 2], [byte_of 4]); ([byte_of 3], [byte_of 4])].

Lemma toposort_sorts_witness :
  toposort_rev_ancestry 5 diamond = Ok [[byte_of 1]; [byte_of 2]; [byte_of 3]; [byte_of 4]] ∧
  ∃ revisions, toposort_rev_ancestry 5 diamond = Ok revisions ∧ NoDup revisions ∧
    (∀ n, n ∈ revisions ↔ n ∈ nodes diamond ∧ n ≠ []) ∧
    ∀ l1 c l2 p, revisions = l1 ++ c :: l2 → (p, c) ∈ diamond → p ≠ [] → p ∈ l1.
Proof.
  split; [by vm_compute|]. apply (toposort_sorts diamond 5).
  - set (rank (x : bytes) := match x with [] => 0 | b :: _ => byte_val b end).
    assert (∀ c p, child_of diamond c p → rank p < rank c) as Hr.
    { intros c p Hc. unfold child_of, diamond in Hc. set_unfold. naive_solver. }
    assert (∀ c p, tc (child_of diamond) c p → rank p < rank c) as Hrt.
    { induction 1 as [c p Hc|c p q Hc _ IH]; apply Hr in Hc; lia. }
    intros n Hn%Hrt. lia.
  - by vm_compute.
Defined.
