(* ===== verification/MergeRoster.v ===== *)
(** * Merging rosters ([src/src/merge_roster.cc], [merge_roster.hh])

    [roster_merge] merges two rosters scalar by scalar, driven by the markings
    of mark-merge, and records what it cannot decide as conflicts.  The first
    phase decides which nodes survive, the second fills in the surviving nodes
    in node-id order and attaches them, the third reconciles the
    dropped/modified conflicts with recreated files, and the last looks at the
    root.

    An iterator into a sorted map is what is left of it; dereferencing or
    advancing one at its end is undefined. *)

From S2P Require Import Prelude Paths Roster ParallelIter Marking.

(** [#define bookkeeping_root_component path_component(...)] of [paths.hh]. *)
Definition bookkeeping_root_component : path_component := lit "_MTN".

(** ** Conflicts *)

Inductive resolution_t :=
  | none | content_user | content_internal | drop_ | keep_ | rename_ | content_user_rename.

Inductive side_t := left_side | right_side.

Record file_resolution_t := FileResolution {
  resolution : resolution_t;
  res_content : option bytes;
  res_rename : file_path
}.

Definition no_resolution : file_resolution_t := FileResolution none None (FilePath []).

Record invalid_name_conflict := InvalidName { in_nid : node_id; in_parent_name : node_id * path_component }.
Record directory_loop_conflict := DirectoryLoop { dl_nid : node_id; dl_parent_name : node_id * path_component }.
Record orphaned_node_conflict := OrphanedNode {
  on_nid : node_id; on_parent_name : node_id * path_component; on_resolution : file_resolution_t
}.
Record multiple_name_conflict := MultipleName {
  mn_nid : node_id; mn_left : node_id * path_component; mn_right : node_id * path_component
}.
Record dropped_modified_conflict := DroppedModified {
  dropped_side : side_t;
  dm_left_nid : node_id;
  dm_right_nid : node_id;
  orphaned : bool;
  dm_left_rid : revision_id;
  dm_right_rid : revision_id;
  dm_left_resolution : file_resolution_t;
  dm_right_resolution : file_resolution_t
}.
Record duplicate_name_conflict := DuplicateName {
  du_left_nid : node_id;
  du_right_nid : node_id;
  du_parent_name : node_id * path_component;
  du_left_resolution : file_resolution_t;
  du_right_resolution : file_resolution_t
}.
Record attribute_conflict := AttributeConflict {
  ac_nid : node_id; ac_key : attr_key; ac_left : bool * attr_value; ac_right : bool * attr_value
}.
Record file_content_conflict := FileContent {
  fc_nid : node_id; fc_ancestor : file_id; fc_left : file_id; fc_right : file_id; fc_resolution : file_resolution_t
}.

Record roster_merge_result := Result {
  missing_root_conflict : bool;
  invalid_name_conflicts : list invalid_name_conflict;
  directory_loop_conflicts : list directory_loop_conflict;
  orphaned_node_conflicts : list orphaned_node_conflict;
  multiple_name_conflicts : list multiple_name_conflict;
  dropped_modified_conflicts : list dropped_modified_conflict;
  duplicate_name_conflicts : list duplicate_name_conflict;
  attribute_conflicts : list attribute_conflict;
  file_content_conflicts : list file_content_conflict;
  result_roster : roster
}.

Definition clear_result : roster_merge_result := Result false [] [] [] [] [] [] [] [] empty_roster.

Definition has_content_conflicts (res : roster_merge_result) : bool :=
  negb (bool_decide (file_content_conflicts res = [])).

Definition has_non_content_conflicts (res : roster_merge_result) : bool :=
  missing_root_conflict res
  || negb (bool_decide (invalid_name_conflicts res = []))
  || negb (bool_decide (directory_loop_conflicts res = []))
  || negb (bool_decide (orphaned_node_conflicts res = []))
  || negb (bool_decide (multiple_name_conflicts res = []))
  || negb (bool_decide (dropped_modified_conflicts res = []))
  || negb (bool_decide (duplicate_name_conflicts res = []))
  || negb (bool_decide (attribute_conflicts res = [])).

Definition is_clean (res : roster_merge_result) : bool :=
  negb (has_non_content_conflicts res) && negb (has_content_conflicts res).

(** Field updates. *)
Definition with_roster (r : roster) (res : roster_merge_result) : roster_merge_result :=
  let '(Result mr inn dl on mn dm du ac fc _) := res in Result mr inn dl on mn dm du ac fc r.
Definition add_invalid_name c (res : roster_merge_result) : roster_merge_result :=
  let '(Result mr inn dl on mn dm du ac fc r) := res in Result mr (inn ++ [c]) dl on mn dm du ac fc r.
Definition add_directory_loop c (res : roster_merge_result) : roster_merge_result :=
  let '(Result mr inn dl on mn dm du ac fc r) := res in Result mr inn (dl ++ [c]) on mn dm du ac fc r.
Definition add_orphaned_node c (res : roster_merge_result) : roster_merge_result :=
  let '(Result mr inn dl on mn dm du ac fc r) := res in Result mr inn dl (on ++ [c]) mn dm du ac fc r.
Definition add_multiple_name c (res : roster_merge_result) : roster_merge_result :=
  let '(Result mr inn dl on mn dm du ac fc r) := res in Result mr inn dl on (mn ++ [c]) dm du ac fc r.
Definition with_dropped_modified dm (res : roster_merge_result) : roster_merge_result :=
  let '(Result mr inn dl on mn _ du ac fc r) := res in Result mr inn dl on mn dm du ac fc r.
Definition with_duplicate_name du (res : roster_merge_result) : roster_merge_result :=
  let '(Result mr inn dl on mn dm _ ac fc r) := res in Result mr inn dl on mn dm du ac fc r.
Definition add_attribute c (res : roster_merge_result) : roster_merge_result :=
  let '(Result mr inn dl on mn dm du ac fc r) := res in Result mr inn dl on mn dm du (ac ++ [c]) fc r.
Definition add_file_content c (res : roster_merge_result) : roster_merge_result :=
  let '(Result mr inn dl on mn dm du ac fc r) := res in Result mr inn dl on mn dm du ac (fc ++ [c]) r.
Definition with_missing_root (res : roster_merge_result) : roster_merge_result :=
  let '(Result _ inn dl on mn dm du ac fc r) := res in Result true inn dl on mn dm du ac fc r.

(** ** Scalars *)

Definition a_wins (b_marks b_uncommon_ancestors : gset bytes) : bool :=
  forallb (λ i, negb (bool_decide (i ∈ b_uncommon_ancestors))) (set_iter b_marks).

(** [None] when there is a conflict. *)
Definition merge_scalar {T} `{EqDecision T}
    (left : T) (left_marks left_uncommon_ancestors : gset bytes)
    (right : T) (right_marks right_uncommon_ancestors : gset bytes) : result (option T) :=
  if bool_decide (left = right) then Ok (Some left)
  else
    let left_wins := a_wins right_marks right_uncommon_ancestors in
    let right_wins := a_wins left_marks left_uncommon_ancestors in
    I_ (negb (left_wins && right_wins)) ;;
    if left_wins && negb right_wins then Ok (Some left)
    else if negb left_wins && right_wins then Ok (Some right)
    else Ok None.

(** ** The life of a node *)

Definition create_node_for (n : node) (new_roster : roster) : roster :=
  match body n with
  | DirBody _ => create_dir_node new_roster (self n)
  | FileBody _ => create_file_node new_roster [] (self n)
  end.

Definition resolve_conflict_key : attr_key := lit "mtn:resolve_conflict".

Definition new_dropped_modified (left_nid right_nid : node_id) (res : resolution_t) :
    dropped_modified_conflict :=
  let side := if left_nid =? the_null_node then left_side else right_side in
  let r := FileResolution res None (FilePath []) in
  DroppedModified side left_nid right_nid false [] []
    (match side with right_side => r | left_side => no_resolution end)
    (match side with right_side => no_resolution | left_side => r end).

(** The resolution that an attribute of the node asks for. *)
Definition attr_resolution (n : node) : result resolution_t :=
  match attrs n !! resolve_conflict_key with
  | Some (true, v) => if bool_decide (v = lit "drop") then Ok drop_ else Err (generic_failure user)
  | _ => Ok none
  end.

Definition insert_if_unborn (n : node) (markings : marking_map) (uncommon_ancestors : gset bytes)
    (present_in : side_t) (res : roster_merge_result) : result roster_merge_result :=
  m ← get_marking markings (self n);
  if bool_decide (birth_revision m ∈ uncommon_ancestors) then
    Ok (with_roster (create_node_for n (result_roster res)) res)
  else if existsb (λ i, bool_decide (i ∈ uncommon_ancestors)) (set_iter (file_content m)) then
    rs ← attr_resolution n;
    let conflict := match present_in with
                    | left_side => new_dropped_modified (self n) the_null_node rs
                    | right_side => new_dropped_modified the_null_node (self n) rs
                    end in
    Ok (with_dropped_modified (dropped_modified_conflicts res ++ [conflict])
          (with_roster (create_node_for n (result_roster res)) res))
  else Ok res.

(** ** Attaching *)

(** Up the parents; each round visits another node. *)
Fixpoint loop_up (fuel : nat) (r : roster) (nid curr : node_id) : result bool :=
  if null_node curr then Ok false
  else if curr =? nid then Ok true
  else
    match fuel with
    | O => Err UndefinedBehaviour
    | S fuel => n ← get_node r curr; loop_up fuel r nid (parent n)
    end.

Definition would_make_dir_loop (r : roster) (nid par : node_id) : result bool :=
  loop_up (size (nodes r)) r nid par.

Definition dm_is (nid : node_id) (c : dropped_modified_conflict) : bool :=
  (dm_left_nid c =? nid) || (dm_right_nid c =? nid).
Definition du_is (nid : node_id) (c : duplicate_name_conflict) : bool :=
  (du_left_nid c =? nid) || (du_right_nid c =? nid).

(** [dropped_modified->orphaned = true] at the first conflict of [nid]. *)
Fixpoint mark_orphaned (nid : node_id) (l : list dropped_modified_conflict) :
    list dropped_modified_conflict :=
  match l with
  | [] => []
  | c :: l =>
      if dm_is nid c then
        DroppedModified (dropped_side c) (dm_left_nid c) (dm_right_nid c) true
          (dm_left_rid c) (dm_right_rid c) (dm_left_resolution c) (dm_right_resolution c) :: l
      else c :: mark_orphaned nid l
  end.

Definition duplicate_of (side : side_t) (nid other par : node_id) (nm : path_component) :
    duplicate_name_conflict :=
  match side with
  | left_side => DuplicateName nid other (par, nm) no_resolution no_resolution
  | right_side => DuplicateName other nid (par, nm) no_resolution no_resolution
  end.

Definition attach_in (res : roster_merge_result) (nid par : node_id) (nm : path_component) :
    result roster_merge_result :=
  r ← attach_node_at (result_roster res) nid par nm; Ok (with_roster r res).

Definition assign_root (res : roster_merge_result) (nid : node_id) (nm : path_component)
    (side : side_t) : result roster_merge_result :=
  I_ (bool_decide (nm = [])) ;;
  match root_dir (result_roster res) with
  | Some other =>
      '(r, _) ← detach_node (result_roster res) (FilePath []);
      Ok (with_duplicate_name
            (duplicate_name_conflicts res ++ [duplicate_of side nid other the_null_node nm])
            (with_roster r res))
  | None => attach_in res nid the_null_node nm
  end.

Definition assign_name (res : roster_merge_result) (nid par : node_id) (nm : path_component)
    (side : side_t) : result roster_merge_result :=
  if null_node par then assign_root res nid nm side
  else
    let dropped_modified := existsb (dm_is nid) (dropped_modified_conflicts res) in
    if negb (has_node (result_roster res) par) then
      if dropped_modified then
        Ok (with_dropped_modified (mark_orphaned nid (dropped_modified_conflicts res)) res)
      else Ok (add_orphaned_node (OrphanedNode nid (par, nm) no_resolution) res)
    else
      p ← get_node (result_roster res) par;
      children ← downcast_to_dir_t p;
      match children !! nm with
      | Some other =>
          '(r, _) ← detach_child (result_roster res) par nm;
          Ok (with_duplicate_name
                (duplicate_name_conflicts res ++ [duplicate_of side nid other par nm])
                (with_roster r res))
      | None =>
          loop ← would_make_dir_loop (result_roster res) nid par;
          if loop : bool then Ok (add_directory_loop (DirectoryLoop nid (par, nm)) res)
          else if dropped_modified then Ok res
          else attach_in res nid par nm
      end.

(** An update of node [i] of the result through a pointer. *)
Definition update_node (i : node_id) (f : node → node) (res : roster_merge_result) :
    roster_merge_result :=
  with_roster (set_nodes (result_roster res) (alter f i (nodes (result_roster res)))) res.

Definition copy_node_forward (res : roster_merge_result) (new_i : node_id) (old_n : node)
    (side : side_t) : result roster_merge_result :=
  n ← get_node (result_roster res) new_i;
  I_ (self n =? self old_n) ;;
  let res := update_node new_i (with_attrs (attrs old_n)) res in
  res ← (if is_file_t n then
           content ← downcast_to_file_t old_n;
           Ok (update_node new_i (with_body (FileBody content)) res)
         else Ok res);
  assign_name res (self n) (parent old_n) (name old_n) side.

(** ** Merging a node that both parents have *)

Section both.
Context (left_uncommon right_uncommon : gset bytes).
Context (new_i : node_id) (left_n : node) (left_marking : marking) (right_n : node) (right_marking : marking).

Definition merge_name (res : roster_merge_result) : result roster_merge_result :=
  let left_name := location_of left_n in
  let right_name := location_of right_n in
  o ← merge_scalar left_name (parent_name left_marking) left_uncommon
        right_name (parent_name right_marking) right_uncommon;
  match o with
  | Some new_name =>
      winning_side ← (if bool_decide (new_name = left_name) then Ok left_side
                      else if bool_decide (new_name = right_name) then Ok right_side
                      else Err invariant_failure);
      assign_name res new_i new_name.1 new_name.2 winning_side
  | None => Ok (add_multiple_name (MultipleName new_i left_name right_name) res)
  end.

Definition merge_content (is_file : bool) (res : roster_merge_result) : result roster_merge_result :=
  if is_file then
    lf ← downcast_to_file_t left_n;
    rf ← downcast_to_file_t right_n;
    o ← merge_scalar lf (file_content left_marking) left_uncommon
          rf (file_content right_marking) right_uncommon;
    match o with
    | Some content => Ok (update_node new_i (with_body (FileBody content)) res)
    | None =>
        Ok (add_file_content (FileContent new_i [] lf rf no_resolution)
              (update_node new_i (with_body (FileBody [])) res))
    end
  else Ok res.

Definition insert_attr (k : attr_key) (v : bool * attr_value) (res : roster_merge_result) :
    result roster_merge_result :=
  n ← get_node (result_roster res) new_i;
  a ← safe_insert (attrs n) k v;
  Ok (update_node new_i (with_attrs a) res).

Definition merge_attr (res : roster_merge_result) (x : attr_key * item (bool * attr_value)) :
    result roster_merge_result :=
  match x with
  | (k, Left v) => insert_attr k v res
  | (k, Right w) => insert_attr k w res
  | (k, Both v w) =>
      lms ← safe_get (attr_marks left_marking) k;
      rms ← safe_get (attr_marks right_marking) k;
      o ← merge_scalar v lms left_uncommon w rms right_uncommon;
      match o with
      | Some new_value => insert_attr k new_value res
      | None => Ok (add_attribute (AttributeConflict new_i k v w) res)
      end
  end.

Definition merge_node (res : roster_merge_result) : result roster_merge_result :=
  new_n ← get_node (result_roster res) new_i;
  res ← merge_name res;
  res ← merge_content (is_file_t new_n) res;
  l ← items (attrs left_n) (attrs right_n);
  foldM merge_attr l res.
End both.

(** ** The loops of [roster_merge] *)

Definition incr {A} (i : list A) : result (list A) :=
  match i with [] => Err UndefinedBehaviour | _ :: i => Ok i end.
Definition deref {A} (i : list A) : result A :=
  match i with [] => Err UndefinedBehaviour | x :: _ => Ok x end.

Section roster_merge.
Context (left_parent : roster) (left_markings : marking_map) (left_uncommon_ancestors : gset bytes).
Context (right_parent : roster) (right_markings : marking_map) (right_uncommon_ancestors : gset bytes).

Definition lifecycle_step (res : roster_merge_result) (x : Z * item node) : result roster_merge_result :=
  match x.2 with
  | Left n => insert_if_unborn n left_markings left_uncommon_ancestors left_side res
  | Right n => insert_if_unborn n right_markings right_uncommon_ancestors right_side res
  | Both n _ => Ok (with_roster (create_node_for n (result_roster res)) res)
  end.

(** The iterators [new_i], [left_mi] and [right_mi] beside the result. *)
Definition fill_state : Type := roster_merge_result * list node_id * list (Z * marking) * list (Z * marking).

Definition fill_step (st : fill_state) (x : Z * item node) : result fill_state :=
  let '(res, new_i, left_mi, right_mi) := st in
  match x with
  | (k, Left left_n) =>
      '(res, new_i) ←
        (if has_node (result_roster res) (self left_n) then
           i ← deref new_i;
           res ← copy_node_forward res i left_n left_side;
           Ok (res, tail new_i)
         else Ok (res, new_i));
      left_mi ← incr left_mi;
      Ok (res, new_i, left_mi, right_mi)
  | (k, Right right_n) =>
      '(res, new_i) ←
        (if has_node (result_roster res) (self right_n) then
           i ← deref new_i;
           res ← copy_node_forward res i right_n right_side;
           Ok (res, tail new_i)
         else Ok (res, new_i));
      right_mi ← incr right_mi;
      Ok (res, new_i, left_mi, right_mi)
  | (k, Both left_n right_n) =>
      i ← deref new_i;
      I_ (i =? k) ;;
      lm ← deref left_mi;
      I_ (lm.1 =? k) ;;
      rm ← deref right_mi;
      I_ (rm.1 =? k) ;;
      res ← merge_node left_uncommon_ancestors right_uncommon_ancestors i left_n lm.2 right_n rm.2 res;
      Ok (res, tail new_i, tail left_mi, tail right_mi)
  end.

Definition fill_nodes (res : roster_merge_result) : result roster_merge_result :=
  l ← items (nodes left_parent) (nodes right_parent);
  '(res, new_i, left_mi, right_mi) ←
    foldM fill_step l (res, (map_iter (nodes (result_roster res))).*1, map_iter left_markings, map_iter right_markings);
  I_ (bool_decide (left_mi = [])) ;;
  I_ (bool_decide (right_mi = [])) ;;
  I_ (bool_decide (new_i = [])) ;;
  Ok res.

(** [v.erase(find(v.begin(), v.end(), nid))] *)
Fixpoint erase_duplicate (nid : node_id) (l : list duplicate_name_conflict) :
    result (list duplicate_name_conflict) :=
  match l with
  | [] => Err UndefinedBehaviour
  | c :: l => if du_is nid c then Ok l else l ← erase_duplicate nid l; Ok (c :: l)
  end.

(** One side of the loop over the dropped/modified conflicts: the node was
    dropped in [this_parent] and modified in [other_parent].  The new roster
    and conflicts, and the id found in [this_parent], if any. *)
Definition recreated (this_parent other_parent : roster) (modified : node_id)
    (r : roster) (du : list duplicate_name_conflict) :
    result (roster * list duplicate_name_conflict * option node_id) :=
  modified_name ← get_name other_parent modified;
  if has_node_path r modified_name then
    this_node ← get_node_path this_parent modified_name;
    p ← get_node r (parent this_node);
    _ ← downcast_to_dir_t p;
    '(r, _) ← detach_child r (parent this_node) (name this_node);
    Ok (r, du, Some (self this_node))
  else if has_node_path this_parent modified_name then
    this_node ← get_node_path this_parent modified_name;
    du ← erase_duplicate (self this_node) du;
    Ok (r, du, Some (self this_node))
  else Ok (r, du, None).

Definition reconcile (conflict : dropped_modified_conflict) (r : roster) (du : list duplicate_name_conflict) :
    result (dropped_modified_conflict * roster * list duplicate_name_conflict) :=
  let '(DroppedModified side ln rn orph lrid rrid lres rres) := conflict in
  match side with
  | left_side =>
      '(r, du, o) ← recreated left_parent right_parent rn r du;
      Ok (DroppedModified side (default ln o) rn orph lrid rrid lres rres, r, du)
  | right_side =>
      '(r, du, o) ← recreated right_parent left_parent ln r du;
      Ok (DroppedModified side ln (default rn o) orph lrid rrid lres rres, r, du)
  end.

Fixpoint reconcile_all (l : list dropped_modified_conflict) (r : roster) (du : list duplicate_name_conflict) :
    result (list dropped_modified_conflict * roster * list duplicate_name_conflict) :=
  match l with
  | [] => Ok ([], r, du)
  | c :: l =>
      '(c, r, du) ← reconcile c r du;
      '(l, r, du) ← reconcile_all l r du;
      Ok (c :: l, r, du)
  end.

Definition check_globals (res : roster_merge_result) : result roster_merge_result :=
  match root_dir (result_roster res) with
  | None => Ok (with_missing_root res)
  | Some root =>
      d ← get_node (result_roster res) root;
      children ← downcast_to_dir_t d;
      match children !! bookkeeping_root_component with
      | None => Ok res
      | Some c =>
          n ← get_node (result_roster res) c;
          I_ (bool_decide (name n = bookkeeping_root_component)) ;;
          r ← detach_node_id (result_roster res) (self n);
          Ok (add_invalid_name (InvalidName (self n) (parent n, name n)) (with_roster r res))
      end
  end.

Definition roster_merge : result roster_merge_result :=
  l ← items (nodes left_parent) (nodes right_parent);
  res ← foldM lifecycle_step l clear_result;
  res ← fill_nodes res;
  '(dm, r, du) ← reconcile_all (dropped_modified_conflicts res) (result_roster res) (duplicate_name_conflicts res);
  check_globals (with_duplicate_name du (with_dropped_modified dm (with_roster r res))).
End roster_merge.
