(* ===== verification/MergeMoves.v ===== *)
(** * How [roster_merge] changes its result roster

    The result roster is seen through two functions: the scalars of a node
    (its id, attributes and content) and its place in the tree.  Attaching,
    detaching and writing through a pointer change one of them at one node.
    The parent chains stay finite: that is what [would_make_dir_loop] is for. *)

From S2P Require Import Prelude Paths Roster RosterInvariant ParallelIter Marking MergeRoster.

Definition content_of (n : node) : option file_id :=
  match body n with FileBody f => Some f | DirBody _ => None end.

Abbreviation scalar_values := (Z * gmap bytes (bool * bytes) * option bytes)%type.
Definition node_scalars (n : node) : scalar_values := (self n, attrs n, content_of n).
Definition scalars (r : roster) : gmap Z scalar_values := node_scalars <$> nodes r.

(** Where a node is attached, if it is. *)
Definition place (r : roster) (i : node_id) : option (node_id * path_component) :=
  match nodes r !! i with
  | Some n =>
      if null_node (parent n) then if bool_decide (root_dir r = Some i) then Some (the_null_node, []) else None
      else Some (parent n, name n)
  | None => None
  end.

(** The parent chains end. *)
Definition up (m : gmap Z node) (j i : node_id) : Prop :=
  ∃ n, m !! i = Some n ∧ parent n = j ∧ j ≠ the_null_node.
Definition grounded (m : gmap Z node) : Prop := ∀ i, Acc (up m) i.

Lemma grounded_sub m m' :
  grounded m → (∀ j i, up m' j i → up m j i) → grounded m'.
Proof.
  intros Hg Hsub i. induction (Hg i) as [i _ IH]. constructor. intros j Hj. by apply IH, Hsub.
Qed.

(** Only [x] moved, to the place [l]. *)
Record moved (r r' : roster) (x : node_id) (l : option (node_id * path_component)) : Prop := {
  mv_scalars : scalars r' = scalars r;
  mv_wf : rwf r';
  mv_grounded : grounded (nodes r');
  mv_place : place r' x = l;
  mv_other i : i ≠ x → place r' i = place r i
}.

Lemma scalars_lookup r i : scalars r !! i = node_scalars <$> nodes r !! i.
Proof. apply lookup_fmap. Qed.

Lemma place_null r i n :
  nodes r !! i = Some n → place r i = None → parent n = the_null_node ∧ root_dir r ≠ Some i.
Proof.
  unfold place. intros -> H. destruct (null_node (parent n)) eqn:E; [|done]. apply null_node_true in E.
  by case_bool_decide.
Qed.

(** ** Writing through a pointer *)

Lemma update_place r x f i :
  (∀ n, parent (f n) = parent n ∧ name (f n) = name n) →
  place (set_nodes r (alter f x (nodes r))) i = place r i.
Proof.
  intros Hf. unfold place. cbn [nodes set_nodes root_dir]. rewrite lookup_alter_at.
  destruct (nodes r !! i) as [n|]; [|by case_decide]. case_decide; simpl; [|done].
  destruct (Hf n) as [-> ->]. done.
Qed.

Lemma update_grounded m x f : grounded m → (∀ n, parent (f n) = parent n) → grounded (alter f x m).
Proof.
  intros Hg Hf. apply (grounded_sub m); [done|]. intros j i (n & Hn & <- & Hnz).
  rewrite lookup_alter_at in Hn. destruct (m !! i) as [n0|] eqn:E; [|by case_decide].
  exists n0. case_decide; simpl in Hn; injection Hn as <-; [|done]. rewrite Hf in Hnz |- *. done.
Qed.

(** ** Attaching and detaching *)

(** Node by node the same parents, except at [x]. *)
Definition same_parents (x : node_id) (m m' : gmap Z node) : Prop :=
  ∀ i, i ≠ x → parent <$> m' !! i = parent <$> m !! i.

Lemma same_parents_up x m m' j i : same_parents x m m' → i ≠ x → up m' j i → up m j i.
Proof.
  intros Hs Hi (n & Hn & <- & Hnz). pose proof (Hs i Hi) as E. rewrite Hn in E.
  destruct (m !! i) as [n0|] eqn:E0; [|done]. injection E as E. exists n0. split_and!; congruence.
Qed.

Lemma loop_up_grounded fuel r m' x curr :
  m' !! the_null_node = None → same_parents x (nodes r) m' →
  loop_up fuel r x curr = Ok false → Acc (up m') curr.
Proof.
  intros H0 Hs. revert curr. induction fuel as [|fuel IH]; intros curr H; cbn [loop_up] in H.
  all: destruct (null_node curr) eqn:E0;
    [apply null_node_true in E0 as ->; constructor; intros j (n & Hn & _); congruence|].
  all: destruct (Z.eqb_spec curr x) as [|Hne]; [done|]; inv_ok.
  unfold get_node in E. inv_ok. constructor. intros j Hj.
  apply (same_parents_up _ _ _ _ _ Hs Hne) in Hj as (n & Hn & <- & _).
  assert (n = v) as -> by congruence. by apply IH.
Qed.

Lemma grounded_attach r m' x par fuel :
  grounded (nodes r) → m' !! the_null_node = None → same_parents x (nodes r) m' →
  (∀ n, m' !! x = Some n → parent n = par) → loop_up fuel r x par = Ok false → grounded m'.
Proof.
  intros Hg H0 Hs Hx Hl. pose proof (loop_up_grounded _ _ _ _ _ H0 Hs Hl) as Hpar.
  intros i. induction (Hg i) as [i _ IH]. destruct (decide (i = x)) as [->|Hne].
  - constructor. intros j (n & Hn & <- & _). by rewrite (Hx n Hn).
  - constructor. intros j Hj. by apply IH, (same_parents_up _ _ _ _ _ Hs Hne).
Qed.

Lemma null_no_node r : rwf r → nodes r !! the_null_node = None.
Proof.
  intros Hwf. destruct (nodes r !! the_null_node) eqn:E; [|done]. by destruct (wf_self r Hwf _ _ E).
Qed.

Lemma lookup_attached (m : gmap Z node) x par nm i :
  alter (with_loc par nm) x (alter (with_children (<[nm := x]>)) par m) !! i =
  (λ n, (if decide (x = i) then with_loc par nm else id)
          ((if decide (par = i) then with_children (<[nm := x]>) else id) n)) <$> m !! i.
Proof. rewrite !lookup_alter_at. destruct (m !! i); repeat case_decide; done. Qed.

Lemma with_children_scalars f n : node_scalars (with_children f n) = node_scalars n.
Proof. unfold node_scalars, content_of, with_children. destruct n as [????[]]; done. Qed.
Lemma with_loc_scalars p nm n : node_scalars (with_loc p nm n) = node_scalars n.
Proof. done. Qed.
Lemma with_children_place f n : parent (with_children f n) = parent n ∧ name (with_children f n) = name n.
Proof. unfold with_children. destruct n as [????[]]; done. Qed.

Lemma moved_attach_child r x par nm r' :
  rwf r → grounded (nodes r) → is_Some (nodes r !! x) → place r x = None → par ≠ the_null_node →
  would_make_dir_loop r x par = Ok false → attach_node_at r x par nm = Ok r' →
  moved r r' x (Some (par, nm)) ∧ old_locations r' = delete x (old_locations r).
Proof.
  intros Hwf Hg [n Hx] Hpl Hpar Hloop Ha. destruct (place_null _ _ _ Hx Hpl) as [_ Hroot].
  pose proof (rwf_attach _ _ _ _ _ Hwf Hroot Ha) as Hwf'.
  assert (r' = Roster (root_dir r) (alter (with_loc par nm) x (alter (with_children (<[nm := x]>)) par (nodes r)))
    (delete x (old_locations r))) as ->.
  { clear - Hpar Ha. unfold attach_node_at in Ha. inv_ok. subst.
    rewrite (proj2 (null_node_false par)) in E3 by done. simpl in E3.
    destruct (bool_decide (nm = [])); inv_ok. subst.
    unfold attach_child in E4. inv_ok. subst. done. }
  split; [|done].
  assert (∀ i m, nodes r !! i = Some m → i ≠ x → ∀ m',
    alter (with_loc par nm) x (alter (with_children (<[nm := x]>)) par (nodes r)) !! i = Some m' →
    parent m' = parent m ∧ name m' = name m) as Hsame.
  { intros i m Hm Hne m'. rewrite lookup_attached, Hm, decide_False by done. simpl. intros [= <-].
    case_decide; [apply with_children_place|done]. }
  split; cbn [nodes root_dir].
  - unfold scalars. cbn [nodes]. apply map_eq. intros i. rewrite !lookup_fmap, lookup_attached.
    destruct (nodes r !! i) as [m|]; simpl; [|done]. f_equal.
    destruct (decide (x = i)), (decide (par = i)); cbn [id]; try done;
      [rewrite with_loc_scalars; apply with_children_scalars|apply with_children_scalars].
  - done.
  - eapply (grounded_attach r _ x par); [done| | | |exact Hloop].
    + rewrite lookup_attached, null_no_node; done.
    + intros i Hne. destruct (nodes r !! i) as [m|] eqn:Hm; rewrite lookup_attached, Hm; [|done]. simpl. f_equal.
      rewrite decide_False by done. case_decide; [apply with_children_place|done].
    + intros m. rewrite lookup_attached, Hx, decide_True by done. simpl. intros [= <-]. done.
  - unfold place. cbn [nodes]. rewrite lookup_attached, Hx, decide_True by done. simpl.
    by rewrite (proj2 (null_node_false par)).
  - intros i Hne. unfold place. cbn [nodes root_dir].
    destruct (nodes r !! i) as [m|] eqn:Hm; rewrite lookup_attached, Hm; [|done]. simpl.
    rewrite decide_False by done. case_decide; [|done]. cbn [id].
    by destruct (with_children_place (<[nm := x]>) m) as [-> ->].
Qed.

Lemma moved_attach_root r x nm r' :
  rwf r → grounded (nodes r) → is_Some (nodes r !! x) → place r x = None →
  attach_node_at r x the_null_node nm = Ok r' →
  moved r r' x (Some (the_null_node, nm)) ∧ nm = [] ∧ old_locations r' = delete x (old_locations r).
Proof.
  intros Hwf Hg [n Hx] Hpl Ha. destruct (place_null _ _ _ Hx Hpl) as [Hp Hroot].
  pose proof (rwf_attach _ _ _ _ _ Hwf Hroot Ha) as Hwf'.
  assert (nm = [] ∧ root_dir r = None ∧ r' = Roster (Some x) (nodes r) (delete x (old_locations r))) as (-> & Hr0 & ->).
  { clear - Ha. unfold attach_node_at in Ha. inv_ok. subst. simpl in E3. inv_ok. subst.
    match goal with H : has_root r = false |- _ => unfold has_root in H; apply bool_decide_eq_false in H end.
    split_and!; [done|by apply eq_None_not_Some|done]. }
  split_and!; [|done..]. split; cbn [nodes root_dir]; [done|done|done| |].
  - unfold place. cbn [nodes root_dir]. by rewrite Hx, Hp, bool_decide_true by done.
  - intros i Hne. unfold place. cbn [nodes root_dir]. destruct (nodes r !! i) as [m|]; [|done].
    rewrite Hr0, !bool_decide_false by congruence. done.
Qed.

Lemma moved_detach_child r par nm r' c :
  rwf r → grounded (nodes r) → detach_child r par nm = Ok (r', c) →
  moved r r' c None ∧ place r c = Some (par, nm) ∧ old_locations r' = old_locations r ∧ root_dir r' = root_dir r.
Proof.
  intros Hwf Hg Hd. destruct (detach_child_spec _ _ _ _ _ Hwf Hd) as (n & Hn & <- & <- & Hp0 & ->).
  assert (root_dir r ≠ Some c) as Hroot.
  { intros E. destruct (wf_root r Hwf _ E) as (n' & ? & _ & ?). congruence. }
  assert (∀ i m, nodes r !! i = Some m → stripped {[c]} (nodes r) !! i = Some (strip {[c]} i m)) as Hl
    by (intros i m Hm; by rewrite lookup_stripped, Hm).
  split; [split|]; cbn [nodes root_dir set_nodes].
  - unfold scalars. cbn [nodes set_nodes]. apply map_eq. intros i. rewrite !lookup_fmap, lookup_stripped.
    destruct (nodes r !! i) as [m|]; simpl; [|done]. f_equal. unfold node_scalars, content_of.
    rewrite self_strip, attrs_strip, body_strip. by destruct (body m).
  - destruct (rwf_detached {[c]} r (old_locations r) Hwf) as [D1 D2 D3 D4 _]. split; [done..|].
    cbn [root_dir set_nodes]. intros i Hi. destruct (wf_root r Hwf _ Hi) as (m & Hm & Hdir & Hpm).
    exists (strip {[c]} i m). cbn [nodes set_nodes]. rewrite (Hl _ _ Hm). split_and!; [done| |].
    + unfold is_dir_t in *. rewrite body_strip. by destruct (body m).
    + rewrite parent_strip. by case_decide.
  - apply (grounded_sub (nodes r)); [done|]. intros j i (m' & Hm' & <- & Hnz).
    rewrite lookup_stripped in Hm'. destruct (nodes r !! i) as [m|] eqn:Hm; [|done]. injection Hm' as <-.
    rewrite parent_strip in Hnz |- *. case_decide; [done|]. by exists m.
  - unfold place. cbn [nodes set_nodes root_dir]. rewrite (Hl _ _ Hn), parent_strip, decide_True by set_solver.
    simpl. by rewrite bool_decide_false.
  - intros i Hne. unfold place. cbn [nodes set_nodes root_dir].
    destruct (nodes r !! i) as [m|] eqn:Hm; [rewrite (Hl _ _ Hm)|by rewrite lookup_stripped, Hm].
    by rewrite parent_strip, name_strip, !decide_False by set_solver.
  - split_and!; [|done..]. unfold place. by rewrite Hn, (proj2 (null_node_false _) Hp0).
Qed.

Lemma moved_detach_root r r' x :
  rwf r → grounded (nodes r) → detach_node r (FilePath []) = Ok (r', x) →
  moved r r' x None ∧ root_dir r = Some x ∧ root_dir r' = None.
Proof.
  intros Hwf Hg Hd. unfold detach_node in Hd. simpl in Hd. inv_ok. simplify_eq.
  destruct (wf_root r Hwf _ E) as (n & Hn & _ & Hp).
  split_and!; [|done..]. split; cbn [nodes root_dir set_root set_old].
  - done.
  - by apply rwf_no_root, rwf_set_old.
  - done.
  - unfold place. cbn [nodes root_dir set_root set_old]. by rewrite Hn, Hp.
  - intros i Hne. unfold place. cbn [nodes root_dir set_root set_old].
    destruct (nodes r !! i) as [m|]; [|done]. by rewrite E, !bool_decide_false by congruence.
Qed.
