(* ===== verification/MergeInvariant.v ===== *)
(** * What [roster_merge] computes

    The merge is specified node by node and scalar by scalar with the *-merge
    rule; whatever the rule or the tree structure cannot decide has to show up
    in a conflict.  [fill_inv] is the invariant of the phase that fills in the
    surviving nodes in node-id order. *)

From S2P Require Import Prelude Paths Roster RosterInvariant ParallelIter Marking MergeRoster MergeMoves.

(** ** The *-merge rule *)

Definition star_merge {T} `{EqDecision T} (l : T) (lm lu : gset bytes) (r : T) (rm ru : gset bytes) : option T :=
  if decide (l = r) then Some l
  else if a_wins rm ru then Some l else if a_wins lm lu then Some r else None.

Lemma merge_scalar_star {T} `{EqDecision T} (l r : T) lm lu rm ru o :
  merge_scalar l lm lu r rm ru = Ok o → o = star_merge l lm lu r rm ru.
Proof.
  unfold merge_scalar, star_merge. intros E. case_bool_decide; [rewrite decide_True by done; by inv_ok|].
  rewrite decide_False by done. destruct (a_wins rm ru), (a_wins lm lu); simpl in E; inv_ok; done.
Qed.

Definition marking_of (mm : marking_map) (i : node_id) : marking := default empty_marking (mm !! i).
Definition marks_of (mm : marking_map) (i : node_id) (k : attr_key) : gset bytes :=
  default ∅ (attr_marks (marking_of mm i) !! k).

(** Born, or its content changed, in the revisions [ua]. *)
Definition lives (mm : marking_map) (ua : gset bytes) (i : node_id) : bool :=
  bool_decide (birth_revision (marking_of mm i) ∈ ua) ||
  existsb (λ r, bool_decide (r ∈ ua)) (set_iter (file_content (marking_of mm i))).

(** The ids that the structural conflicts name. *)
Definition conflict_ids (res : roster_merge_result) : list node_id :=
  (in_nid <$> invalid_name_conflicts res) ++ (dl_nid <$> directory_loop_conflicts res) ++
  (on_nid <$> orphaned_node_conflicts res) ++ (mn_nid <$> multiple_name_conflicts res) ++
  (dm_left_nid <$> dropped_modified_conflicts res) ++ (dm_right_nid <$> dropped_modified_conflicts res) ++
  (du_left_nid <$> duplicate_name_conflicts res) ++ (du_right_nid <$> duplicate_name_conflicts res).

Section spec.
Context (L : roster) (LM : marking_map) (lu : gset bytes) (R : roster) (RM : marking_map) (ru : gset bytes).

Definition survives (i : node_id) : bool :=
  match nodes L !! i, nodes R !! i with
  | Some _, Some _ => true
  | Some _, None => lives LM lu i
  | None, Some _ => lives RM ru i
  | None, None => false
  end.

Definition merged_place (i : node_id) : option (node_id * path_component) :=
  match nodes L !! i, nodes R !! i with
  | Some n, Some n' =>
      star_merge (location_of n) (parent_name (marking_of LM i)) lu
        (location_of n') (parent_name (marking_of RM i)) ru
  | Some n, None | None, Some n => Some (location_of n)
  | None, None => None
  end.

(** The content when both sides have the file. *)
Definition both_content (i : node_id) (f f' : file_id) : option file_id :=
  star_merge f (file_content (marking_of LM i)) lu f' (file_content (marking_of RM i)) ru.

Definition merged_content (i : node_id) : option file_id :=
  match nodes L !! i, nodes R !! i with
  | Some n, Some n' =>
      match body n, body n' with
      | FileBody f, FileBody f' => Some (default [] (both_content i f f'))
      | _, _ => None
      end
  | Some n, None | None, Some n => content_of n
  | None, None => None
  end.

Definition both_attr (i : node_id) (k : attr_key) (v w : bool * attr_value) : option (bool * attr_value) :=
  star_merge v (marks_of LM i k) lu w (marks_of RM i k) ru.

Definition merged_attr (i : node_id) (k : attr_key) (o o' : option (bool * attr_value)) :
    option (bool * attr_value) :=
  match o, o' with
  | Some v, Some w => both_attr i k v w
  | Some v, None | None, Some v => Some v
  | None, None => None
  end.

Definition merged_attrs (i : node_id) : gmap bytes (bool * attr_value) :=
  match nodes L !! i, nodes R !! i with
  | Some n, Some n' =>
      map_imap (λ k _, merged_attr i k (attrs n !! k) (attrs n' !! k)) (attrs n ∪ attrs n')
  | Some n, None | None, Some n => attrs n
  | None, None => ∅
  end.

(** The content of a node that is not filled in yet. *)
Definition blank_content (i : node_id) : option file_id :=
  match nodes L !! i, nodes R !! i with
  | Some n, _ | None, Some n => match body n with FileBody _ => Some [] | DirBody _ => None end
  | None, None => None
  end.

(** Every scalar of node [i] that the rule leaves open is reported. *)
Definition scalars_reported (res : roster_merge_result) (i : node_id) : Prop :=
  ∀ n n', nodes L !! i = Some n → nodes R !! i = Some n' →
    (∀ k v w, attrs n !! k = Some v → attrs n' !! k = Some w → both_attr i k v w = None →
       AttributeConflict i k v w ∈ attribute_conflicts res) ∧
    (∀ f f', body n = FileBody f → body n' = FileBody f' → both_content i f f' = None →
       FileContent i [] f f' no_resolution ∈ file_content_conflicts res).

Record fill_inv (done : list node_id) (res : roster_merge_result) : Prop := {
  fi_wf : rwf (result_roster res);
  fi_grounded : grounded (nodes (result_roster res));
  fi_scalars i :
    scalars (result_roster res) !! i =
    if survives i
    then Some (if decide (i ∈ done) then (i, merged_attrs i, merged_content i) else (i, ∅, blank_content i))
    else None;
  fi_todo i : i ∉ done → place (result_roster res) i = None;
  fi_placed i :
    i ∈ done → survives i = true →
    (is_Some (merged_place i) ∧ place (result_roster res) i = merged_place i) ∨
    (place (result_roster res) i = None ∧ i ∈ conflict_ids res);
  fi_reported i : i ∈ done → scalars_reported res i;
  fi_old : duplicate_name_conflicts res = [] → old_locations (result_roster res) = ∅
}.
End spec.

(** ** [assign_name] *)

(** What deciding the place [l] of [nid] does to the result. *)
Record assigned (res res' : roster_merge_result) (nid : node_id) (l : option (node_id * path_component)) : Prop := {
  as_scalars : scalars (result_roster res') = scalars (result_roster res);
  as_wf : rwf (result_roster res');
  as_grounded : grounded (nodes (result_roster res'));
  as_place :
    (is_Some l ∧ place (result_roster res') nid = l) ∨
    (place (result_roster res') nid = None ∧ nid ∈ conflict_ids res');
  as_other i :
    i ≠ nid → place (result_roster res') i = place (result_roster res) i ∨
    (place (result_roster res') i = None ∧ i ∈ conflict_ids res');
  as_ids i : i ∈ conflict_ids res → i ∈ conflict_ids res';
  as_attr : attribute_conflicts res' = attribute_conflicts res;
  as_content : file_content_conflicts res' = file_content_conflicts res;
  as_old :
    duplicate_name_conflicts res' = [] → duplicate_name_conflicts res = [] ∧
    (old_locations (result_roster res) = ∅ → old_locations (result_roster res') = ∅);
  as_dm : length (dropped_modified_conflicts res') = length (dropped_modified_conflicts res)
}.

Ltac ids :=
  unfold conflict_ids; cbn; rewrite ?fmap_app, ?elem_of_app, ?list_fmap_singleton, ?list_elem_of_singleton; tauto.

Lemma mark_orphaned_ids nid l :
  dm_left_nid <$> mark_orphaned nid l = dm_left_nid <$> l ∧ dm_right_nid <$> mark_orphaned nid l = dm_right_nid <$> l.
Proof.
  induction l as [|c l [IH1 IH2]]; [done|]. cbn [mark_orphaned]. destruct (dm_is nid c); [done|].
  cbn. by rewrite IH1, IH2.
Qed.

Lemma dm_is_ids nid res :
  existsb (dm_is nid) (dropped_modified_conflicts res) = true → nid ∈ conflict_ids res.
Proof.
  intros (c & Hc & E)%existsb_exists. apply list_elem_of_In in Hc. unfold dm_is in E.
  apply orb_true_iff in E as [E|E]; apply Z.eqb_eq in E as <-; unfold conflict_ids; rewrite !elem_of_app;
    [do 4 right; left|do 5 right; left]; by apply list_elem_of_fmap_2.
Qed.

(** A detachment that is recorded as a duplicate name. *)
Lemma assigned_duplicate mr inn dl on mn dm du ac fc r r' side nid other par nm :
  moved r r' other None → place r nid = None →
  let c := duplicate_of side nid other par nm in
  assigned (Result mr inn dl on mn dm du ac fc r) (Result mr inn dl on mn dm (du ++ [c]) ac fc r') nid (Some (par, nm)).
Proof.
  intros [M1 M2 M3 M4 M5] Hnid c.
  assert (∀ i, i = nid ∨ i = other → i ∈ conflict_ids (Result mr inn dl on mn dm (du ++ [c]) ac fc r')) as Hids.
  { intros i Hi. unfold c, duplicate_of. destruct side; ids. }
  split; cbn; [done|done|done| | | |done|done| |done].
  - right. split; [|auto]. destruct (decide (nid = other)) as [->|]; [done|]. by rewrite M5.
  - intros i Hi. destruct (decide (i = other)) as [->|Hne]; [|left; by apply M5]. right. auto.
  - intros i. unfold c. destruct side; ids.
  - by intros [_ ?]%app_nil.
Qed.

Lemma assigned_attach mr inn dl on mn dm du ac fc r r' nid l :
  moved r r' nid (Some l) → old_locations r' = delete nid (old_locations r) →
  assigned (Result mr inn dl on mn dm du ac fc r) (Result mr inn dl on mn dm du ac fc r') nid (Some l).
Proof.
  intros [M1 M2 M3 M4 M5] Ho. split; cbn; [done|done|done|by left; eauto|intros i Hi; left; by apply M5|done|done|done| |done].
  intros E. split; [done|]. intros E'. by rewrite Ho, E', delete_empty.
Qed.

(** Nothing moves; the conflict of [nid] is on record. *)
Lemma assigned_stay res res' nid l :
  result_roster res' = result_roster res → rwf (result_roster res) → grounded (nodes (result_roster res)) →
  place (result_roster res) nid = None → nid ∈ conflict_ids res' →
  (∀ i, i ∈ conflict_ids res → i ∈ conflict_ids res') →
  attribute_conflicts res' = attribute_conflicts res → file_content_conflicts res' = file_content_conflicts res →
  duplicate_name_conflicts res' = duplicate_name_conflicts res →
  length (dropped_modified_conflicts res') = length (dropped_modified_conflicts res) →
  assigned res res' nid l.
Proof.
  intros Er Hwf Hg Hp Hin Hids Ha Hc Hd Hdm. split; rewrite ?Er; try done; [by right|by left|by rewrite Hd].
Qed.

Lemma length_mark_orphaned nid l : length (mark_orphaned nid l) = length l.
Proof. induction l as [|c l IH]; [done|]. cbn [mark_orphaned]. destruct (dm_is nid c); [done|]. cbn. by rewrite IH. Qed.

Lemma assign_name_spec res nid par nm side res' :
  rwf (result_roster res) → grounded (nodes (result_roster res)) →
  is_Some (nodes (result_roster res) !! nid) → place (result_roster res) nid = None →
  assign_name res nid par nm side = Ok res' → assigned res res' nid (Some (par, nm)).
Proof.
  intros Hwf Hg Hx Hp H. destruct res as [mr inn dl on mn dm du ac fc r]. unfold assign_name in H.
  cbn [result_roster dropped_modified_conflicts] in *.
  destruct (null_node par) eqn:Hpar.
  - apply null_node_true in Hpar as ->. unfold assign_root in H. cbn [result_roster] in H.
    destruct (bool_decide (nm = [])) eqn:Hnm; cbn [I_ mbind result_bind] in H; [|done].
    apply bool_decide_eq_true in Hnm as ->. destruct (root_dir r) as [other|] eqn:Hroot.
    + inv_ok. destruct v as [r' o]. inv_ok. subst res'.
      destruct (moved_detach_root _ _ _ Hwf Hg E) as (M & Eo & _).
      assert (o = other) as -> by congruence. cbn. by apply assigned_duplicate.
    + unfold attach_in in H. inv_ok. subst res'. cbn in E |- *.
      destruct (moved_attach_root _ _ _ _ Hwf Hg Hx Hp E) as (M & _ & Ho). by apply assigned_attach.
  - apply null_node_false in Hpar.
    destruct (negb (has_node r par)) eqn:Hhas.
    { destruct (existsb (dm_is nid) dm) eqn:Edm; inv_ok; subst res'.
      - pose proof (dm_is_ids nid (Result mr inn dl on mn dm du ac fc r) Edm) as Hin.
        assert (conflict_ids (Result mr inn dl on mn (mark_orphaned nid dm) du ac fc r) =
                conflict_ids (Result mr inn dl on mn dm du ac fc r)) as Eids.
        { unfold conflict_ids. cbn. by destruct (mark_orphaned_ids nid dm) as [-> ->]. }
        apply assigned_stay; cbn [with_dropped_modified]; rewrite ?Eids; cbn; try done. apply length_mark_orphaned.
      - apply assigned_stay; cbn [add_orphaned_node]; try done; [ids|intros i; ids]. }
    inv_ok. destruct (v0 !! nm) as [other|] eqn:Hc.
    + inv_ok. destruct v1 as [r' o]. inv_ok. subst res'.
      destruct (moved_detach_child _ _ _ _ _ Hwf Hg E1) as (M & Eo & _ & _).
      assert (o = other) as ->; [|cbn; by apply assigned_duplicate].
      unfold detach_child in E1. inv_ok. simplify_eq. apply safe_get_Ok_inv in E4. congruence.
    + inv_ok. destruct v1; inv_ok; [subst res'|destruct (existsb (dm_is nid) dm) eqn:Edm; inv_ok; [subst res'|]].
      * apply assigned_stay; cbn [add_directory_loop]; try done; [ids|intros i; ids].
      * apply assigned_stay; try done. by apply dm_is_ids.
      * unfold attach_in in H. inv_ok. subst res'. cbn in E2 |- *.
        destruct (moved_attach_child _ _ _ _ _ Hwf Hg Hx Hp Hpar E1 E2) as (M & Ho). by apply assigned_attach.
Qed.

(** ** Filling in scalars *)

(** What writing the scalars of [k] does to the result. *)
Record filled (res res' : roster_merge_result) (k : node_id) (sv : scalar_values) : Prop := {
  fl_scalars : scalars (result_roster res') = <[k := sv]> (scalars (result_roster res));
  fl_wf : rwf (result_roster res');
  fl_grounded : grounded (nodes (result_roster res'));
  fl_place i : place (result_roster res') i = place (result_roster res) i;
  fl_ids : conflict_ids res' = conflict_ids res;
  fl_dup : duplicate_name_conflicts res' = duplicate_name_conflicts res;
  fl_old : old_locations (result_roster res') = old_locations (result_roster res);
  fl_dm : length (dropped_modified_conflicts res') = length (dropped_modified_conflicts res);
  fl_attr c : c ∈ attribute_conflicts res → c ∈ attribute_conflicts res';
  fl_content c : c ∈ file_content_conflicts res → c ∈ file_content_conflicts res'
}.

Lemma filled_trans res res1 res2 k sv1 sv2 :
  filled res res1 k sv1 → filled res1 res2 k sv2 → filled res res2 k sv2.
Proof.
  intros [A1 A2 A3 A4 A5 A6 A7 A8 A9 A10] [B1 B2 B3 B4 B5 B6 B7 B8 B9 B10].
  split; try congruence; auto.
  - by rewrite B1, A1, insert_insert_eq.
Qed.

Lemma filled_refl res k n :
  rwf (result_roster res) → grounded (nodes (result_roster res)) →
  nodes (result_roster res) !! k = Some n → filled res res k (node_scalars n).
Proof. intros Hwf Hg Hn. split; try done. rewrite insert_id; [done|]. by rewrite scalars_lookup, Hn. Qed.

(** Writing a new value into one field. *)
Lemma filled_update res k n f :
  rwf (result_roster res) → grounded (nodes (result_roster res)) → nodes (result_roster res) !! k = Some n →
  (∀ m, self (f m) = self m ∧ parent (f m) = parent m ∧ name (f m) = name m) →
  (∀ ch, body (f n) = DirBody ch ↔ body n = DirBody ch) →
  filled res (update_node k f res) k (node_scalars (f n)).
Proof.
  intros Hwf Hg Hn Hf Hb. destruct res as [mr inn dl on mn dm du ac fc r].
  unfold update_node. cbn [result_roster with_roster] in *.
  split; cbn [result_roster]; [| | | |done|done|done|done|done|done].
  - unfold scalars. cbn [nodes set_nodes]. apply map_eq. intros i. rewrite lookup_fmap, lookup_alter_at.
    destruct (decide (k = i)) as [<-|Hne].
    + by rewrite Hn, lookup_insert_eq.
    + rewrite lookup_insert_ne, lookup_fmap by done. by destruct (nodes r !! i).
  - apply rwf_alter; [done|]. intros m Hm. assert (m = n) as -> by congruence.
    destruct (Hf n) as (? & ? & ?). done.
  - apply update_grounded; [done|]. intros m. by destruct (Hf m) as (_ & ? & _).
  - intros i. apply update_place. intros m. by destruct (Hf m) as (_ & ? & ?).
Qed.

Lemma filled_attrs res k n a :
  rwf (result_roster res) → grounded (nodes (result_roster res)) → nodes (result_roster res) !! k = Some n →
  filled res (update_node k (with_attrs a) res) k (self n, a, content_of n).
Proof. intros Hwf Hg Hn. by apply (filled_update res k n (with_attrs a)). Qed.

Lemma filled_content res k n c :
  rwf (result_roster res) → grounded (nodes (result_roster res)) → nodes (result_roster res) !! k = Some n →
  is_file_t n = true → filled res (update_node k (with_body (FileBody c)) res) k (self n, attrs n, Some c).
Proof.
  intros Hwf Hg Hn Hf. apply (filled_update res k n (with_body (FileBody c))); [done..|].
  intros ch. unfold is_file_t in Hf. by destruct (body n).
Qed.

(** The node behind the scalars. *)
Lemma filled_node res res' k sv :
  filled res res' k sv → ∃ n, nodes (result_roster res') !! k = Some n ∧ node_scalars n = sv.
Proof.
  intros H. pose proof (fl_scalars _ _ _ _ H) as E.
  assert (scalars (result_roster res') !! k = Some sv) as E' by (by rewrite E, lookup_insert_eq).
  rewrite scalars_lookup in E'. destruct (nodes (result_roster res') !! k) as [n|]; [|done]. exists n.
  split; [done|]. by injection E'.
Qed.

(** ** One node, placed and filled in *)

Record processed (res res' : roster_merge_result) (k : node_id) (sv : scalar_values)
    (l : option (node_id * path_component)) : Prop := {
  pr_scalars : scalars (result_roster res') = <[k := sv]> (scalars (result_roster res));
  pr_wf : rwf (result_roster res');
  pr_grounded : grounded (nodes (result_roster res'));
  pr_place :
    (is_Some l ∧ place (result_roster res') k = l) ∨ (place (result_roster res') k = None ∧ k ∈ conflict_ids res');
  pr_other i :
    i ≠ k → place (result_roster res') i = place (result_roster res) i ∨
    (place (result_roster res') i = None ∧ i ∈ conflict_ids res');
  pr_ids i : i ∈ conflict_ids res → i ∈ conflict_ids res';
  pr_attr c : c ∈ attribute_conflicts res → c ∈ attribute_conflicts res';
  pr_content c : c ∈ file_content_conflicts res → c ∈ file_content_conflicts res';
  pr_old :
    duplicate_name_conflicts res' = [] → duplicate_name_conflicts res = [] ∧
    (old_locations (result_roster res) = ∅ → old_locations (result_roster res') = ∅);
  pr_dm : length (dropped_modified_conflicts res') = length (dropped_modified_conflicts res)
}.

Lemma fill_then_assign res res1 res2 k sv l :
  filled res res1 k sv → assigned res1 res2 k l → processed res res2 k sv l.
Proof.
  intros [A1 A2 A3 A4 A5 A6 A7 A8 A9 A10] [B1 B2 B3 B4 B5 B6 B7 B8 B9 B10].
  split; try done; try congruence.
  - intros i Hi. rewrite <- A4. by apply B5.
  - rewrite <- A5. done.
  - intros c. rewrite B7. auto.
  - intros c. rewrite B8. auto.
  - intros E. destruct (B9 E) as [? ?]. rewrite <- A6, <- A7. done.
Qed.

Lemma assign_then_fill res res1 res2 k sv l :
  assigned res res1 k l → filled res1 res2 k sv → processed res res2 k sv l.
Proof.
  intros [A1 A2 A3 A4 A5 A6 A7 A8 A9 A10] [B1 B2 B3 B4 B5 B6 B7 B8 B9 B10].
  split; [| | | | | | | | |congruence].
  - by rewrite B1, A1.
  - done.
  - done.
  - by rewrite B4, B5.
  - intros i Hi. rewrite B4, B5. by apply A5.
  - intros i Hi. rewrite B5. auto.
  - intros c. rewrite <- A7. auto.
  - intros c. rewrite <- A8. auto.
  - rewrite B6, B7. done.
Qed.
