(* ===== verification/MergeFill.v ===== *)
(** * The phases of [roster_merge]

    Each step of the merge loop places and fills in one node as the
    specification of [MergeInvariant] says; the phases before and after it
    keep the invariant. *)

From S2P Require Import Prelude Paths Roster RosterInvariant ParallelIter Marking MergeRoster MergeMoves MergeInvariant.

(** The keys of a [parallel::iter] loop, in the form the loops here need. *)
Lemma items_keys `{Countable K, !Ordered K} {V} (l r : gmap K V) its :
  items l r = Ok its →
  NoDup its.*1 ∧ (∀ k it, (k, it) ∈ its ↔ classify (l !! k) (r !! k) = Some it).
Proof.
  intros E. destruct (items_spec l r) as (its' & E' & Hs & Hin). assert (its' = its) as -> by congruence.
  split; [by apply sorted_items_NoDup|done].
Qed.

Lemma NoDup_split_key {K V} (l1 l2 : list (K * V)) k v :
  NoDup (l1 ++ (k, v) :: l2).*1 → k ∉ l1.*1.
Proof. rewrite fmap_app, NoDup_app. intros (_ & H & _) Hk. apply (H k Hk). by left. Qed.

Section both.
Context (lu ru : gset bytes) (k : node_id) (n : node) (lm : marking) (n' : node) (rm : marking).

Lemma merge_name_spec res res' :
  rwf (result_roster res) → grounded (nodes (result_roster res)) →
  is_Some (nodes (result_roster res) !! k) → place (result_roster res) k = None →
  merge_name lu ru k n lm n' rm res = Ok res' →
  assigned res res' k
    (star_merge (location_of n) (parent_name lm) lu (location_of n') (parent_name rm) ru).
Proof.
  intros Hwf Hg Hk Hp H. unfold merge_name in H. inv_ok. apply merge_scalar_star in E. rewrite <- E.
  destruct v as [[par nm]|].
  - inv_ok. by eapply assign_name_spec.
  - injection H as <-. destruct res as [mr inn dl on mn dm du ac fc r]. cbn in *.
    apply assigned_stay; try done; [ids|intros i; ids].
Qed.

Lemma merge_content_spec res res' m :
  rwf (result_roster res) → grounded (nodes (result_roster res)) → nodes (result_roster res) !! k = Some m →
  merge_content lu ru k n lm n' rm (is_file_t m) res = Ok res' →
  ∃ c, filled res res' k (self m, attrs m, c) ∧
    ((c = None ∧ is_file_t m = false) ∨
     (∃ f f', body n = FileBody f ∧ body n' = FileBody f' ∧
       let o := star_merge f (file_content lm) lu f' (file_content rm) ru in
       c = Some (default [] o) ∧ (o = None → FileContent k [] f f' no_resolution ∈ file_content_conflicts res'))).
Proof.
  intros Hwf Hg Hm H. unfold merge_content in H. destruct (is_file_t m) eqn:Hf.
  - inv_ok. unfold downcast_to_file_t in *. destruct (body n) as [f|]; inv_ok. destruct (body n') as [f'|]; inv_ok.
    subst. apply merge_scalar_star in E1. destruct v1 as [c|]; injection H as <-.
    + exists (Some c). split; [by apply filled_content|]. right. exists v, v0. cbn zeta. by rewrite <- E1.
    + exists (Some []). split; [|right; exists v, v0; cbn zeta; rewrite <- E1; split_and!; try done; intros _].
      * destruct (filled_content res k m [] Hwf Hg Hm Hf) as [A1 A2 A3 A4 A5 A6 A7 A8 A9 A10].
        destruct (update_node k (with_body (FileBody [])) res) as [mr inn dl on mn dm du ac fc r].
        split; try done. intros c Hc. cbn. apply elem_of_app. left. by apply A10.
      * destruct (update_node k (with_body (FileBody [])) res). cbn. apply elem_of_app. right. by left.
  - injection H as <-. exists None. split; [|by left].
    replace None with (content_of m); [by apply filled_refl|].
    unfold content_of, is_file_t in *. by destruct (body m).
Qed.

(** What the attribute [key] becomes. *)
Definition attr_value_of (key : attr_key) (o o' : option (bool * attr_value)) : option (bool * attr_value) :=
  match o, o' with
  | Some v, Some w =>
      star_merge v (default ∅ (attr_marks lm !! key)) lu w (default ∅ (attr_marks rm !! key)) ru
  | Some v, None | None, Some v => Some v
  | None, None => None
  end.

(** The attributes after the keys [done] of the loop. *)
Definition attrs_so_far (done : list attr_key) (a : gmap bytes (bool * attr_value)) : Prop :=
  ∀ key, a !! key = if decide (key ∈ done) then attr_value_of key (attrs n !! key) (attrs n' !! key) else None.

Lemma attrs_so_far_snoc done a key o :
  attrs_so_far done a → key ∉ done → attr_value_of key (attrs n !! key) (attrs n' !! key) = o →
  attrs_so_far (done ++ [key]) (match o with Some v => <[key := v]> a | None => a end).
Proof.
  intros Ha Hk Ho key'. destruct (decide (key' = key)) as [->|Hne].
  - rewrite decide_True by set_solver. rewrite Ho. destruct o; [apply lookup_insert_eq|].
    by rewrite Ha, decide_False.
  - assert (a !! key' = if decide (key' ∈ done ++ [key])
      then attr_value_of key' (attrs n !! key') (attrs n' !! key') else None) as E.
    { rewrite Ha. apply decide_ext. rewrite elem_of_app, list_elem_of_singleton. tauto. }
    destruct o; [|done]. by rewrite lookup_insert_ne.
Qed.

Lemma insert_attr_spec res res' m key v :
  rwf (result_roster res) → grounded (nodes (result_roster res)) → nodes (result_roster res) !! k = Some m →
  insert_attr k key v res = Ok res' →
  filled res res' k (self m, <[key := v]> (attrs m), content_of m) ∧ attribute_conflicts res' = attribute_conflicts res.
Proof.
  intros Hwf Hg Hm H. unfold insert_attr, get_node in H. rewrite Hm in H. cbn [of_option mbind result_bind] in H.
  inv_ok. apply safe_insert_Ok_inv in E as [_ ->]. subst. split; [by apply filled_attrs|]. by destruct res.
Qed.

Lemma merge_attr_spec res res' m key it done :
  rwf (result_roster res) → grounded (nodes (result_roster res)) → nodes (result_roster res) !! k = Some m →
  classify (attrs n !! key) (attrs n' !! key) = Some it → attrs_so_far done (attrs m) → key ∉ done →
  merge_attr lu ru k lm rm res (key, it) = Ok res' →
  ∃ a, filled res res' k (self m, a, content_of m) ∧ attrs_so_far (done ++ [key]) a ∧
    (∀ v w, it = Both v w → attr_value_of key (attrs n !! key) (attrs n' !! key) = None →
       AttributeConflict k key v w ∈ attribute_conflicts res').
Proof.
  intros Hwf Hg Hm Hit Ha Hk H.
  destruct (attrs n !! key) as [v|] eqn:Ev, (attrs n' !! key) as [w|] eqn:Ew; try done; injection Hit as <-;
    cbn [merge_attr] in H.
  - inv_ok. unfold safe_get in *. inv_ok. apply merge_scalar_star in E1.
    assert (attr_value_of key (attrs n !! key) (attrs n' !! key) = v2) as Eo.
    { rewrite Ev, Ew, E1. cbn. by rewrite E, E0. }
    pose proof (attrs_so_far_snoc done (attrs m) key v2 Ha Hk Eo) as Hsnoc. rewrite Ev, Ew in Eo.
    destruct v2 as [u|].
    + destruct (insert_attr_spec _ _ _ _ _ Hwf Hg Hm H) as [Hf _]. exists (<[key := u]> (attrs m)).
      split_and!; [done|done|]. intros. congruence.
    + injection H as <-. exists (attrs m). split_and!; [|done|].
      * destruct (filled_refl res k m Hwf Hg Hm) as [A1 A2 A3 A4 A5 A6 A7 A8 A9 A10].
        destruct res as [mr inn dl on mn dm du ac fc r]. split; try done. intros c Hc. cbn.
        apply elem_of_app. by left.
      * intros v' w' [= <- <-] _. destruct res. cbn. apply elem_of_app. right. by left.
  - destruct (insert_attr_spec _ _ _ _ _ Hwf Hg Hm H) as [Hf _]. exists (<[key := v]> (attrs m)).
    split_and!; [done| |done]. apply (attrs_so_far_snoc done (attrs m) key (Some v) Ha Hk). by rewrite Ev, Ew.
  - destruct (insert_attr_spec _ _ _ _ _ Hwf Hg Hm H) as [Hf _]. exists (<[key := w]> (attrs m)).
    split_and!; [done| |done]. apply (attrs_so_far_snoc done (attrs m) key (Some w) Ha Hk). by rewrite Ev, Ew.
Qed.

Lemma merge_attrs_spec res res' m its :
  rwf (result_roster res) → grounded (nodes (result_roster res)) → nodes (result_roster res) !! k = Some m →
  attrs m = ∅ → items (attrs n) (attrs n') = Ok its →
  foldM (merge_attr lu ru k lm rm) its res = Ok res' →
  filled res res' k
    (self m, map_imap (λ key _, attr_value_of key (attrs n !! key) (attrs n' !! key)) (attrs n ∪ attrs n'), content_of m) ∧
  (∀ key v w, attrs n !! key = Some v → attrs n' !! key = Some w →
     attr_value_of key (Some v) (Some w) = None → AttributeConflict k key v w ∈ attribute_conflicts res').
Proof.
  intros Hwf Hg Hm Hm0 Hits Hfold. destruct (items_keys _ _ _ Hits) as [Hnd Hin].
  assert (∃ a, filled res res' k (self m, a, content_of m) ∧ attrs_so_far its.*1 a ∧
    (∀ key v w, (key, Both v w) ∈ its → attr_value_of key (attrs n !! key) (attrs n' !! key) = None →
       AttributeConflict k key v w ∈ attribute_conflicts res')) as (a & Hf & Ha & Hrep).
  { revert Hfold. apply (foldM_prefix (λ l s, ∃ a, filled res s k (self m, a, content_of m) ∧ attrs_so_far l.*1 a ∧
      (∀ key v w, (key, Both v w) ∈ l → attr_value_of key (attrs n !! key) (attrs n' !! key) = None →
       AttributeConflict k key v w ∈ attribute_conflicts s))).
    - exists (attrs m). split_and!; [by apply filled_refl| |by intros ??? ?%not_elem_of_nil].
      intros key. rewrite Hm0, lookup_empty. by rewrite decide_False by apply not_elem_of_nil.
    - intros l1 [key it] l2 s s' El (a & Hf & Ha & Hrep) Hs.
      destruct (filled_node _ _ _ _ Hf) as (m1 & Hm1 & Em1). injection Em1 as E1 E2 E3.
      destruct (merge_attr_spec s s' m1 key it l1.*1) as (a' & Hf' & Ha' & Hrep').
      + exact (fl_wf _ _ _ _ Hf).
      + exact (fl_grounded _ _ _ _ Hf).
      + done.
      + apply Hin. rewrite El. set_solver.
      + by rewrite E2.
      + rewrite El in Hnd. by eapply NoDup_split_key.
      + done.
      + exists a'. rewrite fmap_app. split_and!; [|done|].
        * rewrite E1, E3 in Hf'. by eapply filled_trans.
        * intros key' v w [Hl|[= -> <-]%list_elem_of_singleton]%elem_of_app Hn; [|auto].
          apply (fl_attr _ _ _ _ Hf'). by apply Hrep. }
  assert (∀ key, key ∈ its.*1 ↔ is_Some (attrs n !! key) ∨ is_Some (attrs n' !! key)) as Hkeys.
  { intros key. rewrite list_elem_of_fmap. split.
    - intros ([key' it] & -> & Hl). apply Hin in Hl. cbn. destruct (attrs n !! key'), (attrs n' !! key'); try done; eauto.
    - intros Hs. assert (∃ it, classify (attrs n !! key) (attrs n' !! key) = Some it) as [it Hit].
      { destruct (attrs n !! key), (attrs n' !! key); cbn; eauto. by destruct Hs as [[??]|[??]]. }
      exists (key, it). split; [done|]. by apply Hin. }
  split.
  - assert (a = map_imap (λ key _, attr_value_of key (attrs n !! key) (attrs n' !! key)) (attrs n ∪ attrs n')) as <-; [|done].
    apply map_eq. intros key. rewrite map_lookup_imap, Ha, lookup_union.
    specialize (Hkeys key). case_decide as Hd.
    + by destruct (attrs n !! key), (attrs n' !! key).
    + destruct (attrs n !! key), (attrs n' !! key); try done; destruct Hd; apply Hkeys; eauto.
  - intros key v w Hv Hw Hn. apply Hrep; [|by rewrite Hv, Hw]. apply Hin. by rewrite Hv, Hw.
Qed.
End both.

Section fill.
Context (L : roster) (LM : marking_map) (lu : gset bytes) (R : roster) (RM : marking_map) (ru : gset bytes).

Abbreviation survives := (survives L LM lu R RM ru).
Abbreviation merged_place := (merged_place L LM lu R RM ru).
Abbreviation merged_content := (merged_content L LM lu R RM ru).
Abbreviation merged_attrs := (merged_attrs L LM lu R RM ru).
Abbreviation fill_inv := (fill_inv L LM lu R RM ru).
Abbreviation scalars_reported := (scalars_reported L LM lu R RM ru).

Lemma reported_grow res res' i :
  (∀ c, c ∈ attribute_conflicts res → c ∈ attribute_conflicts res') →
  (∀ c, c ∈ file_content_conflicts res → c ∈ file_content_conflicts res') →
  scalars_reported res i → scalars_reported res' i.
Proof. intros Ha Hc H n n' Hn Hn'. destruct (H n n' Hn Hn') as [H1 H2]. split; eauto. Qed.

(** One more node done. *)
Lemma fill_inv_extend done res res' k :
  fill_inv done res → k ∉ done → survives k = true →
  processed res res' k (k, merged_attrs k, merged_content k) (merged_place k) → scalars_reported res' k →
  fill_inv (done ++ [k]) res'.
Proof.
  intros [F1 F2 F3 F4 F5 F6 F7] Hk Hs [P1 P2 P3 P4 P5 P6 P7 P8 P9 P10] Hrep.
  assert (∀ i, i ∈ done ++ [k] ↔ i = k ∨ i ∈ done) as Hin
    by (intros i; rewrite elem_of_app, list_elem_of_singleton; tauto).
  split; [done|done| | | | |].
  - intros i. rewrite P1. destruct (decide (i = k)) as [->|Hne].
    + rewrite lookup_insert_eq, Hs, decide_True by (apply Hin; auto). done.
    + rewrite lookup_insert_ne, F3 by done. destruct (survives i); [|done]. do 2 f_equal.
      apply decide_ext. rewrite Hin. tauto.
  - intros i Hi. rewrite Hin in Hi. destruct (P5 i ltac:(tauto)) as [->|[-> _]]; [|done]. apply F4. tauto.
  - intros i [->|Hi]%Hin Hsi; [done|]. assert (i ≠ k) as Hne by (intros ->; done).
    destruct (P5 i Hne) as [->|[-> ?]]; [|by right]. destruct (F5 i Hi Hsi) as [[? ?]|[? ?]]; [by left|right; auto].
  - intros i [->|Hi]%Hin; [done|]. by apply (reported_grow res), F6.
  - intros E. destruct (P9 E) as [E1 E2]. auto.
Qed.

(** A node that does not survive. *)
Lemma fill_inv_skip done res k :
  fill_inv done res → survives k = false → nodes L !! k = None ∨ nodes R !! k = None → fill_inv (done ++ [k]) res.
Proof.
  intros [F1 F2 F3 F4 F5 F6 F7] Hs Hnb. split; [done|done| | | | |done].
  - intros i. rewrite F3. destruct (survives i) eqn:Ei; [|done]. do 2 f_equal. apply decide_ext.
    rewrite elem_of_app, list_elem_of_singleton. split; [auto|]. intros [?| ->]; [done|congruence].
  - intros i Hi. apply F4. set_solver.
  - intros i [Hi| ->%list_elem_of_singleton]%elem_of_app Hsi; [auto|congruence].
  - intros i [Hi| ->%list_elem_of_singleton]%elem_of_app; [auto|]. intros n n' Hn Hn'. destruct Hnb; congruence.
Qed.

(** The node still to be filled in. *)
Lemma fill_inv_todo done res k :
  fill_inv done res → k ∉ done → survives k = true →
  ∃ m, nodes (result_roster res) !! k = Some m ∧ node_scalars m = (k, ∅, blank_content L R k) ∧
    place (result_roster res) k = None.
Proof.
  intros F Hk Hs. pose proof (fi_scalars _ _ _ _ _ _ _ _ F k) as E.
  rewrite Hs, decide_False, scalars_lookup in E by done.
  destruct (nodes (result_roster res) !! k) as [m|]; [|done]. apply (inj Some) in E. exists m.
  split_and!; [done|done|]. by apply (fi_todo _ _ _ _ _ _ _ _ F).
Qed.

Lemma is_file_content n : is_file_t n = match content_of n with Some _ => true | None => false end.
Proof. unfold is_file_t, content_of. by destruct (body n). Qed.

Lemma merge_node_spec done res res' k n n' lm rm :
  fill_inv done res → k ∉ done → nodes L !! k = Some n → nodes R !! k = Some n' →
  LM !! k = Some lm → RM !! k = Some rm → merge_node lu ru k n lm n' rm res = Ok res' →
  processed res res' k (k, merged_attrs k, merged_content k) (merged_place k) ∧ scalars_reported res' k.
Proof.
  intros F Hk Hn Hn' Hlm Hrm H.
  destruct (fill_inv_todo done res k F Hk) as (m & Hm & Em & Hpl); [by unfold MergeInvariant.survives; rewrite Hn, Hn'|].
  unfold merge_node, get_node in H. rewrite Hm in H. cbn [of_option mbind result_bind] in H.
  apply bind_Ok_inv in H as (res1 & E1 & H). apply bind_Ok_inv in H as (res2 & E2 & H).
  apply bind_Ok_inv in H as (its & Eits & H).
  assert (marking_of LM k = lm ∧ marking_of RM k = rm) as [ELM ERM] by (unfold marking_of; by rewrite Hlm, Hrm).
  pose proof (merge_name_spec lu ru k n lm n' rm res res1 (fi_wf _ _ _ _ _ _ _ _ F) (fi_grounded _ _ _ _ _ _ _ _ F)
    (ex_intro _ m Hm) Hpl E1) as A.
  assert (∃ m1, nodes (result_roster res1) !! k = Some m1 ∧ node_scalars m1 = node_scalars m) as (m1 & Hm1 & Em1).
  { pose proof (as_scalars _ _ _ _ A) as E. apply (f_equal (.!! k)) in E. rewrite !scalars_lookup, Hm in E.
    destruct (nodes (result_roster res1) !! k) as [m1|]; [|done]. exists m1. by apply (inj Some) in E. }
  assert (is_file_t m = is_file_t m1) as Ef by (rewrite !is_file_content; by injection Em1 as _ _ ->).
  rewrite Ef in E2.
  destruct (merge_content_spec lu ru k n lm n' rm res1 res2 m1 (as_wf _ _ _ _ A) (as_grounded _ _ _ _ A) Hm1 E2)
    as (c & Hf & Hc).
  rewrite Em in Em1. injection Em1 as Es1 Ea1 Ec1. rewrite Es1, Ea1 in Hf.
  destruct (filled_node _ _ _ _ Hf) as (m2 & Hm2 & Em2). injection Em2 as Es2 Ea2 Ec2.
  destruct (merge_attrs_spec lu ru k n lm n' rm res2 res' m2 its (fl_wf _ _ _ _ Hf) (fl_grounded _ _ _ _ Hf) Hm2 Ea2 Eits H)
    as [Hf' Hrep].
  rewrite Es2, Ec2 in Hf'. pose proof (filled_trans _ _ _ _ _ _ Hf Hf') as Hff.
  pose proof (assign_then_fill _ _ _ _ _ _ A Hff) as P. split.
  - replace (merged_place k) with
      (star_merge (location_of n) (parent_name lm) lu (location_of n') (parent_name rm) ru)
      by (unfold MergeInvariant.merged_place; by rewrite Hn, Hn', ELM, ERM).
    replace (merged_attrs k) with
      (map_imap (λ key _, attr_value_of lu ru lm rm key (attrs n !! key) (attrs n' !! key)) (attrs n ∪ attrs n'))
      by (unfold MergeInvariant.merged_attrs, merged_attr, both_attr, marks_of; by rewrite Hn, Hn', ELM, ERM).
    replace (merged_content k) with c; [done|].
    unfold MergeInvariant.merged_content, both_content. rewrite Hn, Hn', ELM, ERM.
    destruct Hc as [[-> Hd]|(f & f' & -> & -> & -> & _)]; [|done].
    rewrite is_file_content, Ec1 in Hd. unfold blank_content in Hd. rewrite Hn in Hd. by destruct (body n).
  - intros ? ? E E'. assert (n0 = n ∧ n'0 = n') as [-> ->] by (split; congruence).
    unfold both_attr, both_content, marks_of. rewrite ELM, ERM. split; [exact Hrep|].
    intros f f' Hbf Hbf' Hnone. apply (fl_content _ _ _ _ Hf').
    destruct Hc as [[-> Hd]|(f0 & f0' & Ef0 & Ef0' & _ & Hc)].
    + exfalso. rewrite is_file_content, Ec1 in Hd. unfold blank_content in Hd. by rewrite Hn, Hbf in Hd.
    + rewrite Hbf in Ef0. rewrite Hbf' in Ef0'. injection Ef0 as <-. injection Ef0' as <-. by apply Hc.
Qed.

Lemma copy_node_forward_spec done res res' i k old side :
  fill_inv done res → k ∉ done → survives k = true → self old = k →
  (blank_content L R k = match content_of old with Some _ => Some [] | None => None end) →
  copy_node_forward res i old side = Ok res' →
  processed res res' k (k, attrs old, content_of old) (Some (location_of old)).
Proof.
  intros F Hk Hs Hself Hblank H. unfold copy_node_forward in H.
  apply bind_Ok_inv in H as (m0 & E0 & H). unfold get_node in E0.
  apply bind_Ok_inv in H as (u & E1 & H). cbn zeta in H. apply bind_Ok_inv in H as (v0 & Hv0 & H).
  inv_ok. apply Z.eqb_eq in E1.
  pose proof (fi_wf _ _ _ _ _ _ _ _ F) as Hwf. pose proof (fi_grounded _ _ _ _ _ _ _ _ F) as Hg.
  destruct (wf_self _ Hwf _ _ E0) as [Ei _]. assert (i = k) as -> by congruence.
  destruct (fill_inv_todo done res k F Hk Hs) as (m & Hm & Em & Hpl). assert (m0 = m) as -> by congruence.
  injection Em as Es Ea Ec.
  pose proof (filled_attrs res k m (attrs old) Hwf Hg Hm) as Hf. rewrite Es in Hf.
  destruct (filled_node _ _ _ _ Hf) as (m1 & Hm1 & Em1). injection Em1 as Es1 Ea1 Ec1.
  assert (filled res v0 k (k, attrs old, content_of old)) as Hff.
  { destruct (is_file_t m) eqn:Hfile.
    - apply bind_Ok_inv in Hv0 as (v1 & Hv1 & Hv0). inv_ok. subst v0. eapply filled_trans; [exact Hf|].
      assert (content_of old = Some v1) as ->
        by (unfold content_of, downcast_to_file_t in *; destruct (body old); congruence).
      replace (k, attrs old, Some v1) with (self m1, attrs m1, Some v1) by congruence. apply filled_content; [exact (fl_wf _ _ _ _ Hf)|exact (fl_grounded _ _ _ _ Hf)|done|].
      by rewrite is_file_content, Ec1, <- is_file_content.
    - inv_ok. subst v0. replace (content_of old) with (content_of m); [done|].
      rewrite is_file_content in Hfile. rewrite Ec, Hblank in *. by destruct (content_of old). }
  eapply fill_then_assign; [exact Hff|]. rewrite Es in H.
  apply (assign_name_spec v0 k (parent old) (name old) side res'); [exact (fl_wf _ _ _ _ Hff)|exact (fl_grounded _ _ _ _ Hff)| | |done].
  - destruct (filled_node _ _ _ _ Hff) as (m2 & -> & _). eauto.
  - by rewrite (fl_place _ _ _ _ Hff).
Qed.

Definition iterators_ok (left_mi right_mi : list (Z * marking)) : Prop :=
  (∀ p, p ∈ left_mi → LM !! p.1 = Some p.2) ∧ (∀ p, p ∈ right_mi → RM !! p.1 = Some p.2).

Lemma has_node_survives done res k : fill_inv done res → has_node (result_roster res) k = survives k.
Proof.
  intros F. pose proof (fi_scalars _ _ _ _ _ _ _ _ F k) as E. rewrite scalars_lookup in E. unfold has_node.
  destruct (survives k), (nodes (result_roster res) !! k); try done; by apply bool_decide_true.
Qed.

Lemma fill_step_inv done res new_i left_mi right_mi k it res' new_i' left_mi' right_mi' :
  rwf L → rwf R → fill_inv done res → k ∉ done → classify (nodes L !! k) (nodes R !! k) = Some it →
  iterators_ok left_mi right_mi →
  fill_step lu ru (res, new_i, left_mi, right_mi) (k, it) = Ok (res', new_i', left_mi', right_mi') →
  fill_inv (done ++ [k]) res' ∧ iterators_ok left_mi' right_mi' ∧
  length (dropped_modified_conflicts res') = length (dropped_modified_conflicts res).
Proof.
  intros HwL HwR F Hk Hit [HL HR] H.
  destruct (nodes L !! k) as [n|] eqn:En, (nodes R !! k) as [n'|] eqn:En'; [| | |discriminate Hit];
    injection Hit as <-; cbn [fill_step] in H.
  - apply bind_Ok_inv in H as (i & Ei & H). apply bind_Ok_inv in H as (u1 & Ek & H).
    apply bind_Ok_inv in H as (lm & Elm & H). apply bind_Ok_inv in H as (u2 & Ekl & H).
    apply bind_Ok_inv in H as (rm & Erm & H). apply bind_Ok_inv in H as (u3 & Ekr & H).
    apply bind_Ok_inv in H as (res1 & E & H). injection H as -> <- <- <-.
    apply I_Ok_inv, Z.eqb_eq in Ek, Ekl, Ekr. subst i.
    destruct left_mi as [|lm' left_mi]; [done|]. injection Elm as ->.
    destruct right_mi as [|rm' right_mi]; [done|]. injection Erm as ->.
    assert (LM !! k = Some lm.2) as Hlm by (rewrite <- Ekl; apply HL; by left).
    assert (RM !! k = Some rm.2) as Hrm by (rewrite <- Ekr; apply HR; by left).
    destruct (merge_node_spec done res res' k n n' lm.2 rm.2 F Hk En En' Hlm Hrm E) as [P Hrep].
    split_and!; [|split; intros p Hp; [apply HL|apply HR]; by right|exact (pr_dm _ _ _ _ _ P)].
    apply (fill_inv_extend done res); [done|done| |done|done]. by unfold MergeInvariant.survives; rewrite En, En'.
  - apply bind_Ok_inv in H as ([res1 new1] & E & H). cbn beta iota in H.
    apply bind_Ok_inv in H as (mi & E0 & H). injection H as -> -> <- <-.
    destruct left_mi as [|lm' left_mi]; [done|]. injection E0 as <-.
    assert (iterators_ok left_mi right_mi) as Hits by (split; [|done]; intros p Hp; apply HL; by right).
    assert (self n = k) as Hself by (by destruct (wf_self L HwL k n En)).
    rewrite (has_node_survives done), Hself in E by done. destruct (survives k) eqn:Hs.
    + apply bind_Ok_inv in E as (v & Ev & E). apply bind_Ok_inv in E as (res1 & Ecopy & E). injection E as -> <-.
      pose proof (copy_node_forward_spec done res res' v k n left_side F Hk Hs Hself) as P.
      assert (processed res res' k (k, attrs n, content_of n) (Some (location_of n))) as P'.
      { apply P; [|done]. unfold blank_content, content_of. rewrite En. by destruct (body n). }
      split_and!; [|done|exact (pr_dm _ _ _ _ _ P')].
      apply (fill_inv_extend done res); [done|done|done| |intros ???; congruence].
      unfold MergeInvariant.merged_attrs, MergeInvariant.merged_content, MergeInvariant.merged_place. by rewrite En, En'.
    + injection E as -> ->. split_and!; [|done|done]. apply fill_inv_skip; [done|done|by right].
  - apply bind_Ok_inv in H as ([res1 new1] & E & H). cbn beta iota in H.
    apply bind_Ok_inv in H as (mi & E0 & H). injection H as -> -> <- <-.
    destruct right_mi as [|rm' right_mi]; [done|]. injection E0 as <-.
    assert (iterators_ok left_mi right_mi) as Hits by (split; [done|]; intros p Hp; apply HR; by right).
    assert (self n' = k) as Hself by (by destruct (wf_self R HwR k n' En')).
    rewrite (has_node_survives done), Hself in E by done. destruct (survives k) eqn:Hs.
    + apply bind_Ok_inv in E as (v & Ev & E). apply bind_Ok_inv in E as (res1 & Ecopy & E). injection E as -> <-.
      pose proof (copy_node_forward_spec done res res' v k n' right_side F Hk Hs Hself) as P.
      assert (processed res res' k (k, attrs n', content_of n') (Some (location_of n'))) as P'.
      { apply P; [|done]. unfold blank_content, content_of. rewrite En, En'. by destruct (body n'). }
      split_and!; [|done|exact (pr_dm _ _ _ _ _ P')].
      apply (fill_inv_extend done res); [done|done|done| |intros ???; congruence].
      unfold MergeInvariant.merged_attrs, MergeInvariant.merged_content, MergeInvariant.merged_place. by rewrite En, En'.
    + injection E as -> ->. split_and!; [|done|done]. apply fill_inv_skip; [done|done|by left].
Qed.
End fill.
