(* ===== verification/MergeCorrect.v ===== *)
(** * [roster_merge] accounts for every node

    The phases of the merge put together: which nodes survive, what their
    scalars are, and that nothing is left undecided or detached without a
    conflict that says so.  A merge without conflicts gives a complete roster. *)

From S2P Require Import Prelude Paths Roster RosterInvariant ParallelIter Marking MergeRoster MergeMoves MergeInvariant MergeFill.

Section merge.
Context (L : roster) (LM : marking_map) (lu : gset bytes) (R : roster) (RM : marking_map) (ru : gset bytes).
Context (HwL : rwf L) (HwR : rwf R).

Abbreviation survives := (survives L LM lu R RM ru).
Abbreviation fill_inv := (fill_inv L LM lu R RM ru).

(** ** The first phase *)

Definition blank_body (i : node_id) : node_body :=
  match nodes L !! i, nodes R !! i with
  | Some n, _ | None, Some n => match body n with FileBody _ => FileBody [] | DirBody _ => DirBody ∅ end
  | None, None => DirBody ∅
  end.

Definition blank_node (i : node_id) : node := Node i the_null_node [] ∅ (blank_body i).

Record born (done : list node_id) (res : roster_merge_result) : Prop := {
  bo_nodes i :
    nodes (result_roster res) !! i = if decide (i ∈ done) then if survives i then Some (blank_node i) else None else None;
  bo_root : root_dir (result_roster res) = None;
  bo_old : old_locations (result_roster res) = ∅
}.

Lemma born_create done res k n :
  born done res → self n = k → blank_body k = match body n with FileBody _ => FileBody [] | DirBody _ => DirBody ∅ end →
  survives k = true →
  born (done ++ [k]) (with_roster (create_node_for n (result_roster res)) res).
Proof.
  intros [B1 B2 B3] Hself Hb Hs.
  assert (result_roster (with_roster (create_node_for n (result_roster res)) res) =
    Roster None (<[k := blank_node k]> (nodes (result_roster res))) ∅) as E.
  { unfold blank_node. rewrite Hb. unfold create_node_for, create_dir_node, create_file_node, set_nodes.
    destruct res as [mr inn dl on mn dm du ac fc r]. cbn in *. rewrite Hself, B2, B3. by destruct (body n). }
  split; rewrite E; [|done|done]. intros i. cbn [nodes]. destruct (decide (i = k)) as [->|Hne].
  - by rewrite lookup_insert_eq, decide_True, Hs by set_solver.
  - rewrite lookup_insert_ne, B1 by done. apply decide_ext. set_solver.
Qed.

Lemma born_skip done res k : born done res → survives k = false → born (done ++ [k]) res.
Proof.
  intros [B1 B2 B3] Hs. split; [|done|done]. intros i. rewrite B1.
  destruct (decide (i = k)) as [->|Hne]; [rewrite Hs; by repeat case_decide|]. apply decide_ext. set_solver.
Qed.

Lemma born_dropped done res dm : born done res → born done (with_dropped_modified dm res).
Proof. intros [B1 B2 B3]. by destruct res. Qed.

Lemma insert_if_unborn_born done res res' k n mm ua side :
  born done res → self n = k → blank_body k = match body n with FileBody _ => FileBody [] | DirBody _ => DirBody ∅ end →
  survives k = lives mm ua k → insert_if_unborn n mm ua side res = Ok res' → born (done ++ [k]) res'.
Proof.
  intros B Hself Hb Hs H. unfold insert_if_unborn in H. apply bind_Ok_inv in H as (m & Hm & H).
  unfold get_marking in Hm. apply of_option_Ok_inv in Hm. rewrite Hself in Hm.
  unfold lives, marking_of in Hs. rewrite Hm in Hs. cbn [default from_option id] in Hs.
  destruct (bool_decide (birth_revision m ∈ ua)); cbn [orb] in Hs.
  - injection H as <-. by apply born_create.
  - destruct (existsb _ _) in H, Hs.
    + apply bind_Ok_inv in H as (rs & _ & H). injection H as <-. apply born_dropped. by apply born_create.
    + injection H as <-. by apply born_skip.
Qed.

Lemma lifecycle_born done res res' k it :
  born done res → classify (nodes L !! k) (nodes R !! k) = Some it →
  lifecycle_step LM lu RM ru res (k, it) = Ok res' → born (done ++ [k]) res'.
Proof.
  intros B Hit H. unfold lifecycle_step in H. cbn [snd] in H.
  assert (∀ n, nodes L !! k = Some n → self n = k) as HL by (intros n Hn; by destruct (wf_self L HwL k n Hn)).
  assert (∀ n, nodes R !! k = Some n → self n = k) as HR by (intros n Hn; by destruct (wf_self R HwR k n Hn)).
  destruct (nodes L !! k) as [n|] eqn:En, (nodes R !! k) as [n'|] eqn:En'; [| | |discriminate Hit]; injection Hit as <-.
  - injection H as <-. apply born_create; [done|by apply HL| |].
    + unfold blank_body. by rewrite En.
    + unfold MergeInvariant.survives. by rewrite En, En'.
  - eapply (insert_if_unborn_born done res res' k n LM lu left_side); [done|by apply HL| | |done].
    + unfold blank_body. by rewrite En.
    + unfold MergeInvariant.survives. by rewrite En, En'.
  - eapply (insert_if_unborn_born done res res' k n' RM ru right_side); [done|by apply HR| | |done].
    + unfold blank_body. by rewrite En, En'.
    + unfold MergeInvariant.survives. by rewrite En, En'.
Qed.

Lemma survives_key its i :
  items (nodes L) (nodes R) = Ok its → survives i = true → i ∈ its.*1.
Proof.
  intros Hits Hs. destruct (items_keys _ _ _ Hits) as [_ Hin].
  assert (∃ it, classify (nodes L !! i) (nodes R !! i) = Some it) as [it Hit].
  { unfold MergeInvariant.survives in Hs. destruct (nodes L !! i), (nodes R !! i); cbn; eauto. discriminate. }
  apply list_elem_of_fmap. exists (i, it). split; [done|]. by apply Hin.
Qed.

Lemma lifecycle_inv its res :
  items (nodes L) (nodes R) = Ok its → foldM (lifecycle_step LM lu RM ru) its clear_result = Ok res →
  fill_inv [] res.
Proof.
  intros Hits H. destruct (items_keys _ _ _ Hits) as [Hnd Hin].
  assert (born its.*1 res) as [B1 B2 B3].
  { revert H. apply (foldM_prefix (λ l s, born l.*1 s)).
    - split; [|done|done]. intros i. by rewrite decide_False by apply not_elem_of_nil.
    - intros l1 [k it] l2 s s' El B Hs. rewrite fmap_app. cbn. eapply lifecycle_born; [done| |done].
      apply Hin. rewrite El. set_solver. }
  assert (∀ i, nodes (result_roster res) !! i = if survives i then Some (blank_node i) else None) as Hnodes.
  { intros i. rewrite B1. destruct (survives i) eqn:Hs; [|by case_decide].
    by rewrite decide_True by (by apply survives_key). }
  assert (∀ i m, nodes (result_roster res) !! i = Some m → m = blank_node i ∧ i ≠ the_null_node) as Hblank.
  { intros i m Hm. rewrite Hnodes in Hm. destruct (survives i) eqn:Hs; [|done]. injection Hm as <-. split; [done|].
    unfold MergeInvariant.survives in Hs. destruct (nodes L !! i) as [n|] eqn:En; [by destruct (wf_self L HwL i n En)|].
    destruct (nodes R !! i) as [n|] eqn:En'; [by destruct (wf_self R HwR i n En')|discriminate]. }
  split.
  - split.
    + intros i m Hm. by destruct (Hblank i m Hm) as [-> ?].
    + intros i m ch pc c Hm Hb Hc. exfalso. destruct (Hblank i m Hm) as [-> _]. cbn in Hb. unfold blank_body in Hb.
      destruct (nodes L !! i) as [n|], (nodes R !! i) as [n'|]; try destruct (body n); try destruct (body n');
        try discriminate; injection Hb as <-; by rewrite lookup_empty in Hc.
    + intros i m Hm Hp. by destruct (Hblank i m Hm) as [-> _].
    + intros i m Hm _. by destruct (Hblank i m Hm) as [-> _].
    + rewrite B2. done.
  - intros i. constructor. intros j (m & Hm & <- & Hnz). by destruct (Hblank i m Hm) as [-> _].
  - intros i. rewrite scalars_lookup, Hnodes. destruct (survives i); [|done]. cbn [fmap option_fmap option_map].
    rewrite decide_False by apply not_elem_of_nil. unfold node_scalars, blank_node, content_of, blank_body, blank_content. cbn.
    destruct (nodes L !! i) as [n|]; [by destruct (body n)|]. destruct (nodes R !! i) as [n'|]; [by destruct (body n')|done].
  - intros i _. unfold place. destruct (nodes (result_roster res) !! i) as [m|] eqn:Hm; [|done].
    destruct (Hblank i m Hm) as [-> _]. cbn. by rewrite B2, bool_decide_false.
  - intros i Hi. by apply not_elem_of_nil in Hi.
  - intros i Hi. by apply not_elem_of_nil in Hi.
  - done.
Qed.

(** ** The second phase *)

Lemma fill_nodes_inv res res' :
  fill_inv [] res → fill_nodes L LM lu R RM ru res = Ok res' →
  ∃ its, items (nodes L) (nodes R) = Ok its ∧ fill_inv its.*1 res'.
Proof.
  intros F H. unfold fill_nodes in H. apply bind_Ok_inv in H as (its & Hits & H). exists its. split; [done|].
  apply bind_Ok_inv in H as ([[[res1 ni] lmi] rmi] & Hfold & H). cbn beta iota in H.
  assert (res1 = res') as -> by (inv_ok; congruence).
  destruct (items_keys _ _ _ Hits) as [Hnd Hin]. clear H.
  assert (∀ mm : marking_map, ∀ p, p ∈ map_iter mm → mm !! p.1 = Some p.2) as Hmi.
  { intros mm [k m] Hp. by apply elem_of_map_iter in Hp. }
  set (P := λ (l : list (Z * item node)) (s : fill_state),
    let '(r, _, a, b) := s in fill_inv l.*1 r ∧ iterators_ok LM RM a b).
  assert (P its (res', ni, lmi, rmi)) as [HF _]; [|exact HF].
  revert Hfold. apply (foldM_prefix P).
  - split; [done|]. split; apply Hmi.
  - intros l1 [k it] l2 [[[s1 a1] b1] c1] [[[s2 a2] b2] c2] El [HF Hi] Hs. unfold P. rewrite fmap_app.
    destruct (fill_step_inv L LM lu R RM ru l1.*1 s1 a1 b1 c1 k it s2 a2 b2 c2) as (? & ? & _); try done.
    + rewrite El in Hnd. by eapply NoDup_split_key.
    + apply Hin. rewrite El. set_solver.
Qed.
End merge.

(** ** The third phase *)

Lemma recreated_scalars this other x r du r' du' o :
  rwf r → grounded (nodes r) → recreated this other x r du = Ok (r', du', o) →
  scalars r' = scalars r ∧ rwf r' ∧ grounded (nodes r').
Proof.
  intros Hwf Hg H. unfold recreated in H. apply bind_Ok_inv in H as (nm & _ & H).
  destruct (has_node_path r nm).
  - apply bind_Ok_inv in H as (n & _ & H). apply bind_Ok_inv in H as (p & _ & H).
    apply bind_Ok_inv in H as (ch & _ & H). apply bind_Ok_inv in H as ([r1 c] & E & H). injection H as -> _ _.
    destruct (moved_detach_child _ _ _ _ _ Hwf Hg E) as ([M1 M2 M3 M4 M5] & _). done.
  - destruct (has_node_path this nm); [|by injection H as -> _ _].
    apply bind_Ok_inv in H as (n & _ & H). apply bind_Ok_inv in H as (du1 & _ & H). by injection H as -> _ _.
Qed.

Lemma reconcile_all_scalars L R l r du l' r' du' :
  rwf r → grounded (nodes r) → reconcile_all L R l r du = Ok (l', r', du') →
  scalars r' = scalars r ∧ rwf r' ∧ grounded (nodes r') ∧ length l' = length l.
Proof.
  revert r du l' r' du'. induction l as [|c l IH]; intros r du l' r' du' Hwf Hg H; cbn [reconcile_all] in H.
  { by injection H as <- <- <-. }
  apply bind_Ok_inv in H as ([[c1 r1] du1] & E & H). cbn beta iota in H.
  apply bind_Ok_inv in H as ([[l2 r2] du2] & E2 & H). injection H as <- -> _.
  assert (scalars r1 = scalars r ∧ rwf r1 ∧ grounded (nodes r1)) as (S1 & W1 & G1).
  { destruct c as [[] ln rn orph lrid rrid lres rres]; cbn [reconcile] in E;
      apply bind_Ok_inv in E as ([[r3 du3] o] & E & E3); injection E3 as _ <- _; by eapply recreated_scalars. }
  destruct (IH _ _ _ _ _ W1 G1 E2) as (S2 & W2 & G2 & Hl). cbn. split_and!; [congruence|done|done|by rewrite Hl].
Qed.

(** ** The last checks *)

Lemma moved_detach_id r x n r' :
  rwf r → grounded (nodes r) → nodes r !! x = Some n → parent n ≠ the_null_node →
  detach_node_id r x = Ok r' → moved r r' x None.
Proof.
  intros Hwf Hg Hn Hp H. unfold detach_node_id, get_node in H. rewrite Hn in H. cbn [of_option mbind result_bind] in H.
  rewrite (proj2 (null_node_false _) Hp) in H. apply bind_Ok_inv in H as ([r1 c] & E & H). cbn beta iota in H.
  apply bind_Ok_inv in H as (u & Hc & H). apply bind_Ok_inv in H as (n' & _ & H). apply bind_Ok_inv in H as (ol & _ & H).
  injection H as <-. apply I_Ok_inv, Z.eqb_eq in Hc as ->.
  destruct (moved_detach_child _ _ _ _ _ Hwf Hg E) as ([M1 M2 M3 M4 M5] & _).
  split; [done|by apply rwf_set_old|done|done|done].
Qed.

Record checked (res res' : roster_merge_result) : Prop := {
  ck_scalars : scalars (result_roster res') = scalars (result_roster res);
  ck_attr : attribute_conflicts res' = attribute_conflicts res;
  ck_content : file_content_conflicts res' = file_content_conflicts res;
  ck_dropped : dropped_modified_conflicts res' = dropped_modified_conflicts res;
  ck_dup : duplicate_name_conflicts res' = duplicate_name_conflicts res;
  ck_ids i : i ∈ conflict_ids res → i ∈ conflict_ids res';
  ck_place i :
    place (result_roster res') i = place (result_roster res) i ∨
    (place (result_roster res') i = None ∧ i ∈ conflict_ids res');
  ck_clean :
    invalid_name_conflicts res' = [] → missing_root_conflict res' = false →
    result_roster res' = result_roster res ∧ is_Some (root_dir (result_roster res'))
}.

Lemma check_globals_spec res res' :
  rwf (result_roster res) → grounded (nodes (result_roster res)) → check_globals res = Ok res' → checked res res'.
Proof.
  intros Hwf Hg H. destruct res as [mr inn dl on mn dm du ac fc r]. unfold check_globals in H.
  cbn [result_roster] in *. destruct (root_dir r) as [root|] eqn:Hroot.
  2:{ injection H as <-. split; cbn; [done|done|done|done|done|done|by left|done]. }
  apply bind_Ok_inv in H as (d & Hd & H). apply bind_Ok_inv in H as (ch & Hch & H).
  destruct (ch !! bookkeeping_root_component) as [c|] eqn:Hc.
  2:{ injection H as <-. split; cbn; [done|done|done|done|done|done|by left|]. rewrite Hroot. eauto. }
  apply bind_Ok_inv in H as (n & Hn & H). apply bind_Ok_inv in H as (u & _ & H). apply bind_Ok_inv in H as (r' & Hr' & H).
  injection H as <-. unfold get_node in Hd, Hn. apply of_option_Ok_inv in Hd, Hn.
  unfold downcast_to_dir_t in Hch. destruct (body d) as [|ch'] eqn:Hb; [done|]. injection Hch as ->.
  destruct (wf_child r Hwf _ _ _ _ _ Hd Hb Hc) as (_ & cn & Hcn & Hpar & _). assert (cn = n) as -> by congruence.
  destruct (wf_self r Hwf _ _ Hn) as [Hself _]. rewrite Hself in Hr'.
  assert (parent n ≠ the_null_node) as Hp by (rewrite Hpar; by destruct (wf_self r Hwf _ _ Hd)).
  destruct (moved_detach_id _ _ _ _ Hwf Hg Hn Hp Hr') as [M1 M2 M3 M4 M5].
  split; cbn [with_roster add_invalid_name]; [done|done|done|done|done| | |].
  - intros i. ids.
  - intros i. destruct (decide (i = c)) as [->|Hne]; [right|left; by apply M5]. split; [done|]. rewrite Hself. ids.
  - cbn. by intros [_ ?]%app_nil.
Qed.

(** ** The whole merge *)

Section theorems.
Context (L : roster) (LM : marking_map) (lu : gset bytes) (R : roster) (RM : marking_map) (ru : gset bytes).

(** The state before the last checks, when no dropped/modified conflict is
    left, is the one after the second phase. *)
Lemma roster_merge_phases res :
  rwf L → rwf R → roster_merge L LM lu R RM ru = Ok res →
  ∃ its res1 res2, items (nodes L) (nodes R) = Ok its ∧ fill_inv L LM lu R RM ru its.*1 res1 ∧ checked res2 res ∧
    scalars (result_roster res2) = scalars (result_roster res1) ∧
    attribute_conflicts res2 = attribute_conflicts res1 ∧ file_content_conflicts res2 = file_content_conflicts res1 ∧
    (dropped_modified_conflicts res = [] → res2 = res1).
Proof.
  intros HwL HwR H. unfold roster_merge in H. apply bind_Ok_inv in H as (its & Hits & H).
  apply bind_Ok_inv in H as (res0 & H0 & H). apply bind_Ok_inv in H as (res1 & H1 & H).
  apply bind_Ok_inv in H as ([[dm r] du] & H2 & H). cbn beta iota in H.
  pose proof (lifecycle_inv L LM lu R RM ru HwL HwR its res0 Hits H0) as F0.
  destruct (fill_nodes_inv L LM lu R RM ru HwL HwR res0 res1 F0 H1) as (its' & Hits' & F1).
  assert (its' = its) as -> by congruence.
  destruct (reconcile_all_scalars L R _ _ _ _ _ _ (fi_wf _ _ _ _ _ _ _ _ F1) (fi_grounded _ _ _ _ _ _ _ _ F1) H2)
    as (S2 & W2 & G2 & Hlen).
  exists its, res1, (with_duplicate_name du (with_dropped_modified dm (with_roster r res1))).
  assert (result_roster (with_duplicate_name du (with_dropped_modified dm (with_roster r res1))) = r) as Er by (by destruct res1).
  assert (checked (with_duplicate_name du (with_dropped_modified dm (with_roster r res1))) res) as C.
  { apply check_globals_spec; rewrite ?Er; done. }
  rewrite Er. split_and!; [done|done|done|done|by destruct res1|by destruct res1|].
  intros Edm. rewrite (ck_dropped _ _ C) in Edm.
  assert (dm = []) as -> by (by destruct res1). destruct (dropped_modified_conflicts res1) eqn:E; [|done].
  injection H2 as <- <-. destruct res1. cbn in *. by subst.
Qed.

(** C3: [roster_merge] loses nothing silently.  Whenever it returns, the nodes
    of its roster are exactly those alive in both parents, or in one parent
    and there born or modified since the parents diverged; each has the
    attributes and the content that the *-merge rule gives, every attribute
    and content that the rule leaves open is reported as a conflict, and, when
    no dropped/modified conflict was found, every node is attached at the
    place the rule gives or detached and named by a structural conflict. *)
Theorem roster_merge_accounts res :
  rwf L → rwf R → roster_merge L LM lu R RM ru = Ok res →
  (∀ i, scalars (result_roster res) !! i =
     if survives L LM lu R RM ru i
     then Some (i, merged_attrs L LM lu R RM ru i, merged_content L LM lu R RM ru i) else None) ∧
  (∀ i, scalars_reported L LM lu R RM ru res i) ∧
  (dropped_modified_conflicts res = [] → ∀ i, survives L LM lu R RM ru i = true →
     (is_Some (merged_place L LM lu R RM ru i) ∧ place (result_roster res) i = merged_place L LM lu R RM ru i) ∨
     (place (result_roster res) i = None ∧ i ∈ conflict_ids res)).
Proof.
  intros HwL HwR H. destruct (roster_merge_phases res HwL HwR H) as (its & res1 & res2 & Hits & F & C & S & Ea & Ec & Hdm).
  split_and!.
  - intros i. rewrite (ck_scalars _ _ C), S, (fi_scalars _ _ _ _ _ _ _ _ F).
    destruct (survives _ _ _ _ _ _ i) eqn:Hs; [|done]. by rewrite decide_True by (by apply (survives_key L LM lu R RM ru)).
  - intros i n n' Hn Hn'. assert (i ∈ its.*1) as Hi.
    { apply (survives_key L LM lu R RM ru); [done|]. unfold survives. by rewrite Hn, Hn'. }
    destruct (fi_reported _ _ _ _ _ _ _ _ F i Hi n n' Hn Hn') as [F1 F2].
    rewrite (ck_attr _ _ C), (ck_content _ _ C), Ea, Ec. done.
  - intros E i Hs. rewrite (Hdm E) in C.
    destruct (ck_place _ _ C i) as [->|?]; [|by right].
    destruct (fi_placed _ _ _ _ _ _ _ _ F i) as [?|[? ?]]; [by apply (survives_key L LM lu R RM ru)|done|by left|].
    right. split; [done|]. by apply (ck_ids _ _ C).
Qed.

Lemma is_clean_spec res :
  is_clean res = true →
  conflict_ids res = [] ∧ dropped_modified_conflicts res = [] ∧ duplicate_name_conflicts res = [] ∧
  invalid_name_conflicts res = [] ∧ missing_root_conflict res = false.
Proof.
  unfold is_clean, has_non_content_conflicts, conflict_ids. rewrite andb_true_iff, !negb_true_iff, !orb_false_iff.
  intros [H _]. repeat match goal with H : _ ∧ _ |- _ => destruct H end.
  repeat match goal with H : negb (bool_decide _) = false |- _ => apply negb_false_iff, bool_decide_eq_true in H; rewrite H end.
  done.
Qed.

Lemma reaches_root r root i :
  rwf r → grounded (nodes r) → (∀ i n, nodes r !! i = Some n → parent n = the_null_node → root = i) →
  is_Some (nodes r !! i) → rtc (λ x y, up (nodes r) y x) i root.
Proof.
  intros Hwf Hg Hroot. induction (Hg i) as [i _ IH]. intros [n Hn].
  destruct (decide (parent n = the_null_node)) as [Hp|Hp].
  - rewrite (Hroot i n Hn Hp). apply rtc_refl.
  - destruct (wf_parent r Hwf i n Hn Hp) as (p & ch & Hpn & _).
    assert (up (nodes r) (parent n) i) as Hup by (by exists n). eapply rtc_l; [exact Hup|]. apply IH; [done|eauto].
Qed.

(** C31: a merge that reports no conflict gives a complete roster: every node is
    attached, at the place the *-merge rule gives, parents and children agree,
    there is exactly one root and every node is below it, and no edit is
    pending. *)
Theorem clean_merge_complete res :
  rwf L → rwf R → roster_merge L LM lu R RM ru = Ok res → is_clean res = true →
  complete (result_roster res) ∧
  (∀ i, survives L LM lu R RM ru i = true → place (result_roster res) i = merged_place L LM lu R RM ru i) ∧
  (∃ root, root_dir (result_roster res) = Some root ∧
     ∀ i, is_Some (nodes (result_roster res) !! i) → rtc (λ x y, up (nodes (result_roster res)) y x) i root).
Proof.
  intros HwL HwR H Hclean. destruct (is_clean_spec res Hclean) as (Cids & Cdm & Cdu & Cin & Cmr).
  destruct (roster_merge_phases res HwL HwR H) as (its & res1 & res2 & Hits & F & C & _ & _ & _ & Hdm).
  rewrite (Hdm Cdm) in C. destruct (ck_clean _ _ C Cin Cmr) as [Er [root Hr]].
  rewrite Er in Hr |- *. rewrite (ck_dup _ _ C) in Cdu.
  assert (∀ i, survives L LM lu R RM ru i = true → is_Some (place (result_roster res1) i) ∧
    place (result_roster res1) i = merged_place L LM lu R RM ru i) as Hplace.
  { intros i Hs. destruct (fi_placed _ _ _ _ _ _ _ _ F i) as [[? E]|[_ Hi]]; [by apply (survives_key L LM lu R RM ru)|done| |].
    - by rewrite E.
    - apply (ck_ids _ _ C) in Hi. rewrite Cids in Hi. by apply not_elem_of_nil in Hi. }
  assert (∀ i n, nodes (result_roster res1) !! i = Some n → parent n = the_null_node →
    root_dir (result_roster res1) = Some i) as Hroot.
  { intros i n Hn Hp. pose proof (fi_scalars _ _ _ _ _ _ _ _ F i) as Es. rewrite scalars_lookup, Hn in Es.
    destruct (survives L LM lu R RM ru i) eqn:Hs; [|discriminate]. destruct (Hplace i Hs) as [[l Hl] _].
    unfold place in Hl. rewrite Hn, Hp in Hl. cbn in Hl. by case_bool_decide. }
  split_and!.
  - split; [exact (fi_wf _ _ _ _ _ _ _ _ F)|exact Hroot|eauto|by apply (fi_old _ _ _ _ _ _ _ _ F)].
  - intros i Hs. by apply Hplace.
  - exists root. split; [done|]. intros i Hi.
    apply reaches_root; [exact (fi_wf _ _ _ _ _ _ _ _ F)|exact (fi_grounded _ _ _ _ _ _ _ _ F)| |done].
    intros j n Hn Hp. pose proof (Hroot j n Hn Hp). congruence.
Qed.
End theorems.

(** ** A merge

    The left side renames the file 2 and adds 4 below the directory 3, which
    the right side moves to another name while it edits 2. *)
Module Example.
Definition revs (s : string) : gset bytes := {[lit s]}.
Definition dir (i p : Z) (nm : string) (ch : gmap bytes Z) : node := Node i p (lit nm) ∅ (DirBody ch).
Definition file (i p : Z) (nm c : string) : node := Node i p (lit nm) ∅ (FileBody (lit c)).
Definition mark (birth pn : string) (fc : gset bytes) : marking := Marking (lit birth) (revs pn) fc ∅.

Definition left : roster :=
  Roster (Some 1) {[1 := dir 1 0 "" {[lit "b" := 2; lit "d" := 3]}; 2 := file 2 1 "b" "v0";
                    3 := dir 3 1 "d" {[lit "new" := 4]}; 4 := file 4 3 "new" "n"]} ∅.
Definition left_marks : marking_map :=
  {[1 := mark "r0" "r0" ∅; 2 := mark "r0" "rl" (revs "r0"); 3 := mark "r0" "r0" ∅; 4 := mark "rl" "rl" (revs "rl")]}.
Definition right : roster :=
  Roster (Some 1) {[1 := dir 1 0 "" {[lit "a" := 2; lit "e" := 3]}; 2 := file 2 1 "a" "v1"; 3 := dir 3 1 "e" ∅]} ∅.
Definition right_marks : marking_map :=
  {[1 := mark "r0" "r0" ∅; 2 := mark "r0" "r0" (revs "rr"); 3 := mark "r0" "rr" ∅]}.
Definition merged : roster :=
  Roster (Some 1) {[1 := dir 1 0 "" {[lit "b" := 2; lit "e" := 3]}; 2 := file 2 1 "b" "v1";
                    3 := dir 3 1 "e" {[lit "new" := 4]}; 4 := file 4 3 "new" "n"]} ∅.
Definition result : roster_merge_result := with_roster merged clear_result.

Lemma merges :
  rwf left ∧ rwf right ∧ roster_merge left left_marks (revs "rl") right right_marks (revs "rr") = Ok result ∧
  is_clean result = true.
Proof.
  split_and!; [apply complete_wf, complete_b_sound; by vm_compute..| |]; vm_compute; reflexivity.
Qed.
End Example.

Lemma roster_merge_accounts_witness :
  dropped_modified_conflicts Example.result = [] ∧
  ∀ i, scalars_reported Example.left Example.left_marks (Example.revs "rl") Example.right Example.right_marks
    (Example.revs "rr") Example.result i.
Proof.
  split; [by vm_compute|]. destruct Example.merges as (H1 & H2 & H3 & _).
  exact (proj1 (proj2 (roster_merge_accounts Example.left Example.left_marks (Example.revs "rl")
    Example.right Example.right_marks (Example.revs "rr") Example.result H1 H2 H3))).
Defined.

Lemma clean_merge_complete_witness : complete (result_roster Example.result).
Proof.
  destruct Example.merges as (H1 & H2 & H3 & H4).
  exact (proj1 (clean_merge_complete Example.left Example.left_marks (Example.revs "rl")
    Example.right Example.right_marks (Example.revs "rr") Example.result H1 H2 H3 H4)).
Defined.
