(* ===== verification/Netio.v ===== *)
(** * Wire encodings

    The primitives of netio.hh: variable-length integers, fixed-width
    integers, strings with their length in front, and the checks on the
    remaining input.  [size_t] has 64 bits; a string and a [string_queue] are
    both the bytes they hold. *)

From S2P Require Import Prelude Numbers.

(** An unsigned type is given by its [sizeof]. *)
Definition wrap (sz z : Z) : Z := z mod 2 ^ (8 * sz).

Definition size_t_bytes : Z := 8.
Definition npos : Z := 2 ^ 64 - 1.

(** The byte at a position. *)
Definition byte_at (s : bytes) (pos : Z) : Z := byte_val (nth (Z.to_nat pos) s Ascii.zero).

Definition require_bytes (str : bytes) (pos n : Z) : result unit :=
  I_ ((pos <? len str) || ((pos =? len str) && (n =? 0))) ;;
  if n =? 0 then Ok tt
  else if len str <? u64 (pos + n) then Err BadDecode else Ok tt.

(** ** Variable-length integers *)

(** [x << s] where [x] is a non-negative [int] of 32 bits: defined as long as
    the value fits the unsigned type, and then converted to [int]. *)
Definition int_shl (x s : Z) : result Z :=
  if 32 <=? s then Err UndefinedBehaviour
  else
    let r := Z.shiftl x s in
    if 2 ^ 32 <=? r then Err UndefinedBehaviour
    else Ok (if 2 ^ 31 <=? r then r - 2 ^ 32 else r).

Definition max_uleb128_bytes (sz : Z) : nat := Z.to_nat (sz + 1 + sz / 8).

(** The [while (maxbytes > 0)] loop: whether the integer is complete, the
    position and the value. *)
Fixpoint uleb128_loop (sz : Z) (maxbytes : nat) (inp : bytes) (pos shift out : Z) :
    result (bool * Z * Z) :=
  match maxbytes with
  | O => Ok (true, pos, out)
  | S maxbytes =>
      if len inp <=? pos then Ok (false, pos, out)
      else
        let curr := byte_at inp pos in
        x ← int_shl (Z.land curr 127) shift;
        let out := Z.lor out (wrap sz x) in
        if Z.land curr 128 =? 0 then Ok (true, pos + 1, out)
        else if (maxbytes =? 0)%nat then Err BadDecode
        else uleb128_loop sz maxbytes inp (pos + 1) (shift + 7) out
  end.

Definition try_extract_datum_uleb128 (sz : Z) (inp : bytes) (pos : Z) : result (bool * Z * Z) :=
  uleb128_loop sz (max_uleb128_bytes sz) inp pos 0 0.

Definition extract_datum_uleb128 (sz : Z) (inp : bytes) (pos : Z) : result (Z * Z) :=
  '(complete, tpos, out) ← try_extract_datum_uleb128 sz inp pos;
  if complete : bool then Ok (out, tpos) else Err BadDecode.

Fixpoint insert_uleb128_loop (maxbytes : nat) (inp : Z) : bytes :=
  match maxbytes with
  | O => []
  | S maxbytes =>
      let item := Z.land inp 127 in
      let remainder := Z.shiftr inp 7 in
      if remainder =? 0 then [byte_of item]
      else byte_of (Z.lor item 128) :: insert_uleb128_loop maxbytes remainder
  end.

(** What is appended to the output. *)
Definition insert_datum_uleb128 (sz inp : Z) : bytes :=
  insert_uleb128_loop (max_uleb128_bytes sz) inp.

(** ** Fixed-width integers *)

Fixpoint lsb_loop (sz : Z) (nbytes : nat) (inp : bytes) (pos shift out : Z) : Z :=
  match nbytes with
  | O => out
  | S nbytes =>
      lsb_loop sz nbytes inp (pos + 1) (shift + 8) (Z.lor out (wrap sz (Z.shiftl (byte_at inp pos) shift)))
  end.

Definition extract_datum_lsb (sz : Z) (inp : bytes) (pos : Z) : result (Z * Z) :=
  require_bytes inp pos sz ;;
  Ok (lsb_loop sz (Z.to_nat sz) inp pos 0 0, pos + sz).

Fixpoint insert_lsb_loop (nbytes : nat) (inp : Z) : bytes :=
  match nbytes with
  | O => []
  | S nbytes => byte_of (Z.land inp 255) :: insert_lsb_loop nbytes (Z.shiftr inp 8)
  end.

Definition insert_datum_lsb (sz inp : Z) : bytes := insert_lsb_loop (Z.to_nat sz) inp.

(** ** Strings *)

(** [out.assign(buf, pos, n)]: at most the rest of [buf]. *)
Definition assign (buf : bytes) (pos n : Z) : result bytes :=
  if len buf <? pos then Err StdException
  else Ok (slice buf pos (Z.min n (len buf - pos))).

Definition extract_variable_length_string (buf : bytes) (pos maxlen : Z) : result (bytes * Z) :=
  '(n, pos) ← extract_datum_uleb128 size_t_bytes buf pos;
  if maxlen <? n then Err BadDecode
  else
    require_bytes buf pos n ;;
    out ← assign buf pos n;
    Ok (out, u64 (pos + n)).

Definition insert_variable_length_string (inp : bytes) : bytes :=
  insert_datum_uleb128 size_t_bytes (len inp) ++ inp.

Definition extract_substring (buf : bytes) (pos n : Z) : result (bytes * Z) :=
  require_bytes buf pos n ;;
  tmp ← assign buf pos n;
  Ok (tmp, u64 (pos + n)).

Definition assert_end_of_buffer (str : bytes) (pos : Z) : result unit :=
  if len str =? pos then Ok tt else Err BadDecode.

(** ** Reading what was written

    [unread buf pos s]: from [pos] on [buf] holds [s]. *)
Definition unread (buf : bytes) (pos : Z) (s : bytes) : Prop :=
  0 ≤ pos ≤ len buf ∧ len buf < 2 ^ 64 ∧ drop (Z.to_nat pos) buf = s.

Lemma unread_start s : len s < 2 ^ 64 → unread s 0 s.
Proof. intros. split_and!; [lia|apply len_nonneg|done|done]. Qed.

Lemma unread_len buf pos s : unread buf pos s → len buf = pos + len s.
Proof.
  intros (Hp & _ & <-). unfold len in *. rewrite length_drop. lia.
Qed.

Lemma unread_app buf pos s t : unread buf pos (s ++ t) → unread buf (pos + len s) t.
Proof.
  intros H. pose proof (unread_len _ _ _ H) as Hl. destruct H as (Hp & Hb & H).
  rewrite len_app in Hl. pose proof (len_nonneg t). pose proof (len_nonneg s).
  split_and!; [lia|lia|done|]. rewrite Z2Nat.inj_add, <- drop_drop, H by lia.
  apply drop_app_length'. unfold len. lia.
Qed.

Lemma unread_byte buf pos c s : unread buf pos (c :: s) → byte_at buf pos = byte_val c ∧ pos < len buf.
Proof.
  intros H. pose proof (unread_len _ _ _ H) as Hl. destruct H as (Hp & Hb & H).
  rewrite len_cons in Hl. pose proof (len_nonneg s). split; [|lia]. unfold byte_at. f_equal.
  rewrite nth_lookup, <- (Nat.add_0_r (Z.to_nat pos)), <- lookup_drop, H. done.
Qed.

Lemma unread_slice buf pos s t : unread buf pos (s ++ t) → slice buf pos (len s) = s.
Proof. intros (Hp & _ & H). unfold slice. rewrite H. apply take_app_length'. unfold len. lia. Qed.

Lemma require_bytes_ok buf pos s t : unread buf pos (s ++ t) → require_bytes buf pos (len s) = Ok tt.
Proof.
  intros H. pose proof (unread_len _ _ _ H) as Hl. destruct H as (Hp & Hb & _). rewrite len_app in Hl.
  pose proof (len_nonneg t). pose proof (len_nonneg s). unfold require_bytes.
  destruct (Z.eqb_spec (len s) 0) as [E|E].
  - replace ((pos <? len buf) || ((pos =? len buf) && true)) with true; [done|].
    symmetry. rewrite andb_true_r, orb_true_iff. destruct (Z.ltb_spec pos (len buf)); [by left|right]. apply Z.eqb_eq. lia.
  - rewrite (proj2 (Z.ltb_lt pos (len buf))) by lia. cbn [orb I_ mbind result_bind].
    rewrite u64_small, (proj2 (Z.ltb_ge _ _)) by lia. done.
Qed.

Lemma assign_ok buf pos s t : unread buf pos (s ++ t) → assign buf pos (len s) = Ok s.
Proof.
  intros H. pose proof (unread_len _ _ _ H) as Hl. rewrite len_app in Hl. pose proof (len_nonneg t).
  pose proof (unread_slice _ _ _ _ H) as Hs. destruct H as (Hp & Hb & _). unfold assign.
  rewrite (proj2 (Z.ltb_ge _ _)), Z.min_l, Hs by lia. done.
Qed.

Lemma extract_substring_ok buf pos s t :
  unread buf pos (s ++ t) → extract_substring buf pos (len s) = Ok (s, pos + len s) ∧ unread buf (pos + len s) t.
Proof.
  intros H. pose proof (unread_app _ _ _ _ H) as H'. split; [|done]. unfold extract_substring.
  rewrite (require_bytes_ok _ _ _ _ H), (assign_ok _ _ _ _ H). cbn [mbind result_bind].
  destruct H' as (? & ? & _). rewrite u64_small by lia. done.
Qed.

Lemma assert_end_ok buf pos : unread buf pos [] → assert_end_of_buffer buf pos = Ok tt.
Proof.
  intros H. unfold assert_end_of_buffer. rewrite (unread_len _ _ _ H), len_nil, Z.add_0_r, Z.eqb_refl. done.
Qed.

(** *** Variable-length integers *)

Lemma lor_disjoint a b n : 0 ≤ n → 0 ≤ a < 2 ^ n → Z.lor a (b * 2 ^ n) = a + b * 2 ^ n.
Proof.
  intros Hn Ha. destruct (decide (a = 0)) as [->|Ha0]; [by rewrite Z.lor_0_l|].
  rewrite <- Z.add_lor_land. enough (Z.land a (b * 2 ^ n) = 0) by lia.
  rewrite <- Z.shiftl_mul_pow2 by done. apply Z.bits_inj'. intros k Hk. rewrite Z.land_spec, Z.bits_0.
  destruct (Z.lt_ge_cases k n).
  - rewrite Z.shiftl_spec_low by done. apply andb_false_r.
  - rewrite (Z.bits_above_log2 a k); [done|lia|]. apply (Z.lt_le_trans _ n); [|done]. apply Z.log2_lt_pow2; lia.
Qed.

(** The integers that a decoder into a type of [sz] bytes decodes. *)
Definition uleb128_fits (sz v : Z) : Prop := 0 ≤ v < 2 ^ 31 ∧ 4 ≤ sz ∨ sz = 4 ∧ 0 ≤ v < 2 ^ 32.

Lemma low7_range v : 0 ≤ Z.land v 127 < 128.
Proof. change 127 with (Z.ones 7). rewrite Z.land_ones by lia. apply Z.mod_pos_bound. lia. Qed.

Lemma low7_split v : v = Z.land v 127 + Z.shiftr v 7 * 128.
Proof.
  change 127 with (Z.ones 7). rewrite Z.land_ones, Z.shiftr_div_pow2 by lia. change (2 ^ 7) with 128.
  pose proof (Z.div_mod v 128 ltac:(lia)). lia.
Qed.

(** One group of seven bits. *)
Lemma int_shl_group sz shift g :
  0 ≤ shift → 0 ≤ g → uleb128_fits sz (g * 2 ^ shift) → 1 ≤ g ∨ shift < 32 →
  ∃ x, int_shl g shift = Ok x ∧ wrap sz x = g * 2 ^ shift.
Proof.
  intros Hs Hg Hf Hlow. unfold int_shl, wrap. rewrite Z.shiftl_mul_pow2 by done.
  assert (shift < 32) as Hs32.
  { destruct Hlow as [Hlow|?]; [|done]. apply (Z.pow_lt_mono_r_iff 2); [lia|lia|].
    destruct Hf as [[? _]|[_ ?]]; nia. }
  rewrite (proj2 (Z.leb_gt _ _)) by done. set (r := g * 2 ^ shift) in *.
  assert (0 ≤ r < 2 ^ 32) as Hr by (destruct Hf; lia). rewrite (proj2 (Z.leb_gt _ _)) by lia.
  eexists. split; [done|]. destruct (Z.leb_spec (2 ^ 31) r).
  - destruct Hf as [?|[-> _]]; [lia|]. change (8 * 4) with 32.
    rewrite <- (Z_mod_plus_full _ 1). rewrite Z.mod_small; lia.
  - rewrite Z.mod_small; [done|]. split; [lia|]. apply (Z.lt_le_trans _ (2 ^ 32)); [lia|].
    apply Z.pow_le_mono_r; [lia|]. destruct Hf; lia.
Qed.

Lemma uleb128_shift_small sz v shift : 1 ≤ v → 0 ≤ shift → uleb128_fits sz (v * 2 ^ shift) → shift < 32.
Proof.
  intros Hv Hs Hf. apply (Z.pow_lt_mono_r_iff 2); [lia|lia|]. destruct Hf as [[? _]|[_ ?]]; nia.
Qed.

Lemma byte_of_group v :
  let item := Z.land v 127 in
  byte_val (byte_of item) = item ∧ byte_val (byte_of (Z.lor item 128)) = Z.lor item 128 ∧
  Z.land item 127 = item ∧ Z.land item 128 = 0 ∧
  Z.land (Z.lor item 128) 127 = item ∧ Z.land (Z.lor item 128) 128 ≠ 0.
Proof.
  intros item. pose proof (low7_range v) as Hr. fold item in Hr.
  assert (Z.lor item 128 = item + 128) as E by (apply (lor_disjoint item 1 7); lia).
  assert (Z.land item 127 = item) as E7 by (unfold item; by rewrite <- Z.land_assoc).
  assert (Z.land item 128 = 0) as E8 by (unfold item; rewrite <- Z.land_assoc; apply Z.land_0_r).
  split_and!; [rewrite byte_val_of, Z.mod_small; lia|rewrite byte_val_of, Z.mod_small; lia|done|done| |].
  - rewrite Z.land_lor_distr_l, E7. apply Z.lor_0_r.
  - rewrite Z.land_lor_distr_l, E8. done.
Qed.

Lemma uleb128_loop_ok sz m v buf pos shift out s :
  unread buf pos (insert_uleb128_loop m v ++ s) → 0 ≤ shift → 0 ≤ out < 2 ^ shift → (0 < m)%nat →
  v < 2 ^ (7 * Z.of_nat m) → uleb128_fits sz (v * 2 ^ shift) → 0 ≤ v → 1 ≤ v ∨ shift = 0 →
  uleb128_loop sz m buf pos shift out = Ok (true, pos + len (insert_uleb128_loop m v), out + v * 2 ^ shift).
Proof.
  revert v pos shift out. induction m as [|m IH]; intros v pos shift out Hu Hs Hout Hm Hv Hf Hv0 Hv1; [lia|].
  assert (shift < 32) as Hs32 by (destruct Hv1; [by eapply uleb128_shift_small|lia]).
  destruct (byte_of_group v) as (B1 & B2 & G1 & G2 & G3 & G4). pose proof (low7_range v) as Hg.
  pose proof (low7_split v) as Hsplit. pose proof (Z.pow_pos_nonneg 2 shift ltac:(lia) Hs) as Hpow.
  assert (0 ≤ Z.shiftr v 7) as Hr by (by apply Z.shiftr_nonneg).
  destruct (int_shl_group sz shift (Z.land v 127)) as (x & Ex & Hx); [lia|lia| |by right|].
  { unfold uleb128_fits in *. assert (Z.land v 127 * 2 ^ shift ≤ v * 2 ^ shift) by (apply Z.mul_le_mono_nonneg_r; lia).
    assert (0 ≤ Z.land v 127 * 2 ^ shift) by (apply Z.mul_nonneg_nonneg; lia). lia. }
  cbn [uleb128_loop insert_uleb128_loop] in *. destruct (Z.eqb_spec (Z.shiftr v 7) 0) as [Hz|Hz].
  - destruct (unread_byte _ _ _ _ Hu) as [-> Hp]. rewrite (proj2 (Z.leb_gt _ _)) by done.
    rewrite B1, G1, G2, Ex. cbn [mbind result_bind Z.eqb]. rewrite Hx, lor_disjoint by done.
    rewrite len_cons, len_nil. do 3 f_equal. lia.
  - destruct (unread_byte _ _ _ _ Hu) as [-> Hp]. rewrite (proj2 (Z.leb_gt _ _)) by done.
    rewrite B2, G3, Ex. cbn [mbind result_bind]. rewrite (proj2 (Z.eqb_neq _ _) G4).
    rewrite Hx, lor_disjoint by done. assert (v * 2 ^ shift = Z.land v 127 * 2 ^ shift + Z.shiftr v 7 * 2 ^ (shift + 7)) as Hv'.
    { rewrite Hsplit at 1. rewrite Z.pow_add_r by lia. change (2 ^ 7) with 128. lia. }
    assert (Z.shiftr v 7 < 2 ^ (7 * Z.of_nat m)) as Hm7.
    { replace (7 * Z.of_nat (S m)) with (7 * Z.of_nat m + 7) in Hv by lia. rewrite Z.pow_add_r in Hv by lia.
      change (2 ^ 7) with 128 in Hv. lia. }
    destruct m as [|m']; [cbn in Hm7; lia|]. set (m := S m') in *. replace (m =? 0)%nat with false by done.
    rewrite (IH (Z.shiftr v 7)); [|by eapply (unread_app _ _ [_])|lia| |lia|done| |done|left; lia].
    + rewrite len_cons. rewrite Hv'. f_equal. f_equal; [f_equal|]; lia.
    + rewrite Z.pow_add_r by lia. change (2 ^ 7) with 128. nia.
    + unfold uleb128_fits in *. assert (0 ≤ Z.land v 127 * 2 ^ shift) by (apply Z.mul_nonneg_nonneg; lia).
      assert (0 ≤ Z.shiftr v 7 * 2 ^ (shift + 7)) by (apply Z.mul_nonneg_nonneg; lia). lia.
Qed.

Lemma extract_insert_uleb128 sz v buf pos s :
  uleb128_fits sz v → unread buf pos (insert_datum_uleb128 sz v ++ s) →
  extract_datum_uleb128 sz buf pos = Ok (v, pos + len (insert_datum_uleb128 sz v)) ∧
  unread buf (pos + len (insert_datum_uleb128 sz v)) s.
Proof.
  intros Hf Hu. split; [|by eapply unread_app]. unfold extract_datum_uleb128, try_extract_datum_uleb128.
  assert (5 ≤ sz + 1 + sz / 8) as Hsz.
  { assert (4 ≤ sz) by (destruct Hf; lia). pose proof (Z.div_pos sz 8). lia. }
  rewrite (uleb128_loop_ok sz _ v _ _ _ _ s Hu).
  - cbn [mbind result_bind]. do 2 f_equal. change (2 ^ 0) with 1. lia.
  - lia.
  - cbn. lia.
  - unfold max_uleb128_bytes. lia.
  - apply (Z.lt_le_trans _ (2 ^ 35)); [destruct Hf; lia|]. apply Z.pow_le_mono_r; [lia|].
    unfold max_uleb128_bytes. lia.
  - change (2 ^ 0) with 1. by rewrite Z.mul_1_r.
  - destruct Hf; lia.
  - by right.
Qed.

(** *** Strings and fixed-width integers *)

Lemma extract_insert_string buf pos x maxlen s :
  len x < 2 ^ 31 → len x ≤ maxlen → unread buf pos (insert_variable_length_string x ++ s) →
  extract_variable_length_string buf pos maxlen = Ok (x, pos + len (insert_variable_length_string x)) ∧
  unread buf (pos + len (insert_variable_length_string x)) s.
Proof.
  intros Hx Hm Hu. split; [|by eapply unread_app]. unfold insert_variable_length_string in *.
  rewrite <- app_assoc in Hu. unfold extract_variable_length_string.
  destruct (extract_insert_uleb128 size_t_bytes (len x) buf pos (x ++ s)) as [-> Hu']; [|done|].
  { left. pose proof (len_nonneg x). unfold size_t_bytes. lia. }
  cbn [mbind result_bind]. rewrite (proj2 (Z.ltb_ge _ _)) by done.
  rewrite (require_bytes_ok _ _ _ _ Hu'), (assign_ok _ _ _ _ Hu'). cbn [mbind result_bind].
  pose proof (unread_app _ _ _ _ Hu') as (? & ? & _). rewrite u64_small, len_app by lia. do 2 f_equal. lia.
Qed.

Lemma insert_lsb_loop_len n v : len (insert_lsb_loop n v) = Z.of_nat n.
Proof. revert v. induction n as [|n IH]; intros v; [done|]. cbn [insert_lsb_loop]. rewrite len_cons, IH. lia. Qed.

Lemma lsb_loop_ok sz n v buf pos shift out s :
  unread buf pos (insert_lsb_loop n v ++ s) → 0 ≤ shift → 0 ≤ out < 2 ^ shift → 0 ≤ v < 2 ^ (8 * Z.of_nat n) →
  shift + 8 * Z.of_nat n ≤ 8 * sz →
  lsb_loop sz n buf pos shift out = out + v * 2 ^ shift.
Proof.
  revert v pos shift out. induction n as [|n IH]; intros v pos shift out Hu Hs Hout Hv Hsz; cbn [lsb_loop].
  { assert (v = 0) as -> by (cbn in Hv; lia). lia. }
  cbn [insert_lsb_loop] in Hu. destruct (unread_byte _ _ _ _ Hu) as [-> _]. apply (unread_app _ _ [_]) in Hu.
  change (len [_]) with 1 in Hu.
  assert (Z.land v 255 = v mod 256) as Hl by (change 255 with (Z.ones 8); by rewrite Z.land_ones).
  pose proof (Z.mod_pos_bound v 256 ltac:(lia)) as Hb.
  rewrite byte_val_of, Hl, Z.mod_mod by lia. rewrite Z.shiftl_mul_pow2 by done.
  pose proof (Z.pow_pos_nonneg 2 shift ltac:(lia) Hs) as Hpow.
  assert (v mod 256 * 2 ^ shift < 2 ^ (shift + 8)) as Hup by (rewrite Z.pow_add_r by lia; change (2 ^ 8) with 256; nia).
  unfold wrap at 1. rewrite Z.mod_small.
  2:{ split; [nia|]. apply (Z.lt_le_trans _ (2 ^ (shift + 8))); [done|]. apply Z.pow_le_mono_r; lia. }
  rewrite lor_disjoint by done. rewrite Z.shiftr_div_pow2 in Hu by lia. change (2 ^ 8) with 256 in Hu.
  rewrite (IH (v / 256)); [|done|lia| | |lia].
  - rewrite Z.pow_add_r by lia. change (2 ^ 8) with 256. pose proof (Z.div_mod v 256 ltac:(lia)). nia.
  - rewrite Z.pow_add_r in * by lia. change (2 ^ 8) with 256 in *. nia.
  - split; [apply Z.div_pos; lia|]. apply Z.div_lt_upper_bound; [lia|].
    replace (8 * Z.of_nat (S n)) with (8 + 8 * Z.of_nat n) in Hv by lia. rewrite Z.pow_add_r in Hv by lia. lia.
Qed.

Lemma extract_insert_lsb sz v buf pos s :
  1 ≤ sz → 0 ≤ v < 2 ^ (8 * sz) → unread buf pos (insert_datum_lsb sz v ++ s) →
  extract_datum_lsb sz buf pos = Ok (v, pos + sz) ∧ unread buf (pos + sz) s.
Proof.
  intros Hsz Hv Hu. assert (len (insert_datum_lsb sz v) = sz) as Hl.
  { unfold insert_datum_lsb. rewrite insert_lsb_loop_len. lia. }
  split; [|rewrite <- Hl at 1; by eapply unread_app]. unfold extract_datum_lsb.
  rewrite <- Hl at 1. rewrite (require_bytes_ok _ _ _ _ Hu). cbn [mbind result_bind].
  rewrite (lsb_loop_ok sz _ v _ _ _ _ s Hu).
  - do 2 f_equal. change (2 ^ 0) with 1. lia.
  - lia.
  - cbn. lia.
  - by rewrite Z2Nat.id by lia.
  - rewrite Z2Nat.id by lia. lia.
Qed.

(** A single byte. *)
Lemma extract_u8 buf pos v s :
  0 ≤ v < 256 → unread buf pos (byte_of v :: s) →
  extract_datum_lsb 1 buf pos = Ok (v, pos + 1) ∧ unread buf (pos + 1) s.
Proof.
  intros Hv Hu. apply (extract_insert_lsb 1 v); [done|done|]. unfold insert_datum_lsb. change (Z.to_nat 1) with 1%nat.
  cbn [insert_lsb_loop]. change 255 with (Z.ones 8). rewrite Z.land_ones, Z.mod_small by lia. done.
Qed.

(** *** Values a [size_t] decoder gets wrong *)

(** One group that is not the last, of a value [v] of which the lowest [shift]
    bits have been read. *)
Lemma uleb128_loop_next sz m v buf pos shift s :
  4 ≤ sz → 0 ≤ shift ≤ 21 → 2 ^ (shift + 7) ≤ v →
  unread buf pos (insert_uleb128_loop (S (S m)) (v / 2 ^ shift) ++ s) →
  uleb128_loop sz (S (S m)) buf pos shift (v mod 2 ^ shift) =
    uleb128_loop sz (S m) buf (pos + 1) (shift + 7) (v mod 2 ^ (shift + 7)) ∧
  unread buf (pos + 1) (insert_uleb128_loop (S m) (v / 2 ^ (shift + 7)) ++ s).
Proof.
  intros Hsz Hs Hv Hu. assert (2 ^ shift ≤ 2 ^ 21) by (apply Z.pow_le_mono_r; lia).
  pose proof (Z.pow_pos_nonneg 2 shift ltac:(lia) ltac:(lia)) as Hpow. set (w := v / 2 ^ shift) in *.
  destruct (byte_of_group w) as (_ & B2 & _ & _ & G3 & G4). pose proof (low7_range w) as Hg.
  assert (Z.shiftr w 7 = v / 2 ^ (shift + 7)) as Hr.
  { unfold w. rewrite <- !Z.shiftr_div_pow2, Z.shiftr_shiftr by lia. done. }
  assert (v / 2 ^ (shift + 7) ≠ 0) as Hn.
  { enough (1 ≤ v / 2 ^ (shift + 7)) by lia. apply Z.div_le_lower_bound; lia. }
  destruct (int_shl_group sz shift (Z.land w 127)) as (x & Ex & Hx); [lia|lia| |right; lia|].
  { left. change (2 ^ 31) with (1024 * 2 ^ 21). split; [nia|done]. }
  remember (S m) as k eqn:Hk. cbn [insert_uleb128_loop] in Hu. rewrite Hr, (proj2 (Z.eqb_neq _ _) Hn) in Hu.
  destruct (unread_byte _ _ _ _ Hu) as [Hb Hp]. split; [|by apply (unread_app _ _ [_]) in Hu].
  cbn [uleb128_loop]. rewrite Hb, (proj2 (Z.leb_gt _ _)) by done. rewrite B2, G3, Ex. cbn [mbind result_bind].
  rewrite (proj2 (Z.eqb_neq _ _) G4), Hx, lor_disjoint by (lia || by apply Z.mod_pos_bound).
  replace (k =? 0)%nat with false by (by subst k). f_equal. rewrite Z.pow_add_r, Z.rem_mul_r by lia.
  fold w. change 127 with (Z.ones 7). rewrite Z.land_ones by lia. lia.
Qed.

(** The first four groups. *)
Lemma uleb128_four_groups v buf s :
  2 ^ 28 ≤ v → unread buf 0 (insert_uleb128_loop 10 v ++ s) →
  uleb128_loop 8 10 buf 0 0 0 = uleb128_loop 8 6 buf 4 28 (v mod 2 ^ 28) ∧
  unread buf 4 (insert_uleb128_loop 6 (v / 2 ^ 28) ++ s).
Proof.
  intros Hv Hu. replace v with (v / 2 ^ 0) in Hu by apply Z.div_1_r.
  destruct (uleb128_loop_next 8 8 v buf 0 0 s) as [E1 U1]; [lia|lia|cbn; lia|exact Hu|].
  destruct (uleb128_loop_next 8 7 v buf 1 7 s) as [E2 U2]; [lia|lia|cbn; lia|exact U1|].
  destruct (uleb128_loop_next 8 6 v buf 2 14 s) as [E3 U3]; [lia|lia|cbn; lia|exact U2|].
  destruct (uleb128_loop_next 8 5 v buf 3 21 s) as [E4 U4]; [lia|lia|cbn; lia|exact U3|].
  split; [|exact U4]. change (v mod 2 ^ 0) with (v mod 1) in E1. rewrite Z.mod_1_r in E1.
  etrans; [exact E1|]. etrans; [exact E2|]. etrans; [exact E3|exact E4].
Qed.

(** The fifth group, of a value of at least 35 bits or fewer. *)
Lemma uleb128_fifth_group v buf s :
  2 ^ 31 ≤ v < 2 ^ 64 → unread buf 4 (insert_uleb128_loop 6 (v / 2 ^ 28) ++ s) →
  uleb128_loop 8 6 buf 4 28 (v mod 2 ^ 28) =
  if v <? 2 ^ 32 then Ok (true, 5, v + (2 ^ 64 - 2 ^ 32)) else Err UndefinedBehaviour.
Proof.
  intros Hv Hu. set (w := v / 2 ^ 28) in *. destruct (byte_of_group w) as (B1 & B2 & G1 & G2 & G3 & G4).
  pose proof (low7_range w) as Hg. pose proof (low7_split w) as Hw. pose proof (Z.div_mod v (2 ^ 28) ltac:(lia)) as Hd.
  pose proof (Z.mod_pos_bound v (2 ^ 28) ltac:(lia)) as Hm. fold w in Hd.
  assert (0 ≤ Z.shiftr w 7) as Hr by (apply Z.shiftr_nonneg; lia).
  remember 5%nat as k eqn:Hk. cbn [insert_uleb128_loop] in Hu. cbn [uleb128_loop].
  destruct (Z.eqb_spec (Z.shiftr w 7) 0) as [Hz|Hz]; destruct (unread_byte _ _ _ _ Hu) as [-> Hp];
    rewrite (proj2 (Z.leb_gt _ _)) by done.
  - rewrite B1, G1, G2. unfold int_shl. change (32 <=? 28) with false. rewrite Z.shiftl_mul_pow2 by lia.
    destruct (Z.ltb_spec v (2 ^ 32)) as [H32|H32].
    + rewrite (proj2 (Z.leb_gt (2 ^ 32) _)) by lia. rewrite (proj2 (Z.leb_le (2 ^ 31) _)) by lia. cbn [mbind result_bind Z.eqb]. unfold wrap.
      replace (Z.land w 127 * 2 ^ 28 - 2 ^ 32) with ((Z.land w 127 + (2 ^ 36 - 2 ^ 4)) * 2 ^ 28 + (-1) * 2 ^ (8 * 8)) by lia.
      rewrite Z_mod_plus_full, (Z.mod_small ((_ + _) * _)), lor_disjoint by lia. do 2 f_equal. lia.
    + rewrite (proj2 (Z.leb_le (2 ^ 32) _)) by lia. done.
  - rewrite B2, G3, (proj2 (Z.ltb_ge _ _)) by lia. unfold int_shl at 1. change (32 <=? 28) with false.
    rewrite Z.shiftl_mul_pow2 by lia. destruct (Z.leb_spec (2 ^ 32) (Z.land w 127 * 2 ^ 28)); [done|].
    cbn [mbind result_bind]. rewrite (proj2 (Z.eqb_neq _ _) G4). subst k. cbn [Nat.eqb].
    apply (unread_app _ _ [_] (insert_uleb128_loop 5 (Z.shiftr w 7) ++ s)) in Hu. change (4 + len [_]) with 5 in Hu.
    assert (∃ c t, insert_uleb128_loop 5 (Z.shiftr w 7) ++ s = c :: t) as (c & t & E).
    { cbn [insert_uleb128_loop]. destruct (_ =? 0); cbn [app]; eauto. }
    rewrite E in Hu. destruct (unread_byte _ _ _ _ Hu) as [_ Hp5]. remember 4%nat as k eqn:Hk.
    cbn [uleb128_loop]. change (4 + 1) with 5. by rewrite (proj2 (Z.leb_gt _ _) Hp5).
Qed.

(** C39: the decoder of [size_t] integers is right below 2^31 only.  For every
    value, whatever follows it in the input: below 2^31 it is decoded; a value from 2^31 to 2^32 - 1 comes back with its upper 32
    bits set, because each group of seven bits is shifted as an [int] and then
    sign-extended; from 2^32 on the shift is undefined. *)
Theorem uleb128_decodes_exactly v rest :
  0 ≤ v < 2 ^ 64 → len (insert_datum_uleb128 size_t_bytes v ++ rest) < 2 ^ 64 →
  extract_datum_uleb128 size_t_bytes (insert_datum_uleb128 size_t_bytes v ++ rest) 0 =
  if v <? 2 ^ 31 then Ok (v, len (insert_datum_uleb128 size_t_bytes v))
  else if v <? 2 ^ 32 then Ok (v + (2 ^ 64 - 2 ^ 32), 5)
  else Err UndefinedBehaviour.
Proof.
  intros Hv Hl. pose proof (unread_start _ Hl) as Hu. destruct (Z.ltb_spec v (2 ^ 31)) as [Hs|Hs].
  { assert (uleb128_fits size_t_bytes v) as Hf by (left; unfold size_t_bytes; lia).
    exact (proj1 (extract_insert_uleb128 _ _ _ _ _ Hf Hu)). }
  destruct (uleb128_four_groups v _ _ ltac:(lia) Hu) as [E4 U4].
  unfold extract_datum_uleb128, try_extract_datum_uleb128. change (max_uleb128_bytes size_t_bytes) with 10%nat. unfold size_t_bytes at 1.
  rewrite E4, (uleb128_fifth_group v _ rest) by (lia || exact U4). by destruct (v <? 2 ^ 32).
Qed.

Lemma uleb128_decodes_exactly_witness :
  extract_datum_uleb128 size_t_bytes (insert_datum_uleb128 size_t_bytes (2 ^ 31) ++ []) 0 = Ok (2 ^ 64 - 2 ^ 31, 5).
Proof. apply (uleb128_decodes_exactly (2 ^ 31) []); [lia|by vm_compute]. Defined.
