(* ===== verification/MerkleTree.v ===== *)
(** * Merkle tries: nodes and tables

    Translation of merkle_tree.cc.  Levels, slots and bit positions are small
    [size_t]s and are natural numbers here.  A [dynamic_bitset] is its list of
    bits, bit 0 first.  The conversions between bitsets and blocks of bytes
    (Boost) and the SHA-1 hash (Botan) are parameters. *)

From S2P Require Import Prelude Numbers Hex Netio.

Definition merkle_hash_length_in_bytes : nat := 20.
Definition merkle_fanout_bits : nat := 4.
Definition merkle_hash_length_in_bits : nat := merkle_hash_length_in_bytes * 8.
Definition merkle_num_tree_levels : nat := Nat.div merkle_hash_length_in_bits merkle_fanout_bits.
Definition merkle_num_slots : nat := 16.
Definition merkle_bitmap_length_in_bits : nat := merkle_num_slots * 2.
Definition merkle_bitmap_length_in_bytes : nat := Nat.div merkle_bitmap_length_in_bits 8.

(** The library functions the code calls. *)
Class merkle_lib := {
  raw_sha1 : bytes → bytes;
  to_block_range : list bool → bytes;
  (** the bitset of the given size made from the blocks *)
  from_block_range : nat → bytes → list bool
}.

(** [dynamic_bitset::resize] *)
Definition resize (n : nat) (b : list bool) : list bool := take n b ++ replicate (n - length b) false.

(** An enumeration cast from a byte may hold none of its names. *)
Inductive netcmd_item_type :=
  | file_item | key_item | revision_item | cert_item | epoch_item
  | item_of_byte (b : Z).

Definition item_code (t : netcmd_item_type) : Z :=
  match t with
  | file_item => 2 | key_item => 3 | revision_item => 4 | cert_item => 5 | epoch_item => 6
  | item_of_byte b => b
  end.

Definition item_of_code (b : Z) : netcmd_item_type :=
  if b =? 2 then file_item else if b =? 3 then key_item else if b =? 4 then revision_item
  else if b =? 5 then cert_item else if b =? 6 then epoch_item else item_of_byte b.

Definition netcmd_item_type_to_string (t : netcmd_item_type) : result bytes :=
  let typestr := match t with
    | revision_item => lit "revision" | file_item => lit "file" | cert_item => lit "cert"
    | key_item => lit "key" | epoch_item => lit "epoch" | item_of_byte _ => [] end in
  I_ (negb (bool_decide (typestr = []))) ;; Ok typestr.

Inductive slot_state := empty_state | leaf_state | subtree_state.

#[export] Instance item_type_eq_dec : EqDecision netcmd_item_type.
Proof. solve_decision. Defined.
#[export] Instance slot_state_eq_dec : EqDecision slot_state.
Proof. solve_decision. Defined.

(** The two dynamic bitsets are lists of exactly as many bits as they have;
    bits beyond those in the last block, which only a malformed message has, are dropped. *)
Record merkle_node := MerkleNode {
  level : nat;
  pref : list bool;
  total_num_leaves : Z;
  bitmap : list bool;
  slots : list bytes;
  type : netcmd_item_type
}.

#[export] Instance merkle_node_eq_dec : EqDecision merkle_node.
Proof. solve_decision. Defined.

(** [merkle_node::merkle_node()] *)
Definition new_merkle_node : merkle_node :=
  MerkleNode 0 [] 0 (replicate merkle_bitmap_length_in_bits false) (replicate merkle_num_slots []) revision_item.

Definition prefix_length_in_bits (lev : nat) : nat := lev * merkle_fanout_bits.
Definition prefix_length_in_bytes (lev : nat) : nat :=
  let num_bits := prefix_length_in_bits lev in
  if (num_bits mod 8 =? 0)%nat then Nat.div num_bits 8 else (Nat.div num_bits 8 + 1)%nat.

Definition check_invariants (n : merkle_node) : result unit :=
  I_ (length (pref n) =? prefix_length_in_bits (level n))%nat ;;
  I_ (level n <=? merkle_num_tree_levels)%nat ;;
  I_ (length (slots n) =? merkle_num_slots)%nat ;;
  I_ (length (bitmap n) =? merkle_bitmap_length_in_bits)%nat.

Definition bit_at (b : list bool) (i : nat) : bool := nth i b false.

Definition get_slot_state (nd : merkle_node) (n : nat) : result slot_state :=
  check_invariants nd ;;
  I_ (n <? merkle_num_slots)%nat ;;
  I_ (2 * n + 1 <? length (bitmap nd))%nat ;;
  Ok (if bit_at (bitmap nd) (2 * n)
      then (if bit_at (bitmap nd) (2 * n + 1) then subtree_state else leaf_state)
      else empty_state).

Definition with_bitmap (b : list bool) (nd : merkle_node) : merkle_node :=
  MerkleNode (level nd) (pref nd) (total_num_leaves nd) b (slots nd) (type nd).
Definition with_slots (s : list bytes) (nd : merkle_node) : merkle_node :=
  MerkleNode (level nd) (pref nd) (total_num_leaves nd) (bitmap nd) s (type nd).
Definition with_leaves (t : Z) (nd : merkle_node) : merkle_node :=
  MerkleNode (level nd) (pref nd) t (bitmap nd) (slots nd) (type nd).

Definition set_slot_state (nd : merkle_node) (n : nat) (st : slot_state) : result merkle_node :=
  check_invariants nd ;;
  I_ (n <? merkle_num_slots)%nat ;;
  I_ (2 * n + 1 <? length (bitmap nd))%nat ;;
  let b := <[(2 * n + 1)%nat := false]> (<[(2 * n)%nat := false]> (bitmap nd)) in
  let b := match st with empty_state => b | _ => <[(2 * n)%nat := true]> b end in
  let b := match st with subtree_state => <[(2 * n + 1)%nat := true]> b | _ => b end in
  Ok (with_bitmap b nd).

(** [idx(slots, slot)] *)
Definition get_raw_slot (nd : merkle_node) (slot : nat) : result bytes :=
  st ← get_slot_state nd slot;
  I_ (negb (bool_decide (st = empty_state))) ;;
  check_invariants nd ;;
  of_option (slots nd !! slot).

Definition set_raw_slot (nd : merkle_node) (slot : nat) (val : bytes) : result merkle_node :=
  check_invariants nd ;;
  _ ← of_option (slots nd !! slot);
  Ok (with_slots (<[slot := val]> (slots nd)) nd).

Definition nibble (slot : nat) : list bool :=
  map (λ i, Nat.testbit slot i) (seq 0 merkle_fanout_bits).

Definition extended_prefix (nd : merkle_node) (slot : nat) : result (list bool) :=
  check_invariants nd ;;
  I_ (slot <? merkle_num_slots)%nat ;;
  Ok (pref nd ++ nibble slot).

(** The nodes by their prefix and level. *)
Abbreviation merkle_table := (gmap (bytes * nat) merkle_node).

Section operations.
Context {ML : merkle_lib}.

Definition bitset_to_prefix (b : list bool) : bytes := to_block_range b.

Definition get_raw_prefix (nd : merkle_node) : result bytes :=
  check_invariants nd ;; Ok (bitset_to_prefix (pref nd)).

Definition extended_raw_prefix (nd : merkle_node) (slot : nat) : result bytes :=
  ext ← extended_prefix nd slot; Ok (bitset_to_prefix ext).

(** ** The text of a node *)

(** The slots that are not empty, one after the other. *)
Definition write_slots (nd : merkle_node) : result bytes :=
  foldM (λ oss slot,
    st ← get_slot_state nd slot;
    match st with
    | empty_state => Ok oss
    | _ =>
        I_ (slot <? length (slots nd))%nat ;;
        slot_val ← get_raw_slot nd slot;
        Ok (oss ++ slot_val)
    end) (seq 0 merkle_num_slots) [].

Definition write_body (nd : merkle_node) : result bytes :=
  I_ (length (pref nd) =? level nd * merkle_fanout_bits)%nat ;;
  vals ← write_slots nd;
  Ok ([byte_of (item_code (type nd))]
      ++ insert_datum_uleb128 size_t_bytes (Z.of_nat (level nd))
      ++ to_block_range (pref nd)
      ++ insert_datum_uleb128 size_t_bytes (total_num_leaves nd)
      ++ to_block_range (bitmap nd)
      ++ vals).

Definition write_node (nd : merkle_node) : result bytes :=
  oss ← write_body nd;
  let hash := raw_sha1 oss in
  I_ (length hash =? merkle_hash_length_in_bytes)%nat ;;
  Ok (hash ++ oss).

Definition read_slots (inbuf : bytes) (st : Z * merkle_node) : result (Z * merkle_node) :=
  foldM (λ '(pos, out) slot,
    st ← get_slot_state out slot;
    match st with
    | empty_state => Ok (pos, out)
    | _ =>
        '(slot_val, pos) ← extract_substring inbuf pos (Z.of_nat merkle_hash_length_in_bytes);
        v ← verify_id network slot_val;
        out ← set_raw_slot out slot v;
        Ok (pos, out)
    end) (seq 0 merkle_num_slots) st.

(** [out] is the node read into; its slots are not cleared first. *)
Definition read_node (inbuf : bytes) (pos : Z) (out : merkle_node) : result (merkle_node * Z) :=
  '(hash, pos) ← extract_substring inbuf pos (Z.of_nat merkle_hash_length_in_bytes);
  let begin_pos := pos in
  '(ty, pos) ← extract_datum_lsb 1 inbuf pos;
  '(lev, pos) ← extract_datum_uleb128 size_t_bytes inbuf pos;
  if Z.of_nat merkle_num_tree_levels <=? lev then Err BadDecode
  else
    let lev := Z.to_nat lev in
    let prefixsz := Z.of_nat (prefix_length_in_bytes lev) in
    require_bytes inbuf pos prefixsz ;;
    let pref := from_block_range (prefix_length_in_bits lev) (slice inbuf pos prefixsz) in
    let pos := pos + prefixsz in
    '(leaves, pos) ← extract_datum_uleb128 size_t_bytes inbuf pos;
    let bitmapsz := Z.of_nat merkle_bitmap_length_in_bytes in
    require_bytes inbuf pos bitmapsz ;;
    let bitmap := from_block_range merkle_bitmap_length_in_bits (slice inbuf pos bitmapsz) in
    let pos := pos + bitmapsz in
    '(pos, out) ← read_slots inbuf (pos, MerkleNode lev pref leaves bitmap (slots out) (item_of_code ty));
    let checkhash := raw_sha1 (slice inbuf begin_pos (pos - begin_pos)) in
    check_invariants out ;;
    if bool_decide (hash = checkhash) then Ok (out, pos) else Err BadDecode.

Definition hash_merkle_node (nd : merkle_node) : result bytes :=
  out ← write_node nd;
  I_ (merkle_hash_length_in_bytes <=? length out)%nat ;;
  verify_id internal (take merkle_hash_length_in_bytes out).

(** ** Tables of nodes *)

(** The slot of a value at a level, and the prefix above it. *)
Definition pick_slot_and_prefix_for_value (val : bytes) (lev : nat) : result (nat * list bool) :=
  let pref := from_block_range (length val * 8) val in
  slotnum ← foldM (λ slotnum i,
      match pref !! (lev * merkle_fanout_bits + (i - 1))%nat with
      | Some b => Ok (if b : bool then Nat.lor (2 * slotnum) 1 else Nat.ldiff (2 * slotnum) 1)
      | None => Err UndefinedBehaviour
      end) (rev (seq 1 merkle_fanout_bits)) 0%nat;
  Ok (slotnum, resize (lev * merkle_fanout_bits) pref).

(** [fuel] bounds the levels below [lev]. *)
Fixpoint recalculate_merkle_codes (fuel : nat) (tab : merkle_table) (p : bytes) (lev : nat) :
    result (merkle_table * bytes) :=
  match fuel with
  | O => Err UndefinedBehaviour
  | S fuel =>
      _ ← of_option (tab !! (p, lev));
      tab ← foldM (λ tab slotnum,
          node ← of_option (tab !! (p, lev));
          st ← get_slot_state node slotnum;
          match st with
          | subtree_state =>
              slotval ← get_raw_slot node slotnum;
              if bool_decide (slotval = []) then
                extended ← extended_raw_prefix node slotnum;
                '(tab, slotval) ← recalculate_merkle_codes fuel tab extended (S lev);
                node ← of_option (tab !! (p, lev));
                node ← set_raw_slot node slotnum slotval;
                Ok (<[(p, lev) := node]> tab)
              else Ok tab
          | _ => Ok tab
          end) (seq 0 merkle_num_slots) tab;
      node ← of_option (tab !! (p, lev));
      h ← hash_merkle_node node;
      Ok (tab, h)
  end.

Fixpoint collect_items_in_subtree (fuel : nat) (tab : merkle_table) (p : bytes) (lev : nat)
    (items : gset bytes) : result (gset bytes) :=
  match fuel with
  | O => Err UndefinedBehaviour
  | S fuel =>
      match tab !! (p, lev) with
      | None => Ok items
      | Some node =>
          foldM (λ items slot,
            st ← get_slot_state node slot;
            match st with
            | empty_state => Ok items
            | leaf_state => item ← get_raw_slot node slot; Ok ({[item]} ∪ items)
            | subtree_state =>
                ext ← extended_raw_prefix node slot;
                collect_items_in_subtree fuel tab ext (S lev) items
            end) (seq 0 merkle_num_slots) items
      end
  end.

(** The loop over the levels. *)
Fixpoint locate_loop (n l : nat) (table : merkle_table) (val : bytes) : result (option (nat * merkle_node)) :=
  match n with
  | O => Ok None
  | S n =>
      '(slotnum, pref) ← pick_slot_and_prefix_for_value val l;
      match table !! (bitset_to_prefix pref, l) with
      | None => Ok None
      | Some node =>
          st ← get_slot_state node slotnum;
          match st with
          | empty_state => Ok None
          | leaf_state =>
              slotval ← get_raw_slot node slotnum;
              if bool_decide (slotval = val) then Ok (Some (slotnum, node)) else Ok None
          | subtree_state => locate_loop n (S l) table val
          end
      end
  end.

Definition locate_item (table : merkle_table) (val : bytes) : result (option (nat * merkle_node)) :=
  locate_loop merkle_num_tree_levels 0 table val.

(** An update through the pointer to the node at a key. *)
Definition update_at (k : bytes * nat) (f : merkle_node → result merkle_node) (tab : merkle_table) :
    result merkle_table :=
  node ← of_option (tab !! k); node ← f node; Ok (<[k := node]> tab).

(** [fuel] bounds the levels below [lev]. *)
Fixpoint insert_into_merkle_tree (fuel : nat) (tab : merkle_table) (ty : netcmd_item_type) (leaf : bytes)
    (lev : nat) : result merkle_table :=
  match fuel with
  | O => Err UndefinedBehaviour
  | S fuel =>
      I_ (merkle_hash_length_in_bytes =? length leaf)%nat ;;
      I_ (merkle_fanout_bits * (lev + 1) <=? merkle_hash_length_in_bits)%nat ;;
      '(slotnum, pref) ← pick_slot_and_prefix_for_value leaf lev;
      let key := (bitset_to_prefix pref, lev) in
      let become_subtree := λ node,
        node ← set_raw_slot node slotnum []; set_slot_state node slotnum subtree_state in
      match tab !! key with
      | Some node =>
          st ← get_slot_state node slotnum;
          match st with
          | leaf_state =>
              slotval ← get_raw_slot node slotnum;
              if bool_decide (slotval = leaf) then Ok tab
              else
                tab ← insert_into_merkle_tree fuel tab ty slotval (S lev);
                tab ← insert_into_merkle_tree fuel tab ty leaf (S lev);
                update_at key become_subtree tab
          | empty_state =>
              update_at key (λ node,
                node ← set_slot_state (with_leaves (u64 (total_num_leaves node + 1)) node) slotnum leaf_state;
                set_raw_slot node slotnum leaf) tab
          | subtree_state =>
              tab ← insert_into_merkle_tree fuel tab ty leaf (S lev);
              update_at key become_subtree tab
          end
      | None =>
          node ← set_slot_state
            (MerkleNode lev pref 1 (bitmap new_merkle_node) (slots new_merkle_node) ty) slotnum leaf_state;
          node ← set_raw_slot node slotnum leaf;
          Ok (<[key := node]> tab)
      end
  end.
End operations.

(** ** What the library promises

    [dynamic_bitset] stores eight bits to a block, the last block padded;
    SHA-1 digests have twenty bytes. *)
Class merkle_lib_laws `{!merkle_lib} := {
  sha1_length s : length (raw_sha1 s) = merkle_hash_length_in_bytes;
  blocks_length b : length (to_block_range b) = Nat.div (length b + 7) 8;
  from_to_blocks b : from_block_range (length b) (to_block_range b) = b;
  from_length n s : length (from_block_range n s) = n;
  to_from_blocks s : to_block_range (from_block_range (length s * 8) s) = s
}.
Arguments merkle_lib_laws _ : clear implicits.

(** ** Well-formed nodes *)

Record node_wf (nd : merkle_node) : Prop := {
  nw_pref : length (pref nd) = prefix_length_in_bits (level nd);
  nw_level : (level nd ≤ merkle_num_tree_levels)%nat;
  nw_slots : length (slots nd) = merkle_num_slots;
  nw_bitmap : length (bitmap nd) = merkle_bitmap_length_in_bits
}.

(** The state of a slot, read off the bitmap. *)
Definition slot_st (nd : merkle_node) (n : nat) : slot_state :=
  if bit_at (bitmap nd) (2 * n)
  then (if bit_at (bitmap nd) (2 * n + 1) then subtree_state else leaf_state)
  else empty_state.

Definition slot_val (nd : merkle_node) (n : nat) : bytes := nth n (slots nd) [].

Lemma check_invariants_ok nd : node_wf nd → check_invariants nd = Ok tt.
Proof.
  intros [H1 H2 H3 H4]. unfold check_invariants. rewrite H1, H3, H4, !Nat.eqb_refl, (proj2 (Nat.leb_le _ _) H2). done.
Qed.

Lemma check_invariants_inv nd u : check_invariants nd = Ok u → node_wf nd.
Proof.
  unfold check_invariants. intros H. apply bind_Ok_inv in H as (? & H1%I_Ok_inv & H).
  apply bind_Ok_inv in H as (? & H2%I_Ok_inv & H). apply bind_Ok_inv in H as (? & H3%I_Ok_inv & H4%I_Ok_inv).
  split; by (apply Nat.eqb_eq || apply Nat.leb_le).
Qed.

Lemma get_slot_state_ok nd n : node_wf nd → (n < 16)%nat → get_slot_state nd n = Ok (slot_st nd n).
Proof.
  intros Hw Hn. unfold get_slot_state. rewrite (check_invariants_ok _ Hw). cbn [mbind result_bind].
  rewrite (nw_bitmap _ Hw). unfold merkle_num_slots, merkle_bitmap_length_in_bits.
  rewrite !(proj2 (Nat.ltb_lt _ _)) by (unfold merkle_num_slots; lia). done.
Qed.

Lemma slots_lookup nd n : node_wf nd → (n < 16)%nat → slots nd !! n = Some (slot_val nd n).
Proof.
  intros Hw Hn. destruct (lookup_lt_is_Some_2 (slots nd) n) as [v Hv]; [rewrite (nw_slots _ Hw); exact Hn|].
  unfold slot_val. by rewrite nth_lookup, Hv.
Qed.

Lemma get_raw_slot_ok nd n :
  node_wf nd → (n < 16)%nat → slot_st nd n ≠ empty_state → get_raw_slot nd n = Ok (slot_val nd n).
Proof.
  intros Hw Hn Hs. unfold get_raw_slot. rewrite get_slot_state_ok by done. cbn [mbind result_bind].
  rewrite bool_decide_false by done. cbn [negb I_ mbind result_bind]. rewrite (check_invariants_ok _ Hw).
  cbn [mbind result_bind]. by rewrite slots_lookup.
Qed.

Lemma extended_prefix_ok nd n : node_wf nd → (n < 16)%nat → extended_prefix nd n = Ok (pref nd ++ nibble n).
Proof.
  intros Hw Hn. unfold extended_prefix. rewrite (check_invariants_ok _ Hw). cbn [mbind result_bind].
  by rewrite (proj2 (Nat.ltb_lt _ _)).
Qed.

(** *** Updates of a slot *)

Definition put_val (n : nat) (v : bytes) (nd : merkle_node) : merkle_node := with_slots (<[n := v]> (slots nd)) nd.

Lemma put_val_wf n v nd : node_wf nd → node_wf (put_val n v nd).
Proof. intros [H1 H2 H3 H4]. split; cbn; [done|done|by rewrite length_insert|done]. Qed.

Lemma put_val_st n v nd k : slot_st (put_val n v nd) k = slot_st nd k.
Proof. done. Qed.

Lemma put_val_val n v nd k :
  node_wf nd → (n < 16)%nat → slot_val (put_val n v nd) k = if decide (k = n) then v else slot_val nd k.
Proof.
  intros Hw Hn. unfold slot_val, put_val. cbn [slots with_slots]. rewrite !nth_lookup. case_decide as E.
  - subst. by rewrite list_lookup_insert_eq by (rewrite (nw_slots _ Hw); exact Hn).
  - by rewrite list_lookup_insert_ne by done.
Qed.

Lemma set_raw_slot_ok nd n v : node_wf nd → (n < 16)%nat → set_raw_slot nd n v = Ok (put_val n v nd).
Proof.
  intros Hw Hn. unfold set_raw_slot. rewrite (check_invariants_ok _ Hw). cbn [mbind result_bind].
  by rewrite slots_lookup.
Qed.

Definition put_bits (n : nat) (st : slot_state) (b : list bool) : list bool :=
  <[(2 * n + 1)%nat := bool_decide (st = subtree_state)]>
    (<[(2 * n)%nat := negb (bool_decide (st = empty_state))]> b).

Definition put_state (n : nat) (st : slot_state) (nd : merkle_node) : merkle_node :=
  with_bitmap (put_bits n st (bitmap nd)) nd.

Lemma put_state_wf n st nd : node_wf nd → node_wf (put_state n st nd).
Proof. intros [H1 H2 H3 H4]. split; cbn; [done|done|done|]. unfold put_bits. by rewrite !length_insert. Qed.

Lemma put_state_st n st nd k :
  node_wf nd → (n < 16)%nat → slot_st (put_state n st nd) k = if decide (k = n) then st else slot_st nd k.
Proof.
  intros Hw Hn. unfold slot_st, bit_at, put_state, put_bits. cbn [bitmap with_bitmap]. rewrite !nth_lookup.
  pose proof (nw_bitmap _ Hw) as Hb. unfold merkle_bitmap_length_in_bits, merkle_num_slots in Hb.
  case_decide as E.
  - subst. rewrite (list_lookup_insert_ne _ (2 * n + 1) (2 * n)) by lia.
    rewrite !list_lookup_insert_eq by (rewrite ?length_insert, Hb; lia). by destruct st.
  - by rewrite !list_lookup_insert_ne by lia.
Qed.

Lemma put_state_val n st nd k : slot_val (put_state n st nd) k = slot_val nd k.
Proof. done. Qed.

Lemma set_slot_state_ok nd n st : node_wf nd → (n < 16)%nat → set_slot_state nd n st = Ok (put_state n st nd).
Proof.
  intros Hw Hn. unfold set_slot_state. rewrite (check_invariants_ok _ Hw). cbn [mbind result_bind].
  rewrite (nw_bitmap _ Hw). unfold merkle_num_slots, merkle_bitmap_length_in_bits.
  rewrite !(proj2 (Nat.ltb_lt _ _)) by (unfold merkle_num_slots; lia). cbn [I_ mbind result_bind].
  unfold put_state, put_bits. do 2 f_equal. destruct st; cbn [negb].
  - rewrite !bool_decide_false, bool_decide_true by done. done.
  - rewrite !bool_decide_false by done. rewrite list_insert_insert_ne by lia. by rewrite list_insert_insert_eq.
  - rewrite bool_decide_true, bool_decide_false by done.
    rewrite (list_insert_insert_ne _ (2 * n) (2 * n + 1)) by lia. by rewrite !list_insert_insert_eq.
Qed.
