(* ===== verification/MerkleIo.v ===== *)
(** * The text of a merkle node parses to the node *)

From S2P Require Import Prelude Numbers Hex Netio MerkleTree.

(** ** A concrete library

    Bits packed into bytes lowest bit first, and a polynomial checksum of
    twenty bytes in place of the hash: an instance of the parameters on which
    the operations can be evaluated, with its laws. *)

Definition byte_bits (c : ascii) : list bool :=
  let '(Ascii b0 b1 b2 b3 b4 b5 b6 b7) := c in [b0; b1; b2; b3; b4; b5; b6; b7].

Fixpoint pack_bits (l : list bool) : bytes :=
  match l with
  | [] => []
  | b0 :: b1 :: b2 :: b3 :: b4 :: b5 :: b6 :: b7 :: l' => Ascii b0 b1 b2 b3 b4 b5 b6 b7 :: pack_bits l'
  | _ => [Ascii (bit_at l 0) (bit_at l 1) (bit_at l 2) (bit_at l 3) (bit_at l 4) (bit_at l 5) (bit_at l 6) false]
  end.

Definition checksum (s : bytes) : bytes :=
  insert_lsb_loop 20 (foldl (λ h c, (h * 1000003 + byte_val c + 1) mod 2 ^ 160) 0 s).

#[export] Instance example_lib : merkle_lib := {|
  raw_sha1 := checksum;
  to_block_range := pack_bits;
  from_block_range n s := resize n (s ≫= byte_bits)
|}.

(** Induction by blocks of eight. *)
Lemma block_ind (P : list bool → Prop) :
  (∀ l, (length l < 8)%nat → P l) → (∀ c l, P l → P (byte_bits c ++ l)) → ∀ l, P l.
Proof.
  intros Hs Hb. enough (∀ n l, (length l ≤ n)%nat → P l) as Hn by (intros l; by apply (Hn (length l))).
  induction n as [|n IH]; intros l Hl; [apply Hs; lia|].
  destruct l as [|b0 [|b1 [|b2 [|b3 [|b4 [|b5 [|b6 [|b7 l]]]]]]]]; try (apply Hs; cbn; lia).
  apply (Hb (Ascii b0 b1 b2 b3 b4 b5 b6 b7)), IH. cbn in Hl. lia.
Qed.

Lemma resize_app b l n : resize (length b + n) (b ++ l) = b ++ resize n l.
Proof.
  unfold resize. rewrite take_app, take_ge, length_app, <- app_assoc by lia. do 2 f_equal; f_equal; lia.
Qed.

Lemma pack_bits_app c l : pack_bits (byte_bits c ++ l) = c :: pack_bits l.
Proof. by destruct c. Qed.

#[export] Instance example_laws : merkle_lib_laws example_lib.
Proof.
  split.
  - done.
  - intros b. change (to_block_range b) with (pack_bits b). induction b as [l Hl|c l IH] using block_ind.
    + by destruct l as [|b0 [|b1 [|b2 [|b3 [|b4 [|b5 [|b6 [|b7 l]]]]]]]]; [..|cbn in Hl; lia].
    + rewrite pack_bits_app. cbn [length]. rewrite IH, length_app. replace (length (byte_bits c)) with 8%nat by (by destruct c).
      apply (Nat.div_unique _ _ _ ((length l + 7) mod 8)); [by apply Nat.mod_upper_bound|].
      pose proof (Nat.div_mod_eq (length l + 7) 8). lia.
  - intros b. cbn. induction b as [l Hl|c l IH] using block_ind.
    + by destruct l as [|b0 [|b1 [|b2 [|b3 [|b4 [|b5 [|b6 [|b7 l]]]]]]]]; [..|cbn in Hl; lia].
    + rewrite pack_bits_app, length_app. cbn [mbind list_bind]. by rewrite resize_app, IH.
  - intros n s. cbn. unfold resize. rewrite length_app, length_take, length_replicate. lia.
  - intros s. cbn. induction s as [|c s IH]; [done|]. cbn [length mbind list_bind].
    replace (S (length s) * 8)%nat with (length (byte_bits c) + length s * 8)%nat by (by destruct c).
    by rewrite resize_app, pack_bits_app, IH.
Qed.

Section io.
Context {ML : merkle_lib} {MLL : merkle_lib_laws ML}.

(** The nodes that are sent: values of twenty bytes in the slots in use, and
    nothing in the others. *)
Record sendable (nd : merkle_node) : Prop := {
  se_wf : node_wf nd;
  se_level : (level nd < merkle_num_tree_levels)%nat;
  se_leaves : 0 ≤ total_num_leaves nd < 2 ^ 31;
  se_type : 0 ≤ item_code (type nd) < 256 ∧ item_of_code (item_code (type nd)) = type nd;
  se_used n : (n < 16)%nat → slot_st nd n ≠ empty_state → length (slot_val nd n) = merkle_hash_length_in_bytes;
  se_unused n : (n < 16)%nat → slot_st nd n = empty_state → slot_val nd n = []
}.

(** The values in the used slots from [k] on. *)
Definition used_vals (nd : merkle_node) (k : nat) : bytes :=
  mjoin (map (slot_val nd) (seq k (merkle_num_slots - k))).

Lemma used_vals_step nd k : (k < 16)%nat → used_vals nd k = slot_val nd k ++ used_vals nd (S k).
Proof.
  intros Hk. unfold used_vals, merkle_num_slots. replace (16 - k)%nat with (S (16 - S k)) by lia. done.
Qed.

Lemma used_vals_end nd : used_vals nd 16 = [].
Proof. done. Qed.

(** A loop over the slots, one after the other. *)
Lemma seq_split n l1 x l2 : seq 0 n = l1 ++ x :: l2 → x = length l1 ∧ (x < n)%nat.
Proof.
  intros E. assert (seq 0 n !! length l1 = Some x) as Hx.
  { rewrite E, lookup_app_r, Nat.sub_diag by done. done. }
  apply lookup_seq in Hx as [-> ?]. split; [done|lia].
Qed.

Lemma write_slots_ok nd : sendable nd → write_slots nd = Ok (used_vals nd 0).
Proof.
  intros Hs. destruct (foldM_ok (λ l oss, oss ++ used_vals nd (length l) = used_vals nd 0)
    (λ oss slot, st ← get_slot_state nd slot;
       match st with
       | empty_state => Ok oss
       | _ => I_ (slot <? length (slots nd))%nat ;; slot_val ← get_raw_slot nd slot; Ok (oss ++ slot_val)
       end) (seq 0 merkle_num_slots) []) as (s' & E & H).
  - done.
  - intros l1 x l2 oss [-> Hx]%seq_split HP. rewrite get_slot_state_ok by (apply Hs || done). cbn [mbind result_bind].
    rewrite used_vals_step in HP by done. rewrite length_app, Nat.add_1_r, (nw_slots _ (se_wf _ Hs)).
    destruct (slot_st nd (length l1)) eqn:Hst.
    + exists oss. split; [done|]. by rewrite (se_unused _ Hs) in HP.
    + rewrite (proj2 (Nat.ltb_lt _ _)) by done. cbn [I_ mbind result_bind].
      rewrite get_raw_slot_ok by (apply Hs || done || by rewrite Hst). eexists. split; [done|]. by rewrite <- app_assoc.
    + rewrite (proj2 (Nat.ltb_lt _ _)) by done. cbn [I_ mbind result_bind].
      rewrite get_raw_slot_ok by (apply Hs || done || by rewrite Hst). eexists. split; [done|]. by rewrite <- app_assoc.
  - unfold write_slots. rewrite E. f_equal. rewrite length_seq, used_vals_end, app_nil_r in H. done.
Qed.

Definition node_body (nd : merkle_node) : bytes :=
  [byte_of (item_code (type nd))]
  ++ insert_datum_uleb128 size_t_bytes (Z.of_nat (level nd))
  ++ to_block_range (pref nd)
  ++ insert_datum_uleb128 size_t_bytes (total_num_leaves nd)
  ++ to_block_range (bitmap nd)
  ++ used_vals nd 0.

Lemma write_node_ok nd : sendable nd → write_node nd = Ok (raw_sha1 (node_body nd) ++ node_body nd).
Proof.
  intros Hs. unfold write_node, write_body. rewrite (nw_pref _ (se_wf _ Hs)), Nat.eqb_refl, write_slots_ok by done.
  cbn [mbind result_bind I_]. by rewrite sha1_length, Nat.eqb_refl.
Qed.

(** The node with the slots before [k] filled in. *)
Definition partial_node (nd : merkle_node) (k : nat) : merkle_node :=
  with_slots (take k (slots nd) ++ replicate (merkle_num_slots - k) []) nd.

Lemma partial_node_wf nd k : node_wf nd → (k ≤ 16)%nat → node_wf (partial_node nd k).
Proof.
  intros [H1 H2 H3 H4] Hk. split; cbn; [done|done| |done].
  rewrite length_app, length_take, length_replicate, H3. unfold merkle_num_slots. lia.
Qed.

Lemma partial_node_step nd k :
  node_wf nd → (k < 16)%nat → put_val k (slot_val nd k) (partial_node nd k) = partial_node nd (S k).
Proof.
  intros Hw Hk. unfold put_val, partial_node, with_slots. cbn. f_equal.
  rewrite (take_S_r _ _ (slot_val nd k)) by (by apply slots_lookup). rewrite insert_app_r_alt.
  2:{ rewrite length_take, (nw_slots _ Hw). unfold merkle_num_slots. lia. }
  rewrite length_take, (nw_slots _ Hw), Nat.min_l, Nat.sub_diag by (unfold merkle_num_slots; lia).
  rewrite <- app_assoc. unfold merkle_num_slots. replace (16 - k)%nat with (S (16 - S k)) by lia. done.
Qed.

Lemma partial_node_unused nd k :
  node_wf nd → (k < 16)%nat → slot_val nd k = [] → partial_node nd k = partial_node nd (S k).
Proof.
  intros Hw Hk Hv. rewrite <- partial_node_step, Hv by done. unfold put_val, partial_node, with_slots. cbn. f_equal.
  symmetry. apply list_insert_id. rewrite lookup_app_r, length_take, (nw_slots _ Hw).
  2:{ rewrite length_take, (nw_slots _ Hw). unfold merkle_num_slots. lia. }
  rewrite Nat.min_l, Nat.sub_diag by (unfold merkle_num_slots; lia). apply lookup_replicate_2. unfold merkle_num_slots. lia.
Qed.

Lemma partial_node_all nd : node_wf nd → partial_node nd 16 = nd.
Proof.
  intros Hw. unfold partial_node, with_slots. rewrite take_ge by (rewrite (nw_slots _ Hw); done).
  rewrite app_nil_r. by destruct nd.
Qed.

Lemma read_slots_ok nd buf pos rest :
  sendable nd → unread buf pos (used_vals nd 0 ++ rest) →
  ∃ pos', read_slots buf (pos, partial_node nd 0) = Ok (pos', nd) ∧ pos' = pos + len (used_vals nd 0).
Proof.
  intros Hs Hu. set (total := pos + len (used_vals nd 0)). pose proof (se_wf _ Hs) as Hw.
  destruct (foldM_ok (λ l '(pos, out), out = partial_node nd (length l) ∧ unread buf pos (used_vals nd (length l) ++ rest) ∧
      pos + len (used_vals nd (length l)) = total)
    (λ '(pos, out) slot, st ← get_slot_state out slot;
      match st with
      | empty_state => Ok (pos, out)
      | _ => '(slot_val, pos) ← extract_substring buf pos (Z.of_nat merkle_hash_length_in_bytes);
             v ← verify_id network slot_val; out ← set_raw_slot out slot v; Ok (pos, out)
      end) (seq 0 merkle_num_slots) (pos, partial_node nd 0)) as ([pos' out] & E & Ho & Hu' & Hp).
  - done.
  - intros l1 x l2 [p out] [-> Hx]%seq_split (-> & HP & Ht). set (k := length l1) in *.
    assert (node_wf (partial_node nd k)) as Hpw by (apply partial_node_wf; [done|unfold merkle_num_slots in *; lia]).
    rewrite get_slot_state_ok by done.
    change (slot_st (partial_node nd k) k) with (slot_st nd k). cbn [mbind result_bind].
    rewrite length_app, Nat.add_1_r. fold k. rewrite used_vals_step in HP, Ht by done.
    assert (slot_st nd k ≠ empty_state → ∃ s',
      ('(slot_val, pos) ← extract_substring buf p (Z.of_nat merkle_hash_length_in_bytes);
       v ← verify_id network slot_val; out ← set_raw_slot (partial_node nd k) k v; Ok (pos, out)) = Ok s' ∧
      s'.2 = partial_node nd (S k) ∧ unread buf s'.1 (used_vals nd (S k) ++ rest) ∧ s'.1 + len (used_vals nd (S k)) = total) as Hused.
    { intros Hst. pose proof (se_used _ Hs k Hx Hst) as Hl. rewrite <- app_assoc in HP.
      destruct (extract_substring_ok _ _ _ _ HP) as [E Hu']. unfold len in E at 1. rewrite Hl in E. rewrite E.
      cbn [mbind result_bind]. unfold verify_id. destruct (decide _) as [Hnil|_]; [by rewrite Hnil in Hl|].
      rewrite bool_decide_true by done. cbn [E_ mbind result_bind].
      rewrite set_raw_slot_ok by done.
      cbn [mbind result_bind]. eexists. split; [done|]. cbn [fst snd].
      split_and!; [by apply partial_node_step|done|rewrite len_app in Ht; lia]. }
    destruct (slot_st nd k) eqn:Hst.
    + eexists. split; [done|]. rewrite (se_unused _ Hs) in HP, Ht by done.
      split_and!; [by apply partial_node_unused; [| |apply Hs]|done|done].
    + destruct (Hused ltac:(done)) as ([q o] & E & H). eauto.
    + destruct (Hused ltac:(done)) as ([q o] & E & H). eauto.
  - exists pos'. unfold read_slots. rewrite E, Ho. rewrite length_seq in *. unfold merkle_num_slots in *.
    rewrite partial_node_all by done. split; [done|]. rewrite used_vals_end, len_nil in Hp. lia.
Qed.

Lemma prefix_bytes nd : node_wf nd → length (to_block_range (pref nd)) = prefix_length_in_bytes (level nd).
Proof.
  intros Hw. rewrite blocks_length, (nw_pref _ Hw). unfold prefix_length_in_bytes.
  set (b := prefix_length_in_bits (level nd)). pose proof (Nat.div_mod_eq b 8) as Hd.
  pose proof (Nat.mod_upper_bound b 8 ltac:(lia)) as Hm. destruct (Nat.eqb_spec (b mod 8) 0) as [E|E].
  - symmetry. apply (Nat.div_unique _ _ _ 7); lia.
  - symmetry. apply (Nat.div_unique _ _ _ (b mod 8 - 1)); lia.
Qed.

Lemma small_fits n : 0 ≤ n < 2 ^ 31 → uleb128_fits size_t_bytes n.
Proof. left. unfold size_t_bytes. lia. Qed.

Lemma read_node_ok nd buf pos rest :
  sendable nd → unread buf pos (raw_sha1 (node_body nd) ++ node_body nd ++ rest) →
  let n := len (raw_sha1 (node_body nd) ++ node_body nd) in
  read_node buf pos new_merkle_node = Ok (nd, pos + n) ∧ unread buf (pos + n) rest.
Proof.
  intros Hs Hu n. pose proof (se_wf _ Hs) as Hw. split; [|rewrite app_assoc in Hu; by apply unread_app in Hu].
  destruct (extract_substring_ok _ _ _ _ Hu) as [E0 U0]. unfold len in E0 at 1. rewrite sha1_length in E0.
  unfold read_node. rewrite E0. cbn [mbind result_bind]. set (p0 := pos + len _) in *. pose proof U0 as U.
  unfold node_body in U. rewrite <- !app_assoc in U.
  destruct (extract_u8 _ _ _ _ (proj1 (se_type _ Hs)) U) as [-> U1]. cbn [mbind result_bind].
  pose proof (se_level _ Hs) as Hlev. unfold merkle_num_tree_levels, merkle_hash_length_in_bits in Hlev. cbn in Hlev.
  destruct (extract_insert_uleb128 size_t_bytes (Z.of_nat (level nd)) buf (p0 + 1) _ ltac:(apply small_fits; lia) U1) as [-> U2].
  cbn [mbind result_bind]. rewrite (proj2 (Z.leb_gt _ _)) by (cbn; lia). rewrite Nat2Z.id.
  assert (Z.of_nat (prefix_length_in_bytes (level nd)) = len (to_block_range (pref nd))) as -> by (unfold len; by rewrite prefix_bytes).
  rewrite (require_bytes_ok _ _ _ _ U2), (unread_slice _ _ _ _ U2). cbn [mbind result_bind]. apply unread_app in U2.
  destruct (extract_insert_uleb128 size_t_bytes (total_num_leaves nd) buf _ _ ltac:(apply small_fits, Hs) U2) as [-> U3].
  cbn [mbind result_bind].
  assert (Z.of_nat merkle_bitmap_length_in_bytes = len (to_block_range (bitmap nd))) as ->.
  { unfold len. by rewrite blocks_length, (nw_bitmap _ Hw). }
  rewrite (require_bytes_ok _ _ _ _ U3), (unread_slice _ _ _ _ U3). cbn [mbind result_bind]. apply unread_app in U3.
  rewrite <- (nw_pref _ Hw), <- (nw_bitmap _ Hw), !from_to_blocks, (proj2 (se_type _ Hs)).
  destruct (read_slots_ok nd buf _ _ Hs U3) as (p' & E & ->).
  change (MerkleNode _ _ _ _ _ _) with (partial_node nd 0). rewrite E. cbn [mbind result_bind].
  set (p1 := _ + len (used_vals nd 0)). assert (p1 - p0 = len (node_body nd)) as ->.
  { unfold p1, node_body. rewrite !len_app. change (len [_]) with 1. lia. }
  rewrite (unread_slice _ _ _ _ U0), (check_invariants_ok _ Hw). cbn [mbind result_bind].
  rewrite bool_decide_true by done. f_equal. f_equal. unfold p1, n, p0. rewrite !len_app.
  unfold node_body at 3. rewrite !len_app. change (len [_]) with 1. lia.
Qed.

(** Merkle nodes survive the wire.  Any node whose used slots hold twenty
    bytes, whose unused slots are empty and whose leaf count is below 2^31 is
    written without tripping an assertion; reading the text, whatever follows
    it, gives the node back and stops behind it. *)
Theorem merkle_node_roundtrip nd rest :
  sendable nd → len (raw_sha1 (node_body nd) ++ node_body nd ++ rest) < 2 ^ 64 →
  ∃ s, write_node nd = Ok s ∧ read_node (s ++ rest) 0 new_merkle_node = Ok (nd, len s).
Proof.
  intros Hs Hl. eexists. split; [by apply write_node_ok|]. rewrite <- app_assoc.
  destruct (read_node_ok nd _ 0 rest Hs (unread_start _ Hl)) as [-> _]. done.
Qed.
End io.

(** A node at the root with a leaf in slot 3. *)
Definition ex_leaf_node : merkle_node :=
  MerkleNode 0 [] 1 (put_bits 3 leaf_state (replicate 32 false)) (<[3%nat := replicate 20 "a"%char]> (replicate 16 [])) file_item.

Lemma ex_leaf_node_sendable : sendable ex_leaf_node.
Proof.
  split; [split; cbn; lia || done|cbn; lia|cbn; lia|done| |];
    intros n Hn; do 16 (destruct n as [|n]; [by vm_compute|]); lia.
Qed.

Lemma merkle_node_roundtrip_witness :
  ∃ s, write_node ex_leaf_node = Ok s ∧ read_node (s ++ lit "rest") 0 new_merkle_node = Ok (ex_leaf_node, len s).
Proof. apply (merkle_node_roundtrip ex_leaf_node (lit "rest")); [exact ex_leaf_node_sendable|by vm_compute]. Defined.
