(* ===== verification/MerkleTrie.v ===== *)
(** * Merkle tries represent sets of identifiers

    [repr tab b l T]: below the prefix [b], of level [l], the table holds the
    trie of the set [T].  A slot is empty, holds the one item of [T] with its
    prefix, or leads to a node for the items with its prefix when there are
    two or more.  Insertion, collection and search are proved against the
    set. *)

From S2P Require Import Prelude Numbers Hex Netio MerkleTree MerkleIo.

Section trie.
Context {ML : merkle_lib} {MLL : merkle_lib_laws ML} (ty : netcmd_item_type).

(** ** Identifiers as bit strings *)

Definition valid_id (x : bytes) : Prop := length x = merkle_hash_length_in_bytes.

Definition bits_of (x : bytes) : list bool := from_block_range merkle_hash_length_in_bits x.

Definition has_prefix (b : list bool) (x : bytes) : Prop := take (length b) (bits_of x) = b.

#[export] Instance has_prefix_dec b x : Decision (has_prefix b x).
Proof. unfold has_prefix. apply _. Defined.

(** The items with a prefix. *)
Definition under (T : gset bytes) (b : list bool) : gset bytes := filter (has_prefix b) T.

Lemma bits_length x : length (bits_of x) = merkle_hash_length_in_bits.
Proof. apply from_length. Qed.

Lemma bits_inj x y : valid_id x → valid_id y → bits_of x = bits_of y → x = y.
Proof.
  unfold valid_id, bits_of. intros Hx Hy E. rewrite <- (to_from_blocks x), <- (to_from_blocks y), Hx, Hy.
  unfold merkle_hash_length_in_bits in E. by rewrite E.
Qed.

Lemma blocks_inj b c : length b = length c → to_block_range b = to_block_range c → b = c.
Proof. intros Hl E. by rewrite <- (from_to_blocks b), <- (from_to_blocks c), E, Hl. Qed.

(** ** Slots *)

(** The slot of an item at a level. *)
Definition slot_at (x : bytes) (l : nat) : nat :=
  let b := bits_of x in
  let bit i := Nat.b2n (bit_at b (4 * l + i)) in
  (bit 0 + 2 * bit 1 + 4 * bit 2 + 8 * bit 3)%nat.

Lemma slot_at_lt x l : (slot_at x l < 16)%nat.
Proof.
  unfold slot_at. pose proof Nat.b2n_le_1 as Hb.
  pose proof (Hb (bit_at (bits_of x) (4 * l + 0))). pose proof (Hb (bit_at (bits_of x) (4 * l + 1))).
  pose proof (Hb (bit_at (bits_of x) (4 * l + 2))). pose proof (Hb (bit_at (bits_of x) (4 * l + 3))). cbn zeta. lia.
Qed.

Lemma nibble_inj j k : (j < 16)%nat → (k < 16)%nat → nibble j = nibble k → j = k.
Proof.
  intros Hj Hk. do 16 (destruct j as [|j]; [do 16 (destruct k as [|k]; [done|]); lia|]). lia.
Qed.

Lemma nibble_length k : length (nibble k) = 4%nat.
Proof. done. Qed.

Lemma bit_lookup x i : (i < 160)%nat → bits_of x !! i = Some (bit_at (bits_of x) i).
Proof.
  intros Hi. unfold bit_at. rewrite nth_lookup. destruct (lookup_lt_is_Some_2 (bits_of x) i) as [b ->]; [|done].
  by rewrite bits_length.
Qed.

Lemma slot_at_nibble x l :
  (l < 40)%nat → take (4 * S l) (bits_of x) = take (4 * l) (bits_of x) ++ nibble (slot_at x l).
Proof.
  intros Hl. replace (4 * S l)%nat with (S (S (S (S (4 * l))))) by lia.
  rewrite (take_S_r _ (S (S (S (4 * l)))) (bit_at (bits_of x) (4 * l + 3))) by (rewrite <- bit_lookup by lia; f_equal; lia).
  rewrite (take_S_r _ (S (S (4 * l))) (bit_at (bits_of x) (4 * l + 2))) by (rewrite <- bit_lookup by lia; f_equal; lia).
  rewrite (take_S_r _ (S (4 * l)) (bit_at (bits_of x) (4 * l + 1))) by (rewrite <- bit_lookup by lia; f_equal; lia).
  rewrite (take_S_r _ (4 * l) (bit_at (bits_of x) (4 * l + 0))) by (rewrite <- bit_lookup by lia; f_equal; lia).
  rewrite <- !app_assoc. f_equal. unfold slot_at.
  by destruct (bit_at _ (4 * l + 0)), (bit_at _ (4 * l + 1)), (bit_at _ (4 * l + 2)), (bit_at _ (4 * l + 3)).
Qed.

Lemma pick_slot_ok x l :
  valid_id x → (l < 40)%nat → pick_slot_and_prefix_for_value x l = Ok (slot_at x l, take (4 * l) (bits_of x)).
Proof.
  intros Hx Hl. unfold pick_slot_and_prefix_for_value. rewrite Hx. change (merkle_hash_length_in_bytes * 8)%nat with merkle_hash_length_in_bits.
  change (from_block_range merkle_hash_length_in_bits x) with (bits_of x). unfold merkle_fanout_bits. cbn [seq rev app foldM].
  replace (l * 4)%nat with (4 * l)%nat by lia. cbn [Nat.sub]. rewrite !bit_lookup by lia. cbn [mbind result_bind]. f_equal. f_equal.
  - unfold slot_at.
    by destruct (bit_at _ (4 * l + 0)), (bit_at _ (4 * l + 1)), (bit_at _ (4 * l + 2)), (bit_at _ (4 * l + 3)).
  - unfold resize. rewrite bits_length. replace (4 * l - merkle_hash_length_in_bits)%nat with 0%nat.
    + apply app_nil_r.
    + unfold merkle_hash_length_in_bits. cbn. lia.
Qed.

Lemma has_prefix_slot x b l k :
  length b = (4 * l)%nat → (l < 40)%nat → (k < 16)%nat →
  has_prefix (b ++ nibble k) x ↔ has_prefix b x ∧ k = slot_at x l.
Proof.
  intros Hb Hl Hk. unfold has_prefix. rewrite length_app, nibble_length, Hb.
  replace (4 * l + 4)%nat with (4 * S l)%nat by lia. rewrite slot_at_nibble by done. split.
  - intros E. apply app_inj_1 in E as [E1 E2].
    + split; [done|]. symmetry. by apply nibble_inj; [apply slot_at_lt| |].
    + rewrite length_take, bits_length, Hb. unfold merkle_hash_length_in_bits. cbn. lia.
  - intros [-> ->]. done.
Qed.

Lemma same_prefix_40 x y b :
  valid_id x → valid_id y → length b = 160%nat → has_prefix b x → has_prefix b y → x = y.
Proof.
  unfold has_prefix. intros Hx Hy Hb. rewrite Hb, !take_ge by (by rewrite bits_length).
  intros Ex Ey. apply bits_inj; [done|done|congruence].
Qed.

(** ** The trie of a set *)

Definition key (b : list bool) (l : nat) : bytes * nat := (to_block_range b, l).

(** There is no node at or below a prefix. *)
Definition no_nodes (tab : merkle_table) (b : list bool) : Prop :=
  ∀ c l, (length b + length c = 4 * l)%nat → tab !! key (b ++ c) l = None.

(** How many slots are in use. *)
Definition used_count (nd : merkle_node) : Z :=
  Z.of_nat (length (filter (λ k, slot_st nd k ≠ empty_state) (seq 0 16))).

(** The subtree below a prefix carries the hashes of its nodes, up to [h]. *)
Inductive hashed (tab : merkle_table) : list bool → nat → bytes → Prop :=
  | hashed_node b l nd :
      tab !! key b l = Some nd →
      (∀ k, (k < 16)%nat → slot_st nd k = subtree_state → hashed tab (b ++ nibble k) (S l) (slot_val nd k)) →
      hashed tab b l (raw_sha1 (node_body nd)).

(** What a node says of itself. *)
Record node_at (nd : merkle_node) (b : list bool) (l : nat) : Prop := {
  na_wf : node_wf nd;
  na_pref : pref nd = b;
  na_level : level nd = l;
  na_type : type nd = ty;
  na_count : total_num_leaves nd = used_count nd
}.

Inductive repr (tab : merkle_table) : list bool → nat → gset bytes → Prop :=
  | repr_node b l T nd :
      length b = (4 * l)%nat → (l < 40)%nat → (∀ x, x ∈ T → valid_id x ∧ has_prefix b x) →
      tab !! key b l = Some nd → node_at nd b l →
      (∀ k, (k < 16)%nat → slot_st nd k = empty_state →
         under T (b ++ nibble k) = ∅ ∧ slot_val nd k = [] ∧ no_nodes tab (b ++ nibble k)) →
      (∀ k, (k < 16)%nat → slot_st nd k = leaf_state →
         under T (b ++ nibble k) = {[slot_val nd k]} ∧ no_nodes tab (b ++ nibble k)) →
      (∀ k, (k < 16)%nat → slot_st nd k = subtree_state →
         (2 ≤ size (under T (b ++ nibble k)))%nat ∧
         (slot_val nd k = [] ∨ hashed tab (b ++ nibble k) (S l) (slot_val nd k))) →
      (∀ k, (k < 16)%nat → slot_st nd k = subtree_state →
         repr tab (b ++ nibble k) (S l) (under T (b ++ nibble k))) →
      repr tab b l T.

(** ** Framing *)

(** Two tables agree at and below a prefix. *)
Definition agree (tab tab' : merkle_table) (b : list bool) : Prop :=
  ∀ c l, (length b + length c = 4 * l)%nat → tab !! key (b ++ c) l = tab' !! key (b ++ c) l.

Lemma agree_here tab tab' b l : agree tab tab' b → length b = (4 * l)%nat → tab !! key b l = tab' !! key b l.
Proof. intros Ha Hb. rewrite <- (app_nil_r b). apply Ha. cbn. lia. Qed.

Lemma agree_slot tab tab' b k : agree tab tab' b → agree tab tab' (b ++ nibble k).
Proof. intros Ha c l Hl. rewrite <- app_assoc. apply Ha. rewrite !length_app in *. lia. Qed.

Lemma no_nodes_agree tab tab' b : agree tab tab' b → no_nodes tab b → no_nodes tab' b.
Proof. intros Ha Hn c l Hl. rewrite <- Ha by done. by apply Hn. Qed.

Lemma no_nodes_slot tab b k : no_nodes tab b → no_nodes tab (b ++ nibble k).
Proof. intros Hn c l Hl. rewrite <- app_assoc. apply Hn. rewrite !length_app in *. lia. Qed.

Lemma length_slot b l k : length b = (4 * l)%nat → length (b ++ nibble k) = (4 * S l)%nat.
Proof. intros Hb. rewrite length_app, nibble_length, Hb. lia. Qed.

Lemma hashed_agree tab tab' b l h :
  hashed tab b l h → length b = (4 * l)%nat → agree tab tab' b → hashed tab' b l h.
Proof.
  induction 1 as [b l nd Hn _ IH]; intros Hb Ha. constructor; [by rewrite <- (agree_here tab tab' b l)|].
  intros k Hk Hs. apply IH; [done|done|by apply length_slot|by apply agree_slot].
Qed.

Lemma repr_agree tab tab' b l T : repr tab b l T → agree tab tab' b → repr tab' b l T.
Proof.
  induction 1 as [b l T nd Hb Hl HT Hn Hat He Hlf Hsub _ IH]; intros Ha.
  econstructor; [done|done|done|by rewrite <- (agree_here tab tab' b l)|done| | | |].
  - intros k Hk Hs. destruct (He k Hk Hs) as (? & ? & ?). split_and!; [done|done|].
    eapply no_nodes_agree; [by apply agree_slot|done].
  - intros k Hk Hs. destruct (Hlf k Hk Hs) as (? & ?). split; [done|].
    eapply no_nodes_agree; [by apply agree_slot|done].
  - intros k Hk Hs. destruct (Hsub k Hk Hs) as [? Hh]. split; [done|]. destruct Hh as [?|Hh]; [by left|right].
    eapply hashed_agree; [done|by apply length_slot|by apply agree_slot].
  - intros k Hk Hs. apply IH; [done|done|by apply agree_slot].
Qed.

(** Tables that differ at or below one prefix only. *)
Definition local (tab tab' : merkle_table) (b : list bool) : Prop :=
  ∀ c l, length c = (4 * l)%nat → ¬ b `prefix_of` c → tab !! key c l = tab' !! key c l.

Lemma local_trans tab1 tab2 tab3 b : local tab1 tab2 b → local tab2 tab3 b → local tab1 tab3 b.
Proof. intros H1 H2 c l Hc Hp. by rewrite H1, H2. Qed.

Lemma local_weaken tab tab' b c : local tab tab' (b ++ c) → local tab tab' b.
Proof. intros Hl d l Hd Hp. apply Hl; [done|]. intros ?. apply Hp. etrans; [by apply prefix_app_r|done]. Qed.

(** Changes below one slot do not show in another, nor in the node itself. *)
Lemma local_other_slot tab tab' b j k :
  (j < 16)%nat → (k < 16)%nat → j ≠ k → local tab tab' (b ++ nibble j) → agree tab tab' (b ++ nibble k).
Proof.
  intros Hj Hk Hne Hl c l Hc. apply Hl; [rewrite !length_app in *; lia|].
  rewrite <- app_assoc. intros Hp%prefix_app_inv. apply Hne, nibble_inj; [done|done|].
  destruct Hp as [d Hd]. apply (f_equal (take 4)) in Hd. by rewrite !take_app_length' in Hd.
Qed.

Lemma local_self tab tab' b l k :
  length b = (4 * l)%nat → local tab tab' (b ++ nibble k) → tab !! key b l = tab' !! key b l.
Proof.
  intros Hb Hl. apply Hl; [done|]. intros Hp%prefix_length. rewrite length_app, nibble_length in Hp. lia.
Qed.

Lemma key_inj b c l : length b = (4 * l)%nat → length c = (4 * l)%nat → key b l = key c l → b = c.
Proof. intros Hb Hc [= E]. apply blocks_inj; [congruence|done]. Qed.

(** An update of the node at [b] itself is local to [b], and not seen below its slots. *)
Lemma update_local (tab : merkle_table) b l nd : length b = (4 * l)%nat → local tab (<[key b l := nd]> tab) b.
Proof.
  intros Hb c l' Hc Hp. rewrite lookup_insert_ne; [done|]. intros E. apply Hp. assert (l = l') as -> by (by injection E).
  by rewrite (key_inj b c l').
Qed.

Lemma update_agree (tab : merkle_table) b l nd k :
  length b = (4 * l)%nat → agree tab (<[key b l := nd]> tab) (b ++ nibble k).
Proof.
  intros Hb c l' Hc. rewrite lookup_insert_ne; [done|]. rewrite length_app, nibble_length in Hc.
  intros E. assert (l = l') as -> by (by injection E). lia.
Qed.

(** ** Counting the slots in use *)

Lemma filter_length_iff {A} (P Q : A → Prop) `{!∀ x, Decision (P x), !∀ x, Decision (Q x)} (l : list A) :
  (∀ x, x ∈ l → P x ↔ Q x) → length (filter P l) = length (filter Q l).
Proof.
  intros Hl. f_equal. induction l as [|x l IH]; [done|]. rewrite !filter_cons, IH by (intros; apply Hl; by right).
  destruct (Hl x) as [H1 H2]; [by left|]. destruct (decide (P x)), (decide (Q x)); tauto || done.
Qed.

Lemma filter_length_one_more {A} (P Q : A → Prop) `{!∀ x, Decision (P x), !∀ x, Decision (Q x)} (l : list A) k :
  NoDup l → k ∈ l → ¬ P k → Q k → (∀ x, x ≠ k → P x ↔ Q x) → length (filter Q l) = S (length (filter P l)).
Proof.
  intros Hnd Hk HP HQ Hx. induction Hnd as [|x l Hxl Hnd IH]; [by apply not_elem_of_nil in Hk|].
  rewrite !filter_cons. apply elem_of_cons in Hk as [->|Hk].
  - rewrite decide_True, decide_False by done. cbn [length]. f_equal. symmetry. apply filter_length_iff.
    intros y Hy. apply Hx. by intros ->.
  - assert (x ≠ k) as Hne by (by intros ->). destruct (Hx x Hne) as [H1 H2].
    destruct (decide (Q x)), (decide (P x)); cbn [length]; rewrite IH by done; tauto || done.
Qed.

Lemma used_count_range nd : 0 ≤ used_count nd ≤ 16.
Proof.
  unfold used_count. pose proof (length_filter (λ k, slot_st nd k ≠ empty_state) (seq 0 16)) as H.
  rewrite length_seq in H. lia.
Qed.

Lemma used_count_put nd k st :
  node_wf nd → (k < 16)%nat → st ≠ empty_state →
  used_count (put_state k st nd) = used_count nd + if decide (slot_st nd k = empty_state) then 1 else 0.
Proof.
  intros Hw Hk Hst. unfold used_count. case_decide as Hs.
  - rewrite (filter_length_one_more (λ k, slot_st nd k ≠ empty_state) _ _ k); [lia|apply NoDup_seq| |by intros ?| |].
    + apply elem_of_seq. lia.
    + by rewrite put_state_st, decide_True.
    + intros x Hx. by rewrite put_state_st, decide_False.
  - rewrite (filter_length_iff _ (λ k, slot_st nd k ≠ empty_state)); [lia|]. intros x _.
    rewrite put_state_st by done. case_decide; subst; naive_solver.
Qed.

Lemma used_count_val nd k v : used_count (put_val k v nd) = used_count nd.
Proof. done. Qed.

(** ** Slots of a representation *)

Definition slot_ok (tab : merkle_table) (b : list bool) (l : nat) (U : gset bytes) (st : slot_state) (v : bytes)
    (c : list bool) : Prop :=
  match st with
  | empty_state => U = ∅ ∧ v = [] ∧ no_nodes tab c
  | leaf_state => U = {[v]} ∧ no_nodes tab c
  | subtree_state => (2 ≤ size U)%nat ∧ (v = [] ∨ hashed tab c (S l) v) ∧ repr tab c (S l) U
  end.

Lemma repr_slots tab b l T :
  repr tab b l T ↔
  length b = (4 * l)%nat ∧ (l < 40)%nat ∧ (∀ x, x ∈ T → valid_id x ∧ has_prefix b x) ∧
  ∃ nd, tab !! key b l = Some nd ∧ node_at nd b l ∧
    ∀ k, (k < 16)%nat → slot_ok tab b l (under T (b ++ nibble k)) (slot_st nd k) (slot_val nd k) (b ++ nibble k).
Proof.
  split.
  - destruct 1 as [b l T nd Hb Hl HT Hn Hat He Hlf Hsub Hr]. split_and!; [done..|]. exists nd. split_and!; [done..|].
    intros k Hk. specialize (He k Hk). specialize (Hlf k Hk). specialize (Hsub k Hk). specialize (Hr k Hk).
    unfold slot_ok. destruct (slot_st nd k); naive_solver.
  - intros (Hb & Hl & HT & nd & Hn & Hat & Hs). econstructor; [done..| | | |]; intros k Hk Hst; specialize (Hs k Hk);
      rewrite Hst in Hs; cbn in Hs; naive_solver.
Qed.

Lemma slot_ok_agree tab tab' b l U st v c :
  length c = (4 * S l)%nat → agree tab tab' c → slot_ok tab b l U st v c → slot_ok tab' b l U st v c.
Proof.
  intros Hc Ha. destruct st; cbn.
  - intros (? & ? & ?). split_and!; [done|done|by eapply no_nodes_agree].
  - intros [? ?]. split; [done|by eapply no_nodes_agree].
  - intros (? & Hv & ?). split_and!; [done| |by eapply repr_agree].
    destruct Hv as [?|?]; [by left|right]. by eapply hashed_agree.
Qed.

Lemma elem_of_under x T b : x ∈ under T b ↔ has_prefix b x ∧ x ∈ T.
Proof. apply elem_of_filter. Qed.

Lemma under_insert_same x T b l :
  length b = (4 * l)%nat → (l < 40)%nat → has_prefix b x →
  under ({[x]} ∪ T) (b ++ nibble (slot_at x l)) = {[x]} ∪ under T (b ++ nibble (slot_at x l)).
Proof.
  intros Hb Hl Hx. apply set_eq. intros y. rewrite elem_of_under, !elem_of_union, elem_of_under, elem_of_singleton.
  assert (has_prefix (b ++ nibble (slot_at x l)) x) by (by apply (has_prefix_slot x b l); [..|apply slot_at_lt|]).
  naive_solver.
Qed.

Lemma under_insert_other x T b l k :
  length b = (4 * l)%nat → (l < 40)%nat → (k < 16)%nat → k ≠ slot_at x l →
  under ({[x]} ∪ T) (b ++ nibble k) = under T (b ++ nibble k).
Proof.
  intros Hb Hl Hk Hne. apply set_eq. intros y. rewrite !elem_of_under, elem_of_union, elem_of_singleton.
  assert (¬ has_prefix (b ++ nibble k) x) by (rewrite (has_prefix_slot x b l) by done; naive_solver). naive_solver.
Qed.

(** Rebuilding the representation after a change at and below one slot. *)
Lemma repr_change tab tab1 b l T T' k nd nd' :
  repr tab b l T → tab !! key b l = Some nd → (k < 16)%nat → (∀ x, x ∈ T' → valid_id x ∧ has_prefix b x) →
  let tab' := <[key b l := nd']> tab1 in
  local tab tab1 (b ++ nibble k) → node_at nd' b l →
  (∀ j, (j < 16)%nat → j ≠ k → slot_st nd' j = slot_st nd j ∧ slot_val nd' j = slot_val nd j ∧
     under T' (b ++ nibble j) = under T (b ++ nibble j)) →
  slot_ok tab1 b l (under T' (b ++ nibble k)) (slot_st nd' k) (slot_val nd' k) (b ++ nibble k) →
  repr tab' b l T' ∧ local tab tab' b.
Proof.
  rewrite repr_slots. intros (Hb & Hl & HT & nd0 & Hn & Hat & Hs) Hn' Hk HT' tab' Hloc Hat' Hj Hsk.
  assert (nd0 = nd) as -> by congruence. split.
  - apply repr_slots. split_and!; [done|done|done|]. exists nd'. split_and!; [apply lookup_insert_eq|done|].
    intros j Hj16. eapply slot_ok_agree; [by apply length_slot|by apply update_agree|].
    destruct (decide (j = k)) as [->|Hne]; [done|]. destruct (Hj j Hj16 Hne) as (-> & -> & ->).
    eapply slot_ok_agree; [by apply length_slot|by eapply (local_other_slot _ _ _ k)|by apply Hs].
  - eapply local_trans; [by eapply local_weaken|]. by apply update_local.
Qed.

Lemma repr_update tab tab1 b l T x nd nd' :
  repr tab b l T → tab !! key b l = Some nd → valid_id x → has_prefix b x →
  let k := slot_at x l in
  let tab' := <[key b l := nd']> tab1 in
  local tab tab1 (b ++ nibble k) → node_at nd' b l →
  (∀ j, (j < 16)%nat → j ≠ k → slot_st nd' j = slot_st nd j ∧ slot_val nd' j = slot_val nd j) →
  slot_ok tab1 b l ({[x]} ∪ under T (b ++ nibble k)) (slot_st nd' k) (slot_val nd' k) (b ++ nibble k) →
  repr tab' b l ({[x]} ∪ T) ∧ local tab tab' b.
Proof.
  intros Hr Hn Hx Hbx k tab' Hloc Hat' Hj Hk. pose proof Hr as (Hb & Hl & HT & _)%repr_slots.
  apply (repr_change tab tab1 b l T _ k nd); [done|done|apply slot_at_lt|set_solver|done|done| |].
  - intros j Hj16 Hne. destruct (Hj j Hj16 Hne) as [-> ->]. split_and!; [done|done|]. by apply (under_insert_other x T b l j).
  - unfold k at 1. by rewrite under_insert_same.
Qed.

(** ** Insertion *)

Lemma has_prefix_take x b : has_prefix b x → take (length b) (bits_of x) = b.
Proof. done. Qed.

(** The node that [nd] becomes when slot [k] becomes a leaf, or a subtree. *)
Definition leaf_put (k : nat) (x : bytes) (nd : merkle_node) : merkle_node := put_val k x (put_state k leaf_state nd).
Definition subtree_put (k : nat) (nd : merkle_node) : merkle_node := put_state k subtree_state (put_val k [] nd).

Lemma with_leaves_wf n nd : node_wf nd → node_wf (with_leaves n nd).
Proof. by intros [H1 H2 H3 H4]. Qed.

Lemma leaf_put_ok k x nd :
  node_wf nd → (k < 16)%nat → (node ← set_slot_state nd k leaf_state; set_raw_slot node k x) = Ok (leaf_put k x nd).
Proof.
  intros Hw Hk. rewrite set_slot_state_ok by done. cbn [mbind result_bind]. apply set_raw_slot_ok; [by apply put_state_wf|done].
Qed.

Lemma leaf_put_slots k x nd j :
  node_wf nd → (k < 16)%nat →
  slot_st (leaf_put k x nd) j = (if decide (j = k) then leaf_state else slot_st nd j) ∧
  slot_val (leaf_put k x nd) j = if decide (j = k) then x else slot_val nd j.
Proof.
  intros Hw Hk. unfold leaf_put. rewrite put_val_st, put_state_st, put_val_val by (done || by apply put_state_wf). done.
Qed.

Lemma subtree_put_ok k nd :
  node_wf nd → (k < 16)%nat → (node ← set_raw_slot nd k []; set_slot_state node k subtree_state) = Ok (subtree_put k nd).
Proof.
  intros Hw Hk. rewrite set_raw_slot_ok by done. cbn [mbind result_bind]. apply set_slot_state_ok; [by apply put_val_wf|done].
Qed.

Lemma subtree_put_slots k nd j :
  node_wf nd → (k < 16)%nat →
  slot_st (subtree_put k nd) j = (if decide (j = k) then subtree_state else slot_st nd j) ∧
  slot_val (subtree_put k nd) j = if decide (j = k) then [] else slot_val nd j.
Proof.
  intros Hw Hk. unfold subtree_put. rewrite put_state_val, put_state_st, put_val_val by (done || by apply put_val_wf). done.
Qed.

Lemma subtree_put_at k nd b l :
  node_at nd b l → (k < 16)%nat → slot_st nd k ≠ empty_state → node_at (subtree_put k nd) b l.
Proof.
  intros [Hw Hp Hl Hty Hc] Hk Hs. split; [by apply put_state_wf, put_val_wf|done|done|done|].
  unfold subtree_put. rewrite used_count_put by (done || by apply put_val_wf).
  rewrite put_val_st, decide_False by done. cbn. rewrite Hc, used_count_val. lia.
Qed.

Lemma leaf_put_at k x nd b l :
  node_at nd b l → (k < 16)%nat → slot_st nd k = empty_state →
  node_at (leaf_put k x (with_leaves (u64 (total_num_leaves nd + 1)) nd)) b l.
Proof.
  intros [Hw Hp Hl Hty Hc] Hk Hs. pose proof (used_count_range nd) as Hr.
  split; [by apply put_val_wf, put_state_wf, with_leaves_wf|done|done|done|].
  unfold leaf_put. rewrite used_count_val, used_count_put by (done || by apply with_leaves_wf).
  change (slot_st (with_leaves _ nd) k) with (slot_st nd k). rewrite decide_True by done.
  cbn. rewrite Hc, u64_small by lia. done.
Qed.

Lemma nth_replicate {A} (n i : nat) (a : A) : nth i (replicate n a) a = a.
Proof. revert i. induction n as [|n IH]; intros [|i]; cbn; auto. Qed.

Lemma new_slots_empty l b n k :
  let nd := MerkleNode l b n (bitmap new_merkle_node) (slots new_merkle_node) ty in
  slot_st nd k = empty_state ∧ slot_val nd k = [].
Proof.
  intros nd. unfold slot_st, slot_val, bit_at. cbn [nd bitmap slots new_merkle_node]. by rewrite !nth_replicate.
Qed.

(** The first node of a subtree. *)
Lemma insert_fresh tab x b l :
  length b = (4 * l)%nat → (l < 40)%nat → valid_id x → has_prefix b x → no_nodes tab b →
  let nd := MerkleNode l b 1 (bitmap new_merkle_node) (slots new_merkle_node) ty in
  let tab' := <[key b l := leaf_put (slot_at x l) x nd]> tab in
  node_wf nd ∧ repr tab' b l {[x]} ∧ local tab tab' b.
Proof.
  intros Hb Hl Hx Hbx Hno nd tab'. pose proof (slot_at_lt x l) as Hk. set (k := slot_at x l) in *.
  assert (node_wf nd) as Hw.
  { split; cbn; [unfold prefix_length_in_bits, merkle_fanout_bits; lia|unfold merkle_num_tree_levels; cbn; lia|done|done]. }
  split_and!; [done| |by apply update_local]. apply repr_slots. split_and!; [done|done| |].
  { by intros y ->%elem_of_singleton. }
  eexists. split_and!; [apply lookup_insert_eq| |].
  - split; [by apply put_val_wf, put_state_wf|done|done|done|]. unfold leaf_put.
    rewrite used_count_val, used_count_put by done. rewrite decide_True; [done|].
    apply new_slots_empty.
  - intros j Hj. destruct (leaf_put_slots k x nd j Hw Hk) as [-> ->].
    assert (no_nodes tab' (b ++ nibble j)) by (eapply no_nodes_agree; [by apply update_agree|by apply no_nodes_slot]).
    assert (∀ y, y ∈ under {[x]} (b ++ nibble j) ↔ y = x ∧ j = k) as Hu.
    { intros y. rewrite elem_of_under, elem_of_singleton. split.
      - intros [Hp ->]. split; [done|]. by apply (has_prefix_slot x b l) in Hp as [_ ?].
      - intros [-> ->]. split; [|done]. by apply (has_prefix_slot x b l). }
    case_decide as E.
    + split; [|done]. apply set_eq. intros y. rewrite Hu, elem_of_singleton. naive_solver.
    + assert (slot_st nd j = empty_state ∧ slot_val nd j = []) as [-> ->] by apply new_slots_empty. cbn. split_and!; [|done|done]. apply set_eq. intros y. rewrite Hu. set_solver.
Qed.

Lemma update_at_ok tab b l nd nd' f :
  tab !! key b l = Some nd → f nd = Ok nd' → update_at (key b l) f tab = Ok (<[key b l := nd']> tab).
Proof. intros Hn Hf. unfold update_at. rewrite Hn. cbn [of_option mbind result_bind]. by rewrite Hf. Qed.

(** Turning slot [k] into a subtree, once the items are below it. *)
Lemma insert_subtree tab tab1 x b l T nd :
  repr tab b l T → tab !! key b l = Some nd → valid_id x → has_prefix b x →
  let k := slot_at x l in
  slot_st nd k ≠ empty_state → local tab tab1 (b ++ nibble k) →
  (2 ≤ size ({[x]} ∪ under T (b ++ nibble k)))%nat →
  repr tab1 (b ++ nibble k) (S l) ({[x]} ∪ under T (b ++ nibble k)) →
  ∃ tab', update_at (key b l) (λ node, node ← set_raw_slot node k []; set_slot_state node k subtree_state) tab1 = Ok tab' ∧
    repr tab' b l ({[x]} ∪ T) ∧ local tab tab' b.
Proof.
  intros Hr Hn Hx Hbx k Hs Hloc Hsz Hsub. pose proof (slot_at_lt x l) as Hk. fold k in Hk.
  pose proof Hr as (Hb & Hl & _ & nd0 & Hn0 & Hat & _)%repr_slots. assert (nd0 = nd) as -> by congruence.
  eexists. split; [apply (update_at_ok _ _ _ nd)|].
  - by rewrite <- (local_self _ _ _ _ _ Hb Hloc).
  - apply subtree_put_ok; [apply Hat|done].
  - apply (repr_update tab tab1 b l T x nd); [done|done|done|done|done|by apply subtree_put_at| |].
    + intros j Hj Hne. destruct (subtree_put_slots k nd j) as [-> ->]; [apply Hat|done|]. by rewrite !decide_False.
    + fold k. destruct (subtree_put_slots k nd k) as [-> ->]; [apply Hat|done|]. rewrite !decide_True by done.
      split_and!; [done|by left|done].
Qed.

Lemma insert_ok fuel tab x b l T :
  (40 ≤ l + fuel)%nat → length b = (4 * l)%nat → (l < 40)%nat → valid_id x → has_prefix b x →
  repr tab b l T ∨ no_nodes tab b ∧ T = ∅ →
  ∃ tab', insert_into_merkle_tree fuel tab ty x l = Ok tab' ∧ repr tab' b l ({[x]} ∪ T) ∧ local tab tab' b.
Proof.
  revert tab x b l T. induction fuel as [|fuel IH]; intros tab x b l T Hf Hb Hl Hx Hbx HT; [lia|].
  cbn [insert_into_merkle_tree]. rewrite Hx, Nat.eqb_refl.
  rewrite (proj2 (Nat.leb_le _ _)) by (unfold merkle_fanout_bits, merkle_hash_length_in_bits; cbn; lia).
  cbn [I_ mbind result_bind]. rewrite pick_slot_ok by done. cbn [mbind result_bind].
  rewrite <- Hb, (has_prefix_take x b Hbx). change (bitset_to_prefix b, l) with (key b l).
  pose proof (slot_at_lt x l) as Hk. set (k := slot_at x l) in *.
  destruct HT as [Hr|[Hno ->]].
  2:{ assert (tab !! key b l = None) as ->.
      { specialize (Hno [] l). rewrite app_nil_r in Hno. apply Hno. cbn. lia. }
      rewrite union_empty_r_L.
      destruct (insert_fresh tab x b l) as (Hw & Hr & Hloc); [done..|].
      set (nd := MerkleNode _ _ _ _ _ _) in *. pose proof (leaf_put_ok k x nd Hw Hk) as E.
      apply bind_Ok_inv in E as (nd1 & -> & E). cbn [mbind result_bind]. rewrite E. cbn [mbind result_bind]. eauto. }
  pose proof Hr as (_ & _ & HTv & nd & Hn & Hat & Hs)%repr_slots. rewrite Hn. pose proof (na_wf _ _ _ Hat) as Hw.
  rewrite get_slot_state_ok by done. cbn [mbind result_bind]. specialize (Hs k Hk).
  destruct (slot_st nd k) eqn:Hst; cbn [slot_ok] in Hs.
  - destruct Hs as (HU & Hv & Hno). eexists. split; [apply (update_at_ok _ _ _ nd); [done|]|].
    { apply leaf_put_ok; [by apply with_leaves_wf|done]. }
    apply (repr_update tab tab b l T x nd); [done..|by apply leaf_put_at| |].
    + intros j Hj Hne. destruct (leaf_put_slots k x (with_leaves (u64 (total_num_leaves nd + 1)) nd) j) as [-> ->];
        [by apply with_leaves_wf|done|]. by rewrite !decide_False.
    + fold k. destruct (leaf_put_slots k x (with_leaves (u64 (total_num_leaves nd + 1)) nd) k) as [-> ->];
        [by apply with_leaves_wf|done|]. rewrite !decide_True by done. split; [|done]. rewrite HU. apply union_empty_r_L.
  - destruct Hs as [HU Hno]. rewrite get_raw_slot_ok by (done || by rewrite Hst). cbn [mbind result_bind].
    set (v := slot_val nd k) in *. assert (v ∈ under T (b ++ nibble k)) as [Hpv HvT]%elem_of_under by (rewrite HU; set_solver).
    destruct (HTv v HvT) as [Hvv Hbv]. case_bool_decide as Hvx.
    { exists tab. split; [done|]. split; [|done]. replace ({[x]} ∪ T) with T by (rewrite <- Hvx; set_solver). done. }
    assert (has_prefix (b ++ nibble k) x) as Hpx by (by apply (has_prefix_slot x b l)).
    assert (S l < 40)%nat as Hl'.
    { destruct (decide (S l = 40)%nat) as [E|]; [|lia]. exfalso. apply Hvx.
      apply (same_prefix_40 _ _ (b ++ nibble k)); [done|done| |done|done]. rewrite (length_slot b l) by done. lia. }
    destruct (IH tab v (b ++ nibble k) (S l) ∅) as (tab1 & -> & Hr1 & Hloc1);
      [lia|by apply length_slot|done|done|done|by right|]. cbn [mbind result_bind].
    destruct (IH tab1 x (b ++ nibble k) (S l) ({[v]} ∪ ∅)) as (tab2 & -> & Hr2 & Hloc2);
      [lia|by apply length_slot|done|done|done|by left|]. cbn [mbind result_bind].
    rewrite union_empty_r_L in Hr2. apply (insert_subtree tab tab2 x b l T nd); [done..|by fold k; rewrite Hst| | |].
    + by eapply local_trans.
    + fold k. rewrite HU. rewrite size_union, !size_singleton by set_solver. done.
    + fold k. by rewrite HU.
  - destruct Hs as (Hsz & _ & Hsub). pose proof Hsub as (_ & Hl' & _)%repr_slots.
    destruct (IH tab x (b ++ nibble k) (S l) (under T (b ++ nibble k))) as (tab1 & -> & Hr1 & Hloc1);
      [lia|by apply length_slot|done|done|by apply (has_prefix_slot x b l)|by left|]. cbn [mbind result_bind].
    apply (insert_subtree tab tab1 x b l T nd); [done..|by fold k; rewrite Hst|done| |done].
    fold k. etrans; [exact Hsz|]. apply subseteq_size. set_solver.
Qed.

(** ** Finding the representation of a prefix *)

Lemma nibble_surj (c : list bool) : length c = 4%nat → ∃ k, (k < 16)%nat ∧ c = nibble k.
Proof.
  destruct c as [|b0 [|b1 [|b2 [|b3 [|]]]]]; intros [=].
  exists (Nat.b2n b0 + 2 * Nat.b2n b1 + 4 * Nat.b2n b2 + 8 * Nat.b2n b3)%nat.
  destruct b0, b1, b2, b3; cbn; (split; [lia|done]).
Qed.

Lemma under_under T b c : under (under T b) (b ++ c) = under T (b ++ c).
Proof.
  apply set_eq. intros x. rewrite !elem_of_under. split; [tauto|]. intros [Hp Hx]. split_and!; [done| |done].
  unfold has_prefix in *. rewrite length_app in Hp. apply (f_equal (take (length b))) in Hp.
  rewrite take_take, Nat.min_l, take_app_length in Hp by lia. done.
Qed.

Lemma under_all tab b l T : repr tab b l T → under T b = T.
Proof. intros (_ & _ & HT & _)%repr_slots. apply set_eq. intros x. rewrite elem_of_under. naive_solver. Qed.

(** Every node of the table stands for the items with its prefix. *)
Lemma repr_below tab b l T c l' nd :
  repr tab b l T → length (b ++ c) = (4 * l')%nat → tab !! key (b ++ c) l' = Some nd → repr tab (b ++ c) l' (under T (b ++ c)).
Proof.
  intros Hr. revert c l'. induction Hr as [b l T nd0 Hb Hl HT Hn Hat He Hlf Hsub Hr IH]; intros c l' Hc Hnd.
  destruct (decide (c = [])) as [->|Hne].
  { rewrite app_nil_r in *. assert (l' = l) as -> by lia.
    assert (repr tab b l T) as Hr0 by exact (repr_node tab b l T nd0 Hb Hl HT Hn Hat He Hlf Hsub Hr). by rewrite (under_all _ _ _ _ Hr0). }
  rewrite length_app in Hc. destruct c as [|c0 c0']; [done|]. set (c := c0 :: c0') in *.
  assert (4 ≤ length c)%nat as Hc4 by (cbn in *; lia).
  destruct (nibble_surj (take 4 c)) as (k & Hk & Ek); [rewrite length_take; lia|].
  assert (c = nibble k ++ drop 4 c) as Ec by (by rewrite <- Ek, take_drop).
  rewrite Ec, app_assoc in *. destruct (slot_st nd0 k) eqn:Hst.
  - destruct (He k Hk Hst) as (_ & _ & Hno). rewrite Hno in Hnd; [done|]. rewrite !length_app in *. lia.
  - destruct (Hlf k Hk Hst) as (_ & Hno). rewrite Hno in Hnd; [done|]. rewrite !length_app in *. lia.
  - rewrite <- under_under with (b := b ++ nibble k). apply (IH k Hk Hst); [|done]. rewrite !length_app in *. lia.
Qed.

(** ** Collection *)

Lemma collect_ok fuel tab b l T items :
  (40 ≤ l + fuel)%nat → repr tab b l T →
  collect_items_in_subtree fuel tab (to_block_range b) l items = Ok (T ∪ items).
Proof.
  revert b l T items. induction fuel as [|fuel IH]; intros b l T items Hf Hr.
  { apply repr_slots in Hr as (_ & Hl & _). lia. }
  pose proof Hr as (Hb & Hl & HT & nd & Hn & Hat & Hs)%repr_slots. cbn [collect_items_in_subtree].
  change (to_block_range b, l) with (key b l). rewrite Hn. pose proof (na_wf _ _ _ Hat) as Hw.
  match goal with |- foldM ?f _ _ = _ =>
    destruct (foldM_ok (λ l1 its, ∀ y, y ∈ its ↔ y ∈ items ∨ y ∈ T ∧ (slot_at y l < length l1)%nat) f
      (seq 0 merkle_num_slots) items) as (its & E & Hits) end.
  - intros y. cbn. naive_solver lia.
  - intros l1 k l2 its [-> Hk]%seq_split Hits. set (k := length l1) in *. rewrite length_app. fold k. cbn [length].
    assert (∀ y, y ∈ T ∧ (slot_at y l < k + 1)%nat ↔ y ∈ T ∧ (slot_at y l < k)%nat ∨ y ∈ under T (b ++ nibble k)) as Hstep.
    { intros y. rewrite elem_of_under. split.
      - intros [Hy Hlt]. destruct (decide (slot_at y l = k)) as [E|E]; [right|left; split; [done|lia]].
        split; [|done]. apply (has_prefix_slot y b l); [done..|]. split; [by apply HT|done].
      - intros [[? ?]|[Hp Hy]]; [split; [done|lia]|]. split; [done|].
        apply (has_prefix_slot y b l) in Hp as [_ ?]; [lia|done..]. }
    rewrite get_slot_state_ok by done. cbn [mbind result_bind]. specialize (Hs k Hk).
    destruct (slot_st nd k) eqn:Hst; cbn [slot_ok] in Hs.
    + exists its. split; [done|]. intros y. rewrite Hits, Hstep. destruct Hs as [-> _]. set_solver.
    + rewrite get_raw_slot_ok by (done || by rewrite Hst). eexists. split; [done|]. intros y.
      rewrite elem_of_union, Hits, Hstep. destruct Hs as [-> _]. rewrite elem_of_singleton. tauto.
    + unfold extended_raw_prefix. rewrite extended_prefix_ok by done. cbn [mbind result_bind].
      destruct Hs as (_ & _ & Hsub). rewrite (na_pref _ _ _ Hat). unfold bitset_to_prefix.
      rewrite (IH _ _ (under T (b ++ nibble k))) by (done || lia). eexists. split; [done|]. intros y.
      rewrite elem_of_union, Hits, Hstep. tauto.
  - rewrite E. f_equal. apply set_eq. intros y. rewrite Hits, elem_of_union, length_seq. pose proof (slot_at_lt y l).
    unfold merkle_num_slots. naive_solver.
Qed.

(** ** Search *)

(** [nd] is the node of the table that holds [x] as a leaf. *)
Definition holds_leaf (tab : merkle_table) (x : bytes) (k : nat) (nd : merkle_node) (c : list bool) (l : nat) : Prop :=
  tab !! key c l = Some nd ∧ length c = (4 * l)%nat ∧ has_prefix c x ∧ k = slot_at x l ∧
  slot_st nd k = leaf_state ∧ slot_val nd k = x.

Lemma locate_loop_ok n tab b l T x :
  repr tab b l T → (n + l = 40)%nat → valid_id x → has_prefix b x →
  if decide (x ∈ T) then ∃ k nd c l', locate_loop n l tab x = Ok (Some (k, nd)) ∧ holds_leaf tab x k nd c l' ∧ (l ≤ l')%nat
  else locate_loop n l tab x = Ok None.
Proof.
  intros Hr. revert n. induction Hr as [b l T nd Hb Hl HT Hn Hat He Hlf Hsub Hr IH]; intros n Hnl Hx Hbx.
  destruct n as [|n]; [lia|]. cbn [locate_loop]. rewrite pick_slot_ok by done. cbn [mbind result_bind].
  rewrite <- Hb, (has_prefix_take x b Hbx). change (bitset_to_prefix b, l) with (key b l). rewrite Hn.
  pose proof (slot_at_lt x l) as Hk. set (k := slot_at x l) in *. pose proof (na_wf _ _ _ Hat) as Hw.
  rewrite get_slot_state_ok by done. cbn [mbind result_bind].
  assert (has_prefix (b ++ nibble k) x) as Hpx by (by apply (has_prefix_slot x b l)).
  assert (x ∈ T ↔ x ∈ under T (b ++ nibble k)) as HxT by (rewrite elem_of_under; tauto).
  destruct (slot_st nd k) eqn:Hst.
  - destruct (He k Hk Hst) as (HU & _). rewrite decide_False; [done|]. rewrite HxT, HU. set_solver.
  - destruct (Hlf k Hk Hst) as (HU & _). rewrite get_raw_slot_ok by (done || by rewrite Hst). cbn [mbind result_bind].
    rewrite HU, elem_of_singleton in HxT. case_bool_decide as Hv.
    + rewrite decide_True by (by apply HxT). exists k, nd, b, l. split; [done|]. split; [by split_and!|done].
    + rewrite decide_False; [done|]. rewrite HxT. congruence.
  - specialize (IH k Hk Hst n ltac:(lia) Hx Hpx). destruct (decide (x ∈ T)) as [Hin|Hin].
    + rewrite decide_True in IH by (by apply HxT). destruct IH as (k' & nd' & c & l' & -> & Hh & Hle).
      exists k', nd', c, l'. split_and!; [done|done|lia].
    + rewrite decide_False in IH by (by rewrite <- HxT). done.
Qed.

(** ** Hashes *)

Context (Hty : 0 ≤ item_code ty < 256 ∧ item_of_code (item_code ty) = ty).

(** A node all of whose subtree slots carry a hash can be sent. *)
Lemma repr_sendable tab b l T nd :
  repr tab b l T → tab !! key b l = Some nd →
  (∀ k, (k < 16)%nat → slot_st nd k = subtree_state → length (slot_val nd k) = merkle_hash_length_in_bytes) →
  sendable nd.
Proof.
  intros (Hb & Hl & HT & nd0 & Hn & Hat & Hs)%repr_slots Hn' Hh. assert (nd0 = nd) as -> by congruence.
  pose proof (used_count_range nd). split; [apply Hat| | | | |].
  - rewrite (na_level _ _ _ Hat). exact Hl.
  - rewrite (na_count _ _ _ Hat). lia.
  - by rewrite (na_type _ _ _ Hat).
  - intros k Hk Hst. specialize (Hs k Hk). destruct (slot_st nd k) eqn:E; [done| |by apply Hh].
    destruct Hs as [HU _]. assert (slot_val nd k ∈ under T (b ++ nibble k)) as [_ Hin]%elem_of_under by (rewrite HU; set_solver).
    by apply HT.
  - intros k Hk Hst. specialize (Hs k Hk). rewrite Hst in Hs. apply Hs.
Qed.

Lemma hashed_length tab b l h : hashed tab b l h → length h = merkle_hash_length_in_bytes.
Proof. destruct 1. apply sha1_length. Qed.

Lemma hash_merkle_node_ok nd : sendable nd → hash_merkle_node nd = Ok (raw_sha1 (node_body nd)).
Proof.
  intros Hs. unfold hash_merkle_node. rewrite write_node_ok by done. cbn [mbind result_bind].
  rewrite (proj2 (Nat.leb_le _ _)) by (rewrite length_app, sha1_length; lia). cbn [I_ mbind result_bind].
  rewrite take_app_length' by (symmetry; apply sha1_length). unfold verify_id. destruct (decide _); [done|].
  by rewrite bool_decide_true by apply sha1_length.
Qed.

Lemma put_val_at k v nd b l : node_at nd b l → node_at (put_val k v nd) b l.
Proof. intros [Hw Hp Hl Ht Hc]. split; [by apply put_val_wf|done..]. Qed.

(** The state of [recalculate_merkle_codes] after the slots before [n]. *)
Definition recalculating (tab tab' : merkle_table) (b : list bool) (l : nat) (T : gset bytes) (n : nat) : Prop :=
  repr tab' b l T ∧ local tab tab' b ∧
  ∃ nd, tab' !! key b l = Some nd ∧
    ∀ k, (k < n)%nat → (k < 16)%nat → slot_st nd k = subtree_state → hashed tab' (b ++ nibble k) (S l) (slot_val nd k).

(** Filling in the hash of one slot. *)
Lemma recalculating_put tab tab0 tab1 b l T n h nd :
  recalculating tab tab0 b l T n → (n < 16)%nat → tab0 !! key b l = Some nd → slot_st nd n = subtree_state →
  repr tab1 (b ++ nibble n) (S l) (under T (b ++ nibble n)) → hashed tab1 (b ++ nibble n) (S l) h →
  local tab0 tab1 (b ++ nibble n) →
  recalculating tab (<[key b l := put_val n h nd]> tab1) b l T (S n).
Proof.
  intros (Hr & Hloc & nd0 & Hn0 & Hh0) Hn Hnd Hst Hr1 Hh1 Hloc1. assert (nd0 = nd) as -> by congruence.
  pose proof Hr as (Hb & Hl & HT & nd0 & Hn1 & Hat & Hs)%repr_slots. assert (nd0 = nd) as -> by congruence.
  pose proof (na_wf _ _ _ Hat) as Hw. specialize (Hs n Hn) as Hsn. rewrite Hst in Hsn. destruct Hsn as (Hsz & _ & _).
  destruct (repr_change tab0 tab1 b l T T n nd (put_val n h nd)) as [Hr' Hloc'];
    [done|done|done|done|done|by apply put_val_at| | |].
  - intros j Hj Hne. rewrite put_val_st, put_val_val, decide_False by done. done.
  - rewrite put_val_st, put_val_val, decide_True, Hst by done. split_and!; [done|by right|done].
  - split_and!; [done|by eapply local_trans|]. eexists. split; [apply lookup_insert_eq|].
    intros k Hkn Hk Hstk. rewrite put_val_st in Hstk. rewrite put_val_val by done.
    eapply hashed_agree; [|by apply length_slot|by apply update_agree]. case_decide as E; [by subst|].
    eapply hashed_agree; [by apply Hh0; [lia|..]|by apply length_slot|by apply (local_other_slot _ _ _ n)].
Qed.

Lemma recalculate_ok fuel tab b l T :
  (40 ≤ l + fuel)%nat → repr tab b l T →
  ∃ tab' h, recalculate_merkle_codes fuel tab (to_block_range b) l = Ok (tab', h) ∧
    repr tab' b l T ∧ hashed tab' b l h ∧ local tab tab' b.
Proof.
  revert tab b l T. induction fuel as [|fuel IH]; intros tab b l T Hf Hr0.
  { apply repr_slots in Hr0 as (_ & Hl & _). lia. }
  pose proof Hr0 as (Hb & Hl & HT & ndr & Hnr & _)%repr_slots. cbn [recalculate_merkle_codes].
  change (to_block_range b, l) with (key b l). rewrite Hnr. cbn [of_option mbind result_bind].
  match goal with |- context [foldM ?f _ _] =>
    destruct (foldM_ok (λ l1 tab', recalculating tab tab' b l T (length l1)) f (seq 0 merkle_num_slots) tab)
      as (tab' & E & Hr & Hloc & nd & Hn & Hh) end.
  - split_and!; [done|done|]. exists ndr. split; [done|]. intros k Hk. cbn in Hk. lia.
  - intros l1 n l2 tab0 [-> Hk]%seq_split Hrec. set (n := length l1) in *. rewrite length_app, Nat.add_1_r. fold n.
    pose proof Hrec as (Hr & Hloc & nd & Hn & Hh). pose proof Hr as (_ & _ & _ & nd0 & Hn0 & Hat & Hs)%repr_slots.
    assert (nd0 = nd) as -> by congruence. pose proof (na_wf _ _ _ Hat) as Hw. rewrite Hn. cbn [of_option mbind result_bind].
    rewrite get_slot_state_ok by done. cbn [mbind result_bind]. specialize (Hs n Hk).
    assert ((slot_st nd n = subtree_state → hashed tab0 (b ++ nibble n) (S l) (slot_val nd n)) →
      recalculating tab tab0 b l T (S n)) as Hskip.
    { intros Hhn. split_and!; [done|done|]. exists nd. split; [done|]. intros k Hkn Hk16 Hst.
      destruct (decide (k = n)) as [->|]; [by apply Hhn|apply Hh; [lia|done|done]]. }
    destruct (slot_st nd n) eqn:Hst; [by exists tab0; split; [|apply Hskip]..|].
    rewrite get_raw_slot_ok by (done || by rewrite Hst). cbn [mbind result_bind]. destruct Hs as (Hsz & Hv & Hsub).
    case_bool_decide as Hnil.
    + unfold extended_raw_prefix. rewrite extended_prefix_ok by done. cbn [mbind result_bind].
      rewrite (na_pref _ _ _ Hat). unfold bitset_to_prefix.
      destruct (IH tab0 (b ++ nibble n) (S l) (under T (b ++ nibble n))) as (tab1 & h & -> & Hr1 & Hh1 & Hloc1); [lia|done|].
      cbn [mbind result_bind]. rewrite <- (local_self _ _ _ _ _ Hb Hloc1), Hn. cbn [of_option mbind result_bind].
      rewrite set_raw_slot_ok by done. cbn [mbind result_bind]. eexists. split; [done|].
      by eapply recalculating_put.
    + exists tab0. split; [done|]. apply Hskip. intros _. by destruct Hv.
  - rewrite E. cbn [mbind result_bind]. rewrite Hn. cbn [of_option mbind result_bind]. rewrite length_seq in Hh.
    unfold merkle_num_slots in Hh. rewrite hash_merkle_node_ok.
    + cbn [mbind result_bind]. eexists _, _. split_and!; [done|done| |done]. constructor; [done|]. intros k Hk. by apply Hh.
    + eapply repr_sendable; [done|done|]. intros k Hk Hst. eapply hashed_length, Hh; done.
Qed.
End trie.
