(* ===== verification/Refiner.v ===== *)
(** * Refinement

    Translation of refiner.cc: one side of the exchange in which two peers
    find out which items each of them lacks.  A refiner is a record; the
    commands it hands to its callbacks are collected in a list, in the order
    of the calls. *)

From S2P Require Import Prelude Numbers Netio MerkleTree.

Inductive refinement_type := refinement_query | refinement_response.
Inductive protocol_voice := server_voice | client_voice.

#[export] Instance refinement_type_eq_dec : EqDecision refinement_type.
Proof. solve_decision. Defined.
#[export] Instance protocol_voice_eq_dec : EqDecision protocol_voice.
Proof. solve_decision. Defined.

(** The calls of [refiner_callbacks]. *)
Inductive callback :=
  | queue_refine_cmd (ty : refinement_type) (our_node : merkle_node)
  | queue_done_cmd (ty : netcmd_item_type) (n_items : Z).

Record refiner := Refiner {
  rtype : netcmd_item_type;
  voice : protocol_voice;
  sent_initial_query : bool;
  queries_in_flight : Z;
  calculated_items_to_send : bool;
  local_items : gset bytes;
  peer_items : gset bytes;
  table : merkle_table;
  done : bool;
  items_to_send : gset bytes;
  items_to_receive : Z;
  min_items_to_receive : Z;
  may_receive_more_than_min : bool
}.

Definition with_in_flight (q : Z) (r : refiner) : refiner :=
  let '(Refiner t v s _ c li pi tb d its itr mi ma) := r in Refiner t v s q c li pi tb d its itr mi ma.
Definition with_peer_items (p : gset bytes) (r : refiner) : refiner :=
  let '(Refiner t v s q c li _ tb d its itr mi ma) := r in Refiner t v s q c li p tb d its itr mi ma.
Definition with_table (tb : merkle_table) (r : refiner) : refiner :=
  let '(Refiner t v s q c li pi _ d its itr mi ma) := r in Refiner t v s q c li pi tb d its itr mi ma.
Definition with_min (n : Z) (more : bool) (r : refiner) : refiner :=
  let '(Refiner t v s q c li pi tb d its itr mi ma) := r in
  Refiner t v s q c li pi tb d its itr (u64 (mi + n)) (ma || more).

(** The number of queries in flight is that of messages held in memory and
    does not reach 2^64. *)
Definition more_in_flight (r : refiner) : refiner := with_in_flight (queries_in_flight r + 1) r.

Section refiner.
Context {ML : merkle_lib}.

(** [refiner::refiner] *)
Definition new_refiner (ty : netcmd_item_type) (v : protocol_voice) : refiner :=
  let root := MerkleNode 0 [] 0 (bitmap new_merkle_node) (slots new_merkle_node) ty in
  Refiner ty v false 0 false ∅ ∅ {[([], 0%nat) := root]} false ∅ 0 0 false.

Definition note_local_item (r : refiner) (item : bytes) : result refiner :=
  let '(Refiner t v s q c li pi tb d its itr mi ma) := r in
  tb ← insert_into_merkle_tree merkle_num_tree_levels tb t item 0;
  Ok (Refiner t v s q c ({[item]} ∪ li) pi tb d its itr mi ma).

Definition reindex_local_items (r : refiner) : result refiner :=
  '(tb, _) ← recalculate_merkle_codes merkle_num_tree_levels (table r) [] 0;
  Ok (with_table tb r).

Definition load_merkle_node (r : refiner) (lev : nat) (p : bytes) : result merkle_node :=
  of_option (table r !! (p, lev)).

Definition merkle_node_exists (r : refiner) (lev : nat) (p : bytes) : bool :=
  bool_decide (is_Some (table r !! (p, lev))).

Definition calculate_items_to_send (r : refiner) : result refiner :=
  let '(Refiner t v s q c li pi tb d its itr mi ma) := r in
  if c then Ok r
  else
    _ ← netcmd_item_type_to_string t;
    Ok (Refiner t v s q true li pi tb d (li ∖ pi) 0 mi ma).

Definition send_subquery (st : refiner * list callback) (our_node : merkle_node) (slot : nat) :
    result (refiner * list callback) :=
  let '(r, cb) := st in
  subprefix ← extended_raw_prefix our_node slot;
  our_subtree ← load_merkle_node r (level our_node + 1) subprefix;
  Ok (more_in_flight r, cb ++ [queue_refine_cmd refinement_query our_subtree]).

Definition send_synthetic_subquery (st : refiner * list callback) (our_node : merkle_node) (slot : nat) :
    result (refiner * list callback) :=
  let '(r, cb) := st in
  val ← get_raw_slot our_node slot;
  '(subslot, subprefix) ← pick_slot_and_prefix_for_value val (level our_node + 1);
  synth_node ← set_raw_slot
    (MerkleNode (level our_node + 1) subprefix 0 (bitmap new_merkle_node) (slots new_merkle_node) (type our_node))
    subslot val;
  our_state ← get_slot_state our_node slot;
  synth_node ← set_slot_state synth_node subslot our_state;
  Ok (more_in_flight r, cb ++ [queue_refine_cmd refinement_query synth_node]).

Definition note_subtree_shared_with_peer (r : refiner) (our_node : merkle_node) (slot : nat) : result refiner :=
  p ← extended_raw_prefix our_node slot;
  items ← collect_items_in_subtree merkle_num_tree_levels (table r) p (level our_node + 1) (peer_items r);
  Ok (with_peer_items items r).

Definition note_item_in_peer (r : refiner) (their_node : merkle_node) (slot : nat) : result refiner :=
  I_ (slot <? merkle_num_slots)%nat ;;
  slotval ← get_raw_slot their_node slot;
  Ok (with_peer_items ({[slotval]} ∪ peer_items r) r).

Definition begin_refinement (r : refiner) : result (refiner * list callback) :=
  root ← load_merkle_node r 0 [];
  let '(Refiner t v _ q c li pi tb d its itr mi ma) := r in
  _ ← netcmd_item_type_to_string t;
  Ok (Refiner t v true (q + 1) c li pi tb d its itr mi ma, [queue_refine_cmd refinement_query root]).

Definition process_done_command (r : refiner) (n_items : Z) : result (refiner * list callback) :=
  _ ← netcmd_item_type_to_string (rtype r);
  r ← calculate_items_to_send r;
  let '(Refiner t v s q c li pi tb _ its _ mi ma) := r in
  Ok (Refiner t v s q c li pi ∅ true its n_items mi ma,
      match v with server_voice => [queue_done_cmd t (Z.of_nat (size its))] | client_voice => [] end).

(** One slot of the comparison: a leaf of theirs. *)
Definition process_their_leaf (ty : refinement_type) (their_node our_node : merkle_node)
    (st : refiner * list callback) (slot : nat) : result (refiner * list callback) :=
  let '(r, cb) := st in
  r ← note_item_in_peer r their_node slot;
  our_state ← get_slot_state our_node slot;
  match our_state with
  | empty_state => Ok (with_min 1 false r, cb)
  | leaf_state =>
      their_slotval ← get_raw_slot their_node slot;
      our_slotval ← get_raw_slot our_node slot;
      Ok (if bool_decide (our_slotval = their_slotval) then r else with_min 1 false r, cb)
  | subtree_state =>
      match ty with
      | refinement_query =>
          their_slotval ← get_raw_slot their_node slot;
          found ← locate_item (table r) their_slotval;
          match found with
          | Some (_, mp) => Ok (more_in_flight r, cb ++ [queue_refine_cmd refinement_query mp])
          | None => Ok (r, cb)
          end
      | refinement_response => Ok (r, cb)
      end
  end.

(** One slot of the comparison: a subtree of theirs. *)
Definition process_their_subtree (ty : refinement_type) (their_node our_node : merkle_node)
    (st : refiner * list callback) (slot : nat) : result (refiner * list callback) :=
  let '(r, cb) := st in
  our_state ← get_slot_state our_node slot;
  match our_state with
  | empty_state => Ok (with_min 2 true r, cb)
  | leaf_state =>
      match ty with
      | refinement_query => send_synthetic_subquery (r, cb) our_node slot
      | refinement_response => Ok (r, cb)
      end
  | subtree_state =>
      their_slotval ← get_raw_slot their_node slot;
      our_slotval ← get_raw_slot our_node slot;
      if bool_decide (their_slotval = our_slotval) then
        r ← note_subtree_shared_with_peer r our_node slot; Ok (r, cb)
      else
        match ty with
        | refinement_query => send_subquery (r, cb) our_node slot
        | refinement_response => Ok (r, cb)
        end
  end.

Definition process_slot (ty : refinement_type) (their_node our_node : merkle_node)
    (st : refiner * list callback) (slot : nat) : result (refiner * list callback) :=
  their_state ← get_slot_state their_node slot;
  match their_state with
  | empty_state => Ok st
  | leaf_state => process_their_leaf ty their_node our_node st slot
  | subtree_state => process_their_subtree ty their_node our_node st slot
  end.

(** Our node to compare with: an empty one if there is none. *)
Definition our_node_for (r : refiner) (their_node : merkle_node) (p : bytes) : result merkle_node :=
  if merkle_node_exists r (level their_node) p then load_merkle_node r (level their_node) p
  else Ok (MerkleNode (level their_node) (pref their_node) 0 (bitmap new_merkle_node) (slots new_merkle_node)
             (type their_node)).

Definition process_refinement_command (r : refiner) (ty : refinement_type) (their_node : merkle_node) :
    result (refiner * list callback) :=
  p ← get_raw_prefix their_node;
  _ ← netcmd_item_type_to_string (type their_node);
  our_node ← our_node_for r their_node p;
  '(r, cb) ← foldM (process_slot ty their_node our_node) (seq 0 merkle_num_slots) (r, []);
  match ty with
  | refinement_response =>
      E_ (0 <? queries_in_flight r) network ;;
      let r := with_in_flight (queries_in_flight r - 1) r in
      if bool_decide (voice r = client_voice) && (queries_in_flight r =? 0) then
        _ ← netcmd_item_type_to_string (type their_node);
        r ← calculate_items_to_send r;
        Ok (r, cb ++ [queue_done_cmd (rtype r) (Z.of_nat (size (items_to_send r)))])
      else Ok (r, cb)
  | refinement_query => Ok (r, cb ++ [queue_refine_cmd refinement_response our_node])
  end.
End refiner.
