(* ===== verification/RefinerIndex.v ===== *)
(** * The index of a refiner

    What the table of a refiner says of its items once they are indexed: the
    trie of the set, with the hash of every node in its parent; equal hashes
    mean equal items as long as the nodes at hand do not collide. *)

From S2P Require Import Prelude Numbers Hex Netio MerkleTree MerkleIo MerkleTrie Refiner.

(** One of the item types that have a name. *)
Definition known_type (ty : netcmd_item_type) : Prop :=
  match ty with item_of_byte _ => False | _ => True end.

Lemma known_type_code ty : known_type ty → 0 ≤ item_code ty < 256 ∧ item_of_code (item_code ty) = ty.
Proof. by destruct ty. Qed.

Lemma known_type_string ty : known_type ty → ∃ s, netcmd_item_type_to_string ty = Ok s.
Proof. destruct ty; intros []; by eexists. Qed.

Section index.
Context {ML : merkle_lib} {MLL : merkle_lib_laws ML} (ty : netcmd_item_type) (Hty : known_type ty).

(** The table indexes the items [T]. *)
Definition indexed (tab : merkle_table) (T : gset bytes) : Prop :=
  repr ty tab [] 0 T ∧ ∃ h, hashed tab [] 0 h.

(** A node of the table. *)
Definition real (tab : merkle_table) (nd : merkle_node) : Prop :=
  tab !! key (pref nd) (level nd) = Some nd ∧ length (pref nd) = (4 * level nd)%nat.

Lemma hashed_inv tab b l h nd :
  hashed tab b l h → tab !! key b l = Some nd →
  h = raw_sha1 (node_body nd) ∧
  ∀ k, (k < 16)%nat → slot_st nd k = subtree_state → hashed tab (b ++ nibble k) (S l) (slot_val nd k).
Proof. destruct 1 as [b l nd' Hn Hs]. intros Hn'. assert (nd' = nd) as -> by congruence. done. Qed.

Lemma hashed_below tab b l T h c l' nd :
  repr ty tab b l T → hashed tab b l h → length (b ++ c) = (4 * l')%nat → tab !! key (b ++ c) l' = Some nd →
  hashed tab (b ++ c) l' (raw_sha1 (node_body nd)).
Proof.
  intros Hr. revert h c l'. induction Hr as [b l T nd0 Hb Hl HT Hn Hat He Hlf Hsub Hr IH]; intros h c l' Hh Hc Hnd.
  destruct (hashed_inv _ _ _ _ _ Hh Hn) as [-> Hhk]. destruct c as [|c0 c0'].
  { rewrite app_nil_r in *. assert (l' = l) as -> by lia. assert (nd0 = nd) as -> by congruence. done. }
  set (c := c0 :: c0') in *. rewrite length_app in Hc. assert (4 ≤ length c)%nat as Hc4 by (cbn in *; lia).
  destruct (nibble_surj (take 4 c)) as (k & Hk & Ek); [rewrite length_take; lia|].
  assert (c = nibble k ++ drop 4 c) as Ec by (by rewrite <- Ek, take_drop).
  rewrite Ec, app_assoc in *. destruct (slot_st nd0 k) eqn:Hst.
  - destruct (He k Hk Hst) as (_ & _ & Hno). rewrite Hno in Hnd; [done|]. rewrite !length_app in *. lia.
  - destruct (Hlf k Hk Hst) as (_ & Hno). rewrite Hno in Hnd; [done|]. rewrite !length_app in *. lia.
  - apply (IH k Hk Hst (slot_val nd0 k)); [by apply Hhk| |done]. rewrite !length_app in *. lia.
Qed.

(** What the table says at a prefix where it has a node. *)
Record indexed_node (tab : merkle_table) (T : gset bytes) (c : list bool) (l : nat) (nd : merkle_node) : Prop := {
  in_repr : repr ty tab c l (under T c);
  in_at : node_at ty nd c l;
  in_sendable : sendable nd;
  in_hashed : hashed tab c l (raw_sha1 (node_body nd));
  in_len : length c = (4 * l)%nat;
  in_level : (l < 40)%nat
}.

Lemma indexed_at tab T c l nd :
  indexed tab T → length c = (4 * l)%nat → tab !! key c l = Some nd → indexed_node tab T c l nd.
Proof.
  intros [Hr [h Hh]] Hc Hn. pose proof (repr_below _ _ _ _ _ c l nd Hr Hc Hn) as Hrc.
  pose proof (hashed_below _ _ _ _ _ c l nd Hr Hh Hc Hn) as Hhc. cbn [app] in *.
  pose proof Hrc as (_ & Hl & _ & nd0 & Hn0 & Hat & _)%repr_slots. assert (nd0 = nd) as -> by congruence.
  split; [done|done| |done|done|done]. eapply repr_sendable; [by apply known_type_code|done|done|].
  intros k Hk Hst. destruct (hashed_inv _ _ _ _ _ Hhc Hn) as [_ Hhk]. by eapply hashed_length, Hhk.
Qed.

Lemma indexed_real tab T c l nd : indexed_node tab T c l nd → tab !! key c l = Some nd → real tab nd.
Proof.
  intros [_ Hat _ _ Hc _] Hn. unfold real. rewrite (na_pref _ _ _ _ Hat), (na_level _ _ _ _ Hat). done.
Qed.

(** The slot of an item in a node that stands for it. *)
Lemma indexed_slot tab T c l nd k :
  indexed_node tab T c l nd → tab !! key c l = Some nd → (k < 16)%nat →
  match slot_st nd k with
  | empty_state => under T (c ++ nibble k) = ∅
  | leaf_state => under T (c ++ nibble k) = {[slot_val nd k]}
  | subtree_state => (2 ≤ size (under T (c ++ nibble k)))%nat ∧
      ∃ nd', tab !! key (c ++ nibble k) (S l) = Some nd' ∧ slot_val nd k = raw_sha1 (node_body nd')
  end.
Proof.
  intros [Hr _ _ Hh Hc Hl] Hn Hk. apply repr_slots in Hr as (_ & _ & _ & nd0 & Hn0 & _ & Hs).
  assert (nd0 = nd) as -> by congruence. specialize (Hs k Hk). rewrite under_under in Hs.
  destruct (slot_st nd k) eqn:Hst; [by apply Hs|by apply Hs|].
  destruct (hashed_inv _ _ _ _ _ Hh Hn) as [_ Hhk]. specialize (Hhk k Hk Hst). inversion Hhk as [? ? nd' Hn' _ E1 E2 E3].
  split; [by apply Hs|by exists nd'].
Qed.

(** An item is in its slot. *)
Lemma indexed_item tab T c l nd x :
  indexed_node tab T c l nd → tab !! key c l = Some nd → x ∈ T → has_prefix c x →
  slot_st nd (slot_at x l) = leaf_state ∧ slot_val nd (slot_at x l) = x ∨ slot_st nd (slot_at x l) = subtree_state.
Proof.
  intros Hi Hn Hx Hp. pose proof (indexed_slot _ _ _ _ _ _ Hi Hn (slot_at_lt x l)) as Hs.
  assert (x ∈ under T (c ++ nibble (slot_at x l))) as Hu.
  { apply elem_of_under. split; [|done]. apply (has_prefix_slot x c l); [apply Hi|apply Hi|apply slot_at_lt|done]. }
  destruct (slot_st nd (slot_at x l)); [rewrite Hs in Hu; set_solver|left|by right].
  rewrite Hs, elem_of_singleton in Hu. done.
Qed.

(** ** Equal hashes *)

Lemma uleb128_length m v : len (insert_uleb128_loop m v) ≤ Z.of_nat m.
Proof.
  revert v. induction m as [|m IH]; intros v; [done|]. cbn [insert_uleb128_loop].
  destruct (_ =? 0); rewrite len_cons; [rewrite len_nil; lia|]. specialize (IH (Z.shiftr v 7)). lia.
Qed.

Lemma used_vals_length nd k : sendable nd → (k ≤ 16)%nat → len (used_vals nd k) ≤ 20 * (16 - Z.of_nat k).
Proof.
  intros Hs Hk. remember (16 - k)%nat as n eqn:Hn. revert k Hk Hn. induction n as [|n IH]; intros k Hk Hn.
  - assert (k = 16)%nat as -> by lia. done.
  - rewrite used_vals_step, len_app by lia. specialize (IH (S k) ltac:(lia) ltac:(lia)).
    assert (len (slot_val nd k) ≤ 20); [|lia]. unfold len. destruct (decide (slot_st nd k = empty_state)) as [E|E].
    + rewrite (se_unused _ Hs) by (lia || done). cbn. lia.
    + rewrite (se_used _ Hs) by (lia || done). done.
Qed.

Lemma node_body_length nd : sendable nd → len (raw_sha1 (node_body nd) ++ node_body nd) < 1000.
Proof.
  intros Hs. pose proof (se_wf _ Hs) as Hw. pose proof (used_vals_length nd 0 Hs ltac:(lia)).
  assert (len (raw_sha1 (node_body nd)) = 20) by (unfold len; by rewrite sha1_length).
  assert (len (to_block_range (bitmap nd)) = 4) by (unfold len; by rewrite blocks_length, (nw_bitmap _ Hw)).
  assert (len (to_block_range (pref nd)) ≤ 21).
  { unfold len. rewrite prefix_bytes by done. pose proof (se_level _ Hs) as Hl. unfold merkle_num_tree_levels in Hl. cbn in Hl.
    revert Hl. generalize (level nd). intros lv Hl. do 40 (destruct lv as [|lv]; [by vm_compute|]). lia. }
  pose proof (uleb128_length 10 (Z.of_nat (level nd))). pose proof (uleb128_length 10 (total_num_leaves nd)).
  rewrite len_app. unfold node_body at 2. rewrite !len_app. unfold insert_datum_uleb128.
  change (max_uleb128_bytes size_t_bytes) with 10%nat. change (len [_]) with 1. lia.
Qed.

(** The text of a node determines it. *)
Lemma node_body_inj nd1 nd2 : sendable nd1 → sendable nd2 → node_body nd1 = node_body nd2 → nd1 = nd2.
Proof.
  intros H1 H2 E.
  assert (∀ nd, sendable nd → unread (raw_sha1 (node_body nd) ++ node_body nd ++ []) 0 (raw_sha1 (node_body nd) ++ node_body nd ++ [])) as U.
  { intros nd Hs. apply unread_start. rewrite app_nil_r. pose proof (node_body_length nd Hs). lia. }
  destruct (read_node_ok nd1 _ 0 [] H1 (U nd1 H1)) as [E1 _]. destruct (read_node_ok nd2 _ 0 [] H2 (U nd2 H2)) as [E2 _].
  rewrite E in E1. congruence.
Qed.

(** No two different nodes, one of each table, have the same hash. *)
Definition no_collision (tab tab' : merkle_table) : Prop :=
  ∀ k k' nd nd', tab !! k = Some nd → tab' !! k' = Some nd' →
    raw_sha1 (node_body nd) = raw_sha1 (node_body nd') → node_body nd = node_body nd'.

Lemma same_hash tab tab' T T' b l nd nd' :
  indexed tab T → indexed tab' T' → no_collision tab tab' → length b = (4 * l)%nat →
  tab !! key b l = Some nd → tab' !! key b l = Some nd' → raw_sha1 (node_body nd) = raw_sha1 (node_body nd') →
  under T b = under T' b.
Proof.
  intros Hi Hi' Hnc. remember (40 - l)%nat as n eqn:Hn. revert b l nd nd' Hn.
  induction n as [|n IH]; intros b l nd nd' Hnl Hb Hnd Hnd' Hh;
    pose proof (indexed_at _ _ _ _ _ Hi Hb Hnd) as In; pose proof (in_level _ _ _ _ _ In) as Hl; [lia|].
  pose proof (indexed_at _ _ _ _ _ Hi' Hb Hnd') as In'.
  assert (nd = nd') as <-.
  { apply node_body_inj; [apply In|apply In'|]. by eapply Hnc. }
  assert (∀ k, (k < 16)%nat → under T (b ++ nibble k) = under T' (b ++ nibble k)) as Hk.
  { intros k Hk. pose proof (indexed_slot _ _ _ _ _ _ In Hnd Hk) as Hs.
    pose proof (indexed_slot _ _ _ _ _ _ In' Hnd' Hk) as Hs'. destruct (slot_st nd k); [congruence|congruence|].
    destruct Hs as (_ & m & Hm & E), Hs' as (_ & m' & Hm' & E').
    apply (IH (b ++ nibble k) (S l) m m'); [lia|by apply length_slot|done|done|congruence]. }
  apply set_eq. intros x. pose proof (slot_at_lt x l) as Hx. specialize (Hk _ Hx).
  assert (∀ U, x ∈ under U b ↔ x ∈ under U (b ++ nibble (slot_at x l))) as Hu; [|by rewrite !Hu, Hk].
  intros U. rewrite !elem_of_under, (has_prefix_slot x b l) by done. naive_solver.
Qed.

(** ** Building the index *)

Lemma new_refiner_repr v : repr ty (table (new_refiner ty v)) [] 0 ∅.
Proof.
  assert (to_block_range [] = []) as E.
  { apply nil_length_inv. rewrite blocks_length. done. }
  apply repr_slots. split_and!; [done|lia|set_solver|]. eexists. split_and!.
  - unfold key. rewrite E. cbn. apply lookup_singleton_eq.
  - split; [|done..]. split; done || (cbn; lia).
  - intros k Hk. match goal with |- slot_ok _ _ _ _ _ (slot_st ?nd _) _ _ =>
      assert (slot_st nd k = empty_state ∧ slot_val nd k = []) as [-> ->] by apply new_slots_empty end.
    split_and!; [set_solver|done|]. intros c l Hc. cbn. apply lookup_singleton_ne. unfold key. intros [= _ <-].
    rewrite length_app, nibble_length in Hc. lia.
Qed.

Lemma note_local_items_ok items r T :
  repr ty (table r) [] 0 T → local_items r = T → rtype r = ty → Forall valid_id items →
  ∃ r', foldM note_local_item items r = Ok r' ∧ repr ty (table r') [] 0 (list_to_set items ∪ T) ∧
    local_items r' = list_to_set items ∪ T ∧ rtype r' = ty ∧ voice r' = voice r ∧
    queries_in_flight r' = queries_in_flight r ∧ calculated_items_to_send r' = calculated_items_to_send r ∧
    peer_items r' = peer_items r ∧ done r' = done r.
Proof.
  intros Hr Hl Ht Hv. revert r T Hr Hl Ht. induction Hv as [|x items Hx Hv IH]; intros r T Hr Hl Ht; cbn [foldM].
  { exists r. rewrite list_to_set_nil, union_empty_l_L. done. }
  destruct r as [t v s q c li pi tb d its itr mi ma]. cbn in Hr, Hl, Ht. subst t li. cbn [note_local_item].
  destruct (insert_ok ty merkle_num_tree_levels tb x [] 0 T) as (tb' & -> & Hr' & _);
    [done|done|lia|done|done|by left|]. cbn [mbind result_bind].
  destruct (IH (Refiner ty v s q c ({[x]} ∪ T) pi tb' d its itr mi ma) ({[x]} ∪ T)) as (r' & -> & Hr2 & Hl2 & H3); [done..|].
  exists r'. assert (list_to_set items ∪ ({[x]} ∪ T) = list_to_set (x :: items) ∪ T) as <- by set_solver.
  split_and!; [done|done|done|apply H3..].
Qed.

Lemma reindex_ok r T :
  repr ty (table r) [] 0 T →
  ∃ tb, reindex_local_items r = Ok (with_table tb r) ∧ indexed tb T.
Proof.
  intros Hr. assert (to_block_range [] = []) as E by (apply nil_length_inv; by rewrite blocks_length).
  unfold reindex_local_items. rewrite <- E.
  destruct (recalculate_ok ty (known_type_code ty Hty) merkle_num_tree_levels (table r) [] 0 T) as (tb & h & -> & Hr' & Hh & _); [done|done|].
  exists tb. split; [done|]. split; [done|by exists h].
Qed.
End index.
