(* ===== verification/RefinerStep.v ===== *)
(** * One refinement command

    What a refiner does with a node of its peer: which items it learns that
    the peer has, and which queries it sends. *)

From S2P Require Import Prelude Numbers Hex Netio MerkleTree MerkleIo MerkleTrie Refiner RefinerIndex.

Section step.
Context {ML : merkle_lib} {MLL : merkle_lib_laws ML} (ty : netcmd_item_type) (Hty : known_type ty).

(** A node shows an item when it has it as a leaf. *)
Definition shows (nd : merkle_node) (x : bytes) : Prop :=
  has_prefix (pref nd) x ∧ slot_st nd (slot_at x (level nd)) = leaf_state ∧ slot_val nd (slot_at x (level nd)) = x.

(** The nodes that a peer with the table [tab] of the items [T] sends: nodes of
    its table, or nodes made up of leaves. *)
Record sent_by (tab : merkle_table) (T : gset bytes) (nd : merkle_node) : Prop := {
  sb_sendable : sendable nd;
  sb_type : type nd = ty;
  sb_real : real tab nd ∨ ∀ k, (k < 16)%nat → slot_st nd k ≠ subtree_state;
  sb_leaf k : (k < 16)%nat → slot_st nd k = leaf_state → slot_val nd k ∈ T ∧ has_prefix (pref nd ++ nibble k) (slot_val nd k)
}.

Lemma sent_by_real tab T c l nd :
  indexed ty tab T → length c = (4 * l)%nat → tab !! key c l = Some nd → sent_by tab T nd ∧ pref nd = c ∧ level nd = l.
Proof.
  intros Hi Hc Hn. pose proof (indexed_at ty Hty _ _ _ _ _ Hi Hc Hn) as In. pose proof (in_at _ _ _ _ _ _ In) as Hat.
  split; [|split; apply Hat]. split; [apply In|apply Hat|left; by eapply indexed_real|].
  intros k Hk Hst. pose proof (indexed_slot _ _ _ _ _ _ _ In Hn Hk) as Hs. rewrite Hst in Hs.
  assert (slot_val nd k ∈ under T (c ++ nibble k)) as [? ?]%elem_of_under by (rewrite Hs; set_solver).
  by rewrite (na_pref _ _ _ _ Hat).
Qed.

Lemma sent_len tab T nd : sent_by tab T nd → length (pref nd) = (4 * level nd)%nat ∧ (level nd < 40)%nat.
Proof.
  intros Hs. split; [|apply (sb_sendable _ _ _ Hs)]. rewrite (nw_pref _ (se_wf _ (sb_sendable _ _ _ Hs))).
  unfold prefix_length_in_bits, merkle_fanout_bits. lia.
Qed.

(** A leaf is shown. *)
Lemma leaf_shows tab T nd k :
  sent_by tab T nd → (k < 16)%nat → slot_st nd k = leaf_state → shows nd (slot_val nd k) ∧ slot_at (slot_val nd k) (level nd) = k.
Proof.
  intros Hs Hk Hst. destruct (sb_leaf _ _ _ Hs k Hk Hst) as [_ Hp]. destruct (sent_len _ _ _ Hs) as [Hc Hl].
  apply (has_prefix_slot _ _ (level nd)) in Hp as [Hp Hk']; [|done..]. unfold shows. rewrite <- Hk'. done.
Qed.

(** A node made up of one leaf, or of none. *)
Lemma made_up_ok l b n (o : option (nat * bytes)) T :
  length b = (4 * l)%nat → (l < 40)%nat → 0 ≤ n < 2 ^ 31 →
  match o with Some (k, x) => (k < 16)%nat ∧ valid_id x ∧ x ∈ T ∧ has_prefix (b ++ nibble k) x | None => True end →
  let nd0 := MerkleNode l b n (bitmap new_merkle_node) (slots new_merkle_node) ty in
  let nd := match o with Some (k, x) => put_state k leaf_state (put_val k x nd0) | None => nd0 end in
  node_wf nd0 ∧ ∀ tab, sent_by tab T nd.
Proof.
  intros Hb Hl Hn Ho nd0 nd. assert (node_wf nd0) as Hw.
  { split; cbn; [unfold prefix_length_in_bits, merkle_fanout_bits; lia|unfold merkle_num_tree_levels; cbn; lia|done|done]. }
  split; [done|]. intros tab.
  assert (node_wf nd ∧ level nd = l ∧ pref nd = b ∧ type nd = ty ∧ total_num_leaves nd = n) as (Hwf & El & Ep & Et & En).
  { destruct o as [[k x]|]; [|done]. split; [|done]. by apply put_state_wf, put_val_wf. }
  assert (∀ j, (j < 16)%nat → slot_st nd j = empty_state ∧ slot_val nd j = [] ∨
    slot_st nd j = leaf_state ∧ ∃ k x, o = Some (k, x) ∧ slot_val nd j = x ∧ j = k) as Hj.
  { intros j Hj. pose proof (new_slots_empty ty l b n j) as [Hst Hv]. destruct o as [[k x]|]; [|by left].
    destruct Ho as (Hk & _). unfold nd. rewrite put_state_st, put_state_val, put_val_val, put_val_st by (done || by apply put_val_wf).
    case_decide; [right; split; [done|by exists k, x]|by left]. }
  assert (∀ j, (j < 16)%nat → slot_st nd j ≠ subtree_state) as Hns.
  { intros j Hj16. destruct (Hj j Hj16) as [[-> _]|[-> _]]; done. }
  split; [split| | |].
  - done.
  - rewrite El. exact Hl.
  - by rewrite En.
  - rewrite Et. by apply known_type_code.
  - intros j Hj16 Hst. destruct (Hj j Hj16) as [[? _]|(_ & k & x & -> & -> & ->)]; [done|]. by destruct Ho as (_ & ? & _).
  - intros j Hj16 Hst. destruct (Hj j Hj16) as [[_ ?]|[E _]]; [done|congruence].
  - done.
  - by right.
  - intros j Hj16 Hst. destruct (Hj j Hj16) as [[E _]|(_ & k & x & -> & -> & ->)]; [congruence|]. rewrite Ep.
    destruct Ho as (_ & _ & ? & ?). done.
Qed.

(** ** One slot *)

(** The fields that the comparison of nodes leaves alone. *)
Definition frame (r r' : refiner) : Prop :=
  rtype r' = rtype r ∧ voice r' = voice r ∧ calculated_items_to_send r' = calculated_items_to_send r ∧
  local_items r' = local_items r ∧ table r' = table r ∧ done r' = done r ∧ items_to_send r' = items_to_send r ∧
  items_to_receive r' = items_to_receive r.

Lemma frame_refl r : frame r r.
Proof. by split_and!. Qed.

Lemma frame_trans r1 r2 r3 : frame r1 r2 → frame r2 r3 → frame r1 r3.
Proof. unfold frame. intros. destruct_and!. split_and!; congruence. Qed.

Definition queries (qs : list merkle_node) : list callback := queue_refine_cmd refinement_query <$> qs.

Context (tab tab' : merkle_table) (T T' : gset bytes)
  (Hi : indexed ty tab T) (Hi' : indexed ty tab' T') (Hnc : no_collision tab' tab).

(** [our] is our node where [their] stands: the node of our table if there is one. *)
Record counterpart (their our : merkle_node) : Prop := {
  cp_pref : pref our = pref their;
  cp_level : level our = level their;
  cp_sent : sent_by tab T our;
  cp_real nd : tab !! key (pref their) (level their) = Some nd → our = nd
}.

(** What the comparison of slot [k] does: [qs] are the queries sent. *)
Record slot_step (rt : refinement_type) (their our : merkle_node) (k : nat) (r r' : refiner) (qs : list merkle_node) : Prop := {
  ss_frame : frame r r';
  ss_flight : queries_in_flight r' = queries_in_flight r + Z.of_nat (length qs);
  ss_grows : peer_items r ⊆ peer_items r';
  ss_safe : peer_items r' ⊆ peer_items r ∪ T';
  ss_leaf : slot_st their k = leaf_state → slot_val their k ∈ peer_items r';
  ss_shared : slot_st their k = subtree_state → slot_st our k = subtree_state → slot_val their k = slot_val our k →
    under T (pref their ++ nibble k) ⊆ peer_items r';
  ss_few : (length qs ≤ 1)%nat;
  ss_sent nd : nd ∈ qs → sent_by tab T nd ∧ (level their < level nd)%nat;
  ss_response : rt = refinement_response → qs = [];
  ss_locate : rt = refinement_query → slot_st their k = leaf_state → slot_st our k = subtree_state →
    slot_val their k ∈ T → ∃ nd, nd ∈ qs ∧ shows nd (slot_val their k);
  ss_synthetic : rt = refinement_query → slot_st their k = subtree_state → slot_st our k = leaf_state →
    ∃ nd, nd ∈ qs ∧ shows nd (slot_val our k) ∧ pref nd = pref their ++ nibble k ∧ level nd = S (level their);
  ss_sub : rt = refinement_query → slot_st their k = subtree_state → slot_st our k = subtree_state →
    slot_val their k ≠ slot_val our k →
    ∃ nd, nd ∈ qs ∧ real tab nd ∧ pref nd = pref their ++ nibble k ∧ level nd = S (level their)
}.

(** A slot where no query is sent. *)
Lemma slot_step_quiet rt their our k r r' :
  frame r r' → queries_in_flight r' = queries_in_flight r → peer_items r ⊆ peer_items r' → peer_items r' ⊆ peer_items r ∪ T' →
  (slot_st their k = leaf_state → slot_val their k ∈ peer_items r') →
  (slot_st their k = subtree_state → slot_st our k = subtree_state → slot_val their k = slot_val our k →
    under T (pref their ++ nibble k) ⊆ peer_items r') →
  (rt = refinement_query → slot_st their k = leaf_state → slot_st our k = subtree_state → slot_val their k ∉ T) →
  (rt = refinement_query → slot_st their k = subtree_state → slot_st our k = empty_state ∨
     slot_st our k = subtree_state ∧ slot_val their k = slot_val our k) →
  slot_step rt their our k r r' [].
Proof.
  intros Hf Hq Hg Hs Hl Hsh Hloc Hsub. split; [done|cbn; lia|done|done|done|done|cbn; lia|by intros ? ?%not_elem_of_nil|done| | |].
  - intros Hrt Ht Ho Hin. by destruct (Hloc Hrt Ht Ho).
  - intros Hrt Ht Ho. destruct (Hsub Hrt Ht) as [?|[? _]]; congruence.
  - intros Hrt Ht Ho Hne. destruct (Hsub Hrt Ht) as [?|[_ ?]]; congruence.
Qed.

(** A slot where one query is sent. *)
Lemma slot_step_query their our k r r' nd :
  frame r r' → queries_in_flight r' = queries_in_flight r → peer_items r ⊆ peer_items r' → peer_items r' ⊆ peer_items r ∪ T' →
  (slot_st their k = leaf_state → slot_val their k ∈ peer_items r') →
  sent_by tab T nd → (level their < level nd)%nat →
  (slot_st their k = leaf_state → slot_st our k = subtree_state → shows nd (slot_val their k)) →
  (slot_st their k = subtree_state → slot_st our k = leaf_state →
    shows nd (slot_val our k) ∧ pref nd = pref their ++ nibble k ∧ level nd = S (level their)) →
  (slot_st their k = subtree_state → slot_st our k = subtree_state →
    slot_val their k ≠ slot_val our k ∧ real tab nd ∧ pref nd = pref their ++ nibble k ∧ level nd = S (level their)) →
  slot_step refinement_query their our k r (more_in_flight r') [nd].
Proof.
  intros Hf Hq Hg Hs Hl Hnd Hlev H1 H2 H3. destruct r' as [t v s q c li pi tb d its itr mi ma]. cbn in Hq, Hg, Hs, Hl.
  split; cbn.
  - destruct Hf as (? & ? & ? & ? & ? & ? & ? & ?). by split_and!.
  - lia.
  - done.
  - done.
  - done.
  - intros Ht Ho E. by destruct (H3 Ht Ho).
  - done.
  - by intros nd' ->%list_elem_of_singleton.
  - done.
  - intros _ Ht Ho _. exists nd. split; [by left|by apply H1].
  - intros _ Ht Ho. exists nd. split; [by left|by apply H2].
  - intros _ Ht Ho _. exists nd. split; [by left|by apply H3].
Qed.

Lemma indexed_valid (tb : merkle_table) U x : indexed ty tb U → x ∈ U → valid_id x.
Proof. intros [(_ & _ & HU & _)%repr_slots _] Hx. by apply HU. Qed.

(** A node with a subtree slot is a node of the sender's table, and so is the
    root of that subtree. *)
Lemma sent_subtree (tb : merkle_table) U nd k :
  indexed ty tb U → sent_by tb U nd → (k < 16)%nat → slot_st nd k = subtree_state →
  real tb nd ∧ (S (level nd) < 40)%nat ∧ (2 ≤ size (under U (pref nd ++ nibble k)))%nat ∧
  ∃ m, tb !! key (pref nd ++ nibble k) (S (level nd)) = Some m ∧ slot_val nd k = raw_sha1 (node_body m).
Proof.
  intros Hx Hs Hk Hst. destruct (sb_real _ _ _ Hs) as [Hr|Hn]; [|by destruct (Hn k Hk)]. split; [done|].
  destruct Hr as [Hn Hc]. pose proof (indexed_at ty Hty _ _ _ _ _ Hx Hc Hn) as In.
  pose proof (indexed_slot _ _ _ _ _ _ _ In Hn Hk) as Hsl. rewrite Hst in Hsl. destruct Hsl as (Hsz & m & Hm & Hv).
  pose proof (indexed_at ty Hty _ _ _ _ _ Hx (length_slot _ _ k Hc) Hm) as In'.
  split_and!; [apply In'|done|by exists m].
Qed.

(** An item found below a subtree slot is found deeper than that slot. *)
Lemma located_deeper our x k nd c l :
  sent_by tab T our → holds_leaf tab x k nd c l → has_prefix (pref our) x →
  slot_st our (slot_at x (level our)) = subtree_state → (level our < l)%nat.
Proof.
  intros Hs (Hn & Hc & Hp & -> & Hst & Hv) Hpo Hso. destruct (decide (level our < l)%nat) as [|Hge]; [done|exfalso].
  destruct (sent_subtree tab T our _ Hi Hs (slot_at_lt x _) Hso) as (_ & _ & Hsz & _).
  pose proof (indexed_at ty Hty _ _ _ _ _ Hi Hc Hn) as In. pose proof (in_level _ _ _ _ _ _ In) as Hl.
  pose proof (indexed_slot _ _ _ _ _ _ _ In Hn (slot_at_lt x l)) as Hsl. rewrite Hst, Hv in Hsl.
  destruct (sent_len _ _ _ Hs) as [Hb Hlo].
  assert (under T (pref our ++ nibble (slot_at x (level our))) ⊆ {[x]}) as Hsub%subseteq_size.
  2:{ rewrite size_singleton in Hsub. lia. }
  rewrite <- Hsl. intros y. rewrite !elem_of_under. intros [Hy ?]. split; [|done].
  unfold has_prefix in Hp, Hpo. rewrite Hc in Hp. rewrite Hb in Hpo. rewrite <- Hp, <- slot_at_nibble by lia.
  rewrite <- Hpo, <- slot_at_nibble in Hy by lia. unfold has_prefix in *. rewrite !length_take, bits_length in *.
  unfold merkle_hash_length_in_bits, merkle_hash_length_in_bytes in *. rewrite !Nat.min_l in * by lia.
  apply (f_equal (take (4 * S l))) in Hy. rewrite !take_take, !Nat.min_l in Hy by lia. done.
Qed.

Lemma note_item_ok r their k :
  sent_by tab' T' their → (k < 16)%nat → slot_st their k = leaf_state →
  note_item_in_peer r their k = Ok (with_peer_items ({[slot_val their k]} ∪ peer_items r) r).
Proof.
  intros Hs Hk Hst. unfold note_item_in_peer. rewrite (proj2 (Nat.ltb_lt _ _)) by done. cbn [I_ mbind result_bind].
  rewrite get_raw_slot_ok; [done|apply Hs|done|by rewrite Hst].
Qed.

Lemma process_their_leaf_ok rt their our k r cb :
  sent_by tab' T' their → counterpart their our → table r = tab → (k < 16)%nat → slot_st their k = leaf_state →
  ∃ r' qs, process_their_leaf rt their our (r, cb) k = Ok (r', cb ++ queries qs) ∧ slot_step rt their our k r r' qs.
Proof.
  intros Hs Hc Htb Hk Hst. pose proof (se_wf _ (sb_sendable _ _ _ Hs)) as Hw.
  pose proof (se_wf _ (sb_sendable _ _ _ (cp_sent _ _ Hc))) as Hwo.
  destruct (sb_leaf _ _ _ Hs k Hk Hst) as [Hin Hp]. set (x := slot_val their k) in *.
  unfold process_their_leaf. rewrite note_item_ok, get_slot_state_ok by done. fold x. cbn [mbind result_bind].
  set (r1 := with_peer_items _ r).
  assert (frame r r1 ∧ queries_in_flight r1 = queries_in_flight r ∧ peer_items r1 = {[x]} ∪ peer_items r ∧ table r1 = tab) as (Hf & Hq & Hpi & Htb1).
  { unfold r1. destruct r. by split_and!. }
  assert (∀ r2, frame r1 r2 → queries_in_flight r2 = queries_in_flight r1 → peer_items r2 = peer_items r1 →
    (rt = refinement_query → slot_st our k = subtree_state → x ∉ T) → slot_step rt their our k r r2 []) as Hquiet.
  { intros r2 Hf2 Hq2 Hp2 Hx. apply slot_step_quiet.
    - by eapply frame_trans.
    - congruence.
    - set_solver.
    - set_solver.
    - intros _. set_solver.
    - intros; congruence.
    - intros Hrt _ Ho. by apply Hx.
    - intros _ ?. congruence. }
  assert (∀ n b, frame r1 (with_min n b r1) ∧ queries_in_flight (with_min n b r1) = queries_in_flight r1 ∧
    peer_items (with_min n b r1) = peer_items r1) as Hmin by (intros; unfold r1; by destruct r).
  destruct (slot_st our k) eqn:Ho.
  - eexists _, []. rewrite app_nil_r. split; [done|]. apply Hquiet; [apply Hmin|apply Hmin|apply Hmin|done].
  - rewrite !get_raw_slot_ok by (done || congruence). cbn [mbind result_bind].
    eexists _, []. rewrite app_nil_r. split; [done|].
    destruct (bool_decide _); (apply Hquiet; [apply Hmin || apply frame_refl|apply Hmin || done|apply Hmin || done|done]).
  - destruct rt; [|eexists _, []; rewrite app_nil_r; split; [done|by apply Hquiet; [apply frame_refl|..]]].
    rewrite get_raw_slot_ok by (done || congruence). cbn [mbind result_bind]. fold x.
    pose proof (locate_loop_ok ty merkle_num_tree_levels tab [] 0 T x (proj1 Hi) eq_refl (indexed_valid _ _ _ Hi' Hin) eq_refl) as Hloc.
    unfold locate_item. rewrite Htb1. destruct (decide (x ∈ T)) as [HxT|HxT].
    2:{ rewrite Hloc. cbn [mbind result_bind]. eexists _, []. rewrite app_nil_r. split; [done|]. by apply Hquiet; [apply frame_refl|..]. }
    destruct Hloc as (k' & nd & c & l & -> & Hh & _). cbn [mbind result_bind]. eexists _, [nd]. split; [done|].
    pose proof Hh as (Hn & Hlc & Hpc & Hk' & Hsn & Hvn).
    destruct (sent_by_real tab T c l nd Hi Hlc Hn) as (Hsent & Epn & Eln).
    destruct (sent_len _ _ _ Hs) as [Hlt Hlt40].
    apply (has_prefix_slot _ _ (level their)) in Hp as [Hp Ek]; [|done..].
    assert (level their < level nd)%nat as Hlev.
    { rewrite <- (cp_level _ _ Hc), Eln. eapply located_deeper; [apply Hc|exact Hh| |].
      - by rewrite (cp_pref _ _ Hc).
      - by rewrite (cp_level _ _ Hc), <- Ek. }
    apply slot_step_query; [done|done|set_solver|set_solver|set_solver|done|done| |congruence|congruence].
    intros _ _. fold x. unfold shows. rewrite Epn, Eln, <- Hk'. done.
Qed.

(** The synthetic node sent for a leaf of ours below which they have more. *)
Lemma send_synthetic_ok r cb our k :
  sent_by tab T our → (k < 16)%nat → slot_st our k = leaf_state → (S (level our) < 40)%nat →
  ∃ nd, send_synthetic_subquery (r, cb) our k = Ok (more_in_flight r, cb ++ queries [nd]) ∧
    sent_by tab T nd ∧ shows nd (slot_val our k) ∧ pref nd = pref our ++ nibble k ∧ level nd = S (level our).
Proof.
  intros Hs Hk Hst Hl. pose proof (se_wf _ (sb_sendable _ _ _ Hs)) as Hw. destruct (sent_len _ _ _ Hs) as [Hb _].
  destruct (sb_leaf _ _ _ Hs k Hk Hst) as [HxT Hp]. set (x := slot_val our k) in *.
  pose proof (indexed_valid _ _ _ Hi HxT) as Hx. unfold send_synthetic_subquery.
  rewrite get_raw_slot_ok by (done || by rewrite Hst). cbn [mbind result_bind]. fold x. rewrite Nat.add_1_r, pick_slot_ok by done.
  cbn [mbind result_bind]. pose proof (slot_at_lt x (S (level our))) as Hk'. set (k' := slot_at x (S (level our))) in *.
  unfold has_prefix in Hp. rewrite (length_slot _ _ _ Hb) in Hp. rewrite Hp, (sb_type _ _ _ Hs).
  assert (has_prefix (pref our ++ nibble k) x) as Hp'.
  { unfold has_prefix. by rewrite (length_slot _ _ _ Hb). }
  destruct (made_up_ok (S (level our)) (pref our ++ nibble k) 0 (Some (k', x)) T) as [Hw0 Hsent]; [by apply length_slot|done|lia| |].
  { split_and!; [done|done|done|]. by apply (has_prefix_slot x (pref our ++ nibble k) (S (level our))); [by apply length_slot|..]. }
  rewrite set_raw_slot_ok by done. cbn [mbind result_bind]. rewrite get_slot_state_ok, Hst by done. cbn [mbind result_bind].
  rewrite set_slot_state_ok by (done || by apply put_val_wf). cbn [mbind result_bind].
  eexists. split; [done|]. split_and!; [apply Hsent| |done|done]. split; [done|]. cbn [level put_state with_bitmap put_val with_slots].
  rewrite put_state_st, decide_True by (done || by apply put_val_wf). split; [done|].
  by rewrite put_state_val, put_val_val, decide_True.
Qed.

Lemma process_their_subtree_ok rt their our k r cb :
  sent_by tab' T' their → counterpart their our → table r = tab → (k < 16)%nat → slot_st their k = subtree_state →
  ∃ r' qs, process_their_subtree rt their our (r, cb) k = Ok (r', cb ++ queries qs) ∧ slot_step rt their our k r r' qs.
Proof.
  intros Hs Hc Htb Hk Hst. pose proof (se_wf _ (sb_sendable _ _ _ Hs)) as Hw.
  pose proof (cp_sent _ _ Hc) as Hso. pose proof (se_wf _ (sb_sendable _ _ _ Hso)) as Hwo.
  destruct (sent_subtree tab' T' their k Hi' Hs Hk Hst) as (Hreal & Hl & _ & m' & Hm' & Hv').
  destruct (sent_len _ _ _ Hs) as [Hlt _]. unfold process_their_subtree. rewrite get_slot_state_ok by done. cbn [mbind result_bind].
  destruct (slot_st our k) eqn:Ho.
  - eexists _, []. rewrite app_nil_r. split; [done|].
    apply slot_step_quiet; [by destruct r|by destruct r|by destruct r|by destruct r; set_solver|congruence|congruence|congruence|by left].
  - destruct rt.
    + destruct (send_synthetic_ok r cb our k) as (nd & -> & Hsent & Hsh & Ep & El); [done|done|done|by rewrite (cp_level _ _ Hc)|].
      rewrite (cp_pref _ _ Hc) in Ep. rewrite (cp_level _ _ Hc) in El. eexists _, [nd]. split; [done|].
      apply slot_step_query; [apply frame_refl|done|done|set_solver|congruence|done|lia|congruence|done|congruence].
    + eexists _, []. rewrite app_nil_r. split; [done|].
      apply slot_step_quiet; [apply frame_refl|done|done|set_solver|congruence|congruence|done|done].
  - destruct (sent_subtree tab T our k Hi Hso Hk Ho) as (_ & _ & _ & m & Hm & Hv).
    rewrite (cp_pref _ _ Hc), (cp_level _ _ Hc) in Hm.
    pose proof (indexed_at ty Hty _ _ _ _ _ Hi (length_slot _ _ k Hlt) Hm) as In.
    rewrite !get_raw_slot_ok by (done || congruence). cbn [mbind result_bind]. case_bool_decide as Heq.
    + unfold note_subtree_shared_with_peer, extended_raw_prefix. rewrite extended_prefix_ok by done. cbn [mbind result_bind].
      unfold bitset_to_prefix. rewrite Htb, (cp_pref _ _ Hc), (cp_level _ _ Hc), Nat.add_1_r.
      rewrite (collect_ok ty merkle_num_tree_levels _ _ _ _ _ ltac:(cbn; lia) (in_repr _ _ _ _ _ _ In)). cbn [mbind result_bind].
      assert (under T (pref their ++ nibble k) = under T' (pref their ++ nibble k)) as HU.
      { symmetry. apply (same_hash ty Hty tab' tab T' T _ (S (level their)) m' m); [done|done|done|by apply length_slot|done|done|congruence]. }
      eexists _, []. rewrite app_nil_r. split; [done|]. apply slot_step_quiet.
      * by destruct r.
      * by destruct r.
      * destruct r. cbn. set_solver.
      * destruct r as [t v s q c li pi tb d its itr mi ma]. cbn [peer_items with_peer_items]. rewrite HU. intros y. rewrite !elem_of_union, elem_of_under. tauto.
      * congruence.
      * intros _ _ _. destruct r as [t v s q c li pi tb d its itr mi ma]. cbn [peer_items with_peer_items]. set_solver.
      * congruence.
      * intros _ _. by right.
    + destruct rt.
      * unfold send_subquery, extended_raw_prefix. rewrite extended_prefix_ok by done. cbn [mbind result_bind].
        unfold load_merkle_node, bitset_to_prefix. rewrite Htb, (cp_pref _ _ Hc), (cp_level _ _ Hc), Nat.add_1_r.
        change (to_block_range _, _) with (key (pref their ++ nibble k) (S (level their))). rewrite Hm. cbn [of_option mbind result_bind].
        destruct (sent_by_real tab T _ _ m Hi (length_slot _ _ k Hlt) Hm) as (Hsent & Ep & El).
        eexists _, [m]. split; [done|].
        apply slot_step_query; [apply frame_refl|done|done|set_solver|congruence|done|lia|congruence|congruence|].
        intros _ _. split_and!; [done|by eapply indexed_real|done|done].
      * eexists _, []. rewrite app_nil_r. split; [done|].
        apply slot_step_quiet; [apply frame_refl|done|done|set_solver|congruence|congruence|done|done].
Qed.

Lemma process_slot_ok rt their our k r cb :
  sent_by tab' T' their → counterpart their our → table r = tab → (k < 16)%nat →
  ∃ r' qs, process_slot rt their our (r, cb) k = Ok (r', cb ++ queries qs) ∧ slot_step rt their our k r r' qs.
Proof.
  intros Hs Hc Htb Hk. unfold process_slot. rewrite get_slot_state_ok by (apply Hs || done). cbn [mbind result_bind].
  destruct (slot_st their k) eqn:Hst; [|by apply process_their_leaf_ok|by apply process_their_subtree_ok].
  eexists _, []. rewrite app_nil_r. split; [done|].
  apply slot_step_quiet; [apply frame_refl|done|done|set_solver|congruence|congruence|congruence|congruence].
Qed.

(** ** All slots *)

(** What the comparison of the slots before [n] has done. *)
Record compared (n : nat) (rt : refinement_type) (their our : merkle_node) (r r' : refiner) (qs : list merkle_node) : Prop := {
  co_frame : frame r r';
  co_flight : queries_in_flight r' = queries_in_flight r + Z.of_nat (length qs);
  co_grows : peer_items r ⊆ peer_items r';
  co_safe : peer_items r' ⊆ peer_items r ∪ T';
  co_leaf k : (k < n)%nat → slot_st their k = leaf_state → slot_val their k ∈ peer_items r';
  co_shared k : (k < n)%nat → slot_st their k = subtree_state → slot_st our k = subtree_state →
    slot_val their k = slot_val our k → under T (pref their ++ nibble k) ⊆ peer_items r';
  co_few : (length qs ≤ n)%nat;
  co_sent nd : nd ∈ qs → sent_by tab T nd ∧ (level their < level nd)%nat;
  co_response : rt = refinement_response → qs = [];
  co_locate k : (k < n)%nat → rt = refinement_query → slot_st their k = leaf_state → slot_st our k = subtree_state →
    slot_val their k ∈ T → ∃ nd, nd ∈ qs ∧ shows nd (slot_val their k);
  co_synthetic k : (k < n)%nat → rt = refinement_query → slot_st their k = subtree_state → slot_st our k = leaf_state →
    ∃ nd, nd ∈ qs ∧ shows nd (slot_val our k) ∧ pref nd = pref their ++ nibble k ∧ level nd = S (level their);
  co_sub k : (k < n)%nat → rt = refinement_query → slot_st their k = subtree_state → slot_st our k = subtree_state →
    slot_val their k ≠ slot_val our k →
    ∃ nd, nd ∈ qs ∧ real tab nd ∧ pref nd = pref their ++ nibble k ∧ level nd = S (level their)
}.

Lemma compared_start rt their our r : compared 0 rt their our r r [].
Proof.
  split; try (intros; lia); [apply frame_refl|cbn; lia|done|set_solver|done|by intros ? ?%not_elem_of_nil|done].
Qed.

Lemma compared_next n rt their our r r1 r2 qs1 qs2 :
  compared n rt their our r r1 qs1 → slot_step rt their our n r1 r2 qs2 → compared (S n) rt their our r r2 (qs1 ++ qs2).
Proof.
  intros [F1 Q1 G1 S1 L1 H1 W1 N1 R1 C1 Y1 B1] [F2 Q2 G2 S2 L2 H2 W2 N2 R2 C2 Y2 B2].
  assert (∀ k, (k < S n)%nat → (k < n)%nat ∨ k = n) as Hk by (intros; lia).
  assert (∀ P : merkle_node → Prop, (∃ nd, nd ∈ qs1 ∧ P nd) ∨ (∃ nd, nd ∈ qs2 ∧ P nd) → ∃ nd, nd ∈ qs1 ++ qs2 ∧ P nd) as Hex.
  { intros P [(nd & ? & ?)|(nd & ? & ?)]; exists nd; (split; [apply elem_of_app; tauto|done]). }
  split.
  - by eapply frame_trans.
  - rewrite length_app. lia.
  - set_solver.
  - set_solver.
  - intros k [Hlt| ->]%Hk Hst; [|by apply L2]. by apply G2, L1.
  - intros k [Hlt| ->]%Hk Hst Ho Hv; [|by apply H2]. etrans; [by apply H1|done].
  - rewrite length_app. lia.
  - intros nd [?|?]%elem_of_app; [by apply N1|by apply N2].
  - intros Hrt. by rewrite R1, R2.
  - intros k [Hlt| ->]%Hk Hrt Hst Ho Hin; apply Hex; [left; by apply C1|right; by apply C2].
  - intros k [Hlt| ->]%Hk Hrt Hst Ho; apply Hex; [left; by apply Y1|right; by apply Y2].
  - intros k [Hlt| ->]%Hk Hrt Hst Ho Hv; apply Hex; [left; by apply B1|right; by apply B2].
Qed.

Lemma compare_slots_ok rt their our r :
  sent_by tab' T' their → counterpart their our → table r = tab →
  ∃ r' qs, foldM (process_slot rt their our) (seq 0 merkle_num_slots) (r, []) = Ok (r', queries qs) ∧
    compared 16 rt their our r r' qs.
Proof.
  intros Hs Hc Htb.
  destruct (foldM_ok (λ l '(r', cb), ∃ qs, cb = queries qs ∧ compared (length l) rt their our r r' qs)
    (process_slot rt their our) (seq 0 merkle_num_slots) (r, [])) as ([r' cb] & E & qs & -> & Hco).
  - exists []. split; [done|apply compared_start].
  - intros l1 k l2 [r1 cb] [-> Hk]%seq_split (qs1 & -> & Hco).
    destruct (process_slot_ok rt their our (length l1) r1 (queries qs1) Hs Hc) as (r2 & qs2 & E & Hst); [|done|].
    { destruct (co_frame _ _ _ _ _ _ _ Hco) as (_ & _ & _ & _ & -> & _). done. }
    exists (r2, queries qs1 ++ queries qs2). split; [done|]. exists (qs1 ++ qs2). split; [by unfold queries; rewrite fmap_app|].
    rewrite length_app, Nat.add_1_r. by eapply compared_next.
  - exists r', qs. split; [done|]. by rewrite length_seq in Hco.
Qed.

Lemma our_node_ok r their :
  sent_by tab' T' their → table r = tab →
  ∃ our, our_node_for r their (to_block_range (pref their)) = Ok our ∧ counterpart their our.
Proof.
  intros Hs Htb. destruct (sent_len _ _ _ Hs) as [Hb Hl]. unfold our_node_for, merkle_node_exists, load_merkle_node. rewrite Htb.
  change (to_block_range (pref their), level their) with (key (pref their) (level their)).
  destruct (tab !! key (pref their) (level their)) as [nd|] eqn:Hn.
  - rewrite bool_decide_true by eauto. exists nd. split; [done|].
    destruct (sent_by_real tab T _ _ nd Hi Hb Hn) as (? & ? & ?). split; [done|done|done|congruence].
  - rewrite bool_decide_false by (by intros [? ?]). eexists. split; [done|]. rewrite (sb_type _ _ _ Hs).
    destruct (made_up_ok (level their) (pref their) 0 None T Hb Hl ltac:(lia) I) as [_ Hsent].
    split; [done|done|apply Hsent|]. intros nd ?. congruence.
Qed.

Lemma raw_prefix_ok their : sent_by tab' T' their → get_raw_prefix their = Ok (to_block_range (pref their)).
Proof. intros Hs. unfold get_raw_prefix. by rewrite check_invariants_ok by apply Hs. Qed.

(** A query is answered: sub-queries, then our node. *)
Lemma process_query_ok r their :
  sent_by tab' T' their → table r = tab →
  ∃ r' our qs, process_refinement_command r refinement_query their =
      Ok (r', queries qs ++ [queue_refine_cmd refinement_response our]) ∧
    counterpart their our ∧ compared 16 refinement_query their our r r' qs.
Proof.
  intros Hs Htb. destruct (our_node_ok r their Hs Htb) as (our & Eo & Hc).
  destruct (compare_slots_ok refinement_query their our r Hs Hc Htb) as (r' & qs & E & Hco).
  exists r', our, qs. split; [|done]. unfold process_refinement_command. rewrite raw_prefix_ok by done. cbn [mbind result_bind].
  rewrite (sb_type _ _ _ Hs). destruct (known_type_string ty Hty) as [str ->]. cbn [mbind result_bind].
  rewrite Eo. cbn [mbind result_bind]. by rewrite E.
Qed.

(** What a response does before the end of refinement is looked at. *)
Lemma process_response_ok r their :
  sent_by tab' T' their → table r = tab → rtype r = ty → 0 < queries_in_flight r → calculated_items_to_send r = false →
  ∃ r' our, counterpart their our ∧ compared 16 refinement_response their our r r' [] ∧
    process_refinement_command r refinement_response their =
    let r1 := with_in_flight (queries_in_flight r - 1) r' in
    if bool_decide (voice r = client_voice) && (queries_in_flight r =? 1) then
      let '(Refiner t v s q c li pi tb d its itr mi ma) := r1 in
      Ok (Refiner t v s q true li pi tb d (li ∖ pi) 0 mi ma, [queue_done_cmd ty (Z.of_nat (size (li ∖ pi)))])
    else Ok (r1, []).
Proof.
  intros Hs Htb Hrt Hq Hcalc. destruct (our_node_ok r their Hs Htb) as (our & Eo & Hc).
  destruct (compare_slots_ok refinement_response their our r Hs Hc Htb) as (r' & qs & E & Hco).
  pose proof (co_response _ _ _ _ _ _ _ Hco eq_refl) as ->. exists r', our. split_and!; [done|done|].
  unfold process_refinement_command. rewrite raw_prefix_ok by done. cbn [mbind result_bind].
  rewrite (sb_type _ _ _ Hs). destruct (known_type_string ty Hty) as [str Estr]. rewrite Estr. cbn [mbind result_bind].
  rewrite Eo. cbn [mbind result_bind]. rewrite E. cbn [mbind result_bind].
  pose proof (co_flight _ _ _ _ _ _ _ Hco) as Hfl. cbn in Hfl. rewrite Z.add_0_r in Hfl. rewrite Hfl.
  destruct (co_frame _ _ _ _ _ _ _ Hco) as (Ft & Fv & Fc & _). rewrite (proj2 (Z.ltb_lt _ _)) by done. cbn [E_ mbind result_bind].
  destruct r' as [t v s q c li pi tb d its itr mi ma]. cbn in Ft, Fv, Fc. cbn [with_in_flight voice queries_in_flight].
  rewrite <- Fv. assert ((queries_in_flight r - 1 =? 0) = (queries_in_flight r =? 1)) as ->.
  { destruct (Z.eqb_spec (queries_in_flight r - 1) 0), (Z.eqb_spec (queries_in_flight r) 1); lia || done. }
  destruct (_ && _); [|done]. cbn [calculate_items_to_send]. rewrite Fc, Hcalc. subst t. rewrite Hrt, Estr. done.
Qed.
End step.
