(* ===== verification/RefinerCorrect.v ===== *)
(** * Two refiners

    A client and a server exchange refinement commands over two queues that
    keep their order.  What a command does to the receiver, and what it means
    for an item that both sides have: as long as one side does not know of it,
    a query for it or a node that shows it is under way. *)

From S2P Require Import Prelude Numbers Hex Netio MerkleTree MerkleIo MerkleTrie Refiner RefinerIndex RefinerStep.

(** ** The two peers *)

Record net := Net {
  client : refiner;
  server : refiner;
  to_server : list callback;
  to_client : list callback
}.

Section exchange.
Context {ML : merkle_lib}.

(** A queued command arrives at the other side. *)
Definition receive (r : refiner) (m : callback) : result (refiner * list callback) :=
  match m with
  | queue_refine_cmd rt nd => process_refinement_command r rt nd
  | queue_done_cmd _ n => process_done_command r n
  end.

Inductive step : net → net → Prop :=
  | server_receives c s m q tc s' out :
      receive s m = Ok (s', out) → step (Net c s (m :: q) tc) (Net c s' q (tc ++ out))
  | client_receives c s ts m q c' out :
      receive c m = Ok (c', out) → step (Net c s ts (m :: q)) (Net c' s (ts ++ out) q).
End exchange.

(** ** What a command means for an item that both sides have *)

Section meaning.
Context {ML : merkle_lib} {MLL : merkle_lib_laws ML} (ty : netcmd_item_type) (Hty : known_type ty).

(** A query that will make both sides learn of [x]: the receiver has a node
    where the query stands. *)
Definition asks (tab' tab : merkle_table) (x : bytes) (m : callback) : Prop :=
  ∃ nd, m = queue_refine_cmd refinement_query nd ∧ has_prefix (pref nd) x ∧
    is_Some (tab !! key (pref nd) (level nd)) ∧ (real tab' nd ∨ shows nd x).

(** A command that makes the receiver learn of [x]. *)
Definition tells (tab' tab : merkle_table) (x : bytes) (m : callback) : Prop :=
  ∃ rt nd, m = queue_refine_cmd rt nd ∧
    (shows nd x ∨
     has_prefix (pref nd) x ∧
     ∃ our, tab !! key (pref nd) (level nd) = Some our ∧
       slot_st nd (slot_at x (level nd)) = subtree_state ∧ slot_st our (slot_at x (level nd)) = subtree_state ∧
       slot_val nd (slot_at x (level nd)) = slot_val our (slot_at x (level nd))).

Context (tab tab' : merkle_table) (T T' : gset bytes) (Hi : indexed ty tab T) (Hi' : indexed ty tab' T').

Lemma tells_learn rt their our r r' qs x :
  sent_by ty tab' T' their → counterpart ty tab T their our → compared ty tab T T' 16 rt their our r r' qs →
  x ∈ T → tells tab' tab x (queue_refine_cmd rt their) → x ∈ peer_items r'.
Proof.
  intros Hs Hc Hco Hx (rt' & nd & [= -> ->] & [(Hp & Hst & Hv)|(Hp & o & Ho & Hst & Hso & Hv)]);
    pose proof (slot_at_lt x (level nd)) as Hk.
  - rewrite <- Hv. by apply (co_leaf _ _ _ _ _ _ _ _ _ _ _ Hco).
  - assert (our = o) as -> by (by apply (cp_real _ _ _ _ _ Hc)).
    apply (co_shared _ _ _ _ _ _ _ _ _ _ _ Hco _ Hk Hst Hso Hv), elem_of_under. split; [|done].
    destruct (sent_len _ _ _ _ Hs) as [Hb Hl]. by apply (has_prefix_slot x (pref nd) (level nd)).
Qed.

Lemma asks_spreads their our r r' qs x :
  sent_by ty tab' T' their → counterpart ty tab T their our → compared ty tab T T' 16 refinement_query their our r r' qs →
  x ∈ T → x ∈ T' → asks tab' tab x (queue_refine_cmd refinement_query their) →
  (∃ m, m ∈ queries qs ∧ asks tab tab' x m) ∨
  x ∈ peer_items r' ∧ ∃ m, m ∈ queries qs ++ [queue_refine_cmd refinement_response our] ∧ tells tab tab' x m.
Proof.
  intros Hs Hc Hco Hx Hx' (nd & [= <-] & Hp & [o Ho] & Hrs). assert (our = o) as -> by (by apply (cp_real _ _ _ _ _ Hc)).
  destruct (sent_len _ _ _ _ Hs) as [Hb Hl]. pose proof (slot_at_lt x (level their)) as Hk.
  pose proof (indexed_at ty Hty _ _ _ _ _ Hi Hb Ho) as In. set (k := slot_at x (level their)) in *.
  assert (slot_st their k = leaf_state ∧ slot_val their k = x ∨ slot_st their k = subtree_state ∧ real tab' their) as Hth.
  { destruct Hrs as [Hr|(_ & ? & ?)]; [|by left]. pose proof Hr as [Hn _].
    destruct (indexed_item ty Hty _ _ _ _ _ _ (indexed_at ty Hty _ _ _ _ _ Hi' Hb Hn) Hn Hx' Hp); [by left|by right]. }
  pose proof (indexed_item ty Hty _ _ _ _ _ _ In Ho Hx Hp) as Hou. fold k in Hou.
  pose proof (cp_pref _ _ _ _ _ Hc) as Ep. pose proof (cp_level _ _ _ _ _ Hc) as El.
  assert (∀ m, m ∈ qs → queue_refine_cmd refinement_query m ∈ queries qs) as Hq by (intros m; apply list_elem_of_fmap_2).
  destruct Hth as [[Hst Hv]|[Hst Hr]].
  - right. split; [rewrite <- Hv; by apply (co_leaf _ _ _ _ _ _ _ _ _ _ _ Hco)|]. destruct Hou as [[Hso Hvo]|Hso].
    + exists (queue_refine_cmd refinement_response o). split; [apply elem_of_app; right; by left|].
      eexists _, _. split; [done|]. left. unfold shows. rewrite Ep, El. done.
    + destruct (co_locate _ _ _ _ _ _ _ _ _ _ _ Hco k Hk eq_refl Hst Hso) as (q & Hqs & Hsh); [by rewrite Hv|].
      exists (queue_refine_cmd refinement_query q). split; [apply elem_of_app; left; by apply Hq|].
      eexists _, _. split; [done|]. left. by rewrite Hv in Hsh.
  - destruct (sent_subtree ty Hty tab' T' their k Hi' Hs Hk Hst) as (_ & _ & _ & m' & Hm' & _).
    assert (has_prefix (pref their ++ nibble k) x) as Hpk by (by apply (has_prefix_slot x (pref their) (level their))).
    destruct Hou as [[Hso Hvo]|Hso].
    + left. destruct (co_synthetic _ _ _ _ _ _ _ _ _ _ _ Hco k Hk eq_refl Hst Hso) as (q & Hqs & Hsh & Epq & Elq).
      eexists. split; [by apply Hq|]. exists q. rewrite Epq, Elq. rewrite Hvo in Hsh. split_and!; [done|done|by eexists|by right].
    + destruct (decide (slot_val their k = slot_val o k)) as [Heq|Hne].
      * right. split.
        { apply (co_shared _ _ _ _ _ _ _ _ _ _ _ Hco _ Hk Hst Hso Heq), elem_of_under. done. }
        exists (queue_refine_cmd refinement_response o). split; [apply elem_of_app; right; by left|].
        eexists _, _. split; [done|]. right. rewrite Ep, El. split; [done|]. exists their. fold k.
        split_and!; [apply Hr|done|done|done].
      * left. destruct (co_sub _ _ _ _ _ _ _ _ _ _ _ Hco k Hk eq_refl Hst Hso Hne) as (q & Hqs & Hrq & Epq & Elq).
        eexists. split; [by apply Hq|]. exists q. rewrite Epq, Elq. split_and!; [done|done|by eexists|by left].
Qed.
End meaning.

(** ** Counting commands *)

Definition is_query (m : callback) : bool :=
  match m with queue_refine_cmd refinement_query _ => true | _ => false end.
Definition is_response (m : callback) : bool :=
  match m with queue_refine_cmd refinement_response _ => true | _ => false end.

Definition count (f : callback → bool) (l : list callback) : Z :=
  foldr (λ m n, (if f m then 1 else 0) + n) 0 l.

Lemma count_queue_app f l1 l2 : count f (l1 ++ l2) = count f l1 + count f l2.
Proof. induction l1 as [|m l1 IH]; [done|]. cbn [app count foldr]. fold (count f (l1 ++ l2)) (count f l1). lia. Qed.

Lemma count_nonneg f l : 0 ≤ count f l.
Proof. induction l as [|m l IH]; [done|]. cbn [count foldr]. fold (count f l). destruct (f m); lia. Qed.

Lemma count_queries qs : count is_query (queries qs) = Z.of_nat (length qs) ∧ count is_response (queries qs) = 0.
Proof.
  induction qs as [|q qs [IH1 IH2]]; [done|]. cbn [queries fmap list_fmap count foldr is_query is_response length].
  unfold queries, count in IH1, IH2. lia.
Qed.

Lemma count_0 f l : count f l = 0 → ∀ m, m ∈ l → f m = false.
Proof.
  induction l as [|m l IH]; intros H m'; [by intros ?%not_elem_of_nil|]. cbn [count foldr] in H. fold (count f l) in H.
  pose proof (count_nonneg f l). intros [->|Hm]%elem_of_cons; [destruct (f m); [lia|done]|].
  apply IH; [destruct (f m); lia|done].
Qed.

Lemma count_all f l : (∀ m, m ∈ l → f m = true) → count f l = Z.of_nat (length l).
Proof.
  induction l as [|m l IH]; intros Hl; [done|]. cbn [count foldr length]. fold (count f l).
  rewrite (Hl m), IH by (by left || intros; apply Hl; by right). lia.
Qed.

(** ** Weights: a query outweighs all that it can set off *)

Fixpoint query_weight (n : nat) : nat := match n with O => 4 | S n => 16 * query_weight n + 4 end.

Lemma query_weight_mono n m : (n ≤ m)%nat → (query_weight n ≤ query_weight m)%nat.
Proof. induction 1 as [|m _ IH]; [done|]. cbn [query_weight]. lia. Qed.

Definition weight (m : callback) : nat :=
  match m with
  | queue_refine_cmd refinement_query nd => query_weight (40 - level nd)
  | queue_refine_cmd refinement_response _ => 3
  | queue_done_cmd _ _ => 1
  end.

Definition weights (l : list callback) : nat := foldr (λ m n, (weight m + n)%nat) 0%nat l.

Lemma weights_app l1 l2 : weights (l1 ++ l2) = (weights l1 + weights l2)%nat.
Proof. induction l1 as [|m l1 IH]; [done|]. cbn [app weights foldr]. fold (weights (l1 ++ l2)) (weights l1). lia. Qed.

Definition net_weight (n : net) : nat :=
  (weights (to_server n) + weights (to_client n) + if done (server n) then 0 else 1)%nat.

Lemma queries_weight qs l :
  (length qs ≤ 16)%nat → (l < 40)%nat → (∀ nd, nd ∈ qs → (l < level nd)%nat) →
  (weights (queries qs) + 4 ≤ query_weight (40 - l))%nat.
Proof.
  intros Hlen Hl Hq. replace (40 - l)%nat with (S (39 - l)) by lia. cbn [query_weight].
  enough (weights (queries qs) ≤ length qs * query_weight (39 - l))%nat by nia.
  clear Hlen. induction qs as [|q qs IH]; [done|]. specialize (IH ltac:(intros; apply Hq; by right)).
  assert (query_weight (40 - level q) ≤ query_weight (39 - l))%nat.
  { apply query_weight_mono. specialize (Hq q ltac:(by left)). lia. }
  cbn [queries fmap list_fmap weights foldr weight length]. unfold weights, queries in IH. lia.
Qed.

(** ** One side while refining *)

Section side.
Context {ML : merkle_lib} {MLL : merkle_lib_laws ML} (ty : netcmd_item_type) (Hty : known_type ty).

(** The refiner [r] of voice [v] holds the items [T] in the table [tab], its peer the items [T']. *)
Record refines (tab : merkle_table) (T T' : gset bytes) (v : protocol_voice) (r : refiner) : Prop := {
  rs_table : table r = tab;
  rs_local : local_items r = T;
  rs_type : rtype r = ty;
  rs_voice : voice r = v;
  rs_open : calculated_items_to_send r = false;
  rs_done : done r = false;
  rs_safe : peer_items r ⊆ T'
}.

Lemma refines_frame tab T T' v r r' :
  refines tab T T' v r → frame r r' → peer_items r' ⊆ peer_items r ∪ T' → refines tab T T' v r'.
Proof.
  intros [] (? & ? & ? & ? & ? & ? & ? & ?) ?. split; [congruence..|]. set_solver.
Qed.

Lemma refines_flight tab T T' v r q : refines tab T T' v r → refines tab T T' v (with_in_flight q r).
Proof. by destruct r; intros []. Qed.

(** A command of a peer with the table [tab'] of the items [T']. *)
Definition command_of (tab' : merkle_table) (T' : gset bytes) (m : callback) : Prop :=
  match m with queue_refine_cmd _ nd => sent_by ty tab' T' nd | queue_done_cmd _ _ => False end.

(** A side knows of an item, or is about to be told. *)
Definition aware (tab' tab : merkle_table) (r : refiner) (incoming : list callback) (x : bytes) : Prop :=
  x ∈ peer_items r ∨ ∃ m, m ∈ incoming ∧ tells tab' tab x m.

(** No item that both have is forgotten: a query for it is under way, or both
    sides are aware of it. *)
Definition pending (tab' tab : merkle_table) (r o : refiner) (inc oinc : list callback) (x : bytes) : Prop :=
  (∃ m, m ∈ inc ∧ asks tab' tab x m) ∨ (∃ m, m ∈ oinc ∧ asks tab tab' x m) ∨
  aware tab' tab r inc x ∧ aware tab tab' o oinc x.

Lemma pending_sym tab' tab r o inc oinc x : pending tab' tab r o inc oinc x → pending tab tab' o r oinc inc x.
Proof. unfold pending. tauto. Qed.

Lemma aware_app tab' tab r inc out x : aware tab' tab r inc x → aware tab' tab r (inc ++ out) x.
Proof. intros [?|(m & ? & ?)]; [by left|right]. exists m. split; [apply elem_of_app; by left|done]. Qed.

Context (tab tab' : merkle_table) (T T' : gset bytes)
  (Hi : indexed ty tab T) (Hi' : indexed ty tab' T') (Hnc : no_collision tab' tab).

(** The first command of the queue has been compared. *)
Lemma aware_next rt their our r r' qs q x :
  sent_by ty tab' T' their → counterpart ty tab T their our → compared ty tab T T' 16 rt their our r r' qs → x ∈ T →
  aware tab' tab r (queue_refine_cmd rt their :: q) x → aware tab' tab r' q x.
Proof.
  intros Hs Hc Hco Hx [Hin|(m & [->|Hm]%elem_of_cons & Ht)].
  - left. by apply (co_grows _ _ _ _ _ _ _ _ _ _ _ Hco).
  - left. by eapply tells_learn.
  - right. by exists m.
Qed.

Lemma pending_next rt their our r r' o qs q oinc out x :
  sent_by ty tab' T' their → counterpart ty tab T their our → compared ty tab T T' 16 rt their our r r' qs →
  out = match rt with refinement_query => queries qs ++ [queue_refine_cmd refinement_response our] | refinement_response => [] end →
  x ∈ T → x ∈ T' →
  pending tab' tab r o (queue_refine_cmd rt their :: q) oinc x → pending tab' tab r' o q (oinc ++ out) x.
Proof.
  intros Hs Hc Hco Hout Hx Hx' [(m & [->|Hm]%elem_of_cons & Ha)|[(m & Hm & Ha)|[Hr Ho]]].
  - destruct rt; [|by destruct Ha as (? & ? & _)].
    destruct (asks_spreads ty Hty tab tab' T T' Hi Hi' their our r r' qs x Hs Hc Hco Hx Hx' Ha) as [(m & Hm & Hq)|(Hk & m & Hm & Ht)].
    + right. left. exists m. split; [|done]. rewrite Hout, !elem_of_app. tauto.
    + right. right. split; [by left|]. right. exists m. split; [|done]. rewrite Hout. apply elem_of_app. by right.
  - left. by exists m.
  - right. left. exists m. split; [apply elem_of_app; by left|done].
  - right. right. split; [by eapply aware_next|by apply aware_app].
Qed.

(** *** A query arrives *)
Lemma receive_query v r their :
  refines tab T T' v r → sent_by ty tab' T' their →
  ∃ r' our qs, receive r (queue_refine_cmd refinement_query their) =
      Ok (r', queries qs ++ [queue_refine_cmd refinement_response our]) ∧
    refines tab T T' v r' ∧ queries_in_flight r' = queries_in_flight r + Z.of_nat (length qs) ∧
    Forall (command_of tab T) (queries qs ++ [queue_refine_cmd refinement_response our]) ∧
    (weights (queries qs ++ [queue_refine_cmd refinement_response our]) < weight (queue_refine_cmd refinement_query their))%nat ∧
    ∀ o q oinc x, x ∈ T → x ∈ T' → pending tab' tab r o (queue_refine_cmd refinement_query their :: q) oinc x →
      pending tab' tab r' o q (oinc ++ queries qs ++ [queue_refine_cmd refinement_response our]) x.
Proof.
  intros Hr Hs. destruct (process_query_ok ty Hty tab tab' T T' Hi Hi' Hnc r their Hs (rs_table _ _ _ _ _ Hr))
    as (r' & our & qs & E & Hc & Hco).
  exists r', our, qs. destruct (sent_len _ _ _ _ Hs) as [_ Hl]. split_and!.
  - done.
  - eapply refines_frame; [done|apply Hco|apply Hco].
  - apply Hco.
  - apply Forall_app. split; [|apply Forall_singleton, Hc]. apply Forall_fmap, Forall_forall. intros nd Hnd.
    by apply (co_sent _ _ _ _ _ _ _ _ _ _ _ Hco).
  - rewrite weights_app. cbn [weight]. change (weights [queue_refine_cmd refinement_response our]) with 3%nat.
    pose proof (queries_weight qs (level their) (co_few _ _ _ _ _ _ _ _ _ _ _ Hco) Hl) as Hw.
    enough (∀ nd, nd ∈ qs → (level their < level nd)%nat) as Hlev by (specialize (Hw Hlev); lia).
    intros nd Hnd. by apply (co_sent _ _ _ _ _ _ _ _ _ _ _ Hco).
  - intros o q oinc x Hx Hx' Hp. by eapply pending_next.
Qed.

(** *** A response arrives *)
Lemma receive_response v r their :
  refines tab T T' v r → sent_by ty tab' T' their → 0 < queries_in_flight r →
  ∃ r', refines tab T T' v r' ∧ queries_in_flight r' = queries_in_flight r - 1 ∧
    (∀ o q oinc x, x ∈ T → x ∈ T' → pending tab' tab r o (queue_refine_cmd refinement_response their :: q) oinc x →
      pending tab' tab r' o q oinc x) ∧
    (∀ q x, x ∈ T → aware tab' tab r (queue_refine_cmd refinement_response their :: q) x → aware tab' tab r' q x) ∧
    receive r (queue_refine_cmd refinement_response their) =
    if bool_decide (v = client_voice) && (queries_in_flight r' =? 0) then
      let '(Refiner t v s q c li pi tb d its itr mi ma) := r' in
      Ok (Refiner t v s q true li pi tb d (li ∖ pi) 0 mi ma, [queue_done_cmd ty (Z.of_nat (size (li ∖ pi)))])
    else Ok (r', []).
Proof.
  intros Hr Hs Hq. destruct (process_response_ok ty Hty tab tab' T T' Hi Hi' Hnc r their Hs (rs_table _ _ _ _ _ Hr)
    (rs_type _ _ _ _ _ Hr) Hq (rs_open _ _ _ _ _ Hr)) as (r1 & our & Hc & Hco & E).
  set (r' := with_in_flight (queries_in_flight r - 1) r1).
  assert (peer_items r' = peer_items r1) as Ep by (by unfold r'; destruct r1).
  exists r'. split_and!.
  - apply refines_flight. eapply refines_frame; [done|apply Hco|apply Hco].
  - unfold r'. by destruct r1.
  - intros o q oinc x Hx Hx' Hp. pose proof (pending_next _ _ _ _ _ o _ q oinc [] x Hs Hc Hco eq_refl Hx Hx' Hp) as Hp'.
    rewrite app_nil_r in Hp'. unfold pending, aware in *. by rewrite Ep.
  - intros q x Hx Ha. pose proof (aware_next _ _ _ _ _ _ q x Hs Hc Hco Hx Ha) as Ha'. unfold aware in *. by rewrite Ep.
  - cbn [receive]. rewrite E. cbn zeta. fold r'. rewrite (rs_voice _ _ _ _ _ Hr).
    replace (queries_in_flight r') with (queries_in_flight r - 1) by (unfold r'; by destruct r1).
    replace (queries_in_flight r - 1 =? 0) with (queries_in_flight r =? 1); [done|].
    destruct (Z.eqb_spec (queries_in_flight r - 1) 0), (Z.eqb_spec (queries_in_flight r) 1); lia || done.
Qed.
End side.
