(* ===== verification/Refinement.v ===== *)
(** * Refinement finds exactly the items the peer lacks

    Every exchange of two refiners ends, no command trips an assertion, and
    in the end each side knows exactly which of its items the other lacks. *)

From S2P Require Import Prelude Numbers Hex Netio MerkleTree MerkleIo MerkleTrie Refiner RefinerIndex RefinerStep RefinerCorrect.

Section refinement.
Context {ML : merkle_lib} {MLL : merkle_lib_laws ML} (ty : netcmd_item_type) (Hty : known_type ty).
Context (tabA tabB : merkle_table) (A B : gset bytes)
  (HA : indexed ty tabA A) (HB : indexed ty tabB B) (HAB : no_collision tabA tabB) (HBA : no_collision tabB tabA).

(** ** The phases of an exchange *)

(** Commands go back and forth. *)
Record refining (n : net) : Prop := {
  rf_client : refines ty tabA A B client_voice (client n);
  rf_server : refines ty tabB B A server_voice (server n);
  rf_to_server : Forall (command_of ty tabA A) (to_server n);
  rf_to_client : Forall (command_of ty tabB B) (to_client n);
  rf_client_count : queries_in_flight (client n) = count is_query (to_server n) + count is_response (to_client n);
  rf_server_count : queries_in_flight (server n) = count is_query (to_client n) + count is_response (to_server n);
  rf_last m : last (to_client n) = Some m → is_response m = true;
  rf_live : 0 < queries_in_flight (client n);
  rf_pending x : x ∈ A → x ∈ B → pending tabA tabB (server n) (client n) (to_server n) (to_client n) x
}.

(** The client knows what to send. *)
Record client_ready (c : refiner) : Prop := {
  cr_type : rtype c = ty;
  cr_voice : voice c = client_voice;
  cr_calculated : calculated_items_to_send c = true;
  cr_items : items_to_send c = A ∖ B;
  cr_safe : peer_items c ⊆ B
}.

(** The client's last responses and its done command are under way. *)
Record closing (n : net) : Prop := {
  cl_client : client_ready (client n);
  cl_client_open : done (client n) = false;
  cl_server : refines ty tabB B A server_voice (server n);
  cl_to_client : to_client n = [];
  cl_to_server : ∃ l, to_server n = l ++ [queue_done_cmd ty (Z.of_nat (size (A ∖ B)))] ∧
    Forall (λ m, command_of ty tabA A m ∧ is_response m = true) l ∧
    queries_in_flight (server n) = Z.of_nat (length l);
  cl_aware x : x ∈ A → x ∈ B → aware tabA tabB (server n) (to_server n) x
}.

(** The server has answered with its done command. *)
Record server_done (n : net) : Prop := {
  sd_client : client_ready (client n);
  sd_done : done (server n) = true;
  sd_items : items_to_send (server n) = B ∖ A;
  sd_receive : items_to_receive (server n) = Z.of_nat (size (A ∖ B));
  sd_safe : peer_items (server n) ⊆ A;
  sd_to_server : to_server n = []
}.

Definition answering (n : net) : Prop :=
  server_done n ∧ done (client n) = false ∧ to_client n = [queue_done_cmd ty (Z.of_nat (size (B ∖ A)))].

(** Both sides are done. *)
Definition finished (n : net) : Prop :=
  to_server n = [] ∧ to_client n = [] ∧ done (client n) = true ∧ done (server n) = true ∧
  items_to_send (client n) = A ∖ B ∧ items_to_send (server n) = B ∖ A ∧
  items_to_receive (client n) = Z.of_nat (size (B ∖ A)) ∧ items_to_receive (server n) = Z.of_nat (size (A ∖ B)).

Definition over (n : net) : Prop := server_done n ∧ finished n.

Definition invariant (n : net) : Prop := refining n ∨ closing n ∨ answering n ∨ over n.

(** ** Steps *)

Lemma all_seen (T T' P : gset bytes) : P ⊆ T' → (∀ x, x ∈ T → x ∈ T' → x ∈ P) → T ∖ P = T ∖ T'.
Proof. set_solver. Qed.

Lemma last_tail {X} (m : X) l y : last l = Some y → last (m :: l) = Some y.
Proof. by destruct l. Qed.

(** *** Refining, at the server *)
Lemma refining_server c s m q tc :
  refining (Net c s (m :: q) tc) →
  ∃ s' out, receive s m = Ok (s', out) ∧ refining (Net c s' q (tc ++ out)) ∧ (weights out < weight m)%nat.
Proof.
  intros [Hc Hs Hts Htc Cc Cs Hlast Hlive Hp]. cbn [client server to_server to_client] in *. apply Forall_cons in Hts as [Hm Hts].
  destruct m as [[|] nd|]; [| |done]; cbn [command_of] in Hm.
  - destruct (receive_query ty Hty tabB tabA B A HB HA HAB server_voice s nd Hs Hm) as (s' & our & qs & E & Hs' & Hq & Hf & Hw & Hpn).
    destruct (count_queries qs) as [Nq Nr]. cbn [count foldr is_query is_response] in Cc, Cs.
    fold (count is_query q) (count is_response q) in Cc, Cs.
    eexists _, _. split; [done|]. split; [|exact Hw]. split; cbn [client server to_server to_client]; [done|done|done|by apply Forall_app| | | |done|].
    + rewrite !count_queue_app, Nr. cbn. lia.
    + rewrite !count_queue_app, Nq. cbn. lia.
    + intros m. rewrite app_assoc, last_snoc. by intros [= <-].
    + intros x Hx Hx'. apply Hpn; [done|done|by apply Hp].
  - cbn [count foldr is_query is_response] in Cc, Cs. fold (count is_query q) (count is_response q) in Cc, Cs.
    pose proof (count_nonneg is_query tc). pose proof (count_nonneg is_response q).
    destruct (receive_response ty Hty tabB tabA B A HB HA HAB server_voice s nd Hs Hm ltac:(lia)) as (s' & Hs' & Hq & Hpn & _ & E).
    exists s', []. split; [done|]. split; [|cbn; lia]. rewrite app_nil_r. split; cbn [client server to_server to_client]; [done|done|done|done|lia|lia|done|done|].
    intros x Hx Hx'. apply Hpn; [done|done|by apply Hp].
Qed.

(** *** Refining, at the client *)
Lemma refining_client c s ts m q :
  refining (Net c s ts (m :: q)) →
  ∃ c' out, receive c m = Ok (c', out) ∧ (weights out < weight m)%nat ∧
    (refining (Net c' s (ts ++ out) q) ∨ closing (Net c' s (ts ++ out) q)).
Proof.
  intros [Hc Hs Hts Htc Cc Cs Hlast Hlive Hp]. cbn [client server to_server to_client] in *. apply Forall_cons in Htc as [Hm Htc].
  assert (∀ m', last q = Some m' → is_response m' = true) as Hlast' by (intros m' ?; apply Hlast; by apply last_tail).
  destruct m as [[|] nd|]; [| |done]; cbn [command_of] in Hm.
  - destruct (receive_query ty Hty tabA tabB A B HA HB HBA client_voice c nd Hc Hm) as (c' & our & qs & E & Hc' & Hq & Hf & Hw & Hpn).
    destruct (count_queries qs) as [Nq Nr]. cbn [count foldr is_query is_response] in Cc, Cs.
    fold (count is_query q) (count is_response q) in Cc, Cs.
    eexists _, _. split; [done|]. split; [exact Hw|]. left. split; cbn [client server to_server to_client]; [done|done|by apply Forall_app|done| | |done|lia|].
    + rewrite !count_queue_app, Nq. cbn. lia.
    + rewrite !count_queue_app, Nr. cbn. lia.
    + intros x Hx Hx'. apply pending_sym, Hpn; [done|done|]. by apply pending_sym, Hp.
  - cbn [count foldr is_query is_response] in Cc, Cs. fold (count is_query q) (count is_response q) in Cc, Cs.
    destruct (receive_response ty Hty tabA tabB A B HA HB HBA client_voice c nd Hc Hm ltac:(lia)) as (c' & Hc' & Hq & Hpn & _ & E).
    assert (∀ x, x ∈ A → x ∈ B → pending tabB tabA c' s q ts x) as Hp'.
    { intros x Hx Hx'. apply Hpn; [done|done|]. by apply pending_sym, Hp. }
    rewrite bool_decide_true in E by done. cbn [andb] in E.
    pose proof (count_nonneg is_query ts). pose proof (count_nonneg is_response q). destruct (Z.eqb_spec (queries_in_flight c') 0) as [Hz|Hz].
    2:{ exists c', []. split; [done|]. split; [cbn; lia|]. left. rewrite app_nil_r.
        split; cbn [client server to_server to_client]; [done|done|done|done|lia|lia|done|lia|]. intros x Hx Hx'. by apply pending_sym, Hp'. }
    assert (q = []) as ->.
    { destruct (last q) as [m'|] eqn:El; [|by apply last_None]. pose proof (count_0 is_response q ltac:(lia) m') as Hn.
      rewrite (Hlast' m' eq_refl) in Hn. discriminate Hn. by apply last_Some_elem_of. }
    assert (∀ x, x ∈ A → x ∈ B → x ∈ peer_items c' ∧ aware tabA tabB s ts x) as Hknow.
    { intros x Hx Hx'. destruct (Hp' x Hx Hx') as [(m & ?%not_elem_of_nil & _)|[(m & Hm' & (nd' & -> & _))|[Ha Hb]]]; [done| |].
      - pose proof (count_0 is_query ts ltac:(lia) _ Hm'). done.
      - split; [|done]. destruct Ha as [?|(m & ?%not_elem_of_nil & _)]; done. }
    destruct c' as [t v se qf ca li pi tb d its itr mi ma]. destruct Hc' as [E1 E2 E3 E4 E5 E6 E7]. cbn in E1, E2, E3, E4, E5, E6, E7, Hq, Hknow.
    assert (li ∖ pi = A ∖ B) as Hli by (subst li; apply all_seen; naive_solver).
    rewrite Hli in E. eexists _, _. split; [done|]. split; [cbn; lia|]. right.
    split; cbn [client server to_server to_client]; [by split|done|done|done| |].
    + exists ts. split; [done|]. cbn in Hz. split.
      * apply Forall_forall. intros m Hm'. pose proof Hts as Hts'. rewrite Forall_forall in Hts'. split; [by apply Hts'|].
        pose proof (count_0 is_query ts ltac:(lia) m Hm') as Hnq. specialize (Hts' m Hm'). by destruct m as [[|] ?|].
      * rewrite Cs, (count_all is_response ts); [done|]. intros m Hm'. pose proof (count_0 is_query ts ltac:(lia) m Hm').
        rewrite Forall_forall in Hts. specialize (Hts m Hm'). by destruct m as [[|] ?|].
    + intros x Hx Hx'. by apply aware_app, Hknow.
Qed.

(** *** Closing *)
Lemma closing_server c s m q :
  closing (Net c s (m :: q) []) →
  ∃ s' out, receive s m = Ok (s', out) ∧
    (closing (Net c s' q out) ∧ (weights out < weight m)%nat ∧ done s' = false ∨
     answering (Net c s' q out) ∧ weights out = weight m ∧ done s' = true).
Proof.
  intros [Hc Ho Hs _ (l & El & Hl & Hq) Ha]. cbn [client server to_server to_client] in *.
  destruct (known_type_string ty Hty) as [str Estr]. destruct l as [|m' l]; injection El as -> ->.
  - assert (∀ x, x ∈ A → x ∈ B → x ∈ peer_items s) as Hknow.
    { intros x Hx Hx'. destruct (Ha x Hx Hx') as [?|(m & ->%list_elem_of_singleton & Ht)]; [done|]. by destruct Ht as (? & ? & ? & _). }
    destruct s as [t v se qf ca li pi tb d its itr mi ma]. destruct Hs as [E1 E2 E3 E4 E5 E6 E7]. cbn in E1, E2, E3, E4, E5, E6, E7, Hknow.
    subst t v ca li. assert (B ∖ pi = B ∖ A) as HBA' by (apply all_seen; [done|naive_solver]).
    cbn [receive]. unfold process_done_command. cbn [rtype]. rewrite Estr. cbn [mbind result_bind calculate_items_to_send].
    rewrite Estr, HBA'. cbn [mbind result_bind]. eexists _, _. split; [done|]. right. split_and!; [|done|done].
    split; [|done]. split; done.
  - apply Forall_cons in Hl as [[Hm Hr] Hl]. destruct m' as [[|] nd|]; [done| |done]. cbn [length] in Hq.
    destruct (receive_response ty Hty tabB tabA B A HB HA HAB server_voice s nd Hs Hm ltac:(lia)) as (s' & Hs' & Hq' & _ & Haw & E).
    exists s', []. split; [done|]. left. split_and!; [|cbn; lia|apply Hs']. split; cbn [client server to_server to_client]; [done|done|done|done| |].
    + exists l. split_and!; [done|done|lia].
    + intros x Hx Hx'. apply Haw; [done|]. by apply Ha.
Qed.

(** *** The server's answer *)
Lemma answering_client c s m q :
  answering (Net c s [] (m :: q)) →
  ∃ c', receive c m = Ok (c', []) ∧ over (Net c' s [] q).
Proof.
  intros [[Hc Hd Hit Hrc Hsf _] [Ho [= -> ->]]]. cbn [client server to_server to_client] in *.
  destruct (known_type_string ty Hty) as [str Estr]. destruct c as [t v se qf ca li pi tb d its itr mi ma].
  destruct Hc as [E1 E2 E3 E4 E5]. cbn in E1, E2, E3, E4, E5. subst t v ca its. cbn [receive]. unfold process_done_command. cbn [rtype].
  rewrite Estr. cbn [mbind result_bind calculate_items_to_send]. eexists. split; [done|]. split; [by split|]. by split_and!.
Qed.

(** ** The invariant *)

Lemma invariant_step n n' : invariant n → step n n' → invariant n' ∧ (net_weight n' < net_weight n)%nat.
Proof.
  intros Hinv Hst. destruct Hst as [c s m q tc s' out E|c s ts m q c' out E]; unfold net_weight; cbn [client server to_server to_client].
  - rewrite weights_app. change (weights (m :: q)) with (weight m + weights q)%nat. destruct Hinv as [Hr|[Hr|[[Hr _]|[Hr _]]]].
    + destruct (refining_server _ _ _ _ _ Hr) as (s2 & out2 & E2 & Hr' & Hw). rewrite E in E2. injection E2 as <- <-.
      pose proof (rs_done _ _ _ _ _ _ (rf_server _ Hr)) as D1. pose proof (rs_done _ _ _ _ _ _ (rf_server _ Hr')) as D2.
      cbn in D1, D2. rewrite D1, D2. split; [by left|lia].
    + pose proof (cl_to_client _ Hr) as Htc. cbn in Htc. subst tc. pose proof (rs_done _ _ _ _ _ _ (cl_server _ Hr)) as Hd. cbn in Hd.
      destruct (closing_server _ _ _ _ Hr) as (s2 & out2 & E2 & Hr'). rewrite E in E2. injection E2 as <- <-. rewrite Hd. cbn [app].
      destruct Hr' as [(Hr' & Hw & ->)|(Hr' & Hw & ->)]; (split; [|change (weights []) with 0%nat; lia]); unfold invariant; tauto.
    + by pose proof (sd_to_server _ Hr).
    + by pose proof (sd_to_server _ Hr).
  - rewrite weights_app. change (weights (m :: q)) with (weight m + weights q)%nat. destruct Hinv as [Hr|[Hr|[Hr|Hr]]].
    + destruct (refining_client _ _ _ _ _ Hr) as (c2 & out2 & E2 & Hw & Hr'). rewrite E in E2. injection E2 as <- <-.
      split; [unfold invariant; tauto|]. destruct (done s); lia.
    + by pose proof (cl_to_client _ Hr).
    + pose proof (sd_to_server _ (proj1 Hr)) as Hts. cbn in Hts. subst ts.
      destruct (answering_client _ _ _ _ Hr) as (c2 & E2 & Hr'). rewrite E in E2. injection E2 as <- ->.
      split; [unfold invariant; tauto|]. destruct Hr as (_ & _ & Etc). cbn in Etc. injection Etc as -> ->. cbn. lia.
    + by destruct Hr as [_ (_ & ? & _)].
Qed.

Lemma invariant_progress n : invariant n → over n ∨ ∃ n', step n n'.
Proof.
  destruct n as [c s ts tc]. intros [Hr|[Hr|[Hr|?]]]; [right|right|right|by left].
  - destruct ts as [|m q].
    + destruct tc as [|m q].
      * pose proof (rf_live _ Hr) as Hlive. rewrite (rf_client_count _ Hr) in Hlive. by cbn in Hlive.
      * destruct (refining_client _ _ _ _ _ Hr) as (c' & out & E & _). eexists. by constructor.
    + destruct (refining_server _ _ _ _ _ Hr) as (s' & out & E & _). eexists. by constructor.
  - pose proof (cl_to_client _ Hr) as Htc. cbn in Htc. subst tc. destruct (cl_to_server _ Hr) as (l & El & _). cbn in El.
    destruct ts as [|m q]; [by destruct l|]. destruct (closing_server _ _ _ _ Hr) as (s' & out & E & _). eexists. by constructor.
  - pose proof (sd_to_server _ (proj1 Hr)) as Hts. cbn in Hts. subst ts. pose proof Hr as (_ & _ & Etc). cbn in Etc. subst tc.
    destruct (answering_client _ _ _ _ Hr) as (c' & E & _). eexists. by constructor.
Qed.

Lemma invariant_heads n :
  invariant n →
  (∀ m q, to_server n = m :: q → ∃ r, receive (server n) m = Ok r) ∧
  (∀ m q, to_client n = m :: q → ∃ r, receive (client n) m = Ok r).
Proof.
  destruct n as [c s ts tc]. intros [Hr|[Hr|[Hr|Hr]]]; (split; intros m q; cbn [client server to_server to_client]; intros ->).
  - destruct (refining_server _ _ _ _ _ Hr) as (s' & out & E & _). eauto.
  - destruct (refining_client _ _ _ _ _ Hr) as (c' & out & E & _). eauto.
  - pose proof (cl_to_client _ Hr) as Htc. cbn in Htc. subst tc. destruct (closing_server _ _ _ _ Hr) as (s' & out & E & _). eauto.
  - by pose proof (cl_to_client _ Hr).
  - by pose proof (sd_to_server _ (proj1 Hr)).
  - pose proof (sd_to_server _ (proj1 Hr)) as Hts. cbn in Hts. subst ts.
    destruct (answering_client _ _ _ _ Hr) as (c' & E & _). eauto.
  - by destruct Hr as [_ (? & _)].
  - by destruct Hr as [_ (_ & ? & _)].
Qed.

Lemma invariant_rtc n n' : invariant n → rtc step n n' → invariant n'.
Proof. intros Hinv Hst. induction Hst as [|n1 n2 n3 Hst _ IH]; [done|]. apply IH. by eapply invariant_step. Qed.

Lemma invariant_terminates n : invariant n → sn step n.
Proof.
  remember (net_weight n) as w eqn:Hw. revert n Hw. induction (lt_wf w) as [w _ IH]. intros n -> Hinv.
  constructor. intros n' Hst. destruct (invariant_step _ _ Hinv Hst) as [Hinv' Hlt]. by eapply IH.
Qed.

Lemma invariant_safe n : invariant n → peer_items (client n) ⊆ B ∧ peer_items (server n) ⊆ A.
Proof.
  intros [Hr|[Hr|[[Hr _]|[Hr _]]]].
  - split; [apply (rf_client _ Hr)|apply (rf_server _ Hr)].
  - split; [apply (cl_client _ Hr)|apply (cl_server _ Hr)].
  - split; [apply (sd_client _ Hr)|apply (sd_safe _ Hr)].
  - split; [apply (sd_client _ Hr)|apply (sd_safe _ Hr)].
Qed.
End refinement.

(** ** From the items to the result *)

Section result.
Context {ML : merkle_lib} {MLL : merkle_lib_laws ML}.

(** A refiner with its items, as a session sets it up. *)
Definition index_items (ty : netcmd_item_type) (v : protocol_voice) (items : list bytes) : result refiner :=
  r ← foldM note_local_item items (new_refiner ty v); reindex_local_items r.

Lemma index_items_ok ty v items T' :
  known_type ty → Forall valid_id items →
  ∃ r, index_items ty v items = Ok r ∧ indexed ty (table r) (list_to_set items) ∧
    refines ty (table r) (list_to_set items) T' v r ∧ queries_in_flight r = 0.
Proof.
  intros Hty Hv. destruct (note_local_items_ok ty Hty items (new_refiner ty v) ∅ (new_refiner_repr ty Hty v) eq_refl eq_refl Hv)
    as (r & E & Hr & Hl & Ht & Hvo & Hq & Hc & Hp & Hd).
  rewrite union_empty_r_L in Hr, Hl. destruct (reindex_ok ty Hty r _ Hr) as (tb & E2 & Hix).
  exists (with_table tb r). unfold index_items. rewrite E. cbn [mbind result_bind].
  destruct r as [t v' s q c li pi tb' d its itr mi ma]. cbn in Hl, Ht, Hvo, Hq, Hc, Hp, Hd. subst.
  split_and!; [done|done| |done]. split; cbn; done || set_solver.
Qed.

Lemma no_collision_sym tab tab' : no_collision tab tab' → no_collision tab' tab.
Proof. intros H k k' nd nd' Hn Hn' E. symmetry. by eapply H. Qed.

(** The client's first query. *)
Lemma start_refining ty A B c s :
  known_type ty → indexed ty (table c) A → indexed ty (table s) B →
  refines ty (table c) A B client_voice c → refines ty (table s) B A server_voice s →
  queries_in_flight c = 0 → queries_in_flight s = 0 →
  ∃ c' out, begin_refinement c = Ok (c', out) ∧ refining ty (table c) (table s) A B (Net c' s out []).
Proof.
  intros Hty HA HB Hc Hs Qc Qs. pose proof (proj1 HA) as (_ & _ & _ & root & Hroot & _)%repr_slots.
  pose proof (proj1 HB) as (_ & _ & _ & rootB & HrootB & _)%repr_slots.
  assert (to_block_range [] = []) as E0 by (apply nil_length_inv; by rewrite blocks_length).
  pose proof (indexed_at ty Hty _ _ [] 0 root HA eq_refl Hroot) as In. destruct (sent_by_real ty Hty _ _ [] 0 root HA eq_refl Hroot) as (Hsent & Ep & El).
  unfold begin_refinement, load_merkle_node. unfold key in Hroot. rewrite E0 in Hroot. rewrite Hroot. cbn [of_option mbind result_bind].
  destruct c as [t v se q ca li pi tb d its itr mi ma]. destruct Hc as [E1 E2 E3 E4 E5 E6 E7]. cbn in *. subst t v ca d q.
  destruct (known_type_string ty Hty) as [str ->]. cbn [mbind result_bind]. eexists _, _. split; [done|].
  split; cbn [client server to_server to_client]; [by split|done|by apply Forall_singleton|constructor|done|by rewrite Qs|done|done|].
  intros x Hx Hx'. left. eexists. split; [by left|]. exists root. rewrite Ep, El. split_and!; [done|done|by eexists|].
  left. eapply indexed_real; [exact In|]. unfold key. by rewrite E0.
Qed.

(** C38: the merkle trie is an index of the items.  Noting any list of twenty-byte
    identifiers and recalculating the hashes trips no assertion; collecting
    the items of the root gives exactly the set noted, and [locate_item] finds
    an identifier, at a node that has it as a leaf, if and only if it was
    noted. *)
Theorem index_exact ty v items :
  known_type ty → Forall valid_id items →
  ∃ r, index_items ty v items = Ok r ∧ local_items r = list_to_set items ∧
    collect_items_in_subtree merkle_num_tree_levels (table r) [] 0 ∅ = Ok (list_to_set items) ∧
    ∀ x, valid_id x →
      if decide (x ∈ items)
      then ∃ k nd, locate_item (table r) x = Ok (Some (k, nd)) ∧ slot_st nd k = leaf_state ∧ slot_val nd k = x
      else locate_item (table r) x = Ok None.
Proof.
  intros Hty Hv. destruct (index_items_ok ty v items ∅ Hty Hv) as (r & E & Hix & Hr & _). exists r.
  assert (to_block_range [] = []) as E0 by (apply nil_length_inv; by rewrite blocks_length).
  split_and!; [done|apply Hr| |].
  - pose proof (collect_ok ty merkle_num_tree_levels (table r) [] 0 _ ∅ ltac:(cbn; lia) (proj1 Hix)) as Hc.
    by rewrite E0, union_empty_r_L in Hc.
  - intros x Hx. pose proof (locate_loop_ok ty merkle_num_tree_levels (table r) [] 0 _ x (proj1 Hix) eq_refl Hx eq_refl) as Hl.
    destruct (decide (x ∈ items)) as [Hin|Hin].
    + rewrite decide_True in Hl by (by apply elem_of_list_to_set).
      destruct Hl as (k & nd & c & l & El & (_ & _ & _ & _ & ? & ?) & _). by exists k, nd.
    + by rewrite decide_False in Hl by (by rewrite elem_of_list_to_set).
Qed.

(** C14: refinement finds exactly what to send.  Two peers index their items and
    the client sends its first query.  Unless two different nodes of the two
    tables have the same hash, every exchange ends, in whatever order the two
    queues are served, and it ends with both sides done, empty queues, each
    side about to send exactly the items that the other lacks, and told how
    many it will receive. *)
Theorem refinement_exact ty client_ids server_ids c s :
  known_type ty → Forall valid_id client_ids → Forall valid_id server_ids →
  index_items ty client_voice client_ids = Ok c → index_items ty server_voice server_ids = Ok s →
  no_collision (table c) (table s) →
  ∃ c' out, begin_refinement c = Ok (c', out) ∧
    let start := Net c' s out [] in
    sn step start ∧ ∀ n, rtc step start n → nf step n → finished (list_to_set client_ids) (list_to_set server_ids) n.
Proof.
  intros Hty Hcv Hsv Ec Es Hnc.
  destruct (index_items_ok ty client_voice client_ids (list_to_set server_ids) Hty Hcv) as (c0 & Ec0 & HA & Rc & Qc).
  destruct (index_items_ok ty server_voice server_ids (list_to_set client_ids) Hty Hsv) as (s0 & Es0 & HB & Rs & Qs).
  assert (c0 = c) as -> by congruence. assert (s0 = s) as -> by congruence.
  destruct (start_refining ty _ _ c s Hty HA HB Rc Rs Qc Qs) as (c' & out & E & Hr). exists c', out. split; [done|].
  pose proof (no_collision_sym _ _ Hnc) as Hnc'.
  assert (invariant ty (table c) (table s) (list_to_set client_ids) (list_to_set server_ids) (Net c' s out [])) as Hinv by (by left).
  split; [by apply (invariant_terminates ty Hty _ _ _ _ HA HB Hnc Hnc')|]. intros n Hn Hnf.
  destruct (invariant_progress ty Hty _ _ _ _ HA HB Hnc Hnc' n) as [[_ Hf]|Hred]; [|done|by destruct Hnf].
  by eapply (invariant_rtc ty Hty _ _ _ _ HA HB Hnc Hnc').
Qed.

(** C15: refinement is safe throughout, unless two different trie nodes of the
    two sides have the same hash.  In every state of the exchange each side
    believes of the other only to have items that it has, so that nothing the
    other lacks is left out; and the next command of either queue is received
    without an assertion failing, the check of the query counter included. *)
Theorem refinement_safe ty client_ids server_ids c s c' out n :
  known_type ty → Forall valid_id client_ids → Forall valid_id server_ids →
  index_items ty client_voice client_ids = Ok c → index_items ty server_voice server_ids = Ok s →
  no_collision (table c) (table s) → begin_refinement c = Ok (c', out) → rtc step (Net c' s out []) n →
  peer_items (client n) ⊆ list_to_set server_ids ∧ peer_items (server n) ⊆ list_to_set client_ids ∧
  (∀ m q, to_server n = m :: q → ∃ r, receive (server n) m = Ok r) ∧
  (∀ m q, to_client n = m :: q → ∃ r, receive (client n) m = Ok r).
Proof.
  intros Hty Hcv Hsv Ec Es Hnc E Hn.
  destruct (index_items_ok ty client_voice client_ids (list_to_set server_ids) Hty Hcv) as (c0 & Ec0 & HA & Rc & Qc).
  destruct (index_items_ok ty server_voice server_ids (list_to_set client_ids) Hty Hsv) as (s0 & Es0 & HB & Rs & Qs).
  assert (c0 = c) as -> by congruence. assert (s0 = s) as -> by congruence. pose proof (no_collision_sym _ _ Hnc) as Hnc'.
  destruct (start_refining ty _ _ c s Hty HA HB Rc Rs Qc Qs) as (c2 & out2 & E2 & Hr). rewrite E in E2. injection E2 as <- <-.
  assert (invariant ty (table c) (table s) (list_to_set client_ids) (list_to_set server_ids) n) as Hinv.
  { eapply (invariant_rtc ty Hty _ _ _ _ HA HB Hnc Hnc'); [by left|done]. }
  destruct (invariant_safe _ _ _ _ _ n Hinv) as [S1 S2]. destruct (invariant_heads ty Hty _ _ _ _ HA HB Hnc Hnc' n Hinv). done.
Qed.
End result.

(** ** An exchange *)

Module Exchange.
Definition ident (a b : Z) : bytes := byte_of a :: byte_of b :: replicate 18 "x"%char.
Definition client_ids : list bytes := [ident 17 1; ident 17 2; ident 33 3].
Definition server_ids : list bytes := [ident 17 2; ident 17 3; ident 49 4].

Definition get (m : result refiner) : refiner :=
  match m with Ok r => r | Err _ => new_refiner revision_item client_voice end.
Definition client_side : refiner := get (index_items revision_item client_voice client_ids).
Definition server_side : refiner := get (index_items revision_item server_voice server_ids).

Definition no_collision_b (tab tab' : merkle_table) : bool :=
  forallb (λ p, forallb (λ q,
    negb (bool_decide (raw_sha1 (node_body p.2) = raw_sha1 (node_body q.2))) || bool_decide (node_body p.2 = node_body q.2))
    (map_to_list tab')) (map_to_list tab).

Lemma no_collision_b_sound tab tab' : no_collision_b tab tab' = true → no_collision tab tab'.
Proof.
  unfold no_collision_b. rewrite forallb_forall. intros H k k' nd nd' Hn Hn' E.
  specialize (H (k, nd)). rewrite forallb_forall in H. specialize (fun Hin => H Hin (k', nd')). cbn in H.
  apply elem_of_map_to_list, list_elem_of_In in Hn, Hn'. specialize (H Hn Hn'). rewrite bool_decide_true in H by done.
  by apply bool_decide_eq_true in H.
Qed.

Lemma indexes :
  Forall valid_id client_ids ∧ Forall valid_id server_ids ∧
  index_items revision_item client_voice client_ids = Ok client_side ∧
  index_items revision_item server_voice server_ids = Ok server_side ∧ no_collision (table client_side) (table server_side).
Proof.
  split_and!; [by repeat constructor|by repeat constructor|vm_compute; reflexivity|vm_compute; reflexivity|].
  apply no_collision_b_sound. vm_compute. reflexivity.
Qed.

(** Commands delivered in turn, the server's queue first. *)
Fixpoint run (fuel : nat) (n : net) : result net :=
  match fuel, n with
  | S fuel, Net c s (m :: q) tc => '(s, out) ← receive s m; run fuel (Net c s q (tc ++ out))
  | S fuel, Net c s ts (m :: q) => '(c, out) ← receive c m; run fuel (Net c s (ts ++ out) q)
  | _, _ => Ok n
  end.

(** The exchange, run: both sides are done and have what to send. *)
Definition exchanged : bool :=
  match '(c, out) ← begin_refinement client_side; run 40 (Net c server_side out []) with
  | Ok n => done (client n) && done (server n) &&
      bool_decide (elements (items_to_send (client n)) = elements (({[ident 17 1; ident 33 3]} : gset bytes))) &&
      bool_decide (elements (items_to_send (server n)) = elements (({[ident 17 3; ident 49 4]} : gset bytes)))
  | Err _ => false
  end.

Lemma run_steps fuel n n' : run fuel n = Ok n' → rtc step n n'.
Proof.
  revert n. induction fuel as [|fuel IH]; intros [c s ts tc]; cbn [run]; [by intros [= <-]|].
  destruct ts as [|m q]; [destruct tc as [|m q]; [by intros [= <-]|]|]; intros H; apply bind_Ok_inv in H as ([r out] & Hr & H);
    (eapply rtc_l; [by constructor|by apply IH]).
Qed.

(** The beginning of the exchange, and the state after some of it. *)
Definition start : net :=
  match begin_refinement client_side with Ok (c, out) => Net c server_side out [] | Err _ => Net client_side server_side [] [] end.
Definition halfway : net := match run 3 start with Ok n => n | Err _ => start end.

Lemma reaches_halfway : rtc step start halfway.
Proof. unfold halfway. destruct (run 3 start) as [n|] eqn:E; [by eapply run_steps|done]. Qed.

Example exchange_runs : exchanged = true.
Proof. vm_compute. reflexivity. Qed.
End Exchange.

Lemma index_exact_witness :
  ∃ r, index_items revision_item client_voice Exchange.client_ids = Ok r ∧
    collect_items_in_subtree merkle_num_tree_levels (table r) [] 0 ∅ = Ok (list_to_set Exchange.client_ids).
Proof.
  destruct (index_exact revision_item client_voice Exchange.client_ids I) as (r & E & _ & H & _);
    [by repeat constructor|]. exact (ex_intro _ r (conj E H)).
Defined.

Lemma refinement_exact_witness :
  ∃ c' out, begin_refinement Exchange.client_side = Ok (c', out) ∧
    let start := Net c' Exchange.server_side out [] in
    sn step start ∧ ∀ n, rtc step start n → nf step n →
      finished (list_to_set Exchange.client_ids) (list_to_set Exchange.server_ids) n.
Proof.
  destruct Exchange.indexes as (H1 & H2 & H3 & H4 & H5).
  exact (refinement_exact revision_item _ _ _ _ I H1 H2 H3 H4 H5).
Defined.

Lemma refinement_safe_witness :
  rtc step Exchange.start Exchange.halfway ∧ size (peer_items (client Exchange.halfway)) = 1%nat ∧
  peer_items (client Exchange.halfway) ⊆ list_to_set Exchange.server_ids ∧
  (∀ m q, to_server Exchange.halfway = m :: q → ∃ r, receive (server Exchange.halfway) m = Ok r).
Proof.
  destruct Exchange.indexes as (H1 & H2 & H3 & H4 & H5). pose proof Exchange.reaches_halfway as Hn.
  assert (begin_refinement Exchange.client_side = Ok (client Exchange.start, to_server Exchange.start)) as E by (vm_compute; reflexivity).
  destruct (refinement_safe revision_item _ _ _ _ _ _ Exchange.halfway I H1 H2 H3 H4 H5 E) as (S1 & _ & S2 & _).
  - exact Hn.
  - split; [exact Hn|]. split; [vm_compute; reflexivity|]. split; [exact S1|exact S2].
Defined.
