(* ===== verification/Globish.v ===== *)
(** * Glob patterns

    globish.cc and globish.hh: compiling a glob pattern into a string with
    control characters for its live metacharacters, printing it back, and
    matching.  An iterator range is the list of the characters in it; [fuel]
    bounds the length of the pattern that is left. *)

From S2P Require Import Prelude.

(** [enum metachar] *)
Definition META_STAR : ascii := byte_of 1.
Definition META_QUES : ascii := byte_of 2.
Definition META_CC_BRA : ascii := byte_of 3.
Definition META_CC_INV_BRA : ascii := byte_of 4.
Definition META_CC_KET : ascii := byte_of 5.
Definition META_ALT_BRA : ascii := byte_of 6.
Definition META_ALT_OR : ascii := byte_of 7.
Definition META_ALT_KET : ascii := byte_of 8.

(** [c >= ' '] *)
Definition not_control (c : ascii) : bool := 32 <=? byte_val c.

(** [std::sort] of the characters of a class; they are below 128. *)
Definition char_le (c d : ascii) : Prop := byte_val c ≤ byte_val d.

#[export] Instance char_le_dec : RelDecision char_le.
Proof. intros c d. apply Z.le_dec. Defined.

Definition sort_chars (l : bytes) : bytes := merge_sort char_le l.

(** The characters strictly between the ends of a range. *)
Definition between (start stop : Z) : bytes := map byte_of (seqZ (start + 1) (stop - start - 1)).

Section compiling.
Context (made_from : origin_type).

(** The checks before a character joins the class. *)
Definition push_class (in_class : bytes) (c : ascii) : result bytes :=
  E_ (not_control c) made_from ;;
  E_ (byte_val c <? 128) made_from ;;
  Ok (in_class ++ [c]).

(** The range that ends in [c]: what is added before [c] itself. *)
Definition push_range (in_class : bytes) (c : ascii) : result bytes :=
  E_ (not_control c) made_from ;;
  let start := byte_val (List.last in_class Ascii.zero) in
  let stop := byte_val c in
  E_ (negb (start =? stop)) made_from ;;
  E_ (start <? stop) made_from ;;
  E_ ((start <? 128) && (stop <? 128)) made_from ;;
  Ok (in_class ++ between start stop).

(** The [while (p != pat.end() && *p != ']')] loop of [compile_charclass], up to
    and over the [']'].  At the end of the pattern the class is unmatched. *)
Fixpoint class_loop (p in_class : bytes) : result (bytes * bytes) :=
  match p with
  | [] => Err (generic_failure made_from)
  | c :: p1 =>
      if bool_decide (c = "]"%char) then Ok (in_class, p1)
      else if bool_decide (c = "\"%char) then
        match p1 with
        | [] => Err (generic_failure made_from)
        | c1 :: p2 => in_class ← push_class in_class c1; class_loop p2 in_class
        end
      else if bool_decide (c = "-"%char) && bool_decide (in_class ≠ []) && bool_decide (p1 ≠ []) &&
              bool_decide (head p1 ≠ Some "]"%char) then
        match p1 with
        | [] => Err (generic_failure made_from)
        | c1 :: p2 =>
            if bool_decide (c1 = "\"%char) then
              match p2 with
              | [] => Err (generic_failure made_from)
              | c2 :: p3 =>
                  in_class ← push_range in_class c2;
                  in_class ← push_class in_class c2;
                  class_loop p3 in_class
              end
            else
              in_class ← push_range in_class c1;
              in_class ← push_class in_class c1;
              class_loop p2 in_class
        end
      else
        E_ (negb (bool_decide (c = "["%char))) made_from ;;
        in_class ← push_class in_class c;
        class_loop p1 in_class
  end.

(** From behind the opening bracket: what is appended to the output, and the
    pattern behind the closing bracket. *)
Definition compile_charclass (p : bytes) : result (bytes * bytes) :=
  E_ (bool_decide (p ≠ [])) made_from ;;
  let inverted := bool_decide (head p = Some "!"%char) || bool_decide (head p = Some "^"%char) in
  let p := if inverted then tail p else p in
  E_ (bool_decide (p ≠ [])) made_from ;;
  '(in_class, p) ← class_loop p [];
  E_ (bool_decide (in_class ≠ [])) made_from ;;
  if negb inverted && (length in_class =? 1)%nat then Ok (in_class, p)
  else
    Ok ((if inverted then META_CC_INV_BRA else META_CC_BRA) :: sort_chars in_class ++ [META_CC_KET], p).

(** The run of stars and question marks behind a star. *)
Fixpoint star_run (p : bytes) : bytes * bytes :=
  match p with
  | [] => ([], [])
  | c :: p' =>
      if bool_decide (c = "?"%char) then let '(out, rest) := star_run p' in (META_QUES :: out, rest)
      else if bool_decide (c = "*"%char) then star_run p'
      else ([], p)
  end.

(** The [for] loop of [compile_frag], from [p] on. *)
Fixpoint compile_loop (fuel : nat) (p : bytes) (brace_depth : Z) : result bytes :=
  match fuel, p with
  | _, [] => E_ (brace_depth =? 0) made_from ;; Ok []
  | O, _ => Err UndefinedBehaviour
  | S fuel, c :: p =>
      let emit := λ out p brace_depth, rest ← compile_loop fuel p brace_depth; Ok (out ++ rest) in
      if bool_decide (c = "*"%char) then
        let '(out, p) := star_run p in emit (out ++ [META_STAR]) p brace_depth
      else if bool_decide (c = "?"%char) then emit [META_QUES] p brace_depth
      else if bool_decide (c = "\"%char) then
        match p with
        | [] => Err (generic_failure made_from)
        | c :: p => E_ (not_control c) made_from ;; emit [c] p brace_depth
        end
      else if bool_decide (c = "["%char) then
        '(out, p) ← compile_charclass p; emit out p brace_depth
      else if bool_decide (c = "]"%char) then Err (generic_failure made_from)
      else if bool_decide (c = "{"%char) then
        E_ (brace_depth + 1 <? 6) made_from ;; emit [META_ALT_BRA] p (brace_depth + 1)
      else if bool_decide (c = ","%char) then
        emit [if 0 <? brace_depth then META_ALT_OR else ","%char] p brace_depth
      else if bool_decide (c = "}"%char) then
        E_ (0 <? brace_depth) made_from ;; emit [META_ALT_KET] p (brace_depth - 1)
      else E_ (not_control c) made_from ;; emit [c] p brace_depth
  end.

Definition compile_frag (pat : bytes) : result bytes := compile_loop (length pat) pat 0.

Definition compile (pat : bytes) : result bytes := compile_frag pat.
End compiling.

(** The loop over the arguments: the fragments with an [META_ALT_OR] between
    them. *)
Fixpoint compile_frags (a : bytes) (args : list bytes) : result bytes :=
  s ← compile_frag user a;
  match args with
  | [] => Ok s
  | b :: args => rest ← compile_frags b args; Ok (s ++ META_ALT_OR :: rest)
  end.

(** [compile(beg, end)] of the arguments of a command. *)
Definition compile_args (args : list bytes) : result bytes :=
  match args with
  | [] => Ok []
  | [a] => compile user a
  | a :: args => s ← compile_frags a args; Ok (META_ALT_BRA :: s ++ [META_ALT_KET])
  end.

(** ** Printing *)

Definition needs_quote (c : ascii) : bool :=
  bool_decide (c ∈ ["["; "]"; "-"; "!"; "^"; "{"; "}"; ","; "*"; "?"; "\"]%char).

Definition decode_char (escaped : bool) (c : ascii) : bytes :=
  if bool_decide (c = META_STAR) then ["*"%char]
  else if bool_decide (c = META_QUES) then ["?"%char]
  else if bool_decide (c = META_CC_BRA) then ["["%char]
  else if bool_decide (c = META_CC_KET) then ["]"%char]
  else if bool_decide (c = META_CC_INV_BRA) then ["["; "!"]%char
  else if bool_decide (c = META_ALT_BRA) then ["{"%char]
  else if bool_decide (c = META_ALT_KET) then ["}"%char]
  else if bool_decide (c = META_ALT_OR) then [","%char]
  else if needs_quote c && escaped then ["\"%char; c]
  else [c].

Definition decode (p : bytes) (escaped : bool) : bytes := flat_map (decode_char escaped) p.

Definition to_text (compiled_pattern : bytes) : bytes := decode compiled_pattern true.
Definition unescaped (compiled_pattern : bytes) : bytes := decode compiled_pattern false.

Definition contains_meta_chars (compiled_pattern : bytes) : bool :=
  existsb (λ c, bool_decide (c ∈ [META_STAR; META_QUES; META_CC_BRA; META_CC_KET; META_CC_INV_BRA;
                                  META_ALT_BRA; META_ALT_KET; META_ALT_OR])) compiled_pattern.

(** ** Matching *)

(** How far behind [p] the subpattern ends, its delimiter included. *)
Fixpoint find_loop (p : bytes) (want_alternatives : bool) (depth : Z) : result nat :=
  match p with
  | [] => Err invariant_failure
  | c :: p =>
      if bool_decide (c = META_ALT_BRA) then n ← find_loop p want_alternatives (depth + 1); Ok (S n)
      else if bool_decide (c = META_ALT_KET) then
        if depth - 1 =? 0 then Ok 1%nat else n ← find_loop p want_alternatives (depth - 1); Ok (S n)
      else if bool_decide (c = META_ALT_OR) && ((depth =? 1) && want_alternatives) then Ok 1%nat
      else n ← find_loop p want_alternatives depth; Ok (S n)
  end.

Definition find_next_subpattern (p : bytes) (want_alternatives : bool) : result nat :=
  find_loop p want_alternatives 1.

(** The [do ... while] loop over a character class, from its first character
    on: whether [sc] is in it, and the pattern behind its end. *)
Fixpoint class_chars (p : bytes) (sc : Z) (matched : bool) : result (bool * bytes) :=
  match p with
  | [] => Err invariant_failure
  | c :: p =>
      if bool_decide (c = META_CC_KET) then Ok (matched, p)
      else class_chars p sc (matched || (byte_val c =? sc))
  end.

(** The same for an inverted class, which gives up at the first hit: the
    pattern behind its end, if there is none. *)
Fixpoint outside_chars (p : bytes) (sc : Z) : result (option bytes) :=
  match p with
  | [] => Err invariant_failure
  | c :: p =>
      if bool_decide (c = META_CC_KET) then Ok (Some p)
      else if byte_val c =? sc then Ok None
      else outside_chars p sc
  end.

Definition check_class (p : bytes) : result unit :=
  I_ (bool_decide (p ≠ [])) ;;
  I_ (bool_decide (head p ≠ Some META_CC_KET)).

(** After a star, with a literal [pc] next: [match_rest] is tried behind every
    [pc] of the target. *)
Fixpoint star_literal (match_rest : bytes → result bool) (pc : ascii) (s : bytes) : result bool :=
  match s with
  | [] => Ok false
  | c :: s =>
      b ← if bool_decide (c = pc) then match_rest s else Ok false;
      if b : bool then Ok true else star_literal match_rest pc s
  end.

(** After a star, with a metacharacter next: at every position before the end,
    and at the end if that is where the star stands. *)
Fixpoint star_slow (match_rest : bytes → result bool) (s : bytes) : result bool :=
  b ← match_rest s;
  if b : bool then Ok true
  else
    match s with
    | [] | [_] => Ok false
    | _ :: s => star_slow match_rest s
    end.

(** The splits of the target between a branch and the rest of the pattern:
    [done] is what the branch has so far. *)
Fixpoint try_splits (match_sub match_rest : bytes → result bool) (done s : bytes) : result bool :=
  b ← match_sub done;
  b ← if b : bool then match_rest s else Ok false;
  if b : bool then Ok true
  else
    match s with
    | [] => Ok false
    | c :: s => try_splits match_sub match_rest (done ++ [c]) s
    end.

(** The [do ... while (pnext < prest)] loop over the branches; positions count
    from behind the opening brace, and a pass takes at least one character. *)
Fixpoint try_branches (fuel : nat) (match_ : bytes → bytes → result bool) (s p : bytes) (prest psub : nat) : result bool :=
  match fuel with
  | O => Err UndefinedBehaviour
  | S fuel =>
      n ← find_next_subpattern (drop psub p) true;
      let pnext := (psub + n)%nat in
      let match_sub := λ s, match_ s (take (n - 1) (drop psub p)) in
      let match_rest := λ s, match_ s (drop prest p) in
      b ← if (prest =? length p)%nat
          then (b ← match_sub s; if b : bool then match_rest [] else Ok false)
          else try_splits match_sub match_rest [] s;
      if b : bool then Ok true
      else if (pnext <? prest)%nat then try_branches fuel match_ s p prest pnext
      else Ok false
  end.

Fixpoint do_match (fuel : nat) (s p : bytes) : result bool :=
  match fuel with
  | O => Err UndefinedBehaviour
  | S fuel =>
      match p with
      | [] => Ok (bool_decide (s = []))
      | pc :: p =>
          let sc := match s with c :: _ => byte_val c | [] => 0 end in
          let s' := tail s in
          if bool_decide (pc = META_QUES) then
            if sc =? 0 then Ok false else do_match fuel s' p
          else if bool_decide (pc = META_CC_BRA) then
            check_class p ;;
            '(matched, p) ← class_chars p sc false;
            if negb matched then Ok false else do_match fuel s' p
          else if bool_decide (pc = META_CC_INV_BRA) then
            check_class p ;;
            rest ← outside_chars p sc;
            match rest with None => Ok false | Some p => do_match fuel s' p end
          else if bool_decide (pc = META_STAR) then
            match p with
            | [] => Ok true
            | pc :: p' =>
                if not_control pc then star_literal (λ s, do_match fuel s p') pc s
                else star_slow (λ s, do_match fuel s p) s
            end
          else if bool_decide (pc = META_ALT_BRA) then
            prest ← find_next_subpattern p false;
            try_branches (length p) (do_match fuel) s p prest 0
          else if sc =? byte_val pc then do_match fuel s' p else Ok false
      end
  end.

Definition matches (compiled_pattern target : bytes) : result bool :=
  if bool_decide (compiled_pattern = []) then Ok false
  else do_match (S (length compiled_pattern)) target compiled_pattern.

(** [globish_matcher] *)
Definition globish_matcher (included excluded s : bytes) : result bool :=
  b ← matches included s;
  if b : bool then b' ← matches excluded s; Ok (negb b') else Ok false.

(** ** The patterns of the unit tests *)

Definition glob_matches (pat target : string) : result bool :=
  c ← compile internal (lit pat); matches c (lit target).

Example complex_matches :
  (glob_matches "a[!bc]d" "and", glob_matches "a[!bc]d" "ad", glob_matches "a*b*[cd]" "abbbbbbbccd",
   glob_matches "foo{a,{b,c},?*}d" "foocd", glob_matches "{a,\\,b*}" "\", to_text <$> compile user (lit "*a?*?b*[+-/]")) =
  (Ok true, Ok false, Ok true, Ok true, Ok true, Ok (lit "*a??*b*[+\,\-./]")).
Proof. vm_compute. reflexivity. Qed.
