(* ===== verification/GlobishSpec.v ===== *)
(** * The language of a glob pattern

    The grammar of compiled patterns, the language of a pattern, and what the
    matcher of globish.cc accepts. *)

From S2P Require Import Prelude Globish.

(** ** Patterns

    A sequence of items; the branches of an alternative are patterns. *)
Inductive pattern :=
  | PNil
  | PLit (c : ascii) (p : pattern)
  | PQues (p : pattern)
  | PClass (inverted : bool) (cs : bytes) (p : pattern)
  | PStar (p : pattern)
  | PAlt (bs : branches) (p : pattern)
with branches :=
  | BOne (p : pattern)
  | BMore (p : pattern) (bs : branches).

Scheme pattern_mut := Induction for pattern Sort Prop
  with branches_mut := Induction for branches Sort Prop.
Combined Scheme pattern_branches_ind from pattern_mut, branches_mut.

(** The compiled form. *)
Fixpoint code (p : pattern) : bytes :=
  match p with
  | PNil => []
  | PLit c p => c :: code p
  | PQues p => META_QUES :: code p
  | PClass inverted cs p =>
      (if inverted then META_CC_INV_BRA else META_CC_BRA) :: cs ++ META_CC_KET :: code p
  | PStar p => META_STAR :: code p
  | PAlt bs p => META_ALT_BRA :: codes bs ++ META_ALT_KET :: code p
  end
with codes (bs : branches) : bytes :=
  match bs with
  | BOne p => code p
  | BMore p bs => code p ++ META_ALT_OR :: codes bs
  end.

(** Well-formed patterns: literals and classes hold no control characters,
    classes are not empty and sorted, a star is not followed by another one or
    by a question mark, and alternatives are nested at most [k] deep. *)
Definition class_ok (inverted : bool) (cs : bytes) : Prop :=
  cs ≠ [] ∧ Forall (λ c, 32 ≤ byte_val c < 128) cs ∧ Sorted char_le cs ∧
  (inverted = true ∨ (1 < length cs)%nat).

Definition starlike (p : pattern) : Prop :=
  match p with PStar _ | PQues _ => True | _ => False end.

Fixpoint wf (k : nat) (p : pattern) : Prop :=
  match p with
  | PNil => True
  | PLit c p => 32 ≤ byte_val c ∧ wf k p
  | PQues p => wf k p
  | PClass inverted cs p => class_ok inverted cs ∧ wf k p
  | PStar p => ¬ starlike p ∧ wf k p
  | PAlt bs p => match k with O => False | S k => wfs k bs end ∧ wf k p
  end
with wfs (k : nat) (bs : branches) : Prop :=
  match bs with
  | BOne p => wf k p
  | BMore p bs => wf k p ∧ wfs k bs
  end.

(** ** The language *)

Fixpoint lang (p : pattern) (s : bytes) : Prop :=
  match p with
  | PNil => s = []
  | PLit c p => ∃ s', s = c :: s' ∧ lang p s'
  | PQues p => ∃ c s', s = c :: s' ∧ lang p s'
  | PClass inverted cs p => ∃ c s', s = c :: s' ∧ (if inverted then c ∉ cs else c ∈ cs) ∧ lang p s'
  | PStar p => ∃ s1 s2, s = s1 ++ s2 ∧ lang p s2
  | PAlt bs p => ∃ s1 s2, s = s1 ++ s2 ∧ langs bs s1 ∧ lang p s2
  end
with langs (bs : branches) (s : bytes) : Prop :=
  match bs with
  | BOne p => lang p s
  | BMore p bs => lang p s ∨ langs bs s
  end.

(** ** What the matcher accepts *)

(** Where a star may stop, with what follows it: before the end only, unless
    the star stands there or a literal or nothing follows. *)
Fixpoint suffixes (s : bytes) : list bytes :=
  s :: match s with [] => [] | _ :: s => suffixes s end.

Fixpoint proper_suffixes (s : bytes) : list bytes :=
  s :: match s with [] | [_] => [] | _ :: s => proper_suffixes s end.

Fixpoint splits (done s : bytes) : list (bytes * bytes) :=
  (done, s) :: match s with [] => [] | c :: s => splits (done ++ [c]) s end.

Fixpoint accepts (p : pattern) (s : bytes) : bool :=
  match p with
  | PNil => bool_decide (s = [])
  | PLit c p => match s with [] => false | x :: s => bool_decide (x = c) && accepts p s end
  | PQues p => match s with [] => false | x :: s => negb (byte_val x =? 0) && accepts p s end
  | PClass false cs p => match s with [] => false | x :: s => bool_decide (x ∈ cs) && accepts p s end
  | PClass true cs p => match s with [] => accepts p [] | x :: s => negb (bool_decide (x ∈ cs)) && accepts p s end
  | PStar PNil => true
  | PStar (PLit _ _ as p) => existsb (accepts p) (suffixes s)
  | PStar p => existsb (accepts p) (proper_suffixes s)
  | PAlt bs p => existsb (λ '(s1, s2), acceptss bs s1 && accepts p s2) (splits [] s)
  end
with acceptss (bs : branches) (s : bytes) : bool :=
  match bs with
  | BOne p => accepts p s
  | BMore p bs => accepts p s || acceptss bs s
  end.

(** ** Scanning *)

Definition is_meta (c : ascii) : Prop := byte_val c < 32.

Lemma byte_val_inj c d : byte_val c = byte_val d → c = d.
Proof. intros E. by rewrite <- (byte_of_val c), <- (byte_of_val d), E. Qed.

Lemma not_meta c m : 32 ≤ byte_val c → byte_val m < 32 → bool_decide (c = m) = false.
Proof. intros H1 H2. apply bool_decide_eq_false. intros ->. lia. Qed.

(** Comparisons of metacharacters with each other, and with other characters. *)
Ltac metas :=
  repeat match goal with
  | |- context [bool_decide (?a = ?b)] =>
      let v := eval vm_compute in (bool_decide (a = b)) in
      match v with
      | true => change (bool_decide (a = b)) with true
      | false => change (bool_decide (a = b)) with false
      end
  end; cbn [andb orb negb].

Ltac not_metas := rewrite ?not_meta by (assumption || reflexivity || lia).

Lemma find_loop_plain c p w d :
  32 ≤ byte_val c → find_loop (c :: p) w d = S <$> find_loop p w d.
Proof. intros H. cbn [find_loop]. not_metas. by destruct (find_loop p w d). Qed.

Lemma find_loop_app (cs : bytes) p w d :
  Forall (λ c, 32 ≤ byte_val c < 128) cs → find_loop (cs ++ p) w d = Nat.add (length cs) <$> find_loop p w d.
Proof.
  induction 1 as [|c cs Hc _ IH]; cbn [app length]; [by destruct (find_loop p w d)|].
  rewrite find_loop_plain by lia. rewrite IH. by destruct (find_loop p w d).
Qed.

(** A balanced pattern is passed over; its commas count at depth one only. *)
Lemma find_loop_code :
  (∀ p k rest w d, wf k p → 1 ≤ d → find_loop (code p ++ rest) w d = Nat.add (length (code p)) <$> find_loop rest w d) ∧
  (∀ bs k rest w d, wfs k bs → 1 ≤ d → 2 ≤ d ∨ w = false → find_loop (codes bs ++ rest) w d = Nat.add (length (codes bs)) <$> find_loop rest w d).
Proof.
  apply pattern_branches_ind; cbn [code codes app length].
  - intros k rest w d _ _. by destruct (find_loop rest w d).
  - intros c p IH k rest w d [Hc Hp] Hd. rewrite find_loop_plain by done. rewrite (IH k) by done.
    by destruct (find_loop rest w d).
  - intros p IH k rest w d Hp Hd. cbn [find_loop]. metas. rewrite (IH k) by done. by destruct (find_loop rest w d).
  - intros i cs p IH k rest w d [(_ & Hcs & _) Hp] Hd. rewrite <- app_assoc. cbn [app].
    assert (find_loop (cs ++ META_CC_KET :: code p ++ rest) w d
            = Nat.add (length (cs ++ META_CC_KET :: code p)) <$> find_loop rest w d) as E.
    { rewrite find_loop_app by done. cbn [find_loop]. metas. rewrite (IH k) by done. rewrite length_app. cbn [length].
      destruct (find_loop rest w d); cbn; [|done]. f_equal. lia. }
    destruct i; cbn [find_loop]; metas; rewrite E; by destruct (find_loop rest w d).
  - intros p IH k rest w d [_ Hp] Hd. cbn [find_loop]. metas. rewrite (IH k) by done. by destruct (find_loop rest w d).
  - intros bs IHb p IHp k rest w d [Hb Hp] Hd. destruct k as [|k]; [done|]. rewrite <- app_assoc. cbn [app].
    cbn [find_loop]. metas. rewrite (IHb k) by (done || lia). cbn [find_loop]. metas.
    replace (d + 1 - 1) with d by lia. rewrite (proj2 (Z.eqb_neq d 0)) by lia. rewrite (IHp (S k)) by done.
    rewrite length_app. cbn [length]. destruct (find_loop rest w d); cbn; [|done]. f_equal. lia.
  - intros p IH k rest w d Hp Hd _. by apply (IH k).
  - intros p IHp bs IHb k rest w d [Hp Hb] Hd Hw. rewrite <- app_assoc. cbn [app].
    rewrite (IHp k) by (done || lia). cbn [find_loop]. metas. replace ((d =? 1) && w) with false by (destruct Hw as [?| ->]; [by rewrite (proj2 (Z.eqb_neq d 1)) by lia|by rewrite andb_false_r]).
    rewrite (IHb k) by done. rewrite length_app. cbn [length]. destruct (find_loop rest w d); cbn; [|done]. f_equal. lia.
Qed.

(** ** The loops of the matcher *)

Section loops.
Context (f : bytes → result bool) (g : bytes → bool) (Hf : ∀ s, f s = Ok (g s)).

Lemma star_literal_spec c s :
  star_literal f c s =
  Ok (existsb (λ t, match t with [] => false | x :: t => bool_decide (x = c) && g t end) (suffixes s)).
Proof.
  induction s as [|x s IH]; [done|]. cbn [star_literal suffixes existsb].
  destruct (bool_decide (x = c)); cbn [andb orb mbind result_bind]; [|exact IH].
  rewrite Hf. cbn [mbind result_bind]. by destruct (g s).
Qed.

Lemma star_slow_spec s : star_slow f s = Ok (existsb g (proper_suffixes s)).
Proof.
  induction s as [|x s IH]; cbn [star_slow proper_suffixes existsb]; rewrite Hf; cbn [mbind result_bind];
    [by destruct (g [])|]. destruct (g (x :: s)); [done|]. destruct s; [done|exact IH].
Qed.
End loops.

Lemma try_splits_spec f1 f2 (g1 g2 : bytes → bool) done s :
  (∀ s, f1 s = Ok (g1 s)) → (∀ s, f2 s = Ok (g2 s)) →
  try_splits f1 f2 done s = Ok (existsb (λ '(s1, s2), g1 s1 && g2 s2) (splits done s)).
Proof.
  intros H1 H2. revert done. induction s as [|c s IH]; intros done; cbn [try_splits splits existsb];
    rewrite H1; cbn [mbind result_bind]; destruct (g1 done); cbn [andb orb mbind result_bind]; rewrite ?H2; cbn [mbind result_bind];
    try destruct (g2 _); by try apply IH.
Qed.

Lemma splits_end (g : bytes → bool) done s :
  existsb (λ '(s1, s2), g s1 && bool_decide (s2 = [])) (splits done s) = g (done ++ s).
Proof.
  revert done. induction s as [|c s IH]; intros done; cbn [splits existsb].
  - rewrite app_nil_r, bool_decide_true by done. by destruct (g done).
  - rewrite bool_decide_false by done. rewrite andb_false_r. cbn [orb]. rewrite IH. by rewrite <- app_assoc.
Qed.

Lemma splits_or (a b c : bytes → bool) s :
  existsb (λ '(s1, s2), (a s1 || b s1) && c s2) (splits [] s) =
  existsb (λ '(s1, s2), a s1 && c s2) (splits [] s) || existsb (λ '(s1, s2), b s1 && c s2) (splits [] s).
Proof.
  induction (splits [] s) as [|[s1 s2] l IH]; [done|]. cbn [existsb]. rewrite IH.
  by destruct (a s1), (b s1), (c s2), (existsb _ l), (existsb _ l).
Qed.

(** The branches are matched by [f], each with its own text. *)
Fixpoint branches_ok (f : bytes → bytes → result bool) (bs : branches) : Prop :=
  match bs with
  | BOne p => ∀ s, f s (code p) = Ok (accepts p s)
  | BMore p bs => (∀ s, f s (code p) = Ok (accepts p s)) ∧ branches_ok f bs
  end.

Lemma code_nil p : code p = [] → p = PNil.
Proof. destruct p as [| | |[]| |]; done. Qed.

(** One branch against the target, the rest of the pattern behind it. *)
Lemma one_branch (f : bytes → bytes → result bool) b q s n (l : bytes) :
  (∀ s, f s b = Ok (n s)) → (∀ s, f s (code q) = Ok (accepts q s)) →
  (if (length l =? length (l ++ code q))%nat
   then (b' ← f s b; if b' : bool then f [] (code q) else Ok false)
   else try_splits (λ s, f s b) (λ s, f s (code q)) [] s) =
  Ok (existsb (λ '(s1, s2), n s1 && accepts q s2) (splits [] s)).
Proof.
  intros Hb Hq. rewrite length_app. destruct (Nat.eqb_spec (length l) (length l + length (code q))) as [E|_].
  - assert (q = PNil) as -> by (apply code_nil, nil_length_inv; lia). rewrite Hb. cbn [mbind result_bind accepts].
    rewrite (splits_end n [] s). cbn [app]. destruct (n s); [|done]. rewrite Hq. cbn [accepts]. by rewrite bool_decide_true.
  - by apply try_splits_spec.
Qed.

Lemma try_branches_spec f q s bs : ∀ fuel k pre,
  wfs k bs → branches_ok f bs → (∀ s, f s (code q) = Ok (accepts q s)) → (length (codes bs) < fuel)%nat →
  try_branches fuel f s (pre ++ codes bs ++ META_ALT_KET :: code q) (length pre + length (codes bs) + 1) (length pre) =
  Ok (existsb (λ '(s1, s2), acceptss bs s1 && accepts q s2) (splits [] s)).
Proof.
  induction bs as [p|p bs IH]; intros fuel k pre Hw Hb Hq Hfuel; (destruct fuel as [|fuel]; [lia|]); cbn [try_branches].
  - rewrite drop_app_length. unfold find_next_subpattern. cbn [codes] in *. rewrite (proj1 find_loop_code p k) by (done || lia).
    cbn [find_loop]. metas. cbn [Z.eqb Z.sub Z.add Z.opp Z.pos_sub fmap result_fmap mbind result_bind].
    change (1 - 1 =? 0) with true. cbn [fmap result_fmap mbind result_bind].
    replace (length (code p) + 1 - 1)%nat with (length (code p)) by lia. rewrite take_app_length.
    set (l := pre ++ code p ++ [META_ALT_KET]).
    assert (pre ++ code p ++ META_ALT_KET :: code q = l ++ code q) as E1 by (unfold l; by rewrite <- !app_assoc).
    assert ((length pre + length (code p) + 1)%nat = length l) as E2 by (unfold l; rewrite !length_app; cbn; lia).
    rewrite E2, E1, drop_app_length. rewrite (one_branch f (code p) q s (accepts p) l Hb Hq).
    cbn [mbind result_bind acceptss]. destruct (existsb _ _); [done|].
    rewrite <- E2. destruct (Nat.ltb_spec (length pre + (length (code p) + 1)) (length pre + length (code p) + 1)); [lia|done].
  - destruct Hw as [Hp Hw]. destruct Hb as [Hpb Hb]. rewrite drop_app_length. unfold find_next_subpattern. cbn [codes] in *.
    rewrite <- app_assoc. cbn [app]. rewrite (proj1 find_loop_code p k) by (done || lia).
    cbn [find_loop]. metas. change (1 =? 1) with true. cbn [andb fmap result_fmap mbind result_bind].
    replace (length (code p) + 1 - 1)%nat with (length (code p)) by lia. rewrite take_app_length.
    set (l := pre ++ code p ++ META_ALT_OR :: codes bs ++ [META_ALT_KET]).
    assert (pre ++ code p ++ META_ALT_OR :: codes bs ++ META_ALT_KET :: code q = l ++ code q) as E1.
    { unfold l. rewrite <- !app_assoc. cbn [app]. by rewrite <- app_assoc. }
    assert ((length pre + length (code p ++ META_ALT_OR :: codes bs) + 1)%nat = length l) as E2.
    { unfold l. rewrite !length_app. cbn [length]. rewrite length_app. cbn [length]. lia. }
    rewrite E2, E1. rewrite drop_app_length. pose proof (one_branch f (code p) q s (accepts p) l Hpb Hq) as H.
    rewrite H. cbn [mbind result_bind acceptss]. rewrite splits_or. destruct (existsb (λ '(s1, s2), accepts p s1 && accepts q s2) (splits [] s)); [done|]. cbn [orb].
    assert (length l = length (pre ++ code p ++ [META_ALT_OR]) + length (codes bs) + 1)%nat as E3.
    { unfold l. rewrite !length_app. cbn [length]. rewrite length_app. cbn [length]. lia. }
    assert (length pre + (length (code p) + 1) = length (pre ++ code p ++ [META_ALT_OR]))%nat as E4.
    { rewrite !length_app. cbn. lia. }
    rewrite E4. destruct (Nat.ltb_spec (length (pre ++ code p ++ [META_ALT_OR])) (length l)) as [_|?]; [|lia].
    rewrite E3. rewrite <- (IH fuel k (pre ++ code p ++ [META_ALT_OR])); [|done|done|done|].
    + f_equal. rewrite <- E1. by rewrite <- !app_assoc.
    + rewrite length_app in Hfuel. cbn [length] in Hfuel. lia.
Qed.

(** ** Classes *)

Lemma class_chars_spec cs rest sc m :
  Forall (λ c, 32 ≤ byte_val c < 128) cs →
  class_chars (cs ++ META_CC_KET :: rest) sc m = Ok (m || existsb (λ c, byte_val c =? sc) cs, rest).
Proof.
  intros H. revert m. induction H as [|c cs Hc _ IH]; intros m; cbn [app class_chars existsb].
  - metas. by rewrite orb_false_r.
  - rewrite not_meta by (lia || reflexivity). by rewrite IH, orb_assoc.
Qed.

Lemma outside_chars_spec cs rest sc :
  Forall (λ c, 32 ≤ byte_val c < 128) cs →
  outside_chars (cs ++ META_CC_KET :: rest) sc = Ok (if existsb (λ c, byte_val c =? sc) cs then None else Some rest).
Proof.
  induction 1 as [|c cs Hc _ IH]; cbn [app outside_chars existsb]; [by metas|].
  rewrite not_meta by (lia || reflexivity). destruct (byte_val c =? sc); [done|exact IH].
Qed.

Lemma class_member cs x : existsb (λ c, byte_val c =? byte_val x) cs = bool_decide (x ∈ cs).
Proof.
  apply eq_bool_prop_intro. rewrite Is_true_true, existsb_exists, bool_decide_spec. split.
  - intros (c & Hc & E%Z.eqb_eq%byte_val_inj). subst. by apply list_elem_of_In.
  - intros Hx%list_elem_of_In. exists x. split; [done|]. apply Z.eqb_refl.
Qed.

Lemma class_end cs : Forall (λ c, 32 ≤ byte_val c < 128) cs → existsb (λ c, byte_val c =? 0) cs = false.
Proof. induction 1 as [|c cs Hc _ IH]; [done|]. cbn. rewrite IH, (proj2 (Z.eqb_neq _ _)) by lia. done. Qed.

Lemma check_class_ok cs rest :
  cs ≠ [] → Forall (λ c, 32 ≤ byte_val c < 128) cs → check_class (cs ++ rest) = Ok tt.
Proof.
  intros Hne Hcs. destruct Hcs as [|c cs Hc _]; [done|]. unfold check_class. cbn [app head].
  rewrite (bool_decide_true (c :: cs ++ rest ≠ [])) by done. cbn [I_ mbind result_bind]. rewrite bool_decide_true; [done|].
  intros [= ->]. change (byte_val META_CC_KET) with 5 in Hc. lia.
Qed.

(** ** The matcher accepts what it accepts

    A star before anything but a literal is matched the slow way. *)
Lemma star_head p k c rest :
  wf k p → ¬ starlike p → code p = c :: rest →
  if not_control c then ∃ p', p = PLit c p' else ∀ s, accepts (PStar p) s = existsb (accepts p) (proper_suffixes s).
Proof. destruct p as [|d p|p|[] cs p|p|bs p]; cbn; intros Hw Hs [= <- _]; try done.
  unfold not_control. rewrite (proj2 (Z.leb_le _ _)) by apply Hw. by exists p.
Qed.

Lemma do_match_accepts :
  (∀ p k fuel s, wf k p → (length (code p) < fuel)%nat → do_match fuel s (code p) = Ok (accepts p s)) ∧
  (∀ bs k fuel, wfs k bs → (length (codes bs) < fuel)%nat → branches_ok (do_match fuel) bs).
Proof.
  apply pattern_branches_ind; cbn [code codes branches_ok].
  - intros k [|fuel] s _ Hf; [lia|done].
  - intros c p IH k fuel s [Hc Hp] Hf. destruct fuel as [|fuel]; [lia|]. cbn [do_match length] in *. not_metas.
    destruct s as [|x s]; cbn [accepts tail]; [by rewrite (proj2 (Z.eqb_neq _ _)) by lia|].
    destruct (Z.eqb_spec (byte_val x) (byte_val c)) as [E|E].
    + apply byte_val_inj in E as ->. rewrite bool_decide_true by done. apply (IH k); [done|lia].
    + rewrite bool_decide_false by (by intros ->). done.
  - intros p IH k fuel s Hp Hf. destruct fuel as [|fuel]; [lia|]. cbn [do_match length] in *. metas.
    destruct s as [|x s]; cbn [accepts tail]; [done|]. destruct (byte_val x =? 0); [done|]. apply (IH k); [done|lia].
  - intros i cs p IH k fuel s [(Hne & Hcs & _) Hp] Hf. destruct fuel as [|fuel]; [lia|]. cbn [length] in Hf.
    rewrite length_app in Hf. cbn [length] in Hf. assert (length (code p) < fuel)%nat as Hf' by lia.
    destruct i; cbn [do_match]; metas; rewrite check_class_ok by done; cbn [mbind result_bind].
    + rewrite outside_chars_spec by done. cbn [mbind result_bind].
      destruct s as [|x s]; cbn [accepts tail]; [rewrite class_end by done; by apply (IH k)|].
      rewrite class_member. destruct (bool_decide (x ∈ cs)); [done|]. by apply (IH k).
    + rewrite class_chars_spec by done. cbn [mbind result_bind orb].
      destruct s as [|x s]; cbn [accepts tail]; [by rewrite class_end by done|].
      rewrite class_member. destruct (bool_decide (x ∈ cs)); [|done]. by apply (IH k).
  - intros p IH k fuel s [Hs Hp] Hf. destruct fuel as [|fuel]; [lia|]. cbn [length] in Hf. cbn [do_match]. metas.
    destruct (code p) as [|c rest] eqn:E; [by rewrite (code_nil p E)|]. pose proof (star_head p k c rest Hp Hs E) as H.
    destruct (not_control c).
    + destruct H as [p' ->]. cbn [code] in E. injection E as <-. cbn [accepts].
      assert (∀ s, do_match fuel s (code p') = Ok (accepts p' s)) as Hm.
      { intros t. pose proof (IH k (S fuel) (c :: t) Hp ltac:(lia)) as E. destruct Hp as [Hc Hp]. cbn [code do_match accepts tail] in E.
        rewrite !not_meta, Z.eqb_refl, bool_decide_true in E by (done || reflexivity). exact E. }
      rewrite (star_literal_spec _ _ Hm). done.
    + rewrite H, (star_slow_spec _ (accepts p)); [done|]. intros t. apply (IH k); [done|lia].
  - intros bs IHb p IHp k fuel s [Hb Hp] Hf. destruct k as [|k]; [done|]. destruct fuel as [|fuel]; [lia|]. cbn [length] in Hf.
    rewrite length_app in Hf. cbn [length] in Hf. cbn [do_match]. metas. unfold find_next_subpattern.
    rewrite (proj2 find_loop_code bs k) by (done || lia || by right). cbn [find_loop]. metas. change (1 - 1 =? 0) with true.
    cbn [fmap result_fmap mbind result_bind].
    refine (try_branches_spec (do_match fuel) p s bs _ k [] Hb _ _ _).
    + apply (IHb k); [done|lia].
    + intros t. apply (IHp (S k)); [done|lia].
    + rewrite length_app. cbn. lia.
  - intros p IH k fuel Hp Hf s. by apply (IH k).
  - intros p IHp bs IHb k fuel [Hp Hb] Hf. rewrite length_app in Hf. cbn [length] in Hf.
    split; [intros s; apply (IHp k); [done|lia]|apply (IHb k); [done|lia]].
Qed.

(** ** Where the matcher is exact

    An inverted class must not be followed by a pattern that the end of the
    target satisfies, and neither must a star that stands before an
    alternative. *)
Fixpoint precise (p : pattern) : bool :=
  match p with
  | PNil => true
  | PLit _ p | PQues p | PClass false _ p => precise p
  | PClass true _ p => negb (accepts p []) && precise p
  | PStar p => match p with PAlt _ _ => negb (accepts p []) | _ => true end && precise p
  | PAlt bs p => precises bs && precise p
  end
with precises (bs : branches) : bool :=
  match bs with
  | BOne p => precise p
  | BMore p bs => precise p && precises bs
  end.

(** No target holds a NUL: it would end a C string. *)
Definition nul_free (s : bytes) : Prop := Forall (λ c, byte_val c ≠ 0) s.

Lemma elem_of_suffixes s t : In t (suffixes s) ↔ ∃ l, s = l ++ t.
Proof.
  induction s as [|x s IH]; cbn.
  - split; [intros [<-|[]]; by exists []|]. intros [l E]. left. symmetry in E. by apply app_eq_nil in E as [_ ->].
  - rewrite IH. split.
    + intros [<-|[l ->]]; [by exists []|by exists (x :: l)].
    + intros [[|y l] E]; [by left|]. injection E as -> ->. right. by exists l.
Qed.

Lemma elem_of_proper s t : In t (proper_suffixes s) ↔ (∃ l, s = l ++ t) ∧ (t ≠ [] ∨ s = []).
Proof.
  induction s as [|x s IH].
  - cbn. split; [intros [<-|[]]; split; [by exists []|by right]|]. intros [[l E] _]. left. symmetry in E. by apply app_eq_nil in E as [_ ->].
  - cbn [proper_suffixes]. destruct s as [|y s].
    + cbn. split; [intros [<-|[]]; split; [by exists []|by left]|]. intros [[[|z l] E] [Ht|?]]; [by left|by left| |done].
      injection E as _ E. symmetry in E. by apply app_eq_nil in E as [_ ->].
    + cbn [In]. rewrite IH. split.
      * intros [<-|[[l E] [Ht|?]]]; [split; [by exists []|by left]| |done]. split; [exists (x :: l); by rewrite E|by left].
      * intros [[[|z l] E] [Ht|?]]; [by left|by left| |done]. injection E as -> E. right. split; [by exists l|by left].
Qed.

Lemma elem_of_splits d s s1 s2 : In (s1, s2) (splits d s) ↔ ∃ l, s1 = d ++ l ∧ s = l ++ s2.
Proof.
  revert d. induction s as [|x s IH]; intros d; cbn.
  - split; [intros [[= <- <-]|[]]; exists []; by rewrite app_nil_r|]. intros (l & -> & E). left. symmetry in E.
    apply app_eq_nil in E as [-> ->]. by rewrite app_nil_r.
  - rewrite IH. split.
    + intros [[= <- <-]|(l & -> & ->)]; [exists []; by rewrite app_nil_r|]. exists (x :: l). by rewrite <- app_assoc.
    + intros ([|y l] & -> & E); cbn in E; [left; by rewrite app_nil_r, E|]. injection E as -> ->. right. exists l. by rewrite <- app_assoc.
Qed.

Lemma nul_free_app s1 s2 : nul_free (s1 ++ s2) ↔ nul_free s1 ∧ nul_free s2.
Proof. apply Forall_app. Qed.

(** A star, whichever way it is matched. *)
Lemma accepts_star p s :
  ¬ starlike p → accepts (PStar p) s = true ↔
  ∃ s1 s2, s = s1 ++ s2 ∧ (p = PNil ∨ accepts p s2 = true ∧ (s2 ≠ [] ∨ s = [] ∨ ∃ c q, p = PLit c q)).
Proof.
  intros Hs. assert (∀ P : bytes → Prop, (∃ t, In t (proper_suffixes s) ∧ P t) ↔ ∃ s1 s2, s = s1 ++ s2 ∧ P s2 ∧ (s2 ≠ [] ∨ s = [])) as Hp.
  { intros P. setoid_rewrite elem_of_proper. naive_solver. }
  destruct p as [|c p|p|i cs p|p|bs p]; try done; cbn [accepts].
  - split; [|done]. intros _. exists s, []. split; [by rewrite app_nil_r|by left].
  - rewrite existsb_exists. setoid_rewrite elem_of_suffixes. split.
    + intros (t & [l ->] & Ht). exists l, t. split; [done|]. right. split; [done|]. right; right. by exists c, p.
    + intros (s1 & s2 & -> & [?|[H _]]); [done|]. exists s2. split; [by exists s1|done].
  - rewrite existsb_exists, Hp. naive_solver.
  - rewrite existsb_exists, Hp. naive_solver.
Qed.

Lemma accepts_lang :
  (∀ p k s, wf k p → precise p = true → nul_free s → accepts p s = true ↔ lang p s) ∧
  (∀ bs k s, wfs k bs → precises bs = true → nul_free s → acceptss bs s = true ↔ langs bs s).
Proof.
  apply pattern_branches_ind; cbn [wf wfs precise precises lang langs acceptss].
  - intros k s _ _ _. cbn. by rewrite bool_decide_eq_true.
  - intros c p IH k s [_ Hp] He Hs. destruct s as [|x s]; cbn [accepts]; [split; [done|naive_solver]|].
    apply Forall_cons in Hs as [_ Hs]. rewrite andb_true_iff, bool_decide_eq_true, (IH k s) by done. naive_solver.
  - intros p IH k s Hp He Hs. destruct s as [|x s]; cbn [accepts]; [split; [done|naive_solver]|].
    apply Forall_cons in Hs as [Hx Hs]. rewrite (proj2 (Z.eqb_neq _ _)) by done. rewrite (IH k s) by done. naive_solver.
  - intros i cs p IH k s [_ Hp] He Hs. destruct i; [apply andb_true_iff in He as [Hn%negb_true_iff He]|];
      (destruct s as [|x s]; cbn [accepts]; [|apply Forall_cons in Hs as [_ Hs]]).
    + rewrite Hn. split; [done|naive_solver].
    + rewrite andb_true_iff, negb_true_iff, bool_decide_eq_false, (IH k s) by done. naive_solver.
    + split; [done|naive_solver].
    + rewrite andb_true_iff, bool_decide_eq_true, (IH k s) by done. naive_solver.
  - intros p IH k s [Hst Hp] [Ha He]%andb_true_iff Hs. rewrite accepts_star by done. split.
    + intros (s1 & s2 & -> & [-> | [H _]]).
      * exists (s1 ++ s2), []. by rewrite app_nil_r.
      * exists s1, s2. split; [done|]. apply nul_free_app in Hs as [_ Hs]. by apply (IH k).
    + intros (s1 & s2 & -> & H). apply nul_free_app in Hs as [_ Hs]. apply (IH k) in H; [|done..]. exists s1, s2. split; [done|].
      destruct p as [|c q|q|[] cs q|q|bs q]; [by left| |done| | |done|]; right; (split; [done|]).
      * right; right. by exists c, q.
      * left. intros ->. cbn [precise] in He. cbn [accepts] in H. rewrite H in He. done.
      * left. intros ->. by cbn in H.
      * left. intros ->. by rewrite H in Ha.
  - intros bs IHb p IHp k s [Hb Hp] [Heb Hep]%andb_true_iff Hs. destruct k as [|k]; [done|]. cbn [accepts].
    rewrite existsb_exists. split.
    + intros ([s1 s2] & (l & -> & ->)%elem_of_splits & [H1 H2]%andb_true_iff). apply nul_free_app in Hs as [Hs1 Hs2]. exists l, s2.
      split; [done|]. split; [by apply (IHb k)|by apply (IHp (S k))].
    + intros (s1 & s2 & -> & H1 & H2). apply nul_free_app in Hs as [Hs1 Hs2]. exists (s1, s2). split; [apply elem_of_splits; by exists s1|].
      apply andb_true_iff. split; [by apply (IHb k)|by apply (IHp (S k))].
  - intros p IH k s Hp He Hs. by apply (IH k).
  - intros p IHp bs IHb k s [Hp Hb] [He1 He2]%andb_true_iff Hs. rewrite orb_true_iff, (IHp k s), (IHb k s) by done. done.
Qed.
