(* ===== verification/GlobishCompile.v ===== *)
(** * Compiling glob patterns

    What the compiler of globish.cc accepts becomes the compiled form of a
    well-formed pattern, and printing a compiled pattern gives a text that
    compiles to it again. *)

From S2P Require Import Prelude Globish GlobishSpec.

#[export] Instance char_le_total : Total char_le.
Proof. intros c d. unfold char_le. lia. Qed.
#[export] Instance char_le_trans : Transitive char_le.
Proof. intros c d e. unfold char_le. lia. Qed.
#[export] Instance char_le_antisymm : AntiSymm (=) char_le.
Proof. intros c d. unfold char_le. intros H1 H2. apply byte_val_inj. lia. Qed.

Section compile.
Context (o : origin_type).

Abbreviation class_char := (λ c : ascii, 32 ≤ byte_val c < 128).

(** ** Character classes *)

Lemma push_class_inv cs c cs' : push_class o cs c = Ok cs' → cs' = cs ++ [c] ∧ class_char c.
Proof.
  unfold push_class, not_control. intros H. apply bind_Ok_inv in H as (? & H1%E_Ok_inv & H).
  apply bind_Ok_inv in H as (? & H2%E_Ok_inv & [= <-]). split; [done|]. lia.
Qed.

Lemma push_range_inv cs c cs' :
  cs ≠ [] → Forall class_char cs → push_range o cs c = Ok cs' → Forall class_char cs'.
Proof.
  unfold push_range. intros Hne Hcs H. apply bind_Ok_inv in H as (? & H1%E_Ok_inv & H).
  apply bind_Ok_inv in H as (? & H2%E_Ok_inv & H). apply bind_Ok_inv in H as (? & H3%E_Ok_inv & H).
  apply bind_Ok_inv in H as (? & H4%E_Ok_inv & [= <-]). apply Forall_app. split; [done|].
  assert (class_char (List.last cs Ascii.zero)) as Hl.
  { destruct cs as [|d cs _] using rev_ind; [done|]. rewrite List.last_last. apply Forall_app in Hcs as [_ Hd]. by inversion Hd. }
  apply Forall_forall. intros d (z & -> & Hz)%list_elem_of_fmap. apply elem_of_seqZ in Hz. cbn beta in *. apply andb_true_iff in H4 as [_ H4%Z.ltb_lt]. rewrite byte_val_of, Z.mod_small; lia.
Qed.

Lemma class_loop_inv : ∀ n p cs out rest,
  (length p ≤ n)%nat → Forall class_char cs → class_loop o p cs = Ok (out, rest) →
  Forall class_char out ∧ (length rest < length p)%nat.
Proof.
  induction n as [|n IH]; intros [|c p] cs out rest Hn Hcs H; cbn [length] in Hn; try done; [lia|].
  cbn [class_loop length] in *. case_bool_decide; [injection H as <- <-; split; [done|lia]|].
  assert (∀ p' d cs', (length p' ≤ length p)%nat → Forall class_char cs' →
    (x ← push_class o cs' d; class_loop o p' x) = Ok (out, rest) → Forall class_char out ∧ (length rest < S (length p))%nat) as step.
  { intros p' d cs' Hp Hc (x & [-> Hd]%push_class_inv & E)%bind_Ok_inv.
    apply IH in E as [? ?]; [|lia|by apply Forall_app_2; [|apply Forall_singleton]]. split; [done|lia]. }
  case_bool_decide; [destruct p as [|c1 p]; [done|]; cbn [length] in *; apply (step p c1 cs); [lia|done|done]|].
  destruct (_ && _) eqn:Hr.
  - rewrite !andb_true_iff, !bool_decide_eq_true in Hr. destruct Hr as [[[_ Hne] _] _].
    assert (∀ p' d, (length p' ≤ length p)%nat →
      (x ← push_range o cs d; y ← push_class o x d; class_loop o p' y) = Ok (out, rest) →
      Forall class_char out ∧ (length rest < S (length p))%nat) as range.
    { intros p' d Hp (x & Hx%push_range_inv & E)%bind_Ok_inv; [|done|done]. by apply (step p' d x). }
    destruct p as [|c1 p]; [done|]. cbn [length] in *. case_bool_decide.
    + destruct p as [|c2 p]; [done|]. cbn [length] in *. apply (range p c2); [lia|done].
    + apply (range p c1); [lia|done].
  - apply bind_Ok_inv in H as (_ & _ & H). by apply (step p c cs).
Qed.

(** One item of the output: a literal or a class. *)
Definition item (out : bytes) (f : pattern → pattern) : Prop :=
  (∃ c, 32 ≤ byte_val c ∧ out = [c] ∧ f = PLit c) ∨
  (∃ inverted cs, class_ok inverted cs ∧
     out = (if inverted then META_CC_INV_BRA else META_CC_BRA) :: cs ++ [META_CC_KET] ∧ f = PClass inverted cs).

Lemma compile_charclass_inv p out rest :
  compile_charclass o p = Ok (out, rest) → (∃ f, item out f) ∧ (length rest < length p)%nat.
Proof.
  unfold compile_charclass. intros H. apply bind_Ok_inv in H as (_ & _ & H).
  set (inverted := _ || _) in *. set (p' := if inverted then tail p else p) in *.
  assert (length p' ≤ length p)%nat as Hp' by (unfold p'; destruct inverted, p; cbn; lia).
  apply bind_Ok_inv in H as (_ & _ & H). apply bind_Ok_inv in H as ([cs r] & Hl & H).
  apply (class_loop_inv (length p')) in Hl as [Hcs Hr]; [|done|constructor].
  apply bind_Ok_inv in H as (_ & Hne%E_Ok_inv & H). apply bool_decide_eq_true in Hne.
  destruct (negb inverted && _) eqn:Hone; injection H as <- <-; (split; [|lia]).
  - apply andb_true_iff in Hone as [_ Hone%Nat.eqb_eq]. destruct cs as [|c [|]]; [done| |done]. inversion Hcs; subst.
    exists (PLit c). left. exists c. split; [lia|done].
  - exists (PClass inverted (sort_chars cs)). right. exists inverted, (sort_chars cs). split; [|done].
    pose proof (merge_sort_Permutation char_le cs : sort_chars cs ≡ₚ cs) as Hperm. split_and!.
    + intros E. rewrite E in Hperm. by apply Permutation_nil_l in Hperm.
    + by rewrite Hperm.
    + apply (Sorted_merge_sort char_le).
    + rewrite Hperm. destruct inverted; [by left|]. right. cbn in Hone. apply Nat.eqb_neq in Hone. destruct cs as [|? [|]]; cbn in *; [done|lia|lia].
Qed.

(** ** The scan *)

Definition star_next (p : bytes) : Prop := head p = Some "*"%char ∨ head p = Some "?"%char.

Lemma star_run_inv p out rest :
  star_run p = (out, rest) → (∃ n, out = replicate n META_QUES) ∧ ¬ star_next rest ∧ (length rest ≤ length p)%nat.
Proof.
  revert out rest. induction p as [|c p IH]; intros out rest H; cbn [star_run] in H.
  - injection H as <- <-. split_and!; [by exists 0%nat|by intros [?|?]|done].
  - case_bool_decide; [|case_bool_decide].
    + destruct (star_run p) as [out' rest']. injection H as <- <-. destruct (IH _ _ eq_refl) as ([n ->] & Hr & Hl).
      split_and!; [by exists (S n)|done|cbn; lia].
    + destruct (IH _ _ H) as (Hn & Hr & Hl). split_and!; [done|done|cbn; lia].
    + injection H as <- <-. split_and!; [by exists 0%nat| |done]. intros [[= ->]|[= ->]]; done.
Qed.

(** Enough fuel is enough. *)
Lemma compile_loop_fuel n m p d :
  (length p ≤ n)%nat → (length p ≤ m)%nat → compile_loop o n p d = compile_loop o m p d.
Proof.
  revert m p d. induction n as [|n IH]; intros m [|c p] d Hn Hm; cbn [length] in *; [by destruct m|lia|by destruct m|].
  destruct m as [|m]; [lia|]. cbn [compile_loop].
  assert (∀ p' d', (length p' ≤ length p)%nat → compile_loop o n p' d' = compile_loop o m p' d') as E by (intros; apply IH; lia).
  case_bool_decide; [destruct (star_run p) as [out rest] eqn:Hs; apply star_run_inv in Hs as (_ & _ & Hl); by rewrite E|].
  case_bool_decide; [by rewrite E|]. case_bool_decide.
  { destruct p as [|c1 p]; [done|]. cbn [length] in E. by rewrite E by lia. }
  case_bool_decide.
  { destruct (compile_charclass o p) as [[out rest]|] eqn:Hc; [|done]. apply compile_charclass_inv in Hc as [_ Hl].
    cbn [mbind result_bind]. by rewrite E by lia. }
  case_bool_decide; [done|]. repeat (case_bool_decide; [by rewrite E|]). by rewrite E.
Qed.

(** Compiling from brace depth [d] on. *)
Definition scan (d : Z) (p : bytes) : result bytes := compile_loop o (length p) p d.

Lemma compile_scan p : compile o p = scan 0 p.
Proof. done. Qed.

(** The output of the scan at depth [d]: [d] alternatives are still to be
    closed. *)
Inductive opened : nat → bytes → Prop :=
  | opened_0 q : wf 5 q → opened 0 (code q)
  | opened_S d bs rest :
      (S d ≤ 5)%nat → wfs (5 - S d) bs → opened d rest → opened (S d) (codes bs ++ META_ALT_KET :: rest).

Definition star_first (out : bytes) : Prop := head out = Some META_STAR ∨ head out = Some META_QUES.

Lemma starlike_first q rest : starlike q → star_first (code q ++ rest).
Proof. destruct q; try done; intros _; [by right|by left]. Qed.

(** Another item in front. *)
Lemma opened_item d out pre f :
  opened d out → (∀ q, code (f q) = pre ++ code q) →
  (∀ q, wf (5 - d) q → (starlike q → star_first out) → wf (5 - d) (f q)) → opened d (pre ++ out).
Proof.
  intros Ho Hc Hw. destruct Ho as [q Hq|d bs rest Hd Hb Hr].
  - rewrite <- Hc. constructor. apply Hw; [done|]. intros Hs. rewrite <- (app_nil_r (code q)). by apply starlike_first.
  - destruct bs as [q|q bs].
    + replace (pre ++ codes (BOne q) ++ META_ALT_KET :: rest) with (codes (BOne (f q)) ++ META_ALT_KET :: rest) by (cbn; by rewrite Hc, <- app_assoc).
      constructor; [done| |done]. apply Hw; [done|]. apply starlike_first.
    + replace (pre ++ codes (BMore q bs) ++ META_ALT_KET :: rest) with (codes (BMore (f q) bs) ++ META_ALT_KET :: rest) by (cbn; by rewrite Hc, <- !app_assoc).
      destruct Hb as [Hq Hb]. constructor; [done| |done]. split; [|done]. apply Hw; [done|]. intros Hs. cbn [codes]. rewrite <- app_assoc. by apply starlike_first.
Qed.

Lemma opened_ques d n out : opened d out → opened d (replicate n META_QUES ++ out).
Proof.
  induction n as [|n IH]; intros H; [done|]. cbn [replicate]. apply (opened_item d (replicate n META_QUES ++ out) [META_QUES] PQues); auto.
Qed.

Lemma opened_one d out pre f : opened d out → item pre f → opened d (pre ++ out).
Proof.
  intros H [(c & Hc & -> & ->)|(i & cs & Hi & -> & ->)]; (eapply (opened_item d out); [done| |]).
  - intros q. instantiate (1 := PLit c). done.
  - intros q Hq _. done.
  - intros q. instantiate (1 := PClass i cs). cbn. by rewrite <- app_assoc.
  - intros q Hq _. done.
Qed.

Lemma opened_alt d out : (S d ≤ 5)%nat → opened (S d) out → opened d (META_ALT_BRA :: out).
Proof.
  intros Hd H. inversion H as [|d' bs rest _ Hb Hr]; subst.
  replace (META_ALT_BRA :: codes bs ++ META_ALT_KET :: rest) with ((META_ALT_BRA :: codes bs ++ [META_ALT_KET]) ++ rest) by (cbn; by rewrite <- app_assoc).
  eapply (opened_item d rest); [done| |].
  - intros q. instantiate (1 := PAlt bs). cbn. by rewrite <- app_assoc.
  - intros q Hq _. destruct (5 - d)%nat as [|k] eqn:E; [lia|]. cbn [wf]. split; [|done]. by replace k with (5 - S d)%nat by lia.
Qed.

Lemma literal_first c out : 32 ≤ byte_val c → ¬ star_first (c :: out).
Proof. intros Hc [[= ->]|[= ->]]; cbv in Hc; done. Qed.

Lemma item_first pre f out : item pre f → ¬ star_first (pre ++ out).
Proof.
  intros [(c & Hc & -> & _)|(i & cs & _ & -> & _)]; [by apply literal_first|]. intros [?|?]; by destruct i.
Qed.

(** Whatever the scan accepts, it has the shape of the depth it started at. *)
Lemma compile_loop_opened n : ∀ p d out,
  (d ≤ 5)%nat → compile_loop o n p (Z.of_nat d) = Ok out → opened d out ∧ (¬ star_next p → ¬ star_first out).
Proof.
  induction n as [|n IH]; intros [|c p] d out Hd H.
  1, 3: cbn [compile_loop] in H; apply bind_Ok_inv in H as (_ & H0%E_Ok_inv & [= <-]);
    assert (d = 0%nat) as -> by lia; split; [by apply (opened_0 PNil)|by intros _ [?|?]].
  { done. }
  assert (∀ p' d' pre, (d' ≤ 5)%nat → (r ← compile_loop o n p' (Z.of_nat d'); Ok (pre ++ r)) = Ok out →
    ∃ r, out = pre ++ r ∧ opened d' r ∧ (¬ star_next p' → ¬ star_first r)) as emit.
  { intros p' d' pre Hd' (r & Hr & [= <-])%bind_Ok_inv. destruct (IH _ _ _ Hd' Hr). by exists r. }
  assert (∀ p' pre f, item pre f → (r ← compile_loop o n p' (Z.of_nat d); Ok (pre ++ r)) = Ok out →
    opened d out ∧ (¬ star_next (c :: p) → ¬ star_first out)) as one.
  { intros p' pre f Hi (r & -> & Hr & _)%emit; [|done]. split; [by apply (opened_one _ _ _ f)|]. intros _. by apply (item_first _ f). }
  assert (∀ p' x, not_control x = true → (r ← compile_loop o n p' (Z.of_nat d); Ok ([x] ++ r)) = Ok out →
    opened d out ∧ (¬ star_next (c :: p) → ¬ star_first out)) as literal.
  { intros p' x Hx%Z.leb_le. apply (one p' [x] (PLit x)). left. by exists x. }
  cbn [compile_loop] in H.
  case_bool_decide as Hc; [subst; destruct (star_run p) as [qs rest] eqn:Hs; apply star_run_inv in Hs as ([k ->] & Hns & _)|].
  { apply emit in H as (r & -> & Hr & Hf); [|done]. split; [|intros []; by left]. rewrite <- app_assoc. apply opened_ques.
    apply (opened_item d r [META_STAR] PStar); [done|done|]. intros q Hq Hst. split; [|done]. intros Hq'. by apply (Hf Hns), Hst. }
  case_bool_decide; [subst; apply emit in H as (r & -> & Hr & _); [|done]; split; [by apply (opened_ques d 1)|intros []; by right]|].
  case_bool_decide; [destruct p as [|c1 p]; [done|]; apply bind_Ok_inv in H as (_ & Hg%E_Ok_inv & H); by apply (literal p c1)|].
  case_bool_decide; [apply bind_Ok_inv in H as ([pre rest] & [[f Hf] _]%compile_charclass_inv & H); by apply (one rest pre f)|].
  case_bool_decide; [done|].
  case_bool_decide.
  { apply bind_Ok_inv in H as (_ & Hg%E_Ok_inv%Z.ltb_lt & H). replace (Z.of_nat d + 1) with (Z.of_nat (S d)) in H by lia.
    apply emit in H as (r & -> & Hr & _); [|lia]. split; [apply opened_alt; [lia|done]|]. by intros _ [?|?]. }
  case_bool_decide.
  { destruct (Z.ltb_spec 0 (Z.of_nat d)); [|by apply (literal p ","%char)]. apply emit in H as (r & -> & Hr & _); [|done].
    split; [|by intros _ [?|?]]. destruct d as [|d]; [lia|]. inversion Hr as [|d' bs rest ? Hb Ho]; subst.
    by apply (opened_S d (BMore PNil bs) rest). }
  case_bool_decide.
  { apply bind_Ok_inv in H as (_ & Hg%E_Ok_inv%Z.ltb_lt & H). destruct d as [|d]; [lia|].
    replace (Z.of_nat (S d) - 1) with (Z.of_nat d) in H by lia. apply emit in H as (r & -> & Hr & _); [|lia].
    split; [|by intros _ [?|?]]. by apply (opened_S d (BOne PNil) r). }
  apply bind_Ok_inv in H as (_ & Hg%E_Ok_inv & H). by apply (literal p c).
Qed.

(** A text that compiles is the compiled form of a well-formed pattern. *)
Lemma compile_wf pat c : compile o pat = Ok c → ∃ p, wf 5 p ∧ c = code p.
Proof.
  intros H. apply (compile_loop_opened _ _ 0) in H as [H _]; [|lia]. inversion H as [q Hq|]; subst. by exists q.
Qed.

(** ** Printing and compiling again *)

Abbreviation text p := (decode p true).

Lemma scan_fuel n p d : (length p ≤ n)%nat → compile_loop o n p d = scan d p.
Proof. intros H. by apply compile_loop_fuel. Qed.

Lemma decode_plain c : 32 ≤ byte_val c → decode_char true c = if needs_quote c then ["\"%char; c] else [c].
Proof. intros H. unfold decode_char. not_metas. by rewrite andb_true_r. Qed.

Lemma decode_app p q : text (p ++ q) = text p ++ text q.
Proof. apply flat_map_app. Qed.

Lemma unquoted c d : needs_quote c = false → needs_quote d = true → bool_decide (c = d) = false.
Proof. intros H1 H2. apply bool_decide_eq_false. intros ->. congruence. Qed.

(** Characters that need no quoting are none of the special ones. *)
Ltac unquote H := rewrite ?(unquoted _ _ H) by reflexivity.

(** One round of the scan. *)
Ltac scan_step :=
  unfold scan at 1; cbn [app];
  match goal with |- context [compile_loop o (length (?x :: ?l)) _ _] =>
    change (length (x :: l)) with (S (length l)); let n := fresh "n" in let Hlen := fresh "Hlen" in
    remember (length l) as n eqn:Hlen; cbn [compile_loop]; cbn [length] in Hlen
  end.

Lemma scan_literal c d rest :
  32 ≤ byte_val c → scan d (decode_char true c ++ rest) = (r ← scan d rest; Ok (c :: r)).
Proof.
  intros Hc. rewrite decode_plain by done.
  assert (not_control c = true) as Hn by (by apply Z.leb_le).
  destruct (needs_quote c) eqn:Hq; scan_step.
  - metas. rewrite Hn. cbn [E_ mbind result_bind app]. by rewrite scan_fuel by lia.
  - unquote Hq. rewrite Hn. cbn [E_ mbind result_bind app]. by rewrite scan_fuel by lia.
Qed.

Lemma star_run_none p : ¬ star_next p → star_run p = ([], p).
Proof.
  destruct p as [|c p]; [done|]. intros H. cbn. rewrite !bool_decide_false; [done| |]; intros ->; apply H; [by left|by right].
Qed.

Lemma text_not_star k p rest :
  wf k p → ¬ starlike p → ¬ star_next rest → ¬ star_next (text (code p) ++ rest).
Proof.
  intros Hw Hs Hr. destruct p as [|c p|p|i cs p|p|bs p]; try done.
  - cbn [code decode flat_map]. destruct Hw as [Hc _]. rewrite decode_plain by done.
    destruct (needs_quote c) eqn:Hq; [by intros [?|?]|]. intros [[= ->]|[= ->]]; done.
  - destruct i; by intros [?|?].
  - by intros [?|?].
Qed.

(** A printed class is read back. *)
Lemma class_loop_text cs acc rest :
  Forall class_char cs → class_loop o (text cs ++ "]"%char :: rest) acc = Ok (acc ++ cs, rest).
Proof.
  intros H. revert acc. induction H as [|c cs Hc _ IH]; intros acc; cbn [decode flat_map app].
  - cbn. by rewrite app_nil_r.
  - rewrite decode_plain by lia.
    assert (push_class o acc c = Ok (acc ++ [c])) as Hp.
    { unfold push_class, not_control. rewrite (proj2 (Z.leb_le _ _)), (proj2 (Z.ltb_lt _ _)) by lia. done. }
    destruct (needs_quote c) eqn:Hq; cbn [app class_loop].
    + metas. rewrite Hp. cbn [mbind result_bind]. rewrite (app_assoc acc [c] cs : acc ++ c :: cs = _). apply IH.
    + unquote Hq. cbn [andb negb E_ mbind result_bind]. rewrite Hp. cbn [mbind result_bind].
      rewrite (app_assoc acc [c] cs : acc ++ c :: cs = _). apply IH.
Qed.

Lemma sort_sorted cs : Sorted char_le cs → sort_chars cs = cs.
Proof.
  intros H. apply (Sorted_unique char_le); [apply (Sorted_merge_sort char_le)|done|apply (merge_sort_Permutation char_le)].
Qed.

Lemma text_class_head cs rest c :
  Forall class_char cs → cs ≠ [] → c = "!"%char ∨ c = "^"%char → head (text cs ++ rest) ≠ Some c.
Proof.
  intros H Hne Hc. destruct H as [|x cs Hx _]; [done|]. cbn [decode flat_map]. rewrite decode_plain by lia.
  destruct (needs_quote x) eqn:Hq; cbn [app head]; [destruct Hc as [-> | ->]; done|].
  intros [= ->]. by destruct Hc as [-> | ->].
Qed.

Lemma compile_charclass_text inverted cs rest :
  class_ok inverted cs →
  compile_charclass o ((if inverted then ["!"%char] else []) ++ text cs ++ "]"%char :: rest) =
  Ok ((if inverted then META_CC_INV_BRA else META_CC_BRA) :: cs ++ [META_CC_KET], rest).
Proof.
  intros (Hne & Hcs & Hsort & Hone). unfold compile_charclass.
  rewrite (bool_decide_true (_ ++ _ ≠ [])) by (destruct inverted, (text cs); done). cbn [E_ mbind result_bind].
  assert (bool_decide (text cs ++ "]"%char :: rest ≠ []) = true) as Hn by (apply bool_decide_eq_true; by destruct (text cs)).
  destruct inverted; cbn [app head tail].
  - metas. rewrite Hn. cbn [E_ mbind result_bind]. rewrite class_loop_text by done. cbn [mbind result_bind app].
    rewrite bool_decide_true by done. cbn [E_ negb andb mbind result_bind]. by rewrite sort_sorted.
  - rewrite (bool_decide_false (_ = Some "!"%char)), (bool_decide_false (_ = Some "^"%char)) by (apply text_class_head; auto).
    cbn [orb]. rewrite Hn. cbn [E_ mbind result_bind]. rewrite class_loop_text by done. cbn [mbind result_bind app].
    rewrite bool_decide_true by done. cbn [E_ negb andb mbind result_bind]. destruct Hone as [?|Hone]; [done|].
    destruct (Nat.eqb_spec (length cs) 1); [lia|]. by rewrite sort_sorted.
Qed.

(** The metacharacters in print. *)
Ltac decode_metas :=
  cbn [decode flat_map]; rewrite ?flat_map_app; cbn [flat_map];
  change (decode_char true META_STAR) with ["*"%char]; change (decode_char true META_QUES) with ["?"%char];
  change (decode_char true META_CC_BRA) with ["["%char]; change (decode_char true META_CC_INV_BRA) with ["["; "!"]%char;
  change (decode_char true META_CC_KET) with ["]"%char]; change (decode_char true META_ALT_BRA) with ["{"%char];
  change (decode_char true META_ALT_OR) with [","%char]; change (decode_char true META_ALT_KET) with ["}"%char].

Lemma compile_text :
  (∀ p d rest, (d ≤ 5)%nat → wf (5 - d) p → ¬ star_next rest →
     scan (Z.of_nat d) (text (code p) ++ rest) = (r ← scan (Z.of_nat d) rest; Ok (code p ++ r))) ∧
  (∀ bs d rest, (1 ≤ d ≤ 5)%nat → wfs (5 - d) bs → ¬ star_next rest →
     scan (Z.of_nat d) (text (codes bs) ++ rest) = (r ← scan (Z.of_nat d) rest; Ok (codes bs ++ r))).
Proof.
  apply pattern_branches_ind; cbn [wf wfs code codes].
  - intros d rest _ _ _. cbn [decode flat_map app]. by destruct (scan _ rest).
  - intros c p IH d rest Hd [Hc Hp] Hr. cbn [decode flat_map]. rewrite <- app_assoc, scan_literal by done.
    rewrite (IH d) by done. by destruct (scan _ rest).
  - intros p IH d rest Hd Hp Hr. decode_metas. scan_step. metas.
    rewrite scan_fuel by lia. rewrite (IH d) by done. by destruct (scan _ rest).
  - intros i cs p IH d rest Hd [Hi Hp] Hr.
    replace (text ((if i then META_CC_INV_BRA else META_CC_BRA) :: cs ++ META_CC_KET :: code p) ++ rest)
      with ("["%char :: (if i then ["!"%char] else []) ++ text cs ++ "]"%char :: text (code p) ++ rest).
    2:{ destruct i; decode_metas; cbn [app]; by rewrite <- app_assoc. }
    scan_step. metas. rewrite compile_charclass_text by done. cbn [mbind result_bind]. rewrite scan_fuel.
    2:{ rewrite Hlen. destruct i; cbn [app length]; rewrite !length_app; cbn [length]; rewrite length_app; lia. }
    rewrite (IH d) by done. destruct (scan _ rest); [|done]. cbn [mbind result_bind app]. by rewrite <- ?app_assoc.
  - intros p IH d rest Hd [Hs Hp] Hr. decode_metas. scan_step. metas.
    rewrite star_run_none by (by eapply text_not_star). rewrite scan_fuel by lia. rewrite (IH d) by done. by destruct (scan _ rest).
  - intros bs IHb p IHp d rest Hd [Hb Hp] Hr. destruct (5 - d)%nat as [|k] eqn:Ek; [done|].
    replace (text (META_ALT_BRA :: codes bs ++ META_ALT_KET :: code p) ++ rest)
      with ("{"%char :: text (codes bs) ++ "}"%char :: text (code p) ++ rest).
    2:{ decode_metas. cbn [app]. by rewrite <- app_assoc. }
    scan_step. metas. rewrite (proj2 (Z.ltb_lt _ _)) by lia. cbn [E_ mbind result_bind]. rewrite scan_fuel by lia.
    replace (Z.of_nat d + 1) with (Z.of_nat (S d)) by lia. rewrite (IHb (S d)); [|lia|by replace (5 - S d)%nat with k by lia|by intros [?|?]].
    scan_step. metas. rewrite (proj2 (Z.ltb_lt _ _)) by lia. cbn [E_ mbind result_bind]. rewrite scan_fuel by lia.
    replace (Z.of_nat (S d) - 1) with (Z.of_nat d) by lia. rewrite (IHp d) by (done || congruence).
    destruct (scan _ rest); [|done]. cbn [mbind result_bind app]. by rewrite <- ?app_assoc.
  - intros p IH d rest Hd Hp Hr. apply IH; [lia|done|done].
  - intros p IHp bs IHb d rest Hd [Hp Hb] Hr. rewrite decode_app, <- app_assoc. decode_metas. cbn [app].
    rewrite IHp; [|lia|done|by intros [?|?]]. scan_step. metas. rewrite (proj2 (Z.ltb_lt _ _)) by lia. cbn [app mbind result_bind].
    rewrite scan_fuel by lia. rewrite (IHb d) by done. destruct (scan _ rest); [|done]. cbn [mbind result_bind app]. by rewrite <- ?app_assoc.
Qed.
End compile.

(** A printed pattern compiles to itself. *)
Lemma printed_compiles o o' pat c : compile o pat = Ok c → compile o' (to_text c) = Ok c.
Proof.
  intros (p & Hp & ->)%compile_wf. pose proof (proj1 (compile_text o') p 0%nat [] ltac:(lia) Hp ltac:(by intros [?|?])) as E.
  rewrite app_nil_r in E. rewrite compile_scan. unfold to_text. change 0 with (Z.of_nat 0). rewrite E. unfold scan. cbn [length compile_loop]. change (Z.of_nat 0 =? 0) with true. cbn [E_ mbind result_bind]. by rewrite app_nil_r.
Qed.

(** ** Patterns of a command's arguments *)

Lemma wf_deeper :
  (∀ p j k, (j ≤ k)%nat → wf j p → wf k p) ∧ (∀ bs j k, (j ≤ k)%nat → wfs j bs → wfs k bs).
Proof.
  apply pattern_branches_ind; cbn [wf wfs]; try naive_solver.
  intros bs IHb p IHp j k Hjk [Hb Hp]. split; [|by apply (IHp j)]. destruct j as [|j]; [done|]. destruct k as [|k]; [lia|].
  apply (IHb j); [lia|done].
Qed.

Lemma compile_frags_wf args : ∀ a c, compile_frags a args = Ok c → ∃ bs, wfs 5 bs ∧ c = codes bs.
Proof.
  induction args as [|b args IH]; intros a c H; cbn in H; apply bind_Ok_inv in H as (s & Hs & H);
    apply (compile_wf user a) in Hs as (p & Hp & ->).
  - injection H as <-. by exists (BOne p).
  - apply bind_Ok_inv in H as (r & (bs & Hb & ->)%IH & [= <-]). by exists (BMore p bs).
Qed.

Lemma compile_args_wf args c : compile_args args = Ok c → ∃ p, wf 6 p ∧ c = code p.
Proof.
  destruct args as [|a [|b args]]; cbn [compile_args]; intros H.
  - injection H as <-. by exists PNil.
  - apply compile_wf in H as (p & Hp & ->). exists p. split; [|done]. apply (proj1 wf_deeper p 5%nat); [lia|done].
  - apply bind_Ok_inv in H as (s & (bs & Hb & ->)%compile_frags_wf & [= <-]). by exists (PAlt bs PNil).
Qed.

(** A compiled pattern: of one text, or of the arguments of a command. *)
Definition compiled (c : bytes) : Prop :=
  (∃ o pat, compile o pat = Ok c) ∨ ∃ args, compile_args args = Ok c.

Lemma compiled_wf c : compiled c → ∃ p, wf 6 p ∧ c = code p.
Proof.
  intros [(o & pat & H)|(args & H)]; [|by apply (compile_args_wf args)].
  apply (compile_wf o pat) in H as (p & Hp & ->). exists p. split; [|done]. apply (proj1 wf_deeper p 5%nat); [lia|done].
Qed.

(** C24: glob patterns match their language.  Every compiled pattern is the
    compiled form of a pattern of the grammar, and matching any target against
    it ends without tripping an assertion.  The empty pattern matches nothing;
    for any other the matcher accepts a target without NULs exactly if it is
    in the language of the pattern, provided that no inverted class, and no
    star before an alternative, is followed by a pattern that is satisfied at
    the end of the target. *)
Theorem globish_matches c :
  compiled c →
  ∃ p, c = code p ∧ ∀ target,
    matches c target = Ok (negb (bool_decide (c = [])) && accepts p target) ∧
    (precise p = true → nul_free target → accepts p target = true ↔ lang p target).
Proof.
  intros (p & Hp & ->)%compiled_wf. exists p. split; [done|]. intros target. split.
  - unfold matches. case_bool_decide; [done|]. cbn [negb andb]. apply (proj1 do_match_accepts p 6%nat); [done|lia].
  - intros He Hn. by apply (proj1 accepts_lang p 6%nat).
Qed.

(** A printed pattern is the pattern.  If a single text was compiled, the text
    printed for the compiled pattern, which is what goes over the network,
    compiles to the same pattern.  (For the pattern that [compile_args] makes of
    several texts see [globish_departures].) *)
Theorem globish_roundtrip o o' pat c :
  compile o pat = Ok c → compile o' (to_text c) = Ok c.
Proof. apply printed_compiles. Qed.

(** Where globs depart from their description.  An inverted class at the end
    of a pattern also accepts a target that ends before it; a star before an
    alternative does not try the end of the target; and the pattern made of
    several arguments can be nested one deeper than the text printed for it
    may be. *)
Theorem globish_departures :
  (∃ p, compile user (lit "a[!b]") = Ok (code p) ∧ matches (code p) (lit "a") = Ok true ∧ ¬ lang p (lit "a")) ∧
  (∃ p, compile user (lit "*{,x}") = Ok (code p) ∧ matches (code p) (lit "y") = Ok false ∧ lang p (lit "y")) ∧
  (∃ c, compile_args [lit "{{{{{a}}}}}"; lit "b"] = Ok c ∧ compile network (to_text c) = Err (Recoverable network)).
Proof.
  split_and!.
  - exists (PLit "a" (PClass true ["b"%char] PNil)). split; [by vm_compute|]. split; [by vm_compute|].
    cbn. intros (s & [= <-] & c & s' & E & _). done.
  - exists (PStar (PAlt (BMore PNil (BOne (PLit "x" PNil))) PNil)). split; [by vm_compute|]. split; [by vm_compute|].
    exists (lit "y"), []. split; [done|]. exists [], []. split; [done|]. split; [by left|done].
  - eexists. split; [by vm_compute|]. by vm_compute.
Qed.

Lemma globish_matches_witness :
  ∃ p, code p = lit "com.x" ++ [META_STAR] ∧ matches (code p) (lit "com.xyz") = Ok (accepts p (lit "com.xyz")).
Proof.
  assert (compiled (lit "com.x" ++ [META_STAR])) as H by (left; exists user, (lit "com.x*"); by vm_compute).
  destruct (globish_matches _ H) as (p & E & Hm). exists p. rewrite <- E. split; [reflexivity|]. exact (proj1 (Hm (lit "com.xyz"))).
Defined.

Lemma globish_roundtrip_witness : ∃ c, compile user (lit "{a*?,[c-e]}\*") = Ok c ∧ compile network (to_text c) = Ok c.
Proof. eexists. split; [vm_compute; reflexivity|]. apply (globish_roundtrip user network (lit "{a*?,[c-e]}\*")). vm_compute. reflexivity. Defined.
