(* ===== verification/Netcmd.v ===== *)
(** * Network commands

    netcmd.cc, netcmd.hh and hmac.cc: the commands of the network protocol, how
    their payloads are written and read, and the envelope with its chained
    checksum.  A [globish] is its compiled pattern; the other vocabulary types
    are the strings they wrap.  HMAC, gzip and what merkle nodes need of their
    libraries are parameters. *)

From S2P Require Import Prelude Numbers Hex Netio MerkleTree Refiner Globish.

Class netcmd_lib := {
  hmac_sha1 : bytes → bytes → bytes;      (* key, message *)
  gzip_ : bytes → bytes;
  gunzip : bytes → result bytes
}.

(** ** Constants *)

Definition netcmd_minsz : Z := 1 + 1 + 1.
Definition netcmd_payload_limit : Z := Z.shiftl 2 27.
Definition netcmd_minimum_bytes_to_bother_with_gzip : Z := 4095.
Definition netsync_hmac_value_length_in_bytes : Z := 20.
Definition sha1_digest_length : Z := 20.

Definition legal_key_name_bytes : bytes :=
  lit "abcdefghijklmnopqrstuvwxyzABCDEFGHIJKLMNOPQRSTUVWXYZ0123456789-.@+_".

(** [verify(key_name)] *)
Definition verify_key_name (made_from : origin_type) (val : bytes) : result bytes :=
  E_ (forallb (λ c, bool_decide (c ∈ legal_key_name_bytes)) val) made_from ;; Ok val.

(** ** Commands *)

Inductive netcmd_code :=
  | error_cmd | bye_cmd
  | hello_cmd | anonymous_cmd | auth_cmd | confirm_cmd
  | refine_cmd | done_cmd
  | data_cmd | delta_cmd
  | automate_cmd | automate_headers_request_cmd | automate_headers_reply_cmd | automate_command_cmd | automate_packet_cmd
  | usher_cmd | usher_reply_cmd.

#[export] Instance netcmd_code_eq_dec : EqDecision netcmd_code.
Proof. solve_decision. Defined.

Definition cmd_byte (c : netcmd_code) : Z :=
  match c with
  | error_cmd => 0 | bye_cmd => 1
  | hello_cmd => 2 | anonymous_cmd => 3 | auth_cmd => 4 | confirm_cmd => 5
  | refine_cmd => 6 | done_cmd => 7
  | data_cmd => 8 | delta_cmd => 9
  | automate_cmd => 10 | automate_headers_request_cmd => 11 | automate_headers_reply_cmd => 12
  | automate_command_cmd => 13 | automate_packet_cmd => 14
  | usher_cmd => 100 | usher_reply_cmd => 101
  end.

(** The cases of the [switch] of [netcmd::read]. *)
Definition known_codes : list netcmd_code :=
  [hello_cmd; bye_cmd; anonymous_cmd; auth_cmd; error_cmd; confirm_cmd; refine_cmd; done_cmd; data_cmd; delta_cmd;
   automate_cmd; automate_headers_request_cmd; automate_headers_reply_cmd; automate_command_cmd; automate_packet_cmd;
   usher_cmd; usher_reply_cmd].

Definition code_of_byte (b : Z) : option netcmd_code := List.find (λ c, cmd_byte c =? b) known_codes.

Inductive protocol_role := source_role | sink_role | source_and_sink_role.

#[export] Instance protocol_role_eq_dec : EqDecision protocol_role.
Proof. solve_decision. Defined.

Definition role_byte (r : protocol_role) : Z :=
  match r with source_role => 1 | sink_role => 2 | source_and_sink_role => 3 end.

Definition role_of_byte (b : Z) : result protocol_role :=
  if b =? 1 then Ok source_role
  else if b =? 2 then Ok sink_role
  else if b =? 3 then Ok source_and_sink_role
  else Err BadDecode.

(** A byte outside the values of the enumeration has no meaning. *)
Definition refinement_byte (t : refinement_type) : Z :=
  match t with refinement_query => 0 | refinement_response => 1 end.

Definition refinement_of_byte (b : Z) : result refinement_type :=
  if b =? 0 then Ok refinement_query else if b =? 1 then Ok refinement_response else Err UndefinedBehaviour.

Record netcmd := Netcmd {
  version : Z;
  cmd_code : netcmd_code;
  payload : bytes
}.

#[export] Instance netcmd_eq_dec : EqDecision netcmd.
Proof. solve_decision. Defined.

Definition new_netcmd (ver : Z) : netcmd := Netcmd ver error_cmd [].

(** ** The chained checksum *)

Record chained_hmac := ChainedHmac {
  hmac_active : bool;
  hmac_key : bytes;
  chain_val : bytes
}.

Definition new_chained_hmac (session_key : bytes) (active : bool) : chained_hmac :=
  ChainedHmac active session_key (replicate (Z.to_nat sha1_digest_length) Ascii.zero).

Definition set_key (session_key : bytes) (h : chained_hmac) : chained_hmac :=
  if hmac_active h then ChainedHmac true session_key (chain_val h) else h.

(** A string of any length, and the length of an identifier. *)
Abbreviation vstr buf pos := (extract_variable_length_string buf pos npos).
Abbreviation hash_bytes := (Z.of_nat merkle_hash_length_in_bytes).

Section commands.
Context {ML : merkle_lib} {NL : netcmd_lib}.

Definition process (h : chained_hmac) (str : bytes) (pos n : Z) : result (bytes * chained_hmac) :=
  I_ (hmac_active h) ;;
  I_ (pos <? len str) ;;
  let n := if n =? npos then len str - pos else n in
  I_ (u64 (pos + n) <=? len str) ;;
  let v := hmac_sha1 (hmac_key h) (chain_val h ++ slice str pos n) in
  I_ (len v =? sha1_digest_length) ;;
  Ok (v, ChainedHmac (hmac_active h) (hmac_key h) v).

(** ** The envelope *)

Definition encoded_size (nc : netcmd) : Z :=
  1 + 1 + len (insert_datum_uleb128 size_t_bytes (len (payload nc))) + len (payload nc) + netsync_hmac_value_length_in_bytes.

(** Whether the command carries a checksum. *)
Definition carries_hmac (c : netcmd_code) (h : chained_hmac) : bool :=
  hmac_active h && negb (bool_decide (c = usher_cmd)) && negb (bool_decide (c = usher_reply_cmd)).

Definition write (nc : netcmd) (out : bytes) (h : chained_hmac) : result (bytes * chained_hmac) :=
  let oldlen := len out in
  let out := out ++ [byte_of (version nc); byte_of (cmd_byte (cmd_code nc))] in
  let out := out ++ insert_variable_length_string (payload nc) in
  if carries_hmac (cmd_code nc) h then
    '(digest, h) ← process h out oldlen npos;
    I_ (sha1_digest_length =? netsync_hmac_value_length_in_bytes) ;;
    Ok (out ++ digest, h)
  else Ok (out, h).

(** The code that [read] goes on with: an unknown one is refused only if the
    version fits, otherwise the code of the object stays. *)
Definition read_code (old : netcmd_code) (too_old too_new : bool) (b : Z) : result netcmd_code :=
  match code_of_byte b with
  | Some c => Ok c
  | None => if negb too_old && negb too_new then Err BadDecode else Ok old
  end.

(** Whether a whole command was there; the object, the input and the checksum
    afterwards. *)
Definition read (nc : netcmd) (min_version max_version : Z) (inbuf : bytes) (h : chained_hmac) :
    result (bool * netcmd * bytes * chained_hmac) :=
  if len inbuf <? netcmd_minsz then Ok (false, nc, inbuf, h)
  else
    '(extracted_ver, pos) ← extract_datum_lsb 1 inbuf 0;
    let too_old := extracted_ver <? min_version in
    let too_new := max_version <? extracted_ver in
    '(b, pos) ← extract_datum_lsb 1 inbuf pos;
    c ← read_code (cmd_code nc) too_old too_new b;
    if negb (bool_decide (c = usher_cmd)) && (too_old || (negb (bool_decide (c = usher_reply_cmd)) && too_new))
    then Err BadDecode
    else
      let nc := Netcmd extracted_ver c (payload nc) in
      '(complete, pos, payload_len) ← try_extract_datum_uleb128 size_t_bytes inbuf pos;
      if negb complete then Ok (false, nc, inbuf, h)
      else if netcmd_payload_limit <? payload_len then Err BadDecode
      else
        let minsize :=
          u32 (if carries_hmac c h then pos + payload_len + netsync_hmac_value_length_in_bytes else pos + payload_len) in
        if len inbuf <? minsize then Ok (false, nc, inbuf, h)
        else
          '(digest, h') ←
            (if carries_hmac c h then
               I_ (sha1_digest_length =? netsync_hmac_value_length_in_bytes) ;;
               process h inbuf 0 (pos + payload_len)
             else Ok ([], h));
          '(pl, pos) ← extract_substring inbuf pos payload_len;
          '(cmd_digest, pos) ←
            (if carries_hmac c h then extract_substring inbuf pos netsync_hmac_value_length_in_bytes else Ok ([], pos));
          let inbuf := drop (Z.to_nat pos) inbuf in
          if carries_hmac c h && negb (bool_decide (cmd_digest = digest)) then Err BadDecode
          else Ok (true, Netcmd extracted_ver c pl, inbuf, h').

(** ** Payloads

    The writers that start with [payload.clear()] use [fresh], the others
    append to what the payload holds. *)

Definition fresh (c : netcmd_code) (nc : netcmd) (pl : bytes) : netcmd := Netcmd (version nc) c pl.
Definition appended (c : netcmd_code) (nc : netcmd) (pl : bytes) : netcmd := Netcmd (version nc) c (payload nc ++ pl).

Definition read_netcmd_item_type (inp : bytes) (pos : Z) : result (netcmd_item_type * Z) :=
  '(tmp, pos) ← extract_datum_lsb 1 inp pos;
  match List.find (λ t, item_code t =? tmp) [revision_item; file_item; cert_item; key_item; epoch_item] with
  | Some t => Ok (t, pos)
  | None => Err BadDecode
  end.

Definition extract_id (buf : bytes) (pos : Z) : result (bytes * Z) :=
  '(s, pos) ← extract_substring buf pos hash_bytes;
  s ← verify_id network s;
  Ok (s, pos).

Definition extract_globish (buf : bytes) (pos : Z) : result (bytes * Z) :=
  '(s, pos) ← vstr buf pos;
  g ← compile network s;
  Ok (g, pos).

Definition read_error_cmd (nc : netcmd) : result bytes :=
  '(errmsg, pos) ← vstr (payload nc) 0;
  assert_end_of_buffer (payload nc) pos ;;
  Ok errmsg.

Definition write_error_cmd (errmsg : bytes) (nc : netcmd) : result netcmd :=
  Ok (fresh error_cmd nc (insert_variable_length_string errmsg)).

Definition read_hello_cmd (nc : netcmd) : result (Z * bytes * bytes * bytes) :=
  '(skn_str, pos) ← vstr (payload nc) 0;
  server_keyname ← verify_key_name network skn_str;
  '(server_key, pos) ← vstr (payload nc) pos;
  '(nonce, pos) ← extract_id (payload nc) pos;
  assert_end_of_buffer (payload nc) pos ;;
  Ok (version nc, server_keyname, server_key, nonce).

Definition write_hello_cmd (server_keyname server_key nonce : bytes) (nc : netcmd) : result netcmd :=
  I_ (len nonce =? hash_bytes) ;;
  Ok (fresh hello_cmd nc
        (insert_variable_length_string server_keyname ++ insert_variable_length_string server_key ++ nonce)).

Definition read_bye_cmd (nc : netcmd) : result Z :=
  '(phase, pos) ← extract_datum_lsb 1 (payload nc) 0;
  assert_end_of_buffer (payload nc) pos ;;
  Ok phase.

Definition write_bye_cmd (phase : Z) (nc : netcmd) : result netcmd := Ok (fresh bye_cmd nc [byte_of phase]).

Definition read_anonymous_cmd (nc : netcmd) : result (protocol_role * bytes * bytes * bytes) :=
  '(b, pos) ← extract_datum_lsb 1 (payload nc) 0;
  role ← role_of_byte b;
  '(include_pattern, pos) ← extract_globish (payload nc) pos;
  '(exclude_pattern, pos) ← extract_globish (payload nc) pos;
  '(hmac_key_encrypted, pos) ← vstr (payload nc) pos;
  assert_end_of_buffer (payload nc) pos ;;
  Ok (role, include_pattern, exclude_pattern, hmac_key_encrypted).

Definition write_anonymous_cmd (role : protocol_role) (include_pattern exclude_pattern hmac_key_encrypted : bytes)
    (nc : netcmd) : result netcmd :=
  Ok (appended anonymous_cmd nc
        (byte_of (role_byte role) :: insert_variable_length_string (to_text include_pattern) ++
         insert_variable_length_string (to_text exclude_pattern) ++ insert_variable_length_string hmac_key_encrypted)).

Definition read_auth_cmd (nc : netcmd) :
    result (protocol_role * bytes * bytes * bytes * bytes * bytes * bytes) :=
  '(b, pos) ← extract_datum_lsb 1 (payload nc) 0;
  role ← role_of_byte b;
  '(include_pattern, pos) ← extract_globish (payload nc) pos;
  '(exclude_pattern, pos) ← extract_globish (payload nc) pos;
  '(client, pos) ← extract_id (payload nc) pos;
  '(nonce1, pos) ← extract_id (payload nc) pos;
  '(hmac_key_encrypted, pos) ← vstr (payload nc) pos;
  '(signature, pos) ← vstr (payload nc) pos;
  assert_end_of_buffer (payload nc) pos ;;
  Ok (role, include_pattern, exclude_pattern, client, nonce1, hmac_key_encrypted, signature).

Definition write_auth_cmd (role : protocol_role)
    (include_pattern exclude_pattern client nonce1 hmac_key_encrypted signature : bytes) (nc : netcmd) : result netcmd :=
  I_ (len client =? hash_bytes) ;;
  I_ (len nonce1 =? hash_bytes) ;;
  Ok (appended auth_cmd nc
        (byte_of (role_byte role) :: insert_variable_length_string (to_text include_pattern) ++
         insert_variable_length_string (to_text exclude_pattern) ++ client ++ nonce1 ++
         insert_variable_length_string hmac_key_encrypted ++ insert_variable_length_string signature)).

Definition read_confirm_cmd (nc : netcmd) : result unit := assert_end_of_buffer (payload nc) 0.

Definition write_confirm_cmd (nc : netcmd) : result netcmd := Ok (fresh confirm_cmd nc []).

Definition read_refine_cmd (nc : netcmd) : result (refinement_type * merkle_node) :=
  '(b, pos) ← extract_datum_lsb 1 (payload nc) 0;
  ty ← refinement_of_byte b;
  '(node, pos) ← read_node (payload nc) pos new_merkle_node;
  assert_end_of_buffer (payload nc) pos ;;
  Ok (ty, node).

Definition write_refine_cmd (ty : refinement_type) (node : merkle_node) (nc : netcmd) : result netcmd :=
  s ← write_node node;
  Ok (fresh refine_cmd nc (byte_of (refinement_byte ty) :: s)).

Definition read_done_cmd (nc : netcmd) : result (netcmd_item_type * Z) :=
  '(ty, pos) ← read_netcmd_item_type (payload nc) 0;
  '(n_items, pos) ← extract_datum_uleb128 size_t_bytes (payload nc) pos;
  assert_end_of_buffer (payload nc) pos ;;
  Ok (ty, n_items).

Definition write_done_cmd (ty : netcmd_item_type) (n_items : Z) (nc : netcmd) : result netcmd :=
  Ok (fresh done_cmd nc (byte_of (item_code ty) :: insert_datum_uleb128 size_t_bytes n_items)).

(** What a compression flag and the string behind it stand for. *)
Definition decompress (compressed_p : Z) (dat : bytes) : result bytes :=
  if compressed_p =? 1 then gunzip dat else Ok dat.

Definition read_data_cmd (nc : netcmd) : result (netcmd_item_type * bytes * bytes) :=
  '(ty, pos) ← read_netcmd_item_type (payload nc) 0;
  '(item, pos) ← extract_id (payload nc) pos;
  '(compressed_p, pos) ← extract_datum_lsb 1 (payload nc) pos;
  '(dat, pos) ← vstr (payload nc) pos;
  dat ← decompress compressed_p dat;
  assert_end_of_buffer (payload nc) pos ;;
  Ok (ty, item, dat).

Definition write_data_cmd (ty : netcmd_item_type) (item dat : bytes) (nc : netcmd) : result netcmd :=
  I_ (len item =? hash_bytes) ;;
  Ok (appended data_cmd nc
        (byte_of (item_code ty) :: item ++
         if netcmd_minimum_bytes_to_bother_with_gzip <? len dat
         then byte_of 1 :: insert_variable_length_string (gzip_ dat)
         else byte_of 0 :: insert_variable_length_string dat)).

Definition read_delta_cmd (nc : netcmd) : result (netcmd_item_type * bytes * bytes * bytes) :=
  '(ty, pos) ← read_netcmd_item_type (payload nc) 0;
  '(base, pos) ← extract_id (payload nc) pos;
  '(ident, pos) ← extract_id (payload nc) pos;
  '(compressed_p, pos) ← extract_datum_lsb 1 (payload nc) pos;
  '(tmp, pos) ← vstr (payload nc) pos;
  del ← decompress compressed_p tmp;
  assert_end_of_buffer (payload nc) pos ;;
  Ok (ty, base, ident, del).

Definition write_delta_cmd (ty : netcmd_item_type) (base ident del : bytes) (nc : netcmd) : result netcmd :=
  I_ (len base =? hash_bytes) ;;
  I_ (len ident =? hash_bytes) ;;
  let compress := netcmd_minimum_bytes_to_bother_with_gzip <? len del in
  let tmp := if compress then gzip_ del else del in
  I_ (len tmp <=? netcmd_payload_limit) ;;
  Ok (appended delta_cmd nc
        (byte_of (item_code ty) :: base ++ ident ++
         byte_of (if compress then 1 else 0) :: insert_variable_length_string tmp)).

Definition read_automate_cmd (nc : netcmd) : result (bytes * bytes * bytes * bytes) :=
  '(client, pos) ← extract_id (payload nc) 0;
  '(nonce1, pos) ← extract_id (payload nc) pos;
  '(hmac_key_encrypted, pos) ← vstr (payload nc) pos;
  '(signature, pos) ← vstr (payload nc) pos;
  assert_end_of_buffer (payload nc) pos ;;
  Ok (client, nonce1, hmac_key_encrypted, signature).

Definition write_automate_cmd (client nonce1 hmac_key_encrypted signature : bytes) (nc : netcmd) : result netcmd :=
  I_ (bool_decide (client = []) || (len client =? hash_bytes)) ;;
  I_ (len nonce1 =? hash_bytes) ;;
  Ok (appended automate_cmd nc
        ((if bool_decide (client = []) then replicate merkle_hash_length_in_bytes Ascii.zero else client) ++ nonce1 ++
         insert_variable_length_string hmac_key_encrypted ++ insert_variable_length_string signature)).

Definition read_automate_headers_request_cmd (nc : netcmd) : result unit := assert_end_of_buffer (payload nc) 0.

Definition write_automate_headers_request_cmd (nc : netcmd) : result netcmd :=
  Ok (appended automate_headers_request_cmd nc []).

(** The [for] loops that read [n] strings, and [n] pairs of strings. *)
Fixpoint read_strings (buf : bytes) (n : nat) (pos : Z) : result (list bytes * Z) :=
  match n with
  | O => Ok ([], pos)
  | S n =>
      '(arg, pos) ← vstr buf pos;
      '(args, pos) ← read_strings buf n pos;
      Ok (arg :: args, pos)
  end.

Fixpoint read_pairs (buf : bytes) (n : nat) (pos : Z) : result (list (bytes * bytes) * Z) :=
  match n with
  | O => Ok ([], pos)
  | S n =>
      '(name, pos) ← vstr buf pos;
      '(value, pos) ← vstr buf pos;
      '(pairs, pos) ← read_pairs buf n pos;
      Ok ((name, value) :: pairs, pos)
  end.

Definition write_strings (l : list bytes) : bytes :=
  insert_datum_uleb128 size_t_bytes (Z.of_nat (length l)) ++ flat_map insert_variable_length_string l.

Definition write_pairs (l : list (bytes * bytes)) : bytes :=
  insert_datum_uleb128 size_t_bytes (Z.of_nat (length l)) ++
  flat_map (λ '(name, value), insert_variable_length_string name ++ insert_variable_length_string value) l.

Definition read_automate_headers_reply_cmd (nc : netcmd) : result (list (bytes * bytes)) :=
  '(nheaders, pos) ← extract_datum_uleb128 size_t_bytes (payload nc) 0;
  '(headers, pos) ← read_pairs (payload nc) (Z.to_nat nheaders) pos;
  assert_end_of_buffer (payload nc) pos ;;
  Ok headers.

Definition write_automate_headers_reply_cmd (headers : list (bytes * bytes)) (nc : netcmd) : result netcmd :=
  Ok (appended automate_headers_reply_cmd nc (write_pairs headers)).

Definition read_automate_command_cmd (nc : netcmd) : result (list bytes * list (bytes * bytes)) :=
  '(nargs, pos) ← extract_datum_uleb128 size_t_bytes (payload nc) 0;
  '(args, pos) ← read_strings (payload nc) (Z.to_nat nargs) pos;
  '(nopts, pos) ← extract_datum_uleb128 size_t_bytes (payload nc) pos;
  '(opts, pos) ← read_pairs (payload nc) (Z.to_nat nopts) pos;
  assert_end_of_buffer (payload nc) pos ;;
  Ok (args, opts).

Definition write_automate_command_cmd (args : list bytes) (opts : list (bytes * bytes)) (nc : netcmd) : result netcmd :=
  Ok (appended automate_command_cmd nc (write_strings args ++ write_pairs opts)).

(** [int(z)], [char(z)] and [size_t(z)]: a conversion keeps the low bits. *)
Definition to_int (z : Z) : Z := (z + 2 ^ 31) mod 2 ^ 32 - 2 ^ 31.
Definition to_char (z : Z) : Z := (z + 2 ^ 7) mod 2 ^ 8 - 2 ^ 7.
Definition to_size_t (z : Z) : Z := u64 z.

Definition read_automate_packet_cmd (nc : netcmd) : result (Z * Z * bytes) :=
  '(command_num, pos) ← extract_datum_uleb128 size_t_bytes (payload nc) 0;
  '(stream, pos) ← extract_datum_uleb128 size_t_bytes (payload nc) pos;
  '(packet_data, pos) ← vstr (payload nc) pos;
  assert_end_of_buffer (payload nc) pos ;;
  Ok (to_int command_num, to_char stream, packet_data).

Definition write_automate_packet_cmd (command_num stream : Z) (packet_data : bytes) (nc : netcmd) : result netcmd :=
  Ok (appended automate_packet_cmd nc
        (insert_datum_uleb128 size_t_bytes (to_size_t command_num) ++
         insert_datum_uleb128 size_t_bytes (to_size_t stream) ++ insert_variable_length_string packet_data)).

Definition read_usher_cmd (nc : netcmd) : result bytes :=
  '(greeting, pos) ← vstr (payload nc) 0;
  assert_end_of_buffer (payload nc) pos ;;
  Ok greeting.

Definition write_usher_cmd (greeting : bytes) (nc : netcmd) : result netcmd :=
  Ok (Netcmd 0 usher_cmd (payload nc ++ insert_variable_length_string greeting)).

Definition read_usher_reply_cmd (nc : netcmd) : result (Z * bytes * bytes) :=
  '(server, pos) ← vstr (payload nc) 0;
  '(pattern, pos) ← vstr (payload nc) pos;
  assert_end_of_buffer (payload nc) pos ;;
  Ok (version nc, server, pattern).

Definition write_usher_reply_cmd (server pattern : bytes) (nc : netcmd) : result netcmd :=
  Ok (fresh usher_reply_cmd nc (insert_variable_length_string server ++ insert_variable_length_string pattern)).
End commands.
