(* ===== verification/NetcmdPayload.v ===== *)
(** * The payloads of network commands

    Every command written into a fresh [netcmd] is read back as it was. *)

From S2P Require Import Prelude Numbers Hex Netio MerkleTree MerkleIo Refiner RefinerIndex Globish GlobishSpec GlobishCompile Netcmd.

(** What the library promises: HMAC-SHA-1 has twenty bytes, and decompressing
    undoes compressing. *)
Class netcmd_lib_laws `{!netcmd_lib} := {
  hmac_length k m : len (hmac_sha1 k m) = sha1_digest_length;
  gunzip_gzip s : gunzip (gzip_ s) = Ok s
}.
Arguments netcmd_lib_laws _ : clear implicits.

(** ** Commands as values *)

Inductive command :=
  | CError (errmsg : bytes)
  | CBye (phase : Z)
  | CHello (server_keyname server_key nonce : bytes)
  | CAnonymous (role : protocol_role) (include_pattern exclude_pattern hmac_key_encrypted : bytes)
  | CAuth (role : protocol_role) (include_pattern exclude_pattern client nonce1 hmac_key_encrypted signature : bytes)
  | CConfirm
  | CRefine (ty : refinement_type) (node : merkle_node)
  | CDone (ty : netcmd_item_type) (n_items : Z)
  | CData (ty : netcmd_item_type) (item dat : bytes)
  | CDelta (ty : netcmd_item_type) (base ident del : bytes)
  | CAutomate (client nonce1 hmac_key_encrypted signature : bytes)
  | CHeadersRequest
  | CHeadersReply (headers : list (bytes * bytes))
  | CCommand (args : list bytes) (opts : list (bytes * bytes))
  | CPacket (command_num stream : Z) (packet_data : bytes)
  | CUsher (greeting : bytes)
  | CUsherReply (server pattern : bytes).

(** What the writers are meant for. *)
Definition globish_ok (c : bytes) : Prop := ∃ o pat, compile o pat = Ok c.
Definition hash_ok (s : bytes) : Prop := length s = merkle_hash_length_in_bytes.

Section payloads.
Context {ML : merkle_lib} {MLL : merkle_lib_laws ML} {NL : netcmd_lib} {NLL : netcmd_lib_laws NL}.

Definition command_ok (m : command) : Prop :=
  match m with
  | CBye phase => 0 ≤ phase < 256
  | CHello server_keyname _ nonce => Forall (λ c, c ∈ legal_key_name_bytes) server_keyname ∧ hash_ok nonce
  | CAnonymous _ inc exc _ => globish_ok inc ∧ globish_ok exc
  | CAuth _ inc exc client nonce1 _ _ => globish_ok inc ∧ globish_ok exc ∧ hash_ok client ∧ hash_ok nonce1
  | CRefine _ node => sendable node
  | CDone ty n_items => known_type ty ∧ 0 ≤ n_items < 2 ^ 31
  | CData ty item _ => known_type ty ∧ hash_ok item
  | CDelta ty base ident del =>
      known_type ty ∧ hash_ok base ∧ hash_ok ident ∧
      len (if netcmd_minimum_bytes_to_bother_with_gzip <? len del then gzip_ del else del) ≤ netcmd_payload_limit
  | CAutomate client nonce1 _ _ => hash_ok client ∧ hash_ok nonce1
  | CPacket command_num stream _ => 0 ≤ command_num < 2 ^ 31 ∧ 0 ≤ stream < 128
  | _ => True
  end.

Definition write_command (m : command) (nc : netcmd) : result netcmd :=
  match m with
  | CError errmsg => write_error_cmd errmsg nc
  | CBye phase => write_bye_cmd phase nc
  | CHello kn k nonce => write_hello_cmd kn k nonce nc
  | CAnonymous role inc exc hk => write_anonymous_cmd role inc exc hk nc
  | CAuth role inc exc client nonce1 hk sig => write_auth_cmd role inc exc client nonce1 hk sig nc
  | CConfirm => write_confirm_cmd nc
  | CRefine ty node => write_refine_cmd ty node nc
  | CDone ty n => write_done_cmd ty n nc
  | CData ty item dat => write_data_cmd ty item dat nc
  | CDelta ty base ident del => write_delta_cmd ty base ident del nc
  | CAutomate client nonce1 hk sig => write_automate_cmd client nonce1 hk sig nc
  | CHeadersRequest => write_automate_headers_request_cmd nc
  | CHeadersReply headers => write_automate_headers_reply_cmd headers nc
  | CCommand args opts => write_automate_command_cmd args opts nc
  | CPacket num stream dat => write_automate_packet_cmd num stream dat nc
  | CUsher greeting => write_usher_cmd greeting nc
  | CUsherReply server pattern => write_usher_reply_cmd server pattern nc
  end.

(** The reader for the code of the command. *)
Definition read_command (nc : netcmd) : result command :=
  match cmd_code nc with
  | error_cmd => errmsg ← read_error_cmd nc; Ok (CError errmsg)
  | bye_cmd => phase ← read_bye_cmd nc; Ok (CBye phase)
  | hello_cmd => '(_, kn, k, nonce) ← read_hello_cmd nc; Ok (CHello kn k nonce)
  | anonymous_cmd => '(role, inc, exc, hk) ← read_anonymous_cmd nc; Ok (CAnonymous role inc exc hk)
  | auth_cmd =>
      '(role, inc, exc, client, nonce1, hk, sig) ← read_auth_cmd nc; Ok (CAuth role inc exc client nonce1 hk sig)
  | confirm_cmd => read_confirm_cmd nc ;; Ok CConfirm
  | refine_cmd => '(ty, node) ← read_refine_cmd nc; Ok (CRefine ty node)
  | done_cmd => '(ty, n) ← read_done_cmd nc; Ok (CDone ty n)
  | data_cmd => '(ty, item, dat) ← read_data_cmd nc; Ok (CData ty item dat)
  | delta_cmd => '(ty, base, ident, del) ← read_delta_cmd nc; Ok (CDelta ty base ident del)
  | automate_cmd => '(client, nonce1, hk, sig) ← read_automate_cmd nc; Ok (CAutomate client nonce1 hk sig)
  | automate_headers_request_cmd => read_automate_headers_request_cmd nc ;; Ok CHeadersRequest
  | automate_headers_reply_cmd => headers ← read_automate_headers_reply_cmd nc; Ok (CHeadersReply headers)
  | automate_command_cmd => '(args, opts) ← read_automate_command_cmd nc; Ok (CCommand args opts)
  | automate_packet_cmd => '(num, stream, dat) ← read_automate_packet_cmd nc; Ok (CPacket num stream dat)
  | usher_cmd => greeting ← read_usher_cmd nc; Ok (CUsher greeting)
  | usher_reply_cmd => '(_, server, pattern) ← read_usher_reply_cmd nc; Ok (CUsherReply server pattern)
  end.

(** ** Reading the parts *)

Section parts.
Context (buf : bytes) (Hbuf : len buf ≤ netcmd_payload_limit).

Lemma small_part pos s t : unread buf pos (s ++ t) → len s < 2 ^ 31.
Proof.
  intros H. pose proof (unread_len _ _ _ H) as Hl. destruct H as (Hp & Hn & _). rewrite len_app in Hl. pose proof (len_nonneg t).
  change netcmd_payload_limit with (2 ^ 28) in Hbuf. lia.
Qed.

Lemma vstr_ok pos x s :
  unread buf pos (insert_variable_length_string x ++ s) →
  vstr buf pos = Ok (x, pos + len (insert_variable_length_string x)) ∧
  unread buf (pos + len (insert_variable_length_string x)) s.
Proof.
  intros Hu. assert (len x < 2 ^ 31) as Hx.
  { unfold insert_variable_length_string in Hu. rewrite <- app_assoc in Hu. by apply unread_app, small_part in Hu. }
  apply (extract_insert_string buf pos x npos s); [done| |done]. unfold npos. lia.
Qed.

Lemma extract_id_ok pos x s :
  hash_ok x → unread buf pos (x ++ s) → extract_id buf pos = Ok (x, pos + len x) ∧ unread buf (pos + len x) s.
Proof.
  intros Hx Hu. destruct (extract_substring_ok _ _ _ _ Hu) as [E U]. split; [|done]. unfold extract_id.
  replace (Z.of_nat merkle_hash_length_in_bytes) with (len x) by (unfold len; by rewrite Hx). rewrite E. cbn [mbind result_bind].
  unfold verify_id. rewrite bool_decide_true by done. by destruct (decide (x = [])).
Qed.

Lemma extract_globish_ok pos g s :
  globish_ok g → unread buf pos (insert_variable_length_string (to_text g) ++ s) →
  extract_globish buf pos = Ok (g, pos + len (insert_variable_length_string (to_text g))) ∧
  unread buf (pos + len (insert_variable_length_string (to_text g))) s.
Proof.
  intros (o & pat & Hg) Hu. destruct (vstr_ok _ _ _ Hu) as [E U]. split; [|done]. unfold extract_globish. rewrite E. cbn [mbind result_bind].
  by rewrite (printed_compiles o network pat).
Qed.

Lemma item_type_ok pos ty s :
  known_type ty → unread buf pos (byte_of (item_code ty) :: s) →
  read_netcmd_item_type buf pos = Ok (ty, pos + 1) ∧ unread buf (pos + 1) s.
Proof.
  intros Hty Hu. destruct (extract_u8 buf pos (item_code ty) s) as [E U]; [by apply known_type_code|done|]. split; [|done].
  unfold read_netcmd_item_type. rewrite E. cbn [mbind result_bind]. by destruct ty.
Qed.

Lemma count_ok pos n s :
  0 ≤ n < 2 ^ 31 → unread buf pos (insert_datum_uleb128 size_t_bytes n ++ s) →
  extract_datum_uleb128 size_t_bytes buf pos = Ok (n, pos + len (insert_datum_uleb128 size_t_bytes n)) ∧
  unread buf (pos + len (insert_datum_uleb128 size_t_bytes n)) s.
Proof. intros Hn. apply extract_insert_uleb128. left. unfold size_t_bytes. lia. Qed.

Lemma vstr_nonempty x : 1 ≤ len (insert_variable_length_string x).
Proof.
  unfold insert_variable_length_string, insert_datum_uleb128. rewrite len_app. pose proof (len_nonneg x).
  change (max_uleb128_bytes size_t_bytes) with 10%nat. cbn [insert_uleb128_loop].
  destruct (_ =? 0); rewrite len_cons; [rewrite len_nil; lia|]. pose proof (len_nonneg (insert_uleb128_loop 9 (Z.shiftr (len x) 7))). cbn [insert_uleb128_loop] in *. lia.
Qed.

Lemma read_strings_ok l : ∀ pos s,
  unread buf pos (flat_map insert_variable_length_string l ++ s) →
  ∃ pos', read_strings buf (length l) pos = Ok (l, pos') ∧ unread buf pos' s.
Proof.
  induction l as [|x l IH]; intros pos s Hu; cbn [flat_map length read_strings] in *; [by exists pos|].
  rewrite <- app_assoc in Hu. destruct (vstr_ok _ _ _ Hu) as [E U]. destruct (IH _ _ U) as (pos' & E' & U'). exists pos'.
  split; [|done]. rewrite E. cbn [mbind result_bind]. by rewrite E'.
Qed.

Lemma read_pairs_ok l : ∀ pos s,
  unread buf pos (flat_map (λ '(name, value), insert_variable_length_string name ++ insert_variable_length_string value) l ++ s) →
  ∃ pos', read_pairs buf (length l) pos = Ok (l, pos') ∧ unread buf pos' s.
Proof.
  induction l as [|[x y] l IH]; intros pos s Hu; cbn [flat_map length read_pairs] in *; [by exists pos|].
  rewrite <- !app_assoc in Hu. destruct (vstr_ok _ _ _ Hu) as [E U]. destruct (vstr_ok _ _ _ U) as [E1 U1].
  destruct (IH _ _ U1) as (pos' & E' & U'). exists pos'. split; [|done]. rewrite E. cbn [mbind result_bind].
  rewrite E1. cbn [mbind result_bind]. by rewrite E'.
Qed.
End parts.

(** Reads the next part of the payload. *)
Ltac read_with L U :=
  let E := fresh "E" in let U' := fresh "U" in
  edestruct L as [E U']; [|exact U|]; [solve [eassumption | lia]|]; rewrite E; clear E U; rename U' into U.

Ltac part :=
  lazymatch goal with
  | Hb : len ?b ≤ netcmd_payload_limit, U : unread ?b ?p _ |- _ =>
      lazymatch goal with
      | |- context [assert_end_of_buffer b p] => rewrite (assert_end_ok b p U)
      | |- context [extract_variable_length_string b p npos] =>
          let E := fresh "E" in let U' := fresh "U" in
          destruct (vstr_ok b Hb p _ _ U) as [E U']; rewrite E; clear E U; rename U' into U
      | |- context [extract_globish b p] => read_with (extract_globish_ok b Hb p) U
      | |- context [extract_id b p] => read_with (extract_id_ok b p) U
      | |- context [read_netcmd_item_type b p] => read_with (item_type_ok b p) U
      | |- context [extract_datum_uleb128 size_t_bytes b p] => read_with (count_ok b p) U
      | |- context [extract_datum_lsb 1 b p] => read_with (extract_u8 b p) U
      end
  end; cbn [mbind result_bind].

(** What there is to read. *)
Lemma from_start (G : bytes → Prop) P :
  (∀ b, len b ≤ netcmd_payload_limit → unread b 0 (P ++ []) → G b) → len P ≤ netcmd_payload_limit → G P.
Proof.
  intros H Hb. apply H; [done|]. rewrite app_nil_r. apply unread_start. change netcmd_payload_limit with (2 ^ 28) in Hb. lia.
Qed.

Ltac reading :=
  unfold read_command, fresh, appended; intros Hb; cbn [payload cmd_code new_netcmd app] in *;
  match type of Hb with len ?P ≤ _ => pattern P; revert Hb; refine (from_start _ P _) end;
  let b := fresh "b" in let U := fresh "U" in
  intros b Hb U; cbn beta; cbn [app] in U; rewrite <- ?app_assoc in U; cbn [app] in U.

Lemma hash_len x : hash_ok x → (len x =? hash_bytes) = true.
Proof. intros H. unfold len. rewrite H. apply Z.eqb_refl. Qed.

Lemma role_of_role_byte role : 0 ≤ role_byte role < 256 ∧ role_of_byte (role_byte role) = Ok role.
Proof. by destruct role. Qed.

Lemma refinement_of_refinement_byte ty : 0 ≤ refinement_byte ty < 256 ∧ refinement_of_byte (refinement_byte ty) = Ok ty.
Proof. by destruct ty. Qed.

(** A command is written, and read back. *)
Definition survives (m : command) : Prop :=
  ∀ v, ∃ nc, write_command m (new_netcmd v) = Ok nc ∧ version nc = (if bool_decide (cmd_code nc = usher_cmd) then 0 else v) ∧
    (len (payload nc) ≤ netcmd_payload_limit → read_command nc = Ok m).

Lemma simple_commands_survive m :
  match m with CError _ | CBye _ | CConfirm | CHeadersRequest | CUsher _ | CUsherReply _ _ => True | _ => False end →
  command_ok m → survives m.
Proof.
  intros Hm Hok v. destruct m; try done; (eexists; split; [reflexivity|split; [reflexivity|]]); reading.
  - unfold read_error_cmd. cbn [payload]. do 2 part. done.
  - unfold read_bye_cmd. cbn [payload]. cbn in Hok. do 2 part. done.
  - unfold read_confirm_cmd. cbn [payload]. part. done.
  - unfold read_automate_headers_request_cmd. cbn [payload]. part. done.
  - unfold read_usher_cmd. cbn [payload]. do 2 part. done.
  - unfold read_usher_reply_cmd. cbn [payload]. do 3 part. done.
Qed.

Lemma session_commands_survive m :
  match m with CHello _ _ _ | CAnonymous _ _ _ _ | CAuth _ _ _ _ _ _ _ | CAutomate _ _ _ _ => True | _ => False end →
  command_ok m → survives m.
Proof.
  intros Hm Hok v. destruct m as [| |kn k nonce|role inc exc hk|role inc exc client nonce1 hk sig| | | | | |client nonce1 hk sig| | | | | |];
    try done; cbn [command_ok] in Hok; cbn [write_command].
  - destruct Hok as [Hkn Hn]. unfold write_hello_cmd. rewrite hash_len by done.
    eexists; split; [reflexivity|split; [reflexivity|]]; reading. unfold read_hello_cmd. cbn [payload]. part.
    unfold verify_key_name. rewrite (proj2 (forallb_forall _ _)); [|intros c Hc%list_elem_of_In; apply bool_decide_eq_true; revert c Hc; by apply Forall_forall].
    cbn [E_ mbind result_bind]. part. part. part. done.
  - destruct Hok as [Hi He]. destruct (role_of_role_byte role) as [Hr Hr'].
    eexists; split; [reflexivity|split; [reflexivity|]]; reading. unfold read_anonymous_cmd. cbn [payload]. part.
    rewrite Hr'. cbn [mbind result_bind]. do 4 part. done.
  - destruct Hok as (Hi & He & Hc & Hn). destruct (role_of_role_byte role) as [Hr Hr']. unfold write_auth_cmd. rewrite !hash_len by done.
    eexists; split; [reflexivity|split; [reflexivity|]]; reading. unfold read_auth_cmd. cbn [payload]. part.
    rewrite Hr'. cbn [mbind result_bind]. do 7 part. done.
  - destruct Hok as [Hc Hn]. unfold write_automate_cmd. rewrite !hash_len, orb_true_r by done.
    assert (bool_decide (client = []) = false) as E by (apply bool_decide_eq_false; by intros ->). rewrite E.
    eexists; split; [reflexivity|split; [reflexivity|]]; reading. unfold read_automate_cmd. cbn [payload]. do 5 part. done.
Qed.

Lemma transfer_commands_survive m :
  match m with CRefine _ _ | CDone _ _ | CData _ _ _ | CDelta _ _ _ _ => True | _ => False end →
  command_ok m → survives m.
Proof.
  intros Hm Hok v. destruct m as [| | | | | |ty nd|ty n|ty item dat|ty base ident del| | | | | | |]; try done; cbn [command_ok] in Hok; cbn [write_command].
  - destruct (refinement_of_refinement_byte ty) as [Hr Hr']. unfold write_refine_cmd. rewrite write_node_ok by done.
    eexists; split; [reflexivity|split; [reflexivity|]]; reading. unfold read_refine_cmd. cbn [payload]. part.
    rewrite Hr'. cbn [mbind result_bind]. destruct (read_node_ok nd b _ [] Hok U) as [-> U']. clear U. cbn [mbind result_bind]. part. done.
  - destruct Hok as [Hty Hn]. eexists; split; [reflexivity|split; [reflexivity|]]; reading. unfold read_done_cmd. cbn [payload]. do 3 part. done.
  - destruct Hok as [Hty Hi]. unfold write_data_cmd. rewrite hash_len by done.
    eexists; split; [reflexivity|split; [reflexivity|]]. destruct (_ <? len dat); reading; unfold read_data_cmd; cbn [payload];
      do 4 part; [unfold decompress; cbn [Z.eqb Pos.eqb]; rewrite gunzip_gzip; cbn [mbind result_bind]|cbn [decompress Z.eqb mbind result_bind]];
      part; done.
  - destruct Hok as (Hty & Hba & Hi & Hl). unfold write_delta_cmd. rewrite !hash_len by done. cbn [I_ mbind result_bind].
    rewrite (proj2 (Z.leb_le _ _)) by done. eexists; split; [reflexivity|split; [reflexivity|]]. clear Hl.
    destruct (_ <? len del); reading; unfold read_delta_cmd; cbn [payload];
      do 5 part; [unfold decompress; cbn [Z.eqb Pos.eqb]; rewrite gunzip_gzip; cbn [mbind result_bind]|cbn [decompress Z.eqb mbind result_bind]];
      part; done.
Qed.

(** A count is no greater than the length of what it counts. *)
Lemma count_fits {A} (f : A → bytes) (l : list A) b pos s :
  len b ≤ netcmd_payload_limit → (∀ x, 1 ≤ len (f x)) →
  unread b pos (insert_datum_uleb128 size_t_bytes (Z.of_nat (length l)) ++ flat_map f l ++ s) → 0 ≤ Z.of_nat (length l) < 2 ^ 31.
Proof.
  intros Hb Hf Hu. apply unread_app in Hu. pose proof (small_part b Hb _ _ _ Hu) as Hs.
  enough (Z.of_nat (length l) ≤ len (flat_map f l)) by lia. clear Hu Hs.
  induction l as [|x l IH]; [done|]. cbn [length flat_map]. rewrite len_app. pose proof (Hf x). lia.
Qed.

Lemma pair_nonempty (x : bytes * bytes) :
  1 ≤ len (let '(name, value) := x in insert_variable_length_string name ++ insert_variable_length_string value).
Proof. destruct x as [x y]. rewrite len_app. pose proof (vstr_nonempty x). pose proof (len_nonneg (insert_variable_length_string y)). lia. Qed.

Lemma automate_commands_survive m :
  match m with CHeadersReply _ | CCommand _ _ | CPacket _ _ _ => True | _ => False end →
  command_ok m → survives m.
Proof.
  intros Hm Hok v. destruct m as [| | | | | | | | | | | |headers|args opts|num stream dat| |]; try done; cbn [command_ok] in Hok; cbn [write_command];
    (eexists; split; [reflexivity|split; [reflexivity|]]); reading.
  - unfold read_automate_headers_reply_cmd. cbn [payload]. unfold write_pairs in U. rewrite <- app_assoc in U.
    pose proof (count_fits _ _ _ _ _ Hb pair_nonempty U) as Hn. part. rewrite Nat2Z.id.
    destruct (read_pairs_ok b Hb _ _ _ U) as (p & -> & U'). clear U. cbn [mbind result_bind]. part. done.
  - unfold read_automate_command_cmd. cbn [payload]. unfold write_strings, write_pairs in U. rewrite <- !app_assoc in U.
    pose proof (count_fits _ _ _ _ _ Hb vstr_nonempty U) as Hn. part. rewrite Nat2Z.id.
    destruct (read_strings_ok b Hb _ _ _ U) as (p & -> & U'). clear U. cbn [mbind result_bind].
    pose proof (count_fits _ _ _ _ _ Hb pair_nonempty U') as Hn'. part. rewrite Nat2Z.id.
    destruct (read_pairs_ok b Hb _ _ _ U') as (p' & -> & U). clear U'. cbn [mbind result_bind]. part. done.
  - destruct Hok as [Hn Hs]. unfold read_automate_packet_cmd. cbn [payload]. unfold to_size_t in U. rewrite !u64_small in U by lia.
    part. part. part. part. unfold to_int, to_char. rewrite !Z.mod_small by lia. do 2 f_equal; lia.
Qed.

(** Every command survives. *)
Lemma command_survives m : command_ok m → survives m.
Proof.
  intros Hok. destruct m;
    first [by apply simple_commands_survive | by apply session_commands_survive | by apply transfer_commands_survive
          | by apply automate_commands_survive].
Qed.
End payloads.
