(* ===== verification/NetcmdStream.v ===== *)
(** * Streams of network commands

    The envelope of netcmd.cc: what is written is read, whatever follows it; a
    part of a command is waited for; nothing is accepted without its
    checksum; and two inputs that the readers do not cope with. *)

From S2P Require Import Prelude Numbers Hex Netio MerkleTree MerkleIo Refiner RefinerIndex Globish GlobishSpec GlobishCompile Netcmd NetcmdPayload.

(** ** Variable-length integers in any input *)

Lemma uleb128_loop_bounds sz m buf : 0 ≤ sz → ∀ pos shift out p o,
  uleb128_loop sz m buf pos shift out = Ok (true, p, o) → 0 ≤ out →
  pos ≤ p ≤ pos + Z.of_nat m ∧ (m = 0%nat ∨ pos < p) ∧ p ≤ Z.max pos (len buf) ∧ 0 ≤ o.
Proof.
  intros Hsz. induction m as [|m IH]; intros pos shift out p o H Ho; cbn [uleb128_loop] in H.
  - injection H as <- <-. lia.
  - destruct (Z.leb_spec (len buf) pos); [done|]. apply bind_Ok_inv in H as (x & Hx & H).
    assert (0 ≤ Z.lor out (wrap sz x)) as Hl.
    { apply Z.lor_nonneg. split; [done|]. unfold wrap. apply Z.mod_pos_bound, Z.pow_pos_nonneg; lia. }
    destruct (_ =? 0); [injection H as <- <-; lia|]. destruct (m =? 0)%nat; [done|]. apply IH in H; [|done]. lia.
Qed.

Lemma byte_at_app t u pos : 0 ≤ pos < len t → byte_at (t ++ u) pos = byte_at t pos.
Proof. intros H. unfold byte_at, len in *. rewrite app_nth1 by lia. done. Qed.

(** An integer that does not end in the input so far is incomplete. *)
Lemma uleb128_loop_prefix sz t u m : ∀ pos shift out p o,
  uleb128_loop sz m (t ++ u) pos shift out = Ok (true, p, o) → 0 ≤ pos ≤ len t →
  if p <=? len t then uleb128_loop sz m t pos shift out = Ok (true, p, o)
  else ∃ p' o', uleb128_loop sz m t pos shift out = Ok (false, p', o').
Proof.
  induction m as [|m IH]; intros pos shift out p o H Hp; cbn [uleb128_loop] in *.
  - injection H as <- <-. by rewrite (proj2 (Z.leb_le _ _)) by lia.
  - rewrite len_app in H. pose proof (len_nonneg u). destruct (Z.leb_spec (len t + len u) pos); [done|].
    destruct (Z.leb_spec (len t) pos) as [Ht|Ht].
    { apply bind_Ok_inv in H as (x & _ & H). destruct (Z.leb_spec p (len t)); [|by eauto]. exfalso.
      destruct (_ =? 0); [injection H as <- <-; lia|]. destruct (m =? 0)%nat; [done|]. clear IH.
      assert (∀ m pos shift out, uleb128_loop sz m (t ++ u) pos shift out = Ok (true, p, o) → pos ≤ p) as Hmono.
      { clear. induction m as [|m IH]; intros pos shift out H; cbn [uleb128_loop] in H; [injection H as <- <-; lia|].
        destruct (_ <=? _); [done|]. apply bind_Ok_inv in H as (x & _ & H). destruct (_ =? 0); [injection H as <- <-; lia|].
        destruct (m =? 0)%nat; [done|]. apply IH in H. lia. }
      apply Hmono in H. lia. }
    rewrite byte_at_app in H by lia. destruct (int_shl _ shift) as [x|]; [|done]. cbn [mbind result_bind] in *.
    destruct (_ =? 0); [injection H as <- <-; by rewrite (proj2 (Z.leb_le _ _)) by lia|]. destruct (m =? 0)%nat; [done|].
    apply IH; [done|lia].
Qed.

Lemma extract_try sz buf pos v p : extract_datum_uleb128 sz buf pos = Ok (v, p) → try_extract_datum_uleb128 sz buf pos = Ok (true, p, v).
Proof.
  unfold extract_datum_uleb128. destruct (try_extract_datum_uleb128 sz buf pos) as [[[[] ?] ?]|]; cbn; by intros [= -> ->].
Qed.

(** ** Parts of any input *)

Lemma unread_at buf pos : 0 ≤ pos ≤ len buf → len buf < 2 ^ 64 → unread buf pos (drop (Z.to_nat pos) buf).
Proof. intros Hp Hl. split_and!; [lia|lia|done|done]. Qed.

Lemma slice_drop buf pos n : 0 ≤ pos → 0 ≤ n → drop (Z.to_nat pos) buf = slice buf pos n ++ drop (Z.to_nat (pos + n)) buf.
Proof. intros Hp Hn. unfold slice. rewrite Z2Nat.inj_add, <- drop_drop by lia. by rewrite take_drop. Qed.

Lemma extract_slice buf pos n :
  0 ≤ pos → 0 ≤ n → pos + n ≤ len buf → len buf < 2 ^ 64 → extract_substring buf pos n = Ok (slice buf pos n, pos + n).
Proof.
  intros Hp Hn Hl Hb. pose proof (unread_at buf pos ltac:(lia) Hb) as U. rewrite (slice_drop buf pos n) in U by lia.
  destruct (extract_substring_ok _ _ _ _ U) as [E _]. rewrite len_slice in E by lia. exact E.
Qed.

Lemma extract_byte buf pos :
  0 ≤ pos < len buf → len buf < 2 ^ 64 → extract_datum_lsb 1 buf pos = Ok (byte_at buf pos, pos + 1).
Proof.
  intros Hp Hb. pose proof (unread_at buf pos ltac:(lia) Hb) as U.
  destruct (drop (Z.to_nat pos) buf) as [|c s] eqn:E.
  { apply (f_equal length) in E. rewrite length_drop in E. unfold len in Hp. cbn in E. lia. }
  destruct (unread_byte _ _ _ _ U) as [-> _]. rewrite <- (byte_of_val c) in U. apply (extract_u8 buf pos (byte_val c) s); [apply byte_val_range|done].
Qed.

Section streams.
Context {ML : merkle_lib} {MLL : merkle_lib_laws ML} {NL : netcmd_lib} {NLL : netcmd_lib_laws NL}.

(** ** What [read] does *)

Definition digest_of (h : chained_hmac) (msg : bytes) : bytes := hmac_sha1 (hmac_key h) (chain_val h ++ msg).

Definition next_hmac (c : netcmd_code) (h : chained_hmac) (msg : bytes) : chained_hmac :=
  if carries_hmac c h then ChainedHmac (hmac_active h) (hmac_key h) (digest_of h msg) else h.

(** The length of a command whose payload of [n] bytes starts at [p]. *)
Definition total (c : netcmd_code) (h : chained_hmac) (p n : Z) : Z :=
  p + n + if carries_hmac c h then netsync_hmac_value_length_in_bytes else 0.

(** The version check of a command. *)
Definition mismatch (mn mx : Z) (c : netcmd_code) (v : Z) : bool :=
  negb (bool_decide (c = usher_cmd)) && ((v <? mn) || (negb (bool_decide (c = usher_reply_cmd)) && (mx <? v))).

Lemma process_ok h msg str pos n :
  hmac_active h = true → 0 ≤ pos < len str → 0 ≤ n → pos + n ≤ len str → len str < 2 ^ 64 - 1 → slice str pos n = msg →
  process h str pos n = Ok (digest_of h msg, ChainedHmac (hmac_active h) (hmac_key h) (digest_of h msg)).
Proof.
  intros Ha Hp Hn Hl Hs <-. unfold process. rewrite Ha, (proj2 (Z.ltb_lt _ _)) by lia. cbn [I_ mbind result_bind].
  rewrite (proj2 (Z.eqb_neq n npos)) by (unfold npos; lia). rewrite u64_small, (proj2 (Z.leb_le _ _)) by lia. cbn [I_ mbind result_bind].
  rewrite hmac_length, Z.eqb_refl. done.
Qed.

Lemma read_eq nc0 mn mx inbuf h :
  3 ≤ len inbuf < 2 ^ 64 - 1 →
  read nc0 mn mx inbuf h =
  let v := byte_at inbuf 0 in
  c ← read_code (cmd_code nc0) (v <? mn) (mx <? v) (byte_at inbuf 1);
  if mismatch mn mx c v then Err BadDecode
  else
    '(complete, p, n) ← try_extract_datum_uleb128 size_t_bytes inbuf 2;
    if negb complete then Ok (false, Netcmd v c (payload nc0), inbuf, h)
    else if netcmd_payload_limit <? n then Err BadDecode
    else if len inbuf <? total c h p n then Ok (false, Netcmd v c (payload nc0), inbuf, h)
    else if carries_hmac c h && negb (bool_decide (slice inbuf (p + n) netsync_hmac_value_length_in_bytes = digest_of h (slice inbuf 0 (p + n))))
    then Err BadDecode
    else Ok (true, Netcmd v c (slice inbuf p n), drop (Z.to_nat (total c h p n)) inbuf, next_hmac c h (slice inbuf 0 (p + n))).
Proof.
  intros Hl. unfold read. change netcmd_minsz with 3. rewrite (proj2 (Z.ltb_ge _ _)) by lia.
  rewrite extract_byte by lia. cbn [mbind result_bind]. change (0 + 1) with 1. rewrite extract_byte by lia. cbn [mbind result_bind]. cbv zeta.
  destruct (read_code _ _ _ _) as [c|]; [|done]. cbn [mbind result_bind]. unfold mismatch. destruct (_ && (_ || _)); [done|].
  change (1 + 1) with 2. destruct (try_extract_datum_uleb128 size_t_bytes inbuf 2) as [[[[] p] n]|] eqn:Hu; [|done|done]. cbn [mbind result_bind negb].
  destruct (Z.ltb_spec netcmd_payload_limit n) as [|Hn]; [done|].
  apply uleb128_loop_bounds in Hu as (Hp & _ & Hp' & Hn0); [|done|done]. change (Z.of_nat (max_uleb128_bytes size_t_bytes)) with 10 in Hp.
  change netcmd_payload_limit with (2 ^ 28) in Hn. unfold total. destruct (carries_hmac c h) eqn:Hc.
  - rewrite u32_small by (change netsync_hmac_value_length_in_bytes with 20; lia). destruct (Z.ltb_spec (len inbuf) (p + n + netsync_hmac_value_length_in_bytes)) as [|Hm]; [done|].
    change netsync_hmac_value_length_in_bytes with 20 in *. assert (hmac_active h = true) as Ha by (unfold carries_hmac in Hc; by destruct (hmac_active h)).
    change (sha1_digest_length =? 20) with true. cbn [I_ mbind result_bind].
    rewrite (process_ok h (slice inbuf 0 (p + n))) by (done || lia). cbn [mbind result_bind].
    rewrite extract_slice by lia. cbn [mbind result_bind]. rewrite extract_slice by lia. cbn [mbind result_bind andb].
    unfold next_hmac. rewrite Hc. done.
  - rewrite u32_small, Z.add_0_r by lia. destruct (Z.ltb_spec (len inbuf) (p + n)) as [|Hm]; [done|]. cbn [mbind result_bind].
    rewrite extract_slice by lia. cbn [mbind result_bind andb]. unfold next_hmac. rewrite Hc. done.
Qed.

(** ** Writing *)

(** The command without its checksum, and with it. *)
Definition plain (nc : netcmd) : bytes :=
  byte_of (version nc) :: byte_of (cmd_byte (cmd_code nc)) :: insert_variable_length_string (payload nc).

Definition frame (nc : netcmd) (h : chained_hmac) : bytes :=
  plain nc ++ if carries_hmac (cmd_code nc) h then digest_of h (plain nc) else [].

Lemma write_ok nc out h :
  len (out ++ plain nc) < 2 ^ 64 - 1 → write nc out h = Ok (out ++ frame nc h, next_hmac (cmd_code nc) h (plain nc)).
Proof.
  intros Hl. unfold write, frame, next_hmac. rewrite <- app_assoc. fold (plain nc).
  change ([byte_of (version nc); byte_of (cmd_byte (cmd_code nc))] ++ insert_variable_length_string (payload nc)) with (plain nc).
  destruct (carries_hmac (cmd_code nc) h) eqn:Hc; [|by rewrite app_nil_r].
  assert (hmac_active h = true) as Ha by (unfold carries_hmac in Hc; by destruct (hmac_active h)).
  assert (0 < len (plain nc)) as Hp.
  { unfold plain. rewrite !len_cons. pose proof (len_nonneg (insert_variable_length_string (payload nc))). lia. }
  rewrite len_app in Hl. pose proof (len_nonneg out).
  assert (process h (out ++ plain nc) (len out) npos = process h (out ++ plain nc) (len out) (len (plain nc))) as ->.
  { unfold process. rewrite Z.eqb_refl, len_app. rewrite (proj2 (Z.eqb_neq (len (plain nc)) npos)) by (unfold npos; lia).
    by replace (len out + len (plain nc) - len out) with (len (plain nc)) by lia. }
  rewrite (process_ok h (plain nc)); [|done|rewrite len_app; lia|lia|rewrite len_app; lia|rewrite len_app; lia|].
  - cbn [mbind result_bind]. change (sha1_digest_length =? netsync_hmac_value_length_in_bytes) with true. cbn [I_ mbind result_bind].
    by rewrite app_assoc.
  - unfold slice, len. rewrite !Nat2Z.id, drop_app_length. by apply take_ge.
Qed.

Lemma code_of_cmd_byte c : code_of_byte (cmd_byte c) = Some c.
Proof. by destruct c. Qed.

Lemma cmd_byte_range c : 0 ≤ cmd_byte c < 256.
Proof. by destruct c. Qed.

Definition length_field (nc : netcmd) : bytes := insert_datum_uleb128 size_t_bytes (len (payload nc)).

Lemma plain_parts nc :
  plain nc = ([byte_of (version nc); byte_of (cmd_byte (cmd_code nc))] ++ length_field nc) ++ payload nc.
Proof. done. Qed.

Lemma frame_length nc h : len (frame nc h) = total (cmd_code nc) h (2 + len (length_field nc)) (len (payload nc)).
Proof.
  unfold frame, total. rewrite plain_parts, !len_app. change (len [_; _]) with 2.
  destruct (carries_hmac _ h); [unfold digest_of; rewrite hmac_length; change sha1_digest_length with 20; change netsync_hmac_value_length_in_bytes with 20|rewrite len_nil]; lia.
Qed.

Lemma read_frame nc0 mn mx nc h rest :
  0 ≤ version nc < 256 → mismatch mn mx (cmd_code nc) (version nc) = false → len (payload nc) ≤ netcmd_payload_limit →
  len (frame nc h ++ rest) < 2 ^ 64 - 1 →
  read nc0 mn mx (frame nc h ++ rest) h = Ok (true, nc, rest, next_hmac (cmd_code nc) h (plain nc)).
Proof.
  intros Hv Hm Hp Hl. set (buf := frame nc h ++ rest) in *. assert (len (frame nc h) ≤ len buf) as Hfl by (unfold buf; rewrite len_app; pose proof (len_nonneg rest); lia).
  pose proof (unread_start buf ltac:(lia)) as U0. set (digest := if carries_hmac (cmd_code nc) h then digest_of h (plain nc) else []).
  assert (buf = (([byte_of (version nc); byte_of (cmd_byte (cmd_code nc))] ++ length_field nc) ++ payload nc) ++ digest ++ rest) as Eb.
  { unfold buf, frame. fold digest. rewrite plain_parts, <- !app_assoc. done. }
  assert (unread buf 2 (length_field nc ++ payload nc ++ digest ++ rest)) as U2.
  { rewrite Eb in U0 at 2. rewrite <- !app_assoc in U0. by apply unread_app in U0. }
  destruct (extract_insert_uleb128 size_t_bytes (len (payload nc)) buf 2 (payload nc ++ digest ++ rest)) as [E%extract_try U3];
    [left; change netcmd_payload_limit with (2 ^ 28) in Hp; pose proof (len_nonneg (payload nc)); unfold size_t_bytes; lia|exact U2|].
  fold (length_field nc) in E, U3. assert (3 ≤ len buf) as H3.
  { rewrite frame_length in Hfl. unfold total in Hfl. pose proof (len_nonneg (payload nc)). assert (1 ≤ len (length_field nc)).
    { unfold length_field, insert_datum_uleb128. change (max_uleb128_bytes size_t_bytes) with 10%nat. cbn [insert_uleb128_loop].
      destruct (_ =? 0); rewrite len_cons; [done|]. pose proof (len_nonneg (insert_uleb128_loop 9 (Z.shiftr (len (payload nc)) 7))). cbn [insert_uleb128_loop] in *. lia. }
    destruct (carries_hmac _ h); [change netsync_hmac_value_length_in_bytes with 20 in Hfl|]; lia. }
  rewrite read_eq by lia. cbv zeta.
  assert (byte_at buf 0 = version nc) as ->.
  { rewrite Eb. unfold byte_at. change (Z.to_nat 0) with 0%nat. cbn [app nth]. rewrite byte_val_of, Z.mod_small; lia. }
  assert (byte_at buf 1 = cmd_byte (cmd_code nc)) as ->.
  { rewrite Eb. unfold byte_at. change (Z.to_nat 1) with 1%nat. cbn [app nth]. pose proof (cmd_byte_range (cmd_code nc)). rewrite byte_val_of, Z.mod_small; lia. }
  unfold read_code. rewrite code_of_cmd_byte. cbn [mbind result_bind]. rewrite Hm, E. cbn [mbind result_bind negb].
  rewrite (proj2 (Z.ltb_ge netcmd_payload_limit _)) by done. rewrite <- frame_length, (proj2 (Z.ltb_ge (len buf) _)) by done.
  assert (slice buf 0 (2 + len (length_field nc) + len (payload nc)) = plain nc) as Es.
  { rewrite Eb, <- plain_parts. unfold slice. change (Z.to_nat 0) with 0%nat. cbn [drop]. apply take_app_length'.
    rewrite plain_parts, !length_app. unfold len. cbn [length]. lia. }
  rewrite Es. assert (carries_hmac (cmd_code nc) h && negb (bool_decide (slice buf (2 + len (length_field nc) + len (payload nc)) netsync_hmac_value_length_in_bytes = digest_of h (plain nc))) = false) as ->.
  { destruct (carries_hmac (cmd_code nc) h) eqn:Hc; [|done]. rewrite bool_decide_true; [done|]. apply unread_app in U3. pose proof (unread_slice _ _ _ _ U3) as Ed.
    unfold digest, digest_of in Ed. rewrite hmac_length in Ed. exact Ed. }
  rewrite (unread_slice _ _ _ _ U3). do 2 f_equal. f_equal; [f_equal; by destruct nc|]. unfold buf, len. rewrite Nat2Z.id. by apply drop_app_length.
Qed.

(** ** Streams *)

(** [session::write_netcmd] for each command in turn. *)
Fixpoint write_all (v : Z) (ms : list command) (out : bytes) (h : chained_hmac) : result (bytes * chained_hmac) :=
  match ms with
  | [] => Ok (out, h)
  | m :: ms =>
      nc ← write_command m (new_netcmd v);
      '(out, h) ← write nc out h;
      write_all v ms out h
  end.

(** [session::arm] and the reader of the payload, as long as there is a whole
    command. *)
Fixpoint read_all (n : nat) (nc : netcmd) (mn mx : Z) (inbuf : bytes) (h : chained_hmac) :
    result (list command * bytes * chained_hmac) :=
  match n with
  | O => Ok ([], inbuf, h)
  | S n =>
      '(whole, nc, inbuf, h) ← read nc mn mx inbuf h;
      if whole : bool then
        m ← read_command nc;
        '(ms, inbuf, h) ← read_all n nc mn mx inbuf h;
        Ok (m :: ms, inbuf, h)
      else Ok ([], inbuf, h)
  end.

(** The payload is within the limit of the protocol. *)
Definition fits (v : Z) (m : command) : Prop :=
  ∀ nc, write_command m (new_netcmd v) = Ok nc → len (payload nc) ≤ netcmd_payload_limit.

Lemma frame_bound nc h : len (payload nc) ≤ netcmd_payload_limit → len (plain nc) ≤ len (frame nc h) ≤ 2 ^ 29.
Proof.
  intros Hp. pose proof (frame_length nc h) as Hl. unfold frame in *. rewrite len_app in *. unfold total in Hl.
  change netcmd_payload_limit with (2 ^ 28) in Hp. change netsync_hmac_value_length_in_bytes with 20 in Hl.
  assert (len (length_field nc) ≤ 10) as Hf.
  { apply (uleb128_length 10). }
  set (d := if carries_hmac (cmd_code nc) h then _ else _) in *. pose proof (len_nonneg d). destruct (carries_hmac _ h); lia.
Qed.

Lemma stream_ok v mn mx : 0 ≤ v < 256 → mn ≤ v ≤ mx → ∀ ms out h,
  Forall command_ok ms → Forall (fits v) ms → len out + 2 ^ 29 * Z.of_nat (length ms) < 2 ^ 64 - 1 →
  ∃ fs h', write_all v ms out h = Ok (out ++ fs, h') ∧
    ∀ nc0 rest, len (fs ++ rest) < 2 ^ 64 - 1 → read_all (length ms) nc0 mn mx (fs ++ rest) h = Ok (ms, rest, h').
Proof.
  intros Hv Hmn. induction ms as [|m ms IH]; intros out h Hok Hfit Hl.
  { exists [], h. rewrite app_nil_r. done. }
  apply Forall_cons in Hok as [Hm Hok]. apply Forall_cons in Hfit as [Hf Hfit]. cbn [length] in Hl.
  destruct (command_survives m Hm v) as (nc & Hw & Hver & Hread). pose proof (Hf nc Hw) as Hp. pose proof (frame_bound nc h Hp) as Hb.
  assert (len (out ++ plain nc) < 2 ^ 64 - 1) as Hl1 by (rewrite len_app; lia).
  destruct (IH (out ++ frame nc h) (next_hmac (cmd_code nc) h (plain nc)) Hok Hfit) as (fs & h' & Ew & Er); [rewrite len_app; lia|].
  exists (frame nc h ++ fs), h'. split.
  - cbn [write_all]. rewrite Hw. cbn [mbind result_bind]. rewrite (write_ok _ _ _ Hl1). cbn [mbind result_bind]. by rewrite Ew, app_assoc.
  - intros nc0 rest Hr. rewrite <- app_assoc in *. cbn [length read_all].
    assert (0 ≤ version nc < 256 ∧ mismatch mn mx (cmd_code nc) (version nc) = false) as [Hv' Hmm].
    { unfold mismatch. rewrite Hver. destruct (bool_decide (cmd_code nc = usher_cmd)); [done|]. split; [done|].
      rewrite (proj2 (Z.ltb_ge v mn)), (proj2 (Z.ltb_ge mx v)) by lia. cbn. by rewrite andb_false_r. }
    rewrite (read_frame nc0 mn mx nc h (fs ++ rest) Hv' Hmm Hp Hr). cbn [mbind result_bind]. rewrite Hread by done. cbn [mbind result_bind].
    rewrite Er; [done|]. rewrite len_app in Hr. pose proof (len_nonneg (frame nc h)). lia.
Qed.

(** ** Claims *)

(** C16: commands survive the network.  Whatever valid commands are written one
    after the other, with whatever state of the chained checksum, a reader that
    starts from the same state and accepts the version reads exactly these
    commands, leaves what follows them, and ends with the checksum state of the
    writer; nothing on the way trips an assertion. *)
Theorem netcmd_stream v mn mx ms h :
  0 ≤ v < 256 → mn ≤ v ≤ mx → Forall command_ok ms → Forall (fits v) ms → Z.of_nat (length ms) ≤ 2 ^ 32 →
  ∃ out h', write_all v ms [] h = Ok (out, h') ∧
    ∀ nc0 rest, len (out ++ rest) < 2 ^ 64 - 1 → read_all (length ms) nc0 mn mx (out ++ rest) h = Ok (ms, rest, h').
Proof.
  intros Hv Hmn Hok Hfit Hl. destruct (stream_ok v mn mx Hv Hmn ms [] h Hok Hfit) as (fs & h' & Ew & Er); [rewrite len_nil; lia|].
  by exists fs, h'.
Qed.

Lemma read_short nc0 mn mx t h : len t < 3 → read nc0 mn mx t h = Ok (false, nc0, t, h).
Proof. intros H. unfold read. change netcmd_minsz with 3. by rewrite (proj2 (Z.ltb_lt _ _)). Qed.

Lemma slice_prefix t u pos n : 0 ≤ pos → 0 ≤ n → pos + n ≤ len t → slice (t ++ u) pos n = slice t pos n.
Proof. intros. unfold slice, len in *. rewrite drop_app_le, take_app_le; [done|rewrite length_drop; lia|lia]. Qed.

(** The code a command was read with would be read again. *)
Lemma read_code_again c0 a b x c : read_code c0 a b x = Ok c → read_code c a b x = Ok c.
Proof. unfold read_code. destruct (code_of_byte x); [done|]. destruct (_ && _); [done|]. by intros [= ->]. Qed.

(** What an accepted input looks like. *)
Record accepted (nc0 : netcmd) (mn mx : Z) (inbuf : bytes) (h : chained_hmac) (c : netcmd_code) (p n : Z) : Prop := {
  ac_len : 3 ≤ len inbuf;
  ac_code : read_code (cmd_code nc0) (byte_at inbuf 0 <? mn) (mx <? byte_at inbuf 0) (byte_at inbuf 1) = Ok c;
  ac_version : mismatch mn mx c (byte_at inbuf 0) = false;
  ac_uleb : try_extract_datum_uleb128 size_t_bytes inbuf 2 = Ok (true, p, n);
  ac_limit : n ≤ netcmd_payload_limit;
  ac_total : total c h p n ≤ len inbuf;
  ac_digest : carries_hmac c h = true →
    slice inbuf (p + n) netsync_hmac_value_length_in_bytes = digest_of h (slice inbuf 0 (p + n))
}.

Definition outcome (inbuf : bytes) (h : chained_hmac) (c : netcmd_code) (p n : Z) : bool * netcmd * bytes * chained_hmac :=
  (true, Netcmd (byte_at inbuf 0) c (slice inbuf p n), drop (Z.to_nat (total c h p n)) inbuf, next_hmac c h (slice inbuf 0 (p + n))).

Lemma read_accepted nc0 mn mx inbuf h c p n :
  len inbuf < 2 ^ 64 - 1 → accepted nc0 mn mx inbuf h c p n → read nc0 mn mx inbuf h = Ok (outcome inbuf h c p n).
Proof.
  intros Hl []. rewrite read_eq by lia. cbv zeta. rewrite ac_code0. cbn [mbind result_bind]. rewrite ac_version0, ac_uleb0. cbn [mbind result_bind negb].
  rewrite (proj2 (Z.ltb_ge netcmd_payload_limit _)), (proj2 (Z.ltb_ge (len inbuf) _)) by done.
  destruct (carries_hmac c h); [|done]. by rewrite bool_decide_true by auto.
Qed.

Lemma read_true_inv nc0 mn mx inbuf h nc rest h' :
  len inbuf < 2 ^ 64 - 1 → read nc0 mn mx inbuf h = Ok (true, nc, rest, h') →
  ∃ c p n, accepted nc0 mn mx inbuf h c p n ∧ (true, nc, rest, h') = outcome inbuf h c p n.
Proof.
  intros Hl H. destruct (Z.lt_ge_cases (len inbuf) 3) as [Hs|Hs]; [by rewrite read_short in H|].
  rewrite read_eq in H by lia. cbv zeta in H. apply bind_Ok_inv in H as (c & Hc & H).
  destruct (mismatch mn mx c _) eqn:Hm; [done|]. apply bind_Ok_inv in H as ([[[] p] n] & Hu & H); [|done]. cbn [negb] in H.
  destruct (Z.ltb_spec netcmd_payload_limit n) as [|Hlim]; [done|]. destruct (Z.ltb_spec (len inbuf) (total c h p n)) as [|Htot]; [done|].
  destruct (carries_hmac c h && negb _) eqn:Hd; [done|]. injection H as <- <- <-. exists c, p, n. split; [|done]. split; try done.
  intros Hch. rewrite Hch in Hd. cbn in Hd. by apply negb_false_iff, bool_decide_eq_true in Hd.
Qed.

Lemma accepted_bounds nc0 mn mx inbuf h c p n :
  accepted nc0 mn mx inbuf h c p n → 3 ≤ p ≤ len inbuf ∧ 0 ≤ n ∧ p + n ≤ total c h p n.
Proof.
  intros []. apply uleb128_loop_bounds in ac_uleb0 as (? & [?|?] & ? & ?); [done| |done|done]. unfold total. destruct (carries_hmac c h); [change netsync_hmac_value_length_in_bytes with 20|]; lia.
Qed.

Lemma accepted_prefix nc0 mn mx t u h c p n :
  accepted nc0 mn mx (t ++ u) h c p n → 3 ≤ len t → total c h p n ≤ len t → accepted nc0 mn mx t h c p n.
Proof.
  intros Ha H3 Hin. pose proof (accepted_bounds _ _ _ _ _ _ _ _ Ha) as (Hp & Hn & Ht). destruct Ha.
  rewrite !byte_at_app in * by lia. split; try done.
  - apply (uleb128_loop_prefix _ t u) in ac_uleb0; [|lia]. by rewrite (proj2 (Z.leb_le _ _)) in ac_uleb0 by lia.
  - intros Hc. pose proof (ac_digest0 Hc) as E. unfold total in *. rewrite Hc in *. change netsync_hmac_value_length_in_bytes with 20 in *.
    rewrite !slice_prefix in E by lia. exact E.
Qed.

Lemma read_incomplete nc0 mn mx t u h c p n :
  len t < 2 ^ 64 - 1 → accepted nc0 mn mx (t ++ u) h c p n → 3 ≤ len t → len t < total c h p n →
  read nc0 mn mx t h = Ok (false, Netcmd (byte_at t 0) c (payload nc0), t, h).
Proof.
  intros Hl Ha H3 Hout. destruct Ha. rewrite !byte_at_app in * by lia. rewrite read_eq by lia. cbv zeta. rewrite ac_code0. cbn [mbind result_bind].
  rewrite ac_version0. apply (uleb128_loop_prefix _ t u) in ac_uleb0; [|lia]. destruct (p <=? len t).
  - unfold try_extract_datum_uleb128. rewrite ac_uleb0. cbn [mbind result_bind negb].
    by rewrite (proj2 (Z.ltb_ge netcmd_payload_limit _)), (proj2 (Z.ltb_lt (len t) _)) by done.
  - destruct ac_uleb0 as (p' & o' & E). unfold try_extract_datum_uleb128. rewrite E. done.
Qed.

(** A command may arrive in pieces.  Whatever [read] accepts from some input,
    it decides on the bytes of that command alone: given the first part of the
    input it accepts the same command if the part holds all of it; if not, it
    reports that the command is incomplete and leaves input and checksum as
    they are, and reading again once the rest has arrived accepts the
    command. *)
Theorem netcmd_in_pieces nc0 mn mx t u h nc rest h' :
  len (t ++ u) < 2 ^ 64 - 1 → read nc0 mn mx (t ++ u) h = Ok (true, nc, rest, h') →
  if len (t ++ u) - len rest <=? len t
  then ∃ r, rest = r ++ u ∧ read nc0 mn mx t h = Ok (true, nc, r, h')
  else ∃ nc', read nc0 mn mx t h = Ok (false, nc', t, h) ∧ read nc' mn mx (t ++ u) h = Ok (true, nc, rest, h').
Proof.
  intros Hl H. destruct (read_true_inv _ _ _ _ _ _ _ _ Hl H) as (c & p & n & Ha & Ho). pose proof (accepted_bounds _ _ _ _ _ _ _ _ Ha) as (Hp & Hn & Ht).
  injection Ho as -> -> ->. assert (len (drop (Z.to_nat (total c h p n)) (t ++ u)) = len (t ++ u) - total c h p n) as ->.
  { pose proof (ac_total _ _ _ _ _ _ _ _ Ha). unfold len in *. rewrite length_drop. lia. }
  replace (len (t ++ u) - (len (t ++ u) - total c h p n)) with (total c h p n) by lia.
  rewrite len_app in Hl. pose proof (len_nonneg u). destruct (Z.leb_spec (total c h p n) (len t)) as [Hin|Hout].
  - exists (drop (Z.to_nat (total c h p n)) t). split; [unfold len in *; by rewrite drop_app_le by lia|].
    rewrite (read_accepted _ _ _ _ _ c p n); [|lia|apply (accepted_prefix _ _ _ t u); [done|lia|done]].
    unfold outcome. by rewrite byte_at_app, !slice_prefix by lia.
  - destruct (Z.lt_ge_cases (len t) 3) as [Hs|Hs]; [exists nc0; by rewrite read_short|].
    exists (Netcmd (byte_at t 0) c (payload nc0)). split.
    + apply (read_incomplete nc0 mn mx t u h c p n); [lia|done|lia|done].
    + apply read_accepted; [by rewrite len_app|]. destruct Ha. split; try done. cbn [cmd_code]. by eapply read_code_again.
Qed.

(** C17: only authentic commands are accepted.  If [read] accepts a command that
    carries a checksum, the input starts with a header, the payload and
    exactly the HMAC, under the session key, of the previous checksum followed
    by header and payload; this becomes the next link of the chain, the
    payload is within the limit and the version is one the reader accepts. *)
Theorem netcmd_authentic nc0 mn mx inbuf h nc rest h' :
  len inbuf < 2 ^ 64 - 1 → read nc0 mn mx inbuf h = Ok (true, nc, rest, h') → carries_hmac (cmd_code nc) h = true →
  ∃ header, inbuf = header ++ payload nc ++ chain_val h' ++ rest ∧
    chain_val h' = hmac_sha1 (hmac_key h) (chain_val h ++ header ++ payload nc) ∧ hmac_key h' = hmac_key h ∧
    len (payload nc) ≤ netcmd_payload_limit ∧ mismatch mn mx (cmd_code nc) (version nc) = false.
Proof.
  intros Hl H Hch. destruct (read_true_inv _ _ _ _ _ _ _ _ Hl H) as (c & p & n & Ha & Ho). pose proof (accepted_bounds _ _ _ _ _ _ _ _ Ha) as (Hp & Hn & Ht).
  injection Ho as -> -> ->. cbn [cmd_code payload version] in *. destruct Ha. unfold next_hmac. rewrite Hch. cbn [chain_val hmac_key].
  unfold total in *. rewrite Hch in *. change netsync_hmac_value_length_in_bytes with 20 in *. exists (slice inbuf 0 p).
  assert (slice inbuf 0 (p + n) = slice inbuf 0 p ++ slice inbuf p n) as Es.
  { rewrite (slice_split inbuf 0 p n) by lia. done. }
  split_and!; [|unfold digest_of; by rewrite Es|done|rewrite len_slice by lia; done|done].
  rewrite <- (ac_digest0 eq_refl). pose proof (slice_drop inbuf 0 p ltac:(lia) ltac:(lia)) as E1.
  change (drop (Z.to_nat 0) inbuf) with inbuf in E1. rewrite E1 at 1. f_equal. rewrite Z.add_0_l, (slice_drop inbuf p n) by lia. f_equal.
  apply slice_drop; lia.
Qed.
(** ** Inputs the readers do not cope with *)

(** The commands whose payload starts with a part of fixed length. *)
Definition fixed_start (c : netcmd_code) : bool :=
  bool_decide (c ∈ [bye_cmd; anonymous_cmd; auth_cmd; refine_cmd; done_cmd; data_cmd; delta_cmd; automate_cmd]).

(** A payload that ends too early trips an assertion.  Where a part of fixed
    length, or the text of a string, should start exactly at the end of the
    payload, [require_bytes] fails its assertion, which is not recoverable,
    instead of reporting a decoding error: so for every command that starts
    with such a part and has no payload, and for every string cut off behind
    its length. *)
Theorem netcmd_truncation_asserts :
  (∀ v c, fixed_start c = true → read_command (Netcmd v c []) = Err invariant_failure) ∧
  (∀ pre n, 0 < n < 2 ^ 31 → let buf := pre ++ insert_datum_uleb128 size_t_bytes n in
     len buf < 2 ^ 64 → vstr buf (len pre) = Err invariant_failure).
Proof.
  split.
  - intros v c Hc. by destruct c.
  - intros pre n Hn buf Hl. assert (unread buf (len pre) (insert_datum_uleb128 size_t_bytes n ++ [])) as U.
    { rewrite app_nil_r. apply (unread_app buf 0 pre). by apply unread_start. }
    destruct (extract_insert_uleb128 size_t_bytes n buf (len pre) []) as [E U']; [left; unfold size_t_bytes; lia|done|].
    unfold extract_variable_length_string. rewrite E. cbn [mbind result_bind]. rewrite (proj2 (Z.ltb_ge npos n)) by (unfold npos; lia).
    apply unread_len in U'. rewrite len_nil in U'. unfold require_bytes.
    rewrite (proj2 (Z.ltb_ge _ (len buf))), (proj2 (Z.eqb_neq n 0)), andb_false_r by lia. done.
Qed.

(** One byte of an integer: there is more to come, or it is the last. *)
Lemma uleb128_more sz m buf pos shift out b x :
  byte_at buf pos = b → pos < len buf → int_shl (Z.land b 127) shift = Ok x → (Z.land b 128 =? 0) = false → (m =? 0)%nat = false →
  uleb128_loop sz (S m) buf pos shift out = uleb128_loop sz m buf (pos + 1) (shift + 7) (Z.lor out (wrap sz x)).
Proof.
  intros Hb Hp Hx Hm Hm0. cbn [uleb128_loop]. rewrite (proj2 (Z.leb_gt _ _) Hp), Hb, Hx. cbn [mbind result_bind]. by rewrite Hm, Hm0.
Qed.

Lemma uleb128_last sz m buf pos shift out b x :
  byte_at buf pos = b → pos < len buf → int_shl (Z.land b 127) shift = Ok x → (Z.land b 128 =? 0) = true →
  uleb128_loop sz (S m) buf pos shift out = Ok (true, pos + 1, Z.lor out (wrap sz x)).
Proof. intros Hb Hp Hx Hm. cbn [uleb128_loop]. rewrite (proj2 (Z.leb_gt _ _) Hp), Hb, Hx. cbn [mbind result_bind]. by rewrite Hm. Qed.

(** A length field that decodes to 2^64 - 5. *)
Definition back_length : bytes := map byte_of [251; 255; 255; 255; 15].

Lemma extract_back buf pos s : unread buf pos (back_length ++ s) → extract_datum_uleb128 size_t_bytes buf pos = Ok (2 ^ 64 - 5, pos + 5).
Proof.
  intros U0. unfold back_length in U0. cbn [map app] in U0.
  destruct (unread_byte _ _ _ _ U0) as [E0 L0]. pose proof (unread_app _ _ [_] _ U0) as U1. change (len [_]) with 1 in U1.
  destruct (unread_byte _ _ _ _ U1) as [E1 L1]. pose proof (unread_app _ _ [_] _ U1) as U2. change (len [_]) with 1 in U2.
  destruct (unread_byte _ _ _ _ U2) as [E2 L2]. pose proof (unread_app _ _ [_] _ U2) as U3. change (len [_]) with 1 in U3.
  destruct (unread_byte _ _ _ _ U3) as [E3 L3]. pose proof (unread_app _ _ [_] _ U3) as U4. change (len [_]) with 1 in U4.
  destruct (unread_byte _ _ _ _ U4) as [E4 L4]. clear U0 U1 U2 U3 U4. unfold extract_datum_uleb128, try_extract_datum_uleb128.
  change (max_uleb128_bytes size_t_bytes) with 10%nat. unfold size_t_bytes.
  rewrite (uleb128_more 8 9 _ _ _ _ 251 123), (uleb128_more 8 8 _ _ _ _ 255 (127 * 2 ^ 7)), (uleb128_more 8 7 _ _ _ _ 255 (127 * 2 ^ 14)),
    (uleb128_more 8 6 _ _ _ _ 255 (127 * 2 ^ 21)), (uleb128_last 8 5 _ _ _ _ 15 (- 2 ^ 28)) by (done || (rewrite ?E0, ?E1, ?E2, ?E3, ?E4; reflexivity)).
  cbn [mbind result_bind]. f_equal. f_equal; first [lia | reflexivity].
Qed.

(** The string is the rest of the payload, and the position does not move. *)
Lemma vstr_back buf pos s : s ≠ [] → unread buf pos (back_length ++ s) → vstr buf pos = Ok (s, pos).
Proof.
  intros Hs U. unfold extract_variable_length_string. rewrite (extract_back _ _ _ U). cbn [mbind result_bind].
  change (npos <? 2 ^ 64 - 5) with false. pose proof (unread_app _ _ _ _ U) as U'. change (len back_length) with 5 in U'.
  pose proof (unread_len _ _ _ U') as Hl. assert (0 < len s) as Hs' by (destruct s; [done|rewrite len_cons; pose proof (len_nonneg s); lia]).
  destruct U as (Hp & Hb & _). unfold require_bytes. rewrite (proj2 (Z.ltb_lt (pos + 5) _)) by lia. cbn [orb I_ mbind result_bind].
  change (2 ^ 64 - 5 =? 0) with false. cbn match.
  assert (u64 (pos + 5 + (2 ^ 64 - 5)) = pos) as Ew.
  { unfold u64. replace (pos + 5 + (2 ^ 64 - 5)) with (pos + 1 * 2 ^ 64) by lia. rewrite Z.mod_add, Z.mod_small; lia. }
  rewrite Ew, (proj2 (Z.ltb_ge (len buf) pos)) by lia. unfold assign. rewrite (proj2 (Z.ltb_ge (len buf) _)) by lia.
  rewrite Z.min_r by lia. cbn [mbind result_bind]. replace (len buf - (pos + 5)) with (len s) by lia.
  rewrite <- (app_nil_r s) in U'. by rewrite (unread_slice _ _ _ _ U').
Qed.

(** A few bytes can ask for billions of headers.  The addition in
    [require_bytes] wraps, so that a string whose length decodes to 2^64 - 5
    is accepted and moves the position back to its own start.  Read as
    automate headers, a payload of at most eleven bytes yields as many headers
    as its count says, any number below 2^31, before the reader notices that
    the payload does not end. *)
Theorem netcmd_headers_unbounded v n :
  0 ≤ n < 2 ^ 31 →
  let count := insert_datum_uleb128 size_t_bytes n in
  let pl := count ++ back_length ++ lit "x" in
  read_pairs pl (Z.to_nat n) (len count) = Ok (replicate (Z.to_nat n) (lit "x", lit "x"), len count) ∧
  read_automate_headers_reply_cmd (Netcmd v automate_headers_reply_cmd pl) = Err BadDecode.
Proof.
  intros Hn count pl. assert (len count ≤ 10) as Hc by (apply (uleb128_length 10)).
  assert (len pl = len count + 6) as Hl by (unfold pl; rewrite len_app; done).
  pose proof (unread_start pl ltac:(lia)) as U0. destruct (extract_insert_uleb128 size_t_bytes n pl 0 (back_length ++ lit "x")) as [E U];
    [left; unfold size_t_bytes; lia|exact U0|]. fold count in E, U. rewrite Z.add_0_l in E, U.
  assert (∀ k, read_pairs pl k (len count) = Ok (replicate k (lit "x", lit "x"), len count)) as Hk.
  { induction k as [|k IH]; [done|]. cbn [read_pairs]. rewrite (vstr_back _ _ (lit "x")) by done. cbn [mbind result_bind].
    rewrite (vstr_back _ _ (lit "x")) by done. cbn [mbind result_bind]. rewrite IH. done. }
  split; [apply Hk|]. unfold read_automate_headers_reply_cmd. cbn [payload]. rewrite E. cbn [mbind result_bind]. rewrite Hk. cbn [mbind result_bind].
  unfold assert_end_of_buffer. rewrite (proj2 (Z.eqb_neq (len pl) _)) by lia. done.
Qed.
End streams.

(** ** An example

    A stand-in for HMAC that depends on key and message, and no compression. *)
#[local] Instance toy_netcmd_lib : netcmd_lib := {|
  hmac_sha1 k m := take 20 (k ++ reverse m ++ replicate 20 Ascii.zero);
  gzip_ s := s;
  gunzip s := Ok s
|}.

#[local] Instance toy_netcmd_laws : netcmd_lib_laws toy_netcmd_lib.
Proof.
  split; [|done]. intros k m. change (len (take 20 (k ++ reverse m ++ replicate 20 Ascii.zero)) = 20).
  unfold len. rewrite length_take, !length_app, length_replicate. lia.
Qed.

Module Talk.
Definition hmac : chained_hmac := new_chained_hmac (lit "session key") true.
Definition commands : list command := [CError (lit "oops"); CDone revision_item 300; CBye 2].
Definition bye : netcmd := Netcmd 8 bye_cmd [byte_of 2].
Definition after_bye : bytes * chained_hmac :=
  match write bye [] hmac with Ok x => x | Err _ => ([], hmac) end.
End Talk.

Lemma netcmd_stream_witness :
  ∃ out h', write_all 8 Talk.commands [] Talk.hmac = Ok (out, h') ∧
    ∀ nc0 rest, len (out ++ rest) < 2 ^ 64 - 1 → read_all 3 nc0 6 8 (out ++ rest) Talk.hmac = Ok (Talk.commands, rest, h').
Proof.
  apply (netcmd_stream 8 6 8 Talk.commands Talk.hmac); [lia|lia| | |cbn; lia].
  - repeat constructor; cbn; lia.
  - repeat constructor; intros nc [= <-]; by vm_compute.
Defined.

Lemma netcmd_in_pieces_witness :
  ∃ nc', read (new_netcmd 8) 6 8 (take 7 Talk.after_bye.1) Talk.hmac = Ok (false, nc', take 7 Talk.after_bye.1, Talk.hmac) ∧
    read nc' 6 8 (take 7 Talk.after_bye.1 ++ drop 7 Talk.after_bye.1) Talk.hmac = Ok (true, Talk.bye, [], Talk.after_bye.2).
Proof.
  assert (len (take 7 Talk.after_bye.1 ++ drop 7 Talk.after_bye.1) < 2 ^ 64 - 1) as Hl by (vm_compute; reflexivity).
  assert (read (new_netcmd 8) 6 8 (take 7 Talk.after_bye.1 ++ drop 7 Talk.after_bye.1) Talk.hmac = Ok (true, Talk.bye, [], Talk.after_bye.2))
    as H by (vm_compute; reflexivity).
  exact (netcmd_in_pieces _ _ _ _ _ _ _ _ _ Hl H).
Defined.

Lemma netcmd_authentic_witness :
  ∃ header, Talk.after_bye.1 = header ++ payload Talk.bye ++ chain_val Talk.after_bye.2 ++ [] ∧
    chain_val Talk.after_bye.2 = hmac_sha1 (hmac_key Talk.hmac) (chain_val Talk.hmac ++ header ++ payload Talk.bye).
Proof.
  destruct (netcmd_authentic (NL := toy_netcmd_lib) (new_netcmd 8) 6 8 Talk.after_bye.1 Talk.hmac Talk.bye [] Talk.after_bye.2) as (header & E1 & E2 & _);
    [vm_compute; reflexivity|vm_compute; reflexivity|vm_compute; reflexivity|]. exact (ex_intro _ header (conj E1 E2)).
Defined.

Lemma netcmd_headers_unbounded_witness :
  let pl := insert_datum_uleb128 size_t_bytes 1000000000 ++ back_length ++ lit "x" in
  read_automate_headers_reply_cmd (Netcmd 8 automate_headers_reply_cmd pl) = Err BadDecode.
Proof. exact (proj2 (netcmd_headers_unbounded 8 1000000000 ltac:(lia))). Defined.
