(* ===== verification/Dates.v ===== *)
(** * Dates

    dates.cc and dates.hh: the conversions between a count of milliseconds and
    a calendar date, the ISO 8601 reader and printer, and date arithmetic.  An
    index into a string is a [size_t]: it wraps below zero, and [string::at]
    then throws. *)

From S2P Require Import Prelude Numbers.

Record broken_down_time := BrokenDownTime {
  millisec : Z; sec : Z; min : Z; hour : Z; day : Z; month : Z; year : Z; gmtoff : Z
}.

#[export] Instance broken_down_time_eq_dec : EqDecision broken_down_time.
Proof. solve_decision. Defined.

Definition INVALID : Z := 2 ^ 63 - 1.
Definition LATEST_SUPPORTED_DATE : Z := 9223372017129600000.
Definition EARLIEST_SUPPORTED_DATE : Z := -62135596800000.

Definition SEC : Z := 1.
Definition MIN : Z := 60 * SEC.
Definition HOUR : Z := 60 * MIN.
Definition DAY : Z := 24 * HOUR.
Definition YEAR : Z := 365 * DAY.

(** Arithmetic on [s64]: undefined when the result does not fit. *)
Definition s64_ok (z : Z) : result Z :=
  if (- 2 ^ 63 <=? z) && (z <? 2 ^ 63) then Ok z else Err UndefinedBehaviour.

Definition MILLISEC (n : Z) : Z := n * 1000.

Definition DAYS_PER_MONTH : list Z := [31; 28; 31; 30; 31; 30; 31; 31; 30; 31; 30; 31].

Definition is_leap_year (y : Z) : bool :=
  (y mod 4 =? 0) && (negb (y mod 100 =? 0) || (y mod 400 =? 0)).

Definition days_in_year (y : Z) : Z := if is_leap_year y then 366 else 365.

Definition valid_ms_count (d : Z) : bool := (EARLIEST_SUPPORTED_DATE <=? d) && (d <=? LATEST_SUPPORTED_DATE).

(** [DAYS_PER_MONTH[m - 1]], with the leap day. *)
Definition days_in_month (y m : Z) : Z :=
  nth (Z.to_nat (m - 1)) DAYS_PER_MONTH 0 + if (m =? 2) && is_leap_year y then 1 else 0.

(** The [for (;;)] loop over the months; [fuel] is the number of months left. *)
Fixpoint month_loop (fuel : nat) (y days m : Z) : result (Z * Z) :=
  let this_month := days_in_month y m in
  if days <? this_month then Ok (m, days)
  else
    match fuel with
    | O => Err invariant_failure
    | S fuel => I_ (m + 1 <=? 12) ;; month_loop fuel y (days - this_month) (m + 1)
    end.

Definition our_gmtime (ts : Z) : result broken_down_time :=
  I_ (valid_ms_count ts) ;;
  let t := u64 (u64 ts - u64 EARLIEST_SUPPORTED_DATE) in
  let days := t / MILLISEC DAY in
  let ms_in_day := u32 (t mod MILLISEC DAY) in
  let millisec := ms_in_day mod 1000 in
  let ms_in_day := ms_in_day / 1000 in
  let sec := ms_in_day mod 60 in
  let ms_in_day := ms_in_day / 60 in
  let min := ms_in_day mod 60 in
  let hour := ms_in_day / 60 in
  let year := u32 (u64 (400 * days) / 146097) in
  let yearbeg := year * 365 + year / 4 - year / 100 + year / 400 in
  let year := u32 (year + 1) in
  let delta := days - yearbeg in
  let '(delta, year) := if days_in_year year <=? delta then (delta - days_in_year year, year + 1) else (delta, year) in
  I_ ((0 <=? delta) && (delta <? days_in_year year)) ;;
  '(month, days) ← month_loop 12 year delta 1;
  Ok (BrokenDownTime millisec sec min hour (days + 1) month year 0).

(** The [for] loop over the months before [tb.month]: seconds. *)
Definition months_before (y m : Z) : Z :=
  foldl (λ d k, d + nth (Z.to_nat (k - 1)) DAYS_PER_MONTH 0 * DAY + if (k =? 2) && is_leap_year y then DAY else 0)
    0 (seqZ 1 (m - 1)).

Definition our_timegm (tb : broken_down_time) : result Z :=
  I_ ((0 <? year tb) && (year tb <=? 292278994)) ;;
  I_ ((1 <=? month tb) && (month tb <=? 12)) ;;
  I_ ((1 <=? day tb) && (day tb <=? 31)) ;;
  I_ ((0 <=? hour tb) && (hour tb <=? 23)) ;;
  I_ ((0 <=? min tb) && (min tb <=? 59)) ;;
  I_ ((0 <=? sec tb) && (sec tb <=? 60)) ;;
  I_ ((0 <=? millisec tb) && (millisec tb <=? 999)) ;;
  I_ ((-24 * HOUR <=? gmtoff tb) && (gmtoff tb <=? 24 * HOUR)) ;;
  let d := YEAR * (year tb - 1970) in
  let add_leap_days := (year tb - 1) / 4 - 492 in
  let add_leap_days := add_leap_days - ((year tb - 1) / 100 - 19) in
  let add_leap_days := add_leap_days + ((year tb - 1) / 400 - 4) in
  let d := d + add_leap_days * DAY in
  let d := d + months_before (year tb) (month tb) in
  let d := d + (day tb - 1) * DAY in
  let d := d + hour tb * HOUR in
  let d := d + min tb * MIN in
  let d := d + sec tb * SEC in
  let d := d - gmtoff tb in
  ms ← s64_ok (MILLISEC d);
  s64_ok (ms + millisec tb).

(** ** [date_t]: a count of milliseconds *)

Definition valid (d : Z) : bool := valid_ms_count d.

Definition invalid_date : result Z := I_ (negb (valid INVALID)) ;; Ok INVALID.

Definition date_of_ms (d : Z) : result Z := I_ (valid d) ;; Ok d.

Definition date_of_civil (y m d h mi s ms : Z) : result Z :=
  d ← our_timegm (BrokenDownTime ms s mi h d m y 0);
  I_ (valid d) ;;
  Ok d.

(** [%0wu] of a format. *)
Definition pad (w : nat) (n : Z) : bytes := replicate (w - length (print_num n)) "0"%char ++ print_num n.

Definition as_iso_8601_extended (d : Z) : result bytes :=
  I_ (valid d) ;;
  tb ← our_gmtime d;
  Ok (pad 4 (year tb) ++ "-"%char :: pad 2 (month tb) ++ "-"%char :: pad 2 (day tb) ++ "T"%char ::
      pad 2 (hour tb) ++ ":"%char :: pad 2 (min tb) ++ ":"%char :: pad 2 (sec tb)).

(** ** Reading a date *)

(** [s.at(i)], the value of the character. *)
Definition at_ (s : bytes) (i : Z) : result Z :=
  if i <? len s then Ok (byte_val (nth (Z.to_nat i) s Ascii.zero)) else Err StdException.

(** [s.rfind(c)] *)
Fixpoint rfind_from (n : nat) (c : ascii) (s : bytes) : option Z :=
  match n with
  | O => None
  | S n => if bool_decide (s !! n = Some c) then Some (Z.of_nat n) else rfind_from n c s
  end.

Definition rfind (s : bytes) (c : ascii) : option Z := rfind_from (length s) c s.

Definition in_chars (lo hi : Z) (c : Z) : bool := (48 + lo <=? c) && (c <=? 48 + hi).

(** [i -= n] *)
Definition back (i n : Z) : Z := u64 (i - n).

(** Two digits that end at [i], the first between [lo] and [hi]: their value. *)
Definition two_digits (lo hi : Z) (s : bytes) (i : Z) : result Z :=
  c ← at_ s i;
  E_ (in_chars 0 9 c) user ;;
  b ← at_ s (back i 1);
  E_ (in_chars lo hi b) user ;;
  Ok (u8 ((b - 48) * 10 + (c - 48))).

(** An optional separator at [i]. *)
Definition skip_char (c : ascii) (s : bytes) (i : Z) : result Z :=
  x ← at_ s i; Ok (if x =? byte_val c then back i 1 else i).

Definition or_else {A} (o o' : option A) : option A := match o with Some _ => o | None => o' end.

(** Where the time zone starts: only behind the time. *)
Definition find_timezone (s : bytes) : result (option Z) :=
  match or_else (rfind s "Z"%char) (or_else (rfind s "+"%char) (rfind s "-"%char)) with
  | None => Ok None
  | Some tz_start =>
      match or_else (rfind s "T"%char) (rfind s " "%char) with
      | None => Err (generic_failure user)
      | Some mid => Ok (if tz_start <? mid then None else Some tz_start)
      end
  end.

(** The offset that stands at [tz_start], in seconds. *)
Definition read_offset (s : bytes) (tz_start : Z) : result Z :=
  c ← at_ s tz_start;
  if c =? byte_val "Z" then E_ (tz_start =? back (len s) 1) user ;; Ok 0
  else
    let i := back (len s) 1 in
    last_part ← two_digits 0 9 s i;
    let i := back i 2 in
    E_ (tz_start <=? i) user ;;
    '(offset, i) ←
      (if i =? tz_start then Ok (last_part * HOUR, i)
       else
         i ← skip_char ":" s i;
         tz_hours ← two_digits 0 9 s i;
         Ok (tz_hours * HOUR + last_part * MIN, back i 2));
    c ← at_ s i;
    if c =? byte_val "-" then Ok (- offset)
    else E_ (c =? byte_val "+") user ;; Ok offset.

Definition read_timezone (s : bytes) : result (Z * Z) :=
  tz ← find_timezone s;
  match tz with
  | None => Ok (len s, 0)
  | Some tz_start => offset ← read_offset s tz_start; Ok (tz_start, offset)
  end.

(** The loop over the digits before [i]. *)
Fixpoint skip_digits (fuel : nat) (s : bytes) (i : Z) : result Z :=
  match fuel with
  | O => Err UndefinedBehaviour
  | S fuel => c ← at_ s i; if in_chars 0 9 c then skip_digits fuel s (back i 1) else Ok i
  end.

(** The end of the seconds: before a fraction, or before the time zone. *)
Definition end_of_seconds (s : bytes) (tz_start : Z) : result Z :=
  i ← skip_digits (S (length s)) s (back tz_start 1);
  c ← at_ s i;
  Ok (if c =? byte_val "." then back i 1 else back tz_start 1).

(** The hours: 00 to 19 or 20 to 23. *)
Definition read_hour (s : bytes) (i : Z) : result Z :=
  b ← at_ s (back i 1);
  c ← at_ s i;
  E_ ((in_chars 0 1 b && in_chars 0 9 c) || ((b =? byte_val "2") && in_chars 0 3 c)) user ;;
  Ok (u8 ((b - 48) * 10 + (c - 48))).

(** The digits of the year, from [i] down to the start of the string. *)
Fixpoint year_loop (fuel : nat) (s : bytes) (i y digit : Z) : result Z :=
  if i <? len s then
    match fuel with
    | O => Err UndefinedBehaviour
    | S fuel =>
        c ← at_ s i;
        E_ (in_chars 0 9 c) user ;;
        year_loop fuel s (back i 1) (u32 (y + (c - 48) * digit)) (u32 (digit * 10))
    end
  else Ok y.

Definition read_year (s : bytes) (i : Z) : result Z :=
  E_ (3 <=? i) user ;;
  y ← year_loop (length s) s i 0 1;
  E_ (1 <=? y) user ;;
  E_ (y <=? 292278994) user ;;
  Ok y.

Definition read_date (s : bytes) : result Z :=
  '(tz_start, offset) ← read_timezone s;
  i ← end_of_seconds s tz_start;
  sec ← two_digits 0 5 s i;
  let i := back i 2 in
  E_ (sec <=? 60) user ;;
  i ← skip_char ":" s i;
  min ← two_digits 0 5 s i;
  let i := back i 2 in
  E_ (min <? 60) user ;;
  i ← skip_char ":" s i;
  hour ← read_hour s i;
  let i := back i 2 in
  E_ (hour <? 24) user ;;
  c ← at_ s i;
  E_ ((c =? byte_val "T") || (c =? byte_val " ")) user ;;
  let i := back i 1 in
  day ← two_digits 0 3 s i;
  let i := back i 2 in
  i ← skip_char "-" s i;
  month ← two_digits 0 1 s i;
  E_ ((1 <=? month) && (month <=? 12)) user ;;
  let i := back i 2 in
  i ← skip_char "-" s i;
  year ← read_year s i;
  E_ ((1 <=? day) && (day <=? days_in_month year month)) user ;;
  our_timegm (BrokenDownTime 0 sec min hour day month year offset).

(** [catch (std::out_of_range)] *)
Definition date_of_string (s : bytes) : result Z :=
  match read_date s with
  | Err StdException => Err (generic_failure user)
  | r => r
  end.

(** ** Arithmetic *)

Definition date_add (d other : Z) : result Z :=
  I_ (valid d) ;;
  d ← s64_ok (d + other);
  I_ (valid d) ;;
  Ok d.

Definition date_sub (d other : Z) : result Z :=
  m ← s64_ok (- other); date_add d m.

Definition date_plus (d other : Z) : result Z := d ← date_of_ms d; date_add d other.
Definition date_minus (d other : Z) : result Z := d ← date_of_ms d; m ← s64_ok (- other); date_add d m.
Definition date_diff (d other : Z) : result Z := s64_ok (d - other).

(** ** The dates of the unit tests *)

Definition normalized (s : string) : result bytes := d ← date_of_string (lit s); as_iso_8601_extended d.

Example dates_read :
  (normalized "2007-03-01T18:41:13", normalized "20070301 184113", normalized "120070301T184113", normalized "2007-03-01T18:41:13.25+01:00",
   normalized "2003-02-29T00:00:00", normalized "07-03-01T18:41:13") =
  (Ok (lit "2007-03-01T18:41:13"), Ok (lit "2007-03-01T18:41:13"), Ok (lit "12007-03-01T18:41:13"), Ok (lit "2007-03-01T17:41:13"),
   Err (Recoverable user), Err (Recoverable user)).
Proof. vm_compute. reflexivity. Qed.
