(* ===== verification/DatesCorrect.v ===== *)
(** * The calendar

    The two conversions of dates.cc are inverse to each other on the whole
    supported range, a printed date is read back, and what the reader makes of
    some texts. *)

From S2P Require Import Prelude Numbers Dates.

(** ** Years *)

(** The days before the year [y + 1], counted from 0001-01-01. *)
Definition year_start (y : Z) : Z := y * 365 + y / 4 - y / 100 + y / 400.

Lemma year_start_cycle q r : year_start (400 * q + r) = 146097 * q + year_start r.
Proof.
  unfold year_start. replace (400 * q + r) with (r + 100 * q * 4) at 2 by lia. replace (400 * q + r) with (r + 4 * q * 100) at 2 by lia.
  replace (400 * q + r) with (r + q * 400) at 2 by lia. rewrite !Z.div_add by lia. lia.
Qed.

(** A check of the years of one cycle. *)
Lemma check_cycle (P : Z → bool) : forallb P (seqZ 0 400) = true → ∀ r, 0 ≤ r < 400 → P r = true.
Proof. intros H r Hr. rewrite forallb_forall in H. apply H, list_elem_of_In, elem_of_seqZ. lia. Qed.

Lemma year_start_low y : 0 ≤ y → 400 * (year_start y - 1) < 146097 * y.
Proof.
  intros Hy. rewrite (Z.div_mod y 400) by lia. pose proof (Z.mod_pos_bound y 400 ltac:(lia)) as Hr. rewrite year_start_cycle.
  enough (400 * (year_start (y mod 400) - 1) < 146097 * (y mod 400)) by lia. revert Hr. generalize (y mod 400). intros r Hr.
  apply Z.ltb_lt. revert r Hr. apply (check_cycle (λ r, 400 * (year_start r - 1) <? 146097 * r)). vm_compute. reflexivity.
Qed.

Lemma year_start_high y : 0 ≤ y → 146097 * (y + 1) ≤ 400 * year_start (y + 2).
Proof.
  intros Hy. rewrite (Z.div_mod y 400) by lia. pose proof (Z.mod_pos_bound y 400 ltac:(lia)) as Hr. rewrite <- !Z.add_assoc, year_start_cycle.
  enough (146097 * (y mod 400 + 1) ≤ 400 * year_start (y mod 400 + 2)) by lia. revert Hr. generalize (y mod 400). intros r Hr.
  apply Z.leb_le. revert r Hr. apply (check_cycle (λ r, 146097 * (r + 1) <=? 400 * year_start (r + 2))). vm_compute. reflexivity.
Qed.

Lemma year_start_succ y : 0 ≤ y → year_start (y + 1) = year_start y + days_in_year (y + 1).
Proof.
  intros Hy. rewrite (Z.div_mod y 400) by lia. pose proof (Z.mod_pos_bound y 400 ltac:(lia)) as Hr. set (q := y / 400).
  rewrite <- !Z.add_assoc, !year_start_cycle.
  assert (days_in_year (400 * q + (y mod 400 + 1)) = days_in_year (y mod 400 + 1)) as ->.
  { unfold days_in_year, is_leap_year. set (r := y mod 400 + 1).
    assert ((400 * q + r) mod 4 = r mod 4) as -> by (replace (400 * q + r) with (r + 100 * q * 4) by lia; apply Z.mod_add; lia).
    assert ((400 * q + r) mod 100 = r mod 100) as -> by (replace (400 * q + r) with (r + 4 * q * 100) by lia; apply Z.mod_add; lia).
    assert ((400 * q + r) mod 400 = r mod 400) as -> by (replace (400 * q + r) with (r + q * 400) by lia; apply Z.mod_add; lia). done. }
  enough (year_start (y mod 400 + 1) = year_start (y mod 400) + days_in_year (y mod 400 + 1)) by lia. revert Hr. generalize (y mod 400). intros r Hr.
  apply Z.eqb_eq. revert r Hr. apply (check_cycle (λ r, year_start (r + 1) =? year_start r + days_in_year (r + 1))). vm_compute. reflexivity.
Qed.

Lemma days_in_year_pos y : 365 ≤ days_in_year y ≤ 366.
Proof. unfold days_in_year. destruct (is_leap_year y); lia. Qed.

Lemma year_start_mono y y' : 0 ≤ y < y' → year_start y + days_in_year (y + 1) ≤ year_start y'.
Proof.
  intros H. rewrite <- year_start_succ by lia. assert (∀ n, year_start (y + 1) ≤ year_start (y + 1 + Z.of_nat n)) as Hn.
  { induction n as [|n IH]; [by rewrite Z.add_0_r|]. rewrite Nat2Z.inj_succ. replace (y + 1 + Z.succ (Z.of_nat n)) with (y + 1 + Z.of_nat n + 1) by lia.
    rewrite (year_start_succ (y + 1 + Z.of_nat n)) by lia. pose proof (days_in_year_pos (y + 1 + Z.of_nat n + 1)). lia. }
  specialize (Hn (Z.to_nat (y' - (y + 1)))). rewrite Z2Nat.id in Hn by lia. by replace (y + 1 + (y' - (y + 1))) with y' in Hn by lia.
Qed.

(** The guess of the year is right or one too low. *)
Lemma year_guess days :
  0 ≤ days → let y := 400 * days / 146097 in year_start y ≤ days < year_start (y + 2).
Proof.
  intros Hd y. assert (0 ≤ y) as Hy by (apply Z.div_pos; lia). pose proof (Z.div_mod (400 * days) 146097 ltac:(lia)) as E.
  pose proof (Z.mod_pos_bound (400 * days) 146097 ltac:(lia)). fold y in E. pose proof (year_start_low y Hy). pose proof (year_start_high y Hy). lia.
Qed.

(** ** Months *)

Lemma month_loop_leap n : ∀ y y' d m, is_leap_year y = is_leap_year y' → month_loop n y d m = month_loop n y' d m.
Proof.
  induction n as [|n IH]; intros y y' d m E; cbn [month_loop]; unfold days_in_month; rewrite E; [done|].
  destruct (_ <? _); [done|]. destruct (m + 1 <=? 12); [|done]. cbn [I_ mbind result_bind]. by apply IH.
Qed.

Lemma months_before_leap y y' m : is_leap_year y = is_leap_year y' → months_before y m = months_before y' m.
Proof. intros E. unfold months_before. by rewrite E. Qed.

Lemma days_in_month_leap y y' m : is_leap_year y = is_leap_year y' → days_in_month y m = days_in_month y' m.
Proof. intros E. unfold days_in_month. by rewrite E. Qed.

(** A leap year and one that is none stand for all years. *)
Lemma two_years (P : Z → Prop) y : P 2000 → P 2001 → (∀ y', is_leap_year y = is_leap_year y' → P y' → P y) → P y.
Proof. intros H0 H1 Hy. destruct (is_leap_year y) eqn:E; [by apply (Hy 2000)|by apply (Hy 2001)]. Qed.

Lemma check_days (P : Z → bool) n : forallb P (seqZ 0 n) = true → ∀ d, 0 ≤ d < n → P d = true.
Proof. intros H d Hd. rewrite forallb_forall in H. apply H, list_elem_of_In, elem_of_seqZ. lia. Qed.

(** The loop finds the month of a day of the year. *)
Definition month_of (y d : Z) : Prop :=
  ∃ m r, month_loop 12 y d 1 = Ok (m, r) ∧ 1 ≤ m ≤ 12 ∧ 0 ≤ r < days_in_month y m ∧ d * DAY = months_before y m + r * DAY.

Definition month_of_b (y d : Z) : bool :=
  match month_loop 12 y d 1 with
  | Ok (m, r) => (1 <=? m) && (m <=? 12) && (0 <=? r) && (r <? days_in_month y m) && (d * DAY =? months_before y m + r * DAY)
  | Err _ => false
  end.

Lemma month_loop_ok y d : 0 ≤ d < days_in_year y → month_of y d.
Proof.
  assert (∀ y d, month_of_b y d = true → month_of y d) as Hb.
  { clear. intros y d H. unfold month_of_b in H. destruct (month_loop 12 y d 1) as [[m r]|] eqn:E; [|done].
    rewrite !andb_true_iff, Z.eqb_eq in H. exists m, r. split; [done|]. lia. }
  revert d. apply (two_years (λ y, ∀ d, 0 ≤ d < days_in_year y → month_of y d)).
  - intros d Hd. apply Hb. revert d Hd. apply (check_days (month_of_b 2000)). vm_compute. reflexivity.
  - intros d Hd. apply Hb. revert d Hd. apply (check_days (month_of_b 2001)). vm_compute. reflexivity.
  - intros y' E H d Hd. unfold days_in_year in Hd. rewrite E in Hd. destruct (H d Hd) as (m & r & H1 & H2 & H3 & H4). exists m, r.
    rewrite (month_loop_leap _ y y'), (days_in_month_leap y y'), (months_before_leap y y') by done. done.
Qed.

(** The days of the months fill the year, one after the other. *)
Definition fills (y m : Z) : bool :=
  (0 <=? months_before y m) && (months_before y m mod DAY =? 0) &&
  if m =? 12 then months_before y m + days_in_month y m * DAY =? days_in_year y * DAY
  else months_before y m + days_in_month y m * DAY =? months_before y (m + 1).

Lemma months_fill y m : 1 ≤ m ≤ 12 → fills y m = true.
Proof.
  intros Hm. assert (In m (seqZ 1 12)) as Hin by (apply list_elem_of_In, elem_of_seqZ; lia). clear Hm. revert m Hin.
  apply (two_years (λ y, ∀ m, In m (seqZ 1 12) → fills y m = true)).
  - apply forallb_forall. vm_compute. reflexivity.
  - apply forallb_forall. vm_compute. reflexivity.
  - intros y' E H m Hin. rewrite <- (H m Hin). unfold fills, days_in_year.
    by rewrite (days_in_month_leap y y'), !(months_before_leap y y'), E by done.
Qed.

(** ** The conversions *)

Record civil (tb : broken_down_time) : Prop := {
  cv_year : 1 ≤ year tb;
  cv_month : 1 ≤ month tb ≤ 12;
  cv_day : 1 ≤ day tb ≤ days_in_month (year tb) (month tb);
  cv_hour : 0 ≤ hour tb ≤ 23;
  cv_min : 0 ≤ min tb ≤ 59;
  cv_sec : 0 ≤ sec tb ≤ 59;
  cv_millisec : 0 ≤ millisec tb ≤ 999
}.

(** Seconds since 0001-01-01 UTC, and milliseconds since the epoch. *)
Definition civil_sec (tb : broken_down_time) : Z :=
  year_start (year tb - 1) * DAY + months_before (year tb) (month tb) + (day tb - 1) * DAY +
  hour tb * HOUR + min tb * MIN + sec tb - gmtoff tb.

Definition civil_ms (tb : broken_down_time) : Z := EARLIEST_SUPPORTED_DATE + civil_sec tb * 1000 + millisec tb.

Lemma days_in_month_le y m : 1 ≤ m ≤ 12 → 28 ≤ days_in_month y m ≤ 31.
Proof.
  intros Hm. assert (In m (seqZ 1 12)) as Hin by (apply list_elem_of_In, elem_of_seqZ; lia). clear Hm.
  assert (∀ y, forallb (λ m, (28 <=? days_in_month y m) && (days_in_month y m <=? 31)) (seqZ 1 12) = true → 28 ≤ days_in_month y m ≤ 31) as H.
  { intros y' H. rewrite forallb_forall in H. specialize (H m Hin). lia. }
  apply (two_years (λ y, 28 ≤ days_in_month y m ≤ 31)); [apply H; vm_compute; reflexivity..|]. intros y' E. by rewrite (days_in_month_leap y y').
Qed.

Lemma months_next y m :
  1 ≤ m ≤ 12 →
  0 ≤ months_before y m ∧
  months_before y m + days_in_month y m * DAY = if m =? 12 then days_in_year y * DAY else months_before y (m + 1).
Proof.
  intros Hm. pose proof (months_fill y m Hm) as H. unfold fills in H. rewrite !andb_true_iff, Z.leb_le in H. destruct H as [[H0 _] H].
  split; [done|]. destruct (m =? 12); by apply Z.eqb_eq.
Qed.

Lemma DAY_eq : DAY = 86400.
Proof. reflexivity. Qed.

(** The place of a month in its year. *)
Lemma months_before_end y k :
  (k < 12)%nat →
  0 ≤ months_before y (12 - Z.of_nat k) ∧
  months_before y (12 - Z.of_nat k) + days_in_month y (12 - Z.of_nat k) * DAY ≤ days_in_year y * DAY.
Proof.
  intros Hk. induction k as [|k IH].
  - pose proof (months_next y (12 - Z.of_nat 0) ltac:(lia)) as [H0 H]. rewrite (proj2 (Z.eqb_eq _ 12)) in H by lia. lia.
  - specialize (IH ltac:(lia)). pose proof (months_next y (12 - Z.of_nat (S k)) ltac:(lia)) as [H0 H]. rewrite (proj2 (Z.eqb_neq _ 12)) in H by lia.
    replace (12 - Z.of_nat (S k) + 1) with (12 - Z.of_nat k) in H by lia. pose proof (days_in_month_le y (12 - Z.of_nat k) ltac:(lia)) as Hd.
    rewrite DAY_eq in *. lia.
Qed.

(** The place of a day in its year. *)
Lemma months_before_range y m d :
  1 ≤ m ≤ 12 → 1 ≤ d ≤ days_in_month y m → 0 ≤ months_before y m ∧ months_before y m + d * DAY ≤ days_in_year y * DAY.
Proof.
  intros Hm Hd. pose proof (months_before_end y (Z.to_nat (12 - m)) ltac:(lia)) as H.
  replace (12 - Z.of_nat (Z.to_nat (12 - m))) with m in H by lia. rewrite DAY_eq in *. lia.
Qed.

Lemma time_range tb : civil tb → 0 ≤ hour tb * HOUR + min tb * MIN + sec tb < DAY.
Proof. intros []. unfold DAY, HOUR, MIN, SEC. lia. Qed.

Lemma timegm_eq tb :
  civil tb → year tb ≤ 292278994 → -24 * HOUR ≤ gmtoff tb ≤ 24 * HOUR →
  our_timegm tb = (ms ← s64_ok (civil_ms tb - millisec tb); s64_ok (ms + millisec tb)).
Proof.
  intros [] Hy Hg. unfold our_timegm. pose proof (days_in_month_le (year tb) (month tb) cv_month0) as Hd.
  rewrite (proj2 (andb_true_iff (0 <? year tb) _)) by lia. rewrite (proj2 (andb_true_iff (1 <=? month tb) _)) by lia.
  rewrite (proj2 (andb_true_iff (1 <=? day tb) _)) by lia. rewrite (proj2 (andb_true_iff (0 <=? hour tb) _)) by lia.
  rewrite (proj2 (andb_true_iff (0 <=? min tb) _)) by lia. rewrite (proj2 (andb_true_iff (0 <=? sec tb) _)) by lia.
  rewrite (proj2 (andb_true_iff (0 <=? millisec tb) _)) by lia. rewrite (proj2 (andb_true_iff (_ <=? gmtoff tb) _)) by lia.
  cbn [I_ mbind result_bind]. do 2 f_equal. unfold MILLISEC, civil_ms, civil_sec, year_start, EARLIEST_SUPPORTED_DATE, YEAR, DAY, HOUR, MIN, SEC. lia.
Qed.

(** What the range of the counter means for the calendar. *)
Lemma civil_ms_valid tb : civil tb → gmtoff tb = 0 → year tb ≤ 292278993 → EARLIEST_SUPPORTED_DATE ≤ civil_ms tb < LATEST_SUPPORTED_DATE.
Proof.
  intros Hc Hg Hy. pose proof (time_range tb Hc) as Ht. destruct Hc. pose proof (months_before_range (year tb) (month tb) (day tb) cv_month0 cv_day0) as Hm.
  assert (0 ≤ year_start (year tb - 1)) as Hs.
  { destruct (decide (year tb = 1)) as [->|]; [by vm_compute|]. pose proof (year_start_mono 0 (year tb - 1) ltac:(lia)). pose proof (days_in_year_pos 1).
    change (year_start 0) with 0 in *. change (0 + 1) with 1 in *. lia. }
  pose proof (year_start_succ (year tb - 1) ltac:(lia)) as E. replace (year tb - 1 + 1) with (year tb) in E by lia.
  assert (year_start (year tb) ≤ year_start 292278993) as He.
  { destruct (decide (year tb = 292278993)) as [->|]; [done|]. pose proof (year_start_mono (year tb) 292278993 ltac:(lia)). pose proof (days_in_year_pos (year tb + 1)). lia. }
  assert (year_start 292278993 = 106752710101) as Ey by (vm_compute; reflexivity). rewrite Ey in He. clear Ey.
  unfold civil_ms, civil_sec, EARLIEST_SUPPORTED_DATE, LATEST_SUPPORTED_DATE. rewrite Hg. rewrite DAY_eq in *.
  set (t := hour tb * HOUR + min tb * MIN + sec tb) in *. lia.
Qed.

Lemma year_start_nonneg y : 0 ≤ y → 0 ≤ year_start y.
Proof.
  intros Hy. destruct (decide (y = 0)) as [->|]; [done|]. pose proof (year_start_mono 0 y ltac:(lia)). pose proof (days_in_year_pos (0 + 1)).
  change (year_start 0) with 0 in *. lia.
Qed.

(** The year of a day: the guess, put right. *)
Lemma year_of_day days :
  0 ≤ days < 2 ^ 40 →
  let g := u32 (u64 (400 * days) / 146097) in
  let delta := days - (g * 365 + g / 4 - g / 100 + g / 400) in
  let y := u32 (g + 1) in
  ∃ y' delta',
    (if days_in_year y <=? delta then (delta - days_in_year y, y + 1) else (delta, y)) = (delta', y') ∧
    1 ≤ y' ∧ 0 ≤ delta' < days_in_year y' ∧ days = year_start (y' - 1) + delta'.
Proof.
  intros Hd g delta y. assert (g = 400 * days / 146097) as Hg.
  { unfold g. rewrite u64_small by lia. apply u32_small. split; [apply Z.div_pos; lia|]. apply Z.div_lt_upper_bound; lia. }
  assert (0 ≤ g < 2 ^ 32 - 1) as Hr by (rewrite Hg; split; [apply Z.div_pos; lia|apply Z.div_lt_upper_bound; lia]).
  assert (y = g + 1) as Hy by (unfold y; apply u32_small; lia). pose proof (year_guess days ltac:(lia)) as H. cbv zeta in H. rewrite <- Hg in H.
  fold (year_start g) in delta. clearbody y. subst y. clearbody g. pose proof (year_start_succ g ltac:(lia)) as E1.
  pose proof (year_start_succ (g + 1) ltac:(lia)) as E2. replace (g + 1 + 1) with (g + 2) in E2 by lia.
  destruct (Z.leb_spec (days_in_year (g + 1)) delta) as [Hle|Hlt].
  - exists (g + 2), (delta - days_in_year (g + 1)). split; [f_equal; lia|]. replace (g + 2 - 1) with (g + 1) by lia. unfold delta in *. lia.
  - exists (g + 1), delta. split; [done|]. replace (g + 1 - 1) with g by lia. unfold delta in *. lia.
Qed.

(** The time of a millisecond of the day. *)
Lemma time_of_day t :
  t = (t / 1000 / 60 / 60) * 3600000 + ((t / 1000 / 60) mod 60) * 60000 + ((t / 1000) mod 60) * 1000 + t mod 1000.
Proof.
  pose proof (Z.div_mod t 1000 ltac:(lia)). pose proof (Z.div_mod (t / 1000) 60 ltac:(lia)). pose proof (Z.div_mod (t / 1000 / 60) 60 ltac:(lia)). lia.
Qed.

Lemma time_fields t :
  0 ≤ t < 86400000 →
  0 ≤ t / 1000 / 60 / 60 ≤ 23 ∧ 0 ≤ (t / 1000 / 60) mod 60 ≤ 59 ∧ 0 ≤ (t / 1000) mod 60 ≤ 59 ∧ 0 ≤ t mod 1000 ≤ 999.
Proof.
  intros Ht. pose proof (Z.div_mod t 1000 ltac:(lia)). pose proof (Z.div_mod (t / 1000) 60 ltac:(lia)). pose proof (Z.div_mod (t / 1000 / 60) 60 ltac:(lia)).
  pose proof (Z.mod_pos_bound t 1000 ltac:(lia)). pose proof (Z.mod_pos_bound (t / 1000) 60 ltac:(lia)). pose proof (Z.mod_pos_bound (t / 1000 / 60) 60 ltac:(lia)). lia.
Qed.

Lemma gmtime_ok ts :
  valid_ms_count ts = true → ∃ tb, our_gmtime ts = Ok tb ∧ civil tb ∧ gmtoff tb = 0 ∧ civil_ms tb = ts.
Proof.
  intros Hv. unfold our_gmtime. rewrite Hv. cbn [I_ mbind result_bind]. unfold valid_ms_count in Hv.
  assert (u64 (u64 ts - u64 EARLIEST_SUPPORTED_DATE) = ts - EARLIEST_SUPPORTED_DATE) as ->.
  { unfold u64. rewrite <- Zminus_mod. apply Z.mod_small. unfold EARLIEST_SUPPORTED_DATE, LATEST_SUPPORTED_DATE in *. lia. }
  set (t := ts - EARLIEST_SUPPORTED_DATE). assert (0 ≤ t < 2 ^ 64) as Ht by (unfold t, EARLIEST_SUPPORTED_DATE, LATEST_SUPPORTED_DATE in *; lia).
  change (MILLISEC DAY) with 86400000. pose proof (Z.mod_pos_bound t 86400000 ltac:(lia)) as Hm. pose proof (Z.div_mod t 86400000 ltac:(lia)) as Et.
  rewrite (u32_small (t mod 86400000)) by lia. assert (0 ≤ t / 86400000 < 2 ^ 40) as Hdays by lia.
  set (days := t / 86400000) in *. set (ms := t mod 86400000) in *.
  pose proof (year_of_day days Hdays) as (y & delta & E & Hy & Hdelta & Edays). cbv zeta in E. cbv zeta. rewrite E. clear E.
  rewrite (proj2 (andb_true_iff (0 <=? delta) _)) by lia. destruct (month_loop_ok y delta Hdelta) as (m & r & -> & Hmonth & Hr & Emonth).
  eexists. split; [reflexivity|]. split; [|split; [done|]].
  - pose proof (time_fields ms Hm). constructor; cbn [year month day hour min sec millisec gmtoff]; lia.
  - unfold civil_ms, civil_sec. cbn [year month day hour min sec millisec gmtoff]. pose proof (time_of_day ms) as Etime.
    change HOUR with 3600. change MIN with 60. rewrite DAY_eq in *. unfold t in Et. lia.
Qed.

(** ** Inverse conversions *)

Lemma s64_small z : -2 ^ 63 ≤ z < 2 ^ 63 → s64_ok z = Ok z.
Proof. intros H. unfold s64_ok. by rewrite (proj2 (andb_true_iff (_ <=? z) _)) by lia. Qed.

Lemma timegm_valid tb : civil tb → gmtoff tb = 0 → valid_ms_count (civil_ms tb) = true → our_timegm tb = Ok (civil_ms tb).
Proof.
  intros Hc Hg Hv. assert (year tb ≤ 292278994) as Hy.
  { destruct (Z.le_gt_cases (year tb) 292278994) as [|Hy]; [done|exfalso]. pose proof (time_range tb Hc) as Ht. destruct Hc.
    pose proof (months_before_range (year tb) (month tb) (day tb) cv_month0 cv_day0) as Hm. pose proof (year_start_mono 292278993 (year tb - 1) ltac:(lia)) as Hs.
    assert (year_start 292278993 = 106752710101) as Ey by (vm_compute; reflexivity). rewrite Ey in Hs. clear Ey. pose proof (days_in_year_pos (292278993 + 1)).
    unfold valid_ms_count, civil_ms, civil_sec in Hv. rewrite Hg in Hv. unfold EARLIEST_SUPPORTED_DATE, LATEST_SUPPORTED_DATE in Hv. rewrite DAY_eq in *. lia. }
  rewrite timegm_eq by (done || (rewrite Hg; unfold HOUR, MIN, SEC; lia)). unfold valid_ms_count, EARLIEST_SUPPORTED_DATE, LATEST_SUPPORTED_DATE in Hv. destruct Hc.
  rewrite s64_small by lia. cbn [mbind result_bind]. rewrite s64_small by lia. f_equal. lia.
Qed.

(** The seconds of a civil day, from the start of its year. *)
Definition in_year (tb : broken_down_time) : Z :=
  months_before (year tb) (month tb) + (day tb - 1) * DAY + (hour tb * HOUR + min tb * MIN + sec tb).

Lemma in_year_range tb : civil tb → 0 ≤ in_year tb < days_in_year (year tb) * DAY.
Proof.
  intros Hc. pose proof (time_range tb Hc). destruct Hc. pose proof (months_before_range (year tb) (month tb) (day tb) cv_month0 cv_day0).
  unfold in_year. rewrite DAY_eq in *. lia.
Qed.

Lemma months_before_mono y m m' : 1 ≤ m < m' → m' ≤ 12 → months_before y m + days_in_month y m * DAY ≤ months_before y m'.
Proof.
  intros Hm Hm'. assert (∀ k, m + 1 + Z.of_nat k ≤ 12 → months_before y m + days_in_month y m * DAY ≤ months_before y (m + 1 + Z.of_nat k)) as H.
  { induction k as [|k IH]; intros Hk.
    - pose proof (months_next y m ltac:(lia)) as [_ H]. rewrite (proj2 (Z.eqb_neq m 12)) in H by lia. rewrite H, Z.add_0_r. done.
    - specialize (IH ltac:(lia)). pose proof (months_next y (m + 1 + Z.of_nat k) ltac:(lia)) as [_ H]. rewrite (proj2 (Z.eqb_neq _ 12)) in H by lia.
      replace (m + 1 + Z.of_nat k + 1) with (m + 1 + Z.of_nat (S k)) in H by lia. pose proof (days_in_month_le y (m + 1 + Z.of_nat k) ltac:(lia)). rewrite DAY_eq in *. lia. }
  specialize (H (Z.to_nat (m' - m - 1)) ltac:(lia)). by replace (m + 1 + Z.of_nat (Z.to_nat (m' - m - 1))) with m' in H by lia.
Qed.

Lemma civil_year_lt tb tb' : civil tb → civil tb' → gmtoff tb = 0 → gmtoff tb' = 0 → year tb < year tb' → civil_ms tb < civil_ms tb'.
Proof.
  intros Hc Hc' Hg Hg' Hy. pose proof (in_year_range tb Hc) as H. pose proof (in_year_range tb' Hc') as H'. destruct Hc, Hc'.
  pose proof (year_start_mono (year tb - 1) (year tb' - 1) ltac:(lia)) as Hs. replace (year tb - 1 + 1) with (year tb) in Hs by lia.
  unfold civil_ms, civil_sec. unfold in_year in *. rewrite Hg, Hg', DAY_eq in *. lia.
Qed.

Lemma civil_month_lt tb tb' :
  civil tb → civil tb' → gmtoff tb = 0 → gmtoff tb' = 0 → year tb = year tb' → month tb < month tb' → civil_ms tb < civil_ms tb'.
Proof.
  intros Hc Hc' Hg Hg' Hy Hm. pose proof (time_range tb Hc) as H. pose proof (time_range tb' Hc') as H'. destruct Hc, Hc'.
  pose proof (months_before_mono (year tb) (month tb) (month tb') ltac:(lia) ltac:(lia)) as Hs.
  unfold civil_ms, civil_sec. rewrite <- Hy, Hg, Hg', DAY_eq in *. lia.
Qed.

Lemma radix b a r a' r' : 0 ≤ r < b → 0 ≤ r' < b → a * b + r = a' * b + r' → a = a' ∧ r = r'.
Proof. intros Hr Hr' E. apply (Z.div_mod_unique b); lia. Qed.

(** A civil time is determined by its milliseconds. *)
Lemma civil_ms_inj tb tb' : civil tb → civil tb' → gmtoff tb = 0 → gmtoff tb' = 0 → civil_ms tb = civil_ms tb' → tb = tb'.
Proof.
  intros Hc Hc' Hg Hg' E. assert (year tb = year tb') as Hy.
  { destruct (Z.lt_trichotomy (year tb) (year tb')) as [Hy|[|Hy]]; [|done|].
    - pose proof (civil_year_lt tb tb' Hc Hc' Hg Hg' Hy). lia.
    - pose proof (civil_year_lt tb' tb Hc' Hc Hg' Hg Hy). lia. }
  assert (month tb = month tb') as Hm.
  { destruct (Z.lt_trichotomy (month tb) (month tb')) as [Hm|[|Hm]]; [|done|].
    - pose proof (civil_month_lt tb tb' Hc Hc' Hg Hg' Hy Hm). lia.
    - pose proof (civil_month_lt tb' tb Hc' Hc Hg' Hg (eq_sym Hy) Hm). lia. }
  pose proof (time_range tb Hc) as Ht. pose proof (time_range tb' Hc') as Ht'. destruct Hc, Hc'.
  unfold civil_ms, civil_sec in E. rewrite Hy, Hm, Hg, Hg' in E. rewrite DAY_eq in *. change HOUR with 3600 in *. change MIN with 60 in *.
  destruct (radix 1000 ((day tb - 1) * 86400 + (hour tb * 3600 + min tb * 60 + sec tb)) (millisec tb)
              ((day tb' - 1) * 86400 + (hour tb' * 3600 + min tb' * 60 + sec tb')) (millisec tb')) as [E1 Ems]; [lia..|].
  apply (radix 86400) in E1 as [Ed E1]; [|lia..]. rewrite <- (Z.add_assoc _ (min tb * 60)), <- (Z.add_assoc _ (min tb' * 60)) in E1.
  apply (radix 3600) in E1 as [Eh E1]; [|lia..]. apply (radix 60) in E1 as [Emin Esec]; [|lia..].
  assert (day tb = day tb') as Eday by lia. clear -Hy Hm Eday Eh Emin Esec Ems Hg Hg'. destruct tb, tb'. naive_solver.
Qed.

Lemma gmtime_inv ts tb : our_gmtime ts = Ok tb → valid_ms_count ts = true.
Proof. intros E. unfold our_gmtime in E. by apply bind_Ok_inv in E as (? & E%I_Ok_inv & _). Qed.

Lemma s64_ok_inv z z' : s64_ok z = Ok z' → z' = z.
Proof. unfold s64_ok. destruct (_ && _); intros E; by inv_ok. Qed.

Lemma timegm_inv tb ts : civil tb → gmtoff tb = 0 → our_timegm tb = Ok ts → ts = civil_ms tb.
Proof.
  intros Hc Hg E. assert (year tb ≤ 292278994) as Hy.
  { unfold our_timegm in E. apply bind_Ok_inv in E as (? & E%I_Ok_inv & _). lia. }
  rewrite timegm_eq in E; [|done..|rewrite Hg; unfold HOUR, MIN, SEC; lia].
  apply bind_Ok_inv in E as (ms & ->%s64_ok_inv & ->%s64_ok_inv). lia.
Qed.

(** C25: the two conversions of dates.cc between milliseconds and the calendar are inverse to each other: [our_gmtime] succeeds
    exactly on the supported counts, and what it returns is the one existing civil time (the right number of days in the
    month, leap years included) that [our_timegm] turns back into that count. *)
Theorem calendar_inverse ts tb :
  (valid_ms_count ts = true ↔ is_ok (our_gmtime ts) = true) ∧
  (our_gmtime ts = Ok tb ↔ valid_ms_count ts = true ∧ civil tb ∧ gmtoff tb = 0 ∧ our_timegm tb = Ok ts).
Proof.
  split; [|split].
  - split; [intros H; by destruct (gmtime_ok ts H) as (tb' & -> & _)|]. destruct (our_gmtime ts) eqn:E; [intros _; by eapply gmtime_inv|done].
  - intros E. pose proof (gmtime_inv ts tb E) as H. destruct (gmtime_ok ts H) as (tb' & E' & Hc & Hg & <-). rewrite E in E'. injection E' as ->.
    by rewrite timegm_valid.
  - intros (H & Hc & Hg & E). destruct (gmtime_ok ts H) as (tb' & E' & Hc' & Hg' & <-). rewrite E'. f_equal. apply civil_ms_inj; [done..|].
    by apply timegm_inv.
Qed.
