(* ===== verification/DatesText.v ===== *)
(** * Dates as text

    The printer of dates.cc and its reader, which works from the end of the
    text to its start: a printed date is read back, to the second. *)

From S2P Require Import Prelude Numbers Dates DatesCorrect.

(** ** Characters at an index *)

Lemma at_app Y t k c : t !! k = Some c → at_ (Y ++ t) (len Y + Z.of_nat k) = Ok (byte_val c).
Proof.
  intros H. pose proof (lookup_lt_Some _ _ _ H) as Hl. unfold at_. rewrite len_app. unfold len.
  rewrite (proj2 (Z.ltb_lt _ _)) by lia. replace (Z.to_nat _) with (length Y + k)%nat by lia.
  rewrite app_nth2_plus. by rewrite (nth_lookup_Some _ _ _ _ H).
Qed.

Lemma at_in s k c : s !! k = Some c → at_ s (Z.of_nat k) = Ok (byte_val c).
Proof. intros H. rewrite <- (at_app [] s k c H). done. Qed.

Lemma back_small i n : 0 ≤ n ≤ i → i < 2 ^ 64 → back i n = i - n.
Proof. intros H H'. apply u64_small. lia. Qed.

Lemma rfind_none s c n : c ∉ s → rfind_from n c s = None.
Proof.
  intros H. induction n as [|n IH]; [done|]. cbn [rfind_from]. rewrite bool_decide_eq_false_2; [done|]. intros E. by apply list_elem_of_lookup_2 in E.
Qed.

Lemma rfind_last a c b : c ∉ b → rfind (a ++ c :: b) c = Some (len a).
Proof.
  intros H. unfold rfind. enough (∀ k, (k ≤ length b)%nat → rfind_from (length a + S k) c (a ++ c :: b) = Some (len a)) as Hk.
  { rewrite length_app. cbn [length]. by apply Hk. }
  induction k as [|k IH]; intros Hk; rewrite Nat.add_succ_r; cbn [rfind_from].
  - rewrite Nat.add_0_r, bool_decide_eq_true_2; [done|]. by apply list_lookup_middle.
  - rewrite bool_decide_eq_false_2; [apply IH; lia|]. rewrite lookup_app_r by lia. replace (length a + S k - length a)%nat with (S k) by lia.
    intros E. change (b !! k = Some c) in E. by apply list_elem_of_lookup_2 in E.
Qed.

(** ** Digits *)

Lemma decimal_ne c c' : is_decimal c = true → is_decimal c' = false → c' ≠ c.
Proof. intros H H' ->. congruence. Qed.

Lemma digits_of n : 0 ≤ n ≤ 99 → 0 ≤ n / 10 < 10 ∧ 0 ≤ n mod 10 < 10 ∧ n = n / 10 * 10 + n mod 10.
Proof. intros H. pose proof (Z.div_mod n 10 ltac:(lia)). pose proof (Z.mod_pos_bound n 10 ltac:(lia)). lia. Qed.

Lemma pad_2 n : 0 ≤ n ≤ 99 → pad 2 n = [digit_char (n / 10); digit_char (n mod 10)].
Proof.
  intros H. pose (P n := bool_decide (pad 2 n = [digit_char (n / 10); digit_char (n mod 10)])).
  enough (P n = true) as E by (by apply bool_decide_eq_true in E). apply (check_days P 100); [vm_compute; reflexivity|lia].
Qed.

Lemma in_chars_digit lo hi d : lo ≤ d ≤ hi → in_chars lo hi (48 + d) = true.
Proof. intros H. unfold in_chars. lia. Qed.

(** ** The steps of the reader *)

Section reader.
Context (Y t : bytes) (HY : len Y + len t < 2 ^ 64).

Lemma two_digits_at lo hi k n :
  t !! k = Some (digit_char (n / 10)) → t !! S k = Some (digit_char (n mod 10)) → 0 ≤ n ≤ 99 → lo ≤ n / 10 ≤ hi →
  two_digits lo hi (Y ++ t) (len Y + Z.of_nat (S k)) = Ok n.
Proof.
  intros H1 H2 Hn Hr. pose proof (lookup_lt_Some _ _ _ H2) as Hl. pose proof (len_nonneg Y). pose proof (digits_of n Hn) as (Hq & Hm & En).
  unfold two_digits. rewrite (at_app Y t _ _ H2). cbn [mbind result_bind]. rewrite digit_char_val by done.
  rewrite in_chars_digit by lia. cbn [E_ mbind result_bind].
  rewrite back_small by (unfold len in *; lia). replace (len Y + Z.of_nat (S k) - 1) with (len Y + Z.of_nat k) by lia. rewrite (at_app Y t _ _ H1). cbn [mbind result_bind].
  rewrite digit_char_val by done. rewrite in_chars_digit by lia. cbn [E_ mbind result_bind].
  f_equal. replace ((48 + n / 10 - 48) * 10 + (48 + n mod 10 - 48)) with n by lia. apply Z.mod_small. lia.
Qed.

Lemma skip_char_at c k : t !! S k = Some c → skip_char c (Y ++ t) (len Y + Z.of_nat (S k)) = Ok (len Y + Z.of_nat k).
Proof.
  intros H. pose proof (lookup_lt_Some _ _ _ H) as Hl. pose proof (len_nonneg Y). unfold skip_char. rewrite (at_app Y t _ _ H). cbn [mbind result_bind]. rewrite Z.eqb_refl.
  f_equal. rewrite back_small by (unfold len in *; lia). lia.
Qed.

Lemma back_1 k : (S k < length t)%nat → back (len Y + Z.of_nat (S k)) 1 = len Y + Z.of_nat k.
Proof. intros H. pose proof (len_nonneg Y). rewrite back_small by (unfold len in *; lia). lia. Qed.

Lemma back_2 k : (S (S k) < length t)%nat → back (len Y + Z.of_nat (S (S k))) 2 = len Y + Z.of_nat k.
Proof. intros H. pose proof (len_nonneg Y). rewrite back_small by (unfold len in *; lia). lia. Qed.
End reader.

(** The digits of the year, from the last to the first, as a [u32]. *)
Lemma year_loop_numeral ds : ∀ rest fuel y digit,
  (length ds ≤ fuel)%nat → forallb is_decimal ds = true → len ds + len rest < 2 ^ 64 - 1 → u32 y = y →
  year_loop fuel (ds ++ rest) (back (len ds) 1) y digit = Ok (u32 (y + numeral 0 ds * digit)).
Proof.
  induction ds as [|c ds IH] using rev_ind; intros rest fuel y digit Hf Hd Hl Hy.
  - change (back (len []) 1) with (2 ^ 64 - 1). rewrite len_nil in Hl. cbn [app numeral foldl]. rewrite Z.mul_0_l, Z.add_0_r, Hy.
    destruct fuel; cbn [year_loop]; by rewrite (proj2 (Z.ltb_ge _ _)) by lia.
  - rewrite length_app in Hf. cbn [length] in Hf. destruct fuel as [|fuel]; [lia|]. rewrite forallb_app, andb_true_iff in Hd. destruct Hd as [Hd Hc].
    cbn [forallb] in Hc. rewrite andb_true_r in Hc. rewrite len_app in *. change (len [c]) with 1 in *. pose proof (len_nonneg ds). pose proof (len_nonneg rest).
    rewrite back_small by lia. replace (len ds + 1 - 1) with (len ds) by lia. rewrite <- app_assoc. cbn [app year_loop].
    rewrite (proj2 (Z.ltb_lt _ _)) by (rewrite len_app, len_cons; lia).
    pose proof (at_app ds (c :: rest) 0 c eq_refl) as Hat. change (Z.of_nat 0) with 0 in Hat. rewrite Z.add_0_r in Hat. rewrite Hat. cbn [mbind result_bind].
    unfold in_chars. change (48 + 0) with 48. change (48 + 9) with 57. unfold is_decimal in Hc. rewrite Hc. cbn [E_ mbind result_bind].
    rewrite IH; [|lia|done|rewrite len_cons; lia|unfold u32; by rewrite Z.mod_mod]. f_equal. unfold numeral. rewrite foldl_app. cbn [foldl]. fold (numeral 0 ds).
    unfold u32, digit_val. rewrite <- Zplus_mod_idemp_r, Zmult_mod_idemp_r, Zplus_mod_idemp_r, Zplus_mod_idemp_l. f_equal. lia.
Qed.

(** ** The text of a date *)

(** What the printer writes behind the year. *)
Definition stamp (tb : broken_down_time) : bytes :=
  ["-"%char; digit_char (month tb / 10); digit_char (month tb mod 10); "-"%char; digit_char (day tb / 10); digit_char (day tb mod 10);
   "T"%char; digit_char (hour tb / 10); digit_char (hour tb mod 10); ":"%char; digit_char (min tb / 10); digit_char (min tb mod 10);
   ":"%char; digit_char (sec tb / 10); digit_char (sec tb mod 10)].

Lemma civil_bounds tb :
  civil tb →
  1 ≤ year tb ∧ 1 ≤ month tb ≤ 12 ∧ 1 ≤ day tb ≤ 31 ∧ 0 ≤ hour tb ≤ 23 ∧ 0 ≤ min tb ≤ 59 ∧ 0 ≤ sec tb ≤ 59 ∧ 0 ≤ millisec tb ≤ 999.
Proof. intros [Hy Hm Hd Hh Hmi Hs Hms]. pose proof (days_in_month_le (year tb) _ Hm). lia. Qed.

Lemma printed tb :
  civil tb →
  pad 4 (year tb) ++ "-"%char :: pad 2 (month tb) ++ "-"%char :: pad 2 (day tb) ++ "T"%char ::
      pad 2 (hour tb) ++ ":"%char :: pad 2 (min tb) ++ ":"%char :: pad 2 (sec tb) = pad 4 (year tb) ++ stamp tb.
Proof. intros Hc. pose proof (civil_bounds tb Hc). by rewrite !pad_2 by lia. Qed.

Section read_back.
Context (tb : broken_down_time) (Hc : civil tb) (Hyear : year tb ≤ 292278994).
Context (Y : bytes) (HY : forallb is_decimal Y = true) (Hlen : (4 ≤ length Y ≤ 40)%nat) (Hnum : numeral 0 Y = year tb).

Let s := Y ++ stamp tb.

Lemma stamp_len : len (stamp tb) = 15.
Proof. done. Qed.

Lemma stamp_small : len Y + len (stamp tb) < 2 ^ 64 - 1.
Proof. rewrite stamp_len. unfold len. lia. Qed.

Lemma digit_ne c n : is_decimal c = false → 0 ≤ n ≤ 99 → c ≠ digit_char (n / 10) ∧ c ≠ digit_char (n mod 10).
Proof. intros H Hn. pose proof (digits_of n Hn) as (Hq & Hm & _). split; apply decimal_ne; try done; by apply digit_char_decimal. Qed.

Lemma not_in_year c : is_decimal c = false → c ∉ Y.
Proof. intros H Hin. rewrite forallb_forall in HY. rewrite HY in H; [done|]. by apply list_elem_of_In. Qed.

Lemma at_s k c : stamp tb !! k = Some c → at_ s (len Y + Z.of_nat k) = Ok (byte_val c).
Proof. apply at_app. Qed.

(** A character of the stamp is a separator or one of its digits. *)
Ltac in_stamp H :=
  repeat (apply elem_of_cons in H as [H|H]; [first [done|discriminate H|rewrite !elem_of_cons; tauto]|]); by apply elem_of_nil in H.

Lemma stamp_digits c :
  is_decimal c = false →
  c ∉ [digit_char (month tb / 10); digit_char (month tb mod 10); digit_char (day tb / 10); digit_char (day tb mod 10); digit_char (hour tb / 10);
       digit_char (hour tb mod 10); digit_char (min tb / 10); digit_char (min tb mod 10); digit_char (sec tb / 10); digit_char (sec tb mod 10)].
Proof.
  intros Hd Hin. pose proof (civil_bounds tb Hc) as Hb. destruct (digit_ne c (month tb) Hd) as [? ?]; [lia|]. destruct (digit_ne c (day tb) Hd) as [? ?]; [lia|].
  destruct (digit_ne c (hour tb) Hd) as [? ?]; [lia|]. destruct (digit_ne c (min tb) Hd) as [? ?]; [lia|]. destruct (digit_ne c (sec tb) Hd) as [? ?]; [lia|].
  repeat (apply elem_of_cons in Hin as [Hin|Hin]; [done|]). by apply elem_of_nil in Hin.
Qed.

(** No time zone follows: the last [-] stands before the [T]. *)
Lemma no_timezone : find_timezone s = Ok None.
Proof.
  assert (∀ c, is_decimal c = false → c ≠ "-"%char → c ≠ "T"%char → c ≠ ":"%char → rfind s c = None) as Hno.
  { intros c Hd H1 H2 H3. apply rfind_none. intros [Hin|Hin]%elem_of_app; [by apply (not_in_year c)|]. apply (stamp_digits c Hd). unfold stamp in Hin.
    in_stamp Hin. }
  assert (rfind s "-"%char = Some (len Y + 3)) as Hdash.
  { change (len Y + 3) with (len Y + len (take 3 (stamp tb))). rewrite <- len_app. unfold s. rewrite <- (take_drop 3 (stamp tb)) at 1. rewrite app_assoc.
    apply rfind_last. cbn [stamp drop]. intros Hin. apply (stamp_digits "-"%char); [done|]. in_stamp Hin. }
  assert (rfind s "T"%char = Some (len Y + 6)) as HT.
  { change (len Y + 6) with (len Y + len (take 6 (stamp tb))). rewrite <- len_app. unfold s. rewrite <- (take_drop 6 (stamp tb)) at 1. rewrite app_assoc.
    apply rfind_last. cbn [stamp drop]. intros Hin. apply (stamp_digits "T"%char); [done|]. in_stamp Hin. }
  unfold find_timezone. rewrite !Hno by done. cbn [or_else]. rewrite Hdash, HT. cbn [or_else]. by rewrite (proj2 (Z.ltb_lt _ _)) by lia.
Qed.

(** The seconds have no fraction. *)
Lemma no_fraction : end_of_seconds s (len s) = Ok (len Y + Z.of_nat 14).
Proof.
  pose proof (civil_bounds tb Hc) as Hb. pose proof stamp_small as Hl. destruct (digits_of (sec tb)) as (Hq & Hm & _); [lia|].
  assert (back (len s) 1 = len Y + Z.of_nat 14) as E.
  { unfold s. pose proof (len_nonneg Y). rewrite back_small; rewrite len_app, ?stamp_len in *; lia. }
  unfold end_of_seconds. rewrite E. assert (length s = (length Y + 15)%nat) as -> by (unfold s; by rewrite length_app).
  replace (S (length Y + 15)) with (3 + (length Y + 13))%nat by lia. cbn [Nat.add skip_digits].
  rewrite (at_s 14 (digit_char (sec tb mod 10)) eq_refl). cbn [mbind result_bind]. rewrite digit_char_val, in_chars_digit by lia.
  rewrite (back_1 Y (stamp tb) ltac:(lia) 13) by (cbn [stamp length]; lia).
  rewrite (at_s 13 (digit_char (sec tb / 10)) eq_refl). cbn [mbind result_bind]. rewrite digit_char_val, in_chars_digit by lia.
  rewrite (back_1 Y (stamp tb) ltac:(lia) 12) by (cbn [stamp length]; lia).
  rewrite (at_s 12 ":"%char eq_refl). cbn [mbind result_bind]. change (in_chars 0 9 (byte_val ":")) with false. cbv iota. cbn [mbind result_bind].
  by rewrite (at_s 12 ":"%char eq_refl).
Qed.

(** The year: the digits of [Y]. *)
Lemma year_back : read_year s (back (len Y) 1) = Ok (year tb).
Proof.
  pose proof (civil_bounds tb Hc) as Hb. pose proof stamp_small as Hl. unfold read_year. rewrite (back_small (len Y)) by (unfold len in *; lia).
  rewrite (proj2 (Z.leb_le 3 _)) by (unfold len; lia). cbn [E_ mbind result_bind]. rewrite <- (back_small (len Y) 1) by (unfold len in *; lia).
  unfold s. rewrite year_loop_numeral; [|rewrite length_app; lia|done|done|done]. cbn [mbind result_bind].
  rewrite Hnum, u32_small by lia. replace (0 + year tb * 1) with (year tb) by lia.
  rewrite (proj2 (Z.leb_le 1 _)) by lia. rewrite (proj2 (Z.leb_le _ 292278994)) by lia. done.
Qed.

Lemma hour_back : read_hour s (len Y + Z.of_nat 8) = Ok (hour tb).
Proof.
  pose proof (civil_bounds tb Hc) as Hb. pose proof stamp_small as Hl. destruct (digits_of (hour tb)) as (Hq & Hm & Eh); [lia|].
  unfold read_hour. rewrite (back_1 Y (stamp tb) ltac:(lia) 7) by (cbn [stamp length]; lia).
  rewrite (at_s 7 (digit_char (hour tb / 10)) eq_refl), (at_s 8 (digit_char (hour tb mod 10)) eq_refl). cbn [mbind result_bind].
  rewrite !digit_char_val by done. change (byte_val "2") with 50. unfold in_chars.
  rewrite (proj2 (orb_true_iff _ _)) by lia. cbn [E_ mbind result_bind].
  f_equal. replace ((48 + hour tb / 10 - 48) * 10 + (48 + hour tb mod 10 - 48)) with (hour tb) by lia. apply Z.mod_small. lia.
Qed.

Lemma stamp_small' : len Y + len (stamp tb) < 2 ^ 64.
Proof. pose proof stamp_small. lia. Qed.

Lemma two_s lo hi k n :
  stamp tb !! k = Some (digit_char (n / 10)) → stamp tb !! S k = Some (digit_char (n mod 10)) → 0 ≤ n ≤ 99 → lo ≤ n / 10 ≤ hi →
  two_digits lo hi s (len Y + Z.of_nat (S k)) = Ok n.
Proof. apply two_digits_at, stamp_small'. Qed.

Lemma skip_s c k : stamp tb !! S k = Some c → skip_char c s (len Y + Z.of_nat (S k)) = Ok (len Y + Z.of_nat k).
Proof. apply skip_char_at, stamp_small'. Qed.

Lemma back_s k : (S (S k) < 15)%nat → back (len Y + Z.of_nat (S (S k))) 2 = len Y + Z.of_nat k.
Proof. apply (back_2 Y (stamp tb) stamp_small'). Qed.

(** The [-] behind the year. *)
Lemma skip_last : skip_char "-" s (back (len Y + Z.of_nat 2) 2) = Ok (back (len Y) 1).
Proof.
  pose proof stamp_small'. rewrite back_s by lia. unfold skip_char. rewrite (at_s 0 "-"%char eq_refl). cbn [mbind result_bind]. rewrite Z.eqb_refl.
  by rewrite Z.add_0_r.
Qed.

Lemma read_back :
  read_date s = our_timegm (BrokenDownTime 0 (sec tb) (min tb) (hour tb) (day tb) (month tb) (year tb) 0).
Proof.
  pose proof (civil_bounds tb Hc) as Hb. pose proof (cv_day tb Hc) as Hd. unfold read_date, read_timezone. rewrite no_timezone. cbn [mbind result_bind].
  rewrite no_fraction. cbn [mbind result_bind]. destruct (digits_of (sec tb)) as (? & ? & ?); [lia|]. rewrite (two_s 0 5 13 (sec tb)) by (done || lia).
  cbn [mbind result_bind]. rewrite (proj2 (Z.leb_le (sec tb) 60)) by lia. cbn [E_ mbind result_bind]. rewrite (back_s 12), (skip_s ":" 11) by (done || lia).
  cbn [mbind result_bind]. destruct (digits_of (min tb)) as (? & ? & ?); [lia|]. rewrite (two_s 0 5 10 (min tb)) by (done || lia). cbn [mbind result_bind].
  rewrite (proj2 (Z.ltb_lt (min tb) 60)) by lia. cbn [E_ mbind result_bind]. rewrite (back_s 9), (skip_s ":" 8) by (done || lia). cbn [mbind result_bind].
  rewrite hour_back. cbn [mbind result_bind]. rewrite (proj2 (Z.ltb_lt (hour tb) 24)) by lia. cbn [E_ mbind result_bind]. rewrite (back_s 6) by lia.
  rewrite (at_s 6 "T"%char eq_refl). cbn [mbind result_bind]. rewrite Z.eqb_refl. cbn [orb E_ mbind result_bind].
  rewrite (back_1 Y (stamp tb) stamp_small' 5) by (cbn [stamp length]; lia). destruct (digits_of (day tb)) as (? & ? & ?); [lia|].
  rewrite (two_s 0 3 4 (day tb)) by (done || lia). cbn [mbind result_bind]. rewrite (back_s 3), (skip_s "-" 2) by (done || lia). cbn [mbind result_bind].
  destruct (digits_of (month tb)) as (? & ? & ?); [lia|]. rewrite (two_s 0 1 1 (month tb)) by (done || lia). cbn [mbind result_bind].
  rewrite (proj2 (andb_true_iff (1 <=? month tb) _)) by lia. cbn [E_ mbind result_bind]. rewrite skip_last. cbn [mbind result_bind].
  rewrite year_back. cbn [mbind result_bind]. by rewrite (proj2 (andb_true_iff (1 <=? day tb) _)) by lia.
Qed.
End read_back.

(** ** Reading what was printed *)

Lemma print_digits_length fuel : ∀ n acc, (length (print_digits fuel n acc) ≤ fuel + length acc)%nat.
Proof.
  induction fuel as [|fuel IH]; intros n acc; cbn [print_digits]; [lia|]. destruct (n <? 10); cbn [length]; [lia|].
  specialize (IH (n / 10) (digit_char (n mod 10) :: acc)). cbn [length] in IH. lia.
Qed.

Lemma numeral_zeros n ds : numeral 0 (replicate n "0"%char ++ ds) = numeral 0 ds.
Proof. induction n as [|n IH]; [done|]. exact IH. Qed.

Lemma pad_year y :
  1 ≤ y ≤ 292278994 → forallb is_decimal (pad 4 y) = true ∧ (4 ≤ length (pad 4 y) ≤ 40)%nat ∧ numeral 0 (pad 4 y) = y.
Proof.
  intros Hy. unfold pad. destruct (print_num_spec y ltac:(lia)) as (c & ds & E & Hd & Hn).
  assert (length (print_num y) ≤ 36)%nat as Hl.
  { unfold print_num. pose proof (print_digits_length (S (Z.to_nat (Z.log2 y))) y []) as H. cbn [length] in H.
    assert (Z.log2 y < 35) by (apply Z.log2_lt_pow2; lia). lia. }
  rewrite E in *. split_and!.
  - rewrite forallb_app, Hd, andb_true_r. generalize (4 - length (c :: ds))%nat. induction n as [|n IH]; [done|]. exact IH.
  - rewrite length_app, length_replicate. lia.
  - rewrite length_app, length_replicate. lia.
  - by rewrite numeral_zeros.
Qed.

Lemma civil_sec_nonneg tb : civil tb → gmtoff tb = 0 → 0 ≤ civil_sec tb.
Proof.
  intros Hc Hg. pose proof (in_year_range tb Hc) as H. pose proof (year_start_nonneg (year tb - 1) ltac:(pose proof (cv_year tb Hc); lia)).
  unfold in_year in H. unfold civil_sec. rewrite Hg, DAY_eq in *. lia.
Qed.

(** C26: a valid date prints, and [date_t(std::string)] reads the text back as the same date without its milliseconds,
    which the text does not carry. *)
Theorem iso_roundtrip d :
  valid d = true → ∃ s, as_iso_8601_extended d = Ok s ∧ date_of_string s = Ok (d - d mod 1000).
Proof.
  intros Hv. destruct (gmtime_ok d Hv) as (tb & E & Hc & Hg & Ed). pose proof (timegm_valid tb Hc Hg) as Et. rewrite Ed in Et. specialize (Et Hv).
  assert (year tb ≤ 292278994) as Hy. { unfold our_timegm in Et. apply bind_Ok_inv in Et as (? & Et%I_Ok_inv & _). lia. }
  pose proof (civil_bounds tb Hc) as Hb. destruct (pad_year (year tb) ltac:(lia)) as (HY & Hl & Hn). eexists. split.
  { unfold as_iso_8601_extended. rewrite Hv. cbn [I_ mbind result_bind]. rewrite E. cbn [mbind result_bind]. by rewrite printed. }
  unfold date_of_string. rewrite (read_back tb Hc Hy _ HY Hl Hn). set (tb0 := BrokenDownTime _ _ _ _ _ _ _ _).
  assert (civil tb0) as Hc0 by (destruct Hc; by constructor). assert (civil_ms tb0 = d - millisec tb) as E0 by (rewrite <- Ed; unfold civil_ms, civil_sec; rewrite Hg; unfold tb0; cbn; lia).
  assert (d mod 1000 = millisec tb) as ->.
  { rewrite <- Ed. unfold civil_ms. replace (EARLIEST_SUPPORTED_DATE + civil_sec tb * 1000 + millisec tb) with (millisec tb + (civil_sec tb - 62135596800) * 1000)
      by (unfold EARLIEST_SUPPORTED_DATE; lia). rewrite Z.mod_add by lia. apply Z.mod_small. lia. }
  assert (valid_ms_count (civil_ms tb0) = true) as Hv0.
  { rewrite E0. change (valid_ms_count d = true) in Hv. unfold valid_ms_count in *. rewrite !andb_true_iff, !Z.leb_le in *.
    pose proof (civil_sec_nonneg tb0 Hc0 eq_refl). unfold civil_ms in E0. cbn [millisec tb0] in E0. lia. }
  by rewrite (timegm_valid tb0 Hc0 eq_refl Hv0), E0.
Qed.

Lemma iso_roundtrip_witness :
  ∃ s, as_iso_8601_extended 1172774473123 = Ok s ∧ date_of_string s = Ok 1172774473000.
Proof. exact (iso_roundtrip 1172774473123 eq_refl). Defined.

(** ** What the reader lets through *)

(** Four texts that the reader of dates does not turn down: a year above 2^32 is read modulo 2^32; a date east of Greenwich
    just after midnight on 0001-01-01 gives a value that is not a valid date; an offset of more than a day reaches a failing
    invariant instead of an error of the user; and the last year let through, 292278994, overflows the counter. *)
Theorem dates_departures :
  date_of_string (lit "4294969303-03-01T18:41:13") = date_of_string (lit "2007-03-01T18:41:13") ∧
  (∃ d, date_of_string (lit "0001-01-01T00:00:00+01:00") = Ok d ∧ valid d = false) ∧
  date_of_string (lit "2007-03-01T18:41:13+25:00") = Err invariant_failure ∧
  date_of_string (lit "292278994-12-01T00:00:00") = Err UndefinedBehaviour.
Proof. split_and!; [vm_compute; reflexivity| |vm_compute; reflexivity..]. exists (-62135600400000). split; vm_compute; reflexivity. Qed.
