(* ===== verification/DfsIter.v ===== *)
(** * Walking a roster ([dfs_iter] of roster.cc)

    The iterator keeps a stack of directories, each with the children that are
    still to be visited, and the path of the current node, which it edits in
    place.  A pointer into a [dir_map] is the list of the entries from there to
    the end of the map.  On top of it: [roster_t::check_sane],
    [check_sane_against], [extract_path_set], and the comparisons of rosters. *)

From S2P Require Import Prelude Numbers Paths Roster RosterInvariant Marking.

(** ** The iterator *)

Abbreviation frame := (Z * list (list ascii * Z))%type.

Record dfs_iter := DfsIter {
  it_root : option node_id;
  curr_path : bytes;
  return_root : bool;
  track_path : bool;
  stk : list frame
}.

Definition new_dfs_iter (r : roster) (root : option node_id) (t : bool) : result dfs_iter :=
  match root with
  | None => Ok (DfsIter None [] false t [])
  | Some i =>
      n ← get_node r i;
      ch ← downcast_to_dir_t n;
      Ok (DfsIter root [] true t (if decide (ch = ∅) then [] else [(i, map_iter ch)]))
  end.

Definition finished (it : dfs_iter) : bool := negb (return_root it) && bool_decide (stk it = []).

Definition iter_path (it : dfs_iter) : result bytes := I_ (track_path it) ;; Ok (curr_path it).

(** [operator*]: the id of the node *)
Definition iter_get (it : dfs_iter) : result node_id :=
  I_ (negb (finished it)) ;;
  if return_root it then of_option (it_root it)
  else
    match stk it with
    | [] => Err invariant_failure
    | (_, (_, c) :: _) :: _ => Ok c
    | (_, []) :: _ => Err UndefinedBehaviour
    end.

Definition advance_top (track : bool) (f : frame) (path : bytes) : result (frame * bytes) :=
  match f.2 with
  | [] => Err UndefinedBehaviour
  | (k, _) :: rest =>
      if track then
        let tmpsize := len path - len k in
        I_ (0 <=? tmpsize) ;;
        let path := take (Z.to_nat tmpsize) path in
        Ok ((f.1, rest), match rest with (k', _) :: _ => path ++ k' | [] => path end)
      else Ok ((f.1, rest), path)
  end.

(** The loop at the end of [operator++], which leaves the directories that are
    done; [curr_path.resize(curr_path.size()-1)] throws when the path is empty. *)
Fixpoint pop_finished (track : bool) (s : list frame) (top : frame) (path : bytes) : result (list frame * bytes) :=
  match top.2 with
  | _ :: _ => Ok (top :: s, path)
  | [] =>
      match s with
      | [] => Ok ([], path)
      | f :: s =>
          path ← (if track then if decide (path = []) then Err StdException else Ok (take (length path - 1) path) else Ok path);
          '(f, path) ← advance_top track f path;
          pop_finished track s f path
      end
  end.

Definition iter_next (r : roster) (it : dfs_iter) : result dfs_iter :=
  I_ (negb (finished it)) ;;
  if return_root it then
    path ← match stk it with
           | [] => Ok (curr_path it)
           | (_, (k, _) :: _) :: _ => Ok k
           | (_, []) :: _ => Err UndefinedBehaviour
           end;
    Ok (DfsIter (it_root it) path false (track_path it) (stk it))
  else
    match stk it with
    | [] => Err UndefinedBehaviour
    | (d, []) :: _ => Err UndefinedBehaviour
    | (d, (k, c) :: rest) :: s =>
        n ← get_node r c;
        '(top, s, path) ←
          match body n with
          | DirBody ch =>
              let path := curr_path it in
              let path := if track_path it then if decide (path = []) then path else path ++ [slash] else path in
              let path := if track_path it then match map_iter ch with (k, _) :: _ => path ++ k | [] => path end else path in
              Ok ((c, map_iter ch), (d, (k, c) :: rest) :: s, path)
          | FileBody _ =>
              '(f, path) ← advance_top (track_path it) (d, (k, c) :: rest) (curr_path it);
              Ok (f, s, path)
          end;
        '(s, path) ← pop_finished (track_path it) s top path;
        Ok (DfsIter (it_root it) path false (track_path it) s)
    end.

(** [for (dfs_iter i(...); !i.finished(); ++i) body].  A node is a child of one
    directory only, so the loop goes round at most once per node; what is left
    when the fuel is out would not end. *)
Fixpoint dfs_loop {S} (body : S → result bytes → node_id → result S) (fuel : nat) (r : roster) (it : dfs_iter) (st : S) : result S :=
  if finished it then Ok st
  else
    match fuel with
    | O => Err UndefinedBehaviour
    | Datatypes.S fuel =>
        i ← iter_get it;
        st ← body st (iter_path it) i;
        it ← iter_next r it;
        dfs_loop body fuel r it st
    end.

Definition dfs_for {S} (body : S → result bytes → node_id → result S) (r : roster) (track : bool) (st : S) : result S :=
  it ← new_dfs_iter r (root_dir r) track;
  dfs_loop body (Datatypes.S (size (nodes r))) r it st.

(** ** Checks *)

(** Whether an [attr_map_t] has an entry that the check of its values refuses. *)
Definition attrs_ok (a : gmap bytes (bool * bytes)) : bool := forallb (λ p, p.2.1 || bool_decide (p.2.2 = [])) (map_iter a).

Record check_state := CheckState {
  ck_is_first : bool;
  ck_parent_id : node_id;
  ck_parent_dir : option (gmap bytes node_id);
  ck_maxdepth : Z
}.

Definition check_parent (r : roster) (i : node_id) (n : node) (st : check_state) : result check_state :=
  if ck_is_first st then
    I_ (bool_decide (name n = []) && null_node (parent n)) ;;
    Ok (CheckState false (ck_parent_id st) (ck_parent_dir st) (ck_maxdepth st))
  else
    I_ (negb (bool_decide (name n = [])) && negb (null_node (parent n))) ;;
    st ← (if negb (parent n =? ck_parent_id st) then
            p ← get_node r (parent n);
            ch ← downcast_to_dir_t p;
            Ok (CheckState false (parent n) (Some ch) (ck_maxdepth st))
          else Ok st);
    match ck_parent_dir st with
    | None => Err UndefinedBehaviour
    | Some ch => c ← safe_get ch (name n); I_ (c =? i) ;; Ok st
    end.

Definition check_node (r : roster) (temp_nodes_ok : bool) (st : check_state) (_ : result bytes) (i : node_id) : result check_state :=
  n ← get_node r i;
  st ← check_parent r i n st;
  I_ (attrs_ok (attrs n)) ;;
  match body n with FileBody f => I_ (negb (bool_decide (f = []))) | DirBody _ => Ok tt end ;;
  I_ (negb (null_node (self n))) ;;
  I_ (temp_nodes_ok || negb (temp_node (self n))) ;;
  _ ← get_node r (self n);
  I_ (self n =? i) ;;
  I_ (0 <? ck_maxdepth st) ;;
  Ok (CheckState (ck_is_first st) (ck_parent_id st) (ck_parent_dir st) (ck_maxdepth st - 1)).

Definition check_sane (r : roster) (temp_nodes_ok : bool) : result unit :=
  I_ (bool_decide (old_locations r = ∅)) ;;
  I_ (has_root r) ;;
  st ← dfs_for (check_node r temp_nodes_ok) r false (CheckState true the_null_node None (Z.of_nat (size (nodes r))));
  I_ (ck_maxdepth st =? 0).

Fixpoint check_attrs_against (ra : list (bytes * (bool * bytes))) (ma : list (bytes * gset bytes)) : result unit :=
  match ra, ma with
  | (k, _) :: ra, (k', s) :: ma => I_ (bool_decide (k = k')) ;; I_ (negb (bool_decide (s = ∅))) ;; check_attrs_against ra ma
  | ra, ma => I_ (bool_decide (ra = []) && bool_decide (ma = []))
  end.

Definition check_node_against (n : node) (m : marking) : result unit :=
  I_ (negb (bool_decide (birth_revision m = []))) ;;
  I_ (negb (bool_decide (parent_name m = ∅))) ;;
  I_ (if is_file_t n then negb (bool_decide (file_content m = ∅)) else bool_decide (file_content m = ∅)) ;;
  check_attrs_against (map_iter (attrs n)) (map_iter (attr_marks m)).

(** The two maps are walked side by side; their keys are not compared. *)
Fixpoint check_nodes_against (l : list (Z * node)) (ms : list (Z * marking)) : result unit :=
  match l, ms with
  | (_, n) :: l, (_, m) :: ms => check_node_against n m ;; check_nodes_against l ms
  | l, ms => I_ (bool_decide (l = []) && bool_decide (ms = []))
  end.

Definition check_sane_against (r : roster) (mm : marking_map) (temp_nodes_ok : bool) : result unit :=
  check_sane r temp_nodes_ok ;;
  check_nodes_against (map_iter (nodes r)) (map_iter mm).

(** ** Comparisons *)

(** The loop over the two node maps. *)
Fixpoint equal_nodes (contents : bool) (a b : list (Z * node)) : result bool :=
  match a, b with
  | (i, n) :: a, (j, m) :: b =>
      if negb (i =? j) then Ok false
      else e ← shallow_equal n m true contents; if e : bool then equal_nodes contents a b else Ok false
  | a, b => Ok (bool_decide (a = []) && bool_decide (b = []))
  end.

(** The loop over the two trees. *)
Fixpoint equal_trees (contents : bool) (fuel : nat) (a b : roster) (p q : dfs_iter) : result bool :=
  if finished p || finished q then Ok (finished p && finished q)
  else
    match fuel with
    | O => Err UndefinedBehaviour
    | S fuel =>
        i ← iter_get p; j ← iter_get q;
        n ← get_node a i; m ← get_node b j;
        e ← shallow_equal n m true contents;
        if e : bool then p ← iter_next a p; q ← iter_next b q; equal_trees contents fuel a b p q
        else Ok false
    end.

Definition equal_up_to (contents : bool) (a b : roster) : result bool :=
  e ← equal_nodes contents (map_iter (nodes a)) (map_iter (nodes b));
  if e : bool then
    p ← new_dfs_iter a (root_dir a) false;
    q ← new_dfs_iter b (root_dir b) false;
    equal_trees contents (S (size (nodes a))) a b p q
  else Ok false.

(** [roster_t::operator==] and [equal_shapes] *)
Definition roster_equal (a b : roster) : result bool := equal_up_to true a b.
Definition equal_shapes (a b : roster) : result bool := equal_up_to false a b.

(** [roster_t::extract_path_set] *)
Definition extract_path_set (utf8_validate : bytes → bool) (r : roster) : result (gset file_path) :=
  if has_root r then
    dfs_for (λ paths p _, s ← p; pth ← file_path_internal utf8_validate s; Ok (if fp_empty pth then paths else {[pth]} ∪ paths)) r true ∅
  else Ok ∅.
