(* ===== verification/DfsCorrect.v ===== *)
(** * The order in which a roster is walked

    [visits]: a node, then what its children are, in the order of their names.
    The iterator produces exactly that list, with the path of each node. *)

From S2P Require Import Prelude Numbers Paths Roster RosterInvariant Marking DfsIter.

(** ** What is visited *)

Inductive visits (r : roster) : list bytes → Z → list (list bytes * Z) → Prop :=
  | visits_file cs i n f : nodes r !! i = Some n → body n = FileBody f → visits r cs i [(cs, i)]
  | visits_dir cs i n ch out :
      nodes r !! i = Some n → body n = DirBody ch → visits_all r cs (map_iter ch) out → visits r cs i ((cs, i) :: out)
with visits_all (r : roster) : list bytes → list (bytes * Z) → list (list bytes * Z) → Prop :=
  | visits_nil cs : visits_all r cs [] []
  | visits_cons cs k c l o1 o2 :
      visits r (cs ++ [k]) c o1 → visits_all r cs l o2 → visits_all r cs ((k, c) :: l) (o1 ++ o2).

Scheme visits_mut := Induction for visits Sort Prop
  with visits_all_mut := Induction for visits_all Sort Prop.
Combined Scheme visits_both from visits_mut, visits_all_mut.

(** ** Paths as the iterator keeps them *)

(** What stands in front of the names of the children. *)
Definition prefix_of (cs : list bytes) : bytes := match cs with [] => [] | _ => join_slash cs ++ [slash] end.

Lemma join_snoc cs k : join_slash (cs ++ [k]) = prefix_of cs ++ k.
Proof.
  induction cs as [|c cs IH]; [done|]. destruct cs as [|c' cs]; [unfold prefix_of; simpl; by rewrite <- app_assoc|].
  change (join_slash ((c :: c' :: cs) ++ [k])) with (c ++ slash :: join_slash ((c' :: cs) ++ [k])). rewrite IH. unfold prefix_of.
  change (join_slash (c :: c' :: cs)) with (c ++ slash :: join_slash (c' :: cs)). by rewrite <- !app_assoc.
Qed.

Section machine.
Context (r : roster) (t : bool) (q : bytes).

(** The path of an entry [k] of the directory [cs], when paths are tracked. *)
Definition path_at (p : bytes) : bytes := if t then p else q.

Definition here (root : option Z) (cs : list bytes) (d : Z) (l : list (bytes * Z)) (s : list frame) : dfs_iter :=
  DfsIter root (path_at (prefix_of cs ++ match l with (k, _) :: _ => k | [] => [] end)) false t ((d, l) :: s).

(** The iterator behind the entries of a directory, with [l] left. *)
Definition resume (root : option Z) (cs : list bytes) (d : Z) (l : list (bytes * Z)) (s : list frame) : result dfs_iter :=
  '(s, path) ← pop_finished t s (d, l) (path_at (prefix_of cs ++ match l with (k, _) :: _ => k | [] => [] end));
  Ok (DfsIter root path false t s).

Lemma resume_more root cs d k c l s : resume root cs d ((k, c) :: l) s = Ok (here root cs d ((k, c) :: l) s).
Proof. unfold resume. destruct s; reflexivity. Qed.

Lemma advance_here cs d k c l :
  advance_top t (d, (k, c) :: l) (path_at (prefix_of cs ++ k)) =
  Ok ((d, l), path_at (prefix_of cs ++ match l with (k, _) :: _ => k | [] => [] end)).
Proof.
  unfold advance_top, path_at. destruct t; [|done]. cbn [fst snd]. rewrite len_app.
  replace (len (prefix_of cs) + len k - len k) with (len (prefix_of cs)) by lia. rewrite (proj2 (Z.leb_le _ _)) by apply len_nonneg.
  cbn [I_ mbind result_bind]. unfold len. rewrite Nat2Z.id, take_app_length. destruct l as [|[k' c'] l]; [by rewrite app_nil_r|done].
Qed.

Lemma prefix_drop cs k : prefix_of (cs ++ [k]) = (prefix_of cs ++ k) ++ [slash].
Proof. rewrite <- join_snoc. unfold prefix_of. by destruct (cs ++ [k]) eqn:E; [by apply app_eq_nil in E as [_ ?]|]. Qed.

(** A directory that is done: back in the one above, at the next entry. *)
Lemma resume_up root cs d k c l s i :
  resume root (cs ++ [k]) i [] ((d, (k, c) :: l) :: s) = resume root cs d l s.
Proof.
  unfold resume at 1. cbn [pop_finished snd]. rewrite app_nil_r, prefix_drop.
  assert ((if t then if decide (path_at ((prefix_of cs ++ k) ++ [slash]) = []) then Err StdException
            else Ok (take (length (path_at ((prefix_of cs ++ k) ++ [slash])) - 1) (path_at ((prefix_of cs ++ k) ++ [slash])))
           else Ok (path_at ((prefix_of cs ++ k) ++ [slash]))) = Ok (path_at (prefix_of cs ++ k))) as ->.
  { unfold path_at. destruct t; [|done]. rewrite decide_False by (by intros [_ ?]%app_eq_nil). f_equal.
    rewrite length_app. cbn [length]. replace (length (prefix_of cs ++ k) + 1 - 1)%nat with (length (prefix_of cs ++ k)) by lia. apply take_app_length. }
  cbn [mbind result_bind]. rewrite advance_here. cbn [mbind result_bind]. reflexivity.
Qed.

Context (Hwf : rwf r).

Lemma child_names i n ch : nodes r !! i = Some n → body n = DirBody ch → Forall (λ p, p.1 ≠ []) (map_iter ch).
Proof. intros Hi Hb. apply Forall_forall. intros [k c] Hin%elem_of_map_iter. by destruct (wf_child r Hwf _ _ _ _ _ Hi Hb Hin). Qed.

Lemma here_get root cs d k c l s : iter_get (here root cs d ((k, c) :: l) s) = Ok c.
Proof. done. Qed.

Lemma here_path root cs d k c l s :
  iter_path (here root cs d ((k, c) :: l) s) = if t then Ok (join_slash (cs ++ [k])) else Err invariant_failure.
Proof. unfold iter_path, here, path_at. cbn [track_path curr_path]. rewrite join_snoc. by destruct t. Qed.

Lemma next_file root cs d k c l s n f :
  nodes r !! c = Some n → body n = FileBody f → iter_next r (here root cs d ((k, c) :: l) s) = resume root cs d l s.
Proof.
  intros Hc Hb. unfold iter_next, here. cbn [finished return_root stk negb andb bool_decide]. unfold get_node. rewrite Hc. cbn [of_option mbind result_bind]. rewrite Hb.
  cbn [track_path curr_path]. rewrite advance_here. cbn [mbind result_bind]. reflexivity.
Qed.

Lemma next_dir root cs d k c l s n ch :
  nodes r !! c = Some n → body n = DirBody ch → k ≠ [] →
  iter_next r (here root cs d ((k, c) :: l) s) = resume root (cs ++ [k]) c (map_iter ch) ((d, (k, c) :: l) :: s).
Proof.
  intros Hc Hb Hk. unfold iter_next, here. cbn [finished return_root stk negb andb bool_decide]. unfold get_node. rewrite Hc. cbn [of_option mbind result_bind]. rewrite Hb.
  cbn [track_path curr_path mbind result_bind]. unfold resume. rewrite prefix_drop.
  assert ((if t then match map_iter ch with [] => if t then if decide (path_at (prefix_of cs ++ k) = []) then path_at (prefix_of cs ++ k) else path_at (prefix_of cs ++ k) ++ [slash] else path_at (prefix_of cs ++ k)
              | (k', _) :: _ => (if t then if decide (path_at (prefix_of cs ++ k) = []) then path_at (prefix_of cs ++ k) else path_at (prefix_of cs ++ k) ++ [slash] else path_at (prefix_of cs ++ k)) ++ k' end
            else if t then if decide (path_at (prefix_of cs ++ k) = []) then path_at (prefix_of cs ++ k) else path_at (prefix_of cs ++ k) ++ [slash] else path_at (prefix_of cs ++ k)) =
          path_at (((prefix_of cs ++ k) ++ [slash]) ++ match map_iter ch with (k', _) :: _ => k' | [] => [] end)) as ->; [|reflexivity].
  unfold path_at. destruct t; [|done]. rewrite decide_False by (by intros [_ ?]%app_eq_nil). destruct (map_iter ch) as [|[k' c'] l']; [by rewrite app_nil_r|done].
Qed.

(** *** Running the loop *)

Context {S : Type} (body : S → result bytes → Z → result S).

(** The body of the loop, at a node with the names that lead to it. *)
Definition at_node (st : S) (x : list bytes * Z) : result S := body st (if t then Ok (join_slash x.1) else Err invariant_failure) x.2.

Lemma run_both :
  (∀ cs i out, visits r cs i out → ∀ cs' k root d l s m st, cs = cs' ++ [k] → k ≠ [] →
     dfs_loop body (length out + m) r (here root cs' d ((k, i) :: l) s) st =
     st ← foldM at_node out st; it ← resume root cs' d l s; dfs_loop body m r it st) ∧
  (∀ cs l out, visits_all r cs l out → ∀ root i s m st, Forall (λ p, p.1 ≠ []) l →
     (it ← resume root cs i l s; dfs_loop body (length out + m) r it st) =
     st ← foldM at_node out st; it ← resume root cs i [] s; dfs_loop body m r it st).
Proof.
  apply visits_both.
  - intros cs i n f Hi Hb cs' k root d l s m st -> Hk. cbn [length Nat.add dfs_loop foldM]. change (finished _) with false. cbv iota.
    rewrite here_get. cbn [mbind result_bind]. rewrite here_path. change (body st _ i) with (at_node st (cs' ++ [k], i)). destruct (at_node st _) as [st'|]; [|done].
    cbn [mbind result_bind]. by rewrite (next_file _ _ _ _ _ _ _ _ _ Hi Hb).
  - intros cs i n ch out Hi Hb Hv IH cs' k root d l s m st -> Hk. cbn [length Nat.add dfs_loop foldM]. change (finished _) with false. cbv iota.
    rewrite here_get. cbn [mbind result_bind]. rewrite here_path. change (body st _ i) with (at_node st (cs' ++ [k], i)). destruct (at_node st _) as [st'|]; [|done].
    cbn [mbind result_bind]. rewrite (next_dir _ _ _ _ _ _ _ _ _ Hi Hb Hk). rewrite (IH root i _ m st' (child_names _ _ _ Hi Hb)).
    destruct (foldM at_node out st') as [st''|]; [|done]. cbn [mbind result_bind]. by rewrite resume_up.
  - intros cs root i s m st _. done.
  - intros cs k c l o1 o2 Hv IH1 Hvs IH2 root i s m st Hl. inversion Hl as [|? ? Hk Hl']; subst. cbn [fst] in Hk. rewrite resume_more. cbn [mbind result_bind].
    rewrite length_app, <- Nat.add_assoc, (IH1 cs k root i l s _ st eq_refl Hk), foldM_app. destruct (foldM at_node o1 st) as [st'|]; [|done].
    cbn [mbind result_bind]. apply IH2, Hl'.
Qed.
End machine.

(** ** The whole loop *)

Lemma map_iter_empty {V} (m : gmap bytes V) : map_iter m = [] ↔ m = ∅.
Proof.
  split; [|intros ->; done]. intros E. apply map_eq. intros k. rewrite lookup_empty. destruct (m !! k) as [v|] eqn:Hk; [|done].
  apply elem_of_map_iter in Hk. rewrite E in Hk. by apply not_elem_of_nil in Hk.
Qed.

Lemma dfs_for_visits {S} (body : S → result bytes → Z → result S) r t root out st :
  rwf r → root_dir r = Some root → visits r [] root out → (length out ≤ size (nodes r))%nat →
  dfs_for body r t st = foldM (at_node t body) out st.
Proof.
  intros Hwf Hroot Hv Hlen. unfold dfs_for. rewrite Hroot. destruct (wf_root r Hwf _ Hroot) as (n & Hn & Hd & _).
  inversion Hv as [cs i n' f Hi Hb|cs i n' ch out' Hi Hb Hall]; subst; simplify_eq; [unfold is_dir_t in Hd; by rewrite Hb in Hd|].
  unfold new_dfs_iter, get_node, downcast_to_dir_t. rewrite Hn. cbn [of_option mbind result_bind]. rewrite Hb. cbn [mbind result_bind].
  set (q := match map_iter ch with (k, _) :: _ => k | [] => [] end).
  pose proof (proj2 (run_both r t q Hwf body) [] (map_iter ch) out' Hall (Some root) root [] (Datatypes.S (size (nodes r)) - length ((([] : list bytes), root) :: out'))%nat) as Hrun.
  set (m := (Datatypes.S (size (nodes r)) - length ((([] : list bytes), root) :: out'))%nat) in *.
  replace (Datatypes.S (size (nodes r))) with (Datatypes.S (length out' + m)) by (cbn [length] in *; lia).
  cbn [dfs_loop finished return_root negb andb]. unfold iter_get, iter_path. cbn [finished return_root negb andb I_ mbind result_bind it_root of_option track_path curr_path].
  cbn [foldM]. assert ((I_ t ≫= λ _, Ok []) = if t then Ok (join_slash []) else Err invariant_failure) as -> by (by destruct t).
  change (body st _ root) with (at_node t body st ([], root)). destruct (at_node t body st _) as [st'|]; [|done]. cbn [mbind result_bind].
  specialize (Hrun st' (child_names r Hwf _ _ _ Hn Hb)). revert Hrun. unfold iter_next. cbn [finished return_root negb andb I_ mbind result_bind stk].
  assert (∀ m st, (it ← resume t q (Some root) [] root [] []; dfs_loop body m r it st) = Ok st) as Hend by (intros [|m'] st0; reflexivity).
  destruct (decide (ch = ∅)) as [->|Hne].
  - intros _. change (map_iter ∅) with (@nil (bytes * Z)) in Hall. inversion Hall; subst. cbn [mbind result_bind foldM length]. generalize (0 + m)%nat. by intros [].
  - destruct (map_iter ch) as [|[k c] l] eqn:El; [by apply map_iter_empty in El|]. rewrite resume_more. cbn [mbind result_bind it_root track_path].
    intros Hrun. assert (here t q (Some root) [] root ((k, c) :: l) [] = DfsIter (Some root) k false t [(root, (k, c) :: l)]) as <-.
    { unfold here, path_at, q. cbn [prefix_of app]. by destruct t. }
    rewrite Hrun. destruct (foldM (at_node t body) out' st') as [st''|]; [|done]. cbn [mbind result_bind]. apply Hend.
Qed.

(** ** What the list holds *)

Section list_of_visits.
Context (r : roster) (root : Z) (Hwf : rwf r) (Hroot : root_dir r = Some root).

Lemma walk_step cs i n ch k c :
  walk r root cs = Ok i → nodes r !! i = Some n → body n = DirBody ch → ch !! k = Some c → walk r root (cs ++ [k]) = Ok c.
Proof.
  intros Hw Hi Hb Hk. rewrite walk_app, Hw. cbn [mbind result_bind walk]. unfold get_node, downcast_to_dir_t. rewrite Hi. cbn [of_option mbind result_bind].
  rewrite Hb. cbn [mbind result_bind]. by rewrite Hk.
Qed.

(** The names of an entry lead to its node. *)
Lemma visits_sound :
  (∀ cs i out, visits r cs i out → walk r root cs = Ok i → ∀ x, x ∈ out → walk r root x.1 = Ok x.2) ∧
  (∀ cs l out, visits_all r cs l out → (∀ k c, (k, c) ∈ l → walk r root (cs ++ [k]) = Ok c) → ∀ x, x ∈ out → walk r root x.1 = Ok x.2).
Proof.
  apply visits_both.
  - by intros cs i n f Hi Hb Hw x ->%list_elem_of_singleton.
  - intros cs i n ch out Hi Hb Hv IH Hw x [->|Hx]%elem_of_cons; [done|]. apply IH; [|done].
    intros k c Hin%elem_of_map_iter. by eapply walk_step.
  - by intros cs _ x ?%not_elem_of_nil.
  - intros cs k c l o1 o2 Hv IH1 Hvs IH2 Hl x [Hx|Hx]%elem_of_app.
    + apply IH1; [apply Hl; by left|done].
    + apply IH2; [|done]. intros k' c' Hin. apply Hl. by right.
Qed.

Lemma visits_prefix :
  (∀ cs i out, visits r cs i out → ∀ x, x ∈ out → ∃ suf, x.1 = cs ++ suf) ∧
  (∀ cs l out, visits_all r cs l out → ∀ x, x ∈ out → ∃ k suf, k ∈ l.*1 ∧ x.1 = cs ++ k :: suf).
Proof.
  apply visits_both.
  - intros cs i n f Hi Hb x ->%list_elem_of_singleton. exists []. by rewrite app_nil_r.
  - intros cs i n ch out Hi Hb Hv IH x [->|Hx]%elem_of_cons; [exists []; by rewrite app_nil_r|]. destruct (IH x Hx) as (k & suf & _ & ->). by eexists.
  - by intros cs x ?%not_elem_of_nil.
  - intros cs k c l o1 o2 Hv IH1 Hvs IH2 x [Hx|Hx]%elem_of_app.
    + destruct (IH1 x Hx) as (suf & ->). exists k, suf. rewrite <- app_assoc. split; [left|done].
    + destruct (IH2 x Hx) as (k' & suf & Hk & ->). exists k', suf. split; [by right|done].
Qed.

Lemma visits_NoDup :
  (∀ cs i out, visits r cs i out → NoDup out.*1) ∧
  (∀ cs l out, visits_all r cs l out → NoDup l.*1 → NoDup out.*1).
Proof.
  apply visits_both.
  - intros. apply NoDup_singleton.
  - intros cs i n ch out Hi Hb Hv IH. rewrite fmap_cons. apply NoDup_cons. split; [|apply IH, NoDup_fst_map_iter].
    intros (x & Hx & Hin)%list_elem_of_fmap. destruct (proj2 visits_prefix _ _ _ Hv x Hin) as (k & suf & _ & E). cbn [fst] in Hx.
    rewrite E in Hx. apply (f_equal length) in Hx. rewrite length_app in Hx. cbn [length] in Hx. lia.
  - intros. constructor.
  - intros cs k c l o1 o2 Hv IH1 Hvs IH2 [Hk Hl]%NoDup_cons. rewrite fmap_app. apply NoDup_app. split_and!; [done| |by apply IH2].
    intros p (x & -> & Hx)%list_elem_of_fmap (y & E & Hy)%list_elem_of_fmap.
    destruct (proj1 visits_prefix _ _ _ Hv x Hx) as (s1 & E1). destruct (proj2 visits_prefix _ _ _ Hvs y Hy) as (k' & s2 & Hk' & E2).
    rewrite E, E2, <- app_assoc in E1. apply app_inv_head in E1. injection E1 as -> _. done.
Qed.

Lemma walk_inj cs cs' i : walk r root cs = Ok i → walk r root cs' = Ok i → cs = cs'.
Proof.
  intros H H'. pose proof (walk_chain r root Hwf Hroot cs i (max (length cs) (length cs')) H ltac:(lia)) as E.
  pose proof (walk_chain r root Hwf Hroot cs' i (max (length cs) (length cs')) H' ltac:(lia)). congruence.
Qed.

Context (out : list (list bytes * Z)) (Hv : visits r [] root out).

Lemma out_walk x : x ∈ out → walk r root x.1 = Ok x.2.
Proof. by apply (proj1 visits_sound _ _ _ Hv). Qed.

Lemma out_NoDup : NoDup out.*2.
Proof.
  pose proof (proj1 visits_NoDup _ _ _ Hv) as Hnd. pose proof out_walk as Hw. clear Hv.
  induction out as [|x l IH]; [constructor|]. rewrite fmap_cons in *. apply NoDup_cons in Hnd as [Hx Hnd]. apply NoDup_cons.
  split; [|apply IH; [done|intros y Hy; apply Hw; by right]]. intros (y & E & Hy)%list_elem_of_fmap. apply Hx. apply list_elem_of_fmap. exists y. split; [|done].
  apply (walk_inj _ _ x.2); [apply Hw; left|]. rewrite E. apply Hw. by right.
Qed.

Lemma out_nodes i : i ∈ out.*2 → is_Some (nodes r !! i).
Proof. intros (x & -> & Hx)%list_elem_of_fmap. by eapply walk_exists, out_walk. Qed.

Lemma out_sub : list_to_set out.*2 ⊆ dom (nodes r).
Proof. intros i Hi%elem_of_list_to_set. by apply elem_of_dom, out_nodes. Qed.

Lemma out_size : size (list_to_set out.*2 : gset Z) = length out.
Proof. by rewrite size_list_to_set, length_fmap by apply out_NoDup. Qed.

Lemma out_length : (length out ≤ size (nodes r))%nat.
Proof. rewrite <- out_size, <- size_dom. apply subseteq_size, out_sub. Qed.

Lemma visits_complete comps : ∀ cs i o j, visits r cs i o → walk r i comps = Ok j → (cs ++ comps, j) ∈ o.
Proof.
  clear out Hv. induction comps as [|k comps IH]; intros cs i o j Hv Hw.
  - cbn [walk] in Hw. injection Hw as <-. rewrite app_nil_r. inversion Hv; subst; left.
  - cbn [walk] in Hw. inv_ok. unfold get_node, downcast_to_dir_t in *. inv_ok. destruct (body v) as [|ch] eqn:Hb; inv_ok; subst.
    inversion Hv as [? ? n f Hi Hb'|? ? n ch' o' Hi Hb' Hall]; subst; simplify_eq; [congruence|]. right.
    apply elem_of_map_iter in E1. revert E1. assert (ch' = v0) as -> by congruence. clear - Hall IH Hw.
    induction Hall as [|cs k' c' l o1 o2 Hv Hvs IHl]; [by intros ?%not_elem_of_nil|]. intros [E|Hin]%elem_of_cons.
    + injection E as <- <-. apply elem_of_app. left. rewrite (cons_middle k), app_assoc. by eapply IH.
    + apply elem_of_app. right. by apply IHl.
Qed.

Lemma out_complete comps i : walk r root comps = Ok i → (comps, i) ∈ out.
Proof. intros Hw. by apply (visits_complete comps [] root). Qed.

(** A directory is visited before what it contains. *)
Lemma visits_parent_first :
  (∀ cs i o, visits r cs i o → ∀ l1 cs1 k j l2, o = l1 ++ (cs1 ++ [k], j) :: l2 → cs1 ++ [k] ≠ cs → cs1 ∈ l1.*1) ∧
  (∀ cs l o, visits_all r cs l o → ∀ l1 cs1 k j l2, o = l1 ++ (cs1 ++ [k], j) :: l2 → cs1 = cs ∨ cs1 ∈ l1.*1).
Proof.
  clear out Hv. apply visits_both.
  - intros cs i n f Hi Hb l1 cs1 k j l2 E Hne. destruct l1 as [|x l1]; cbn [app] in E; [congruence|]. injection E as _ E. by apply app_cons_not_nil in E.
  - intros cs i n ch out Hi Hb Hv IH l1 cs1 k j l2 E Hne. destruct l1 as [|x l1]; [cbn [app] in E; congruence|]. cbn [app] in E. injection E as <- E.
    rewrite fmap_cons. destruct (IH _ _ _ _ _ E) as [->|Hin]; [left|by right].
  - intros cs l1 cs1 k j l2 E. by destruct l1.
  - intros cs k c l o1 o2 Hv IH1 Hvs IH2 l1 cs1 k' j l2 E.
    destruct (decide (length l1 < length o1)%nat) as [Hlt|Hge].
    + assert (∃ l3, o1 = l1 ++ (cs1 ++ [k'], j) :: l3) as (l3 & E1).
      { exists (drop (S (length l1)) o1). pose proof (f_equal (take (length l1)) E) as Et. rewrite take_app_le, take_app_length in Et by lia.
        pose proof (f_equal (lookup (length l1)) E) as El. rewrite lookup_app_l, list_lookup_middle in El by (done || lia).
        rewrite <- (take_drop_middle o1 (length l1) _ El) at 1. by rewrite Et. }
      destruct (decide (cs1 ++ [k'] = cs ++ [k])) as [Eq|Hne]; [apply app_inj_tail in Eq as [-> _]; by left|]. right. by eapply IH1.
    + assert (∃ l1', l1 = o1 ++ l1' ∧ o2 = l1' ++ (cs1 ++ [k'], j) :: l2) as (l1' & -> & E2).
      { exists (drop (length o1) l1). pose proof (f_equal (take (length o1)) E) as Et. rewrite take_app_length, take_app_le in Et by lia.
        pose proof (f_equal (drop (length o1)) E) as Ed. rewrite drop_app_length, drop_app_le in Ed by lia. split; [|done]. rewrite Et at 1. by rewrite take_drop. }
      destruct (IH2 _ _ _ _ _ E2) as [->|Hin]; [by left|]. right. rewrite fmap_app. apply elem_of_app. by right.
Qed.
End list_of_visits.

(** The walk ends: no path is longer than the roster is large. *)
Lemma visits_exist r root :
  rwf r → root_dir r = Some root → ∃ out, visits r [] root out.
Proof.
  intros Hwf Hroot. enough (∀ d cs i, walk r root cs = Ok i → (size (nodes r) ≤ length cs + d)%nat → ∃ out, visits r cs i out) as H
    by (by apply (H (size (nodes r)) [] root)).
  induction d as [|d IH]; intros cs i Hw Hd; [pose proof (walk_length r root Hwf Hroot _ _ Hw); lia|].
  destruct (walk_exists r root Hwf Hroot _ _ Hw) as [n Hn]. destruct (body n) as [f|ch] eqn:Hb; [eexists; by eapply visits_file|].
  assert (∀ l, (∀ k c, (k, c) ∈ l → ch !! k = Some c) → ∃ out, visits_all r cs l out) as H.
  { induction l as [|[k c] l IHl]; intros Hl; [eexists; constructor|].
    destruct (IH (cs ++ [k]) c) as (o1 & H1); [by eapply walk_step; [done..|apply Hl; left]|rewrite length_app; cbn [length]; lia|].
    destruct IHl as (o2 & H2); [intros; apply Hl; by right|]. eexists. by constructor. }
  destruct (H (map_iter ch)) as (o & Ho); [by intros k c Hin%elem_of_map_iter|]. eexists. by eapply visits_dir.
Qed.
