(* ===== verification/DfsSane.v ===== *)
(** * What the checks of a roster accept

    [dfs_iter] meets exactly the nodes the root leads to, each once;
    [check_sane] accepts a roster exactly when that is every node and the
    values are sane; [operator==] decides equality. *)

From S2P Require Import Prelude Numbers Paths Roster RosterInvariant Marking DfsIter DfsCorrect.

(** C12: a loop over [dfs_iter] ends and is a loop over the nodes the root leads to: each such node exactly once, with the path that
    leads to it, every directory before what it contains. *)
Theorem dfs_iter_exact r root :
  rwf r → root_dir r = Some root →
  ∃ out,
    (∀ S (body : S → result bytes → Z → result S) t st, dfs_for body r t st = foldM (at_node t body) out st) ∧
    NoDup out.*2 ∧
    (∀ cs i, (cs, i) ∈ out ↔ walk r root cs = Ok i) ∧
    (∀ l1 cs k i l2, out = l1 ++ (cs ++ [k], i) :: l2 → cs ∈ l1.*1).
Proof.
  intros Hwf Hroot. destruct (visits_exist r root Hwf Hroot) as (out & Hv). exists out. split_and!.
  - intros S body t st. by eapply dfs_for_visits, out_length.
  - by eapply out_NoDup.
  - intros cs i. split; [apply (out_walk r root out Hv (cs, i))|by eapply out_complete].
  - intros l1 cs k i l2 E. by eapply (proj1 (visits_parent_first r)); [|done|intros [_ ?]%app_eq_nil].
Qed.

(** ** [check_sane] *)

Record sane (r : roster) (temp_nodes_ok : bool) : Prop := {
  sane_old : old_locations r = ∅;
  sane_reach : ∃ root, root_dir r = Some root ∧ ∀ i n, nodes r !! i = Some n → ∃ cs, walk r root cs = Ok i;
  sane_attrs_ok : attrs_sane r;
  sane_content i n f : nodes r !! i = Some n → body n = FileBody f → f ≠ [];
  sane_temp i n : nodes r !! i = Some n → temp_nodes_ok = true ∨ temp_node i = false
}.

Section check.
Context (r : roster) (root : Z) (t : bool) (Hwf : rwf r) (Hroot : root_dir r = Some root).

(** What is checked of a node beyond its place. *)
Definition values_ok (i : Z) : bool :=
  match nodes r !! i with
  | Some n => attrs_ok (attrs n) && match body n with FileBody f => negb (bool_decide (f = [])) | DirBody _ => true end && (t || negb (temp_node i))
  | None => false
  end.

Definition check_inv (first : bool) (d : Z) (st : check_state) : Prop :=
  ck_is_first st = first ∧ ck_maxdepth st = d ∧
  (ck_parent_id st = the_null_node ∨ ∃ p ch, nodes r !! ck_parent_id st = Some p ∧ body p = DirBody ch ∧ ck_parent_dir st = Some ch).

Lemma check_parent_ok st first d cs i n :
  check_inv first d st → (first = true ↔ cs = []) → walk r root cs = Ok i → nodes r !! i = Some n →
  ∃ st', check_parent r i n st = Ok st' ∧ check_inv false d st'.
Proof.
  intros (Ef & Ed & Hp) Hfirst Hw Hn. unfold check_parent. rewrite Ef. destruct first.
  - rewrite (proj1 Hfirst eq_refl) in Hw. injection Hw as <-. destruct (wf_root r Hwf _ Hroot) as (n' & Hn' & _ & Hpar). assert (n' = n) as -> by congruence.
    rewrite bool_decide_eq_true_2 by (by eapply wf_null). rewrite Hpar. cbn. eexists. split; [done|]. split_and!; [done..|]. exact Hp.
  - destruct cs as [|k cs _] using rev_ind; [by destruct Hfirst as [_ H]; specialize (H eq_refl)|]. rewrite walk_app in Hw. inv_ok.
    destruct (walk_child r root Hwf Hroot _ _ _ Hw) as (n' & Hn' & <- & Hname & _). assert (n' = n) as -> by congruence.
    destruct (walk_exists r root Hwf Hroot _ _ E) as [p Hpn]. assert (parent n ≠ the_null_node) as Hnn by (by destruct (wf_self r Hwf _ _ Hpn)).
    rewrite bool_decide_eq_false_2 by (by eapply wf_parent_name). rewrite (proj2 (null_node_false _)) by done. cbn [negb andb I_ mbind result_bind].
    destruct (wf_parent r Hwf _ _ Hn Hnn) as (p' & ch & Hp' & Hb & Hc). assert (p' = p) as -> by congruence.
    destruct (Z.eqb_spec (parent n) (ck_parent_id st)) as [Eq|Hne]; cbn [negb].
    + destruct Hp as [Hp|(p2 & ch' & Hp2 & Hb' & Hd)]; [congruence|]. rewrite <- Eq in Hp2. assert (ch' = ch) as -> by congruence. cbn [mbind result_bind]. rewrite Hd. unfold safe_get. rewrite Hc.
      cbn [of_option mbind result_bind]. rewrite Z.eqb_refl. eexists. split; [done|]. split_and!; [done..|]. right. rewrite <- Eq. eauto.
    + unfold get_node, downcast_to_dir_t. rewrite Hp'. cbn [of_option mbind result_bind]. rewrite Hb. cbn [mbind result_bind ck_parent_dir]. unfold safe_get. rewrite Hc.
      cbn [of_option mbind result_bind]. rewrite Z.eqb_refl. eexists. split; [done|]. split_and!; [done..|]. right. cbn. eauto.
Qed.

Lemma check_node_eq st first d cs i q :
  check_inv first d st → (first = true ↔ cs = []) → walk r root cs = Ok i → 0 < d →
  if values_ok i then ∃ st', check_node r t st q i = Ok st' ∧ check_inv false (d - 1) st' else is_ok (check_node r t st q i) = false.
Proof.
  intros Hst Hfirst Hw Hd. destruct (walk_exists r root Hwf Hroot _ _ Hw) as [n Hn]. destruct (check_parent_ok st first d cs i n Hst Hfirst Hw Hn) as (st' & E & Hf & Hmax & Hp).
  unfold values_ok, check_node, get_node. rewrite Hn. cbn [of_option mbind result_bind]. rewrite E. cbn [mbind result_bind].
  destruct (attrs_ok (attrs n)); [|done]. cbn [I_ mbind result_bind andb]. destruct (wf_self r Hwf _ _ Hn) as [-> Hi].
  assert (match body n with FileBody f => I_ (negb (bool_decide (f = []))) | DirBody _ => Ok () end =
          I_ match body n with FileBody f => negb (bool_decide (f = [])) | DirBody _ => true end) as -> by (by destruct (body n)).
  destruct (match body n with FileBody f => _ | DirBody _ => _ end); [|done]. cbn [I_ mbind result_bind andb].
  rewrite (proj2 (null_node_false i) Hi). cbn [negb I_ mbind result_bind]. destruct (t || negb (temp_node i)); [|done]. cbn [I_ mbind result_bind].
  rewrite Hn. cbn [of_option mbind result_bind]. rewrite Z.eqb_refl. cbn [I_ mbind result_bind]. rewrite Hmax, (proj2 (Z.ltb_lt _ _)) by done. cbn [I_ mbind result_bind].
  eexists. split; [done|]. split_and!; [done..|]. exact Hp.
Qed.

Context (out : list (list bytes * Z)) (Hv : visits r [] root out).

Lemma out_first l1 cs i l2 : out = l1 ++ (cs, i) :: l2 → l1 = [] ↔ cs = [].
Proof.
  intros E. pose proof (proj1 (visits_NoDup r) _ _ _ Hv) as Hnd. inversion Hv as [cs' j n f Hi Hb Ec Ej Eo|cs' j n ch o Hi Hb Hall Ec Ej Eo]; subst cs' j.
  - destruct (wf_root r Hwf _ Hroot) as (n' & Hn' & Hd & _). simplify_eq. unfold is_dir_t in Hd. by rewrite Hb in Hd.
  - rewrite E in Eo, Hnd. destruct l1 as [|x l1]; cbn [app] in Eo; [split; congruence|]. injection Eo as <- _. split; [done|]. intros ->.
    rewrite fmap_app, fmap_cons in Hnd. apply NoDup_cons in Hnd as [Hnin _]. exfalso. apply Hnin. apply elem_of_app. right. by left.
Qed.

Let d0 := Z.of_nat (size (nodes r)).

Lemma check_fold l : ∀ l1 st,
  out = l1 ++ l → check_inv (bool_decide (l1 = [])) (d0 - Z.of_nat (length l1)) st →
  if forallb values_ok l.*2 then ∃ st', foldM (at_node false (check_node r t)) l st = Ok st' ∧ ck_maxdepth st' = d0 - Z.of_nat (length out)
  else is_ok (foldM (at_node false (check_node r t)) l st) = false.
Proof.
  induction l as [|[cs i] l IH]; intros l1 st E Hst.
  - rewrite app_nil_r in E. subst l1. exists st. split; [done|]. apply Hst.
  - rewrite fmap_cons. cbn [snd forallb foldM].
    change (at_node false (check_node r t) st (cs, i)) with (check_node r t st (Err invariant_failure) i).
    pose proof (out_length r root Hwf Hroot out Hv) as Hlen. pose proof (f_equal length E) as El. rewrite length_app in El. cbn [length] in El.
    pose proof (check_node_eq st _ _ cs i (Err invariant_failure) Hst) as Hc.
    assert (bool_decide (l1 = []) = true ↔ cs = []) as Hf by (rewrite bool_decide_eq_true; by eapply out_first).
    assert (walk r root cs = Ok i) as Hw by (apply (out_walk r root out Hv (cs, i)); rewrite E; apply elem_of_app; right; by left).
    specialize (Hc Hf Hw ltac:(lia)). destruct (values_ok i); cbn [andb].
    + destruct Hc as (st' & -> & Hst'). cbn [mbind result_bind]. apply (IH (l1 ++ [(cs, i)])); [by rewrite <- app_assoc|].
      rewrite bool_decide_eq_false_2 by (by intros [_ ?]%app_eq_nil). rewrite length_app. cbn [length].
      by replace (d0 - Z.of_nat (length l1 + 1)) with (d0 - Z.of_nat (length l1) - 1) by lia.
    + by destruct (check_node r t st _ i).
Qed.

Lemma check_sane_eq :
  is_ok (check_sane r t) = bool_decide (old_locations r = ∅) && (forallb values_ok out.*2 && (length out =? size (nodes r))%nat).
Proof.
  unfold check_sane. destruct (bool_decide (old_locations r = ∅)); [|done]. cbn [I_ mbind result_bind andb]. unfold has_root. rewrite Hroot, bool_decide_eq_true_2 by done.
  cbn [I_ mbind result_bind]. rewrite (dfs_for_visits _ r false root out) by (done || by eapply out_length).
  pose proof (check_fold out [] (CheckState true the_null_node None d0) eq_refl) as H.
  assert (check_inv (bool_decide ([] = ([] : list (list bytes * Z)))) (d0 - Z.of_nat (length ([] : list (list bytes * Z)))) (CheckState true the_null_node None d0)) as H0.
  { split_and!; [done|cbn; lia|by left]. }
  specialize (H H0). fold d0. destruct (forallb values_ok out.*2).
  - destruct H as (st' & -> & Hd). cbn [mbind result_bind]. rewrite Hd. destruct (Nat.eqb_spec (length out) (size (nodes r))) as [E|E].
    + rewrite (proj2 (Z.eqb_eq _ _)) by lia. done.
    + rewrite (proj2 (Z.eqb_neq _ _)) by lia. done.
  - by destruct (foldM _ _ _).
Qed.
End check.

Lemma attrs_ok_iff a : attrs_ok a = true ↔ sane_attrs a.
Proof.
  unfold attrs_ok, sane_attrs. rewrite forallb_forall. split.
  - intros H k v Hk. apply elem_of_map_iter, list_elem_of_In in Hk. exact (H _ Hk).
  - intros H [k v] Hin%list_elem_of_In%elem_of_map_iter. exact (H _ _ Hin).
Qed.

Lemma check_sane_sane r t :
  rwf r → is_ok (check_sane r t) = true ↔ sane r t.
Proof.
  intros Hwf. destruct (root_dir r) as [root|] eqn:Hroot.
  2:{ split; [|intros [_ (? & ? & _) _ _ _]; congruence]. unfold check_sane, has_root. rewrite Hroot. by destruct (bool_decide (old_locations r = ∅)). }
  destruct (visits_exist r root Hwf Hroot) as (out & Hv). rewrite (check_sane_eq r root t Hwf Hroot out Hv), !andb_true_iff, bool_decide_eq_true, Nat.eqb_eq, forallb_forall.
  assert (length out = size (nodes r) ↔ ∀ i n, nodes r !! i = Some n → ∃ cs, walk r root cs = Ok i) as Hreach.
  { rewrite <- (out_size r root Hwf Hroot out Hv), <- size_dom. pose proof (out_sub r root Hwf Hroot out Hv) as Hsub. split.
    - intros E i n Hi. assert (i ∈ (list_to_set out.*2 : gset Z)) as Hin.
      { destruct (decide (i ∈ (list_to_set out.*2 : gset Z))) as [|Hn]; [done|exfalso]. assert (list_to_set out.*2 ⊂ dom (nodes r)) as Hlt%subset_size; [|lia].
        split; [done|]. intros H. apply Hn, H. apply elem_of_dom. eauto. }
      apply elem_of_list_to_set, list_elem_of_fmap in Hin as (x & -> & Hx). exists x.1. by eapply out_walk.
    - intros H. apply (f_equal (size (C := gset Z))). apply (anti_symm (⊆)); [done|]. intros i [n Hi]%elem_of_dom. destruct (H i n Hi) as (cs & Hw).
      apply elem_of_list_to_set, list_elem_of_fmap. exists (cs, i). split; [done|]. by eapply out_complete. }
  rewrite Hreach. clear Hreach.
  assert (∀ i n, values_ok r t i = true → nodes r !! i = Some n → sane_attrs (attrs n) ∧ (∀ f, body n = FileBody f → f ≠ []) ∧ (t = true ∨ temp_node i = false)) as Hok.
  { intros i n H Hi. unfold values_ok in H. rewrite Hi, !andb_true_iff, attrs_ok_iff, orb_true_iff, negb_true_iff in H. destruct H as ((Ha & Hf) & Ht).
    split_and!; [done| |done]. intros f Hb. rewrite Hb in Hf. apply negb_true_iff, bool_decide_eq_false in Hf. done. }
  split.
  - intros (Hold & Hall & Hr). assert (∀ i n, nodes r !! i = Some n → values_ok r t i = true) as Hn.
    { intros i n Hi. apply Hall, list_elem_of_In, list_elem_of_fmap. destruct (Hr i n Hi) as (cs & Hw). exists (cs, i). split; [done|]. by eapply out_complete. }
    constructor; [done|eauto|..].
    + apply attrs_sane_iff. intros i n Hi. by apply (Hok i n); [eapply Hn|].
    + intros i n f Hi Hb. by eapply (Hok i n); [eapply Hn| |].
    + intros i n Hi. by eapply (Hok i n); [eapply Hn|].
  - intros [Hold (root' & Hr' & Hr) Ha Hf Ht]. assert (root' = root) as -> by congruence. split_and!; [done| |done]. intros i Hin%list_elem_of_In.
    destruct (out_nodes r root Hwf Hroot out Hv i Hin) as [n Hn]. unfold values_ok. rewrite Hn, !andb_true_iff, attrs_ok_iff, orb_true_iff, negb_true_iff.
    split_and!; [by eapply attrs_sane_iff| |by eapply Ht]. destruct (body n) as [f|] eqn:Hb; [|done]. apply negb_true_iff, bool_decide_eq_false. by eapply Hf.
Qed.

(** C13: on a well-formed roster [check_sane] accepts exactly the rosters in which no edit is pending, the root leads to every node,
    no dead attribute has a value, no file lacks its content and, unless they are allowed, no node id is a temporary one. *)
Theorem check_sane_iff r t :
  rwf r → is_ok (check_sane r t) = true ↔ sane r t.
Proof. apply check_sane_sane. Qed.

(** ** [roster_t::operator==] *)

Lemma equal_nodes_eq l : ∀ l', (∀ i n, (i, n) ∈ l → self n = i) → equal_nodes true l l' = Ok (bool_decide (l = l')).
Proof.
  induction l as [|[i n] l IH]; intros [|[j m] l'] Hl; cbn [equal_nodes]; try done.
  destruct (Z.eqb_spec i j) as [->|Hne]; cbn [negb]; [|by rewrite bool_decide_eq_false_2 by congruence].
  rewrite shallow_equal_full. cbn [mbind result_bind]. destruct (decide (n = m)) as [->|Hnm].
  - rewrite bool_decide_eq_true_2, IH by (done || (intros; apply Hl; by right)). f_equal. apply bool_decide_ext. naive_solver.
  - rewrite (bool_decide_eq_false_2 (n = m)), bool_decide_eq_false_2 by (done || congruence). done.
Qed.

Lemma nodes_iter_inj (m m' : gmap Z node) : map_iter m = map_iter m' → m = m'.
Proof. intros E. by rewrite <- (list_to_map_iter m), E, list_to_map_iter. Qed.

Section same_nodes.
Context (a b : roster) (E : nodes a = nodes b).

Lemma iter_next_same it : iter_next b it = iter_next a it.
Proof. unfold iter_next, get_node. by rewrite E. Qed.

Lemma new_iter_same root t : new_dfs_iter b root t = new_dfs_iter a root t.
Proof. unfold new_dfs_iter, get_node. by rewrite E. Qed.

(** Two walks in step over the same nodes are one walk. *)
Lemma equal_trees_same fuel : ∀ p,
  equal_trees true fuel a b p p =
  _ ← dfs_loop (λ _ _ i, _ ← get_node a i; Ok tt) fuel a p tt; Ok true.
Proof.
  induction fuel as [|fuel IH]; intros p; cbn [equal_trees dfs_loop]; [by destruct (finished p)|]. destruct (finished p); [done|]. cbn [orb].
  destruct (iter_get p) as [i|]; [|done]. cbn [mbind result_bind]. unfold get_node. rewrite <- E. destruct (nodes a !! i) as [n|]; [|done].
  cbn [of_option mbind result_bind]. rewrite shallow_equal_full, bool_decide_eq_true_2 by done. cbn [mbind result_bind]. rewrite iter_next_same.
  destruct (iter_next a p); [|done]. cbn [mbind result_bind]. apply IH.
Qed.
End same_nodes.

(** [roster_t::operator==] returns for every two well-formed rosters, and decides whether they have the same nodes (with their
    places, attributes and contents) and the same root. *)
Theorem roster_equal_iff a b :
  rwf a → rwf b → roster_equal a b = Ok (bool_decide (root_dir a = root_dir b ∧ nodes a = nodes b)).
Proof.
  intros Ha Hb. unfold roster_equal, equal_up_to. rewrite equal_nodes_eq by (intros i n Hin%elem_of_map_iter; by destruct (wf_self a Ha _ _ Hin)).
  cbn [mbind result_bind]. destruct (decide (nodes a = nodes b)) as [E|Hne].
  2:{ rewrite (bool_decide_eq_false_2 (map_iter _ = _)), bool_decide_eq_false_2 by (naive_solver || by intros ?%nodes_iter_inj). done. }
  rewrite (bool_decide_eq_true_2 (map_iter _ = _)) by (by rewrite E). rewrite (new_iter_same a b E).
  assert (∀ r root, rwf r → root_dir r = Some root → nodes r = nodes a → ∃ st, new_dfs_iter a (Some root) false = Ok (DfsIter (Some root) [] true false st)) as Hnew.
  { intros r root Hr Hroot En. destruct (wf_root r Hr _ Hroot) as (n & Hn & Hd & _). rewrite En in Hn. unfold new_dfs_iter, get_node, downcast_to_dir_t. rewrite Hn.
    cbn [of_option mbind result_bind]. unfold is_dir_t in Hd. destruct (body n); [done|]. cbn [mbind result_bind]. eauto. }
  destruct (root_dir a) as [i|] eqn:Hi, (root_dir b) as [j|] eqn:Hj.
  - destruct (decide (i = j)) as [<-|Hij].
    + rewrite (bool_decide_eq_true_2 (_ ∧ _)) by done. destruct (visits_exist a i Ha Hi) as (out & Hv).
      pose proof (dfs_for_visits (λ _ _ i, _ ← get_node a i; Ok tt) a false i out tt Ha Hi Hv (out_length a i Ha Hi out Hv)) as Hrun.
      unfold dfs_for in Hrun. rewrite Hi in Hrun. destruct (new_dfs_iter a (Some i) false) as [p|e] eqn:Hp; [|by destruct (Hnew a i Ha Hi eq_refl) as (st & ?); congruence].
      cbn [mbind result_bind] in *. rewrite (equal_trees_same a b E), Hrun.
      assert (∀ l, (∀ x, x ∈ l → is_Some (nodes a !! x.2)) → foldM (at_node false (λ (_ : unit) _ i, _ ← get_node a i; Ok tt)) l tt = Ok tt) as ->; [|done|].
      { unfold at_node, get_node. induction l as [|x l IH]; intros Hl; [done|]. cbn [foldM]. destruct (Hl x ltac:(left)) as [n ->]. apply IH. intros y Hy. apply Hl. by right. }
      intros x Hx. eapply out_nodes; [done..|]. apply list_elem_of_fmap. eauto.
    + rewrite (bool_decide_eq_false_2 (_ ∧ _)) by (intros [? _]; congruence). destruct (Hnew a i Ha Hi eq_refl) as (s1 & ->). destruct (Hnew b j Hb Hj (eq_sym E)) as (s2 & ->).
      cbn [mbind result_bind equal_trees finished return_root negb andb orb]. unfold iter_get. cbn [finished return_root negb andb I_ mbind result_bind it_root of_option].
      destruct (wf_root a Ha _ Hi) as (n & Hn & _). destruct (wf_root b Hb _ Hj) as (m & Hm & _). unfold get_node. rewrite Hn, Hm. cbn [of_option mbind result_bind].
      rewrite shallow_equal_full, bool_decide_eq_false_2; [done|]. intros ->. destruct (wf_self a Ha _ _ Hn), (wf_self b Hb _ _ Hm). congruence.
  - rewrite (bool_decide_eq_false_2 (_ ∧ _)) by (intros [? _]; congruence). destruct (Hnew a i Ha Hi eq_refl) as (s1 & ->). done.
  - rewrite (bool_decide_eq_false_2 (_ ∧ _)) by (intros [? _]; congruence). destruct (Hnew b j Hb Hj (eq_sym E)) as (s1 & ->). done.
  - by rewrite (bool_decide_eq_true_2 (_ ∧ _)) by done.
Qed.

(** ** Examples *)

Lemma ex_b5_complete : complete ex_b5.
Proof. apply complete_b_sound. vm_compute. reflexivity. Qed.

Lemma dfs_iter_exact_witness :
  ∃ out,
    (∀ S (body : S → result bytes → Z → result S) t st, dfs_for body ex_b5 t st = foldM (at_node t body) out st) ∧
    NoDup out.*2 ∧ (∀ cs i, (cs, i) ∈ out ↔ walk ex_b5 1 cs = Ok i) ∧ (∀ l1 cs k i l2, out = l1 ++ (cs ++ [k], i) :: l2 → cs ∈ l1.*1).
Proof. apply dfs_iter_exact; [apply complete_wf, ex_b5_complete|reflexivity]. Defined.

Lemma check_sane_iff_witness : is_ok (check_sane ex_b5 false) = true ↔ sane ex_b5 false.
Proof. apply check_sane_iff, complete_wf, ex_b5_complete. Defined.

Lemma roster_equal_iff_witness : roster_equal ex_b5 ex_b5 = Ok (bool_decide (root_dir ex_b5 = root_dir ex_b5 ∧ nodes ex_b5 = nodes ex_b5)).
Proof. apply roster_equal_iff; apply complete_wf, ex_b5_complete. Defined.

Example dfs_order :
  dfs_for (λ st p i, s ← p; Ok (st ++ [(s, i)])) ex_b5 true [] = Ok [([], 1); (lit "a", 2)] ∧
  is_ok (check_sane ex_b5 false) = true ∧ roster_equal ex_b5 ex_b4 = Ok false.
Proof. vm_compute. done. Qed.
