(* ===== verification/RosterIo.v ===== *)
(** * Rosters as text (the I/O routines of roster.cc)

    [print_to] writes a roster with its markings, or the manifest that a
    revision names, by hand; [parse_from] reads it with the parser of
    basic_io. *)

From S2P Require Import Prelude Numbers Paths Hex BasicIo Roster Marking DfsIter.

Module rsyms.
Definition format_version := lit "format_version".
Definition dir := lit "dir".
Definition file := lit "file".
Definition content := lit "content".
Definition attr := lit "attr".
Definition content_mark := lit "content_mark".
Definition birth := lit "birth".
Definition dormant_attr := lit "dormant_attr".
Definition ident := lit "ident".
Definition path_mark := lit "path_mark".
Definition attr_mark := lit "attr_mark".
End rsyms.

(** ** Printing *)

(** [s.find(c, pos)] *)
Definition find_char (c : ascii) (s : bytes) (pos : nat) : option nat :=
  p ← list_find (λ x, x = c) (drop pos s); Some (pos + p.1)%nat.

(** The loop of [append_with_escaped_quotes]: [mark] is what is still to be
    copied, [cursor] the next quote. *)
Fixpoint append_loop (fuel : nat) (collection item : bytes) (mark : nat) (cursor : option nat) : bytes :=
  match fuel, cursor with
  | S fuel, Some cur =>
      let collection := collection ++ take (cur - mark) (drop mark item) ++ [backslash_char] in
      append_loop fuel collection item cur (if (cur =? length item)%nat then None else find_char quote_char item (cur + 1))
  | _, _ => collection ++ drop mark item
  end.

Definition append_with_escaped_quotes (collection item : bytes) : bytes :=
  append_loop (S (length item)) collection item 0 (find_char quote_char item 0).

Definition quoted (item : bytes) : bytes := quote_char :: append_with_escaped_quotes [] item ++ [quote_char].
Definition bracketed (i : bytes) : bytes := "["%char :: hex_encode i ++ ["]"%char].

(** A line of the text: the symbol, right-aligned to [symbol_length], and what follows it. *)
Definition line (symbol_length : nat) (k v : bytes) : bytes := print_entry symbol_length (k, v).

Definition push_marking (is_file : bool) (mark : marking) (symbol_length : nat) : result bytes :=
  I_ (negb (bool_decide (birth_revision mark = []))) ;;
  I_ (is_file || bool_decide (file_content mark = ∅)) ;;
  Ok (line symbol_length rsyms.birth (bracketed (birth_revision mark)) ++
      flat_map (λ i, line symbol_length rsyms.path_mark (bracketed i)) (set_iter (parent_name mark)) ++
      (if is_file then flat_map (λ i, line (length rsyms.content_mark) rsyms.content_mark (bracketed i)) (set_iter (file_content mark)) else []) ++
      flat_map (λ a : bytes * gset bytes,
          flat_map (λ j, line symbol_length rsyms.attr_mark (quoted a.1 ++ [" "%char] ++ bracketed j)) (set_iter a.2))
        (map_iter (attr_marks mark))).

Definition symbol_length (n : node) (print_local_parts : bool) : nat :=
  match body n with
  | DirBody _ =>
      if print_local_parts then if existsb (λ a, negb a.2.1) (map_iter (attrs n)) then 12 else 9
      else if existsb (λ a, a.2.1) (map_iter (attrs n)) then 4 else 3
  | FileBody _ => if print_local_parts then 12 else 7
  end%nat.

Definition print_live (sl : nat) (a : bytes * (bool * bytes)) : bytes :=
  if a.2.1 then line sl rsyms.attr (quoted a.1 ++ [" "%char] ++ quoted a.2.2) else [].

Definition print_dormant (a : bytes * (bool * bytes)) : result bytes :=
  if a.2.1 then Ok []
  else I_ (bool_decide (a.2.2 = [])) ;; Ok (line (length rsyms.dormant_attr) rsyms.dormant_attr (quoted a.1)).

(** The body of the loop of [print_to]. *)
Definition print_node (mm : marking_map) (print_local_parts : bool) (n : node) (path : bytes) : result bytes :=
  let sl := symbol_length n print_local_parts in
  let head :=
    match body n with
    | DirBody _ => line sl rsyms.dir (quoted path)
    | FileBody content => line sl rsyms.file (quoted path) ++ line sl rsyms.content (bracketed content)
    end in
  ident ← (if print_local_parts then I_ (negb (null_node (self n))) ;; Ok (line sl rsyms.ident (quote_char :: print_num (self n) ++ [quote_char])) else Ok []);
  let live := flat_map (print_live sl) (map_iter (attrs n)) in
  local ← (if print_local_parts then
             dormant ← foldM (λ s a, t ← print_dormant a; Ok (s ++ t)) (map_iter (attrs n)) [];
             m ← get_marking mm (self n);
             marks ← push_marking (is_file_t n) m sl;
             Ok (dormant ++ marks)
           else Ok []);
  Ok (head ++ ident ++ live ++ local).

Definition format_line : bytes := rsyms.format_version ++ [" "%char] ++ (quote_char :: lit "1" ++ [quote_char]) ++ [newline].

Definition print_one (r : roster) (mm : marking_map) (print_local_parts : bool) (contents : bytes) (p : result bytes) (i : node_id) : result bytes :=
  n ← get_node r i; path ← p; s ← print_node mm print_local_parts n path; Ok (contents ++ newline :: s).

Definition print_to (r : roster) (mm : marking_map) (print_local_parts : bool) : result bytes :=
  I_ (has_root r) ;;
  dfs_for (print_one r mm print_local_parts) r true format_line.

Definition write_roster (r : roster) (mm : marking_map) (print_local_parts do_sanity_check : bool) : result bytes :=
  (if do_sanity_check then if print_local_parts then check_sane_against r mm false else check_sane r true else Ok tt) ;;
  print_to r mm print_local_parts.

Definition write_roster_and_marking (r : roster) (mm : marking_map) : result bytes := write_roster r mm true true.

Definition write_manifest_of_roster (r : roster) (do_sanity_check : bool) : result bytes := write_roster r ∅ false do_sanity_check.

(** ** Parsing *)

Section parse.
Context (utf8_validate : bytes → bool) (mf : origin_type).

Definition parse_id (p : parser) : result (bytes * parser) :=
  '(rev, p) ← hex mf p; i ← decode_hexenc_as_id mf rev; Ok (i, p).

(** One round of the loop of [parse_marking]; [None]: the [break]. *)
Definition parse_mark (m : marking) (p : parser) : result (option (marking * parser)) :=
  if symp rsyms.birth p then
    '(_, p) ← sym mf p; '(i, p) ← parse_id p;
    Ok (Some (Marking i (parent_name m) (file_content m) (attr_marks m), p))
  else if symp rsyms.path_mark p then
    '(_, p) ← sym mf p; '(i, p) ← parse_id p;
    s ← safe_insert_set (parent_name m) i;
    Ok (Some (Marking (birth_revision m) s (file_content m) (attr_marks m), p))
  else if symp rsyms.content_mark p then
    '(_, p) ← sym mf p; '(i, p) ← parse_id p;
    s ← safe_insert_set (file_content m) i;
    Ok (Some (Marking (birth_revision m) (parent_name m) s (attr_marks m), p))
  else if symp rsyms.attr_mark p then
    '(_, p) ← sym mf p; '(k, p) ← str mf p; '(i, p) ← parse_id p;
    s ← safe_insert_set (default ∅ (attr_marks m !! k)) i;
    Ok (Some (Marking (birth_revision m) (parent_name m) (file_content m) (<[k := s]> (attr_marks m)), p))
  else Ok None.

Fixpoint parse_marking (fuel : nat) (m : marking) (p : parser) : result (marking * parser) :=
  if symp_any p then
    match fuel with
    | O => Err UndefinedBehaviour
    | S fuel =>
        o ← parse_mark m p;
        match o with
        | Some (m, p) => parse_marking fuel m p
        | None => Ok (m, p)
        end
    end
  else Ok (m, p).

(** [read_num]: a [size_t] that becomes a [node_id]. *)
Definition read_num (s : bytes) : result Z :=
  foldM (λ n c, I_ (is_decimal c) ;; Ok (u64 (n * 10 + digit_val c))) s 0.

Definition parse_attr (a : gmap bytes (bool * bytes)) (p : parser) : result (gmap bytes (bool * bytes) * parser) :=
  '(_, p) ← sym mf p; '(k, p) ← str mf p; '(v, p) ← str mf p;
  a ← safe_insert a k (true, v); Ok (a, p).

Definition parse_dormant (a : gmap bytes (bool * bytes)) (p : parser) : result (gmap bytes (bool * bytes) * parser) :=
  '(_, p) ← sym mf p; '(k, p) ← str mf p;
  a ← safe_insert a k (false, []); Ok (a, p).

(** The head of a stanza: the path and the new node; [None]: the [break]. *)
Definition parse_head (p : parser) : result (option (bytes * node * parser)) :=
  if symp rsyms.file p then
    '(_, p) ← sym mf p; '(pth, p) ← str mf p;
    p ← esym mf rsyms.content p; '(content, p) ← hex mf p;
    p ← esym mf rsyms.ident p; '(ident, p) ← str mf p;
    i ← read_num ident; f ← decode_hexenc_as_id mf content;
    Ok (Some (pth, Node (u32 i) the_null_node [] ∅ (FileBody f), p))
  else if symp rsyms.dir p then
    '(_, p) ← sym mf p; '(pth, p) ← str mf p;
    p ← esym mf rsyms.ident p; '(ident, p) ← str mf p;
    i ← read_num ident;
    Ok (Some (pth, Node (u32 i) the_null_node [] ∅ (DirBody ∅), p))
  else Ok None.

(** Where the new node goes. *)
Definition place_node (r : roster) (n : node) (pth : bytes) : result roster :=
  I_ (bool_decide (nodes r !! self n = None)) ;;
  let r := set_nodes r (<[self n := n]> (nodes r)) in
  if is_dir_t n && bool_decide (pth = []) then
    I_ (negb (has_root r)) ;; Ok (set_root r (Some (self n)))
  else
    I_ (negb (bool_decide (pth = []))) ;;
    fp ← file_path_internal utf8_validate pth;
    attach_node r (self n) fp.

Definition parse_rest (r : roster) (mm : marking_map) (i : node_id) (p : parser) : result (roster * marking_map * parser) :=
  n ← get_node r i;
  '(a, p) ← while_sym_all rsyms.attr parse_attr (attrs n) p;
  '(a, p) ← while_sym_all rsyms.dormant_attr parse_dormant a p;
  let r := set_nodes r (alter (with_attrs a) i (nodes r)) in
  '(m, p) ← parse_marking (S (length (src p))) empty_marking p;
  mm ← put_marking mm i m;
  Ok (r, mm, p).

Fixpoint parse_nodes (fuel : nat) (r : roster) (mm : marking_map) (p : parser) : result (roster * marking_map * parser) :=
  if symp_any p then
    match fuel with
    | O => Err UndefinedBehaviour
    | S fuel =>
        o ← parse_head p;
        match o with
        | None => Ok (r, mm, p)
        | Some (pth, n, p) =>
            r ← place_node r n pth;
            '(r, mm, p) ← parse_rest r mm (self n) p;
            parse_nodes fuel r mm p
        end
    end
  else Ok (r, mm, p).

Definition parse_from (p : parser) : result (roster * marking_map * parser) :=
  p ← esym mf rsyms.format_version p;
  '(vers, p) ← str mf p;
  I_ (bool_decide (vers = lit "1")) ;;
  parse_nodes (S (length (src p))) empty_roster ∅ p.
End parse.

Definition read_roster_and_marking (utf8_validate : bytes → bool) (dat : bytes) : result (roster * marking_map) :=
  p ← new_parser internal dat;
  '(r, mm, p) ← parse_from utf8_validate internal p;
  I_ (peek (src p) =? EOF) ;;
  check_sane_against r mm false ;;
  Ok (r, mm).

(** ** An example *)

Definition ex_id (c : ascii) : bytes := repeat c 20.

(** The root, a directory [d] with a dead attribute, and in it a file with an attribute of the value [v]. *)
Definition ex_roster (v : bytes) : roster :=
  Roster (Some 1)
    (<[1 := Node 1 0 [] ∅ (DirBody {[lit "d" := 2]})]>
     (<[2 := Node 2 1 (lit "d") {[lit "k" := (false, [])]} (DirBody {[lit "f" := 3]})]>
      {[3 := Node 3 2 (lit "f") {[lit "a" := (true, v)]} (FileBody (ex_id "c"))]})) ∅.

Definition ex_file_marking : marking := let x := ex_id "x" in Marking x {[x]} {[x]} {[lit "a" := {[x]}]}.

Definition ex_markings : marking_map :=
  let x := ex_id "x" in
  <[1 := Marking x {[x]} ∅ ∅]> (<[2 := Marking x {[x]} ∅ {[lit "k" := {[x]}]}]> {[3 := ex_file_marking]}).

Definition reread (v : bytes) : result (roster * marking_map) :=
  dat ← write_roster_and_marking (ex_roster v) ex_markings; read_roster_and_marking (λ _, true) dat.

Example rosters_reread :
  reread (lit "v") = Ok (ex_roster (lit "v"), ex_markings) ∧ reread [quote_char] = Ok (ex_roster [quote_char], ex_markings).
Proof. vm_compute. done. Qed.

(** [append_with_escaped_quotes] does not escape backslashes, which the tokenizer takes for escapes.  A sane roster in which an
    attribute is a backslash is written, and reading the text fails an internal error; one in which it is two backslashes is read
    back with one. *)
Example backslash_attrs_lost :
  is_ok (write_roster_and_marking (ex_roster [backslash_char]) ex_markings) = true ∧
  reread [backslash_char] = Err invariant_failure ∧
  reread [backslash_char; backslash_char] = Ok (ex_roster [backslash_char], ex_markings) ∧
  ex_roster [backslash_char; backslash_char] ≠ ex_roster [backslash_char].
Proof. split_and!; [vm_compute; reflexivity..|]. apply (bool_decide_unpack _). vm_compute. exact I. Qed.

(** [check_sane_against] walks the nodes and the markings side by side without comparing their ids: markings of another
    node are accepted in the place of those of the file, and writing the roster then fails an assertion. *)
Theorem check_against_ignores_ids :
  let mm := <[4 := ex_file_marking]> (delete 3 ex_markings) in
  check_sane_against (ex_roster (lit "v")) mm false = Ok tt ∧ mm !! 3 = None ∧
  write_roster_and_marking (ex_roster (lit "v")) mm = Err invariant_failure.
Proof. split_and!; vm_compute; reflexivity. Qed.
