(* ===== verification/RosterText.v ===== *)
(** * The tokens of a written roster

    What [print_to] writes lexes to the tokens that [parse_from] expects, when
    no quoted text has a backslash. *)

From S2P Require Import Prelude Numbers Paths Hex BasicIo Roster RosterInvariant Marking Cset CsetIo DfsIter DfsCorrect RosterIo.

(** ** Quoting *)

Definition esc_quotes (s : bytes) : bytes := flat_map (λ c, if decide (c = quote_char) then [backslash_char; c] else [c]) s.

Lemma esc_quotes_app a b : esc_quotes (a ++ b) = esc_quotes a ++ esc_quotes b.
Proof. apply flat_map_app. Qed.

Lemma esc_quotes_id a : quote_char ∉ a → esc_quotes a = a.
Proof.
  induction a as [|c a IH]; [done|]. intros [Hc Ha]%not_elem_of_cons. unfold esc_quotes. cbn [flat_map]. rewrite decide_False by congruence.
  cbn [app]. f_equal. by apply IH.
Qed.

Lemma find_char_spec c s pos :
  match find_char c s pos with
  | None => c ∉ drop pos s
  | Some cur => ∃ a b, drop pos s = a ++ c :: b ∧ c ∉ a ∧ cur = (pos + length a)%nat
  end.
Proof.
  unfold find_char. destruct (list_find _ (drop pos s)) as [[i x]|] eqn:E; cbn.
  - apply list_find_Some in E as (Hi & -> & Hlt). exists (take i (drop pos s)), (drop (S i) (drop pos s)). rewrite take_drop_middle by done.
    split_and!; [done| |].
    + intros (j & Hj)%list_elem_of_lookup. apply lookup_take_Some in Hj as [Hj Hji]. by apply (Hlt j c).
    + rewrite length_take. apply lookup_lt_Some in Hi. lia.
  - apply list_find_None in E. rewrite Forall_forall in E. intros Hin. by apply (E c).
Qed.

(** The loop, from a position up to which quotes have been dealt with. *)
Lemma append_loop_eq fuel : ∀ coll item mark n,
  (length item < mark + n + fuel)%nat → (mark + n ≤ length item)%nat →
  append_loop fuel coll item mark (find_char quote_char item (mark + n)) =
  coll ++ take n (drop mark item) ++ esc_quotes (drop (mark + n) item).
Proof.
  induction fuel as [|fuel IH]; intros coll item mark n Hf Hn; [lia|].
  assert (drop mark item = take n (drop mark item) ++ drop (mark + n) item) as Ed by (by rewrite <- drop_drop, take_drop).
  cbn [append_loop]. pose proof (find_char_spec quote_char item (mark + n)) as Hspec. destruct (find_char quote_char item (mark + n)) as [cur|].
  - destruct Hspec as (a & b & E & Ha & ->). assert (length (drop (mark + n) item) = S (length a + length b)) as El by (rewrite E, length_app; simpl; lia).
    rewrite length_drop in El. rewrite (proj2 (Nat.eqb_neq _ _)) by lia. rewrite IH by lia.
    assert (drop (mark + n + length a) item = quote_char :: b) as Ec.
    { replace (mark + n + length a)%nat with ((mark + n) + length a)%nat by lia. rewrite <- drop_drop, E. by rewrite drop_app_length. }
    assert (drop (mark + n + length a + 1) item = b) as -> by (rewrite <- drop_drop, Ec; done). rewrite Ec. cbn [take].
    replace (mark + n + length a - mark)%nat with (n + length a)%nat by lia. rewrite Ed at 1. rewrite E, esc_quotes_app.
    assert (length (take n (drop mark item)) = n) as Hlen by (rewrite length_take, length_drop; lia).
    rewrite take_app_ge by lia. rewrite Hlen. replace (n + length a - n)%nat with (length a) by lia. rewrite take_app_length, (esc_quotes_id a Ha).
    unfold esc_quotes at 2. cbn [flat_map]. rewrite decide_True by done. fold (esc_quotes b). rewrite <- !app_assoc. done.
  - rewrite esc_quotes_id by done. by rewrite <- Ed.
Qed.

Lemma append_with_escaped_quotes_eq coll item : append_with_escaped_quotes coll item = coll ++ esc_quotes item.
Proof. unfold append_with_escaped_quotes. rewrite (append_loop_eq _ coll item 0 0) by lia. done. Qed.

(** Texts that the quoting of rosters and the tokenizer agree on. *)
Definition no_backslash (s : bytes) : Prop := backslash_char ∉ s.

Lemma quoted_escape s : no_backslash s → quoted s = escape s.
Proof.
  intros Hs. unfold quoted, escape. rewrite append_with_escaped_quotes_eq. cbn [app]. f_equal. f_equal. induction s as [|c s IH]; [done|].
  apply not_elem_of_cons in Hs as [Hc Hs]. cbn [flat_map]. unfold esc_quotes. cbn [flat_map]. f_equal; [|by apply IH]. unfold needs_escape.
  destruct (decide (c = quote_char)) as [->|Hq]; [done|].
  rewrite (proj2 (orb_false_iff _ _)); [done|]. split; apply Z.eqb_neq; intros E.
  - apply Hc. apply byte_val_inj. rewrite E. done.
  - apply Hq. apply byte_val_inj. rewrite E. done.
Qed.

(** ** Which texts are read back *)

Section reading.
Context (made_from : origin_type).

(** One step of the loop, in terms of characters. *)
Lemma scan_slow_cons c s acc :
  scan_slow made_from (c :: s) acc =
    if decide (c = quote_char) then Ok (acc, s)
    else if decide (c = backslash_char) then
      match s with
      | e :: s' => if decide (e = quote_char ∨ e = backslash_char) then scan_slow made_from s' (acc ++ [e]) else err made_from
      | [] => err made_from
      end
    else scan_slow made_from s (acc ++ [c]).
Proof using Type.
  assert (∀ x, (byte_val x =? quote) = bool_decide (x = quote_char)) as Hq.
  { intros x. case_bool_decide as Hx; [by subst|]. apply Z.eqb_neq. intros E. apply Hx, byte_val_inj. by rewrite E. }
  assert (∀ x, (byte_val x =? backslash) = bool_decide (x = backslash_char)) as Hb.
  { intros x. case_bool_decide as Hx; [by subst|]. apply Z.eqb_neq. intros E. apply Hx, byte_val_inj. by rewrite E. }
  cbn [scan_slow peek]. rewrite as_char_byte, Hq, Hb. destruct (decide (c = quote_char)) as [->|Hc].
  { rewrite bool_decide_eq_true_2 by done. done. }
  rewrite (bool_decide_eq_false_2 (c = quote_char)) by done. destruct (decide (c = backslash_char)) as [->|Hc'].
  - rewrite bool_decide_eq_true_2 by done. destruct s as [|e s]; [done|]. cbn [peek]. rewrite as_char_byte, Hq, Hb.
    destruct (decide (e = quote_char ∨ e = backslash_char)) as [He|He].
    + assert (bool_decide (e = quote_char) || bool_decide (e = backslash_char) = true) as ->; [|done]. apply orb_true_iff. rewrite !bool_decide_eq_true. done.
    + rewrite !bool_decide_eq_false_2 by tauto. done.
  - by rewrite bool_decide_eq_false_2 by done.
Qed.

Lemma scan_slow_prefix n s acc t r : (length s ≤ n)%nat → scan_slow made_from s acc = Ok (t, r) → ∃ u, t = acc ++ u.
Proof using Type.
  revert s acc. induction n as [|n IH]; intros [|c s] acc Hn; cbn [length] in Hn; try lia; try done. rewrite scan_slow_cons.
  destruct (decide (c = quote_char)); [intros [= <- <-]; exists []; by rewrite app_nil_r|]. destruct (decide (c = backslash_char)) as [_|_].
  - destruct s as [|e s]; [done|]. cbn [length] in Hn. destruct (decide _); [|done]. intros (u & ->)%IH; [|lia]. exists (e :: u). by rewrite <- app_assoc.
  - intros (u & ->)%IH; [|lia]. exists (c :: u). by rewrite <- app_assoc.
Qed.

Lemma esc_quotes_cons c w : esc_quotes (c :: w) = (if decide (c = quote_char) then [backslash_char; c] else [c]) ++ esc_quotes w.
Proof using Type. done. Qed.

(** The next character read is [c], which is not the one expected. *)
Lemma read_differs s acc c d t r l : scan_slow made_from s (acc ++ [c]) = Ok (t, r) → c ≠ d → t ≠ acc ++ d :: l.
Proof using Type.
  intros (u & ->)%(scan_slow_prefix (length s)) Hcd; [|done]. rewrite <- app_assoc. intros E%app_inv_head. cbn in E. congruence.
Qed.

(** Every pair of backslashes is read as one, so that the backslashes still to be read only become more. *)
Lemma backslashes_misread n w rest acc t r k :
  (length w ≤ n)%nat → scan_slow made_from (esc_quotes w ++ quote_char :: rest) acc = Ok (t, r) → (0 < k)%nat ∨ ¬ no_backslash w →
  t ≠ acc ++ replicate k backslash_char ++ w.
Proof using Type.
  assert (quote_char ≠ backslash_char) as Hqb by done.
  revert w acc k. induction n as [|n IH]; intros [|c w] acc k Hn; cbn [length] in Hn; try lia.
  1,2: change (esc_quotes [] ++ quote_char :: rest) with (quote_char :: rest); rewrite scan_slow_cons, decide_True by done; intros [= <- <-] [Hk|Hb];
    [destruct k as [|k]; [lia|]; intros E; rewrite <- (app_nil_r acc) in E at 1; by apply app_inv_head in E|destruct Hb; by apply not_elem_of_nil].
  rewrite esc_quotes_cons. destruct (decide (c = quote_char)) as [->|Hc].
  - cbn [app]. rewrite scan_slow_cons, decide_False, decide_True by done. rewrite decide_True by (by left). intros Hs [Hk|Hb].
    + destruct k as [|k]; [lia|]. by apply (read_differs _ _ _ _ _ _ _ Hs).
    + destruct k as [|k]; [|by apply (read_differs _ _ _ _ _ _ _ Hs)]. cbn [replicate app].
      specialize (IH w (acc ++ [quote_char]) 0%nat ltac:(lia) Hs). cbn [replicate app] in IH. rewrite <- app_assoc in IH. apply IH. right. intros Hw. apply Hb.
      apply not_elem_of_cons. done.
  - cbn [app]. rewrite scan_slow_cons, decide_False by done. destruct (decide (c = backslash_char)) as [->|Hc'].
    + intros Hs _. destruct w as [|e w].
      * change (esc_quotes [] ++ quote_char :: rest) with (quote_char :: rest) in Hs. cbv iota in Hs. rewrite decide_True in Hs by (by left).
        destruct k; by apply (read_differs _ _ _ _ _ _ _ Hs).
      * rewrite esc_quotes_cons in Hs. cbn [length] in Hn. destruct (decide (e = quote_char)) as [->|He]; cbn [app] in Hs.
        -- rewrite decide_True in Hs by (by right). rewrite scan_slow_cons, decide_True in Hs by done. injection Hs as <- _.
           intros E%app_inv_head%(f_equal length). rewrite length_app in E. cbn in E. lia.
        -- destruct (decide (e = quote_char ∨ e = backslash_char)) as [[|Heb]|]; [done| |done]. subst e.
           specialize (IH w (acc ++ [backslash_char]) (S k) ltac:(lia) Hs ltac:(left; lia)). intros ->. apply IH. rewrite <- app_assoc. f_equal.
           change (replicate (S k) backslash_char) with (backslash_char :: replicate k backslash_char). cbn [app].
           change (backslash_char :: backslash_char :: w) with ([backslash_char; backslash_char] ++ w). rewrite app_assoc.
           assert (replicate k backslash_char ++ [backslash_char; backslash_char] = backslash_char :: backslash_char :: replicate k backslash_char) as ->; [|done].
           clear. induction k as [|k IH]; [done|]. cbn [replicate app]. by rewrite IH.
    + intros Hs Hk. destruct k as [|k]; [|by apply (read_differs _ _ _ _ _ _ _ Hs)]. cbn [replicate app].
      specialize (IH w (acc ++ [c]) 0%nat ltac:(lia) Hs). cbn [replicate app] in IH. rewrite <- app_assoc in IH. apply IH. right.
      destruct Hk as [|Hb]; [lia|]. intros Hw. apply Hb. apply not_elem_of_cons. done.
Qed.
End reading.

(** C40: the texts that are read back are those without a backslash.  [append_with_escaped_quotes], with which rosters and roster deltas quote
    paths and attributes, escapes quotes and not backslashes, while the tokenizer takes a backslash for an escape: of a quoted text without a backslash the tokenizer makes the text, and
    goes on behind it; from any other it does not get the text, whatever follows. *)
Theorem quoted_read_iff made_from s rest val :
  (no_backslash s → get_token made_from (quoted s ++ rest) val = Ok (TOK_STRING, s, rest)) ∧
  ((∃ rest', get_token made_from (quoted s ++ rest) val = Ok (TOK_STRING, s, rest')) ↔ no_backslash s).
Proof.
  assert (no_backslash s → get_token made_from (quoted s ++ rest) val = Ok (TOK_STRING, s, rest)) as Hok.
  { intros Hs. rewrite quoted_escape by done. apply get_token_escape. }
  split; [done|]. split; [|eauto]. intros [rest' Hr]. destruct (decide (backslash_char ∈ s)) as [Hin|]; [exfalso|done].
  unfold quoted in Hr. rewrite append_with_escaped_quotes_eq in Hr. cbn [app] in Hr. rewrite <- app_assoc in Hr. cbn [app] in Hr.
  unfold get_token in Hr. cbn [skip_space peek tail] in Hr. rewrite as_char_byte in Hr.
  change (is_space (byte_val quote_char)) with false in Hr. cbv iota in Hr. cbn [peek tail] in Hr.
  rewrite byte_not_EOF, as_char_byte in Hr. change (is_alpha (byte_val quote_char)) with false in Hr.
  change (byte_val quote_char =? 91) with false in Hr. change (byte_val quote_char =? quote) with true in Hr. cbv iota in Hr.
  rewrite scan_string_slow in Hr. apply bind_Ok_inv in Hr as ([t r] & Hs & [= -> ->]).
  by apply (backslashes_misread made_from (length s) s rest [] s rest' 0 (le_n _) Hs (or_intror (λ H, H Hin))).
Qed.

(** ** Tokens *)

Definition toks_head (n : node) (path : bytes) : list tok :=
  match body n with
  | DirBody _ => [tsym rsyms.dir; tstr path]
  | FileBody f => [tsym rsyms.file; tstr path; tsym rsyms.content; thex f]
  end ++ [tsym rsyms.ident; tstr (print_num (self n))].

Definition toks_live (a : bytes * (bool * bytes)) : list tok := [tsym rsyms.attr; tstr a.1; tstr a.2.2].
Definition toks_dead (a : bytes * (bool * bytes)) : list tok := [tsym rsyms.dormant_attr; tstr a.1].

Definition live_attrs (n : node) : list (bytes * (bool * bytes)) := filter (λ a, a.2.1 = true) (map_iter (attrs n)).
Definition dead_attrs (n : node) : list (bytes * (bool * bytes)) := filter (λ a, a.2.1 = false) (map_iter (attrs n)).

(** The lines of a marking. *)
Inductive mark_item :=
  | MarkBirth (i : bytes)
  | MarkPath (i : bytes)
  | MarkContent (i : bytes)
  | MarkAttr (k i : bytes).

Definition toks_mark (x : mark_item) : list tok :=
  match x with
  | MarkBirth i => [tsym rsyms.birth; thex i]
  | MarkPath i => [tsym rsyms.path_mark; thex i]
  | MarkContent i => [tsym rsyms.content_mark; thex i]
  | MarkAttr k i => [tsym rsyms.attr_mark; tstr k; thex i]
  end.

Definition attr_items (a : bytes * gset bytes) : list mark_item := MarkAttr a.1 <$> set_iter a.2.

Definition mark_items (m : marking) : list mark_item :=
  MarkBirth (birth_revision m) :: (MarkPath <$> set_iter (parent_name m)) ++ (MarkContent <$> set_iter (file_content m)) ++
  concat (attr_items <$> map_iter (attr_marks m)).

Definition toks_node (n : node) (m : marking) (path : bytes) : list tok :=
  toks_head n path ++ concat (toks_live <$> live_attrs n) ++ concat (toks_dead <$> dead_attrs n) ++ concat (toks_mark <$> mark_items m).

(** ** What makes a node and its marking writable *)

Record node_text_ok (n : node) (m : marking) (path : bytes) : Prop := {
  nt_path : no_backslash path;
  nt_self : 0 < self n < 2 ^ 32;
  nt_content f : body n = FileBody f → id_ok f;
  nt_attr k v : attrs n !! k = Some v → no_backslash k ∧ no_backslash v.2;
  nt_dead : sane_attrs (attrs n);
  nt_against : check_node_against n m = Ok tt;
  nt_birth : id_ok (birth_revision m);
  nt_marks i : i ∈ parent_name m ∪ file_content m → id_ok i;
  nt_attr_marks k s i : attr_marks m !! k = Some s → i ∈ s → id_ok i
}.

Section spelling.
Context (mf : origin_type).

Lemma spells_quoted s : no_backslash s → spells mf (quoted s) [tstr s].
Proof. intros Hs. rewrite quoted_escape by done. apply spells_escape. Qed.

Lemma spells_bracketed i : spells mf (bracketed i) [thex i].
Proof. apply (spells_hex mf (hex_encode i)), hex_encode_xdigits. Qed.

Lemma spells_line sl k v ts : symbol_ok k = true → spells mf v ts → spells mf (line sl k v) (tsym k :: ts).
Proof. apply spells_entry. Qed.

Lemma spells_pair v1 t1 v2 t2 : spells mf v1 [t1] → spells mf v2 [t2] → spells mf (v1 ++ [" "%char] ++ v2) [t1; t2].
Proof.
  intros H1 H2. apply (spells_app mf v1 [t1] _ [t2]); [done|]. by apply (spells_app mf _ [] _ [t2]); [apply spells_space|].
Qed.

Lemma spells_flat_map {A} (f : A → bytes) (toks : A → list tok) l :
  (∀ a, a ∈ l → spells mf (f a) (toks a)) → spells mf (flat_map f l) (concat (toks <$> l)).
Proof.
  induction l as [|a l IH]; intros Hf; [apply spells_nil|]. rewrite fmap_cons. cbn [flat_map concat]. apply spells_app; [apply Hf; left|].
  apply IH. intros b Hb. apply Hf. by right.
Qed.

Lemma decimal_no_escape s : forallb is_decimal s = true → quote_char :: s ++ [quote_char] = escape s.
Proof.
  intros Hs. unfold escape. cbn [app]. f_equal. f_equal. induction s as [|c s IH]; [done|]. cbn [forallb] in Hs. apply andb_true_iff in Hs as [Hc Hs].
  cbn [flat_map]. unfold needs_escape, is_decimal, backslash, quote in *. rewrite (proj2 (orb_false_iff _ _)) by lia. cbn [app]. f_equal. by apply IH.
Qed.

Lemma spells_ident n : 0 ≤ n → spells mf (quote_char :: print_num n ++ [quote_char]) [tstr (print_num n)].
Proof.
  intros Hn. destruct (print_num_spec n Hn) as (c & ds & E & Hd & _). rewrite <- E in Hd. rewrite decimal_no_escape by done. apply spells_escape.
Qed.

Lemma flat_map_filter {A} (P : A → bool) (f : A → bytes) l :
  flat_map (λ a, if P a then f a else []) l = flat_map f (filter (λ a, P a = true) l).
Proof.
  induction l as [|a l IH]; [done|]. cbn [flat_map]. destruct (P a) eqn:E.
  - rewrite filter_cons_True by done. cbn [flat_map]. by rewrite IH.
  - rewrite filter_cons_False by congruence. done.
Qed.

Lemma spells_live n m path sl :
  node_text_ok n m path → spells mf (flat_map (print_live sl) (map_iter (attrs n))) (concat (toks_live <$> live_attrs n)).
Proof.
  intros Hok. unfold print_live. rewrite (flat_map_filter (λ a : bytes * (bool * bytes), a.2.1)). apply spells_flat_map.
  intros [k v] [_ Hin%elem_of_map_iter]%list_elem_of_filter. destruct (nt_attr _ _ _ Hok _ _ Hin) as [Hk Hv].
  apply spells_line; [done|]. apply spells_pair; by apply spells_quoted.
Qed.

Lemma print_dormant_ok n m path :
  node_text_ok n m path →
  ∃ s, foldM (λ s a, t ← print_dormant a; Ok (s ++ t)) (map_iter (attrs n)) [] = Ok s ∧ spells mf s (concat (toks_dead <$> dead_attrs n)).
Proof.
  intros Hok. unfold dead_attrs.
  enough (∀ l s ts, (∀ a, a ∈ l → attrs n !! a.1 = Some a.2) → spells mf s ts →
    ∃ s', foldM (λ s a, t ← print_dormant a; Ok (s ++ t)) l s = Ok s' ∧ spells mf s' (ts ++ concat (toks_dead <$> filter (λ a, a.2.1 = false) l))) as H.
  { apply (H (map_iter (attrs n)) [] []); [|apply spells_nil]. by intros [k v] Hin%elem_of_map_iter. }
  induction l as [|[k [b v]] l IH]; intros s ts Hl Hs; [exists s; by rewrite app_nil_r|]. cbn [foldM]. specialize (Hl (k, (b, v)) ltac:(left)) as Ha. cbn [fst snd] in Ha.
  destruct (nt_attr _ _ _ Hok _ _ Ha) as [Hk _]. pose proof (nt_dead _ _ _ Hok _ _ Ha) as Hd. unfold print_dormant at 2. cbn [fst snd] in *. destruct b.
  - cbn [mbind result_bind]. rewrite app_nil_r. rewrite filter_cons_False by done. apply IH; [intros a Hin; apply Hl; by right|done].
  - cbn [orb] in Hd. rewrite Hd. cbn [I_ mbind result_bind]. rewrite filter_cons_True by done. rewrite fmap_cons. cbn [concat]. rewrite app_assoc.
    apply IH; [intros a Hin; apply Hl; by right|]. apply spells_app; [done|]. apply spells_line; [done|]. by apply spells_quoted.
Qed.

Lemma check_attrs_keys ra : ∀ ma, check_attrs_against ra ma = Ok tt → ra.*1 = ma.*1 ∧ ∀ k s, (k, s) ∈ ma → s ≠ ∅.
Proof.
  induction ra as [|[k v] ra IH]; intros [|[k' s] ma]; cbn [check_attrs_against]; try done.
  - intros _. split; [done|]. by intros k s ?%not_elem_of_nil.
  - intros H. inv_ok. subst. destruct (IH ma H) as [E Hs]. split; [by rewrite !fmap_cons, E|].
    intros k s' [Eq|Hin]%elem_of_cons; [|by eapply Hs]. injection Eq as -> ->. by match goal with H : bool_decide (_ = ∅) = false |- _ => apply bool_decide_eq_false in H end.
Qed.

Lemma marks_ok n m path :
  node_text_ok n m path →
  birth_revision m ≠ [] ∧ (is_file_t n = false → file_content m = ∅) ∧
  (∀ k s, attr_marks m !! k = Some s → no_backslash k ∧ s ≠ ∅).
Proof.
  intros Hok. pose proof (nt_against _ _ _ Hok) as H. unfold check_node_against in H. inv_ok. apply bool_decide_eq_false in E.
  destruct (check_attrs_keys _ _ H) as [Ek Hs]. split_and!; [done| |].
  - intros Hf. rewrite Hf in E1. by apply bool_decide_eq_true in E1.
  - intros k s Hk. apply elem_of_map_iter in Hk. split; [|by eapply Hs]. assert (k ∈ (map_iter (attrs n)).*1) as Hin.
    { rewrite Ek. apply list_elem_of_fmap. by exists (k, s). }
    apply list_elem_of_fmap in Hin as ([k' w] & -> & Hin%elem_of_map_iter). by destruct (nt_attr _ _ _ Hok _ _ Hin).
Qed.

Lemma push_marking_ok n m path sl :
  node_text_ok n m path →
  ∃ s, push_marking (is_file_t n) m sl = Ok s ∧ spells mf s (concat (toks_mark <$> mark_items m)).
Proof.
  intros Hok. destruct (marks_ok _ _ _ Hok) as (Hb & Hf & Ha). unfold push_marking. rewrite (bool_decide_eq_false_2 (birth_revision m = [])) by done. cbn [negb I_ mbind result_bind].
  assert (is_file_t n || bool_decide (file_content m = ∅) = true) as ->.
  { destruct (is_file_t n); [done|]. cbn [orb]. apply bool_decide_eq_true. by apply Hf. }
  cbn [I_ mbind result_bind]. eexists. split; [done|]. unfold mark_items. rewrite fmap_cons, !fmap_app. cbn [concat]. rewrite !concat_app.
  apply spells_app; [apply spells_line; [done|apply spells_bracketed]|]. apply spells_app; [|apply spells_app].
  - rewrite <- list_fmap_compose. apply (spells_flat_map _ (toks_mark ∘ MarkPath)). intros i _. apply spells_line; [done|apply spells_bracketed].
  - destruct (is_file_t n) eqn:En.
    + rewrite <- list_fmap_compose. apply (spells_flat_map _ (toks_mark ∘ MarkContent)). intros i _. apply spells_line; [done|apply spells_bracketed].
    + rewrite Hf by done. apply spells_nil.
  - assert (concat (toks_mark <$> concat (attr_items <$> map_iter (attr_marks m))) = concat ((λ a, concat (toks_mark <$> attr_items a)) <$> map_iter (attr_marks m))) as ->.
    { generalize (map_iter (attr_marks m)). induction l as [|a l IH]; [done|]. rewrite !fmap_cons. cbn [concat]. by rewrite fmap_app, concat_app, IH. }
    apply spells_flat_map. intros [k s] Hin%elem_of_map_iter. destruct (Ha _ _ Hin) as [Hk _]. unfold attr_items. rewrite <- list_fmap_compose.
    apply (spells_flat_map _ (toks_mark ∘ MarkAttr k)). intros i _. apply spells_line; [done|]. apply spells_pair; [by apply spells_quoted|apply spells_bracketed].
Qed.

Lemma print_node_ok mm n m path :
  node_text_ok n m path → mm !! self n = Some m →
  ∃ s, print_node mm true n path = Ok s ∧ spells mf s (toks_node n m path).
Proof.
  intros Hok Hm. destruct (print_dormant_ok _ _ _ Hok) as (d & Hd & Hsd). destruct (push_marking_ok _ _ _ (symbol_length n true) Hok) as (s & Hs & Hss).
  pose proof (nt_self _ _ _ Hok) as Hself. unfold print_node. unfold null_node, the_null_node. rewrite (proj2 (Z.eqb_neq _ _)) by lia. cbn [negb I_ mbind result_bind].
  rewrite Hd. cbn [mbind result_bind]. unfold get_marking. rewrite Hm. cbn [of_option mbind result_bind]. rewrite Hs. cbn [mbind result_bind].
  eexists. split; [done|]. unfold toks_node, toks_head. rewrite <- (app_assoc _ [_; _]). apply spells_app.
  - destruct (body n) as [f|ch].
    + change [tsym rsyms.file; tstr path; tsym rsyms.content; thex f] with ([tsym rsyms.file; tstr path] ++ [tsym rsyms.content; thex f]).
      apply spells_app; (apply spells_line; [done|]); [apply spells_quoted, (nt_path _ _ _ Hok)|apply spells_bracketed].
    + apply spells_line; [done|]. apply spells_quoted, (nt_path _ _ _ Hok).
  - apply spells_app; [apply spells_line; [done|apply spells_ident; lia]|]. apply spells_app; [by eapply spells_live|]. by apply spells_app.
Qed.
End spelling.
