(* ===== verification/RosterRead.v ===== *)
(** * Reading the tokens of a roster

    One stanza: its head, its attributes and its marking. *)

From S2P Require Import Prelude Numbers Paths Hex BasicIo Roster RosterInvariant Marking Cset CsetIo DfsIter DfsCorrect RosterIo RosterText.

Lemma read_num_numeral s : ∀ v,
  0 ≤ v → forallb is_decimal s = true → numeral v s < 2 ^ 64 →
  foldM (λ n c, I_ (is_decimal c) ;; Ok (u64 (n * 10 + digit_val c))) s v = Ok (numeral v s).
Proof.
  induction s as [|c s IH]; intros v Hv Hs Hn; [done|]. cbn [forallb] in Hs. apply andb_true_iff in Hs as [Hc Hs]. cbn [foldM]. rewrite Hc. cbn [I_ mbind result_bind].
  assert (0 ≤ v * 10 + digit_val c) as H0 by (unfold is_decimal, digit_val in *; lia). change (numeral v (c :: s)) with (numeral (v * 10 + digit_val c) s) in *.
  pose proof (numeral_mono _ s H0 Hs). rewrite u64_small by lia. by apply IH.
Qed.

Lemma read_num_ident n : 0 ≤ n < 2 ^ 64 → read_num (print_num n) = Ok n.
Proof.
  intros Hn. destruct (print_num_spec n ltac:(lia)) as (c & ds & E & Hd & Hv). unfold read_num. rewrite E, read_num_numeral, Hv by (done || lia). done.
Qed.

(** ** Markings *)

Definition apply_mark (m : marking) (x : mark_item) : result marking :=
  match x with
  | MarkBirth i => Ok (Marking i (parent_name m) (file_content m) (attr_marks m))
  | MarkPath i => s ← safe_insert_set (parent_name m) i; Ok (Marking (birth_revision m) s (file_content m) (attr_marks m))
  | MarkContent i => s ← safe_insert_set (file_content m) i; Ok (Marking (birth_revision m) (parent_name m) s (attr_marks m))
  | MarkAttr k i =>
      s ← safe_insert_set (default ∅ (attr_marks m !! k)) i;
      Ok (Marking (birth_revision m) (parent_name m) (file_content m) (<[k := s]> (attr_marks m)))
  end.

Definition item_ok (x : mark_item) : Prop :=
  match x with MarkBirth i | MarkPath i | MarkContent i | MarkAttr _ i => id_ok i end.

(** The insertions of a set, one by one. *)
Lemma insert_all {St} (put : St → gset bytes → St) (get : St → gset bytes) (f : St → bytes → result St) l : ∀ st,
  (∀ st x, f st x = s ← safe_insert_set (get st) x; Ok (put st s)) →
  (∀ st s, get (put st s) = s) → (∀ st s s', put (put st s) s' = put st s') →
  NoDup l → (∀ x, x ∈ l → x ∉ get st) → l ≠ [] →
  foldM f l st = Ok (put st (list_to_set l ∪ get st)).
Proof.
  induction l as [|x l IH]; intros st Hf Hget Hput Hnd Hx Hne; [done|]. apply NoDup_cons in Hnd as [Hxl Hnd]. cbn [foldM].
  rewrite Hf, safe_insert_set_fresh by (apply Hx; left). cbn [mbind result_bind]. destruct l as [|y l]; [cbn; f_equal; f_equal; set_solver|].
  rewrite IH; [|done..| |done].
  - rewrite Hget, Hput. f_equal. f_equal. set_solver.
  - intros z Hz. rewrite Hget. assert (z ≠ x) by (by intros ->). specialize (Hx z ltac:(by right)). set_solver.
Qed.

Lemma foldM_over_fmap {A B S} (g : A → B) (f : S → B → result S) l : ∀ st, foldM f (g <$> l) st = foldM (λ s a, f s (g a)) l st.
Proof. induction l as [|a l IH]; intros st; [done|]. rewrite fmap_cons. cbn [foldM]. destruct (f st (g a)); [apply IH|done]. Qed.

Lemma apply_paths m s : parent_name m = ∅ → foldM apply_mark (MarkPath <$> set_iter s) m = Ok (Marking (birth_revision m) s (file_content m) (attr_marks m)).
Proof.
  intros Hm. rewrite foldM_over_fmap. destruct (decide (s = ∅)) as [->|Hs]; [destruct m; cbn in Hm; by subst|].
  rewrite (insert_all (λ m s, Marking (birth_revision m) s (file_content m) (attr_marks m)) parent_name); try done.
  - rewrite Hm, list_to_set_set_iter, right_id_L by apply _. done.
  - apply NoDup_set_iter.
  - intros x _. rewrite Hm. set_solver.
  - intros E. apply Hs. by rewrite <- (list_to_set_set_iter s), E.
Qed.

Lemma apply_contents m s : file_content m = ∅ → foldM apply_mark (MarkContent <$> set_iter s) m = Ok (Marking (birth_revision m) (parent_name m) s (attr_marks m)).
Proof.
  intros Hm. rewrite foldM_over_fmap. destruct (decide (s = ∅)) as [->|Hs]; [destruct m; cbn in Hm; by subst|].
  rewrite (insert_all (λ m s, Marking (birth_revision m) (parent_name m) s (attr_marks m)) file_content); try done.
  - rewrite Hm, list_to_set_set_iter, right_id_L by apply _. done.
  - apply NoDup_set_iter.
  - intros x _. rewrite Hm. set_solver.
  - intros E. apply Hs. by rewrite <- (list_to_set_set_iter s), E.
Qed.

Definition set_attr_marks (m : marking) (a : gmap bytes (gset bytes)) : marking := Marking (birth_revision m) (parent_name m) (file_content m) a.

Lemma apply_attr m k s :
  attr_marks m !! k = None → s ≠ ∅ → foldM apply_mark (attr_items (k, s)) m = Ok (set_attr_marks m (<[k := s]> (attr_marks m))).
Proof.
  intros Hm Hs. unfold attr_items. cbn [fst snd]. rewrite foldM_over_fmap.
  rewrite (insert_all (λ m s, set_attr_marks m (<[k := s]> (attr_marks m))) (λ m, default ∅ (attr_marks m !! k))); try done.
  - rewrite Hm. cbn. by rewrite list_to_set_set_iter, right_id_L by apply _.
  - intros st s'. cbn. by rewrite lookup_insert_eq.
  - intros st s1 s2. unfold set_attr_marks. cbn. by rewrite insert_insert_eq.
  - apply NoDup_set_iter.
  - intros x _. rewrite Hm. set_solver.
  - intros E. apply Hs. by rewrite <- (list_to_set_set_iter s), E.
Qed.

Lemma apply_attrs l : ∀ m,
  NoDup l.*1 → (∀ k s, (k, s) ∈ l → attr_marks m !! k = None ∧ s ≠ ∅) →
  foldM apply_mark (concat (attr_items <$> l)) m = Ok (set_attr_marks m (list_to_map l ∪ attr_marks m)).
Proof.
  induction l as [|[k s] l IH]; intros m Hnd Hl; [cbn; rewrite (left_id_L ∅ (∪)); by destruct m|]. rewrite fmap_cons in *. apply NoDup_cons in Hnd as [Hk Hnd]. cbn [concat fst] in *.
  destruct (Hl k s ltac:(left)) as [Hm Hs]. rewrite foldM_app, (apply_attr m k s Hm Hs). cbn [mbind result_bind]. rewrite IH; [|done|].
  - unfold set_attr_marks. cbn. f_equal. f_equal. rewrite <- insert_union_l, <- insert_union_r; [done|]. by apply not_elem_of_list_to_map_1.
  - intros k' s' Hin. destruct (Hl k' s' ltac:(by right)) as [Hm' Hs']. split; [|done]. cbn. rewrite lookup_insert_ne; [done|]. intros ->. apply Hk. apply list_elem_of_fmap. by exists (k', s').
Qed.

(** The lines of a marking make up that marking. *)
Lemma apply_items m :
  (∀ k s, attr_marks m !! k = Some s → s ≠ ∅) → foldM apply_mark (mark_items m) empty_marking = Ok m.
Proof.
  intros Ha. unfold mark_items. cbn [foldM apply_mark mbind result_bind]. rewrite foldM_app, apply_paths by done. cbn [mbind result_bind].
  rewrite foldM_app, apply_contents by done. cbn [mbind result_bind]. rewrite apply_attrs.
  - unfold set_attr_marks. cbn. rewrite list_to_map_iter, (right_id_L ∅ (∪)). by destruct m.
  - apply NoDup_fst_map_iter.
  - intros k s Hin%elem_of_map_iter. split; [done|]. by eapply Ha.
Qed.

(** ** One stanza *)

Section reading.
Context (utf8_validate : bytes → bool) (mf : origin_type).

Lemma at_id p v ts : id_ok v → at_tokens mf p (thex v :: ts) → ∃ p', parse_id mf p = Ok (v, p') ∧ at_tokens mf p' ts.
Proof.
  intros Hv Hp. destruct (at_hex mf p _ ts Hp) as (p' & E & Hp'). exists p'. split; [|done]. unfold parse_id. rewrite E. cbn [mbind result_bind]. by rewrite id_ok_decode.
Qed.

Lemma symp_other p k k' ts : at_tokens mf p (tsym k :: ts) → k ≠ k' → symp k' p = false.
Proof. intros Hp Hk. by apply (at_not_symp mf p k' (tsym k :: ts)). Qed.

Lemma symp_any_at p k ts : at_tokens mf p (tsym k :: ts) → symp_any p = true.
Proof. intros (_ & Ht & _). unfold symp_any. by rewrite Ht. Qed.

Lemma parse_mark_item m x p ts m' :
  item_ok x → apply_mark m x = Ok m' → at_tokens mf p (toks_mark x ++ ts) →
  symp_any p = true ∧ ∃ p', parse_mark mf m p = Ok (Some (m', p')) ∧ at_tokens mf p' ts.
Proof.
  intros Hx Hm Hp. destruct x as [i|i|i|k i]; cbn [toks_mark app] in Hp; cbn [item_ok] in Hx; (split; [by eapply symp_any_at|]); unfold parse_mark;
    rewrite ?(symp_other p _ rsyms.birth _ Hp), ?(symp_other p _ rsyms.path_mark _ Hp), ?(symp_other p _ rsyms.content_mark _ Hp) by done;
    rewrite (at_symp mf _ _ _ Hp); destruct (at_sym mf _ _ _ Hp) as (p1 & -> & Hp1); cbn [mbind result_bind].
  1-3: destruct (at_id _ _ _ Hx Hp1) as (p2 & -> & Hp2); cbn [mbind result_bind]; cbn [apply_mark] in Hm; inv_ok; subst; rewrite ?E; cbn [mbind result_bind]; eauto.
  destruct (at_str mf _ _ _ Hp1) as (p2 & -> & Hp2). cbn [mbind result_bind]. destruct (at_id _ _ _ Hx Hp2) as (p3 & -> & Hp3). cbn [mbind result_bind].
  cbn [apply_mark] in Hm. inv_ok. subst. rewrite E. cbn [mbind result_bind]. eauto.
Qed.

(** What follows a marking: the end, or the next stanza. *)
Definition stanza_end (ts : list tok) : Prop :=
  match ts with [] => True | (t, v) :: _ => t = TOK_SYMBOL ∧ (v = rsyms.dir ∨ v = rsyms.file) end.

Lemma parse_mark_end m p ts :
  at_tokens mf p ts → stanza_end ts → symp_any p = false ∨ (symp_any p = true ∧ parse_mark mf m p = Ok None).
Proof.
  intros Hp He. destruct ts as [|[t v] ts].
  - left. destruct Hp as [Ht _]. unfold symp_any. by rewrite Ht.
  - right. destruct He as [-> Hv]. split; [by eapply symp_any_at|]. unfold parse_mark. by destruct Hv as [-> | ->]; rewrite !(symp_other p _ _ _ Hp) by done.
Qed.

Lemma parse_marking_items l : ∀ fuel m p ts m',
  Forall item_ok l → foldM apply_mark l m = Ok m' → at_tokens mf p (concat (toks_mark <$> l) ++ ts) → stanza_end ts → (length l < fuel)%nat →
  ∃ p', parse_marking mf fuel m p = Ok (m', p') ∧ at_tokens mf p' ts.
Proof.
  induction l as [|x l IH]; intros fuel m p ts m' Hl Hm Hp He Hf; (destruct fuel as [|fuel]; [lia|]); cbn [parse_marking].
  - cbn in Hm. injection Hm as <-. destruct (parse_mark_end m p ts Hp He) as [-> |[-> ->]]; eauto.
  - apply Forall_cons in Hl as [Hx Hl]. cbn [foldM] in Hm. apply bind_Ok_inv in Hm as (m1 & Hm1 & Hm). rewrite fmap_cons in Hp. cbn [concat] in Hp. rewrite <- app_assoc in Hp.
    destruct (parse_mark_item m x p _ m1 Hx Hm1 Hp) as (-> & p1 & -> & Hp1). cbn [mbind result_bind]. apply (IH fuel m1 p1 ts m'); try done. cbn [length] in Hf. lia.
Qed.

(** *** Attributes *)

Lemma insert_next_attr (l1 l2 : list (bytes * (bool * bytes))) a :
  NoDup (l1 ++ a :: l2).*1 → safe_insert (list_to_map l1 : gmap bytes (bool * bytes)) a.1 a.2 = Ok (list_to_map (l1 ++ [a])).
Proof.
  rewrite fmap_app, fmap_cons. intros Hnd. assert (a.1 ∉ l1.*1) as Ha.
  { apply NoDup_app in Hnd as (_ & H & _). intros Hin. apply (H _ Hin). left. }
  rewrite safe_insert_fresh by (by apply not_elem_of_list_to_map_1). destruct a as [k v]. by rewrite list_to_map_snoc.
Qed.

Lemma attrs_perm n : live_attrs n ++ dead_attrs n ≡ₚ map_iter (attrs n).
Proof.
  unfold live_attrs, dead_attrs. rewrite <- (filter_app_complement (λ a : bytes * (bool * bytes), a.2.1 = true) (map_iter (attrs n))) at 3. f_equiv.
  apply Permutation_refl', list_filter_iff. intros [k [[] v]]; cbn; split; intros; by try congruence.
Qed.

Lemma live_dead_NoDup n : NoDup (live_attrs n ++ dead_attrs n).*1.
Proof. rewrite attrs_perm. apply NoDup_fst_map_iter. Qed.

Lemma attrs_rebuilt n : list_to_map (live_attrs n ++ dead_attrs n) = attrs n.
Proof. rewrite <- (list_to_map_iter (attrs n)). apply list_to_map_proper; [apply live_dead_NoDup|apply attrs_perm]. Qed.

Lemma parse_attrs_ok n p ts :
  sane_attrs (attrs n) → at_tokens mf p (concat (toks_live <$> live_attrs n) ++ concat (toks_dead <$> dead_attrs n) ++ ts) →
  other_key rsyms.attr ts → other_key rsyms.dormant_attr ts →
  ∃ a1 p1 p2, while_sym_all rsyms.attr (parse_attr mf) ∅ p = Ok (a1, p1) ∧ while_sym_all rsyms.dormant_attr (parse_dormant mf) a1 p1 = Ok (attrs n, p2) ∧
    at_tokens mf p2 ts.
Proof.
  intros Hsane Hp Ho1 Ho2. pose proof (live_dead_NoDup n) as Hnd.
  destruct (while_sym_items rsyms.attr (parse_attr mf) mf toks_live (λ l1 st, st = list_to_map l1) (live_attrs n) (concat (toks_dead <$> dead_attrs n) ++ ts) ∅ p)
    as (? & p1 & E1 & -> & Hp1); [by intros; cbn; lia|by intros; eexists| | |done..|].
  { intros l1 a l2 st q ts' El -> Hq. cbn [toks_live app] in Hq. unfold parse_attr. destruct (at_sym mf _ _ _ Hq) as (q1 & -> & Hq1). cbn [mbind result_bind].
    destruct (at_str mf _ _ _ Hq1) as (q2 & -> & Hq2). cbn [mbind result_bind]. destruct (at_str mf _ _ _ Hq2) as (q3 & -> & Hq3). cbn [mbind result_bind].
    assert ((true, a.2.2) = a.2) as ->.
    { assert (a ∈ live_attrs n) as [Ht _]%list_elem_of_filter by (rewrite El; apply elem_of_app; right; by left). by destruct a as [? [[] ?]]. }
    rewrite El, <- app_assoc in Hnd. cbn [app] in Hnd. rewrite (insert_next_attr l1 _ a Hnd). eauto. }
  { by apply (other_key_concat rsyms.attr rsyms.dormant_attr); [intros; eexists|..]. }
  destruct (while_sym_items rsyms.dormant_attr (parse_dormant mf) mf toks_dead (λ l1 st, st = list_to_map (live_attrs n ++ l1)) (dead_attrs n) ts (list_to_map (live_attrs n)) p1)
    as (? & p2 & E2 & -> & Hp2); [by intros; cbn; lia|by intros; eexists| |done..|by rewrite app_nil_r|].
  { intros l1 a l2 st q ts' El -> Hq. cbn [toks_dead app] in Hq. unfold parse_dormant. destruct (at_sym mf _ _ _ Hq) as (q1 & -> & Hq1). cbn [mbind result_bind].
    destruct (at_str mf _ _ _ Hq1) as (q2 & -> & Hq2). cbn [mbind result_bind].
    assert ((false, []) = a.2) as ->.
    { assert (a ∈ dead_attrs n) as [Ht Hin]%list_elem_of_filter by (rewrite El; apply elem_of_app; right; by left). destruct a as [k [b v]]. cbn in Ht. subst b.
      apply elem_of_map_iter in Hin. specialize (Hsane k (false, v) Hin). cbn in Hsane. apply bool_decide_eq_true in Hsane. by subst v. }
    rewrite El, app_assoc in Hnd. rewrite (insert_next_attr (live_attrs n ++ l1) _ a Hnd). rewrite <- app_assoc. eauto. }
  rewrite attrs_rebuilt in E2. eauto 10.
Qed.

(** *** Heads *)

Lemma parse_head_ok n p path ts :
  0 < self n < 2 ^ 32 → (∀ f, body n = FileBody f → id_ok f) → at_tokens mf p (toks_head n path ++ ts) →
  symp_any p = true ∧
  ∃ p', parse_head mf p = Ok (Some (path, Node (self n) the_null_node [] ∅ (match body n with FileBody f => FileBody f | DirBody _ => DirBody ∅ end), p')) ∧
    at_tokens mf p' ts.
Proof.
  intros Hs Hf Hp. unfold toks_head in Hp. unfold parse_head. destruct (body n) as [f|ch]; cbn [app] in Hp; (split; [by eapply symp_any_at|]).
  - rewrite (at_symp mf _ _ _ Hp). destruct (at_sym mf _ _ _ Hp) as (p1 & -> & Hp1). cbn [mbind result_bind]. destruct (at_str mf _ _ _ Hp1) as (p2 & -> & Hp2). cbn [mbind result_bind].
    destruct (at_esym mf _ _ _ Hp2) as (p3 & -> & Hp3). cbn [mbind result_bind]. destruct (at_hex mf _ _ _ Hp3) as (p4 & -> & Hp4). cbn [mbind result_bind].
    destruct (at_esym mf _ _ _ Hp4) as (p5 & -> & Hp5). cbn [mbind result_bind]. destruct (at_str mf _ _ _ Hp5) as (p6 & -> & Hp6). cbn [mbind result_bind].
    rewrite read_num_ident by lia. cbn [mbind result_bind]. rewrite id_ok_decode by (by apply Hf). cbn [mbind result_bind]. rewrite u32_small by lia. eauto.
  - rewrite (symp_other p _ _ _ Hp), (at_symp mf _ _ _ Hp) by done. destruct (at_sym mf _ _ _ Hp) as (p1 & -> & Hp1). cbn [mbind result_bind].
    destruct (at_str mf _ _ _ Hp1) as (p2 & -> & Hp2). cbn [mbind result_bind]. destruct (at_esym mf _ _ _ Hp2) as (p3 & -> & Hp3). cbn [mbind result_bind].
    destruct (at_str mf _ _ _ Hp3) as (p4 & -> & Hp4). cbn [mbind result_bind]. rewrite read_num_ident by lia. cbn [mbind result_bind]. rewrite u32_small by lia. eauto.
Qed.

(** *** The rest of a stanza *)

Lemma parse_rest_ok r mm n m path n0 p ts :
  node_text_ok n m path → nodes r !! self n = Some n0 → attrs n0 = ∅ → mm !! self n = None →
  at_tokens mf p (concat (toks_live <$> live_attrs n) ++ concat (toks_dead <$> dead_attrs n) ++ concat (toks_mark <$> mark_items m) ++ ts) → stanza_end ts →
  ∃ p', parse_rest mf r mm (self n) p = Ok (set_nodes r (alter (with_attrs (attrs n)) (self n) (nodes r)), <[self n := m]> mm, p') ∧ at_tokens mf p' ts.
Proof.
  intros Hok Hn0 Ha Hmm Hp He. unfold parse_rest, get_node. rewrite Hn0. cbn [of_option mbind result_bind]. rewrite Ha.
  destruct (parse_attrs_ok n p _ (nt_dead _ _ _ Hok) Hp) as (a1 & p1 & p2 & E1 & E2 & Hp2); [done..|]. rewrite E1. cbn [mbind result_bind]. rewrite E2. cbn [mbind result_bind].
  destruct (marks_ok _ _ _ Hok) as (_ & _ & Hattr).
  destruct (parse_marking_items (mark_items m) (S (length (src p2))) empty_marking p2 ts m) as (p3 & E3 & Hp3); [| |done..| |].
  - unfold mark_items. apply Forall_cons. split; [apply (nt_birth _ _ _ Hok)|]. rewrite !Forall_app. split_and!.
    + apply Forall_fmap, Forall_forall. intros i Hi%elem_of_set_iter. apply (nt_marks _ _ _ Hok). set_solver.
    + apply Forall_fmap, Forall_forall. intros i Hi%elem_of_set_iter. apply (nt_marks _ _ _ Hok). set_solver.
    + apply Forall_concat, Forall_fmap, Forall_forall. intros [k s] Hin%elem_of_map_iter. apply Forall_fmap, Forall_forall. intros i Hi%elem_of_set_iter.
      by eapply (nt_attr_marks _ _ _ Hok).
  - apply apply_items. intros k s Hk. by destruct (Hattr k s Hk).
  - pose proof (at_length mf _ _ Hp2) as Hl. rewrite length_app in Hl. assert (2 * length (mark_items m) ≤ length (concat (toks_mark <$> mark_items m)))%nat as H2.
    { generalize (mark_items m). induction l as [|x l IH]; [cbn; lia|]. rewrite fmap_cons. cbn [concat length]. rewrite length_app. destruct x; cbn [toks_mark length]; lia. }
    assert (length (mark_items m) ≠ 0%nat) by done. lia.
  - rewrite E3. cbn [mbind result_bind]. unfold put_marking. rewrite Hmm, bool_decide_eq_true_2 by done. cbn [I_ mbind result_bind]. eauto.
Qed.
End reading.
