(* ===== verification/RosterRebuild.v ===== *)
(** * Rebuilding a roster node by node

    Adding the nodes of a roster in the order in which [dfs_iter] visits them
    gives, after each node, the part of the roster visited so far. *)

From S2P Require Import Prelude Numbers Paths Hex BasicIo Roster RosterInvariant Marking DfsIter DfsCorrect DfsSane RosterIo.

(** ** Paths *)

Lemma rfind_slash_last a k : no_slash k → rfind_slash (a ++ slash :: k) = Some (length a).
Proof.
  intros Hk. induction a as [|c a IH]; cbn [app rfind_slash length].
  - rewrite (proj2 (rfind_slash_None k) Hk). by rewrite decide_True.
  - by rewrite IH.
Qed.

Lemma dirname_basename_join cs k :
  no_slash k → k ≠ [] → (cs ≠ [] → join_slash cs ≠ []) → dirname_basename (FilePath (join_slash (cs ++ [k]))) = Ok (FilePath (join_slash cs), k).
Proof.
  intros Hk Hne Hcs. rewrite join_snoc. unfold dirname_basename, prefix_of. cbn [data]. destruct cs as [|c cs].
  - cbn [app join_slash]. by rewrite (proj2 (rfind_slash_None k) Hk).
  - rewrite <- app_assoc. cbn [app]. rewrite (rfind_slash_last _ _ Hk). rewrite bool_decide_eq_true_2.
    2:{ rewrite length_app. cbn [length]. assert (length k ≠ 0%nat) by (by destruct k). lia. }
    cbn [I_ mbind result_bind]. rewrite take_app_length. do 2 f_equal.
    rewrite <- drop_drop, drop_app_length. done.
Qed.

Definition keep_in (V : gset Z) (ch : gmap bytes Z) : gmap bytes Z := filter (λ p, p.2 ∈ V) ch.

Lemma keep_in_lookup V ch k c : keep_in V ch !! k = Some c ↔ ch !! k = Some c ∧ c ∈ V.
Proof. unfold keep_in. by rewrite map_lookup_filter_Some. Qed.

Definition ids (l : list (list bytes * Z)) : gset Z := list_to_set l.*2.

Lemma ids_snoc l x : ids (l ++ [x]) = {[x.2]} ∪ ids l.
Proof. unfold ids. rewrite fmap_app, list_to_set_app_L. cbn. set_solver. Qed.

Lemma elem_of_ids l i : i ∈ ids l ↔ ∃ cs, (cs, i) ∈ l.
Proof.
  unfold ids. rewrite elem_of_list_to_set, list_elem_of_fmap. split; [intros ([cs j] & -> & H); eauto|intros (cs & H); by exists (cs, i)].
Qed.

Section rebuild.
Context (r : roster) (root : Z) (Hwf : rwf r) (Hroot : root_dir r = Some root).
Context (out : list (list bytes * Z)) (Hv : visits r [] root out).
Context (Hslash : ∀ i n, nodes r !! i = Some n → no_slash (name n)).

(** The nodes of [V], with the children that are in [V]. *)
Definition part (V : gset Z) : roster :=
  Roster (if decide (root ∈ V) then Some root else None)
    (map_imap (λ i n, if decide (i ∈ V) then Some (with_children (keep_in V) n) else None) (nodes r)) ∅.

Lemma lookup_part V i : nodes (part V) !! i = if decide (i ∈ V) then with_children (keep_in V) <$> nodes r !! i else None.
Proof. unfold part. cbn. rewrite map_lookup_imap. destruct (nodes r !! i); cbn; by case_decide. Qed.

Section prefix.
Context (l1 l2 : list (list bytes * Z)) (E : out = l1 ++ l2).

Lemma l1_walk cs i : (cs, i) ∈ l1 → walk r root cs = Ok i.
Proof. intros H. apply (out_walk r root out Hv (cs, i)). rewrite E. apply elem_of_app. by left. Qed.

Lemma l1_ids cs i : cs ∈ l1.*1 → walk r root cs = Ok i → i ∈ ids l1.
Proof. intros ([cs' j] & Ec & Hin)%list_elem_of_fmap Hw. cbn in Ec. subst cs'. rewrite (l1_walk _ _ Hin) in Hw. injection Hw as ->. apply elem_of_ids. eauto. Qed.

Lemma l1_paths cs i : i ∈ ids l1 → walk r root cs = Ok i → cs ∈ l1.*1.
Proof.
  intros (cs' & Hin)%elem_of_ids Hw. rewrite (walk_inj r root Hwf Hroot cs cs' i Hw (l1_walk _ _ Hin)). apply list_elem_of_fmap. by exists (cs', i).
Qed.

(** With a node, the directory above it is there. *)
Lemma l1_closed cs k : cs ++ [k] ∈ l1.*1 → cs ∈ l1.*1.
Proof.
  intros ([cs' j] & E' & Hin)%list_elem_of_fmap. cbn in E'. subst cs'. apply list_elem_of_split in Hin as (a & b & ->). rewrite fmap_app. apply elem_of_app. left.
  eapply (proj1 (visits_parent_first r) _ _ _ Hv a cs k j (b ++ l2)); [by rewrite E, <- app_assoc|by intros [_ ?]%app_eq_nil].
Qed.

Lemma walk_part cs : ∀ j, cs ∈ l1.*1 → walk r root cs = Ok j → walk (part (ids l1)) root cs = Ok j.
Proof.
  induction cs as [|k cs IH] using rev_ind; intros j Hin Hw; [done|]. pose proof (l1_closed _ _ Hin) as Hup. pose proof (l1_ids _ _ Hin Hw) as Hj.
  rewrite walk_app in Hw |- *. apply bind_Ok_inv in Hw as (i & Hi & Hw). rewrite (IH i Hup Hi). cbn [mbind result_bind walk] in *.
  unfold get_node, downcast_to_dir_t in *. rewrite lookup_part, decide_True by (by eapply l1_ids). destruct (nodes r !! i) as [n|]; [|done].
  cbn [of_option mbind result_bind fmap option_fmap option_map] in *. unfold with_children. destruct (body n) as [|ch] eqn:Hb; [done|]. cbn [body with_body mbind result_bind] in *.
  destruct (ch !! k) as [c|] eqn:Hc; [|done]. cbn [of_option mbind result_bind] in Hw. injection Hw as <-.
  by rewrite (proj2 (keep_in_lookup _ _ _ _) (conj Hc Hj)).
Qed.

Lemma walk_insert cs i n : nodes (part (ids l1)) !! i = None →
  ∀ d j, walk (part (ids l1)) d cs = Ok j → walk (set_nodes (part (ids l1)) (<[i := n]> (nodes (part (ids l1))))) d cs = Ok j.
Proof.
  intros Hi. induction cs as [|k cs IH]; intros d j Hw; [done|]. cbn [walk] in *. unfold get_node in *. cbn [nodes set_nodes].
  apply bind_Ok_inv in Hw as (m & Hm & Hw). apply of_option_Ok_inv in Hm. rewrite lookup_insert_ne by congruence. rewrite Hm. cbn [of_option mbind result_bind].
  apply bind_Ok_inv in Hw as (ch & Hch & Hw). rewrite Hch. cbn [mbind result_bind]. apply bind_Ok_inv in Hw as (c & Hc & Hw). rewrite Hc. cbn [mbind result_bind]. by apply IH.
Qed.

Context (cs : list bytes) (i : Z) (l3 : list (list bytes * Z)) (E2 : l2 = (cs, i) :: l3) (n : node) (Hn : nodes r !! i = Some n).

Lemma next_walk : walk r root cs = Ok i.
Proof. apply (out_walk r root out Hv (cs, i)). rewrite E, E2. apply elem_of_app. right. by left. Qed.

Lemma next_new : i ∉ ids l1.
Proof.
  intros (cs' & Hin)%elem_of_ids. pose proof (out_NoDup r root Hwf Hroot out Hv) as Hnd. rewrite E, E2, fmap_app, fmap_cons in Hnd. apply NoDup_app in Hnd as (_ & H & _).
  apply (H i); [apply list_elem_of_fmap; by exists (cs', i)|left].
Qed.

(** None of its children are there yet. *)
Lemma next_childless ch : body n = DirBody ch → keep_in ({[i]} ∪ ids l1) ch = ∅.
Proof.
  intros Hb. apply map_eq. intros k. rewrite lookup_empty. destruct (keep_in _ ch !! k) as [c|] eqn:Hk; [exfalso|done]. apply keep_in_lookup in Hk as [Hk Hc].
  pose proof (walk_step r root _ _ _ _ _ _ next_walk Hn Hb Hk) as Hw. apply elem_of_union in Hc as [->%elem_of_singleton|Hc].
  - pose proof (walk_inj r root Hwf Hroot _ _ _ Hw next_walk) as Ec. apply (f_equal length) in Ec. rewrite length_app in Ec. cbn in Ec. lia.
  - apply next_new. eapply l1_ids; [|apply next_walk]. eapply l1_closed, l1_paths; [exact Hc|exact Hw].
Qed.

(** The node as [parse_from] makes it, and as it stands in the roster so far. *)
Definition bare : node := Node i the_null_node [] ∅ (match body n with FileBody f => FileBody f | DirBody _ => DirBody ∅ end).

Lemma next_node : with_children (keep_in ({[i]} ∪ ids l1)) n = Node i (parent n) (name n) (attrs n) (body bare).
Proof.
  destruct (wf_self r Hwf _ _ Hn) as [Hs _]. unfold with_children, bare. pose proof next_childless as Hch. cbn [body]. destruct (body n) as [f|ch] eqn:Hb.
  - destruct n; cbn in *. by subst.
  - rewrite Hch by done. unfold with_body. by rewrite Hs.
Qed.

(** How the children of a directory that is there change. *)
Lemma keep_in_next j p ch :
  nodes r !! j = Some p → body p = DirBody ch →
  keep_in ({[i]} ∪ ids l1) ch = if decide (j = parent n) then <[name n := i]> (keep_in (ids l1) ch) else keep_in (ids l1) ch.
Proof.
  intros Hj Hb. assert (∀ k, ch !! k = Some i → j = parent n ∧ k = name n) as Hu.
  { intros k Hk. destruct (child_unique r j p ch k i n Hwf Hj Hb Hk Hn) as [-> ->]. done. }
  apply map_eq. intros k. apply option_eq. intros c. rewrite keep_in_lookup, elem_of_union, elem_of_singleton. destruct (decide (j = parent n)) as [->|Hne].
  - assert (parent n ≠ the_null_node) as Hnn by (by destruct (wf_self r Hwf _ _ Hj)).
    destruct (wf_parent r Hwf _ _ Hn Hnn) as (p' & ch' & Hp' & Hb' & Hc'). assert (ch' = ch) as -> by congruence.
    destruct (decide (k = name n)) as [->|Hk].
    + rewrite lookup_insert_eq. split; [intros [Hc _]; congruence|intros [= <-]; auto].
    + rewrite lookup_insert_ne by done. rewrite keep_in_lookup. split; [|tauto]. intros [Hc [->|Hin]]; [|done]. by destruct (Hu _ Hc).
  - rewrite keep_in_lookup. split; [|tauto]. intros [Hc [->|Hin]]; [|done]. by destruct (Hu _ Hc).
Qed.

(** The roster after the node was attached and its attributes were read. *)
Lemma part_next m :
  (∀ j, j ≠ i → j ≠ parent n → m !! j = nodes (part (ids l1)) !! j) →
  m !! i = Some (Node i (parent n) (name n) (attrs n) (body bare)) →
  (parent n ≠ i → parent n ∈ ids l1 → m !! parent n = with_children (<[name n := i]>) <$> nodes (part (ids l1)) !! parent n) →
  (parent n ∉ ids l1 → parent n ≠ i → m !! parent n = None) →
  m = nodes (part ({[i]} ∪ ids l1)).
Proof.
  intros Ho Hi Hp Hp0. apply map_eq. intros j. rewrite lookup_part. destruct (decide (j = i)) as [->|Hji].
  - rewrite decide_True by set_solver. by rewrite Hi, Hn, <- next_node.
  - assert (decide (j ∈ {[i]} ∪ ids l1) = decide (j ∈ {[i]} ∪ ids l1)) as _ by done. destruct (decide (j = parent n)) as [->|Hjp].
    + destruct (decide (parent n ∈ ids l1)) as [Hin|Hin].
      * rewrite Hp by done. rewrite lookup_part, !decide_True by set_solver. destruct (nodes r !! parent n) as [p|] eqn:Hpn; [|done]. cbn. f_equal.
        unfold with_children. destruct (body p) as [|ch] eqn:Hb; cbn; [by rewrite Hb|]. by rewrite (keep_in_next _ _ _ Hpn Hb), decide_True by done.
      * rewrite Hp0 by done. by rewrite decide_False by set_solver.
    + rewrite Ho by done. rewrite lookup_part. destruct (decide (j ∈ ids l1)) as [Hin|Hin].
      * rewrite decide_True by set_solver. destruct (nodes r !! j) as [p|] eqn:Hpn; [|done]. cbn. f_equal.
        unfold with_children. destruct (body p) as [|ch] eqn:Hb; [done|]. by rewrite (keep_in_next _ _ _ Hpn Hb), decide_False by done.
      * by rewrite decide_False by set_solver.
Qed.

Context (utf8_validate : bytes → bool).
Context (Hpath : cs ≠ [] → file_path_internal utf8_validate (join_slash cs) = Ok (FilePath (join_slash cs))).

(** What [place_node] followed by the attributes makes of the part so far. *)
Definition placed : Prop :=
  ∃ r1 n0, place_node utf8_validate (part (ids l1)) bare (join_slash cs) = Ok r1 ∧ nodes r1 !! i = Some n0 ∧ attrs n0 = ∅ ∧
    set_nodes r1 (alter (with_attrs (attrs n)) i (nodes r1)) = part ({[i]} ∪ ids l1).

Lemma not_there : nodes (part (ids l1)) !! i = None.
Proof. rewrite lookup_part. by rewrite decide_False by apply next_new. Qed.

Lemma place_root : cs = [] → l1 = [] → placed.
Proof.
  intros Hcs Hl1. assert (ids l1 = ∅) as Hids by (rewrite Hl1; done). pose proof next_walk as Hw. rewrite Hcs in Hw. injection Hw as Hi.
  destruct (wf_root r Hwf _ Hroot) as (n' & Hn' & Hd & Hp). assert (n' = n) as -> by congruence. pose proof not_there as Hnt. pose proof (wf_null r Hwf _ _ Hn Hp) as Hnm.
  unfold placed, place_node. cbn [self bare]. rewrite (bool_decide_eq_true_2 (_ = None)) by done. cbn [I_ mbind result_bind]. rewrite Hcs.
  assert (is_dir_t bare && bool_decide (join_slash [] = []) = true) as -> by (unfold is_dir_t, bare in *; cbn in *; by destruct (body n)).
  assert (has_root (set_nodes (part (ids l1)) (<[i := bare]> (nodes (part (ids l1))))) = false) as ->.
  { unfold has_root. cbn. rewrite Hids, decide_False by set_solver. apply bool_decide_eq_false. by intros [? ?]. }
  cbn [negb I_ mbind result_bind]. eexists _, bare. split; [done|]. cbn [set_root set_nodes nodes]. rewrite lookup_insert_eq. split_and!; [done..|].
  unfold set_nodes, set_root. cbn [root_dir nodes old_locations].
  assert (alter (with_attrs (attrs n)) i (<[i := bare]> (nodes (part (ids l1)))) = nodes (part ({[i]} ∪ ids l1))) as ->.
  { apply part_next.
    - intros j Hj _. by rewrite lookup_alter_ne, lookup_insert_ne by done.
    - rewrite lookup_alter_eq, lookup_insert_eq. cbn. unfold with_attrs, bare. cbn. by rewrite Hp, Hnm.
    - intros _ H. exfalso. rewrite Hids in H. set_solver.
    - intros _ Hne. rewrite lookup_alter_ne, lookup_insert_ne by done. rewrite lookup_part. by rewrite decide_False by (rewrite Hids; set_solver). }
  unfold part at 3. by rewrite (decide_True (P := root ∈ {[i]} ∪ ids l1)), Hi by (rewrite Hi; set_solver).
Qed.

Lemma place_below cs1 k : cs = cs1 ++ [k] → placed.
Proof.
  intros Hcs. pose proof next_walk as Hw. rewrite Hcs in Hw. pose proof Hw as Hw'. rewrite walk_app in Hw. apply bind_Ok_inv in Hw as (pi & Hpi & Hw).
  destruct (walk_child r root Hwf Hroot _ _ _ Hw) as (n' & Hn' & Hpar & Hname & Hir). assert (n' = n) as -> by congruence. clear Hn'.
  assert (cs1 ∈ l1.*1) as Hcs1.
  { eapply (proj1 (visits_parent_first r) _ _ _ Hv l1 cs1 k i l3); [by rewrite E, E2, Hcs|by intros [_ ?]%app_eq_nil]. }
  pose proof (l1_ids _ _ Hcs1 Hpi) as Hpiin. destruct (walk_exists r root Hwf Hroot _ _ Hpi) as [p Hp]. destruct (wf_self r Hwf _ _ Hp) as [Hps Hpi0].
  assert (parent n ≠ the_null_node) as Hnn by congruence. pose proof (wf_parent_name r _ _ Hwf Hn Hnn) as Hk. rewrite Hname in Hk.
  assert (root ∈ ids l1) as Hrin.
  { apply (l1_ids [] root); [|done]. clear - Hcs1 E Hv. revert Hcs1. induction cs1 as [|k' c IH] using rev_ind; [done|]. intros H%l1_closed. by apply IH. }
  assert (pi ≠ i) as Hne by (intros ->; by apply next_new).
  set (R := set_nodes (part (ids l1)) (<[i := bare]> (nodes (part (ids l1))))). set (d := with_children (keep_in (ids l1)) p).
  assert (get_node_path R (FilePath (join_slash cs1)) = Ok d) as Hdir.
  { assert (get_node_internal R (FilePath (join_slash cs1)) = Ok pi) as Hgi.
    { unfold get_node_internal. assert (root_dir R = Some root) as -> by (unfold R; cbn; by rewrite decide_True). cbn [of_option mbind result_bind].
      unfold fp_empty. cbn [data]. destruct (decide (cs1 = [])) as [E0|Hcs1n].
      - rewrite E0 in *. by injection Hpi as <-.
      - pose proof (walk_names r root _ _ Hwf Hroot Hpi) as Hnames. rewrite bool_decide_eq_false_2.
        + rewrite split_join; [|done|]; [|eapply Forall_impl; [exact Hnames|]; intros pc (_ & j & m & Hj & <-); by eapply Hslash].
          apply walk_insert; [apply not_there|]. by apply walk_part.
        + destruct cs1 as [|w ws]; [done|]. apply join_slash_nonempty. by inversion Hnames as [|? ? [? _]]. }
    unfold get_node_path. rewrite Hgi. cbn [mbind result_bind]. unfold get_node, R. cbn [nodes set_nodes]. rewrite lookup_insert_ne by done.
    rewrite lookup_part, decide_True by done. by rewrite Hp. }
  destruct (wf_parent r Hwf _ _ Hn Hnn) as (p' & ch & Hp' & Hb & Hc). rewrite Hpar in Hp'. assert (p' = p) as -> by congruence. rewrite Hname in Hc.
  assert (attach_node_at R i (self d) k = Ok (set_old (set_nodes R (alter (with_loc pi k) i (alter (with_children (<[k := i]>)) pi (nodes R)))) ∅)) as Hatt.
  { assert (self d = pi) as -> by (unfold d, with_children; rewrite Hb; done). unfold attach_node_at.
    assert (nodes R !! i = Some bare) as Hi by apply lookup_insert_eq.
    assert (nodes R !! pi = Some d) as Hpd by (unfold R; cbn [nodes set_nodes]; rewrite lookup_insert_ne, lookup_part, decide_True, Hp by done; done).
    unfold get_node. rewrite Hi. cbn [of_option mbind result_bind self parent name bare]. destruct (wf_self r Hwf _ _ Hn) as [_ Hi0].
    rewrite (proj2 (null_node_false i) Hi0). cbn [negb I_ mbind result_bind]. change (null_node the_null_node) with true. cbn [I_ mbind result_bind].
    rewrite (bool_decide_eq_true_2 ([] = [])) by done. cbn [I_ mbind result_bind]. rewrite (proj2 (null_node_false pi) Hpi0), (bool_decide_eq_false_2 (k = [])) by done. cbn [orb].
    unfold attach_child, get_node. rewrite Hi, Hpd. cbn [of_option mbind result_bind]. unfold downcast_to_dir_t, d, with_children. rewrite Hb. cbn [body with_body mbind result_bind parent name bare].
    change (null_node the_null_node) with true. rewrite (bool_decide_eq_true_2 ([] = [])) by done. cbn [I_ mbind result_bind].
    rewrite safe_insert_fresh.
    2:{ destruct (keep_in (ids l1) ch !! k) as [c|] eqn:Hkc; [|done]. apply keep_in_lookup in Hkc as [Hkc Hin]. assert (c = i) as -> by congruence. by apply next_new in Hin. }
    cbn [mbind result_bind nodes set_nodes]. rewrite lookup_alter_eq, lookup_alter_ne by done.
    change (nodes R !! i) with (nodes R !! i). rewrite Hi. cbn [fmap option_fmap option_map of_option mbind result_bind].
    change (old_locations R) with (∅ : gmap Z (Z * bytes)). rewrite lookup_empty, bool_decide_eq_true_2 by done. cbn [I_ mbind result_bind].
    change (old_locations (set_nodes R _)) with (∅ : gmap Z (Z * bytes)). by rewrite delete_empty. }
  assert (join_slash cs ≠ []) as Hjs by (rewrite Hcs, join_snoc; by intros [_ ?]%app_eq_nil).
  unfold placed, place_node. cbn [self bare]. pose proof not_there as Hnt. rewrite (bool_decide_eq_true_2 (_ = None)) by done. cbn [I_ mbind result_bind].
  rewrite !(bool_decide_eq_false_2 (join_slash cs = [])), andb_false_r by done. cbn [negb I_ mbind result_bind]. rewrite Hpath by (rewrite Hcs; by intros [_ ?]%app_eq_nil).
  cbn [mbind result_bind]. fold R. unfold attach_node, fp_empty. cbn [data]. rewrite (bool_decide_eq_false_2 (join_slash cs = [])) by done.
  assert (cs1 ≠ [] → join_slash cs1 ≠ []) as Hj1.
  { intros Hcs1n. pose proof (walk_names r root _ _ Hwf Hroot Hpi) as Hnames. destruct cs1 as [|w ws]; [done|]. apply join_slash_nonempty. by inversion Hnames as [|? ? [? _]]. }
  rewrite Hcs. rewrite dirname_basename_join; [|rewrite <- Hname; by eapply Hslash|done..]. cbn [mbind result_bind]. rewrite Hdir. cbn [mbind result_bind]. rewrite Hatt.
  eexists _, (with_loc pi k bare). split; [done|]. cbn [nodes set_old set_nodes]. split_and!; [|done|].
  { rewrite lookup_alter_eq, lookup_alter_ne by done. unfold R. cbn [nodes set_nodes]. by rewrite lookup_insert_eq. }
  unfold set_nodes, set_old. cbn [root_dir nodes old_locations].
  transitivity (Roster (root_dir R) (nodes (part ({[i]} ∪ ids l1))) ∅); [f_equal|].
  2:{ unfold R, set_nodes, part. cbn [root_dir nodes]. f_equal. rewrite (decide_True (P := root ∈ ids l1)) by done. by rewrite decide_True by (apply elem_of_union; by right). }
  - apply part_next; rewrite ?Hpar, ?Hname.
    + intros j Hj Hjp. rewrite !lookup_alter_ne by done. unfold R. cbn [nodes set_nodes]. by rewrite lookup_insert_ne.
    + rewrite !lookup_alter_eq, lookup_alter_ne by done. unfold R. cbn [nodes set_nodes]. rewrite lookup_insert_eq. done.
    + intros _ _. rewrite !lookup_alter_ne by done. rewrite lookup_alter_eq. unfold R. cbn [nodes set_nodes]. by rewrite lookup_insert_ne.
    + intros H. done.
Qed.

Lemma place_next : placed.
Proof.
  destruct (decide (cs = [])) as [E0|Hne].
  - apply place_root; [done|]. by apply (out_first r root Hwf Hroot out Hv l1 cs i l3); [rewrite E, E2|].
  - destruct (exists_last Hne) as (c & k & Ec). by apply (place_below c k).
Qed.
End prefix.
End rebuild.
