(* ===== verification/RosterRoundtrip.v ===== *)
(** * Reading back a written roster

    [read_roster_and_marking (write_roster_and_marking r mm) = (r, mm)]. *)

From S2P Require Import Prelude Numbers Paths Hex BasicIo Roster RosterInvariant Marking Cset CsetIo DfsIter DfsCorrect DfsSane RosterIo RosterText RosterRead RosterRebuild.

(** ** Maps with the same keys *)

Lemma sorted_unique `{Ordered K} (l : list K) : ∀ l',
  StronglySorted (λ x y, klt x y = true) l → StronglySorted (λ x y, klt x y = true) l' → (∀ x, x ∈ l ↔ x ∈ l') → l = l'.
Proof.
  induction l as [|x l IH]; intros [|y l'] Hl Hl' Hin; [done| | |].
  - exfalso. assert (y ∈ []) as ?%not_elem_of_nil by (apply Hin; left). done.
  - exfalso. assert (x ∈ []) as ?%not_elem_of_nil by (apply Hin; left). done.
  - apply StronglySorted_inv in Hl as [Hl Hx]. apply StronglySorted_inv in Hl' as [Hl' Hy]. rewrite Forall_forall in Hx, Hy.
    assert (x = y) as ->.
    { assert (x ∈ y :: l') as [|Hx']%elem_of_cons by (apply Hin; left); [done|]. assert (y ∈ x :: l) as [|Hy']%elem_of_cons by (apply Hin; left); [done|].
      specialize (Hx _ Hy'). specialize (Hy _ Hx'). apply klt_asym in Hx. congruence. }
    f_equal. apply IH; [done..|]. intros z. split; intros Hz.
    + assert (z ∈ y :: l') as [->|?]%elem_of_cons by (apply Hin; by right); [|done]. specialize (Hx _ Hz). by rewrite klt_irrefl in Hx.
    + assert (z ∈ y :: l) as [->|?]%elem_of_cons by (apply Hin; by right); [|done]. specialize (Hy _ Hz). by rewrite klt_irrefl in Hy.
Qed.

Lemma same_keys {V W} (m : gmap Z V) (m' : gmap Z W) : dom m = dom m' → (map_iter m).*1 = (map_iter m').*1.
Proof.
  intros E. apply sorted_unique; [apply map_keys_sorted..|]. intros x. rewrite !elem_of_map_keys, <- !elem_of_dom. by rewrite E.
Qed.

Lemma check_nodes_pairs l : ∀ ms,
  check_nodes_against l ms = Ok tt → l.*1 = ms.*1 → NoDup l.*1 → ∀ i n m, (i, n) ∈ l → (i, m) ∈ ms → check_node_against n m = Ok tt.
Proof.
  induction l as [|[j n'] l IH]; intros [|[j' m'] ms] Hc E Hnd i n m Hn Hm; [by apply not_elem_of_nil in Hn|done|done|].
  rewrite !fmap_cons in *. cbn [fst] in *. injection E as <- E. apply NoDup_cons in Hnd as [Hj Hnd]. cbn [check_nodes_against] in Hc. apply bind_Ok_inv in Hc as ([] & Hc1 & Hc).
  apply elem_of_cons in Hn as [Hn|Hn], Hm as [Hm|Hm].
  - injection Hn as -> ->. by injection Hm as ->.
  - injection Hn as -> ->. exfalso. apply Hj. rewrite E. apply list_elem_of_fmap. by exists (j, m).
  - injection Hm as -> ->. exfalso. apply Hj. apply list_elem_of_fmap. by exists (j, n).
  - by eapply IH.
Qed.

(** ** Rosters that can be written and read *)

Record roster_text_ok (utf8_validate : bytes → bool) (r : roster) (mm : marking_map) : Prop := {
  rt_wf : rwf r;
  rt_against : check_sane_against r mm false = Ok tt;
  rt_same : dom mm = dom (nodes r);
  rt_names i n : nodes r !! i = Some n → no_slash (name n);
  rt_paths root cs i :
    root_dir r = Some root → walk r root cs = Ok i → cs ≠ [] → valid_path utf8_validate (FilePath (join_slash cs));
  rt_self i n : nodes r !! i = Some n → 0 < i < 2 ^ 32;
  rt_content i n f : nodes r !! i = Some n → body n = FileBody f → id_ok f;
  rt_attrs i n k v : nodes r !! i = Some n → attrs n !! k = Some v → no_backslash k ∧ no_backslash v.2;
  rt_marks i m : mm !! i = Some m → id_ok (birth_revision m) ∧ (∀ x, x ∈ parent_name m ∪ file_content m → id_ok x);
  rt_attr_marks i m k s x : mm !! i = Some m → attr_marks m !! k = Some s → x ∈ s → id_ok x
}.

Lemma valid_path_no_backslash utf8_validate s : valid_path utf8_validate (FilePath s) → s ≠ [] → no_backslash s.
Proof.
  unfold valid_path, file_path_internal. cbn [data]. intros H Hs. inv_ok. unfold is_valid_internal in *. inv_ok.
  match goal with H : fully_normalized_path s = true |- _ => apply fully_normalized_spec in H as (_ & Hbad & _); [|done] end.
  intros Hin. unfold has_bad_chars in Hbad. assert (existsb bad_char s = true); [|congruence]. apply existsb_exists. exists backslash_char. split; [by apply list_elem_of_In|done].
Qed.

Section roundtrip.
Context (utf8_validate : bytes → bool) (r : roster) (mm : marking_map) (Hok : roster_text_ok utf8_validate r mm).
Context (root : Z) (Hroot : root_dir r = Some root) (out : list (list bytes * Z)) (Hv : visits r [] root out).

Let Hwf : rwf r := rt_wf _ _ _ Hok.

Lemma is_sane : sane r false.
Proof.
  apply (check_sane_iff r false Hwf). pose proof (rt_against _ _ _ Hok) as H. unfold check_sane_against in H. apply bind_Ok_inv in H as (u & E & _). by rewrite E.
Qed.

Lemma writable cs i :
  walk r root cs = Ok i → ∃ n m, nodes r !! i = Some n ∧ mm !! i = Some m ∧ self n = i ∧ node_text_ok n m (join_slash cs).
Proof.
  intros Hw. destruct (walk_exists r root Hwf Hroot _ _ Hw) as [n Hn]. assert (is_Some (mm !! i)) as [m Hm].
  { apply elem_of_dom. rewrite (rt_same _ _ _ Hok). apply elem_of_dom. eauto. }
  destruct (wf_self r Hwf _ _ Hn) as [Hs _]. exists n, m. split_and!; [done..|]. pose proof is_sane as Hsane. destruct (rt_marks _ _ _ Hok _ _ Hm) as [Hb Hmk].
  constructor; try done.
  - destruct (decide (cs = [])) as [->|Hcs]; [apply not_elem_of_nil|]. eapply valid_path_no_backslash; [by eapply (rt_paths _ _ _ Hok)|].
    pose proof (walk_names r root _ _ Hwf Hroot Hw) as Hnames. destruct cs as [|w ws]; [done|]. apply join_slash_nonempty. by inversion Hnames as [|? ? [? _]].
  - rewrite Hs. by eapply (rt_self _ _ _ Hok).
  - intros f. by eapply (rt_content _ _ _ Hok).
  - intros k v. by eapply (rt_attrs _ _ _ Hok).
  - apply (proj1 (attrs_sane_iff r) (sane_attrs_ok _ _ Hsane) i n Hn).
  - pose proof (rt_against _ _ _ Hok) as H. unfold check_sane_against in H. apply bind_Ok_inv in H as (u & _ & H).
    eapply check_nodes_pairs; [exact H|by apply same_keys; rewrite (rt_same _ _ _ Hok)|apply NoDup_fst_map_iter|by apply elem_of_map_iter|by apply elem_of_map_iter].
  - intros k s x Hk Hx. by eapply (rt_attr_marks _ _ _ Hok).
Qed.

(** The tokens of an entry of the walk. *)
Definition toks_at (x : list bytes * Z) : list tok :=
  match nodes r !! x.2, mm !! x.2 with Some n, Some m => toks_node n m (join_slash x.1) | _, _ => [] end.

Lemma toks_at_eq cs i n m : nodes r !! i = Some n → mm !! i = Some m → toks_at (cs, i) = toks_node n m (join_slash cs).
Proof. intros Hn Hm. unfold toks_at. cbn. by rewrite Hn, Hm. Qed.

Lemma print_one_eq i n path buf s :
  nodes r !! i = Some n → print_node mm true n path = Ok s → print_one r mm true buf (Ok path) i = Ok (buf ++ newline :: s).
Proof. intros Hn Hp. unfold print_one, get_node. rewrite Hn. cbn [of_option mbind result_bind]. by rewrite Hp. Qed.

Lemma print_ok l : ∀ buf ts,
  (∀ x, x ∈ l → walk r root x.1 = Ok x.2) → spells internal buf ts →
  ∃ buf', foldM (at_node true (print_one r mm true)) l buf = Ok buf' ∧
    spells internal buf' (ts ++ concat (toks_at <$> l)).
Proof.
  induction l as [|[cs i] l IH]; intros buf ts Hl Hb; [exists buf; by rewrite app_nil_r|]. cbn [foldM]. destruct (writable cs i (Hl (cs, i) ltac:(left))) as (n & m & Hn & Hm & Hs & Hnt).
  rewrite <- Hs in Hm. destruct (print_node_ok internal mm n m (join_slash cs) Hnt Hm) as (s & Hp & Hsp).
  change (at_node true (print_one r mm true) buf (cs, i)) with (print_one r mm true buf (Ok (join_slash cs)) i). rewrite (print_one_eq i n _ buf s Hn Hp).
  cbn [mbind result_bind]. rewrite fmap_cons. cbn [concat]. rewrite (toks_at_eq cs i n m Hn) by (by rewrite <- Hs). rewrite app_assoc.
  apply IH; [intros x Hx; apply Hl; by right|]. apply spells_app; [done|]. change (newline :: s) with ([newline] ++ s). by apply (spells_app internal _ [] _ _); [apply spells_space|].
Qed.

(** ** The loop of [parse_from] *)

Definition marks_of (V : gset Z) : marking_map := filter (λ p, p.1 ∈ V) mm.

Lemma marks_next V i m : mm !! i = Some m → <[i := m]> (marks_of V) = marks_of ({[i]} ∪ V).
Proof.
  intros Hm. apply map_eq. intros j. apply option_eq. intros m'. unfold marks_of. rewrite map_lookup_filter_Some. cbn [fst]. destruct (decide (j = i)) as [->|Hne].
  - rewrite lookup_insert_eq. split; [intros [= <-]; set_solver|intros [? _]; congruence].
  - rewrite lookup_insert_ne by done. rewrite map_lookup_filter_Some. cbn [fst]. set_solver.
Qed.

Lemma stanzas_end l : stanza_end (concat (toks_at <$> l)).
Proof.
  induction l as [|x l IH]; [done|]. rewrite fmap_cons. cbn [concat]. unfold toks_at at 1. destruct (nodes r !! x.2) as [n|], (mm !! x.2) as [m|]; try exact IH.
  unfold toks_node, toks_head. destruct (body n); cbn; auto.
Qed.

Lemma parse_nodes_ok l2 : ∀ l1 fuel p,
  out = l1 ++ l2 → at_tokens internal p (concat (toks_at <$> l2)) → (length l2 < fuel)%nat →
  ∃ p', parse_nodes utf8_validate internal fuel (part r root (ids l1)) (marks_of (ids l1)) p =
        Ok (part r root (ids out), marks_of (ids out), p') ∧ at_tokens internal p' [].
Proof.
  induction l2 as [|[cs i] l2 IH]; intros l1 fuel p E Hp Hf; (destruct fuel as [|fuel]; [cbn in Hf; lia|]); cbn [parse_nodes].
  - rewrite app_nil_r in E. subst l1. exists p. split; [|done]. destruct Hp as [Ht _]. unfold symp_any. by rewrite Ht.
  - assert (walk r root cs = Ok i) as Hw by (apply (out_walk r root out Hv (cs, i)); rewrite E; apply elem_of_app; right; by left).
    destruct (writable cs i Hw) as (n & m & Hn & Hm & Hs & Hnt). rewrite fmap_cons in Hp. cbn [concat] in Hp. rewrite (toks_at_eq cs i n m Hn Hm) in Hp.
    unfold toks_node in Hp. rewrite <- !app_assoc in Hp.
    destruct (parse_head_ok internal n p (join_slash cs) _ (nt_self _ _ _ Hnt) (nt_content _ _ _ Hnt) Hp) as (-> & p1 & -> & Hp1). cbn [mbind result_bind]. rewrite Hs. fold (bare i n).
    destruct (place_next r root Hwf Hroot out Hv (rt_names _ _ _ Hok) l1 _ E cs i l2 eq_refl n Hn utf8_validate) as (r1 & n0 & -> & Hn0 & Ha0 & Hpart).
    { intros Hcs. by eapply (rt_paths _ _ _ Hok). }
    cbn [mbind result_bind self bare]. rewrite <- Hs in Hn0.
    destruct (parse_rest_ok utf8_validate internal r1 (marks_of (ids l1)) n m (join_slash cs) n0 p1 (concat (toks_at <$> l2)) Hnt Hn0 Ha0) as (p2 & E2 & Hp2).
    { apply map_lookup_filter_None. right. intros m' _. cbn [fst]. rewrite Hs. by eapply (next_new r root Hwf Hroot out Hv l1 _ E cs i l2). }
    { done. }
    { apply stanzas_end. }
    rewrite Hs in E2. rewrite E2. cbn [mbind result_bind]. rewrite Hpart, (marks_next _ _ _ Hm). change {[i]} with ({[(cs, i).2]} : gset Z). rewrite <- ids_snoc.
    apply (IH (l1 ++ [(cs, i)])); [by rewrite <- app_assoc|done|cbn in Hf; lia].
Qed.

Lemma all_ids : ids out = dom (nodes r).
Proof.
  apply (anti_symm (⊆)); [by apply (out_sub r root Hwf Hroot)|]. intros i [n Hn]%elem_of_dom. destruct (sane_reach _ _ is_sane) as (root' & Hr' & Hreach).
  assert (root' = root) as -> by congruence. destruct (Hreach i n Hn) as (cs & Hw). apply elem_of_ids. exists cs. by eapply out_complete.
Qed.

Lemma part_all : part r root (ids out) = r.
Proof.
  rewrite all_ids. destruct (wf_root r Hwf _ Hroot) as (rn & Hrn & _). unfold part. rewrite decide_True by (apply elem_of_dom; eauto). pose proof (sane_old _ _ is_sane) as Ho.
  assert (map_imap (λ i n, if decide (i ∈ dom (nodes r)) then Some (with_children (keep_in (dom (nodes r))) n) else None) (nodes r) = nodes r) as ->.
  { apply map_eq. intros i. rewrite map_lookup_imap. destruct (nodes r !! i) as [n|] eqn:Hn; [|done]. cbn. rewrite decide_True by (apply elem_of_dom; eauto). f_equal.
    unfold with_children. destruct (body n) as [|ch] eqn:Hb; [done|]. assert (keep_in (dom (nodes r)) ch = ch) as ->.
    { apply map_eq. intros k. apply option_eq. intros c. rewrite keep_in_lookup. split; [tauto|]. intros Hk. split; [done|].
      destruct (wf_child r Hwf _ _ _ _ _ Hn Hb Hk) as (_ & cn & Hcn & _). apply elem_of_dom. eauto. }
    destruct n. cbn in *. by subst. }
  destruct r as [ro m ol]; cbn in *. by subst.
Qed.

Lemma marks_all : marks_of (ids out) = mm.
Proof.
  rewrite all_ids. unfold marks_of. apply map_filter_id. intros i m Hm. cbn. rewrite <- (rt_same _ _ _ Hok). apply elem_of_dom. eauto.
Qed.

Lemma stanza_length l : (∀ x, x ∈ l → walk r root x.1 = Ok x.2) → (2 * length l ≤ length (concat (toks_at <$> l)))%nat.
Proof.
  induction l as [|[cs i] l IH]; intros Hl; [cbn; lia|]. rewrite fmap_cons. cbn [concat length]. destruct (writable cs i (Hl (cs, i) ltac:(left))) as (n & m & Hn & Hm & _).
  rewrite (toks_at_eq cs i n m Hn Hm), length_app. specialize (IH (λ x Hx, Hl x (list_elem_of_further _ _ _ Hx))). unfold toks_node, toks_head. rewrite !length_app. destruct (body n); cbn [length]; lia.
Qed.
End roundtrip.

(** C10: a sane roster with the markings of its nodes, whose paths are valid and whose attributes have no backslash, is written, and
    reading the text gives back exactly the same roster and markings: the layout by [dfs_iter], the quoting, the attaching of each
    node at its path, live and dead attributes, every kind of mark and the closing checks all agree. *)
Theorem roster_roundtrip utf8_validate r mm :
  roster_text_ok utf8_validate r mm →
  ∃ dat, write_roster_and_marking r mm = Ok dat ∧ read_roster_and_marking utf8_validate dat = Ok (r, mm).
Proof.
  intros Hok. pose proof (rt_wf _ _ _ Hok) as Hwf. destruct (sane_reach _ _ (is_sane _ _ _ Hok)) as (root & Hroot & _). destruct (visits_exist r root Hwf Hroot) as (out & Hv).
  pose proof (out_walk r root out Hv) as Hw. pose proof (rt_against _ _ _ Hok) as Hag.
  assert (spells internal format_line [tsym rsyms.format_version; tstr (lit "1")]) as Hfmt by (apply (spells_line internal 0 rsyms.format_version (escape (lit "1"))); [done|apply spells_escape]).
  destruct (print_ok _ r mm Hok root Hroot out format_line _ Hw Hfmt) as (dat & Hprint & Hsp). exists dat. split.
  - unfold write_roster_and_marking, write_roster, print_to. rewrite Hag. cbn [mbind result_bind]. unfold has_root. rewrite Hroot, bool_decide_eq_true_2 by done. cbn [I_ mbind result_bind].
    by rewrite (dfs_for_visits _ r true root out) by (done || by eapply out_length).
  - unfold read_roster_and_marking, parse_from. destruct (at_new internal dat _ (spells_lexes _ _ _ Hsp)) as (p & -> & Hp). cbn [mbind result_bind app] in *.
    destruct (at_esym internal _ _ _ Hp) as (p1 & -> & Hp1). cbn [mbind result_bind]. destruct (at_str internal _ _ _ Hp1) as (p2 & -> & Hp2). cbn [mbind result_bind].
    rewrite (bool_decide_eq_true_2 (lit "1" = lit "1")) by done. cbn [I_ mbind result_bind].
    destruct (parse_nodes_ok _ r mm Hok root Hroot out Hv out [] (S (length (src p2))) p2 eq_refl Hp2) as (p3 & E & _ & Hsrc).
    { pose proof (at_length internal _ _ Hp2). pose proof (stanza_length _ r mm Hok root Hroot out Hw). inversion Hv; subst; cbn [length] in *; lia. }
    assert (part r root (ids []) = empty_roster) as Hempty.
    { unfold part, empty_roster, ids. cbn. rewrite decide_False by set_solver. f_equal. apply map_eq. intros i. rewrite map_lookup_imap, lookup_empty. by destruct (nodes r !! i). }
    assert (marks_of mm (ids []) = ∅) as Hnone.
    { unfold marks_of. apply map_empty. intros i. apply map_lookup_filter_None. right. intros m _. unfold ids. cbn. set_solver. }
    rewrite Hempty, Hnone, (part_all _ r mm Hok root Hroot out Hv), (marks_all _ r mm Hok root Hroot out Hv) in E. rewrite E. cbn [mbind result_bind]. rewrite Hsrc. cbn [peek Z.eqb I_ mbind result_bind].
    change (EOF =? EOF) with true. cbn [I_ mbind result_bind]. by rewrite Hag.
Qed.

(** ** An example *)

(** The paths a walk collects are all there are. *)
Lemma collected_paths r root l :
  rwf r → root_dir r = Some root → dfs_for (λ st p i, s ← p; Ok (st ++ [s])) r true [] = Ok l →
  ∀ cs i, walk r root cs = Ok i → join_slash cs ∈ l.
Proof.
  intros Hwf Hroot Hl cs i Hw. destruct (visits_exist r root Hwf Hroot) as (out & Hv).
  rewrite (dfs_for_visits _ r true root out) in Hl by (done || by eapply out_length).
  assert (∀ o acc, foldM (at_node true (λ st p i, s ← p; Ok (st ++ [s]))) o acc = Ok (acc ++ (join_slash <$> o.*1))) as Hfold.
  { induction o as [|x o IH]; intros acc; [cbn; by rewrite app_nil_r|]. cbn [foldM]. change (at_node _ _ acc x) with (Ok (acc ++ [join_slash x.1])). cbn [mbind result_bind].
    rewrite IH, !fmap_cons, <- app_assoc. done. }
  rewrite Hfold in Hl. injection Hl as <-. cbn [app]. apply list_elem_of_fmap. exists cs. split; [done|]. apply list_elem_of_fmap. exists (cs, i). split; [done|]. by eapply out_complete.
Qed.

Definition id_ok_b (v : bytes) : bool := bool_decide (v = []) || bool_decide (length v = idlen_bytes).

Lemma id_ok_b_sound v : id_ok_b v = true → id_ok v.
Proof. unfold id_ok_b, id_ok. rewrite orb_true_iff, !bool_decide_eq_true. done. Qed.

Definition node_b (n : node) : bool :=
  bool_decide (no_slash (name n)) && (0 <? self n) && (self n <? 2 ^ 32) && match body n with FileBody f => id_ok_b f | DirBody _ => true end &&
  all_pairs (λ k v, bool_decide (backslash_char ∉ k) && bool_decide (backslash_char ∉ v.2)) (attrs n).

Definition marking_b (m : marking) : bool :=
  id_ok_b (birth_revision m) && forallb id_ok_b (elements (parent_name m ∪ file_content m)) && all_pairs (λ _ s, forallb id_ok_b (elements s)) (attr_marks m).

(** A test for the hypotheses of the round trip. *)
Lemma roster_text_b utf8_validate r mm l :
  complete r → check_sane_against r mm false = Ok tt → bool_decide (dom mm = dom (nodes r)) = true →
  dfs_for (λ st p i, s ← p; Ok (st ++ [s])) r true [] = Ok l →
  forallb (λ s, utf8_validate s && is_valid_internal s) l = true →
  all_pairs (λ _ n, node_b n) (nodes r) = true → all_pairs (λ _ m, marking_b m) mm = true →
  roster_text_ok utf8_validate r mm.
Proof.
  intros Hc Hag Hdom Hl Hpaths Hn Hm. pose proof (complete_wf _ Hc) as Hwf. apply bool_decide_eq_true in Hdom.
  assert (∀ i n, nodes r !! i = Some n → node_b n = true) as Hnb by (intros i n Hi; exact (all_pairs_spec _ _ _ _ Hn Hi)).
  assert (∀ i m, mm !! i = Some m → marking_b m = true) as Hmb by (intros i m Hi; exact (all_pairs_spec _ _ _ _ Hm Hi)).
  unfold node_b in Hnb. unfold marking_b in Hmb. constructor; try done.
  - intros i n Hi. specialize (Hnb i n Hi). rewrite !andb_true_iff, bool_decide_eq_true in Hnb. tauto.
  - intros root cs i Hroot Hw Hcs. pose proof (collected_paths r root l Hwf Hroot Hl cs i Hw) as Hin. rewrite forallb_forall in Hpaths. specialize (Hpaths _ (proj1 (list_elem_of_In _ _) Hin)).
    apply andb_true_iff in Hpaths as [H1 H2]. unfold valid_path, file_path_internal. cbn [data]. by rewrite H1, H2.
  - intros i n Hi. specialize (Hnb i n Hi). destruct (wf_self r Hwf _ _ Hi) as [<- _]. rewrite !andb_true_iff in Hnb. lia.
  - intros i n f Hi Hb. specialize (Hnb i n Hi). rewrite Hb, !andb_true_iff in Hnb. apply id_ok_b_sound. tauto.
  - intros i n k v Hi Hk. specialize (Hnb i n Hi). rewrite !andb_true_iff in Hnb. destruct Hnb as [_ Ha]. pose proof (all_pairs_spec _ _ _ _ Ha Hk) as H. cbn in H.
    by rewrite andb_true_iff, !bool_decide_eq_true in H.
  - intros i m Hi. specialize (Hmb i m Hi). rewrite !andb_true_iff, forallb_forall in Hmb. destruct Hmb as [[H1 H2] _]. split; [by apply id_ok_b_sound|].
    intros x Hx. apply id_ok_b_sound, H2. apply list_elem_of_In. by apply elem_of_elements.
  - intros i m k s x Hi Hk Hx. specialize (Hmb i m Hi). rewrite !andb_true_iff in Hmb. destruct Hmb as [_ Ha]. pose proof (all_pairs_spec _ _ _ _ Ha Hk) as H. cbn in H.
    rewrite forallb_forall in H. apply id_ok_b_sound, H. apply list_elem_of_In. by apply elem_of_elements.
Qed.

Lemma roster_roundtrip_witness :
  ∃ dat, write_roster_and_marking (ex_roster [quote_char]) ex_markings = Ok dat ∧ read_roster_and_marking (λ _, true) dat = Ok (ex_roster [quote_char], ex_markings).
Proof.
  apply roster_roundtrip. eapply (roster_text_b _ _ _ [[]; lit "d"; lit "d/f"]); [apply complete_b_sound|..]; vm_compute; reflexivity.
Defined.
