(* ===== verification/Revision.v ===== *)
(** * Revisions (revision.cc, revision.hh)

    A revision names its manifest and, for each parent, the cset that leads
    from that parent to it.  The SHA-1 of Botan is the parameter [sha1]. *)

From S2P Require Import Prelude Numbers Paths Hex BasicIo Roster RosterInvariant Marking ParallelIter Cset CsetApply CsetRoster DfsIter RosterIo.

Inductive made_for_t := made_for_nobody | made_for_workspace | made_for_database.

Record revision_t := Revision {
  rev_made_from : origin_type;
  new_manifest : bytes;
  edges : gmap bytes cset;
  made_for : made_for_t
}.

Abbreviation parent_map := (gmap (list ascii) (roster * marking_map)).

Definition edge_count (rev : revision_t) : nat := size (edges rev).

(** [revision_t::check_sane] *)
Definition rev_check_sane (rev : revision_t) : result unit :=
  E_ (negb (bool_decide (new_manifest rev = []))) (rev_made_from rev) ;;
  if (edge_count rev =? 1)%nat then Ok tt
  else if (edge_count rev =? 2)%nat then
    foldM (λ _ e, E_ (negb (bool_decide (e.1 = []))) (rev_made_from rev)) (map_iter (edges rev)) tt
  else E_ false (rev_made_from rev).

Definition is_merge_node (rev : revision_t) : bool := (1 <? edge_count rev)%nat.

Definition is_nontrivial (rev : revision_t) : result bool :=
  rev_check_sane rev ;;
  if is_merge_node rev then Ok true
  else
    match map_iter (edges rev) with
    | [] => Err UndefinedBehaviour
    | (_, cs) :: _ => Ok (negb (cset_empty cs))
    end.

(** ** Making revisions *)

Section make.
Context (sha1 : bytes → bytes).

(** [calculate_ident(roster_t, bool)] *)
Definition calculate_roster_ident (r : roster) (do_sanity_check : bool) : result bytes :=
  tmp ← (if decide (nodes r = ∅) then Ok [] else write_manifest_of_roster r do_sanity_check);
  Ok (sha1 tmp).

Definition make_revision (old_rev_id : bytes) (old_roster new_roster : roster) : result revision_t :=
  cs ← make_cset old_roster new_roster false;
  man ← calculate_roster_ident new_roster true;
  es ← safe_insert ∅ old_rev_id cs;
  Ok (Revision internal man es made_for_database).

(** The overload that takes a cset and applies it. *)
Definition make_revision_by_cset (old_rev_id : bytes) (old_roster : roster) (changes : cset) : result revision_t :=
  er ← apply_to changes (EditableRoster old_roster first_temp_node);
  man ← calculate_roster_ident (er_roster er) true;
  es ← safe_insert ∅ old_rev_id changes;
  Ok (Revision internal man es made_for_database).

Definition make_edges (f : cset → cset) (old_rosters : parent_map) (new_roster : roster) : result (gmap bytes cset) :=
  foldM (λ es i, cs ← make_cset i.2.1 new_roster false; safe_insert es i.1 (f cs)) (map_iter old_rosters) ∅.

(** The overload for a workspace with several parents: [made_for] keeps its default. *)
Definition make_revision_of_parents (old_rosters : parent_map) (new_roster : roster) : result revision_t :=
  es ← make_edges id old_rosters new_roster;
  man ← calculate_roster_ident new_roster true;
  Ok (Revision internal man es made_for_nobody).

(** [fake_id]: the next value of a static counter, as an id *)
Definition hex_byte (b : Z) : bytes := hex_encode [byte_of b].
Definition hex_u32 (n : Z) : bytes := concat (hex_byte <$> [n / 2 ^ 24; n / 2 ^ 16 mod 256; n / 2 ^ 8 mod 256; n mod 256]).

Definition fake_id (counter : Z) : result (bytes * Z) :=
  let counter := u32 (counter + 1) in
  I_ (1 <=? counter) ;;
  i ← hex_decode internal (repeat "0"%char 32 ++ hex_u32 counter);
  i ← verify_id internal i;
  Ok (i, counter).

Definition clear_deltas (cs : cset) : cset := set_deltas_applied cs ∅.

Definition make_revision_for_workspace (counter : Z) (old_rev_id : bytes) (changes : cset) : result (revision_t * Z) :=
  es ← safe_insert ∅ old_rev_id (clear_deltas changes);
  '(man, counter) ← fake_id counter;
  Ok (Revision internal man es made_for_workspace, counter).

Definition make_revision_for_workspace_rosters (counter : Z) (old_rev_id : bytes) (old_roster new_roster : roster) : result (revision_t * Z) :=
  cs ← make_cset old_roster new_roster false;
  make_revision_for_workspace counter old_rev_id cs.

Definition make_revision_for_workspace_parents (counter : Z) (old_rosters : parent_map) (new_roster : roster) : result (revision_t * Z) :=
  es ← make_edges clear_deltas old_rosters new_roster;
  '(man, counter) ← fake_id counter;
  Ok (Revision internal man es made_for_workspace, counter).
End make.

(** ** I/O *)

Module vsyms.
Definition format_version := lit "format_version".
Definition old_revision := lit "old_revision".
Definition new_manifest := lit "new_manifest".
End vsyms.

Definition print_edge (buf : bytes) (e : bytes * cset) : result bytes :=
  st ← push_binary_pair internal new_stanza vsyms.old_revision e.1;
  print_cset (print_stanza buf st) e.2.

Definition print_insane_revision (buf : bytes) (rev : revision_t) : result bytes :=
  let buf := print_stanza buf (push_str_pair new_stanza vsyms.format_version (lit "1")) in
  st ← push_binary_pair internal new_stanza vsyms.new_manifest (new_manifest rev);
  foldM print_edge (map_iter (edges rev)) (print_stanza buf st).

Definition print_revision (buf : bytes) (rev : revision_t) : result bytes :=
  rev_check_sane rev ;; print_insane_revision buf rev.

Definition write_insane_revision (rev : revision_t) : result bytes := print_insane_revision [] rev.

Definition write_revision (rev : revision_t) : result bytes :=
  rev_check_sane rev ;; write_insane_revision rev.

Section parse.
Context (utf8_validate : bytes → bool) (mf : origin_type).

(** [edges.insert] does nothing when there is an edge from that revision already. *)
Definition insert_edge (es : gmap bytes cset) (old_rev : bytes) (cs : cset) : gmap bytes cset :=
  match es !! old_rev with Some _ => es | None => <[old_rev := cs]> es end.

Definition parse_edge (es : gmap bytes cset) (p : parser) : result (gmap bytes cset * parser) :=
  p ← esym mf vsyms.old_revision p;
  '(tmp, p) ← hex mf p;
  old_rev ← decode_hexenc_as_id mf tmp;
  '(cs, p) ← parse_cset utf8_validate mf p;
  Ok (insert_edge es old_rev cs, p).

Definition parse_revision (p : parser) : result (revision_t * parser) :=
  p ← esym mf vsyms.format_version p;
  '(tmp, p) ← str mf p;
  E_ (bool_decide (tmp = lit "1")) mf ;;
  p ← esym mf vsyms.new_manifest p;
  '(tmp, p) ← hex mf p;
  man ← decode_hexenc_as_id mf tmp;
  '(es, p) ← while_sym_all vsyms.old_revision parse_edge ∅ p;
  let rev := Revision mf man es made_for_database in
  rev_check_sane rev ;;
  Ok (rev, p).

(** [read_revision]: [mf] is the origin of the data. *)
Definition read_revision (dat : bytes) : result revision_t :=
  p ← new_parser mf dat;
  '(rev, p) ← parse_revision p;
  E_ (peek (src p) =? EOF) mf ;;
  Ok rev.
End parse.

(** [calculate_ident(revision_t)] *)
Definition calculate_revision_ident (sha1 : bytes → bytes) (rev : revision_t) : result bytes :=
  tmp ← write_revision rev; Ok (sha1 tmp).
