(* ===== verification/RevisionIo.v ===== *)
(** * Reading back a written revision

    The text of a revision, read back; and texts that are not what the
    revision they give would be written as. *)

From S2P Require Import Prelude Numbers Paths Hex BasicIo Roster RosterInvariant Marking Cset CsetIo RosterIo Revision.

Definition toks_edge (e : bytes * cset) : list tok := [tsym vsyms.old_revision; thex e.1] ++ cset_tokens e.2.

Record revision_ok (utf8_validate : bytes → bool) (rev : revision_t) : Prop := {
  ro_sane : rev_check_sane rev = Ok tt;
  ro_manifest : id_ok (new_manifest rev);
  ro_edge old_rev cs : edges rev !! old_rev = Some cs → id_ok old_rev ∧ cset_ok (valid_path utf8_validate) cs
}.

Lemma entry_binary mf k v : symbol_ok k = true → id_ok v →
  ∃ st, push_binary_pair internal new_stanza k v = Ok st ∧ Forall2 (entry_tokens mf) (entries st) [[tsym k; thex v]].
Proof.
  intros Hk Hv. unfold push_binary_pair. rewrite id_ok_verify by done. cbn [mbind result_bind]. eexists. split; [done|]. cbn.
  apply List.Forall2_cons; [by apply entry_hex|apply List.Forall2_nil].
Qed.

Section io.
Context (utf8_validate : bytes → bool) (mf : origin_type).

Lemma print_edges_spell l : ∀ buf ts,
  (∀ e, e ∈ l → id_ok e.1 ∧ cset_ok (valid_path utf8_validate) e.2) → spells mf buf ts →
  ∃ buf', foldM print_edge l buf = Ok buf' ∧ spells mf buf' (ts ++ concat (toks_edge <$> l)).
Proof.
  induction l as [|e l IH]; intros buf ts Hl Hb; [exists buf; by rewrite app_nil_r|]. destruct (Hl e ltac:(left)) as [Hid Hcs]. cbn [foldM].
  destruct (entry_binary mf vsyms.old_revision e.1 eq_refl Hid) as (st & Hst & Hes). pose proof (spells_stanza mf buf ts st _ Hb Hes) as Hb1. cbn [concat] in Hb1. rewrite app_nil_r in Hb1.
  destruct (print_cset_spells mf _ e.2 _ _ Hcs Hb1) as (b2 & Hp & Hb2).
  assert (print_edge buf e = Ok b2) as -> by (unfold print_edge; rewrite Hst; exact Hp). cbn [mbind result_bind].
  destruct (IH b2 _ (λ e' Hin, Hl e' (list_elem_of_further _ _ _ Hin)) Hb2) as (b3 & -> & Hb3). exists b3. split; [done|]. rewrite fmap_cons. cbn [concat].
  unfold toks_edge at 1. by rewrite !app_assoc in *.
Qed.

Lemma edges_cset_end l : cset_end (concat (toks_edge <$> l) ++ []).
Proof. unfold cset_end. destruct l as [|e l]; repeat constructor; done. Qed.

Lemma parse_edges_ok (es : gmap bytes cset) p :
  (∀ old_rev cs, es !! old_rev = Some cs → id_ok old_rev ∧ cset_ok (valid_path utf8_validate) cs) →
  at_tokens mf p (concat (toks_edge <$> map_iter es)) →
  ∃ p', while_sym_all vsyms.old_revision (parse_edge utf8_validate mf) ∅ p = Ok (es, p') ∧ at_tokens mf p' [].
Proof.
  intros Hes Hp. rewrite <- (app_nil_r (concat _)) in Hp.
  destruct (while_sym_tail vsyms.old_revision (parse_edge utf8_validate mf) mf toks_edge (λ l1 st, st = list_to_map l1) (map_iter es) [] ∅ p) as (? & p' & E & -> & Hp');
    [by intros; cbn; lia|by intros; eexists| |done..|].
  - intros l1 [k cs] l2 st q El -> Hq. assert (es !! k = Some cs) as Hk by (apply elem_of_map_iter; rewrite El; apply elem_of_app; right; by left). destruct (Hes k cs Hk) as [Hid Hcs].
    unfold toks_edge at 1 in Hq. cbn [fst snd] in Hq. rewrite <- app_assoc in Hq. cbn [app] in Hq. unfold parse_edge. destruct (at_esym mf _ _ _ Hq) as (q1 & -> & Hq1). cbn [mbind result_bind].
    destruct (at_hex mf _ _ _ Hq1) as (q2 & -> & Hq2). cbn [mbind result_bind]. rewrite id_ok_decode by done. cbn [mbind result_bind].
    destruct (parse_cset_tokens utf8_validate mf cs q2 _ Hcs Hq2 (edges_cset_end l2)) as (q3 & -> & Hq3). cbn [mbind result_bind]. eexists _, q3. split; [done|]. split; [|done].
    pose proof (NoDup_fst_map_iter es) as Hnd. rewrite El, fmap_app, fmap_cons in Hnd. assert (k ∉ l1.*1) as Hk1.
    { apply NoDup_app in Hnd as (_ & H & _). intros Hin. apply (H _ Hin). left. }
    unfold insert_edge. rewrite (not_elem_of_list_to_map_1 _ _ Hk1). by rewrite list_to_map_snoc.
  - rewrite list_to_map_iter in E. eauto.
Qed.
End io.

(** C11: a sane revision with valid paths and ids is written, and reading the text gives the revision back, marked as one for the
    database and with the origin of the text. *)
Theorem revision_roundtrip utf8_validate mf rev :
  revision_ok utf8_validate rev →
  ∃ dat, write_revision rev = Ok dat ∧ read_revision utf8_validate mf dat = Ok (Revision mf (new_manifest rev) (edges rev) made_for_database).
Proof.
  intros Hok. pose proof (ro_sane _ _ Hok) as Hsane. destruct (entry_binary mf vsyms.new_manifest (new_manifest rev) eq_refl (ro_manifest _ _ Hok)) as (st & Hst & Hes).
  assert (spells mf (print_stanza [] (push_str_pair new_stanza vsyms.format_version (lit "1"))) ([] ++ concat [[tsym vsyms.format_version; tstr (lit "1")]])) as H0.
  { apply spells_stanza; [apply spells_nil|]. apply List.Forall2_cons; [by apply entry_str|apply List.Forall2_nil]. }
  pose proof (spells_stanza mf _ _ st _ H0 Hes) as H1. cbn [app concat] in H1.
  destruct (print_edges_spell utf8_validate mf (map_iter (edges rev)) _ _ (λ e Hin, ro_edge _ _ Hok e.1 e.2 (proj1 (elem_of_map_iter _ e.1 e.2) ltac:(by destruct e))) H1) as (dat & Hp & Hs).
  exists dat. split.
  - unfold write_revision, write_insane_revision, print_insane_revision. rewrite Hsane. cbn [mbind result_bind]. rewrite Hst. exact Hp.
  - unfold read_revision, parse_revision. destruct (at_new mf dat _ (spells_lexes _ _ _ Hs)) as (p & -> & Hp0). cbn [mbind result_bind app] in *.
    destruct (at_esym mf _ _ _ Hp0) as (p1 & -> & Hp1). cbn [mbind result_bind]. destruct (at_str mf _ _ _ Hp1) as (p2 & -> & Hp2). cbn [mbind result_bind].
    rewrite (bool_decide_eq_true_2 (lit "1" = lit "1")) by done. cbn [E_ mbind result_bind]. destruct (at_esym mf _ _ _ Hp2) as (p3 & -> & Hp3). cbn [mbind result_bind].
    destruct (at_hex mf _ _ _ Hp3) as (p4 & -> & Hp4). cbn [mbind result_bind]. rewrite id_ok_decode by apply (ro_manifest _ _ Hok). cbn [mbind result_bind].
    destruct (parse_edges_ok utf8_validate mf (edges rev) p4 (ro_edge _ _ Hok) Hp4) as (p5 & -> & _ & Hsrc). cbn [mbind result_bind].
    assert (rev_check_sane (Revision mf (new_manifest rev) (edges rev) made_for_database) = Ok tt) as ->.
    { revert Hsane. unfold rev_check_sane, edge_count. cbn [new_manifest edges rev_made_from]. destruct (bool_decide (new_manifest rev = [])); [done|]. cbn [negb E_ mbind result_bind].
      destruct (size (edges rev) =? 1)%nat; [done|]. destruct (size (edges rev) =? 2)%nat; [|done]. generalize (map_iter (edges rev)).
      induction l as [|e l IH]; [done|]. cbn [foldM]. destruct (bool_decide (e.1 = [])); [done|]. apply IH. }
    cbn [mbind result_bind]. rewrite Hsrc. done.
Qed.

(** ** Examples *)

Definition ex_rev : revision_t :=
  Revision internal (ex_id "m") (<[ex_id "p" := ex_cset]> {[ex_id "q" := empty_cset]}) made_for_nobody.

Lemma ex_cset_ok : cset_ok (valid_path (λ _, true)) ex_cset.
Proof.
  split; simpl.
  - intros p ->%elem_of_singleton. reflexivity.
  - intros p q [<- <-]%lookup_singleton_Some. split; reflexivity.
  - intros p ->%elem_of_singleton. reflexivity.
  - intros p f [<- <-]%lookup_singleton_Some. split; [reflexivity | by right].
  - intros p f [<- <-]%lookup_singleton_Some. split; [reflexivity | split; by right].
  - intros p ->%elem_of_singleton. reflexivity.
  - intros p v [<- <-]%lookup_singleton_Some. reflexivity.
Qed.

Lemma empty_cset_ok path_ok : cset_ok path_ok empty_cset.
Proof. by split; simpl; set_solver. Qed.

Lemma revision_roundtrip_witness :
  ∃ dat, write_revision ex_rev = Ok dat ∧ read_revision (λ _, true) network dat = Ok (Revision network (ex_id "m") (edges ex_rev) made_for_database).
Proof.
  apply (revision_roundtrip (λ _, true) network ex_rev). split.
  - vm_compute. reflexivity.
  - by right.
  - cbn [ex_rev edges]. intros k cs [[<- <-]|[_ [<- <-]%lookup_singleton_Some]]%lookup_insert_Some; (split; [by right|]); [apply ex_cset_ok|apply empty_cset_ok].
Defined.

(** The text of a revision with the edges of a list, in the order of the list. *)
Definition text_of (l : list (bytes * cset)) : result bytes :=
  let buf := print_stanza [] (push_str_pair new_stanza vsyms.format_version (lit "1")) in
  st ← push_binary_pair internal new_stanza vsyms.new_manifest (ex_id "m");
  foldM print_edge l (print_stanza buf st).

(** Reading the text of [l] and writing what was read. *)
Definition rewritten (l : list (bytes * cset)) : result (bytes * bytes) :=
  dat ← text_of l; rev ← read_revision (λ _, true) network dat; dat' ← write_revision rev; Ok (dat, dat').

(** Texts are read that are not what the revision is written as: a second edge from the same parent is dropped without a word,
    whatever its changes, and the edges of a merge may come in any order.  The name of a revision is the hash of its text, and
    [database::put_revision] stores the text it writes itself under the name it is given. *)
Theorem revision_text_not_unique :
  (∃ d d', rewritten [(ex_id "p", empty_cset); (ex_id "p", ex_cset)] = Ok (d, d') ∧ d ≠ d' ∧ text_of [(ex_id "p", empty_cset)] = Ok d') ∧
  (∃ d d', rewritten [(ex_id "q", empty_cset); (ex_id "p", ex_cset)] = Ok (d, d') ∧ d ≠ d' ∧ text_of [(ex_id "p", ex_cset); (ex_id "q", empty_cset)] = Ok d').
Proof.
  assert (∀ (m : result (bytes * bytes)) (m' : result bytes),
    match m, m' with Ok (d, d'), Ok d'' => bool_decide (d ≠ d') && bool_decide (d' = d'') | _, _ => false end = true →
    ∃ d d', m = Ok (d, d') ∧ d ≠ d' ∧ m' = Ok d') as H.
  { intros [[d d']|] [d''|]; try done. rewrite andb_true_iff, !bool_decide_eq_true. intros [Hne ->]. eauto. }
  split; apply H; vm_compute; reflexivity.
Qed.
