(* ===== verification/Lcs.v ===== *)
(** * Shortest edit scripts and longest common subsequences ([src/src/lcs.cc])

    [compare] sweeps the diagonals of the edit graph of two sequences as Wu,
    Manber, Myers and Miller do; [divide_and_conquer] runs it from both ends
    on the halves of the graph to find where a cheapest path crosses the
    middle, and recurses on the two quadrants; [order_edits] sorts the edits
    so found into a script that reads from left to right.

    A [vector<long>] is a list of integers and a [subarray] a view of one,
    backwards when its [end] is below its [start].  [operator[]] is not
    checked: an index outside the vector is undefined behaviour.  The
    [long] values are positions, costs and diagonals, none further from zero
    than twice the number of elements plus two, so that no arithmetic on them wraps.
    The recursion and the [while (true)] loops have fuel; running out of it is an
    invariant failure, which no call from [edit_script] or
    [longest_common_subsequence] meets. *)

From S2P Require Import Prelude Numbers.

Definition vsize {A} (v : list A) : Z := Z.of_nat (length v).

(** [v[i]] and [v[i] = x] *)
Definition vec_get (v : list Z) (i : Z) : result Z :=
  if i <? 0 then Err UndefinedBehaviour
  else match v !! Z.to_nat i with Some x => Ok x | None => Err UndefinedBehaviour end.

Definition vec_set (v : list Z) (i x : Z) : result (list Z) :=
  if (0 <=? i) && (i <? vsize v) then Ok (<[Z.to_nat i := x]> v) else Err UndefinedBehaviour.

(** ** [work_vec]

    The static vector behind every [work_vec] is reset by its constructor, and no
    two of them live at once. *)
Record work_vec := WorkVec { lo : Z; hi : Z; wvec : list Z }.

Definition new_work_vec (lo hi : Z) : result work_vec :=
  if hi - lo + 1 <? 0 then Err StdException
  else Ok (WorkVec lo hi (replicate (Z.to_nat (hi - lo + 1)) (-1))).

Definition wget (w : work_vec) (t : Z) : result Z := vec_get (wvec w) (t - lo w).
Definition wset (w : work_vec) (t x : Z) : result work_vec :=
  v ← vec_set (wvec w) (t - lo w) x; Ok (WorkVec (lo w) (hi w) v).

(** ** [subarray]: [base] is an iterator, a vector and a position in it. *)
Record subarray := Subarray { vec : list Z; base : Z; start : Z; end_ : Z }.

Definition sub_size (s : subarray) : Z :=
  if end_ s <? start s then start s - end_ s else end_ s - start s.

Definition subset (s : subarray) (st e : Z) : subarray :=
  Subarray (vec s) (base s + Z.min (start s) (end_ s)) st e.

Definition sub_at (s : subarray) (idx : Z) : result Z :=
  if end_ s <? start s then vec_get (vec s) (base s + (start s - (idx + 1)))
  else vec_get (vec s) (base s + (start s + idx)).

(** ** The sweep of the diagonals *)

(** [x < a_len && y < b_len && a[x] == b[y]] *)
Definition same_at (a b : subarray) (x y a_len b_len : Z) : result bool :=
  if (x <? a_len) && (y <? b_len) then ax ← sub_at a x; b_y ← sub_at b y; Ok (ax =? b_y) else Ok false.

(** The loop of [run]: records costs along the way down a diagonal. *)
Fixpoint run_loop (fuel : nat) (a : subarray) (a_len : Z) (b : subarray) (b_len : Z)
    (cost x y : Z) (CC : list Z) : result (Z * list Z) :=
  let xcst := a_len - x in
  CC ← (if (y <? vsize CC) && (0 <=? xcst) then c ← vec_get CC y; vec_set CC y (Z.min (xcst + cost) c) else Ok CC);
  more ← same_at a b x y a_len b_len;
  if (more : bool) then
    match fuel with
    | O => Err invariant_failure
    | S fuel => run_loop fuel a a_len b b_len cost (x + 1) (y + 1) CC
    end
  else Ok (y, CC).

Definition run (fp : work_vec) (k : Z) (a : subarray) (a_len : Z) (b : subarray) (b_len : Z)
    (CC : list Z) (p : Z) : result (Z * work_vec * list Z) :=
  let cost := k + 2 * p in
  l ← wget fp (k - 1);
  r ← wget fp (k + 1);
  let y := Z.max (l + 1) r in
  let x := y - k in
  I_ (0 <=? y) ;;
  I_ (0 <=? x) ;;
  '(y, CC) ← run_loop (Z.to_nat a_len) a a_len b b_len cost x y CC;
  fp ← wset fp k y;
  Ok (y, fp, CC).

Section compare.
Context (a : subarray) (len_a : Z) (b : subarray) (len_b : Z).

(** A sweep: [run] on each diagonal of a list. *)
Definition sweep (p : Z) (ks : list Z) (st : work_vec * list Z) : result (work_vec * list Z) :=
  foldM (λ '(fp, costs) k, '(_, fp, costs) ← run fp k a len_a b len_b costs p; Ok (fp, costs)) ks st.

(** [for (; p <= p_lim; ++p)], with [n] rounds left. *)
Fixpoint compare_loop (n : nat) (full_scan : bool) (p : Z) (fp : work_vec) (costs : list Z) :
    result (Z * list Z) :=
  match n with
  | O => Ok (p, costs)
  | S n =>
      let delta := len_b - len_a in
      st ← sweep p (seqZ (- p) (delta + p)) (fp, costs);
      '(fp, costs) ← sweep p (Z.sub (delta + p) <$> seqZ 0 p) st;
      '(fpval, fp, costs) ← run fp delta a len_a b len_b costs p;
      if negb full_scan && (len_b <=? fpval) then Ok (p, costs)
      else compare_loop n full_scan (p + 1) fp costs
  end.

Definition compare (costs : list Z) (p_lim : Z) (full_scan : bool) : result (Z * list Z) :=
  let delta := len_b - len_a in
  let lo := if full_scan then - (p_lim + 1) else - (len_a + 1) in
  let hi := if full_scan then p_lim + 1 + delta else 1 + len_b in
  fp ← new_work_vec lo hi;
  '(p, costs) ← compare_loop (Z.to_nat (p_lim + 1)) full_scan 0 fp costs;
  Ok (delta + 2 * p, costs).
End compare.

(** ** Divide and conquer *)

Fixpoint mid_split_loop (fuel : nat) (n : Z) (rr cc : list Z) (cost rdx cdx : Z) : result Z :=
  I_ (0 <=? rdx) ;;
  c ← vec_get cc rdx;
  r ← vec_get rr (n - rdx);
  if cost =? c + r then Ok rdx else
  c ← vec_get cc cdx;
  r ← vec_get rr (n - cdx);
  if cost =? c + r then Ok cdx else
  match fuel with
  | O => Err invariant_failure
  | S fuel => mid_split_loop fuel n rr cc cost (rdx - 1) (cdx + 1)
  end.

Definition mid_split (n : Z) (rr cc : list Z) (cost : Z) : result Z :=
  mid_split_loop (S (Z.to_nat n)) n rr cc cost (n ÷ 2) (1 + n ÷ 2).

(** The eight bounds that [divide_and_conquer], [diff_to_et] and
    [diff_to_ez] check on entry. *)
Definition check_bounds (a : subarray) (start_a end_a : Z) (b : subarray) (start_b end_b : Z) : result unit :=
  I_ (0 <=? start_a) ;; I_ (start_a <=? sub_size a) ;;
  I_ (0 <=? start_b) ;; I_ (start_b <=? sub_size b) ;;
  I_ (0 <=? end_a) ;; I_ (end_a <=? sub_size a) ;;
  I_ (0 <=? end_b) ;; I_ (end_b <=? sub_size b).

(** A call of [diff_to_et]: the cost and the edits, written in place. *)
Abbreviation diff_call :=
  (subarray → Z → Z → subarray → Z → Z → list Z → Z → Z → Z → result (Z * list Z)).

Definition divide_and_conquer (diff_to_et : diff_call) (a : subarray) (start_a end_a : Z)
    (b : subarray) (start_b end_b : Z) (edits : list Z) (edx polarity p_lim : Z) : result (Z * list Z) :=
  let len_b := end_b - start_b in
  let len_a := end_a - start_a in
  let delta := len_b - len_a in
  let tcst := 2 * p_lim + (len_b - len_a) in
  let mid_a := (start_a + end_a) ÷ 2 in
  check_bounds a start_a end_a b start_b end_b ;;
  let cc := replicate (Z.to_nat (len_b + 1)) (len_a + len_b) in
  let rr := replicate (Z.to_nat (len_b + 1)) (len_a + len_b) in
  let top_len_a := mid_a - start_a in
  let top_end_b := Z.min end_b (start_b + (top_len_a + delta + p_lim + 1)) in
  '(_, cc) ← compare (subset a start_a mid_a) top_len_a (subset b start_b top_end_b) (top_end_b - start_b)
    cc (Z.min p_lim len_a) true;
  let bottom_len_a := end_a - mid_a in
  let bottom_start_b := Z.max start_b (end_b - (bottom_len_a + delta + p_lim + 1)) in
  '(_, rr) ← compare (subset a end_a mid_a) bottom_len_a (subset b end_b bottom_start_b) (end_b - bottom_start_b)
    rr (Z.min p_lim len_a) true;
  b_split ← mid_split len_b rr cc tcst;
  est_c ← vec_get cc b_split;
  est_r ← vec_get rr (len_b - b_split);
  '(cost_c, edits) ← diff_to_et a start_a mid_a b start_b (start_b + b_split) edits edx polarity
    ((est_c - (b_split - (mid_a - start_a))) ÷ 2);
  I_ (cost_c =? est_c) ;;
  '(cost_r, edits) ← diff_to_et a mid_a end_a b (start_b + b_split) end_b edits (est_c + edx) polarity
    ((est_r - ((len_b - b_split) - (end_a - mid_a))) ÷ 2);
  I_ (cost_r =? est_r) ;;
  Ok (est_r + est_c, edits).

(** Easy case 1: the elements of [b] that [a] lacks, in one pass. *)
Fixpoint insert_rest (n : nat) (polarity idx edx : Z) (edits : list Z) : result (list Z) :=
  match n with
  | O => Ok edits
  | S n => edits ← vec_set edits edx (polarity * (idx + 1)); insert_rest n polarity (idx + 1) (edx + 1) edits
  end.

Fixpoint inserts_only (fuel : nat) (a b : subarray) (end_a end_b polarity adx bdx edx0 : Z) (edits : list Z) :
    result (list Z) :=
  if end_b <=? bdx then Ok edits
  else if end_a <=? adx then insert_rest (Z.to_nat (end_b - bdx)) polarity bdx edx0 edits
  else
    x ← sub_at a adx;
    y ← sub_at b bdx;
    match fuel with
    | O => Err invariant_failure
    | S fuel =>
        if x =? y then inserts_only fuel a b end_a end_b polarity (adx + 1) (bdx + 1) edx0 edits
        else
          edits ← vec_set edits edx0 (polarity * (bdx + 1));
          inserts_only fuel a b end_a end_b polarity adx (bdx + 1) (edx0 + 1) edits
    end.

(** Easy case 2: every element of [a] goes. *)
Fixpoint delete_all (n : nat) (polarity idx edx : Z) (edits : list Z) : result (list Z) :=
  match n with
  | O => Ok edits
  | S n => edits ← vec_set edits edx (polarity * (-1 - idx)); delete_all n polarity (idx + 1) (edx + 1) edits
  end.

Definition diff_to_ez (diff_to_et : diff_call) (a : subarray) (start_a end_a : Z)
    (b : subarray) (start_b end_b : Z) (edits : list Z) (edx1 polarity p_lim : Z) : result (Z * list Z) :=
  check_bounds a start_a end_a b start_b end_b ;;
  let len_a := end_a - start_a in
  let len_b := end_b - start_b in
  I_ (len_a <=? len_b) ;;
  if p_lim =? 0 then
    if len_a =? len_b then Ok (0, edits)
    else
      edits ← inserts_only (Z.to_nat (end_b - start_b)) a b end_a end_b polarity start_a start_b edx1 edits;
      Ok (len_b - len_a, edits)
  else if len_a <=? p_lim then
    I_ (len_a =? p_lim) ;;
    edits ← delete_all (Z.to_nat (end_a - start_a)) polarity start_a edx1 edits;
    edits ← insert_rest (Z.to_nat (end_b - start_b)) polarity start_b (edx1 + len_a) edits;
    Ok (len_a + len_b, edits)
  else divide_and_conquer diff_to_et a start_a end_a b start_b end_b edits edx1 polarity p_lim.

(** The two trimming loops: the common suffix, then the common prefix. *)
Fixpoint trim_suffix (fuel : nat) (a b : subarray) (start_a start_b last_a last_b : Z) : result (Z * Z) :=
  if (start_b <=? last_b) && (start_a <=? last_a) then
    x ← sub_at a last_a;
    y ← sub_at b last_b;
    if x =? y then
      match fuel with
      | O => Err invariant_failure
      | S fuel => trim_suffix fuel a b start_a start_b (last_a - 1) (last_b - 1)
      end
    else Ok (last_a, last_b)
  else Ok (last_a, last_b).

Fixpoint trim_prefix (fuel : nat) (a b : subarray) (start_a start_b last_a last_b : Z) : result (Z * Z) :=
  if (start_b <? last_b) && (start_a <? last_a) then
    x ← sub_at a start_a;
    y ← sub_at b start_b;
    if x =? y then
      match fuel with
      | O => Err invariant_failure
      | S fuel => trim_prefix fuel a b (start_a + 1) (start_b + 1) last_a last_b
      end
    else Ok (start_a, start_b)
  else Ok (start_a, start_b).

Fixpoint diff_to_et (fuel : nat) (a : subarray) (start_a end_a : Z)
    (b : subarray) (start_b end_b : Z) (edits : list Z) (edx polarity p_lim : Z) : result (Z * list Z) :=
  match fuel with
  | O => Err invariant_failure
  | S fuel =>
      check_bounds a start_a end_a b start_b end_b ;;
      I_ (p_lim <=? end_a - start_a) ;;
      '(new_last_a, new_last_b) ←
        trim_suffix (Z.to_nat (end_a - start_a)) a b start_a start_b (end_a - 1) (end_b - 1);
      '(new_start_a, new_start_b) ←
        trim_prefix (Z.to_nat (end_a - start_a)) a b start_a start_b new_last_a new_last_b;
      let delta := (new_last_b - new_start_b) - (new_last_a - new_start_a) in
      if delta <? 0 then
        diff_to_ez (diff_to_et fuel) b new_start_b (new_last_b + 1) a new_start_a (new_last_a + 1)
          edits edx (- polarity) (delta + p_lim)
      else
        diff_to_ez (diff_to_et fuel) a new_start_a (new_last_a + 1) b new_start_b (new_last_b + 1)
          edits edx polarity p_lim
  end.

Definition diff_to_edits (a : subarray) (len_a : Z) (b : subarray) (len_b : Z) : result (list Z) :=
  I_ (len_a <=? len_b) ;;
  '(edit_distance, _) ← compare a len_a b len_b (replicate (Z.to_nat (len_a + len_b)) 0) (Z.min len_a len_b) false;
  '(cost, edits) ← diff_to_et (S (Z.to_nat (len_a + len_b))) a 0 len_a b 0 len_b
    (replicate (Z.to_nat edit_distance) 0) 0 1 ((edit_distance - (len_b - len_a)) ÷ 2);
  I_ (cost =? edit_distance) ;;
  Ok edits.

(** ** Ordering the edits *)

Fixpoint order_loop (fuel : nat) (sedits : list Z) (len_a len_b ddx idx ndx adx bdx : Z) (nedits : list Z) :
    result (list Z) :=
  if (bdx <? len_b) || (adx <? len_a) then
    del ← (if ddx <? 0 then Ok 0 else vec_get sedits ddx);
    ins ← (if vsize sedits <=? idx then Ok 0 else vec_get sedits idx);
    match fuel with
    | O => Err invariant_failure
    | S fuel =>
        let dels := (del <? 0) && (-1 - del <=? adx) in
        let inss := (0 <? ins) && (-1 + ins <=? bdx) in
        if dels && inss then
          nedits ← vec_set nedits ndx del;
          nedits ← vec_set nedits (ndx + 1) ins;
          order_loop fuel sedits len_a len_b (ddx - 1) (idx + 1) (ndx + 2) (adx + 1) (bdx + 1) nedits
        else if dels then
          nedits ← vec_set nedits ndx del;
          order_loop fuel sedits len_a len_b (ddx - 1) idx (ndx + 1) (adx + 1) bdx nedits
        else if inss then
          nedits ← vec_set nedits ndx ins;
          order_loop fuel sedits len_a len_b ddx (idx + 1) (ndx + 1) adx (bdx + 1) nedits
        else order_loop fuel sedits len_a len_b ddx idx ndx (adx + 1) (bdx + 1) nedits
    end
  else Ok nedits.

(** The number of deletions at the front of the sorted edits. *)
Fixpoint count_neg (sedits : list Z) : Z :=
  match sedits with e :: sedits => if e <? 0 then 1 + count_neg sedits else 0 | [] => 0 end.

Definition order_edits (edits : list Z) : result (list Z) :=
  if vsize edits =? 0 then Ok edits
  else
    let cost := vsize edits in
    let sedits := merge_sort Z.le edits in
    let idx0 := count_neg sedits in
    first ← vec_get sedits 0;
    len_b ← vec_get sedits (cost - 1);
    let len_a := Z.max 0 (- first) in
    order_loop (Z.to_nat (cost + Z.max len_a len_b)) sedits len_a len_b (idx0 - 1) idx0 0 0 0
      (replicate (length edits) 0).

Fixpoint edits_to_lcs_loop (fuel : nat) (edits : list Z) (a : subarray) (len_a edx sdx adx : Z) (lcs : list Z) :
    result (list Z) :=
  if adx <? len_a then
    match fuel with
    | O => Err invariant_failure
    | S fuel =>
        edit ← (if edx <? vsize edits then vec_get edits edx else Ok 0);
        if 0 <? edit then edits_to_lcs_loop fuel edits a len_a (edx + 1) sdx adx lcs
        else if negb (edit =? 0) && (-1 - edit <=? adx) then
          edits_to_lcs_loop fuel edits a len_a (edx + 1) sdx (adx + 1) lcs
        else
          x ← sub_at a adx;
          lcs ← vec_set lcs sdx x;
          edits_to_lcs_loop fuel edits a len_a edx (sdx + 1) (adx + 1) lcs
    end
  else Ok lcs.

Definition edits_to_lcs (edits : list Z) (a : subarray) (len_a len_b : Z) : result (list Z) :=
  edits_to_lcs_loop (Z.to_nat (len_a + vsize edits)) edits a len_a 0 0 0
    (replicate (Z.to_nat ((len_a + len_b - vsize edits) ÷ 2)) 0).

(** ** The entry points *)

Definition whole (v : list Z) : subarray := Subarray v 0 0 (vsize v).

Definition edit_script (a b : list Z) : result (list Z) :=
  if vsize b <? vsize a then
    edits ← diff_to_edits (whole b) (vsize b) (whole a) (vsize a);
    ordered ← order_edits edits;
    Ok (map (λ e, e * -1) ordered)
  else
    edits ← diff_to_edits (whole a) (vsize a) (whole b) (vsize b);
    order_edits edits.

Definition longest_common_subsequence (a b : list Z) : result (list Z) :=
  if vsize b <? vsize a then
    edits ← diff_to_edits (whole b) (vsize b) (whole a) (vsize a);
    ordered ← order_edits edits;
    edits_to_lcs ordered (whole b) (vsize b) (vsize a)
  else
    edits ← diff_to_edits (whole a) (vsize a) (whole b) (vsize b);
    ordered ← order_edits edits;
    edits_to_lcs ordered (whole a) (vsize a) (vsize b).

Example script_of_a_change :
  edit_script [1; 2; 3; 4] [1; 5; 3; 6; 4] = Ok [-2; 2; 4] ∧
  edit_script [1; 5; 3; 6; 4] [1; 2; 3; 4] = Ok [2; -2; -4] ∧
  longest_common_subsequence [3; 1; 2; 4] [1; 5; 4; 2] = Ok [1; 2].
Proof. vm_compute. done. Qed.
