(* ===== verification/LcsDistance.v ===== *)
(** * The length of a longest common subsequence

    The reference against which [lcs.cc] is judged: [lcs] is the textbook
    recursion, [align a b n] says that [a] and [b] have an alignment that
    matches [n] elements, [script] that a list of edits spells an alignment
    in the code's notation, and [prefix_lcs] tabulates [lcs] over the
    prefixes of two sequences, the points of the edit graph. *)

From S2P Require Import Prelude Numbers Lcs.

Fixpoint lcs (a : list Z) : list Z → Z :=
  match a with
  | [] => λ _, 0
  | x :: a' =>
      fix go b := match b with
        | [] => 0
        | y :: b' => if decide (x = y) then 1 + lcs a' b' else Z.max (lcs a' b) (go b')
        end
  end.

Inductive align : list Z → list Z → Z → Prop :=
  | align_nil : align [] [] 0
  | align_match x a b n : align a b n → align (x :: a) (x :: b) (1 + n)
  | align_del x a b n : align a b n → align (x :: a) b n
  | align_ins y a b n : align a b n → align a (y :: b) n.

(** A script from position [i] of one sequence and [j] of the other: [-1 - i]
    deletes the element at [i], [j + 1] inserts the one at [j]. *)
Inductive script : Z → Z → list Z → list Z → list Z → Prop :=
  | script_nil i j : script i j [] [] []
  | script_match i j x a b es : script (i + 1) (j + 1) a b es → script i j (x :: a) (x :: b) es
  | script_del i j x a b es : script (i + 1) j a b es → script i j (x :: a) b (-1 - i :: es)
  | script_ins i j y a b es : script i (j + 1) a b es → script i j a (y :: b) (j + 1 :: es).

#[export] Hint Constructors align script : mtn.

Lemma lcs_nil_r a : lcs a [] = 0.
Proof. by destruct a. Qed.

Lemma lcs_cons x a y b :
  lcs (x :: a) (y :: b) = if decide (x = y) then 1 + lcs a b else Z.max (lcs a (y :: b)) (lcs (x :: a) b).
Proof. done. Qed.

Lemma lcs_sym a b : lcs a b = lcs b a.
Proof.
  revert b. induction a as [|x a IHa]; intros b; [by rewrite lcs_nil_r|].
  induction b as [|y b IHb]; [done|]. rewrite !lcs_cons, (IHa b), (IHa (y :: b)), IHb.
  repeat case_decide; subst; done || lia.
Qed.

(** One more element adds at most one match. *)
Lemma lcs_bounds_l x a b : lcs a b ≤ lcs (x :: a) b ≤ 1 + lcs a b.
Proof.
  revert x b. induction a as [|z a IHa]; intros x b.
  - induction b as [|y b IHb]; [done|]. rewrite lcs_cons. simpl (lcs [] _) in *. case_decide; lia.
  - induction b as [|y b IHb]; [simpl; lia|].
    rewrite (lcs_cons x (z :: a)). case_decide as Hx.
    + subst. rewrite !lcs_cons. pose proof (IHa z b). case_decide; [lia|].
      pose proof (IHa y b). pose proof (IHa y (y :: b)). rewrite lcs_cons in *.
      rewrite decide_True in * by done. lia.
    + rewrite (lcs_cons z a) in *. case_decide; [subst|].
      * pose proof (IHa y b). lia.
      * lia.
Qed.

Lemma lcs_bounds_r a y b : lcs a b ≤ lcs a (y :: b) ≤ 1 + lcs a b.
Proof. rewrite !(lcs_sym a). apply lcs_bounds_l. Qed.

(** An element more on both sides adds at most one match. *)
Lemma lcs_bounds_both x a y b : lcs (x :: a) (y :: b) ≤ 1 + lcs a b.
Proof.
  rewrite lcs_cons. pose proof (lcs_bounds_l x a b). pose proof (lcs_bounds_r a y b). case_decide; lia.
Qed.

Lemma lcs_nonneg a b : 0 ≤ lcs a b.
Proof.
  revert b. induction a as [|x a IH]; intros b; [simpl; lia|].
  pose proof (lcs_bounds_l x a b). pose proof (IH b). lia.
Qed.

Lemma lcs_le_l a b : lcs a b ≤ vsize a.
Proof.
  induction a as [|x a IH]; [simpl; unfold vsize; simpl; lia|].
  pose proof (lcs_bounds_l x a b). unfold vsize in *. cbn [length]. lia.
Qed.

Lemma lcs_le_r a b : lcs a b ≤ vsize b.
Proof. rewrite lcs_sym. apply lcs_le_l. Qed.

(** ** [lcs] is the most elements an alignment matches *)

Lemma align_le a b n : align a b n → n ≤ lcs a b.
Proof.
  induction 1 as [|x a b n _ IH|x a b n _ IH|y a b n _ IH]; [done| | |].
  - rewrite lcs_cons, decide_True by done. lia.
  - pose proof (lcs_bounds_l x a b). lia.
  - pose proof (lcs_bounds_r a y b). lia.
Qed.

Lemma lcs_align a b : align a b (lcs a b).
Proof.
  revert b. induction a as [|x a IHa]; intros b.
  - induction b as [|y b IHb]; simpl in *; auto with mtn.
  - induction b as [|y b IHb]; [rewrite lcs_nil_r; specialize (IHa []); rewrite lcs_nil_r in IHa; auto with mtn|].
    rewrite lcs_cons. case_decide; [subst; auto with mtn|].
    destruct (Z.max_spec (lcs a (y :: b)) (lcs (x :: a) b)) as [[_ ->]|[_ ->]]; auto with mtn.
Qed.

Lemma align_app a b n a' b' m : align a b n → align a' b' m → align (a ++ a') (b ++ b') (n + m).
Proof.
  intros H H'. induction H as [|x a b n _ IH| |]; simpl; eauto with mtn.
  replace (1 + n + m) with (1 + (n + m)) by lia. auto with mtn.
Qed.

Lemma align_rev a b n : align a b n → align (reverse a) (reverse b) n.
Proof.
  induction 1 as [|x a b n _ IH|x a b n _ IH|y a b n _ IH]; rewrite ?reverse_cons; auto with mtn.
  - replace (1 + n) with (n + 1) by lia. apply align_app; [done|].
    apply (align_match x [] [] 0). constructor.
  - rewrite <- (app_nil_r (reverse b)). replace n with (n + 0) by lia. apply align_app; auto with mtn.
  - rewrite <- (app_nil_r (reverse a)). replace n with (n + 0) by lia. apply align_app; auto with mtn.
Qed.

Lemma lcs_reverse a b : lcs (reverse a) (reverse b) = lcs a b.
Proof.
  assert (∀ a b, lcs a b ≤ lcs (reverse a) (reverse b)) as H by (intros; apply align_le, align_rev, lcs_align).
  pose proof (H a b). pose proof (H (reverse a) (reverse b)) as H2. rewrite !reverse_involutive in H2. lia.
Qed.

Lemma align_split a1 a2 b n :
  align (a1 ++ a2) b n →
  ∃ b1 b2 n1 n2, b = b1 ++ b2 ∧ n = n1 + n2 ∧ align a1 b1 n1 ∧ align a2 b2 n2.
Proof.
  remember (a1 ++ a2) as a eqn:Ha. intros H. revert a1 Ha.
  induction H as [|x a b n H IH|x a b n H IH|y a b n H IH]; intros a1 Ha.
  - symmetry in Ha. apply app_eq_nil in Ha as [-> ->]. exists [], [], 0, 0. auto with mtn.
  - destruct a1 as [|z a1]; simplify_eq/=.
    + exists [], (x :: b), 0, (1 + n). auto with mtn.
    + destruct (IH a1 eq_refl) as (b1 & b2 & n1 & n2 & -> & -> & ? & ?).
      exists (z :: b1), b2, (1 + n1), n2. split_and!; [done|lia|auto with mtn..].
  - destruct a1 as [|z a1]; simplify_eq/=.
    + exists [], b, 0, n. auto with mtn.
    + destruct (IH a1 eq_refl) as (b1 & b2 & n1 & n2 & -> & -> & ? & ?).
      exists b1, b2, n1, n2. auto with mtn.
  - destruct (IH a1 Ha) as (b1 & b2 & n1 & n2 & -> & -> & ? & ?).
    exists (y :: b1), b2, n1, n2. auto with mtn.
Qed.

Lemma lcs_app a1 a2 b1 b2 : lcs a1 b1 + lcs a2 b2 ≤ lcs (a1 ++ a2) (b1 ++ b2).
Proof. apply align_le, align_app; apply lcs_align. Qed.

(** Some split of [b] realises [lcs] for a given split of [a]. *)
Lemma lcs_split a1 a2 b : ∃ b1 b2, b = b1 ++ b2 ∧ lcs (a1 ++ a2) b = lcs a1 b1 + lcs a2 b2.
Proof.
  destruct (align_split a1 a2 b _ (lcs_align _ _)) as (b1 & b2 & n1 & n2 & -> & Hn & H1 & H2).
  exists b1, b2. split; [done|]. apply align_le in H1, H2. pose proof (lcs_app a1 a2 b1 b2). lia.
Qed.

(** ** The table over prefixes *)

Lemma lcs_snoc a x b y :
  lcs (a ++ [x]) (b ++ [y]) =
    if decide (x = y) then 1 + lcs a b else Z.max (lcs a (b ++ [y])) (lcs (a ++ [x]) b).
Proof.
  rewrite <- (lcs_reverse (a ++ [x])), <- (lcs_reverse (a ++ [x]) b), <- (lcs_reverse a), <- (lcs_reverse a (b ++ [y])).
  rewrite !reverse_snoc. apply lcs_cons.
Qed.

Lemma lcs_snoc_bounds_l a x b : lcs a b ≤ lcs (a ++ [x]) b ≤ 1 + lcs a b.
Proof. rewrite <- (lcs_reverse (a ++ [x])), <- (lcs_reverse a), reverse_snoc. apply lcs_bounds_l. Qed.

Definition prefix_lcs (a b : list Z) (x y : Z) : Z := lcs (take (Z.to_nat x) a) (take (Z.to_nat y) b).

Lemma take_next (a : list Z) (x : Z) :
  0 ≤ x →
  (∃ c, a !! Z.to_nat x = Some c ∧ take (Z.to_nat (x + 1)) a = take (Z.to_nat x) a ++ [c]) ∨
  (vsize a ≤ x ∧ take (Z.to_nat (x + 1)) a = take (Z.to_nat x) a).
Proof.
  intros Hx. replace (Z.to_nat (x + 1)) with (S (Z.to_nat x)) by lia.
  destruct (a !! Z.to_nat x) as [c|] eqn:Hc.
  - left. exists c. split; [done|]. by apply take_S_r.
  - right. apply lookup_ge_None in Hc. unfold vsize. split; [lia|]. by rewrite !take_ge by lia.
Qed.

Section prefix.
Context (a b : list Z).
Local Notation L := (prefix_lcs a b).

Lemma prefix_sym x y : prefix_lcs b a y x = L x y.
Proof. apply lcs_sym. Qed.

Lemma prefix_nonneg x y : 0 ≤ L x y.
Proof. apply lcs_nonneg. Qed.

Lemma prefix_le_l x y : 0 ≤ x → L x y ≤ x.
Proof.
  intros. etrans; [apply lcs_le_l|]. unfold vsize. rewrite length_take. lia.
Qed.

Lemma prefix_le_r x y : 0 ≤ y → L x y ≤ y.
Proof.
  intros. etrans; [apply lcs_le_r|]. unfold vsize. rewrite length_take. lia.
Qed.

Lemma prefix_next_l x y : 0 ≤ x → L x y ≤ L (x + 1) y ≤ 1 + L x y.
Proof.
  intros Hx. unfold prefix_lcs. destruct (take_next a x Hx) as [(c & _ & ->)|[_ ->]]; [apply lcs_snoc_bounds_l|lia].
Qed.

Lemma prefix_beyond_l x y : vsize a ≤ x → L (x + 1) y = L x y.
Proof. unfold prefix_lcs, vsize. intros. by rewrite !(take_ge a) by lia. Qed.
End prefix.

Section prefix_both.
Context (a b : list Z).
Local Notation L := (prefix_lcs a b).

Lemma prefix_next_r x y : 0 ≤ y → L x y ≤ L x (y + 1) ≤ 1 + L x y.
Proof. rewrite <- !(prefix_sym a b). apply prefix_next_l. Qed.

Lemma prefix_beyond_r x y : vsize b ≤ y → L x (y + 1) = L x y.
Proof. rewrite <- !(prefix_sym a b). apply prefix_beyond_l. Qed.

Lemma prefix_match x y c :
  0 ≤ x → 0 ≤ y → a !! Z.to_nat x = Some c → b !! Z.to_nat y = Some c → L (x + 1) (y + 1) = 1 + L x y.
Proof.
  intros Hx Hy Ha Hb. unfold prefix_lcs. replace (Z.to_nat (x + 1)) with (S (Z.to_nat x)) by lia.
  replace (Z.to_nat (y + 1)) with (S (Z.to_nat y)) by lia.
  by rewrite (take_S_r a _ c), (take_S_r b _ c), lcs_snoc, decide_True.
Qed.

Lemma prefix_no_match x y :
  0 ≤ x → 0 ≤ y → (∀ c, a !! Z.to_nat x = Some c → b !! Z.to_nat y ≠ Some c) →
  L (x + 1) (y + 1) = Z.max (L x (y + 1)) (L (x + 1) y).
Proof.
  intros Hx Hy Hne. pose proof (prefix_next_l a b x y Hx). pose proof (prefix_next_r x y Hy).
  destruct (take_next a x Hx) as [(c & Hc & Ha)|[Ha _]];
    [|rewrite (prefix_beyond_l a b x (y + 1)), (prefix_beyond_l a b x y) by done; lia].
  destruct (take_next b y Hy) as [(c' & Hc' & Hb)|[Hb _]];
    [|rewrite (prefix_beyond_r (x + 1) y), (prefix_beyond_r x y) by done; lia].
  unfold prefix_lcs. rewrite Ha, Hb, lcs_snoc, decide_False; [done|]. intros ->. by apply (Hne c').
Qed.

Lemma match_or_not x y :
  (∃ c, a !! Z.to_nat x = Some c ∧ b !! Z.to_nat y = Some c) ∨
  (∀ c, a !! Z.to_nat x = Some c → b !! Z.to_nat y ≠ Some c).
Proof.
  destruct (a !! Z.to_nat x) as [c|]; [|by right].
  destruct (decide (b !! Z.to_nat y = Some c)); [left|right]; naive_solver.
Qed.

Lemma prefix_next_both x y : 0 ≤ x → 0 ≤ y → L x y ≤ L (x + 1) (y + 1) ≤ 1 + L x y.
Proof.
  intros Hx Hy. pose proof (prefix_next_l a b x (y + 1) Hx). pose proof (prefix_next_r x y Hy).
  split; [lia|].
  destruct (match_or_not x y) as [(c & Ha & Hb)|Hne].
  - rewrite (prefix_match x y c) by done. lia.
  - rewrite prefix_no_match by done. pose proof (prefix_next_l a b x y Hx). lia.
Qed.

(** Over several steps. *)
Lemma prefix_more_l x y n : 0 ≤ x → 0 ≤ n → L x y ≤ L (x + n) y ≤ n + L x y.
Proof.
  intros Hx Hn. revert n Hn. apply natlike_ind; [rewrite Z.add_0_r; lia|].
  intros n Hn IH. replace (x + Z.succ n) with (x + n + 1) by lia.
  pose proof (prefix_next_l a b (x + n) y). lia.
Qed.

Lemma prefix_more_both x y n : 0 ≤ x → 0 ≤ y → 0 ≤ n → L x y ≤ L (x + n) (y + n) ≤ n + L x y.
Proof.
  intros Hx Hy Hn. revert n Hn. apply natlike_ind; [rewrite !Z.add_0_r; lia|].
  intros n Hn IH. replace (x + Z.succ n) with (x + n + 1) by lia. replace (y + Z.succ n) with (y + n + 1) by lia.
  pose proof (prefix_next_both (x + n) (y + n)). lia.
Qed.

Lemma prefix_take n m x y : x ≤ n → y ≤ m → prefix_lcs (take (Z.to_nat n) a) (take (Z.to_nat m) b) x y = L x y.
Proof. intros. unfold prefix_lcs. by rewrite !take_take, !Nat.min_l by lia. Qed.

Lemma prefix_0_l y : L 0 y = 0.
Proof. done. Qed.

Lemma prefix_0_r x : L x 0 = 0.
Proof. unfold prefix_lcs. rewrite Z2Nat.inj_0, take_0. apply lcs_nil_r. Qed.
End prefix_both.
