(* ===== verification/LcsCompare.v ===== *)
(** * What [compare] computes

    On diagonal [k] the points of the edit graph are [(y - k, y)].  Reaching
    [(x, y)] takes [x - prefix_lcs a b x y] deletions at least, which never
    decreases along a diagonal, so the points within [q] deletions are those
    up to a furthest one, [far k q].  A [run] computes it from its neighbours,
    and a round of sweeps for every diagonal; the costs recorded on the way
    are lower bounds that are met wherever no run jumps over. *)

From S2P Require Import Prelude Numbers Lcs LcsDistance.

(** ** Checked accesses *)

Lemma peek_lookup v i x : 0 ≤ i → v !! Z.to_nat i = Some x → vec_get v i = Ok x.
Proof. intros Hi Hx. unfold vec_get. by rewrite (proj2 (Z.ltb_ge _ _)), Hx by done. Qed.

Lemma peek_ok v i : 0 ≤ i < vsize v → ∃ x, v !! Z.to_nat i = Some x ∧ vec_get v i = Ok x.
Proof.
  unfold vsize. intros Hi. destruct (lookup_lt_is_Some_2 v (Z.to_nat i)) as [x Hx]; [lia|].
  exists x. split; [done|]. apply peek_lookup; [lia|done].
Qed.

Lemma poke_ok v i x : 0 ≤ i < vsize v → vec_set v i x = Ok (<[Z.to_nat i := x]> v).
Proof. intros Hi. unfold vec_set. by rewrite (proj2 (Z.leb_le _ _)), (proj2 (Z.ltb_lt _ _)) by lia. Qed.

Lemma vsize_insert v i (x : Z) : vsize (<[i := x]> v) = vsize v.
Proof. unfold vsize. by rewrite length_insert. Qed.

(** The sequence a subarray shows. *)
Definition views (s : subarray) (l : list Z) : Prop :=
  ∀ i c, 0 ≤ i → l !! Z.to_nat i = Some c → sub_at s i = Ok c.

Section compare_spec.
Context (sa sb : subarray) (a b : list Z) (Hsa : views sa a) (Hsb : views sb b).
Local Notation L := (prefix_lcs a b).
Local Notation delta := (vsize b - vsize a).

Lemma same_at_spec x y :
  0 ≤ x → 0 ≤ y →
  (same_at sa sb x y (vsize a) (vsize b) = Ok true ∧ x < vsize a ∧ L (x + 1) (y + 1) = 1 + L x y) ∨
  (same_at sa sb x y (vsize a) (vsize b) = Ok false ∧ L (x + 1) (y + 1) = Z.max (L x (y + 1)) (L (x + 1) y)).
Proof using Hsa Hsb.
  intros Hx Hy. unfold same_at.
  destruct (Z.ltb_spec x (vsize a)) as [Hxa|Hxa];
    [|right; split; [done|apply prefix_no_match; try done; intros c Hc;
       apply lookup_lt_Some in Hc; unfold vsize in *; lia]].
  destruct (Z.ltb_spec y (vsize b)) as [Hyb|Hyb];
    [|right; split; [done|apply prefix_no_match; try done; intros c _ Hc;
       apply lookup_lt_Some in Hc; unfold vsize in *; lia]]. cbn [andb].
  destruct (peek_ok a x) as (c & Hc & _); [lia|]. destruct (peek_ok b y) as (d & Hd & _); [lia|].
  rewrite (Hsa x c), (Hsb y d) by done. simpl. destruct (Z.eqb_spec c d) as [->|Hne].
  - left. split_and!; [done..|]. by apply (prefix_match a b x y d).
  - right. split; [done|]. apply prefix_no_match; [done..|]. congruence.
Qed.

(** ** What a run leaves in the cost vector *)

Definition recorded (CC CC' : list Z) (k cost lo hi : Z) : Prop :=
  vsize CC' = vsize CC ∧
  ∀ i c, 0 ≤ i → CC !! Z.to_nat i = Some c →
    CC' !! Z.to_nat i = Some (if decide (lo ≤ i ≤ hi ∧ i - k ≤ vsize a) then Z.min (vsize a - (i - k) + cost) c else c).

Lemma record_step CC cost x y :
  0 ≤ y →
  ∃ CC', (if (y <? vsize CC) && (0 <=? vsize a - x)
          then c ← vec_get CC y; vec_set CC y (Z.min (vsize a - x + cost) c) else Ok CC) = Ok CC' ∧
         recorded CC CC' (y - x) cost y y.
Proof.
  intros Hy. destruct (Z.ltb_spec y (vsize CC)) as [Hlt|Hge]; cbn [andb]; cycle 1.
  { exists CC. split; [done|]. split; [done|]. intros i c Hi Hc. rewrite decide_False; [done|].
    apply lookup_lt_Some in Hc. unfold vsize in Hge. lia. }
  destruct (Z.leb_spec 0 (vsize a - x)) as [Hle|Hgt]; cycle 1.
  { exists CC. split; [done|]. split; [done|]. intros i c Hi Hc. rewrite decide_False; [done|]. lia. }
  destruct (peek_ok CC y) as (c0 & Hc0 & ->); [lia|]. simpl. rewrite poke_ok by lia.
  eexists. split; [done|]. split; [apply vsize_insert|]. intros i c Hi Hc.
  destruct (decide (i = y)) as [->|Hne].
  - rewrite list_lookup_insert_eq by (by apply lookup_lt_Some in Hc). simplify_eq.
    rewrite decide_True by lia. do 2 f_equal. lia.
  - rewrite list_lookup_insert_ne by lia. by rewrite decide_False by lia.
Qed.

Lemma recorded_trans CC CC1 CC2 k cost lo mid hi :
  lo ≤ mid + 1 → mid ≤ hi → recorded CC CC1 k cost lo mid → recorded CC1 CC2 k cost (mid + 1) hi → recorded CC CC2 k cost lo hi.
Proof.
  intros H1 H2 [Hs1 R1] [Hs2 R2]. split; [congruence|]. intros i c Hi Hc.
  specialize (R1 i c Hi Hc). rewrite (R2 i _ Hi R1). f_equal. repeat case_decide; lia.
Qed.

Lemma run_loop_spec fuel cost x y CC :
  0 ≤ x → 0 ≤ y → vsize a - x ≤ Z.of_nat fuel →
  ∃ n CC', run_loop fuel sa (vsize a) sb (vsize b) cost x y CC = Ok (y + n, CC') ∧ 0 ≤ n ∧
    L (x + n) (y + n) = n + L x y ∧
    L (x + n + 1) (y + n + 1) = Z.max (L (x + n) (y + n + 1)) (L (x + n + 1) (y + n)) ∧
    recorded CC CC' (y - x) cost y (y + n).
Proof using Hsa Hsb.
  revert x y CC. induction fuel as [|fuel IH]; intros x y CC Hx Hy Hf; cbn [run_loop];
    destruct (record_step CC cost x y Hy) as (CC1 & -> & R1); cbn [mbind result_bind];
    destruct (same_at_spec x y Hx Hy) as [(-> & Hlt & Hm)|[-> Hm]]; simpl; try lia.
  1,3: exists 0, CC1; rewrite !Z.add_0_r; split_and!; done || lia.
  destruct (IH (x + 1) (y + 1) CC1) as (n & CC' & -> & Hn & Hl & Hend & R2); [lia..|].
  replace (y + 1 - (x + 1)) with (y - x) in R2 by lia.
  exists (n + 1), CC'. replace (y + (n + 1)) with (y + 1 + n) by lia. replace (x + (n + 1)) with (x + 1 + n) by lia.
  split_and!; [done|lia|lia|done|]. eapply recorded_trans; [| |exact R1|exact R2]; lia.
Qed.

(** ** Furthest points *)

Definition far (k q y : Z) : Prop :=
  -1 ≤ y ∧ ∀ y', 0 ≤ y' → k ≤ y' → (y' - k - L (y' - k) y' ≤ q ↔ y' ≤ y).

(** No point of the diagonal is within fewer deletions than its distance from the origin's. *)
Lemma far_empty k q q' y : q ≤ q' → q' < 0 ∨ q' < - k → far k q y → far k q' y.
Proof.
  intros Hq He [H1 H2]. split; [done|]. intros y' Hy Hk. rewrite <- H2 by done.
  pose proof (prefix_le_l a b (y' - k) y'). pose proof (prefix_le_r a b (y' - k) y'). lia.
Qed.

Lemma far_none k q : q < 0 ∨ q < - k → far k q (-1).
Proof.
  intros He. split; [done|]. intros y' Hy Hk.
  pose proof (prefix_le_l a b (y' - k) y'). pose proof (prefix_le_r a b (y' - k) y'). lia.
Qed.

(** Where a run starts. *)
Lemma far_start k q u v :
  0 ≤ q → - q ≤ k → far (k - 1) q u → far (k + 1) (q - 1) v →
  let y := Z.max (u + 1) v in
  0 ≤ y ∧ k ≤ y ∧ y - k - L (y - k) y ≤ q.
Proof.
  intros Hq Hk [Hu Fu] [Hv Fv] y. assert (k ≤ u + 1).
  { destruct (decide (k ≤ 0)); [lia|]. enough (k - 1 ≤ u) by lia.
    apply (Fu (k - 1)); [lia..|]. rewrite Z.sub_diag, prefix_0_l. lia. }
  assert (0 ≤ y ∧ k ≤ y) as [Hy Hky] by lia. split_and!; [done..|].
  destruct (decide (v ≤ u + 1)) as [Hle|Hgt].
  - replace y with (u + 1) in * by lia. destruct (decide (u = -1)) as [->|Hne].
    + change (-1 + 1) with 0. rewrite prefix_0_r. lia.
    + pose proof (proj2 (Fu u ltac:(lia) ltac:(lia)) ltac:(lia)) as H1.
      pose proof (prefix_next_r a b (u + 1 - k) u). replace (u - (k - 1)) with (u + 1 - k) in H1 by lia. lia.
  - replace y with v in * by lia.
    pose proof (proj2 (Fv v ltac:(lia) ltac:(lia)) ltac:(lia)) as H1.
    pose proof (prefix_next_l a b (v - (k + 1)) v ltac:(lia)) as H2.
    replace (v - (k + 1) + 1) with (v - k) in H2 by lia. lia.
Qed.

(** Where it stops. *)
Lemma far_stop k q u v y :
  far (k - 1) q u → far (k + 1) (q - 1) v → 0 ≤ y → k ≤ y → Z.max (u + 1) v ≤ y → y - k - L (y - k) y ≤ q →
  L (y - k + 1) (y + 1) = Z.max (L (y - k) (y + 1)) (L (y - k + 1) y) → far k q y.
Proof.
  intros [Hu Fu] [Hv Fv] Hy Hky Hmax Hq Hend. split; [lia|].
  pose proof (Fu y ltac:(lia) ltac:(lia)) as H1. replace (y - (k - 1)) with (y - k + 1) in H1 by lia.
  pose proof (Fv (y + 1) ltac:(lia) ltac:(lia)) as H2. replace (y + 1 - (k + 1)) with (y - k) in H2 by lia.
  intros y' Hy' Hk'. destruct (Z.le_gt_cases y' y) as [Hle|Hgt].
  - pose proof (prefix_more_both a b (y' - k) y' (y - y')) as H3.
    replace (y' - k + (y - y')) with (y - k) in H3 by lia. replace (y' + (y - y')) with y in H3 by lia. lia.
  - pose proof (prefix_more_both a b (y - k + 1) (y + 1) (y' - y - 1)) as H3.
    replace (y - k + 1 + (y' - y - 1)) with (y' - k) in H3 by lia.
    replace (y + 1 + (y' - y - 1)) with y' in H3 by lia. lia.
Qed.

(** ** The invariant of the sweeps

    [levels] says how many deletions the furthest point kept for each
    diagonal is within.  [sound] bounds the recorded costs from below;
    [complete R] says they are met at the points [(x, y)] whose diagonal and
    deletions are in [R], where going on from [(x, y)] by an insertion or a
    deletion matches nothing more. *)

Definition levels (lo hi : Z) (w : work_vec) (Q : Z → Z) : Prop :=
  Lcs.lo w = lo ∧ vsize (wvec w) = hi - lo + 1 ∧
  ∀ k, lo ≤ k ≤ hi → ∃ y, wvec w !! Z.to_nat (k - lo) = Some y ∧ far k (Q k) y.

Definition sound (CC0 CC : list Z) : Prop :=
  vsize CC = vsize CC0 ∧
  ∀ i c0, 0 ≤ i → CC0 !! Z.to_nat i = Some c0 → ∃ c, CC !! Z.to_nat i = Some c ∧
    Z.min c0 (vsize a + i - 2 * L (vsize a) i) ≤ c.

Definition complete (CC : list Z) (R : Z → Z → Prop) : Prop :=
  ∀ x y c, 0 ≤ x ≤ vsize a → 0 ≤ y → R (y - x) (x - L x y) → L (x + 1) y = L x y → L x (y + 1) = L x y →
    CC !! Z.to_nat y = Some c → c ≤ vsize a + y - 2 * L x y.

Lemma sound_recorded CC0 CC CC' k q p y0 y1 :
  far k q y1 → q ≤ p → 0 ≤ y0 → k ≤ y0 → recorded CC CC' k (k + 2 * p) y0 y1 → sound CC0 CC → sound CC0 CC'.
Proof.
  intros [_ F] Hq H0 Hk [Hs Hr] [Hs0 Hc]. split; [congruence|]. intros i c0 Hi Hc0.
  destruct (Hc i c0 Hi Hc0) as (c & Hcc & Hle). eexists. split; [by apply Hr|].
  case_decide as Hd; [|done]. pose proof (proj2 (F i ltac:(lia) ltac:(lia)) ltac:(lia)).
  pose proof (prefix_more_l a b (i - k) i (vsize a - (i - k)) ltac:(lia) ltac:(lia)) as Hm.
  replace (i - k + (vsize a - (i - k))) with (vsize a) in Hm by lia. lia.
Qed.

Lemma recorded_le CC CC' k cost y0 y1 y c' :
  0 ≤ y → recorded CC CC' k cost y0 y1 → CC' !! Z.to_nat y = Some c' →
  ∃ c, CC !! Z.to_nat y = Some c ∧ c' ≤ c ∧ (y0 ≤ y ≤ y1 → y - k ≤ vsize a → c' ≤ vsize a - (y - k) + cost).
Proof.
  intros Hy [Hs Hr] Hc'. destruct (lookup_lt_is_Some_2 CC (Z.to_nat y)) as [c Hc].
  { apply lookup_lt_Some in Hc'. unfold vsize in Hs. lia. }
  exists c. split; [done|]. rewrite (Hr y c Hy Hc) in Hc'. simplify_eq. case_decide; lia.
Qed.

Lemma complete_recorded CC CC' R k p u v y1 :
  far k p y1 → far (k - 1) p u → far (k + 1) (p - 1) v →
  recorded CC CC' k (k + 2 * p) (Z.max (u + 1) v) y1 → complete CC R →
  complete CC' (λ k' q', R k' q' ∨ (k' = k ∧ q' = p)).
Proof.
  intros [_ F] [_ Fu] [_ Fv] Hr Hc x y c' Hx Hy HR H1 H2 Hc'.
  destruct (recorded_le _ _ _ _ _ _ y c' Hy Hr Hc') as (c & Hcc & Hle & Hrec).
  destruct HR as [HR|[Hk Hp]]; [specialize (Hc x y c Hx Hy HR H1 H2 Hcc); lia|].
  assert (y - k = x) as Hyk by lia.
  pose proof (F y ltac:(lia) ltac:(lia)) as G. rewrite Hyk in G.
  pose proof (Fu y ltac:(lia) ltac:(lia)) as Gu. replace (y - (k - 1)) with (x + 1) in Gu by lia.
  pose proof (Fv (y + 1) ltac:(lia) ltac:(lia)) as Gv. replace (y + 1 - (k + 1)) with x in Gv by lia. lia.
Qed.

Lemma complete_recorded_old CC CC' R k cost y0 y1 : recorded CC CC' k cost y0 y1 → complete CC R → complete CC' R.
Proof.
  intros Hr Hc x y c' Hx Hy HR H1 H2 Hc'.
  destruct (recorded_le _ _ _ _ _ _ y c' Hy Hr Hc') as (c & Hcc & Hle & _).
  specialize (Hc x y c Hx Hy HR H1 H2 Hcc). lia.
Qed.

Lemma complete_mono CC (R R' : Z → Z → Prop) : (∀ k q, R' k q → R k q) → complete CC R → complete CC R'.
Proof. intros HR Hc x y c Hx Hy H. by apply Hc, HR. Qed.

Lemma levels_mono lo hi w Q Q' :
  (∀ k y, lo ≤ k ≤ hi → far k (Q k) y → far k (Q' k) y) → levels lo hi w Q → levels lo hi w Q'.
Proof.
  intros H (H1 & H2 & H3). split_and!; [done..|]. intros k Hk. destruct (H3 k Hk) as (y & ? & ?). eauto.
Qed.

Lemma levels_get lo hi w Q k :
  levels lo hi w Q → lo ≤ k ≤ hi → ∃ y, wget w k = Ok y ∧ far k (Q k) y.
Proof.
  intros (<- & _ & H) Hk. destruct (H k Hk) as (y & Hy & Hf). exists y. split; [|done].
  apply peek_lookup; [lia|done].
Qed.

Lemma levels_set lo hi w Q k q y :
  levels lo hi w Q → lo ≤ k ≤ hi → far k q y →
  ∃ w', wset w k y = Ok w' ∧ levels lo hi w' (λ t, if decide (t = k) then q else Q t).
Proof.
  intros (<- & Hs & H) Hk Hf. unfold wset. rewrite poke_ok by lia. eexists. split; [done|].
  unfold levels. cbn [Lcs.lo wvec]. split_and!; [done|by rewrite vsize_insert|]. intros t Ht.
  case_decide as Hd; [subst t; exists y; split; [apply list_lookup_insert_eq; unfold vsize in Hs; lia|done]|].
  rewrite list_lookup_insert_ne by lia. by apply H.
Qed.

Context (lo hi : Z) (CC0 : list Z).

(** The state of a sweep. *)
Definition swept (Q : Z → Z) (R : Z → Z → Prop) (st : work_vec * list Z) : Prop :=
  levels lo hi st.1 Q ∧ sound CC0 st.2 ∧ complete st.2 R.

Lemma swept_mono Q Q' (R R' : Z → Z → Prop) st :
  (∀ k y, lo ≤ k ≤ hi → far k (Q k) y → far k (Q' k) y) → (∀ k q, R' k q → R k q) → swept Q R st → swept Q' R' st.
Proof. intros HQ HR (H1 & H2 & H3). split_and!; [by eapply levels_mono|done|by eapply complete_mono]. Qed.

Lemma run_spec w CC Q (R : Z → Z → Prop) k q p :
  swept Q R (w, CC) → lo < k < hi → Q (k - 1) = q → Q (k + 1) = q - 1 → 0 ≤ q ≤ p → - q ≤ k →
  ∃ y w' CC', run w k sa (vsize a) sb (vsize b) CC p = Ok (y, w', CC') ∧ far k q y ∧
    swept (λ t, if decide (t = k) then q else Q t) (λ k' q', R k' q' ∨ (k' = k ∧ q' = q ∧ q' = p)) (w', CC').
Proof using Hsa Hsb.
  intros (HL & HS & HC) Hk Hl Hr Hq Hqk. cbn [fst snd] in *. unfold run.
  destruct (levels_get _ _ _ _ (k - 1) HL) as (u & -> & Fu); [lia|].
  destruct (levels_get _ _ _ _ (k + 1) HL) as (v & -> & Fv); [lia|]. rewrite Hl in Fu. rewrite Hr in Fv.
  destruct (far_start k q u v) as (Hy & Hky & Hd); [lia|done..|]. cbn [mbind result_bind].
  rewrite (proj2 (Z.leb_le 0 (Z.max (u + 1) v))), (proj2 (Z.leb_le 0 (Z.max (u + 1) v - k))) by lia. cbn [I_ mbind result_bind].
  set (y := Z.max (u + 1) v) in *.
  destruct (run_loop_spec (Z.to_nat (vsize a)) (k + 2 * p) (y - k) y CC) as (n & CC' & -> & Hn & Hl1 & Hl2 & Hrec); [lia..|].
  replace (y - (y - k)) with k in Hrec by lia. replace (y - k + n) with (y + n - k) in * by lia. cbn [mbind result_bind].
  assert (far k q (y + n)) as HF by (apply (far_stop k q u v); [done|done|lia..]).
  destruct (levels_set lo hi w Q k q (y + n) HL) as (w' & -> & HL'); [lia|done|].
  eexists _, w', CC'. split; [done|]. split; [done|]. split_and!; cbn [fst snd]; [done| |].
  - eapply sound_recorded; [exact HF| | | |exact Hrec|done]; lia.
  - destruct (decide (q = p)) as [->|Hne].
    + eapply complete_mono; [|eapply complete_recorded; [exact HF|exact Fu|exact Fv|exact Hrec|exact HC]]. naive_solver.
    + eapply complete_mono; [|eapply complete_recorded_old; [exact Hrec|exact HC]]. naive_solver.
Qed.

(** A sweep over diagonals [K 0], [K 1], ... that takes the levels from [Q i] to [Q (i + 1)] at [K i]. *)
Lemma sweep_spec p (K : Z → Z) (Q : Z → Z → Z) (R : Z → Z → Z → Prop) (N : nat) st :
  swept (Q 0) (R 0) st →
  (∀ i, 0 ≤ i < Z.of_nat N →
    lo < K i < hi ∧ 0 ≤ Q (i + 1) (K i) ≤ p ∧ - Q (i + 1) (K i) ≤ K i ∧
    Q i (K i - 1) = Q (i + 1) (K i) ∧ Q i (K i + 1) = Q (i + 1) (K i) - 1 ∧
    (∀ t, t ≠ K i → Q (i + 1) t = Q i t) ∧
    (∀ k q, R (i + 1) k q → R i k q ∨ (k = K i ∧ q = Q (i + 1) (K i) ∧ q = p))) →
  ∃ st', sweep sa (vsize a) sb (vsize b) p (K <$> seqZ 0 (Z.of_nat N)) st = Ok st' ∧ swept (Q (Z.of_nat N)) (R (Z.of_nat N)) st'.
Proof using Hsa Hsb.
  intros H0. induction N as [|N IH]; intros Hstep; [by exists st|].
  destruct IH as ([w CC] & Hf & Hw); [intros i Hi; apply Hstep; lia|].
  destruct (Hstep (Z.of_nat N)) as (H1 & H2 & H3 & H4 & H5 & H6 & H7); [lia|].
  rewrite seqZ_S, fmap_app. unfold sweep in *. rewrite foldM_app, Hf. cbn [mbind result_bind fmap list_fmap foldM].
  rewrite Z.add_0_l.
  destruct (run_spec w CC _ _ (K (Z.of_nat N)) (Q (Z.of_nat N + 1) (K (Z.of_nat N))) p Hw H1 H4 H5 H2 H3)
    as (y & w' & CC' & -> & HF & Hw'). cbn [mbind result_bind].
  eexists. split; [done|]. replace (Z.of_nat (S N)) with (Z.of_nat N + 1) by lia.
  eapply swept_mono; [| |exact Hw']; [|exact H7]. intros k y' _ HF'. cbn beta in HF'. case_decide; [by subst|by rewrite H6].
Qed.

Definition level (p k : Z) : Z := p - 1 - Z.max 0 (k - delta).
Definition covered (p k q : Z) : Prop := q < p ∧ - q ≤ k ≤ delta.

Lemma round_spec p w CC :
  0 ≤ p → 0 ≤ delta → lo ≤ - p - 1 → delta + p + 1 ≤ hi → swept (level p) (covered p) (w, CC) →
  ∃ st w1 CC1 y w' CC',
    sweep sa (vsize a) sb (vsize b) p (seqZ (- p) (delta + p)) (w, CC) = Ok st ∧
    sweep sa (vsize a) sb (vsize b) p (Z.sub (delta + p) <$> seqZ 0 p) st = Ok (w1, CC1) ∧
    run w1 delta sa (vsize a) sb (vsize b) CC1 p = Ok (y, w', CC') ∧ far delta p y ∧
    swept (level (p + 1)) (covered (p + 1)) (w', CC').
Proof using Hsa Hsb.
  intros Hp Hd Hlo Hhi H0.
  destruct (sweep_spec p (Z.add (- p)) (λ i k, if decide (k < - p + i) then p else level p k)
    (λ i k q, covered p k q ∨ (q = p ∧ - p ≤ k < - p + i)) (Z.to_nat (delta + p)) (w, CC)) as (st1 & E1 & H1).
  { eapply swept_mono; [| |exact H0]; [|intros k q [?|?]; [done|lia]].
    intros k y Hk. cbn beta. case_decide; [|done]. unfold level. apply far_empty; lia. }
  { rewrite Z2Nat.id by lia. intros i Hi. unfold level, covered. cbn beta. split_and!; repeat case_decide; try lia; intros t Ht; repeat case_decide; lia. }
  rewrite Z2Nat.id in E1, H1 by lia. rewrite fmap_add_seqZ, Z.add_0_r in E1.
  destruct (sweep_spec p (Z.sub (delta + p))
    (λ i k, if decide (k < delta) then p else if decide (delta + p - i < k) then p - (k - delta) else level p k)
    (λ i k q, covered p k q ∨ (q = p ∧ - p ≤ k < delta)) (Z.to_nat p) st1) as ([w2 CC2] & E2 & H2).
  { eapply swept_mono; [| |exact H1]; [|unfold covered; intros k q; lia].
    intros k y Hk. cbn beta. repeat case_decide; try done; try lia. unfold level. apply far_empty; lia. }
  { rewrite Z2Nat.id by lia. intros i Hi. unfold level, covered. cbn beta. split_and!; repeat case_decide; try lia; intros t Ht; repeat case_decide; lia. }
  rewrite Z2Nat.id in E2, H2 by lia.
  destruct (run_spec w2 CC2 _ _ delta p p H2) as (y & w' & CC' & E3 & HF & H3); unfold level; repeat case_decide; try lia.
  exists st1, w2, CC2, y, w', CC'. split_and!; [done..|].
  eapply swept_mono; [| |exact H3]; cbn beta; unfold covered; [|intros k q; lia].
  intros k z Hk Hz. apply (eq_ind _ (λ q, far k q z) Hz). unfold level. repeat case_decide; lia.
Qed.

(** ** The two uses of [compare] *)

Lemma start_swept w : new_work_vec lo hi = Ok w → 0 ≤ hi - lo + 1 → swept (level 0) (covered 0) (w, CC0).
Proof.
  unfold new_work_vec. intros Hw Hs. rewrite (proj2 (Z.ltb_ge _ _)) in Hw by lia. simplify_eq. split_and!; cbn [fst snd].
  - unfold levels, vsize. cbn [Lcs.lo wvec]. rewrite length_replicate. split_and!; [done|lia|]. intros k Hk. exists (-1).
    rewrite lookup_replicate_2 by lia. split; [done|]. apply far_none. unfold level. lia.
  - split; [done|]. intros i c0 Hi Hc. exists c0. split; [done|lia].
  - intros x y c Hx Hy [HR _]. pose proof (prefix_le_l a b x y). lia.
Qed.
End compare_spec.

Section compare_uses.
Context (sa sb : subarray) (a b : list Z) (Hsa : views sa a) (Hsb : views sb b).
Local Notation L := (prefix_lcs a b).
Local Notation delta := (vsize b - vsize a).

Lemma compare_loop_full lo hi CC0 n p w CC :
  0 ≤ p → 0 ≤ delta → lo ≤ - (p + Z.of_nat n) → delta + p + Z.of_nat n ≤ hi →
  swept a b lo hi CC0 (level a b p) (covered a b p) (w, CC) →
  ∃ CC', compare_loop sa (vsize a) sb (vsize b) n true p w CC = Ok (p + Z.of_nat n, CC') ∧
    sound a b CC0 CC' ∧ complete a b CC' (covered a b (p + Z.of_nat n)).
Proof using Hsa Hsb.
  revert p w CC. induction n as [|n IH]; intros p w CC Hp Hd Hlo Hhi H0; cbn [compare_loop].
  - destruct H0 as (_ & H1 & H2). exists CC. rewrite Z.add_0_r. done.
  - destruct (round_spec sa sb a b Hsa Hsb lo hi CC0 p w CC) as (st & w1 & CC1 & y & w' & CC' & E1 & E2 & E3 & _ & H1); [lia..|done|].
    cbv zeta. rewrite E1. cbn [mbind result_bind]. rewrite E2. cbn [mbind result_bind]. rewrite E3. cbn [mbind result_bind negb andb].
    destruct (IH (p + 1) w' CC') as (CC2 & -> & H2 & H3); [lia..|done|].
    exists CC2. replace (p + Z.of_nat (S n)) with (p + 1 + Z.of_nat n) by lia. done.
Qed.

(** Scanning in full records costs that are never too low, and exact where nothing is jumped over. *)
Lemma compare_full CC0 p_lim :
  0 ≤ p_lim → 0 ≤ delta →
  ∃ CC', compare sa (vsize a) sb (vsize b) CC0 p_lim true = Ok (delta + 2 * (p_lim + 1), CC') ∧
    sound a b CC0 CC' ∧ complete a b CC' (covered a b (p_lim + 1)).
Proof using Hsa Hsb.
  intros Hp Hd. unfold compare. cbv zeta iota.
  destruct (new_work_vec (- (p_lim + 1)) (p_lim + 1 + delta)) as [w|] eqn:Hw.
  2: { unfold new_work_vec in Hw. rewrite (proj2 (Z.ltb_ge _ _)) in Hw by lia. done. }
  pose proof (start_swept a b _ _ CC0 w Hw ltac:(lia)) as H0. cbn [mbind result_bind].
  destruct (compare_loop_full (- (p_lim + 1)) (p_lim + 1 + delta) CC0 (Z.to_nat (p_lim + 1)) 0 w CC0) as (CC' & -> & H1 & H2); [lia..|exact H0|].
  rewrite Z2Nat.id, Z.add_0_l in * by lia. exists CC'. done.
Qed.

Lemma compare_loop_distance lo hi CC0 n p w CC :
  0 ≤ p ≤ vsize a - lcs a b → vsize a - lcs a b < p + Z.of_nat n → 0 ≤ delta →
  lo ≤ - (p + Z.of_nat n) → delta + p + Z.of_nat n ≤ hi →
  swept a b lo hi CC0 (level a b p) (covered a b p) (w, CC) →
  ∃ CC', compare_loop sa (vsize a) sb (vsize b) n false p w CC = Ok (vsize a - lcs a b, CC').
Proof using Hsa Hsb.
  revert p w CC. induction n as [|n IH]; intros p w CC Hp Hn Hd Hlo Hhi H0; [lia|]. cbn [compare_loop].
  destruct (round_spec sa sb a b Hsa Hsb lo hi CC0 p w CC) as (st & w1 & CC1 & y & w' & CC' & E1 & E2 & E3 & [_ HF] & H1); [lia..|done|].
  cbv zeta. rewrite E1. cbn [mbind result_bind]. rewrite E2. cbn [mbind result_bind]. rewrite E3. cbn [mbind result_bind negb andb].
  specialize (HF (vsize b) ltac:(unfold vsize; lia) ltac:(unfold vsize; lia)).
  replace (vsize b - delta) with (vsize a) in HF by lia.
  assert (L (vsize a) (vsize b) = lcs a b) as HL by (unfold prefix_lcs, vsize; by rewrite !Nat2Z.id, !firstn_all).
  rewrite HL in HF. destruct (Z.leb_spec (vsize b) y) as [Hy|Hy].
  - exists CC'. do 2 f_equal. lia.
  - apply (IH (p + 1) w' CC'); [lia..|done].
Qed.

(** Without the full scan it finds the edit distance. *)
Lemma compare_distance CC0 :
  0 ≤ delta → ∃ CC', compare sa (vsize a) sb (vsize b) CC0 (Z.min (vsize a) (vsize b)) false =
    Ok (delta + 2 * (vsize a - lcs a b), CC').
Proof using Hsa Hsb.
  intros Hd. unfold compare. cbv zeta iota.
  pose proof (lcs_le_l a b). pose proof (lcs_nonneg a b). assert (0 ≤ vsize a) by (unfold vsize; lia).
  destruct (new_work_vec (- (vsize a + 1)) (1 + vsize b)) as [w|] eqn:Hw.
  2: { unfold new_work_vec in Hw. rewrite (proj2 (Z.ltb_ge _ _)) in Hw by lia. done. }
  pose proof (start_swept a b _ _ CC0 w Hw ltac:(lia)) as Hst. cbn [mbind result_bind].
  destruct (compare_loop_distance (- (vsize a + 1)) (1 + vsize b) CC0 (Z.to_nat (Z.min (vsize a) (vsize b) + 1)) 0 w CC0) as (CC' & ->); [lia..|exact Hst|].
  by exists CC'.
Qed.
End compare_uses.
