(* ===== verification/LcsSplit.v ===== *)
(** * Where a cheapest path crosses the middle

    [divide_and_conquer] gets, from [compare] on the two halves of the edit
    graph, costs through each point of the split line.  They are exact only
    where the trimmed graph lets them be; this file shows that the split
    line always has a point of a shortest path where both are, so that
    [mid_split] finds one, and that any point it accepts is on a shortest path. *)

From S2P Require Import Prelude Numbers Lcs LcsDistance LcsCompare.

Lemma vsize_nonneg {A} (l : list A) : 0 ≤ vsize l.
Proof. unfold vsize. lia. Qed.
Lemma vsize_app {A} (l k : list A) : vsize (l ++ k) = vsize l + vsize k.
Proof. unfold vsize. rewrite length_app. lia. Qed.
Lemma vsize_reverse {A} (l : list A) : vsize (reverse l) = vsize l.
Proof. unfold vsize. by rewrite length_reverse. Qed.
Lemma vsize_take {A} (l : list A) n : 0 ≤ n → vsize (take (Z.to_nat n) l) = Z.min n (vsize l).
Proof. unfold vsize. intros. rewrite length_take. lia. Qed.
Lemma vsize_drop {A} (l : list A) n : 0 ≤ n ≤ vsize l → vsize (drop (Z.to_nat n) l) = vsize l - n.
Proof. unfold vsize. intros. rewrite length_drop. lia. Qed.
Lemma vsize_cons {A} (x : A) l : vsize (x :: l) = 1 + vsize l.
Proof. unfold vsize. cbn [length]. lia. Qed.
Lemma vsize_replicate {A} n (x : A) : vsize (replicate n x) = Z.of_nat n.
Proof. unfold vsize. by rewrite length_replicate. Qed.
Lemma vsize_0 {A} (l : list A) : vsize l = 0 → l = [].
Proof. unfold vsize. destruct l; [done|cbn [length]; lia]. Qed.

(** ** One half *)

Section half.
Context (sa sb : subarray) (a b : list Z) (lb delta P full : Z).
Context (Hsa : views sa a) (Hsb : views sb (take (Z.to_nat lb) b)).
Context (Hdelta : 0 ≤ delta) (HP : 0 ≤ P) (Hab : vsize a ≤ vsize b) (Hfull : vsize a + vsize b ≤ full).
Context (Hlb : lb = Z.min (vsize b) (vsize a + delta + P + 1)).
Local Notation L := (prefix_lcs a b).
Local Notation b' := (take (Z.to_nat lb) b).

Lemma trimmed_size : vsize b' = lb.
Proof using Hdelta HP Hab Hlb.
  rewrite vsize_take by (pose proof (vsize_nonneg a); pose proof (vsize_nonneg b); lia).
  pose proof (vsize_nonneg a). lia.
Qed.

Lemma trimmed x y : x ≤ vsize a → y ≤ lb → prefix_lcs a b' x y = L x y.
Proof.
  intros Hx Hy. rewrite <- (prefix_take a b (vsize a) lb x y) by done.
  unfold vsize. by rewrite Nat2Z.id, firstn_all.
Qed.

Lemma trimmed_le x y : 0 ≤ y → prefix_lcs a b' x y ≤ L x y.
Proof.
  intros Hy. unfold prefix_lcs. rewrite take_take.
  destruct (decide (Z.to_nat lb < Z.to_nat y)%nat) as [Hlt|]; [|by rewrite Nat.min_l by lia].
  rewrite Nat.min_r by lia. pose proof (prefix_more_l b a lb x (y - Z.max 0 lb)) as H.
  destruct (decide (0 ≤ lb)) as [|Hneg].
  - replace (lb + (y - Z.max 0 lb)) with y in H by lia. rewrite <- !(prefix_sym b a) in H. unfold prefix_lcs in H. lia.
  - replace (Z.to_nat lb) with 0%nat by lia. rewrite take_0, lcs_nil_r. apply lcs_nonneg.
Qed.

(** The first row that has all the matches of the last. *)
Lemma first_row y : 0 ≤ y →
  ∃ x, 0 ≤ x ≤ vsize a ∧ L x y = L (vsize a) y ∧ L x (y + 1) = L x y.
Proof.
  intros Hy. enough (∀ n, 0 ≤ n → n ≤ vsize a → ∃ x, 0 ≤ x ≤ n ∧ L x y = L n y ∧ L x (y + 1) = L x y) as H
    by (apply H; [apply vsize_nonneg|done]).
  apply (natlike_ind (λ n, n ≤ vsize a → ∃ x, 0 ≤ x ≤ n ∧ L x y = L n y ∧ L x (y + 1) = L x y)).
  - intros _. exists 0. by rewrite !prefix_0_l.
  - intros n Hn IH Hle. pose proof (prefix_next_l a b n y Hn). change (Z.succ n) with (n + 1) in *.
    destruct (decide (L (n + 1) y = L n y)) as [Heq|Hne].
    + destruct IH as (x & ? & ? & ?); [lia|]. exists x. split_and!; done || lia.
    + exists (n + 1). pose proof (prefix_next_both a b n y Hn Hy). pose proof (prefix_next_r a b (n + 1) y Hy).
      split_and!; lia.
Qed.

Lemma last_row x y : 0 ≤ x ≤ vsize a → L x y ≤ L (vsize a) y.
Proof.
  intros Hx. pose proof (prefix_more_l a b x y (vsize a - x)) as H. replace (x + (vsize a - x)) with (vsize a) in H by lia. lia.
Qed.

Lemma half_row x y :
  0 ≤ x ≤ vsize a → 0 ≤ y → L x y = L (vsize a) y → L (x + 1) y = L x y.
Proof.
  intros Hx Hy Heq. destruct (decide (x = vsize a)) as [->|Hne]; [by apply prefix_beyond_l|].
  pose proof (last_row (x + 1) y ltac:(lia)). pose proof (prefix_next_l a b x y). lia.
Qed.

(** The costs of the half, and where they are exact. *)
Lemma half_costs :
  ∃ c CC, compare sa (vsize a) sb lb (replicate (Z.to_nat (vsize b + 1)) full) P true = Ok (c, CC) ∧
    vsize CC = vsize b + 1 ∧
    ∀ y, 0 ≤ y ≤ vsize b → ∃ v, vec_get CC y = Ok v ∧ vsize a + y - 2 * L (vsize a) y ≤ v ∧
      (y - L (vsize a) y ≤ delta + P → vsize a - L (vsize a) y ≤ P →
       y ≤ vsize b - vsize a ∨ y = vsize b ∨ L (vsize a) (y + 1) = L (vsize a) y →
       v = vsize a + y - 2 * L (vsize a) y).
Proof using Hsa Hsb Hdelta HP Hab Hfull Hlb.
  pose proof trimmed_size as Hs. pose proof (vsize_nonneg a) as Ha0.
  destruct (compare_full sa sb a b' Hsa Hsb (replicate (Z.to_nat (vsize b + 1)) full) P HP ltac:(lia))
    as (CC & Hc & [Hsz Hsound] & Hcomp). rewrite Hs in Hc.
  rewrite vsize_replicate, Z2Nat.id in Hsz by (pose proof (vsize_nonneg b); lia).
  eexists _, CC. split; [exact Hc|]. split; [done|]. intros y Hy.
  destruct (Hsound y full ltac:(lia)) as (v & Hv & Hmin); [apply lookup_replicate_2; lia|].
  exists v. split; [apply peek_lookup; [lia|done]|].
  pose proof (trimmed_le (vsize a) y ltac:(lia)). pose proof (prefix_nonneg a b (vsize a) y).
  assert (vsize a + y - 2 * L (vsize a) y ≤ v) as Hlow by lia. split; [done|]. intros Hins Hdel Hside.
  enough (∃ x, 0 ≤ x ≤ vsize a ∧ y - x ≤ lb - vsize a ∧ L x y = L (vsize a) y ∧ (y < lb → L x (y + 1) = L x y))
    as (x & Hx & Hk & Heq & Hr).
  { apply Z.le_antisymm; [|done]. rewrite <- Heq, <- (trimmed x y) by lia.
    apply (Hcomp x y v); [done|lia| | | |done].
    - unfold covered. rewrite Hs, trimmed by lia. pose proof (prefix_le_r a b x y). lia.
    - destruct (decide (x = vsize a)) as [->|Hne]; [by apply prefix_beyond_l|].
      rewrite !trimmed by lia. by apply half_row; [lia..|].
    - destruct (decide (y < lb)) as [Hlt|Hge]; [rewrite !trimmed by lia; auto|].
      apply prefix_beyond_r. lia. }
  destruct (first_row y ltac:(lia)) as (x & Hx & Heq & Hr).
  destruct (decide (y - x ≤ lb - vsize a)) as [Hle|Hgt]; [by exists x|].
  pose proof (prefix_le_l a b x y ltac:(lia)). exists (y - (lb - vsize a)).
  assert (lb = vsize b) as Hbl by lia.
  pose proof (prefix_more_l a b x y (y - (lb - vsize a) - x)) as Hm.
  replace (x + (y - (lb - vsize a) - x)) with (y - (lb - vsize a)) in Hm by lia.
  pose proof (last_row (y - (lb - vsize a)) y ltac:(lia)).
  split_and!; [lia..|]. intros Hlt. destruct Hside as [?|[?|Hside]]; [lia..|].
  pose proof (last_row (y - (lb - vsize a)) (y + 1) ltac:(lia)).
  pose proof (prefix_next_r a b (y - (lb - vsize a)) y). lia.
Qed.
End half.

(** ** The search along the split line *)

Lemma mid_split_loop_spec fuel n rr cc cost rdx cdx y :
  vsize cc = n + 1 → vsize rr = n + 1 → rdx + cdx = n ∨ rdx + cdx = n + 1 → rdx < cdx → rdx ≤ Z.of_nat fuel →
  0 ≤ y ≤ n → y ≤ rdx ∨ cdx ≤ y → (∃ c r, vec_get cc y = Ok c ∧ vec_get rr (n - y) = Ok r ∧ c + r = cost) →
  ∃ s c r, mid_split_loop fuel n rr cc cost rdx cdx = Ok s ∧ 0 ≤ s ≤ n ∧
    vec_get cc s = Ok c ∧ vec_get rr (n - s) = Ok r ∧ c + r = cost.
Proof.
  intros Hc Hr. revert rdx cdx. induction fuel as [|fuel IH]; intros rdx cdx Hsum Hlt Hf Hy Hside Hsol; cbn [mid_split_loop];
    (rewrite (proj2 (Z.leb_le _ _)) by lia); cbn [I_ mbind result_bind];
    destruct (peek_ok cc rdx) as (c & _ & Ec); try lia; destruct (peek_ok rr (n - rdx)) as (r & _ & Er); try lia;
    rewrite Ec, Er; cbn [mbind result_bind];
    (destruct (Z.eqb_spec cost (c + r)) as [Heq|Hne]; [exists rdx, c, r; split_and!; done || lia|]).
  all: assert (y ≠ rdx) by (intros ->; destruct Hsol as (? & ? & ? & ? & ?); congruence).
  all: destruct (peek_ok cc cdx) as (c' & _ & Ec'); [lia|]; destruct (peek_ok rr (n - cdx)) as (r' & _ & Er'); [lia|].
  all: rewrite Ec', Er'; cbn [mbind result_bind].
  all: destruct (Z.eqb_spec cost (c' + r')) as [Heq'|Hne']; [exists cdx, c', r'; split_and!; done || lia|].
  all: assert (y ≠ cdx) by (intros ->; destruct Hsol as (? & ? & ? & ? & ?); congruence).
  - lia.
  - apply IH; lia || done.
Qed.

Lemma mid_split_spec n rr cc cost y :
  vsize cc = n + 1 → vsize rr = n + 1 → 0 ≤ y ≤ n →
  (∃ c r, vec_get cc y = Ok c ∧ vec_get rr (n - y) = Ok r ∧ c + r = cost) →
  ∃ s c r, mid_split n rr cc cost = Ok s ∧ 0 ≤ s ≤ n ∧
    vec_get cc s = Ok c ∧ vec_get rr (n - s) = Ok r ∧ c + r = cost.
Proof.
  intros Hc Hr Hy Hsol. unfold mid_split. rewrite Z.quot_div_nonneg by lia.
  pose proof (Z.div_mod n 2). pose proof (Z.mod_pos_bound n 2).
  apply mid_split_loop_spec with y; [done|done|lia..|done].
Qed.

(** ** A point of the split line on a shortest path *)

Section crossing.
Context (a1 a2 b : list Z).
Local Notation n := (vsize a1 + vsize a2).
Local Notation l := (lcs (a1 ++ a2) b).
Context (Hn : vsize a1 + vsize a2 ≤ vsize b).

(** The matches of a path through [(|a1|, y)]. *)
Definition through (y : Z) : Z := lcs a1 (take (Z.to_nat y) b) + lcs a2 (drop (Z.to_nat y) b).

Lemma through_le y : through y ≤ l.
Proof. unfold through. rewrite <- (take_drop (Z.to_nat y) b) at 3. apply lcs_app. Qed.

Lemma through_some : ∃ y, 0 ≤ y ≤ vsize b ∧ through y = l.
Proof.
  destruct (lcs_split a1 a2 b) as (b1 & b2 & Hb & ->). exists (vsize b1). unfold through, vsize.
  rewrite Hb, length_app. split; [lia|]. by rewrite Nat2Z.id, take_app_length, drop_app_length.
Qed.

Lemma through_up y : 0 ≤ y ≤ vsize b → through y = l →
  ∃ y', y ≤ y' ≤ vsize b ∧ through y' = l ∧ (y' = vsize b ∨ through (y' + 1) ≠ l).
Proof.
  intros Hy. assert (∃ d : nat, vsize b - y = Z.of_nat d) as [d Hd] by (exists (Z.to_nat (vsize b - y)); lia).
  revert y Hy Hd. induction d as [|d IH]; intros y Hy Hd Ht.
  - exists y. split_and!; [lia..|done|left; lia].
  - destruct (decide (through (y + 1) = l)) as [Heq|Hne].
    + destruct (IH (y + 1)) as (y' & ? & ? & ?); [lia..|done|]. exists y'. split_and!; done || lia.
    + exists y. split_and!; done || lia || auto.
Qed.

Lemma through_down y : 0 ≤ y → through y = l →
  ∃ y', 0 ≤ y' ≤ y ∧ through y' = l ∧ (y' = 0 ∨ through (y' - 1) ≠ l).
Proof.
  revert y. apply (natlike_ind (λ y, through y = l → ∃ y', 0 ≤ y' ≤ y ∧ through y' = l ∧ (y' = 0 ∨ through (y' - 1) ≠ l))).
  - intros Ht. exists 0. split_and!; done || auto.
  - intros y Hy IH Ht. replace (Z.succ y) with (y + 1) in * by lia.
    destruct (decide (through y = l)) as [Heq|Hne].
    + destruct (IH Heq) as (y' & ? & ? & ?). exists y'. split_and!; done || lia.
    + exists (y + 1). replace (y + 1 - 1) with y by lia. split_and!; done || lia || auto.
Qed.

(** The other half, read from its end. *)
Lemma rest_reversed y : 0 ≤ y ≤ vsize b →
  prefix_lcs (reverse a2) (reverse b) (vsize a2) (vsize b - y) = lcs a2 (drop (Z.to_nat y) b).
Proof using Type.
  clear Hn. intros Hy. unfold prefix_lcs. rewrite <- (lcs_reverse a2). f_equal.
  - unfold vsize. rewrite Nat2Z.id, take_ge; [done|]. by rewrite length_reverse.
  - replace (reverse b) with (reverse (drop (Z.to_nat y) b) ++ reverse (take (Z.to_nat y) b))
      by (by rewrite <- reverse_app, take_drop). apply take_app_length'.
    rewrite length_reverse, length_drop. unfold vsize in *. lia.
Qed.

Lemma first_half y : prefix_lcs a1 b (vsize a1) y = lcs a1 (take (Z.to_nat y) b).
Proof. unfold prefix_lcs, vsize. by rewrite Nat2Z.id, firstn_all. Qed.

(** Both halves take no more insertions and deletions than the whole. *)
Lemma through_budget y : 0 ≤ y ≤ vsize b → through y = l →
  let c := lcs a1 (take (Z.to_nat y) b) in let r := lcs a2 (drop (Z.to_nat y) b) in
  y - c ≤ vsize b - l ∧ vsize a1 - c ≤ n - l ∧ vsize b - y - r ≤ vsize b - l ∧ vsize a2 - r ≤ n - l.
Proof.
  intros Hy Ht c r. unfold through in Ht. fold c r in Ht.
  pose proof (lcs_le_l a1 (take (Z.to_nat y) b)). pose proof (lcs_le_r a1 (take (Z.to_nat y) b)) as H1.
  pose proof (lcs_le_l a2 (drop (Z.to_nat y) b)). pose proof (lcs_le_r a2 (drop (Z.to_nat y) b)) as H2.
  rewrite vsize_take in H1 by lia. rewrite vsize_drop in H2 by lia. lia.
Qed.

(** A shortest path crosses where both halves are exact. *)
Lemma crossing :
  ∃ y, 0 ≤ y ≤ vsize b ∧ through y = l ∧
    (y ≤ vsize b - vsize a1 ∨ y = vsize b ∨ prefix_lcs a1 b (vsize a1) (y + 1) = prefix_lcs a1 b (vsize a1) y) ∧
    (vsize b - y ≤ vsize b - vsize a2 ∨ vsize b - y = vsize b ∨
     prefix_lcs (reverse a2) (reverse b) (vsize a2) (vsize b - y + 1) =
     prefix_lcs (reverse a2) (reverse b) (vsize a2) (vsize b - y)).
Proof using Hn.
  destruct through_some as (y & Hy & Ht). destruct (through_up y Hy Ht) as (y0 & Hy0 & Ht0 & Hup).
  destruct (decide (vsize a2 ≤ y0)) as [Hle|Hgt].
  - exists y0. split_and!; [lia..|done| |left; lia]. right.
    destruct (decide (y0 = vsize b)) as [|Hb]; [by left|right]. destruct Hup as [?|Hne]; [done|].
    pose proof (through_le (y0 + 1)) as H1. rewrite !first_half. unfold through in *.
    pose proof (prefix_next_r a1 b (vsize a1) y0 ltac:(lia)) as H2. rewrite !first_half in H2.
    pose proof (prefix_next_r (reverse a2) (reverse b) (vsize a2) (vsize b - (y0 + 1)) ltac:(lia)) as H3.
    replace (vsize b - (y0 + 1) + 1) with (vsize b - y0) in H3 by lia. rewrite !rest_reversed in H3 by lia. lia.
  - destruct (through_down y0 ltac:(lia) Ht0) as (y1 & Hy1 & Ht1 & Hdown). exists y1.
    split_and!; [lia..|done|left; lia|right]. destruct (decide (y1 = 0)) as [->|H0]; [left; lia|right].
    destruct Hdown as [?|Hne]; [done|]. pose proof (through_le (y1 - 1)) as H1.
    replace (vsize b - y1 + 1) with (vsize b - (y1 - 1)) by lia. rewrite !rest_reversed by lia. unfold through in *.
    pose proof (prefix_next_r a1 b (vsize a1) (y1 - 1) ltac:(lia)) as H2. rewrite !first_half in H2.
    replace (y1 - 1 + 1) with y1 in H2 by lia.
    pose proof (prefix_next_r (reverse a2) (reverse b) (vsize a2) (vsize b - y1) ltac:(lia)) as H3.
    replace (vsize b - y1 + 1) with (vsize b - (y1 - 1)) in H3 by lia. rewrite !rest_reversed in H3 by lia. lia.
Qed.
End crossing.
