(* ===== verification/LcsRange.v ===== *)
(** * Ranges of a vector, and the split of a range

    The ranges [[s, e)] of a vector that the divide and conquer of [lcs.cc]
    works on, the subarrays that view them forwards and backwards, and the
    step that splits a problem in two: [compare] on both halves and
    [mid_split]. *)

From S2P Require Import Prelude Numbers Lcs LcsDistance LcsCompare LcsSplit.

Definition range (v : list Z) (s e : Z) : list Z := take (Z.to_nat (e - s)) (drop (Z.to_nat s) v).

Section range.
Context (v : list Z).

Lemma range_size s e : 0 ≤ s ≤ e → e ≤ vsize v → vsize (range v s e) = e - s.
Proof. intros. unfold range. rewrite vsize_take, vsize_drop by lia. lia. Qed.

Lemma range_nil s e : e ≤ s → range v s e = [].
Proof. intros. unfold range. by replace (Z.to_nat (e - s)) with 0%nat by lia. Qed.

Lemma range_whole : range v 0 (vsize v) = v.
Proof. unfold range, vsize. rewrite Z.sub_0_r, Nat2Z.id. apply firstn_all. Qed.

Lemma range_app s m e : 0 ≤ s ≤ m → m ≤ e → range v s e = range v s m ++ range v m e.
Proof.
  intros. unfold range. replace (Z.to_nat (e - s)) with (Z.to_nat (m - s) + Z.to_nat (e - m))%nat by lia.
  replace (Z.to_nat m) with (Z.to_nat s + Z.to_nat (m - s))%nat by lia. by rewrite <- drop_drop, take_take_drop.
Qed.

Lemma range_lookup s e i : 0 ≤ s → 0 ≤ i < e - s → range v s e !! Z.to_nat i = v !! Z.to_nat (s + i).
Proof. intros. unfold range. rewrite lookup_take_lt, lookup_drop by lia. f_equal. lia. Qed.

Lemma range_one s : 0 ≤ s < vsize v → ∃ c, sub_at (whole v) s = Ok c ∧ range v s (s + 1) = [c].
Proof.
  intros Hs. destruct (peek_ok v s Hs) as (c & Hc & Hp). exists c. split.
  - unfold sub_at, whole. cbn [end_ start vec base]. by rewrite (proj2 (Z.ltb_ge _ _)) by (pose proof (vsize_nonneg v); lia).
  - unfold range. replace (Z.to_nat (s + 1 - s)) with 1%nat by lia. by rewrite (drop_S v c).
Qed.

Lemma range_cons s e : 0 ≤ s < e → e ≤ vsize v →
  ∃ c, sub_at (whole v) s = Ok c ∧ range v s e = c :: range v (s + 1) e.
Proof.
  intros. destruct (range_one s) as (c & Hc & Hr); [lia|]. exists c. split; [done|].
  by rewrite (range_app s (s + 1) e), Hr by lia.
Qed.

Lemma range_snoc s e : 0 ≤ s ≤ e → e < vsize v →
  ∃ c, sub_at (whole v) e = Ok c ∧ range v s (e + 1) = range v s e ++ [c].
Proof.
  intros. destruct (range_one e) as (c & Hc & Hr); [lia|]. exists c. split; [done|].
  by rewrite (range_app s e (e + 1)), Hr by lia.
Qed.

Lemma range_take s e k : 0 ≤ s → 0 ≤ k ≤ e - s → take (Z.to_nat k) (range v s e) = range v s (s + k).
Proof. intros. unfold range. rewrite take_take. f_equal. lia. Qed.

Lemma range_drop s e k : 0 ≤ s → 0 ≤ k ≤ e - s → e ≤ vsize v → drop (Z.to_nat k) (range v s e) = range v (s + k) e.
Proof.
  intros. rewrite (range_app s (s + k) e) by lia. apply drop_app_length'.
  pose proof (range_size s (s + k)) as H2. unfold vsize in *. lia.
Qed.

Lemma views_forward s e : 0 ≤ s ≤ e → e ≤ vsize v → views (subset (whole v) s e) (range v s e).
Proof.
  intros Hs He i c Hi Hc. assert (i < e - s) as Hlt.
  { apply lookup_lt_Some in Hc. pose proof (range_size s e Hs He) as H. unfold vsize in H. lia. }
  rewrite range_lookup in Hc by lia. unfold sub_at, subset, whole. cbn [vec base start end_].
  rewrite (proj2 (Z.ltb_ge _ _)), Z.min_l by (lia || apply vsize_nonneg). apply peek_lookup; [lia|]. done.
Qed.

Lemma views_backward s e : 0 ≤ s ≤ e → e ≤ vsize v → views (subset (whole v) e s) (reverse (range v s e)).
Proof.
  intros Hs He i c Hi Hc. pose proof (range_size s e Hs He) as H. unfold vsize in H.
  assert (i < e - s) as Hlt by (apply lookup_lt_Some in Hc; rewrite length_reverse in Hc; lia).
  rewrite reverse_lookup in Hc by lia.
  replace (length (range v s e) - S (Z.to_nat i))%nat with (Z.to_nat (e - s - 1 - i)) in Hc by lia.
  rewrite range_lookup in Hc by lia. unfold sub_at, subset, whole. cbn [vec base start end_].
  rewrite (proj2 (Z.ltb_lt _ _)), Z.min_l by (lia || apply vsize_nonneg).
  apply peek_lookup; [lia|]. replace (0 + 0 + (e - (i + 1))) with (s + (e - s - 1 - i)) by lia. done.
Qed.
End range.

(** ** The split *)

Section halves.
Context (va vb : list Z) (start_a mid_a end_a start_b end_b p_lim : Z).
Context (Ha : 0 ≤ start_a ≤ mid_a) (Hma : mid_a ≤ end_a) (Hea : end_a ≤ vsize va).
Context (Hb : 0 ≤ start_b ≤ end_b) (Heb : end_b ≤ vsize vb).
Local Notation A := (range va start_a end_a).
Local Notation B := (range vb start_b end_b).
Local Notation len_a := (end_a - start_a).
Local Notation len_b := (end_b - start_b).
Local Notation delta := (len_b - len_a).
Context (Hlen : len_a ≤ len_b) (Hp : p_lim = len_a - lcs A B).

Definition costs0 : list Z := replicate (Z.to_nat (len_b + 1)) (len_a + len_b).
Definition top_end_b : Z := Z.min end_b (start_b + (mid_a - start_a + delta + p_lim + 1)).
Definition bottom_start_b : Z := Z.max start_b (end_b - (end_a - mid_a + delta + p_lim + 1)).

Lemma p_lim_nonneg : 0 ≤ p_lim ≤ len_a.
Proof using Ha Hma Hea Hp.
  pose proof (lcs_le_l A B) as H. rewrite range_size in H by lia. pose proof (lcs_nonneg A B). lia.
Qed.

Lemma top_costs :
  ∃ c cc, compare (subset (whole va) start_a mid_a) (mid_a - start_a) (subset (whole vb) start_b top_end_b)
      (top_end_b - start_b) costs0 p_lim true = Ok (c, cc) ∧ vsize cc = len_b + 1 ∧
    ∀ y, 0 ≤ y ≤ len_b → ∃ v, vec_get cc y = Ok v ∧
      let L := prefix_lcs (range va start_a mid_a) B (mid_a - start_a) in
      mid_a - start_a + y - 2 * L y ≤ v ∧
      (y - L y ≤ delta + p_lim → mid_a - start_a - L y ≤ p_lim →
       y ≤ len_b - (mid_a - start_a) ∨ y = len_b ∨ L (y + 1) = L y → v = mid_a - start_a + y - 2 * L y).
Proof using Ha Hma Hea Hb Heb Hlen Hp.
  pose proof p_lim_nonneg. pose proof (range_size va start_a mid_a Ha ltac:(lia)) as Hs1.
  pose proof (range_size vb start_b end_b Hb Heb) as Hs2.
  pose proof (half_costs (subset (whole va) start_a mid_a) (subset (whole vb) start_b top_end_b)
    (range va start_a mid_a) B (top_end_b - start_b) delta p_lim (len_a + len_b)) as H0.
  rewrite Hs1, Hs2 in H0. apply H0; [apply views_forward; lia| |lia..|unfold top_end_b; lia].
  rewrite range_take by (unfold top_end_b; lia). replace (start_b + (top_end_b - start_b)) with top_end_b by lia.
  apply views_forward; unfold top_end_b; lia.
Qed.

Lemma bottom_costs :
  ∃ c rr, compare (subset (whole va) end_a mid_a) (end_a - mid_a) (subset (whole vb) end_b bottom_start_b)
      (end_b - bottom_start_b) costs0 p_lim true = Ok (c, rr) ∧ vsize rr = len_b + 1 ∧
    ∀ y, 0 ≤ y ≤ len_b → ∃ v, vec_get rr y = Ok v ∧
      let L := prefix_lcs (reverse (range va mid_a end_a)) (reverse B) (end_a - mid_a) in
      end_a - mid_a + y - 2 * L y ≤ v ∧
      (y - L y ≤ delta + p_lim → end_a - mid_a - L y ≤ p_lim →
       y ≤ len_b - (end_a - mid_a) ∨ y = len_b ∨ L (y + 1) = L y → v = end_a - mid_a + y - 2 * L y).
Proof using Ha Hma Hea Hb Heb Hlen Hp.
  pose proof p_lim_nonneg. pose proof (range_size va mid_a end_a ltac:(lia) ltac:(lia)) as Hs1.
  pose proof (range_size vb start_b end_b Hb Heb) as Hs2.
  pose proof (half_costs (subset (whole va) end_a mid_a) (subset (whole vb) end_b bottom_start_b)
    (reverse (range va mid_a end_a)) (reverse B) (end_b - bottom_start_b) delta p_lim (len_a + len_b)) as H0.
  rewrite !vsize_reverse, Hs1, Hs2 in H0. apply H0; [apply views_backward; lia| |lia..|unfold bottom_start_b; lia].
  replace (take _ (reverse B)) with (reverse (range vb bottom_start_b end_b)).
  { apply views_backward; unfold bottom_start_b; lia. }
  rewrite (range_app vb start_b bottom_start_b end_b), reverse_app by (unfold bottom_start_b; lia).
  symmetry. apply take_app_length'. rewrite length_reverse.
  pose proof (range_size vb bottom_start_b end_b) as Hs. unfold vsize, bottom_start_b in *. lia.
Qed.

(** The split found is on a shortest path, and the costs read there are exact. *)
Lemma halves :
  ∃ c1 cc c2 rr s est_c est_r,
    compare (subset (whole va) start_a mid_a) (mid_a - start_a) (subset (whole vb) start_b top_end_b)
      (top_end_b - start_b) costs0 p_lim true = Ok (c1, cc) ∧
    compare (subset (whole va) end_a mid_a) (end_a - mid_a) (subset (whole vb) end_b bottom_start_b)
      (end_b - bottom_start_b) costs0 p_lim true = Ok (c2, rr) ∧
    mid_split len_b rr cc (2 * p_lim + delta) = Ok s ∧ 0 ≤ s ≤ len_b ∧
    vec_get cc s = Ok est_c ∧ vec_get rr (len_b - s) = Ok est_r ∧ est_c + est_r = 2 * p_lim + delta ∧
    est_c = mid_a - start_a + s - 2 * lcs (range va start_a mid_a) (range vb start_b (start_b + s)) ∧
    est_r = end_a - mid_a + (len_b - s) - 2 * lcs (range va mid_a end_a) (range vb (start_b + s) end_b).
Proof using Ha Hma Hea Hb Heb Hlen Hp.
  destruct top_costs as (c1 & cc & E1 & Hcc & H1). destruct bottom_costs as (c2 & rr & E2 & Hrr & H2).
  pose proof (range_size va start_a mid_a Ha ltac:(lia)) as Hs1.
  pose proof (range_size va mid_a end_a ltac:(lia) Hea) as Hs2. pose proof (range_size vb start_b end_b Hb Heb) as HsB.
  pose proof (range_app va start_a mid_a end_a Ha Hma) as HA.
  pose proof (first_half (range va start_a mid_a) B) as G1. rewrite Hs1 in G1.
  pose proof (rest_reversed (range va mid_a end_a) B) as G2. rewrite Hs2, HsB in G2.
  assert (∀ y, 0 ≤ y ≤ len_b → ∃ c r, vec_get cc y = Ok c ∧ vec_get rr (len_b - y) = Ok r ∧
    let t1 := lcs (range va start_a mid_a) (range vb start_b (start_b + y)) in
    let t2 := lcs (range va mid_a end_a) (range vb (start_b + y) end_b) in
    t1 + t2 = through (range va start_a mid_a) (range va mid_a end_a) B y ∧
    mid_a - start_a + y - 2 * t1 ≤ c ∧ end_a - mid_a + (len_b - y) - 2 * t2 ≤ r) as Hlow.
  { intros y Hy. destruct (H1 y Hy) as (c & Hc & Hc1 & _). destruct (H2 (len_b - y) ltac:(lia)) as (r & Hr & Hr1 & _).
    exists c, r. cbv zeta. split_and!; [done..| | |].
    - unfold through. by rewrite range_take, range_drop by lia.
    - by rewrite (G1 y), range_take in Hc1 by lia.
    - by rewrite (G2 y Hy), range_drop in Hr1 by lia. }
  destruct (crossing (range va start_a mid_a) (range va mid_a end_a) B) as (y & Hy & Hthr & Hs & Hs'); [lia|].
  rewrite Hs1, Hs2, HsB in *.
  pose proof (through_budget _ _ _ y ltac:(rewrite HsB; exact Hy) Hthr) as Hbud. cbn zeta in Hbud. rewrite Hs1, Hs2, HsB, <- HA in Hbud.
  destruct (mid_split_spec len_b rr cc (2 * p_lim + delta) y Hcc Hrr Hy) as (s & est_c & est_r & Hsplit & Hs0 & Ec & Er & Hsum).
  { destruct (H1 y Hy) as (c & Hc & _ & Hc2). destruct (H2 (len_b - y) ltac:(lia)) as (r & Hr & _ & Hr2).
    exists c, r. split_and!; [done..|]. unfold through in Hthr. rewrite <- HA in Hthr.
    cbv zeta in Hc2, Hr2. rewrite Hc2; [|rewrite G1; lia..|exact Hs].
    rewrite Hr2; [|rewrite G2 by lia; lia..|exact Hs']. rewrite G1, G2 by lia. lia. }
  exists c1, cc, c2, rr, s, est_c, est_r. split_and!; [done || lia..| |];
    destruct (Hlow s Hs0) as (c & r & Hc & Hr & Ht & Hc1 & Hr1);
    pose proof (through_le (range va start_a mid_a) (range va mid_a end_a) B s) as Hle; rewrite <- HA in Hle;
    assert (c = est_c ∧ r = est_r) by (split; congruence); lia.
Qed.
End halves.
