(* ===== verification/LcsCorrect.v ===== *)
(** * The divide and conquer of [lcs.cc] is exact

    [diff_to_et] on a range of each vector, called with the number of
    deletions a shortest script takes, returns its cost and writes its edits,
    in some order, at their place in the vector of edits: no invariant fails,
    no index is out of range and the recursion ends. *)

From S2P Require Import Prelude Numbers Lcs LcsDistance LcsCompare LcsSplit LcsRange.

(** ** Scripts *)

Lemma script_app i j a b es a' b' es' :
  script i j a b es → script (i + vsize a) (j + vsize b) a' b' es' → script i j (a ++ a') (b ++ b') (es ++ es').
Proof.
  induction 1 as [i j|i j x a b es _ IH|i j x a b es _ IH|i j y a b es _ IH]; intros H'; cbn [app].
  - unfold vsize in H'. cbn [length] in H'. by rewrite !Z.add_0_r in H'.
  - constructor. apply IH. by rewrite !vsize_cons, !Z.add_assoc in H'.
  - constructor. apply IH. by rewrite vsize_cons, Z.add_assoc in H'.
  - constructor. apply IH. by rewrite vsize_cons, Z.add_assoc in H'.
Qed.

Lemma script_refl i j a : script i j a a [].
Proof. revert i j. induction a; constructor; auto. Qed.

Lemma script_sym i j a b es : script i j a b es → script j i b a (Z.opp <$> es).
Proof.
  induction 1 as [i j|i j x a b es _ IH|i j x a b es _ IH|i j y a b es _ IH]; cbn [fmap list_fmap]; [constructor..| |].
  - done.
  - replace (- (-1 - i)) with (i + 1) by lia. by constructor.
  - replace (- (j + 1)) with (-1 - j) by lia. by constructor.
Qed.

Lemma script_align i j a b es : script i j a b es → ∃ n, align a b n ∧ vsize es = vsize a + vsize b - 2 * n.
Proof.
  induction 1 as [i j|i j x a b es _ (n & ? & ?)|i j x a b es _ (n & ? & ?)|i j y a b es _ (n & ? & ?)].
  - exists 0. split; [constructor|done].
  - exists (1 + n). split; [by constructor|]. rewrite !vsize_cons. lia.
  - exists n. split; [by constructor|]. rewrite !vsize_cons. lia.
  - exists n. split; [by constructor|]. rewrite !vsize_cons. lia.
Qed.

(** No script is shorter than [lcs] allows, and some script is as short. *)
Lemma script_length i j a b es : script i j a b es → vsize a + vsize b - 2 * lcs a b ≤ vsize es.
Proof. intros (n & H & ->)%script_align. apply align_le in H. lia. Qed.

Lemma script_shortest i j a b : ∃ es, script i j a b es ∧ vsize es = vsize a + vsize b - 2 * lcs a b.
Proof.
  pose proof (lcs_align a b) as H. revert H. generalize (lcs a b). intros n H. revert i j.
  induction H as [|x a b n _ IH|x a b n _ IH|y a b n _ IH]; intros i j.
  - exists []. split; [constructor|done].
  - destruct (IH (i + 1) (j + 1)) as (es & ? & ?). exists es. rewrite !vsize_cons. split; [by constructor|lia].
  - destruct (IH (i + 1) j) as (es & ? & ?). exists (-1 - i :: es). rewrite !vsize_cons. split; [by constructor|lia].
  - destruct (IH i (j + 1)) as (es & ? & ?). exists (j + 1 :: es). rewrite !vsize_cons. split; [by constructor|lia].
Qed.

Lemma lcs_app_same_l t a b : lcs (t ++ a) (t ++ b) = vsize t + lcs a b.
Proof.
  induction t as [|x t IH]; cbn [app]; [done|]. rewrite lcs_cons, decide_True, IH, vsize_cons by done. lia.
Qed.

Lemma lcs_app_same_r t a b : lcs (a ++ t) (b ++ t) = vsize t + lcs a b.
Proof.
  rewrite <- lcs_reverse, !reverse_app, lcs_app_same_l, vsize_reverse, lcs_reverse. done.
Qed.

(** ** Writing edits in place *)

(** A computation that replaces [cost] edits from [edx] on by those of a
    script, [polarity] giving their sign. *)
Definition diffs (f : list Z → result (Z * list Z)) (edx cost polarity i j : Z) (a b : list Z) : Prop :=
  ∀ pre mid post, vsize pre = edx → vsize mid = cost →
  ∃ es ws, f (pre ++ mid ++ post) = Ok (cost, pre ++ ws ++ post) ∧ vsize ws = cost ∧
    script i j a b es ∧ ws ≡ₚ (Z.mul polarity <$> es).

Lemma vsize_snoc (pre : list Z) e : vsize (pre ++ [e]) = vsize pre + 1.
Proof. by rewrite vsize_app. Qed.

Lemma poke_app pre x rest y : vec_set (pre ++ x :: rest) (vsize pre) y = Ok (pre ++ y :: rest).
Proof.
  rewrite poke_ok by (rewrite vsize_app, vsize_cons; pose proof (vsize_nonneg pre); pose proof (vsize_nonneg rest); lia).
  unfold vsize. rewrite Nat2Z.id. f_equal. by rewrite insert_app_r_alt, Nat.sub_diag by done.
Qed.

Lemma insert_rest_spec v polarity n : ∀ idx pre mid post j i,
  0 ≤ idx → idx + Z.of_nat n ≤ vsize v → vsize mid = Z.of_nat n → j = idx →
  ∃ ws es, insert_rest n polarity idx (vsize pre) (pre ++ mid ++ post) = Ok (pre ++ ws ++ post) ∧
    ws = Z.mul polarity <$> es ∧ script i j [] (range v idx (idx + Z.of_nat n)) es ∧ vsize ws = Z.of_nat n.
Proof.
  induction n as [|n IH]; intros idx pre mid post j i H0 Hle Hmid ->; cbn [insert_rest].
  - apply vsize_0 in Hmid as ->. exists [], []. rewrite range_nil by lia. split_and!; [done..|constructor|done].
  - destruct mid as [|x mid]; [done|]. rewrite vsize_cons in Hmid.
    destruct (range_cons v idx (idx + Z.of_nat (S n))) as (c & _ & ->); [lia..|].
    cbn [app]. rewrite poke_app. cbn [mbind result_bind].
    destruct (IH (idx + 1) (pre ++ [polarity * (idx + 1)]) mid post (idx + 1) i) as (ws & es & Hr & Hw & Hs & Hl); [lia..|].
    rewrite vsize_snoc, <- !app_assoc in Hr. cbn [app] in Hr.
    exists (polarity * (idx + 1) :: ws), (idx + 1 :: es). rewrite vsize_cons. split_and!; [done|by rewrite Hw| |lia].
    constructor. by replace (idx + Z.of_nat (S n)) with (idx + 1 + Z.of_nat n) by lia.
Qed.

Lemma delete_all_spec v polarity n : ∀ idx pre mid post j,
  0 ≤ idx → idx + Z.of_nat n ≤ vsize v → vsize mid = Z.of_nat n →
  ∃ ws es, delete_all n polarity idx (vsize pre) (pre ++ mid ++ post) = Ok (pre ++ ws ++ post) ∧
    ws = Z.mul polarity <$> es ∧ script idx j (range v idx (idx + Z.of_nat n)) [] es ∧ vsize ws = Z.of_nat n.
Proof.
  induction n as [|n IH]; intros idx pre mid post j H0 Hle Hmid; cbn [delete_all].
  - apply vsize_0 in Hmid as ->. exists [], []. rewrite range_nil by lia. split_and!; [done..|constructor|done].
  - destruct mid as [|x mid]; [done|]. rewrite vsize_cons in Hmid.
    destruct (range_cons v idx (idx + Z.of_nat (S n))) as (c & _ & ->); [lia..|].
    cbn [app]. rewrite poke_app. cbn [mbind result_bind].
    destruct (IH (idx + 1) (pre ++ [polarity * (-1 - idx)]) mid post j) as (ws & es & Hr & Hw & Hs & Hl); [lia..|].
    rewrite vsize_snoc, <- !app_assoc in Hr. cbn [app] in Hr.
    exists (polarity * (-1 - idx) :: ws), (-1 - idx :: es). rewrite vsize_cons. split_and!; [done|by rewrite Hw| |lia].
    constructor. by replace (idx + Z.of_nat (S n)) with (idx + 1 + Z.of_nat n) by lia.
Qed.

(** One pass finds the elements of [b] that [a], a subsequence of it, lacks. *)
Lemma inserts_none a b (mid : list Z) :
  lcs a b = vsize a → vsize mid = vsize b - vsize a → vsize b = 0 → a = [] ∧ b = [] ∧ mid = [].
Proof.
  intros Hl Hm Hb. pose proof (lcs_le_r a b). pose proof (vsize_nonneg a). split_and!; apply vsize_0; lia.
Qed.

Lemma inserts_only_spec va vb end_a end_b polarity fuel : ∀ adx bdx pre mid post,
  0 ≤ adx ≤ end_a → end_a ≤ vsize va → 0 ≤ bdx ≤ end_b → end_b ≤ vsize vb → end_b - bdx ≤ Z.of_nat fuel →
  lcs (range va adx end_a) (range vb bdx end_b) = vsize (range va adx end_a) →
  vsize mid = vsize (range vb bdx end_b) - vsize (range va adx end_a) →
  ∃ ws es, inserts_only fuel (whole va) (whole vb) end_a end_b polarity adx bdx (vsize pre) (pre ++ mid ++ post) =
    Ok (pre ++ ws ++ post) ∧ ws = Z.mul polarity <$> es ∧
    script adx bdx (range va adx end_a) (range vb bdx end_b) es ∧ vsize ws = vsize mid.
Proof.
  induction fuel as [|fuel IH]; intros adx bdx pre mid post Ha Hea Hb Heb Hf Hlcs Hmid; cbn [inserts_only];
    pose proof (range_size va adx end_a Ha Hea) as Hsa; pose proof (range_size vb bdx end_b Hb Heb) as Hsb;
    (destruct (Z.leb_spec end_b bdx) as [Hend|Hend];
      [destruct (inserts_none _ _ _ Hlcs Hmid) as (-> & -> & ->); [lia|];
       exists [], []; split_and!; [done..|constructor|done]|try lia]).
  destruct (Z.leb_spec end_a adx) as [Hea'|Hea'].
  { destruct (insert_rest_spec vb polarity (Z.to_nat (end_b - bdx)) bdx pre mid post bdx adx) as (ws & es & -> & Hw & Hs & Hl);
      [lia..|]. rewrite Z2Nat.id in Hs, Hl by lia. replace (bdx + (end_b - bdx)) with end_b in Hs by lia.
    exists ws, es. rewrite (range_nil va adx end_a) by lia. split_and!; [done..|lia]. }
  destruct (range_cons va adx end_a) as (x & -> & Hra); [lia..|].
  destruct (range_cons vb bdx end_b) as (y & -> & Hrb); [lia..|].
  pose proof (range_size va (adx + 1) end_a ltac:(lia) Hea) as Hsa'.
  pose proof (range_size vb (bdx + 1) end_b ltac:(lia) Heb) as Hsb'.
  rewrite Hra, Hrb, lcs_cons, vsize_cons in Hlcs. cbn [mbind result_bind].
  destruct (Z.eqb_spec x y) as [->|Hne].
  - rewrite decide_True in Hlcs by done.
    destruct (IH (adx + 1) (bdx + 1) pre mid post) as (ws & es & -> & Hw & Hs & Hl); [lia..|].
    exists ws, es. split_and!; [done..| |done]. rewrite Hra, Hrb. by constructor.
  - rewrite decide_False in Hlcs by done. pose proof (lcs_le_l (range va (adx + 1) end_a) (y :: range vb (bdx + 1) end_b)).
    pose proof (lcs_le_r (x :: range va (adx + 1) end_a) (range vb (bdx + 1) end_b)).
    destruct mid as [|e mid]; [unfold vsize at 1 in Hmid; cbn [length] in Hmid; lia|].
    cbn [app]. rewrite poke_app. cbn [mbind result_bind]. rewrite vsize_cons in Hmid.
    destruct (IH adx (bdx + 1) (pre ++ [polarity * (bdx + 1)]) mid post) as (ws & es & Hr & Hw & Hs & Hl);
      [lia..|rewrite Hra, vsize_cons; lia|lia|].
    rewrite vsize_snoc, <- !app_assoc in Hr. cbn [app] in Hr.
    exists (polarity * (bdx + 1) :: ws), (bdx + 1 :: es). rewrite !vsize_cons. split_and!; [done|by rewrite Hw| |lia].
    rewrite Hrb. by constructor.
Qed.

(** ** Divide and conquer *)

Lemma check_bounds_ok va vb sa ea sb eb :
  0 ≤ sa ≤ ea → ea ≤ vsize va → 0 ≤ sb ≤ eb → eb ≤ vsize vb →
  check_bounds (whole va) sa ea (whole vb) sb eb = Ok tt.
Proof.
  intros. unfold check_bounds, sub_size, whole. cbn [start end_].
  rewrite !(proj2 (Z.ltb_ge _ 0)) by apply vsize_nonneg. by rewrite !(proj2 (Z.leb_le _ _)) by lia.
Qed.

(** What a call promises on problems of fewer than [bound] elements. *)
Definition exact_call (f : diff_call) (bound : Z) : Prop :=
  ∀ va sa ea vb sb eb edx polarity p_lim,
    0 ≤ sa ≤ ea → ea ≤ vsize va → 0 ≤ sb ≤ eb → eb ≤ vsize vb → ea - sa + (eb - sb) < bound →
    p_lim = ea - sa - lcs (range va sa ea) (range vb sb eb) →
    diffs (λ edits, f (whole va) sa ea (whole vb) sb eb edits edx polarity p_lim)
      edx (ea - sa + (eb - sb) - 2 * lcs (range va sa ea) (range vb sb eb)) polarity sa sb (range va sa ea) (range vb sb eb).

Section ez.
Context (rec : diff_call) (va vb : list Z) (sa ea sb eb : Z).
Context (Ha : 0 ≤ sa ≤ ea) (Hea : ea ≤ vsize va) (Hb : 0 ≤ sb ≤ eb) (Heb : eb ≤ vsize vb).
Context (Hlen : ea - sa ≤ eb - sb) (Hrec : exact_call rec (ea - sa + (eb - sb))).
Local Notation A := (range va sa ea).
Local Notation B := (range vb sb eb).
Local Notation cost := (ea - sa + (eb - sb) - 2 * lcs A B).

Lemma split_at (mid : list Z) c1 c2 :
  vsize mid = c1 + c2 → 0 ≤ c1 → 0 ≤ c2 → ∃ m1 m2, mid = m1 ++ m2 ∧ vsize m1 = c1 ∧ vsize m2 = c2.
Proof.
  intros. exists (take (Z.to_nat c1) mid), (drop (Z.to_nat c1) mid).
  rewrite take_drop, vsize_take, vsize_drop by lia. split_and!; done || lia.
Qed.

Lemma halve x : (x * 2) ÷ 2 = x.
Proof. by apply Z.quot_mul. Qed.

Lemma divide_and_conquer_spec edx polarity p_lim :
  p_lim = ea - sa - lcs A B → 0 < p_lim < ea - sa →
  diffs (λ edits, divide_and_conquer rec (whole va) sa ea (whole vb) sb eb edits edx polarity p_lim)
    edx cost polarity sa sb A B.
Proof using Ha Hea Hb Heb Hlen Hrec.
  intros Hp Hp' pre mid post Hpre Hmid. unfold divide_and_conquer. cbv zeta.
  rewrite check_bounds_ok by done. cbn [mbind result_bind]. rewrite (Z.min_l p_lim (ea - sa)) by lia.
  set (mid_a := (sa + ea) ÷ 2). assert (sa < mid_a < ea) as Hmid_a.
  { unfold mid_a. rewrite Z.quot_div_nonneg by lia. pose proof (Z.div_mod (sa + ea) 2). pose proof (Z.mod_pos_bound (sa + ea) 2). lia. }
  destruct (halves va vb sa mid_a ea sb eb p_lim) as (c1 & cc & c2 & rr & s & est_c & est_r & E1 & E2 & E3 & Hs & E4 & E5 & Hsum & Hc & Hr);
    [lia..|done|]. unfold costs0, top_end_b, bottom_start_b in E1, E2.
  rewrite E1. cbn [mbind result_bind]. rewrite E2. cbn [mbind result_bind]. rewrite E3. cbn [mbind result_bind].
  rewrite E4. cbn [mbind result_bind]. rewrite E5. cbn [mbind result_bind].
  set (t1 := lcs (range va sa mid_a) (range vb sb (sb + s))) in *.
  set (t2 := lcs (range va mid_a ea) (range vb (sb + s) eb)) in *.
  replace (est_c - (s - (mid_a - sa))) with ((mid_a - sa - t1) * 2) by lia.
  replace (est_r - (eb - sb - s - (ea - mid_a))) with ((ea - mid_a - t2) * 2) by lia. rewrite !halve.
  assert (0 ≤ est_c ∧ 0 ≤ est_r) as [Hc0 Hr0].
  { pose proof (lcs_le_l (range va sa mid_a) (range vb sb (sb + s))). pose proof (lcs_le_r (range va sa mid_a) (range vb sb (sb + s))).
    pose proof (lcs_le_l (range va mid_a ea) (range vb (sb + s) eb)). pose proof (lcs_le_r (range va mid_a ea) (range vb (sb + s) eb)).
    rewrite !range_size in * by lia. subst t1 t2. lia. }
  destruct (split_at mid est_c est_r) as (m1 & m2 & -> & Hm1 & Hm2); [lia..|]. rewrite <- (app_assoc m1).
  destruct (Hrec va sa mid_a vb sb (sb + s) edx polarity (mid_a - sa - t1) ltac:(lia) ltac:(lia) ltac:(lia) ltac:(lia) ltac:(lia) eq_refl
    pre m1 (m2 ++ post) Hpre) as (es1 & ws1 & -> & Hw1 & Hs1 & Hp1); [fold t1; lia|]. cbn [mbind result_bind].
  fold t1 in Hw1 |- *. rewrite (proj2 (Z.eqb_eq _ est_c)) by lia. cbn [I_ mbind result_bind].
  destruct (Hrec va mid_a ea vb (sb + s) eb (est_c + edx) polarity (ea - mid_a - t2) ltac:(lia) ltac:(lia) ltac:(lia) ltac:(lia) ltac:(lia) eq_refl
    (pre ++ ws1) m2 post) as (es2 & ws2 & Hf2 & Hw2 & Hs2 & Hp2); [rewrite vsize_app; lia|fold t2; lia|].
  rewrite <- !app_assoc in Hf2. rewrite Hf2. cbn [mbind result_bind].
  fold t2 in Hw2 |- *. rewrite (proj2 (Z.eqb_eq _ est_r)) by lia. cbn [I_ mbind result_bind].
  exists (es1 ++ es2), (ws1 ++ ws2). rewrite <- !app_assoc, vsize_app. split_and!.
  - do 2 f_equal. lia.
  - lia.
  - rewrite (range_app va sa mid_a ea), (range_app vb sb (sb + s) eb) by lia. apply script_app; [done|].
    rewrite !range_size by lia. by replace (sa + (mid_a - sa)) with mid_a by lia; replace (sb + (sb + s - sb)) with (sb + s) by lia.
  - rewrite fmap_app. by apply Permutation_app.
Qed.

Lemma diff_to_ez_spec edx polarity p_lim :
  p_lim = ea - sa - lcs A B →
  diffs (λ edits, diff_to_ez rec (whole va) sa ea (whole vb) sb eb edits edx polarity p_lim)
    edx cost polarity sa sb A B.
Proof using Ha Hea Hb Heb Hlen Hrec.
  intros Hp pre mid post Hpre Hmid.
  pose proof (range_size va sa ea Ha Hea) as HsA. pose proof (range_size vb sb eb Hb Heb) as HsB.
  pose proof (lcs_le_l A B). pose proof (lcs_nonneg A B). unfold diff_to_ez.
  rewrite check_bounds_ok by done. cbv zeta. cbn [mbind result_bind]. rewrite (proj2 (Z.leb_le (ea - sa) (eb - sb)) Hlen). cbn [I_ mbind result_bind].
  destruct (Z.eqb_spec p_lim 0) as [Hz|Hz].
  - destruct (Z.eqb_spec (ea - sa) (eb - sb)) as [Heq|Hne].
    + destruct (script_shortest sa sb A B) as (es & Hs & Hl). assert (es = []) as -> by (apply vsize_0; lia).
      assert (mid = []) as -> by (apply vsize_0; lia). exists [], []. split_and!; [|change (vsize []) with 0; lia|done..].
      do 2 f_equal. lia.
    + destruct (inserts_only_spec va vb ea eb polarity (Z.to_nat (eb - sb)) sa sb pre mid post) as (ws & es & Hr & Hw & Hs & Hl); [lia..|].
      rewrite <- Hpre, Hr. cbn [mbind result_bind]. exists es, ws. split_and!; [do 2 f_equal; lia|lia|done|by rewrite Hw].
  - destruct (Z.leb_spec (ea - sa) p_lim) as [Hle|Hgt].
    + rewrite (proj2 (Z.eqb_eq _ _)) by lia. cbn [I_ mbind result_bind].
      destruct (split_at mid (ea - sa) (eb - sb)) as (m1 & m2 & -> & Hm1 & Hm2); [lia..|]. rewrite <- (app_assoc m1).
      destruct (delete_all_spec va polarity (Z.to_nat (ea - sa)) sa pre m1 (m2 ++ post) sb)
        as (ws1 & es1 & Hr1 & Hw1 & Hs1 & Hl1); [lia..|]. rewrite Hpre in Hr1. rewrite Hr1. cbn [mbind result_bind].
      rewrite Z2Nat.id in Hs1, Hl1 by lia. replace (sa + (ea - sa)) with ea in Hs1 by lia.
      destruct (insert_rest_spec vb polarity (Z.to_nat (eb - sb)) sb (pre ++ ws1) m2 post sb ea)
        as (ws2 & es2 & Hr2 & Hw2 & Hs2 & Hl2); [lia..|].
      rewrite vsize_app, Hl1, Hpre, <- !app_assoc in Hr2. rewrite Hr2. cbn [mbind result_bind].
      rewrite Z2Nat.id in Hs2, Hl2 by lia. replace (sb + (eb - sb)) with eb in Hs2 by lia.
      exists (es1 ++ es2), (ws1 ++ ws2). rewrite <- !app_assoc, vsize_app. split_and!; [do 2 f_equal; lia|lia| |by rewrite fmap_app, Hw1, Hw2].
      rewrite <- (app_nil_r A). change B with ([] ++ B). apply script_app; [done|].
      rewrite HsA. change (vsize []) with 0. rewrite Z.add_0_r. by replace (sa + (ea - sa)) with ea by lia.
    + by apply divide_and_conquer_spec; [|lia|..].
Qed.
End ez.

(** ** Trimming *)

Lemma trim_suffix_spec va vb sa sb fuel : ∀ ea eb,
  0 ≤ sa ≤ ea → ea ≤ vsize va → 0 ≤ sb ≤ eb → eb ≤ vsize vb → ea - sa ≤ Z.of_nat fuel →
  ∃ ea' eb' t, trim_suffix fuel (whole va) (whole vb) sa sb (ea - 1) (eb - 1) = Ok (ea' - 1, eb' - 1) ∧
    sa ≤ ea' ≤ ea ∧ sb ≤ eb' ≤ eb ∧
    range va sa ea = range va sa ea' ++ t ∧ range vb sb eb = range vb sb eb' ++ t.
Proof.
  induction fuel as [|fuel IH]; intros ea eb Ha Hea Hb Heb Hf; cbn [trim_suffix].
  all: destruct ((sb <=? eb - 1) && (sa <=? ea - 1)) eqn:Hc;
    [|exists ea, eb, []; rewrite !app_nil_r; split_and!; done || lia]; apply andb_true_iff in Hc as [Hcb Hca]; try lia.
  destruct (range_snoc va sa (ea - 1)) as (x & -> & Hx); [lia..|].
  destruct (range_snoc vb sb (eb - 1)) as (y & -> & Hy); [lia..|]. cbn [mbind result_bind].
  replace (ea - 1 + 1) with ea in Hx by lia. replace (eb - 1 + 1) with eb in Hy by lia.
  destruct (Z.eqb_spec x y) as [->|Hne]; [|exists ea, eb, []; rewrite !app_nil_r; split_and!; done || lia].
  destruct (IH (ea - 1) (eb - 1)) as (ea' & eb' & t & -> & ? & ? & Ht & Ht'); [lia..|].
  exists ea', eb', (t ++ [y]). rewrite Hx, Hy, Ht, Ht', <- !app_assoc. split_and!; done || lia.
Qed.

Lemma trim_prefix_spec va vb ea eb fuel : ∀ sa sb,
  0 ≤ sa ≤ ea → ea ≤ vsize va → 0 ≤ sb ≤ eb → eb ≤ vsize vb → ea - sa ≤ Z.of_nat fuel →
  ∃ sa' sb' t, trim_prefix fuel (whole va) (whole vb) sa sb (ea - 1) (eb - 1) = Ok (sa', sb') ∧
    sa ≤ sa' ≤ ea ∧ sb ≤ sb' ≤ eb ∧
    range va sa ea = t ++ range va sa' ea ∧ range vb sb eb = t ++ range vb sb' eb.
Proof.
  induction fuel as [|fuel IH]; intros sa sb Ha Hea Hb Heb Hf; cbn [trim_prefix].
  all: destruct ((sb <? eb - 1) && (sa <? ea - 1)) eqn:Hc;
    [|exists sa, sb, []; split_and!; done || lia]; apply andb_true_iff in Hc as [Hcb Hca]; try lia.
  destruct (range_cons va sa ea) as (x & -> & Hx); [lia..|].
  destruct (range_cons vb sb eb) as (y & -> & Hy); [lia..|]. cbn [mbind result_bind].
  destruct (Z.eqb_spec x y) as [->|Hne]; [|exists sa, sb, []; split_and!; done || lia].
  destruct (IH (sa + 1) (sb + 1)) as (sa' & sb' & t & -> & ? & ? & Ht & Ht'); [lia..|].
  exists sa', sb', (y :: t). rewrite Hx, Hy, Ht, Ht'. split_and!; done || lia.
Qed.

(** Both, and what they leave of the problem. *)
Lemma trim_spec va vb sa ea sb eb :
  0 ≤ sa ≤ ea → ea ≤ vsize va → 0 ≤ sb ≤ eb → eb ≤ vsize vb →
  let fuel := Z.to_nat (ea - sa) in
  ∃ sa' ea' sb' eb',
    trim_suffix fuel (whole va) (whole vb) sa sb (ea - 1) (eb - 1) = Ok (ea' - 1, eb' - 1) ∧
    trim_prefix fuel (whole va) (whole vb) sa sb (ea' - 1) (eb' - 1) = Ok (sa', sb') ∧
    sa ≤ sa' ≤ ea' ∧ ea' ≤ ea ∧ sb ≤ sb' ≤ eb' ∧ eb' ≤ eb ∧
    lcs (range va sa ea) (range vb sb eb) = lcs (range va sa' ea') (range vb sb' eb') + (ea - sa - (ea' - sa')) ∧
    ea - sa - (ea' - sa') = eb - sb - (eb' - sb') ∧
    ∀ es, script sa' sb' (range va sa' ea') (range vb sb' eb') es → script sa sb (range va sa ea) (range vb sb eb) es.
Proof.
  intros Ha Hea Hb Heb fuel.
  destruct (trim_suffix_spec va vb sa sb fuel ea eb) as (ea' & eb' & t & E1 & He & He' & Ht & Ht'); [lia..|].
  destruct (trim_prefix_spec va vb ea' eb' fuel sa sb) as (sa' & sb' & u & E2 & Hs & Hs' & Hu & Hu'); [lia..|].
  exists sa', ea', sb', eb'. rewrite Ht, Ht', Hu, Hu'. rewrite lcs_app_same_r, lcs_app_same_l.
  apply (f_equal vsize) in Ht as Lt, Ht' as Lt', Hu as Lu, Hu' as Lu'. rewrite !vsize_app, !range_size in Lt, Lt', Lu, Lu' by lia.
  split_and!; [done|done|lia..|]. intros es Hes. rewrite <- (app_nil_r es). apply script_app; [|apply script_refl].
  change es with ([] ++ es). apply script_app; [apply script_refl|].
  by replace (sa + vsize u) with sa' by lia; replace (sb + vsize u) with sb' by lia.
Qed.

Lemma exact_call_mono f m n : m ≤ n → exact_call f n → exact_call f m.
Proof. intros Hle Hf va sa ea vb sb eb edx pol p ? ? ? ? ? ?. apply Hf; lia || done. Qed.

(** A script of the swapped problem, with the signs swapped. *)
Lemma diffs_swap f edx cost polarity i j a b :
  diffs f edx cost (- polarity) j i b a → diffs f edx cost polarity i j a b.
Proof.
  intros H pre mid post Hpre Hmid. destruct (H pre mid post Hpre Hmid) as (es & ws & ? & ? & Hs & Hp).
  exists (Z.opp <$> es), ws. split_and!; [done..|by apply script_sym|]. rewrite Hp, <- list_fmap_compose.
  apply reflexive_eq, list_fmap_ext. intros _ x _. unfold compose. lia.
Qed.

Lemma diff_to_et_spec fuel : exact_call (diff_to_et fuel) (Z.of_nat fuel).
Proof.
  induction fuel as [|fuel IH]; intros va sa ea vb sb eb edx polarity p_lim Ha Hea Hb Heb Hsum Hp; [lia|].
  destruct (trim_spec va vb sa ea sb eb Ha Hea Hb Heb) as (sa' & ea' & sb' & eb' & E1 & E2 & Ha' & Hea' & Hb' & Heb' & Hl & Hd & Hs).
  pose proof (lcs_nonneg (range va sa ea) (range vb sb eb)).
  set (cost := ea - sa + (eb - sb) - 2 * lcs (range va sa ea) (range vb sb eb)).
  assert (cost = ea' - sa' + (eb' - sb') - 2 * lcs (range va sa' ea') (range vb sb' eb')) as Hcost by (unfold cost; lia).
  enough (diffs (λ edits, diff_to_et (S fuel) (whole va) sa ea (whole vb) sb eb edits edx polarity p_lim)
    edx cost polarity sa' sb' (range va sa' ea') (range vb sb' eb')) as H'.
  { intros pre mid post Hpre Hmid. destruct (H' pre mid post Hpre Hmid) as (es & ws & ? & ? & ? & ?).
    exists es, ws. split_and!; auto. }
  cbn [diff_to_et]. rewrite check_bounds_ok by done. cbn [mbind result_bind]. rewrite (proj2 (Z.leb_le p_lim (ea - sa))) by lia.
  cbn [I_ mbind result_bind]. rewrite E1. cbn [mbind result_bind]. rewrite E2. cbn [mbind result_bind]. cbv zeta.
  replace (ea' - 1 + 1) with ea' by lia. replace (eb' - 1 + 1) with eb' by lia.
  destruct (Z.ltb_spec (eb' - 1 - sb' - (ea' - 1 - sa')) 0) as [Hneg|Hpos]; rewrite Hcost.
  - apply diffs_swap. rewrite (lcs_sym (range va sa' ea')).
    replace (ea' - sa' + (eb' - sb') - 2 * lcs (range vb sb' eb') (range va sa' ea'))
      with (eb' - sb' + (ea' - sa') - 2 * lcs (range vb sb' eb') (range va sa' ea')) by lia.
    apply diff_to_ez_spec; [lia..|eapply exact_call_mono, IH; lia|].
    rewrite (lcs_sym (range vb sb' eb')). lia.
  - apply diff_to_ez_spec; [lia..|eapply exact_call_mono, IH; lia|]. lia.
Qed.

(** The edits of a shortest script, in some order. *)
Lemma diff_to_edits_spec a b :
  vsize a ≤ vsize b →
  ∃ edits es, diff_to_edits (whole a) (vsize a) (whole b) (vsize b) = Ok edits ∧
    script 0 0 a b es ∧ edits ≡ₚ es ∧ vsize es = vsize a + vsize b - 2 * lcs a b.
Proof.
  intros Hle. pose proof (vsize_nonneg a) as Ha0. unfold diff_to_edits. rewrite (proj2 (Z.leb_le _ _)) by done. cbn [I_ mbind result_bind].
  assert (∀ v, views (whole v) v) as Hv.
  { intros v. pose proof (views_forward v 0 (vsize v)) as Hv. rewrite range_whole in Hv.
    unfold subset, whole in *. cbn [vec base start end_] in Hv. rewrite Z.min_l in Hv by apply vsize_nonneg. apply Hv; pose proof (vsize_nonneg v); lia. }
  destruct (compare_distance (whole a) (whole b) a b (Hv a) (Hv b) (replicate (Z.to_nat (vsize a + vsize b)) 0)) as (CC & ->); [lia|].
  cbn [mbind result_bind]. set (d := vsize b - vsize a + 2 * (vsize a - lcs a b)).
  assert (d = vsize a + vsize b - 2 * lcs a b) as Hd by (unfold d; lia).
  pose proof (lcs_le_l a b). pose proof (lcs_le_r a b).
  replace ((d - (vsize b - vsize a)) ÷ 2) with (vsize a - lcs a b).
  2: { replace (d - (vsize b - vsize a)) with ((vsize a - lcs a b) * 2) by lia. by rewrite halve. }
  pose proof (diff_to_et_spec (S (Z.to_nat (vsize a + vsize b))) a 0 (vsize a) b 0 (vsize b) 0 1 (vsize a - lcs a b)) as H'.
  rewrite !range_whole in H'. destruct (H' ltac:(lia) ltac:(lia) ltac:(lia) ltac:(lia) ltac:(lia) ltac:(lia)
    [] (replicate (Z.to_nat d) 0) []) as (es & ws & E & Hw & Hs & Hp); [done|rewrite vsize_replicate; lia|].
  cbn [app] in E. rewrite !app_nil_r in E. rewrite E. cbn [mbind result_bind]. rewrite (proj2 (Z.eqb_eq _ _)) by lia.
  assert (Z.mul 1 <$> es = es) as He.
  { rewrite <- (list_fmap_id es) at 2. apply list_fmap_ext. intros. unfold id. lia. }
  rewrite He in Hp. exists ws, es. split_and!; [done..|]. apply Permutation_length in Hp. unfold vsize in *. lia.
Qed.
