(* ===== verification/LcsOrder.v ===== *)
(** * [edit_script] and [longest_common_subsequence] are correct

    [order_edits] sorts the edits of a script into a script that walks the
    two sequences from left to right, whatever order they come in; with the
    divide and conquer this makes [edit_script] return a shortest script, and
    [longest_common_subsequence] a longest common subsequence. *)

From S2P Require Import Prelude Numbers Lcs LcsDistance LcsCompare LcsSplit LcsRange LcsCorrect.

Definition dels (es : list Z) : list Z := filter (λ e, e < 0) es.
Definition inss (es : list Z) : list Z := filter (λ e, 0 < e) es.

Lemma dels_neg e es : e < 0 → dels (e :: es) = e :: dels es.
Proof. intros. unfold dels. by rewrite filter_cons_True. Qed.
Lemma dels_pos e es : 0 < e → dels (e :: es) = dels es.
Proof. intros. unfold dels. by rewrite filter_cons_False by lia. Qed.
Lemma inss_pos e es : 0 < e → inss (e :: es) = e :: inss es.
Proof. intros. unfold inss. by rewrite filter_cons_True. Qed.
Lemma inss_neg e es : e < 0 → inss (e :: es) = inss es.
Proof. intros. unfold inss. by rewrite filter_cons_False by lia. Qed.

(** ** The deletions and the insertions of a script *)

Lemma script_sides i j a b es :
  script i j a b es → 0 ≤ i → 0 ≤ j →
  Forall (λ e, e ≠ 0) es ∧ StronglySorted Z.gt (dels es) ∧ Forall (λ e, e ≤ -1 - i) (dels es) ∧
  StronglySorted Z.lt (inss es) ∧ Forall (λ e, j + 1 ≤ e) (inss es).
Proof.
  induction 1 as [i j|i j x a b es _ IH|i j x a b es _ IH|i j y a b es _ IH]; intros Hi Hj.
  - split_and!; constructor.
  - destruct IH as (H1 & H2 & H3 & H4 & H5); [lia..|]. split_and!; try done; eapply Forall_impl; eauto; simpl; lia.
  - destruct IH as (H1 & H2 & H3 & H4 & H5); [lia..|]. rewrite dels_neg, inss_neg by lia.
    split_and!; try constructor; try done; try lia; eapply Forall_impl; eauto; simpl; lia.
  - destruct IH as (H1 & H2 & H3 & H4 & H5); [lia..|]. rewrite dels_pos, inss_pos by lia.
    split_and!; try constructor; try done; try lia; eapply Forall_impl; eauto; simpl; lia.
Qed.

(** The next insertion, or the next deletion, may come first. *)
Lemma pull_ins i j a b es is_ :
  script i j a b es → 0 ≤ i → 0 ≤ j → inss es = j + 1 :: is_ →
  ∃ y b' es', b = y :: b' ∧ script i (j + 1) a b' es' ∧ dels es' = dels es ∧ inss es' = is_.
Proof.
  induction 1 as [i j|i j x a b es Hs IH|i j x a b es Hs IH|i j y a b es Hs IH]; intros Hi Hj Heq; [done| | |].
  - destruct (script_sides _ _ _ _ _ Hs) as (_ & _ & _ & _ & Hge); [lia..|]. rewrite Heq in Hge.
    apply Forall_cons in Hge as [? _]. lia.
  - rewrite inss_neg in Heq by lia. destruct IH as (y & b' & es' & -> & Hs' & Hd & Hin); [lia..|done|].
    exists y, b', (-1 - i :: es'). rewrite !dels_neg, inss_neg, Hd by lia. split_and!; [done|by constructor|done..].
  - rewrite inss_pos in Heq by lia. rewrite dels_pos by lia. simplify_eq. by exists y, b, es.
Qed.

Lemma pull_del i j a b es ds :
  script i j a b es → 0 ≤ i → 0 ≤ j → dels es = -1 - i :: ds →
  ∃ x a' es', a = x :: a' ∧ script (i + 1) j a' b es' ∧ dels es' = ds ∧ inss es' = inss es.
Proof.
  induction 1 as [i j|i j x a b es Hs IH|i j x a b es Hs IH|i j y a b es Hs IH]; intros Hi Hj Heq; [done| | |].
  - destruct (script_sides _ _ _ _ _ Hs) as (_ & _ & Hge & _ & _); [lia..|]. rewrite Heq in Hge.
    apply Forall_cons in Hge as [? _]. lia.
  - rewrite dels_neg in Heq by lia. rewrite inss_neg by lia. simplify_eq. by exists x, a, es.
  - rewrite dels_pos in Heq by lia. destruct IH as (x & a' & es' & -> & Hs' & Hd & Hin); [lia..|done|].
    exists x, a', (j + 1 :: es'). rewrite dels_pos, !inss_pos, Hin by lia. split_and!; [done|by constructor|done..].
Qed.

(** Otherwise the next elements match. *)
Lemma pull_match i j a b es :
  script i j a b es → 0 ≤ i → 0 ≤ j → es ≠ [] → (∀ ds, dels es ≠ -1 - i :: ds) → (∀ is_, inss es ≠ j + 1 :: is_) →
  ∃ x a' b', a = x :: a' ∧ b = x :: b' ∧ script (i + 1) (j + 1) a' b' es.
Proof.
  intros Hs Hi Hj He Hd Hin. inversion Hs as [|???????Hs'|?????? Hs'|???????]; subst; [done|by eauto 10| |].
  - destruct (Hd (dels es0)). by rewrite dels_neg by lia.
  - destruct (Hin (inss es0)). by rewrite inss_pos by lia.
Qed.

Lemma dels_inss_perm es : Forall (λ e, e ≠ 0) es → reverse (dels es) ++ inss es ≡ₚ es.
Proof.
  intros H. rewrite reverse_Permutation. induction H as [|e es He _ IH]; [done|].
  destruct (decide (e < 0)).
  - rewrite dels_neg, inss_neg by done. cbn [app]. by rewrite IH.
  - rewrite dels_pos, inss_pos by lia. by rewrite <- Permutation_middle, IH.
Qed.

Lemma dels_inss_length es : Forall (λ e, e ≠ 0) es → vsize (dels es) + vsize (inss es) = vsize es.
Proof.
  intros H. apply dels_inss_perm, Permutation_length in H. rewrite length_app, length_reverse in H. unfold vsize. lia.
Qed.

Lemma StronglySorted_reverse (l : list Z) : StronglySorted Z.gt l → StronglySorted Z.le (reverse l).
Proof.
  induction 1 as [|x l _ IH Hx]; [constructor|]. rewrite reverse_cons.
  apply StronglySorted_app_2; [|done|repeat constructor].
  intros y z Hy Hz. apply list_elem_of_singleton in Hz as ->. rewrite elem_of_reverse in Hy.
  rewrite Forall_forall in Hx. specialize (Hx y Hy). lia.
Qed.

(** Sorting puts the deletions, last one first, before the insertions. *)
Lemma sort_script i j a b es edits :
  script i j a b es → 0 ≤ i → 0 ≤ j → edits ≡ₚ es → merge_sort Z.le edits = reverse (dels es) ++ inss es.
Proof.
  intros Hs Hi Hj Hp. destruct (script_sides _ _ _ _ _ Hs Hi Hj) as (H0 & H1 & H2 & H3 & H4).
  apply (StronglySorted_unique Z.le).
  - apply StronglySorted_merge_sort; apply _.
  - apply StronglySorted_app_2; [|by apply StronglySorted_reverse|].
    + intros x y Hx Hy. rewrite elem_of_reverse in Hx. rewrite Forall_forall in H2, H4. specialize (H2 x Hx). specialize (H4 y Hy). lia.
    + clear -H3. induction H3; constructor; [done|]. eapply Forall_impl; [done|]. simpl. lia.
  - by rewrite merge_sort_Permutation, Hp, dels_inss_perm.
Qed.

Lemma count_neg_app l k : Forall (λ e, e < 0) l → Forall (λ e, 0 < e) k → count_neg (l ++ k) = vsize l.
Proof.
  intros Hl Hk. induction Hl as [|e l He _ IH]; cbn [app count_neg].
  - destruct Hk as [|e k He _]; [done|]. cbn [count_neg]. by rewrite (proj2 (Z.ltb_ge _ _)) by lia.
  - by rewrite (proj2 (Z.ltb_lt _ _)), IH, vsize_cons by done.
Qed.

(** ** The loop of [order_edits] *)

Section order.
Context (D In : list Z) (len_a len_b : Z).
Local Notation sedits := (reverse D ++ In).
Context (HD : Forall (λ e, - e ≤ len_a) D) (HI : Forall (λ e, e ≤ len_b) In).

(** The next deletion and the next insertion, 0 when there is none. *)
Lemma next_del D0 ds : D = D0 ++ ds →
  (if vsize ds - 1 <? 0 then Ok 0 else vec_get sedits (vsize ds - 1)) = Ok (hd 0 ds).
Proof.
  intros HD0. destruct ds as [|d ds]; [done|]. rewrite vsize_cons. pose proof (vsize_nonneg ds).
  rewrite (proj2 (Z.ltb_ge _ _)) by lia. apply peek_lookup; [lia|].
  rewrite HD0, reverse_app, reverse_cons, <- !app_assoc. apply list_lookup_middle. rewrite length_reverse. unfold vsize. lia.
Qed.

Lemma next_ins I0 is_ : In = I0 ++ is_ →
  (if vsize sedits <=? vsize D + vsize I0 then Ok 0 else vec_get sedits (vsize D + vsize I0)) = Ok (hd 0 is_).
Proof.
  intros HI0. rewrite vsize_app, vsize_reverse, HI0, vsize_app. destruct is_ as [|e is_].
  - by rewrite (proj2 (Z.leb_le _ _)) by (unfold vsize; simpl; lia).
  - rewrite vsize_cons. pose proof (vsize_nonneg is_). rewrite (proj2 (Z.leb_gt _ _)) by lia.
    pose proof (vsize_nonneg D). pose proof (vsize_nonneg I0). apply peek_lookup; [lia|].
    rewrite app_assoc. apply list_lookup_middle. rewrite length_app, length_reverse. unfold vsize. lia.
Qed.

(** With no edit left the loop only advances. *)
Lemma order_loop_idle fuel : ∀ ndx i j nedits,
  Z.max (len_a - i) (len_b - j) ≤ Z.of_nat fuel →
  order_loop fuel sedits len_a len_b (-1) (vsize D + vsize In) ndx i j nedits = Ok nedits.
Proof using Type.
  induction fuel as [|fuel IH]; intros ndx i j nedits Hf; cbn [order_loop].
  all: destruct ((j <? len_b) || (i <? len_a)) eqn:Hc; [|done]; apply orb_true_iff in Hc; try lia.
  pose proof (next_ins In [] (eq_sym (app_nil_r In))) as ->. cbn [mbind result_bind hd Z.ltb Z.compare andb]. apply IH. lia.
Qed.

(** The tests of the loop, on the edits left from [(i, j)]. *)
Lemma del_test i ds :
  Forall (λ e, e ≤ -1 - i) ds → 0 ≤ i →
  ((hd 0 ds <? 0) && (-1 - hd 0 ds <=? i) = true ∧ ∃ ds', ds = -1 - i :: ds') ∨
  ((hd 0 ds <? 0) && (-1 - hd 0 ds <=? i) = false ∧ ∀ ds', ds ≠ -1 - i :: ds').
Proof using Type.
  intros H Hi. destruct H as [|d ds Hd _]; cbn [hd]; [by right|].
  rewrite (proj2 (Z.ltb_lt _ _)) by lia. cbn [andb]. destruct (Z.leb_spec (-1 - d) i).
  - left. split; [done|]. exists ds. f_equal. lia.
  - right. split; [done|]. intros ds' [= ?]. lia.
Qed.

Lemma ins_test j is_ :
  Forall (λ e, j + 1 ≤ e) is_ → 0 ≤ j →
  ((0 <? hd 0 is_) && (-1 + hd 0 is_ <=? j) = true ∧ ∃ is', is_ = j + 1 :: is') ∨
  ((0 <? hd 0 is_) && (-1 + hd 0 is_ <=? j) = false ∧ ∀ is', is_ ≠ j + 1 :: is').
Proof using Type.
  intros H Hj. destruct H as [|e is_ He _]; cbn [hd]; [by right|].
  rewrite (proj2 (Z.ltb_lt _ _)) by lia. cbn [andb]. destruct (Z.leb_spec (-1 + e) j).
  - left. split; [done|]. exists is_. f_equal. lia.
  - right. split; [done|]. intros is' [= ?]. lia.
Qed.

Lemma order_loop_spec fuel : ∀ i j a b es D0 I0 out,
  script i j a b es → 0 ≤ i → 0 ≤ j → D = D0 ++ dels es → In = I0 ++ inss es →
  vsize es + Z.max 0 (Z.max (len_a - i) (len_b - j)) ≤ Z.of_nat fuel →
  ∃ out', order_loop fuel sedits len_a len_b (vsize (dels es) - 1) (vsize D + vsize I0) (vsize out) i j
      (out ++ replicate (length es) 0) = Ok (out ++ out') ∧
    script i j a b out' ∧ vsize out' = vsize es.
Proof using HD HI.
  induction fuel as [|fuel IH]; intros i j a b es D0 I0 out Hs Hi Hj HD0 HI0 Hf.
  all: destruct (decide (es = [])) as [->|Hne];
    [exists []; pose proof (app_nil_r I0) as E; change (inss []) with (@nil Z) in HI0; rewrite E in HI0; rewrite <- HI0;
     split_and!; [apply order_loop_idle; unfold vsize at 1 in Hf; cbn [length] in Hf; lia|done|done]|].
  { destruct es; [done|]. rewrite vsize_cons in Hf. pose proof (vsize_nonneg es). lia. }
  destruct (script_sides _ _ _ _ _ Hs Hi Hj) as (Hnz & _ & Hds & _ & His).
  pose proof (dels_inss_length es Hnz) as Hlen. cbn [order_loop].
  destruct ((j <? len_b) || (i <? len_a)) eqn:Hc; cycle 1.
  { exfalso. apply orb_false_iff in Hc as [Hcb Hca]. destruct es as [|e es]; [done|]. apply Forall_cons in Hnz as [Hez _].
    destruct (decide (e < 0)).
    - rewrite dels_neg in HD0, Hds by done. rewrite HD0 in HD. apply Forall_app in HD as [_ HD]. inversion HD. inversion Hds. lia.
    - rewrite inss_pos in HI0, His by lia. rewrite HI0 in HI. apply Forall_app in HI as [_ HI]. inversion HI. inversion His. lia. }
  rewrite (next_del D0 (dels es) HD0). cbn [mbind result_bind].
  rewrite (next_ins I0 (inss es) HI0). cbn [mbind result_bind]. cbv zeta.
  destruct (del_test i (dels es) Hds Hi) as [[-> [ds Eds]]|[-> Hnd]];
    destruct (ins_test j (inss es) His Hj) as [[-> [is_ Eis]]|[-> Hni]]; cbn [andb].
  - destruct (pull_del _ _ _ _ _ _ Hs Hi Hj Eds) as (x & a' & es1 & -> & Hs1 & Hd1 & Hi1). rewrite Eis in Hi1.
    destruct (pull_ins _ _ _ _ _ _ Hs1 ltac:(lia) Hj Hi1) as (y & b' & es2 & -> & Hs2 & Hd2 & Hi2).
    destruct (script_sides _ _ _ _ _ Hs2) as (Hnz2 & _); [lia..|]. apply dels_inss_length in Hnz2.
    destruct (IH (i + 1) (j + 1) a' b' es2 (D0 ++ [-1 - i]) (I0 ++ [j + 1]) ((out ++ [-1 - i]) ++ [j + 1])) as (out' & Hr & Hs' & Hl');
      [done|lia|lia|rewrite <- app_assoc, Hd2, Hd1; cbn [app]; by rewrite <- Eds|rewrite <- app_assoc, Hi2; cbn [app]; by rewrite <- Eis| |].
    { rewrite Eds, Eis, !vsize_cons in Hlen. rewrite Hd2, Hd1, Hi2 in Hnz2. lia. }
    rewrite Eds, Eis, !vsize_cons in *. rewrite Hd2, Hd1, Hi2 in Hnz2. cbn [hd].
    replace (length es) with (S (S (length es2))) by (unfold vsize in *; lia).
    cbn [replicate]. rewrite poke_app. cbn [mbind result_bind].
    rewrite (cons_middle (-1 - i) out), app_assoc, <- (vsize_snoc out (-1 - i)), poke_app. cbn [mbind result_bind].
    rewrite (cons_middle (j + 1)), app_assoc. rewrite Hd2, Hd1, !vsize_snoc in Hr.
    replace (vsize out + 1 + 1) with (vsize out + 2) in Hr by lia.
    replace (1 + vsize ds - 1 - 1) with (vsize ds - 1) by lia. rewrite <- Z.add_assoc, Hr.
    exists (-1 - i :: j + 1 :: out'). rewrite <- !app_assoc, !vsize_cons. split_and!; [done|by do 2 constructor|lia].
  - destruct (pull_del _ _ _ _ _ _ Hs Hi Hj Eds) as (x & a' & es1 & -> & Hs1 & Hd1 & Hi1).
    destruct (script_sides _ _ _ _ _ Hs1) as (Hnz1 & _); [lia..|]. apply dels_inss_length in Hnz1.
    rewrite Hd1, Hi1 in Hnz1. rewrite Eds, !vsize_cons in Hlen.
    destruct (IH (i + 1) j a' b es1 (D0 ++ [-1 - i]) I0 (out ++ [-1 - i])) as (out' & Hr & Hs' & Hl');
      [done|lia|lia|rewrite <- app_assoc, Hd1; cbn [app]; by rewrite <- Eds|by rewrite Hi1|lia|].
    replace (length es) with (S (length es1)) by (unfold vsize in *; lia).
    cbn [replicate]. rewrite Eds, vsize_cons. cbn [hd]. rewrite poke_app. cbn [mbind result_bind].
    rewrite (cons_middle (-1 - i)), app_assoc. rewrite Hd1, vsize_snoc in Hr.
    replace (1 + vsize ds - 1 - 1) with (vsize ds - 1) by lia. rewrite Hr.
    exists (-1 - i :: out'). rewrite <- !app_assoc, !vsize_cons. split_and!; [done|by constructor|lia].
  - destruct (pull_ins _ _ _ _ _ _ Hs Hi Hj Eis) as (y & b' & es1 & -> & Hs1 & Hd1 & Hi1).
    destruct (script_sides _ _ _ _ _ Hs1) as (Hnz1 & _); [lia..|]. apply dels_inss_length in Hnz1.
    rewrite Hd1, Hi1 in Hnz1. rewrite Eis, !vsize_cons in Hlen.
    destruct (IH i (j + 1) a b' es1 D0 (I0 ++ [j + 1]) (out ++ [j + 1])) as (out' & Hr & Hs' & Hl');
      [done|lia|lia|by rewrite Hd1|rewrite <- app_assoc, Hi1; cbn [app]; by rewrite <- Eis|lia|].
    replace (length es) with (S (length es1)) by (unfold vsize in *; lia).
    cbn [replicate]. rewrite Eis. cbn [hd]. rewrite poke_app. cbn [mbind result_bind].
    rewrite (cons_middle (j + 1)), app_assoc. rewrite Hd1, !vsize_snoc in Hr. rewrite <- Z.add_assoc, Hr.
    exists (j + 1 :: out'). rewrite <- !app_assoc, !vsize_cons. split_and!; [done|by constructor|lia].
  - destruct (pull_match _ _ _ _ _ Hs Hi Hj Hne Hnd Hni) as (x & a' & b' & -> & -> & Hs1). apply orb_true_iff in Hc.
    destruct (IH (i + 1) (j + 1) a' b' es D0 I0 out Hs1 ltac:(lia) ltac:(lia) HD0 HI0 ltac:(lia)) as (out' & -> & Hs' & Hl').
    exists out'. split_and!; [done|by constructor|done].
Qed.
End order.

(** ** The entry points *)

Lemma sorted_bounds (l : list Z) :
  StronglySorted Z.le l → l ≠ [] →
  ∃ x z, vec_get l 0 = Ok x ∧ vec_get l (vsize l - 1) = Ok z ∧ Forall (λ e, x ≤ e ≤ z) l.
Proof.
  intros Hs Hne. destruct l as [|x l']; [done|]. destruct (exists_last Hne) as (l0 & z & Hz).
  exists x, z. split_and!; [done| |].
  - rewrite Hz, vsize_app. change (vsize [z]) with 1. replace (vsize l0 + 1 - 1) with (vsize l0) by lia.
    apply peek_lookup; [apply vsize_nonneg|]. apply list_lookup_middle. unfold vsize. lia.
  - apply Forall_forall. intros e He. split.
    + apply StronglySorted_inv in Hs as [_ Hs]. apply elem_of_cons in He as [->|He]; [lia|].
      rewrite Forall_forall in Hs. by apply Hs.
    + rewrite Hz in He, Hs. apply elem_of_app in He as [He|He%list_elem_of_singleton]; [|lia].
      eapply StronglySorted_app_1_elem_of; [exact Hs|done|set_solver].
Qed.

Lemma order_edits_spec a b edits es :
  script 0 0 a b es → edits ≡ₚ es →
  ∃ out, order_edits edits = Ok out ∧ script 0 0 a b out ∧ vsize out = vsize es.
Proof.
  intros Hs Hp. unfold order_edits. pose proof (Permutation_length Hp) as Hlen.
  destruct (Z.eqb_spec (vsize edits) 0) as [H0|H0].
  - apply vsize_0 in H0 as ->. apply Permutation_nil in Hp as ->. by exists [].
  - rewrite (sort_script 0 0 a b es edits Hs ltac:(lia) ltac:(lia) Hp).
    destruct (script_sides _ _ _ _ _ Hs) as (Hnz & Hsd & Hds & Hsi & His); [lia..|].
    assert (vsize (reverse (dels es) ++ inss es) = vsize edits) as Hsize
      by (rewrite vsize_app, vsize_reverse, dels_inss_length by done; unfold vsize; lia).
    destruct (sorted_bounds (reverse (dels es) ++ inss es)) as (first & last & E1 & E2 & Hb).
    { rewrite <- (sort_script 0 0 a b es edits Hs ltac:(lia) ltac:(lia) Hp). apply StronglySorted_merge_sort; apply _. }
    { intros Hnil. rewrite Hnil in Hsize. done. }
    rewrite Hsize in E2. rewrite E1. cbn [mbind result_bind]. rewrite E2. cbn [mbind result_bind]. cbv zeta.
    rewrite count_neg_app; [|apply Forall_reverse; eapply Forall_impl; [exact Hds|simpl; lia]|eapply Forall_impl; [exact His|simpl; lia]].
    rewrite vsize_reverse. apply Forall_app in Hb as [Hb1 Hb2]. rewrite Forall_reverse in Hb1.
    destruct (order_loop_spec (dels es) (inss es) (Z.max 0 (- first)) last) with (i := 0) (j := 0) (a := a) (b := b) (es := es)
      (D0 := @nil Z) (I0 := @nil Z) (out := @nil Z) (fuel := Z.to_nat (vsize edits + Z.max (Z.max 0 (- first)) last)) as (out & Hr & Hs' & Hl);
      [eapply Forall_impl; [exact Hb1|simpl; lia]|eapply Forall_impl; [exact Hb2|simpl; lia]|done|lia|lia|done|done| |].
    { unfold vsize in *. lia. }
    change (vsize []) with 0 in Hr. rewrite Z.add_0_r in Hr. cbn [app] in Hr. rewrite Hlen, Hr. by exists out.
Qed.

Lemma edit_script_spec (a b : list Z) :
  ∃ es, edit_script a b = Ok es ∧ script 0 0 a b es ∧ vsize es = vsize a + vsize b - 2 * lcs a b.
Proof.
  unfold edit_script. destruct (Z.ltb_spec (vsize b) (vsize a)) as [Hlt|Hge].
  - destruct (diff_to_edits_spec b a) as (edits & es & -> & Hs & Hp & Hl); [lia|]. cbn [mbind result_bind].
    destruct (order_edits_spec b a edits es Hs Hp) as (out & -> & Hs' & Hl'). cbn [mbind result_bind].
    exists (map (λ e, e * -1) out). assert (map (λ e, e * -1) out = Z.opp <$> out) as -> by (apply map_ext; lia).
    split_and!; [done|by apply script_sym|]. rewrite lcs_sym. unfold vsize in *. rewrite length_fmap. lia.
  - destruct (diff_to_edits_spec a b) as (edits & es & -> & Hs & Hp & Hl); [lia|]. cbn [mbind result_bind].
    destruct (order_edits_spec a b edits es Hs Hp) as (out & -> & Hs' & Hl').
    exists out. split_and!; [done..|]. lia.
Qed.

(** C5: [edit_script] always returns, and what it returns is a script that turns [a] into [b] and is no longer
    than any other: every internal check of [lcs.cc] holds, no vector is read or written out of range, the divide
    and conquer ends, and the costs that guide it are exact where they are used. *)
Theorem edit_script_shortest (a b : list Z) :
  ∃ es, edit_script a b = Ok es ∧ script 0 0 a b es ∧ ∀ es', script 0 0 a b es' → vsize es ≤ vsize es'.
Proof.
  destruct (edit_script_spec a b) as (es & ? & ? & Hl). exists es. split_and!; [done..|].
  intros es' Hes'. apply script_length in Hes'. lia.
Qed.

(** ** The elements a script keeps *)

Fixpoint keep (i : Z) (a ds : list Z) : list Z :=
  match a with
  | [] => []
  | x :: a =>
      match ds with
      | d :: ds' => if decide (d = -1 - i) then keep (i + 1) a ds' else x :: keep (i + 1) a ds
      | [] => x :: keep (i + 1) a []
      end
  end.

Lemma keep_cons i x a ds : Forall (λ e, e ≤ -1 - (i + 1)) ds → keep i (x :: a) ds = x :: keep (i + 1) a ds.
Proof. intros H. cbn [keep]. destruct H as [|d ds Hd _]; [done|]. by rewrite decide_False by lia. Qed.

Lemma script_keep i j a b es :
  script i j a b es → 0 ≤ i → 0 ≤ j →
  keep i a (dels es) `sublist_of` a ∧ keep i a (dels es) `sublist_of` b ∧
  vsize es = vsize a + vsize b - 2 * vsize (keep i a (dels es)).
Proof.
  induction 1 as [i j|i j x a b es Hs IH|i j x a b es Hs IH|i j y a b es Hs IH]; intros Hi Hj.
  - split_and!; done || constructor.
  - destruct IH as (H1 & H2 & H3); [lia..|]. destruct (script_sides _ _ _ _ _ Hs) as (_ & _ & Hd & _); [lia..|].
    rewrite keep_cons by done. rewrite !vsize_cons. split_and!; [by constructor..|lia].
  - destruct IH as (H1 & H2 & H3); [lia..|]. rewrite dels_neg by lia. cbn [keep]. rewrite decide_True, !vsize_cons by done.
    split_and!; [by constructor|done|lia].
  - destruct IH as (H1 & H2 & H3); [lia..|]. rewrite dels_pos, !vsize_cons by lia. split_and!; [done|by constructor|lia].
Qed.

Lemma edits_to_lcs_loop_spec v fuel : ∀ E0 es adx out space,
  0 ≤ adx ≤ vsize v → Forall (λ e, e ≠ 0) es → StronglySorted Z.gt (dels es) → Forall (λ e, e ≤ -1 - adx) (dels es) →
  vsize v - adx + vsize es ≤ Z.of_nat fuel → vsize space = vsize (keep adx (range v adx (vsize v)) (dels es)) →
  edits_to_lcs_loop fuel (E0 ++ es) (whole v) (vsize v) (vsize E0) (vsize out) adx (out ++ space) =
    Ok (out ++ keep adx (range v adx (vsize v)) (dels es)).
Proof.
  assert (∀ E0 es, (if vsize E0 <? vsize (E0 ++ es) then vec_get (E0 ++ es) (vsize E0) else Ok 0) = Ok (hd 0 es)) as Hhd.
  { intros E0 es. rewrite vsize_app. destruct es as [|e es]; [change (vsize []) with 0; rewrite Z.add_0_r, Z.ltb_irrefl; done|].
    rewrite vsize_cons. pose proof (vsize_nonneg es). rewrite (proj2 (Z.ltb_lt _ _)) by lia.
    apply peek_lookup; [apply vsize_nonneg|]. apply list_lookup_middle. unfold vsize. lia. }
  induction fuel as [|fuel IH]; intros E0 es adx out space Ha Hnz Hsd Hds Hf Hsp; cbn [edits_to_lcs_loop].
  all: destruct (Z.ltb_spec adx (vsize v)) as [Hlt|Hge];
    [|rewrite range_nil in * by lia; apply vsize_0 in Hsp as ->; done].
  { pose proof (vsize_nonneg es). lia. }
  rewrite Hhd. cbn [mbind result_bind]. destruct (range_cons v adx (vsize v)) as (x & Hx & Hr); [lia..|]. rewrite Hr in *.
  destruct es as [|e es]; cbn [hd].
  - change (dels []) with (@nil Z) in *. cbn [Z.ltb Z.compare Z.eqb negb andb keep] in *. rewrite Hx. cbn [mbind result_bind].
    destruct space as [|s0 space]; [done|]. rewrite poke_app. cbn [mbind result_bind].
    specialize (IH E0 [] (adx + 1) (out ++ [x]) space). rewrite vsize_snoc, <- !app_assoc in IH. apply IH; try done; [lia..|].
    rewrite !vsize_cons in Hsp. change (dels []) with (@nil Z). lia.
  - apply Forall_cons in Hnz as [He Hnz]. rewrite vsize_cons in Hf. destruct (Z.ltb_spec 0 e) as [Hpos|Hneg].
    + rewrite dels_pos in * by done. rewrite cons_middle, app_assoc, <- vsize_snoc with (e := e). rewrite <- Hr in *. apply IH; done || lia.
    + rewrite dels_neg in * by lia. rewrite (proj2 (Z.eqb_neq _ _)) by done. cbn [negb andb].
      apply StronglySorted_inv in Hsd as [Hsd Hgt]. apply Forall_cons in Hds as [Hde Hds].
      destruct (Z.leb_spec (-1 - e) adx) as [Hle|Hgt'].
      * rewrite cons_middle, app_assoc, <- vsize_snoc with (e := e). cbn [keep] in *. rewrite decide_True in * by lia.
        apply IH; try done; [lia| |lia]. eapply Forall_impl; [exact Hgt|simpl; lia].
      * rewrite Hx. cbn [mbind result_bind].
        assert (Forall (λ e0, e0 ≤ -1 - (adx + 1)) (e :: dels es)) as Hall.
        { constructor; [lia|]. eapply Forall_impl; [exact Hgt|simpl; lia]. }
        rewrite keep_cons in * by done. rewrite vsize_cons in Hsp.
        destruct space as [|s0 space]; [unfold vsize in Hsp; cbn [length] in Hsp; lia|]. rewrite vsize_cons in Hsp.
        rewrite poke_app. cbn [mbind result_bind]. specialize (IH E0 (e :: es) (adx + 1) (out ++ [x]) space).
        rewrite vsize_snoc, <- !app_assoc, dels_neg in IH by lia. apply IH; try done; [lia|by constructor|by constructor|rewrite vsize_cons; lia|lia].
Qed.

Lemma edits_to_lcs_spec a b es :
  script 0 0 a b es → vsize es = vsize a + vsize b - 2 * lcs a b →
  ∃ s, edits_to_lcs es (whole a) (vsize a) (vsize b) = Ok s ∧ s `sublist_of` a ∧ s `sublist_of` b ∧ vsize s = lcs a b.
Proof.
  intros Hs Hl. destruct (script_keep _ _ _ _ _ Hs) as (H1 & H2 & H3); [lia..|].
  destruct (script_sides _ _ _ _ _ Hs) as (Hnz & Hsd & Hds & _); [lia..|].
  exists (keep 0 a (dels es)). split_and!; [|done|done|lia]. unfold edits_to_lcs.
  replace (vsize a + vsize b - vsize es) with (lcs a b * 2) by lia. rewrite halve.
  pose proof (edits_to_lcs_loop_spec a (Z.to_nat (vsize a + vsize es)) [] es 0 [] (replicate (Z.to_nat (lcs a b)) 0)) as H.
  rewrite range_whole in H. apply H; try done; [pose proof (vsize_nonneg a); lia|pose proof (vsize_nonneg a); pose proof (vsize_nonneg es); lia|].
  rewrite vsize_replicate. pose proof (lcs_nonneg a b). lia.
Qed.

(** A common subsequence is an alignment. *)
Lemma sublists_align s a b : s `sublist_of` a → s `sublist_of` b → align a b (vsize s).
Proof.
  intros Ha. revert b. induction Ha as [|x s a Ha IH|x s a Ha IH]; intros b Hb.
  - induction b as [|y b IHb]; [constructor|]. constructor. apply IHb, sublist_nil_l.
  - rewrite vsize_cons. apply sublist_cons_l in Hb as (b1 & b2 & -> & Hb). change (x :: a) with ([] ++ x :: a).
    replace (1 + vsize s) with (0 + (1 + vsize s)) by lia. apply align_app; [|constructor; auto].
    clear. induction b1; by constructor.
  - constructor. auto.
Qed.

(** C6: [longest_common_subsequence] always returns a common subsequence of its arguments, and no common
    subsequence is longer. *)
Theorem lcs_longest (a b : list Z) :
  ∃ s, longest_common_subsequence a b = Ok s ∧ s `sublist_of` a ∧ s `sublist_of` b ∧
    ∀ t, t `sublist_of` a → t `sublist_of` b → vsize t ≤ vsize s.
Proof.
  assert (∃ s, longest_common_subsequence a b = Ok s ∧ s `sublist_of` a ∧ s `sublist_of` b ∧ vsize s = lcs a b)
    as (s & Hr & H1 & H2 & Hl).
  { unfold longest_common_subsequence. destruct (Z.ltb_spec (vsize b) (vsize a)) as [Hlt|Hge].
    - destruct (diff_to_edits_spec b a) as (edits & es & -> & Hs & Hp & Hl); [lia|]. cbn [mbind result_bind].
      destruct (order_edits_spec b a edits es Hs Hp) as (out & -> & Hs' & Hl'). cbn [mbind result_bind].
      destruct (edits_to_lcs_spec b a out Hs') as (s & ? & ? & ? & ?); [lia|]. exists s. rewrite lcs_sym. done.
    - destruct (diff_to_edits_spec a b) as (edits & es & -> & Hs & Hp & Hl); [lia|]. cbn [mbind result_bind].
      destruct (order_edits_spec a b edits es Hs Hp) as (out & -> & Hs' & Hl'). cbn [mbind result_bind].
      destruct (edits_to_lcs_spec a b out Hs') as (s & ? & ? & ? & ?); [lia|]. by exists s. }
  exists s. split_and!; [done..|]. intros t Ht1 Ht2. rewrite Hl. by apply align_le, sublists_align.
Qed.
