(* ===== verification/Merge3way.v ===== *)
(** * The three-way line merge ([src/src/merge_3way.cc], [src/src/interner.hh])

    [merge3] interns the lines of the ancestor and of both sides as numbers,
    takes the edit script from the ancestor to each side, turns each script
    into one [extent] per line of the ancestor (what became of that line and of what
    was inserted after it), normalizes the extents, and merges them line by line.

    The exception [conflict] is [None]: [merge3] catches it and returns
    false.  Everything else that can go wrong is an error: [vector::at] throws
    [std::out_of_range], and [back()] of an empty vector is undefined.
    While extents are calculated the vector is a list whose head is the back.
    Positions are [size_t] values below the number of lines. *)

From S2P Require Import Prelude Numbers Lcs.

(** [v.at(i)] *)
Definition vec_at {A} (v : list A) (i : Z) : result A :=
  if i <? 0 then Err StdException
  else match v !! Z.to_nat i with Some x => Ok x | None => Err StdException end.

Inductive edit_t := preserved | deleted | changed.

#[export] Instance edit_t_eq_dec : EqDecision edit_t.
Proof. solve_decision. Defined.

Record extent := Extent { pos : Z; elen : Z; type : edit_t }.

#[export] Instance extent_eq_dec : EqDecision extent.
Proof. solve_decision. Defined.

(** ** From a script to extents *)

Record calc := Calc { a_pos : Z; b_pos : Z; prefix : list Z; extents : list extent; suffix : list Z }.

(** [n] rounds of the loops that fill positions with preserved extents. *)
Fixpoint fill (n : nat) (b_pos : Z) (extents : list extent) : list extent :=
  match n with
  | O => extents
  | S n => fill n (b_pos + 1) (Extent b_pos 1 preserved :: extents)
  end.

Definition advance (st : calc) (n : Z) : calc :=
  Calc (a_pos st + Z.max 0 n) (b_pos st + Z.max 0 n) (prefix st) (fill (Z.to_nat n) (b_pos st) (extents st)) (suffix st).

(** The edits of [edit_script] are never 0, which would wrap around here. *)
Definition calculate_edit (b : list Z) (a_len : Z) (st : calc) (edit : Z) : result calc :=
  if edit <? 0 then
    let a_deleted := -1 - edit in
    let st := advance st (a_deleted - a_pos st) in
    Ok (Calc (a_pos st + 1) (b_pos st) (prefix st) (Extent (b_pos st) 0 deleted :: extents st) (suffix st))
  else
    let b_inserted := edit - 1 in
    let st := advance st (b_inserted - b_pos st) in
    if ((b_pos st =? 0) && bool_decide (extents st = [])) || (b_pos st =? vsize (prefix st)) then
      x ← vec_at b (b_pos st);
      Ok (Calc (a_pos st) (b_pos st + 1) (prefix st ++ [x]) (extents st) (suffix st))
    else if a_len =? a_pos st then
      x ← vec_at b (b_pos st);
      Ok (Calc (a_pos st) (b_pos st + 1) (prefix st) (extents st) (suffix st ++ [x]))
    else
      match extents st with
      | [] => Err UndefinedBehaviour
      | e :: rest => Ok (Calc (a_pos st) (b_pos st + 1) (prefix st) (Extent (pos e) (elen e + 1) changed :: rest) (suffix st))
      end.

(** The prefix, the extents and the suffix. *)
Definition calculate_extents (a_b_edits b : list Z) (a_len : Z) : result (list Z * list extent * list Z) :=
  st ← foldM (calculate_edit b a_len) a_b_edits (Calc 0 0 [] [] []);
  Ok (prefix st, reverse (fill (Z.to_nat (a_len - vsize (extents st))) (b_pos st) (extents st)), suffix st).

(** ** Normalization *)

(** The inner loop of the first pass: a changed block moves up over a
    preserved line when it ends with the line it follows. *)
Fixpoint shift_up (j : nat) (m : list extent) (a b : list Z) : result (list extent) :=
  match j with
  | O => Ok m
  | S j' =>
      e' ← vec_at m (Z.of_nat j');
      e ← vec_at m (Z.of_nat j);
      if bool_decide (type e' = preserved) && bool_decide (type e = changed) then
        aj ← vec_at a (Z.of_nat j);
        bj ← vec_at b (pos e + elen e - 1);
        if aj =? bj then
          aj' ← vec_at a (Z.of_nat j');
          bj' ← vec_at b (pos e');
          I_ (aj' =? bj') ;;
          shift_up j'
            (<[j := Extent (pos e' + elen e) (elen e') (type e')]>
              (<[j' := Extent (pos e') (elen e) (type e)]> m)) a b
        else Ok m
      else Ok m
  end.

(** The inner loop of the second pass: all but the last line of a changed
    block goes to the changed block before it. *)
Fixpoint pull_back (j : nat) (m : list extent) (a b : list Z) : result (list extent) :=
  match j with
  | O => Ok m
  | S j' =>
      e ← vec_at m (Z.of_nat j);
      e' ← vec_at m (Z.of_nat j');
      if bool_decide (type e = changed) && bool_decide (type e' = changed) && (1 <? elen e) && (pos e' + elen e' =? pos e) then
        let piece := elen e - 1 in
        bj ← vec_at b (pos e + piece);
        aj ← vec_at a (Z.of_nat j);
        pull_back j'
          (<[j := Extent (pos e + piece) 1 (if bj =? aj then preserved else changed)]>
            (<[j' := Extent (pos e') (elen e' + piece) (type e')]> m)) a b
      else Ok m
  end.

Definition normalize_extents (a_b_map : list extent) (a b : list Z) : result (list extent) :=
  m ← foldM (λ m i, shift_up i m a b) (seq 0 (length a_b_map)) a_b_map;
  foldM (λ m i, pull_back i m a b) (seq 0 (length m)) m.

(** ** Merging extents *)

(** [n] lines of [v] from [p] on. *)
Fixpoint copy_lines (n : nat) (v : list Z) (p : Z) : result (list Z) :=
  match n with
  | O => Ok []
  | S n => x ← vec_at v p; rest ← copy_lines n v (p + 1); Ok (x :: rest)
  end.

(** The same lines on both sides, [None] for the exception [conflict]. *)
Fixpoint same_lines (n : nat) (b c : list Z) (p q : Z) : result (option (list Z)) :=
  match n with
  | O => Ok (Some [])
  | S n =>
      x ← vec_at b p;
      y ← vec_at c q;
      if x =? y then
        rest ← same_lines n b c (p + 1) (q + 1);
        Ok (match rest with Some rest => Some (x :: rest) | None => None end)
      else Ok None
  end.

(** One round of the loop. *)
Definition merge_extent (b c : list Z) (i j : extent) : result (option (list Z)) :=
  if ((bool_decide (type i = changed) && bool_decide (type j = changed)) ||
      (bool_decide (type i = preserved) && bool_decide (type j = preserved))) && (elen i =? elen j) then
    same_lines (Z.to_nat (elen i)) b c (pos i) (pos j)
  else if (bool_decide (type i = deleted) && bool_decide (type j = deleted)) ||
          (bool_decide (type i = deleted) && bool_decide (type j = preserved)) ||
          (bool_decide (type i = preserved) && bool_decide (type j = deleted)) then Ok (Some [])
  else if bool_decide (type i = changed) && bool_decide (type j = preserved) then
    Some <$> copy_lines (Z.to_nat (elen i)) b (pos i)
  else if bool_decide (type i = preserved) && bool_decide (type j = changed) then
    Some <$> copy_lines (Z.to_nat (elen j)) c (pos j)
  else Ok None.

Fixpoint merge_extents_loop (b c : list Z) (is_ js : list extent) : result (option (list Z)) :=
  match is_, js with
  | i :: is_, j :: js =>
      l ← merge_extent b c i j;
      match l with
      | None => Ok None
      | Some l =>
          rest ← merge_extents_loop b c is_ js;
          Ok (match rest with Some rest => Some (l ++ rest) | None => None end)
      end
  | _, _ => Ok (Some [])
  end.

Definition merge_extents (a_b_map a_c_map : list extent) (b c : list Z) : result (option (list Z)) :=
  I_ (vsize a_b_map =? vsize a_c_map) ;;
  merge_extents_loop b c a_b_map a_c_map.

(** ** Interning *)

Record interner := Interner { fwd : gmap bytes Z; rev : list bytes }.

Definition intern (t : interner) (s : bytes) : interner * Z :=
  match fwd t !! s with
  | Some k => (t, k)
  | None => (Interner (<[s := vsize (rev t)]> (fwd t)) (rev t ++ [s]), vsize (rev t))
  end.

Definition lookup_line (t : interner) (k : Z) : result bytes :=
  if k <? 0 then Err invariant_failure else of_option (rev t !! Z.to_nat k).

Fixpoint intern_all (t : interner) (lines : list bytes) : interner * list Z :=
  match lines with
  | [] => (t, [])
  | s :: lines => let '(t, k) := intern t s in let '(t, ks) := intern_all t lines in (t, k :: ks)
  end.

Fixpoint lookup_all (t : interner) (ks : list Z) : result (list bytes) :=
  match ks with
  | [] => Ok []
  | k :: ks => s ← lookup_line t k; lines ← lookup_all t ks; Ok (s :: lines)
  end.

(** ** The merge *)

(** [merge_via_edit_scripts] on interned lines. *)
Definition merge_interned (anc left right : list Z) : result (option (list Z)) :=
  left_edits ← edit_script anc left;
  right_edits ← edit_script anc right;
  '(left_prefix, left_extents, left_suffix) ← calculate_extents left_edits left (vsize anc);
  '(right_prefix, right_extents, right_suffix) ← calculate_extents right_edits right (vsize anc);
  right_extents ← normalize_extents right_extents anc right;
  left_extents ← normalize_extents left_extents anc left;
  if negb (bool_decide (right_prefix = [])) && negb (bool_decide (left_prefix = [])) then Ok None
  else if negb (bool_decide (right_suffix = [])) && negb (bool_decide (left_suffix = [])) then Ok None
  else
    merged ← merge_extents left_extents right_extents left right;
    Ok (match merged with
        | Some merged => Some (left_prefix ++ right_prefix ++ merged ++ left_suffix ++ right_suffix)
        | None => None
        end).

Definition merge_via_edit_scripts (ancestor left right : list bytes) : result (option (list bytes)) :=
  let '(t, anc_interned) := intern_all (Interner ∅ []) ancestor in
  let '(t, left_interned) := intern_all t left in
  let '(t, right_interned) := intern_all t right in
  merged ← merge_interned anc_interned left_interned right_interned;
  match merged with
  | None => Ok None
  | Some merged => Some <$> lookup_all t merged
  end.

(** The merged lines, or [None] for false. *)
Definition merge3 (ancestor left right : list bytes) : result (option (list bytes)) :=
  merge_via_edit_scripts ancestor left right.

(** The cases of the unit tests: a side that prepends, appends, changes, deletes. *)
Definition text (s : string) : list bytes := (λ c, [c]) <$> lit s.

Example line_merges :
  merge3 (text "abcdef") (text "Xabcdef") (text "abcdeZf") = Ok (Some (text "XabcdeZf")) ∧
  merge3 (text "abcdef") (text "abdef") (text "abcdefg") = Ok (Some (text "abdefg")) ∧
  merge3 (text "abcdef") (text "abXdef") (text "abYdef") = Ok None ∧
  merge3 (text "a") (text "Xa") (text "Xa") = Ok None.
Proof. vm_compute. done. Qed.
