(* ===== verification/Merge3wayExtents.v ===== *)
(** * The extents of [merge_3way.cc]

    [maps b a p m q] says that the extents [m] account for every line of the
    ancestor [a] and, in order, for the lines of [b] from [p] up to [q]:
    a preserved line is in [b], a deleted one has no lines, a changed one has
    some.  [calculate_extents] produces such extents from any edit script,
    with the lines before and after them as prefix and suffix, and
    [normalize_extents] keeps them so; neither fails. *)

From S2P Require Import Prelude Numbers Lcs LcsDistance LcsCompare LcsSplit LcsRange Merge3way.

Fixpoint maps (b a : list Z) (p : Z) (m : list extent) (q : Z) : Prop :=
  match a, m with
  | [], [] => p = q
  | x :: a, e :: m =>
      match type e with
      | preserved => pos e = p ∧ elen e = 1 ∧ b !! Z.to_nat p = Some x ∧ maps b a (p + 1) m q
      | deleted => elen e = 0 ∧ maps b a p m q
      | changed => pos e = p ∧ 1 ≤ elen e ∧ maps b a (p + elen e) m q
      end
  | _, _ => False
  end.

Section maps.
Context (b : list Z).

Lemma maps_length a p m q : maps b a p m q → length m = length a.
Proof.
  revert p m. induction a as [|x a IH]; intros p [|e m] H; cbn [maps] in H; try done.
  cbn [length]. f_equal. destruct (type e); naive_solver.
Qed.

Lemma maps_le a p m q : maps b a p m q → p ≤ q.
Proof.
  revert p m. induction a as [|x a IH]; intros p [|e m] H; cbn [maps] in H; try done; [lia|].
  destruct (type e); destruct_and?; match goal with H : maps _ _ _ _ _ |- _ => apply IH in H end; lia.
Qed.

(** Extents that account for no line are deletions, wherever they are. *)
Lemma maps_empty a p m p' : maps b a p m p → maps b a p' m p'.
Proof.
  revert m. induction a as [|x a IH]; intros [|e m] H; cbn [maps] in *; try done.
  destruct (type e) eqn:Ht; destruct_and?; [| |].
  - match goal with H : maps _ _ _ _ _ |- _ => apply maps_le in H end. lia.
  - auto.
  - match goal with H : maps _ _ _ _ _ |- _ => apply maps_le in H end. lia.
Qed.

Lemma maps_app_inv a1 a2 p m q :
  maps b (a1 ++ a2) p m q → ∃ m1 m2 r, m = m1 ++ m2 ∧ maps b a1 p m1 r ∧ maps b a2 r m2 q.
Proof.
  revert p m. induction a1 as [|x a1 IH]; intros p m H; [by exists [], m, p|].
  destruct m as [|e m]; [done|]. cbn [app maps] in H.
  assert (∀ p', maps b (a1 ++ a2) p' m q → (∀ m1 r, maps b a1 p' m1 r → maps b (x :: a1) p (e :: m1) r) →
    ∃ m1 m2 r, e :: m = m1 ++ m2 ∧ maps b (x :: a1) p m1 r ∧ maps b a2 r m2 q) as Hgen.
  { intros p' Hm Hcons. destruct (IH p' m Hm) as (m1 & m2 & r & -> & H1 & H2). exists (e :: m1), m2, r. auto. }
  destruct (type e) eqn:Ht; destruct_and?; eapply Hgen; [done| |done| |done|]; intros; cbn [maps]; rewrite Ht; auto.
Qed.

Lemma maps_app a1 a2 p m1 r m2 q : maps b a1 p m1 r → maps b a2 r m2 q → maps b (a1 ++ a2) p (m1 ++ m2) q.
Proof.
  revert p m1. induction a1 as [|x a1 IH]; intros p [|e m1] H1 H2; cbn [maps] in H1; try done; [by subst|].
  cbn [app maps]. destruct (type e); naive_solver.
Qed.
End maps.

(** ** Calculating them *)

Definition fillers (n : nat) (p : Z) : list extent := (λ k, Extent (p + k) 1 preserved) <$> seqZ 0 (Z.of_nat n).

Lemma fill_back n p l : fill (S n) p l = Extent (p + Z.of_nat n) 1 preserved :: fill n p l.
Proof.
  revert p l. induction n as [|n IH]; intros p l; [cbn [fill]; by rewrite Z.add_0_r|].
  change (fill (S (S n)) p l) with (fill (S n) (p + 1) (Extent p 1 preserved :: l)). rewrite IH. cbn [fill].
  do 2 f_equal. lia.
Qed.

Lemma fillers_S n p : fillers (S n) p = Extent p 1 preserved :: fillers n (p + 1).
Proof.
  unfold fillers. rewrite Nat2Z.inj_succ, (seqZ_cons 0 (Z.succ _)) by lia. cbn [fmap list_fmap].
  rewrite Z.add_0_r. f_equal. rewrite <- (Z.add_0_r (Z.succ 0)), <- fmap_add_seqZ, <- list_fmap_compose, Z.pred_succ.
  apply list_fmap_ext. intros. unfold compose. f_equal. lia.
Qed.

Lemma fill_fillers n p l : reverse (fill n p l) = reverse l ++ fillers n p.
Proof.
  revert p l. induction n as [|n IH]; intros p l; cbn [fill]; [by rewrite app_nil_r|].
  by rewrite IH, reverse_cons, <- app_assoc, fillers_S.
Qed.

Lemma fillers_maps b t p r u : b = r ++ t ++ u → p = vsize r → maps b t p (fillers (length t) p) (p + vsize t).
Proof.
  intros -> ->. revert r. induction t as [|x t IH]; intros r; cbn [length]; [simpl; unfold vsize; simpl; lia|].
  rewrite fillers_S. cbn [maps type pos elen]. split_and!; [done..| |].
  - apply list_lookup_middle. unfold vsize. lia.
  - specialize (IH (r ++ [x])). rewrite <- app_assoc, vsize_app in IH. change (vsize [x]) with 1 in IH.
    by rewrite vsize_cons, Z.add_assoc.
Qed.

(** The state between two edits, at line [i] of [a] and [j] of [b]. *)
Record calculated (a b : list Z) (i j : Z) (st : calc) : Prop := {
  calc_a : a_pos st = i;
  calc_b : b_pos st = j;
  calc_maps : maps b (take (Z.to_nat i) a) (vsize (prefix st)) (reverse (extents st)) (j - vsize (suffix st));
  calc_prefix : prefix st = range b 0 (vsize (prefix st));
  calc_suffix : suffix st = range b (j - vsize (suffix st)) j;
  calc_end : suffix st = [] ∨ i = vsize a;
  calc_back : ∀ e rest, extents st = e :: rest → type e = deleted → i < vsize a → vsize (prefix st) < j → pos e = j
}.

Lemma calc_size a b i j st : 0 ≤ i ≤ vsize a → calculated a b i j st → vsize (extents st) = i.
Proof.
  intros Hi H. pose proof (maps_length _ _ _ _ _ (calc_maps _ _ _ _ _ H)) as Hl.
  rewrite length_reverse, length_take in Hl. unfold vsize in *. lia.
Qed.

Lemma take_more (a0 t a1 : list Z) : take (Z.to_nat (vsize a0 + vsize t)) (a0 ++ t ++ a1) = a0 ++ t.
Proof. rewrite app_assoc, <- vsize_app. unfold vsize. by rewrite Nat2Z.id, take_app_length. Qed.

Lemma take_exact (a0 a1 : list Z) : take (Z.to_nat (vsize a0)) (a0 ++ a1) = a0.
Proof. unfold vsize. by rewrite Nat2Z.id, take_app_length. Qed.

(** Lines that match fill positions. *)
Lemma advance_calculated a0 t a1 b0 b1 st :
  let a := a0 ++ t ++ a1 in let b := b0 ++ t ++ b1 in
  calculated a b (vsize a0) (vsize b0) st →
  calculated a b (vsize a0 + vsize t) (vsize b0 + vsize t) (advance st (vsize t)).
Proof.
  intros a b [Ha Hb Hm Hp Hs He Hk]. destruct (decide (t = [])) as [Ht|Ht].
  { replace (vsize t) with 0 by (by subst). rewrite !Z.add_0_r. unfold advance. cbn [Z.to_nat Z.max fill].
    rewrite !Z.add_0_r. by split. }
  assert (0 < vsize t) as Hlt by (destruct t; [done|rewrite vsize_cons; pose proof (vsize_nonneg t); lia]).
  assert (suffix st = []) as Hsuf.
  { destruct He as [|He]; [done|]. subst a. rewrite !vsize_app in He. pose proof (vsize_nonneg a1). lia. }
  rewrite Hsuf in *. change (vsize []) with 0 in *. rewrite Z.sub_0_r in *.
  split; unfold advance; cbn [a_pos b_pos prefix extents suffix]; [lia|lia| |done| | |].
  - rewrite Hsuf. change (vsize []) with 0. rewrite Z.sub_0_r. subst a. rewrite take_more, fill_fillers.
    replace (Z.to_nat (vsize t)) with (length t) by (unfold vsize; lia). eapply maps_app; [by rewrite take_exact in Hm|].
    rewrite Hb. eapply (fillers_maps _ _ _ b0); done.
  - rewrite Hsuf. change (vsize []) with 0. rewrite Z.sub_0_r. by rewrite range_nil by lia.
  - by left.
  - intros e rest Hex Hty. exfalso. destruct t as [|x t] using rev_ind; [done|].
    assert (Z.to_nat (vsize (t ++ [x])) = S (length t)) as Hsz by (unfold vsize; rewrite length_app, Nat2Z.id; cbn; lia).
    rewrite Hsz, fill_back in Hex. by simplify_eq.
Qed.

(** The two kinds of edit. *)
Lemma delete_calculated a0 x a1 b j st :
  let a := a0 ++ x :: a1 in
  calculated a b (vsize a0) j st →
  calculated a b (vsize a0 + 1) j
    (Calc (a_pos st + 1) (b_pos st) (prefix st) (Extent (b_pos st) 0 deleted :: extents st) (suffix st)).
Proof.
  intros a [Ha Hb Hm Hp Hs He Hk]. split; cbn [a_pos b_pos prefix extents suffix]; [lia|done| |done|done| |].
  - subst a. replace (a0 ++ x :: a1) with (a0 ++ [x] ++ a1) by done. change 1 with (vsize [x]) at 1. rewrite take_more.
    rewrite reverse_cons. rewrite take_exact in Hm. eapply maps_app; [done|]. cbn [maps type elen]. done.
  - left. destruct He as [|He]; [done|]. subst a. rewrite vsize_app, vsize_cons in He. pose proof (vsize_nonneg a1). lia.
  - intros e rest ? _ _ _. by simplify_eq.
Qed.

Lemma insert_calculated a b0 y b1 i st :
  let b := b0 ++ y :: b1 in
  0 ≤ i ≤ vsize a → calculated a b i (vsize b0) st →
  ∃ st', calculated a b i (vsize b0 + 1) st' ∧
    (if ((b_pos st =? 0) && bool_decide (extents st = [])) || (b_pos st =? vsize (prefix st)) then
       x ← vec_at b (b_pos st);
       Ok (Calc (a_pos st) (b_pos st + 1) (prefix st ++ [x]) (extents st) (suffix st))
     else if vsize a =? a_pos st then
       x ← vec_at b (b_pos st);
       Ok (Calc (a_pos st) (b_pos st + 1) (prefix st) (extents st) (suffix st ++ [x]))
     else match extents st with
       | [] => Err UndefinedBehaviour
       | e :: rest => Ok (Calc (a_pos st) (b_pos st + 1) (prefix st) (Extent (pos e) (elen e + 1) changed :: rest) (suffix st))
       end) = Ok st'.
Proof.
  intros b Hi H. destruct H as [Ha Hb Hm Hp Hs He Hk].
  pose proof (maps_le _ _ _ _ _ Hm) as Hle. pose proof (vsize_nonneg (prefix st)) as Hp0. pose proof (vsize_nonneg (suffix st)) as Hs0.
  assert (b !! Z.to_nat (vsize b0) = Some y) as Hy by (subst b; apply list_lookup_middle; unfold vsize; lia).
  assert (vec_at b (b_pos st) = Ok y) as Hat.
  { unfold vec_at. rewrite Hb, (proj2 (Z.ltb_ge _ _)), Hy by apply vsize_nonneg. done. }
  assert (vsize b0 + 1 ≤ vsize b) as Hbsz by (subst b; rewrite vsize_app, vsize_cons; pose proof (vsize_nonneg b1); lia).
  assert (range b (vsize b0) (vsize b0 + 1) = [y]) as Hone.
  { destruct (range_one b (vsize b0)) as (c & Hc & ->); [pose proof (vsize_nonneg b0); lia|]. f_equal.
    unfold sub_at, whole in Hc. cbn [start end_ vec base] in Hc. rewrite (proj2 (Z.ltb_ge _ _)) in Hc by apply vsize_nonneg.
    rewrite (peek_lookup b (0 + (0 + vsize b0)) y) in Hc by (cbn; done || apply vsize_nonneg). congruence. }
  destruct (((b_pos st =? 0) && bool_decide (extents st = [])) || (b_pos st =? vsize (prefix st))) eqn:Hc.
  - assert (vsize b0 = vsize (prefix st)) as Hbp.
    { apply orb_true_iff in Hc as [[Hc _]%andb_true_iff|Hc]; lia. }
    rewrite Hat. cbn [mbind result_bind]. eexists. split; [|done].
    assert (suffix st = []) as Hsuf by (apply vsize_0; lia).
    split; cbn [a_pos b_pos prefix extents suffix]; [done|lia| | | |done|].
    + rewrite Hsuf in *. change (vsize []) with 0 in *. rewrite Z.sub_0_r, vsize_app in *. rewrite Hbp in Hm.
      change (vsize [y]) with 1. rewrite Hbp. by apply (maps_empty _ _ (vsize (prefix st))).
    + rewrite vsize_app. change (vsize [y]) with 1. rewrite (range_app b 0 (vsize (prefix st))), <- Hp, <- Hbp, Hone by lia. done.
    + rewrite Hsuf. change (vsize []) with 0. by rewrite range_nil by lia.
    + intros e rest _ _ _. rewrite vsize_app. change (vsize [y]) with 1. lia.
  - apply orb_false_iff in Hc as [_ Hc]. destruct (Z.eqb_spec (vsize a) (a_pos st)) as [Hend|Hend].
    + rewrite Hat. cbn [mbind result_bind]. eexists. split; [|done].
      split; cbn [a_pos b_pos prefix extents suffix]; [done|lia| |done| |right; lia|lia].
      * rewrite vsize_app. change (vsize [y]) with 1. by replace (vsize b0 + 1 - (vsize (suffix st) + 1)) with (vsize b0 - vsize (suffix st)) by lia.
      * rewrite vsize_app. change (vsize [y]) with 1.
        replace (vsize b0 + 1 - (vsize (suffix st) + 1)) with (vsize b0 - vsize (suffix st)) by lia.
        rewrite (range_app b _ (vsize b0)), <- Hs, Hone by lia. done.
    + assert (suffix st = []) as Hsuf by (destruct He; [done|lia]). rewrite Hsuf in *. change (vsize []) with 0 in *. rewrite Z.sub_0_r in *.
      destruct (extents st) as [|e rest] eqn:Hex.
      { exfalso. pose proof (maps_length _ _ _ _ _ Hm) as Hl. rewrite length_take in Hl. cbn in Hl. apply Z.eqb_neq in Hc.
        assert (i = 0) as Hi0 by (unfold vsize in Hi, Hend; lia). rewrite Hi0 in Hm. change (vsize (prefix st) = vsize b0) in Hm. lia. }
      eexists. split; [|done]. split; cbn [a_pos b_pos prefix extents suffix]; [done|lia| |done| |by left|intros ?? [= <- <-]; done].
      * change (vsize []) with 0. rewrite Z.sub_0_r. rewrite reverse_cons in *.
        destruct (take (Z.to_nat i) a) as [|x ta] eqn:Hta using rev_ind.
        { apply maps_length in Hm. rewrite length_app in Hm. simpl in Hm. lia. }
        clear IHta. apply maps_app_inv in Hm as (m1 & m2 & r & Hm12 & Hm1 & Hm2).
        assert (m2 = [e] ∧ m1 = reverse rest) as [-> ->].
        { apply maps_length in Hm2. destruct m2 as [|e2 [|]]; try done. apply app_inj_tail in Hm12 as [? ?]. by subst. }
        eapply maps_app; [done|]. cbn [maps type pos elen] in *. pose proof (maps_le _ _ _ _ _ Hm1).
        destruct (type e) eqn:Hty; destruct_and?; [split_and!; lia| |split_and!; lia].
        rewrite (Hk e rest eq_refl Hty) by lia. split_and!; lia.
      * change (vsize []) with 0. by rewrite range_nil by lia.
Qed.

(** A script up to its first edit: [t] matches. *)
Lemma script_first i j a b e es :
  script i j a b (e :: es) →
  ∃ t a1 b1, a = t ++ a1 ∧ b = t ++ b1 ∧
    ((∃ x a2, e = -1 - (i + vsize t) ∧ a1 = x :: a2 ∧ script (i + vsize t + 1) (j + vsize t) a2 b1 es) ∨
     (∃ y b2, e = j + vsize t + 1 ∧ b1 = y :: b2 ∧ script (i + vsize t) (j + vsize t + 1) a1 b2 es)).
Proof.
  remember (e :: es) as es0 eqn:He. induction 1 as [i j|i j x a b es' Hs IH|i j x a b es' Hs _|i j y a b es' Hs _]; simplify_eq.
  - destruct (IH eq_refl) as (t & a1 & b1 & -> & -> & H). exists (x :: t), a1, b1. rewrite vsize_cons.
    split_and!; [done..|]. replace (i + (1 + vsize t)) with (i + 1 + vsize t) by lia.
    replace (j + (1 + vsize t)) with (j + 1 + vsize t) by lia. done.
  - exists [], (x :: a), b. change (vsize []) with 0. rewrite !Z.add_0_r. split_and!; [done..|]. left. by exists x, a.
  - exists [], a, (y :: b). change (vsize []) with 0. rewrite !Z.add_0_r. split_and!; [done..|]. right. by exists y, b.
Qed.

Lemma script_last i j a b : script i j a b [] → a = b.
Proof. remember [] as es eqn:He. induction 1; simplify_eq; [done|]. f_equal. auto. Qed.

Lemma calculate_loop es : ∀ a0 a1 b0 b1 st,
  script (vsize a0) (vsize b0) a1 b1 es → calculated (a0 ++ a1) (b0 ++ b1) (vsize a0) (vsize b0) st →
  ∃ st' a0' b0' t, foldM (calculate_edit (b0 ++ b1) (vsize (a0 ++ a1))) es st = Ok st' ∧
    a0 ++ a1 = a0' ++ t ∧ b0 ++ b1 = b0' ++ t ∧ calculated (a0 ++ a1) (b0 ++ b1) (vsize a0') (vsize b0') st'.
Proof.
  induction es as [|e es IH]; intros a0 a1 b0 b1 st Hs Hc; cbn [foldM].
  - apply script_last in Hs as ->. exists st, a0, b0, b1. done.
  - destruct (script_first _ _ _ _ _ _ Hs) as (t & a2 & b2 & -> & -> & H).
    pose proof (advance_calculated a0 t a2 b0 b2 st Hc) as Hadv. cbv zeta in Hadv. pose proof Hc as [Ha Hb _ _ _ _ _].
    pose proof (vsize_nonneg a0). pose proof (vsize_nonneg b0). pose proof (vsize_nonneg t).
    set (st1 := advance st (vsize t)) in *. destruct H as [(x & a3 & -> & -> & Hs')|(y & b3 & -> & -> & Hs')].
    + set (st2 := Calc (a_pos st1 + 1) (b_pos st1) (prefix st1) (Extent (b_pos st1) 0 deleted :: extents st1) (suffix st1)).
      assert (∀ b l, calculate_edit b l st (-1 - (vsize a0 + vsize t)) = Ok st2) as ->.
      { intros b l. unfold calculate_edit. rewrite (proj2 (Z.ltb_lt _ _)) by lia. cbv zeta. rewrite Ha.
        by replace (-1 - (-1 - (vsize a0 + vsize t)) - vsize a0) with (vsize t) by lia. }
      assert (((a0 ++ t) ++ [x]) ++ a3 = a0 ++ t ++ x :: a3) as EA by (by rewrite <- !app_assoc).
      assert ((b0 ++ t) ++ b2 = b0 ++ t ++ b2) as EB by (by rewrite <- app_assoc).
      destruct (IH ((a0 ++ t) ++ [x]) a3 (b0 ++ t) b2 st2) as (st' & a0' & b0' & u & Hf & Hu & Hu' & Hc').
      { rewrite !vsize_app. done. }
      { rewrite EA, EB, (vsize_app (a0 ++ t)), (vsize_app b0). rewrite app_assoc in Hadv |- *. rewrite <- vsize_app in Hadv.
        by apply delete_calculated in Hadv. }
      rewrite EA, EB in *. exists st', a0', b0', u. done.
    + assert ((a0 ++ t) ++ a2 = a0 ++ t ++ a2) as EA by (by rewrite <- app_assoc).
      assert (((b0 ++ t) ++ [y]) ++ b3 = b0 ++ t ++ y :: b3) as EB by (by rewrite <- !app_assoc).
      assert ((b0 ++ t) ++ y :: b3 = b0 ++ t ++ y :: b3) as EB' by (by rewrite <- app_assoc).
      destruct (insert_calculated (a0 ++ t ++ a2) (b0 ++ t) y b3 (vsize a0 + vsize t) st1) as (st2 & Hc2 & Hr2);
        [|by rewrite EB', (vsize_app b0)|].
      { rewrite !vsize_app. pose proof (vsize_nonneg a2). lia. }
      rewrite EB' in Hr2, Hc2. destruct (IH (a0 ++ t) a2 ((b0 ++ t) ++ [y]) b3 st2) as (st' & a0' & b0' & u & Hf & Hu & Hu' & Hc').
      { rewrite !vsize_app. done. }
      { by rewrite EA, EB, (vsize_app a0), (vsize_app (b0 ++ t)). }
      assert (calculate_edit (b0 ++ t ++ y :: b3) (vsize (a0 ++ t ++ a2)) st (vsize b0 + vsize t + 1) = Ok st2) as ->.
      { unfold calculate_edit. rewrite (proj2 (Z.ltb_ge _ _)) by lia. cbv zeta. rewrite Hb.
        by replace (vsize b0 + vsize t + 1 - 1 - vsize b0) with (vsize t) by lia. }
      rewrite EA, EB in *. exists st', a0', b0', u. done.
Qed.

(** What a side becomes: lines before the first extent, extents, lines after the last. *)
Definition accounted (a b : list Z) (pre : list Z) (m : list extent) (suf : list Z) : Prop :=
  maps b a (vsize pre) m (vsize b - vsize suf) ∧
  pre = range b 0 (vsize pre) ∧ suf = range b (vsize b - vsize suf) (vsize b).

Lemma calculate_extents_spec a b es :
  script 0 0 a b es → ∃ pre m suf, calculate_extents es b (vsize a) = Ok (pre, m, suf) ∧ accounted a b pre m suf.
Proof.
  intros Hs. destruct (calculate_loop es [] a [] b (Calc 0 0 [] [] []) Hs) as (st & a0 & b0 & t & Hf & Ha & Hb & Hc).
  { split; cbn [a_pos b_pos prefix extents suffix]; try done; by left. }
  cbn [app] in *. unfold calculate_extents. rewrite Hf. cbn [mbind result_bind]. eexists _, _, _. split; [done|].
  pose proof (advance_calculated a0 t [] b0 [] st) as Hadv. cbv zeta in Hadv. rewrite app_nil_r, <- Ha, <- Hb in Hadv. specialize (Hadv Hc).
  destruct Hadv as [_ _ Hm Hp Hsu _ _].
  assert (vsize a = vsize a0 + vsize t ∧ vsize b = vsize b0 + vsize t) as [Hla Hlb] by (rewrite Ha, Hb, !vsize_app; done).
  assert (vsize (extents st) = vsize a0) as He.
  { eapply calc_size; [|exact Hc]. pose proof (vsize_nonneg a0). pose proof (vsize_nonneg t). lia. }
  unfold accounted, advance in *. cbn [prefix extents suffix] in *. rewrite Hla, Hlb, He.
  rewrite <- Hla, <- Hlb in Hm. rewrite <- Hlb in Hsu. replace (take _ a) with a in Hm by (unfold vsize; by rewrite Nat2Z.id, firstn_all).
  replace (vsize a0 + vsize t - vsize a0) with (vsize t) by lia. rewrite <- Hlb. done.
Qed.

(** ** Normalizing them *)

Lemma vec_at_lookup {A} (v : list A) i x : 0 ≤ i → v !! Z.to_nat i = Some x → vec_at v i = Ok x.
Proof. intros Hi Hx. unfold vec_at. by rewrite (proj2 (Z.ltb_ge _ _)), Hx by done. Qed.

Lemma vec_at_ok {A} (v : list A) i : 0 ≤ i < vsize v → ∃ x, v !! Z.to_nat i = Some x ∧ vec_at v i = Ok x.
Proof.
  unfold vsize. intros Hi. destruct (lookup_lt_is_Some_2 v (Z.to_nat i)) as [x Hx]; [lia|].
  exists x. split; [done|]. apply vec_at_lookup; [lia|done].
Qed.

Lemma vec_at_nat {A} (v1 : list A) x v2 n : length v1 = n → vec_at (v1 ++ x :: v2) (Z.of_nat n) = Ok x.
Proof. intros Hn. apply vec_at_lookup; [lia|]. rewrite Nat2Z.id. by apply list_lookup_middle. Qed.

Section normalize.
Context (a b : list Z) (p q : Z) (Hp : 0 ≤ p) (Hq : q ≤ vsize b).

(** Two neighbouring extents. *)
Lemma maps_pair m j :
  maps b a p m q → (S j < length m)%nat →
  ∃ a1 x' x a2 m1 e' e m2 r s, a = a1 ++ x' :: x :: a2 ∧ m = m1 ++ e' :: e :: m2 ∧ length a1 = j ∧ length m1 = j ∧
    p ≤ r ∧ s ≤ q ∧ maps b [x'; x] r [e'; e] s ∧
    (∀ f' f, maps b [x'; x] r [f'; f] s → maps b a p (m1 ++ f' :: f :: m2) q).
Proof using Type.
  intros Hm Hj. pose proof (maps_length _ _ _ _ _ Hm) as Hl.
  destruct (lookup_lt_is_Some_2 a j) as [x' Hx']; [lia|]. destruct (lookup_lt_is_Some_2 a (S j)) as [x Hx]; [lia|].
  pose proof (take_drop j a) as Htd. rewrite (drop_S a x' j), (drop_S a x (S j)) in Htd by done.
  set (a1 := take j a) in *. set (a2 := drop (S (S j)) a) in *.
  assert (length a1 = j) as Ha1 by (unfold a1; rewrite length_take; lia). rewrite <- Htd in Hm.
  change (a1 ++ x' :: x :: a2) with (a1 ++ [x'; x] ++ a2) in Hm.
  apply maps_app_inv in Hm as (m1 & m23 & r & -> & H1 & H2). apply maps_app_inv in H2 as (m2 & m3 & s & -> & H2 & H3).
  pose proof (maps_length _ _ _ _ _ H1). pose proof (maps_length _ _ _ _ _ H2) as Hl2.
  destruct m2 as [|e' [|e [|]]]; try done. exists a1, x', x, a2, m1, e', e, m3, r, s.
  pose proof (maps_le _ _ _ _ _ H1). pose proof (maps_le _ _ _ _ _ H3).
  split_and!; try done; [congruence|]. intros f' f Hf. rewrite <- Htd.
  change (a1 ++ x' :: x :: a2) with (a1 ++ [x'; x] ++ a2). change (m1 ++ f' :: f :: m3) with (m1 ++ [f'; f] ++ m3).
  eapply maps_app, maps_app; done.
Qed.

Lemma update_pair (m1 m2 : list extent) e' e f' f j :
  length m1 = j → <[S j := f]> (<[j := f']> (m1 ++ e' :: e :: m2)) = m1 ++ f' :: f :: m2.
Proof using Type.
  intros <-. rewrite insert_app_r_alt, Nat.sub_diag by done. cbn [insert list_insert].
  rewrite insert_app_r_alt by lia. by replace (S (length m1) - length m1)%nat with 1%nat by lia.
Qed.

Lemma shift_up_spec j : ∀ m,
  maps b a p m q → (j < length m)%nat → ∃ m', shift_up j m a b = Ok m' ∧ maps b a p m' q.
Proof using Hp Hq.
  induction j as [|j IH]; intros m Hm Hj; [by exists m|].
  destruct (maps_pair m j Hm Hj) as (a1 & x' & x & a2 & m1 & e' & e & m2 & r & s & HA & -> & Ha1 & Hm1 & Hr & Hs & Hpair & Hset).
  assert (vec_at a (Z.of_nat j) = Ok x') as Hx' by (rewrite HA; by apply vec_at_nat).
  assert (vec_at a (Z.of_nat (S j)) = Ok x) as Hx
    by (rewrite HA, (cons_middle x'), app_assoc; apply vec_at_nat; rewrite length_app; cbn; lia).
  cbn [shift_up]. rewrite (vec_at_nat m1 e' (e :: m2) j Hm1). cbn [mbind result_bind].
  rewrite (cons_middle e'), app_assoc, (vec_at_nat (m1 ++ [e']) e m2 (S j)) by (rewrite length_app; cbn; lia).
  rewrite <- app_assoc. cbn [mbind result_bind app]. cbn [maps] in Hpair.
  destruct (type e') eqn:Ht'; [|by exists (m1 ++ e' :: e :: m2)..].
  destruct (type e) eqn:Ht; [by exists (m1 ++ e' :: e :: m2)..|]. destruct_and? Hpair. cbn [andb bool_decide].
  rewrite Hx. cbn [mbind result_bind].
  destruct (vec_at_ok b (pos e + elen e - 1)) as (y & Hy & ->); [lia|]. cbn [mbind result_bind].
  destruct (Z.eqb_spec x y) as [<-|]; [|by exists (m1 ++ e' :: e :: m2)].
  rewrite Hx'. cbn [mbind result_bind].
  rewrite (vec_at_lookup b (pos e') x') by (lia || congruence). cbn [mbind result_bind]. rewrite Z.eqb_refl. cbn [I_ mbind result_bind].
  rewrite update_pair by done. apply IH.
  - apply Hset. cbn [maps type pos elen]. split_and!; [done|done|lia|done| |lia].
    replace (r + elen e) with (pos e + elen e - 1) by lia. done.
  - rewrite length_app in Hj |- *. cbn in *. lia.
Qed.

Lemma pull_back_spec j : ∀ m,
  maps b a p m q → (j < length m)%nat → ∃ m', pull_back j m a b = Ok m' ∧ maps b a p m' q.
Proof using Hp Hq.
  induction j as [|j IH]; intros m Hm Hj; [by exists m|].
  destruct (maps_pair m j Hm Hj) as (a1 & x' & x & a2 & m1 & e' & e & m2 & r & s & HA & -> & Ha1 & Hm1 & Hr & Hs & Hpair & Hset).
  assert (vec_at a (Z.of_nat j) = Ok x') as Hx' by (rewrite HA; by apply vec_at_nat).
  assert (vec_at a (Z.of_nat (S j)) = Ok x) as Hx
    by (rewrite HA, (cons_middle x'), app_assoc; apply vec_at_nat; rewrite length_app; cbn; lia).
  cbn [pull_back]. rewrite (vec_at_nat m1 e' (e :: m2) j Hm1).
  rewrite (cons_middle e'), app_assoc, (vec_at_nat (m1 ++ [e']) e m2 (S j)) by (rewrite length_app; cbn; lia).
  rewrite <- app_assoc. cbn [mbind result_bind app]. cbn [maps] in Hpair.
  destruct (type e) eqn:Ht; [by exists (m1 ++ e' :: e :: m2)..|].
  destruct (type e') eqn:Ht'; [by exists (m1 ++ e' :: e :: m2)..|]. destruct_and? Hpair. cbn [andb bool_decide].
  destruct ((1 <? elen e) && (pos e' + elen e' =? pos e)) eqn:Hc; [|rewrite <- andb_assoc, Hc; by exists (m1 ++ e' :: e :: m2)].
  rewrite <- andb_assoc, Hc. apply andb_true_iff in Hc as [Hc _]. cbn [andb].
  destruct (vec_at_ok b (pos e + (elen e - 1))) as (y & Hy & ->); [lia|]. cbn [mbind result_bind].
  rewrite Hx. cbn [mbind result_bind]. rewrite update_pair by done. apply IH.
  - apply Hset. cbn [maps type pos elen]. split_and!; [done|lia|].
    destruct (Z.eqb_spec y x) as [->|]; split_and!; try lia. replace (r + (elen e' + (elen e - 1))) with (pos e + (elen e - 1)) by lia. done.
  - rewrite length_app in Hj |- *. cbn in *. lia.
Qed.

Lemma pass_spec (pass : list extent → nat → result (list extent)) m :
  (∀ j m, maps b a p m q → (j < length m)%nat → ∃ m', pass m j = Ok m' ∧ maps b a p m' q) →
  maps b a p m q → ∃ m', foldM pass (seq 0 (length m)) m = Ok m' ∧ maps b a p m' q.
Proof using Type.
  clear Hp Hq. intros Hpass Hm. apply (foldM_ok (λ _ m, maps b a p m q)); [done|].
  intros l1 i l2 m1 Hl Hm1. apply Hpass; [done|]. rewrite (maps_length _ _ _ _ _ Hm1), <- (maps_length _ _ _ _ _ Hm).
  assert (i ∈ seq 0 (length m)) as Hi by (rewrite Hl; set_solver). apply elem_of_seq in Hi. lia.
Qed.

Lemma normalize_extents_spec m : maps b a p m q → ∃ m', normalize_extents m a b = Ok m' ∧ maps b a p m' q.
Proof using Hp Hq.
  intros Hm. unfold normalize_extents.
  destruct (pass_spec (λ m i, shift_up i m a b) m) as (m1 & -> & Hm1); [intros; by apply shift_up_spec|done|].
  cbn [mbind result_bind]. apply (pass_spec (λ m i, pull_back i m a b)); [intros; by apply pull_back_spec|done].
Qed.
End normalize.
