(* ===== verification/Merge3wayCorrect.v ===== *)
(** * The three-way merge is total, symmetric, and the identity on an unchanged side

    First for the lines as numbers, then for the lines themselves: interning
    is shown to be a renaming that the algorithm does not depend on. *)

From S2P Require Import Prelude Numbers Lcs LcsDistance LcsCompare LcsSplit LcsRange LcsCorrect LcsOrder Merge3way Merge3wayExtents.

(** ** One extent of each side *)

Lemma range_S v p x n :
  0 ≤ p → v !! Z.to_nat p = Some x → range v p (p + Z.of_nat (S n)) = x :: range v (p + 1) (p + 1 + Z.of_nat n).
Proof.
  intros Hp Hx. unfold range. replace (Z.to_nat (p + Z.of_nat (S n) - p)) with (S n) by lia.
  replace (Z.to_nat (p + 1 + Z.of_nat n - (p + 1))) with n by lia. replace (Z.to_nat (p + 1)) with (S (Z.to_nat p)) by lia.
  by rewrite (drop_S v x (Z.to_nat p)).
Qed.

Lemma copy_lines_spec v n : ∀ p, 0 ≤ p → p + Z.of_nat n ≤ vsize v → copy_lines n v p = Ok (range v p (p + Z.of_nat n)).
Proof.
  induction n as [|n IH]; intros p Hp Hle; cbn [copy_lines]; [by rewrite range_nil by lia|].
  destruct (vec_at_ok v p) as (x & Hx & ->); [lia|]. cbn [mbind result_bind]. rewrite IH by lia. cbn [mbind result_bind].
  by rewrite (range_S v p x).
Qed.

Lemma same_lines_sym n b c : ∀ p q, same_lines n b c p q = same_lines n c b q p.
Proof.
  induction n as [|n IH]; intros p q; [done|]. cbn [same_lines].
  assert (∀ (v : list Z) i, (∃ x, vec_at v i = Ok x) ∨ vec_at v i = Err StdException) as Hat.
  { intros v i. unfold vec_at. destruct (i <? 0); [by right|]. destruct (v !! Z.to_nat i); eauto. }
  destruct (Hat b p) as [[x Hx]|Hx], (Hat c q) as [[y Hy]|Hy]; rewrite Hx, Hy; try done. cbn [mbind result_bind].
  rewrite (Z.eqb_sym y x), IH. destruct (Z.eqb_spec x y); [by subst|done].
Qed.

Lemma same_lines_ok b c n : ∀ p q,
  0 ≤ p → p + Z.of_nat n ≤ vsize b → 0 ≤ q → q + Z.of_nat n ≤ vsize c →
  same_lines n b c p q = Ok None ∨
  (same_lines n b c p q = Ok (Some (range b p (p + Z.of_nat n))) ∧ range b p (p + Z.of_nat n) = range c q (q + Z.of_nat n)).
Proof.
  induction n as [|n IH]; intros p q Hp Hb Hq Hc; cbn [same_lines]; [right; by rewrite !range_nil by lia|].
  destruct (vec_at_ok b p) as (x & Hx & ->); [lia|]. destruct (vec_at_ok c q) as (y & Hy & ->); [lia|]. cbn [mbind result_bind].
  rewrite (range_S b p x), (range_S c q y) by done. destruct (Z.eqb_spec x y) as [->|]; [|by left].
  destruct (IH (p + 1) (q + 1)) as [->|[-> ->]]; [lia..|by left|by right].
Qed.

(** An extent whose lines are in [b]. *)
Definition fits (b : list Z) (e : extent) : Prop :=
  type e ≠ deleted → 0 ≤ pos e ∧ 0 ≤ elen e ∧ pos e + elen e ≤ vsize b.

(** Its lines. *)
Definition lines_of (b : list Z) (e : extent) : list Z :=
  if decide (type e = deleted) then [] else range b (pos e) (pos e + elen e).

(** Decide the tests on known types. *)
Ltac decide_types :=
  repeat (rewrite bool_decide_eq_true_2 by done); repeat (rewrite bool_decide_eq_false_2 by done); cbn [andb orb].

Lemma merge_extent_sym b c i j : merge_extent b c i j = merge_extent c b j i.
Proof.
  unfold merge_extent. rewrite (Z.eqb_sym (elen j)).
  destruct (type i), (type j); cbn; try done; destruct (Z.eqb_spec (elen i) (elen j)) as [->|]; try done; apply same_lines_sym.
Qed.

Lemma merge_extent_ok b c i j :
  fits b i → fits c j →
  merge_extent b c i j = Ok None ∨ merge_extent b c i j = Ok (Some []) ∨
  merge_extent b c i j = Ok (Some (lines_of b i)) ∨ merge_extent b c i j = Ok (Some (lines_of c j)).
Proof.
  intros Hi Hj. unfold merge_extent, lines_of, fits in *.
  destruct (type i) eqn:Ti, (type j) eqn:Tj; decide_types; auto.
  all: try specialize (Hi ltac:(done)); try specialize (Hj ltac:(done)).
  all: try (destruct (Z.eqb_spec (elen i) (elen j)); [|by auto]).
  1,4: destruct (same_lines_ok b c (Z.to_nat (elen i)) (pos i) (pos j)) as [->|[-> _]]; [lia..|by auto|];
    rewrite Z2Nat.id by lia; rewrite decide_False by done; by auto.
  all: rewrite copy_lines_spec, Z2Nat.id by lia; rewrite decide_False by done; cbn [fmap result_fmap]; auto.
Qed.

Lemma maps_head b x a p e m q :
  0 ≤ p → q ≤ vsize b → maps b (x :: a) p (e :: m) q →
  fits b e ∧ ∃ p', p ≤ p' ∧ maps b a p' m q ∧ lines_of b e = range b p p'.
Proof.
  intros Hp Hq Hm. cbn [maps] in Hm. unfold fits, lines_of. destruct (type e) eqn:Ht.
  - destruct Hm as (? & ? & ? & Hm). pose proof (maps_le _ _ _ _ _ Hm). split; [lia|]. exists (p + 1).
    rewrite decide_False by done. split_and!; [lia|done|]. f_equal; lia.
  - destruct Hm as [? Hm]. split; [done|]. exists p. rewrite decide_True, range_nil by (done || lia). split_and!; [lia|done..].
  - destruct Hm as (? & ? & Hm). pose proof (maps_le _ _ _ _ _ Hm). split; [lia|]. exists (p + elen e).
    rewrite decide_False by done. split_and!; [lia|done|]. f_equal; lia.
Qed.

(** ** All of them *)

Lemma merge_loop_sym b c m : ∀ m', length m = length m' → merge_extents_loop b c m m' = merge_extents_loop c b m' m.
Proof.
  induction m as [|i m IH]; intros [|j m'] Hl; try done. cbn [merge_extents_loop].
  rewrite merge_extent_sym. destruct (merge_extent c b j i) as [[l|]|]; try done. cbn [mbind result_bind]. rewrite IH; [done|].
  cbn in Hl. congruence.
Qed.

Lemma merge_loop_ok b c a : ∀ p m q p' m' q',
  maps b a p m q → maps c a p' m' q' → 0 ≤ p → q ≤ vsize b → 0 ≤ p' → q' ≤ vsize c →
  ∃ r, merge_extents_loop b c m m' = Ok r ∧ ∀ l x, r = Some l → x ∈ l → x ∈ b ∨ x ∈ c.
Proof.
  assert (∀ v s e x, x ∈ range v s e → x ∈ v) as Hrange.
  { intros v s e x Hx. unfold range in Hx.
    apply list_elem_of_lookup in Hx as [k Hk]. apply lookup_take_Some in Hk as [Hk _]. rewrite lookup_drop in Hk.
    by eapply list_elem_of_lookup_2. }
  induction a as [|y a IH]; intros p m q p' m' q' Hm Hm' Hp Hq Hp' Hq'.
  - destruct m, m'; try done. exists (Some []). split; [done|]. intros l x [= <-] Hx. by apply elem_of_nil in Hx.
  - destruct m as [|i m]; [done|]. destruct m' as [|j m']; [done|].
    destruct (maps_head _ _ _ _ _ _ _ Hp Hq Hm) as (Hi & r & Hr & Hmr & _).
    destruct (maps_head _ _ _ _ _ _ _ Hp' Hq' Hm') as (Hj & r' & Hr' & Hmr' & _).
    destruct (IH r m q r' m' q' Hmr Hmr') as (res & Hres & Hfrom); [lia..|]. cbn [merge_extents_loop].
    assert (∀ v e x, x ∈ lines_of v e → x ∈ v) as Hlines.
    { intros v e x Hx. unfold lines_of in Hx. case_decide; [by apply elem_of_nil in Hx|]. by eapply Hrange. }
    destruct (merge_extent_ok b c i j Hi Hj) as [E|[E|[E|E]]]; rewrite E; cbn [mbind result_bind]; [by exists None|..].
    all: rewrite Hres; cbn [mbind result_bind]; eexists; split; [done|]; destruct res as [rest|]; [|done].
    all: intros l x [= <-] Hx; try (apply elem_of_app in Hx as [Hx|Hx]; [by eauto|]); by eapply Hfrom.
Qed.

(** A side with every line preserved changes nothing. *)
Lemma merge_extent_left b c x p e p' e' q :
  0 ≤ p → p' + 1 ≤ vsize c → 0 ≤ p' → type e' = preserved →
  maps b [x] p [e] q → q ≤ vsize b → maps c [x] p' [e'] (p' + 1) → merge_extent b c e e' = Ok (Some (lines_of b e)).
Proof.
  intros Hp Hc Hp' Ht' Hm Hq Hm'. cbn [maps] in Hm, Hm'. rewrite Ht' in Hm'. destruct Hm' as (Hpos' & Hlen' & Hx' & _).
  unfold merge_extent, lines_of. rewrite Ht'. destruct (type e) eqn:Ht; decide_types; destruct_and? Hm; [|done|].
  - rewrite (proj2 (Z.eqb_eq _ _)) by lia. rewrite decide_False by done.
    replace (elen e) with 1 by lia. change (Z.to_nat 1) with 1%nat. cbn [same_lines].
    rewrite (vec_at_lookup b (pos e) x), (vec_at_lookup c (pos e') x) by (lia || congruence). cbn [mbind result_bind]. rewrite Z.eqb_refl.
    cbn [mbind result_bind]. destruct (range_one b p) as (y & Hy & Hr); [lia|]. subst p. rewrite Hr. do 3 f_equal.
    unfold sub_at, whole in Hy. cbn [start end_ vec base] in Hy. rewrite (proj2 (Z.ltb_ge _ _)) in Hy by apply vsize_nonneg.
    rewrite (peek_lookup b (0 + (0 + pos e)) x) in Hy by (lia || done). congruence.
  - rewrite copy_lines_spec, Z2Nat.id by lia. by rewrite decide_False by done.
Qed.

Lemma merge_loop_left b c a : ∀ p m q p' m' q',
  0 ≤ p → q ≤ vsize b → 0 ≤ p' → q' ≤ vsize c → maps b a p m q → maps c a p' m' q' → Forall (λ e, type e = preserved) m' →
  merge_extents_loop b c m m' = Ok (Some (range b p q)).
Proof.
  induction a as [|y a IH]; intros p m q p' m' q' Hp Hq Hp' Hq' Hm Hm' Hpre.
  - destruct m, m'; try done. cbn [maps] in Hm. by rewrite range_nil by lia.
  - destruct m as [|i m]; [done|]. destruct m' as [|j m']; [done|]. apply Forall_cons in Hpre as [Hj Hpre].
    destruct (maps_head _ _ _ _ _ _ _ Hp Hq Hm) as (_ & r & Hr & Hmr & Hlines). pose proof (maps_le _ _ _ _ _ Hmr).
    pose proof Hm' as Hm2. cbn [maps] in Hm2. rewrite Hj in Hm2. destruct Hm2 as (H1 & H2 & H3 & Hmr').
    pose proof (maps_le _ _ _ _ _ Hmr'). cbn [merge_extents_loop].
    assert (∃ r1, maps b [y] p [i] r1 ∧ r1 ≤ q) as (r1 & Hone & Hle).
    { cbn [maps] in Hm |- *. destruct (type i); destruct_and? Hm; eexists; (split; [split_and!; try done|]); eauto using maps_le. }
    rewrite (merge_extent_left b c y p i p' j r1); [|lia|lia|lia|done|done|lia|cbn [maps]; by rewrite Hj].
    cbn [mbind result_bind]. rewrite (IH r m q (p' + 1) m' q') by (lia || done). cbn [mbind result_bind].
    by rewrite Hlines, <- (range_app b p r q) by lia.
Qed.

(** ** Interned lines *)

(** What [merge_via_edit_scripts] does with one side. *)
Definition side (a b : list Z) : result (list Z * list extent * list Z) :=
  edits ← edit_script a b;
  '(pre, m, suf) ← calculate_extents edits b (vsize a);
  m ← normalize_extents m a b;
  Ok (pre, m, suf).

Lemma accounted_bounds a b pre m suf : accounted a b pre m suf →
  0 ≤ vsize pre ∧ vsize b - vsize suf ≤ vsize b ∧ vsize pre ≤ vsize b - vsize suf.
Proof.
  intros (Hm & _). pose proof (maps_le _ _ _ _ _ Hm). pose proof (vsize_nonneg pre). pose proof (vsize_nonneg suf). lia.
Qed.

Lemma side_spec a b : ∃ pre m suf, side a b = Ok (pre, m, suf) ∧ accounted a b pre m suf.
Proof.
  unfold side. destruct (edit_script_spec a b) as (es & -> & Hs & _). cbn [mbind result_bind].
  destruct (calculate_extents_spec a b es Hs) as (pre & m & suf & -> & Hacc). cbn [mbind result_bind].
  pose proof (accounted_bounds _ _ _ _ _ Hacc). destruct Hacc as (Hm & Hp & Hs').
  destruct (normalize_extents_spec a b (vsize pre) (vsize b - vsize suf)) with (m := m) as (m' & -> & Hm'); [lia..|done|].
  exists pre, m', suf. done.
Qed.

Definition joined (lp : list Z) (ls rp rs : list Z) (merged : option (list Z)) : option (list Z) :=
  if negb (bool_decide (rp = [])) && negb (bool_decide (lp = [])) then None
  else if negb (bool_decide (rs = [])) && negb (bool_decide (ls = [])) then None
  else match merged with Some merged => Some (lp ++ rp ++ merged ++ ls ++ rs) | None => None end.

(** A conflict, or the prefixes, the merged extents and the suffixes. *)
Lemma merge_interned_sides a l r lp lm ls rp rm rs merged :
  side a l = Ok (lp, lm, ls) → side a r = Ok (rp, rm, rs) → length lm = length rm →
  merge_extents_loop l r lm rm = Ok merged → merge_interned a l r = Ok (joined lp ls rp rs merged).
Proof.
  unfold side. intros HL HR Hlen Hm. apply bind_Ok_inv in HL as (le & El & HL), HR as (re & Er & HR).
  apply bind_Ok_inv in HL as ([[lp1 lm1] ls1] & Cl & HL). apply bind_Ok_inv in HL as (lm2 & Nl & HL).
  apply bind_Ok_inv in HR as ([[rp1 rm1] rs1] & Cr & HR). apply bind_Ok_inv in HR as (rm2 & Nr & HR). simplify_eq.
  unfold merge_interned. rewrite El. cbn [mbind result_bind]. rewrite Er. cbn [mbind result_bind].
  rewrite Cl. cbn [mbind result_bind]. rewrite Cr. cbn [mbind result_bind]. rewrite Nr. cbn [mbind result_bind].
  rewrite Nl. cbn [mbind result_bind]. unfold joined, merge_extents.
  rewrite (proj2 (Z.eqb_eq (vsize lm) (vsize rm))) by (unfold vsize; lia). cbn [I_ mbind result_bind]. rewrite Hm.
  by repeat case_match.
Qed.

Lemma accounted_length a b pre m suf : accounted a b pre m suf → length m = length a.
Proof. intros [Hm _]. by eapply maps_length. Qed.

(** It is total, and every line it returns is one of a side's. *)
Lemma merge_interned_ok a l r :
  ∃ m, merge_interned a l r = Ok m ∧ ∀ ls x, m = Some ls → x ∈ ls → x ∈ l ∨ x ∈ r.
Proof.
  destruct (side_spec a l) as (lp & lm & ls & HL & Al). destruct (side_spec a r) as (rp & rm & rs & HR & Ar).
  pose proof (accounted_length _ _ _ _ _ Al). pose proof (accounted_length _ _ _ _ _ Ar).
  pose proof (accounted_bounds _ _ _ _ _ Al). pose proof (accounted_bounds _ _ _ _ _ Ar).
  destruct Al as (Ml & Pl & Sl). destruct Ar as (Mr & Pr & Sr).
  destruct (merge_loop_ok l r a _ _ _ _ _ _ Ml Mr) as (merged & Hm & Hfrom); [lia..|].
  exists (joined lp ls rp rs merged). split; [eapply merge_interned_sides; [exact HL|exact HR|congruence|exact Hm]|].
  assert (∀ v s e x, x ∈ range v s e → x ∈ v) as Hrange.
  { intros v s e x Hx. unfold range in Hx. apply list_elem_of_lookup in Hx as [k Hk]. apply lookup_take_Some in Hk as [Hk _].
    rewrite lookup_drop in Hk. by eapply list_elem_of_lookup_2. }
  intros out x Hout Hx. unfold joined in Hout. repeat case_match; simplify_eq. rewrite !elem_of_app in Hx.
  rewrite Pl, Pr, Sl, Sr in Hx. naive_solver.
Qed.

Lemma app_one_empty (l k : list Z) : negb (bool_decide (k = [])) && negb (bool_decide (l = [])) = false → l ++ k = k ++ l.
Proof. repeat case_bool_decide; subst; intros; rewrite ?app_nil_r; done. Qed.

Lemma merge_interned_sym a l r : merge_interned a l r = merge_interned a r l.
Proof.
  destruct (side_spec a l) as (lp & lm & ls & HL & Al). destruct (side_spec a r) as (rp & rm & rs & HR & Ar).
  pose proof (accounted_length _ _ _ _ _ Al). pose proof (accounted_length _ _ _ _ _ Ar).
  pose proof (accounted_bounds _ _ _ _ _ Al). pose proof (accounted_bounds _ _ _ _ _ Ar).
  destruct (merge_loop_ok l r a _ _ _ _ _ _ (proj1 Al) (proj1 Ar)) as (merged & Hm & _); [lia..|].
  rewrite (merge_interned_sides a l r lp lm ls rp rm rs merged) by (done || congruence).
  rewrite (merge_interned_sides a r l rp rm rs lp lm ls merged); [|done|done|congruence|rewrite <- merge_loop_sym; [done|congruence]].
  f_equal. unfold joined. rewrite (andb_comm (negb (bool_decide (lp = [])))), (andb_comm (negb (bool_decide (ls = [])))).
  destruct (negb (bool_decide (rp = [])) && negb (bool_decide (lp = []))) eqn:Hp; [done|].
  destruct (negb (bool_decide (rs = [])) && negb (bool_decide (ls = []))) eqn:Hs; [done|].
  destruct merged as [m|]; [|done]. f_equal. rewrite (app_assoc lp), (app_assoc rp), (app_one_empty lp rp), (app_one_empty ls rs); done.
Qed.

(** The side that is the ancestor itself. *)
Lemma preserved_at m j : Forall (λ e, type e = preserved) m → (j < length m)%nat →
  ∃ e, vec_at m (Z.of_nat j) = Ok e ∧ type e = preserved.
Proof.
  intros Hm Hj. destruct (vec_at_ok m (Z.of_nat j)) as (e & He & Hat); [unfold vsize; lia|].
  exists e. split; [done|]. by apply (Forall_lookup_1 _ _ _ _ Hm He).
Qed.

Lemma normalize_preserved m a b : Forall (λ e, type e = preserved) m → normalize_extents m a b = Ok m.
Proof.
  intros Hm. assert (∀ (pass : list extent → nat → result (list extent)),
    (∀ j, (j < length m)%nat → pass m j = Ok m) → foldM pass (seq 0 (length m)) m = Ok m) as Hid.
  { intros pass Hpass. destruct (foldM_ok (λ _ m', m' = m) pass (seq 0 (length m)) m) as (m' & Hf & ->); [done| |done].
    intros l1 j l2 m1 Hl ->. exists m. split; [|done]. apply Hpass.
    assert (j ∈ seq 0 (length m)) as Hj by (rewrite Hl; set_solver). apply elem_of_seq in Hj. lia. }
  unfold normalize_extents. rewrite Hid; cbn [mbind result_bind]; [apply Hid|]; intros [|j] Hj; cbn [shift_up pull_back]; try done.
  all: destruct (preserved_at m j Hm ltac:(lia)) as (e' & -> & Ht'); destruct (preserved_at m (S j) Hm Hj) as (e & -> & Ht).
  all: cbn [mbind result_bind]; by rewrite Ht, Ht'.
Qed.

Lemma side_same a : ∃ m, side a a = Ok ([], m, []) ∧ maps a a 0 m (vsize a) ∧ Forall (λ e, type e = preserved) m.
Proof.
  unfold side. destruct (edit_script_spec a a) as (es & -> & Hs & Hl). cbn [mbind result_bind].
  pose proof (script_length 0 0 a a [] (script_refl 0 0 a)) as Hmin. change (vsize []) with 0 in Hmin.
  pose proof (vsize_nonneg es). assert (es = []) as -> by (apply vsize_0; lia).
  assert (Forall (λ e, type e = preserved) (fillers (length a) 0)) as Hpre by (unfold fillers; apply Forall_fmap, Forall_true; done).
  unfold calculate_extents. cbn [foldM mbind result_bind prefix extents suffix b_pos]. change (vsize []) with 0. rewrite Z.sub_0_r.
  rewrite fill_fillers. change (reverse []) with (@nil extent). cbn [app]. replace (Z.to_nat (vsize a)) with (length a) by (unfold vsize; lia).
  rewrite normalize_preserved by done. exists (fillers (length a) 0). split_and!; [done| |done].
  eapply (fillers_maps a a 0 [] []); [by rewrite app_nil_r|done].
Qed.

Lemma merge_interned_unchanged a l : merge_interned a l a = Ok (Some l).
Proof.
  destruct (side_spec a l) as (lp & lm & ls & HL & Al). destruct (side_same a) as (m & HR & Hm & Hpre).
  pose proof (accounted_length _ _ _ _ _ Al). pose proof (maps_length _ _ _ _ _ Hm). pose proof (accounted_bounds _ _ _ _ _ Al).
  destruct Al as (Ml & Pl & Sl).
  rewrite (merge_interned_sides a l a lp lm ls [] m [] (Some (range l (vsize lp) (vsize l - vsize ls)))); [|done|done|congruence|].
  - unfold joined. cbn [bool_decide negb andb]. do 2 f_equal. rewrite app_nil_r. cbn [app]. rewrite Pl at 1. rewrite Sl at 2.
    rewrite <- (range_app l (vsize lp)), <- (range_app l 0), range_whole by lia. done.
  - eapply merge_loop_left; [..|exact Ml|exact Hm|done]; lia.
Qed.
