(* ===== verification/Merge3wayRename.v ===== *)
(** * The merge does not depend on how lines are numbered

    [edit_script] and the steps of the merge only compare elements, so that
    an injective renaming of the elements renames the result and changes
    nothing else. *)

From S2P Require Import Prelude Numbers Lcs LcsDistance LcsCompare LcsSplit LcsRange LcsCorrect LcsOrder Merge3way Merge3wayExtents Merge3wayCorrect.

Lemma bind_ext {A B} (m : result A) (f g : A → result B) : (∀ x, f x = g x) → m ≫= f = m ≫= g.
Proof. intros H. destruct m; [apply H|done]. Qed.

Lemma foldM_ext {A S} (f g : S → A → result S) l s : (∀ s x, f s x = g s x) → foldM f l s = foldM g l s.
Proof. intros H. revert s. induction l as [|x l IH]; intros s; cbn [foldM]; [done|]. rewrite H. by apply bind_ext. Qed.

Section rename.
Context (f : Z → Z) `{!Inj (=) (=) f}.

Lemma eqb_rename x y : (f x =? f y) = (x =? y).
Proof using Type*. destruct (Z.eqb_spec x y) as [->|Hne]; [apply Z.eqb_refl|]. apply Z.eqb_neq. intros ?%(inj f). done. Qed.

(** ** Edit scripts *)

Definition renamed (s : subarray) : subarray := Subarray (f <$> vec s) (base s) (start s) (end_ s).

Lemma sub_at_rename s i : sub_at (renamed s) i = f <$> sub_at s i.
Proof using Type.
  assert (∀ v k, vec_get (f <$> v) k = f <$> vec_get v k) as Hpeek.
  { intros v k. unfold vec_get. destruct (k <? 0); [done|]. rewrite list_lookup_fmap. by destruct (v !! Z.to_nat k). }
  unfold sub_at, renamed. cbn [vec base start end_]. rewrite !Hpeek. by destruct (end_ s <? start s).
Qed.

(** Comparing two elements. *)
Lemma compare_rename {B} a b i j (g : bool → result B) :
  (x ← sub_at (renamed a) i; y ← sub_at (renamed b) j; g (x =? y)) = (x ← sub_at a i; y ← sub_at b j; g (x =? y)).
Proof using Type*.
  rewrite !sub_at_rename. destruct (sub_at a i) as [x|]; [|done]. destruct (sub_at b j) as [y|]; [|done].
  cbn [fmap result_fmap mbind result_bind]. by rewrite eqb_rename.
Qed.

Lemma same_at_rename a b x y la lb : same_at (renamed a) (renamed b) x y la lb = same_at a b x y la lb.
Proof using Type*. unfold same_at. destruct ((x <? la) && (y <? lb)); [|done]. by rewrite (compare_rename a b x y Ok). Qed.

Lemma run_loop_rename fuel a la b lb cost : ∀ x y CC,
  run_loop fuel (renamed a) la (renamed b) lb cost x y CC = run_loop fuel a la b lb cost x y CC.
Proof using Type*.
  induction fuel as [|fuel IH]; intros x y CC; cbn [run_loop]; apply bind_ext; intros CC'; rewrite same_at_rename; [done|].
  apply bind_ext. intros []; [apply IH|done].
Qed.

Lemma run_rename fp k a la b lb CC p : run fp k (renamed a) la (renamed b) lb CC p = run fp k a la b lb CC p.
Proof using Type*.
  unfold run. apply bind_ext. intros l. apply bind_ext. intros r. cbv zeta. apply bind_ext. intros _. apply bind_ext. intros _.
  by rewrite run_loop_rename.
Qed.

Lemma sweep_rename a la b lb p ks st : sweep (renamed a) la (renamed b) lb p ks st = sweep a la b lb p ks st.
Proof using Type*. unfold sweep. apply foldM_ext. intros [fp costs] k. by rewrite run_rename. Qed.

Lemma compare_loop_rename a la b lb n full : ∀ p fp costs,
  compare_loop (renamed a) la (renamed b) lb n full p fp costs = compare_loop a la b lb n full p fp costs.
Proof using Type*.
  induction n as [|n IH]; intros p fp costs; cbn [compare_loop]; [done|]. cbv zeta. rewrite sweep_rename.
  apply bind_ext. intros st. rewrite sweep_rename. apply bind_ext. intros [w c]. rewrite run_rename.
  apply bind_ext. intros [[y w'] c']. by destruct (negb full && (lb <=? y)).
Qed.

Lemma compare_renamed a la b lb costs p_lim full :
  compare (renamed a) la (renamed b) lb costs p_lim full = compare a la b lb costs p_lim full.
Proof using Type*. unfold compare. apply bind_ext. intros fp. by rewrite compare_loop_rename. Qed.

(** A call that does not see the renaming. *)
Definition blind (rec : diff_call) : Prop :=
  ∀ a sa ea b sb eb edits edx pol p,
    rec (renamed a) sa ea (renamed b) sb eb edits edx pol p = rec a sa ea b sb eb edits edx pol p.

Lemma subset_rename s x y : subset (renamed s) x y = renamed (subset s x y).
Proof using Type. done. Qed.

Lemma bounds_rename a sa ea b sb eb : check_bounds (renamed a) sa ea (renamed b) sb eb = check_bounds a sa ea b sb eb.
Proof using Type. done. Qed.

Lemma divide_rename rec : blind rec → blind (divide_and_conquer rec).
Proof using Type*.
  intros Hrec a sa ea b sb eb edits edx pol p. unfold divide_and_conquer. cbv zeta. rewrite bounds_rename, !subset_rename, !compare_renamed.
  apply bind_ext. intros _. apply bind_ext. intros [_ cc]. apply bind_ext. intros [_ rr]. apply bind_ext. intros s.
  apply bind_ext. intros c. apply bind_ext. intros r. rewrite Hrec. apply bind_ext. intros [c' edits'].
  apply bind_ext. intros _. by rewrite Hrec.
Qed.

Lemma inserts_only_rename fuel a b ea eb pol : ∀ adx bdx edx edits,
  inserts_only fuel (renamed a) (renamed b) ea eb pol adx bdx edx edits = inserts_only fuel a b ea eb pol adx bdx edx edits.
Proof using Type*.
  induction fuel as [|fuel IH]; intros adx bdx edx edits; cbn [inserts_only];
    destruct (eb <=? bdx); try done; destruct (ea <=? adx); try done.
  - rewrite !sub_at_rename. by destruct (sub_at a adx), (sub_at b bdx).
  - rewrite (compare_rename a b adx bdx (λ same, if same then inserts_only fuel (renamed a) (renamed b) ea eb pol (adx + 1) (bdx + 1) edx edits
      else edits ← vec_set edits edx (pol * (bdx + 1)); inserts_only fuel (renamed a) (renamed b) ea eb pol adx (bdx + 1) (edx + 1) edits)).
    apply bind_ext. intros x. apply bind_ext. intros y. destruct (x =? y); [apply IH|]. apply bind_ext. intros. apply IH.
Qed.

Lemma ez_rename rec : blind rec → blind (diff_to_ez rec).
Proof using Type*.
  intros Hrec a sa ea b sb eb edits edx pol p. unfold diff_to_ez. rewrite bounds_rename. apply bind_ext. intros _. cbv zeta.
  apply bind_ext. intros _. rewrite inserts_only_rename, divide_rename by done. done.
Qed.

Lemma trim_suffix_rename fuel a b sa sb : ∀ la lb,
  trim_suffix fuel (renamed a) (renamed b) sa sb la lb = trim_suffix fuel a b sa sb la lb.
Proof using Type*.
  induction fuel as [|fuel IH]; intros la lb; cbn [trim_suffix]; destruct ((sb <=? lb) && (sa <=? la)); try done.
  - by rewrite (compare_rename a b la lb (λ same, if same then Err invariant_failure else Ok (la, lb))).
  - rewrite (compare_rename a b la lb (λ same, if same then trim_suffix fuel (renamed a) (renamed b) sa sb (la - 1) (lb - 1) else Ok (la, lb))).
    apply bind_ext. intros x. apply bind_ext. intros y. destruct (x =? y); [apply IH|done].
Qed.

Lemma trim_prefix_rename fuel a b la lb : ∀ sa sb,
  trim_prefix fuel (renamed a) (renamed b) sa sb la lb = trim_prefix fuel a b sa sb la lb.
Proof using Type*.
  induction fuel as [|fuel IH]; intros sa sb; cbn [trim_prefix]; destruct ((sb <? lb) && (sa <? la)); try done.
  - by rewrite (compare_rename a b sa sb (λ same, if same then Err invariant_failure else Ok (sa, sb))).
  - rewrite (compare_rename a b sa sb (λ same, if same then trim_prefix fuel (renamed a) (renamed b) (sa + 1) (sb + 1) la lb else Ok (sa, sb))).
    apply bind_ext. intros x. apply bind_ext. intros y. destruct (x =? y); [apply IH|done].
Qed.

Lemma et_rename fuel : blind (diff_to_et fuel).
Proof using Type*.
  induction fuel as [|fuel IH]; intros a sa ea b sb eb edits edx pol p; cbn [diff_to_et]; [done|]. rewrite bounds_rename.
  apply bind_ext. intros _. apply bind_ext. intros _. rewrite trim_suffix_rename. apply bind_ext. intros [la lb].
  rewrite trim_prefix_rename. apply bind_ext. intros [na nb]. cbv zeta. by rewrite !ez_rename by done.
Qed.

Lemma vsize_rename {A B} (g : A → B) l : vsize (g <$> l) = vsize l.
Proof using Type. unfold vsize. by rewrite length_fmap. Qed.

Lemma whole_rename v : whole (f <$> v) = renamed (whole v).
Proof using Type. unfold whole, renamed. cbn [vec base start end_]. by rewrite vsize_rename. Qed.

Lemma diff_to_edits_rename a la b lb : diff_to_edits (renamed a) la (renamed b) lb = diff_to_edits a la b lb.
Proof using Type*.
  unfold diff_to_edits. apply bind_ext. intros _. rewrite compare_renamed. apply bind_ext. intros [d CC]. by rewrite et_rename.
Qed.

Lemma edit_script_rename a b : edit_script (f <$> a) (f <$> b) = edit_script a b.
Proof using Type*. unfold edit_script. by rewrite !vsize_rename, !whole_rename, !diff_to_edits_rename. Qed.

(** ** Extents *)

Lemma vec_at_rename v i : vec_at (f <$> v) i = f <$> vec_at v i.
Proof using Type. unfold vec_at. destruct (i <? 0); [done|]. rewrite list_lookup_fmap. by destruct (v !! Z.to_nat i). Qed.

Definition renamed_calc (st : calc) : calc := Calc (a_pos st) (b_pos st) (f <$> prefix st) (extents st) (f <$> suffix st).

Lemma calculate_edit_rename b la st e :
  calculate_edit (f <$> b) la (renamed_calc st) e = renamed_calc <$> calculate_edit b la st e.
Proof using Type.
  unfold calculate_edit, advance, renamed_calc. cbn [a_pos b_pos prefix extents suffix]. rewrite vsize_rename.
  destruct (e <? 0); [done|]. case_match.
  - rewrite vec_at_rename. destruct (vec_at b _); [|done]. cbn. by rewrite fmap_app.
  - case_match.
    + rewrite vec_at_rename. destruct (vec_at b _); [|done]. cbn. by rewrite fmap_app.
    + by destruct (fill _ _ _).
Qed.

Definition renamed_extents (x : list Z * list extent * list Z) : list Z * list extent * list Z :=
  (f <$> x.1.1, x.1.2, f <$> x.2).

Lemma calculate_extents_rename es b la :
  calculate_extents es (f <$> b) la = renamed_extents <$> calculate_extents es b la.
Proof using Type.
  unfold calculate_extents. change (Calc 0 0 [] [] []) with (renamed_calc (Calc 0 0 [] [] [])) at 1.
  assert (∀ st, foldM (calculate_edit (f <$> b) la) es (renamed_calc st) = renamed_calc <$> foldM (calculate_edit b la) es st) as ->.
  { induction es as [|e es IH]; intros st; cbn [foldM]; [done|]. rewrite calculate_edit_rename. destruct (calculate_edit b la st e); [|done].
    apply IH. }
  by destruct (foldM _ _ _).
Qed.

Lemma shift_up_rename j a b : ∀ m, shift_up j m (f <$> a) (f <$> b) = shift_up j m a b.
Proof using Type*.
  induction j as [|j IH]; intros m; cbn [shift_up]; [done|]. apply bind_ext. intros e'. apply bind_ext. intros e. case_match; [|done].
  rewrite !vec_at_rename. destruct (vec_at a (Z.of_nat (S j))) as [x|]; [|done]. destruct (vec_at b (pos e + elen e - 1)) as [y|]; [|done].
  cbn [fmap result_fmap mbind result_bind]. rewrite eqb_rename. destruct (x =? y); [|done].
  destruct (vec_at a (Z.of_nat j)) as [x'|]; [|done]. destruct (vec_at b (pos e')) as [y'|]; [|done].
  cbn [fmap result_fmap mbind result_bind]. rewrite eqb_rename. apply bind_ext. intros _. apply IH.
Qed.

Lemma pull_back_rename j a b : ∀ m, pull_back j m (f <$> a) (f <$> b) = pull_back j m a b.
Proof using Type*.
  induction j as [|j IH]; intros m; cbn [pull_back]; [done|]. apply bind_ext. intros e. apply bind_ext. intros e'. case_match; [|done].
  cbv zeta. rewrite !vec_at_rename. destruct (vec_at b _) as [y|]; [|done]. destruct (vec_at a _) as [x|]; [|done].
  cbn [fmap result_fmap mbind result_bind]. rewrite eqb_rename. apply IH.
Qed.

Lemma normalize_rename m a b : normalize_extents m (f <$> a) (f <$> b) = normalize_extents m a b.
Proof using Type*.
  unfold normalize_extents. rewrite (foldM_ext _ (λ m i, shift_up i m a b)) by (intros; apply shift_up_rename).
  apply bind_ext. intros m'. apply foldM_ext. intros. apply pull_back_rename.
Qed.

(** ** The merge *)

Definition renamed_lines (m : option (list Z)) : option (list Z) :=
  match m with Some l => Some (f <$> l) | None => None end.

Lemma copy_lines_rename n v : ∀ p, copy_lines n (f <$> v) p = map f <$> copy_lines n v p.
Proof using Type.
  induction n as [|n IH]; intros p; cbn [copy_lines]; [done|]. rewrite vec_at_rename. destruct (vec_at v p); [|done].
  cbn [fmap result_fmap mbind result_bind]. rewrite IH. by destruct (copy_lines n v (p + 1)).
Qed.

Lemma same_lines_rename n b c : ∀ p q, same_lines n (f <$> b) (f <$> c) p q = renamed_lines <$> same_lines n b c p q.
Proof using Type*.
  induction n as [|n IH]; intros p q; cbn [same_lines]; [done|]. rewrite !vec_at_rename.
  destruct (vec_at b p) as [x|]; [|done]. destruct (vec_at c q) as [y|]; [|done]. cbn [fmap result_fmap mbind result_bind].
  rewrite eqb_rename. destruct (x =? y); [|done]. rewrite IH. by destruct (same_lines n b c (p + 1) (q + 1)) as [[]|].
Qed.

Lemma merge_loop_rename b c m : ∀ m',
  merge_extents_loop (f <$> b) (f <$> c) m m' = renamed_lines <$> merge_extents_loop b c m m'.
Proof using Type*.
  induction m as [|i m IH]; intros [|j m']; try done. cbn [merge_extents_loop].
  assert (merge_extent (f <$> b) (f <$> c) i j = renamed_lines <$> merge_extent b c i j) as ->.
  { unfold merge_extent. rewrite same_lines_rename, !copy_lines_rename.
    repeat case_match; try done; by destruct (copy_lines _ _ _). }
  destruct (merge_extent b c i j) as [[l|]|]; try done. cbn [fmap result_fmap mbind result_bind renamed_lines]. rewrite IH.
  destruct (merge_extents_loop b c m m') as [[r|]|]; try done. cbn. by rewrite fmap_app.
Qed.

Lemma merge_interned_rename a l r :
  merge_interned (f <$> a) (f <$> l) (f <$> r) = renamed_lines <$> merge_interned a l r.
Proof using Type*.
  unfold merge_interned. rewrite !edit_script_rename, !vsize_rename.
  destruct (edit_script a l) as [le|]; [|done]. destruct (edit_script a r) as [re|]; [|done]. cbn [mbind result_bind].
  rewrite !calculate_extents_rename. destruct (calculate_extents le l (vsize a)) as [[[lp lm] ls]|]; [|done].
  destruct (calculate_extents re r (vsize a)) as [[[rp rm] rs]|]; [|done].
  cbn [fmap result_fmap mbind result_bind renamed_extents fst snd].
  rewrite !normalize_rename. destruct (normalize_extents rm a r) as [rm'|]; [|done]. destruct (normalize_extents lm a l) as [lm'|]; [|done].
  cbn [mbind result_bind].
  assert (∀ v, bool_decide (f <$> v = []) = bool_decide (v = [])) as Hnil by (intros []; apply bool_decide_ext; cbn; naive_solver).
  unfold merge_extents. change (list_fmap Z Z f) with (fmap (M := list) f).
  rewrite !Hnil. case_match; [done|]. case_match; [done|]. destruct (I_ _); [|done]. cbn [mbind result_bind].
  rewrite merge_loop_rename. destruct (merge_extents_loop l r lm' rm') as [[m|]|]; try done. cbn. by rewrite !fmap_app.
Qed.
End rename.
