(* ===== verification/Merge3wayLines.v ===== *)
(** * [merge3] on lines

    The interner numbers lines injectively, so that [merge3] is the merge of
    the lines themselves, written here with the code of each line for its
    number; the laws of the merge follow. *)

From S2P Require Import Prelude Numbers Lcs LcsDistance LcsCompare LcsSplit LcsRange LcsCorrect LcsOrder Merge3way Merge3wayExtents Merge3wayCorrect Merge3wayRename.

Definition code (s : bytes) : Z := Z.pos (encode s).

#[export] Instance code_inj : Inj (=) (=) code.
Proof. intros s t [= H]. by apply encode_inj. Qed.

(** ** The interner *)

Definition interner_ok (t : interner) : Prop :=
  ∀ s k, fwd t !! s = Some k ↔ 0 ≤ k ∧ rev t !! Z.to_nat k = Some s.

(** The code of a number, an injective extension for what is none. *)
Definition numbering (t : interner) (k : Z) : Z :=
  if decide (k < 0) then 2 * k - 1
  else match rev t !! Z.to_nat k with Some s => code s | None => -2 * k end.

#[export] Instance numbering_inj t : interner_ok t → Inj (=) (=) (numbering t).
Proof.
  intros Ht k1 k2. unfold numbering.
  destruct (decide (k1 < 0)), (decide (k2 < 0)); try lia;
    try (destruct (rev t !! Z.to_nat k1) as [s1|] eqn:H1); try (destruct (rev t !! Z.to_nat k2) as [s2|] eqn:H2);
    unfold code; try lia; intros H.
  apply code_inj in H as ->. assert (fwd t !! s2 = Some k1) by (apply Ht; split; [lia|done]).
  assert (fwd t !! s2 = Some k2) by (apply Ht; split; [lia|done]). congruence.
Qed.

Lemma empty_interner_ok : interner_ok (Interner ∅ []).
Proof. intros s k. cbn [fwd rev]. rewrite lookup_empty, lookup_nil. naive_solver. Qed.

Lemma intern_spec t s :
  interner_ok t → ∃ e, interner_ok (intern t s).1 ∧ rev (intern t s).1 = rev t ++ e ∧
    0 ≤ (intern t s).2 < vsize (rev (intern t s).1) ∧ rev (intern t s).1 !! Z.to_nat (intern t s).2 = Some s.
Proof.
  intros Ht. unfold intern. destruct (fwd t !! s) as [k|] eqn:Hk; cbn [fst snd].
  - apply Ht in Hk as [Hk Hs]. exists []. rewrite app_nil_r. apply lookup_lt_Some in Hs as Hlt.
    split_and!; [done|done|lia|unfold vsize; lia|done].
  - exists [s]. cbn [rev fwd]. rewrite vsize_app. change (vsize [s]) with 1. pose proof (vsize_nonneg (rev t)).
    split_and!; [|done|lia|lia|apply list_lookup_middle; unfold vsize; lia].
    intros u k. cbn [rev fwd]. destruct (decide (u = s)) as [->|Hne].
    + rewrite lookup_insert_eq. split; [intros [= <-]; split; [done|apply list_lookup_middle; unfold vsize; lia]|].
      intros [H0 Hu]. f_equal. apply lookup_snoc_Some in Hu as [[_ Hu]|[Hl _]]; [|unfold vsize; lia].
      assert (fwd t !! s = Some k) by (by apply Ht). congruence.
    + rewrite lookup_insert_ne, (Ht u k), lookup_snoc_Some by done. split; [|naive_solver].
      intros [? Hu]. apply lookup_lt_Some in Hu as Hlt. auto.
Qed.

Lemma numbering_extend t t' e k :
  rev t' = rev t ++ e → 0 ≤ k < vsize (rev t) → numbering t' k = numbering t k.
Proof.
  intros He Hk. unfold numbering. rewrite decide_False by lia. rewrite decide_False by lia.
  rewrite He, lookup_app_l by (unfold vsize in Hk; lia). done.
Qed.

Lemma intern_all_spec ls : ∀ t, interner_ok t →
  ∃ e, interner_ok (intern_all t ls).1 ∧ rev (intern_all t ls).1 = rev t ++ e ∧
    Forall (λ k, 0 ≤ k < vsize (rev (intern_all t ls).1)) (intern_all t ls).2 ∧
    numbering (intern_all t ls).1 <$> (intern_all t ls).2 = code <$> ls.
Proof.
  induction ls as [|s ls IH]; intros t Ht; cbn [intern_all].
  - exists []. rewrite app_nil_r. cbn. split_and!; done || constructor.
  - destruct (intern_spec t s Ht) as (e & Ht1 & He & Hk & Hs). destruct (intern t s) as [t1 k]. cbn [fst snd] in *.
    destruct (IH t1 Ht1) as (e' & Ht2 & He' & Hks & Hnum). destruct (intern_all t1 ls) as [t2 ks]. cbn [fst snd] in *.
    exists (e ++ e'). split_and!; [done|by rewrite He', He, <- app_assoc| |].
    + constructor; [|done]. rewrite He', vsize_app. pose proof (vsize_nonneg e'). lia.
    + cbn [fmap list_fmap]. rewrite Hnum. f_equal. rewrite (numbering_extend t1 t2 e') by done.
      unfold numbering. by rewrite decide_False, Hs by lia.
Qed.

Lemma lookup_all_spec t ks :
  Forall (λ k, 0 ≤ k < vsize (rev t)) ks → ∃ ls, lookup_all t ks = Ok ls ∧ code <$> ls = numbering t <$> ks.
Proof.
  induction 1 as [|k ks Hk _ (ls & Hl & Hc)]; [by exists []|]. cbn [lookup_all]. unfold lookup_line.
  rewrite (proj2 (Z.ltb_ge _ _)) by lia. destruct (lookup_lt_is_Some_2 (rev t) (Z.to_nat k)) as [s Hs]; [unfold vsize in Hk; lia|].
  rewrite Hs. cbn [of_option mbind result_bind]. rewrite Hl. cbn [mbind result_bind]. exists (s :: ls). split; [done|].
  cbn [fmap list_fmap]. rewrite Hc. f_equal. unfold numbering. by rewrite decide_False, Hs by lia.
Qed.

(** ** The merge of lines *)

Definition coded (m : option (list bytes)) : option (list Z) :=
  match m with Some ls => Some (code <$> ls) | None => None end.

Lemma coded_inj m m' : coded m = coded m' → m = m'.
Proof.
  destruct m as [l|], m' as [l'|]; cbn; try done. intros [= H]. f_equal. by apply (inj (fmap code)) in H.
Qed.

Lemma merge3_coded anc l r :
  ∃ m, merge3 anc l r = Ok m ∧ merge_interned (code <$> anc) (code <$> l) (code <$> r) = Ok (coded m).
Proof.
  unfold merge3, merge_via_edit_scripts.
  destruct (intern_all_spec anc _ empty_interner_ok) as (e1 & Ht1 & He1 & Hk1 & Hn1). destruct (intern_all _ anc) as [t1 a]. cbn [fst snd] in *.
  destruct (intern_all_spec l t1 Ht1) as (e2 & Ht2 & He2 & Hk2 & Hn2). destruct (intern_all t1 l) as [t2 l']. cbn [fst snd] in *.
  destruct (intern_all_spec r t2 Ht2) as (e3 & Ht3 & He3 & Hk3 & Hn3). destruct (intern_all t2 r) as [t3 r']. cbn [fst snd] in *.
  assert (numbering t3 <$> a = code <$> anc) as Ha.
  { rewrite <- Hn1. apply list_fmap_ext. intros i k Hi. apply (numbering_extend t1 t3 (e2 ++ e3)); [by rewrite He3, He2, <- app_assoc|].
    by apply (Forall_lookup_1 _ _ _ _ Hk1 Hi). }
  assert (numbering t3 <$> l' = code <$> l) as Hl.
  { rewrite <- Hn2. apply list_fmap_ext. intros i k Hi. apply (numbering_extend t2 t3 e3); [done|]. by apply (Forall_lookup_1 _ _ _ _ Hk2 Hi). }
  rewrite <- Ha, <- Hl, <- Hn3. pose proof (numbering_inj t3 Ht3) as Hinj. rewrite (merge_interned_rename (numbering t3)).
  destruct (merge_interned_ok a l' r') as (m & -> & Hfrom). cbn [mbind result_bind fmap result_fmap].
  destruct m as [ms|]; [|by exists None].
  destruct (lookup_all_spec t3 ms) as (ls & -> & Hc).
  - apply Forall_forall. intros k Hk. rewrite Forall_forall in Hk2, Hk3. pose proof (vsize_nonneg e3).
    destruct (Hfrom ms k eq_refl Hk) as [Hin|Hin]; [apply Hk2 in Hin; rewrite He3, vsize_app; lia|by apply Hk3].
  - exists (Some ls). cbn. by rewrite Hc.
Qed.

(** C7: [merge3] never fails: on any three texts every vector access is in range, every internal check holds and
    the loops end, and it either reports a conflict or returns lines each of which is in one of the sides. *)
Theorem merge3_total (ancestor left right : list bytes) :
  ∃ m, merge3 ancestor left right = Ok m ∧ ∀ lines s, m = Some lines → s ∈ lines → s ∈ left ∨ s ∈ right.
Proof.
  destruct (merge3_coded ancestor left right) as (m & Hm & Hc). exists m. split; [done|]. intros lines s -> Hs.
  destruct (merge_interned_ok (code <$> ancestor) (code <$> left) (code <$> right)) as (m' & Hm' & Hfrom).
  rewrite Hc in Hm'. injection Hm' as <-. destruct (Hfrom (code <$> lines) (code s) eq_refl) as [H|H].
  - by apply list_elem_of_fmap_2.
  - left. apply list_elem_of_fmap in H as (u & ->%(inj code) & H). done.
  - right. apply list_elem_of_fmap in H as (u & ->%(inj code) & H). done.
Qed.

(** C8: [merge3] gives the same answer whichever side is called the left one, conflicts included, although the two
    calls number the lines differently and normalize the sides in a different order. *)
Theorem merge3_symmetric (ancestor left right : list bytes) : merge3 ancestor left right = merge3 ancestor right left.
Proof.
  destruct (merge3_coded ancestor left right) as (m & -> & Hm). destruct (merge3_coded ancestor right left) as (m' & -> & Hm').
  f_equal. apply coded_inj. rewrite merge_interned_sym, Hm' in Hm. congruence.
Qed.

(** C9: merging with a side that changed nothing returns the other side, whatever it is: no conflict, and every
    line of it in its place. *)
Theorem merge3_unchanged (ancestor other : list bytes) :
  merge3 ancestor other ancestor = Ok (Some other) ∧ merge3 ancestor ancestor other = Ok (Some other).
Proof.
  split.
  - destruct (merge3_coded ancestor other ancestor) as (m & -> & Hm). rewrite merge_interned_unchanged in Hm. f_equal.
    apply coded_inj. cbn. congruence.
  - destruct (merge3_coded ancestor ancestor other) as (m & -> & Hm).
    rewrite merge_interned_sym, merge_interned_unchanged in Hm. f_equal. apply coded_inj. cbn. congruence.
Qed.
