(* ===== verification/StringQueue.v ===== *)
(** * The byte queue of a session ([src/src/string_queue.hh])

    A string that grows at the back and shrinks at the front, kept contiguous
    in a buffer: [front], [back] and the end of the buffer are offsets into
    [buf].  Writing outside the buffer is undefined behaviour.  [junk n] is
    what a new buffer of [n] bytes holds before it is written to.  The factors
    1.25 and 1.1 are applied in floating point; for sizes below 2^53 the first
    is exact, and truncating the product with the second gives the same as
    [11 * n / 10], since the double nearest 1.1 is above it.  The
    self-check is compiled out ([do_selfcheck] is false). *)

From S2P Require Import Prelude Numbers.

Record string_queue := StringQueue { buf : bytes; front : Z; back : Z }.

Definition max_string_queue_size : Z := 500 * 1024 * 1024.
Definition max_string_queue_incr : Z := 500 * 1024 * 1024.

Section queue.
Context (junk : nat → ascii).

(** [new char[n]] *)
Definition new_chars (n : Z) : bytes := junk <$> seq 0 (Z.to_nat n).

Definition new_string_queue (default_size : Z) : string_queue := StringQueue (new_chars default_size) 0 0.

Definition used_size (q : string_queue) : Z := back q - front q.
Definition buffer_size (q : string_queue) : Z := len (buf q).
Definition available_size (q : string_queue) : Z := len (buf q) - back q.
Definition queue_empty (q : string_queue) : bool := front q =? back q.

(** [memcpy] of [s] to offset [pos] of a buffer. *)
Definition memcpy_to (b : bytes) (pos : Z) (s : bytes) : result bytes :=
  if pos + len s <=? len b then Ok (take (Z.to_nat pos) b ++ s ++ drop (Z.to_nat (pos + len s)) b)
  else Err UndefinedBehaviour.

Definition simple_append (q : string_queue) (v : bytes) : result string_queue :=
  I_ (len v <=? len (buf q) - back q) ;;
  I_ (len v <=? max_string_queue_incr) ;;
  b ← memcpy_to (buf q) (back q) v;
  Ok (StringQueue b (front q) (back q + len v)).

Definition resize_buffer (q : string_queue) (new_buffer_size : Z) : result string_queue :=
  I_ (new_buffer_size <=? max_string_queue_size) ;;
  let save_used_size := used_size q in
  b ← memcpy_to (new_chars new_buffer_size) 0 (slice (buf q) (front q) save_used_size);
  Ok (StringQueue b 0 save_used_size).

Definition reserve_additional (q : string_queue) (amount : Z) : result string_queue :=
  I_ (amount <=? max_string_queue_incr) ;;
  if amount <=? available_size q then Ok q
  else if 5 * (used_size q + amount) <? 4 * buffer_size q then
    let save_used_size := used_size q in
    b ← memcpy_to (buf q) 0 (slice (buf q) (front q) save_used_size);
    Ok (StringQueue b 0 save_used_size)
  else resize_buffer q (Z.max (5 * buffer_size q / 4) (used_size q + amount)).

Definition reserve_total (q : string_queue) (amount : Z) : result string_queue :=
  if amount <=? len (buf q) - front q then Ok q
  else reserve_additional q (amount - available_size q).

(** Both overloads for strings. *)
Definition append (q : string_queue) (v : bytes) : result string_queue :=
  q ← reserve_additional q (len v);
  simple_append q v.

Definition append_char (q : string_queue) (v : ascii) : result string_queue :=
  if 1 <=? available_size q then
    b ← memcpy_to (buf q) (back q) [v];
    Ok (StringQueue b (front q) (back q + 1))
  else append q [v].

(** [operator[]], read and assigned to. *)
Definition char_get (q : string_queue) (pos : Z) : result ascii :=
  I_ (pos <? used_size q) ;;
  match buf q !! Z.to_nat (front q + pos) with Some c => Ok c | None => Err UndefinedBehaviour end.

Definition char_set (q : string_queue) (pos : Z) (c : ascii) : result string_queue :=
  I_ (pos <? used_size q) ;;
  b ← memcpy_to (buf q) (front q + pos) [c];
  Ok (StringQueue b (front q) (back q)).

Definition pop_front (q : string_queue) (amount : Z) : result string_queue :=
  I_ (amount <=? used_size q) ;;
  let q := StringQueue (buf q) (front q + amount) (back q) in
  let q := if front q =? back q then StringQueue (buf q) 0 0 else q in
  if (used_size q * 3 <? buffer_size q) && (1024 * 1024 <? buffer_size q) then
    resize_buffer q (Z.max 8192 (11 * used_size q / 10))
  else Ok q.

Definition substr (q : string_queue) (pos size : Z) : result bytes :=
  I_ (size <=? max_string_queue_incr) ;;
  I_ (pos <=? max_string_queue_size) ;;
  I_ (pos + size <=? used_size q) ;;
  Ok (slice (buf q) (front q + pos) size).

(** The bytes the pointer may be read for. *)
Definition front_pointer (q : string_queue) (strsize : Z) : result bytes :=
  I_ (strsize <=? max_string_queue_size) ;;
  I_ (strsize <=? used_size q) ;;
  Ok (slice (buf q) (front q) strsize).
End queue.

(** ** What the queue is for

    The operations of a client, and what they mean on the string itself. *)
Inductive op :=
  | Append (v : bytes) | AppendChar (c : ascii) | PopFront (amount : Z) | Get (pos : Z) | Put (pos : Z) (c : ascii)
  | Substr (pos size : Z) | FrontPointer (strsize : Z) | Reserve (amount : Z).

Inductive answer := Nothing | Char (c : ascii) | Str (s : bytes).

Definition queue_op (junk : nat → ascii) (q : string_queue) (o : op) : result (string_queue * answer) :=
  match o with
  | Append v => q ← append junk q v; Ok (q, Nothing)
  | AppendChar c => q ← append_char junk q c; Ok (q, Nothing)
  | PopFront amount => q ← pop_front junk q amount; Ok (q, Nothing)
  | Get pos => c ← char_get q pos; Ok (q, Char c)
  | Put pos c => q ← char_set q pos c; Ok (q, Nothing)
  | Substr pos size => s ← substr q pos size; Ok (q, Str s)
  | FrontPointer strsize => s ← front_pointer q strsize; Ok (q, Str s)
  | Reserve amount => q ← reserve_additional junk q amount; Ok (q, Nothing)
  end.

Definition string_op (s : bytes) (o : op) : result (bytes * answer) :=
  match o with
  | Append v => Ok (s ++ v, Nothing)
  | AppendChar c => Ok (s ++ [c], Nothing)
  | PopFront amount => I_ (amount <=? len s) ;; Ok (drop (Z.to_nat amount) s, Nothing)
  | Get pos => match s !! Z.to_nat pos with Some c => Ok (s, Char c) | None => Err invariant_failure end
  | Put pos c => I_ (pos <? len s) ;; Ok (<[Z.to_nat pos := c]> s, Nothing)
  | Substr pos size => I_ (pos + size <=? len s) ;; Ok (s, Str (slice s pos size))
  | FrontPointer strsize => I_ (strsize <=? len s) ;; Ok (s, Str (take (Z.to_nat strsize) s))
  | Reserve _ => Ok (s, Nothing)
  end.

(** A run of operations and its answers. *)
Fixpoint run_ops {S} (step : S → op → result (S * answer)) (s : S) (ops : list op) : result (S * list answer) :=
  match ops with
  | [] => Ok (s, [])
  | o :: ops => '(s, a) ← step s o; '(s, l) ← run_ops step s ops; Ok (s, a :: l)
  end.

(** The string stays, with what is reserved, below 320 MB; arguments are [size_t] values. *)
Definition limit : Z := 320 * 1024 * 1024.

Definition op_fits (s : bytes) (o : op) : Prop :=
  match o with
  | Append v => len s + len v ≤ limit
  | AppendChar _ => len s + 1 ≤ limit
  | PopFront n | Get n | Put n _ | FrontPointer n => 0 ≤ n
  | Substr pos size => 0 ≤ pos ∧ 0 ≤ size
  | Reserve n => 0 ≤ n ∧ len s + n ≤ limit
  end.

Fixpoint ops_fit (s : bytes) (ops : list op) : Prop :=
  match ops with
  | [] => True
  | o :: ops => op_fits s o ∧ match string_op s o with Ok (s, _) => ops_fit s ops | Err _ => True end
  end.

(** The string a queue holds is somewhere in its buffer. *)
Definition holds (q : string_queue) (s : bytes) : Prop :=
  ∃ pre post, q = StringQueue (pre ++ s ++ post) (len pre) (len pre + len s).

Lemma memcpy_app a m b v : len v = len m → memcpy_to (a ++ m ++ b) (len a) v = Ok (a ++ v ++ b).
Proof.
  intros Hl. unfold memcpy_to. rewrite !len_app, Hl. pose proof (len_nonneg b). rewrite (proj2 (Z.leb_le _ _)) by lia.
  unfold len. rewrite Nat2Z.id, take_app_length. replace (Z.to_nat _) with (length a + length m)%nat by lia.
  by rewrite (app_assoc a m b), <- (length_app a m), drop_app_length.
Qed.

Lemma split_len (b : bytes) n : 0 ≤ n ≤ len b → ∃ b1 b2, b = b1 ++ b2 ∧ len b1 = n.
Proof.
  unfold len. intros. exists (take (Z.to_nat n) b), (drop (Z.to_nat n) b). rewrite take_drop, length_take. split; [done|lia].
Qed.

Lemma slice_middle a s b : slice (a ++ s ++ b) (len a) (len s) = s.
Proof. unfold slice, len. rewrite !Nat2Z.id, drop_app_length. apply take_app_length. Qed.

Lemma len_new_chars junk n : 0 ≤ n → len (new_chars junk n) = n.
Proof. intros. unfold len, new_chars. rewrite length_fmap, length_seq. lia. Qed.

Lemma used_holds pre s post : used_size (StringQueue (pre ++ s ++ post) (len pre) (len pre + len s)) = len s.
Proof. unfold used_size. cbn [front back]. lia. Qed.

(** ** Making room *)

Section ops.
Context (junk : nat → ascii).

Lemma resize_holds q s n :
  holds q s → len s ≤ n → n ≤ max_string_queue_size →
  ∃ post, resize_buffer junk q n = Ok (StringQueue (s ++ post) 0 (len s)) ∧ len post = n - len s.
Proof using Type.
  intros (pre & post & ->) Hn Hmax. pose proof (len_nonneg s). unfold resize_buffer. rewrite (proj2 (Z.leb_le _ _)) by done.
  cbn [I_ mbind result_bind]. rewrite used_holds. cbn [buf front back]. rewrite slice_middle.
  destruct (split_len (new_chars junk n) (len s)) as (b1 & b2 & Hb & Hl); [rewrite len_new_chars by lia; lia|].
  pose proof (memcpy_app [] b1 b2 s (eq_sym Hl)) as Hm. cbn [app] in Hm. change (len []) with 0 in Hm. rewrite Hb, Hm.
  exists b2. split; [done|]. pose proof (len_new_chars junk n ltac:(lia)) as Hj. rewrite Hb, len_app in Hj. lia.
Qed.

Lemma reserve_holds q s amount :
  holds q s → 0 ≤ amount → len s + amount ≤ limit →
  ∃ q', reserve_additional junk q amount = Ok q' ∧ holds q' s ∧ amount ≤ available_size q'.
Proof using Type.
  intros Hq H0 Hlim. pose proof Hq as (pre & post & Heq). pose proof (len_nonneg s) as Hs0. pose proof (len_nonneg pre). pose proof (len_nonneg post).
  unfold reserve_additional, limit, max_string_queue_incr in *. rewrite (proj2 (Z.leb_le amount (500 * 1024 * 1024))) by lia. cbn [I_ mbind result_bind].
  destruct (Z.leb_spec amount (available_size q)) as [Ha|Ha]; [by exists q|]. subst q.
  unfold available_size, buffer_size in *. rewrite used_holds in *. cbn [buf front back] in *. rewrite slice_middle, !len_app in *.
  destruct (Z.ltb_spec (5 * (len s + amount)) (4 * (len pre + (len s + len post)))) as [Hlt|Hge].
  - destruct (split_len (pre ++ s ++ post) (len s)) as (b1 & b2 & Hb & Hl); [rewrite !len_app; lia|].
    pose proof (memcpy_app [] b1 b2 s (eq_sym Hl)) as Hm. cbn [app] in Hm. change (len []) with 0 in Hm. rewrite Hb, Hm.
    apply (f_equal len) in Hb. rewrite !len_app in Hb. eexists. split; [done|]. split; [by exists [], b2|]. cbn [buf back]. rewrite len_app. lia.
  - pose proof (Z.div_mod (5 * (len pre + (len s + len post))) 4). pose proof (Z.mod_pos_bound (5 * (len pre + (len s + len post))) 4).
    destruct (resize_holds _ s (Z.max (5 * (len pre + (len s + len post)) / 4) (len s + amount)) Hq) as (post' & -> & Hp);
      [lia|unfold max_string_queue_size; lia|].
    eexists. split; [done|]. split; [by exists [], post'|]. cbn [buf back]. rewrite len_app. lia.
Qed.

Lemma append_at pre s post v : len v ≤ len post →
  ∃ post', memcpy_to (pre ++ s ++ post) (len pre + len s) v = Ok (pre ++ (s ++ v) ++ post').
Proof using Type.
  intros Hl. pose proof (len_nonneg v). destruct (split_len post (len v)) as (p1 & p2 & -> & Hp); [lia|]. exists p2.
  rewrite (app_assoc pre s), <- (len_app pre s), memcpy_app by done. by rewrite <- !app_assoc.
Qed.

Lemma append_holds q s v :
  holds q s → len s + len v ≤ limit → ∃ q', append junk q v = Ok q' ∧ holds q' (s ++ v).
Proof using Type.
  intros Hq Hlim. pose proof (len_nonneg v). pose proof (len_nonneg s). unfold append.
  destruct (reserve_holds q s (len v) Hq ltac:(done) Hlim) as (q1 & -> & (pre & post & ->) & Ha). cbn [mbind result_bind].
  unfold simple_append, available_size in *. cbn [buf front back] in *. rewrite (proj2 (Z.leb_le (len v) (len (pre ++ s ++ post) - (len pre + len s)))) by lia.
  unfold limit, max_string_queue_incr in *. rewrite (proj2 (Z.leb_le (len v) (500 * 1024 * 1024))) by lia. cbn [I_ mbind result_bind].
  rewrite !len_app in Ha. destruct (append_at pre s post v) as (post' & ->); [lia|]. cbn [mbind result_bind].
  eexists. split; [done|]. exists pre, post'. rewrite len_app. f_equal. lia.
Qed.

Lemma pop_holds q s n :
  holds q s → len s ≤ limit → 0 ≤ n ≤ len s → ∃ q', pop_front junk q n = Ok q' ∧ holds q' (drop (Z.to_nat n) s).
Proof using Type.
  intros (pre & post & ->) Hlim Hn. unfold pop_front. rewrite used_holds, (proj2 (Z.leb_le _ _)) by lia. cbn [I_ mbind result_bind].
  destruct (split_len s n) as (s1 & s2 & -> & Hs); [done|]. rewrite len_app in Hlim, Hn. pose proof (len_nonneg s2).
  replace (drop (Z.to_nat n) (s1 ++ s2)) with s2 by (rewrite drop_app_length'; [done|unfold len in Hs; lia]). cbv zeta. cbn [buf front back].
  assert (holds (if len pre + n =? len pre + len (s1 ++ s2) then StringQueue (pre ++ (s1 ++ s2) ++ post) 0 0
    else StringQueue (pre ++ (s1 ++ s2) ++ post) (len pre + n) (len pre + len (s1 ++ s2))) s2) as Hq.
  { rewrite len_app. destruct (Z.eqb_spec (len pre + n) (len pre + (len s1 + len s2))) as [He|He].
    - assert (s2 = []) as -> by (apply len_0; lia). exists [], (pre ++ (s1 ++ []) ++ post). done.
    - exists (pre ++ s1), post. rewrite len_app, <- !app_assoc. f_equal; lia. }
  match goal with |- ∃ q', (if (used_size ?q * 3 <? _) && _ then _ else _) = _ ∧ _ => set (q1 := q) in * end.
  assert (used_size q1 = len s2) as Hu by (destruct Hq as (? & ? & ->); apply used_holds). rewrite Hu.
  destruct ((len s2 * 3 <? buffer_size q1) && (1024 * 1024 <? buffer_size q1)); [|by exists q1].
  pose proof (Z.div_mod (11 * len s2) 10). pose proof (Z.mod_pos_bound (11 * len s2) 10).
  destruct (resize_holds q1 s2 (Z.max 8192 (11 * len s2 / 10)) Hq) as (post' & -> & _); [lia|unfold limit, max_string_queue_size in *; lia|].
  eexists. split; [done|]. by exists [], post'.
Qed.

(** ** Every operation *)

Lemma op_refines q s o :
  holds q s → len s ≤ limit → op_fits s o →
  match string_op s o with
  | Ok (s', a) => (∃ q', queue_op junk q o = Ok (q', a) ∧ holds q' s') ∧ len s' ≤ limit
  | Err e => queue_op junk q o = Err e
  end.
Proof using Type.
  intros Hq Hlim Hfit. destruct o as [v|c|n|n|n c|n k|n|n]; cbn [string_op queue_op op_fits] in *.
  - destruct (append_holds q s v Hq Hfit) as (q' & -> & Hq'). rewrite len_app. split; [|lia]. by exists q'.
  - rewrite len_app. split; [|change (len [c]) with 1; lia]. unfold append_char. pose proof Hq as (pre & post & Heq).
    destruct (Z.leb_spec 1 (available_size q)) as [Ha|Ha].
    + subst q. unfold available_size in Ha. cbn [buf front back] in *. rewrite !len_app in Ha.
      destruct (append_at pre s post [c]) as (post' & ->); [change (len [c]) with 1; lia|]. cbn [mbind result_bind].
      eexists. split; [done|]. exists pre, post'. rewrite len_app. f_equal. change (len [c]) with 1. lia.
    + destruct (append_holds q s [c] Hq) as (q' & -> & Hq'); [change (len [c]) with 1; lia|]. by exists q'.
  - destruct (Z.leb_spec n (len s)) as [Hle|Hgt]; cbn [I_ mbind result_bind].
    + destruct (pop_holds q s n Hq Hlim) as (q' & -> & Hq'); [lia|]. split; [by exists q'|]. unfold len in *. rewrite length_drop. lia.
    + destruct Hq as (pre & post & ->). unfold pop_front. rewrite used_holds, (proj2 (Z.leb_gt _ _)) by lia. done.
  - pose proof Hq as (pre & post & ->). unfold char_get. rewrite used_holds. cbn [buf front].
    destruct (s !! Z.to_nat n) as [c|] eqn:Hc.
    + apply lookup_lt_Some in Hc as Hlt. rewrite (proj2 (Z.ltb_lt _ _)) by (unfold len; lia). cbn [I_ mbind result_bind].
      replace (Z.to_nat (len pre + n)) with (length pre + Z.to_nat n)%nat by (unfold len; lia).
      rewrite lookup_app_r, Nat.add_comm, Nat.add_sub, lookup_app_l, Hc by lia. split; [|done]. by eexists.
    + apply lookup_ge_None in Hc. by rewrite (proj2 (Z.ltb_ge _ _)) by (unfold len; lia).
  - pose proof Hq as (pre & post & ->). unfold char_set. rewrite used_holds. cbn [buf front back].
    destruct (Z.ltb_spec n (len s)) as [Hlt|Hge]; [|done]. cbn [I_ mbind result_bind].
    destruct (split_len s n) as (s1 & s2 & -> & Hs); [lia|]. destruct s2 as [|x s2]; [rewrite app_nil_r in Hlt; lia|].
    assert (<[Z.to_nat n := c]> (s1 ++ x :: s2) = s1 ++ c :: s2) as ->.
    { replace (Z.to_nat n) with (length s1) by (unfold len in Hs; lia). by rewrite insert_app_r_alt, Nat.sub_diag by done. }
    pose proof (memcpy_app (pre ++ s1) [x] (s2 ++ post) [c] eq_refl) as Hm. rewrite len_app, Hs, <- !app_assoc in Hm. cbn [app] in Hm.
    rewrite <- app_assoc. cbn [app]. rewrite Hm. cbn [mbind result_bind]. rewrite !len_app in *. change (len (c :: s2)) with (len (x :: s2)).
    split; [|done]. eexists. split; [done|]. exists pre, post. rewrite <- app_assoc, len_app. change (len (c :: s2)) with (len (x :: s2)). done.
  - pose proof Hq as (pre & post & ->). unfold substr. rewrite used_holds. cbn [buf front].
    unfold max_string_queue_incr, max_string_queue_size, limit in *.
    destruct (Z.leb_spec (n + k) (len s)) as [Hle|Hgt].
    + rewrite !(proj2 (Z.leb_le _ (500 * 1024 * 1024))) by lia. cbn [I_ mbind result_bind]. split; [|done]. eexists. split; [|done].
      do 3 f_equal. rewrite app_assoc, slice_app_l by (rewrite ?len_app; pose proof (len_nonneg pre); lia).
      unfold slice. rewrite drop_app_ge by (unfold len; lia). do 2 f_equal. unfold len. lia.
    + by destruct (k <=? _), (n <=? _).
  - pose proof Hq as (pre & post & ->). unfold front_pointer. rewrite used_holds. cbn [buf front].
    unfold max_string_queue_size, limit in *. destruct (Z.leb_spec n (len s)) as [Hle|Hgt].
    + rewrite (proj2 (Z.leb_le _ (500 * 1024 * 1024))) by lia. cbn [I_ mbind result_bind]. split; [|done]. eexists. split; [|done].
      do 3 f_equal. unfold slice, len. rewrite Nat2Z.id, drop_app_length. apply take_app_le. unfold len in Hle. lia.
    + by destruct (n <=? _).
  - destruct Hfit as [H0 Hfit]. destruct (reserve_holds q s n Hq H0 Hfit) as (q' & -> & Hq' & _). split; [|done]. by exists q'.
Qed.

Lemma run_refines ops : ∀ q s,
  holds q s → len s ≤ limit → ops_fit s ops →
  match run_ops string_op s ops with
  | Ok (s', l) => ∃ q', run_ops (queue_op junk) q ops = Ok (q', l) ∧ holds q' s'
  | Err e => run_ops (queue_op junk) q ops = Err e
  end.
Proof using Type.
  induction ops as [|o ops IH]; intros q s Hq Hlim Hfit; cbn [run_ops]; [by exists q|]. destruct Hfit as [Hfit Hrest].
  pose proof (op_refines q s o Hq Hlim Hfit) as Ho. destruct (string_op s o) as [[s1 a]|e]; cbn [mbind result_bind]; [|by rewrite Ho].
  destruct Ho as [(q1 & -> & Hq1) Hlim1]. cbn [mbind result_bind]. specialize (IH q1 s1 Hq1 Hlim1 Hrest).
  destruct (run_ops string_op s1 ops) as [[s2 l]|e]; cbn [mbind result_bind]; [|by rewrite IH].
  destruct IH as (q2 & -> & Hq2). by exists q2.
Qed.
End ops.

(** C18: whatever a new buffer holds, a run of operations on a new queue gives the answers, and fails where, the same
    run on a plain string does, as long as the string and what is reserved stay below 320 MB: growing, moving and shrinking the buffer are never seen. *)
Theorem string_queue_refines (junk : nat → ascii) (default_size : Z) (ops : list op) :
  ops_fit [] ops →
  match run_ops string_op [] ops with
  | Ok (s, answers) => ∃ q, run_ops (queue_op junk) (new_string_queue junk default_size) ops = Ok (q, answers) ∧ holds q s
  | Err e => run_ops (queue_op junk) (new_string_queue junk default_size) ops = Err e
  end.
Proof.
  intros Hfit. apply run_refines; [|change (len []) with 0; unfold limit; lia|done]. exists [], (new_chars junk default_size). done.
Qed.

Definition ex_ops : list op :=
  [Append (lit "hello"); PopFront 2; AppendChar (ascii_of_nat 33); Append (lit "wide world"); Get 3; Substr 4 4; PopFront 12].

Lemma string_queue_refines_witness :
  ∃ q, run_ops (queue_op (λ n, ascii_of_nat n)) (new_string_queue (λ n, ascii_of_nat n) 4) ex_ops =
    Ok (q, [Nothing; Nothing; Nothing; Nothing; Char (ascii_of_nat 33); Str (lit "wide"); Nothing]) ∧ holds q (lit "ld").
Proof.
  apply (string_queue_refines (λ n, ascii_of_nat n) 4 ex_ops). vm_compute. repeat split; discriminate.
Defined.

(** [reserve_total] does not reserve: it asks for what is missing beyond the space that is available, not beyond
    the space that is used.  A buffer of 100 bytes that holds 10 is left as it is when room for 120 is asked for. *)
Theorem reserve_total_short :
  let q := StringQueue (replicate 100 "x"%char) 0 10 in
  holds q (replicate 10 "x"%char) ∧ reserve_total (λ _, "x"%char) q 120 = Ok q ∧ len (buf q) - front q < 120.
Proof. cbv zeta. split_and!; [exists [], (replicate 90 "x"%char)|..]; done. Qed.
