(* ===== verification/Enumerator.v ===== *)
(** * The enumeration of revisions to send ([src/src/enumerator.cc], [enumerator.hh])

    [revision_enumerator] walks the revision graph from the null revision and
    hands files, revisions and certificates to the callbacks of a session, one
    at each call of [step].  The session is the class
    [enumerator_callbacks], over a state of its own; the database and the
    project are the class [revision_source].  A [multimap] is the list of
    its pairs, in the order of its iterators for equal keys; a [deque] is a list, front first.
    The loop of [step] has fuel. *)

From S2P Require Import Prelude Numbers Paths Cset Revision.

(** ** What the enumerator asks of others *)

Class enumerator_callbacks (S : Type) := {
  process_this_rev : S → bytes → S * bool;
  queue_this_cert : S → bytes → S * bool;
  queue_this_file : S → bytes → S * bool;
  note_file_data : S → bytes → result S;
  note_file_delta : S → bytes → bytes → result S;
  note_rev : S → bytes → result S;
  note_cert : S → bytes → result S
}.

Class revision_source := {
  get_revision : bytes → result revision_t;
  get_revision_cert_hashes : bytes → list bytes
}.

(** ** State *)

Inductive enumerator_item := fdata (a : bytes) | fdelta (a b : bytes) | rev_item (a : bytes) | cert_item (a : bytes).

Abbreviation multimap := (list (bytes * bytes)).

Record revision_enumerator := Enumerator {
  terminal_nodes : gset bytes;
  enumerated_nodes : gset bytes;
  revs : list bytes;
  items : list enumerator_item;
  graph : multimap;
  inverse_graph : multimap;
  revision_certs : multimap
}.

Definition null_id (i : bytes) : bool := bool_decide (i = []).

(** [equal_range] *)
Definition range_of (m : multimap) (k : bytes) : list bytes := snd <$> filter (λ e, e.1 = k) m.

Definition new_enumerator (forward_ancestry reverse_ancestry : multimap) : revision_enumerator :=
  Enumerator ∅ ∅ [[]] [] forward_ancestry reverse_ancestry [].

Definition get_revision_parents (e : revision_enumerator) (child : bytes) : list bytes := range_of (inverse_graph e) child.

Definition all_parents_enumerated (e : revision_enumerator) (child : bytes) : bool :=
  forallb (λ p, bool_decide (p ∈ enumerated_nodes e)) (range_of (inverse_graph e) child).

Definition done_ (e : revision_enumerator) : bool := bool_decide (revs e = []) && bool_decide (items e = []).

Definition enum_note_cert (e : revision_enumerator) (rid cert_hash : bytes) : revision_enumerator :=
  Enumerator (terminal_nodes e) (enumerated_nodes e) (revs e) (items e) (graph e) (inverse_graph e)
    (revision_certs e ++ [(rid, cert_hash)]).

(** ** The files of a revision *)

(** [file_adds], [file_deltas] and [file_edge_counts]. *)
Record file_sets := FileSets { file_adds : gset bytes; file_deltas : gmap bytes bytes; file_edge_counts : gmap bytes Z }.

Definition count_edge (fs : file_sets) (cs : cset) : file_sets :=
  let adds := snd <$> map_iter (files_added cs) in
  let deltas := snd <$> map_iter (deltas_applied cs) in
  let file_dsts : gset bytes := list_to_set (adds ++ (snd <$> deltas)) in
  FileSets
    (list_to_set adds ∪ file_adds fs)
    (foldl (λ m d, <[d.2 := d.1]> m) (file_deltas fs) deltas)
    (foldl (λ m f, <[f := default 0 (m !! f) + 1]> m) (file_edge_counts fs) (set_iter file_dsts)).

Definition choose_file (num_edges : Z) (fs : file_sets) (st : gset bytes * gset (bytes * bytes)) (c : bytes * Z) :
    result (gset bytes * gset (bytes * bytes)) :=
  if c.2 <? num_edges then Ok st
  else
    match file_deltas fs !! c.1 with
    | Some src => Ok (st.1, {[(src, c.1)]} ∪ st.2)
    | None => if decide (c.1 ∈ file_adds fs) then Ok ({[c.1]} ∪ st.1, st.2) else Err invariant_failure
    end.

Section enumerator.
Context `{!revision_source} {S : Type} `{!enumerator_callbacks S}.

(** The files to send in full, and those to send as deltas. *)
Definition files_for_revision (r : bytes) : result (gset bytes * gset (bytes * bytes)) :=
  rs ← get_revision r;
  let fs := foldl count_edge (FileSets ∅ ∅ ∅) (snd <$> map_iter (edges rs)) in
  foldM (choose_file (Z.of_nat (edge_count rs)) fs) (map_iter (file_edge_counts fs)) (∅, ∅).

Definition get_revision_certs (e : revision_enumerator) (rid : bytes) : list bytes :=
  match range_of (revision_certs e) rid with
  | [] => get_revision_cert_hashes rid
  | hashes => hashes
  end.

(** ** [step] *)

(** The items a list of candidates contributes, those the session wants. *)
Fixpoint queue_items {A} (ask : S → A → S * bool) (item : A → enumerator_item) (l : list A) (s : S) : S * list enumerator_item :=
  match l with
  | [] => (s, [])
  | x :: l =>
      let '(s, wanted) := ask s x in
      let '(s, is_) := queue_items ask item l s in
      (s, if wanted then item x :: is_ else is_)
  end.

(** The files and the revision itself, if the session wants it. *)
Definition queue_rev (r : bytes) (s : S) : result (S * list enumerator_item) :=
  let '(s, wanted) := process_this_rev s r in
  if (wanted : bool) then
    '(full_files, del_files) ← files_for_revision r;
    let '(s, i1) := queue_items queue_this_file fdata (set_iter full_files) s in
    let '(s, i2) := queue_items (λ s d, queue_this_file s d.2) (λ d, fdelta d.1 d.2) (set_iter del_files) s in
    Ok (s, i1 ++ i2 ++ [rev_item r])
  else Ok (s, []).

(** What is queued for a revision. *)
Definition queue_contents (e : revision_enumerator) (r : bytes) (s : S) : result (S * list enumerator_item) :=
  '(s, is_) ← queue_rev r s;
  let '(s, i3) := queue_items queue_this_cert cert_item (get_revision_certs e r) s in
  Ok (s, is_ ++ i3).

(** Taking a revision off [revs]. *)
Definition expand (e : revision_enumerator) (s : S) : result (revision_enumerator * S) :=
  match revs e with
  | [] => Ok (e, s)
  | r :: rest =>
      let with_revs l := Enumerator (terminal_nodes e) (enumerated_nodes e) l (items e) (graph e) (inverse_graph e) (revision_certs e) in
      if bool_decide (r ∈ enumerated_nodes e) then Ok (with_revs rest, s)
      else if negb (all_parents_enumerated e r) then Ok (with_revs (rest ++ [r]), s)
      else
        let rest :=
          if bool_decide (r ∈ terminal_nodes e) then rest
          else foldl (λ l child, if bool_decide (r ∈ enumerated_nodes e) then l else child :: l) rest (range_of (graph e) r) in
        let e' is_ := Enumerator (terminal_nodes e) ({[r]} ∪ enumerated_nodes e) rest is_ (graph e) (inverse_graph e) (revision_certs e) in
        if null_id r then Ok (e' (items e), s)
        else
          '(s, is_) ← queue_contents e r s;
          Ok (e' (items e ++ is_), s)
  end.

(** Handing out an item. *)
Definition emit (i : enumerator_item) (s : S) : result S :=
  match i with
  | fdata a => I_ (negb (null_id a)) ;; note_file_data s a
  | fdelta a b => I_ (negb (null_id a)) ;; I_ (negb (null_id b)) ;; note_file_delta s a b
  | rev_item a => I_ (negb (null_id a)) ;; note_rev s a
  | cert_item a => I_ (negb (null_id a)) ;; note_cert s a
  end.

Fixpoint step (fuel : nat) (e : revision_enumerator) (s : S) : result (revision_enumerator * S) :=
  if done_ e then Ok (e, s)
  else
    '(e, s) ← (if bool_decide (items e = []) && negb (bool_decide (revs e = [])) then expand e s else Ok (e, s));
    match items e with
    | i :: rest =>
        s ← emit i s;
        Ok (Enumerator (terminal_nodes e) (enumerated_nodes e) (revs e) rest (graph e) (inverse_graph e) (revision_certs e), s)
    | [] => match fuel with O => Err invariant_failure | Datatypes.S fuel => step fuel e s end
    end.

(** A session that is given the time and the buffer space calls [step] until [done]. *)
Fixpoint enumerate (calls fuel : nat) (e : revision_enumerator) (s : S) : result (revision_enumerator * S) :=
  if done_ e then Ok (e, s)
  else
    match calls with
    | O => Err invariant_failure
    | Datatypes.S calls => '(e, s) ← step fuel e s; enumerate calls fuel e s
    end.
End enumerator.
