(* ===== verification/EnumeratorFiles.v ===== *)
(** * The files sent with a revision

    [files_for_revision] against its comment (the one on bug 15846): a file is sent when
    every edge of the revision lists it as new, as a delta if some edge has one and in full otherwise. *)

From S2P Require Import Prelude Numbers Paths Cset Revision Enumerator.

(** The cset has a delta from [src] to [f]; it adds [f]; [f] is new in it. *)
Definition has_delta (cs : cset) (src f : bytes) : Prop := ∃ p, deltas_applied cs !! p = Some (src, f).
Definition has_add (cs : cset) (f : bytes) : Prop := ∃ p, files_added cs !! p = Some f.
Definition new_in (cs : cset) (f : bytes) : Prop := has_add cs f ∨ ∃ src, has_delta cs src f.

(** ** One edge *)

Definition new_files (cs : cset) : gset bytes :=
  list_to_set ((snd <$> map_iter (files_added cs)) ++ (snd <$> (snd <$> map_iter (deltas_applied cs)))).

Lemma elem_of_map_values {V} (m : gmap file_path V) (v : V) : v ∈ (snd <$> map_iter m) ↔ ∃ p, m !! p = Some v.
Proof.
  rewrite list_elem_of_fmap. split.
  - intros ([p v'] & -> & Hp%elem_of_map_iter). by exists p.
  - intros [p Hp%elem_of_map_iter]. by exists (p, v).
Qed.

Lemma elem_of_new_files cs f : f ∈ new_files cs ↔ new_in cs f.
Proof.
  unfold new_files, new_in, has_add, has_delta. rewrite elem_of_list_to_set, elem_of_app, elem_of_map_values, list_elem_of_fmap. split.
  - intros [?|([src f'] & -> & Hd%elem_of_map_values)]; [by left|]. right. by exists src.
  - intros [?|[src Hd]]; [by left|]. right. exists (src, f). split; [done|]. by apply elem_of_map_values.
Qed.

Lemma foldl_count (l : list bytes) (m : gmap bytes Z) f :
  NoDup l →
  foldl (λ m f, <[f := default 0 (m !! f) + 1]> m) m l !! f = if decide (f ∈ l) then Some (default 0 (m !! f) + 1) else m !! f.
Proof.
  intros Hnd. revert m. induction Hnd as [|x l Hx Hnd IH]; intros m; [done|]. cbn [foldl]. rewrite IH. clear IH.
  destruct (decide (f = x)) as [->|Hne].
  - rewrite (decide_False (P := x ∈ l)), (decide_True (P := x ∈ x :: l)) by (by try left). by rewrite lookup_insert_eq.
  - rewrite !lookup_insert_ne by done. destruct (decide (f ∈ l)) as [Hl|Hl].
    + by rewrite decide_True by (by right).
    + rewrite decide_False; [done|]. by intros [|]%elem_of_cons.
Qed.

Lemma foldl_deltas (l : list (bytes * bytes)) (m : gmap bytes bytes) f :
  (∃ src, foldl (λ m d, <[d.2 := d.1]> m) m l !! f = Some src ∧ (src, f) ∈ l) ∨
  (foldl (λ m d, <[d.2 := d.1]> m) m l !! f = m !! f ∧ ∀ src, (src, f) ∉ l).
Proof.
  revert m. induction l as [|[src x] l IH]; intros m; [right; split; [done|]; by intros src ?%not_elem_of_nil|]. cbn [foldl fst snd].
  destruct (IH (<[x := src]> m)) as [(s & Hs & Hin)|[Hs Hn]].
  - left. exists s. split; [done|]. by right.
  - destruct (decide (f = x)) as [->|Hne].
    + left. exists src. rewrite Hs, lookup_insert_eq. split; [done|by left].
    + right. rewrite Hs, lookup_insert_ne by done. split; [done|]. intros s [Heq|Hl]%elem_of_cons; [congruence|by apply (Hn s)].
Qed.

(** ** All edges *)

Definition times_new (l : list cset) (f : bytes) : nat := length (filter (λ cs, f ∈ new_files cs) l).

Record counted (l : list cset) (fs : file_sets) : Prop := {
  cnt_adds : ∀ f, f ∈ file_adds fs ↔ ∃ cs, cs ∈ l ∧ has_add cs f;
  cnt_delta : ∀ f src, file_deltas fs !! f = Some src → ∃ cs, cs ∈ l ∧ has_delta cs src f;
  cnt_no_delta : ∀ f, file_deltas fs !! f = None → ∀ cs src, cs ∈ l → ¬ has_delta cs src f;
  cnt_edges : ∀ f, file_edge_counts fs !! f = if (times_new l f =? 0)%nat then None else Some (Z.of_nat (times_new l f))
}.

Lemma times_new_snoc l cs f : times_new (l ++ [cs]) f = (times_new l f + if decide (f ∈ new_files cs) then 1 else 0)%nat.
Proof. unfold times_new. rewrite filter_app, length_app, filter_cons, filter_nil. by destruct (decide (f ∈ new_files cs)). Qed.

Lemma elem_of_snoc (l : list cset) x (P : cset → Prop) : (∃ cs, cs ∈ l ++ [x] ∧ P cs) ↔ (∃ cs, cs ∈ l ∧ P cs) ∨ P x.
Proof.
  split.
  - intros (cs & [Hl|Hx%list_elem_of_singleton]%elem_of_app & Hp); [left; by exists cs|right; by subst].
  - intros [(cs & Hl & Hp)|Hp]; [exists cs|exists x]; (split; [|done]); apply elem_of_app; [by left|right; by left].
Qed.

Lemma counted_step l fs cs : counted l fs → counted (l ++ [cs]) (count_edge fs cs).
Proof.
  intros [Ha Hd Hn Hc]. split; cbn.
  - intros f. rewrite elem_of_snoc, elem_of_union, elem_of_list_to_set, elem_of_map_values, Ha. unfold has_add. tauto.
  - intros f src. rewrite elem_of_snoc.
    destruct (foldl_deltas (snd <$> map_iter (deltas_applied cs)) (file_deltas fs) f) as [(s & -> & Hs%elem_of_map_values)|[-> _]].
    + intros [= <-]. by right.
    + intros Hf. left. by apply Hd.
  - intros f Hf cs' src [Hl|Hx%list_elem_of_singleton]%elem_of_app;
      destruct (foldl_deltas (snd <$> map_iter (deltas_applied cs)) (file_deltas fs) f) as [(s & Hs & _)|[Hs Hno]]; try congruence.
    + rewrite Hs in Hf. by apply Hn.
    + subst cs'. intros Hdel%elem_of_map_values. by apply (Hno src).
  - intros f. rewrite foldl_count by apply NoDup_set_iter. fold (new_files cs). rewrite times_new_snoc, Hc.
    destruct (decide (f ∈ set_iter (new_files cs))) as [Hf|Hf]; rewrite elem_of_set_iter in Hf.
    + rewrite decide_True by done. rewrite (proj2 (Nat.eqb_neq (times_new l f + 1) 0)) by lia.
      destruct (Nat.eqb_spec (times_new l f) 0) as [Hz|Hz]; cbn; f_equal; lia.
    + rewrite decide_False by done. by rewrite Nat.add_0_r.
Qed.

Lemma counted_all l : counted l (foldl count_edge (FileSets ∅ ∅ ∅) l).
Proof.
  induction l as [|cs l IH] using rev_ind.
  - split; cbn; [|done| |done].
    + intros f. split; [by intros ?%not_elem_of_empty|]. by intros (cs & ?%not_elem_of_nil & _).
    + by intros f _ cs src ?%not_elem_of_nil.
  - rewrite foldl_app. by apply counted_step.
Qed.

Lemma times_new_bound l f : (times_new l f ≤ length l)%nat.
Proof. apply length_filter. Qed.

Lemma times_new_all l f : times_new l f = length l ↔ ∀ cs, cs ∈ l → new_in cs f.
Proof.
  induction l as [|cs l IH]; [split; [by intros _ cs ?%not_elem_of_nil|done]|].
  unfold times_new in *. rewrite filter_cons. pose proof (times_new_bound l f) as Hb. unfold times_new in Hb. destruct (decide (f ∈ new_files cs)) as [Hf|Hf]; cbn [length].
  - rewrite Nat.succ_inj_wd, IH. split.
    + intros Hl cs' [->|Hin]%elem_of_cons; [by apply elem_of_new_files|by apply Hl].
    + intros Hl cs' Hin. apply Hl. by right.
  - split; [lia|]. intros Hl. destruct Hf. apply elem_of_new_files, Hl. by left.
Qed.

(** ** The choice *)

Lemma choose_file_eq (n : Z) (fs : file_sets) (full : gset bytes) (del : gset (bytes * bytes)) (x : bytes) (k : Z) :
  choose_file n fs (full, del) (x, k) =
    if k <? n then Ok (full, del)
    else match file_deltas fs !! x with
         | Some src => Ok (full, {[(src, x)]} ∪ del)
         | None => if decide (x ∈ file_adds fs) then Ok ({[x]} ∪ full, del) else Err invariant_failure
         end.
Proof. done. Qed.

Lemma choose_all n fs l full del :
  (∀ c, c ∈ l → n ≤ c.2 → file_deltas fs !! c.1 = None → c.1 ∈ file_adds fs) →
  ∃ full' del', foldM (choose_file n fs) l (full, del) = Ok (full', del') ∧
    (∀ f, f ∈ full' ↔ f ∈ full ∨ ∃ k, (f, k) ∈ l ∧ n ≤ k ∧ file_deltas fs !! f = None) ∧
    (∀ src f, (src, f) ∈ del' ↔ (src, f) ∈ del ∨ ∃ k, (f, k) ∈ l ∧ n ≤ k ∧ file_deltas fs !! f = Some src).
Proof.
  revert full del. induction l as [|[x k] l IH]; intros full del Hadd.
  { exists full, del. cbn. split_and!; [done|..]; intros; (split; [by left|]); by intros [?|(k & ?%not_elem_of_nil & _)]. }
  assert (∀ c, c ∈ l → n ≤ c.2 → file_deltas fs !! c.1 = None → c.1 ∈ file_adds fs) as Hadd' by (intros c Hc; apply Hadd; by right).
  pose proof (Hadd (x, k) ltac:(by left)) as Hx. cbn in Hx. clear Hadd. cbn [foldM]. rewrite choose_file_eq.
  destruct (Z.ltb_spec k n) as [Hk|Hk].
  - cbn [mbind result_bind]. destruct (IH full del Hadd') as (full' & del' & -> & Hf & Hd). exists full', del'. split_and!; [done|..].
    + intros f. rewrite Hf. setoid_rewrite elem_of_cons. split; [naive_solver|]. intros [?|(k' & [[= -> ->]|?] & ? & ?)]; [by left|lia|right; eauto].
    + intros src f. rewrite Hd. setoid_rewrite elem_of_cons. split; [naive_solver|]. intros [?|(k' & [[= -> ->]|?] & ? & ?)]; [by left|lia|right; eauto].
  - destruct (file_deltas fs !! x) as [src|] eqn:Hsrc.
    + cbn [mbind result_bind]. destruct (IH full ({[(src, x)]} ∪ del) Hadd') as (full' & del' & -> & Hf & Hd). exists full', del'. split_and!; [done|..].
      * intros f. rewrite Hf. setoid_rewrite elem_of_cons. split; [naive_solver|]. intros [?|(k' & [[= -> ->]|?] & ? & ?)]; [by left|congruence|right; eauto].
      * intros src' f. rewrite Hd, elem_of_union, elem_of_singleton. setoid_rewrite elem_of_cons. split.
        -- intros [[[= -> ->]|?]|(k' & ? & ? & ?)]; [right; exists k; auto|by left|right; exists k'; auto].
        -- intros [?|(k' & [[= -> ->]|?] & ? & ?)]; [by left; right| |right; eauto]. left. left. congruence.
    + rewrite decide_True by auto. cbn [mbind result_bind]. destruct (IH ({[x]} ∪ full) del Hadd') as (full' & del' & -> & Hf & Hd).
      exists full', del'. split_and!; [done|..].
      * intros f. rewrite Hf, elem_of_union, elem_of_singleton. setoid_rewrite elem_of_cons. split.
        -- intros [[->|?]|(k' & ? & ? & ?)]; [right; exists k; auto|by left|right; exists k'; auto].
        -- intros [?|(k' & [[= -> ->]|?] & ? & ?)]; [by left; right|by left; left|right; eauto].
      * intros src' f. rewrite Hd. setoid_rewrite elem_of_cons. split; [naive_solver|]. intros [?|(k' & [[= -> ->]|?] & ? & ?)]; [by left|congruence|right; eauto].
Qed.

(** A file every edge counts. *)
Lemma counted_everywhere l fs f :
  counted l fs →
  (∃ k, (f, k) ∈ map_iter (file_edge_counts fs) ∧ Z.of_nat (length l) ≤ k) ↔ l ≠ [] ∧ ∀ cs, cs ∈ l → new_in cs f.
Proof.
  intros C. rewrite <- times_new_all. pose proof (times_new_bound l f) as Hb. setoid_rewrite elem_of_map_iter. setoid_rewrite (cnt_edges _ _ C).
  split.
  - intros (k & Hk & Hle). destruct (Nat.eqb_spec (times_new l f) 0) as [|Hn]; [done|]. injection Hk as <-.
    split; [|lia]. intros ->. cbn in Hn. done.
  - intros [Hl Heq]. exists (Z.of_nat (times_new l f)). rewrite Heq. split; [|lia].
    destruct l; [done|]. done.
Qed.

(** The file is new on every edge of the revision, which has one. *)
Definition new_on_every_edge (rs : revision_t) (f : bytes) : Prop :=
  edges rs ≠ ∅ ∧ ∀ old cs, edges rs !! old = Some cs → new_in cs f.

Lemma elem_of_csets (m : gmap bytes cset) cs : cs ∈ (snd <$> map_iter m) ↔ ∃ old, m !! old = Some cs.
Proof.
  rewrite list_elem_of_fmap. split.
  - intros ([old cs'] & -> & Hp%elem_of_map_iter). by exists old.
  - intros [old Hp%elem_of_map_iter]. by exists (old, cs).
Qed.

(** C20: [files_for_revision] never trips its invariant: for a revision the database has, it
    sends exactly the files that are new on every edge: as a delta those that have a delta on some edge,
    from the source of such a delta and from one source only, and in full the others. *)
Theorem files_for_revision_exact `{!revision_source} r rs :
  get_revision r = Ok rs →
  ∃ full del, files_for_revision r = Ok (full, del) ∧
    (∀ f, f ∈ full ↔ new_on_every_edge rs f ∧ ∀ old cs src, edges rs !! old = Some cs → ¬ has_delta cs src f) ∧
    (∀ f, (∃ src, (src, f) ∈ del) ↔ new_on_every_edge rs f ∧ ∃ old cs src, edges rs !! old = Some cs ∧ has_delta cs src f) ∧
    (∀ src f, (src, f) ∈ del → ∃ old cs, edges rs !! old = Some cs ∧ has_delta cs src f) ∧
    (∀ src src' f, (src, f) ∈ del → (src', f) ∈ del → src = src').
Proof.
  intros Hr. unfold files_for_revision. rewrite Hr. cbn [mbind result_bind].
  set (l := snd <$> map_iter (edges rs)). pose proof (counted_all l) as C. set (fs := foldl count_edge (FileSets ∅ ∅ ∅) l) in *.
  assert (∀ cs, cs ∈ l ↔ ∃ old, edges rs !! old = Some cs) as Hin by (intros cs; apply elem_of_csets).
  assert (length l = edge_count rs) as Hlen by (unfold l; by rewrite length_fmap, length_map_iter).
  assert (∀ f, (∃ k, (f, k) ∈ map_iter (file_edge_counts fs) ∧ Z.of_nat (edge_count rs) ≤ k) ↔ new_on_every_edge rs f) as Hev.
  { intros f. rewrite <- Hlen, (counted_everywhere l fs f C). unfold new_on_every_edge. setoid_rewrite Hin. split.
    - intros [Hl Hall]. split; [intros He; destruct Hl; apply length_zero_iff_nil; rewrite Hlen; unfold edge_count; by rewrite He|]. eauto.
    - intros [Hl Hall]. split; [|naive_solver]. intros He. destruct Hl. apply map_size_empty_inv. fold (edge_count rs). by rewrite <- Hlen, He. }
  assert (∀ f, file_deltas fs !! f = None ↔ ∀ old cs src, edges rs !! old = Some cs → ¬ has_delta cs src f) as Hno.
  { intros f. split; [intros Hf old cs src He; apply (cnt_no_delta _ _ C f Hf); apply Hin; by exists old|].
    intros Hf. destruct (file_deltas fs !! f) as [src|] eqn:Hs; [|done]. apply (cnt_delta _ _ C) in Hs as (cs & [old Ho]%Hin & Hd). by destruct (Hf old cs src). }
  destruct (choose_all (Z.of_nat (edge_count rs)) fs (map_iter (file_edge_counts fs)) ∅ ∅) as (full & del & -> & Hfull & Hdel).
  { intros [f k] Hk Hle Hf. cbn in *. destruct (proj1 (Hev f) ltac:(by exists k)) as [Hne Hall]. apply (cnt_adds _ _ C).
    destruct (map_choose _ Hne) as (old & cs & Ho). exists cs. split; [apply Hin; by exists old|].
    destruct (Hall old cs Ho) as [|[src Hd]]; [done|]. exfalso. by apply (proj1 (Hno f) Hf old cs src). }
  assert (∀ f src, (src, f) ∈ del ↔ new_on_every_edge rs f ∧ file_deltas fs !! f = Some src) as Hdel'.
  { intros f src. rewrite Hdel, <- Hev. split; [intros [?%not_elem_of_empty|(k & ? & ? & ?)]; [done|eauto]|]. intros [(k & ? & ?) ?]. right. eauto. }
  exists full, del. split_and!; [done|..].
  - intros f. rewrite Hfull, <- Hev, <- Hno. split; [intros [?%not_elem_of_empty|(k & ? & ? & ?)]; [done|eauto]|]. intros [(k & ? & ?) ?]. right. eauto.
  - intros f. split.
    + intros [src [Hn Hs]%Hdel']. split; [done|]. apply (cnt_delta _ _ C) in Hs as (cs & [old Ho]%Hin & Hd). by exists old, cs, src.
    + intros [Hn (old & cs & src & Ho & Hd)]. destruct (file_deltas fs !! f) as [src'|] eqn:Hs; [exists src'; by apply Hdel'|].
      by destruct (proj1 (Hno f) Hs old cs src Ho).
  - intros src f [_ Hs]%Hdel'. apply (cnt_delta _ _ C) in Hs as (cs & [old Ho]%Hin & Hd). by exists old, cs.
  - intros src src' f [_ H1]%Hdel' [_ H2]%Hdel'. congruence.
Qed.

(** ** An example: a merge of [b] and [c] *)

(** The file [1] is added on both edges, [2] is a delta on one and added on the other, [3] is new on one edge only. *)
Definition merged_revision : revision_t :=
  Revision internal (lit "m")
    (<[lit "b" := Cset ∅ ∅ {[FilePath (lit "x") := lit "1"]} ∅
         (<[FilePath (lit "y") := (lit "0", lit "2")]> {[FilePath (lit "z") := (lit "1", lit "3")]}) ∅ ∅]>
     {[lit "c" := Cset ∅ ∅ (<[FilePath (lit "x") := lit "1"]> {[FilePath (lit "y") := lit "2"]}) ∅ ∅ ∅ ∅]})
    made_for_database.

#[export] Instance merge_source : revision_source := {|
  get_revision r :=
    if bool_decide (r = lit "d") then Ok merged_revision
    else Ok (Revision internal (lit "m") {[lit "a" := empty_cset]} made_for_database);
  get_revision_cert_hashes r := [lit "cert-" ++ r]
|}.

Example files_of_merge : files_for_revision (lit "d") = Ok ({[lit "1"]}, {[(lit "0", lit "2")]}).
Proof. vm_compute. reflexivity. Qed.

Lemma files_for_revision_exact_witness :
  ∃ full del, files_for_revision (lit "d") = Ok (full, del) ∧
    ∀ src f, (src, f) ∈ del → ∃ old cs, edges merged_revision !! old = Some cs ∧ has_delta cs src f.
Proof.
  destruct (files_for_revision_exact (lit "d") merged_revision) as (full & del & H1 & _ & _ & H2 & _); [|exists full, del; exact (conj H1 H2)].
  unfold get_revision, merge_source. rewrite (bool_decide_eq_true_2 (lit "d" = lit "d") eq_refl). exact eq_refl.
Defined.
