(* ===== verification/EnumeratorCorrect.v ===== *)
(** * The enumerator visits every revision once, parents first

    However the session answers, the calls of [step] amount to one visit of each
    revision, in an order in which every revision comes after its parents: a visit
    queues what the session wants of the revision and hands it out before
    the next one. *)

From S2P Require Import Prelude Numbers Paths Cset Revision Enumerator EnumeratorFiles.

Section correct.
Context `{!revision_source} {S : Type} `{!enumerator_callbacks S}.

Definition set_revs (e : revision_enumerator) (l : list bytes) : revision_enumerator :=
  Enumerator (terminal_nodes e) (enumerated_nodes e) l (items e) (graph e) (inverse_graph e) (revision_certs e).
Definition set_items (e : revision_enumerator) (l : list enumerator_item) : revision_enumerator :=
  Enumerator (terminal_nodes e) (enumerated_nodes e) (revs e) l (graph e) (inverse_graph e) (revision_certs e).

(** ** The outcome of calling [step] until done

    [runs e s x]: with enough fuel and calls the session's state becomes, or the failure is, [x]. *)
Definition runs (e : revision_enumerator) (s : S) (x : result S) : Prop :=
  ∃ N, ∀ f1 f2 c, (N ≤ f1)%nat → (N ≤ f2)%nat → (N ≤ c)%nat →
    snd <$> ('(e, s) ← step f1 e s; enumerate c f2 e s) = x.

Lemma runs_enumerate e s x : runs e s x → ∃ N, ∀ c f, (N ≤ c)%nat → (N ≤ f)%nat → snd <$> enumerate c f e s = x.
Proof using Type.
  intros [N HN]. exists (Datatypes.S N). intros [|c] f Hc Hf; [lia|]. cbn [enumerate]. destruct (done_ e) eqn:Hd; [|apply HN; lia].
  specialize (HN N N (Datatypes.S N) ltac:(lia) ltac:(lia) ltac:(lia)). destruct N; cbn [step] in HN; rewrite Hd in HN; cbn [mbind result_bind enumerate] in HN; by rewrite Hd in HN.
Qed.

Lemma runs_done e s : done_ e = true → runs e s (Ok s).
Proof using Type.
  intros Hd. exists 0%nat. intros f1 f2 c _ _ _. destruct f1; cbn [step]; rewrite Hd; cbn [mbind result_bind]; destruct c; cbn [enumerate]; by rewrite Hd.
Qed.

Lemma not_done e : items e ≠ [] ∨ revs e ≠ [] → done_ e = false.
Proof using Type. unfold done_. intros [?|?]; repeat case_bool_decide; done. Qed.

Lemma runs_emit e s i rest x :
  items e = i :: rest →
  match emit i s with Ok s1 => runs (set_items e rest) s1 x | Err er => x = Err er end → runs e s x.
Proof using Type.
  intros Hi Hx. assert (∀ f, step f e s = s1 ← emit i s; Ok (set_items e rest, s1)) as Hstep.
  { intros f. destruct f; cbn [step]; (rewrite not_done by (left; by rewrite Hi)); rewrite (bool_decide_eq_false_2 (items e = [])) by (by rewrite Hi); cbn [andb mbind result_bind]; by rewrite Hi. }
  destruct (emit i s) as [s1|er].
  - apply runs_enumerate in Hx as [N HN]. exists N. intros f1 f2 c _ Hf Hc. rewrite Hstep. cbn [mbind result_bind]. by apply HN.
  - subst x. exists 0%nat. intros. by rewrite Hstep.
Qed.

Lemma runs_expand e s x :
  items e = [] → revs e ≠ [] →
  match expand e s with Ok (e', s') => runs e' s' x | Err er => x = Err er end → runs e s x.
Proof using Type.
  intros Hi Hr Hx. assert (∀ f, step f e s =
    '(e, s) ← expand e s;
    match items e with
    | i :: rest => s ← emit i s; Ok (set_items e rest, s)
    | [] => match f with O => Err invariant_failure | Datatypes.S f => step f e s end
    end) as Hstep.
  { intros f. destruct f; cbn [step]; (rewrite not_done by auto); rewrite (bool_decide_eq_true_2 _ Hi), (bool_decide_eq_false_2 _ Hr); done. }
  destruct (expand e s) as [[e' s']|er].
  - destruct Hx as [N HN]. exists (Datatypes.S N). intros [|f1] f2 c Hf1 Hf2 Hc; [lia|]. rewrite Hstep. cbn [mbind result_bind].
    destruct (items e') as [|i rest] eqn:Hi'; [apply HN; lia|].
    rewrite <- (HN N f2 c) by lia. f_equal. destruct N; cbn [step]; (rewrite not_done by (left; by rewrite Hi')); 
      rewrite (bool_decide_eq_false_2 (items e' = [])) by (by rewrite Hi'); cbn [andb mbind result_bind]; by rewrite Hi'.
  - subst x. exists 0%nat. intros f1 f2 c _ _ _. by rewrite Hstep.
Qed.

Lemma runs_items e s x :
  match foldM (λ s i, emit i s) (items e) s with Ok s1 => runs (set_items e []) s1 x | Err er => x = Err er end → runs e s x.
Proof using Type.
  remember (items e) as is_ eqn:Hi. revert e s Hi. induction is_ as [|i rest IH]; intros e s Hi; cbn [foldM].
  - unfold set_items. rewrite Hi. by destruct e.
  - intros Hx. apply (runs_emit e s i rest); [done|]. destruct (emit i s) as [s1|]; cbn [mbind result_bind] in Hx; [|done].
    apply IH; [done|]. done.
Qed.

(** ** A visit *)

Definition visit (e : revision_enumerator) (s : S) (r : bytes) : result S :=
  if null_id r then Ok s
  else '(s, is_) ← queue_contents e r s; foldM (λ s i, emit i s) is_ s.

(** ** The graph *)

Context (g inv certs : multimap).
Context (Hinv : ∀ p c, (c, p) ∈ inv ↔ (p, c) ∈ g).

(** The revisions, the null one included. *)
Definition revisions : gset bytes := {[ [] ]} ∪ list_to_set g.*2.

Lemma range_of_elem m k x : x ∈ range_of m k ↔ (k, x) ∈ m.
Proof using Type.
  unfold range_of. rewrite list_elem_of_fmap. split.
  - intros ([k' x'] & -> & [Hk Hx]%list_elem_of_filter). cbn in *. by subst.
  - intros Hx. exists (k, x). split; [done|]. by apply list_elem_of_filter.
Qed.

Lemma revisions_elem x : x ∈ revisions ↔ x = [] ∨ ∃ p, (p, x) ∈ g.
Proof using Type.
  unfold revisions. rewrite elem_of_union, elem_of_singleton, elem_of_list_to_set, list_elem_of_fmap. split.
  - intros [?|([p c] & -> & ?)]; [by left|]. right. by exists p.
  - intros [?|[p ?]]; [by left|]. right. by exists (p, x).
Qed.

(** The state between two visits, after those of [order]. *)
Record visited (e : revision_enumerator) (order : list bytes) : Prop := {
  vis_graph : graph e = g;
  vis_inverse : inverse_graph e = inv;
  vis_terminal : terminal_nodes e = ∅;
  vis_items : items e = [];
  vis_certs : revision_certs e = certs;
  vis_nodes : ∀ x, x ∈ enumerated_nodes e ↔ x ∈ order;
  vis_revs : ∀ x, x ∈ revs e → x ∈ revisions;
  vis_ready : ∀ x, x ∈ revisions → x ∉ order → (∀ p, (p, x) ∈ g → p ∈ order) → x ∈ revs e
}.

Lemma ready_parents e (order : list bytes) (x : bytes) :
  visited e order → all_parents_enumerated e x = true ↔ ∀ p, (p, x) ∈ g → p ∈ order.
Proof using Hinv.
  intros V. unfold all_parents_enumerated. rewrite (vis_inverse _ _ V), forallb_forall. split.
  - intros Hall p Hp. apply (vis_nodes _ _ V). apply (bool_decide_eq_true (p ∈ enumerated_nodes e)), Hall, list_elem_of_In, range_of_elem. by apply Hinv.
  - intros Hall p Hp%list_elem_of_In%range_of_elem%Hinv. apply bool_decide_eq_true, (vis_nodes _ _ V). by apply Hall.
Qed.

(** Dropping a revision that is enumerated, or changing the order, loses nothing. *)
Lemma visited_revs e (order l : list bytes) :
  visited e order → (∀ x, x ∈ l → x ∈ revs e) → (∀ x, x ∈ revs e → x ∈ l ∨ x ∈ order) → visited (set_revs e l) order.
Proof using Type.
  intros [Hg Hi Ht His Hc Hn Hr Hy] Hsub Hsup. split; cbn; try done.
  - intros x Hx. by apply Hr, Hsub.
  - intros x Hx Ho Hp. destruct (Hsup x); [by apply Hy|done..].
Qed.

Lemma cull e s order r rest x :
  visited e order → revs e = r :: rest → r ∈ order → runs (set_revs e rest) s x → runs e s x.
Proof using Type.
  intros V Hr Ho Hx. apply runs_expand; [apply V|by rewrite Hr|]. unfold expand. rewrite Hr.
  rewrite bool_decide_eq_true_2 by (by apply (vis_nodes _ _ V)). done.
Qed.

Lemma rotate e s order r rest x :
  visited e order → revs e = r :: rest → r ∉ order → ¬ (∀ p, (p, r) ∈ g → p ∈ order) →
  runs (set_revs e (rest ++ [r])) s x → runs e s x.
Proof using Hinv.
  intros V Hr Ho Hp Hx. apply runs_expand; [apply V|by rewrite Hr|]. unfold expand. rewrite Hr.
  rewrite bool_decide_eq_false_2 by (by rewrite (vis_nodes _ _ V)).
  destruct (all_parents_enumerated e r) eqn:Ha; [|done]. destruct Hp. by apply (ready_parents _ _ r V).
Qed.

(** ** Finding a revision to visit *)

Definition ready (order : list bytes) (r : bytes) : Prop := r ∉ order ∧ ∀ p, (p, r) ∈ g → p ∈ order.

Lemma search l1 l2 y e order :
  visited e order → revs e = l1 ++ y :: l2 → ready order y →
  ∃ r rest, ready order r ∧ visited (set_revs e (r :: rest)) order ∧
    ∀ s x, runs (set_revs e (r :: rest)) s x → runs e s x.
Proof using Hinv.
  revert l2 e. induction l1 as [|r l1 IH]; intros l2 e V Hr Hy.
  - exists y, l2. split; [done|]. assert (set_revs e (y :: l2) = e) as -> by (unfold set_revs; cbn in Hr; rewrite <- Hr; by destruct e). done.
  - cbn [app] in Hr. destruct (decide (r ∈ order)) as [Ho|Ho].
    + destruct (IH l2 (set_revs e (l1 ++ y :: l2))) as (r' & rest & Hre & V' & Hrun); [|done|done|].
      { apply visited_revs; [done|..]; rewrite Hr; set_solver. }
      exists r', rest. split_and!; [done..|]. intros s x Hx. eapply cull; [done..|]. by apply Hrun.
    + destruct (all_parents_enumerated e r) eqn:Ha.
      { exists r, (l1 ++ y :: l2). split; [split; [done|]; by apply (ready_parents _ _ _ V)|].
        assert (set_revs e (r :: l1 ++ y :: l2) = e) as -> by (unfold set_revs; rewrite <- Hr; by destruct e). done. }
      destruct (IH (l2 ++ [r]) (set_revs e (l1 ++ y :: l2 ++ [r]))) as (r' & rest & Hre & V' & Hrun); [|done|done|].
      { apply visited_revs; [done|..]; rewrite Hr; set_solver. }
      exists r', rest. split_and!; [done..|]. intros s x Hx. eapply rotate; [done..| |].
      * intros Hp. apply (ready_parents _ _ _ V) in Hp. congruence.
      * rewrite <- app_assoc. by apply Hrun.
Qed.

(** ** Visiting it *)

Definition next_state (e : revision_enumerator) (r : bytes) (rest : list bytes) : revision_enumerator :=
  Enumerator (terminal_nodes e) ({[r]} ∪ enumerated_nodes e) (reverse (range_of g r) ++ rest) [] (graph e) (inverse_graph e) (revision_certs e).

Lemma foldl_cons {A} (l rest : list A) : foldl (λ l x, x :: l) rest l = reverse l ++ rest.
Proof using Type. revert rest. induction l as [|x l IH]; intros rest; [done|]. cbn [foldl]. by rewrite IH, reverse_cons, <- app_assoc. Qed.

Lemma visit_ready e s order r rest x :
  visited e order → revs e = r :: rest → ready order r →
  match visit e s r with Ok s1 => runs (next_state e r rest) s1 x | Err er => x = Err er end → runs e s x.
Proof using Hinv.
  intros V Hr [Ho Hp] Hx. apply runs_expand; [apply V|by rewrite Hr|]. unfold expand. rewrite Hr.
  assert (r ∉ enumerated_nodes e) as Hn by (by rewrite (vis_nodes _ _ V)).
  rewrite (bool_decide_eq_false_2 _ Hn), (proj2 (ready_parents _ _ r V) Hp). cbn [negb].
  rewrite (bool_decide_eq_false_2 (r ∈ terminal_nodes e)) by (rewrite (vis_terminal _ _ V); set_solver).
  rewrite foldl_cons, (vis_graph _ _ V), (vis_items _ _ V). unfold visit in Hx.
  unfold next_state in Hx. rewrite (vis_graph _ _ V) in Hx.
  destruct (null_id r); [done|]. destruct (queue_contents e r s) as [[s1 is_]|er]; cbn [mbind result_bind] in *; [|done].
  apply runs_items. cbn [items app]. done.
Qed.

Lemma visited_next e order r rest : visited e order → revs e = r :: rest → ready order r → visited (next_state e r rest) (order ++ [r]).
Proof using Hinv.
  intros [Hg Hi Ht His Hc Hn Hr Hy] He [Ho Hp]. split; cbn; try done.
  - intros x. rewrite elem_of_union, elem_of_singleton, Hn, elem_of_app, list_elem_of_singleton. tauto.
  - intros x. rewrite elem_of_app, elem_of_reverse, range_of_elem. intros [Hx|Hx].
    + apply revisions_elem. right. by exists r.
    + apply Hr. rewrite He. by right.
  - intros x Hx Hnot Hpar. rewrite not_elem_of_app, list_elem_of_singleton in Hnot. destruct Hnot as [Hnot Hne].
    rewrite elem_of_app, elem_of_reverse, range_of_elem. destruct (decide ((r, x) ∈ g)) as [|Hch]; [by left|]. right.
    assert (x ∈ revs e) as Hin.
    { apply Hy; [done..|]. intros p Hpx. specialize (Hpar p Hpx). apply elem_of_app in Hpar as [?|Hpr%list_elem_of_singleton]; [done|by subst]. }
    rewrite He in Hin. by apply elem_of_cons in Hin as [|].
Qed.

(** ** The order of the visits *)

Definition parents_first (order : list bytes) : Prop := ∀ l1 x l2, order = l1 ++ x :: l2 → ∀ p, (p, x) ∈ g → p ∈ l1.

Lemma parents_first_snoc order r : parents_first order → ready order r → parents_first (order ++ [r]).
Proof using Type.
  intros Hf [_ Hr] l1 x l2 Heq p Hp. destruct l2 as [|z l2 _] using rev_ind.
  - apply app_inj_tail in Heq as [-> ->]. by apply Hr.
  - rewrite app_comm_cons, app_assoc in Heq. apply app_inj_tail in Heq as [-> _]. by apply (Hf l1 x l2).
Qed.

Lemma finish e s order : visited e order → (∀ x, x ∈ revisions → x ∈ order) → runs e s (Ok s).
Proof using Hinv.
  remember (revs e) as l eqn:Hl. revert e Hl. induction l as [|r l IH]; intros e Hl V Hall.
  - apply runs_done. unfold done_. rewrite <- Hl, (vis_items _ _ V). done.
  - assert (r ∈ order) as Hr by (apply Hall, (vis_revs _ _ V); rewrite <- Hl; by left).
    apply (cull e s order r l); [done..|]. apply IH; [done| |done].
    apply visited_revs; [done|..]; rewrite <- Hl; set_solver.
Qed.

Lemma visit_same e e' s r : revision_certs e = revision_certs e' → visit e s r = visit e' s r.
Proof using Type. intros Hc. unfold visit, queue_contents, get_revision_certs. by rewrite Hc. Qed.

(** The graph has no cycle, and every parent is the null revision or a revision. *)
Context (rank : bytes → nat) (Hrank : ∀ p c, (p, c) ∈ g → (rank p < rank c)%nat).
Context (Hparent : ∀ p c, (p, c) ∈ g → p = [] ∨ ∃ q, (q, p) ∈ g).

Lemma ready_exists (order : list bytes) (x : bytes) :
  x ∈ revisions → x ∉ order → ∃ y, y ∈ revisions ∧ y ∉ order ∧ ∀ p, (p, y) ∈ g → p ∈ order.
Proof using Hrank Hparent.
  remember (rank x) as n eqn:Hn. revert x Hn. induction (lt_wf n) as [n _ IH]. intros x -> Hx Hnot.
  destruct (decide (Forall (λ e, e.2 = x → e.1 ∈ order) g)) as [Hall|Hex].
  - exists x. split_and!; [done..|]. intros p Hp. rewrite Forall_forall in Hall. by apply (Hall (p, x) Hp).
  - apply not_Forall_Exists in Hex; [|intros ?; apply _]. apply Exists_exists in Hex as ([p c] & Hg & Hn). cbn in Hn.
    assert (c = x ∧ p ∉ order) as [-> Hp] by (clear Hinv; destruct (decide (c = x)), (decide (p ∈ order)); naive_solver).
    apply (IH (rank p)) with p; [by apply Hrank|done| |done].
    apply revisions_elem. destruct (Hparent p x Hg) as [->|[q Hq]]; [by left|]. right. by exists q.
Qed.


Lemma unvisited (order : list bytes) : (∀ x, x ∈ revisions → x ∈ order) ∨ ∃ x, x ∈ revisions ∧ x ∉ order.
Proof using Type.
  destruct (set_choose_or_empty (revisions ∖ list_to_set order)) as [[x Hx]|He].
  - right. exists x. by rewrite elem_of_difference, elem_of_list_to_set in Hx.
  - left. intros x Hx. destruct (decide (x ∈ order)) as [|Hn]; [done|]. exfalso. apply (not_elem_of_empty (C := gset bytes) x), He.
    by rewrite elem_of_difference, elem_of_list_to_set.
Qed.

Lemma unvisited_fewer (order : list bytes) r :
  r ∈ revisions → r ∉ order → (size (revisions ∖ list_to_set (order ++ [r])) < size (revisions ∖ list_to_set order))%nat.
Proof using Type.
  intros Hr Ho. apply subset_size. split.
  - intros x. rewrite !elem_of_difference, !elem_of_list_to_set, elem_of_app. tauto.
  - intros Hsub. specialize (Hsub r). rewrite !elem_of_difference, !elem_of_list_to_set, elem_of_app, list_elem_of_singleton in Hsub. tauto.
Qed.

Lemma walk_all n e0 e order :
  (size (revisions ∖ list_to_set order) = n)%nat → revision_certs e0 = certs →
  visited e order → NoDup order → (∀ x, x ∈ order → x ∈ revisions) → parents_first order →
  ∃ more, NoDup (order ++ more) ∧ (∀ x, x ∈ order ++ more ↔ x ∈ revisions) ∧ parents_first (order ++ more) ∧
    ∀ s, runs e s (foldM (visit e0) more s).
Proof using Hinv Hrank Hparent.
  intros Hn Hc0. revert e order Hn. induction (lt_wf n) as [n _ IH]. intros e order <- V Hnd Hsub Hpf.
  destruct (unvisited order) as [Hall|(x & Hx & Hxo)].
  { exists []. rewrite app_nil_r. split_and!; [done| |done|].
    - intros x. split; auto.
    - intros s. cbn. by apply (finish e s order). }
  destruct (ready_exists order x) as (y & Hy & Hyo & Hyp); [done..|].
  destruct (list_elem_of_split (revs e) y) as (l1 & l2 & Hrevs); [by apply (vis_ready _ _ V)|].
  destruct (search l1 l2 y e order V Hrevs) as (r & rest & Hr & V' & Hrun); [done|].
  assert (r ∈ revisions) as Hrr by (apply (vis_revs _ _ V'); by left).
  destruct (IH (size (revisions ∖ list_to_set (order ++ [r])))) with (e := next_state (set_revs e (r :: rest)) r rest) (order := order ++ [r])
    as (more & Hnd' & Hex & Hpf' & Hrun'); [| done | by apply (visited_next _ order) | | | by apply parents_first_snoc |].
  - apply unvisited_fewer; [done|]. apply Hr.
  - apply NoDup_app. split_and!; [done| |apply NoDup_singleton]. intros z Hz Hzr%list_elem_of_singleton. subst z. by destruct Hr.
  - intros z. rewrite elem_of_app, list_elem_of_singleton. intros [?| ->]; auto.
  - rewrite <- app_assoc in *. exists (r :: more). split_and!; [done..|]. intros s. apply Hrun.
    apply (visit_ready _ s order r rest); [done..|]. cbn [foldM]. rewrite (visit_same _ e0) by (rewrite (vis_certs _ _ V'); done).
    destruct (visit e0 s r) as [s1|er]; [|done]. apply Hrun'.
Qed.

Lemma visited_initial e :
  graph e = g → inverse_graph e = inv → terminal_nodes e = ∅ → items e = [] → revision_certs e = certs →
  enumerated_nodes e = ∅ → revs e = [[]] → visited e [].
Proof using Hparent.
  intros Hg Hi Ht His Hc Hn Hr. split; try done.
  - intros x. rewrite Hn. split; [by intros ?%not_elem_of_empty|by intros ?%not_elem_of_nil].
  - intros x. rewrite Hr, list_elem_of_singleton, revisions_elem. by left.
  - intros x Hx _ Hp. rewrite Hr, list_elem_of_singleton. apply revisions_elem in Hx as [|[p Hp']]; [done|].
    by apply Hp, not_elem_of_nil in Hp'.
Qed.
End correct.

(** The enumerator of a session, with the certificates it was told of. *)
Definition enumerator_for (g inv certs : multimap) : revision_enumerator :=
  foldl (λ e c, enum_note_cert e c.1 c.2) (new_enumerator g inv) certs.

Lemma enumerator_for_state g inv certs : enumerator_for g inv certs = Enumerator ∅ ∅ [[]] [] g inv certs.
Proof.
  unfold enumerator_for, new_enumerator. change certs with ([] ++ certs) at 2. generalize (@nil (bytes * bytes)).
  induction certs as [|[r h] certs IH]; intros noted; cbn; [by rewrite app_nil_r|]. unfold enum_note_cert at 2. cbn. rewrite IH. by rewrite <- app_assoc.
Qed.

(** C19: whatever the session answers, calling [step] until [done] comes to an end, and what it
    does to the session is one visit of each revision, the null one included, in an order in which every revision
    comes after all of its parents; the order does not depend on the session, and a callback that fails
    ends the enumeration at once.  The ancestry is given both ways, has no cycle and every parent in it is the null revision or has a parent itself. *)
Theorem enumerator_visits_all `{!revision_source} {S : Type} `{!enumerator_callbacks S} (g inv certs : multimap) (rank : bytes → nat) :
  (∀ p c, (c, p) ∈ inv ↔ (p, c) ∈ g) → (∀ p c, (p, c) ∈ g → (rank p < rank c)%nat) →
  (∀ p c, (p, c) ∈ g → p = [] ∨ ∃ q, (q, p) ∈ g) →
  ∃ order, NoDup order ∧ (∀ x, x ∈ order ↔ x ∈ revisions g) ∧ parents_first g order ∧
    ∀ s : S, ∃ N, ∀ calls fuel, (N ≤ calls)%nat → (N ≤ fuel)%nat →
      snd <$> enumerate calls fuel (enumerator_for g inv certs) s = foldM (visit (enumerator_for g inv certs)) order s.
Proof.
  intros Hinv Hrank Hparent. set (e0 := enumerator_for g inv certs). pose proof (enumerator_for_state g inv certs) as He.
  destruct (walk_all g inv certs Hinv rank Hrank Hparent _ e0 e0 [] eq_refl) as (order & Hnd & Hex & Hpf & Hrun).
  - by unfold e0; rewrite He.
  - apply visited_initial; [done|..]; by unfold e0; rewrite He.
  - constructor.
  - by intros x ?%not_elem_of_nil.
  - intros l1 x l2 Hl. by destruct l1.
  - exists order. split_and!; [done..|]. intros s. by apply runs_enumerate.
Qed.

(** ** An example: a session that takes everything and keeps a log *)

Definition log_session : enumerator_callbacks (list bytes) := {|
  process_this_rev s _ := (s, true);
  queue_this_cert s _ := (s, true);
  queue_this_file s _ := (s, true);
  note_file_data s f := Ok (s ++ [lit "data " ++ f]);
  note_file_delta s f1 f2 := Ok (s ++ [lit "delta " ++ f1 ++ lit " " ++ f2]);
  note_rev s r := Ok (s ++ [lit "rev " ++ r]);
  note_cert s c := Ok (s ++ [lit "cert " ++ c])
|}.
#[local] Existing Instance log_session.

Definition merge_graph : multimap :=
  [([], lit "a"); (lit "a", lit "b"); (lit "a", lit "c"); (lit "b", lit "d"); (lit "c", lit "d")].
Definition merge_inverse : multimap := (λ e, (e.2, e.1)) <$> merge_graph.
Definition merge_rank (r : bytes) : nat :=
  if bool_decide (r = []) then 0%nat else if bool_decide (r = lit "a") then 1%nat else if bool_decide (r = lit "d") then 3%nat else 2%nat.

Example merge_log :
  snd <$> enumerate 20 20 (enumerator_for merge_graph merge_inverse [(lit "b", lit "sig")]) [] =
    Ok (lit <$> ["rev a"; "cert cert-a"; "rev c"; "cert cert-c"; "rev b"; "cert sig"; "data 1"; "delta 0 2"; "rev d"; "cert cert-d"]%string).
Proof. vm_compute. reflexivity. Qed.

Lemma enumerator_visits_all_witness :
  ∃ order, NoDup order ∧ parents_first merge_graph order ∧
    ∀ s, ∃ N, ∀ calls fuel, (N ≤ calls)%nat → (N ≤ fuel)%nat →
      snd <$> enumerate calls fuel (enumerator_for merge_graph merge_inverse [(lit "b", lit "sig")]) s =
        foldM (visit (enumerator_for merge_graph merge_inverse [(lit "b", lit "sig")])) order s.
Proof.
  destruct (enumerator_visits_all merge_graph merge_inverse [(lit "b", lit "sig")] merge_rank) as (order & H1 & _ & H2 & H3).
  - intros p c. unfold merge_inverse. rewrite list_elem_of_fmap. split; [by intros ([p' c'] & [= -> ->] & Hin)|]. intros Hin. by exists (p, c).
  - intros p c Hin. unfold merge_graph in Hin. repeat (apply elem_of_cons in Hin as [[= -> ->]|Hin]; [vm_compute; lia|]). by apply not_elem_of_nil in Hin.
  - intros p c Hin. unfold merge_graph in Hin. repeat (apply elem_of_cons in Hin as [[= -> _]|Hin]; [first [by left|right; exists []; by apply (bool_decide_eq_true_1 _)|right; exists (lit "a"); by apply (bool_decide_eq_true_1 _)]|]).
    by apply not_elem_of_nil in Hin.
  - by exists order.
Defined.
