(* ===== verification/Restrictions.v ===== *)
(** * Restrictions ([src/src/restrictions.cc], [restrictions.hh])

    A restriction narrows a command to some files.  It is made of paths to include, paths to
    exclude and a depth, of which a [path_restriction] makes a map from paths and a
    [node_restriction] one from the nodes of one or more rosters.  Whether a
    path exists and which paths are ignored is asked of the file system and
    of a hook, which are parameters.  Warnings are left out. *)

From S2P Require Import Prelude Numbers Paths Roster.

(** [restricted_path::status] *)
Inductive status := included | excluded | required | included_required | excluded_required.

#[export] Instance status_eq_dec : EqDecision status.
Proof. solve_decision. Defined.

Inductive include_rules := explicit_includes | implicit_includes.

(** ** Unknown paths *)

Definition count_unknown (is_unknown : file_path → bool) (paths : gset file_path) (bad : Z) : Z :=
  foldl (λ bad p, if is_unknown p then bad + 1 else bad) bad (set_iter paths).

Definition validate_paths (included_paths excluded_paths : gset file_path) (is_unknown : file_path → bool) : result unit :=
  let bad := count_unknown is_unknown excluded_paths (count_unknown is_unknown included_paths 0) in
  E_ (bad =? 0) user.

Definition unknown_unignored_node (known_paths : gset file_path) (ignore_file : file_path → bool) (p : file_path) : bool :=
  bool_decide (p ∉ known_paths) && negb (ignore_file p).

Definition unknown_unignored_path (path_exists ignore_file : file_path → bool) (p : file_path) : bool :=
  negb (path_exists p) && negb (ignore_file p).

(** What the loops over the parents do with the status of one. *)
Definition require_status (s : option status) : option status :=
  match s with
  | None => Some required
  | Some included => Some included_required
  | Some excluded => Some excluded_required
  | Some s => Some s
  end.

(** The [switch] of the two functions [includes]. *)
Definition decide_status (s : status) (path_depth : Z) : bool :=
  match s with
  | included | included_required => true
  | excluded => false
  | required | excluded_required => path_depth =? 0
  end.

(** ** Restrictions of paths *)

Record path_restriction := PathRestriction {
  included_paths : gset file_path;
  excluded_paths : gset file_path;
  max_depth : Z;
  path_map : gmap file_path status
}.

(** Giving a key a status it may have already; the body of the loops of [map_paths] and [map_nodes]. *)
Definition give_status `{Countable K} (st : status) (m : gmap K status) (k : K) : result (gmap K status) :=
  match m !! k with
  | Some s => E_ (bool_decide (s = st)) user ;; Ok m
  | None => Ok (<[k := st]> m)
  end.

Definition map_paths (paths : gset file_path) (st : status) (m : gmap file_path status) : result (gmap file_path status) :=
  foldM (give_status st) (set_iter paths) m.

(** The inner loop of [add_parents] and the insertion after it. *)
Fixpoint climb_path (fuel : nat) (parent : file_path) (parents : gset file_path) : gset file_path :=
  match fuel with
  | O => parents
  | S fuel =>
      if negb (fp_empty parent) && bool_decide (parent ∉ parents)
      then climb_path fuel (dirname parent) ({[parent]} ∪ parents)
      else {[parent]} ∪ parents
  end.

Definition required_paths (m : gmap file_path status) : gset file_path :=
  foldl (λ parents e,
    if bool_decide (e.2 = included) then climb_path (S (length (data e.1))) (dirname e.1) parents else parents)
    ∅ (map_iter m).

Definition add_parents_paths (m : gmap file_path status) : gmap file_path status :=
  foldl (λ m p, partial_alter require_status p m) m (set_iter (required_paths m)).

Definition new_path_restriction_skip_check (incs excs : list file_path) (d : Z) : result path_restriction :=
  let incs : gset file_path := list_to_set incs in
  let excs : gset file_path := list_to_set excs in
  m ← map_paths incs included ∅;
  m ← map_paths excs excluded m;
  Ok (PathRestriction incs excs d (add_parents_paths m)).

Definition new_path_restriction (path_exists ignore : file_path → bool) (incs excs : list file_path) (d : Z) : result path_restriction :=
  let incs : gset file_path := list_to_set incs in
  let excs : gset file_path := list_to_set excs in
  m ← map_paths incs included ∅;
  m ← map_paths excs excluded m;
  let m := add_parents_paths m in
  validate_paths incs excs (unknown_unignored_path path_exists ignore) ;;
  Ok (PathRestriction incs excs d m).

Fixpoint path_walk (fuel : nat) (r : path_restriction) (fp : file_path) (path_depth : Z) : option bool :=
  match fuel with
  | O => None
  | S fuel =>
      if (max_depth r =? -1) || (path_depth <=? max_depth r) then
        match path_map r !! fp with
        | Some s => Some (decide_status s path_depth)
        | None => if fp_empty fp then None else path_walk fuel r (dirname fp) (path_depth + 1)
        end
      else None
  end.

Definition path_includes (r : path_restriction) (pth : file_path) : bool :=
  if bool_decide (included_paths r = ∅) && bool_decide (excluded_paths r = ∅) then
    if negb (max_depth r =? -1) then Z.of_nat (depth pth) <=? max_depth r else true
  else
    match path_walk (S (length (data pth))) r pth 0 with
    | Some b => b
    | None => bool_decide (included_paths r = ∅)
    end.

(** ** Restrictions of nodes *)

Record node_restriction := NodeRestriction {
  n_included_paths : gset file_path;
  n_excluded_paths : gset file_path;
  n_depth : Z;
  known_paths : gset file_path;
  node_map : gmap Z status
}.

Definition map_nodes_as (r : roster) (paths : gset file_path) (st : status) (s : gmap Z status * gset file_path) :
    result (gmap Z status * gset file_path) :=
  foldM (λ '(m, known) p,
    if has_node_path r p then
      let known := {[p]} ∪ known in
      n ← get_node_path r p;
      m ← give_status st m (self n);
      Ok (m, known)
    else Ok (m, known)) (set_iter paths) s.

Definition map_nodes (r : roster) (incs excs : gset file_path) (s : gmap Z status * gset file_path) :
    result (gmap Z status * gset file_path) :=
  s ← map_nodes_as r incs included s;
  map_nodes_as r excs excluded s.

(** The inner loop of [add_parents]; every round adds a node. *)
Fixpoint climb_node (fuel : nat) (r : roster) (parent_ : node_id) (parents : gset Z) : result (gset Z) :=
  if null_node parent_ || bool_decide (parent_ ∈ parents) then Ok parents
  else
    match fuel with
    | O => Err invariant_failure
    | S fuel =>
        n ← get_node r parent_;
        climb_node fuel r (parent n) ({[parent_]} ∪ parents)
    end.

Definition required_nodes (r : roster) (m : gmap Z status) : result (gset Z) :=
  foldM (λ parents e,
    if bool_decide (e.2 = included) && has_node r e.1 then
      n ← get_node r e.1;
      climb_node (size (nodes r)) r (parent n) parents
    else Ok parents) (map_iter m) ∅.

Definition add_parents_nodes (r : roster) (m : gmap Z status) : result (gmap Z status) :=
  parents ← required_nodes r m;
  foldM (λ m i,
    (match m !! i with
     | None | Some excluded => _ ← get_name r i; Ok tt
     | _ => Ok tt
     end) ;;
    Ok (partial_alter require_status i m)) (set_iter parents) m.

(** The three constructors: over one roster, over two, and over parents and their child. *)
Definition new_node_restriction_over (rosters : list roster) (ignore : file_path → bool) (rules : include_rules)
    (incs excs : list file_path) (d : Z) : result node_restriction :=
  let incs : gset file_path := list_to_set incs in
  let excs : gset file_path := list_to_set excs in
  '(m, known) ← foldM (λ s r, map_nodes r incs excs s) rosters (∅, ∅);
  m ← (match rules with
       | implicit_includes => foldM (λ m r, add_parents_nodes r m) rosters m
       | explicit_includes => Ok m
       end);
  validate_paths incs excs (unknown_unignored_node known ignore) ;;
  Ok (NodeRestriction incs excs d known m).

Definition new_node_restriction (incs excs : list file_path) (d : Z) (r : roster) (ignore : file_path → bool)
    (rules : include_rules) : result node_restriction :=
  new_node_restriction_over [r] ignore rules incs excs d.

Definition new_node_restriction_two (incs excs : list file_path) (d : Z) (roster1 roster2 : roster) (ignore : file_path → bool)
    (rules : include_rules) : result node_restriction :=
  new_node_restriction_over [roster1; roster2] ignore rules incs excs d.

Definition new_node_restriction_parents (incs excs : list file_path) (d : Z) (rosters1 : gmap bytes roster) (roster2 : roster)
    (ignore : file_path → bool) (rules : include_rules) : result node_restriction :=
  new_node_restriction_over ((snd <$> map_iter rosters1) ++ [roster2]) ignore rules incs excs d.

(** The loop of [includes]. *)
Fixpoint node_walk (fuel : nat) (nr : node_restriction) (r : roster) (current : node_id) (path_depth : Z) : result (option bool) :=
  if negb (null_node current) && ((n_depth nr =? -1) || (path_depth <=? n_depth nr)) then
    match node_map nr !! current with
    | Some s => Ok (Some (decide_status s path_depth))
    | None =>
        match fuel with
        | O => Err invariant_failure
        | S fuel =>
            n ← get_node r current;
            node_walk fuel nr r (parent n) (path_depth + 1)
        end
    end
  else Ok None.

Definition node_includes (nr : node_restriction) (r : roster) (nid : node_id) : result bool :=
  I_ (has_node r nid) ;;
  fp ← get_name r nid;
  if bool_decide (n_included_paths nr = ∅) && bool_decide (n_excluded_paths nr = ∅) then
    Ok (if negb (n_depth nr =? -1) then Z.of_nat (depth fp) <=? n_depth nr else true)
  else
    o ← node_walk (size (nodes r)) nr r nid 0;
    Ok (match o with
        | Some b => b
        | None => bool_decide (n_included_paths nr = ∅)
        end).
