(* ===== verification/RestrictionsCorrect.v ===== *)
(** * What a restriction lets through

    The verdict on a path or node is that of the nearest one above it, or it itself, that has a status.
    What is included brings its parents along, so that the included part of a tree is a tree. *)

From S2P Require Import Prelude Numbers Paths Roster Restrictions.

(** ** The search along a chain of parents *)

Section scan.
Context {K : Type} `{Countable K} (m : gmap K status) (d : Z).

Definition in_depth (k : Z) : bool := (d =? -1) || (k <=? d).

Fixpoint scan_up (l : list K) (k : Z) : option bool :=
  match l with
  | [] => None
  | q :: l =>
      if in_depth k then
        match m !! q with
        | Some s => Some (decide_status s k)
        | None => scan_up l (k + 1)
        end
      else None
  end.

Lemma in_depth_le i j : i ≤ j → in_depth j = true → in_depth i = true.
Proof using Type. unfold in_depth. rewrite !orb_true_iff, !Z.eqb_eq, !Z.leb_le. lia. Qed.

Lemma scan_nearer l i j : 0 < j → 0 ≤ i ≤ j → scan_up l j = Some true → scan_up l i = Some true.
Proof using Type.
  revert i j. induction l as [|q l IH]; intros i j Hj Hi; [done|]. cbn [scan_up]. destruct (in_depth j) eqn:Hd; [|done].
  rewrite (in_depth_le i j) by (done || lia). destruct (m !! q) as [s|]; [|intros; apply (IH (i + 1) (j + 1)); [lia..|done]].
  destruct s; cbn; try done; by rewrite (proj2 (Z.eqb_neq j 0)) by lia.
Qed.

Lemma scan_none l i j : d = -1 → scan_up l j = None → scan_up l i = None.
Proof using Type.
  intros Hd. assert (∀ k, in_depth k = true) as Hin by (intros k; unfold in_depth; by rewrite Hd).
  revert i j. induction l as [|q l IH]; intros i j; [done|]. cbn [scan_up]. rewrite !Hin. destruct (m !! q); [done|]. apply IH.
Qed.

(** A status that includes what has it. *)
Definition lets_in (s : status) : bool := decide_status s 0.

Lemma scan_parent p q l :
  (∀ s, m !! p = Some s → lets_in s = true → ∃ s', m !! q = Some s' ∧ lets_in s' = true) →
  scan_up (p :: q :: l) 0 = Some true → scan_up (q :: l) 0 = Some true.
Proof using Type.
  intros Hpq Hs. cbn [scan_up] in Hs. destruct (in_depth 0) eqn:Hd; [|done]. destruct (m !! p) as [s|].
  - injection Hs as Hs. destruct (Hpq s eq_refl Hs) as (s' & Hq & Hs'). cbn [scan_up]. rewrite Hd, Hq. f_equal. exact Hs'.
  - apply (scan_nearer (q :: l) 0 (0 + 1)); [lia..|exact Hs].
Qed.

(** The same for the verdict, which is [def] where the search finds nothing. *)
Definition verdict (def : bool) (l : list K) : bool := match scan_up l 0 with Some b => b | None => def end.

Lemma verdict_parent def p q l :
  (∀ s, m !! p = Some s → lets_in s = true → ∃ s', m !! q = Some s' ∧ lets_in s' = true) → (def = true → d = -1) →
  verdict def (p :: q :: l) = true → verdict def (q :: l) = true.
Proof using Type.
  unfold verdict. intros Hpq Hdef. destruct (scan_up (p :: q :: l) 0) as [b|] eqn:Hs.
  - intros ->. by rewrite (scan_parent p q l Hpq Hs).
  - intros Ht. pose proof (Hdef Ht) as Hd. assert (scan_up (q :: l) 0 = None) as ->; [|done]. apply (scan_none (q :: l) 0 (0 + 1) Hd).
    revert Hs. change (scan_up (p :: q :: l) 0) with (if in_depth 0 then match m !! p with Some s => Some (decide_status s 0) | None => scan_up (q :: l) (0 + 1) end else None).
    assert (in_depth 0 = true) as -> by (unfold in_depth; by rewrite Hd). by destruct (m !! p).
Qed.

Lemma scan_first l k b :
  0 ≤ k →
  scan_up l k = Some b ↔
    ∃ l1 q l2 s, l = l1 ++ q :: l2 ∧ in_depth (k + Z.of_nat (length l1)) = true ∧ (∀ x, x ∈ l1 → m !! x = None) ∧
      m !! q = Some s ∧ b = decide_status s (k + Z.of_nat (length l1)).
Proof using Type.
  revert k. induction l as [|q l IH]; intros k Hk; cbn [scan_up].
  { split; [done|]. intros ([|] & ? & ? & ? & ? & _); done. }
  destruct (in_depth k) eqn:Hd; cycle 1.
  { split; [done|]. intros (l1 & ? & ? & ? & _ & Hin & _). rewrite (in_depth_le k (k + Z.of_nat (length l1))) in Hd; [done|lia|done]. }
  destruct (m !! q) as [s|] eqn:Hq.
  - split.
    + intros [= <-]. exists [], q, l, s. cbn. rewrite Z.add_0_r. split_and!; [done..| |done|done]. by intros x ?%not_elem_of_nil.
    + intros ([|x l1] & q' & l2 & s' & Heq & _ & Hn & Hq' & Hb); injection Heq as -> ->.
      * rewrite Hq in Hq'. injection Hq' as <-. cbn in Hb. by rewrite Z.add_0_r in Hb; subst.
      * rewrite Hn in Hq by (by left). done.
  - rewrite IH by lia. split.
    + intros (l1 & q' & l2 & s & -> & Hin & Hn & Hq' & Hb). exists (q :: l1), q', l2, s. cbn [length].
      rewrite Nat2Z.inj_succ, <- Z.add_1_l, Z.add_assoc. split_and!; [done..| |done|done].
      intros x [->|Hx]%elem_of_cons; [done|by apply Hn].
    + intros ([|x l1] & q' & l2 & s' & Heq & Hin & Hn & Hq' & Hb); injection Heq as -> ->; [congruence|].
      exists l1, q', l2, s'. cbn [length] in *. rewrite Nat2Z.inj_succ, <- Z.add_1_l, Z.add_assoc in Hin, Hb. split_and!; [done..| |done|done].
      intros y Hy. apply Hn. by right.
Qed.
End scan.

(** ** Marking what is required *)

Lemma foldl_alter `{Countable K} {A} (f : option A → option A) (l : list K) (m : gmap K A) k :
  NoDup l → foldl (λ m p, partial_alter f p m) m l !! k = if decide (k ∈ l) then f (m !! k) else m !! k.
Proof.
  intros Hnd. revert m. induction Hnd as [|x l Hx Hnd IH]; intros m; [done|]. cbn [foldl]. rewrite IH. clear IH.
  destruct (decide (k = x)) as [->|Hne].
  - rewrite (decide_False (P := x ∈ l)), (decide_True (P := x ∈ x :: l)) by (by try left). by rewrite lookup_partial_alter_eq.
  - rewrite lookup_partial_alter_ne by done. destruct (decide (k ∈ l)) as [Hl|Hl].
    + by rewrite decide_True by (by right).
    + rewrite decide_False; [done|]. by intros [|]%elem_of_cons.
Qed.

(** The map of the statuses, given the included, the excluded and the required ones. *)
Definition status_of (i e r : bool) : option status :=
  let s := if i then Some included else if e then Some excluded else None in
  if r then require_status s else s.

(** ** Paths and the directories above them *)

Lemma dirname_shorter p : data p ≠ [] → (length (data (dirname p)) < length (data p))%nat.
Proof.
  intros Hp. unfold dirname. destruct (rfind_slash (data p)) as [i|] eqn:Hi; cbn; [|destruct (data p); [done|cbn; lia]].
  destruct (rfind_slash_Some _ _ Hi) as [Hs _]. apply (f_equal length) in Hs. rewrite length_app in Hs. cbn in Hs. lia.
Qed.

Fixpoint dirs_above (fuel : nat) (p : file_path) : list file_path :=
  match fuel with
  | O => []
  | S fuel => p :: if fp_empty p then [] else dirs_above fuel (dirname p)
  end.

(** The path, its directory, the directory of that, and so on to the root. *)
Definition path_chain (p : file_path) : list file_path := dirs_above (S (length (data p))) p.

Lemma dirs_above_enough fuel p : (length (data p) < fuel)%nat → dirs_above fuel p = path_chain p.
Proof.
  unfold path_chain. remember (length (data p)) as n eqn:Hn. revert p fuel Hn. induction (lt_wf n) as [n _ IH]. intros p fuel -> Hf.
  destruct fuel as [|fuel]; [lia|]. cbn [dirs_above]. f_equal. unfold fp_empty. case_bool_decide as He; [done|].
  pose proof (dirname_shorter p He). rewrite (IH (length (data (dirname p)))) by (done || lia).
  destruct (length (data p)) as [|k] eqn:Hk; [lia|]. symmetry. apply IH; [lia|done|lia].
Qed.

Lemma path_chain_eq p : path_chain p = p :: if fp_empty p then [] else path_chain (dirname p).
Proof.
  unfold path_chain at 1. cbn [dirs_above]. f_equal. unfold fp_empty. case_bool_decide as He; [done|].
  apply dirs_above_enough. by apply dirname_shorter.
Qed.

Lemma path_chain_ind (P : file_path → Prop) : (∀ p, (data p ≠ [] → P (dirname p)) → P p) → ∀ p, P p.
Proof.
  intros Hstep p. remember (length (data p)) as n eqn:Hn. revert p Hn. induction (lt_wf n) as [n _ IH]. intros p ->.
  apply Hstep. intros Hne. by apply (IH _ (dirname_shorter p Hne)).
Qed.

Lemma path_walk_scan r fuel p k :
  (length (data p) < fuel)%nat → path_walk fuel r p k = scan_up (path_map r) (max_depth r) (path_chain p) k.
Proof.
  revert k fuel. induction p as [p IH] using path_chain_ind. intros k [|fuel] Hf; [lia|]. rewrite path_chain_eq. cbn [path_walk scan_up].
  fold (in_depth (max_depth r) k). destruct (in_depth (max_depth r) k); [|done]. destruct (path_map r !! p); [done|].
  unfold fp_empty. case_bool_decide as He; [done|]. apply IH; [done|]. pose proof (dirname_shorter p He). lia.
Qed.

(** ** The required directories *)

Lemma path_chain_self p : p ∈ path_chain p.
Proof. rewrite path_chain_eq. by left. Qed.

Lemma dirname_empty p : data p = [] → dirname p = p.
Proof. intros Hp. unfold dirname. rewrite Hp. cbn. by destruct p; cbn in *; subst. Qed.

Lemma path_chain_dirname p x : x ∈ path_chain p → dirname x ∈ path_chain p.
Proof.
  revert x. induction p as [p IH] using path_chain_ind. intros x. rewrite path_chain_eq. unfold fp_empty. case_bool_decide as He.
  - intros ->%list_elem_of_singleton. rewrite dirname_empty by done. by left.
  - intros [->|Hx]%elem_of_cons; right; [apply path_chain_self|by apply IH].
Qed.

Definition dirname_closed (ps : gset file_path) : Prop := ∀ x, x ∈ ps → dirname x ∈ ps.

Lemma chain_in_closed ps p x : dirname_closed ps → p ∈ ps → x ∈ path_chain p → x ∈ ps.
Proof.
  intros Hps. induction p as [p IH] using path_chain_ind. intros Hp. rewrite path_chain_eq. unfold fp_empty. case_bool_decide as He.
  - by intros ->%list_elem_of_singleton.
  - intros [->|Hx]%elem_of_cons; [done|]. apply IH; [done|by apply Hps|done].
Qed.

(** The directories already there are skipped with everything above them. *)
Lemma climb_path_spec fuel (ps : gset file_path) p x :
  (length (data p) < fuel)%nat → (∀ y, y ∈ ps → dirname y ∈ ps ∨ dirname y = p) →
  x ∈ climb_path fuel p ps ↔ x ∈ ps ∨ x ∈ path_chain p.
Proof.
  revert fuel ps. induction p as [p IH] using path_chain_ind. intros [|fuel] ps Hf Hps; [lia|]. cbn [climb_path].
  unfold fp_empty. case_bool_decide as He; cbn [negb andb].
  { rewrite path_chain_eq. unfold fp_empty. rewrite bool_decide_eq_true_2 by done. rewrite elem_of_union, elem_of_singleton, list_elem_of_singleton. tauto. }
  case_bool_decide as Hin.
  - pose proof (dirname_shorter p He). rewrite IH; [|done|lia|].
    + rewrite (path_chain_eq p). unfold fp_empty. rewrite bool_decide_eq_false_2 by done. rewrite elem_of_cons, elem_of_union, elem_of_singleton. tauto.
    + intros y [->%elem_of_singleton|Hy]%elem_of_union; [by right|]. left. destruct (Hps y Hy) as [?| ->]; apply elem_of_union; [by right|left; by apply elem_of_singleton].
  - assert (p ∈ ps) as Hp by (destruct (decide (p ∈ ps)); tauto). rewrite elem_of_union, elem_of_singleton. split.
    + intros [->|]; [by left|by left].
    + intros [|Hx]; [by right|]. right. apply (chain_in_closed ps p); [|done..]. intros y Hy. by destruct (Hps y Hy) as [| ->].
Qed.

(** [q] is a directory above an included path; for the root, which is its own [dirname], the root itself counts. *)
Definition above (is_ : gset file_path) (q : file_path) : Prop := ∃ i, i ∈ is_ ∧ q ∈ path_chain (dirname i).

Lemma above_dirname is_ q : above is_ q → above is_ (dirname q).
Proof. intros (i & Hi & Hq). exists i. split; [done|]. by apply path_chain_dirname. Qed.

Lemma above_included is_ i : i ∈ is_ → above is_ (dirname i).
Proof. intros Hi. exists i. split; [done|]. apply path_chain_self. Qed.

Lemma required_paths_spec m is_ q :
  (∀ p, m !! p = Some included ↔ p ∈ is_) → q ∈ required_paths m ↔ above is_ q.
Proof.
  intros Hm. unfold required_paths.
  set (f := λ (parents : gset file_path) (e : file_path * status),
    if bool_decide (e.2 = included) then climb_path (S (length (data e.1))) (dirname e.1) parents else parents).
  assert (∀ l ps, dirname_closed ps →
    dirname_closed (foldl f ps l) ∧ ∀ x, x ∈ foldl f ps l ↔ x ∈ ps ∨ ∃ i, (i, included) ∈ l ∧ x ∈ path_chain (dirname i)) as Hl.
  { induction l as [|[i s] l IH]; intros ps Hps; cbn [foldl].
    { split; [done|]. intros x. split; [by left|]. by intros [|(i & ?%not_elem_of_nil & _)]. }
    assert (dirname_closed (f ps (i, s)) ∧ ∀ x, x ∈ f ps (i, s) ↔ x ∈ ps ∨ (s = included ∧ x ∈ path_chain (dirname i))) as [Hc Hf].
    { unfold f. cbn [fst snd]. case_bool_decide as Hs; [|split; [done|]; tauto].
      assert (length (data (dirname i)) < S (length (data i)))%nat as Hlen.
      { destruct (decide (data i = [])) as [He|He]; [rewrite dirname_empty by done; lia|]. pose proof (dirname_shorter i He). lia. }
      assert (∀ x, x ∈ climb_path (S (length (data i))) (dirname i) ps ↔ x ∈ ps ∨ x ∈ path_chain (dirname i)) as Hx.
      { intros x. apply climb_path_spec; [done|]. intros y Hy. left. by apply Hps. }
      split; [|intros x; rewrite Hx; tauto]. intros x [Hin|Hin]%Hx; apply Hx; [left; by apply Hps|right; by apply path_chain_dirname]. }
    destruct (IH _ Hc) as [Hc' Hx']. split; [done|]. intros x. rewrite Hx', Hf. setoid_rewrite elem_of_cons. split.
    - intros [[|[-> ?]]|(i' & ? & ?)]; [by left|right; exists i; auto|right; exists i'; auto].
    - intros [|(i' & [[= -> ->]|?] & ?)]; [by left; left|left; right; done|right; exists i'; auto]. }
  destruct (Hl (map_iter m) ∅) as [_ Hx]; [by intros x ?%not_elem_of_empty|]. rewrite Hx. unfold above. setoid_rewrite elem_of_map_iter.
  setoid_rewrite Hm. split; [by intros [?%not_elem_of_empty|]|by right].
Qed.

(** ** The map of a path restriction *)

Lemma give_status_ok `{Countable K} st (m : gmap K status) k :
  (∀ s, m !! k = Some s → s = st) → ∃ m', give_status st m k = Ok m' ∧ ∀ j, m' !! j = if decide (j = k) then Some st else m !! j.
Proof.
  unfold give_status. intros Hs. destruct (m !! k) as [s|] eqn:Hk.
  - rewrite (Hs s) in * by done. rewrite bool_decide_eq_true_2 by done. exists m. split; [done|]. intros j. by destruct (decide (j = k)) as [->|].
  - exists (<[k := st]> m). split; [done|]. intros j. destruct (decide (j = k)) as [->|]; [by rewrite lookup_insert_eq|by rewrite lookup_insert_ne].
Qed.

Lemma give_all_ok `{Countable K} st (l : list K) (m : gmap K status) :
  (∀ k s, k ∈ l → m !! k = Some s → s = st) →
  ∃ m', foldM (give_status st) l m = Ok m' ∧ ∀ k, m' !! k = if decide (k ∈ l) then Some st else m !! k.
Proof.
  revert m. induction l as [|q l IH]; intros m Hm; [by exists m|]. cbn [foldM].
  destruct (give_status_ok st m q) as (m1 & -> & Hm1); [intros s; apply Hm; by left|].
  cbn [mbind result_bind]. destruct (IH m1) as (m' & -> & Hm').
  { intros k s Hk. rewrite Hm1. destruct (decide (k = q)); [by intros [= <-]|]. apply Hm. by right. }
  exists m'. split; [done|]. intros k. rewrite Hm', Hm1. destruct (decide (k ∈ q :: l)) as [[->|Hk]%elem_of_cons|[Hk Hl]%not_elem_of_cons].
  - rewrite (decide_True (P := q = q)) by done. by destruct (decide (q ∈ l)).
  - by rewrite decide_True.
  - by rewrite !decide_False.
Qed.

Lemma give_all_err `{Countable K} st (l : list K) (m : gmap K status) k s :
  k ∈ l → m !! k = Some s → s ≠ st → foldM (give_status st) l m = Err (Recoverable user).
Proof.
  intros Hk Hm Hs. revert m Hm. induction l as [|q l IH]; intros m Hm; [by apply not_elem_of_nil in Hk|]. cbn [foldM].
  destruct (decide (k = q)) as [->|Hne].
  - unfold give_status. rewrite Hm, bool_decide_eq_false_2 by done. done.
  - apply elem_of_cons in Hk as [|Hk]; [done|]. destruct (m !! q) as [s'|] eqn:Hq.
    + assert (give_status st m q = (E_ (bool_decide (s' = st)) user ;; Ok m)) as -> by (unfold give_status; by rewrite Hq).
      case_bool_decide; [|done]. cbn [E_ mbind result_bind]. by apply IH.
    + assert (give_status st m q = Ok (<[q := st]> m)) as -> by (unfold give_status; by rewrite Hq).
      cbn [mbind result_bind]. apply IH; [done|]. by rewrite lookup_insert_ne.
Qed.

(** Whether a restriction can be made, and the statuses it has then. *)
Lemma map_paths_both (is_ es : gset file_path) :
  (m ← map_paths is_ included ∅; map_paths es excluded m) = Err (Recoverable user) ∧ (∃ p, p ∈ is_ ∧ p ∈ es) ∨
  ∃ m, (m ← map_paths is_ included ∅; map_paths es excluded m) = Ok m ∧ is_ ∩ es = ∅ ∧
    ∀ p, m !! p = status_of (bool_decide (p ∈ is_)) (bool_decide (p ∈ es)) false.
Proof.
  unfold map_paths. destruct (give_all_ok included (set_iter is_) (∅ : gmap file_path status)) as (m1 & -> & Hm1); [done|]. cbn [mbind result_bind].
  destruct (set_choose_or_empty (is_ ∩ es)) as [[p [Hi He]%elem_of_intersection]|Hd].
  - left. split; [|by exists p]. apply (give_all_err excluded _ m1 p included); [by apply elem_of_set_iter| |done].
    rewrite Hm1, decide_True by (by apply elem_of_set_iter). done.
  - right. apply leibniz_equiv in Hd. assert (∀ p, p ∈ is_ → p ∉ es) as Hdis by set_solver.
    destruct (give_all_ok excluded (set_iter es) m1) as (m2 & -> & Hm2).
    { intros p s Hp%elem_of_set_iter. rewrite Hm1. destruct (decide (p ∈ set_iter is_)) as [Hi%elem_of_set_iter|]; [by apply Hdis in Hi|done]. }
    exists m2. split_and!; [done..|]. intros p. rewrite Hm2, Hm1. unfold status_of.
    destruct (decide (p ∈ set_iter es)) as [Hp|Hp], (decide (p ∈ set_iter is_)) as [Hq|Hq]; rewrite elem_of_set_iter in Hp, Hq; repeat case_bool_decide; try done.
    by apply Hdis in Hq.
Qed.

Lemma add_parents_paths_lookup m (is_ es : gset file_path) (p : file_path) :
  (∀ p, m !! p = status_of (bool_decide (p ∈ is_)) (bool_decide (p ∈ es)) false) →
  ∃ b, (b = true ↔ above is_ p) ∧ add_parents_paths m !! p = status_of (bool_decide (p ∈ is_)) (bool_decide (p ∈ es)) b.
Proof.
  intros Hm. unfold add_parents_paths. rewrite foldl_alter by apply NoDup_set_iter. rewrite Hm.
  assert (p ∈ required_paths m ↔ above is_ p) as Hr.
  { apply required_paths_spec. intros q. rewrite Hm. unfold status_of. repeat case_bool_decide; split; done. }
  destruct (decide (p ∈ set_iter (required_paths m))) as [Hp|Hp]; rewrite elem_of_set_iter, Hr in Hp; [exists true|exists false]; done.
Qed.

Lemma status_of_lets_in i e r s : status_of i e r = Some s → lets_in s = i || r.
Proof. unfold status_of. destruct i, e, r; cbn; by intros [= <-]. Qed.

Lemma status_of_none i e r : status_of i e r = None ↔ i = false ∧ e = false ∧ r = false.
Proof. unfold status_of. destruct i, e, r; cbn; naive_solver. Qed.

Lemma status_of_below i e r s k : 0 < k → status_of i e r = Some s → decide_status s k = i.
Proof. intros Hk. unfold status_of. destruct i, e, r; cbn; intros [= <-]; cbn; try done; apply Z.eqb_neq; lia. Qed.

(** The statuses of a restriction with the included paths [is_] and the excluded ones [es]. *)
Record made_of (r : path_restriction) (is_ es : gset file_path) (d : Z) : Prop := {
  made_included : included_paths r = is_;
  made_excluded : excluded_paths r = es;
  made_depth : max_depth r = d;
  made_status p : ∃ b, (b = true ↔ above is_ p) ∧ path_map r !! p = status_of (bool_decide (p ∈ is_)) (bool_decide (p ∈ es)) b
}.

Lemma new_path_restriction_made incs excs d :
  let is_ : gset file_path := list_to_set incs in
  let es : gset file_path := list_to_set excs in
  (new_path_restriction_skip_check incs excs d = Err (Recoverable user) ∧ ∃ p, p ∈ incs ∧ p ∈ excs) ∨
  (∃ r, new_path_restriction_skip_check incs excs d = Ok r ∧ (∀ p, p ∈ incs → p ∉ excs) ∧ made_of r is_ es d).
Proof.
  intros is_ es. unfold new_path_restriction_skip_check. fold is_ es. destruct (map_paths_both is_ es) as [[He (p & Hp & Hq)]|(m & Hm & Hd & Hst)].
  - left. split; [|exists p; by rewrite <- !(elem_of_list_to_set (C := gset file_path))]. revert He. destruct (map_paths is_ included ∅); cbn [mbind result_bind]; [|by intros [= ->]].
    by intros ->.
  - right. revert Hm. destruct (map_paths is_ included ∅) as [m1|]; cbn [mbind result_bind]; [|done]. intros ->. cbn [mbind result_bind].
    eexists. split; [done|]. split.
    + intros p. rewrite <- !(elem_of_list_to_set (C := gset file_path)). fold is_ es. intros Hp Hq.
      apply (not_elem_of_empty (C := gset file_path) p). rewrite <- Hd. by apply elem_of_intersection.
    + split; [done..|]. intros p. cbn [path_map]. by apply add_parents_paths_lookup.
Qed.

(** ** The verdict on a path *)

(** What the restriction to [is_] without [es], [d] levels deep, should let through. *)
Definition marked (is_ es : gset file_path) (q : file_path) : Prop := q ∈ is_ ∨ q ∈ es ∨ above is_ q.

Definition nearest (is_ es : gset file_path) (d : Z) (p : file_path) (l1 : list file_path) (q : file_path) : Prop :=
  (∃ l2, path_chain p = l1 ++ q :: l2) ∧ in_depth d (Z.of_nat (length l1)) = true ∧ marked is_ es q ∧ ∀ x, x ∈ l1 → ¬ marked is_ es x.

Definition lets_through (is_ es : gset file_path) (d : Z) (p : file_path) : Prop :=
  if bool_decide (is_ = ∅) && bool_decide (es = ∅) then d = -1 ∨ Z.of_nat (depth p) ≤ d
  else (∃ l1 q, nearest is_ es d p l1 q ∧ (q ∈ is_ ∨ (l1 = [] ∧ above is_ q))) ∨ ((¬ ∃ l1 q, nearest is_ es d p l1 q) ∧ is_ = ∅).

Lemma made_marked r is_ es d q : made_of r is_ es d → path_map r !! q = None ↔ ¬ marked is_ es q.
Proof.
  intros M. destruct (made_status _ _ _ _ M q) as (b & Hb & ->). rewrite status_of_none. unfold marked. rewrite <- Hb, !bool_decide_eq_false.
  destruct b; naive_solver.
Qed.

Lemma scan_nearest r is_ es d p b :
  made_of r is_ es d →
  scan_up (path_map r) d (path_chain p) 0 = Some b ↔
    ∃ l1 q, nearest is_ es d p l1 q ∧ (b = true ↔ q ∈ is_ ∨ (l1 = [] ∧ above is_ q)).
Proof.
  intros M. rewrite scan_first by done. split.
  - intros (l1 & q & l2 & s & Hl & Hin & Hn & Hq & ->). exists l1, q. split.
    + split_and!; [by exists l2|done| |intros x Hx; apply (made_marked _ _ _ _ x M); by apply Hn].
      destruct (decide (path_map r !! q = None)) as [|Hne]; [congruence|]. destruct (made_status _ _ _ _ M q) as (b & Hb & Hst). rewrite Hst, status_of_none in Hne.
      unfold marked. rewrite <- Hb. destruct b; [tauto|]. rewrite !bool_decide_eq_false in Hne. destruct (decide (q ∈ is_)), (decide (q ∈ es)); tauto.
    + destruct (made_status _ _ _ _ M q) as (b & Hb & Hst). rewrite Hst in Hq. destruct l1 as [|x l1].
      * cbn [length]. change (decide_status s (0 + Z.of_nat 0)) with (lets_in s). rewrite (status_of_lets_in _ _ _ _ Hq), orb_true_iff, bool_decide_eq_true, Hb. tauto.
      * rewrite (status_of_below _ _ _ _ (0 + Z.of_nat (length (x :: l1))) ltac:(cbn [length]; lia) Hq), bool_decide_eq_true. split; [by left|]. by intros [|[]].
  - intros (l1 & q & ((l2 & Hl) & Hin & Hmk & Hn) & Hb). destruct (path_map r !! q) as [s|] eqn:Hq.
    2:{ by apply (made_marked _ _ _ _ q M) in Hq. }
    exists l1, q, l2, s. split_and!; [done..| |done|].
    + intros x Hx. by apply (made_marked _ _ _ _ x M), Hn.
    + destruct (made_status _ _ _ _ M q) as (b' & Hb' & Hst). rewrite Hst in Hq. apply eq_true_iff_eq. rewrite Hb. destruct l1 as [|x l1].
      * cbn [length]. change (decide_status s (0 + Z.of_nat 0)) with (lets_in s). rewrite (status_of_lets_in _ _ _ _ Hq), orb_true_iff, bool_decide_eq_true, Hb'. tauto.
      * rewrite (status_of_below _ _ _ _ (0 + Z.of_nat (length (x :: l1))) ltac:(cbn [length]; lia) Hq), bool_decide_eq_true. split; [|by left]. by intros [|[]].
Qed.

Lemma path_includes_made r is_ es d p : made_of r is_ es d → path_includes r p = true ↔ lets_through is_ es d p.
Proof.
  intros M. unfold path_includes, lets_through. rewrite (made_included _ _ _ _ M), (made_excluded _ _ _ _ M), (made_depth _ _ _ _ M).
  destruct (bool_decide (is_ = ∅) && bool_decide (es = ∅)).
  { destruct (Z.eqb_spec d (-1)) as [->|Hd]; cbn [negb]; [split; [by left|done]|]. rewrite Z.leb_le. split; [by right|]. by intros [|]. }
  rewrite path_walk_scan, (made_depth _ _ _ _ M) by lia. destruct (scan_up (path_map r) d (path_chain p) 0) as [b|] eqn:Hs.
  - destruct (proj1 (scan_nearest _ _ _ _ _ _ M) Hs) as (l1 & q & Hn & Hb). split.
    + intros ->. left. exists l1, q. split; [done|]. by apply Hb.
    + intros [(l1' & q' & Hn' & Hq')|[Hno _]]; [|destruct Hno; by exists l1, q].
      assert (scan_up (path_map r) d (path_chain p) 0 = Some true) as Ht by (apply (scan_nearest _ _ _ _ _ _ M); exists l1', q'; tauto).
      congruence.
  - rewrite bool_decide_eq_true. assert (¬ ∃ l1 q, nearest is_ es d p l1 q) as Hno.
    { intros (l1 & q & Hn). assert (scan_up (path_map r) d (path_chain p) 0 ≠ None) as Hne; [|done].
      destruct Hn as [(l2 & Hl) (Hin & Hmk & Hun)]. destruct (path_map r !! q) as [s|] eqn:Hq; [|by apply (made_marked _ _ _ _ q M) in Hq].
      rewrite (proj2 (scan_first (path_map r) d (path_chain p) 0 (decide_status s (0 + Z.of_nat (length l1))) ltac:(lia))); [done|].
      exists l1, q, l2, s. split_and!; [done..| |done|done]. intros x Hx. by apply (made_marked _ _ _ _ x M), Hun. }
    split; [by right|]. intros [(l1 & q & Hn & _)|[_ ?]]; [|done]. destruct Hno. by exists l1, q.
Qed.

(** ** The rule of the manual *)

Lemma path_chain_suffix p l1 q l2 : path_chain p = l1 ++ q :: l2 → path_chain q = q :: l2.
Proof.
  revert l1. induction p as [p IH] using path_chain_ind. intros l1 Hp. pose proof (path_chain_eq p) as He. rewrite Hp in He.
  destruct l1 as [|x l1]; cbn [app] in *; [injection He as -> _; exact Hp|]. injection He as -> He. unfold fp_empty in He. case_bool_decide as Hd; [by destruct l1|].
  by apply (IH Hd l1).
Qed.

Lemma path_chain_trans x y z : x ∈ path_chain y → z ∈ path_chain x → z ∈ path_chain y.
Proof. intros (l1 & l2 & Hy)%list_elem_of_split Hz. rewrite (path_chain_suffix _ _ _ _ Hy) in Hz. rewrite Hy. apply elem_of_app. by right. Qed.

Lemma path_chain_length x y : x ∈ path_chain y → (length (data x) ≤ length (data y))%nat.
Proof.
  induction y as [y IH] using path_chain_ind. rewrite path_chain_eq. unfold fp_empty. case_bool_decide as He; [by intros ->%list_elem_of_singleton|].
  intros [->|Hx]%elem_of_cons; [done|]. specialize (IH He Hx). pose proof (dirname_shorter y He). lia.
Qed.

Lemma path_chain_below i x : x ∈ path_chain i → x = i ∨ x ∈ path_chain (dirname i).
Proof. rewrite path_chain_eq. case_match; [intros ?%list_elem_of_singleton; by left|]. intros [|]%elem_of_cons; auto. Qed.

Lemma path_chain_up i x : x ∈ path_chain (dirname i) → x ∈ path_chain i.
Proof. apply path_chain_trans, path_chain_dirname, path_chain_self. Qed.

(** The first element of a list with a property. *)
Lemma first_in {A} (P : A → Prop) `{!∀ x, Decision (P x)} (l : list A) :
  (∃ l1 q l2, l = l1 ++ q :: l2 ∧ P q ∧ ∀ x, x ∈ l1 → ¬ P x) ∨ ∀ x, x ∈ l → ¬ P x.
Proof.
  induction l as [|x l IH]; [right; by intros x ?%not_elem_of_nil|]. destruct (decide (P x)) as [Hx|Hx].
  - left. exists [], x, l. split_and!; [done..|]. by intros y ?%not_elem_of_nil.
  - destruct IH as [(l1 & q & l2 & -> & Hq & Hl)|Hl]; [left; exists (x :: l1), q, l2; split_and!; [done..|]|right]; intros y [->|Hy]%elem_of_cons; auto.
Qed.

(** What the manual says a restriction includes: the paths it names to be included and what is below them, as deep as the depth says, except what is
    below a nearer path that is excluded; the directories above the included paths; and, if it only names paths to be excluded, all that is not at or below those.
    Without any paths it includes what is not deeper than the depth. *)
Definition documented (is_ es : gset file_path) (d : Z) (p : file_path) : Prop :=
  if bool_decide (is_ = ∅) && bool_decide (es = ∅) then d = -1 ∨ Z.of_nat (depth p) ≤ d
  else
    (∃ i, i ∈ is_ ∧ p ∈ path_chain i) ∨
    (∃ l1 q l2, path_chain p = l1 ++ q :: l2 ∧ q ∈ is_ ∧ in_depth d (Z.of_nat (length l1)) = true ∧ ∀ x, x ∈ l1 → x ∉ is_ ∧ x ∉ es) ∨
    (is_ = ∅ ∧ ∀ x, x ∈ path_chain p → x ∉ es).

(** No included path is below another one. *)
Definition not_nested (is_ : gset file_path) : Prop := ∀ i j, i ∈ is_ → j ∈ is_ → j ∈ path_chain i → j = i.

Lemma documented_lets_through is_ es d p :
  -1 ≤ d → is_ ≠ ∅ ∨ es = ∅ ∨ d = -1 → not_nested is_ → documented is_ es d p → lets_through is_ es d p.
Proof.
  intros Hd Hc Hn. unfold documented, lets_through. destruct (bool_decide (is_ = ∅) && _) eqn:Hem; [done|].
  assert (in_depth d 0 = true) as Hd0 by (unfold in_depth; destruct (Z.eqb_spec d (-1)); [done|apply Z.leb_le; lia]).
  assert (∀ q, q = p → marked is_ es q → nearest is_ es d p [] q) as Hself.
  { intros q -> Hq. split_and!; [|done..|by intros x ?%not_elem_of_nil]. rewrite path_chain_eq. eauto. }
  intros [(i & Hi & Hp)|[(l1 & q & l2 & Hl & Hq & Hin & Hun)|[-> Hno]]].
  - left. exists [], p. destruct (path_chain_below i p Hp) as [->|Hab].
    + split; [|by left]. apply Hself; [done|]. by left.
    + assert (above is_ p) as Ha by (by exists i). split; [|by right]. apply Hself; [done|]. by right; right.
  - left. exists l1, q. split; [|by left]. split_and!; [eauto|done|by left|]. intros x Hx. destruct (Hun x Hx) as [Hx1 Hx2].
    intros [?|[?|(i & Hi & Ha)]]; [done..|].
    assert (q ∈ path_chain x) as Hqx.
    { apply list_elem_of_split in Hx as (a & b & ->). rewrite <- app_assoc in Hl. cbn [app] in Hl. rewrite (path_chain_suffix _ _ _ _ Hl).
      right. apply elem_of_app. right. by left. }
    assert (q = i) as -> by (apply Hn; [done..|]; by apply path_chain_up, (path_chain_trans x)).
    destruct (decide (data i = [])) as [He|He].
    + rewrite dirname_empty in Ha by done. destruct (path_chain_below i x Ha) as [->|Hxi]; [done|]. rewrite dirname_empty in Hxi by done.
      rewrite path_chain_eq in Hxi. unfold fp_empty in Hxi. rewrite bool_decide_eq_true_2 in Hxi by done. apply list_elem_of_singleton in Hxi. by subst.
    + pose proof (dirname_shorter i He). pose proof (path_chain_length _ _ (path_chain_trans _ _ _ Ha Hqx)). lia.
  - right. split; [|done]. intros (l1 & q & (l2 & Hl) & _ & Hm & _). destruct Hm as [?%not_elem_of_empty|[Hq|(i & ?%not_elem_of_empty & _)]]; [done| |done].
    apply (Hno q); [|done]. rewrite Hl. apply elem_of_app. right. by left.
Qed.

Lemma lets_through_documented is_ es d p :
  is_ ≠ ∅ ∨ es = ∅ ∨ d = -1 → lets_through is_ es d p → documented is_ es d p.
Proof.
  intros Hc. unfold documented, lets_through. destruct (bool_decide (is_ = ∅) && _) eqn:Hem; [done|].
  intros [(l1 & q & ((l2 & Hl) & Hin & Hm & Hun) & [Hq|[-> (i & Hi & Ha)]])|[Hno ->]].
  - right; left. exists l1, q, l2. split_and!; [done..|]. intros x Hx. specialize (Hun x Hx). unfold marked in Hun. tauto.
  - left. exists i. split; [done|]. rewrite path_chain_eq in Hl. injection Hl as -> _. by apply path_chain_up.
  - right; right. split; [done|]. destruct (first_in (λ x, x ∈ es) (path_chain p)) as [(l1 & q & l2 & Hl & Hq & Hun)|]; [|done].
    destruct Hno. exists l1, q. split_and!; [eauto| |by right; left|].
    + destruct Hc as [?|[Hes|Hd]]; [done|by rewrite Hes in Hq; apply not_elem_of_empty in Hq|by rewrite Hd].
    + intros x Hx [?%not_elem_of_empty|[?|(i & ?%not_elem_of_empty & _)]]; [done| |done]. by apply (Hun x).
Qed.

(** ** Unknown paths *)

Lemma count_unknown_zero u (ps : gset file_path) n : 0 ≤ n → count_unknown u ps n = 0 ↔ n = 0 ∧ ∀ p, p ∈ ps → u p = false.
Proof.
  unfold count_unknown. setoid_rewrite <- elem_of_set_iter. generalize (set_iter ps). intros l. revert n.
  induction l as [|p l IH]; intros n Hn; cbn [foldl]; [split; [split; [done|by intros q ?%not_elem_of_nil]|tauto]|].
  rewrite IH by (destruct (u p); lia). destruct (u p) eqn:Hu.
  - split; [lia|]. intros [_ Hl]. by rewrite Hl in Hu by (by left).
  - split; (intros [-> Hl]; split; [done|]); intros q; [intros [->|Hq]%elem_of_cons; auto|]. intros Hq. apply Hl. by right.
Qed.

Lemma validate_paths_eq (incs excs : list file_path) u :
  validate_paths (list_to_set incs) (list_to_set excs) u = if existsb u (incs ++ excs) then Err (Recoverable user) else Ok tt.
Proof.
  unfold validate_paths. set (n := count_unknown u (list_to_set incs) 0).
  assert (0 ≤ n) as Hn0.
  { unfold n, count_unknown. generalize (set_iter (list_to_set incs : gset file_path)). intros l. assert (∀ k, 0 ≤ k → 0 ≤ foldl (λ bad p, if u p then bad + 1 else bad) k l) as Hl; [|by apply Hl].
    induction l as [|p l IH]; intros k Hk; [done|]. cbn [foldl]. apply IH. destruct (u p); lia. }
  pose proof (count_unknown_zero u (list_to_set excs) n Hn0) as H2. pose proof (count_unknown_zero u (list_to_set incs) 0 ltac:(lia)) as H1. fold n in H1.
  setoid_rewrite elem_of_list_to_set in H1. setoid_rewrite elem_of_list_to_set in H2.
  destruct (existsb u (incs ++ excs)) eqn:He; destruct (Z.eqb_spec (count_unknown u (list_to_set excs) n) 0) as [Hz|Hz]; try done.
  - apply H2 in Hz as [Hz1 Hz2]. apply H1 in Hz1 as [_ Hz1]. apply existsb_exists in He as (p & Hp%list_elem_of_In & Hu). apply elem_of_app in Hp as [Hp|Hp];
      [by rewrite (Hz1 p Hp) in Hu|by rewrite (Hz2 p Hp) in Hu].
  - exfalso. apply Hz, H2. assert (∀ p, p ∈ incs ++ excs → u p = false) as Hall.
    { intros p Hp. destruct (u p) eqn:Hu; [|done]. assert (existsb u (incs ++ excs) = true) as Ht; [|congruence].
      apply existsb_exists. exists p. split; [by apply list_elem_of_In|done]. }
    split; [apply H1; split; [done|]|]; intros p Hp; apply Hall, elem_of_app; auto.
Qed.

(** C21: a path restriction follows the manual.  Making one without the check of the paths fails exactly if some path is both included and excluded;
    making one with the check fails in that case and if a path it names neither exists nor is ignored, and gives the same
    restriction otherwise.  What it includes is what the manual says ([documented]), unless an included path is below another one, or there are excluded paths and a depth
    but no included path: what it includes then is told by [path_includes_made]. *)
Theorem path_restriction_documented path_exists ignore incs excs d :
  (∃ p, p ∈ incs ∧ p ∈ excs) ∧ new_path_restriction_skip_check incs excs d = Err (Recoverable user) ∧
    new_path_restriction path_exists ignore incs excs d = Err (Recoverable user) ∨
  (∀ p, p ∈ incs → p ∉ excs) ∧ ∃ r, new_path_restriction_skip_check incs excs d = Ok r ∧
    new_path_restriction path_exists ignore incs excs d =
      (if existsb (λ p, negb (path_exists p) && negb (ignore p)) (incs ++ excs) then Err (Recoverable user) else Ok r) ∧
    (-1 ≤ d → incs ≠ [] ∨ excs = [] ∨ d = -1 → not_nested (list_to_set incs) →
      ∀ p, path_includes r p = true ↔ documented (list_to_set incs) (list_to_set excs) d p).
Proof.
  assert (new_path_restriction path_exists ignore incs excs d = (r ← new_path_restriction_skip_check incs excs d;
    validate_paths (list_to_set incs) (list_to_set excs) (unknown_unignored_path path_exists ignore) ;; Ok r)) as ->.
  { unfold new_path_restriction, new_path_restriction_skip_check. destruct (map_paths _ included ∅) as [m|]; [|done]. cbn [mbind result_bind].
    by destruct (map_paths _ excluded m). }
  rewrite validate_paths_eq. unfold unknown_unignored_path.
  destruct (new_path_restriction_made incs excs d) as [[He Hp]|(r & -> & Hd & M)]; [left; rewrite He; done|]. right. split; [done|]. exists r. split; [done|].
  split; [cbn [mbind result_bind]; by destruct (existsb _ _)|]. intros Hd1 Hc Hn p.
  assert (list_to_set incs ≠ (∅ : gset file_path) ∨ list_to_set excs = (∅ : gset file_path) ∨ d = -1) as Hc'.
  { destruct Hc as [Hne|[->|]]; [left|by right; left|by right; right]. destruct incs as [|i incs]; [done|]. cbn. set_solver. }
  rewrite (path_includes_made _ _ _ _ _ M). split; [by apply lets_through_documented|by apply documented_lets_through].
Qed.

(** ** Parents come along *)

Lemma foldl_slashes l n : foldl (λ n c, if decide (c = slash) then S n else n) n l = (n + foldl (λ n c, if decide (c = slash) then S n else n) 0 l)%nat.
Proof.
  revert n. induction l as [|c l IH]; intros n; cbn [foldl]; [lia|]. rewrite IH, (IH (if decide _ then _ else _)). destruct (decide (c = slash)); lia.
Qed.

Lemma depth_app s t : (depth (FilePath s) ≤ depth (FilePath (s ++ t)))%nat.
Proof.
  unfold depth, fp_empty. cbn [data]. case_bool_decide; [lia|]. rewrite bool_decide_eq_false_2 by (by destruct s).
  rewrite foldl_app, (foldl_slashes t (foldl _ _ _)). lia.
Qed.

Lemma depth_dirname p : (depth (dirname p) ≤ depth p)%nat.
Proof.
  unfold dirname. destruct (rfind_slash (data p)) as [i|] eqn:Hi; [|unfold depth at 1; cbn; lia].
  destruct (rfind_slash_Some _ _ Hi) as [Hs _]. destruct p as [s]. cbn [data] in *. rewrite Hs at 2. apply depth_app.
Qed.

(** What a path restriction lets through is a tree: with a path goes its directory, unless there are
    only excluded paths and a depth. *)
Theorem path_restriction_parents incs excs d r p :
  new_path_restriction_skip_check incs excs d = Ok r → incs ≠ [] ∨ excs = [] ∨ d = -1 →
  path_includes r p = true → path_includes r (dirname p) = true.
Proof.
  intros Hr Hc Hp. destruct (new_path_restriction_made incs excs d) as [[He _]|(r' & Hr' & _ & M)]; [congruence|].
  assert (r' = r) as -> by congruence. clear Hr Hr'. destruct (decide (data p = [])) as [He|He]; [by rewrite dirname_empty|].
  revert Hp. unfold path_includes. rewrite (made_included _ _ _ _ M), (made_excluded _ _ _ _ M), (made_depth _ _ _ _ M).
  destruct (bool_decide (list_to_set incs = ∅) && _) eqn:Hem.
  { destruct (Z.eqb_spec d (-1)); [done|]. cbn [negb]. rewrite !Z.leb_le. pose proof (depth_dirname p). lia. }
  rewrite !path_walk_scan, (made_depth _ _ _ _ M) by lia. rewrite (path_chain_eq p). unfold fp_empty. rewrite bool_decide_eq_false_2 by done.
  rewrite (path_chain_eq (dirname p)). apply verdict_parent.
  - intros s Hst Hs'. destruct (made_status _ _ _ _ M p) as (b & Hb & Hst'). rewrite Hst' in Hst. rewrite (status_of_lets_in _ _ _ _ Hst) in Hs'.
    destruct (made_status _ _ _ _ M (dirname p)) as (b' & Hb' & Hst2).
    assert (b' = true) as ->; [|rewrite Hst2; unfold status_of; repeat case_bool_decide; cbn; eauto].
    apply Hb'. apply orb_true_iff in Hs' as [Hi%bool_decide_eq_true|Ha%Hb]; [by apply above_included|by apply above_dirname].
  - rewrite bool_decide_eq_true. intros Hi. destruct Hc as [Hne|[->|]]; [|by rewrite Hi in Hem|done]. destruct incs; [done|]. set_solver.
Qed.

(** ** Examples *)

Definition fpath (s : bytes) : file_path := FilePath s.

Lemma path_restriction_parents_witness :
  ∃ r, new_path_restriction_skip_check [fpath (lit "a/b")] [fpath (lit "a")] (-1) = Ok r ∧
    path_includes r (fpath (lit "a/b/c")) = true ∧ path_includes r (dirname (fpath (lit "a/b/c"))) = true.
Proof.
  eexists. split; [vm_compute; reflexivity|]. split; [vm_compute; reflexivity|].
  apply (path_restriction_parents [fpath (lit "a/b")] [fpath (lit "a")] (-1)); [vm_compute; reflexivity|by left|vm_compute; reflexivity].
Defined.

(** Naming a directory and, further down, something in it hides the rest of the directories in between: [a/x] is let
    through and [a/b/x] is not. *)
Example included_directory_hidden :
  (r ← new_path_restriction_skip_check [fpath (lit "a"); fpath (lit "a/b/c")] [] (-1);
   Ok (path_includes r <$> [fpath (lit "a/x"); fpath (lit "a/b"); fpath (lit "a/b/x")])) = Ok [true; true; false].
Proof. vm_compute. reflexivity. Qed.

(** With an excluded path and a depth of 0 a file is let through and its directory, which is excluded, is not. *)
Example exclusion_with_depth :
  (r ← new_path_restriction_skip_check [] [fpath (lit "a")] 0;
   Ok (path_includes r <$> [fpath (lit "a/x"); fpath (lit "a")])) = Ok [true; false].
Proof. vm_compute. reflexivity. Qed.
