(* ===== verification/RestrictionsNodes.v ===== *)
(** * Restrictions of nodes

    A restriction made over one roster lets a tree of its nodes through.  Made over
    two rosters it need not. *)

From S2P Require Import Prelude Numbers Paths Roster RosterInvariant DfsCorrect Restrictions RestrictionsCorrect.

(** ** The required nodes *)

Section required.
Context (r : roster).

(** With a node its parent is there, or it is the one still to be looked at. *)
Definition parents_in (ps : gset Z) (next : Z) : Prop :=
  ∀ x n, x ∈ ps → nodes r !! x = Some n → null_node (parent n) = true ∨ parent n ∈ ps ∨ parent n = next.

Lemma climb_node_closed fuel p ps ps' :
  parents_in ps p → climb_node fuel r p ps = Ok ps' →
  ps ⊆ ps' ∧ (null_node p = true ∨ p ∈ ps') ∧ parents_in ps' the_null_node.
Proof using Type.
  revert p ps. induction fuel as [|fuel IH]; intros p ps Hps; cbn [climb_node]; destruct (null_node p || bool_decide (p ∈ ps)) eqn:Hc; try done.
  1,2: intros [= <-]; apply orb_true_iff in Hc; rewrite bool_decide_eq_true in Hc; split_and!; [done..|];
    intros x n Hx Hn; destruct (Hps x n Hx Hn) as [?|[?|Hp]]; [by left|by right; left|]; rewrite Hp; destruct Hc; tauto.
  intros H. inv_ok. unfold get_node in *. inv_ok. apply IH in H as (Hsub & Hpar & Hcl).
  - split_and!; [set_solver| |done]. right. set_solver.
  - intros x n' [->%elem_of_singleton|Hx]%elem_of_union Hn'; [right; right; congruence|].
    destruct (Hps x n' Hx Hn') as [?|[?|Hp]]; [by left|right; left; set_solver|right; left; rewrite Hp; set_solver].
Qed.

Lemma required_nodes_closed m ps :
  required_nodes r m = Ok ps →
  parents_in ps the_null_node ∧
  ∀ i n, m !! i = Some included → nodes r !! i = Some n → null_node (parent n) = true ∨ parent n ∈ ps.
Proof using Type.
  intros H. unfold required_nodes in H.
  apply (foldM_prefix (λ l ps, parents_in ps the_null_node ∧
    ∀ i n, (i, included) ∈ l → nodes r !! i = Some n → null_node (parent n) = true ∨ parent n ∈ ps)) in H as [H1 H2].
  - split; [done|]. intros i n Hi. apply H2. by apply elem_of_map_iter.
  - split; [by intros x n ?%not_elem_of_empty|]. by intros i n ?%not_elem_of_nil.
  - intros l1 [i s] l2 ps1 ps2 _ [Hc Hall] Hstep. cbn [fst snd] in Hstep. destruct (bool_decide (s = included) && has_node r i) eqn:Hs.
    + inv_ok. unfold get_node in *. inv_ok. subst s.
      apply climb_node_closed in Hstep as (Hsub & Hpar & Hcl).
      * split; [done|]. intros j n [Hj|Hj%list_elem_of_singleton]%elem_of_app Hn; [destruct (Hall j n Hj Hn); [by left|right; set_solver]|].
        injection Hj as ->. assert (n = v) as -> by congruence. done.
      * intros x n Hx Hn. destruct (Hc x n Hx Hn) as [|[|Hp]]; [by left|by right; left|]. left. by rewrite Hp.
    + injection Hstep as <-. split; [done|]. intros j n [Hj|Hj%list_elem_of_singleton]%elem_of_app Hn; [by eapply Hall|].
      injection Hj as -> <-. rewrite bool_decide_eq_true_2 in Hs by done. unfold has_node in Hs. by rewrite Hn, bool_decide_eq_true_2 in Hs.
Qed.

(** What [add_parents] makes of the statuses. *)
Lemma add_parents_nodes_lookup m m' :
  add_parents_nodes r m = Ok m' →
  ∃ ps, required_nodes r m = Ok ps ∧ ∀ i, m' !! i = if decide (i ∈ ps) then require_status (m !! i) else m !! i.
Proof using Type.
  unfold add_parents_nodes. intros H. inv_ok. exists v. split; [done|].
  assert (m' = foldl (λ m p, partial_alter require_status p m) m (set_iter v)) as ->.
  { revert H. generalize (set_iter v). intros l. revert m E. intros m _. revert m. induction l as [|x l IH]; intros m; cbn [foldM foldl]; [by intros [= <-]|].
    intros Hf. apply bind_Ok_inv in Hf as (m1 & Hm1 & Hf). apply bind_Ok_inv in Hm1 as (u & _ & [= <-]). by apply IH. }
  intros i. rewrite foldl_alter by apply NoDup_set_iter.
  destruct (decide (i ∈ set_iter v)) as [Hi|Hi], (decide (i ∈ v)); rewrite elem_of_set_iter in Hi; done.
Qed.
End required.

(** Before [add_parents] there are two statuses only. *)
Definition two_statuses (m : gmap Z status) : Prop := ∀ i s, m !! i = Some s → s = included ∨ s = excluded.

Lemma map_nodes_plain r is_ es s s' : two_statuses s.1 → map_nodes r is_ es s = Ok s' → two_statuses s'.1.
Proof.
  assert (∀ paths st s s', st = included ∨ st = excluded → two_statuses s.1 → map_nodes_as r paths st s = Ok s' → two_statuses s'.1) as Has.
  { clear s s'. intros paths st s s' Hst Hp. unfold map_nodes_as. apply (foldM_inv (λ s, two_statuses s.1)); [done|]. clear s s' Hp.
    intros [m known] p s' _ Hp. cbn [fst]. destruct (has_node_path r p); [|by intros [= <-]]. intros H. inv_ok. subst s'. cbn [fst] in *.
    unfold give_status in *. destruct (m !! self v) as [s0|]; inv_ok; subst; [done|].
    intros i s. destruct (decide (i = self v)) as [->|]; [rewrite lookup_insert_eq; by intros [= <-]|rewrite lookup_insert_ne by done; apply Hp]. }
  unfold map_nodes. intros Hp H. inv_ok. eapply Has, H; [by right|]. eapply Has, E; [by left|done].
Qed.

(** Whoever is let in over one roster has a parent that is let in. *)
Lemma one_roster_parent incs excs d r ignore nr i n s :
  new_node_restriction incs excs d r ignore implicit_includes = Ok nr → nodes r !! i = Some n → parent n ≠ the_null_node →
  node_map nr !! i = Some s → lets_in s = true → ∃ s', node_map nr !! parent n = Some s' ∧ lets_in s' = true.
Proof.
  unfold new_node_restriction, new_node_restriction_over. cbn [foldM]. intros H Hn Hp Hs Hin. inv_ok. subst. destruct v as [m known]. inv_ok. subst. cbn [node_map] in *.
  assert (two_statuses m) as Hpl.
  { apply (map_nodes_plain r (list_to_set incs) (list_to_set excs) (∅, ∅) (m, known)); done. }
  destruct (add_parents_nodes_lookup r m v) as (ps & Hps & Hv); [done|]. destruct (required_nodes_closed r m ps Hps) as [Hcl Hinc].
  assert (parent n ∈ ps) as Hin'.
  { assert (null_node (parent n) = true ∨ parent n ∈ ps) as [Hz%Z.eqb_eq|]; [|done..].
    rewrite Hv in Hs. destruct (decide (i ∈ ps)) as [Hi|Hi].
    - destruct (Hcl i n Hi Hn) as [|[|Hz]]; [by left|by right|]. left. by rewrite Hz.
    - apply (Hinc i n); [|done]. destruct (Hpl i s Hs) as [->| ->]; [done|]. done. }
  rewrite Hv, decide_True by done. destruct (m !! parent n) as [s0|] eqn:Hm0; [|by exists required].
  destruct (Hpl _ _ Hm0) as [->| ->]; cbn; eauto.
Qed.

(** ** The way up from a node *)

Lemma depth_snoc cs k : (depth (FilePath (join_slash cs)) ≤ depth (FilePath (join_slash (cs ++ [k]))))%nat.
Proof.
  rewrite join_snoc. destruct cs as [|c cs]; [cbn; lia|]. unfold prefix_of. rewrite <- app_assoc. apply depth_app.
Qed.

Section up.
Context (r : roster) (root : Z).
Context (Hwf : rwf r) (Hroot : root_dir r = Some root).

(** The nodes from the one a path leads to up to the root. *)
Inductive way_up : Z → list Z → Prop :=
  | way_root i n : nodes r !! i = Some n → i ≠ the_null_node → parent n = the_null_node → way_up i [i]
  | way_step i n l : nodes r !! i = Some n → i ≠ the_null_node → way_up (parent n) l → way_up i (i :: l).

Lemma walk_way_up comps i : walk r root comps = Ok i → ∃ l, way_up i l ∧ length l = S (length comps).
Proof using Hwf Hroot.
  revert i. induction comps as [|pc comps IH] using rev_ind; intros i Hw.
  - injection Hw as <-. destruct (wf_root r Hwf _ Hroot) as (n & Hn & _ & Hp). exists [root]. split; [|done].
    apply (way_root root n); [done| |done]. by apply (wf_self r Hwf root n).
  - rewrite walk_app in Hw. apply bind_Ok_inv in Hw as (j & Hj & Hw). destruct (walk_child r root Hwf Hroot _ _ _ Hw) as (n & Hn & Hp & _ & _).
    destruct (IH j Hj) as (l & Hl & Hlen). exists (i :: l). rewrite length_app. cbn [length]. split; [|lia].
    apply (way_step i n); [done| |by rewrite Hp]. by apply (wf_self r Hwf i n).
Qed.

Lemma node_walk_scan nr i l fuel k :
  way_up i l → (length l ≤ fuel)%nat → node_walk fuel nr r i k = Ok (scan_up (node_map nr) (n_depth nr) l k).
Proof using Type.
  intros Hw. revert fuel k. induction Hw as [i n Hn Hi Hp|i n l Hn Hi Hw IH]; intros [|fuel] k Hf; cbn [length] in Hf; try lia; cbn [node_walk scan_up].
  all: unfold null_node at 1; rewrite (proj2 (Z.eqb_neq i the_null_node)) by done; cbn [negb andb]; fold (in_depth (n_depth nr) k).
  all: destruct (in_depth (n_depth nr) k); [|done]; destruct (node_map nr !! i); [done|]; unfold get_node; rewrite Hn; cbn [of_option mbind result_bind].
  - rewrite Hp. by destruct fuel.
  - apply IH. lia.
Qed.

(** The path of a node and that of its parent. *)
Lemma get_name_parent i n fp :
  nodes r !! i = Some n → parent n ≠ the_null_node → get_name r i = Ok fp →
  ∃ comps fp', walk r root (comps ++ [name n]) = Ok i ∧ walk r root comps = Ok (parent n) ∧
    get_name r (parent n) = Ok fp' ∧ (depth fp' ≤ depth fp)%nat.
Proof using Hwf Hroot.
  intros Hn Hp Hg. unfold get_name in Hg. rewrite Hroot in Hg. inv_ok. subst.
  match goal with E : name_chain _ _ _ _ = Ok ?c |- _ => rename E into Hc; rename c into cs end.
  match goal with E : Some root = Some ?x |- _ => assert (x = root) as -> by congruence; clear E end.
  pose proof (chain_walk r root Hwf Hroot _ _ _ Hc) as Hw. destruct cs as [|pc cs _] using rev_ind.
  { injection Hw as ->. destruct (wf_root r Hwf _ Hroot) as (n' & Hn' & _ & Hp'). congruence. }
  pose proof Hw as Hw0. rewrite walk_app in Hw. apply bind_Ok_inv in Hw as (j & Hj & Hw). destruct (walk_child r root Hwf Hroot _ _ _ Hw) as (n' & Hn' & Hpar & Hname & _).
  assert (n' = n) as -> by congruence. subst j pc. exists cs.
  pose proof (walk_length r root Hwf Hroot _ _ Hj) as Hlen.
  assert (get_name r (parent n) = match cs with [] => Ok (FilePath []) | top :: _ => I_ (negb (in_bookkeeping_dir top)) ;; Ok (FilePath (join_slash cs)) end) as ->.
  { unfold get_name. rewrite Hroot. unfold null_node. rewrite (proj2 (Z.eqb_neq (parent n) the_null_node)) by done. cbn [negb I_ of_option mbind result_bind].
    by rewrite (walk_chain r root Hwf Hroot cs) by (done || lia). }
  destruct cs as [|top cs]; [exists (FilePath []); split_and!; [done..|]; cbn; lia|]. cbn [app] in Hg.
  destruct (negb (in_bookkeeping_dir top)); [|done]. cbn [I_ mbind result_bind] in *. injection Hg as <-.
  eexists. split_and!; [done..|]. exact (depth_snoc (top :: cs) (name n)).
Qed.
End up.

(** C22: what a node restriction made over one well-formed roster with [implicit_includes], which is the default, lets through
    is a tree: with a node goes its parent, unless there are only excluded paths and a depth.  No answer is lost on the way: where there is one for the node there is one for the parent. *)
Theorem node_restriction_parents incs excs d r ignore nr i n :
  rwf r → new_node_restriction incs excs d r ignore implicit_includes = Ok nr → incs ≠ [] ∨ excs = [] ∨ d = -1 →
  nodes r !! i = Some n → parent n ≠ the_null_node → node_includes nr r i = Ok true → node_includes nr r (parent n) = Ok true.
Proof.
  intros Hwf Hr Hc Hn Hp Hi. assert (n_included_paths nr = list_to_set incs ∧ n_excluded_paths nr = list_to_set excs ∧ n_depth nr = d) as (Hinc & Hexc & Hd).
  { clear Hi. unfold new_node_restriction, new_node_restriction_over in Hr. inv_ok. destruct v as [m known]. inv_ok. by subst. }
  unfold node_includes in *. inv_ok. match goal with E : get_name r i = Ok ?f |- _ => rename E into Hg; rename f into fp end.
  destruct (root_dir r) as [root|] eqn:Hroot; [|unfold get_name in Hg; rewrite Hroot in Hg; inv_ok; done].
  destruct (get_name_parent r root Hwf Hroot i n fp Hn Hp Hg) as (comps & fp' & Hw & Hj & -> & Hdep).
  destruct (wf_parent r Hwf i n Hn Hp) as (pn & _ & Hpn & _ & _). unfold has_node. rewrite Hpn, (bool_decide_eq_true_2 (is_Some (Some pn))) by (by eexists). cbn [I_ mbind result_bind].
  rewrite Hinc, Hexc, Hd in *. destruct (bool_decide (list_to_set incs = ∅) && _) eqn:Hem.
  { destruct (Z.eqb_spec d (-1)); [done|]. cbn [negb] in *. injection Hi as Hi%Z.leb_le. f_equal. apply Z.leb_le. lia. }
  destruct (walk_way_up r root Hwf Hroot _ _ Hj) as (l & Hl & Hlen). pose proof (walk_length r root Hwf Hroot _ _ Hw) as Hsz. rewrite length_app in Hsz. cbn in Hsz.
  assert (way_up r i (i :: l)) as Hl' by (apply (way_step r i n); [done|by apply (wf_self r Hwf i n)|done]).
  rewrite (node_walk_scan r nr _ l) by (done || lia). rewrite (node_walk_scan r nr _ (i :: l)) in Hi by (done || (cbn; lia)).
  cbn [mbind result_bind] in *. rewrite Hd in *. f_equal.
  assert (∃ l', l = parent n :: l') as [l' ->] by (inversion Hl; eauto).
  apply (verdict_parent _ d _ i (parent n)); [intros s; by eapply one_roster_parent| |unfold verdict; congruence].
  rewrite bool_decide_eq_true. intros Hi'. destruct Hc as [Hne|[->|]]; [|by rewrite Hi' in Hem|done]. destruct incs; [done|]. set_solver.
Qed.

(** ** Examples *)

(** A directory [x] with a file [y] in it, and what it looks like after [x] was moved into a new directory [d] and [y] out of it. *)
Definition before_move : roster :=
  Roster (Some 1)
    (<[1 := Node 1 0 [] ∅ (DirBody {[lit "x" := 2]})]>
     (<[2 := Node 2 1 (lit "x") ∅ (DirBody {[lit "y" := 3]})]>
      {[3 := Node 3 2 (lit "y") ∅ (FileBody (lit "c"))]})) ∅.
Definition after_move : roster :=
  Roster (Some 1)
    (<[1 := Node 1 0 [] ∅ (DirBody (<[lit "d" := 4]> {[lit "y" := 3]}))]>
     (<[4 := Node 4 1 (lit "d") ∅ (DirBody {[lit "x" := 2]})]>
      (<[2 := Node 2 4 (lit "x") ∅ (DirBody ∅)]>
       {[3 := Node 3 1 (lit "y") ∅ (FileBody (lit "c"))]}))) ∅.

Lemma node_restriction_parents_witness :
  ∃ nr, new_node_restriction [fpath (lit "x/y")] [] (-1) before_move (λ _, false) implicit_includes = Ok nr ∧
    node_includes nr before_move 3 = Ok true ∧ node_includes nr before_move 2 = Ok true.
Proof.
  eexists. split; [vm_compute; reflexivity|]. split; [vm_compute; reflexivity|].
  apply (node_restriction_parents [fpath (lit "x/y")] [] (-1) before_move (λ _, false) _ 3 (Node 3 2 (lit "y") ∅ (FileBody (lit "c"))));
    [apply complete_wf, complete_b_sound; vm_compute; reflexivity|vm_compute; reflexivity|by left|vm_compute; reflexivity|done|vm_compute; reflexivity].
Defined.

(** Two valid rosters and a restriction over both, made of the directory and the file as they were: the moved
    directory is let through and the new directory it is in now is not, since a status that the first roster changed to
    [included_required] no longer counts as included when the second one is looked at. *)
Example two_rosters_miss_parent :
  complete before_move ∧ complete after_move ∧
  (nr ← new_node_restriction_two [fpath (lit "x"); fpath (lit "x/y")] [] (-1) before_move after_move (λ _, false) implicit_includes;
   moved ← node_includes nr after_move 2;
   into ← node_includes nr after_move 4;
   Ok (moved, into)) = Ok (true, false) ∧
  (nr ← new_node_restriction_two [fpath (lit "x")] [] (-1) before_move after_move (λ _, false) implicit_includes;
   moved ← node_includes nr after_move 2;
   into ← node_includes nr after_move 4;
   Ok (moved, into)) = Ok (true, true).
Proof. split_and!; [apply complete_b_sound; vm_compute; reflexivity..|vm_compute; reflexivity|vm_compute; reflexivity]. Qed.
