(* ===== verification/RestrictedRoster.v ===== *)
(** * Restricted rosters ([src/src/roster.cc])

    Between an old and a new roster lies the one that has the changes a
    restriction includes: [make_restricted_roster] selects each node from one
    of the two and puts them together, parents first.  Both of its loops have
    fuel; [None] stands for a run that has not ended.

    If the selected nodes fit together, the restricted roster is the one they
    make; if the selected directories go round in a circle, there is none. *)

From S2P Require Import Prelude Numbers Paths Roster RosterInvariant ParallelIter DfsIter DfsCorrect DfsSane RosterRebuild Restrictions RestrictionsCorrect RestrictionsNodes.

(** ** Selecting the nodes *)

Definition select_one (from to : roster) (mask : node_restriction) (selected : gmap Z node) (e : Z * item node) : result (gmap Z node) :=
  match e.2 with
  | Left n =>
      b ← node_includes mask from e.1;
      Ok (if (b : bool) then selected else <[e.1 := n]> selected)
  | Right n =>
      b ← node_includes mask to e.1;
      Ok (if (b : bool) then <[e.1 := n]> selected else selected)
  | Both n n' =>
      b ← node_includes mask from e.1;
      b ← (if (b : bool) then Ok true else node_includes mask to e.1);
      Ok (<[e.1 := if (b : bool) then n' else n]> selected)
  end.

Definition select_restricted_nodes (from to : roster) (mask : node_restriction) : result (gmap Z node) :=
  l ← items (nodes from) (nodes to);
  foldM (select_one from to mask) l ∅.

(** ** Putting them together *)

(** The inner loop: from a node to the first one above it that can be added, and whether a parent is missing. *)
Fixpoint defer (fuel : nat) (selected : gmap Z node) (restricted : roster) (n : Z * node) : option (result ((Z * node) * bool)) :=
  if null_node (parent n.2) || has_node restricted (parent n.2) then Some (Ok (n, false))
  else
    match selected !! parent n.2 with
    | None => Some (Ok (n, true))
    | Some p =>
        if is_dir_t p then
          match fuel with
          | O => None
          | S fuel => defer fuel selected restricted (parent n.2, p)
          end
        else Some (Err invariant_failure)
    end.

Definition add_selected (restricted : roster) (n : node) : result roster :=
  let r := match body n with
           | FileBody f => create_file_node restricted f (self n)
           | DirBody _ => create_dir_node restricted (self n)
           end in
  _ ← get_node r (self n);
  attach_node_at (set_nodes r (alter (with_attrs (attrs n)) (self n) (nodes r))) (self n) (parent n) (name n).

(** The messages about a missing parent, which name both. *)
Definition report_problem (from to : roster) (n : node) : result unit :=
  if has_node from (parent n) && negb (has_node to (parent n)) then
    _ ← get_name from (self n); _ ← get_name from (parent n); Ok tt
  else if negb (has_node from (parent n)) && has_node to (parent n) then
    _ ← get_name to (self n); _ ← get_name to (parent n); Ok tt
  else Err invariant_failure.

(** One round of the outer loop; what is left is the selection without the node. *)
Definition restrict_round (from to : roster) (restricted : roster) (problems : Z) (n : Z * node) (missing_parent : bool) : result (roster * Z) :=
  if missing_parent then report_problem from to n.2 ;; Ok (restricted, problems + 1)
  else r ← add_selected restricted n.2; Ok (r, problems).

Fixpoint restrict_loop (rounds fuel : nat) (from to : roster) (selected : gmap Z node) (restricted : roster) (problems : Z) :
    option (result (roster * Z)) :=
  match map_iter selected with
  | [] => Some (Ok (restricted, problems))
  | n :: _ =>
      match rounds with
      | O => None
      | S rounds =>
          match defer fuel selected restricted n with
          | None => None
          | Some (Err e) => Some (Err e)
          | Some (Ok (n, missing_parent)) =>
              match restrict_round from to restricted problems n missing_parent with
              | Err e => Some (Err e)
              | Ok (restricted, problems) => restrict_loop rounds fuel from to (delete n.1 selected) restricted problems
              end
          end
      end
  end.

(** The checks after the loop. *)
Definition restrict_finish (restricted : roster) (problems : Z) : result roster :=
  let empty := bool_decide (nodes restricted = ∅) in
  let problems := if negb empty && negb (has_root restricted) then problems + 1 else problems in
  E_ (problems =? 0) user ;;
  (if empty then Ok tt else check_sane restricted true) ;;
  Ok restricted.

Definition make_restricted_roster (fuel : nat) (from to : roster) (mask : node_restriction) : option (result roster) :=
  match select_restricted_nodes from to mask with
  | Err e => Some (Err e)
  | Ok selected =>
      match restrict_loop fuel fuel from to selected empty_roster 0 with
      | None => None
      | Some (Err e) => Some (Err e)
      | Some (Ok (restricted, problems)) => Some (restrict_finish restricted problems)
      end
  end.

(** ** What is selected *)

(** A node without its children, which are not selected with it. *)
Definition shape (n : node) : node :=
  with_body (match body n with DirBody _ => DirBody ∅ | FileBody f => FileBody f end) n.

(** The node that is selected where [a] says which nodes of the old roster are included and [b] which of the new one. *)
Definition chosen (from to : roster) (a b : Z → bool) (i : Z) : option node :=
  match nodes from !! i, nodes to !! i with
  | Some n, Some n' => Some (if a i || b i then n' else n)
  | Some n, None => if a i then None else Some n
  | None, Some n' => if b i then Some n' else None
  | None, None => None
  end.

Lemma select_chosen from to mask a b :
  (∀ i n, nodes from !! i = Some n → node_includes mask from i = Ok (a i)) →
  (∀ i n, nodes to !! i = Some n → node_includes mask to i = Ok (b i)) →
  ∃ sel, select_restricted_nodes from to mask = Ok sel ∧ ∀ i, sel !! i = chosen from to a b i.
Proof.
  intros Ha Hb. unfold select_restricted_nodes. destruct (items_spec (nodes from) (nodes to)) as (L & -> & Hsort & Hin). cbn [mbind result_bind].
  pose proof (sorted_items_NoDup L Hsort) as Hnd.
  destruct (foldM_ok (λ l sel, ∀ i, sel !! i = if decide (i ∈ l.*1) then chosen from to a b i else None) (select_one from to mask) L ∅) as (sel & -> & Hsel).
  - intros i. by rewrite lookup_empty.
  - intros l1 [k it] l2 sel E IH. assert (classify (nodes from !! k) (nodes to !! k) = Some it) as Hit.
    { apply Hin. rewrite E. apply elem_of_app. right. by left. }
    assert (k ∉ l1.*1) as Hk.
    { rewrite E, fmap_app, fmap_cons in Hnd. apply NoDup_app in Hnd as (_ & Hd & _). intros Hk. apply (Hd k Hk). by left. }
    assert (∀ sel' : gmap Z node, sel' !! k = chosen from to a b k → (∀ j, j ≠ k → sel' !! j = sel !! j) →
      ∀ i, sel' !! i = if decide (i ∈ (l1 ++ [(k, it)]).*1) then chosen from to a b i else None) as Hstep.
    { intros sel' H1 H2 i. rewrite fmap_app. cbn. destruct (decide (i = k)) as [->|Hne].
      - rewrite decide_True; [done|]. apply elem_of_app. right. by left.
      - rewrite (H2 i Hne), IH. destruct (decide (i ∈ l1.*1)) as [Hl|Hl].
        + rewrite decide_True; [done|]. apply elem_of_app. by left.
        + rewrite decide_False; [done|]. intros [|?%list_elem_of_singleton]%elem_of_app; done. }
    assert (sel !! k = None) as Hs0 by (rewrite IH; by rewrite decide_False).
    unfold select_one. cbn [fst snd]. unfold chosen in Hstep.
    destruct (nodes from !! k) as [n|] eqn:Hf, (nodes to !! k) as [n'|] eqn:Ht; cbn in Hit; try discriminate Hit; injection Hit as <-; cbn [snd].
    + rewrite (Ha _ _ Hf). cbn [mbind result_bind]. destruct (a k) eqn:Hak; cbn [mbind result_bind].
      * eexists. split; [done|]. apply Hstep; [by rewrite lookup_insert_eq|intros j Hj; by rewrite lookup_insert_ne].
      * rewrite (Hb _ _ Ht). cbn [mbind result_bind]. eexists. split; [done|]. apply Hstep; [by rewrite lookup_insert_eq|intros j Hj; by rewrite lookup_insert_ne].
    + rewrite (Ha _ _ Hf). cbn [mbind result_bind]. eexists. split; [done|]. destruct (a k); apply Hstep; try done; [by rewrite lookup_insert_eq|intros j Hj; by rewrite lookup_insert_ne].
    + rewrite (Hb _ _ Ht). cbn [mbind result_bind]. eexists. split; [done|]. destruct (b k); apply Hstep; try done; [by rewrite lookup_insert_eq|intros j Hj; by rewrite lookup_insert_ne].
  - exists sel. split; [done|]. intros i. rewrite Hsel. destruct (decide (i ∈ L.*1)) as [Hi|Hi]; [done|]. unfold chosen.
    destruct (classify (nodes from !! i) (nodes to !! i)) as [it|] eqn:Hc.
    + destruct Hi. apply list_elem_of_fmap. exists (i, it). split; [done|]. by apply Hin.
    + by destruct (nodes from !! i), (nodes to !! i).
Qed.

(** ** Adding a node *)

Section build.
Context (t : roster) (root : Z) (Hwf : rwf t) (Hroot : root_dir t = Some root) (Hold : old_locations t = ∅).
Context (Hreach : ∀ i n, nodes t !! i = Some n → ∃ cs, walk t root cs = Ok i).

(** With a node of [V] its parent is in [V]. *)
Definition upward (V : gset Z) : Prop := ∀ i n, i ∈ V → nodes t !! i = Some n → parent n = the_null_node ∨ parent n ∈ V.

Lemma only_root i n : nodes t !! i = Some n → parent n = the_null_node → i = root.
Proof using Hwf Hroot Hreach.
  intros Hi Hp. destruct (Hreach i n Hi) as (cs & Hcs). destruct cs as [|k cs _] using rev_ind; [by injection Hcs|].
  rewrite walk_app in Hcs. apply bind_Ok_inv in Hcs as (j & Hj & Hcs). destruct (walk_child t root Hwf Hroot _ _ _ Hcs) as (n' & Hn' & Hpar & _).
  destruct (walk_exists t root Hwf Hroot _ _ Hj) as [nj Hnj]. destruct (wf_self t Hwf _ _ Hnj). congruence.
Qed.

Section next.
Context (V : gset Z) (HV : upward V) (i : Z) (n : node) (Hn : nodes t !! i = Some n) (Hi : i ∉ V).
Context (Hpar : parent n = the_null_node ∨ parent n ∈ V).

Lemma no_children_yet ch : body n = DirBody ch → keep_in ({[i]} ∪ V) ch = ∅.
Proof using Hwf HV Hn Hi Hpar.
  intros Hb. apply map_eq. intros k. rewrite lookup_empty. destruct (keep_in _ ch !! k) as [c|] eqn:Hk; [exfalso|done]. apply keep_in_lookup in Hk as [Hk Hc].
  destruct (wf_child t Hwf _ _ _ _ _ Hn Hb Hk) as (_ & cn & Hcn & Hp & _). destruct (wf_self t Hwf _ _ Hn) as [_ Hi0].
  apply elem_of_union in Hc as [->%elem_of_singleton|Hc].
  - assert (cn = n) as -> by congruence. destruct Hpar; congruence.
  - destruct (HV c cn Hc Hcn); congruence.
Qed.

Lemma keep_in_grows j p ch :
  nodes t !! j = Some p → body p = DirBody ch →
  keep_in ({[i]} ∪ V) ch = if decide (j = parent n) then <[name n := i]> (keep_in V ch) else keep_in V ch.
Proof using Hwf Hn Hpar.
  intros Hj Hb. assert (∀ k, ch !! k = Some i → j = parent n ∧ k = name n) as Hu.
  { intros k Hk. destruct (child_unique t j p ch k i n Hwf Hj Hb Hk Hn) as [-> ->]. done. }
  apply map_eq. intros k. apply option_eq. intros c. rewrite keep_in_lookup, elem_of_union, elem_of_singleton. destruct (decide (j = parent n)) as [->|Hne].
  - assert (parent n ≠ the_null_node) as Hnn by (by destruct (wf_self t Hwf _ _ Hj)).
    destruct (wf_parent t Hwf _ _ Hn Hnn) as (p' & ch' & Hp' & Hb' & Hc'). assert (ch' = ch) as -> by congruence.
    destruct (decide (k = name n)) as [->|Hk].
    + rewrite lookup_insert_eq. split; [intros [Hc _]; congruence|intros [= <-]; auto].
    + rewrite lookup_insert_ne by done. rewrite keep_in_lookup. split; [|tauto]. intros [Hc [->|Hin]]; [|done]. by destruct (Hu _ Hc).
  - rewrite keep_in_lookup. split; [|tauto]. intros [Hc [->|Hin]]; [|done]. by destruct (Hu _ Hc).
Qed.

(** The node as it stands once it is added. *)
Definition added : node := Node i (parent n) (name n) (attrs n) (body (shape n)).

Lemma part_grows : nodes (part t root ({[i]} ∪ V)) = <[i := added]> (alter (with_children (<[name n := i]>)) (parent n) (nodes (part t root V))).
Proof using Hwf Hroot Hold Hreach HV Hn Hi Hpar.
  apply map_eq. intros j. rewrite (lookup_part t root). destruct (decide (j = i)) as [->|Hji].
  - rewrite decide_True by set_solver. rewrite Hn, lookup_insert_eq. cbn [fmap option_fmap option_map]. f_equal. destruct (wf_self t Hwf _ _ Hn) as [Hs _].
    unfold with_children, added, shape. pose proof no_children_yet as Hch. destruct (body n) as [f|ch] eqn:Hb.
    + destruct n; cbn in *. by subst.
    + rewrite Hch by done. unfold with_body. cbn. by rewrite Hs.
  - rewrite lookup_insert_ne by done. destruct (decide (j = parent n)) as [->|Hjp].
    + rewrite lookup_alter_eq, (lookup_part t root). destruct (decide (parent n ∈ V)) as [Hin|Hin].
      * rewrite decide_True by set_solver. destruct (nodes t !! parent n) as [p|] eqn:Hp; [|done]. cbn. f_equal. unfold with_children.
        destruct (body p) as [|ch] eqn:Hb; cbn; [by rewrite Hb|]. by rewrite (keep_in_grows _ _ _ Hp Hb), decide_True by done.
      * rewrite decide_False by set_solver. done.
    + rewrite lookup_alter_ne, (lookup_part t root) by done. destruct (decide (j ∈ V)) as [Hin|Hin].
      * rewrite decide_True by set_solver. destruct (nodes t !! j) as [p|] eqn:Hp; [|done]. cbn. f_equal. unfold with_children.
        destruct (body p) as [|ch] eqn:Hb; [done|]. by rewrite (keep_in_grows _ _ _ Hp Hb), decide_False by done.
      * by rewrite decide_False by set_solver.
Qed.

Lemma null_not_there : nodes (part t root V) !! the_null_node = None.
Proof using Hwf.
  rewrite (lookup_part t root). destruct (decide _); [|done]. destruct (nodes t !! the_null_node) as [n0|] eqn:H0; [|done]. by destruct (wf_self t Hwf _ _ H0).
Qed.

Lemma root_grows : i ≠ root → root_dir (part t root ({[i]} ∪ V)) = root_dir (part t root V).
Proof using Type.
  intros Hir. unfold part. cbn [root_dir]. destruct (decide (root ∈ V)) as [Hv|Hv].
  - by rewrite decide_True by (apply elem_of_union; by right).
  - rewrite decide_False; [done|]. by intros [?%elem_of_singleton|?]%elem_of_union.
Qed.

Lemma add_selected_part n' : shape n' = shape n → add_selected (part t root V) n' = Ok (part t root ({[i]} ∪ V)).
Proof using Hwf Hroot Hold Hreach HV Hn Hi Hpar.
  intros Hsh. destruct (wf_self t Hwf _ _ Hn) as [Hs Hi0].
  assert (self n' = i ∧ parent n' = parent n ∧ name n' = name n ∧ attrs n' = attrs n ∧ body (shape n') = body (shape n)) as (Hs' & Hp' & Hm' & Ha' & Hb').
  { rewrite Hsh. injection Hsh as E1 E2 E3 E4 _. rewrite <- Hs. done. }
  set (P := part t root V) in *. set (fresh := Node i the_null_node [] (attrs n) (body (shape n))).
  assert (add_selected P n' = attach_node_at (set_nodes P (<[i := fresh]> (nodes P))) i (parent n) (name n)) as ->.
  { unfold add_selected. rewrite Hs', Hp', Hm', Ha'. unfold create_file_node, create_dir_node, get_node, shape in *. cbn in Hb'.
    destruct (body n') as [f|ch]; cbn [nodes set_nodes]; rewrite lookup_insert_eq; cbn [of_option mbind result_bind]; unfold fresh; cbn [body with_body];
      rewrite <- Hb'; f_equal; unfold set_nodes; cbn [nodes root_dir old_locations]; f_equal; apply map_eq; intros j;
      (destruct (decide (j = i)) as [->|Hj]; [by rewrite lookup_alter_eq, !lookup_insert_eq|by rewrite lookup_alter_ne, !lookup_insert_ne by done]). }
  set (R := set_nodes P (<[i := fresh]> (nodes P))). unfold attach_node_at.
  assert (nodes R !! i = Some fresh) as HRi by apply lookup_insert_eq. unfold get_node. rewrite HRi. cbn [of_option mbind result_bind self parent name fresh].
  rewrite (proj2 (null_node_false i) Hi0). cbn [negb I_ mbind result_bind]. change (null_node the_null_node) with true. cbn [I_ mbind result_bind].
  rewrite (bool_decide_eq_true_2 ([] = [])) by done. cbn [I_ mbind result_bind]. change (old_locations R) with (∅ : gmap Z (Z * bytes)). rewrite lookup_empty.
  pose proof part_grows as Hgrow. destruct (decide (parent n = the_null_node)) as [Hp0|Hp0].
  - pose proof (only_root i n Hn Hp0) as Hir. pose proof (wf_null t Hwf _ _ Hn Hp0) as Hnm. rewrite Hp0, Hnm. cbn [orb null_node]. change (null_node the_null_node) with true.
    rewrite (bool_decide_eq_true_2 ([] = [])) by done. cbn [orb andb I_ mbind result_bind].
    assert (has_root R = false) as ->.
    { unfold has_root. apply bool_decide_eq_false. unfold R, P. cbn. rewrite decide_False by (by rewrite <- Hir). by intros [? ?]. }
    cbn [negb I_ mbind result_bind]. destruct (wf_root t Hwf _ Hroot) as (rn & Hrn & Hd & _). rewrite <- Hir, Hn in Hrn. injection Hrn as <-.
    unfold downcast_to_dir_t, fresh, shape. unfold is_dir_t in Hd. cbn [body with_body]. destruct (body n) as [|ch] eqn:Hb; [done|]. cbn [mbind result_bind].
    rewrite bool_decide_eq_true_2 by done. cbn [I_ mbind result_bind]. f_equal. unfold set_root, set_old. cbn [nodes root_dir old_locations].
    change (old_locations R) with (∅ : gmap Z (Z * bytes)). rewrite delete_empty.
    transitivity (Roster (root_dir (part t root ({[i]} ∪ V))) (nodes (part t root ({[i]} ∪ V))) ∅); [|done]. rewrite Hgrow. f_equal.
    + unfold part. cbn [root_dir]. by rewrite Hir, decide_True by (apply elem_of_union; left; by apply elem_of_singleton).
    + unfold R. cbn [nodes set_nodes]. fold P. rewrite Hp0, Hnm. rewrite alter_id; [unfold added, fresh; by rewrite Hp0, Hnm|].
      intros x Hx. unfold P in Hx. by rewrite null_not_there in Hx.
  - assert (i ≠ root) as Hir. { intros ->. destruct (wf_root t Hwf _ Hroot) as (rn & Hrn & _ & Hp). congruence. }
    pose proof (wf_parent_name t _ _ Hwf Hn Hp0) as Hnm. destruct Hpar as [|HpV]; [done|]. destruct (wf_parent t Hwf _ _ Hn Hp0) as (p & ch & Hp & Hb & Hc).
    rewrite (proj2 (null_node_false (parent n)) Hp0), (bool_decide_eq_false_2 (name n = [])) by done. cbn [orb].
    assert (parent n ≠ i) as Hpi by (intros E; by rewrite E in HpV).
    assert (nodes R !! parent n = Some (with_children (keep_in V) p)) as HRp.
    { unfold R. cbn [nodes set_nodes]. rewrite lookup_insert_ne by done. unfold P. rewrite (lookup_part t root), decide_True, Hp by done. done. }
    unfold attach_child, get_node. rewrite HRi, HRp. cbn [of_option mbind result_bind].
    assert (downcast_to_dir_t (with_children (keep_in V) p) = Ok (keep_in V ch)) as -> by (unfold downcast_to_dir_t, with_children; by rewrite Hb).
    cbn [mbind result_bind parent name fresh]. change (null_node the_null_node) with true. rewrite (bool_decide_eq_true_2 ([] = [])) by done. cbn [I_ mbind result_bind].
    rewrite safe_insert_fresh.
    2:{ destruct (keep_in V ch !! name n) as [c|] eqn:Hkc; [|done]. apply keep_in_lookup in Hkc as [Hkc Hin]. assert (c = i) as -> by congruence. done. }
    cbn [mbind result_bind nodes set_nodes]. rewrite lookup_alter_eq, lookup_alter_ne by done. rewrite HRi. cbn [fmap option_fmap option_map of_option mbind result_bind].
    rewrite bool_decide_eq_true_2 by done. cbn [I_ mbind result_bind]. f_equal. unfold set_old, set_nodes. cbn [nodes root_dir old_locations].
    change (old_locations R) with (∅ : gmap Z (Z * bytes)). rewrite delete_empty.
    transitivity (Roster (root_dir (part t root ({[i]} ∪ V))) (nodes (part t root ({[i]} ∪ V))) ∅); [|done]. rewrite Hgrow, root_grows by done. f_equal.
    apply map_eq. intros j. unfold R. cbn [nodes set_nodes]. fold P. destruct (decide (j = i)) as [->|Hj].
    + rewrite lookup_alter_eq, lookup_alter_ne, !lookup_insert_eq by done. done.
    + rewrite lookup_alter_ne, lookup_insert_ne by done. destruct (decide (j = parent n)) as [->|Hjp].
      * rewrite !lookup_alter_eq, lookup_insert_ne by done. done.
      * by rewrite !lookup_alter_ne, lookup_insert_ne by done.
Qed.
End next.

(** ** The loops *)

Lemma part_whole V : (∀ i n, nodes t !! i = Some n → i ∈ V) → part t root V = t.
Proof using Hwf Hroot Hold Hreach.
  intros HV. destruct (wf_root t Hwf _ Hroot) as (rn & Hrn & _). transitivity (Roster (root_dir t) (nodes t) (old_locations t)); [|by destruct t].
  unfold part. rewrite decide_True by (by eapply HV). rewrite Hroot, Hold. f_equal. apply map_eq. intros i. rewrite map_lookup_imap. destruct (nodes t !! i) as [n|] eqn:Hi; [|done].
  cbn. rewrite decide_True by (by eapply HV). f_equal. unfold with_children. destruct (body n) as [|ch] eqn:Hb; [done|].
  assert (keep_in V ch = ch) as ->; [|unfold with_body; rewrite <- Hb; by destruct n].
  apply map_eq. intros k. apply option_eq. intros c. rewrite keep_in_lookup. split; [tauto|]. intros Hc. split; [done|].
  destruct (wf_child t Hwf _ _ _ _ _ Hi Hb Hc) as (_ & cn & Hcn & _). by eapply HV.
Qed.

Context (sel : gmap Z node) (Hsel : ∀ i, shape <$> sel !! i = shape <$> nodes t !! i).

(** The nodes still to be added. *)
Definition remaining (V : gset Z) : gmap Z node := filter (λ e, e.1 ∉ V) sel.

Lemma remaining_lookup V i : remaining V !! i = if decide (i ∈ V) then None else sel !! i.
Proof using Type.
  unfold remaining. apply option_eq. intros n. rewrite map_lookup_filter_Some. cbn. destruct (decide (i ∈ V)); [|tauto]. split; [tauto|done].
Qed.

Lemma delete_remaining V j : delete j (remaining V) = remaining ({[j]} ∪ V).
Proof using Type.
  apply map_eq. intros k. rewrite remaining_lookup. destruct (decide (k = j)) as [->|Hk].
  - rewrite lookup_delete_eq, decide_True; [done|]. apply elem_of_union. left. by apply elem_of_singleton.
  - rewrite lookup_delete_ne, remaining_lookup by done. destruct (decide (k ∈ V)) as [Hv|Hv].
    + rewrite decide_True; [done|]. apply elem_of_union. by right.
    + rewrite decide_False; [done|]. by intros [?%elem_of_singleton|?]%elem_of_union.
Qed.

Lemma selected_node i n : nodes t !! i = Some n → ∃ n', sel !! i = Some n' ∧ shape n' = shape n.
Proof using Hsel. intros Hi. specialize (Hsel i). rewrite Hi in Hsel. cbn in Hsel. apply fmap_Some in Hsel as (n' & Hn' & E). eauto. Qed.

Lemma shape_fields n n' : shape n' = shape n → self n' = self n ∧ parent n' = parent n ∧ is_dir_t n' = is_dir_t n.
Proof using Type. unfold shape, with_body, is_dir_t. intros [= -> -> _ _ Hb]. split_and!; [done..|]. by destruct (body n'), (body n). Qed.

Lemma defer_spec V cs : upward V → ∀ i n' fuel, walk t root cs = Ok i → i ∉ V → sel !! i = Some n' → (length cs ≤ fuel)%nat →
  ∃ j nj, defer fuel (remaining V) (part t root V) (i, n') = Some (Ok ((j, nj), false)) ∧ sel !! j = Some nj ∧ j ∉ V ∧
    (parent nj = the_null_node ∨ parent nj ∈ V).
Proof using Hwf Hroot Hsel.
  intros HV. induction cs as [|k cs IH] using rev_ind; intros i n' fuel Hw Hi Hn' Hf.
  - injection Hw as <-. destruct (wf_root t Hwf _ Hroot) as (rn & Hrn & _ & Hp). destruct (selected_node _ _ Hrn) as (n2 & Hn2 & Hsh). assert (n2 = n') as -> by congruence.
    destruct (shape_fields _ _ Hsh) as (_ & Hpar & _). exists root, n'. assert (null_node (parent n') = true) as Hnull by (rewrite Hpar, Hp; done).
    destruct fuel; cbn [defer snd]; rewrite Hnull; (split_and!; [done..|]); left; by rewrite Hpar.
  - rewrite walk_app in Hw. apply bind_Ok_inv in Hw as (pi & Hpi & Hw). destruct (walk_child t root Hwf Hroot _ _ _ Hw) as (n & Hn & Hp & _ & _).
    destruct (selected_node _ _ Hn) as (n2 & Hn2 & Hsh). assert (n2 = n') as -> by congruence. destruct (shape_fields _ _ Hsh) as (_ & Hpar & _). rewrite Hp in Hpar.
    destruct (walk_exists t root Hwf Hroot _ _ Hpi) as [p Hpn]. destruct (wf_self t Hwf _ _ Hpn) as [_ Hp0].
    rewrite length_app in Hf. cbn [length] in Hf. destruct fuel as [|fuel]; [lia|]. cbn [defer snd]. rewrite Hpar, (proj2 (null_node_false pi) Hp0). cbn [orb].
    unfold has_node at 1. rewrite (lookup_part t root). destruct (decide (pi ∈ V)) as [HpV|HpV].
    + rewrite Hpn, bool_decide_eq_true_2 by (by eexists). exists i, n'. split_and!; [done..|]. right. by rewrite Hpar.
    + rewrite bool_decide_eq_false_2 by (by intros [? ?]). destruct (selected_node _ _ Hpn) as (p' & Hp' & Hshp). rewrite remaining_lookup, decide_False, Hp' by done.
      destruct (shape_fields _ _ Hshp) as (_ & _ & Hdir). rewrite Hdir.
      assert (is_dir_t p = true) as ->.
      { assert (parent n ≠ the_null_node) as Hnn by congruence. destruct (wf_parent t Hwf _ _ Hn Hnn) as (q & ch & Hq & Hb & _). rewrite Hp in Hq. assert (q = p) as -> by congruence.
        unfold is_dir_t. by rewrite Hb. }
      apply IH; [done..|lia].
Qed.

Lemma restrict_loop_spec from to fuel rounds V :
  upward V → (size (nodes t) ≤ fuel)%nat → (size (remaining V) ≤ rounds)%nat →
  restrict_loop rounds fuel from to (remaining V) (part t root V) 0 = Some (Ok (t, 0)).
Proof using Hwf Hroot Hold Hreach Hsel.
  intros HV Hf. revert V HV. induction rounds as [|rounds IH]; intros V HV Hr; cbn [restrict_loop].
  - destruct (map_iter (remaining V)) as [|e l] eqn:Hm.
    + f_equal. f_equal. f_equal. apply part_whole. intros i n Hi. destruct (decide (i ∈ V)) as [|Hn]; [done|]. destruct (selected_node _ _ Hi) as (n' & Hn' & _).
      assert ((i, n') ∈ map_iter (remaining V)) as Hin by (apply elem_of_map_iter; by rewrite remaining_lookup, decide_False). rewrite Hm in Hin. by apply not_elem_of_nil in Hin.
    + exfalso. rewrite <- length_map_iter, Hm in Hr. cbn in Hr. lia.
  - destruct (map_iter (remaining V)) as [|[i n'] l] eqn:Hm.
    { f_equal. f_equal. f_equal. apply part_whole. intros i n Hi. destruct (decide (i ∈ V)) as [|Hn]; [done|]. destruct (selected_node _ _ Hi) as (n' & Hn' & _).
      assert ((i, n') ∈ map_iter (remaining V)) as Hin by (apply elem_of_map_iter; by rewrite remaining_lookup, decide_False). rewrite Hm in Hin. by apply not_elem_of_nil in Hin. }
    assert (remaining V !! i = Some n') as Hi by (apply elem_of_map_iter; rewrite Hm; by left). rewrite remaining_lookup in Hi. destruct (decide (i ∈ V)) as [|HiV]; [done|].
    assert (∃ n, nodes t !! i = Some n) as [n Hn].
    { pose proof (Hsel i) as E. rewrite Hi in E. cbn in E. symmetry in E. apply fmap_Some in E as (n & Hn & _). eauto. }
    destruct (Hreach i n Hn) as (cs & Hcs). pose proof (walk_length t root Hwf Hroot _ _ Hcs) as Hlen.
    destruct (defer_spec V cs HV i n' fuel Hcs HiV Hi ltac:(lia)) as (j & nj & -> & Hj & HjV & Hpj). cbn [restrict_round].
    assert (∃ m, nodes t !! j = Some m ∧ shape nj = shape m) as (m & Hmj & Hsh).
    { pose proof (Hsel j) as E. rewrite Hj in E. cbn in E. symmetry in E. apply fmap_Some in E as (m & Hmj & E). eauto. }
    destruct (shape_fields _ _ Hsh) as (_ & Hpm & _). rewrite Hpm in Hpj. cbn [snd].
    rewrite (add_selected_part V HV j m Hmj HjV Hpj nj Hsh). cbn [mbind result_bind fst].
    rewrite delete_remaining.
    apply IH.
    + intros k nk [->%elem_of_singleton|Hk]%elem_of_union Hnk.
      * assert (nk = m) as -> by congruence. destruct Hpj; [by left|right]. apply elem_of_union. by right.
      * destruct (HV k nk Hk Hnk); [by left|right]. apply elem_of_union. by right.
    + rewrite <- delete_remaining. rewrite map_size_delete_Some; [lia|]. exists nj. by rewrite remaining_lookup, decide_False.
Qed.
End build.

(** ** What a run leaves *)

Lemma shape_with_children f n : shape (with_children f n) = shape n.
Proof. by destruct n as [????[]]. Qed.

Lemma attach_node_at_nodes r x par nm r' :
  attach_node_at r x par nm = Ok r' →
  old_locations r' = delete x (old_locations r) ∧
  if null_node par then nm = [] ∧ nodes r' = nodes r
  else nodes r' = alter (with_loc par nm) x (alter (with_children (<[nm := x]>)) par (nodes r)).
Proof.
  unfold attach_node_at. intros H. inv_ok. subst. destruct (null_node par) eqn:Hp; cbn [orb andb] in *.
  - inv_ok. by subst.
  - destruct (bool_decide (nm = [])); [by inv_ok|]. unfold attach_child in *. inv_ok. by subst.
Qed.

Lemma add_selected_inv r n r' :
  rwf r → old_locations r = ∅ → nodes r !! self n = None → self n ≠ the_null_node → add_selected r n = Ok r' →
  rwf r' ∧ old_locations r' = ∅ ∧ ∀ j, shape <$> nodes r' !! j = if decide (j = self n) then Some (shape n) else shape <$> nodes r !! j.
Proof.
  intros Hwf Hold Hnone Hi H. unfold add_selected in H. apply bind_Ok_inv in H as (u & _ & H).
  set (c := match body n with FileBody f => _ | DirBody _ => _ end) in H. set (R := set_nodes c _) in H.
  assert (rwf R ∧ root_dir R = root_dir r ∧ old_locations R = ∅ ∧ nodes R = <[self n := Node (self n) the_null_node [] (attrs n) (body (shape n))]> (nodes r)) as (HwR & Hroot & HoR & HnR).
  { unfold R, c, create_file_node, create_dir_node. destruct (body n) eqn:Hb; (split_and!; [apply rwf_with_attrs, rwf_create; eauto|done..|]); cbn [nodes set_nodes];
      rewrite alter_insert_eq; unfold shape; rewrite Hb; done. }
  assert (root_dir R ≠ Some (self n)) as Hnr. { rewrite Hroot. intros E. destruct (wf_root r Hwf _ E) as (m & Hm & _). congruence. }
  split; [by eapply rwf_attach|]. apply attach_node_at_nodes in H as [-> Hn]. rewrite HoR, delete_empty. split; [done|]. intros j. rewrite HnR in Hn.
  destruct (null_node (parent n)) eqn:Hp.
  - destruct Hn as [Hnm ->]. apply null_node_true in Hp. destruct (decide (j = self n)) as [->|Hj]; [|by rewrite lookup_insert_ne].
    rewrite lookup_insert_eq. cbn. unfold shape. cbn. rewrite <- Hp, <- Hnm. by destruct n as [????[]].
  - rewrite Hn. destruct (decide (j = self n)) as [->|Hj].
    + rewrite lookup_alter_eq, lookup_alter_at, lookup_insert_eq. cbn [fmap option_fmap option_map]. f_equal. destruct n as [? ? ? ? b0]. unfold shape. destruct b0, (decide _); cbn; done.
    + rewrite lookup_alter_ne, lookup_alter_at, lookup_insert_ne by done. destruct (nodes r !! j) as [m|]; [|done]. cbn. destruct (decide _); [|done]. by rewrite shape_with_children.
Qed.

Lemma defer_selected fuel sel r n n' b : sel !! n.1 = Some n.2 → defer fuel sel r n = Some (Ok (n', b)) → sel !! n'.1 = Some n'.2.
Proof.
  revert n. induction fuel as [|fuel IH]; intros n Hn; cbn [defer]; destruct (null_node (parent n.2) || has_node r (parent n.2)); [by intros [= <- _]| |by intros [= <- _]|].
  - destruct (sel !! parent n.2) as [p|]; [by destruct (is_dir_t p)|by intros [= <- _]].
  - destruct (sel !! parent n.2) as [p|] eqn:Hp; [|by intros [= <- _]]. destruct (is_dir_t p); [|done]. by apply IH.
Qed.

Section leaves.
Context (sel : gmap Z node) (Hself : ∀ i n, sel !! i = Some n → self n = i ∧ i ≠ the_null_node).

(** What holds between rounds: as long as no problem was found, what is no longer selected is in the roster. *)
Record partly_built (rest : gmap Z node) (r : roster) (problems : Z) : Prop := {
  bt_wf : rwf r;
  bt_old : old_locations r = ∅;
  bt_rest : rest ⊆ sel;
  bt_new i : is_Some (rest !! i) → nodes r !! i = None;
  bt_problems : 0 ≤ problems;
  bt_nodes : problems = 0 → ∀ i, rest !! i = None → shape <$> nodes r !! i = shape <$> sel !! i
}.

Lemma round_built from to rest r problems n missing r' problems' :
  partly_built rest r problems → rest !! n.1 = Some n.2 → restrict_round from to r problems n missing = Ok (r', problems') →
  partly_built (delete n.1 rest) r' problems'.
Proof using Hself.
  intros [Hwf Hold Hsub Hnew Hpr Hn] Hin H. pose proof (lookup_weaken _ _ _ _ Hin Hsub) as Hs. destruct (Hself _ _ Hs) as [Hi Hi0]. unfold restrict_round in H. destruct missing.
  - inv_ok. subst. constructor; [done|done|by etrans; [apply delete_subseteq|]| |lia..]. intros i [m Hm]. apply lookup_delete_Some in Hm as [_ Hm]. eauto.
  - inv_ok. subst. apply add_selected_inv in E as (Hwf' & Hold' & Hsh); [|done|done|rewrite Hi; apply Hnew; eauto|congruence]. rewrite Hi in Hsh. constructor; try done.
    + by etrans; [apply delete_subseteq|].
    + intros i [m Hm]. apply lookup_delete_Some in Hm as [Hne Hm]. specialize (Hsh i). rewrite decide_False in Hsh by done. rewrite Hnew in Hsh by eauto.
      by destruct (nodes r' !! i).
    + intros Hz i Hd. rewrite Hsh. destruct (decide (i = n.1)) as [->|Hne]; [by rewrite Hs|]. rewrite lookup_delete_ne in Hd by done. eauto.
Qed.

Lemma loop_built from to fuel rounds : ∀ rest r problems r' problems',
  partly_built rest r problems → restrict_loop rounds fuel from to rest r problems = Some (Ok (r', problems')) → partly_built ∅ r' problems'.
Proof using Hself.
  assert (∀ rest r problems, map_iter rest = [] → partly_built rest r problems → partly_built ∅ r problems) as Hend.
  { intros rest r problems Hm Hb. assert (rest = ∅) as ->; [|done]. apply map_eq. intros i. rewrite lookup_empty. destruct (rest !! i) as [n|] eqn:Hi; [|done].
    apply (elem_of_map_iter rest) in Hi. rewrite Hm in Hi. by apply not_elem_of_nil in Hi. }
  induction rounds as [|rounds IH]; intros rest r problems r' problems' Hb H; cbn [restrict_loop] in H; destruct (map_iter rest) as [|[i n] l] eqn:Hm;
    [injection H as <- <-; eauto|done|injection H as <- <-; eauto|].
  destruct (defer fuel rest r (i, n)) as [[[m missing]|]|] eqn:Hd; try done. destruct (restrict_round from to r problems m missing) as [[r1 problems1]|] eqn:Hr; [|done].
  apply defer_selected in Hd; [|apply elem_of_map_iter; rewrite Hm; by left]. eapply IH; [|exact H]. by eapply round_built.
Qed.
End leaves.

(** ** The restricted roster *)

Lemma chosen_self from to a b i n : rwf from → rwf to → chosen from to a b i = Some n → self n = i ∧ i ≠ the_null_node.
Proof.
  intros Hf Ht. unfold chosen. destruct (nodes from !! i) as [m|] eqn:Hm, (nodes to !! i) as [m'|] eqn:Hm'.
  - destruct (a i || b i); intros [= <-]; [by eapply (wf_self to)|by eapply (wf_self from)].
  - destruct (a i); [done|]. intros [= <-]. by eapply (wf_self from).
  - destruct (b i); [|done]. intros [= <-]. by eapply (wf_self to).
  - done.
Qed.

Lemma chosen_size from to a b (sel : gmap Z node) :
  (∀ i, sel !! i = chosen from to a b i) → (size sel ≤ size (nodes from) + size (nodes to))%nat.
Proof.
  intros Hsel. assert (dom sel ⊆ dom (nodes from) ∪ dom (nodes to)) as Hsub.
  { intros i [n Hi]%elem_of_dom. rewrite Hsel in Hi. unfold chosen in Hi. apply elem_of_union. rewrite !elem_of_dom.
    destruct (nodes from !! i); [left; eauto|]. destruct (nodes to !! i); [right; eauto|done]. }
  apply subseteq_size in Hsub. rewrite <- !size_dom. etrans; [exact Hsub|]. rewrite size_union_alt. apply Nat.add_le_mono_l, subseteq_size. set_solver.
Qed.

(** Selected nodes that fit together are all added. *)
Lemma loop_all from to t sel fuel :
  rwf t → t = empty_roster ∨ sane t true → (∀ i, shape <$> sel !! i = shape <$> nodes t !! i) → (size sel ≤ fuel)%nat →
  restrict_loop fuel fuel from to sel empty_roster 0 = Some (Ok (t, 0)).
Proof.
  intros Hw [->|Hs] Hst Hf.
  - assert (sel = ∅) as ->; [|by destruct fuel]. apply map_eq. intros i. specialize (Hst i). rewrite lookup_empty in Hst |- *. by destruct (sel !! i).
  - destruct (sane_reach _ _ Hs) as (root & Hroot & Hreach). assert (dom sel = dom (nodes t)) as Hdom.
    { apply set_eq. intros i. rewrite !elem_of_dom. specialize (Hst i). destruct (sel !! i), (nodes t !! i); try done; split; by intros [? ?]. }
    assert (remaining sel ∅ = sel) as Hrem. { apply map_eq. intros i. rewrite remaining_lookup, decide_False by (apply not_elem_of_empty). done. }
    assert (part t root ∅ = empty_roster) as Hpart.
    { unfold part, empty_roster. rewrite decide_False by (apply not_elem_of_empty). f_equal. apply map_eq. intros i. rewrite map_lookup_imap, lookup_empty.
      destruct (nodes t !! i); cbn; [|done]. by rewrite decide_False by (apply not_elem_of_empty). }
    rewrite <- Hrem at 1. rewrite <- Hpart. apply restrict_loop_spec; [done|done|by eapply sane_old|done|done| |by rewrite <- size_dom, <- Hdom, size_dom|by rewrite Hrem].
    intros i n Hi. by apply not_elem_of_empty in Hi.
Qed.

Lemma finish_Ok r problems t :
  rwf r → old_locations r = ∅ → 0 ≤ problems →
  restrict_finish r problems = Ok t ↔ t = r ∧ problems = 0 ∧ (r = empty_roster ∨ sane r true).
Proof.
  intros Hwf Hold Hp. unfold restrict_finish. destruct (decide (nodes r = ∅)) as [He|He].
  - rewrite bool_decide_eq_true_2 by done. cbn [negb andb]. assert (r = empty_roster) as Hr.
    { destruct r as [rt m ol]. cbn in *. subst. destruct rt as [i|]; [|done]. destruct (wf_root _ Hwf i eq_refl) as (n & Hn & _). cbn in Hn. by rewrite lookup_empty in Hn. }
    destruct (Z.eqb_spec problems 0); cbn [E_ mbind result_bind]; [|by split; [|intros (_ & ? & _)]]. split; [intros [= <-]; auto|by intros (-> & _)].
  - rewrite bool_decide_eq_false_2 by done. cbn [negb andb]. rewrite <- check_sane_sane by done. destruct (has_root r) eqn:Hr; cbn [negb].
    + destruct (Z.eqb_spec problems 0); cbn [E_ mbind result_bind]; [|by split; [|intros (_ & ? & _)]].
      destruct (check_sane r true) as [[]|]; cbn [is_ok mbind result_bind]; [split; [intros [= <-]; auto|by intros (-> & _)]|]. split; [done|]. intros (_ & _ & [->|?]); done.
    + rewrite (proj2 (Z.eqb_neq (problems + 1) 0)) by lia. cbn [E_ mbind result_bind]. split; [done|]. intros (_ & _ & [->|Hs]); [done|].
      unfold check_sane in Hs. rewrite Hr in Hs. by destruct (bool_decide (old_locations r = ∅)).
Qed.

(** C23: where a restriction answers for every node of two well-formed rosters, the roster made of them is the one roster whose nodes,
    their children aside, are the ones it chooses: the new form of a node that is included in either roster, the old form of one that is not,
    neither an included deletion nor an addition left out.  It is returned if there is one that is sane (or empty), and else none is. *)
Theorem restricted_roster_exact from to mask a b t fuel :
  rwf from → rwf to →
  (∀ i n, nodes from !! i = Some n → node_includes mask from i = Ok (a i)) →
  (∀ i n, nodes to !! i = Some n → node_includes mask to i = Ok (b i)) →
  (size (nodes from) + size (nodes to) ≤ fuel)%nat →
  make_restricted_roster fuel from to mask = Some (Ok t) ↔
  (t = empty_roster ∨ rwf t ∧ sane t true) ∧ ∀ i, shape <$> nodes t !! i = shape <$> chosen from to a b i.
Proof.
  intros Hwf Hwt Ha Hb Hfuel. destruct (select_chosen from to mask a b Ha Hb) as (sel & Hsel & Hch). pose proof (chosen_size _ _ _ _ _ Hch) as Hsize.
  unfold make_restricted_roster. rewrite Hsel. split.
  - destruct (restrict_loop _ _ _ _ _ _ _) as [[[r problems]|]|] eqn:Hl; intros H; try done. injection H as H.
    eapply (loop_built sel) in Hl as [Hwr Hold _ _ Hp Hn]; [|intros i n; rewrite Hch; by apply chosen_self|].
    + apply finish_Ok in H as (-> & -> & Hs); [|done..]. split; [destruct Hs; auto|]. intros i. rewrite <- Hch. by apply Hn.
    + constructor; [apply rwf_empty|done|done| |done|]; [intros i _; apply lookup_empty|]. intros _ i Hi. by rewrite Hi.
  - intros [Ht Hn]. assert (∀ i, shape <$> sel !! i = shape <$> nodes t !! i) as Hst by (intros i; by rewrite Hch, Hn).
    assert (rwf t ∧ old_locations t = ∅ ∧ (t = empty_roster ∨ sane t true)) as (Hw & Hold & Hs). { destruct Ht as [->|[? Hs]]; [split_and!; [apply rwf_empty|done|by left]|split_and!; [done|apply Hs|by right]]. }
    rewrite (loop_all from to t sel) by (done || lia). f_equal. by apply finish_Ok.
Qed.

(** ** Circles *)

(** Directories whose selected parents are one another are deferred for ever. *)
Lemma defer_circle (C : gset Z) sel r :
  (∀ i, i ∈ C → ∃ n, sel !! i = Some n ∧ is_dir_t n = true ∧ parent n ∈ C) → the_null_node ∉ C → (∀ i, i ∈ C → nodes r !! i = None) →
  ∀ fuel i n, i ∈ C → sel !! i = Some n → defer fuel sel r (i, n) = None.
Proof.
  intros HC H0 Hr fuel. induction fuel as [|fuel IH]; intros i n Hi Hn; destruct (HC i Hi) as (n' & Hn' & _ & Hp); assert (n' = n) as -> by congruence;
    destruct (HC _ Hp) as (p & Hpn & Hd & _); cbn [defer snd]; rewrite (proj2 (null_node_false (parent n))) by (by intros E; rewrite E in Hp);
    unfold has_node; rewrite (Hr _ Hp); rewrite bool_decide_eq_false_2 by (by intros [? ?]); cbn [orb]; rewrite Hpn, Hd; eauto.
Qed.

(** A directory [a] with [b] in it, and what it looks like after [b] was moved out and [a] into it. *)
Definition before_swap : roster :=
  Roster (Some 1)
    (<[1 := Node 1 0 [] ∅ (DirBody {[lit "a" := 2]})]>
     (<[2 := Node 2 1 (lit "a") ∅ (DirBody {[lit "b" := 3]})]>
      {[3 := Node 3 2 (lit "b") ∅ (DirBody ∅)]})) ∅.
Definition after_swap : roster :=
  Roster (Some 1)
    (<[1 := Node 1 0 [] ∅ (DirBody {[lit "b" := 3]})]>
     (<[3 := Node 3 1 (lit "b") ∅ (DirBody {[lit "a" := 2]})]>
      {[2 := Node 2 3 (lit "a") ∅ (DirBody ∅)]})) ∅.

(** Two valid rosters, and all changes but those of [b]: the inner loop goes round between the two directories. *)
Example swap_never_ends :
  complete before_swap ∧ complete after_swap ∧
  ∃ mask, new_node_restriction_two [] [fpath (lit "b")] (-1) before_swap after_swap (λ _, false) implicit_includes = Ok mask ∧
    ∀ fuel, make_restricted_roster fuel before_swap after_swap mask = None.
Proof.
  split_and!; [apply complete_b_sound; vm_compute; reflexivity..|]. eexists. split; [vm_compute; reflexivity|]. intros fuel.
  set (sel := <[1 := Node 1 0 [] ∅ (DirBody {[lit "b" := 3]})]> (<[2 := Node 2 3 (lit "a") ∅ (DirBody ∅)]> {[3 := Node 3 2 (lit "b") ∅ (DirBody ∅)]}) : gmap Z node).
  unfold make_restricted_roster. match goal with |- match ?s with _ => _ end = _ => assert (s = Ok sel) as -> by (vm_compute; reflexivity) end.
  destruct fuel as [|fuel]; [vm_compute; reflexivity|]. cbn [restrict_loop].
  assert (map_iter sel = (1, Node 1 0 [] ∅ (DirBody {[lit "b" := 3]})) :: map_iter (delete 1 sel)) as -> by (vm_compute; reflexivity).
  assert (defer (S fuel) sel empty_roster (1, Node 1 0 [] ∅ (DirBody {[lit "b" := 3]})) = Some (Ok ((1, Node 1 0 [] ∅ (DirBody {[lit "b" := 3]})), false))) as -> by reflexivity.
  assert (restrict_round before_swap after_swap empty_roster 0 (1, Node 1 0 [] ∅ (DirBody {[lit "b" := 3]})) false =
    Ok (Roster (Some 1) {[1 := Node 1 0 [] ∅ (DirBody ∅)]} ∅, 0)) as -> by (vm_compute; reflexivity). cbn [fst].
  destruct fuel as [|fuel]; [vm_compute; reflexivity|]. cbn [restrict_loop].
  assert (map_iter (delete 1 sel) = [(2, Node 2 3 (lit "a") ∅ (DirBody ∅)); (3, Node 3 2 (lit "b") ∅ (DirBody ∅))]) as -> by (vm_compute; reflexivity).
  rewrite (defer_circle {[2; 3]}); [done| |by apply (bool_decide_unpack _)| |by apply (bool_decide_unpack _)|done].
  - intros i [->%elem_of_singleton| ->%elem_of_singleton]%elem_of_union; (eexists; split; [done|]); (split; [done|]); by apply (bool_decide_unpack _).
  - by intros i [->%elem_of_singleton| ->%elem_of_singleton]%elem_of_union.
Qed.

(** ** An instance *)

(** The move of [x] into [d], and not that of [y] out of [x]. *)
Definition partly_moved : roster :=
  Roster (Some 1)
    (<[1 := Node 1 0 [] ∅ (DirBody {[lit "d" := 4]})]>
     (<[4 := Node 4 1 (lit "d") ∅ (DirBody {[lit "x" := 2]})]>
      (<[2 := Node 2 4 (lit "x") ∅ (DirBody {[lit "y" := 3]})]>
       {[3 := Node 3 2 (lit "y") ∅ (FileBody (lit "c"))]}))) ∅.

Lemma restricted_roster_exact_witness :
  ∃ mask, new_node_restriction_two [fpath (lit "d")] [] (-1) before_move after_move (λ _, false) implicit_includes = Ok mask ∧
    make_restricted_roster 7 before_move after_move mask = Some (Ok partly_moved).
Proof.
  eexists. split; [vm_compute; reflexivity|].
  apply (restricted_roster_exact before_move after_move _ (λ i, i =? 1) (λ i, negb (i =? 3)) partly_moved 7).
  - apply complete_wf, complete_b_sound. vm_compute. reflexivity.
  - apply complete_wf, complete_b_sound. vm_compute. reflexivity.
  - intros i n Hi. unfold before_move in Hi at 1. cbn [nodes] in Hi. do 2 (apply lookup_insert_Some in Hi as [[<- _]|[_ Hi]]; [vm_compute; reflexivity|]).
    apply lookup_singleton_Some in Hi as [<- _]. vm_compute. reflexivity.
  - intros i n Hi. unfold after_move in Hi at 1. cbn [nodes] in Hi. do 3 (apply lookup_insert_Some in Hi as [[<- _]|[_ Hi]]; [vm_compute; reflexivity|]).
    apply lookup_singleton_Some in Hi as [<- _]. vm_compute. reflexivity.
  - vm_compute. lia.
  - split.
    + right. assert (rwf partly_moved) as Hw by (apply complete_wf, complete_b_sound; vm_compute; reflexivity). split; [done|].
      apply check_sane_sane; [done|]. vm_compute. reflexivity.
    + intros i. unfold chosen. destruct (decide (i = 1)) as [->|H1]; [vm_compute; reflexivity|]. destruct (decide (i = 2)) as [->|H2]; [vm_compute; reflexivity|].
      destruct (decide (i = 3)) as [->|H3]; [vm_compute; reflexivity|]. destruct (decide (i = 4)) as [->|H4]; [vm_compute; reflexivity|].
      unfold partly_moved, before_move, after_move. cbn [nodes]. by rewrite !lookup_insert_ne, !lookup_singleton_ne by done.
Defined.
